(* ===== verification/_CoqProject ===== *)
-Q . S2P
Prelude.v
GraphTypes.v
Lock.v
Envelope.v
Reference.v
DataPlane.v
CharMap.v
Cycle.v
Graph.v
IpAddr.v
Config.v
Pattern.v
Ring.v
Tap.v
State.v
Boundary.v
Log.v
Arbiter.v
Frames.v
Channel.v
Inbox.v
FanOut.v
Daemon.v
Control.v
Paths.v
Resolver.v
Identity.v
Leg.v
LegSend.v
LegTask.v
LegLife.v
Pump.v
MapNode.v
CodecNode.v
Exec.v
ExecFlow.v
SerialLines.v
Serial.v
Pty.v
PtyHost.v
PtyRead.v
Rpc.v
Lines.v
Conn.v
Web.v
Leash.v
Registry.v
