(* ===== verification/Prelude.v ===== *)
(** * serial_nexus: verification development

    serial_nexus is a daemon that joins serial ports, pseudo-terminals, logs,
    protocol codecs and network legs into a graph.  Bytes flow hostward (from the
    devices to any number of consumers, lossy but counted) and targetward (from
    writers to the devices, never lossy, arbitrated by a write lock).  Operators
    describe the graph in a configuration that is judged as a whole before
    anything is created.

    ** Parts of the program and files of the development

    - Prelude.v (this file): outcomes of Rust code ([exec]: [Ok], [Err], [Panic]),
      machine integers, bytes and big-endian fields, slices and indexing, hash-map
      iteration orders, shared tactics and hints.
    - GraphTypes.v: the vocabulary of core/src/graph.rs (orientations, write modes,
      endpoint addresses and their text, shapes, edges, [ValidationError]).
    - Lock.v: core/src/lock.rs, [EndpointLock] with every operation; a step relation
      [lock_step] over [LockOp], runs and reachable states.
    - Envelope.v: codec-api/src/lib.rs, the framed envelope ([encode],
      [try_decode]), the streaming [FrameDecoder], the link hello; and the read loop
      of daemon/src/nodes/exec.rs.
    - Reference.v: the [Codec] trait as a class and the reference framing codec of
      codecs/reference with its resynchronisation.
    - DataPlane.v: core/src/data.rs, the hostward fan-out and the targetward
      contract.  [TargetwardSink] is a class, [SinkLaws] what a hop promises; the
      boundary and the interior hop are its instances and the origin's theorems
      are proved against the laws.
    - CharMap.v: core/src/map.rs, picocom's character mappings.
    - Cycle.v: [find_cycle] of core/src/graph.rs.
    - Graph.v: [GraphModel] of core/src/graph.rs, [validate] and [check].
    - IpAddr.v: [is_loopback_addr] of core/src/config.rs with the part of the
      standard library it calls (the reader of [core::net::parser]).
    - Config.v: core/src/config.rs, node and edge configurations, shapes, run-time
      write modes, [GraphConfig::validate].
    - Pattern.v: daemon/src/pattern.rs, pattern requests and the scan window.
    - Ring.v: the replay ring of daemon/src/tap.rs.
    - Tap.v: the tap hub of daemon/src/tap.rs: taps, replay, armed waits, the
      producer's feed.
    - State.v: core/src/state.rs, the status a node reports and its stamp.
    - Boundary.v: the reconnect backoff of daemon/src/boundary.rs.
    - Log.v: daemon/src/nodes/log.rs, the log node's queue, writer thread, rotation
      and recovery scan; [log_step] has one step per critical section, [log_run]
      any interleaving of the pump, the control plane and the writer.
    - Arbiter.v: [LockCell] of daemon/src/runtime.rs and everything that waits on one
      or moves its lock: the verbs [lock], [unlock], [send] and steal of
      daemon/src/daemon.rs with their leases and cancellation guards, the node pumps
      ([await_write_grant], [reacquire_held], daemon/src/nodes/leg.rs).  A task is
      [Woken], [Parked] or past its wait; [arb_step] is one operation of the
      environment, [arb_reachable] any sequence of them.
    - Frames.v: [frame_ranges] and [data_frames] of daemon/src/runtime.rs.
    - Channel.v: the bounded channel of the async runtime as an interface: class
      [Mpsc], laws [MpscLaws], the queue [Bounded] as an instance.
    - Inbox.v: targetward queues of daemon/src/runtime.rs: [TargetwardInbox], purge,
      [TeardownLoss], forwarding.  [Lane] is one queue with its senders and pump; a pump delivers what it
      received, charges it to a counter, or lets it go on none ([uncharged]).
    - FanOut.v: the hostward fan-out list and channel routing of the same file.
    - Daemon.v: [Wiring::build], [attach_edge] of runtime.rs and the graph verbs of
      daemon.rs on the shared handles; the invariant [mirrors] and its preservation
      by each change of the handles.
    - Control.v: the verbs as one transition system ([perform], [reached]) interleaved
      with arbitration and pumps, and its theorems.
    - Paths.v: what the resolver uses of [str] and [std::path].
    - Resolver.v: core/src/resolver.rs, over a file system given as a record of reads.
    - Identity.v: daemon/src/nodes/identity_set.rs, the bounded set of identities a peer
      supplies.
    - Leg.v: daemon/src/nodes/leg.rs, counters, hello exchange, binding, the read half;
      LegSend.v the sending half (round over the queues, [write_items], the custody slot) and
      the link of two legs; LegTask.v [channel_targetward], one writer task per channel;
      LegLife.v [supervise] with [bind_listener], the socket file and teardown.
    - Pump.v: [await_origin] and [forward_targetward] of runtime.rs as one loop, which the map
      and the codec node share.
    - MapNode.v: daemon/src/nodes/map.rs; CodecNode.v: daemon/src/nodes/codec.rs.
    - Exec.v: daemon/src/nodes/exec.rs, the exec codec node with its child as a transition
      system: forwarders into the merge queue, supervisor, the two halves of the pump; its status
      and the child's pipes.  ExecFlow.v: its queues, routing and teardown, and the theorems.
    - SerialLines.v: daemon/src/nodes/serial.rs, what nodes assert on a tty: [ExclusivePort]
      with its references, generations, the signal verbs with lease and restore guard.  A step
      comes with the answers of its ioctls; [owed] is the history of clears that failed and were let go.
    - Serial.v: the serial node: supervisor, reader thread, targetward writer ([write_all] of
      runtime.rs), reopen and purge, loss causes, teardown.
    - Pty.v: daemon/src/nodes/pty.rs, creation of a pty node over a [World] its system calls
      change, start and teardown, termios; PtyHost.v its hostward pump and writer thread
      ([host_step], any interleaving); PtyRead.v the reader task: [pass] is one turn of its loop,
      [reader_step] interleaves passes with the control plane and the endpoints.
    - Rpc.v: rpc/src/lib.rs, ids, the error code registry, responses and the check of a received
      one, the door check of a request, base64.
    - Lines.v: the request line reader of daemon/src/control.rs; Conn.v: [serve_connection] of the
      same file, the loop over its five lanes with the writes that poll the verb in flight.
    - Web.v: web/src/server.rs, the request head, authorities and cookies, [gate] (the part of
      [handle_conn] between the head and the response) and the pre-authentication pool; asset
      validators of web/src/assets.rs.
    - Leash.v: rpc/src/leash.rs, the reader thread of stdin and its waiters.
    - Registry.v: daemon/src/registry.rs and [precheck_codecs] of daemon.rs.

    The layers meet at interfaces: Arbiter moves the lock of Lock.v by its operations
    only ([cell_refines_lock]); Control keeps every lock of the daemon reachable in the
    sense of Lock.v, so the lock's theorems hold of it; Daemon uses the configuration
    rules of Config.v as its precondition and the channel of Channel.v.  What a node does with a
    chunk is a [Client] of the pump of Pump.v, its invariant a [ClientInv]; map and codec channel
    are the instances.  A codec is a [Transform] with a [FrameLaw], the reference codec its
    instance; the counters of a decoded channel are a [HostwardChannelStat] (FanOut.v), with an
    instance in the leg, the codec and the exec node.  SerialLines asks of the serial library and the
    drivers the class [DriverLaws]: TIOCEXCL refuses an unprivileged process.  Leg, codec, exec and
    serial node take their queues from Inbox.v and their consumers from FanOut.v.  The pty's reader offers chunks by the hand-off of
    Inbox.v and moves the lock cells of Arbiter.v by its gate, a release and purge records.
    A control connection reads by [next_line] of Lines.v, parses by [parse_incoming_request] of Rpc.v
    over a class [Json] of what it asks of the JSON library, and carries the messages of Tap.v.

    ** How code is modelled

    A struct is a record and a method a function that returns the new value; a
    method that can return an error or panic returns [exec].  [usize], [u32] and
    [u64] values are [Z] (or [nat] where they index a list) with the wrapping and
    saturating operations written out.  A [String] is a Rocq string, [Vec<u8>] a
    list of bytes; [HashMap] is a [gmap], and code that iterates one takes a
    [HashOrder] argument, so that theorems hold for every iteration order.  Code
    that is not in the repository is a parameter: the regular-expression engine
    (class [Engine], laws [in_haystack] and [finds_literals], with the concrete
    [literal_engine] satisfying them), the outcome of each channel [try_send] in
    Tap.v, the TOML attribute table of a codec node (a type parameter), the answers
    of the file system and the clock in Log.v (arguments of each step), the file system
    of Resolver.v (a record of reads, laws [fs_laws], satisfied by the fixture [bench]),
    the codec and flow-control prechecks and [Node::instantiate] in Daemon.v (booleans),
    which task is polled, cancelled or timed out in Arbiter.v (the operations).  In the leg, map,
    codec, exec, serial and pty files a node is a transition system whose states are its awaits; what
    sockets, devices, files, the lock, the other queues and the clock answer are arguments of
    the operations, and what other tasks do to shared state are operations of their own.  Counters
    in a [Cell<u64>] bumped with [+=] are integers there (overflow would abort a debug build);
    atomics and [wrapping_add] wrap.  Histories ([wire], [sent], [p_taken], ...) are fields that
    no step reads.  In Conn.v what a dispatched verb, the broadcast channel and a tap registration
    answer when polled are arguments; in Web.v SHA-1, the lossy decoding of a head and the
    bodies of the assets are parameters, in Registry.v factories, tables and the reader derived for an exec
    table.  In Log.v counters
    bumped with [+=] on u64 and usize are unbounded [Z]; [rotate_pending], a u32,
    wraps.

    Fuel: [dfs_loop] (Cycle.v) runs with one more than the total weight of the
    nodes, [drain_events] (Envelope.v) and [demux_loop] (Reference.v) with one more
    than the bytes buffered, [chunks_of] (Tap.v) with the length of the slice,
    [evict_loop] (Log.v) with the number of queued items; the theorems show that
    each is enough.  [dec_digits] (Log.v) has fuel 20, the digits of a u64.
    [frames_from] (Frames.v) and [drain_loop] (Channel.v) take one unit per byte and
    per queued item; [trim_bytes] (Paths.v) and [split_token] (Web.v) one per byte, [lines_of] (Lines.v) one per byte and one.  [walk] (Resolver.v) has the
    twelve levels and [purge_rounds] (Inbox.v) the three rounds of the code.  [write_all]
    (Serial.v) consumes one answer of the fd per turn; [write_all_exact] says how many are enough.
    [flush_rounds] (PtyRead.v) has the sixteen rounds of the code; the loops over reads of a pty
    consume the list of answers.
    The theorems of SerialLines.v are about runs of at most u64::MAX steps, so that the port
    generation, one [wrapping_add] per port transition, does not come round.

    ** What the theorems show

    - Arbitration (Lock.v): mutual exclusion, the lock invariant, exact outcomes of
      [acquire] and [steal], FIFO fairness over runs, progress of a free lock,
      priority of held origins, safety of lease generations, truthful snapshots.
    - Framing (Envelope.v, Reference.v): round trips, totality on untrusted bytes,
      bounded memory, independence from chunking, exact resynchronisation, and the
      recorded limit of the format ([merged_frames]).
    - Data plane (DataPlane.v): conservation and drain of targetward bytes, memory
      of an interior hop, isolation and accounting of hostward consumers.
    - Mapping (CharMap.v): the compiled table implements first-match-wins.
    - Configuration (Cycle.v, Graph.v, IpAddr.v, Config.v): the validators return on
      every input and accept exactly what declarative rules describe
      ([well_formed], [config_ok]); consequences of acceptance for the lock (one
      held origin per arbitrated endpoint, no pump left waiting) and for the wiring.
    - Waits and taps (Pattern.v, Ring.v, Tap.v): the ring is the last bytes of the
      stream, literal waits are exact across chunk boundaries, matches never span
      an announced gap, replay splices exactly, byte accounting over every
      interleaving, no aborts; and two recorded defects: a replaying wait armed over
      uncharged loss ([replay_seam_hole]) and anchored expressions re-scanned after
      a trim ([anchored_rescan_fires]).
    - Log node (Log.v): the directory is what an in-order subsequence of the offered
      stream makes of it, with exact byte accounting and announced rotation numbers;
      rotation never destroys a file (but see [counter_maximum_clobbers]); a clean
      stop flushes; memory is bounded.
    - Lock cells (Arbiter.v): no wakeup is lost, a freed lock is handed on, a closed
      cell drains, no phantom origin stays, and the cell refines the lock.
    - Queues (Frames.v, Inbox.v, FanOut.v): every byte of a chunk is framed or counted,
      teardown hides no targetward byte of a pump that charges what it does not deliver, three purge
      rounds are enough, a consumer gets the stream or sees what it missed.
    - Control plane (Daemon.v, Control.v): handles mirror the configuration in every
      reachable state, the lock's origins are the configured edges, loading equals
      connecting edge by edge, connect and disconnect are inverse, refused verbs change
      nothing (with two exceptions), at most one origin writes.
    - Device identities (Resolver.v): an identity binds exactly the one device that has
      it, what is listed or captured binds back, minted identities are accepted,
      nothing outside the root is opened; and a recorded defect of capture by path
      ([elsewhere_captured]).
    - The leg (Identity.v, Leg.v, LegSend.v, LegTask.v, LegLife.v): after the hellos a channel is
      bound exactly when both sides configure it; over a connection every byte is on exactly one
      counter and a peer that stays gets what was sent; a bound channel is served in its turn; what
      a dead connection left is purged, nothing else; the published state is that of the
      connection, redials follow the backoff; only stale sockets are reclaimed and the own one is
      removed.  Recorded defects: [suspended_chunk_uncounted],
      [first_chunk_after_connect_discarded], [chmod_failure_leaves_inode].
    - Map and codec nodes (Pump.v, MapNode.v, CodecNode.v): the upstream gets the image of the
      delivered bytes, the device the frames of the accepted pieces, and the rest is counted; decoded
      events have one fate each; two codec nodes on a line are transparent; a queue is served to the
      end when lock and upstream oblige.  Recorded defects: [lost_chunk_is_counted_as_mapped],
      [drained_edge_reports_active].
    - The exec node (Exec.v, ExecFlow.v): over any interleaving of writers, forwarders, restarts and
      edge surgery, a child that reads its stdin gets the chunks written, in order and none
      twice; what it emits is routed event by event, a full consumer charged on its own counter, and
      each byte has one fate; the teardown count is a total up to items a child died in; the status is that of the child and every wait is the
      configured one.  Recorded defects: [cut_item_uncounted], [waiting_bytes_uncounted].
    - The serial node (SerialLines.v, Serial.v): exclusivity and break have an owner the ordered release
      can see, or are owed by a clear the kernel refused, and for an unprivileged daemon that owner is the
      only one; a released node is silent ever after; signal verbs are exclusive and restore their
      line; a reader never outlives its port, no loss goes unnoticed; the device gets the
      queue's chunks in order, and those whose write failed are on no counter; writes are paced and complete or reported.  Recorded defects:
      [reconnect_forgets_failed_chunk], [write_error_reported_as_read],
      [stop_waits_for_silence].
    - The pty node (Pty.v, PtyHost.v, PtyRead.v): creation ends active or faulted with exactly the
      artifacts of that state, ownership before mode, and teardown undoes it; the console gets an
      exact account of the device's stream; every client byte is sent, charged, held or purged, in
      order; the pass that sees a hang-up ends the session whatever the endpoint does, and nothing
      of a session outlives it.  Recorded divergence: [spy_flood_never_suspends].
    - Control connections (Rpc.v, Lines.v, Conn.v): base64 round trips, a received response is
      what was sent, the request lines do not depend on the reads and the buffer keeps to its cap; every
      request is answered once with its own id, a tap's messages come behind its reply and end with
      exactly one terminal event, and a suspended verb never stops the other lanes.
    - Web console (Web.v): what the gate answers, exactly; the WebSocket opens for the token only;
      the bootstrap's cookies open what they should; the pre-authentication pool evicts the longest
      waiting and no other.  Recorded divergences: [head_one_over_cap], [bracket_tail_ignored].
    - The leash (Leash.v): no waiter misses the close of stdin; none is released or woken before.
    - Registry (Registry.v): a registration never replaces a factory, and the precheck passes exactly
      when every codec node can be built.
    - State and backoff (State.v, Boundary.v): the stamp is the time of the last
      transition; the exponential schedule in closed form, the fixed one unfloored.

    ** Not modelled, and next

    Next, in this order: parameter parsing of the verbs, the path policy of rpc/src/socket.rs, the
    WebSocket bridge.  Of a control connection the texts of errors are not modelled; of the console, TLS,
    deadlines, the texts of responses and the run of the WebSocket.  Of the leg, the refusal of a second peer and the construction of the tasks are not
    modelled; of the codec node, the re-multiplexer that only drains; of the serial node, the line
    settings of an open and the [Drop] of a node never torn down; of the pty, the arms for systems
    other than Linux; of all nodes, the JSON of their
    state.  Of the
    control plane, reply fields, which node a purge reads (the bytes
    purged are an argument, [purge_origin] of PtyRead.v counts them) and status hooks are not modelled; the identity of a new
    lock follows the order of declaration, the code's hash order decides nothing else.
    Of the resolver, file names are UTF-8 and one call sees one state of the file
    system.  Of the log
    node, the wall-clock bound of the teardown collector is not modelled.  Not modelled: the English
    text of errors, serde's mapping of configurations to TOML, async plumbing,
    sockets, devices and system calls (sys), the command line, web bridge,
    simulator, doctor, device preparation, tests and examples. *)

From Stdlib Require Export Strings.Byte.
From Stdlib Require Import Strings.String Strings.Ascii.
From stdpp Require Export base list gmap strings numbers.
From stdpp Require Export sorting.

#[export] Set Default Goal Selector "!".

(** ** Scope, automation *)

Declare Scope snx_scope.
Delimit Scope snx_scope with snx.
#[global] Open Scope snx_scope.
#[global] Open Scope Z_scope.

Create HintDb snx discriminated.
Create Rewrite HintDb snx_len.

(** ** Outcomes of Rust code

    [Ok] and [Err] are the two variants of [Result]; [Panic] is an abort of the
    thread (an out-of-range index, a missing map key behind [\[\]]).  Code that
    cannot fail in the source is a plain function. *)
Inductive exec (E A : Type) : Type :=
| Ok (a : A)
| Err (e : E)
| Panic.
Arguments Ok {E A} _.
Arguments Err {E A} _.
Arguments Panic {E A}.

#[export] Instance exec_ret {E} : MRet (exec E) := fun _ a => Ok a.
#[export] Instance exec_bind {E} : MBind (exec E) :=
  fun _ _ k m => match m with Ok a => k a | Err e => Err e | Panic => Panic end.

#[export] Instance exec_eq_dec {E A} `{EqDecision E, EqDecision A} :
  EqDecision (exec E A).
Proof. solve_decision. Defined.

(** A guard clause: [if b { return Err(e) }]. *)
Notation "'reject' b 'with' e ';' k" := (if b : bool then Err e else k)
  (at level 10, b at level 100, e at level 100, k at level 200) : snx_scope.

(** [res.map_err(|_| e)?] on an [Option]-like value. *)
Definition ok_or {E A} (e : E) (o : option A) : exec E A :=
  match o with Some a => Ok a | None => Err e end.

(** ** Machine integers

    A [wN] value is a [Z] in [0, 2^N); the wrapping and saturating operations
    of the source are written out. *)
Definition u8_max : Z := 2 ^ 8 - 1.
Definition u16_max : Z := 2 ^ 16 - 1.
Definition u32_max : Z := 2 ^ 32 - 1.
Definition u64_max : Z := 2 ^ 64 - 1.

Definition u64 (z : Z) : Prop := 0 <= z <= u64_max.

Definition u64_wrapping_add (a b : Z) : Z := (a + b) mod 2 ^ 64.
Definition u64_saturating_add (a b : Z) : Z := Z.min (a + b) u64_max.
Definition u64_saturating_mul (a b : Z) : Z := Z.min (a * b) u64_max.

Lemma u64_wrapping_add_range a b : u64 (u64_wrapping_add a b).
Proof. unfold u64, u64_wrapping_add, u64_max. pose proof (Z.mod_pos_bound (a + b) (2 ^ 64)). lia. Qed.

Lemma u64_wrapping_add_small a b :
  0 <= a -> 0 <= b -> a + b <= u64_max -> u64_wrapping_add a b = a + b.
Proof. unfold u64_wrapping_add, u64_max. intros. apply Z.mod_small. lia. Qed.

Lemma u64_wrapping_add_assoc a b c :
  u64_wrapping_add (u64_wrapping_add a b) c = u64_wrapping_add a (b + c).
Proof.
  unfold u64_wrapping_add. rewrite Zplus_mod_idemp_l. f_equal. lia.
Qed.

(** A wrapping counter, modulo [2 ^ 64]. *)
Definition wrapped (n : Z) : Z := n mod 2 ^ 64.

Lemma wrapped_add a n x : wrapped x = wrapped a -> wrapped (u64_wrapping_add x n) = wrapped (a + n).
Proof.
  unfold wrapped, u64_wrapping_add. rewrite Z.mod_mod by lia. intros E.
  by rewrite Z.add_mod, E, <- Z.add_mod by lia.
Qed.

(** A wrapping increment always changes the value. *)
Lemma u64_wrapping_succ_ne g : u64 g -> u64_wrapping_add g 1 <> g.
Proof.
  unfold u64, u64_wrapping_add, u64_max. intros Hg.
  destruct (decide (g = 2 ^ 64 - 1)) as [-> | Hne].
  - vm_compute. discriminate.
  - rewrite Z.mod_small by lia. lia.
Qed.

Lemma u64_saturating_add_range a b : u64 a -> u64 b -> u64 (u64_saturating_add a b).
Proof. unfold u64, u64_saturating_add, u64_max. lia. Qed.

#[export] Hint Resolve u64_wrapping_add_range u64_saturating_add_range
  u64_wrapping_succ_ne : snx.

(** ** Bytes *)

#[export] Instance byte_eq_dec : EqDecision byte := Byte.byte_eq_dec.

(** The numeric value of a [u8]. *)
Definition bval (b : byte) : Z := Z.of_N (Byte.to_N b).

(** [z as u8]. *)
Definition as_u8 (z : Z) : byte :=
  match Byte.of_N (Z.to_N (z mod 2 ^ 8)) with Some b => b | None => x00 end.

Lemma bval_range b : 0 <= bval b < 256.
Proof. unfold bval. pose proof (Byte.to_N_bounded b). lia. Qed.

Lemma as_u8_bval b : as_u8 (bval b) = b.
Proof.
  unfold as_u8. rewrite Z.mod_small by apply bval_range.
  unfold bval. rewrite N2Z.id, Byte.of_to_N. reflexivity.
Qed.

Lemma bval_as_u8 z : bval (as_u8 z) = z mod 2 ^ 8.
Proof.
  unfold as_u8, bval. pose proof (Z.mod_pos_bound z (2 ^ 8) ltac:(lia)).
  destruct (Byte.of_N (Z.to_N (z mod 2 ^ 8))) as [b|] eqn:E.
  - apply Byte.to_of_N in E. rewrite E. lia.
  - apply Byte.of_N_None_iff in E. lia.
Qed.

#[export] Instance bval_inj : Inj (=) (=) bval.
Proof. intros a b H. rewrite <- (as_u8_bval a), H. apply as_u8_bval. Qed.

(** ** Byte strings

    A Rust [String] is a Rocq [string]; [as_bytes] and [from_bytes] move between
    it and the byte list it is stored as. *)
Definition as_bytes (s : string) : list byte := list_byte_of_string s.
Definition from_bytes (bs : list byte) : string := string_of_list_byte bs.

Lemma as_from_bytes bs : as_bytes (from_bytes bs) = bs.
Proof. apply list_byte_of_string_of_list_byte. Qed.
Lemma from_as_bytes s : from_bytes (as_bytes s) = s.
Proof. apply string_of_list_byte_of_string. Qed.

#[export] Instance as_bytes_inj : Inj (=) (=) as_bytes.
Proof. intros a b H. rewrite <- (from_as_bytes a), H. apply from_as_bytes. Qed.

(** ** Lengths and slices *)

(** [v.len()], as an integer. *)
Definition len {A} (l : list A) : Z := Z.of_nat (length l).

(** [s.len()]: the byte length of a string. *)
Definition slen (s : string) : Z := Z.of_nat (String.length s).

Lemma len_nil {A} : len (@nil A) = 0.
Proof. reflexivity. Qed.
Lemma len_cons {A} (x : A) l : len (x :: l) = 1 + len l.
Proof. unfold len. simpl. lia. Qed.
Lemma len_app {A} (l k : list A) : len (l ++ k) = len l + len k.
Proof. unfold len. rewrite length_app. lia. Qed.
Lemma len_nonneg {A} (l : list A) : 0 <= len l.
Proof. unfold len. lia. Qed.
Lemma len_zero_inv {A} (l : list A) : len l = 0 -> l = [].
Proof. destruct l; [done|]. rewrite len_cons. pose proof (len_nonneg l). lia. Qed.
Lemma len_take {A} n (l : list A) : 0 <= n <= len l -> len (take (Z.to_nat n) l) = n.
Proof. unfold len. intros. rewrite length_take. lia. Qed.
Lemma len_drop {A} n (l : list A) : 0 <= n <= len l -> len (drop (Z.to_nat n) l) = len l - n.
Proof. unfold len. intros. rewrite length_drop. lia. Qed.

#[export] Hint Rewrite @len_nil @len_cons @len_app : snx_len.
#[export] Hint Resolve len_nonneg : snx.

Lemma length_list_byte_of_string s :
  length (list_byte_of_string s) = String.length s.
Proof.
  unfold list_byte_of_string. rewrite length_map.
  induction s as [|a s IH]; simpl; [done|]. by rewrite IH.
Qed.

Lemma len_as_bytes s : len (as_bytes s) = slen s.
Proof. unfold len, slen, as_bytes. by rewrite length_list_byte_of_string. Qed.

#[export] Hint Rewrite len_as_bytes : snx_len.

(** [&l\[a..b\]] with Rust's bounds checks: an inverted or out-of-range slice
    panics. *)
Definition slice {E A} (l : list A) (a b : Z) : exec E (list A) :=
  if (0 <=? a) && (a <=? b) && (b <=? len l)
  then Ok (take (Z.to_nat (b - a)) (drop (Z.to_nat a) l))
  else Panic.

(** [l\[i\]]. *)
Definition index {E A} (l : list A) (i : Z) : exec E A :=
  if 0 <=? i then
    match l !! Z.to_nat i with Some x => Ok x | None => Panic end
  else Panic.

Lemma slice_ok {E A} (l : list A) a b :
  0 <= a -> a <= b -> b <= len l ->
  slice (E := E) l a b = Ok (take (Z.to_nat (b - a)) (drop (Z.to_nat a) l)).
Proof.
  intros. unfold slice.
  destruct (Z.leb_spec 0 a), (Z.leb_spec a b), (Z.leb_spec b (len l)); simpl; (done || lia).
Qed.

Lemma index_ok {E A} (l : list A) i :
  0 <= i < len l -> exists x, index (E := E) l i = Ok x /\ l !! Z.to_nat i = Some x.
Proof.
  intros Hi. unfold index, len in *. destruct (Z.leb_spec 0 i); [|lia].
  destruct (lookup_lt_is_Some_2 l (Z.to_nat i)) as [x Hx]; [lia|].
  exists x. by rewrite Hx.
Qed.

Lemma bind_index {E A B} (l : list A) i x (k : A -> exec E B) :
  (0 <=? i) = true -> l !! Z.to_nat i = Some x -> (index l i ≫= k) = k x.
Proof. intros Hi Hx. unfold index. by rewrite Hi, Hx. Qed.

(** Read the constant indices at the front of a chain of binds. *)
Ltac read_indices := repeat (erewrite bind_index by reflexivity).

Lemma bind_ok {E A B} (a : A) (k : A -> exec E B) : (Ok a ≫= k) = k a.
Proof. done. Qed.

(** ** Big-endian integers *)

(** [uN::from_be_bytes]. *)
Fixpoint be_combine (acc : Z) (bs : list byte) : Z :=
  match bs with
  | [] => acc
  | b :: bs => be_combine (acc * 256 + bval b) bs
  end.
Definition from_be (bs : list byte) : Z := be_combine 0 bs.

(** [to_be_bytes] at a width of [n] bytes. *)
Fixpoint to_be (n : nat) (z : Z) : list byte :=
  match n with
  | O => []
  | S n => as_u8 (z / 256 ^ Z.of_nat n) :: to_be n z
  end.

Lemma length_to_be n z : length (to_be n z) = n.
Proof. induction n; simpl; congruence. Qed.
Lemma len_to_be n z : len (to_be n z) = Z.of_nat n.
Proof. unfold len. by rewrite length_to_be. Qed.
#[export] Hint Rewrite len_to_be : snx_len.

Lemma be_combine_to_be n z acc :
  be_combine acc (to_be n z) = acc * 256 ^ Z.of_nat n + z mod 256 ^ Z.of_nat n.
Proof.
  revert acc. induction n as [|n IH]; intros acc.
  - simpl. change (256 ^ Z.of_nat 0) with 1. rewrite Z.mod_1_r. lia.
  - cbn [to_be be_combine]. rewrite IH, bval_as_u8, Nat2Z.inj_succ, Z.pow_succ_r by lia.
    set (p := 256 ^ Z.of_nat n). assert (0 < p) by (apply Z.pow_pos_nonneg; lia).
    change (2 ^ 8) with 256. rewrite (Z.mul_comm 256 p).
    rewrite (Z.rem_mul_r z p 256) by lia. ring.
Qed.

Lemma from_to_be n z : 0 <= z < 256 ^ Z.of_nat n -> from_be (to_be n z) = z.
Proof.
  intros Hz. unfold from_be. rewrite be_combine_to_be, Z.mod_small by done. lia.
Qed.

Lemma be_combine_app acc a b :
  be_combine acc (a ++ b) = be_combine (be_combine acc a) b.
Proof. revert acc. induction a; intros; simpl; auto. Qed.

Lemma be_combine_range acc bs :
  acc * 256 ^ len bs <= be_combine acc bs < (acc + 1) * 256 ^ len bs.
Proof.
  revert acc. induction bs as [|b bs IH]; intros acc; cbn [be_combine].
  - change (len (@nil byte)) with 0. rewrite Z.pow_0_r. lia.
  - rewrite len_cons, Z.pow_add_r by (pose proof (len_nonneg bs); lia).
    specialize (IH (acc * 256 + bval b)). pose proof (bval_range b).
    assert (0 < 256 ^ len bs) by (apply Z.pow_pos_nonneg; [lia|apply len_nonneg]).
    change (256 ^ 1) with 256. nia.
Qed.

Lemma from_be_range bs : 0 <= from_be bs < 256 ^ len bs.
Proof. pose proof (be_combine_range 0 bs). unfold from_be. lia. Qed.

Lemma to_be_combine acc bs : to_be (length bs) (be_combine acc bs) = bs.
Proof.
  revert acc. induction bs as [|b bs IH]; intros acc; [done|].
  cbn [length to_be be_combine]. f_equal; [|apply IH].
  pose proof (be_combine_range (acc * 256 + bval b) bs) as Hr. unfold len in Hr.
  assert (0 < 256 ^ Z.of_nat (length bs)) by (apply Z.pow_pos_nonneg; lia).
  replace (_ / _) with (acc * 256 + bval b) by (apply Z.div_unique_pos with
    (be_combine (acc * 256 + bval b) bs - (acc * 256 + bval b) * 256 ^ Z.of_nat (length bs)); nia).
  rewrite <- (as_u8_bval b) at 2. unfold as_u8. do 3 f_equal.
  change (2 ^ 8) with 256. rewrite Z.add_comm, Z.mod_add by lia. done.
Qed.

Lemma to_from_be bs : to_be (length bs) (from_be bs) = bs.
Proof. apply to_be_combine. Qed.

(** ** Lists *)

(** [VecDeque::retain(|w| *w != x)]. *)
Definition retain_ne {A} `{EqDecision A} (x : A) (l : list A) : list A :=
  filter (fun y => y <> x) l.

Section retain.
Context {A : Type} `{EqDecision A}.
Implicit Types (x y : A) (l : list A).

Lemma elem_of_retain_ne x y l : y ∈ retain_ne x l <-> y <> x /\ y ∈ l.
Proof. unfold retain_ne. by rewrite list_elem_of_filter. Qed.

Lemma retain_ne_nodup x l : NoDup l -> NoDup (retain_ne x l).
Proof. apply NoDup_filter. Qed.

Lemma retain_ne_id x l : x ∉ l -> retain_ne x l = l.
Proof.
  unfold retain_ne. induction l as [|y l IH]; [done|].
  rewrite not_elem_of_cons. intros [Hne Hl]. rewrite filter_cons_True by congruence.
  by rewrite IH.
Qed.

Lemma retain_ne_sublist x l : retain_ne x l `sublist_of` l.
Proof. apply sublist_filter. Qed.
End retain.
#[export] Hint Resolve retain_ne_nodup : snx.

(** [Iterator::find]. *)
Fixpoint find_first {A} (p : A -> bool) (l : list A) : option A :=
  match l with
  | [] => None
  | x :: l => if p x then Some x else find_first p l
  end.

Lemma find_first_Some {A} (p : A -> bool) l x :
  find_first p l = Some x -> x ∈ l /\ p x = true.
Proof.
  induction l as [|y l IH]; simpl; [done|]. destruct (p y) eqn:Hp.
  - intros [= ->]. split; [left|done].
  - intros H. destruct (IH H). split; [by right|done].
Qed.

Lemma find_first_None {A} (p : A -> bool) l :
  find_first p l = None <-> (forall x, x ∈ l -> p x = false).
Proof.
  induction l as [|y l IH]; simpl.
  - split; [|done]. intros _ x Hx. inversion Hx.
  - destruct (p y) eqn:Hp; split.
    + done.
    + intros H. rewrite (H y) in Hp; [done|left].
    + intros H x Hx. apply elem_of_cons in Hx as [->|Hx]; [done|]. by apply IH.
    + intros H. apply IH. intros x Hx. apply H. by right.
Qed.

(** ** Tactics *)

(** Split a conjunction of boolean tests in the hypotheses. *)
Ltac split_bools :=
  repeat match goal with
  | H : (_ && _)%bool = true |- _ => apply andb_prop in H as [? ?]
  | H : (_ || _)%bool = false |- _ => apply orb_false_elim in H as [? ?]
  | H : negb _ = true |- _ => apply negb_true_iff in H
  | H : negb _ = false |- _ => apply negb_false_iff in H
  | H : bool_decide _ = true |- _ => apply bool_decide_eq_true in H
  | H : bool_decide _ = false |- _ => apply bool_decide_eq_false in H
  | H : (_ <=? _) = true |- _ => apply Z.leb_le in H
  | H : (_ <=? _) = false |- _ => apply Z.leb_gt in H
  | H : (_ <? _) = true |- _ => apply Z.ltb_lt in H
  | H : (_ <? _) = false |- _ => apply Z.ltb_ge in H
  | H : (_ =? _) = true |- _ => apply Z.eqb_eq in H
  | H : (_ =? _) = false |- _ => apply Z.eqb_neq in H
  end.

(** Length arithmetic: normalise [len] and finish with [lia]. *)
Ltac len_lia := autorewrite with snx_len in *; lia.

(** Case on the test of the first conditional in the goal, keeping it. *)
Ltac case_if :=
  match goal with
  | |- context [if ?b then _ else _] =>
      lazymatch type of b with
      | bool => let E := fresh "E" in destruct b eqn:E
      | _ => case_decide
      end
  end.

(** ** Ordered and hashed maps *)

(** Key order of a [BTreeMap] with numeric keys. *)
Definition key_le {V} (a b : N * V) : Prop := (a.1 <= b.1)%N.

#[export] Instance key_le_dec {V} : RelDecision (@key_le V).
Proof. intros a b. unfold key_le. apply _. Defined.
#[export] Instance key_le_total {V} : Total (@key_le V).
Proof. intros a b. unfold key_le. lia. Qed.
#[export] Instance key_le_trans {V} : Transitive (@key_le V).
Proof. intros a b c. unfold key_le. lia. Qed.

(** Iteration over a [BTreeMap]: ascending by key. *)
Definition btree_iter {V} (m : gmap N V) : list (N * V) :=
  merge_sort key_le (map_to_list m).

Lemma btree_iter_perm {V} (m : gmap N V) : btree_iter m ≡ₚ map_to_list m.
Proof. apply merge_sort_Permutation. Qed.

Lemma elem_of_btree_iter {V} (m : gmap N V) k v :
  (k, v) ∈ btree_iter m <-> m !! k = Some v.
Proof. rewrite btree_iter_perm. apply elem_of_map_to_list. Qed.

Lemma btree_iter_sorted {V} (m : gmap N V) : StronglySorted key_le (btree_iter m).
Proof. apply StronglySorted_merge_sort; apply _. Qed.

(** Iteration over a [HashMap] visits every entry once, in an order the language
    leaves unspecified: it is an argument of the code that iterates, and every
    theorem holds for each order. *)
Class HashOrder (K : Type) `{Countable K} : Type := {
  hash_iter : forall {V}, gmap K V -> list (K * V);
  hash_iter_perm : forall {V} (m : gmap K V), hash_iter m ≡ₚ map_to_list m
}.
#[global] Hint Mode HashOrder ! - - : typeclass_instances.

Lemma elem_of_hash_iter `{HashOrder K} {V} (m : gmap K V) k v :
  (k, v) ∈ hash_iter m <-> m !! k = Some v.
Proof. rewrite hash_iter_perm. apply elem_of_map_to_list. Qed.

Lemma hash_iter_keys_nodup `{HashOrder K} {V} (m : gmap K V) :
  NoDup (hash_iter m).*1.
Proof. rewrite hash_iter_perm. apply NoDup_fst_map_to_list. Qed.

Lemma elem_of_hash_keys `{HashOrder K} {V} (m : gmap K V) k :
  k ∈ (hash_iter m).*1 <-> is_Some (m !! k).
Proof.
  rewrite list_elem_of_fmap. split.
  - intros ([k' v] & -> & Hin). exists v. by apply elem_of_hash_iter.
  - intros [v Hv]. exists (k, v). split; [done|]. by apply elem_of_hash_iter.
Qed.

(** One concrete order, for evaluating the definitions. *)
Definition some_order {K} `{Countable K} : HashOrder K :=
  {| hash_iter V m := map_to_list m; hash_iter_perm V m := Permutation_refl _ |}.

(** A key stays unique in a sub-list. *)
Lemma NoDup_fmap_filter {A B} (g : A -> B) (P : A -> Prop) `{!forall x, Decision (P x)} (l : list A) :
  NoDup (g <$> l) -> NoDup (g <$> filter P l).
Proof.
  induction l as [|x l IH]; [done|]. rewrite fmap_cons, filter_cons. intros [Hx Hl]%NoDup_cons.
  case_decide; [|auto]. rewrite fmap_cons. apply NoDup_cons. split; [|auto].
  intros (y & Ey & [_ Hy]%list_elem_of_filter)%list_elem_of_fmap. apply Hx. rewrite Ey. by apply list_elem_of_fmap_2.
Qed.
