(* ===== verification/GraphTypes.v ===== *)
(** * Vocabulary of the graph model (core/src/graph.rs)

    Orientations, write modes, arbitration policies, endpoint addresses with
    their textual form, node shapes, edges and the structural errors.  The lock
    (Lock.v), the validator (Graph.v) and the configuration (Config.v) share
    them. *)

From S2P Require Import Prelude.
From Stdlib Require Import Strings.String Strings.Ascii.

(** ** Enumerations *)

Inductive Facing := Target | Host.

Definition opposite (f : Facing) : Facing :=
  match f with Target => Host | Host => Target end.

Definition facing_display (f : Facing) : string :=
  match f with Target => "target" | Host => "host" end.

Inductive WriteMode := Never | OnDemand | Held.

(** [#\[default\]] of [WriteMode]. *)
Definition write_mode_default : WriteMode := OnDemand.

Definition write_mode_display (m : WriteMode) : string :=
  match m with Never => "never" | OnDemand => "on-demand" | Held => "held" end.

Inductive Arbitration := Exclusive | FreeForAll.

Definition arbitration_default : Arbitration := Exclusive.

#[export] Instance Facing_eq_dec : EqDecision Facing.
Proof. solve_decision. Defined.
#[export] Instance WriteMode_eq_dec : EqDecision WriteMode.
Proof. solve_decision. Defined.
#[export] Instance Arbitration_eq_dec : EqDecision Arbitration.
Proof. solve_decision. Defined.

(** ** Endpoint addresses *)

Definition DEFAULT_ENDPOINT : string := "".
Definition MAX_NAME_LEN : Z := 256.

Record EndpointAddr := mkAddr { addr_node : string; addr_endpoint : string }.

#[export] Instance EndpointAddr_eq_dec : EqDecision EndpointAddr.
Proof. solve_decision. Defined.
#[export] Instance EndpointAddr_countable : Countable EndpointAddr.
Proof.
  refine (inj_countable' (fun a => (addr_node a, addr_endpoint a))
                         (fun p => mkAddr p.1 p.2) _).
  by intros [].
Defined.

(** [EndpointAddr::node]: the sole endpoint of a single-endpoint node. *)
Definition addr_of_node (node : string) : EndpointAddr := mkAddr node DEFAULT_ENDPOINT.

(** [EndpointAddr::channel]. *)
Definition addr_channel (node channel : string) : EndpointAddr := mkAddr node channel.

Definition is_default (a : EndpointAddr) : bool :=
  bool_decide (addr_endpoint a = DEFAULT_ENDPOINT).

(** [str::split_once(c)] for an ASCII character: the first occurrence splits. *)
Fixpoint split_once (c : ascii) (s : string) : option (string * string) :=
  match s with
  | EmptyString => None
  | String a s' =>
      if Ascii.eqb a c then Some (EmptyString, s')
      else match split_once c s' with
           | Some (l, r) => Some (String a l, r)
           | None => None
           end
  end.

(** [str::contains(c)]. *)
Fixpoint contains_char (c : ascii) (s : string) : bool :=
  match s with
  | EmptyString => false
  | String a s' => Ascii.eqb a c || contains_char c s'
  end.

Definition slash : ascii := "/"%char.

(** [Display for EndpointAddr]. *)
Definition addr_display (a : EndpointAddr) : string :=
  if is_default a then addr_node a
  else addr_node a ++ String slash (addr_endpoint a).

(** [FromStr for EndpointAddr]: infallible. *)
Definition addr_from_str (s : string) : EndpointAddr :=
  match split_once slash s with
  | Some (node, endpoint) => mkAddr node endpoint
  | None => addr_of_node s
  end.

(** ** White space

    [s.trim().is_empty()] holds exactly when every character of [s] has the
    Unicode [White_Space] property; [strip_ws] removes one such character from
    the front of a UTF-8 byte string. *)
Definition strip_ws (bs : list byte) : option (list byte) :=
  match bs with
  | b0 :: r0 =>
      if (0x09 <=? bval b0) && (bval b0 <=? 0x0d) || (bval b0 =? 0x20) then Some r0
      else match r0 with
      | b1 :: r1 =>
          if (bval b0 =? 0xc2) && ((bval b1 =? 0x85) || (bval b1 =? 0xa0)) then Some r1
          else match r1 with
          | b2 :: r2 =>
              let c := bval b0 * 65536 + bval b1 * 256 + bval b2 in
              if (c =? 0xe19a80) || (0xe28080 <=? c) && (c <=? 0xe2808a)
                 || (c =? 0xe280a8) || (c =? 0xe280a9) || (c =? 0xe280af)
                 || (c =? 0xe2819f) || (c =? 0xe38080)
              then Some r2 else None
          | [] => None
          end
      | [] => None
      end
  | [] => None
  end.

Fixpoint all_ws (fuel : nat) (bs : list byte) : bool :=
  match bs, fuel with
  | [], _ => true
  | _, O => false
  | _, S n => match strip_ws bs with Some r => all_ws n r | None => false end
  end.

(** [s.trim().is_empty()]. *)
Definition trim_is_empty (s : string) : bool := all_ws (String.length s) (as_bytes s).

(** ** Shapes and edges *)

Record EndpointSpec := mkEndpoint {
  ep_name : string;
  ep_facing : Facing;
  ep_arbitration : Arbitration
}.

Definition endpoint_host (name : string) : EndpointSpec := mkEndpoint name Host Exclusive.
Definition endpoint_target (name : string) : EndpointSpec := mkEndpoint name Target Exclusive.

Record NodeShape := mkShape { shape_endpoints : list EndpointSpec }.

Definition single_arb (facing : Facing) (arb : Arbitration) : NodeShape :=
  mkShape [mkEndpoint DEFAULT_ENDPOINT facing arb].

Definition single (facing : Facing) : NodeShape := single_arb facing Exclusive.

(** [NodeShape::endpoint]. *)
Definition shape_endpoint (s : NodeShape) (name : string) : option EndpointSpec :=
  find_first (fun e => String.eqb (ep_name e) name) (shape_endpoints s).

Record EdgeSpec := mkEdge {
  edge_a : EndpointAddr;
  edge_b : EndpointAddr;
  edge_write_mode : WriteMode
}.

Definition edge_new (a b : EndpointAddr) : EdgeSpec := mkEdge a b write_mode_default.
Definition with_mode (e : EdgeSpec) (m : WriteMode) : EdgeSpec := mkEdge (edge_a e) (edge_b e) m.

(** ** Structural errors *)

Inductive ValidationError :=
| InvalidName (node : string) (endpoint : option string)
| EmptyName (node : string)
| BlankName (node : string) (endpoint : option string)
| NameTooLong (node : string) (endpoint : option string) (len max : Z)
| NumericOutOfRange (node field : string) (value min max : Z)
| SerialFacesTarget (node : string)
| MultiplexedEdgeNotHeld (edge : Z) (origin mux : EndpointAddr) (write_mode : WriteMode)
| ConflictingHeldEdges (endpoint first second : EndpointAddr)
| EmptyConfig
| DuplicateEndpoint (node endpoint : string)
| DuplicateNodeName (node : string)
| UnknownNode (edge : Z) (node : string)
| UnknownEndpoint (edge : Z) (addr : EndpointAddr)
| SameFacingEdge (edge : Z) (facing : Facing)
| TargetEndpointOversubscribed (addr : EndpointAddr) (count : Z)
| Cycle (nodes : list string)
| NonLoopbackBind (node address : string)
| EmptyLeg (node : string)
| ZeroHostwardBuffer (node : string)
| UnknownMapping (node mapping : string).

#[export] Instance ValidationError_eq_dec : EqDecision ValidationError.
Proof. solve_decision. Defined.

(** ** Lemmas *)

Lemma contains_char_split c s :
  contains_char c s = false -> split_once c s = None.
Proof.
  induction s as [|a s IH]; simpl; [done|]. intros [H1 H2]%orb_false_elim.
  by rewrite H1, IH.
Qed.

Lemma split_once_app c l r :
  contains_char c l = false -> split_once c (l ++ String c r) = Some (l, r).
Proof.
  induction l as [|a l IH]; simpl.
  - intros _. by rewrite Ascii.eqb_refl.
  - intros [H1 H2]%orb_false_elim. by rewrite H1, IH.
Qed.

Lemma split_once_Some c s l r :
  split_once c s = Some (l, r) -> s = (l ++ String c r)%string /\ contains_char c l = false.
Proof.
  revert l. induction s as [|a s IH]; intros l; simpl; [done|].
  destruct (Ascii.eqb a c) eqn:E.
  - intros [= <- <-]. apply Ascii.eqb_eq in E as ->. done.
  - destruct (split_once c s) as [[l' r']|]; [|done]. intros [= <- <-].
    destruct (IH l' eq_refl) as [-> H]. simpl. by rewrite E, H.
Qed.

Lemma split_once_None c s : split_once c s = None -> contains_char c s = false.
Proof.
  induction s as [|a s IH]; simpl; [done|].
  destruct (Ascii.eqb a c); [done|]. destruct (split_once c s) as [[]|]; [done|]. auto.
Qed.

Lemma shape_endpoint_Some s name e :
  shape_endpoint s name = Some e -> e ∈ shape_endpoints s /\ ep_name e = name.
Proof. intros [H1 H2]%find_first_Some. split; [done|]. by apply String.eqb_eq. Qed.

(** ** Addresses survive their textual form *)

(** An address whose node name has no [/] (the rule the validator enforces)
    is recovered exactly by parsing its display form; channel identities are
    unrestricted for this direction. *)
Theorem addr_display_roundtrip a :
  contains_char slash (addr_node a) = false ->
  addr_from_str (addr_display a) = a.
Proof.
  intros H. unfold addr_from_str, addr_display, is_default. destruct a as [n e]; simpl in *.
  case_bool_decide as Hd; subst.
  - by rewrite contains_char_split.
  - by rewrite split_once_app.
Qed.

Lemma addr_display_roundtrip_witness :
  addr_from_str (addr_display (mkAddr "mux" "console")) = mkAddr "mux" "console".
Proof. apply addr_display_roundtrip. reflexivity. Defined.
