(* ===== verification/Lock.v ===== *)
(** * Write arbitration (core/src/lock.rs)

    The per-endpoint exclusive write lock: holder, FIFO waiter queue, grant
    generation, purge accounting and the last steal.  Every method of
    [EndpointLock] is a function on its state; [lock_step] runs them as labelled
    steps, and the theorems are about arbitrary sequences of steps. *)

From S2P Require Import Prelude GraphTypes.

Abbreviation OriginId := N (only parsing).

(** ** State and results *)

Inductive Acquire :=
| Granted
| AlreadyHeld
| Denied (held_by : OriginId)
| ReadOnly
| Unregistered.

Inductive Steal :=
| Stolen (previous : option OriginId)
| StealAlreadyHeld
| StealReadOnly.

Record Origin := mkOrigin {
  o_label : string;
  o_write_mode : WriteMode;
  o_purged : Z
}.

Record StealRecord := mkSteal { steal_from : string; steal_by : string }.

Record EndpointLock := mkLock {
  arbitration : Arbitration;
  origins : gmap N Origin;
  holder : option OriginId;
  waiters : list OriginId;
  generation : Z;
  stolen : option StealRecord
}.

#[export] Instance Acquire_eq_dec : EqDecision Acquire.
Proof. solve_decision. Defined.
#[export] Instance Origin_eq_dec : EqDecision Origin.
Proof. solve_decision. Defined.

Definition set_holder (l : EndpointLock) (h : option OriginId) : EndpointLock :=
  mkLock (arbitration l) (origins l) h (waiters l) (generation l) (stolen l).
Definition set_waiters (l : EndpointLock) (w : list OriginId) : EndpointLock :=
  mkLock (arbitration l) (origins l) (holder l) w (generation l) (stolen l).
Definition set_origins (l : EndpointLock) (o : gmap N Origin) : EndpointLock :=
  mkLock (arbitration l) o (holder l) (waiters l) (generation l) (stolen l).
Definition set_stolen (l : EndpointLock) (s : option StealRecord) : EndpointLock :=
  mkLock (arbitration l) (origins l) (holder l) (waiters l) (generation l) s.
(** [self.generation = self.generation.wrapping_add(1)]. *)
Definition bump (l : EndpointLock) : EndpointLock :=
  mkLock (arbitration l) (origins l) (holder l) (waiters l)
         (u64_wrapping_add (generation l) 1) (stolen l).

(** ** Operations *)

Definition new (arb : Arbitration) : EndpointLock := mkLock arb ∅ None [] 0 None.

Definition register (l : EndpointLock) (id : OriginId) (label : string) (wm : WriteMode)
  : EndpointLock :=
  let l := set_origins l (<[id := mkOrigin label wm 0]> (origins l)) in
  if bool_decide (wm = Held) && bool_decide (arbitration l = Exclusive)
     && bool_decide (holder l = None)
  then bump (set_holder l (Some id))
  else l.

Definition unregister (l : EndpointLock) (id : OriginId) : bool * EndpointLock :=
  let l := set_origins l (delete id (origins l)) in
  let l := set_waiters l (retain_ne id (waiters l)) in
  if bool_decide (holder l = Some id) then (true, set_holder l None) else (false, l).

Definition may_write (l : EndpointLock) (id : OriginId) : bool :=
  match origins l !! id with
  | None => false
  | Some o =>
      if bool_decide (o_write_mode o = Never) then false
      else match arbitration l with
           | FreeForAll => true
           | Exclusive => bool_decide (holder l = Some id)
           end
  end.

Definition grant_to (l : EndpointLock) (id : OriginId) : EndpointLock :=
  bump (set_waiters (set_holder l (Some id)) (retain_ne id (waiters l))).

Definition held_origin_other_than (l : EndpointLock) (except : OriginId) : option OriginId :=
  fst <$> find_first (fun p => bool_decide (p.1 <> except)
                               && bool_decide (o_write_mode p.2 = Held))
                     (btree_iter (origins l)).

Definition acquire (l : EndpointLock) (id : OriginId) : Acquire * EndpointLock :=
  match origins l !! id with
  | None => (Unregistered, l)
  | Some o =>
      if bool_decide (o_write_mode o = Never) then (ReadOnly, l)
      else if bool_decide (arbitration l = FreeForAll) then (Granted, l)
      else match holder l with
           | Some h => if bool_decide (h = id) then (AlreadyHeld, l) else (Denied h, l)
           | None =>
               if bool_decide (o_write_mode o = Held) then (Granted, grant_to l id)
               else match held_origin_other_than l id with
                    | Some held => (Denied held, l)
                    | None =>
                        match head (waiters l) with
                        | Some front =>
                            if bool_decide (front <> id) then (Denied front, l)
                            else (Granted, grant_to l id)
                        | None => (Granted, grant_to l id)
                        end
                    end
           end
  end.

Definition enqueue (l : EndpointLock) (id : OriginId) : EndpointLock :=
  match origins l !! id with
  | Some o =>
      if bool_decide (o_write_mode o <> Never) then
        if bool_decide (holder l = Some id) || bool_decide (id ∈ waiters l) then l
        else set_waiters l (waiters l ++ [id])
      else l
  | None => l
  end.

Definition dequeue (l : EndpointLock) (id : OriginId) : EndpointLock :=
  set_waiters l (retain_ne id (waiters l)).

(** [EndpointLock::label]. *)
Definition label_of (l : EndpointLock) (id : OriginId) : option string :=
  o_label <$> origins l !! id.

Definition write_mode_of (l : EndpointLock) (id : OriginId) : option WriteMode :=
  o_write_mode <$> origins l !! id.

Definition steal (l : EndpointLock) (id : OriginId) : Steal * EndpointLock :=
  match origins l !! id with
  | None => (StealReadOnly, l)
  | Some o =>
      if bool_decide (o_write_mode o = Never) then (StealReadOnly, l)
      else if bool_decide (arbitration l = FreeForAll) then (Stolen None, l)
      else if bool_decide (holder l = Some id) then (StealAlreadyHeld, l)
      else
        let previous := holder l in
        let l := match previous with
                 | Some prev =>
                     set_stolen l (Some (mkSteal (default ""%string (label_of l prev))
                                                 (default ""%string (label_of l id))))
                 | None => l
                 end in
        let l := set_waiters l (retain_ne id (waiters l)) in
        (Stolen previous, bump (set_holder l (Some id)))
  end.

Definition reclaim_held (l : EndpointLock) (id : OriginId) : bool * EndpointLock :=
  match origins l !! id with
  | Some o =>
      if bool_decide (o_write_mode o = Held) then
        if bool_decide (arbitration l = FreeForAll) then (true, l)
        else if bool_decide (holder l = None) then (true, grant_to l id) else (false, l)
      else (false, l)
  | None => (false, l)
  end.

Definition release (l : EndpointLock) (id : OriginId) : bool * EndpointLock :=
  if bool_decide (holder l = Some id) then (true, set_holder l None) else (false, l).

Definition renew (l : EndpointLock) (id : OriginId) : option Z * EndpointLock :=
  if bool_decide (holder l = Some id)
  then (Some (generation (bump l)), bump l) else (None, l).

Definition record_purge (l : EndpointLock) (id : OriginId) (bytes : Z) : EndpointLock :=
  match origins l !! id with
  | Some o =>
      set_origins l (<[id := mkOrigin (o_label o) (o_write_mode o)
                                      (u64_saturating_add (o_purged o) bytes)]> (origins l))
  | None => l
  end.

Definition purged (l : EndpointLock) (id : OriginId) : Z :=
  match origins l !! id with Some o => o_purged o | None => 0 end.

Record OriginState := mkOriginState {
  os_origin : string;
  os_write_mode : WriteMode;
  os_holds_lock : bool;
  os_purged : Z
}.

Record LockSnapshot := mkSnapshot {
  snap_arbitration : Arbitration;
  snap_holder : option string;
  snap_origins : list OriginState;
  snap_waiters : list string;
  snap_last_steal : option StealRecord
}.

Definition snapshot (l : EndpointLock) : LockSnapshot :=
  mkSnapshot (arbitration l)
    (holder l ≫= label_of l)
    ((fun p => mkOriginState (o_label p.2) (o_write_mode p.2)
                 (bool_decide (holder l = Some p.1)) (o_purged p.2))
       <$> btree_iter (origins l))
    (omap (label_of l) (waiters l))
    (stolen l).

(** ** Steps *)

Inductive LockOp :=
| ORegister (id : OriginId) (label : string) (wm : WriteMode)
| OUnregister (id : OriginId)
| OAcquire (id : OriginId)
| OEnqueue (id : OriginId)
| ODequeue (id : OriginId)
| OSteal (id : OriginId)
| OReclaim (id : OriginId)
| ORelease (id : OriginId)
| ORenew (id : OriginId)
| OPurge (id : OriginId) (bytes : Z).

Definition run_op (op : LockOp) (l : EndpointLock) : EndpointLock :=
  match op with
  | ORegister id label wm => register l id label wm
  | OUnregister id => (unregister l id).2
  | OAcquire id => (acquire l id).2
  | OEnqueue id => enqueue l id
  | ODequeue id => dequeue l id
  | OSteal id => (steal l id).2
  | OReclaim id => (reclaim_held l id).2
  | ORelease id => (release l id).2
  | ORenew id => (renew l id).2
  | OPurge id n => record_purge l id n
  end.

(** What the data-plane wiring guarantees of a call: an origin id is fresh when
    it is registered ([OriginId]: "assigned by the data-plane wiring and unique
    within one endpoint"), and byte counts are [u64]. *)
Definition op_ok (l : EndpointLock) (op : LockOp) : Prop :=
  match op with
  | ORegister id _ _ => origins l !! id = None
  | OPurge _ n => u64 n
  | _ => True
  end.

Inductive lock_step : EndpointLock -> LockOp -> EndpointLock -> Prop :=
| lock_step_op l op : op_ok l op -> lock_step l op (run_op op l).

Inductive lock_run : EndpointLock -> list LockOp -> EndpointLock -> Prop :=
| lock_run_nil l : lock_run l [] l
| lock_run_cons l op l1 ops l2 :
    lock_step l op l1 -> lock_run l1 ops l2 -> lock_run l (op :: ops) l2.

Definition reachable (l : EndpointLock) : Prop :=
  exists arb ops, lock_run (new arb) ops l.

(** ** Well-formed states *)

Definition is_writer (l : EndpointLock) (id : OriginId) : Prop :=
  exists o, origins l !! id = Some o /\ o_write_mode o <> Never.

Definition is_held (l : EndpointLock) (id : OriginId) : Prop :=
  exists o, origins l !! id = Some o /\ o_write_mode o = Held.

Record lock_wf (l : EndpointLock) : Prop := {
  wf_holder : forall h, holder l = Some h -> is_writer l h /\ arbitration l = Exclusive;
  wf_waiters : forall w, w ∈ waiters l -> is_writer l w /\ holder l <> Some w;
  wf_nodup : NoDup (waiters l);
  wf_generation : u64 (generation l);
  wf_purged : forall id o, origins l !! id = Some o -> u64 (o_purged o)
}.

(** ** Lemmas: writers *)

Lemma is_writer_origins l l' id : origins l' = origins l -> is_writer l id -> is_writer l' id.
Proof. unfold is_writer. by intros ->. Qed.
Lemma is_writer_insert l id o' w :
  origins l !! id = None -> is_writer l w -> is_writer (set_origins l (<[id := o']> (origins l))) w.
Proof.
  intros Hf [o [Ho Hm]]. exists o. split; [|done]. simpl.
  rewrite lookup_insert_ne; [done|]. intros ->. congruence.
Qed.
Lemma is_held_writer l id : is_held l id -> is_writer l id.
Proof. intros [o [Ho Hm]]. exists o. split; [done|]. by rewrite Hm. Qed.
#[export] Hint Resolve is_held_writer : snx.

Lemma held_origin_other_than_Some l id h :
  held_origin_other_than l id = Some h -> is_held l h /\ h <> id.
Proof.
  unfold held_origin_other_than. intros (p & Hp & ->)%fmap_Some.
  apply find_first_Some in Hp as [Hin Hp]. split_bools.
  destruct p as [k o]. apply elem_of_btree_iter in Hin. split; [by exists o|done].
Qed.

Lemma held_origin_other_than_None l id :
  held_origin_other_than l id = None <-> (forall h, is_held l h -> h = id).
Proof.
  unfold held_origin_other_than. rewrite fmap_None, find_first_None. split.
  - intros H h [o [Ho Hm]]. specialize (H (h, o)). simpl in H.
    rewrite elem_of_btree_iter in H. specialize (H Ho).
    destruct (decide (h = id)) as [->|Hne]; [done|].
    rewrite bool_decide_eq_true_2, bool_decide_eq_true_2 in H by done. done.
  - intros H [k o] Hin. apply elem_of_btree_iter in Hin. simpl.
    destruct (bool_decide (o_write_mode o = Held)) eqn:E; [|by rewrite andb_false_r].
    split_bools. rewrite (H k) by (by exists o).
    rewrite bool_decide_eq_false_2; [done|naive_solver].
Qed.

(** ** Lemmas: the state mutators preserve well-formedness *)

Lemma wf_grant l id :
  lock_wf l -> arbitration l = Exclusive -> is_writer l id -> lock_wf (grant_to l id).
Proof.
  intros [Hh Hw Hn Hg Hp] Ha Hid. constructor; simpl; auto with snx.
  - intros h [= <-]. done.
  - intros w [Hne Hin]%elem_of_retain_ne. split; [by apply Hw|congruence].
Qed.

Lemma wf_free l : lock_wf l -> lock_wf (set_holder l None).
Proof.
  intros [Hh Hw Hn Hg Hp]. constructor; simpl; auto; [done|].
  intros w Hin. split; [by apply Hw|done].
Qed.

Lemma wf_retain l id : lock_wf l -> lock_wf (set_waiters l (retain_ne id (waiters l))).
Proof.
  intros [Hh Hw Hn Hg Hp]. constructor; simpl; auto with snx.
  intros w [_ Hin]%elem_of_retain_ne. by apply Hw.
Qed.

Lemma wf_stolen l s : lock_wf l -> lock_wf (set_stolen l s).
Proof. intros [Hh Hw Hn Hg Hp]. by constructor. Qed.

Lemma wf_bump l : lock_wf l -> lock_wf (bump l).
Proof. intros [Hh Hw Hn Hg Hp]. constructor; simpl; auto with snx. Qed.

Lemma wf_insert l id o :
  lock_wf l -> origins l !! id = None -> u64 (o_purged o) ->
  lock_wf (set_origins l (<[id := o]> (origins l))).
Proof.
  intros [Hh Hw Hn Hg Hp] Hf Ho. constructor; simpl; auto.
  - intros h Hhh. destruct (Hh h Hhh). split; [by apply is_writer_insert|done].
  - intros w Hin. destruct (Hw w Hin). split; [by apply is_writer_insert|done].
  - intros i o'. rewrite lookup_insert. case_decide; [|by apply Hp]. by intros [= <-].
Qed.

#[export] Hint Resolve wf_grant wf_free wf_retain wf_stolen wf_bump wf_insert : snx.

(** A steal that takes the lock is a grant after recording the theft. *)
Lemma steal_grant l id prev l' :
  steal l id = (Stolen prev, l') -> arbitration l = Exclusive ->
  is_writer l id /\ holder l <> Some id /\ prev = holder l /\
  l' = grant_to (match holder l with
                 | Some p => set_stolen l (Some (mkSteal (default ""%string (label_of l p))
                                                  (default ""%string (label_of l id))))
                 | None => l end) id.
Proof.
  unfold steal. intros H Ha. destruct (origins l !! id) as [o|] eqn:Ho; [|done].
  rewrite Ha in H. rewrite (bool_decide_eq_false_2 (Exclusive = FreeForAll)) in H by done.
  case_bool_decide; [done|]. case_bool_decide; [done|]. simplify_eq.
  split; [by exists o|]. split; [done|]. split; [done|]. by destruct (holder l).
Qed.

Lemma wf_register l id lb wm :
  lock_wf l -> origins l !! id = None -> lock_wf (register l id lb wm).
Proof.
  intros Hwf Hok. unfold register.
  assert (Hi := wf_insert l id (mkOrigin lb wm 0) Hwf Hok ltac:(done)).
  case_if; [|done]. split_bools. simpl in *. subst wm. apply wf_bump.
  destruct Hi as [Hh Hw Hn Hg Hp]. constructor; simpl in *; auto.
  - intros h [= <-]. split; [|done]. eexists. simpl. by rewrite lookup_insert_eq.
  - intros w Hin. split; [by apply Hw|]. intros [= <-].
    destruct (wf_waiters l Hwf id Hin) as [[o [Ho _]] _]. congruence.
Qed.

Lemma is_writer_delete l id w wl :
  w <> id -> is_writer l w ->
  is_writer (set_waiters (set_origins l (delete id (origins l))) wl) w.
Proof. intros Hne [o [Ho Hm]]. exists o. simpl. by rewrite lookup_delete_ne. Qed.

Lemma wf_unregister l id : lock_wf l -> lock_wf (unregister l id).2.
Proof.
  intros Hwf. unfold unregister.
  assert (holder l <> Some id ->
    lock_wf (set_waiters (set_origins l (delete id (origins l))) (retain_ne id (waiters l)))) as Hd.
  { intros Hne. destruct Hwf as [Hh Hw Hn Hg Hp]. constructor; simpl; auto with snx.
    - intros h Hhh. destruct (Hh h Hhh). split; [|done].
      apply is_writer_delete; [congruence|done].
    - intros w [Hwne Hin]%elem_of_retain_ne. destruct (Hw w Hin). split; [|done].
      by apply is_writer_delete.
    - intros i o [_ Hi]%lookup_delete_Some. eauto. }
  case_bool_decide as Hh; simpl in *; [|by apply Hd].
  destruct Hwf as [Hho Hw Hn Hg Hp]. constructor; simpl; auto with snx; [done| |].
  - intros w [Hwne Hin]%elem_of_retain_ne. destruct (Hw w Hin). split; [|done].
    by apply (is_writer_delete l id w []).
  - intros i o [_ Hi]%lookup_delete_Some. eauto.
Qed.

Lemma not_ffa l : arbitration l <> FreeForAll -> arbitration l = Exclusive.
Proof. by destruct (arbitration l). Qed.
#[export] Hint Resolve not_ffa : snx.

Lemma wf_acquire l id : lock_wf l -> lock_wf (acquire l id).2.
Proof.
  intros Hwf. unfold acquire. destruct (origins l !! id) as [o|] eqn:Ho; [|done].
  case_bool_decide; [done|]. case_bool_decide; [done|].
  assert (is_writer l id) by (by exists o).
  repeat case_match; simpl; auto with snx.
Qed.

Lemma wf_enqueue l id : lock_wf l -> lock_wf (enqueue l id).
Proof.
  intros Hwf. unfold enqueue. destruct (origins l !! id) as [o|] eqn:Ho; [|done].
  case_bool_decide; [|done]. case_if; [done|]. split_bools.
  destruct Hwf as [Hh Hw Hn Hg Hp]. constructor; simpl; auto.
  - intros w [Hin| ->%list_elem_of_singleton]%elem_of_app; [by apply Hw|].
    split; [by exists o|done].
  - apply NoDup_app. split_and!; [done| |apply NoDup_singleton].
    intros x Hx ->%list_elem_of_singleton. done.
Qed.

Lemma wf_steal l id : lock_wf l -> lock_wf (steal l id).2.
Proof.
  intros Hwf. destruct (steal l id) as [r l'] eqn:E. simpl.
  destruct (decide (arbitration l = Exclusive)) as [Ha|Ha].
  - destruct r as [prev| |]; [|by unfold steal in E; repeat case_match; simplify_eq..].
    apply steal_grant in E as (Hid & _ & _ & ->); [|done].
    destruct (holder l); apply wf_grant; auto with snx.
  - unfold steal in E.
    repeat case_match; simplify_eq; try done; by destruct (arbitration l).
Qed.

Lemma wf_reclaim l id : lock_wf l -> lock_wf (reclaim_held l id).2.
Proof.
  intros Hwf. unfold reclaim_held. destruct (origins l !! id) as [o|] eqn:Ho; [|done].
  case_bool_decide; [|done]. case_bool_decide; [done|]. case_bool_decide; [|done]. simpl.
  apply wf_grant; auto with snx. exists o. split; [done|congruence].
Qed.

Lemma is_writer_purge l id o n w :
  origins l !! id = Some o ->
  is_writer (set_origins l (<[id := mkOrigin (o_label o) (o_write_mode o) n]> (origins l))) w
  <-> is_writer l w.
Proof.
  intros Ho. unfold is_writer. simpl. rewrite lookup_insert. case_decide; [|done].
  subst. rewrite Ho. naive_solver.
Qed.

Lemma wf_record_purge l id n : lock_wf l -> u64 n -> lock_wf (record_purge l id n).
Proof.
  intros Hwf Hu. unfold record_purge. destruct (origins l !! id) as [o|] eqn:Ho; [|done].
  destruct Hwf as [Hh Hw Hn Hg Hp]. constructor; simpl; auto.
  - intros h Hhh. rewrite is_writer_purge by done. by apply Hh.
  - intros w Hin. rewrite is_writer_purge by done. by apply Hw.
  - intros i o'. rewrite lookup_insert. case_decide; [|by apply Hp]. intros [= <-]. simpl.
    apply u64_saturating_add_range; [by eapply Hp|done].
Qed.

#[export] Hint Resolve wf_register wf_unregister wf_acquire wf_enqueue wf_steal
  wf_reclaim wf_record_purge : snx.

Lemma step_wf l op l' : lock_wf l -> lock_step l op l' -> lock_wf l'.
Proof.
  intros Hwf Hs. destruct Hs as [l op Hok]. destruct op; simpl in *; auto with snx.
  - unfold dequeue. auto with snx.
  - unfold release. case_bool_decide; simpl; auto with snx.
  - unfold renew. case_bool_decide; simpl; auto with snx.
Qed.

Lemma run_wf l ops l' : lock_run l ops l' -> lock_wf l -> lock_wf l'.
Proof. induction 1; intros; [done|]. eauto using step_wf. Qed.

Lemma new_wf arb : lock_wf (new arb).
Proof.
  constructor; simpl; try done.
  - intros w Hw. inversion Hw.
  - apply NoDup_nil_2.
Qed.

Lemma reachable_wf l : reachable l -> lock_wf l.
Proof. intros (arb & ops & Hr). eapply run_wf; [done|]. apply new_wf. Qed.
#[export] Hint Resolve reachable_wf : snx.

(** ** Lemmas: outcomes of [acquire] *)

Lemma acquire_granted l id :
  arbitration l = Exclusive ->
  (acquire l id).1 = Granted <->
  holder l = None /\ is_writer l id /\
  (is_held l id \/ (forall h, ~ is_held l h) /\ from_option (eq id) True (head (waiters l))).
Proof.
  intros Ha. unfold acquire, is_writer, is_held at 1.
  destruct (origins l !! id) as [o|] eqn:Ho; [|naive_solver].
  rewrite Ha. rewrite (bool_decide_eq_false_2 (Exclusive = FreeForAll)) by done.
  case_bool_decide as Hn; [simpl; naive_solver|].
  destruct (holder l) as [h|] eqn:Hh; [case_bool_decide; simpl; naive_solver|].
  case_bool_decide as Hheld; [simpl; naive_solver|].
  assert (~ is_held l id) as Hnh by (unfold is_held; naive_solver).
  destruct (held_origin_other_than l id) as [d|] eqn:Hd; simpl.
  - apply held_origin_other_than_Some in Hd as [? ?]. naive_solver.
  - pose proof (proj1 (held_origin_other_than_None l id) Hd) as Hall.
    assert (forall h, ~ is_held l h) as Hno.
    { intros h Hhd. rewrite (Hall h Hhd) in Hhd. done. }
    destruct (head (waiters l)) as [f|]; simpl; [case_bool_decide; simpl|]; naive_solver.
Qed.

Lemma acquire_state l id :
  (acquire l id).2 = l \/
  ((acquire l id).1 = Granted /\ arbitration l = Exclusive /\ (acquire l id).2 = grant_to l id).
Proof.
  unfold acquire. destruct (origins l !! id) as [o|]; [|by left].
  case_bool_decide; [by left|]. case_bool_decide; [by left|].
  assert (arbitration l = Exclusive) by auto with snx.
  repeat case_match; simpl; auto.
Qed.

Lemma steal_state l id :
  (steal l id).2 = l \/
  (is_writer l id /\ exists s, (steal l id).2 = grant_to (set_stolen l s) id).
Proof.
  destruct (steal l id) as [r l'] eqn:E. simpl.
  destruct (decide (arbitration l = Exclusive)) as [Ha|Ha].
  - destruct r as [prev| |]; [|by unfold steal in E; repeat case_match; simplify_eq; left..].
    apply steal_grant in E as (Hid & _ & _ & ->); [|done]. right. split; [done|].
    destruct (holder l); [by eexists|]. exists (stolen l). by destruct l.
  - left. unfold steal in E. repeat case_match; simplify_eq; try done; by destruct (arbitration l).
Qed.

Lemma reclaim_state l id :
  (reclaim_held l id).2 = l \/
  (is_held l id /\ holder l = None /\ (reclaim_held l id).2 = grant_to l id).
Proof.
  unfold reclaim_held. destruct (origins l !! id) as [o|] eqn:Ho; [|by left].
  case_bool_decide; [|by left]. case_bool_decide; [by left|].
  case_bool_decide; [|by left]. right. split; [by exists o|done].
Qed.

(** ** Lemmas: generations *)

(** A step leaves generation and holder alone, frees the lock, or advances the
    generation by exactly one. *)
Lemma step_generation l op l' :
  lock_step l op l' ->
  (generation l' = generation l /\ (holder l' = holder l \/ holder l' = None)) \/
  generation l' = u64_wrapping_add (generation l) 1.
Proof.
  intros Hs. destruct Hs as [l op _]. destruct op as [id ? ?|id|id|id|id|id|id|id|id|id n]; simpl.
  - unfold register. case_if; simpl; auto.
  - unfold unregister. case_bool_decide; simpl; auto.
  - destruct (acquire_state l id) as [-> | (_ & _ & ->)]; simpl; auto.
  - unfold enqueue. repeat case_match; simpl; auto.
  - auto.
  - destruct (steal_state l id) as [-> | (_ & s & ->)]; simpl; auto.
  - destruct (reclaim_state l id) as [-> | (_ & _ & ->)]; simpl; auto.
  - unfold release. case_bool_decide; simpl; auto.
  - unfold renew. case_bool_decide; simpl; auto.
  - unfold record_purge. repeat case_match; simpl; auto.
Qed.

Lemma run_generation l ops l' :
  lock_run l ops l' -> u64 (generation l) ->
  exists k, 0 <= k <= len ops /\ generation l' = u64_wrapping_add (generation l) k /\
            (k = 0 -> holder l' = holder l \/ holder l' = None).
Proof.
  induction 1 as [l|l op l1 ops l2 Hs Hr IH]; intros Hg.
  - exists 0. split_and!; [lia|apply len_nonneg| |auto].
    unfold u64, u64_max in Hg. rewrite u64_wrapping_add_small; unfold u64_max; lia.
  - apply step_generation in Hs.
    destruct IH as (k & Hk & Hgk & Hh0).
    { destruct Hs as [[-> _]| ->]; auto with snx. }
    rewrite len_cons. destruct Hs as [[He Hho]|He]; rewrite He in Hgk.
    + exists k. split_and!; try lia; try done. intros ->.
      destruct (Hh0 eq_refl) as [->| ->]; auto.
    + exists (1 + k). rewrite u64_wrapping_add_assoc in Hgk. split_and!; (done || lia).
Qed.

Lemma wrapping_add_eq_self g k :
  u64 g -> 0 <= k < 2 ^ 64 -> u64_wrapping_add g k = g -> k = 0.
Proof.
  unfold u64, u64_wrapping_add, u64_max. intros Hg Hk He.
  destruct (decide (g + k < 2 ^ 64)).
  - rewrite Z.mod_small in He; lia.
  - replace (g + k) with (g + k - 2 ^ 64 + 1 * 2 ^ 64) in He by lia.
    rewrite Z.mod_add, Z.mod_small in He; lia.
Qed.

(** ** Lemmas: queue order *)

(** [a] waits ahead of [b]. *)
Definition ahead (l : EndpointLock) (a b : OriginId) : Prop :=
  exists p s, waiters l = p ++ (a :: s) /\ (b ∉ p) /\ b <> a.

Lemma ahead_retain (a b c : OriginId) w p s :
  w = p ++ (a :: s) -> b ∉ p -> b <> a -> a <> c ->
  exists p' s', retain_ne c w = p' ++ (a :: s') /\ (b ∉ p') /\ b <> a.
Proof.
  intros -> Hb Hne Hc. exists (retain_ne c p), (retain_ne c s). unfold retain_ne.
  rewrite filter_app, filter_cons_True by done. split_and!; auto.
  rewrite list_elem_of_filter. naive_solver.
Qed.

Lemma ahead_head l a b : ahead l a b -> head (waiters l) <> Some b /\ a ∈ waiters l.
Proof.
  intros (p & s & -> & Hb & Hne). split; [|set_solver].
  destruct p as [|x p]; simpl; [congruence|]. intros [= ->]. apply Hb. left.
Qed.

(** Operations only remove from the queue or append to it. *)
Lemma step_waiters l op l' :
  lock_step l op l' ->
  waiters l' = waiters l \/ (exists c, waiters l' = retain_ne c (waiters l))
  \/ (exists c, waiters l' = waiters l ++ [c]).
Proof.
  intros Hs. destruct Hs as [l op _]. destruct op as [id ? ?|id|id|id|id|id|id|id|id|id n]; simpl.
  - unfold register. case_if; simpl; auto.
  - unfold unregister. case_bool_decide; simpl; eauto.
  - destruct (acquire_state l id) as [-> | (_ & _ & ->)]; simpl; eauto.
  - unfold enqueue. repeat case_match; simpl; eauto.
  - eauto.
  - destruct (steal_state l id) as [-> | (_ & s & ->)]; simpl; eauto.
  - destruct (reclaim_state l id) as [-> | (_ & _ & ->)]; simpl; eauto.
  - unfold release. case_bool_decide; simpl; auto.
  - unfold renew. case_bool_decide; simpl; auto.
  - unfold record_purge. repeat case_match; simpl; auto.
Qed.

Lemma step_ahead l op l' a b :
  lock_step l op l' -> ahead l a b -> a ∈ waiters l' -> ahead l' a b.
Proof.
  intros Hs (p & s & Hw & Hb & Hne) Ha. unfold ahead.
  destruct (step_waiters _ _ _ Hs) as [->|[[c Hc]|[c Hc]]].
  - eauto.
  - rewrite Hc in *. apply elem_of_retain_ne in Ha as [Hac _].
    by eapply ahead_retain.
  - rewrite Hc, Hw, <- app_assoc. simpl. eauto.
Qed.

(** How the lock can come to be held by [b]. *)
Lemma step_holder l op l' b :
  lock_step l op l' -> holder l' = Some b -> holder l <> Some b ->
  (exists lb, op = ORegister b lb Held /\ holder l = None) \/ op = OSteal b \/
  (op = OAcquire b /\ arbitration l = Exclusive /\ (acquire l b).1 = Granted) \/
  (op = OReclaim b /\ is_held l b /\ holder l = None).
Proof.
  intros Hs. destruct Hs as [l op _]. destruct op as [id ? wm|id|id|id|id|id|id|id|id|id n]; simpl.
  - unfold register. case_if; simpl; [|congruence]. split_bools. subst wm.
    intros [= ->]. simpl in *. eauto 10.
  - unfold unregister. case_bool_decide; simpl; congruence.
  - destruct (acquire_state l id) as [-> | (? & ? & ->)]; simpl; [congruence|].
    intros [= ->]. eauto 10.
  - unfold enqueue. repeat case_match; simpl; congruence.
  - congruence.
  - destruct (steal_state l id) as [-> | (_ & s & ->)]; simpl; [congruence|].
    intros [= ->]. auto.
  - destruct (reclaim_state l id) as [-> | (? & ? & ->)]; simpl; [congruence|].
    intros [= ->]. eauto 10.
  - unfold release. case_bool_decide; simpl; congruence.
  - unfold renew. case_bool_decide; simpl; congruence.
  - unfold record_purge. repeat case_match; simpl; congruence.
Qed.

(** An origin's mode changes only by registering it. *)
Lemma step_is_held l op l' b :
  lock_step l op l' -> (forall lb wm, op <> ORegister b lb wm) ->
  is_held l' b -> is_held l b.
Proof.
  intros Hs Hop (o & Ho & Hm). unfold is_held.
  destruct Hs as [l op _]. destruct op as [id lb wm|id|id|id|id|id|id|id|id|id n]; simpl in *.
  - assert (id <> b) by naive_solver. revert Ho. unfold register.
    case_if; simpl; rewrite lookup_insert_ne by done; eauto.
  - revert Ho. unfold unregister. case_bool_decide; simpl;
      intros [_ ?]%lookup_delete_Some; eauto.
  - destruct (acquire_state l id) as [H | (_ & _ & H)]; rewrite H in Ho; eauto.
  - unfold enqueue in Ho. repeat case_match; eauto.
  - eauto.
  - destruct (steal_state l id) as [H | (_ & s & H)]; rewrite H in Ho; eauto.
  - destruct (reclaim_state l id) as [H | (_ & _ & H)]; rewrite H in Ho; eauto.
  - unfold release in Ho. case_bool_decide; eauto.
  - unfold renew in Ho. case_bool_decide; eauto.
  - unfold record_purge in Ho. destruct (origins l !! id) as [o'|] eqn:Ho'; simpl in Ho; [|eauto].
    rewrite lookup_insert in Ho. case_decide; [|eauto]. subst. simplify_eq. eauto.
Qed.

(** A run every state of which, the first included, satisfies [P]. *)
Inductive run_while (P : EndpointLock -> Prop) :
  EndpointLock -> list LockOp -> EndpointLock -> Prop :=
| run_while_nil l : P l -> run_while P l [] l
| run_while_cons l op l1 ops l2 :
    P l -> lock_step l op l1 -> run_while P l1 ops l2 -> run_while P l (op :: ops) l2.

Lemma run_while_end P l ops l' : run_while P l ops l' -> P l'.
Proof. induction 1; auto. Qed.
Lemma run_while_start P l ops l' : run_while P l ops l' -> P l.
Proof. by destruct 1. Qed.

Lemma run_fifo a b l ops l' :
  run_while (fun m => a ∈ waiters m) l ops l' ->
  (forall op, op ∈ ops -> op <> OSteal b /\ forall lb wm, op <> ORegister b lb wm) ->
  ~ is_held l b -> ahead l a b -> holder l <> Some b ->
  holder l' <> Some b /\ ahead l' a b.
Proof.
  induction 1 as [l Ha|l op l1 ops l2 Ha Hs Hr IH]; intros Hops Hnh Hah Hho; [done|].
  assert (forall lb wm, op <> ORegister b lb wm) as Hreg by (apply Hops; left).
  assert (op <> OSteal b) as Hst by (apply Hops; left).
  apply IH.
  - intros op' Hin. apply Hops. by right.
  - intros Hh. apply Hnh. by eapply step_is_held.
  - eapply step_ahead; [done|done|]. by eapply run_while_start in Hr.
  - intros Hb. destruct (step_holder _ _ _ _ Hs Hb Hho) as [(lb & -> & _)|[->|[(-> & He & Hg)|(-> & Hh & _)]]].
    + by eapply Hreg.
    + done.
    + apply acquire_granted in Hg as (_ & _ & [Hh|[_ Hf]]); [done| |done].
      apply ahead_head in Hah as [Hhd Hin].
      destruct (waiters l) as [|x w]; [by inversion Hin|]. simpl in *. congruence.
    + done.
Qed.

Lemma step_held_stays l op l' d :
  lock_step l op l' -> op <> OUnregister d -> is_held l d -> is_held l' d.
Proof.
  intros Hs Hop (o & Ho & Hm). unfold is_held.
  destruct Hs as [l op Hok]. destruct op as [id lb wm|id|id|id|id|id|id|id|id|id n]; simpl in *.
  - assert (id <> d) by congruence. unfold register.
    case_if; simpl; rewrite lookup_insert_ne by done; eauto.
  - unfold unregister. case_bool_decide; simpl; rewrite lookup_delete_ne by congruence; eauto.
  - destruct (acquire_state l id) as [-> | (_ & _ & ->)]; eauto.
  - unfold enqueue. repeat case_match; eauto.
  - eauto.
  - destruct (steal_state l id) as [-> | (_ & s & ->)]; eauto.
  - destruct (reclaim_state l id) as [-> | (_ & _ & ->)]; eauto.
  - unfold release. case_bool_decide; eauto.
  - unfold renew. case_bool_decide; eauto.
  - unfold record_purge. destruct (origins l !! id) as [o'|] eqn:Ho'; simpl; [|eauto].
    rewrite lookup_insert. case_decide; [|eauto]. subst. rewrite Ho in Ho'. simplify_eq. eauto.
Qed.

(** A holder keeps its registration: unregistering it frees the lock. *)
Lemma step_holder_kept l op l' h :
  lock_step l op l' -> holder l = Some h -> holder l' = Some h -> op <> OUnregister h.
Proof.
  intros Hs Hh Hh' ->. inversion Hs; subst. simpl in Hh'. unfold unregister in Hh'.
  simpl in Hh'. by rewrite bool_decide_eq_true_2 in Hh'.
Qed.

Lemma run_held_priority d l ops l' :
  lock_run l ops l' ->
  (forall op, op ∈ ops -> op <> OUnregister d /\ forall id, op <> OSteal id) ->
  is_held l d -> (forall h, holder l = Some h -> is_held l h) ->
  forall h, holder l' = Some h -> is_held l' h.
Proof.
  induction 1 as [l|l op l1 ops l2 Hs Hr IH]; intros Hops Hd Hinv; [done|].
  assert (op <> OUnregister d) as Hun by (apply Hops; left).
  assert (forall id, op <> OSteal id) as Hst by (apply Hops; left).
  apply IH.
  - intros op' Hin. apply Hops. by right.
  - by eapply step_held_stays.
  - intros h Hh. destruct (decide (holder l = Some h)) as [Heq|Hne].
    + eapply step_held_stays; [done| |by apply Hinv]. by eapply step_holder_kept.
    + destruct (step_holder _ _ _ _ Hs Hh Hne) as [(lb & -> & Hn)|[->|[(-> & He & Hg)|(-> & Hhe & _)]]].
      * inversion Hs; subst. unfold is_held. simpl in *. unfold register in *.
        case_if; simpl; rewrite lookup_insert_eq; eauto.
      * by destruct (Hst h).
      * apply acquire_granted in Hg as (_ & _ & [Hhe|[Hno _]]); [|by destruct (Hno d)|done].
        eapply step_held_stays; [done|done|done].
      * by eapply step_held_stays.
Qed.

Lemma step_stolen l op l' :
  lock_step l op l' -> (forall id, op <> OSteal id) -> stolen l' = stolen l.
Proof.
  intros Hs Hop. destruct Hs as [l op _].
  destruct op as [id ? ?|id|id|id|id|id|id|id|id|id n]; simpl.
  - unfold register. by case_if.
  - unfold unregister. by case_bool_decide.
  - by destruct (acquire_state l id) as [-> | (_ & _ & ->)].
  - unfold enqueue. by repeat case_match.
  - done.
  - by destruct (Hop id).
  - by destruct (reclaim_state l id) as [-> | (_ & _ & ->)].
  - unfold release. by case_bool_decide.
  - unfold renew. by case_bool_decide.
  - unfold record_purge. by repeat case_match.
Qed.

Lemma run_stolen l ops l' :
  lock_run l ops l' -> (forall op, op ∈ ops -> forall id, op <> OSteal id) -> stolen l' = stolen l.
Proof.
  induction 1 as [l|l op l1 ops l2 Hs Hr IH]; intros Hops; [done|].
  rewrite IH by (intros op' Hin; apply Hops; by right).
  eapply step_stolen; [done|]. apply Hops. left.
Qed.

(** ** Theorems *)

(** C1: safety of arbitration.  In every state the lock can reach, an exclusive
    endpoint has at most one origin whose bytes are read targetward, and that
    origin is a registered writer (never a [write = never] one) that is not at
    the same time waiting in the queue. *)
Theorem write_exclusion l a b :
  reachable l -> arbitration l = Exclusive ->
  may_write l a = true -> may_write l b = true ->
  a = b /\ is_writer l a /\ a ∉ waiters l.
Proof.
  intros Hr Ha Hma Hmb. apply reachable_wf in Hr as Hwf.
  assert (forall x, may_write l x = true -> holder l = Some x) as Hw.
  { intros x. unfold may_write. rewrite Ha. repeat case_match; intros; split_bools; done. }
  apply Hw in Hma as Hha. apply Hw in Hmb as Hhb. split; [congruence|].
  split; [by apply (wf_holder l Hwf)|]. intros Hin. by apply (wf_waiters l Hwf) in Hin as [_ ?].
Qed.

(** C9: every sequence of operations keeps the lock well formed: the holder is a
    registered writer of an exclusive endpoint, waiters are distinct registered
    writers other than the holder, and all counters stay in [u64]. *)
Theorem lock_invariant l : reachable l -> lock_wf l.
Proof. apply reachable_wf. Qed.

(** Exact outcome of [acquire] on an exclusive endpoint.  A grant happens
    precisely when the lock is free, the caller is a writer, and it is either a
    [held] origin or no [held] origin is registered and nobody else heads the
    FIFO queue; a grant installs the caller, removes it from the queue and
    advances the generation, and every other answer leaves the state alone. *)
Theorem acquire_exclusive l id :
  arbitration l = Exclusive ->
  ((acquire l id).1 = Granted <->
   holder l = None /\ is_writer l id /\
   (is_held l id \/ (forall h, ~ is_held l h) /\
                    from_option (eq id) True (head (waiters l)))) /\
  (acquire l id).2 = if decide ((acquire l id).1 = Granted) then grant_to l id else l.
Proof.
  intros Ha. split; [by apply acquire_granted|].
  unfold acquire. destruct (origins l !! id) as [o|]; [|done].
  case_bool_decide; [done|]. rewrite (bool_decide_eq_false_2 (arbitration l = FreeForAll)) by congruence.
  repeat (case_match; try done).
Qed.

(** A free exclusive lock is never stuck.  If any writer is registered, some
    origin's [acquire] is granted: each [held] origin's if there is one, else the
    queue head's, else any writer's. *)
Theorem free_lock_progress l w :
  reachable l -> arbitration l = Exclusive -> holder l = None -> is_writer l w ->
  (forall d, is_held l d -> (acquire l d).1 = Granted) /\
  ((forall d, ~ is_held l d) ->
     match head (waiters l) with
     | Some f => (acquire l f).1 = Granted
     | None => (acquire l w).1 = Granted
     end).
Proof.
  intros Hr Ha Hh Hw. apply reachable_wf in Hr as Hwf. split.
  - intros d Hd. apply acquire_granted; auto with snx.
  - intros Hno. destruct (head (waiters l)) as [f|] eqn:Hf; apply acquire_granted; auto.
    + rewrite Hf. split; [done|]. split; [|by right]. apply (wf_waiters l Hwf).
      destruct (waiters l); simplify_eq/=. left.
    + rewrite Hf. split; [done|]. split; [done|by right].
Qed.

(** C12: FIFO fairness over whole executions.  As long as [a] stays in the queue,
    an on-demand origin [b] that queued behind it cannot come to hold the lock by
    any sequence of operations other than stealing it, and stays behind [a]. *)
Theorem fifo_fairness a b l ops l' :
  run_while (fun m => a ∈ waiters m) l ops l' ->
  (forall op, op ∈ ops -> op <> OSteal b /\ forall lb wm, op <> ORegister b lb wm) ->
  reachable l -> ~ is_held l b -> ahead l a b -> b ∈ waiters l ->
  holder l' <> Some b /\ ahead l' a b.
Proof.
  intros Hr Hops Hre Hnh Hah Hb. eapply run_fifo; eauto.
  apply reachable_wf in Hre. by apply (wf_waiters l Hre).
Qed.

(** a stale lease cannot end a later grant.  If the generation recorded with
    a grant is still current after fewer than 2^64 operations, no grant happened
    in between: whoever holds the lock is the origin that held it then. *)
Theorem lease_generation_guard l ops l' h :
  reachable l -> lock_run l ops l' -> len ops < 2 ^ 64 ->
  generation l' = generation l -> holder l' = Some h -> holder l = Some h.
Proof.
  intros Hre Hr Hn Hg Hh. apply reachable_wf in Hre. pose proof (wf_generation l Hre) as Hu.
  destruct (run_generation _ _ _ Hr Hu) as (k & Hk & Hgk & Hk0).
  rewrite Hg in Hgk. symmetry in Hgk. apply wrapping_add_eq_self in Hgk; [|done|lia].
  destruct (Hk0 Hgk); congruence.
Qed.

(** A demultiplexer's hold outranks the queue.  While a [held] origin stays
    registered and nobody steals, no sequence of operations lets an on-demand
    origin hold the lock. *)
Theorem held_origin_priority d l ops l' h :
  lock_run l ops l' ->
  (forall op, op ∈ ops -> op <> OUnregister d /\ forall id, op <> OSteal id) ->
  is_held l d -> (forall h, holder l = Some h -> is_held l h) ->
  holder l' = Some h -> is_held l' h.
Proof. intros. eapply run_held_priority; eauto. Qed.

(** A steal by a writer takes an exclusive lock from whoever holds it, keeps
    the other waiters in line and in order, advances the generation, and records
    both parties by name; the record outlives any later operation that is not
    itself a steal, the unregistration of both parties included. *)
Theorem steal_recorded l id prev ops l' :
  reachable l -> arbitration l = Exclusive -> is_writer l id ->
  holder l = Some prev -> prev <> id ->
  let s := (steal l id).2 in
  lock_run s ops l' -> (forall op, op ∈ ops -> forall i, op <> OSteal i) ->
  (steal l id).1 = Stolen (Some prev) /\ holder s = Some id /\
  waiters s = retain_ne id (waiters l) /\ generation s <> generation l /\
  exists from by_, label_of l prev = Some from /\ label_of l id = Some by_ /\
                   stolen l' = Some (mkSteal from by_).
Proof.
  intros Hre Ha [o [Ho Hm]] Hh Hne s Hr Hops. apply reachable_wf in Hre as Hwf.
  destruct (wf_holder l Hwf prev Hh) as [[op [Hop _]] _].
  rewrite (run_stolen _ _ _ Hr Hops).
  assert (steal l id = (Stolen (Some prev),
    grant_to (set_stolen l (Some (mkSteal (o_label op) (o_label o)))) id)) as He.
  { unfold steal. rewrite Ho, Ha, !bool_decide_eq_false_2 by congruence.
    rewrite Hh. unfold label_of. by rewrite Hop, Ho. }
  subst s. rewrite He. simpl. split_and!; auto.
  - apply u64_wrapping_succ_ne. apply Hwf.
  - unfold label_of. rewrite Hop, Ho. simpl. eauto.
Qed.

Lemma snapshot_holders_aux (f : N * Origin -> OriginState) (xs : list (N * Origin)) h :
  NoDup xs.*1 -> (forall p, os_holds_lock (f p) = bool_decide (h = p.1)) ->
  length (filter (fun s => os_holds_lock s = true) (f <$> xs)) =
  if decide (h ∈ xs.*1) then 1%nat else 0%nat.
Proof.
  intros Hnd Hf. induction xs as [|[k o] xs IH].
  - destruct (decide (h ∈ ([] : list (N * Origin)).*1)) as [H|H]; [|done]. by apply elem_of_nil in H.
  - cbn [fmap list_fmap] in *. apply NoDup_cons in Hnd as [Hk Hnd]. specialize (IH Hnd).
    specialize (Hf (k, o)) as Hf'. simpl in Hf'.
    destruct (decide (h = k)) as [->|Hne].
    + rewrite filter_cons_True by (rewrite Hf'; by apply bool_decide_eq_true_2).
      cbn [length]. rewrite IH. rewrite decide_False by done.
      rewrite decide_True; [done|left].
    + rewrite filter_cons_False by (rewrite Hf'; by rewrite bool_decide_eq_false_2).
      rewrite IH. destruct (decide (h ∈ xs.*1)) as [Hin|Hin].
      * rewrite decide_True; [done|by right].
      * rewrite decide_False; [done|]. rewrite not_elem_of_cons. done.
Qed.

(** What [state] shows of a reachable lock is truthful even when two origins
    share a label: exactly one origin is marked as holding the lock when it is
    held and none when it is free, the reported holder is that origin's label,
    and every waiter's label is listed, in queue order. *)
Theorem snapshot_truthful l :
  reachable l ->
  length (filter (fun s => os_holds_lock s = true) (snap_origins (snapshot l))) =
    match holder l with Some _ => 1%nat | None => 0%nat end /\
  snap_holder (snapshot l) = (holder l ≫= label_of l) /\
  (holder l <> None -> snap_holder (snapshot l) <> None) /\
  Some <$> snap_waiters (snapshot l) = label_of l <$> waiters l.
Proof.
  intros Hre. apply reachable_wf in Hre as [Hh Hw Hn Hg Hp]. split_and!; simpl.
  - destruct (holder l) as [h|] eqn:E.
    + rewrite (snapshot_holders_aux _ _ h).
      * destruct (Hh h eq_refl) as [[o [Ho _]] _]. rewrite decide_True; [done|].
        apply list_elem_of_fmap. exists (h, o). split; [done|]. by apply elem_of_btree_iter.
      * rewrite btree_iter_perm. apply NoDup_fst_map_to_list.
      * intros p. simpl. apply bool_decide_ext. naive_solver.
    + induction (btree_iter (origins l)) as [|p xs IH]; [done|].
      rewrite fmap_cons, filter_cons_False; [done|]. naive_solver.
  - done.
  - destruct (holder l) as [h|] eqn:E; [|done]. intros _. simpl.
    destruct (Hh h eq_refl) as [[o [Ho _]] _]. unfold label_of. by rewrite Ho.
  - assert (forall w, w ∈ waiters l -> is_Some (label_of l w)) as Hs.
    { intros w Hin. destruct (Hw w Hin) as [[o [Ho _]] _]. unfold label_of. rewrite Ho. by eexists. }
    clear Hw Hn. induction (waiters l) as [|w ws IH]; [done|]. simpl.
    destruct (Hs w) as [s Es]; [left|]. rewrite Es. simpl. f_equal. apply IH.
    intros w' Hin. apply Hs. by right.
Qed.

(** ** Witnesses *)

(** Three on-demand origins: 1 holds the lock, 2 then 3 wait. *)
Definition demo_ops : list LockOp :=
  [ORegister 1 "a" OnDemand; ORegister 2 "b" OnDemand; ORegister 3 "c" OnDemand;
   OAcquire 1; OEnqueue 2; OEnqueue 3].
Definition demo_lock : EndpointLock := fold_left (fun l op => run_op op l) demo_ops (new Exclusive).

Ltac run_demo := repeat (econstructor; [econstructor; vm_compute; done|]); econstructor.

Lemma demo_run : lock_run (new Exclusive) demo_ops demo_lock.
Proof. unfold demo_ops, demo_lock. simpl. run_demo. Qed.
Lemma demo_reachable : reachable demo_lock.
Proof. exists Exclusive, demo_ops. apply demo_run. Qed.
Lemma demo_writer : is_writer demo_lock 2.
Proof. eexists. split; [vm_compute; reflexivity|done]. Qed.
Lemma demo_no_held d : ~ is_held demo_lock d.
Proof.
  intros (o & Ho & Hm).
  destruct (decide (d = 1%N)) as [->|]; [vm_compute in Ho; by simplify_eq|].
  destruct (decide (d = 2%N)) as [->|]; [vm_compute in Ho; by simplify_eq|].
  destruct (decide (d = 3%N)) as [->|]; [vm_compute in Ho; by simplify_eq|].
  assert (origins demo_lock = <[3%N := mkOrigin "c" OnDemand 0]> (<[2%N := mkOrigin "b" OnDemand 0]>
           (<[1%N := mkOrigin "a" OnDemand 0]> ∅))) as He by reflexivity.
  rewrite He, !lookup_insert_ne, lookup_empty in Ho by done. done.
Qed.

Lemma write_exclusion_witness : 1%N = 1%N /\ is_writer demo_lock 1 /\ 1%N ∉ waiters demo_lock.
Proof. apply (write_exclusion demo_lock 1 1); [apply demo_reachable|reflexivity..]. Defined.

Lemma lock_invariant_witness : lock_wf demo_lock.
Proof. apply lock_invariant, demo_reachable. Defined.

Lemma acquire_exclusive_witness :
  (acquire demo_lock 2).2 = if decide ((acquire demo_lock 2).1 = Granted) then grant_to demo_lock 2 else demo_lock.
Proof. apply (acquire_exclusive demo_lock 2). reflexivity. Defined.

Lemma free_lock_progress_witness :
  (acquire (release demo_lock 1).2 2).1 = Granted.
Proof.
  refine (proj2 (free_lock_progress (release demo_lock 1).2 2 _ eq_refl eq_refl _) _).
  - exists Exclusive, (demo_ops ++ [ORelease 1]). unfold demo_ops. simpl. run_demo.
  - eexists. split; [vm_compute; reflexivity|done].
  - intros d Hd. apply (demo_no_held d). destruct Hd as (o & Ho & Hm). by exists o.
Defined.

Lemma fifo_fairness_witness : holder (run_op (OAcquire 3) (run_op (ORelease 1) demo_lock)) <> Some 3%N.
Proof.
  refine (proj1 (fifo_fairness 2 3 demo_lock [ORelease 1; OAcquire 3] _ _ _ _ _ _ _)).
  - econstructor; [vm_compute; left|econstructor; done|].
    econstructor; [vm_compute; left|econstructor; done|].
    econstructor. vm_compute. left.
  - intros op Hin. repeat (apply elem_of_cons in Hin as [->|Hin]; [done|]). inversion Hin.
  - apply demo_reachable.
  - apply demo_no_held.
  - exists [], [3%N]. split_and!; [reflexivity|apply not_elem_of_nil|done].
  - vm_compute. right. left.
Defined.

Lemma lease_generation_guard_witness : holder demo_lock = Some 1%N.
Proof.
  apply (lease_generation_guard demo_lock [OEnqueue 2] (run_op (OEnqueue 2) demo_lock)).
  - apply demo_reachable.
  - run_demo.
  - reflexivity.
  - reflexivity.
  - reflexivity.
Defined.

(** A demultiplexer (held) and an on-demand contender. *)
Definition demo_held : EndpointLock :=
  register (register (new Exclusive) 1 "mux" Held) 2 "b" OnDemand.

Lemma held_origin_priority_witness :
  is_held (run_op (OReclaim 1) (run_op (OAcquire 2) (run_op (ORelease 1) demo_held))) 1.
Proof.
  apply (held_origin_priority 1 demo_held [ORelease 1; OAcquire 2; OReclaim 1]
           (run_op (OReclaim 1) (run_op (OAcquire 2) (run_op (ORelease 1) demo_held)))).
  - run_demo.
  - intros op Hin. repeat (apply elem_of_cons in Hin as [->|Hin]; [done|]). inversion Hin.
  - eexists. split; [vm_compute; reflexivity|done].
  - intros h Hh. vm_compute in Hh. simplify_eq. eexists. split; [vm_compute; reflexivity|done].
  - reflexivity.
Defined.

Lemma steal_recorded_witness :
  stolen (run_op (OUnregister 2) (steal demo_lock 2).2) = Some (mkSteal "a" "b").
Proof.
  destruct (steal_recorded demo_lock 2 1 [OUnregister 2] (run_op (OUnregister 2) (steal demo_lock 2).2))
    as (_ & _ & _ & _ & f & b & Hf & Hb & Hs).
  - apply demo_reachable.
  - reflexivity.
  - apply demo_writer.
  - reflexivity.
  - done.
  - run_demo.
  - intros op Hin. apply elem_of_cons in Hin as [->|Hin]; [done|inversion Hin].
  - vm_compute in Hf, Hb. by simplify_eq.
Defined.

Lemma snapshot_truthful_witness :
  length (filter (fun s => os_holds_lock s = true) (snap_origins (snapshot demo_lock))) = 1%nat.
Proof. apply (snapshot_truthful demo_lock demo_reachable). Defined.
