(* ===== verification/Envelope.v ===== *)
(** * The envelope and the wire hello (codec-api/src/lib.rs)

    Length-prefixed frames carrying one channel event, the streaming decoder over
    them, and the connection-opening hello.  Slices and indexing keep Rust's
    bounds checks ([Panic]), so that decoding untrusted bytes without aborting is
    a theorem. *)

From S2P Require Import Prelude.

(** ** UTF-8 validity ([std::str::from_utf8]) *)

Definition in_range (lo hi : Z) (b : byte) : bool := (lo <=? bval b) && (bval b <=? hi).
Definition utf8_cont (b : byte) : bool := in_range 0x80 0xbf b.

Fixpoint utf8_valid (bs : list byte) : bool :=
  match bs with
  | [] => true
  | b0 :: r0 =>
      if in_range 0x00 0x7f b0 then utf8_valid r0
      else if in_range 0xc2 0xdf b0 then
        match r0 with b1 :: r1 => utf8_cont b1 && utf8_valid r1 | _ => false end
      else if in_range 0xe0 0xef b0 then
        match r0 with
        | b1 :: b2 :: r2 =>
            (if bval b0 =? 0xe0 then in_range 0xa0 0xbf b1
             else if bval b0 =? 0xed then in_range 0x80 0x9f b1
             else utf8_cont b1) && utf8_cont b2 && utf8_valid r2
        | _ => false
        end
      else if in_range 0xf0 0xf4 b0 then
        match r0 with
        | b1 :: b2 :: b3 :: r3 =>
            (if bval b0 =? 0xf0 then in_range 0x90 0xbf b1
             else if bval b0 =? 0xf4 then in_range 0x80 0x8f b1
             else utf8_cont b1) && utf8_cont b2 && utf8_cont b3 && utf8_valid r3
        | _ => false
        end
      else false
  end.

(** The invariant of the [String] type. *)
Definition is_str (s : string) : Prop := utf8_valid (as_bytes s) = true.

(** [std::str::from_utf8(bytes).map_err(|_| e)?.to_owned()]. *)
Definition from_utf8 {E} (e : E) (bs : list byte) : exec E string :=
  if utf8_valid bs then Ok (from_bytes bs) else Err e.

(** ** Events *)

Definition ENVELOPE_VERSION : Z := 1.
Definition MAX_FRAME_SIZE : Z := 64 * 1024.

Abbreviation ChannelId := string (only parsing).

Inductive EventKind :=
| Data (bytes : list byte)
| Open
| Close
| Error (message : string).

Record Event := mkEvent { channel : ChannelId; kind : EventKind }.

Definition event_data (ch : ChannelId) (bytes : list byte) : Event := mkEvent ch (Data bytes).
Definition event_open (ch : ChannelId) : Event := mkEvent ch Open.
Definition event_close (ch : ChannelId) : Event := mkEvent ch Close.
Definition event_error (ch : ChannelId) (msg : string) : Event := mkEvent ch (Error msg).

Definition type_byte (k : EventKind) : byte :=
  match k with Data _ => x00 | Open => x01 | Close => x02 | Error _ => x03 end.

#[export] Instance EventKind_eq_dec : EqDecision EventKind.
Proof. solve_decision. Defined.
#[export] Instance Event_eq_dec : EqDecision Event.
Proof. solve_decision. Defined.

(** The invariants of the Rust types inside an [Event]. *)
Definition event_typed (e : Event) : Prop :=
  is_str (channel e) /\ match kind e with Error m => is_str m | _ => True end.

(** ** Envelope *)

Inductive EnvelopeError :=
| FrameTooLarge (n : Z)
| UnknownType (b : byte)
| Truncated (what : string)
| BadChannelId
| BadErrorMessage.

#[export] Instance EnvelopeError_eq_dec : EqDecision EnvelopeError.
Proof. solve_decision. Defined.

(** [u16::try_from(n).map_err(|_| e)]. *)
Definition u16_try_from {E} (e : E) (n : Z) : exec E Z :=
  if (0 <=? n) && (n <=? u16_max) then Ok n else Err e.

Definition payload_of (k : EventKind) : list byte :=
  match k with Data b => b | Error m => as_bytes m | Open | Close => [] end.

(** [encode(event, &mut out)]: the result and the buffer afterwards. *)
Definition encode (event : Event) (out : list byte) : exec EnvelopeError unit * list byte :=
  let chan := as_bytes (channel event) in
  let payload := payload_of (kind event) in
  let body_len := 1 + 2 + len chan + len payload in
  if MAX_FRAME_SIZE <? body_len then (Err (FrameTooLarge body_len), out)
  else match u16_try_from (FrameTooLarge (len chan)) (len chan) with
       | Ok channel_len =>
           let out := out ++ to_be 4 body_len in
           let out := out ++ [type_byte (kind event)] in
           let out := out ++ to_be 2 channel_len in
           let out := out ++ chan in
           (Ok tt, out ++ payload)
       | Err e => (Err e, out)
       | Panic => (Panic, out)
       end.

Definition decode_kind (type_byte : byte) (payload : list byte) : exec EnvelopeError EventKind :=
  match bval type_byte with
  | 0 => Ok (Data payload)
  | 1 => Ok Open
  | 2 => Ok Close
  | 3 => m ← from_utf8 BadErrorMessage payload; Ok (Error m)
  | _ => Err (UnknownType type_byte)
  end.

(** [try_decode(buf)]. *)
Definition try_decode (buf : list byte) : exec EnvelopeError (option (Event * Z)) :=
  if len buf <? 4 then Ok None else
  b0 ← index buf 0; b1 ← index buf 1; b2 ← index buf 2; b3 ← index buf 3;
  let body_len := from_be [b0; b1; b2; b3] in
  reject (MAX_FRAME_SIZE <? body_len) with FrameTooLarge body_len;
  let frame_end := 4 + body_len in
  if len buf <? frame_end then Ok None else
  body ← slice buf 4 frame_end;
  reject (len body <? 3) with Truncated "header";
  t ← index body 0; c0 ← index body 1; c1 ← index body 2;
  let channel_len := from_be [c0; c1] in
  let channel_end := 3 + channel_len in
  reject (len body <? channel_end) with Truncated "channel id";
  channel_bytes ← slice body 3 channel_end;
  payload ← slice body channel_end (len body);
  ch ← from_utf8 BadChannelId channel_bytes;
  k ← decode_kind t payload;
  Ok (Some (mkEvent ch k, frame_end)).

(** ** Streaming decoder *)

Record FrameDecoder := mkDecoder { fd_buf : list byte; fd_start : Z }.

Definition decoder_new : FrameDecoder := mkDecoder [] 0.

Definition compact (d : FrameDecoder) : FrameDecoder :=
  if fd_start d =? 0 then d
  else mkDecoder (if fd_start d =? len (fd_buf d) then []
                  else drop (Z.to_nat (fd_start d)) (fd_buf d)) 0.

Definition push (d : FrameDecoder) (bytes : list byte) : FrameDecoder :=
  let d := compact d in mkDecoder (fd_buf d ++ bytes) (fd_start d).

Definition next_event (d : FrameDecoder) : exec EnvelopeError (option Event) * FrameDecoder :=
  match (live ← slice (fd_buf d) (fd_start d) (len (fd_buf d)); try_decode live) with
  | Ok (Some (event, consumed)) =>
      let start := fd_start d + consumed in
      (Ok (Some event),
       if start =? len (fd_buf d) then mkDecoder [] 0 else mkDecoder (fd_buf d) start)
  | Ok None => (Ok None, d)
  | Err e => (Err e, d)
  | Panic => (Panic, d)
  end.

Definition buffered (d : FrameDecoder) : Z := len (fd_buf d) - fd_start d.

(** ** Wire hello *)

Definition WIRE_MAGIC : Z := 0x534E584C.
Definition WIRE_VERSION : Z := 1.
Definition CAP_LOCK_RELAY : Z := Z.shiftl 1 0.

Record Hello := mkHello { version : Z; capabilities : Z; channels : list ChannelId }.

Inductive WireError :=
| BadMagic (got : Z)
| UnsupportedVersion (got : Z)
| WFrameTooLarge (n : Z)
| WTruncated (what : string)
| WBadChannelId.

#[export] Instance WireError_eq_dec : EqDecision WireError.
Proof. solve_decision. Defined.

Definition hello_body_len (h : Hello) : Z :=
  foldl (fun n ch => n + (2 + slen ch)) 12 (channels h).

(** The announcement loop of [encode_hello]; an oversize identity stops it with
    what was written so far. *)
Fixpoint encode_announcements (chs : list ChannelId) (out : list byte)
  : exec WireError unit * list byte :=
  match chs with
  | [] => (Ok tt, out)
  | ch :: chs =>
      match u16_try_from (WFrameTooLarge (slen ch)) (slen ch) with
      | Ok ch_len => encode_announcements chs ((out ++ to_be 2 ch_len) ++ as_bytes ch)
      | Err e => (Err e, out)
      | Panic => (Panic, out)
      end
  end.

Definition encode_hello (h : Hello) (out : list byte) : exec WireError unit * list byte :=
  let body_len := hello_body_len h in
  if MAX_FRAME_SIZE <? body_len then (Err (WFrameTooLarge body_len), out)
  else match u16_try_from (WFrameTooLarge body_len) (len (channels h)) with
       | Ok count =>
           let out := out ++ to_be 4 body_len in
           let out := out ++ to_be 4 WIRE_MAGIC in
           let out := out ++ to_be 2 (version h) in
           let out := out ++ to_be 4 (capabilities h) in
           let out := out ++ to_be 2 count in
           encode_announcements (channels h) out
       | Err e => (Err e, out)
       | Panic => (Panic, out)
       end.

(** [Vec::with_capacity(count.min((body.len() - 12) / 2))]. *)
Definition hello_capacity (count : Z) (body : list byte) : Z :=
  Z.min count ((len body - 12) / 2).

(** The announcement loop of [try_decode_hello]: [for _ in 0..count]. *)
Fixpoint decode_announcements (count : nat) (body : list byte) (off : Z)
    (chs : list ChannelId) : exec WireError (list ChannelId) :=
  match count with
  | O => Ok chs
  | S count =>
      reject (len body <? off + 2) with WTruncated "announcement length";
      c0 ← index body off; c1 ← index body (off + 1);
      let ch_len := from_be [c0; c1] in
      let off := off + 2 in
      reject (len body <? off + ch_len) with WTruncated "announcement identity";
      bs ← slice body off (off + ch_len);
      ch ← from_utf8 WBadChannelId bs;
      decode_announcements count body (off + ch_len) (chs ++ [ch])
  end.

Definition try_decode_hello (buf : list byte) : exec WireError (option (Hello * Z)) :=
  if len buf <? 4 then Ok None else
  b0 ← index buf 0; b1 ← index buf 1; b2 ← index buf 2; b3 ← index buf 3;
  let body_len := from_be [b0; b1; b2; b3] in
  reject (MAX_FRAME_SIZE <? body_len) with WFrameTooLarge body_len;
  let frame_end := 4 + body_len in
  if len buf <? frame_end then Ok None else
  body ← slice buf 4 frame_end;
  reject (len body <? 6) with WTruncated "header";
  m0 ← index body 0; m1 ← index body 1; m2 ← index body 2; m3 ← index body 3;
  let magic := from_be [m0; m1; m2; m3] in
  reject (negb (magic =? WIRE_MAGIC)) with BadMagic magic;
  v0 ← index body 4; v1 ← index body 5;
  let ver := from_be [v0; v1] in
  reject (negb (ver =? WIRE_VERSION)) with UnsupportedVersion ver;
  reject (len body <? 12) with WTruncated "header";
  k0 ← index body 6; k1 ← index body 7; k2 ← index body 8; k3 ← index body 9;
  n0 ← index body 10; n1 ← index body 11;
  let count := from_be [n0; n1] in
  chs ← decode_announcements (Z.to_nat count) body 12 [];
  Ok (Some (mkHello ver (from_be [k0; k1; k2; k3]) chs, frame_end)).

(** ** Lemmas: characters *)

(** A valid string is empty or a character of at most four bytes, all but the first
    of them continuation bytes, and a valid string. *)
Lemma utf8_uncons bs :
  utf8_valid bs = true ->
  bs = [] \/ exists b c r,
    bs = b :: c ++ r /\ (length c <= 3)%nat /\ utf8_cont b = false /\ Forall (fun x => utf8_cont x = true) c
    /\ utf8_valid r = true /\ forall k, utf8_valid k = true -> utf8_valid (b :: c ++ k) = true.
Proof.
  destruct bs as [|b r]; [by left|]. intros H. right. cbn [utf8_valid] in H.
  assert (Hc : forall lo hi x, 0x80 <= lo -> hi <= 0xbf -> in_range lo hi x = true -> utf8_cont x = true).
  { unfold utf8_cont, in_range. intros lo hi x ? ?. rewrite !andb_true_iff, !Z.leb_le. lia. }
  assert (Hb : forall lo hi, hi < 0x80 \/ 0xbf < lo -> in_range lo hi b = true -> utf8_cont b = false).
  { unfold utf8_cont, in_range. intros lo hi ?. rewrite andb_true_iff, andb_false_iff, !Z.leb_le, !Z.leb_gt. lia. }
  destruct (in_range 0 0x7f b) eqn:E1; [|destruct (in_range 0xc2 0xdf b) eqn:E2;
    [|destruct (in_range 0xe0 0xef b) eqn:E3; [|destruct (in_range 0xf0 0xf4 b) eqn:E4; [|done]]]].
  - exists b, [], r. split_and!; try done; [cbn; lia|by eapply Hb; [|done]; lia|].
    intros k Hk. cbn. by rewrite E1.
  - destruct r as [|b1 r]; [done|]. apply andb_true_iff in H as [H1 H].
    exists b, [b1], r. split_and!; try done; [cbn; lia|eapply Hb; [|exact E2]; lia|by repeat constructor|].
    intros k Hk. cbn. by rewrite E1, E2, H1, Hk.
  - destruct r as [|b1 [|b2 r]]; [done..|]. apply andb_true_iff in H as [H H3]. apply andb_true_iff in H as [H1 H2].
    exists b, [b1; b2], r. split_and!; try done; [cbn; lia|eapply Hb; [|exact E3]; lia| |].
    + constructor; [|by repeat constructor]. repeat case_match; [eapply Hc; [| |exact H1]; lia..|done].
    + intros k Hk. cbn. by rewrite E1, E2, E3, H1, H2, Hk.
  - destruct r as [|b1 [|b2 [|b3 r]]]; [done..|]. rewrite !andb_true_iff in H. destruct H as [[[H1 H2] H3] H4].
    exists b, [b1; b2; b3], r. split_and!; try done; [eapply Hb; [|exact E4]; lia| |].
    + constructor; [|by repeat constructor]. repeat case_match; [eapply Hc; [| |exact H1]; lia..|done].
    + intros k Hk. cbn. by rewrite E1, E2, E3, E4, H1, H2, H3, Hk.
Qed.

Lemma utf8_valid_app a b : utf8_valid a = true -> utf8_valid b = true -> utf8_valid (a ++ b) = true.
Proof.
  intros Ha Hb. remember (length a) as n eqn:E. revert a Ha E. induction n as [n IH] using lt_wf_ind. intros a Ha ->.
  destruct (utf8_uncons a Ha) as [->|(x & c & r & -> & _ & _ & _ & Hr & Hk)]; [done|].
  cbn [app]. rewrite <- app_assoc. apply Hk. eapply IH; [|exact Hr|reflexivity]. cbn. rewrite length_app. lia.
Qed.

(** ** Lemmas: the frame layer *)

(** The length prefix, and the body of a frame read from [body]. *)
Definition prefix_len (buf : list byte) : Z := from_be (take 4 buf).

Definition parse_body (body : list byte) : exec EnvelopeError Event :=
  match body with
  | t :: c0 :: c1 :: r =>
      let n := from_be [c0; c1] in
      if len r <? n then Err (Truncated "channel id")
      else ch ← from_utf8 BadChannelId (take (Z.to_nat n) r);
           k ← decode_kind t (drop (Z.to_nat n) r);
           Ok (mkEvent ch k)
  | _ => Err (Truncated "header")
  end.

Lemma from_be_nonneg bs : 0 <= from_be bs.
Proof. apply from_be_range. Qed.
#[export] Hint Resolve from_be_nonneg : snx.

Lemma prefix_len_nonneg buf : 0 <= prefix_len buf.
Proof. apply from_be_nonneg. Qed.

(** Destruct a buffer known to hold four bytes. *)
Lemma four_bytes (buf : list byte) :
  4 <= len buf -> exists b0 b1 b2 b3 r, buf = b0 :: b1 :: b2 :: b3 :: r.
Proof.
  destruct buf as [|b0 [|b1 [|b2 [|b3 r]]]]; intros H; try (exfalso; unfold len in H; simpl in H; lia).
  by exists b0, b1, b2, b3, r.
Qed.

Lemma parse_body_eq (body : list byte) (fe : Z) :
  (reject (len body <? 3) with Truncated "header";
   t ← index body 0; c0 ← index body 1; c1 ← index body 2;
   let channel_len := from_be [c0; c1] in
   let channel_end := 3 + channel_len in
   reject (len body <? channel_end) with Truncated "channel id";
   channel_bytes ← slice body 3 channel_end;
   payload ← slice body channel_end (len body);
   ch ← from_utf8 BadChannelId channel_bytes;
   k ← decode_kind t payload;
   Ok (Some (mkEvent ch k, fe))) =
  (e ← parse_body body; Ok (Some (e, fe))).
Proof.
  destruct body as [|t [|c0 [|c1 r]]]; try reflexivity.
  destruct (Z.ltb_spec (len (t :: c0 :: c1 :: r)) 3) as [H|H].
  { exfalso. revert H. rewrite !len_cons. pose proof (len_nonneg r). lia. }
  read_indices. cbv zeta. cbn [parse_body].
  set (n := from_be [c0; c1]). assert (0 <= n) by apply from_be_nonneg. rewrite !len_cons in *.
  destruct (Z.ltb_spec (len r) n) as [Hs|Hs].
  { by rewrite (proj2 (Z.ltb_lt _ _)) by lia. }
  rewrite (proj2 (Z.ltb_ge _ _)) by lia.
  rewrite !slice_ok by (rewrite ?len_cons; lia). rewrite !bind_ok.
  replace (3 + n - 3) with n by lia.
  replace (Z.to_nat (3 + n)) with (S (S (S (Z.to_nat n)))) by lia. cbn [drop].
  rewrite (take_ge (drop _ _)) by (rewrite length_drop; unfold len in *; lia).
  change (drop (Z.to_nat 3) (t :: c0 :: c1 :: r)) with r.
  destruct (from_utf8 _ _); simpl; [|done..]. by destruct (decode_kind _ _).
Qed.

Lemma try_decode_unfold buf :
  try_decode buf =
  if len buf <? 4 then Ok None
  else if MAX_FRAME_SIZE <? prefix_len buf then Err (FrameTooLarge (prefix_len buf))
  else if len buf <? 4 + prefix_len buf then Ok None
  else e ← parse_body (take (Z.to_nat (prefix_len buf)) (drop 4 buf));
       Ok (Some (e, 4 + prefix_len buf)).
Proof.
  unfold try_decode. destruct (Z.ltb_spec (len buf) 4) as [H|H]; [done|].
  destruct (four_bytes buf H) as (b0 & b1 & b2 & b3 & r & ->).
  read_indices. cbv zeta. unfold prefix_len. cbn [take]. rewrite take_0.
  set (n := from_be [b0; b1; b2; b3]). assert (0 <= n) by apply from_be_nonneg.
  destruct (Z.ltb_spec MAX_FRAME_SIZE n); [done|].
  destruct (Z.ltb_spec (len (b0 :: b1 :: b2 :: b3 :: r)) (4 + n)) as [Hs|Hs]; [done|].
  rewrite slice_ok by lia. rewrite bind_ok.
  replace (4 + n - 4) with n by lia. cbn [drop].
  change (drop (Z.to_nat 4) (b0 :: b1 :: b2 :: b3 :: r)) with r. apply parse_body_eq.
Qed.

Lemma decode_kind_not_panic t p : decode_kind t p <> Panic.
Proof. unfold decode_kind, from_utf8. repeat case_match; simpl; done. Qed.

Lemma parse_body_not_panic body : parse_body body <> Panic.
Proof.
  unfold parse_body. repeat case_match; try done. unfold from_utf8. case_match; simpl; [|done].
  pose proof (decode_kind_not_panic b (drop (Z.to_nat (from_be [b0; b1])) l1)).
  by destruct (decode_kind _ _).
Qed.

Lemma try_decode_not_panic buf : try_decode buf <> Panic.
Proof.
  rewrite try_decode_unfold. repeat (case_if; [done|]).
  pose proof (parse_body_not_panic (take (Z.to_nat (prefix_len buf)) (drop 4 buf))).
  by destruct (parse_body _).
Qed.

(** A successful decode, taken apart. *)
Lemma try_decode_Some buf e n :
  try_decode buf = Ok (Some (e, n)) ->
  4 <= len buf /\ n = 4 + prefix_len buf /\ prefix_len buf <= MAX_FRAME_SIZE /\ n <= len buf /\
  parse_body (take (Z.to_nat (prefix_len buf)) (drop 4 buf)) = Ok e.
Proof.
  rewrite try_decode_unfold.
  destruct (Z.ltb_spec (len buf) 4); [done|].
  destruct (Z.ltb_spec MAX_FRAME_SIZE (prefix_len buf)); [done|].
  destruct (Z.ltb_spec (len buf) (4 + prefix_len buf)); [done|].
  destruct (parse_body _) as [e'| |] eqn:E; simpl; [|done..]. intros [= -> <-]. auto.
Qed.

Lemma parse_body_Ok_len body e : parse_body body = Ok e -> 3 <= len body.
Proof.
  unfold parse_body. destruct body as [|t [|c0 [|c1 r]]]; try done.
  intros _. rewrite !len_cons. pose proof (len_nonneg r). lia.
Qed.

Lemma try_decode_consumed buf e n :
  try_decode buf = Ok (Some (e, n)) -> 7 <= n <= len buf /\ n <= 4 + MAX_FRAME_SIZE.
Proof.
  intros (H4 & -> & Hm & Hn & Hp)%try_decode_Some. apply parse_body_Ok_len in Hp.
  pose proof (prefix_len_nonneg buf). rewrite len_take in Hp; [lia|].
  split; [done|]. change 4%nat with (Z.to_nat 4). rewrite len_drop; lia.
Qed.

(** Decoding reads only the bytes it consumes. *)
Lemma try_decode_app buf rest e n :
  try_decode buf = Ok (Some (e, n)) -> try_decode (buf ++ rest) = Ok (Some (e, n)).
Proof.
  intros (H4 & -> & Hm & Hn & Hp)%try_decode_Some.
  assert (prefix_len (buf ++ rest) = prefix_len buf) as Hpre.
  { unfold prefix_len. f_equal. apply take_app_le. unfold len in *. lia. }
  rewrite try_decode_unfold, Hpre.
  rewrite (proj2 (Z.ltb_ge _ _)) by (rewrite len_app; pose proof (len_nonneg rest); lia).
  rewrite (proj2 (Z.ltb_ge _ _)) by lia.
  rewrite (proj2 (Z.ltb_ge _ _)) by (rewrite len_app; pose proof (len_nonneg rest); lia).
  pose proof (prefix_len_nonneg buf).
  rewrite drop_app_le, take_app_le by (rewrite ?length_drop; unfold len in *; lia).
  by rewrite Hp.
Qed.

(** ** Lemmas: encoding *)

Definition event_body_len (e : Event) : Z :=
  3 + slen (channel e) + len (payload_of (kind e)).

(** The frame [encode] appends. *)
Definition frame_of (e : Event) : list byte :=
  to_be 4 (event_body_len e) ++ type_byte (kind e) :: to_be 2 (slen (channel e)) ++
  as_bytes (channel e) ++ payload_of (kind e).

Arguments frame_of : simpl never.

Definition event_fits (e : Event) : Prop := event_body_len e <= MAX_FRAME_SIZE.

Lemma slen_nonneg s : 0 <= slen s.
Proof. unfold slen. lia. Qed.
#[export] Hint Resolve slen_nonneg : snx.

Lemma len_frame_of e : len (frame_of e) = 4 + event_body_len e.
Proof. unfold frame_of, event_body_len. len_lia. Qed.

Lemma event_body_len_pos e : 3 <= event_body_len e.
Proof.
  unfold event_body_len. pose proof (slen_nonneg (channel e)).
  pose proof (len_nonneg (payload_of (kind e))). lia.
Qed.

Lemma encode_spec e out :
  encode e out = if MAX_FRAME_SIZE <? event_body_len e
                 then (Err (FrameTooLarge (event_body_len e)), out)
                 else (Ok tt, out ++ frame_of e).
Proof.
  unfold encode. rewrite len_as_bytes.
  replace (1 + 2 + slen (channel e) + len (payload_of (kind e))) with (event_body_len e)
    by (unfold event_body_len; lia).
  destruct (Z.ltb_spec MAX_FRAME_SIZE (event_body_len e)) as [H|H]; [done|].
  unfold u16_try_from. pose proof (slen_nonneg (channel e)).
  pose proof (len_nonneg (payload_of (kind e))).
  rewrite (proj2 (Z.leb_le 0 _)) by done.
  rewrite (proj2 (Z.leb_le _ u16_max))
    by (unfold event_body_len, MAX_FRAME_SIZE, u16_max in *; lia).
  simpl andb. cbv iota. unfold frame_of. f_equal. by rewrite <- !app_assoc.
Qed.

Lemma utf8_as_bytes {E} (err : E) s : is_str s -> from_utf8 err (as_bytes s) = Ok s.
Proof. unfold is_str, from_utf8. intros ->. by rewrite from_as_bytes. Qed.

Lemma decode_kind_encoded e :
  event_typed e -> decode_kind (type_byte (kind e)) (payload_of (kind e)) = Ok (kind e).
Proof.
  intros [_ Hk]. destruct (kind e) as [b| | |m]; [done..|].
  unfold decode_kind. simpl payload_of. change (bval (type_byte (Error m))) with 3.
  cbv iota. by rewrite (utf8_as_bytes BadErrorMessage m Hk).
Qed.

Lemma parse_body_encoded e :
  event_typed e -> event_fits e ->
  parse_body (type_byte (kind e) :: to_be 2 (slen (channel e)) ++
              as_bytes (channel e) ++ payload_of (kind e)) = Ok e.
Proof.
  intros Ht Hf. unfold event_fits, event_body_len, MAX_FRAME_SIZE in Hf.
  pose proof (len_nonneg (payload_of (kind e))). pose proof (slen_nonneg (channel e)).
  assert (from_be (to_be 2 (slen (channel e))) = slen (channel e)) as Hn
    by (apply from_to_be; change (256 ^ Z.of_nat 2) with 65536; lia).
  change (to_be 2 (slen (channel e))) with
    [as_u8 (slen (channel e) / 256 ^ 1); as_u8 (slen (channel e) / 256 ^ 0)] in *.
  cbn [app parse_body]. rewrite Hn.
  rewrite (proj2 (Z.ltb_ge _ _)) by (rewrite len_app, len_as_bytes; lia).
  rewrite take_app_length', drop_app_length'
    by (rewrite <- len_as_bytes; unfold len; lia).
  rewrite utf8_as_bytes by apply Ht. rewrite bind_ok, decode_kind_encoded by done.
  by destruct e.
Qed.

Lemma frame_prefix_len e rest : event_fits e -> prefix_len (frame_of e ++ rest) = event_body_len e.
Proof.
  intros Hf. unfold prefix_len, frame_of. rewrite <- app_assoc, take_app_length' by done.
  apply from_to_be. pose proof (event_body_len_pos e).
  unfold event_fits, MAX_FRAME_SIZE in Hf. change (256 ^ Z.of_nat 4) with (2 ^ 32). lia.
Qed.

Lemma try_decode_frame e rest :
  event_typed e -> event_fits e ->
  try_decode (frame_of e ++ rest) = Ok (Some (e, len (frame_of e))).
Proof.
  intros Ht Hf. rewrite try_decode_unfold, frame_prefix_len, len_app, len_frame_of by done.
  pose proof (event_body_len_pos e). pose proof (len_nonneg rest).
  rewrite (proj2 (Z.ltb_ge _ 4)) by lia. rewrite (proj2 (Z.ltb_ge MAX_FRAME_SIZE _)) by apply Hf.
  rewrite (proj2 (Z.ltb_ge _ _)) by lia.
  unfold frame_of. rewrite <- app_assoc, (drop_app_length' _ _ 4) by done.
  rewrite take_app_length'.
  - by rewrite parse_body_encoded.
  - assert (len (frame_of e) = 4 + event_body_len e) as Hl by apply len_frame_of.
    unfold frame_of in Hl. rewrite len_app, len_to_be in Hl. unfold len in Hl. lia.
Qed.

Lemma try_decode_partial e p q :
  event_fits e -> frame_of e = p ++ q -> q <> [] -> try_decode p = Ok None.
Proof.
  intros Hf He Hq. rewrite try_decode_unfold.
  destruct (Z.ltb_spec (len p) 4) as [H4|H4]; [done|].
  assert (prefix_len p = event_body_len e) as Hp.
  { rewrite <- (frame_prefix_len e []) by done. rewrite app_nil_r, He. unfold prefix_len.
    f_equal. rewrite take_app_le; [done|]. unfold len in H4. lia. }
  rewrite Hp, (proj2 (Z.ltb_ge _ _)) by apply Hf.
  rewrite (proj2 (Z.ltb_lt _ _)); [done|].
  rewrite <- len_frame_of, He, len_app. destruct q; [done|].
  rewrite len_cons. pose proof (len_nonneg q). lia.
Qed.

(** ** Streaming: reads of arbitrary size

    The reader loops of the exec codec and the leg: append what was read, then
    take events until the decoder wants more bytes or rejects the stream. *)
Inductive BatchEnd := NeedMore | Malformed (e : EnvelopeError) | Aborted.

(** The inner [loop] over [next_event]; [None] when the fuel runs out. *)
Fixpoint drain_events (fuel : nat) (d : FrameDecoder)
  : option (list Event * BatchEnd * FrameDecoder) :=
  match fuel with
  | O => None
  | S fuel =>
      match next_event d with
      | (Ok (Some ev), d) =>
          '(evs, e, d) ← drain_events fuel d; Some (ev :: evs, e, d)
      | (Ok None, d) => Some ([], NeedMore, d)
      | (Err e, d) => Some ([], Malformed e, d)
      | (Panic, d) => Some ([], Aborted, d)
      end
  end.

(** The outer [loop] over successful reads. *)
Fixpoint read_stream (reads : list (list byte)) (d : FrameDecoder)
  : option (list Event * BatchEnd * FrameDecoder) :=
  match reads with
  | [] => Some ([], NeedMore, d)
  | r :: reads =>
      let d := push d r in
      '(evs, e, d) ← drain_events (S (length (fd_buf d))) d;
      match e with
      | NeedMore => '(evs', e, d) ← read_stream reads d; Some (evs ++ evs', e, d)
      | _ => Some (evs, e, d)
      end
  end.

(** Live bytes: the abstract state of the decoder. *)
Definition live (d : FrameDecoder) : list byte := drop (Z.to_nat (fd_start d)) (fd_buf d).
Definition decoder_wf (d : FrameDecoder) : Prop := 0 <= fd_start d <= len (fd_buf d).

Lemma buffered_live d : decoder_wf d -> buffered d = len (live d).
Proof. intros H. unfold buffered, live. rewrite len_drop; [lia|done]. Qed.

Lemma push_live d bs : decoder_wf d -> decoder_wf (push d bs) /\ live (push d bs) = live d ++ bs.
Proof.
  intros [H1 H2]. unfold push, compact, live, decoder_wf.
  destruct (Z.eqb_spec (fd_start d) 0) as [E|E]; simpl.
  - rewrite E. simpl. rewrite !drop_0. split; [|done]. pose proof (len_nonneg (fd_buf d ++ bs)). lia.
  - rewrite drop_0. destruct (Z.eqb_spec (fd_start d) (len (fd_buf d))) as [El|El].
    + split; [pose proof (len_nonneg bs); simpl; lia|].
      rewrite drop_ge; [done|]. unfold len in El. lia.
    + split; [|done]. pose proof (len_nonneg (drop (Z.to_nat (fd_start d)) (fd_buf d) ++ bs)). lia.
Qed.

Lemma next_event_live d :
  decoder_wf d ->
  decoder_wf (next_event d).2 /\
  match try_decode (live d) with
  | Ok (Some (e, n)) => (next_event d).1 = Ok (Some e) /\
                        live (next_event d).2 = drop (Z.to_nat n) (live d)
  | Ok None => next_event d = (Ok None, d)
  | Err e => next_event d = (Err e, d)
  | Panic => next_event d = (Panic, d)
  end.
Proof.
  intros Hwf. assert (Hs := Hwf). destruct Hs as [H1 H2]. unfold next_event.
  rewrite slice_ok, bind_ok by lia.
  rewrite take_ge by (rewrite length_drop; unfold len in *; lia). fold (live d).
  destruct (try_decode (live d)) as [[[e n]|]|err|] eqn:E; simpl; auto.
  apply try_decode_consumed in E as [Hn _]. rewrite <- (buffered_live d Hwf) in Hn.
  unfold buffered in Hn. destruct (Z.eqb_spec (fd_start d + n) (len (fd_buf d))) as [El|El].
  - split; [unfold decoder_wf, len in *; simpl; lia|]. split; [done|]. unfold live. simpl.
    rewrite drop_drop, drop_ge; [done|]. unfold len in *. lia.
  - split; [unfold decoder_wf, len in *; simpl; lia|]. split; [done|]. unfold live. simpl.
    rewrite drop_drop. f_equal. lia.
Qed.

(** [decodes s evs l]: the bytes [s] hold the frames of [evs], then the partial
    frame [l]. *)
Inductive decodes : list byte -> list Event -> list byte -> Prop :=
| decodes_more s : try_decode s = Ok None -> decodes s [] s
| decodes_event s e n evs l :
    try_decode s = Ok (Some (e, n)) -> decodes (drop (Z.to_nat n) s) evs l ->
    decodes s (e :: evs) l.

Lemma drain_decodes s evs l :
  decodes s evs l -> forall d fuel, decoder_wf d -> live d = s -> (length s < fuel)%nat ->
  exists d', drain_events fuel d = Some (evs, NeedMore, d') /\ decoder_wf d' /\ live d' = l.
Proof.
  induction 1 as [s Hs|s e n evs l Hs Hd IH]; intros d fuel Hwf Hl Hf;
    (destruct fuel as [|fuel]; [lia|]); cbn [drain_events];
    pose proof (next_event_live d Hwf) as [Hwf' Hn]; rewrite Hl, Hs in Hn.
  - rewrite Hn. eauto.
  - destruct Hn as [He Hl']. destruct (next_event d) as [r d1]. simpl in *. subst r.
    apply try_decode_consumed in Hs as [Hc _].
    destruct (IH d1 fuel) as (d' & -> & Hwf2 & Hl2); [done|done| |].
    { rewrite length_drop. unfold len in Hc. lia. }
    exists d'. split_and!; done.
Qed.

(** Bytes that begin a sequence of frames decode to the frames that are whole. *)
Lemma prefix_decodes evs s t :
  Forall (fun e => event_typed e /\ event_fits e) evs ->
  s ++ t = concat (frame_of <$> evs) ->
  exists evs1 evs2 l, evs = evs1 ++ evs2 /\ decodes s evs1 l /\
    l ++ t = concat (frame_of <$> evs2) /\ len l < 4 + MAX_FRAME_SIZE.
Proof.
  revert s. induction evs as [|e evs IH]; intros s Hall Hs; cbn [fmap list_fmap concat] in Hs.
  - apply app_eq_nil in Hs as [-> ->]. exists [], [], []. split_and!; try done. by constructor.
  - apply Forall_cons in Hall as [[Ht Hf] Hall].
    destruct (decide (len (frame_of e) <= len s)) as [Hle|Hgt].
    + assert (exists s', s = frame_of e ++ s' /\ s' ++ t = concat (frame_of <$> evs)) as (s' & -> & Hs').
      { exists (drop (length (frame_of e)) s). split.
        - rewrite <- (take_drop (length (frame_of e)) s) at 1. f_equal.
          apply (f_equal (take (length (frame_of e)))) in Hs.
          rewrite take_app_length, take_app_le in Hs by (unfold len in Hle; lia). done.
        - apply (f_equal (drop (length (frame_of e)))) in Hs.
          rewrite drop_app_length, drop_app_le in Hs by (unfold len in Hle; lia). done. }
      destruct (IH s' Hall Hs') as (evs1 & evs2 & l & -> & Hd & Hlt & Hb).
      exists (e :: evs1), evs2, l. split_and!; auto. econstructor; [by apply try_decode_frame|].
      unfold len. rewrite Nat2Z.id, drop_app_length. done.
    + assert (exists q, frame_of e = s ++ q /\ q <> []) as (q & Hq & Hne).
      { exists (drop (length s) (frame_of e)). apply (f_equal (take (length s))) in Hs as Hs2.
        rewrite take_app_length, take_app_le in Hs2 by (unfold len in Hgt; lia). split.
        - rewrite Hs2 at 1. by rewrite take_drop.
        - intros Hn. apply (f_equal length) in Hn. rewrite length_drop in Hn.
          unfold len in Hgt. cbn [length] in Hn. lia. }
      exists [], (e :: evs), s. split_and!; auto.
      * constructor. by eapply try_decode_partial.
      * rewrite len_frame_of in Hgt. unfold event_fits in Hf. lia.
Qed.

(** ** Lemmas: the hello *)

Lemma index_app {E A} (pre : list A) x r : index (E := E) (pre ++ x :: r) (len pre) = Ok x.
Proof.
  unfold index, len. rewrite (proj2 (Z.leb_le _ _)), Nat2Z.id by lia.
  rewrite lookup_app_r, Nat.sub_diag by lia. done.
Qed.

Lemma slice_app {E A} (pre a r : list A) :
  slice (E := E) (pre ++ a ++ r) (len pre) (len pre + len a) = Ok a.
Proof.
  rewrite slice_ok; [|apply len_nonneg|pose proof (len_nonneg a); lia|].
  - replace (len pre + len a - len pre) with (len a) by lia.
    unfold len. rewrite !Nat2Z.id, drop_app_length, take_app_length. done.
  - rewrite !len_app. pose proof (len_nonneg r). lia.
Qed.

Definition announcement (ch : ChannelId) : list byte := to_be 2 (slen ch) ++ as_bytes ch.

Definition hello_body (h : Hello) : list byte :=
  to_be 4 WIRE_MAGIC ++ to_be 2 (version h) ++ to_be 4 (capabilities h) ++
  to_be 2 (len (channels h)) ++ concat (announcement <$> channels h).
Arguments hello_body : simpl never.

Definition hello_frame (h : Hello) : list byte := to_be 4 (hello_body_len h) ++ hello_body h.

(** The invariants of the Rust types inside a [Hello]. *)
Definition hello_typed (h : Hello) : Prop :=
  0 <= version h <= u16_max /\ 0 <= capabilities h <= u32_max /\ Forall is_str (channels h).

Lemma foldl_len (chs : list ChannelId) n :
  foldl (fun n ch => n + (2 + slen ch)) n chs = n + len (concat (announcement <$> chs)).
Proof.
  revert n. induction chs as [|ch chs IH]; intros n; cbn [foldl fmap list_fmap concat].
  - rewrite len_nil. lia.
  - rewrite IH, len_app. unfold announcement at 2. len_lia.
Qed.

Lemma len_hello_body h : len (hello_body h) = hello_body_len h.
Proof. unfold hello_body, hello_body_len. rewrite foldl_len. len_lia. Qed.

Lemma announcements_fit chs :
  2 * len chs <= len (concat (announcement <$> chs)) /\
  Forall (fun ch => 2 + slen ch <= len (concat (announcement <$> chs))) chs.
Proof.
  induction chs as [|ch chs [IH1 IH2]]; cbn [fmap list_fmap concat].
  - split; [done|constructor].
  - rewrite len_app, len_cons. unfold announcement at 1 3.
    autorewrite with snx_len. pose proof (slen_nonneg ch).
    assert (0 <= len (concat (announcement <$> chs))) by apply len_nonneg.
    split; [lia|]. constructor; [lia|]. eapply Forall_impl; [apply IH2|].
    simpl. unfold fmap in *. intros c Hc. lia.
Qed.

Lemma encode_announcements_spec chs out :
  Forall (fun ch => slen ch <= u16_max) chs ->
  encode_announcements chs out = (Ok tt, out ++ concat (announcement <$> chs)).
Proof.
  intros H. revert out. induction H as [|ch chs Hc H IH]; intros out;
    cbn [encode_announcements fmap list_fmap concat]; [by rewrite app_nil_r|].
  unfold u16_try_from. pose proof (slen_nonneg ch).
  rewrite (proj2 (Z.leb_le 0 _)), (proj2 (Z.leb_le _ u16_max)) by done. simpl andb. cbv iota.
  rewrite IH. unfold announcement at 2. by rewrite <- !app_assoc.
Qed.

Lemma encode_hello_spec h out :
  encode_hello h out = if MAX_FRAME_SIZE <? hello_body_len h
                       then (Err (WFrameTooLarge (hello_body_len h)), out)
                       else (Ok tt, out ++ hello_frame h).
Proof.
  unfold encode_hello. destruct (Z.ltb_spec MAX_FRAME_SIZE (hello_body_len h)) as [H|H]; [done|].
  unfold hello_body_len in H. rewrite foldl_len in H.
  destruct (announcements_fit (channels h)) as [H1 H2]. unfold MAX_FRAME_SIZE in H.
  unfold u16_try_from. rewrite (proj2 (Z.leb_le 0 _)) by apply len_nonneg.
  rewrite (proj2 (Z.leb_le _ u16_max)) by (unfold u16_max; lia). simpl andb. cbv iota.
  rewrite encode_announcements_spec.
  - unfold hello_frame, hello_body. by rewrite <- !app_assoc.
  - eapply Forall_impl; [apply H2|]. simpl. unfold u16_max. intros. lia.
Qed.

Lemma decode_announcements_spec chs pre acc :
  Forall (fun ch => is_str ch /\ slen ch <= u16_max) chs ->
  decode_announcements (length chs) (pre ++ concat (announcement <$> chs)) (len pre) acc
  = Ok (acc ++ chs).
Proof.
  intros H. revert pre acc. induction H as [|ch chs [Hs Hc] H IH]; intros pre acc;
    cbn [length decode_announcements fmap list_fmap concat]; [by rewrite app_nil_r|].
  pose proof (slen_nonneg ch). pose proof (len_nonneg (concat (announcement <$> chs))) as Hnn.
  assert (from_be (to_be 2 (slen ch)) = slen ch) as Hn
    by (apply from_to_be; unfold u16_max in Hc; change (256 ^ Z.of_nat 2) with (2 ^ 16); lia).
  set (rest := concat (list_fmap _ _ announcement chs)).
  change (concat (announcement <$> chs)) with rest in *.
  unfold announcement at 1 2 3 4 5 6.
  rewrite !len_app, len_to_be, len_as_bytes.
  rewrite (proj2 (Z.ltb_ge _ (len pre + 2))) by lia.
  rewrite <- (app_assoc (to_be 2 (slen ch))).
  change (to_be 2 (slen ch)) with [as_u8 (slen ch / 256 ^ 1); as_u8 (slen ch / 256 ^ 0)] in *.
  set (c0 := as_u8 (slen ch / 256 ^ 1)) in *. set (c1 := as_u8 (slen ch / 256 ^ 0)) in *.
  cbn [app]. rewrite index_app, bind_ok.
  rewrite (cons_middle c0 pre), app_assoc.
  replace (len pre + 1) with (len (pre ++ [c0])) by (rewrite len_app; done).
  rewrite index_app, bind_ok. cbv zeta. rewrite Hn.
  rewrite (proj2 (Z.ltb_ge _ _)) by lia.
  rewrite (cons_middle c1 (pre ++ [c0])), app_assoc.
  replace (len pre + 2) with (len ((pre ++ [c0]) ++ [c1])) by (rewrite !len_app; unfold len; simpl; lia).
  rewrite <- (len_as_bytes ch), slice_app, bind_ok, utf8_as_bytes, bind_ok by done.
  rewrite app_assoc, <- len_app. rewrite IH. by rewrite <- app_assoc.
Qed.

Definition parse_hello (body : list byte) : exec WireError Hello :=
  reject (len body <? 6) with WTruncated "header";
  let magic := from_be (take 4 body) in
  reject (negb (magic =? WIRE_MAGIC)) with BadMagic magic;
  let ver := from_be (take 2 (drop 4 body)) in
  reject (negb (ver =? WIRE_VERSION)) with UnsupportedVersion ver;
  reject (len body <? 12) with WTruncated "header";
  chs ← decode_announcements (Z.to_nat (from_be (take 2 (drop 10 body)))) body 12 [];
  Ok (mkHello ver (from_be (take 4 (drop 6 body))) chs).

(** Destruct a list known to hold [n] elements into its first [n] and the rest. *)
Lemma six_bytes (l : list byte) :
  6 <= len l -> exists a b c d e f r, l = a :: b :: c :: d :: e :: f :: r.
Proof.
  destruct l as [|a [|b [|c [|d [|e [|f r]]]]]]; intros H;
    try (exfalso; unfold len in H; simpl in H; lia).
  by exists a, b, c, d, e, f, r.
Qed.

Lemma try_decode_hello_unfold buf :
  try_decode_hello buf =
  if len buf <? 4 then Ok None
  else if MAX_FRAME_SIZE <? prefix_len buf then Err (WFrameTooLarge (prefix_len buf))
  else if len buf <? 4 + prefix_len buf then Ok None
  else h ← parse_hello (take (Z.to_nat (prefix_len buf)) (drop 4 buf));
       Ok (Some (h, 4 + prefix_len buf)).
Proof.
  unfold try_decode_hello. destruct (Z.ltb_spec (len buf) 4) as [H|H]; [done|].
  destruct (four_bytes buf H) as (b0 & b1 & b2 & b3 & r & ->).
  read_indices. cbv zeta. unfold prefix_len. cbn [take]. rewrite take_0.
  set (n := from_be [b0; b1; b2; b3]). assert (0 <= n) by apply from_be_nonneg.
  destruct (Z.ltb_spec MAX_FRAME_SIZE n); [done|].
  destruct (Z.ltb_spec (len (b0 :: b1 :: b2 :: b3 :: r)) (4 + n)) as [Hs|Hs]; [done|].
  rewrite slice_ok by lia. rewrite bind_ok.
  replace (4 + n - 4) with n by lia. cbn [drop].
  change (drop (Z.to_nat 4) (b0 :: b1 :: b2 :: b3 :: r)) with r.
  rewrite ?drop_0. set (body := take (Z.to_nat n) r). clearbody body. unfold parse_hello.
  destruct (Z.ltb_spec (len body) 6) as [H6|H6]; [done|].
  destruct (six_bytes body H6) as (m0 & m1 & m2 & m3 & v0 & v1 & q & ->).
  read_indices. cbv zeta. cbn [take drop]. rewrite !take_0.
  rewrite ?drop_0. case_if; [done|]. read_indices. cbv zeta. case_if; [done|].
  destruct (Z.ltb_spec (len (m0 :: m1 :: m2 :: m3 :: v0 :: v1 :: q)) 12) as [H12|H12]; [done|].
  destruct (six_bytes q) as (k0 & k1 & k2 & k3 & n0 & n1 & z & ->); [revert H12; len_lia|].
  read_indices. cbv zeta. cbn [take drop]. rewrite ?drop_0, !take_0.
  by destruct (decode_announcements _ _ _ _).
Qed.

Lemma parse_hello_encoded h :
  hello_typed h -> hello_body_len h <= MAX_FRAME_SIZE ->
  parse_hello (hello_body h) =
  if version h =? WIRE_VERSION then Ok h else Err (UnsupportedVersion (version h)).
Proof.
  intros (Hv & Hc & Hch) Hf. unfold parse_hello.
  assert (12 <= len (hello_body h)) as H12.
  { rewrite len_hello_body. unfold hello_body_len. rewrite foldl_len.
    pose proof (len_nonneg (concat (announcement <$> channels h))). lia. }
  rewrite (proj2 (Z.ltb_ge _ 6)), (proj2 (Z.ltb_ge _ 12)) by lia.
  unfold hello_body_len in Hf. rewrite foldl_len in Hf. unfold MAX_FRAME_SIZE in Hf.
  destruct (announcements_fit (channels h)) as [H1 H2].
  unfold u16_max, u32_max in *. pose proof (len_nonneg (channels h)).
  assert (take 4 (hello_body h) = to_be 4 WIRE_MAGIC) as -> by reflexivity.
  assert (take 2 (drop 4 (hello_body h)) = to_be 2 (version h)) as -> by reflexivity.
  assert (take 4 (drop 6 (hello_body h)) = to_be 4 (capabilities h)) as -> by reflexivity.
  assert (take 2 (drop 10 (hello_body h)) = to_be 2 (len (channels h))) as -> by reflexivity.
  rewrite !from_to_be by (change (256 ^ Z.of_nat 2) with (2 ^ 16) ||
    change (256 ^ Z.of_nat 4) with (2 ^ 32); unfold WIRE_MAGIC; lia).
  rewrite Z.eqb_refl. simpl negb. cbv iota zeta.
  destruct (version h =? WIRE_VERSION); simpl negb; cbv iota; [|done].
  unfold len at 1. rewrite Nat2Z.id.
  set (pre := to_be 4 WIRE_MAGIC ++ to_be 2 (version h) ++ to_be 4 (capabilities h) ++ to_be 2 (len (channels h))).
  replace (hello_body h) with (pre ++ concat (announcement <$> channels h))
    by (unfold pre, hello_body; by rewrite <- !app_assoc).
  change 12 with (len pre). rewrite decode_announcements_spec.
  - by destruct h.
  - apply Forall_and. split; [done|]. eapply Forall_impl; [apply H2|]. simpl. unfold u16_max. intros. lia.
Qed.

Lemma try_decode_hello_frame h rest :
  hello_typed h -> hello_body_len h <= MAX_FRAME_SIZE ->
  try_decode_hello (hello_frame h ++ rest) =
  if version h =? WIRE_VERSION then Ok (Some (h, len (hello_frame h)))
  else Err (UnsupportedVersion (version h)).
Proof.
  intros Ht Hf. pose proof (len_nonneg rest). pose proof (len_nonneg (hello_body h)) as Hb.
  rewrite len_hello_body in Hb.
  assert (prefix_len (hello_frame h ++ rest) = hello_body_len h) as Hp.
  { unfold prefix_len, hello_frame. rewrite <- app_assoc, take_app_length' by done.
    apply from_to_be. unfold MAX_FRAME_SIZE in Hf. change (256 ^ Z.of_nat 4) with (2 ^ 32). lia. }
  assert (len (hello_frame h) = 4 + hello_body_len h) as Hl
    by (unfold hello_frame; rewrite len_app, len_hello_body; done).
  rewrite try_decode_hello_unfold, Hp, len_app, Hl.
  rewrite (proj2 (Z.ltb_ge _ 4)), (proj2 (Z.ltb_ge MAX_FRAME_SIZE _)), (proj2 (Z.ltb_ge _ (4 + _))) by lia.
  unfold hello_frame. rewrite <- app_assoc, (drop_app_length' _ _ 4) by done.
  rewrite take_app_length' by (pose proof (len_hello_body h) as Hq; unfold len in Hq; lia).
  rewrite parse_hello_encoded by done. by case_if.
Qed.

Lemma decode_announcements_not_panic n body off acc :
  0 <= off -> decode_announcements n body off acc <> Panic.
Proof.
  revert off acc. induction n as [|n IH]; intros off acc Ho; cbn [decode_announcements]; [done|].
  destruct (Z.ltb_spec (len body) (off + 2)); [done|].
  destruct (index_ok (E := WireError) body off) as (c0 & -> & _); [lia|].
  destruct (index_ok (E := WireError) body (off + 1)) as (c1 & -> & _); [lia|].
  rewrite !bind_ok. cbv zeta. pose proof (from_be_nonneg [c0; c1]).
  destruct (Z.ltb_spec (len body) (off + 2 + from_be [c0; c1])); [done|].
  rewrite slice_ok, bind_ok by lia. unfold from_utf8. case_if; [|done].
  rewrite bind_ok. apply IH. lia.
Qed.

(** Every announcement the loop accepts occupies at least two bytes of the body. *)
Lemma decode_announcements_count n body off acc chs :
  0 <= off <= len body -> decode_announcements n body off acc = Ok chs ->
  len chs = Z.of_nat n + len acc /\ off + 2 * Z.of_nat n <= len body.
Proof.
  revert off acc. induction n as [|n IH]; intros off acc Ho; cbn [decode_announcements].
  - intros [= ->]. lia.
  - destruct (Z.ltb_spec (len body) (off + 2)); [done|].
    destruct (index_ok (E := WireError) body off) as (c0 & -> & _); [lia|].
    destruct (index_ok (E := WireError) body (off + 1)) as (c1 & -> & _); [lia|].
    rewrite !bind_ok. cbv zeta. pose proof (from_be_nonneg [c0; c1]).
    destruct (Z.ltb_spec (len body) (off + 2 + from_be [c0; c1])); [done|].
    rewrite slice_ok, bind_ok by lia. unfold from_utf8. case_if; [|done].
    rewrite bind_ok. intros Hd. apply IH in Hd; [|lia]. rewrite len_app in Hd.
    change (len [_]) with 1 in Hd. lia.
Qed.

Lemma parse_hello_not_panic body : parse_hello body <> Panic.
Proof.
  unfold parse_hello. repeat (case_if; [done|]).
  pose proof (decode_announcements_not_panic
    (Z.to_nat (from_be (take 2 (drop 10 body)))) body 12 [] ltac:(lia)).
  by destruct (decode_announcements _ _ _ _).
Qed.

Lemma decode_kind_sound t p k :
  decode_kind t p = Ok k ->
  match k with
  | Open | Close => True
  | Error m => is_str m /\ type_byte k = t /\ payload_of k = p
  | Data _ => type_byte k = t /\ payload_of k = p
  end.
Proof.
  unfold decode_kind. destruct (bval t) as [|n|n] eqn:E; [|repeat (destruct n as [n|n|]; try done)|done].
  - intros [= <-]. split; [|done]. by apply (inj bval).
  - unfold from_utf8. destruct (utf8_valid p) eqn:Hu; [|done]. simpl. intros [= <-].
    unfold is_str. simpl. rewrite as_from_bytes. split_and!; try done. by apply (inj bval).
  - by intros [= <-].
  - by intros [= <-].
Qed.

Lemma parse_body_sound body e :
  parse_body body = Ok e ->
  is_str (channel e) /\
  (kind e <> Open -> kind e <> Close ->
   body = type_byte (kind e) :: to_be 2 (slen (channel e)) ++
          as_bytes (channel e) ++ payload_of (kind e)).
Proof.
  unfold parse_body. destruct body as [|t [|c0 [|c1 r]]]; [done..|]. cbv zeta.
  set (n := from_be [c0; c1]). assert (0 <= n) by apply from_be_nonneg.
  destruct (Z.ltb_spec (len r) n); [done|]. unfold from_utf8.
  destruct (utf8_valid _) eqn:Hu; [|done]. rewrite bind_ok.
  destruct (decode_kind t _) as [k| |] eqn:Hk; [|done..]. rewrite bind_ok.
  intros [= <-]. cbn [channel kind]. unfold is_str. rewrite as_from_bytes. split; [done|]. intros Ho Hc.
  assert (slen (from_bytes (take (Z.to_nat n) r)) = n) as ->
    by (rewrite <- len_as_bytes, as_from_bytes, len_take; lia).
  apply decode_kind_sound in Hk.
  assert (type_byte k = t /\ payload_of k = drop (Z.to_nat n) r) as [-> ->] by (destruct k; naive_solver).
  rewrite take_drop. pose proof (to_from_be [c0; c1]) as Ht. simpl length in Ht. fold n in Ht.
  by rewrite Ht.
Qed.

Lemma parse_body_encode body e :
  parse_body body = Ok e -> len body <= MAX_FRAME_SIZE ->
  kind e <> Open -> kind e <> Close ->
  encode e [] = (Ok tt, to_be 4 (len body) ++ body).
Proof.
  intros Hp Hl Ho Hc. apply parse_body_sound in Hp as [_ Hb]. specialize (Hb Ho Hc).
  assert (len body = event_body_len e) as He by (rewrite Hb; unfold event_body_len; len_lia).
  rewrite encode_spec, (proj2 (Z.ltb_ge _ _)) by lia. unfold frame_of.
  by rewrite <- He, <- Hb.
Qed.

(** ** Theorems *)

(** C5: envelope round trip inside a stream.  Whatever [encode] accepts, it
    appends one frame to the buffer, and decoding that frame with any bytes after
    it yields the same event and consumes exactly the frame. *)
Theorem envelope_roundtrip e out :
  event_typed e ->
  (encode e out).1 = Ok tt ->
  exists frame, (encode e out).2 = out ++ frame /\
    forall rest, try_decode (frame ++ rest) = Ok (Some (e, len frame)).
Proof.
  intros Ht. rewrite encode_spec.
  destruct (Z.ltb_spec MAX_FRAME_SIZE (event_body_len e)) as [H|H]; [done|].
  intros _. exists (frame_of e). split; [done|]. intros. by apply try_decode_frame.
Qed.

(** [encode] refuses exactly the events whose body would exceed
    [MAX_FRAME_SIZE], reporting that size and writing nothing. *)
Theorem encode_bounded e out :
  (encode e out).1 = (if MAX_FRAME_SIZE <? 3 + slen (channel e) + len (payload_of (kind e))
                      then Err (FrameTooLarge (3 + slen (channel e) + len (payload_of (kind e))))
                      else Ok tt) /\
  len (encode e out).2 <= len out + 4 + MAX_FRAME_SIZE /\
  ((encode e out).1 <> Ok tt -> (encode e out).2 = out).
Proof.
  rewrite encode_spec. fold (event_body_len e).
  destruct (Z.ltb_spec MAX_FRAME_SIZE (event_body_len e)) as [H|H]; simpl; split_and!; try done.
  - unfold MAX_FRAME_SIZE. lia.
  - rewrite len_app, len_frame_of. lia.
Qed.

(** decoding untrusted bytes never aborts, and what it accepts is bounded:
    a decoded frame is between 7 bytes and [4 + MAX_FRAME_SIZE] long, lies inside
    the buffer, and re-encodes to exactly the bytes it was read from unless it is
    an [open] or [close] frame (whose payload the decoder ignores). *)
Theorem decode_total_and_sound buf :
  try_decode buf <> Panic /\
  (forall e n, try_decode buf = Ok (Some (e, n)) ->
     7 <= n <= len buf /\ n <= 4 + MAX_FRAME_SIZE /\ is_str (channel e) /\
     (kind e <> Open -> kind e <> Close ->
      encode e [] = (Ok tt, take (Z.to_nat n) buf))).
Proof.
  split; [apply try_decode_not_panic|].
  - intros e n H. pose proof (try_decode_consumed _ _ _ H) as [Hc Hm].
    apply try_decode_Some in H as (H4 & -> & Hp & Hn & Hb).
    split_and!; try lia; [by eapply parse_body_sound|]. intros Ho Hcl.
    assert (len (take (Z.to_nat (prefix_len buf)) (drop 4 buf)) = prefix_len buf) as Hl.
    { apply len_take. change 4%nat with (Z.to_nat 4). rewrite len_drop; lia. }
    rewrite (parse_body_encode _ _ Hb) by (done || lia). rewrite Hl. f_equal.
    replace (to_be 4 (prefix_len buf)) with (take 4 buf).
    2:{ unfold prefix_len. rewrite <- (to_from_be (take 4 buf)) at 1. f_equal.
        rewrite length_take. unfold len in H4. lia. }
    replace (Z.to_nat (4 + prefix_len buf)) with (4 + Z.to_nat (prefix_len buf))%nat by lia.
    by rewrite take_take_drop.
Qed.

(** Incremental decoding.  A proper prefix of an encoded frame always asks
    for more bytes: a partial frame is never an error and never an event. *)
Theorem partial_frame_waits e p q :
  (encode e []).1 = Ok tt -> (encode e []).2 = p ++ q -> q <> [] -> try_decode p = Ok None.
Proof.
  rewrite encode_spec. destruct (Z.ltb_spec MAX_FRAME_SIZE (event_body_len e)) as [H|H]; [done|].
  simpl. intros _ Hf Hq. by eapply try_decode_partial.
Qed.

(** Reads that hold the frames of [evs] and then a part [p] of the next frame. *)
Lemma read_stream_partial evs e p q reads d :
  Forall (fun e => event_typed e /\ event_fits e) (evs ++ [e]) -> frame_of e = p ++ q -> q <> [] -> decoder_wf d ->
  live d ++ concat reads = concat (frame_of <$> evs) ++ p -> try_decode (live d) = Ok None ->
  exists d', read_stream reads d = Some (evs, NeedMore, d') /\ decoder_wf d' /\ live d' = p.
Proof.
  intros Hall He Hq. revert evs d Hall. induction reads as [|r reads IH]; intros evs d Hall Hwf Hl Hn;
    cbn [read_stream concat] in *.
  - exists d. rewrite app_nil_r in Hl. destruct evs as [|e1 evs]; [done|].
    apply Forall_cons in Hall as [[Ht Hf] _]. cbn [fmap list_fmap concat] in Hl.
    rewrite Hl, <- app_assoc, try_decode_frame in Hn by done. done.
  - destruct (push_live d r Hwf) as [Hwf1 Hl1].
    destruct (prefix_decodes (evs ++ [e]) (live (push d r)) (concat reads ++ q)) as (e1 & e2 & l & Ee & Hd & Hr & Hlb); [done| |].
    { rewrite Hl1, <- !app_assoc, (app_assoc r), (app_assoc (live d)), Hl, fmap_app, concat_app, <- app_assoc.
      cbn. by rewrite app_nil_r, He. }
    destruct e2 as [|e' e2 _] using rev_ind.
    { apply (f_equal length) in Hr. rewrite !length_app in Hr. destruct q; [done|]. cbn in Hr. lia. }
    rewrite app_assoc in Ee. apply app_inj_tail in Ee as [-> ->].
    destruct (drain_decodes _ _ _ Hd (push d r) (S (length (fd_buf (push d r))))) as (d1 & -> & Hwf2 & Hl2);
      [done|done| |].
    { unfold live. rewrite length_drop. lia. }
    cbn [mbind option_bind]. destruct (IH e2 d1) as (d2 & -> & Hwf3 & Hl3); eauto.
    + rewrite <- app_assoc in Hall. by apply Forall_app in Hall as [_ Hall].
    + rewrite Hl2. rewrite fmap_app, concat_app in Hr. cbn in Hr. rewrite app_nil_r, He, !app_assoc in Hr.
      by apply app_inv_tail in Hr.
    + rewrite Hl2. clear -Hd. induction Hd; auto.
Qed.

Lemma read_stream_decodes evs reads d :
  Forall (fun e => event_typed e /\ event_fits e) evs -> decoder_wf d ->
  live d ++ concat reads = concat (frame_of <$> evs) -> try_decode (live d) = Ok None ->
  exists d', read_stream reads d = Some (evs, NeedMore, d') /\ decoder_wf d' /\ live d' = [].
Proof.
  intros Hall Hwf Hl Hn. eapply (read_stream_partial evs (event_open "") [] (frame_of (event_open ""))); try done.
  - apply Forall_app. split; [done|]. repeat constructor. vm_compute. discriminate.
  - by rewrite app_nil_r.
Qed.

(** The streaming decoder is independent of how the transport cuts the
    stream.  If the reads concatenate to the frames of [evs], the reader loop
    emits exactly [evs], in order, ends waiting for more and retains nothing. *)
Theorem decoder_chunking evs reads :
  Forall (fun e => event_typed e /\ (encode e []).1 = Ok tt) evs ->
  concat reads = concat ((fun e => (encode e []).2) <$> evs) ->
  exists d, read_stream reads decoder_new = Some (evs, NeedMore, d) /\ buffered d = 0.
Proof.
  intros Hall Hc.
  assert (Forall (fun e => event_typed e /\ event_fits e) evs) as Hall'.
  { eapply Forall_impl; [done|]. simpl. intros e [Ht He]. split; [done|]. rewrite encode_spec in He.
    unfold event_fits. by destruct (Z.ltb_spec MAX_FRAME_SIZE (event_body_len e)). }
  assert (concat ((fun e => (encode e []).2) <$> evs) = concat (frame_of <$> evs)) as Hf.
  { f_equal. apply list_fmap_ext. intros i e He. rewrite encode_spec.
    rewrite Forall_lookup in Hall'. destruct (Hall' i e He) as [_ Hfit].
    by rewrite (proj2 (Z.ltb_ge _ _)) by apply Hfit. }
  destruct (read_stream_decodes evs reads decoder_new) as (d & Hd & Hwf & Hl).
  - done.
  - unfold decoder_wf. simpl. done.
  - unfold live. simpl. by rewrite Hc, Hf.
  - done.
  - exists d. split; [done|]. by rewrite buffered_live, Hl.
Qed.

Lemma try_decode_None_len s : try_decode s = Ok None -> len s < 4 + MAX_FRAME_SIZE.
Proof.
  rewrite try_decode_unfold. destruct (Z.ltb_spec (len s) 4); [unfold MAX_FRAME_SIZE; lia|].
  destruct (Z.ltb_spec MAX_FRAME_SIZE (prefix_len s)); [done|].
  destruct (Z.ltb_spec (len s) (4 + prefix_len s)); [lia|].
  by destruct (parse_body _).
Qed.

Lemma drain_total fuel d :
  decoder_wf d -> (length (live d) < fuel)%nat ->
  exists evs e d', drain_events fuel d = Some (evs, e, d') /\
    decoder_wf d' /\ e <> Aborted /\ (e = NeedMore -> len (live d') < 4 + MAX_FRAME_SIZE).
Proof.
  revert d. induction fuel as [|fuel IH]; intros d Hwf Hf; [lia|]. cbn [drain_events].
  pose proof (next_event_live d Hwf) as [Hwf' Hn].
  pose proof (try_decode_not_panic (live d)) as Hnp.
  destruct (try_decode (live d)) as [[[e n]|]|err|] eqn:E; [| | |done].
  - destruct Hn as [He Hl]. destruct (next_event d) as [r d1]. simpl in *. subst r.
    apply try_decode_consumed in E as [Hc _].
    destruct (IH d1) as (evs & e' & d' & -> & H); [done| |].
    { rewrite Hl, length_drop. unfold len in Hc. lia. }
    eexists _, _, _. split; [done|]. done.
  - rewrite Hn. eexists _, _, _. split; [done|]. split_and!; try done.
    intros _. by apply try_decode_None_len.
  - rewrite Hn. eexists _, _, _. split; [done|]. done.
Qed.

(** Bounded parser state.  Draining always terminates within the fuel given
    (the bytes buffered), never aborts, and when it stops for lack of bytes the
    decoder holds less than one maximal frame, whatever was received. *)
Theorem decoder_bounded d bs :
  decoder_wf d ->
  exists evs e d', drain_events (S (length (fd_buf (push d bs)))) (push d bs) = Some (evs, e, d') /\
    decoder_wf d' /\ e <> Aborted /\ (e = NeedMore -> buffered d' < 4 + MAX_FRAME_SIZE).
Proof.
  intros Hwf. destruct (push_live d bs Hwf) as [Hwf1 _].
  destruct (drain_total (S (length (fd_buf (push d bs)))) (push d bs)) as (evs & e & d' & He & Hwf' & Ha & Hb);
    [done|unfold live; rewrite length_drop; lia|].
  exists evs, e, d'. split_and!; auto. rewrite buffered_live by done. done.
Qed.

(** Hello round trip and version refusal.  A hello of the spoken version that
    [encode_hello] accepts decodes back to itself in front of any bytes; one
    announcing another version is refused with that version, whatever it
    announces. *)
Theorem hello_roundtrip h out :
  hello_typed h -> (encode_hello h out).1 = Ok tt ->
  exists frame, (encode_hello h out).2 = out ++ frame /\
    forall rest, try_decode_hello (frame ++ rest) =
      if version h =? WIRE_VERSION then Ok (Some (h, len frame))
      else Err (UnsupportedVersion (version h)).
Proof.
  intros Ht. rewrite encode_hello_spec.
  destruct (Z.ltb_spec MAX_FRAME_SIZE (hello_body_len h)) as [H|H]; [done|].
  intros _. exists (hello_frame h). split; [done|]. intros. by apply try_decode_hello_frame.
Qed.

(** A hello from an untrusted peer never aborts the daemon, and the number of
    identities it can make the daemon collect is bounded by the bytes it sent:
    the clamped capacity reserved up front is never exceeded. *)
Theorem hello_decode_safe buf :
  try_decode_hello buf <> Panic /\
  forall h n, try_decode_hello buf = Ok (Some (h, n)) ->
    n <= len buf /\ n <= 4 + MAX_FRAME_SIZE /\ version h = WIRE_VERSION /\
    len (channels h) <= hello_capacity (len (channels h)) (take (Z.to_nat (n - 4)) (drop 4 buf)).
Proof.
  rewrite try_decode_hello_unfold. split.
  - repeat (case_if; [done|]).
    pose proof (parse_hello_not_panic (take (Z.to_nat (prefix_len buf)) (drop 4 buf))).
    by destruct (parse_hello _).
  - intros h n. repeat (case_if; [done|]). split_bools.
    destruct (parse_hello _) as [h'| |] eqn:Hp; [|done..]. rewrite bind_ok. intros [= -> <-].
    replace (4 + prefix_len buf - 4) with (prefix_len buf) by lia.
    split; [done|]. split; [lia|]. revert Hp. unfold parse_hello.
    set (body := take _ _). clearbody body. repeat (case_if; [done|]).
    split_bools. destruct (decode_announcements _ _ _ _) as [chs| |] eqn:Hd; [|done..].
    rewrite bind_ok. intros [= <-]. simpl. split; [done|].
    apply decode_announcements_count in Hd; [|lia]. change (len []) with 0 in Hd.
    unfold hello_capacity. apply Z.min_glb; [done|]. apply Z.div_le_lower_bound; lia.
Qed.

(** ** Witnesses *)

Definition demo_event : Event := mkEvent "console" (Data [x68; x69; x0a]).
Definition demo_error : Event := mkEvent "cp" (Error "overrun").
Lemma demo_event_typed : event_typed demo_event.
Proof. split; reflexivity. Qed.
Lemma demo_error_typed : event_typed demo_error.
Proof. split; reflexivity. Qed.

Lemma envelope_roundtrip_witness :
  exists frame, (encode demo_event [xff]).2 = [xff] ++ frame /\
    forall rest, try_decode (frame ++ rest) = Ok (Some (demo_event, len frame)).
Proof. apply envelope_roundtrip; [apply demo_event_typed|reflexivity]. Defined.

Lemma partial_frame_waits_witness : try_decode (take 9 (encode demo_event []).2) = Ok None.
Proof.
  apply (partial_frame_waits demo_event _ (drop 9 (encode demo_event []).2)).
  - reflexivity.
  - reflexivity.
  - vm_compute. discriminate.
Defined.

Lemma decoder_chunking_witness :
  exists d, read_stream [take 5 ((encode demo_event []).2 ++ (encode demo_error []).2);
                         drop 5 ((encode demo_event []).2 ++ (encode demo_error []).2)] decoder_new
            = Some ([demo_event; demo_error], NeedMore, d) /\ buffered d = 0.
Proof.
  apply decoder_chunking.
  - repeat constructor; reflexivity.
  - reflexivity.
Defined.

Lemma decoder_bounded_witness :
  exists evs e d', drain_events 4 (push decoder_new [xff; xff; xff]) = Some (evs, e, d') /\
    decoder_wf d' /\ e <> Aborted /\ (e = NeedMore -> buffered d' < 4 + MAX_FRAME_SIZE).
Proof. apply (decoder_bounded decoder_new [xff; xff; xff]). unfold decoder_wf. done. Defined.

Definition demo_hello : Hello := mkHello 1 0 ["console"; "cp"]%string.

Lemma hello_roundtrip_witness :
  exists frame, (encode_hello demo_hello []).2 = [] ++ frame /\
    forall rest, try_decode_hello (frame ++ rest) =
      if version demo_hello =? WIRE_VERSION then Ok (Some (demo_hello, len frame))
      else Err (UnsupportedVersion (version demo_hello)).
Proof.
  apply hello_roundtrip; [|reflexivity]. split_and!; try done.
  repeat constructor.
Defined.
