(* ===== verification/Reference.v ===== *)
(** * The reference framing codec (codecs/reference/src/lib.rs)

    The envelope as a [Codec] over a lossy line: [demux] resynchronises past
    frames it cannot decode.  [scans] is the specification of the demultiplexer
    on a byte string, and the theorems relate [demux] to it for every way the
    input can be cut and corrupted. *)

From S2P Require Import Prelude Envelope.

(** ** The codec trait (codec-api/src/lib.rs) *)

Inductive CodecError :=
| Framing (why : string)
| Envelope (e : EnvelopeError).

(** One implementation of the trait: [demux] emits events in order; [mux]
    appends to its output buffer. *)
Class Codec (T : Type) : Type := {
  codec_name : T -> string;
  codec_demux : T -> list byte -> exec CodecError (list Event) * T;
  codec_mux : T -> Event -> list byte -> exec CodecError unit * list byte * T;
  codec_resync_count : T -> Z
}.

(** ** State and operations *)

Definition NAME : string := "reference".

Record ReferenceCodec := mkRef { rc_buf : list byte; framing_errors : Z }.

Definition ref_new : ReferenceCodec := mkRef [] 0.
Definition ref_buffered (c : ReferenceCodec) : Z := len (rc_buf c).

Definition resync_skip (rest : list byte) : exec CodecError (option Z) :=
  if len rest <? 4 then Ok None else
  b0 ← index rest 0; b1 ← index rest 1; b2 ← index rest 2; b3 ← index rest 3;
  let body_len := from_be [b0; b1; b2; b3] in
  if body_len <=? MAX_FRAME_SIZE then
    let frame_end := 4 + body_len in
    if len rest <? frame_end then Ok None else Ok (Some frame_end)
  else Ok (Some 4).

(** The [loop] of [demux]: the events emitted, the final cursor and error count;
    [None] when the fuel runs out. *)
Fixpoint demux_loop (fuel : nat) (buf : list byte) (pos errs : Z)
  : option (exec CodecError (list Event * Z * Z)) :=
  match fuel with
  | O => None
  | S fuel =>
      match slice (E := CodecError) buf pos (len buf) with
      | Ok rest =>
          match try_decode rest with
          | Ok (Some (event, consumed)) =>
              r ← demux_loop fuel buf (pos + consumed) errs;
              Some (match r with
                    | Ok (evs, pos, errs) => Ok (event :: evs, pos, errs)
                    | Err e => Err e
                    | Panic => Panic
                    end)
          | Ok None => Some (Ok ([], pos, errs))
          | Err _ =>
              match resync_skip rest with
              | Ok (Some skip) => demux_loop fuel buf (pos + skip) (errs + 1)
              | Ok None => Some (Ok ([], pos, errs))
              | Err e => Some (Err e)
              | Panic => Some Panic
              end
          | Panic => Some Panic
          end
      | Err e => Some (Err e)
      | Panic => Some Panic
      end
  end.

(** Every iteration advances the cursor, so one more than the buffered bytes is
    enough fuel ([demux_scans] below). *)
Definition demux (c : ReferenceCodec) (input : list byte)
  : exec CodecError (list Event) * ReferenceCodec :=
  let buf := rc_buf c ++ input in
  match demux_loop (S (length buf)) buf 0 (framing_errors c) with
  | Some (Ok (evs, pos, errs)) => (Ok evs, mkRef (drop (Z.to_nat pos) buf) errs)
  | Some (Err e) => (Err e, mkRef buf (framing_errors c))
  | _ => (Panic, mkRef buf (framing_errors c))
  end.

Definition mux (c : ReferenceCodec) (event : Event) (out : list byte)
  : exec CodecError unit * list byte * ReferenceCodec :=
  match encode event out with
  | (Ok _, out) => (Ok tt, out, c)
  | (Err e, out) => (Err (Envelope e), out, c)
  | (Panic, out) => (Panic, out, c)
  end.

#[export] Instance reference_codec : Codec ReferenceCodec := {
  codec_name := fun _ => NAME;
  codec_demux := demux;
  codec_mux := mux;
  codec_resync_count := framing_errors
}.

(** ** Specification: scanning a byte string *)

(** How far a frame that fails to decode reaches. *)
Definition skip_len (s : list byte) : Z :=
  if prefix_len s <=? MAX_FRAME_SIZE then 4 + prefix_len s else 4.

(** [scans s evs k l]: reading [s] yields the events [evs], skips [k] undecodable
    frames, and stops at the incomplete frame [l]. *)
Inductive scans : list byte -> list Event -> Z -> list byte -> Prop :=
| scans_more s : try_decode s = Ok None -> scans s [] 0 s
| scans_event s e n evs k l :
    try_decode s = Ok (Some (e, n)) -> scans (drop (Z.to_nat n) s) evs k l ->
    scans s (e :: evs) k l
| scans_skip s err evs k l :
    try_decode s = Err err -> scans (drop (Z.to_nat (skip_len s)) s) evs k l ->
    scans s evs (1 + k) l.

(** ** Lemmas *)

Lemma skip_len_range s err :
  try_decode s = Err err -> 4 <= skip_len s <= len s.
Proof.
  rewrite try_decode_unfold. unfold skip_len. pose proof (prefix_len_nonneg s).
  destruct (Z.ltb_spec (len s) 4); [done|].
  destruct (Z.ltb_spec MAX_FRAME_SIZE (prefix_len s)), (Z.leb_spec (prefix_len s) MAX_FRAME_SIZE);
    try lia.
  destruct (Z.ltb_spec (len s) (4 + prefix_len s)); [done|]. lia.
Qed.

Lemma resync_skip_err s err :
  try_decode s = Err err -> resync_skip s = Ok (Some (skip_len s)).
Proof.
  intros He. pose proof (skip_len_range s err He) as Hr. unfold resync_skip.
  rewrite (proj2 (Z.ltb_ge _ 4)) by lia.
  destruct (four_bytes s) as (b0 & b1 & b2 & b3 & r & ->); [lia|].
  read_indices. cbv zeta. unfold skip_len, prefix_len in *. cbn [take] in *. rewrite take_0 in *.
  destruct (Z.leb_spec (from_be [b0; b1; b2; b3]) MAX_FRAME_SIZE); [|done].
  rewrite (proj2 (Z.ltb_ge _ _)) by lia. done.
Qed.

Lemma scans_total s : exists evs k l, scans s evs k l.
Proof.
  remember (length s) as n eqn:Hn. revert s Hn.
  induction n as [n IH] using lt_wf_ind. intros s ->.
  pose proof (try_decode_not_panic s).
  destruct (try_decode s) as [[[e n]|]|err|] eqn:E; [| | |done].
  - pose proof (try_decode_consumed _ _ _ E) as [Hc _].
    destruct (IH (length (drop (Z.to_nat n) s))) with (s := drop (Z.to_nat n) s)
      as (evs & k & l & Hs); [rewrite length_drop; unfold len in Hc; lia|done|].
    exists (e :: evs), k, l. by econstructor.
  - exists [], 0, s. by constructor.
  - pose proof (skip_len_range _ _ E) as Hc.
    destruct (IH (length (drop (Z.to_nat (skip_len s)) s))) with (s := drop (Z.to_nat (skip_len s)) s)
      as (evs & k & l & Hs); [rewrite length_drop; unfold len in Hc; lia|done|].
    exists evs, (1 + k), l. by econstructor.
Qed.

Lemma scans_det s evs k l : scans s evs k l ->
  forall evs' k' l', scans s evs' k' l' -> evs' = evs /\ k' = k /\ l' = l.
Proof.
  induction 1 as [s H|s e n evs k l H Hs IH|s err evs k l H Hs IH]; intros evs' k' l' H';
    inversion H'; subst; simplify_eq; try congruence.
  - done.
  - rewrite H in H0. simplify_eq. apply IH in H1 as (-> & -> & ->). done.
  - apply IH in H1 as (-> & -> & ->). done.
Qed.

Lemma scans_rest s evs k l : scans s evs k l -> try_decode l = Ok None /\ 0 <= k /\ len l <= len s.
Proof.
  induction 1 as [s H|s e n evs k l H Hs IH|s err evs k l H Hs IH].
  - done.
  - apply try_decode_consumed in H as [? _]. rewrite len_drop in IH by lia. naive_solver lia.
  - apply skip_len_range in H. rewrite len_drop in IH by lia. naive_solver lia.
Qed.

(** Failing frames fail whatever follows them. *)
Lemma try_decode_err_app s t err :
  try_decode s = Err err -> try_decode (s ++ t) = Err err /\ skip_len (s ++ t) = skip_len s.
Proof.
  intros H. pose proof (skip_len_range _ _ H) as Hr. revert H.
  pose proof (prefix_len_nonneg s). pose proof (len_nonneg t).
  assert (prefix_len (s ++ t) = prefix_len s) as Hp.
  { unfold prefix_len. f_equal. apply take_app_le. unfold len in *. lia. }
  unfold skip_len in *. rewrite !try_decode_unfold, Hp, len_app.
  destruct (Z.ltb_spec (len s) 4); [done|]. rewrite (proj2 (Z.ltb_ge _ 4)) by lia.
  destruct (Z.ltb_spec MAX_FRAME_SIZE (prefix_len s)); [done|].
  destruct (Z.ltb_spec (len s) (4 + prefix_len s)); [done|].
  rewrite (proj2 (Z.ltb_ge _ _)) by lia. intros He. split; [|done].
  rewrite drop_app_le, take_app_le by (rewrite ?length_drop; unfold len in *; lia). done.
Qed.

Lemma scans_app s evs k l t evs' k' l' :
  scans s evs k l -> scans (l ++ t) evs' k' l' -> scans (s ++ t) (evs ++ evs') (k + k') l'.
Proof.
  induction 1 as [s H|s e n evs k l H Hs IH|s err evs k l H Hs IH]; intros H'.
  - done.
  - pose proof (try_decode_consumed _ _ _ H) as [? _].
    simpl. eapply scans_event; [by apply try_decode_app|].
    rewrite drop_app_le by (unfold len in *; lia). auto.
  - pose proof (skip_len_range _ _ H). destruct (try_decode_err_app s t err H) as [He Hk].
    replace (1 + k + k') with (1 + (k + k')) by lia. eapply scans_skip; [done|].
    rewrite Hk, drop_app_le by (unfold len in *; lia). auto.
Qed.

Lemma demux_loop_scans s evs k l :
  scans s evs k l -> forall fuel buf pos errs,
  0 <= pos <= len buf -> drop (Z.to_nat pos) buf = s -> (length s < fuel)%nat ->
  exists pos', demux_loop fuel buf pos errs = Some (Ok (evs, pos', errs + k)) /\
    0 <= pos' <= len buf /\ drop (Z.to_nat pos') buf = l.
Proof.
  induction 1 as [s H|s e n evs k l H Hs IH|s err evs k l H Hs IH];
    intros fuel buf pos errs Hp Hd Hf; (destruct fuel as [|fuel]; [lia|]); cbn [demux_loop];
    rewrite slice_ok by lia;
    rewrite take_ge by (rewrite length_drop; unfold len in *; lia); rewrite Hd, H.
  - exists pos. rewrite Z.add_0_r. done.
  - apply try_decode_consumed in H as [Hc _].
    assert (len s = len buf - pos) as Hl by (rewrite <- Hd; by apply len_drop).
    destruct (IH fuel buf (pos + n) errs) as (pos' & -> & Hp' & Hd'); [lia| | |].
    + rewrite <- Hd, drop_drop. f_equal. lia.
    + rewrite length_drop. unfold len in Hc. lia.
    + by exists pos'.
  - rewrite (resync_skip_err _ _ H). apply skip_len_range in H as Hc.
    assert (len s = len buf - pos) as Hl by (rewrite <- Hd; by apply len_drop).
    destruct (IH fuel buf (pos + skip_len s) (errs + 1)) as (pos' & -> & Hp' & Hd'); [lia| | |].
    + rewrite <- Hd at 3. rewrite drop_drop. f_equal. lia.
    + rewrite length_drop. unfold len in Hc. lia.
    + exists pos'. replace (errs + 1 + k) with (errs + (1 + k)) by lia. done.
Qed.

(** [demux] implements [scans]. *)
Lemma demux_scans c input evs k l :
  scans (rc_buf c ++ input) evs k l ->
  demux c input = (Ok evs, mkRef l (framing_errors c + k)).
Proof.
  intros Hs. unfold demux.
  destruct (demux_loop_scans _ _ _ _ Hs (S (length (rc_buf c ++ input))) (rc_buf c ++ input) 0
              (framing_errors c)) as (pos & -> & Hp & Hd).
  - pose proof (len_nonneg (rc_buf c ++ input)). lia.
  - by rewrite drop_0.
  - lia.
  - by rewrite Hd.
Qed.

(** Successive [demux] calls, events concatenated. *)
Fixpoint demux_all (c : ReferenceCodec) (inputs : list (list byte))
  : exec CodecError (list Event) * ReferenceCodec :=
  match inputs with
  | [] => (Ok [], c)
  | i :: inputs =>
      match demux c i with
      | (Ok evs, c) => match demux_all c inputs with
                       | (Ok evs', c) => (Ok (evs ++ evs'), c)
                       | r => r
                       end
      | r => r
      end
  end.

(** A codec between calls holds no whole frame. *)
Definition ref_idle (c : ReferenceCodec) : Prop := try_decode (rc_buf c) = Ok None.

Lemma demux_all_scans inputs c evs k l :
  ref_idle c -> scans (rc_buf c ++ concat inputs) evs k l ->
  demux_all c inputs = (Ok evs, mkRef l (framing_errors c + k)).
Proof.
  revert c evs k l. induction inputs as [|i inputs IH]; intros c evs k l Hi Hs;
    cbn [demux_all concat] in *.
  - rewrite app_nil_r in Hs. apply (scans_det _ _ _ _ (scans_more _ Hi)) in Hs as (-> & -> & ->).
    rewrite Z.add_0_r. by destruct c.
  - destruct (scans_total (rc_buf c ++ i)) as (e1 & k1 & l1 & H1).
    rewrite (demux_scans _ _ _ _ _ H1). pose proof (scans_rest _ _ _ _ H1) as (Hr & _ & _).
    destruct (scans_total (l1 ++ concat inputs)) as (e2 & k2 & l2 & H2).
    rewrite (IH (mkRef l1 (framing_errors c + k1)) e2 k2 l2) by done. simpl.
    pose proof (scans_app _ _ _ _ _ _ _ _ H1 H2) as H12. rewrite <- app_assoc in H12.
    destruct (scans_det _ _ _ _ H12 _ _ _ Hs) as (He & Hk & Hl). subst evs k l. by rewrite Z.add_assoc.
Qed.

(** One frame on the line: an event's, or one whose body is damaged while its
    length prefix survived. *)
Inductive Item :=
| Good (e : Event)
| Damaged (body : list byte).

Definition item_bytes (i : Item) : list byte :=
  match i with
  | Good e => (encode e []).2
  | Damaged body => to_be 4 (len body) ++ body
  end.

Definition item_ok (i : Item) : Prop :=
  match i with
  | Good e => event_typed e /\ (encode e []).1 = Ok tt
  | Damaged body => len body <= MAX_FRAME_SIZE /\ exists err, parse_body body = Err err
  end.

Definition item_events (i : Item) : list Event :=
  match i with Good e => [e] | Damaged _ => [] end.

Definition item_damaged (i : Item) : Z :=
  match i with Good _ => 0 | Damaged _ => 1 end.

Lemma encode_fits e : (encode e []).1 = Ok tt -> event_fits e /\ (encode e []).2 = frame_of e.
Proof.
  rewrite encode_spec. unfold event_fits.
  by destruct (Z.ltb_spec MAX_FRAME_SIZE (event_body_len e)).
Qed.

Lemma prefix_len_to_be body t :
  len body <= MAX_FRAME_SIZE -> prefix_len (to_be 4 (len body) ++ body ++ t) = len body.
Proof.
  intros H. unfold prefix_len. rewrite take_app_length' by done. apply from_to_be.
  unfold MAX_FRAME_SIZE in H. pose proof (len_nonneg body). change (256 ^ Z.of_nat 4) with (2 ^ 32). lia.
Qed.

(** A frame with an intact prefix decodes according to its body. *)
Lemma try_decode_body body t :
  len body <= MAX_FRAME_SIZE ->
  try_decode (to_be 4 (len body) ++ body ++ t) =
  e ← parse_body body; Ok (Some (e, 4 + len body)).
Proof.
  intros H. pose proof (len_nonneg body). pose proof (len_nonneg t).
  rewrite try_decode_unfold, prefix_len_to_be, !len_app, len_to_be by done.
  rewrite (proj2 (Z.ltb_ge _ 4)), (proj2 (Z.ltb_ge MAX_FRAME_SIZE _)), (proj2 (Z.ltb_ge _ _)) by lia.
  rewrite (drop_app_length' _ _ 4) by done. rewrite take_app_length' by (unfold len; lia). done.
Qed.

Lemma scans_items items t evs k l :
  Forall item_ok items -> scans t evs k l ->
  scans (concat (item_bytes <$> items) ++ t) (concat (item_events <$> items) ++ evs)
        (foldr (fun i n => item_damaged i + n) k items) l.
Proof.
  induction 1 as [|i items Hi Hall IH]; intros Ht; [done|].
  specialize (IH Ht). cbn [fmap list_fmap concat foldr]. rewrite <- !app_assoc.
  destruct i as [e|body]; cbn [item_bytes item_events item_damaged].
  - destruct Hi as [Hty He]. apply encode_fits in He as [Hf ->].
    eapply scans_event; [by apply try_decode_frame|].
    unfold len. rewrite Nat2Z.id, drop_app_length. done.
  - destruct Hi as [Hb [err He]]. rewrite <- app_assoc.
    eapply (scans_skip _ err); [by rewrite try_decode_body, He|].
    unfold skip_len. rewrite prefix_len_to_be, (proj2 (Z.leb_le _ _)) by done.
    rewrite app_assoc, drop_app_length'; [done|]. rewrite length_app, length_to_be. unfold len. lia.
Qed.

(** ** Theorems *)

(** [demux] always returns [Ok] whatever bytes arrive (no abort, no endless
    resynchronisation), and leaves less than one maximal frame buffered. *)
Theorem demux_total_bounded c input :
  exists evs c', demux c input = (Ok evs, c') /\
    ref_buffered c' < 4 + MAX_FRAME_SIZE /\ framing_errors c <= framing_errors c'.
Proof.
  destruct (scans_total (rc_buf c ++ input)) as (evs & k & l & Hs).
  pose proof (scans_rest _ _ _ _ Hs) as (Hl & Hk & _).
  exists evs, (mkRef l (framing_errors c + k)). split; [by apply demux_scans|].
  split; [by apply try_decode_None_len|]. simpl. lia.
Qed.

(** Demultiplexing does not depend on how the line delivers the bytes: any
    sequence of [demux] calls yields the events, the leftover and the error count
    of one call on their concatenation, corrupted input included. *)
Theorem demux_chunking c inputs :
  ref_idle c -> demux_all c inputs = demux c (concat inputs).
Proof.
  intros Hi. destruct (scans_total (rc_buf c ++ concat inputs)) as (evs & k & l & Hs).
  by rewrite (demux_all_scans _ _ _ _ _ Hi Hs), (demux_scans _ _ _ _ _ Hs).
Qed.

(** C17: recovery is exact when length prefixes survive.  A line carrying event
    frames interleaved with frames whose bodies do not decode, delivered in any
    chunks, yields exactly the intact events in order, counts one framing error
    per damaged frame, and stays aligned (nothing is left over). *)
Theorem resync_exact items inputs :
  Forall item_ok items -> concat inputs = concat (item_bytes <$> items) ->
  demux_all ref_new inputs =
    (Ok (concat (item_events <$> items)),
     mkRef [] (foldr (fun i n => item_damaged i + n) 0 items)).
Proof.
  intros Hall Hc. assert (scans [] [] 0 []) as Hnil by (by constructor).
  pose proof (scans_items items [] [] 0 [] Hall Hnil) as Hs. rewrite !app_nil_r in Hs.
  rewrite (demux_all_scans inputs ref_new _ _ _ eq_refl ltac:(simpl; by rewrite Hc)). done.
Qed.

(** The recorded limit of the format.  When the length prefix of a [data]
    frame is corrupted to a larger value still under the maximum, the frames that
    follow inside that span are delivered as payload of the first channel and no
    framing error is counted. *)
Theorem merged_frames ch payload swallowed :
  is_str ch -> 3 + slen ch + len payload + len swallowed <= MAX_FRAME_SIZE ->
  demux ref_new (to_be 4 (3 + slen ch + len payload + len swallowed) ++
                 drop 4 (encode (mkEvent ch (Data payload)) []).2 ++ swallowed) =
  (Ok [mkEvent ch (Data (payload ++ swallowed))], ref_new).
Proof.
  intros Hch Hfit. pose proof (len_nonneg swallowed).
  set (e := mkEvent ch (Data payload)). set (e' := mkEvent ch (Data (payload ++ swallowed))).
  assert (event_body_len e' = 3 + slen ch + len payload + len swallowed) as Hl
    by (unfold e', event_body_len; simpl; rewrite len_app; lia).
  rewrite encode_spec, (proj2 (Z.ltb_ge _ _)) by (unfold e, event_body_len; simpl; lia).
  rewrite <- Hl. cbn [snd app]. unfold frame_of at 1. rewrite (drop_app_length' _ _ 4) by done.
  replace (to_be 4 (event_body_len e') ++ _ ++ swallowed) with (frame_of e')
    by (unfold frame_of, e, e'; cbn [channel kind payload_of type_byte app]; rewrite <- !app_assoc; done).
  apply (demux_scans ref_new _ [e'] 0 []). simpl rc_buf. cbn [app]. eapply scans_event.
  - rewrite <- (app_nil_r (frame_of e')). apply try_decode_frame; [done|]. unfold event_fits. lia.
  - unfold len. rewrite Nat2Z.id, drop_all. by constructor.
Qed.

(** ** Witnesses *)

Lemma demux_chunking_witness :
  demux_all ref_new [[x00; x00]; [x00; x01; xff]] = demux ref_new (concat [[x00; x00]; [x00; x01; xff]]).
Proof. apply demux_chunking. reflexivity. Defined.

Lemma resync_exact_witness :
  demux_all ref_new [item_bytes (Damaged [x63]); item_bytes (Good demo_event)] =
    (Ok [demo_event], mkRef [] 1).
Proof.
  apply (resync_exact [Damaged [x63]; Good demo_event]); [|reflexivity].
  constructor; [split; [done|by exists (Truncated "header")]|].
  constructor; [|constructor]. split; [apply demo_event_typed|reflexivity].
Defined.

Lemma merged_frames_witness :
  demux ref_new (to_be 4 (3 + slen "a" + len [x78] + len [x01; x02]) ++
                 drop 4 (encode (mkEvent "a" (Data [x78])) []).2 ++ [x01; x02]) =
  (Ok [mkEvent "a" (Data ([x78] ++ [x01; x02]))], ref_new).
Proof. apply merged_frames; [reflexivity|vm_compute; discriminate]. Defined.
