(* ===== verification/DataPlane.v ===== *)
(** * The data-plane contracts (core/src/data.rs)

    Hostward broadcast with per-consumer loss, and targetward delivery with
    backpressure and a one-chunk holdover.  The two traits are type classes;
    [SinkLaws] states what a targetward hop promises to the hop above it, the
    boundary and the interior transform discharge it, and the origin's theorems
    are proved against it, for a path of any length. *)

From S2P Require Import Prelude.

Abbreviation Chunk := (list byte) (only parsing).

(** ** Hostward *)

Class HostwardConsumer (C : Type) : Type := deliver_hostward : C -> Chunk -> C.

Record HostFanout (C : Type) := mkFanout { consumers : list C }.
Arguments mkFanout {C} _.
Arguments consumers {C} _.

Definition fanout_new {C} : HostFanout C := mkFanout [].

Definition attach {C} (f : HostFanout C) (c : C) : Z * HostFanout C :=
  let cs := consumers f ++ [c] in (len cs - 1, mkFanout cs).

Definition broadcast {C} `{HostwardConsumer C} (f : HostFanout C) (chunk : Chunk) : HostFanout C :=
  mkFanout ((fun c => deliver_hostward c chunk) <$> consumers f).

(** A byte-bounded consumer: whole-chunk admission, counted drops. *)
Record MockConsumer := mkConsumer { capacity : Z; mc_buffered : list byte; dropped : Z }.

Definition usize_max : Z := u64_max.
Definition with_capacity (cap : Z) : MockConsumer := mkConsumer cap [] 0.
Definition unbounded : MockConsumer := with_capacity usize_max.

Definition mock_deliver (c : MockConsumer) (chunk : Chunk) : MockConsumer :=
  if Z.min (len (mc_buffered c) + len chunk) usize_max <=? capacity c
  then mkConsumer (capacity c) (mc_buffered c ++ chunk) (dropped c)
  else mkConsumer (capacity c) (mc_buffered c) (dropped c + len chunk).

#[export] Instance mock_consumer : HostwardConsumer MockConsumer := mock_deliver.

(** ** Targetward *)

Inductive Delivery := Accepted | Busy.

Class TargetwardSink (S : Type) : Type := {
  deliver_targetward : S -> Chunk -> Delivery * S;
  flush : S -> S
}.

Record Holdover := mkHoldover { slot : option Chunk }.
Definition is_parked (h : Holdover) : bool := match slot h with Some _ => true | None => false end.
Definition held_bytes (h : Holdover) : Z := match slot h with Some c => len c | None => 0 end.
Definition park (c : Chunk) : Holdover := mkHoldover (Some c).

(** A boundary that can be toggled busy. *)
Record BusyBoundary := mkBoundary { busy : bool; received : list byte }.
Definition boundary_new : BusyBoundary := mkBoundary false [].
Definition set_busy (b : BusyBoundary) (v : bool) : BusyBoundary := mkBoundary v (received b).

#[export] Instance busy_boundary : TargetwardSink BusyBoundary := {
  deliver_targetward := fun b chunk =>
    if busy b then (Busy, b) else (Accepted, mkBoundary (busy b) (received b ++ chunk));
  flush := fun b => b
}.

(** The interior transform over any next hop. *)
Record InteriorTargetward (S : Type) := mkInterior { downstream : S; holdover : Holdover }.
Arguments mkInterior {S} _ _.
Arguments downstream {S} _.
Arguments holdover {S} _.

Section interior.
Context {S : Type} `{TargetwardSink S}.

Definition interior_new (s : S) : InteriorTargetward S := mkInterior s (mkHoldover None).

Definition flush_holdover (i : InteriorTargetward S) : bool * InteriorTargetward S :=
  match slot (holdover i) with
  | Some chunk =>
      match deliver_targetward (downstream i) chunk with
      | (Accepted, d) => (true, mkInterior d (mkHoldover None))
      | (Busy, d) => (false, mkInterior d (park chunk))
      end
  | None => (true, i)
  end.

Definition interior_deliver (i : InteriorTargetward S) (chunk : Chunk)
  : Delivery * InteriorTargetward S :=
  let '(go, i) := if is_parked (holdover i) then flush_holdover i else (true, i) in
  if go then
    match deliver_targetward (downstream i) chunk with
    | (Accepted, d) => (Accepted, mkInterior d (holdover i))
    | (Busy, d) => (Accepted, mkInterior d (park chunk))
    end
  else (Busy, i).

Definition interior_flush (i : InteriorTargetward S) : InteriorTargetward S :=
  (flush_holdover (mkInterior (flush (downstream i)) (holdover i))).2.

#[export] Instance interior_sink : TargetwardSink (InteriorTargetward S) := {
  deliver_targetward := interior_deliver;
  flush := interior_flush
}.
End interior.

(** The origin. *)
Record Origin (S : Type) := mkOrigin {
  sink : S;
  pending : list Chunk;
  paused : bool;
  offered : Z
}.
Arguments mkOrigin {S} _ _ _ _.
Arguments sink {S} _.
Arguments pending {S} _.
Arguments paused {S} _.
Arguments offered {S} _.

Section origin.
Context {S : Type} `{TargetwardSink S}.

Definition origin_new (s : S) : Origin S := mkOrigin s [] false 0.

Definition pending_bytes (o : Origin S) : Z := foldr (fun c n => len c + n) 0 (pending o).

(** The [while let Some(front)] loop of [pump]. *)
Fixpoint pump_loop (s : S) (pend : list Chunk) (paused : bool) : S * list Chunk * bool :=
  match pend with
  | [] => (s, [], paused)
  | front :: rest =>
      match deliver_targetward s front with
      | (Accepted, s) => pump_loop s rest false
      | (Busy, s) => (s, front :: rest, true)
      end
  end.

Definition pump (o : Origin S) : Origin S :=
  let '(s, pend, p) := pump_loop (flush (sink o)) (pending o) (paused o) in
  mkOrigin s pend p (offered o).

Definition offer (o : Origin S) (chunk : Chunk) : Origin S :=
  pump (mkOrigin (sink o) (pending o ++ [chunk]) (paused o) (offered o + len chunk)).

Definition resume (o : Origin S) : Origin S := pump o.
End origin.

(** ** What a hop promises *)

(** [delivered s] reached the boundary; [held s] was accepted but is parked on
    the way; [ready s] means the boundary is accepting. *)
Class SinkLaws (S : Type) `{TargetwardSink S} : Type := {
  delivered : S -> list byte;
  held : S -> list byte;
  ready : S -> Prop;
  deliver_spec : forall s c,
    match deliver_targetward s c with
    | (Accepted, s') => delivered s' ++ held s' = delivered s ++ held s ++ c
    | (Busy, s') => delivered s' ++ held s' = delivered s ++ held s
    end;
  flush_spec : forall s, delivered (flush s) ++ held (flush s) = delivered s ++ held s;
  ready_flush : forall s, ready s -> ready (flush s) /\ held (flush s) = [];
  ready_deliver : forall s c, ready s -> held s = [] ->
    exists s', deliver_targetward s c = (Accepted, s') /\ ready s' /\ held s' = []
}.

(** Bytes taken over by the path. *)
Definition taken {S} `{SinkLaws S} (s : S) : list byte := delivered s ++ held s.

#[export] Program Instance boundary_laws : SinkLaws BusyBoundary := {
  delivered := received;
  held := fun _ => [];
  ready := fun b => busy b = false
}.
Next Obligation. intros [b r] c. simpl. destruct b; simpl; by rewrite ?app_nil_r. Qed.
Next Obligation. done. Qed.
Next Obligation. done. Qed.
Next Obligation. intros [b r] c Hb _. simpl in *. subst b. by eexists. Qed.

Section interior_laws.
Context {S : Type} `{SinkLaws S}.

Definition slot_bytes (i : InteriorTargetward S) : list byte := default [] (slot (holdover i)).
Definition interior_held (i : InteriorTargetward S) : list byte :=
  held (downstream i) ++ slot_bytes i.

Lemma flush_holdover_spec (i : InteriorTargetward S) :
  delivered (downstream (flush_holdover i).2) ++ interior_held (flush_holdover i).2 =
    delivered (downstream i) ++ interior_held i /\
  (slot (holdover (flush_holdover i).2) = None <-> (flush_holdover i).1 = true).
Proof.
  unfold flush_holdover, interior_held, slot_bytes. destruct i as [d [[c|]]]; simpl; [|done].
  pose proof (deliver_spec d c) as Hd. destruct (deliver_targetward d c) as [[] d']; simpl.
  - rewrite app_nil_r. done.
  - rewrite !app_assoc, Hd. done.
Qed.

Lemma interior_deliver_spec (i : InteriorTargetward S) c :
  match interior_deliver i c with
  | (Accepted, i') => delivered (downstream i') ++ interior_held i' =
                      delivered (downstream i) ++ interior_held i ++ c
  | (Busy, i') => delivered (downstream i') ++ interior_held i' =
                  delivered (downstream i) ++ interior_held i
  end.
Proof.
  assert (forall j : InteriorTargetward S, slot (holdover j) = None ->
    delivered (downstream j) ++ interior_held j = delivered (downstream i) ++ interior_held i ->
    match (match deliver_targetward (downstream j) c with
           | (Accepted, d) => (Accepted, mkInterior d (holdover j))
           | (Busy, d) => (Accepted, mkInterior d (park c)) end) with
    | (Accepted, i') => delivered (downstream i') ++ interior_held i' =
                        delivered (downstream i) ++ interior_held i ++ c
    | (Busy, i') => delivered (downstream i') ++ interior_held i' =
                    delivered (downstream i) ++ interior_held i
    end) as Hgo.
  { intros [d [o]] Ho Hj. simpl in *. subst o. rewrite app_assoc, <- Hj.
    unfold interior_held, slot_bytes. simpl. rewrite app_nil_r.
    pose proof (deliver_spec d c) as Hd. destruct (deliver_targetward d c) as [[] d']; simpl.
    - by rewrite app_nil_r, Hd, app_assoc.
    - by rewrite app_assoc, Hd. }
  unfold interior_deliver, is_parked. destruct (slot (holdover i)) as [x|] eqn:Hs.
  - destruct (flush_holdover_spec i) as [He Hi]. destruct (flush_holdover i) as [[] j]; simpl in *.
    + apply Hgo; [by apply Hi|done].
    + done.
  - by apply Hgo.
Qed.

#[export] Program Instance interior_laws : SinkLaws (InteriorTargetward S) := {
  delivered := fun i => delivered (downstream i);
  held := interior_held;
  ready := fun i => ready (downstream i)
}.
Next Obligation. intros i c. apply interior_deliver_spec. Qed.
Next Obligation.
  intros i. simpl. unfold interior_flush.
  destruct (flush_holdover_spec (mkInterior (flush (downstream i)) (holdover i))) as [-> _].
  simpl. unfold interior_held, slot_bytes. simpl. by rewrite !app_assoc, flush_spec.
Qed.
Next Obligation.
  intros [d [o]] Hr. simpl in *. destruct (ready_flush d Hr) as [Hr' Hh].
  unfold interior_flush, flush_holdover, interior_held, slot_bytes. simpl.
  destruct o as [c|]; simpl; [|by rewrite Hh].
  destruct (ready_deliver (flush d) c Hr' Hh) as (d' & -> & ? & Hd). simpl. by rewrite Hd.
Qed.
Next Obligation.
  intros [d [o]] c Hr Hh. unfold interior_held, slot_bytes in *. simpl in *.
  apply app_eq_nil in Hh as [Hd Ho]. unfold interior_deliver, is_parked, flush_holdover. simpl.
  destruct o as [x|]; simpl in *.
  - destruct (ready_deliver d x Hr Hd) as (d1 & -> & Hr1 & Hd1). simpl.
    destruct (ready_deliver d1 c Hr1 Hd1) as (d2 & -> & Hr2 & Hd2).
    eexists. split; [done|]. simpl. by rewrite Hd2.
  - destruct (ready_deliver d c Hr Hd) as (d1 & -> & Hr1 & Hd1).
    eexists. split; [done|]. simpl. by rewrite Hd1.
Qed.
End interior_laws.

(** ** Executions of an origin *)

(** What can happen to an origin: the client produces a chunk, the runtime
    resumes it, or the environment acts on the path (a boundary fills up or
    drains). *)
Inductive OriginOp (S : Type) :=
| OOffer (c : Chunk)
| OResume
| OEnv (f : S -> S).
Arguments OOffer {S} _.
Arguments OResume {S}.
Arguments OEnv {S} _.

Definition origin_step {S} `{TargetwardSink S} (o : Origin S) (op : OriginOp S) : Origin S :=
  match op with
  | OOffer c => offer o c
  | OResume => resume o
  | OEnv f => mkOrigin (f (sink o)) (pending o) (paused o) (offered o)
  end.

Definition origin_run {S} `{TargetwardSink S} (o : Origin S) (ops : list (OriginOp S)) : Origin S :=
  foldl origin_step o ops.

Definition op_chunk {S} (op : OriginOp S) : Chunk := match op with OOffer c => c | _ => [] end.

Section origin_laws.
Context {S : Type} `{SinkLaws S}.

(** The environment neither takes bytes from the path nor adds any. *)
Definition op_honest (op : OriginOp S) : Prop :=
  match op with OEnv f => forall s, taken (f s) = taken s | _ => True end.

(** Everything that entered: taken by the path, or still on the client side. *)
Definition origin_stream (o : Origin S) : list byte := taken (sink o) ++ concat (pending o).

Lemma pump_loop_stream s pend p :
  let '(s', pend', _) := pump_loop s pend p in
  taken s' ++ concat pend' = taken s ++ concat pend.
Proof.
  revert s p. induction pend as [|c pend IH]; intros s p; cbn [pump_loop concat]; [done|].
  pose proof (deliver_spec s c) as Hd. destruct (deliver_targetward s c) as [[] s']; simpl.
  - specialize (IH s' false). destruct (pump_loop s' pend false) as [[s2 p2] b2].
    rewrite IH. unfold taken. rewrite Hd. by rewrite <- !app_assoc.
  - unfold taken. by rewrite Hd.
Qed.

Lemma pump_stream (o : Origin S) : origin_stream (pump o) = origin_stream o.
Proof.
  unfold pump. pose proof (pump_loop_stream (flush (sink o)) (pending o) (paused o)) as Hp.
  destruct (pump_loop _ _ _) as [[s p] b]. unfold origin_stream. simpl. rewrite Hp.
  unfold taken. by rewrite flush_spec.
Qed.

Lemma step_stream (o : Origin S) op :
  op_honest op -> origin_stream (origin_step o op) = origin_stream o ++ op_chunk op.
Proof.
  destruct op as [c| |f]; simpl; intros Hh; rewrite ?app_nil_r.
  - unfold offer. rewrite pump_stream. unfold origin_stream. simpl.
    rewrite concat_app. simpl. by rewrite app_nil_r, app_assoc.
  - apply pump_stream.
  - unfold origin_stream. simpl. by rewrite Hh.
Qed.

Lemma run_stream (o : Origin S) ops :
  Forall op_honest ops -> origin_stream (origin_run o ops) = origin_stream o ++ concat (op_chunk <$> ops).
Proof.
  intros Hall. revert o. induction Hall as [|op ops Hop Hall IH]; intros o.
  - simpl. by rewrite app_nil_r.
  - change (origin_run o (op :: ops)) with (origin_run (origin_step o op) ops).
    cbn [fmap list_fmap concat]. rewrite IH, step_stream by done. by rewrite <- app_assoc.
Qed.

Lemma pump_loop_paused s pend p :
  (p = true -> pend <> []) ->
  let '(_, pend', p') := pump_loop s pend p in p' = true <-> pend' <> [].
Proof.
  revert s p. induction pend as [|c pend IH]; intros s p Hp; cbn [pump_loop].
  - destruct p; naive_solver.
  - destruct (deliver_targetward s c) as [[] s']; [|done].
    apply (IH s' false). done.
Qed.

(** A paused origin always has bytes waiting on the client side. *)
Lemma step_paused (o : Origin S) op :
  (paused o = true -> pending o <> []) ->
  (paused (origin_step o op) = true -> pending (origin_step o op) <> []).
Proof.
  intros Hp. assert (forall q : Origin S, (paused q = true -> pending q <> []) ->
    paused (pump q) = true -> pending (pump q) <> []) as Hpump.
  { intros q Hq. unfold pump. pose proof (pump_loop_paused (flush (sink q)) (pending q) (paused q) Hq) as Hl.
    destruct (pump_loop _ _ _) as [[s p] b]. simpl. apply Hl. }
  destruct op as [c| |f]; simpl; [|by apply Hpump|done].
  apply Hpump. simpl. intros _ He. by apply app_nil in He as [_ He].
Qed.

Lemma run_paused (o : Origin S) ops :
  (paused o = true -> pending o <> []) ->
  (paused (origin_run o ops) = true -> pending (origin_run o ops) <> []).
Proof.
  revert o. induction ops as [|op ops IH]; intros o Ho; [done|]. simpl. apply IH. by apply step_paused.
Qed.

Lemma pump_loop_ready s pend p :
  ready s -> held s = [] -> (p = true -> pend <> []) ->
  exists s', pump_loop s pend p = (s', [], false) /\ held s' = [] /\ delivered s' = delivered s ++ concat pend.
Proof.
  revert s p. induction pend as [|c pend IH]; intros s p Hr Hh Hp; cbn [pump_loop concat].
  - exists s. rewrite app_nil_r. destruct p; naive_solver.
  - pose proof (deliver_spec s c) as Hd. destruct (ready_deliver s c Hr Hh) as (s1 & He & Hr1 & Hh1).
    rewrite He in *. destruct (IH s1 false Hr1 Hh1 ltac:(done)) as (s' & -> & Hh' & Hd').
    exists s'. split_and!; try done. rewrite Hh1, Hh, app_nil_r in Hd. simpl in Hd.
    by rewrite Hd', Hd, app_assoc.
Qed.

Lemma resume_ready (o : Origin S) :
  ready (sink o) -> (paused o = true -> pending o <> []) ->
  pending (resume o) = [] /\ paused (resume o) = false /\
  delivered (sink (resume o)) = origin_stream o.
Proof.
  intros Hr Hp. unfold resume, pump. destruct (ready_flush (sink o) Hr) as [Hr' Hh].
  destruct (pump_loop_ready (flush (sink o)) (pending o) (paused o) Hr' Hh Hp) as (s' & -> & _ & Hd).
  simpl. split_and!; try done. rewrite Hd. unfold origin_stream, taken.
  rewrite <- flush_spec, Hh, app_nil_r. done.
Qed.
End origin_laws.

(** ** Lemmas: what an interior hop can be holding *)

Section interior_slot.
Context {S : Type} `{TargetwardSink S} (P : Chunk -> Prop).

Definition slot_ok (i : InteriorTargetward S) : Prop := forall c, slot (holdover i) = Some c -> P c.

Lemma flush_holdover_slot i : slot_ok i -> slot_ok (flush_holdover i).2.
Proof.
  unfold slot_ok, flush_holdover. intros Hi. destruct (slot (holdover i)) as [c|] eqn:E; [|simpl; congruence].
  destruct (deliver_targetward _ _) as [[] d]; simpl; [done|]. intros x [= <-]. auto.
Qed.

Lemma interior_deliver_slot i c : slot_ok i -> P c -> slot_ok (interior_deliver i c).2.
Proof.
  intros Hi Hc. unfold interior_deliver.
  assert (forall j, slot_ok j -> slot_ok (match deliver_targetward (downstream j) c with
    | (Accepted, d) => (Accepted, mkInterior d (holdover j))
    | (Busy, d) => (Accepted, mkInterior d (park c)) end).2) as Hgo.
  { intros j Hj. destruct (deliver_targetward _ _) as [[] d]; simpl; [done|].
    unfold slot_ok, park. simpl. by intros x [= <-]. }
  destruct (is_parked (holdover i)); [|by apply Hgo].
  pose proof (flush_holdover_slot i Hi) as Hf. destruct (flush_holdover i) as [[] j]; simpl in *; auto.
Qed.

Lemma pump_loop_slot s pend p :
  slot_ok s -> Forall P pend ->
  let '(s', pend', _) := pump_loop (S := InteriorTargetward S) s pend p in slot_ok s' /\ Forall P pend'.
Proof.
  intros Hs Hp. revert s p Hs. induction Hp as [|c pend Hc Hp IH]; intros s p Hs; cbn [pump_loop]; [done|].
  pose proof (interior_deliver_slot s c Hs Hc) as Hd.
  cbn [deliver_targetward interior_sink].
  destruct (interior_deliver s c) as [[] s']; [by apply IH|]. split; [done|by constructor].
Qed.

Lemma pump_slot (o : Origin (InteriorTargetward S)) :
  slot_ok (sink o) -> Forall P (pending o) -> slot_ok (sink (pump o)) /\ Forall P (pending (pump o)).
Proof.
  intros Hs Hp. unfold pump.
  assert (slot_ok (flush (sink o))) as Hf.
  { cbn [flush interior_sink]. unfold interior_flush. by apply flush_holdover_slot. }
  pose proof (pump_loop_slot (flush (sink o)) (pending o) (paused o) Hf Hp) as Hl.
  by destruct (pump_loop _ _ _) as [[s p] b].
Qed.

Lemma run_slot (o : Origin (InteriorTargetward S)) ops :
  slot_ok (sink o) -> Forall P (pending o) ->
  Forall (fun op => match op with
                    | OOffer c => P c
                    | OResume => True
                    | OEnv f => forall s, slot (holdover (f s)) = slot (holdover s)
                    end) ops ->
  slot_ok (sink (origin_run o ops)) /\ Forall P (pending (origin_run o ops)).
Proof.
  intros Hs Hp Hall. revert o Hs Hp. induction Hall as [|op ops Hop Hall IH]; intros o Hs Hp; [done|].
  cbn [origin_run foldl]. destruct op as [c| |f]; cbn [origin_step].
  - destruct (pump_slot (mkOrigin (sink o) (pending o ++ [c]) (paused o) (offered o + len c))) as [H1 H2];
      [done| |by apply IH]. simpl. apply Forall_app. split; [done|by repeat constructor].
  - destruct (pump_slot o) as [H1 H2]; [done|done|by apply IH].
  - apply IH; [|done]. unfold slot_ok. simpl. rewrite Hop. apply Hs.
Qed.
End interior_slot.

(** ** Theorems *)

(** C3: targetward flow is delayed, never dropped, duplicated or reordered.  On a
    path of any lawful hops, after any interleaving of client offers, resumes and
    environment changes, the bytes the path took over followed by those still on
    the client side are exactly the bytes offered, in order. *)
Theorem targetward_conservation {S} `{SinkLaws S} (s : S) ops :
  taken s = [] -> Forall op_honest ops ->
  let o := origin_run (origin_new s) ops in
  taken (sink o) ++ concat (pending o) = concat (op_chunk <$> ops).
Proof.
  intros Hs Hall o. pose proof (run_stream (origin_new s) ops Hall) as Hr.
  unfold origin_stream in Hr. simpl in Hr. rewrite Hs in Hr. done.
Qed.

(** Nothing is stranded.  Once the boundary accepts again, one resume drains
    the whole path: every byte offered has reached the boundary, the client side
    is empty and the origin is not paused, with no further input needed. *)
Theorem targetward_drain {S} `{SinkLaws S} (s : S) ops :
  taken s = [] -> Forall op_honest ops -> ready (sink (origin_run (origin_new s) ops)) ->
  let o := resume (origin_run (origin_new s) ops) in
  pending o = [] /\ paused o = false /\ delivered (sink o) = concat (op_chunk <$> ops).
Proof.
  intros Hs Hall Hr o.
  destruct (resume_ready (origin_run (origin_new s) ops) Hr) as (H1 & H2 & H3).
  { by apply run_paused. }
  unfold o. split_and!; try done. rewrite H3, run_stream by done. unfold origin_stream. simpl.
  by rewrite Hs.
Qed.

(** Interior memory is one chunk per hop.  Whatever the schedule, an interior
    hop never retains more bytes than the largest chunk offered. *)
Theorem interior_memory_bound {S} `{TargetwardSink S} (s : S) ops n :
  0 <= n ->
  Forall (fun op => match op with
                    | OOffer c => len c <= n
                    | OResume => True
                    | OEnv f => forall i : InteriorTargetward S, slot (holdover (f i)) = slot (holdover i)
                    end) ops ->
  held_bytes (holdover (sink (origin_run (origin_new (interior_new s)) ops))) <= n.
Proof.
  intros Hn Hall.
  destruct (run_slot (fun c => len c <= n) (origin_new (interior_new s)) ops) as [Hs _].
  - by intros c.
  - constructor.
  - done.
  - unfold held_bytes, slot_ok in *. by destruct (slot _) as [c|]; [apply Hs|].
Qed.

Lemma broadcast_lookup {C} `{HostwardConsumer C} (chunks : list Chunk) (f : HostFanout C) i :
  consumers (foldl broadcast f chunks) !! i =
  (fun c => foldl deliver_hostward c chunks) <$> consumers f !! i.
Proof.
  revert f. induction chunks as [|c chunks IH]; intros f; simpl.
  - by destruct (consumers f !! i).
  - rewrite IH. simpl. rewrite list_lookup_fmap. by destruct (consumers f !! i).
Qed.

(** Loss isolation.  After any broadcasts each attached consumer is in the
    state it would be in alone: no neighbour, however slow, changes what it
    received or lost. *)
Theorem fanout_isolation {C} `{HostwardConsumer C} (cs : list C) (chunks : list Chunk) i c :
  cs !! i = Some c ->
  consumers (foldl broadcast (mkFanout cs) chunks) !! i = Some (foldl deliver_hostward c chunks).
Proof. intros Hc. rewrite broadcast_lookup. simpl. by rewrite Hc. Qed.

Lemma mock_accounting (chunks : list Chunk) (c : MockConsumer) :
  let c' := foldl mock_deliver c chunks in
  len (mc_buffered c') + dropped c' = len (mc_buffered c) + dropped c + len (concat chunks) /\
  capacity c' = capacity c.
Proof.
  revert c. induction chunks as [|x chunks IH]; intros c; simpl; [rewrite len_nil; split; [lia|done]|].
  destruct (IH (mock_deliver c x)) as [IH1 IH2]. simpl in *. rewrite IH1, IH2, len_app.
  unfold mock_deliver. case_if; simpl; rewrite ?len_app; split; (done || lia).
Qed.

Lemma mock_unbounded (chunks : list Chunk) b :
  foldl mock_deliver (mkConsumer usize_max b 0) chunks = mkConsumer usize_max (b ++ concat chunks) 0.
Proof.
  revert b. induction chunks as [|x chunks IH]; intros b; simpl; [by rewrite app_nil_r|].
  unfold mock_deliver at 2. simpl. rewrite (proj2 (Z.leb_le _ _)) by lia.
  rewrite IH. by rewrite app_assoc.
Qed.

Lemma mock_bound (chunks : list Chunk) (c : MockConsumer) :
  capacity c < usize_max -> len (mc_buffered c) <= capacity c ->
  len (mc_buffered (foldl mock_deliver c chunks)) <= capacity c.
Proof.
  revert c. induction chunks as [|x chunks IH]; intros c Hc Hb; simpl; [done|].
  assert (capacity (mock_deliver c x) = capacity c) as He by (unfold mock_deliver; by case_if).
  rewrite <- He. apply IH; rewrite ?He; [done|].
  unfold mock_deliver. case_if; simpl; [|done]. split_bools. rewrite len_app. lia.
Qed.

(** Loss is located and counted, never silent: a bounded consumer never
    buffers more than its capacity, what it buffered and what it dropped add up
    to the stream, and an unbounded one receives the stream byte for byte. *)
Theorem consumer_accounting (chunks : list Chunk) cap :
  0 <= cap < usize_max ->
  let c := foldl deliver_hostward (with_capacity cap) chunks in
  len (mc_buffered c) + dropped c = len (concat chunks) /\
  len (mc_buffered c) <= cap /\
  mc_buffered (foldl deliver_hostward unbounded chunks) = concat chunks.
Proof.
  intros Hc. unfold deliver_hostward, mock_consumer. simpl. split_and!.
  - destruct (mock_accounting chunks (with_capacity cap)) as [H _]. simpl in H.
    unfold len in *. simpl in H. lia.
  - apply (mock_bound chunks (with_capacity cap)); simpl; [lia|]. unfold len. simpl. lia.
  - unfold unbounded, with_capacity. by rewrite mock_unbounded.
Qed.

(** ** Witnesses: origin -> interior -> interior -> boundary *)

Definition demo_path : InteriorTargetward (InteriorTargetward BusyBoundary) :=
  interior_new (interior_new boundary_new).
Definition set_path_busy (v : bool) (i : InteriorTargetward (InteriorTargetward BusyBoundary)) :=
  mkInterior (mkInterior (set_busy (downstream (downstream i)) v) (holdover (downstream i))) (holdover i).
Definition demo_schedule : list (OriginOp (InteriorTargetward (InteriorTargetward BusyBoundary))) :=
  [OOffer [x41]; OEnv (set_path_busy true); OOffer [x42]; OOffer [x43]; OOffer [x44];
   OEnv (set_path_busy false)].

Lemma demo_honest : Forall op_honest demo_schedule.
Proof. repeat constructor. Qed.

Lemma targetward_conservation_witness :
  taken (sink (origin_run (origin_new demo_path) demo_schedule)) ++
  concat (pending (origin_run (origin_new demo_path) demo_schedule)) = [x41; x42; x43; x44].
Proof. apply (targetward_conservation demo_path demo_schedule); [reflexivity|apply demo_honest]. Defined.

Lemma targetward_drain_witness :
  delivered (sink (resume (origin_run (origin_new demo_path) demo_schedule))) = [x41; x42; x43; x44].
Proof.
  apply (targetward_drain demo_path demo_schedule); [reflexivity|apply demo_honest|reflexivity].
Defined.

Lemma interior_memory_bound_witness :
  held_bytes (holdover (sink (origin_run (origin_new demo_path) demo_schedule))) <= 1.
Proof.
  apply (interior_memory_bound (interior_new boundary_new) demo_schedule 1); [done|].
  repeat (apply Forall_cons; split; [first [done|vm_compute; discriminate]|]). constructor.
Defined.

Lemma fanout_isolation_witness :
  consumers (foldl broadcast (mkFanout [with_capacity 1; unbounded]) [[x41; x42]]) !! 1%nat =
  Some (foldl deliver_hostward unbounded [[x41; x42]]).
Proof. apply fanout_isolation. reflexivity. Defined.

Lemma consumer_accounting_witness :
  mc_buffered (foldl deliver_hostward unbounded [[x41]; [x42]]) = [x41; x42].
Proof. apply (consumer_accounting [[x41]; [x42]] 3). unfold usize_max, u64_max. lia. Defined.
