(* ===== verification/CharMap.v ===== *)
(** * The character-mapping transform (core/src/map.rs)

    picocom's byte mappings as an ordered rule list, compiled to a 256-entry
    first-match table.  [first_match] is the specification: scan the rules for
    each byte. *)

From S2P Require Import Prelude.

(** ** Rules *)

Definition MAX_EXPANSION : Z := 4.

Definition HEXD : list byte := as_bytes "0123456789abcdef".

Inductive Mapping :=
| Crlf | Crcrlf | Igncr | Lfcr | Lfcrlf | Ignlf | Bsdel | Delbs
| Spchex | Tabhex | Crhex | Lfhex | EightBitHex | NrmHex.

#[export] Instance Mapping_eq_dec : EqDecision Mapping.
Proof. solve_decision. Defined.

Definition VOCABULARY : list (string * Mapping) :=
  [("crlf", Crlf); ("crcrlf", Crcrlf); ("igncr", Igncr); ("lfcr", Lfcr);
   ("lfcrlf", Lfcrlf); ("ignlf", Ignlf); ("bsdel", Bsdel); ("delbs", Delbs);
   ("spchex", Spchex); ("tabhex", Tabhex); ("crhex", Crhex); ("lfhex", Lfhex);
   ("8bithex", EightBitHex); ("nrmhex", NrmHex)]%string.

Definition from_name (name : string) : option Mapping :=
  snd <$> find_first (fun p => String.eqb p.1 name) VOCABULARY.

(** [Mapping::name]: the [expect] panics if the table misses the variant. *)
Definition mapping_name (m : Mapping) : exec unit string :=
  match find_first (fun p => bool_decide (p.2 = m)) VOCABULARY with
  | Some (n, _) => Ok n
  | None => Panic
  end.

Definition all_names : list string := VOCABULARY.*1.

Definition matches (m : Mapping) (b : byte) : bool :=
  let v := bval b in
  match m with
  | Crlf | Crcrlf | Igncr | Crhex => v =? 0x0d
  | Lfcr | Lfcrlf | Ignlf | Lfhex => v =? 0x0a
  | Bsdel => v =? 0x08
  | Delbs => v =? 0x7f
  | Spchex => (v =? 0x7f) || (v <? 0x20) && negb (v =? 0x09) && negb (v =? 0x0a) && negb (v =? 0x0d)
  | Tabhex => v =? 0x09
  | EightBitHex => 0x80 <=? v
  | NrmHex => (0x20 <=? v) && (v <=? 0x7e)
  end.

(** [HEXD\[i\]]. *)
Definition hexd (i : Z) : exec unit byte := index HEXD i.

(** [Mapping::output]: a four-byte buffer and the length used. *)
Definition output (m : Mapping) (b : byte) : exec unit (list byte * Z) :=
  match m with
  | Crlf => Ok ([x0a; x00; x00; x00], 1)
  | Lfcr => Ok ([x0d; x00; x00; x00], 1)
  | Crcrlf | Lfcrlf => Ok ([x0d; x0a; x00; x00], 2)
  | Igncr | Ignlf => Ok ([x00; x00; x00; x00], 0)
  | Bsdel => Ok ([x7f; x00; x00; x00], 1)
  | Delbs => Ok ([x08; x00; x00; x00], 1)
  | Spchex | Tabhex | Crhex | Lfhex | EightBitHex | NrmHex =>
      h ← hexd (Z.shiftr (bval b) 4);
      l ← hexd (Z.land (bval b) 0x0f);
      Ok ([x5b; h; l; x5d], 4)
  end.

Definition expansion (m : Mapping) : Z :=
  match m with
  | Igncr | Ignlf => 0
  | Crlf | Lfcr | Bsdel | Delbs => 1
  | Crcrlf | Lfcrlf => 2
  | Spchex | Tabhex | Crhex | Lfhex | EightBitHex | NrmHex => 4
  end.

(** ** Compiled directions *)

Inductive Slot :=
| Pass
| Sub (rule : nat) (out : list byte) (slen : Z).

Record MapDirection := mkDirection {
  rules : list Mapping;
  table : list Slot;
  max_expansion : Z
}.

(** [rules.iter().enumerate().find(|(_, m)| m.matches(b))]. *)
Fixpoint find_rule (i : nat) (rs : list Mapping) (b : byte) : option (nat * Mapping) :=
  match rs with
  | [] => None
  | m :: rs => if matches m b then Some (i, m) else find_rule (S i) rs b
  end.

(** One table entry. *)
Definition compile_slot (rs : list Mapping) (b : byte) : exec unit Slot :=
  match find_rule 0 rs b with
  | Some (rule, m) => '(out, n) ← output m b; Ok (Sub rule out n)
  | None => Ok Pass
  end.

(** The loop over [table.iter_mut().enumerate()]. *)
Fixpoint compile_table (n : nat) (byte : Z) (rs : list Mapping) : exec unit (list Slot) :=
  match n with
  | O => Ok []
  | S n =>
      s ← compile_slot rs (as_u8 byte);
      t ← compile_table n (byte + 1) rs;
      Ok (s :: t)
  end.

(** [iter().map(expansion).max().unwrap_or(1).max(1)]. *)
Definition max_expansion_of (rs : list Mapping) : Z :=
  Z.max (match rs with
         | [] => 1
         | m :: rs => foldr (fun m n => Z.max (expansion m) n) (expansion m) rs
         end) 1.

Definition compile (rs : list Mapping) : exec unit MapDirection :=
  t ← compile_table 256 0 rs;
  Ok (mkDirection rs t (max_expansion_of rs)).

(** [MapDirection::parse]: the first unknown name, or the compiled direction. *)
Fixpoint parse_names (names : list string) : exec string (list Mapping) :=
  match names with
  | [] => Ok []
  | n :: ns => match from_name n with
               | Some m => ms ← parse_names ns; Ok (m :: ms)
               | None => Err n
               end
  end.

Definition parse (names : list string) : exec string MapDirection :=
  rs ← parse_names names;
  match compile rs with Ok d => Ok d | _ => Panic end.

Definition rule_count (d : MapDirection) : Z := len (rules d).

Definition rule_name (d : MapDirection) (i : Z) : exec unit string :=
  m ← index (rules d) i; mapping_name m.

(** [apply]: output appended to [out], and the rules reported to [on_rule] in
    order. *)
Fixpoint apply (d : MapDirection) (input : list byte) (out : list byte) (fired : list nat)
  : exec unit (list byte * list nat) :=
  match input with
  | [] => Ok (out, fired)
  | b :: input =>
      s ← index (table d) (bval b);
      match s with
      | Pass => apply d input (out ++ [b]) fired
      | Sub rule buf n =>
          bs ← slice buf 0 n;
          apply d input (out ++ bs) (fired ++ [rule])
      end
  end.

(** ** Specification *)

Definition hex_form (b : byte) : list byte :=
  [x5b; default x00 (HEXD !! Z.to_nat (bval b / 16));
   default x00 (HEXD !! Z.to_nat (bval b mod 16)); x5d].

(** The substitution a rule makes, as picocom documents it. *)
Definition substitute (m : Mapping) (b : byte) : list byte :=
  match m with
  | Crlf => [x0a]
  | Lfcr => [x0d]
  | Crcrlf | Lfcrlf => [x0d; x0a]
  | Igncr | Ignlf => []
  | Bsdel => [x7f]
  | Delbs => [x08]
  | Spchex | Tabhex | Crhex | Lfhex | EightBitHex | NrmHex => hex_form b
  end.

(** First match wins; an unmatched byte passes. *)
Definition first_match (rs : list Mapping) (b : byte) : list byte :=
  match find_rule 0 rs b with Some (_, m) => substitute m b | None => [b] end.

Definition first_rule (rs : list Mapping) (b : byte) : list nat :=
  match find_rule 0 rs b with Some (i, _) => [i] | None => [] end.

(** ** Lemmas *)

Lemma hex_output b :
  (h ← hexd (Z.shiftr (bval b) 4); l ← hexd (Z.land (bval b) 0x0f);
   Ok ([x5b; h; l; x5d], 4)) = Ok (hex_form b, 4).
Proof. by destruct b. Qed.

Lemma output_substitute m b :
  exists buf n, output m b = Ok (buf, n) /\ slice (E := unit) buf 0 n = Ok (substitute m b) /\
    n = len (substitute m b) /\ n <= expansion m.
Proof.
  destruct m; cbn [output]; rewrite ?hex_output; eexists _, _; done.
Qed.

Lemma compile_slot_spec rs b :
  exists s, compile_slot rs b = Ok s /\
    match s with
    | Pass => find_rule 0 rs b = None
    | Sub rule buf n => exists m, find_rule 0 rs b = Some (rule, m) /\
                        slice (E := unit) buf 0 n = Ok (substitute m b)
    end.
Proof.
  unfold compile_slot. destruct (find_rule 0 rs b) as [[i m]|] eqn:E.
  - destruct (output_substitute m b) as (buf & n & -> & Hs & _).
    exists (Sub i buf n). split; [done|]. eauto.
  - by exists Pass.
Qed.

Lemma compile_table_spec n k rs :
  exists t, compile_table n k rs = Ok t /\ length t = n /\
    forall i, (i < n)%nat -> exists s, t !! i = Some s /\ compile_slot rs (as_u8 (k + Z.of_nat i)) = Ok s.
Proof.
  revert k. induction n as [|n IH]; intros k; cbn [compile_table].
  - exists []. split_and!; try done. lia.
  - destruct (compile_slot_spec rs (as_u8 k)) as (s & Hs & _). rewrite Hs, bind_ok.
    destruct (IH (k + 1)) as (t & -> & Hl & Ht). rewrite bind_ok. exists (s :: t).
    split_and!; [done|simpl; by rewrite Hl|]. intros [|i] Hi.
    + exists s. by rewrite Z.add_0_r.
    + destruct (Ht i) as (s' & Hs' & He); [lia|]. exists s'. split; [done|].
      by replace (k + Z.of_nat (S i)) with (k + 1 + Z.of_nat i) by lia.
Qed.

Lemma compile_spec rs :
  exists d, compile rs = Ok d /\ rules d = rs /\ max_expansion d = max_expansion_of rs /\
    forall b, exists s, index (E := unit) (table d) (bval b) = Ok s /\ compile_slot rs b = Ok s.
Proof.
  unfold compile. destruct (compile_table_spec 256 0 rs) as (t & -> & Hl & Ht). rewrite bind_ok.
  eexists. split_and!; [done..|]. intros b. simpl. pose proof (bval_range b).
  destruct (Ht (Z.to_nat (bval b))) as (s & Hs & He); [lia|]. exists s.
  replace (0 + Z.of_nat (Z.to_nat (bval b))) with (bval b) in He by lia.
  rewrite as_u8_bval in He. split; [|done]. unfold index.
  rewrite (proj2 (Z.leb_le _ _)), Hs by lia. done.
Qed.

Lemma apply_spec rs d input out fired :
  compile rs = Ok d ->
  apply d input out fired =
  Ok (out ++ concat (first_match rs <$> input), fired ++ concat (first_rule rs <$> input)).
Proof.
  intros Hc. destruct (compile_spec rs) as (d' & Hc' & _ & _ & Ht). rewrite Hc in Hc'.
  injection Hc' as <-. revert out fired.
  induction input as [|b input IH]; intros out fired; cbn [apply fmap list_fmap concat].
  - by rewrite !app_nil_r.
  - destruct (Ht b) as (s & -> & Hs). rewrite bind_ok.
    destruct (compile_slot_spec rs b) as (s' & Hs' & Hm). rewrite Hs in Hs'. injection Hs' as <-.
    unfold first_match at 1, first_rule at 1. destruct s as [|rule buf n].
    + rewrite Hm, IH. by rewrite <- app_assoc.
    + destruct Hm as (m & -> & ->). rewrite bind_ok, IH. by rewrite <- !app_assoc.
Qed.

Lemma find_rule_Some i rs b j m : find_rule i rs b = Some (j, m) -> m ∈ rs /\ matches m b = true.
Proof.
  revert i. induction rs as [|r rs IH]; intros i; simpl; [done|]. destruct (matches r b) eqn:E.
  - intros [= <- <-]. split; [left|done].
  - intros H. destruct (IH _ H). split; [by right|done].
Qed.

Lemma foldr_max_le m n rs :
  expansion m <= foldr (fun m n => Z.max (expansion m) n) n (m :: rs) /\
  n <= foldr (fun m n => Z.max (expansion m) n) n rs.
Proof.
  split; [simpl; lia|]. induction rs; simpl; lia.
Qed.

Lemma expansion_le m rs : m ∈ rs -> expansion m <= max_expansion_of rs.
Proof.
  unfold max_expansion_of. intros Hin. destruct rs as [|r rs]; [by apply elem_of_nil in Hin|].
  apply elem_of_cons in Hin as [->|Hin].
  - pose proof (proj2 (foldr_max_le r (expansion r) rs)). lia.
  - enough (expansion m <= foldr (fun m n => Z.max (expansion m) n) (expansion r) rs) by lia.
    induction rs as [|r' rs IH]; [by apply elem_of_nil in Hin|].
    apply elem_of_cons in Hin as [->|Hin]; simpl; [lia|]. specialize (IH Hin). lia.
Qed.

Lemma max_expansion_bounds rs : 1 <= max_expansion_of rs <= MAX_EXPANSION.
Proof.
  unfold max_expansion_of, MAX_EXPANSION. split; [lia|]. destruct rs as [|r rs]; [lia|].
  enough (foldr (fun m n => Z.max (expansion m) n) (expansion r) rs <= 4) by lia.
  induction rs as [|m rs IH]; simpl; [by destruct r|].
  assert (expansion m <= 4) by (by destruct m). lia.
Qed.

Lemma first_match_len rs b : len (first_match rs b) <= max_expansion_of rs.
Proof.
  unfold first_match. destruct (find_rule 0 rs b) as [[i m]|] eqn:E.
  - apply find_rule_Some in E as [Hin _]. destruct (output_substitute m b) as (_ & n & _ & _ & -> & Hn).
    pose proof (expansion_le m rs Hin). lia.
  - change (len [b]) with 1. apply max_expansion_bounds.
Qed.

(** ** Theorems *)

(** the compiled table implements first-match-wins.  For every rule list,
    compiling succeeds and applying the direction appends, byte by byte, what the
    first matching rule substitutes (or the byte itself), and reports exactly
    those rules to the counters, without ever indexing out of range. *)
Theorem map_first_match rs :
  exists d, compile rs = Ok d /\ rules d = rs /\
    forall input out fired,
      apply d input out fired =
      Ok (out ++ concat (first_match rs <$> input), fired ++ concat (first_rule rs <$> input)).
Proof.
  destruct (compile_spec rs) as (d & Hc & Hr & _). exists d. split_and!; try done.
  intros. by apply apply_spec.
Qed.

(** Bounded growth.  A direction never emits more than [max_expansion] bytes
    per input byte, and that factor is between 1 and 4. *)
Theorem map_expansion_bound rs d input out fired out' fired' :
  compile rs = Ok d -> apply d input out fired = Ok (out', fired') ->
  1 <= max_expansion d <= MAX_EXPANSION /\
  len out' <= len out + max_expansion d * len input.
Proof.
  intros Hc. rewrite (apply_spec rs) by done. intros [= <- _].
  destruct (compile_spec rs) as (d' & Hc' & _ & Hm & _). rewrite Hc in Hc'. injection Hc' as <-.
  rewrite Hm, len_app. split; [apply max_expansion_bounds|].
  enough (len (concat (first_match rs <$> input)) <= max_expansion_of rs * len input) by lia.
  induction input as [|b input IH]; cbn [fmap list_fmap concat]; [rewrite !len_nil; lia|].
  rewrite len_app, len_cons. pose proof (first_match_len rs b).
  change (list_fmap byte (list byte) (first_match rs) input) with (first_match rs <$> input). lia.
Qed.

(** The transform is stateless: applying it to the two halves of a buffer in
    turn is applying it to the whole, output and rule counts alike. *)
Theorem map_chunk_agnostic rs d a b out fired :
  compile rs = Ok d ->
  ('(out', fired') ← apply d a out fired; apply d b out' fired') = apply d (a ++ b) out fired.
Proof.
  intros Hc. rewrite !(apply_spec rs) by done. rewrite bind_ok, (apply_spec rs) by done.
  by rewrite !fmap_app, !concat_app, !app_assoc.
Qed.

(** Configuration names and rules correspond one to one, and [parse] reports
    the first unknown name or compiles exactly the listed rules. *)
Theorem map_names :
  (forall m, exists n, mapping_name m = Ok n /\ from_name n = Some m) /\
  (forall n m, from_name n = Some m -> mapping_name m = Ok n) /\
  (forall names, match parse names with
     | Ok d => Forall2 (fun n m => from_name n = Some m) names (rules d)
     | Err n => exists ok rest, names = ok ++ n :: rest /\ from_name n = None /\
                Forall (fun k => from_name k <> None) ok
     | Panic => False
     end).
Proof.
  split_and!.
  - intros m. destruct m; by eexists.
  - intros n m. unfold from_name. intros (p & Hp & ->)%fmap_Some.
    apply find_first_Some in Hp as [Hin He]. apply String.eqb_eq in He as <-.
    unfold VOCABULARY in Hin.
    repeat (apply elem_of_cons in Hin as [->|Hin]; [reflexivity|]). by apply elem_of_nil in Hin.
  - intros names. unfold parse.
    assert (match parse_names names with
            | Ok ms => Forall2 (fun n m => from_name n = Some m) names ms
            | Err n => exists ok rest, names = ok ++ n :: rest /\ from_name n = None /\
                       Forall (fun k => from_name k <> None) ok
            | Panic => False end) as Hp.
    { induction names as [|n names IH]; cbn [parse_names]; [constructor|].
      destruct (from_name n) as [m|] eqn:En.
      - destruct (parse_names names) as [ms|e|]; simpl in *; [by constructor| |done].
        destruct IH as (ok & rest & -> & He & Hok). exists (n :: ok), rest. split_and!; try done.
        constructor; [congruence|done].
      - exists [], names. split_and!; try done. }
    destruct (parse_names names) as [ms|e|]; simpl in *; [|done..].
    destruct (compile_spec ms) as (d & -> & Hr & _). by rewrite Hr.
Qed.

(** The hex-display family partitions the byte space: every byte is shown by
    exactly one of the six hex rules. *)
Theorem hex_partition b :
  length (filter (fun m => matches m b = true) [Spchex; Tabhex; Crhex; Lfhex; NrmHex; EightBitHex]) = 1%nat.
Proof. by destruct b. Qed.

(** ** Witnesses *)

Lemma map_expansion_bound_witness :
  exists d, compile [Lfcrlf; NrmHex] = Ok d /\ len [x5b; x34; x31; x5d; x0d; x0a] <= len (@nil byte) + max_expansion d * len [x41; x0a].
Proof.
  destruct (compile [Lfcrlf; NrmHex]) as [d| |] eqn:E; [|by vm_compute in E..].
  exists d. split; [done|].
  apply (map_expansion_bound [Lfcrlf; NrmHex] d [x41; x0a] [] [] _ [1%nat; 0%nat]); [done|].
  vm_compute in E. injection E as <-. reflexivity.
Defined.

Lemma map_chunk_agnostic_witness :
  exists d, compile [Igncr; Crlf] = Ok d /\
    ('(out', fired') ← apply d [x0d] [] []; apply d [x41] out' fired') = apply d ([x0d] ++ [x41]) [] [].
Proof.
  destruct (compile [Igncr; Crlf]) as [d| |] eqn:E; [|by vm_compute in E..].
  exists d. split; [done|]. by apply (map_chunk_agnostic [Igncr; Crlf]).
Defined.
