(* ===== verification/Cycle.v ===== *)
(** * Cycle detection (core/src/graph.rs, [find_cycle])

    The iterative depth-first search of the validator, with its colour map, its
    explicit stack and the gray path.  The search is proved total on graphs whose
    arcs stay inside the node set, sound (a reported cycle is one) and complete
    (no report means the graph is acyclic), for every iteration order of the
    hash maps. *)

From S2P Require Import Prelude GraphTypes.
From stdpp Require Import relations.

(** ** The search *)

Inductive Color := White | Gray | Black.

#[export] Instance Color_eq_dec : EqDecision Color.
Proof. solve_decision. Defined.

(** [adj.entry(from).or_default().push(to)]. *)
Definition push_arc (adj : gmap string (list string)) (arc : string * string)
  : gmap string (list string) :=
  <[arc.1 := default [] (adj !! arc.1) ++ [arc.2]]> adj.

(** [adj.entry(name).or_default()]. *)
Definition entry_default (adj : gmap string (list string)) (name : string)
  : gmap string (list string) :=
  <[name := default [] (adj !! name)]> adj.

Definition build_adj (names : list string) (arcs : list (string * string))
  : gmap string (list string) :=
  foldl push_arc (foldl entry_default ∅ names) arcs.

(** One start of the search.  The stack's top is its head; [inl] carries a cycle
    found through a back edge, [inr] the colours when the stack empties; [Panic]
    is a missing key behind [adj\[..\]] or [color\[..\]], [None] exhausted fuel. *)
Fixpoint dfs_loop (fuel : nat) (adj : gmap string (list string)) (color : gmap string Color)
    (stack : list (string * nat)) (path : list string)
  : option (exec unit (list string + gmap string Color)) :=
  match fuel with
  | O => None
  | S fuel =>
      match stack with
      | [] => Some (Ok (inr color))
      | (node, idx) :: stk =>
          match adj !! node with
          | None => Some Panic
          | Some neighbors =>
              match neighbors !! idx with
              | Some next =>
                  match color !! next with
                  | None => Some Panic
                  | Some White =>
                      dfs_loop fuel adj (<[next := Gray]> color)
                               ((next, O) :: (node, S idx) :: stk) (path ++ [next])
                  | Some Gray =>
                      let at_ := default O (fst <$> list_find (fun n => n = next) path) in
                      Some (Ok (inl (drop at_ path ++ [next])))
                  | Some Black => dfs_loop fuel adj color ((node, S idx) :: stk) path
                  end
              | None => dfs_loop fuel adj (<[node := Black]> color) stk (removelast path)
              end
          end
      end
  end.

(** Weight of a node: the iterations its visit can take. *)
Definition node_weight (adj : gmap string (list string)) (n : string) : nat :=
  S (length (default [] (adj !! n))).

Definition dfs_fuel (adj : gmap string (list string)) (keys : list string) : nat :=
  S (sum_list_with (node_weight adj) keys).

(** The outer loop over [adj.keys()]. *)
Fixpoint find_cycle_from (fuel : nat) (adj : gmap string (list string))
    (color : gmap string Color) (starts : list string)
  : option (exec unit (option (list string))) :=
  match starts with
  | [] => Some (Ok None)
  | start :: starts =>
      match color !! start with
      | None => Some Panic
      | Some c =>
          if bool_decide (c <> White) then find_cycle_from fuel adj color starts
          else
            r ← dfs_loop fuel adj (<[start := Gray]> color) [(start, O)] [start];
            match r with
            | Ok (inl cycle) => Some (Ok (Some cycle))
            | Ok (inr color) => find_cycle_from fuel adj color starts
            | Err e => Some (Err e)
            | Panic => Some Panic
            end
      end
  end.

Definition find_cycle `{!HashOrder string} (shapes : gmap string NodeShape)
    (arcs : list (string * string)) : option (exec unit (option (list string))) :=
  let adj := build_adj (hash_iter shapes).*1 arcs in
  let keys := (hash_iter adj).*1 in
  find_cycle_from (dfs_fuel adj keys) adj ((fun _ => White) <$> adj) keys.

(** ** Graph notions *)

(** The arc relation of an adjacency map. *)
Definition arc (adj : gmap string (list string)) (a b : string) : Prop :=
  exists l, adj !! a = Some l /\ b ∈ l.

Definition linked (E : string -> string -> Prop) (l : list string) : Prop :=
  forall i a b, l !! i = Some a -> l !! S i = Some b -> E a b.

(** A closed walk, first node repeated last. *)
Definition is_cycle (E : string -> string -> Prop) (l : list string) : Prop :=
  exists x p, l = x :: p ++ [x] /\ linked E l.

Definition acyclic (E : string -> string -> Prop) : Prop := forall x, ~ tc E x x.

Lemma linked_drop E n l : linked E l -> linked E (drop n l).
Proof. 
  intros H i a b. rewrite !lookup_drop. intros Ha Hb. rewrite Nat.add_succ_r in Hb.
  by apply (H (n + i)%nat).
Qed.

Lemma linked_snoc (E : string -> string -> Prop) l x y :
  linked E (l ++ [x]) -> E x y -> linked E ((l ++ [x]) ++ [y]).
Proof.
  intros H Hxy i a b Ha Hb.
  destruct (decide (S i < length (l ++ [x]))%nat) as [Hi|Hi].
  - rewrite lookup_app_l in Ha, Hb by lia. by eapply H.
  - apply lookup_lt_Some in Hb as Hlt. rewrite !length_app in *. simpl in *.
    assert (i = length l) as -> by lia.
    rewrite <- app_assoc in Ha. rewrite lookup_app_r, Nat.sub_diag in Ha by lia.
    rewrite lookup_app_r in Hb by (rewrite length_app; simpl; lia).
    replace (S (length l) - length (l ++ [x]))%nat with O in Hb by (rewrite length_app; simpl; lia).
    simpl in *. congruence.
Qed.

Lemma linked_removelast E l x : linked E (l ++ [x]) -> linked E l.
Proof.
  intros H i a b Ha Hb. apply (H i).
  - rewrite lookup_app_l; [done|by eapply lookup_lt_Some].
  - rewrite lookup_app_l; [done|by eapply lookup_lt_Some].
Qed.

(** A closed walk witnesses a cycle of the relation. *)
Lemma linked_tc (E : string -> string -> Prop) x p y :
  linked E (x :: p ++ [y]) -> tc E x y.
Proof.
  revert x. induction p as [|z p IH]; intros x H.
  - apply tc_once. by apply (H 0%nat).
  - eapply tc_l; [by apply (H 0%nat)|]. apply IH. intros i a b Ha Hb. by apply (H (S i)).
Qed.

Lemma tc_first_step {A} (E : A -> A -> Prop) x y : tc E x y -> exists m, E x m /\ rtc E m y.
Proof. intros [? ? ?|? m ? ? ?]; eauto using tc_rtc, rtc_refl. Qed.

(** ** The search invariant *)

Section dfs.
Context (adj : gmap string (list string)).
Context (Hclosed : forall a b, arc adj a b -> is_Some (adj !! b)).

Definition is_black (color : gmap string Color) (n : string) : Prop := color !! n = Some Black.

(** Of the neighbours of a stacked node, the ones before the cursor are black,
    except that the last one taken is the node stacked above. *)
Fixpoint entries_ok (color : gmap string Color) (child : option string)
    (stack : list (string * nat)) : Prop :=
  match stack with
  | [] => True
  | (n, i) :: stk =>
      (exists l, adj !! n = Some l /\ (i <= length l)%nat /\
        match child with
        | None => forall j m, (j < i)%nat -> l !! j = Some m -> is_black color m
        | Some c => exists k, i = S k /\ l !! k = Some c /\
                    forall j m, (j < k)%nat -> l !! j = Some m -> is_black color m
        end) /\ entries_ok color (Some n) stk
  end.

Record dfs_inv (color : gmap string Color) (stack : list (string * nat)) (path : list string) : Prop := {
  inv_dom : forall n, is_Some (color !! n) <-> is_Some (adj !! n);
  inv_gray : forall n, color !! n = Some Gray <-> n ∈ stack.*1;
  inv_nodup : NoDup stack.*1;
  inv_path : path = reverse stack.*1;
  inv_linked : linked (arc adj) path;
  inv_entries : entries_ok color None stack;
  inv_closed : forall n m, is_black color n -> arc adj n m -> is_black color m;
  inv_acyclic : forall n, is_black color n -> ~ tc (arc adj) n n
}.

Lemma entries_mono color color' child stack :
  (forall n, is_black color n -> is_black color' n) ->
  entries_ok color child stack -> entries_ok color' child stack.
Proof.
  intros Hm. revert child. induction stack as [|[n i] stk IH]; intros child; [done|].
  cbn [entries_ok]. intros [(l & Hl & Hi & Hc) Hr]. split; [|auto].
  exists l. split_and!; try done. destruct child as [c|].
  - destruct Hc as (k & -> & Hk & Hb). exists k. eauto.
  - eauto.
Qed.

(** After its top is finished, the node below has its taken neighbours black. *)
Lemma entries_pop color n stk :
  is_black color n -> entries_ok color (Some n) stk -> entries_ok color None stk.
Proof.
  intros Hb. destruct stk as [|[p i] stk]; [done|]. cbn [entries_ok].
  intros [(l & Hl & Hi & k & -> & Hk & Hj) Hr]. split; [|done].
  exists l. split_and!; try done. intros j m Hjk Hm.
  destruct (decide (j = k)) as [->|]; [congruence|]. apply (Hj j); [lia|done].
Qed.

Lemma black_rtc color n m :
  (forall n m, is_black color n -> arc adj n m -> is_black color m) ->
  is_black color n -> rtc (arc adj) n m -> is_black color m.
Proof. intros Hc Hn Hr. induction Hr; eauto. Qed.

(** *** The four transitions *)

Lemma inv_push color node idx stk path l next :
  dfs_inv color ((node, idx) :: stk) path -> adj !! node = Some l -> l !! idx = Some next ->
  color !! next = Some White ->
  dfs_inv (<[next := Gray]> color) ((next, O) :: (node, S idx) :: stk) (path ++ [next]).
Proof.
  intros [Hd Hg Hn Hp Hli He Hc Ha] Hl Hx Hw.
  assert (arc adj node next) as Harc by (exists l; split; [done|]; by eapply list_elem_of_lookup_2).
  assert (forall n, is_black (<[next := Gray]> color) n <-> is_black color n) as Hb.
  { intros n. unfold is_black. rewrite lookup_insert. case_decide; [|done]. subst. rewrite Hw. done. }
  assert (next ∉ node :: stk.*1) as Hnew by (intros Hin; apply Hg in Hin; congruence).
  constructor.
  - intros n. rewrite lookup_insert. case_decide; [|done]. subst. rewrite <- Hd, Hw. done.
  - intros n. rewrite lookup_insert. cbn [fmap list_fmap fst] in *. rewrite elem_of_cons.
    case_decide; [naive_solver|]. rewrite Hg. naive_solver.
  - cbn [fmap list_fmap fst] in *. by constructor.
  - rewrite Hp. cbn [fmap list_fmap fst]. by rewrite !reverse_cons.
  - rewrite Hp in *. cbn [fmap list_fmap fst] in *. rewrite reverse_cons in *. by apply linked_snoc.
  - destruct (Hclosed _ _ Harc) as [l' Hl']. cbn [entries_ok] in *. split.
    { exists l'. split_and!; [done|lia|lia]. }
    destruct He as [(l0 & Hl0 & Hi & Hj) Hr]. rewrite Hl in Hl0. injection Hl0 as <-. split.
    + exists l. split_and!; [done|by apply lookup_lt_Some in Hx|]. exists idx.
      split_and!; try done. intros j m Hlt Hm. apply Hb. eauto.
    + eapply entries_mono; [|done]. intros. by apply Hb.
  - intros n m Hbn. rewrite !Hb in *. eauto.
  - intros n Hbn. apply Ha. by apply Hb.
Qed.

Lemma inv_skip color node idx stk path l next :
  dfs_inv color ((node, idx) :: stk) path -> adj !! node = Some l -> l !! idx = Some next ->
  color !! next = Some Black -> dfs_inv color ((node, S idx) :: stk) path.
Proof.
  intros [Hd Hg Hn Hp Hli He Hc Ha] Hl Hx Hw. constructor; try done.
  cbn [entries_ok] in *. destruct He as [(l0 & Hl0 & Hi & Hj) Hr].
  rewrite Hl in Hl0. injection Hl0 as <-. split; [|done].
  exists l. split_and!; [done|by apply lookup_lt_Some in Hx|]. intros j m Hlt Hm.
  destruct (decide (j = idx)) as [->|]; [unfold is_black; congruence|]. apply (Hj j); [lia|done].
Qed.

Lemma inv_finish color node idx stk path l :
  dfs_inv color ((node, idx) :: stk) path -> adj !! node = Some l -> l !! idx = None ->
  dfs_inv (<[node := Black]> color) stk (removelast path).
Proof.
  intros [Hd Hg Hn Hp Hli He Hc Ha] Hl Hx. cbn [fmap list_fmap fst] in *.
  apply NoDup_cons in Hn as [Hnin Hn]. cbn [entries_ok] in He.
  destruct He as [(l0 & Hl0 & Hi & Hj) Hr]. rewrite Hl in Hl0. injection Hl0 as <-.
  assert (color !! node = Some Gray) as Hng by (apply Hg; left).
  assert (forall n, is_black color n -> is_black (<[node := Black]> color) n) as Hm.
  { intros n Hb. unfold is_black in *. rewrite lookup_insert. by case_decide. }
  assert (forall m, arc adj node m -> is_black color m) as Hsucc.
  { intros m (l' & Hl' & Hin). rewrite Hl in Hl'. injection Hl' as <-.
    apply list_elem_of_lookup_1 in Hin as [j Hjm]. apply (Hj j); [|done].
    apply lookup_ge_None in Hx. apply lookup_lt_Some in Hjm. lia. }
  assert (path = reverse stk.*1 ++ [node]) as Hp' by (by rewrite Hp, reverse_cons).
  rewrite Hp', removelast_last. rewrite Hp' in Hli. constructor.
  - intros n. rewrite lookup_insert. case_decide; [|done]. subst. rewrite Hl. done.
  - intros n. rewrite lookup_insert. case_decide as E.
    + subst. split; [done|]. intros Hin. done.
    + rewrite Hg, elem_of_cons. naive_solver.
  - done.
  - done.
  - by eapply linked_removelast.
  - eapply entries_pop; [|eapply entries_mono; [apply Hm|done]]. unfold is_black. by rewrite lookup_insert_eq.
  - intros n m Hb Harc. unfold is_black in Hb. rewrite lookup_insert in Hb. case_decide; eauto.
    subst. eauto.
  - intros n Hb Hcyc. unfold is_black in Hb. rewrite lookup_insert in Hb. case_decide; [|by eapply Ha].
    subst n. apply tc_first_step in Hcyc as (m & Hnm & Hmn).
    assert (is_black color node) as Hbad by (eapply black_rtc; eauto). unfold is_black in Hbad. congruence.
Qed.

(** A gray neighbour closes a cycle along the path. *)
Lemma inv_back_edge color node idx stk path l next :
  dfs_inv color ((node, idx) :: stk) path -> adj !! node = Some l -> l !! idx = Some next ->
  color !! next = Some Gray ->
  is_cycle (arc adj) (drop (default O (fst <$> list_find (fun n => n = next) path)) path ++ [next]).
Proof.
  intros [Hd Hg Hn Hp Hli He Hc Ha] Hl Hx Hgr.
  assert (arc adj node next) as Harc by (exists l; split; [done|]; by eapply list_elem_of_lookup_2).
  assert (next ∈ path) as Hin by (rewrite Hp, elem_of_reverse; by apply Hg).
  assert (path = reverse stk.*1 ++ [node]) as Hp' by (by rewrite Hp, fmap_cons, reverse_cons).
  destruct (list_find_elem_of (fun n => n = next) path next Hin eq_refl) as [[i y] Hf].
  rewrite Hf. cbn [fmap option_fmap option_map default fst].
  apply list_find_Some in Hf as (Hi & -> & _).
  assert (linked (arc adj) (drop i path ++ [next])) as Hlk.
  { rewrite Hp' in Hi |- *. rewrite drop_app_le
      by (apply lookup_lt_Some in Hi; rewrite length_app in Hi; simpl in Hi; lia).
    apply linked_snoc; [|done]. rewrite <- drop_app_le
      by (apply lookup_lt_Some in Hi; rewrite length_app in Hi; simpl in Hi; lia).
    rewrite <- Hp'. by apply linked_drop. }
  unfold id. rewrite (drop_S path next i Hi) in Hlk |- *. by exists next, (drop (S i) path).
Qed.

(** *** The measure *)

Context (keys : list string) (Hkeys : NoDup keys)
        (Hdom : forall n, n ∈ keys <-> is_Some (adj !! n)).

Definition white_weight (color : gmap string Color) (n : string) : nat :=
  if decide (color !! n = Some White) then node_weight adj n else O.

Definition entry_weight (e : string * nat) : nat :=
  S (length (default [] (adj !! e.1)) - e.2).

Definition dfs_measure (color : gmap string Color) (stack : list (string * nat)) : nat :=
  sum_list_with entry_weight stack + sum_list_with (white_weight color) keys.

Lemma white_sum_ext color color' (l : list string) :
  (forall n, n ∈ l -> color !! n = Some White <-> color' !! n = Some White) ->
  sum_list_with (white_weight color) l = sum_list_with (white_weight color') l.
Proof.
  induction l as [|x l IH]; intros H; [done|]. simpl. rewrite IH by (intros; apply H; by right).
  f_equal. unfold white_weight. specialize (H x ltac:(left)). repeat case_decide; naive_solver.
Qed.

Lemma white_sum_take color c (n : string) (l : list string) :
  NoDup l -> n ∈ l -> color !! n = Some White -> c <> White ->
  sum_list_with (white_weight color) l =
  (node_weight adj n + sum_list_with (white_weight (<[n := c]> color)) l)%nat.
Proof.
  induction 1 as [|x l Hx Hnd IH]; intros Hin Hw Hc; [by apply elem_of_nil in Hin|].
  cbn [sum_list_with]. apply elem_of_cons in Hin as [->|Hin].
  - rewrite (white_sum_ext (<[x := c]> color) color).
    2:{ intros m Hm. rewrite lookup_insert_ne; [done|]. by intros ->. }
    unfold white_weight. rewrite lookup_insert_eq, decide_True, decide_False by congruence. lia.
  - rewrite IH by done. unfold white_weight at 1 3. rewrite lookup_insert_ne by (by intros ->). lia.
Qed.

Lemma measure_push color node idx stk l next :
  adj !! node = Some l -> (idx < length l)%nat -> is_Some (adj !! next) -> color !! next = Some White ->
  dfs_measure color ((node, idx) :: stk) =
  S (dfs_measure (<[next := Gray]> color) ((next, O) :: (node, S idx) :: stk)).
Proof.
  intros Hl Hi Hx Hw. unfold dfs_measure. cbn [sum_list_with].
  rewrite (white_sum_take color Gray next keys) by (done || by apply Hdom).
  unfold entry_weight, node_weight. cbn [fst snd]. rewrite Hl. simpl. lia.
Qed.

Lemma measure_finish color node idx stk :
  color !! node = Some Gray ->
  (dfs_measure (<[node := Black]> color) stk < dfs_measure color ((node, idx) :: stk))%nat.
Proof.
  intros Hg. unfold dfs_measure. cbn [sum_list_with].
  rewrite (white_sum_ext (<[node := Black]> color) color); [unfold entry_weight; lia|].
  intros n _. rewrite lookup_insert. case_decide; subst; rewrite ?Hg; done.
Qed.

(** *** The inner loop *)

Definition grows (color color' : gmap string Color) : Prop :=
  forall n c, color !! n = Some c -> c <> White -> exists c', color' !! n = Some c' /\ c' <> White.

Lemma grows_insert color color' n c :
  c <> White -> grows (<[n := c]> color) color' -> grows color color'.
Proof.
  intros Hc H m d Hm Hd. destruct (decide (n = m)) as [->|Hne].
  - apply (H m c); [by rewrite lookup_insert_eq|done].
  - apply (H m d); [by rewrite lookup_insert_ne|done].
Qed.

Definition dfs_post (color : gmap string Color) (r : list string + gmap string Color) : Prop :=
  match r with
  | inl cycle => is_cycle (arc adj) cycle
  | inr color' => dfs_inv color' [] [] /\ grows color color'
  end.

Lemma dfs_post_insert color n c r : c <> White -> dfs_post (<[n := c]> color) r -> dfs_post color r.
Proof. destruct r; [done|]. intros ? [? ?]. split; [done|]. by eapply grows_insert. Qed.

Lemma dfs_loop_spec fuel color stack path :
  dfs_inv color stack path -> (dfs_measure color stack < fuel)%nat ->
  exists r, dfs_loop fuel adj color stack path = Some (Ok r) /\ dfs_post color r.
Proof.
  revert color stack path. induction fuel as [|fuel IH]; intros color stack path Hinv Hm; [lia|].
  cbn [dfs_loop]. destruct stack as [|[node idx] stk].
  { eexists. split; [done|]. split; [|intros n c ? ?; by exists c].
    pose proof (inv_path _ _ _ Hinv) as Hp. by rewrite Hp in Hinv. }
  pose proof (inv_entries _ _ _ Hinv) as He. cbn [entries_ok] in He.
  destruct He as [(l & Hl & _) _]. rewrite Hl.
  destruct (l !! idx) as [next|] eqn:Hx.
  - assert (is_Some (adj !! next)) as Hnext.
    { apply (Hclosed node). exists l. split; [done|]. by eapply list_elem_of_lookup_2. }
    pose proof (proj2 (inv_dom _ _ _ Hinv next) Hnext) as [c Hc]. rewrite Hc.
    pose proof (lookup_lt_Some _ _ _ Hx) as Hi. destruct c.
    + edestruct IH as (r & -> & Hr); [by eapply inv_push| |].
      * rewrite (measure_push _ _ _ _ l next) in Hm by done. lia.
      * exists r. split; [done|]. by apply (dfs_post_insert _ next Gray).
    + eexists. split; [done|]. by eapply inv_back_edge.
    + apply IH; [by eapply inv_skip|]. unfold dfs_measure, entry_weight in *. cbn [sum_list_with fst snd] in *.
      rewrite Hl in *. simpl in *. lia.
  - assert (color !! node = Some Gray) as Hg by (apply (inv_gray _ _ _ Hinv); by left).
    edestruct IH as (r & -> & Hr); [by eapply inv_finish| |].
    + pose proof (measure_finish color node idx stk Hg). lia.
    + exists r. split; [done|]. by apply (dfs_post_insert _ node Black).
Qed.

(** *** The outer loop *)

Lemma inv_start color start :
  dfs_inv color [] [] -> color !! start = Some White -> dfs_inv (<[start := Gray]> color) [(start, O)] [start].
Proof.
  intros [Hd Hg Hn Hp Hli He Hc Ha] Hw.
  assert (forall n, is_black (<[start := Gray]> color) n <-> is_black color n) as Hb.
  { intros n. unfold is_black. rewrite lookup_insert. case_decide; [|done]. subst. rewrite Hw. done. }
  assert (is_Some (adj !! start)) as [l Hl] by (apply Hd; by rewrite Hw).
  constructor; try done.
  - intros n. rewrite lookup_insert. case_decide; [|done]. subst. rewrite <- Hd, Hw. done.
  - intros n. rewrite lookup_insert. cbn. rewrite list_elem_of_singleton.
    case_decide; [naive_solver|]. rewrite Hg. cbn. rewrite elem_of_nil. naive_solver.
  - cbn. apply NoDup_singleton.
  - cbn. split; [|done]. exists l. split_and!; [done|lia|lia].
  - intros n m Hbn. rewrite !Hb in *. eauto.
  - intros n Hbn. apply Ha. by apply Hb.
Qed.

Definition search_post (r : option (list string)) : Prop :=
  match r with Some cycle => is_cycle (arc adj) cycle | None => acyclic (arc adj) end.

Lemma empty_stack_color color n :
  dfs_inv color [] [] -> forall c, color !! n = Some c -> c <> White -> is_black color n.
Proof.
  intros Hi [] Hc Hw; [done| |done]. apply (inv_gray _ _ _ Hi) in Hc. by apply elem_of_nil in Hc.
Qed.

Lemma find_cycle_from_spec color starts :
  dfs_inv color [] [] -> (forall n, n ∈ starts -> n ∈ keys) ->
  (forall n, n ∈ keys -> n ∈ starts \/ is_black color n) ->
  exists r, find_cycle_from (dfs_fuel adj keys) adj color starts = Some (Ok r) /\ search_post r.
Proof.
  revert color. induction starts as [|start starts IH]; intros color Hi Hs Hk.
  { exists None. split; [done|]. cbn. intros x Hcyc.
    pose proof (tc_first_step _ _ _ Hcyc) as (m & (l & Hl & _) & _).
    destruct (Hk x) as [Hx|Hx]; [by apply Hdom|by apply elem_of_nil in Hx|].
    by apply (inv_acyclic _ _ _ Hi x). }
  cbn [find_cycle_from].
  assert (is_Some (adj !! start)) as Hst by (apply Hdom, Hs; left).
  pose proof (proj2 (inv_dom _ _ _ Hi start) Hst) as [c Hc]. rewrite Hc.
  case_bool_decide as Hw.
  - apply IH; [done|intros; apply Hs; by right|]. intros n Hn.
    destruct (Hk n Hn) as [Hin|]; [|by right]. apply elem_of_cons in Hin as [->|]; [|by left].
    right. by eapply empty_stack_color.
  - assert (c = White) as -> by (by destruct (decide (c = White))).
    destruct (dfs_loop_spec (dfs_fuel adj keys) (<[start := Gray]> color) [(start, O)] [start])
      as (r & Hr & Hpost); [by apply inv_start| |].
    { unfold dfs_measure, dfs_fuel. cbn [sum_list_with].
      assert (sum_list_with (white_weight color) keys <= sum_list_with (node_weight adj) keys)%nat as Hle.
      { clear. induction keys; cbn [sum_list_with]; [done|]. unfold white_weight at 1. case_decide; lia. }
      rewrite (white_sum_take color Gray start keys) in Hle by (done || by apply Hdom).
      unfold entry_weight, node_weight in *. cbn [fst snd] in *. lia. }
    rewrite Hr. cbn [mbind option_bind]. destruct r as [cycle|color']; [by exists (Some cycle)|].
    destruct Hpost as [Hi' Hgrow]. apply IH; [done|intros; apply Hs; by right|]. intros n Hn.
    destruct (Hk n Hn) as [Hin|Hb].
    + apply elem_of_cons in Hin as [->|]; [|by left]. right.
      destruct (Hgrow start Gray) as (c' & Hc' & Hnw); [by rewrite lookup_insert_eq|done|].
      by eapply empty_stack_color.
    + right. destruct (Hgrow n Black) as (c' & Hc' & Hnw); [|done|by eapply empty_stack_color].
      rewrite lookup_insert_ne; [done|]. intros ->. unfold is_black in Hb. congruence.
Qed.
End dfs.

(** ** The adjacency map *)

Lemma entry_default_arc names adj a b :
  arc (foldl entry_default adj names) a b <-> arc adj a b.
Proof.
  revert adj. induction names as [|x names IH]; intros adj; [done|].
  cbn [foldl]. rewrite IH. unfold arc, entry_default. setoid_rewrite lookup_insert.
  case_decide; [|done]. subst. destruct (adj !! a); naive_solver set_solver.
Qed.

Lemma entry_default_dom names adj n :
  is_Some (foldl entry_default adj names !! n) <-> is_Some (adj !! n) \/ n ∈ names.
Proof.
  revert adj. induction names as [|x names IH]; intros adj; [set_solver|].
  cbn [foldl]. rewrite IH. unfold entry_default. rewrite lookup_insert_is_Some'. set_solver.
Qed.

Lemma push_arcs_arc arcs adj a b :
  arc (foldl push_arc adj arcs) a b <-> arc adj a b \/ (a, b) ∈ arcs.
Proof.
  revert adj. induction arcs as [|[x y] arcs IH]; intros adj; [set_solver|].
  cbn [foldl]. rewrite IH, elem_of_cons. unfold arc, push_arc. cbn [fst snd].
  setoid_rewrite lookup_insert. case_decide; [|naive_solver].
  subst. destruct (adj !! a); naive_solver set_solver.
Qed.

Lemma push_arcs_dom arcs adj n :
  is_Some (foldl push_arc adj arcs !! n) <-> is_Some (adj !! n) \/ n ∈ arcs.*1.
Proof.
  revert adj. induction arcs as [|[x y] arcs IH]; intros adj; [set_solver|].
  cbn [foldl]. rewrite IH. unfold push_arc. rewrite lookup_insert_is_Some'. set_solver.
Qed.

Lemma build_adj_arc names arcs a b : arc (build_adj names arcs) a b <-> (a, b) ∈ arcs.
Proof.
  unfold build_adj. rewrite push_arcs_arc, entry_default_arc.
  unfold arc. setoid_rewrite lookup_empty. naive_solver.
Qed.

Lemma build_adj_dom names arcs n :
  is_Some (build_adj names arcs !! n) <-> n ∈ names \/ n ∈ arcs.*1.
Proof.
  unfold build_adj. rewrite push_arcs_dom, entry_default_dom, lookup_empty.
  split; [intros [[[? ?]|]|]|intros []]; eauto; done.
Qed.

(** ** The search is a decision procedure *)

(** The directed graph of a list of arcs. *)
Definition arc_in (arcs : list (string * string)) (a b : string) : Prop := (a, b) ∈ arcs.

Definition cycle_verdict (arcs : list (string * string)) (r : option (list string)) : Prop :=
  match r with
  | Some cycle => is_cycle (arc_in arcs) cycle
  | None => acyclic (arc_in arcs)
  end.

Lemma is_cycle_ext (E E' : string -> string -> Prop) l :
  (forall a b, E a b -> E' a b) -> is_cycle E l -> is_cycle E' l.
Proof. intros H (x & p & -> & Hl). exists x, p. split; [done|]. intros i a b ? ?. by eapply H, Hl. Qed.

Lemma acyclic_ext (E E' : string -> string -> Prop) :
  (forall a b, E' a b -> E a b) -> acyclic E -> acyclic E'.
Proof. intros H Ha x Hx. apply (Ha x). by apply (tc_congruence id (R := E')). Qed.

Lemma is_cycle_not_acyclic E l : is_cycle E l -> ~ acyclic E.
Proof. intros (x & p & -> & Hl) Ha. apply (Ha x). by eapply linked_tc. Qed.

(** Totality, soundness and completeness of [find_cycle], for a set of arcs whose
    targets are declared nodes. *)
Lemma find_cycle_spec `{!HashOrder string} shapes arcs :
  (forall a b, (a, b) ∈ arcs -> is_Some (shapes !! b)) ->
  exists r, find_cycle shapes arcs = Some (Ok r) /\ cycle_verdict arcs r.
Proof.
  intros Hcl. unfold find_cycle. set (names := (hash_iter shapes).*1).
  set (adj := build_adj names arcs).
  assert (forall a b, arc adj a b <-> (a, b) ∈ arcs) as Harc by (intros; apply build_adj_arc).
  assert (forall n, n ∈ (hash_iter adj).*1 <-> is_Some (adj !! n)) as Hdom by apply elem_of_hash_keys.
  assert (forall a b, arc adj a b -> is_Some (adj !! b)) as Hclosed.
  { intros a b Hab. apply build_adj_dom. left. apply elem_of_hash_keys. apply (Hcl a). by apply Harc. }
  destruct (find_cycle_from_spec adj Hclosed (hash_iter adj).*1 (hash_iter_keys_nodup _) Hdom
              ((fun _ => White) <$> adj) (hash_iter adj).*1) as (r & -> & Hr).
  - constructor; cbn; try done.
    + intros n. by rewrite lookup_fmap, fmap_is_Some.
    + intros n. rewrite lookup_fmap. split; [by destruct (adj !! n)|]. intros H. by apply elem_of_nil in H.
    + apply NoDup_nil_2.
    + intros n m. unfold is_black. rewrite lookup_fmap. by destruct (adj !! n).
    + intros n. unfold is_black. rewrite lookup_fmap. by destruct (adj !! n).
  - done.
  - by left.
  - exists r. split; [done|]. destruct r as [cycle|]; cbn in *.
    + eapply is_cycle_ext; [|done]. intros a b. by apply Harc.
    + eapply acyclic_ext; [|done]. intros a b. by apply Harc.
Qed.

(** C21: on arcs that stay inside the declared nodes, the search returns (no
    missing key, no endless loop), its answer is [None] exactly when the directed
    graph is acyclic, and a reported path is a cycle of the graph; whatever the
    iteration order of the hash maps. *)
Theorem find_cycle_decides `{!HashOrder string} shapes arcs :
  (forall a b, (a, b) ∈ arcs -> is_Some (shapes !! b)) ->
  exists r, find_cycle shapes arcs = Some (Ok r) /\
    (r = None <-> acyclic (arc_in arcs)) /\
    (forall cycle, r = Some cycle -> is_cycle (arc_in arcs) cycle).
Proof.
  intros (r & Hr & Hv)%find_cycle_spec. exists r. split; [done|].
  destruct r as [cycle|]; cbn in Hv; split; try naive_solver.
  split; [done|]. intros Ha. by apply is_cycle_not_acyclic in Hv.
Qed.

Lemma find_cycle_decides_witness :
  let shapes := list_to_map [("a", single Host); ("b", single Host); ("c", single Host)] in
  let arcs := [("a", "b"); ("b", "c"); ("c", "b")] in
  @find_cycle some_order shapes arcs = Some (Ok (Some ["c"; "b"; "c"])) /\
  ~ acyclic (arc_in arcs).
Proof.
  intros shapes arcs. split; [vm_compute; reflexivity|].
  destruct (@find_cycle_decides some_order shapes arcs) as (r & Hr & Hn & _).
  { intros x y Hin. unfold arcs in Hin. rewrite !elem_of_cons, elem_of_nil in Hin.
    destruct Hin as [[= -> ->]|[[= -> ->]|[[= -> ->]|[]]]]; vm_compute; eauto. }
  rewrite <- Hn. intros ->. vm_compute in Hr. discriminate.
Defined.
