(* ===== verification/Graph.v ===== *)
(** * The structural validator (core/src/graph.rs, [GraphModel])

    Node shapes and edges, and [validate]: legality of names, reference
    integrity, rule 1 (an edge joins one host-facing and one target-facing
    endpoint), rule 2 (at most one edge per target-facing endpoint) and rule 3
    (no cycle, through Cycle.v).  The validator is proved total and equivalent
    to a declarative statement of the rules. *)

From S2P Require Import Prelude GraphTypes Cycle.
From stdpp Require Import relations.
#[local] Open Scope Z_scope.

(** ** The model *)

Record GraphModel := mkModel { shapes : gmap string NodeShape; edges : list EdgeSpec }.

Definition model_new : GraphModel := mkModel ∅ [].

Definition add_node (m : GraphModel) (name : string) (shape : NodeShape) : GraphModel :=
  mkModel (<[name := shape]> (shapes m)) (edges m).

Definition add_edge (m : GraphModel) (edge : EdgeSpec) : GraphModel :=
  mkModel (shapes m) (edges m ++ [edge]).

Inductive ResolveErr := ResolveNode | ResolveEndpoint.

Definition resolve (m : GraphModel) (addr : EndpointAddr) : ResolveErr + EndpointSpec :=
  match shapes m !! addr_node addr with
  | None => inl ResolveNode
  | Some shape =>
      match shape_endpoint shape (addr_endpoint addr) with
      | None => inl ResolveEndpoint
      | Some ep => inr ep
      end
  end.

Definition reference_error (edge : Z) (addr : EndpointAddr) (e : ResolveErr) : ValidationError :=
  match e with
  | ResolveNode => UnknownNode edge (addr_node addr)
  | ResolveEndpoint => UnknownEndpoint edge addr
  end.

(** ** Name checks *)

(** [if b { errors.push(e) }]. *)
Definition push_if (b : bool) (e : ValidationError) : list ValidationError := if b then [e] else [].

Definition is_empty_str (s : string) : bool := bool_decide (s = "").

Definition node_name_errors (node : string) : list ValidationError :=
  push_if (is_empty_str node) (EmptyName node) ++
  push_if (negb (is_empty_str node) && trim_is_empty node) (BlankName node None) ++
  push_if (contains_char slash node) (InvalidName node None) ++
  push_if (slen node >? MAX_NAME_LEN) (NameTooLong node None (slen node) MAX_NAME_LEN).

Definition endpoint_name_errors (node name : string) : list ValidationError :=
  push_if (contains_char slash name) (InvalidName node (Some name)) ++
  push_if (negb (is_empty_str name) && trim_is_empty name) (BlankName node (Some name)) ++
  push_if (slen name >? MAX_NAME_LEN) (NameTooLong node (Some name) (slen name) MAX_NAME_LEN).

(** The endpoint loop, with its [seen] set. *)
Fixpoint endpoint_errors (node : string) (seen : gset string) (eps : list EndpointSpec)
  : list ValidationError :=
  match eps with
  | [] => []
  | ep :: eps =>
      endpoint_name_errors node (ep_name ep) ++
      push_if (bool_decide (ep_name ep ∈ seen)) (DuplicateEndpoint node (ep_name ep)) ++
      endpoint_errors node ({[ep_name ep]} ∪ seen) eps
  end.

Definition shape_errors (entry : string * NodeShape) : list ValidationError :=
  node_name_errors entry.1 ++ endpoint_errors entry.1 ∅ (shape_endpoints entry.2).

(** ** Edge checks *)

(** The verdict on one edge: the error that skips it, or its host-facing and
    target-facing ends. *)
Definition edge_verdict (m : GraphModel) (i : Z) (edge : EdgeSpec)
  : ValidationError + (EndpointAddr * EndpointAddr) :=
  match resolve m (edge_a edge), resolve m (edge_b edge) with
  | inr a, inr b =>
      match ep_facing a, ep_facing b with
      | Host, Target => inr (edge_a edge, edge_b edge)
      | Target, Host => inr (edge_b edge, edge_a edge)
      | facing, _ => inl (SameFacingEdge i facing)
      end
  | inl e, _ => inl (reference_error i (edge_a edge) e)
  | _, inl e => inl (reference_error i (edge_b edge) e)
  end.

Record EdgeScan := mkScan {
  scan_errors : list ValidationError;
  target_edge_count : gmap EndpointAddr Z;
  arcs : list (string * string)
}.

(** One turn of the edge loop. *)
Definition edge_step (st : EdgeScan) (v : ValidationError + (EndpointAddr * EndpointAddr)) : EdgeScan :=
  match v with
  | inl e => mkScan (scan_errors st ++ [e]) (target_edge_count st) (arcs st)
  | inr (host_addr, target_addr) =>
      mkScan (scan_errors st)
             (<[target_addr := default 0 (target_edge_count st !! target_addr) + 1]> (target_edge_count st))
             (arcs st ++ [(addr_node host_addr, addr_node target_addr)])
  end.

Definition verdicts (m : GraphModel) : list (ValidationError + (EndpointAddr * EndpointAddr)) :=
  imap (fun i e => edge_verdict m (Z.of_nat i) e) (edges m).

Definition scan_edges (m : GraphModel) : EdgeScan :=
  foldl edge_step (mkScan [] ∅ []) (verdicts m).

(** Rule 2, over the tallies. *)
Definition oversubscribed (entry : EndpointAddr * Z) : list ValidationError :=
  push_if (entry.2 >? 1) (TargetEndpointOversubscribed entry.1 entry.2).

(** ** The validator *)

Section validate.
Context `{!HashOrder string, !HashOrder EndpointAddr}.

Definition validate (m : GraphModel) : option (exec unit (list ValidationError)) :=
  let names := mjoin (shape_errors <$> hash_iter (shapes m)) in
  let scan := scan_edges m in
  let rule2 := mjoin (oversubscribed <$> hash_iter (target_edge_count scan)) in
  cycle ← find_cycle (shapes m) (arcs scan);
  Some (c ← cycle;
        Ok (names ++ scan_errors scan ++ rule2 ++
            match c with Some nodes => [Cycle nodes] | None => [] end)).

Definition check (m : GraphModel) : option (exec (list ValidationError) unit) :=
  r ← validate m;
  Some (match r with
        | Ok [] => Ok tt
        | Ok errors => Err errors
        | Err _ | Panic => Panic
        end).
End validate.

(** ** The rules, declaratively *)

(** A legal name: no [/], not blank, at most [MAX_NAME_LEN] bytes. *)
Definition legal_name (s : string) : Prop :=
  contains_char slash s = false /\ (s = "" \/ trim_is_empty s = false) /\ slen s <= MAX_NAME_LEN.

Definition shape_legal (node : string) (shape : NodeShape) : Prop :=
  node <> "" /\ legal_name node /\
  Forall legal_name (ep_name <$> shape_endpoints shape) /\
  NoDup (ep_name <$> shape_endpoints shape).

(** [edge] runs from the host-facing [h] to the target-facing [t], both declared. *)
Definition joins (m : GraphModel) (edge : EdgeSpec) (h t : EndpointAddr) : Prop :=
  ((h, t) = (edge_a edge, edge_b edge) \/ (h, t) = (edge_b edge, edge_a edge)) /\
  exists eh et, resolve m h = inr eh /\ resolve m t = inr et /\
                ep_facing eh = Host /\ ep_facing et = Target.

(** The node graph: data flows from the host-facing node to the target-facing one. *)
Definition node_arc (m : GraphModel) (a b : string) : Prop :=
  exists edge h t, edge ∈ edges m /\ joins m edge h t /\ a = addr_node h /\ b = addr_node t.

Record well_formed (m : GraphModel) : Prop := {
  wf_names : forall node shape, shapes m !! node = Some shape -> shape_legal node shape;
  wf_rule1 : forall edge, edge ∈ edges m -> exists h t, joins m edge h t;
  wf_rule2 : forall i j ei ej hi hj t,
    edges m !! i = Some ei -> edges m !! j = Some ej ->
    joins m ei hi t -> joins m ej hj t -> i = j;
  wf_rule3 : acyclic (node_arc m)
}.

(** ** Lemmas: names *)

Lemma push_if_nil b e : push_if b e = [] <-> b = false.
Proof. by destruct b. Qed.

Lemma is_empty_str_spec s : is_empty_str s = true <-> s = "".
Proof. apply bool_decide_eq_true. Qed.

Lemma not_blank s : negb (is_empty_str s) && trim_is_empty s = false <-> s = "" \/ trim_is_empty s = false.
Proof.
  rewrite <- is_empty_str_spec. destruct (is_empty_str s), (trim_is_empty s); naive_solver.
Qed.

Lemma name_fits s : (slen s >? MAX_NAME_LEN) = false <-> slen s <= MAX_NAME_LEN.
Proof. rewrite Z.gtb_ltb. apply Z.ltb_ge. Qed.

Lemma app_nil_iff {A} (l k : list A) : l ++ k = [] <-> l = [] /\ k = [].
Proof. split; [apply app_nil|]. by intros [-> ->]. Qed.

Lemma mjoin_nil {A} (ls : list (list A)) : mjoin ls = [] <-> Forall (fun l => l = []) ls.
Proof.
  induction ls as [|l ls IH]; cbn; [by split|].
  rewrite app_nil_iff, Forall_cons. by rewrite <- IH.
Qed.

Lemma node_name_errors_nil node : node_name_errors node = [] <-> node <> "" /\ legal_name node.
Proof.
  unfold node_name_errors, legal_name.
  rewrite !app_nil_iff, !push_if_nil, not_blank, name_fits, <- is_empty_str_spec, not_true_iff_false.
  tauto.
Qed.

Lemma endpoint_name_errors_nil node name : endpoint_name_errors node name = [] <-> legal_name name.
Proof.
  unfold endpoint_name_errors, legal_name. by rewrite !app_nil_iff, !push_if_nil, not_blank, name_fits.
Qed.

Lemma endpoint_errors_nil node seen eps :
  endpoint_errors node seen eps = [] <->
  Forall legal_name (ep_name <$> eps) /\ NoDup (ep_name <$> eps) /\
  forall x, x ∈ seen -> x ∉ ep_name <$> eps.
Proof.
  revert seen. induction eps as [|ep eps IH]; intros seen; cbn [endpoint_errors].
  { split; [intros _|done]. split_and!; [by constructor|constructor|set_solver]. }
  rewrite !app_nil_iff, endpoint_name_errors_nil, push_if_nil, bool_decide_eq_false, IH, fmap_cons.
  rewrite Forall_cons, NoDup_cons. setoid_rewrite elem_of_cons. set_solver.
Qed.

Lemma shape_errors_nil node shape : shape_errors (node, shape) = [] <-> shape_legal node shape.
Proof.
  unfold shape_errors, shape_legal. cbn [fst snd].
  rewrite app_nil_iff, node_name_errors_nil, endpoint_errors_nil. set_solver.
Qed.

(** ** Lemmas: edges *)

Lemma edge_verdict_joins m i edge h t : edge_verdict m i edge = inr (h, t) <-> joins m edge h t.
Proof.
  unfold edge_verdict, joins. split.
  - destruct (resolve m (edge_a edge)) as [?|a] eqn:Ea, (resolve m (edge_b edge)) as [?|b] eqn:Eb; try done.
    destruct (ep_facing a) eqn:Fa, (ep_facing b) eqn:Fb; try done; intros [= <- <-]; eauto 10.
  - intros ([[= -> ->]|[= -> ->]] & eh & et & -> & -> & -> & ->); done.
Qed.

Lemma joins_inj m edge h t h' t' : joins m edge h t -> joins m edge h' t' -> h = h' /\ t = t'.
Proof. rewrite <- !(edge_verdict_joins m 0). intros -> [= -> ->]. done. Qed.

Lemma joins_resolved m edge h t : joins m edge h t -> is_Some (shapes m !! addr_node t).
Proof.
  intros (_ & eh & et & _ & Ht & _). unfold resolve in Ht. by destruct (shapes m !! addr_node t).
Qed.

(** The edges that pass rule 1, oriented, and the errors of the others. *)
Definition oriented (m : GraphModel) : list (EndpointAddr * EndpointAddr) :=
  omap (fun v => match v with inr p => Some p | inl _ => None end) (verdicts m).

Definition edge_errors (m : GraphModel) : list ValidationError :=
  omap (fun v => match v with inl e => Some e | inr _ => None end) (verdicts m).

(** The tally of a list of target ends. *)
Definition tally (count : gmap EndpointAddr Z) (t : EndpointAddr) : gmap EndpointAddr Z :=
  <[t := default 0 (count !! t) + 1]> count.

Lemma scan_edges_eq m :
  scan_edges m = mkScan (edge_errors m) (foldl tally ∅ (oriented m).*2)
                        ((fun p => (addr_node p.1, addr_node p.2)) <$> oriented m).
Proof.
  unfold scan_edges, edge_errors, oriented.
  generalize (verdicts m) as vs. intros vs.
  assert (forall st, foldl edge_step st vs =
    mkScan (scan_errors st ++ omap (fun v => match v with inl e => Some e | inr _ => None end) vs)
           (foldl tally (target_edge_count st)
                  (omap (fun v => match v with inr p => Some p | inl _ => None end) vs).*2)
           (arcs st ++ ((fun p => (addr_node p.1, addr_node p.2)) <$>
                        omap (fun v => match v with inr p => Some p | inl _ => None end) vs))) as H.
  { induction vs as [|v vs IH]; intros [es cs ar]; cbn.
    - by rewrite !app_nil_r.
    - rewrite IH. destruct v as [e|[h t]]; cbn; by rewrite <- ?app_assoc. }
  by rewrite H.
Qed.

Definition occurrences (t : EndpointAddr) (ts : list EndpointAddr) : Z :=
  Z.of_nat (length (filter (eq t) ts)).

Lemma tally_lookup ts count t :
  foldl tally count ts !! t =
    if decide (t ∈ ts) then Some (default 0 (count !! t) + occurrences t ts) else count !! t.
Proof.
  revert count. induction ts as [|x ts IH]; intros count; [done|].
  cbn [foldl]. rewrite IH. unfold tally, occurrences. rewrite filter_cons.
  destruct (decide (t = x)) as [->|Hne].
  - rewrite lookup_insert_eq. rewrite (decide_True (P := x ∈ x :: ts)) by left. cbn [default id length].
    case_decide as Hin; [f_equal; lia|].
    assert (filter (eq x) ts = []) as ->.
    { clear IH. induction ts as [|y ts IHt]; [done|]. rewrite filter_cons_False by set_solver. apply IHt. set_solver. }
    f_equal; cbn; lia.
  - rewrite lookup_insert_ne by done. repeat case_decide; try done; set_solver.
Qed.

Lemma NoDup_occurrences ts : NoDup ts <-> forall t, t ∈ ts -> occurrences t ts <= 1.
Proof.
  induction ts as [|x ts IH]; [split; [set_solver|constructor]|].
  rewrite NoDup_cons, IH. unfold occurrences. setoid_rewrite filter_cons. split.
  - intros [Hx Hle] t Ht. case_decide as E; [subst t|].
    + cbn. destruct (filter (eq x) ts) as [|y l] eqn:F; [cbn; lia|].
      exfalso. apply Hx. assert (y ∈ filter (eq x) ts) as Hy by (rewrite F; left).
      apply list_elem_of_filter in Hy as [<- ?]. done.
    + apply Hle. set_solver.
  - intros Hle. split.
    + intros Hx. specialize (Hle x ltac:(left)). rewrite decide_True in Hle by done.
      assert (x ∈ filter (eq x) ts) as Hf by (by apply list_elem_of_filter).
      destruct (filter (eq x) ts); [by apply elem_of_nil in Hf|]. cbn in Hle. lia.
    + intros t Ht. specialize (Hle t ltac:(by right)). case_decide; cbn in Hle; lia.
Qed.

Lemma verdicts_lookup m i : verdicts m !! i = edge_verdict m (Z.of_nat i) <$> edges m !! i.
Proof. unfold verdicts. by rewrite list_lookup_imap. Qed.

Lemma elem_of_oriented m h t :
  (h, t) ∈ oriented m <-> exists edge, edge ∈ edges m /\ joins m edge h t.
Proof.
  unfold oriented. rewrite list_elem_of_omap. split.
  - intros ([|p] & Hin & [= ->]). apply list_elem_of_lookup in Hin as [i Hi].
    rewrite verdicts_lookup in Hi. destruct (edges m !! i) as [edge|] eqn:E; [|done].
    injection Hi as Hi. exists edge. split; [by eapply list_elem_of_lookup_2|]. by eapply edge_verdict_joins.
  - intros (edge & Hin & Hj). apply list_elem_of_lookup in Hin as [i Hi]. exists (inr (h, t)).
    split; [|done]. apply list_elem_of_lookup. exists i. rewrite verdicts_lookup, Hi. cbn.
    f_equal. by apply edge_verdict_joins.
Qed.

Lemma edge_errors_nil m :
  edge_errors m = [] <-> forall edge, edge ∈ edges m -> exists h t, joins m edge h t.
Proof.
  unfold edge_errors. split.
  - intros H edge Hin. apply list_elem_of_lookup in Hin as [i Hi].
    destruct (edge_verdict m (Z.of_nat i) edge) as [e|[h t]] eqn:E.
    + assert (e ∈ @nil ValidationError) as Hbad; [|by apply elem_of_nil in Hbad].
      rewrite <- H. apply list_elem_of_omap. exists (inl e). split; [|done].
      apply list_elem_of_lookup. exists i. by rewrite verdicts_lookup, Hi; cbn; rewrite E.
    + exists h, t. by eapply edge_verdict_joins.
  - intros H. destruct (omap _ (verdicts m)) as [|e l] eqn:F; [done|].
    assert (e ∈ e :: l) as He by left. rewrite <- F in He.
    apply list_elem_of_omap in He as (v & Hv & Hve). apply list_elem_of_lookup in Hv as [i Hi].
    rewrite verdicts_lookup in Hi. destruct (edges m !! i) as [edge|] eqn:E; [|done].
    injection Hi as Hi. destruct (H edge) as (h & t & Hj); [by eapply list_elem_of_lookup_2|].
    apply (edge_verdict_joins m (Z.of_nat i)) in Hj. rewrite Hj in Hi. subst v. done.
Qed.

Lemma NoDup_omap_iff {A B} (f : A -> option B) (l : list A) :
  NoDup (omap f l) <->
  forall i j x, l !! i ≫= f = Some x -> l !! j ≫= f = Some x -> i = j.
Proof.
  induction l as [|a l IH]; [split; [done|intros _; constructor]|].
  assert (forall x, x ∈ omap f l <-> exists i, l !! i ≫= f = Some x) as Hin.
  { intros x. rewrite list_elem_of_omap. setoid_rewrite list_elem_of_lookup. split.
    - intros (y & [i Hi] & Hy). exists i. by rewrite Hi.
    - intros [i Hi]. destruct (l !! i) as [y|] eqn:E; [|done]. eauto. }
  cbn [omap list_omap]. destruct (f a) as [b|] eqn:Ef.
  - rewrite NoDup_cons, IH, Hin. split.
    + intros [Hb Hl] [|i] [|j] x; cbn; rewrite ?Ef; intros H1 H2; simplify_eq; try done.
      * destruct Hb. by exists j.
      * destruct Hb. by exists i.
      * f_equal. by eapply Hl.
    + intros H. split.
      * intros [i Hi]. by specialize (H O (S i) b Ef Hi).
      * intros i j x H1 H2. by specialize (H (S i) (S j) x H1 H2) as [= ->].
  - rewrite IH. split.
    + intros Hl [|i] [|j] x; cbn; rewrite ?Ef; intros H1 H2; simplify_eq; try done. f_equal. by eapply Hl.
    + intros H i j x H1 H2. by specialize (H (S i) (S j) x H1 H2) as [= ->].
Qed.

Lemma rule2_iff m :
  NoDup (oriented m).*2 <->
  forall i j ei ej hi hj t, edges m !! i = Some ei -> edges m !! j = Some ej ->
    joins m ei hi t -> joins m ej hj t -> i = j.
Proof.
  assert ((oriented m).*2 =
    omap (fun v => match v with inr p => Some p.2 | inl _ => None end) (verdicts m)) as ->.
  { unfold oriented. induction (verdicts m) as [|[|]]; cbn; congruence. }
  rewrite NoDup_omap_iff. setoid_rewrite verdicts_lookup. split.
  - intros H i j ei ej hi hj t Hi Hj Ji Jj. apply (H i j t).
    + apply (edge_verdict_joins m (Z.of_nat i)) in Ji. rewrite Hi. cbn. by rewrite Ji.
    + apply (edge_verdict_joins m (Z.of_nat j)) in Jj. rewrite Hj. cbn. by rewrite Jj.
  - intros H i j t. destruct (edges m !! i) as [ei|] eqn:Ei, (edges m !! j) as [ej|] eqn:Ej; try done.
    cbn. destruct (edge_verdict m _ ei) as [|[hi ti]] eqn:Vi, (edge_verdict m _ ej) as [|[hj tj]] eqn:Vj;
      try done. cbn. intros [= ->] [= ->].
    eapply (H i j); [done|done|by eapply edge_verdict_joins|by eapply edge_verdict_joins].
Qed.

Lemma node_arc_iff m a b :
  arc_in ((fun p => (addr_node p.1, addr_node p.2)) <$> oriented m) a b <-> node_arc m a b.
Proof.
  unfold arc_in, node_arc. rewrite list_elem_of_fmap. split.
  - intros ([h t] & [= -> ->] & Hin). apply elem_of_oriented in Hin as (edge & Hin & Hj). naive_solver.
  - intros (edge & h & t & Hin & Hj & -> & ->). exists (h, t). split; [done|].
    apply elem_of_oriented. eauto.
Qed.

(** ** The validator decides the rules *)

Section theorems.
Context `{!HashOrder string, !HashOrder EndpointAddr}.

Lemma oversubscribed_nil m :
  mjoin (oversubscribed <$> hash_iter (target_edge_count (scan_edges m))) = [] <-> NoDup (oriented m).*2.
Proof.
  rewrite mjoin_nil, Forall_fmap, Forall_forall, NoDup_occurrences, scan_edges_eq. cbn [target_edge_count].
  split.
  - intros H t Ht. specialize (H (t, occurrences t (oriented m).*2)).
    unfold compose, oversubscribed in H. rewrite push_if_nil, Z.gtb_ltb, Z.ltb_ge in H. apply H.
    apply elem_of_hash_iter. rewrite tally_lookup, decide_True by done. by rewrite lookup_empty.
  - intros H [t n] Hin. apply elem_of_hash_iter in Hin. rewrite tally_lookup in Hin.
    case_decide as Ht; [|by rewrite lookup_empty in Hin]. rewrite lookup_empty in Hin. injection Hin as <-.
    unfold compose, oversubscribed. rewrite push_if_nil, Z.gtb_ltb, Z.ltb_ge. by apply H.
Qed.

Lemma names_nil m :
  mjoin (shape_errors <$> hash_iter (shapes m)) = [] <->
  forall node shape, shapes m !! node = Some shape -> shape_legal node shape.
Proof.
  rewrite mjoin_nil, Forall_fmap, Forall_forall. split.
  - intros H node shape Hs. apply shape_errors_nil, (H (node, shape)). by apply elem_of_hash_iter.
  - intros H [node shape] Hin. apply shape_errors_nil, H. by apply elem_of_hash_iter.
Qed.

Lemma validate_run m :
  exists c, cycle_verdict (arcs (scan_edges m)) c /\
  validate m = Some (Ok (mjoin (shape_errors <$> hash_iter (shapes m)) ++ scan_errors (scan_edges m) ++
    mjoin (oversubscribed <$> hash_iter (target_edge_count (scan_edges m))) ++
    match c with Some nodes => [Cycle nodes] | None => [] end)).
Proof.
  destruct (find_cycle_spec (shapes m) (arcs (scan_edges m))) as (c & Hc & Hv).
  { intros a b Hab. rewrite scan_edges_eq in Hab. apply node_arc_iff in Hab as (e & h & t & _ & Hj & _ & ->).
    by eapply joins_resolved. }
  exists c. split; [done|]. unfold validate. by rewrite Hc.
Qed.

Lemma verdict_acyclic m c :
  cycle_verdict (arcs (scan_edges m)) c -> c = None <-> acyclic (node_arc m).
Proof.
  rewrite scan_edges_eq. cbn [arcs]. intros Hv.
  assert (acyclic (node_arc m) <->
    acyclic (arc_in ((fun p => (addr_node p.1, addr_node p.2)) <$> oriented m))) as ->.
  { split; apply acyclic_ext; intros a b; by rewrite node_arc_iff. }
  destruct c as [cycle|]; cbn in Hv; [|done]. split; [done|].
  intros Ha. by apply is_cycle_not_acyclic in Hv.
Qed.

(** Which check an error comes from. *)
Inductive family := FName | FEdge | FRule2 | FCycle | FConfig.

Definition family_of (e : ValidationError) : family :=
  match e with
  | InvalidName _ _ | EmptyName _ | BlankName _ _ | NameTooLong _ _ _ _ | DuplicateEndpoint _ _ => FName
  | UnknownNode _ _ | UnknownEndpoint _ _ | SameFacingEdge _ _ => FEdge
  | TargetEndpointOversubscribed _ _ => FRule2
  | Cycle _ => FCycle
  | _ => FConfig
  end.

Lemma elem_of_push_if e b e' : e ∈ push_if b e' <-> b = true /\ e = e'.
Proof. destruct b; cbn; set_solver. Qed.

Lemma family_names m e : e ∈ mjoin (shape_errors <$> hash_iter (shapes m)) -> family_of e = FName.
Proof.
  intros (es & He & Hes)%list_elem_of_join. apply list_elem_of_fmap in Hes as ([node shape] & -> & _).
  unfold shape_errors, node_name_errors in He. cbn [fst snd] in He.
  rewrite !elem_of_app, !elem_of_push_if in He.
  destruct He as [[[_ ->]|[[_ ->]|[[_ ->]|[_ ->]]]]|He]; [done..|]. revert He.
  generalize (∅ : gset string) as seen. induction (shape_endpoints shape) as [|ep eps IH]; intros seen He.
  - by apply elem_of_nil in He.
  - cbn [endpoint_errors] in He. unfold endpoint_name_errors in He.
    rewrite !elem_of_app, !elem_of_push_if in He.
    destruct He as [[[_ ->]|[[_ ->]|[_ ->]]]|[[_ ->]|He]]; [done..|eauto].
Qed.

Lemma elem_of_edge_errors m e :
  e ∈ edge_errors m <->
  exists i edge, edges m !! i = Some edge /\ edge_verdict m (Z.of_nat i) edge = inl e.
Proof.
  unfold edge_errors. rewrite list_elem_of_omap. setoid_rewrite list_elem_of_lookup.
  setoid_rewrite verdicts_lookup. split.
  - intros ([e'|] & [i Hi] & [= ->]). destruct (edges m !! i) as [edge|] eqn:E; [|done].
    injection Hi as Hi. eauto.
  - intros (i & edge & Hi & He). exists (inl e). split; [|done]. exists i. rewrite Hi. cbn. by rewrite He.
Qed.

Lemma family_edges m e : e ∈ edge_errors m -> family_of e = FEdge.
Proof.
  intros (i & edge & _ & He)%elem_of_edge_errors. unfold edge_verdict in He.
  destruct (resolve m (edge_a edge)) as [[]|a], (resolve m (edge_b edge)) as [[]|b]; simplify_eq/=; try done.
  destruct (ep_facing a), (ep_facing b); by simplify_eq/=.
Qed.

Lemma elem_of_rule2 m e :
  e ∈ mjoin (oversubscribed <$> hash_iter (target_edge_count (scan_edges m))) <->
  exists t, e = TargetEndpointOversubscribed t (occurrences t (oriented m).*2) /\
            1 < occurrences t (oriented m).*2.
Proof.
  rewrite list_elem_of_join. setoid_rewrite list_elem_of_fmap. rewrite scan_edges_eq. cbn [target_edge_count].
  split.
  - intros (es & He & [t n] & -> & Hin). unfold oversubscribed in He. cbn [fst snd] in He.
    rewrite elem_of_push_if, Z.gtb_lt in He. destruct He as [Hn ->].
    apply elem_of_hash_iter in Hin. rewrite tally_lookup, lookup_empty in Hin.
    case_decide; [|done]. injection Hin as <-. eauto.
  - intros (t & -> & Hn). eexists. split; [|exists (t, occurrences t (oriented m).*2); split; [done|]].
    + unfold oversubscribed. cbn [fst snd]. rewrite elem_of_push_if, Z.gtb_lt. done.
    + apply elem_of_hash_iter. rewrite tally_lookup, lookup_empty, decide_True; [done|].
      unfold occurrences in Hn. destruct (filter (eq t) (oriented m).*2) as [|x l] eqn:F; [cbn in Hn; lia|].
      assert (x ∈ filter (eq t) (oriented m).*2) as Hx by (rewrite F; left).
      by apply list_elem_of_filter in Hx as [<- ?].
Qed.

Lemma resolve_node_missing m a : resolve m a = inl ResolveNode -> shapes m !! addr_node a = None.
Proof. unfold resolve. destruct (shapes m !! _) as [s|]; [|done]. by destruct (shape_endpoint s _). Qed.

Lemma unknown_node_verdict m k edge i node :
  edge_verdict m k edge = inl (UnknownNode i node) ->
  i = k /\ shapes m !! node = None /\ (node = addr_node (edge_a edge) \/ node = addr_node (edge_b edge)).
Proof.
  unfold edge_verdict. intros Hv.
  destruct (resolve m (edge_a edge)) as [[]|a] eqn:Ea; simplify_eq/=.
  - apply resolve_node_missing in Ea. auto.
  - destruct (resolve m (edge_b edge)) as [[]|b] eqn:Eb; simplify_eq/=.
    + apply resolve_node_missing in Eb. auto.
    + destruct (ep_facing a), (ep_facing b); by simplify_eq/=.
Qed.

(** An error of the full list comes from the check its family names. *)
Lemma error_origin m c e :
  e ∈ mjoin (shape_errors <$> hash_iter (shapes m)) ++ scan_errors (scan_edges m) ++
      mjoin (oversubscribed <$> hash_iter (target_edge_count (scan_edges m))) ++
      match c with Some nodes => [Cycle nodes] | None => [] end <->
  match family_of e with
  | FName => e ∈ mjoin (shape_errors <$> hash_iter (shapes m))
  | FEdge => e ∈ edge_errors m
  | FRule2 => exists t, e = TargetEndpointOversubscribed t (occurrences t (oriented m).*2) /\
                        1 < occurrences t (oriented m).*2
  | FCycle => exists nodes, c = Some nodes /\ e = Cycle nodes
  | FConfig => False
  end.
Proof.
  rewrite !elem_of_app, elem_of_rule2. rewrite scan_edges_eq at 1. cbn [scan_errors].
  pose proof (family_names m e) as Hn. pose proof (family_edges m e) as He.
  assert (e ∈ match c with Some nodes => [Cycle nodes] | None => [] end <->
          exists nodes, c = Some nodes /\ e = Cycle nodes) as -> by (destruct c; set_solver).
  assert ((exists t, e = TargetEndpointOversubscribed t (occurrences t (oriented m).*2) /\
                     1 < occurrences t (oriented m).*2) -> family_of e = FRule2) as Hr
    by (by intros (t & -> & _)).
  assert ((exists nodes, c = Some nodes /\ e = Cycle nodes) -> family_of e = FCycle) as Hc
    by (by intros (t & _ & ->)).
  destruct (family_of e); split; try tauto; intros H; destruct_or!; auto; by (apply Hn in H || apply He in H || apply Hr in H || apply Hc in H).
Qed.

Lemma validate_spec m :
  exists errors, validate m = Some (Ok errors) /\ (errors = [] <-> well_formed m).
Proof.
  destruct (validate_run m) as (c & Hc & ->). eexists. split; [done|].
  apply verdict_acyclic in Hc. rewrite !app_nil_iff, names_nil, oversubscribed_nil, rule2_iff.
  rewrite scan_edges_eq at 1. cbn [scan_errors]. rewrite edge_errors_nil.
  assert (match c with Some nodes => [Cycle nodes] | None => [] end = [] <-> acyclic (node_arc m)) as ->
    by (rewrite <- Hc; by destruct c).
  split; [intros (? & ? & ? & ?); by constructor|]. by intros [].
Qed.

(** C16: validation always returns a list of errors, and the list is empty exactly
    when the graph obeys the rules: legal, locally unique names; every edge joins
    a declared host-facing endpoint to a declared target-facing one; no
    target-facing endpoint has two edges; the node graph is acyclic.  This for
    every hash-map iteration order. *)
Theorem validate_decides m :
  exists errors, validate m = Some (Ok errors) /\ (errors = [] <-> well_formed m).
Proof. apply validate_spec. Qed.

(** The reported violations are true of the graph: an oversubscription names
    a target-facing endpoint with its exact number of edges, a reported cycle is
    a cycle of the node graph, and an edge error carries the index of an edge
    that joins nothing. *)
Theorem validate_reports_truthfully m errors :
  validate m = Some (Ok errors) ->
  (forall t n, TargetEndpointOversubscribed t n ∈ errors <-> n = occurrences t (oriented m).*2 /\ 1 < n) /\
  (forall nodes, Cycle nodes ∈ errors -> is_cycle (node_arc m) nodes) /\
  (forall i f, SameFacingEdge i f ∈ errors ->
     exists edge a b, edges m !! Z.to_nat i = Some edge /\
       resolve m (edge_a edge) = inr a /\ resolve m (edge_b edge) = inr b /\
       ep_facing a = f /\ ep_facing b = f) /\
  (forall i node, UnknownNode i node ∈ errors ->
     exists edge, edges m !! Z.to_nat i = Some edge /\ shapes m !! node = None /\
       (node = addr_node (edge_a edge) \/ node = addr_node (edge_b edge))).
Proof.
  destruct (validate_run m) as (c & Hc & ->). intros [= <-]. setoid_rewrite error_origin. cbn [family_of].
  split_and!.
  - intros t n. naive_solver.
  - intros nodes (nodes' & -> & [= ->]). cbn in Hc. rewrite scan_edges_eq in Hc. cbn [arcs] in Hc.
    eapply is_cycle_ext; [|done]. intros a b. by rewrite node_arc_iff.
  - intros i f (k & edge & Hk & Hv)%elem_of_edge_errors. unfold edge_verdict in Hv.
    destruct (resolve m (edge_a edge)) as [[]|a] eqn:Ea, (resolve m (edge_b edge)) as [[]|b] eqn:Eb;
      simplify_eq/=. destruct (ep_facing a) eqn:Fa, (ep_facing b) eqn:Fb; simplify_eq/=;
      rewrite Nat2Z.id; eauto 10.
  - intros i node (k & edge & Hk & Hv)%elem_of_edge_errors. exists edge.
    apply unknown_node_verdict in Hv as (-> & Hs & Hn). by rewrite Nat2Z.id.
Qed.
End theorems.

(** Two serial nodes feeding one pty: rule 2 is broken. *)
Definition two_producers : GraphModel :=
  add_edge (add_edge
    (add_node (add_node (add_node model_new "s1" (single Host)) "s2" (single Host)) "p" (single Target))
    (edge_new (addr_of_node "s1") (addr_of_node "p")))
    (edge_new (addr_of_node "p") (addr_of_node "s2")).

Lemma validate_reports_truthfully_witness :
  exists errors, @validate some_order some_order two_producers = Some (Ok errors) /\
    TargetEndpointOversubscribed (addr_of_node "p") 2 ∈ errors.
Proof.
  eexists. split; [vm_compute; reflexivity|].
  eapply (@validate_reports_truthfully some_order some_order two_producers); [vm_compute; reflexivity|].
  vm_compute. split; reflexivity.
Defined.
