(* ===== verification/IpAddr.v ===== *)
(** * Loopback addresses (core/src/config.rs, [is_loopback_addr])

    The test that keeps a leg's TCP socket on the local machine, with the part of
    the standard library it calls: [str::parse::<IpAddr>] (the recursive-descent
    reader of [core::net::parser]) and [IpAddr::is_loopback]. *)

From Stdlib Require Import Strings.String Strings.Ascii.
From S2P Require Import Prelude GraphTypes.

(** ** The standard library's address reader

    A reader takes the remaining bytes and returns a value with what is left, or
    [None] with the input untouched ([read_atomically]). *)

Definition reader (A : Type) := list byte -> option (A * list byte).

(** [read_given_char]. *)
Definition read_given_char (c : byte) : reader unit := fun s =>
  match s with
  | b :: s => if bool_decide (b = c) then Some (tt, s) else None
  | [] => None
  end.

(** [char::to_digit(radix)] for an ASCII character. *)
Definition to_digit (radix : Z) (b : byte) : option Z :=
  let v := bval b in
  let d := if (0x30 <=? v) && (v <=? 0x39) then Some (v - 0x30)
           else if (0x61 <=? v) && (v <=? 0x7a) then Some (v - 0x61 + 10)
           else if (0x41 <=? v) && (v <=? 0x5a) then Some (v - 0x41 + 10)
           else None in
  match d with
  | Some d => if d <? radix then Some d else None
  | None => None
  end.

(** The digit loop of [read_number]: at most [max_digits] digits, one more
    abandons the number. *)
Fixpoint read_digits (radix : Z) (max_digits : nat) (acc : Z) (s : list byte)
  : option (Z * list byte) :=
  match s with
  | b :: s' =>
      match to_digit radix b with
      | Some d =>
          match max_digits with
          | O => None
          | S n => read_digits radix n (acc * radix + d) s'
          end
      | None => Some (acc, s)
      end
  | [] => Some (acc, [])
  end.

(** [read_number(radix, Some(max_digits), allow_zero_prefix)] into a type with
    the given maximum. *)
Definition read_number (radix : Z) (max_digits : nat) (allow_zero_prefix : bool) (max : Z)
  : reader Z := fun s =>
  match read_digits radix max_digits 0 s with
  | None => None
  | Some (v, rest) =>
      let digit_count := (length s - length rest)%nat in
      if (digit_count =? 0)%nat then None
      else if negb allow_zero_prefix && bool_decide (head s = Some x30) && (1 <? digit_count)%nat then None
      else if v <=? max then Some (v, rest) else None
  end.

(** [read_separator(sep, index, inner)]. *)
Definition read_separator {A} (sep : byte) (index : nat) (inner : reader A) : reader A := fun s =>
  match index with
  | O => inner s
  | S _ => match read_given_char sep s with Some (_, s) => inner s | None => None end
  end.

Fixpoint read_octets (n i : nat) : reader (list Z) := fun s =>
  match n with
  | O => Some ([], s)
  | S n =>
      match read_separator x2e i (read_number 10 3 false u8_max) s with
      | Some (o, s) =>
          match read_octets n (S i) s with Some (os, s) => Some (o :: os, s) | None => None end
      | None => None
      end
  end.

Definition read_ipv4_addr : reader (list Z) := read_octets 4 0.

(** [read_groups] on the slots [i ..], of [left = limit - i] slots: the groups read,
    whether the last two were an embedded IPv4 address, and the rest. *)
Fixpoint read_groups (left i : nat) (s : list byte) : list Z * bool * list byte :=
  match left with
  | O => ([], false, s)
  | S left' =>
      let group :=
        match read_separator x3a i (read_number 16 4 true u16_max) s with
        | Some (g, s) => let '(gs, v4, s) := read_groups left' (S i) s in (g :: gs, v4, s)
        | None => ([], false, s)
        end in
      match left' with
      | O => group
      | S _ =>
          match read_separator x3a i read_ipv4_addr s with
          | Some ([one; two; three; four], s) => ([one * 256 + two; three * 256 + four], true, s)
          | _ => group
          end
      end
  end.

Definition read_ipv6_addr : reader (list Z) := fun s =>
  let '(head, head_ipv4, s) := read_groups 8 0 s in
  if (length head =? 8)%nat then Some (head, s)
  else if head_ipv4 : bool then None
  else
    match read_given_char x3a s with
    | None => None
    | Some (_, s) =>
        match read_given_char x3a s with
        | None => None
        | Some (_, s) =>
            let '(tail, _, s) := read_groups (8 - (length head + 1)) 0 s in
            Some (head ++ replicate (8 - length head - length tail) 0 ++ tail, s)
        end
    end.

Inductive IpAddr := V4 (octets : list Z) | V6 (segments : list Z).

(** [address.parse::<IpAddr>()]: the whole string must be read. *)
Definition parse_ip (s : list byte) : option IpAddr :=
  let r := match read_ipv4_addr s with
           | Some (o, rest) => Some (V4 o, rest)
           | None => match read_ipv6_addr s with Some (g, rest) => Some (V6 g, rest) | None => None end
           end in
  match r with Some (ip, []) => Some ip | _ => None end.

(** [IpAddr::is_loopback]: [127.0.0.0/8] and [::1]. *)
Definition is_loopback (ip : IpAddr) : bool :=
  match ip with
  | V4 octets => bool_decide (head octets = Some 127)
  | V6 segments => bool_decide (segments = [0; 0; 0; 0; 0; 0; 0; 1])
  end.

(** ** Host part of an address *)

(** [str::rsplit_once(c)]: the last occurrence splits. *)
Fixpoint rsplit_once (c : ascii) (s : string) : option (string * string) :=
  match s with
  | EmptyString => None
  | String a s' =>
      match rsplit_once c s' with
      | Some (l, r) => Some (String a l, r)
      | None => if Ascii.eqb a c then Some (EmptyString, s') else None
      end
  end.

Definition to_ascii_lowercase (b : byte) : byte :=
  if (0x41 <=? bval b) && (bval b <=? 0x5a) then as_u8 (bval b + 32) else b.

Definition eq_ignore_ascii_case (a b : string) : bool :=
  bool_decide (to_ascii_lowercase <$> as_bytes a = to_ascii_lowercase <$> as_bytes b).

(** The tail of [is_loopback_addr], on the extracted host. *)
Definition loopback_host (host : string) : bool :=
  match parse_ip (as_bytes host) with
  | Some ip => is_loopback ip
  | None => eq_ignore_ascii_case host "localhost"
  end.

Definition is_loopback_addr (address : string) : bool :=
  match address with
  | String "[" rest =>
      loopback_host (match split_once "]" rest with Some (inner, _) => inner | None => rest end)
  | _ =>
      match parse_ip (as_bytes address) with
      | Some ip => is_loopback ip
      | None =>
          loopback_host (match rsplit_once ":" address with Some (h, _) => h | None => address end)
      end
  end.

(** ** Evaluation *)

Example loopback_samples :
  is_loopback_addr <$> ["127.0.0.1:7000"; "127.9.8.7"; "[::1]:80"; "::1"; "localhost:1"; "LOCALHOST";
                        "0:0:0:0:0:0:0:1"; "[::1"]%string
  = replicate 8 true.
Proof. vm_compute. reflexivity. Qed.

Example not_loopback_samples :
  is_loopback_addr <$> ["0.0.0.0:7000"; "[::]:80"; "::"; "10.0.0.1:1"; "example.com:80"; "127.0.0.256:1";
                        "127.0.0.01:1"; "::ffff:127.0.0.1"; "localhost.evil.com:1"; ""]%string
  = replicate 10 false.
Proof. vm_compute. reflexivity. Qed.

(** ** Dotted quads with a port *)

Definition digit (d : Z) : byte := as_u8 (0x30 + d).

(** Decimal form of an octet, without leading zeros. *)
Definition show_octet (n : Z) : list byte :=
  if n <? 10 then [digit n]
  else if n <? 100 then [digit (n / 10); digit (n mod 10)]
  else [digit (n / 100); digit (n / 10 mod 10); digit (n mod 10)].

Definition dotted (a b c d : Z) : list byte :=
  show_octet a ++ x2e :: show_octet b ++ x2e :: show_octet c ++ x2e :: show_octet d.

Definition octet (n : Z) : Prop := 0 <= n <= 255.

(** What follows the number is not a digit. *)
Definition stops (rest : list byte) : Prop :=
  match rest with b :: _ => to_digit 10 b = None | [] => True end.

Lemma to_digit_digit d : 0 <= d < 10 -> to_digit 10 (digit d) = Some d.
Proof.
  intros H. assert (d ∈ seqZ 0 10) as Hin by (apply elem_of_seqZ; lia). revert d Hin H.
  refine (proj1 (Forall_forall _ _) _). repeat constructor; reflexivity.
Qed.

Lemma digit_zero d : 0 <= d < 10 -> digit d = x30 -> d = 0.
Proof. intros H E. apply to_digit_digit in H. rewrite E in H. by injection H. Qed.

Lemma read_digits_stop n acc rest : stops rest -> read_digits 10 n acc rest = Some (acc, rest).
Proof. destruct rest as [|b rest]; cbn; [destruct n; done|]. intros H. destruct n; cbn [read_digits]; by rewrite H. Qed.

Lemma read_digits_cons n acc d rest :
  0 <= d < 10 -> read_digits 10 (S n) acc (digit d :: rest) = read_digits 10 n (acc * 10 + d) rest.
Proof. intros H. cbn [read_digits]. by rewrite to_digit_digit. Qed.

(** [lia] with the quotients and remainders by constants. *)
Ltac divlia := Z.to_euclidean_division_equations; lia.

Lemma read_octet n rest :
  octet n -> stops rest -> read_number 10 3 false u8_max (show_octet n ++ rest) = Some (n, rest).
Proof.
  intros Hn Hs. unfold octet in Hn. unfold read_number, show_octet.
  destruct (Z.ltb_spec n 10); [|destruct (Z.ltb_spec n 100)]; cbn [app].
  - rewrite read_digits_cons, read_digits_stop by (done || divlia). cbn [length].
    replace (S (length rest) - length rest)%nat with 1%nat by lia. cbn.
    rewrite andb_false_r. replace (0 * 10 + n) with n by divlia.
    by destruct (Z.leb_spec n u8_max) as [|E]; [|unfold u8_max in E; lia].
  - rewrite !read_digits_cons, read_digits_stop by (done || divlia). cbn [length].
    replace (S (S (length rest)) - length rest)%nat with 2%nat by lia. cbn [Nat.eqb head].
    rewrite bool_decide_eq_false_2 by (intros [= E]; apply digit_zero in E; divlia). cbn [negb andb].
    replace ((0 * 10 + n / 10) * 10 + n mod 10) with n by divlia.
    by destruct (Z.leb_spec n u8_max) as [|E]; [|unfold u8_max in E; lia].
  - rewrite !read_digits_cons, read_digits_stop by (done || divlia). cbn [length].
    replace (S (S (S (length rest))) - length rest)%nat with 3%nat by lia. cbn [Nat.eqb head].
    rewrite bool_decide_eq_false_2 by (intros [= E]; apply digit_zero in E; divlia). cbn [negb andb].
    replace (((0 * 10 + n / 100) * 10 + n / 10 mod 10) * 10 + n mod 10) with n by divlia.
    by destruct (Z.leb_spec n u8_max) as [|E]; [|unfold u8_max in E; lia].
Qed.

Lemma read_dotted a b c d rest :
  octet a -> octet b -> octet c -> octet d -> stops rest ->
  read_ipv4_addr (dotted a b c d ++ rest) = Some ([a; b; c; d], rest).
Proof.
  intros Ha Hb Hc Hd Hs. unfold read_ipv4_addr, dotted.
  repeat rewrite <- app_assoc, <- app_comm_cons. 
  cbn [read_octets read_separator]. rewrite read_octet by done.
  cbn [read_given_char]. rewrite bool_decide_eq_true_2 by done. rewrite read_octet by done.
  cbn [read_given_char]. rewrite bool_decide_eq_true_2 by done. rewrite read_octet by done.
  cbn [read_given_char]. rewrite bool_decide_eq_true_2 by done. by rewrite read_octet by done.
Qed.

Lemma rsplit_once_app c l r :
  contains_char c r = false -> rsplit_once c (l +:+ String c r) = Some (l, r).
Proof.
  intros Hr. induction l as [|a l IH].
  - change (EmptyString +:+ String c r) with (String c r). cbn [rsplit_once].
    assert (rsplit_once c r = None) as ->.
    { induction r as [|x r IH]; [done|]. cbn in *. apply orb_false_elim in Hr as [Hx Hr].
      rewrite IH by done. by rewrite Hx. }
    by rewrite Ascii.eqb_refl.
  - change (String a l +:+ String c r) with (String a (l +:+ String c r)). cbn [rsplit_once]. by rewrite IH.
Qed.

Lemma from_bytes_app l r : from_bytes (l ++ r) = (from_bytes l +:+ from_bytes r)%string.
Proof.
  induction l as [|b l IH]; [done|].
  change (from_bytes ((b :: l) ++ r)) with (String (ascii_of_byte b) (from_bytes (l ++ r))).
  by rewrite IH.
Qed.

(** A dotted quad starts with a digit, never with the bracket of an IPv6 form. *)
Lemma dotted_no_bracket a b c d rest :
  octet a -> exists x s, from_bytes (dotted a b c d ++ rest) = String x s /\ x <> "["%char.
Proof.
  intros Ha. unfold octet in Ha.
  assert (exists k t, show_octet a = digit k :: t /\ 0 <= k < 10) as (k & t & Hs & Hk).
  { unfold show_octet. repeat case_match; eexists _, _; (split; [done|]); split_bools; divlia. }
  unfold dotted. rewrite Hs. cbn [app from_bytes].
  exists (ascii_of_byte (digit k)). eexists. split; [reflexivity|].
  intros E. apply to_digit_digit in Hk. 
  assert (digit k = x5b) as Hx by (rewrite <- (byte_of_ascii_of_byte (digit k)), E; reflexivity).
  rewrite Hx in Hk. discriminate.
Qed.

Lemma is_loopback_addr_unbracketed s x t :
  s = String x t -> x <> "["%char ->
  is_loopback_addr s =
    match parse_ip (as_bytes s) with
    | Some ip => is_loopback ip
    | None => loopback_host (match rsplit_once ":" s with Some (h, _) => h | None => s end)
    end.
Proof.
  intros -> Hx. destruct x as [[] [] [] [] [] [] [] []]; try reflexivity. by destruct Hx.
Qed.

(** For every dotted quad and port, a TCP address [a.b.c.d:port] counts as
    loopback exactly when it lies in 127.0.0.0/8. *)
Theorem loopback_ipv4_exact a b c d port :
  octet a -> octet b -> octet c -> octet d -> contains_char ":" port = false ->
  is_loopback_addr (from_bytes (dotted a b c d) +:+ String ":" port) = (a =? 127).
Proof.
  intros Ha Hb Hc Hd Hp.
  assert (from_bytes (dotted a b c d) +:+ String ":" port
          = from_bytes (dotted a b c d ++ x3a :: as_bytes port)) as Hs.
  { rewrite from_bytes_app. f_equal. cbn. by rewrite <- (from_as_bytes port) at 1. }
  destruct (dotted_no_bracket a b c d (x3a :: as_bytes port) Ha) as (x & t & Hx & Hne).
  rewrite (is_loopback_addr_unbracketed _ x t) by (done || by rewrite Hs).
  rewrite Hs at 1. rewrite as_from_bytes. unfold parse_ip. rewrite read_dotted by done.
  rewrite rsplit_once_app by done. unfold loopback_host, parse_ip. rewrite as_from_bytes.
  rewrite <- (app_nil_r (dotted a b c d)), read_dotted by done. cbn [is_loopback head].
  destruct (Z.eqb_spec a 127) as [->|Hne']; [done|]. by rewrite bool_decide_eq_false_2 by congruence.
Qed.

Lemma loopback_ipv4_exact_witness :
  is_loopback_addr (from_bytes (dotted 127 0 0 1) +:+ String ":" "7000") = (127 =? 127) /\
  is_loopback_addr (from_bytes (dotted 192 168 0 7) +:+ String ":" "7000") = (192 =? 127).
Proof. split; apply loopback_ipv4_exact; unfold octet; reflexivity || lia. Defined.
