(* ===== verification/Config.v ===== *)
(** * Graph configuration (core/src/config.rs)

    Node and edge configurations, the topological model they describe, the
    run-time write mode of an edge and [GraphConfig::validate], which judges the
    whole file before anything is created.  The opaque attribute table of a codec
    node (a [toml::Table]) is a type parameter. *)

From Stdlib Require Import Strings.String.
From S2P Require Import Prelude GraphTypes CharMap Cycle Graph IpAddr.
#[local] Open Scope Z_scope.

(** ** Attribute types *)

Inductive Transport := Tcp | Unix.
Inductive LegRole := Listen | Connect.
Inductive DataBits := Five | Six | Seven | Eight.
Inductive Parity := ParityNone | ParityOdd | ParityEven.
Inductive StopBits := StopOne | StopTwo.
Inductive FlowControl := FlowNone | XonXoff | RtsCts.
Inductive OverflowPolicy := DropOldest | Fault.
Record ModemLines := mkModem { dtr : option bool; rts : option bool }.

#[export] Instance Transport_eq_dec : EqDecision Transport.
Proof. solve_decision. Defined.

Definition is_unset (m : ModemLines) : bool :=
  match dtr m, rts m with None, None => true | _, _ => false end.

Definition MAP_RAW_ENDPOINT : string := "raw".
Definition MAX_REPLAY_RING : Z := 16 * 1024 * 1024.
Definition MAX_HOSTWARD_BUFFER : Z := 65536.
Definition MAX_TIMER_MS : Z := 3600000.
Definition MAX_ROTATION_PADDING : Z := 20.

(** ** Nodes and edges *)

Record EdgeConfig := mkEdgeConfig { ec_a : EndpointAddr; ec_b : EndpointAddr; ec_write_mode : WriteMode }.

Inductive NodeConfig (Table : Type) :=
| Serial (name device : string) (baud : Z) (data_bits : DataBits) (parity : Parity)
    (stop_bits : StopBits) (flow_control : FlowControl) (faces : Facing)
    (arbitration : Arbitration) (hostward_buffer : Z) (purge_on_reconnect : bool)
    (replay_ring : Z) (modem : ModemLines)
| Pty (name path : string) (owner group : option string) (mode : option Z)
    (advertised_baud hostward_buffer : Z)
| Log (name directory filename : string) (overflow : OverflowPolicy) (rotation_padding : Z)
| Codec (name codec : string) (faces : Facing) (channels : list string)
    (arbitration : Arbitration) (replay_ring : Z) (attributes : Table)
| Leg (name : string) (faces : Facing) (transport : Transport) (role : LegRole)
    (address : string) (insecure_bind : bool)
    (reconnect_initial_ms reconnect_max_ms idle_release_ms : Z) (purge_on_reconnect : bool)
    (arbitration : Arbitration) (replay_ring : Z) (channels : list string)
| Map (name : string) (hostward targetward : list string) (arbitration : Arbitration)
    (replay_ring : Z).
Arguments Serial {Table} _ _ _ _ _ _ _ _ _ _ _ _ _.
Arguments Pty {Table} _ _ _ _ _ _ _.
Arguments Log {Table} _ _ _ _ _.
Arguments Codec {Table} _ _ _ _ _ _ _.
Arguments Leg {Table} _ _ _ _ _ _ _ _ _ _ _ _ _.
Arguments Map {Table} _ _ _ _ _.

(** *** Defaults of omitted fields *)

Definition default_baud : Z := 115200.
Definition default_serial_hostward_buffer : Z := 256.
Definition default_pty_hostward_buffer : Z := 32.
Definition default_rotation_padding : Z := 3.
Definition default_reconnect_initial_ms : Z := 200.
Definition default_reconnect_max_ms : Z := 5000.
Definition default_idle_release_ms : Z := 1000.
Definition DEFAULT_REPLAY_RING : Z := 65536.

Record GraphConfig (Table : Type) := mkConfig {
  cfg_nodes : list (NodeConfig Table);
  cfg_edges : list EdgeConfig
}.
Arguments mkConfig {Table} _ _.
Arguments cfg_nodes {Table} _.
Arguments cfg_edges {Table} _.

(** ** Operations *)

Section config.
Context {Table : Type}.
Implicit Types (n : NodeConfig Table) (c : GraphConfig Table) (e : EdgeConfig).

(** [NodeConfig::name]. *)
Definition node_name n : string :=
  match n with
  | Serial name _ _ _ _ _ _ _ _ _ _ _ _ => name
  | Pty name _ _ _ _ _ _ => name
  | Log name _ _ _ _ => name
  | Codec name _ _ _ _ _ _ => name
  | Leg name _ _ _ _ _ _ _ _ _ _ _ _ => name
  | Map name _ _ _ _ => name
  end.

(** [NodeConfig::replay_ring]. *)
Definition node_replay_ring n : option Z :=
  match n with
  | Serial _ _ _ _ _ _ _ _ _ _ _ ring _ => Some ring
  | Codec _ _ _ _ _ ring _ => Some ring
  | Leg _ _ _ _ _ _ _ _ _ _ _ ring _ => Some ring
  | Map _ _ _ _ ring => Some ring
  | Pty _ _ _ _ _ _ _ | Log _ _ _ _ _ => None
  end.

(** [NodeConfig::arbitration]. *)
Definition node_arbitration n : Arbitration :=
  match n with
  | Serial _ _ _ _ _ _ _ _ arb _ _ _ _ => arb
  | Codec _ _ _ _ arb _ _ => arb
  | Leg _ _ _ _ _ _ _ _ _ _ arb _ _ => arb
  | Map _ _ _ arb _ => arb
  | Pty _ _ _ _ _ _ _ | Log _ _ _ _ _ => arbitration_default
  end.

(** [NodeConfig::shape]. *)
Definition node_shape n : NodeShape :=
  match n with
  | Serial _ _ _ _ _ _ _ faces arb _ _ _ _ => single_arb faces arb
  | Pty _ _ _ _ _ _ _ | Log _ _ _ _ _ => single Target
  | Codec _ _ faces channels arbitration _ _ =>
      let arb := fun facing => match facing with Host => arbitration | Target => arbitration_default end in
      let chan_facing := opposite faces in
      mkShape (mkEndpoint DEFAULT_ENDPOINT faces (arb faces) ::
               ((fun ch => mkEndpoint ch chan_facing (arb chan_facing)) <$> channels))
  | Leg _ faces _ _ _ _ _ _ _ _ arbitration _ channels =>
      let arb := match faces with Host => arbitration | Target => arbitration_default end in
      mkShape ((fun ch => mkEndpoint ch faces arb) <$> channels)
  | Map _ _ _ arbitration _ =>
      mkShape [mkEndpoint DEFAULT_ENDPOINT Host arbitration;
               mkEndpoint MAP_RAW_ENDPOINT Target arbitration_default]
  end.

Definition is_log n : bool := match n with Log _ _ _ _ _ => true | _ => false end.
Definition is_codec n : bool := match n with Codec _ _ _ _ _ _ _ => true | _ => false end.
Definition is_map n : bool := match n with Map _ _ _ _ _ => true | _ => false end.

Definition edge_spec e : EdgeSpec := mkEdge (ec_a e) (ec_b e) (ec_write_mode e).

Definition to_model c : GraphModel :=
  foldl add_edge
    (foldl (fun m n => add_node m (node_name n) (node_shape n)) model_new (cfg_nodes c))
    (edge_spec <$> cfg_edges c).

(** [GraphConfig::is_empty]. *)
Definition config_is_empty c : bool :=
  match cfg_nodes c, cfg_edges c with [], [] => true | _, _ => false end.

Definition node_named c (name : string) : option (NodeConfig Table) :=
  find_first (fun n => String.eqb (node_name n) name) (cfg_nodes c).

Definition endpoint_facing c (addr : EndpointAddr) : option Facing :=
  n ← node_named c (addr_node addr);
  ep_facing <$> find_first (fun ep => String.eqb (ep_name ep) (addr_endpoint addr))
                           (shape_endpoints (node_shape n)).

Definition edge_ends c e : option (EndpointAddr * EndpointAddr) :=
  fa ← endpoint_facing c (ec_a e);
  fb ← endpoint_facing c (ec_b e);
  match fa, fb with
  | Host, Target => Some (ec_a e, ec_b e)
  | Target, Host => Some (ec_b e, ec_a e)
  | _, _ => None
  end.

(** [matches!(self.node_named(name), Some(kind))]. *)
Definition named_is (kind : NodeConfig Table -> bool) c (name : string) : bool :=
  match node_named c name with Some n => kind n | None => false end.

Definition is_multiplexed_endpoint c (addr : EndpointAddr) : bool :=
  is_default addr && named_is is_codec c (addr_node addr).

Definition endpoint_arbitrates c (addr : EndpointAddr) : bool :=
  bool_decide (node_arbitration <$> node_named c (addr_node addr) <> Some FreeForAll).

Definition effective_write_mode c e : WriteMode :=
  match edge_ends c e with
  | None => ec_write_mode e
  | Some (_, target) =>
      if named_is is_log c (addr_node target) then Never
      else if bool_decide (ec_write_mode e = OnDemand) && bool_decide (addr_endpoint target = MAP_RAW_ENDPOINT)
              && named_is is_map c (addr_node target)
      then Held
      else ec_write_mode e
  end.

(** ** Validation *)

Definition range_error (node field : string) (value min max : Z) : option ValidationError :=
  if (value <? min) || (max <? value)
  then Some (NumericOutOfRange node field value min max) else None.

(** [errors.extend(option)]. *)
Definition extend (o : option ValidationError) : list ValidationError :=
  match o with Some e => [e] | None => [] end.

(** [if *hostward_buffer == 0 .. else ..]. *)
Definition hostward_buffer_errors (name : string) (depth : Z) : list ValidationError :=
  if depth =? 0 then [ZeroHostwardBuffer name]
  else extend (range_error name "hostward_buffer" depth 1 MAX_HOSTWARD_BUFFER).

Definition leg_errors (name : string) (transport : Transport) (address : string) (insecure_bind : bool)
    (reconnect_initial_ms reconnect_max_ms idle_release_ms : Z) (channels : list string)
  : list ValidationError :=
  extend (range_error name "reconnect_initial_ms" reconnect_initial_ms 0 MAX_TIMER_MS) ++
  extend (range_error name "reconnect_max_ms" reconnect_max_ms 0 MAX_TIMER_MS) ++
  extend (range_error name "idle_release_ms" idle_release_ms 0 MAX_TIMER_MS) ++
  push_if (bool_decide (transport = Tcp) && negb insecure_bind && negb (is_loopback_addr address))
          (NonLoopbackBind name address) ++
  push_if (existsb is_empty_str channels) (DuplicateEndpoint name "") ++
  push_if (bool_decide (channels = [])) (EmptyLeg name).

Definition mapping_errors (name : string) (mappings : list string) : list ValidationError :=
  omap (fun mapping => match from_name mapping with None => Some (UnknownMapping name mapping) | Some _ => None end)
       mappings.

(** The per-node checks, in the order of the loop body. *)
Definition node_errors n : list ValidationError :=
  match node_replay_ring n with
  | Some cap => extend (range_error (node_name n) "replay_ring" cap 0 MAX_REPLAY_RING)
  | None => []
  end ++
  match n with
  | Serial name _ baud _ _ _ _ faces _ hostward_buffer _ _ _ =>
      hostward_buffer_errors name hostward_buffer ++
      push_if (bool_decide (faces = Target)) (SerialFacesTarget name) ++
      extend (range_error name "baud" baud 1 u32_max)
  | Pty name _ _ _ mode advertised_baud hostward_buffer =>
      hostward_buffer_errors name hostward_buffer ++
      match mode with
      | Some mode => (* 0o600 ..= 0o777 *) extend (range_error name "mode" mode 0x180 0x1ff)
      | None => []
      end ++
      extend (range_error name "advertised_baud" advertised_baud 1 u32_max)
  | Log name _ _ _ rotation_padding =>
      extend (range_error name "rotation_padding" rotation_padding 0 MAX_ROTATION_PADDING)
  | Leg name _ transport _ address insecure_bind initial max idle _ _ _ channels =>
      leg_errors name transport address insecure_bind initial max idle channels
  | Map name hostward targetward _ _ => mapping_errors name (hostward ++ targetward)
  | Codec _ _ _ _ _ _ _ => []
  end.

(** The node loop, with its [seen] set. *)
Fixpoint nodes_errors (seen : gset string) (ns : list (NodeConfig Table)) : list ValidationError :=
  match ns with
  | [] => []
  | n :: ns =>
      push_if (bool_decide (node_name n ∈ seen)) (DuplicateNodeName (node_name n)) ++
      node_errors n ++ nodes_errors ({[node_name n]} ∪ seen) ns
  end.

(** The edge loop: errors so far and the [held_origin] map. *)
Definition edge_rules c (st : list ValidationError * gmap EndpointAddr EndpointAddr) (ie : Z * EdgeConfig)
  : list ValidationError * gmap EndpointAddr EndpointAddr :=
  let '(errors, held_origin) := st in
  let '(i, edge) := ie in
  match edge_ends c edge with
  | None => st
  | Some (host, target) =>
      let errors := errors ++
        push_if (is_multiplexed_endpoint c target && endpoint_arbitrates c host &&
                 negb (bool_decide (ec_write_mode edge = Held) || bool_decide (ec_write_mode edge = Never)))
                (MultiplexedEdgeNotHeld i host target (ec_write_mode edge)) in
      if bool_decide (effective_write_mode c edge = Held) && endpoint_arbitrates c host then
        match held_origin !! host with
        | Some prior => (errors ++ [ConflictingHeldEdges host prior target], held_origin)
        | None => (errors, <[host := target]> held_origin)
        end
      else (errors, held_origin)
  end.

Definition edges_errors c : list ValidationError :=
  (foldl (edge_rules c) ([], ∅) (imap (fun i e => (Z.of_nat i, e)) (cfg_edges c))).1.

(** [GraphConfig::validate]. *)
Definition config_validate `{!HashOrder string, !HashOrder EndpointAddr} c
  : option (exec unit (list ValidationError)) :=
  r ← validate (to_model c);
  Some (model_errors ← r; Ok (nodes_errors ∅ (cfg_nodes c) ++ edges_errors c ++ model_errors)).

(** ** The rules, declaratively *)

Definition in_range (lo hi v : Z) : Prop := lo <= v <= hi.

Definition node_ok n : Prop :=
  (forall cap, node_replay_ring n = Some cap -> in_range 0 MAX_REPLAY_RING cap) /\
  match n with
  | Serial _ _ baud _ _ _ _ faces _ hostward_buffer _ _ _ =>
      in_range 1 MAX_HOSTWARD_BUFFER hostward_buffer /\ faces = Host /\ in_range 1 u32_max baud
  | Pty _ _ _ _ mode advertised_baud hostward_buffer =>
      in_range 1 MAX_HOSTWARD_BUFFER hostward_buffer /\
      (forall m, mode = Some m -> in_range 0x180 0x1ff m) /\ in_range 1 u32_max advertised_baud
  | Log _ _ _ _ rotation_padding => in_range 0 MAX_ROTATION_PADDING rotation_padding
  | Leg _ _ transport _ address insecure_bind initial max idle _ _ _ channels =>
      in_range 0 MAX_TIMER_MS initial /\ in_range 0 MAX_TIMER_MS max /\ in_range 0 MAX_TIMER_MS idle /\
      (transport = Tcp -> insecure_bind = false -> is_loopback_addr address = true) /\
      ("" ∉ channels) /\ channels <> []
  | Map _ hostward targetward _ _ =>
      forall mapping, mapping ∈ hostward ++ targetward -> is_Some (from_name mapping)
  | Codec _ _ _ _ _ _ _ => True
  end.

(** The host-facing end an edge would hold forever, if it does. *)
Definition held_at c e : option EndpointAddr :=
  '(h, _) ← edge_ends c e;
  if bool_decide (effective_write_mode c e = Held) && endpoint_arbitrates c h then Some h else None.

Definition mux_edge_ok c e : Prop :=
  forall h t, edge_ends c e = Some (h, t) -> is_multiplexed_endpoint c t = true ->
    endpoint_arbitrates c h = true -> ec_write_mode e = Held \/ ec_write_mode e = Never.

Record config_ok c : Prop := {
  ok_unique : NoDup (node_name <$> cfg_nodes c);
  ok_nodes : forall n, n ∈ cfg_nodes c -> node_ok n;
  ok_mux : forall e, e ∈ cfg_edges c -> mux_edge_ok c e;
  ok_held : forall i j h, cfg_edges c !! i ≫= held_at c = Some h -> cfg_edges c !! j ≫= held_at c = Some h -> i = j;
  ok_graph : well_formed (to_model c)
}.

(** ** The checks decide the rules *)

Lemma range_error_nil node field v lo hi : extend (range_error node field v lo hi) = [] <-> in_range lo hi v.
Proof.
  unfold range_error, in_range. destruct (Z.ltb_spec v lo), (Z.ltb_spec hi v); cbn; split; (done || lia).
Qed.

Lemma hostward_buffer_nil name d : hostward_buffer_errors name d = [] <-> in_range 1 MAX_HOSTWARD_BUFFER d.
Proof.
  unfold hostward_buffer_errors. destruct (Z.eqb_spec d 0) as [->|].
  - unfold in_range. split; [done|lia].
  - apply range_error_nil.
Qed.

Lemma mapping_errors_nil name ms : mapping_errors name ms = [] <-> forall m, m ∈ ms -> is_Some (from_name m).
Proof.
  unfold mapping_errors. induction ms as [|m ms IH]; [cbn; set_solver|].
  cbn [omap list_omap]. destruct (from_name m) as [r|] eqn:E.
  - rewrite IH. setoid_rewrite elem_of_cons. split; [|auto]. intros H x [->|]; [by exists r|auto].
  - split; [done|]. intros H. destruct (H m) as [r Hr]; [left|congruence].
Qed.

Lemma no_empty_channel chs : existsb is_empty_str chs = false <-> "" ∉ chs.
Proof.
  rewrite <- not_true_iff_false, existsb_exists. setoid_rewrite <- list_elem_of_In.
  setoid_rewrite is_empty_str_spec. naive_solver.
Qed.

Lemma ring_nil n name :
  match node_replay_ring n with
  | Some cap => extend (range_error name "replay_ring" cap 0 MAX_REPLAY_RING)
  | None => []
  end = [] <-> forall cap, node_replay_ring n = Some cap -> in_range 0 MAX_REPLAY_RING cap.
Proof. destruct (node_replay_ring n); [rewrite range_error_nil|]; naive_solver. Qed.

Lemma mode_nil name (mode : option Z) :
  match mode with Some m => extend (range_error name "mode" m 0x180 0x1ff) | None => [] end = [] <->
  forall m, mode = Some m -> in_range 0x180 0x1ff m.
Proof. destruct mode; [rewrite range_error_nil|]; naive_solver. Qed.

Lemma leg_errors_nil name transport address insecure_bind t1 t2 t3 channels :
  leg_errors name transport address insecure_bind t1 t2 t3 channels = [] <->
  in_range 0 MAX_TIMER_MS t1 /\ in_range 0 MAX_TIMER_MS t2 /\ in_range 0 MAX_TIMER_MS t3 /\
  (transport = Tcp -> insecure_bind = false -> is_loopback_addr address = true) /\
  ("" ∉ channels) /\ channels <> [].
Proof.
  unfold leg_errors.
  rewrite !app_nil_iff, !range_error_nil, !push_if_nil, no_empty_channel, bool_decide_eq_false.
  assert (bool_decide (transport = Tcp) && negb insecure_bind && negb (is_loopback_addr address) = false <->
          (transport = Tcp -> insecure_bind = false -> is_loopback_addr address = true)) as ->; [|tauto].
  destruct transport, insecure_bind, (is_loopback_addr address); naive_solver.
Qed.

Lemma node_errors_nil n : node_errors n = [] <-> node_ok n.
Proof.
  unfold node_errors, node_ok. rewrite app_nil_iff, ring_nil. apply and_iff_compat_l.
  destruct n.
  - rewrite !app_nil_iff, hostward_buffer_nil, push_if_nil, bool_decide_eq_false, range_error_nil.
    destruct faces; naive_solver.
  - by rewrite !app_nil_iff, hostward_buffer_nil, mode_nil, range_error_nil.
  - apply range_error_nil.
  - done.
  - apply leg_errors_nil.
  - apply mapping_errors_nil.
Qed.

Lemma nodes_errors_nil seen ns :
  nodes_errors seen ns = [] <->
  NoDup (node_name <$> ns) /\ (forall n, n ∈ ns -> node_ok n) /\ (forall x, x ∈ seen -> x ∉ node_name <$> ns).
Proof.
  revert seen. induction ns as [|n ns IH]; intros seen; cbn [nodes_errors].
  { split; [intros _|done]. split_and!; [constructor|set_solver|set_solver]. }
  rewrite !app_nil_iff, push_if_nil, bool_decide_eq_false, node_errors_nil, IH, fmap_cons, NoDup_cons.
  set_solver.
Qed.

Lemma edge_rules_step c es m i e :
  edge_rules c (es, m) (i, e) =
  (es ++ (edge_rules c ([], m) (i, e)).1,
   match held_at c e with
   | Some h => match m !! h with
               | Some _ => m
               | None => match edge_ends c e with Some (_, t) => <[h := t]> m | None => m end
               end
   | None => m
   end).
Proof.
  unfold edge_rules, held_at. destruct (edge_ends c e) as [[h t]|] eqn:E; cbn; [|by rewrite app_nil_r].
  destruct (bool_decide (effective_write_mode c e = Held) && endpoint_arbitrates c h); cbn; [|done].
  destruct (m !! h); cbn; by rewrite <- ?app_assoc.
Qed.

Lemma edge_rules_nil c m i e :
  (edge_rules c ([], m) (i, e)).1 = [] <-> mux_edge_ok c e /\ (forall h, held_at c e = Some h -> m !! h = None).
Proof.
  unfold edge_rules, held_at, mux_edge_ok. destruct (edge_ends c e) as [[h t]|] eqn:E; cbn; [|naive_solver].
  assert (is_multiplexed_endpoint c t && endpoint_arbitrates c h &&
          negb (bool_decide (ec_write_mode e = Held) || bool_decide (ec_write_mode e = Never)) = false <->
          (is_multiplexed_endpoint c t = true -> endpoint_arbitrates c h = true ->
           ec_write_mode e = Held \/ ec_write_mode e = Never)) as Hmux.
  { destruct (is_multiplexed_endpoint c t), (endpoint_arbitrates c h), (ec_write_mode e); naive_solver. }
  rewrite <- (push_if_nil _ (MultiplexedEdgeNotHeld i h t (ec_write_mode e))) in Hmux.
  destruct (bool_decide (effective_write_mode c e = Held) && endpoint_arbitrates c h); cbn.
  - destruct (m !! h) eqn:Em; cbn; [rewrite app_nil_iff|rewrite Hmux]; naive_solver.
  - rewrite Hmux. naive_solver.
Qed.

Lemma edges_fold_nil c (ies : list (Z * EdgeConfig)) es m :
  (foldl (edge_rules c) (es, m) ies).1 = [] <->
  es = [] /\ (forall e, e ∈ ies.*2 -> mux_edge_ok c e) /\ NoDup (omap (held_at c) ies.*2) /\
  (forall h, h ∈ omap (held_at c) ies.*2 -> m !! h = None).
Proof.
  revert es m. induction ies as [|[i e] ies IH]; intros es m; cbn [foldl].
  { cbn. split; [intros ->|by intros [? _]]. split_and!; [done|set_solver|constructor|set_solver]. }
  rewrite edge_rules_step, IH, app_nil_iff, edge_rules_nil. cbn [fmap list_fmap snd omap list_omap].
  destruct (held_at c e) as [h|] eqn:Eh; [|set_solver].
  rewrite NoDup_cons. destruct (edge_ends c e) as [[h' t]|] eqn:Ee; [|by unfold held_at in Eh; rewrite Ee in Eh].
  split.
  - intros ([-> [Hm Hh]] & Hr & Hn & Hl). rewrite (Hh h eq_refl) in Hl.
    assert (h ∉ omap (held_at c) ies.*2) as Hnin.
    { intros Hin. apply Hl in Hin. by rewrite lookup_insert_eq in Hin. }
    split_and!; try done; [set_solver|]. intros x [->|Hx]%elem_of_cons; [auto|].
    apply Hl in Hx. rewrite lookup_insert in Hx. by case_decide.
  - intros (-> & Hr & [Hnin Hn] & Hl). assert (m !! h = None) as Hh by (apply Hl; left).
    rewrite Hh. split_and!; [done|set_solver|naive_solver|set_solver|done|].
    intros x Hx. rewrite lookup_insert_ne by (by intros ->). apply Hl. by right.
Qed.

(** ** The model agrees with the list of nodes *)

Lemma to_model_edges c : Graph.edges (to_model c) = edge_spec <$> cfg_edges c.
Proof.
  unfold to_model. generalize (edge_spec <$> cfg_edges c) as es. intros es.
  assert (forall m, Graph.edges (foldl add_edge m es) = Graph.edges m ++ es) as H.
  { induction es as [|e es IH]; intros m; cbn; [by rewrite app_nil_r|]. rewrite IH. cbn. by rewrite <- app_assoc. }
  rewrite H. assert (forall ns m, Graph.edges (foldl (fun m n => add_node m (node_name n) (node_shape n)) m ns)
                                  = Graph.edges m) as Hn.
  { induction ns as [|n ns IH]; intros m; [done|]. cbn. by rewrite IH. }
  by rewrite Hn.
Qed.

Lemma find_first_named ns name :
  name ∉ node_name <$> ns -> find_first (fun n => String.eqb (node_name n) name) ns = None.
Proof.
  induction ns as [|n ns IH]; [done|]. rewrite fmap_cons, not_elem_of_cons. intros [Hn Hns].
  cbn. destruct (String.eqb_spec (node_name n) name); [congruence|auto].
Qed.

Lemma to_model_shapes c name :
  NoDup (node_name <$> cfg_nodes c) -> shapes (to_model c) !! name = node_shape <$> node_named c name.
Proof.
  unfold to_model, node_named. intros Hnd.
  assert (forall es m, shapes (foldl add_edge m es) = shapes m) as He.
  { induction es as [|e es IH]; intros m; [done|]. cbn. by rewrite IH. }
  rewrite He. clear He.
  assert (forall m, shapes (foldl (fun m n => add_node m (node_name n) (node_shape n)) m (cfg_nodes c)) !! name =
    match node_shape <$> find_first (fun n => String.eqb (node_name n) name) (cfg_nodes c) with
    | Some s => Some s | None => shapes m !! name end) as H.
  { induction (cfg_nodes c) as [|n ns IH]; intros m; [done|].
    rewrite fmap_cons, NoDup_cons in Hnd. destruct Hnd as [Hn Hnd]. cbn. rewrite IH by done.
    destruct (String.eqb_spec (node_name n) name) as [<-|Hne].
    - rewrite find_first_named by done. cbn. by rewrite lookup_insert_eq.
    - destruct (node_shape <$> _); [done|]. cbn. by rewrite lookup_insert_ne. }
  rewrite H. cbn. by destruct (node_shape <$> _).
Qed.

Lemma resolve_facing c addr f :
  NoDup (node_name <$> cfg_nodes c) ->
  endpoint_facing c addr = Some f <-> exists ep, resolve (to_model c) addr = inr ep /\ ep_facing ep = f.
Proof.
  intros Hnd. unfold endpoint_facing, resolve. rewrite (to_model_shapes _ _ Hnd).
  destruct (node_named c (addr_node addr)) as [n|]; cbn; [|naive_solver].
  change (find_first (fun ep => String.eqb (ep_name ep) (addr_endpoint addr)) (shape_endpoints (node_shape n)))
    with (shape_endpoint (node_shape n) (addr_endpoint addr)).
  destruct (shape_endpoint (node_shape n) (addr_endpoint addr)); naive_solver.
Qed.

Lemma edge_ends_joins c e h t :
  NoDup (node_name <$> cfg_nodes c) ->
  edge_ends c e = Some (h, t) <-> joins (to_model c) (edge_spec e) h t.
Proof.
  intros Hnd. unfold edge_ends, joins. cbn [edge_spec edge_a edge_b].
  pose proof (fun x f => resolve_facing c x f Hnd) as Hr. split.
  - destruct (endpoint_facing c (ec_a e)) as [fa|] eqn:Ea; [|done].
    destruct (endpoint_facing c (ec_b e)) as [fb|] eqn:Eb; [|done]. cbn.
    apply Hr in Ea as (x & Hx & <-). apply Hr in Eb as (y & Hy & <-).
    destruct (ep_facing x) eqn:Fx, (ep_facing y) eqn:Fy; intros [= <- <-]; eauto 10.
  - intros (Hd & eh & et & Hh & Ht & Fh & Ft).
    assert (endpoint_facing c h = Some Host) as Eh by (apply Hr; eauto).
    assert (endpoint_facing c t = Some Target) as Et by (apply Hr; eauto).
    destruct Hd as [[= -> ->]|[= -> ->]]; by rewrite Eh, Et.
Qed.

Lemma edges_errors_nil c :
  edges_errors c = [] <->
  (forall e, e ∈ cfg_edges c -> mux_edge_ok c e) /\
  (forall i j h, cfg_edges c !! i ≫= held_at c = Some h -> cfg_edges c !! j ≫= held_at c = Some h -> i = j).
Proof.
  unfold edges_errors. rewrite edges_fold_nil.
  assert ((imap (fun i e => (Z.of_nat i, e)) (cfg_edges c)).*2 = cfg_edges c) as ->.
  { apply list_eq. intros i. rewrite list_lookup_fmap, list_lookup_imap. by destruct (cfg_edges c !! i). }
  rewrite <- NoDup_omap_iff. set_solver.
Qed.

Section theorems.
Context `{!HashOrder string, !HashOrder EndpointAddr}.

Lemma config_validate_spec c :
  exists errors, config_validate c = Some (Ok errors) /\ (errors = [] <-> config_ok c).
Proof.
  destruct (validate_spec (to_model c)) as (me & Hme & Hwf).
  eexists. split; [unfold config_validate; by rewrite Hme|].
  rewrite !app_nil_iff, nodes_errors_nil, edges_errors_nil, Hwf.
  split; [intros ((? & ? & ?) & (? & ?) & ?); by constructor|]. intros []. set_solver.
Qed.

Lemma config_validate_ok c : config_validate c = Some (Ok []) -> config_ok c.
Proof. destruct (config_validate_spec c) as (es & -> & H). intros [= ->]. by apply H. Qed.

(** C6: judging a configuration always returns, and it accepts exactly the
    configurations in which node names are unique, every numeric attribute is in
    its stated range, serial nodes face host, legs carry channels and stay on the
    loopback unless told otherwise, mapping names are known, the two write-mode
    rules on edges hold, and the graph is well formed. *)
Theorem config_validate_decides c :
  exists errors, config_validate c = Some (Ok errors) /\ (errors = [] <-> config_ok c).
Proof. apply config_validate_spec. Qed.

(** In an accepted configuration two different edges never both hold the same
    arbitrated endpoint; what counts is the run-time mode, so two maps left on the
    default mode are caught. *)
Theorem single_held_origin c i j ei ej h ti tj :
  config_validate c = Some (Ok []) ->
  cfg_edges c !! i = Some ei -> cfg_edges c !! j = Some ej ->
  edge_ends c ei = Some (h, ti) -> edge_ends c ej = Some (h, tj) ->
  effective_write_mode c ei = Held -> effective_write_mode c ej = Held ->
  endpoint_arbitrates c h = true -> i = j.
Proof.
  intros Hok%config_validate_ok Hi Hj Ei Ej Mi Mj Ha.
  apply (ok_held _ Hok i j h); [rewrite Hi|rewrite Hj]; cbn; unfold held_at; rewrite ?Ei, ?Ej; cbn;
    rewrite ?Mi, ?Mj, bool_decide_eq_true_2, Ha by done; done.
Qed.

Lemma named_is_excl k1 k2 c name :
  (forall n, k1 n = true -> k2 n = true -> False) -> named_is k1 c name = true -> named_is k2 c name = false.
Proof. unfold named_is. destruct (node_named c name) as [n|]; [|done]. intros H H1. destruct (k2 n) eqn:E; naive_solver. Qed.

(** In an accepted configuration no interior pump is left waiting for a grant
    it cannot get: an edge into a multiplexed endpoint of an arbitrated host
    endpoint, and every edge into a map's raw endpoint, runs [held] or [never];
    an edge into a log runs [never]. *)
Theorem interior_edges_workable c e h t :
  config_validate c = Some (Ok []) -> e ∈ cfg_edges c -> edge_ends c e = Some (h, t) ->
  (is_multiplexed_endpoint c t = true -> endpoint_arbitrates c h = true -> effective_write_mode c e <> OnDemand) /\
  (named_is is_map c (addr_node t) = true -> addr_endpoint t = MAP_RAW_ENDPOINT ->
   effective_write_mode c e <> OnDemand) /\
  (named_is is_log c (addr_node t) = true -> effective_write_mode c e = Never).
Proof.
  intros Hok%config_validate_ok Hin He. unfold effective_write_mode. rewrite He. split_and!.
  - intros Hm Ha. pose proof (ok_mux _ Hok e Hin h t He Hm Ha) as Hw.
    apply andb_prop in Hm as [_ Hm]. rewrite (named_is_excl is_codec is_log) by (done || by intros []).
    rewrite (named_is_excl is_codec is_map) by (done || by intros []). rewrite andb_false_r.
    by destruct Hw as [-> | ->].
  - intros Hm Hr. rewrite (named_is_excl is_map is_log) by (done || by intros []).
    rewrite Hm, (bool_decide_eq_true_2 (addr_endpoint t = MAP_RAW_ENDPOINT)) by done. by destruct (ec_write_mode e).
  - by intros ->.
Qed.

(** On an accepted configuration the configuration's own orientation of an
    edge (first declared node of a name, used by the wiring) and the validator's
    (shape map) coincide, every edge has one, and a consumer endpoint is the
    target of one edge only. *)
Theorem edge_orientation_agrees c e :
  config_validate c = Some (Ok []) -> e ∈ cfg_edges c ->
  exists h t, edge_ends c e = Some (h, t) /\ joins (to_model c) (edge_spec e) h t /\
    forall i j e' h', cfg_edges c !! i = Some e -> cfg_edges c !! j = Some e' ->
                      edge_ends c e' = Some (h', t) -> i = j.
Proof.
  intros Hok%config_validate_ok Hin. pose proof (ok_unique _ Hok) as Hnd.
  destruct (wf_rule1 _ (ok_graph _ Hok) (edge_spec e)) as (h & t & Hj).
  { rewrite to_model_edges. by apply list_elem_of_fmap_2. }
  exists h, t. split_and!; [by apply edge_ends_joins|done|]. intros i j e' h' Hi Hj' He'.
  apply edge_ends_joins in He'; [|done].
  apply (wf_rule2 _ (ok_graph _ Hok) i j (edge_spec e) (edge_spec e') h h' t); try done;
    rewrite to_model_edges, list_lookup_fmap, ?Hi, ?Hj'; done.
Qed.
End theorems.
End config.

(** ** A sample configuration

    A board's serial port demultiplexed into two consoles, one of them watched
    through a map and logged, the other carried by a leg. *)
Definition lab : GraphConfig unit := mkConfig
  [Serial "board" "/dev/ttyUSB0" default_baud Eight ParityNone StopOne FlowNone Host Exclusive
     default_serial_hostward_buffer true DEFAULT_REPLAY_RING (mkModem None None);
   Codec "mux" "reference" Target ["console"; "trace"] Exclusive DEFAULT_REPLAY_RING tt;
   Map "tidy" ["crlf"] [] Exclusive DEFAULT_REPLAY_RING;
   Log "capture" "/var/log/lab" "console" DropOldest default_rotation_padding;
   Leg "uplink" Target Tcp Connect "127.0.0.1:7000" false default_reconnect_initial_ms
     default_reconnect_max_ms default_idle_release_ms true Exclusive DEFAULT_REPLAY_RING ["trace"]]
  [mkEdgeConfig (mkAddr "board" "") (mkAddr "mux" "") Held;
   mkEdgeConfig (mkAddr "mux" "console") (mkAddr "tidy" "raw") OnDemand;
   mkEdgeConfig (mkAddr "tidy" "") (mkAddr "capture" "") OnDemand;
   mkEdgeConfig (mkAddr "uplink" "trace") (mkAddr "mux" "trace") OnDemand].

(** The same with a second, undeclared-mode map on the console. *)
Example two_maps_rejected :
  @config_validate unit some_order some_order
    (mkConfig (cfg_nodes lab ++ [Map "tidy2" [] [] Exclusive 0])
              (cfg_edges lab ++ [mkEdgeConfig (mkAddr "mux" "console") (mkAddr "tidy2" "raw") OnDemand]))
  = Some (Ok [ConflictingHeldEdges (mkAddr "mux" "console") (mkAddr "tidy" "raw") (mkAddr "tidy2" "raw")]).
Proof. vm_compute. reflexivity. Qed.

Lemma single_held_origin_witness :
  @config_validate unit some_order some_order lab = Some (Ok []) /\
  effective_write_mode lab (mkEdgeConfig (mkAddr "mux" "console") (mkAddr "tidy" "raw") OnDemand) = Held /\
  1%nat = 1%nat.
Proof.
  split; [vm_compute; reflexivity|]. split; [vm_compute; reflexivity|].
  eapply (@single_held_origin unit some_order some_order lab 1 1); vm_compute; reflexivity.
Defined.

Lemma interior_edges_workable_witness :
  let e := mkEdgeConfig (mkAddr "tidy" "") (mkAddr "capture" "") OnDemand in
  effective_write_mode lab e = Never.
Proof.
  apply (@interior_edges_workable unit some_order some_order lab _ (mkAddr "tidy" "") (mkAddr "capture" ""));
    [vm_compute; reflexivity| |vm_compute; reflexivity|vm_compute; reflexivity].
  unfold lab. cbn. set_solver.
Defined.

Lemma edge_orientation_agrees_witness :
  exists h t, edge_ends lab (mkEdgeConfig (mkAddr "uplink" "trace") (mkAddr "mux" "trace") OnDemand) = Some (h, t).
Proof.
  destruct (@edge_orientation_agrees unit some_order some_order lab
              (mkEdgeConfig (mkAddr "uplink" "trace") (mkAddr "mux" "trace") OnDemand)) as (h & t & H & _).
  - vm_compute. reflexivity.
  - unfold lab. cbn. set_solver.
  - exists h, t. exact H.
Defined.
