(* ===== verification/Pattern.v ===== *)
(** * Pattern waits (daemon/src/pattern.rs)

    Request checks, the compiled pattern set and the bounded lookback window in
    which patterns are matched.  The regular-expression engine is a third-party
    crate: it is a parameter, with what is used of its documented behaviour as
    named laws. *)

From Stdlib Require Import Strings.String.
From S2P Require Import Prelude GraphTypes Envelope Config.
#[local] Open Scope Z_scope.

(** ** Limits *)

Definition MAX_PATTERNS : Z := 8.
Definition MAX_PATTERN_BYTES : Z := 1024.
Definition MAX_LOOKBACK : Z := 65536.
Definition DEFAULT_LOOKBACK : Z := 4096.
Definition MAX_CONTEXT : Z := 4096.
Definition DEFAULT_CONTEXT : Z := 128.
Definition MAX_WAIT_MS : Z := MAX_TIMER_MS.

Inductive PatternKind := Literal | Regex.

#[export] Instance PatternKind_eq_dec : EqDecision PatternKind.
Proof. solve_decision. Defined.

Definition kind_as_str (k : PatternKind) : string :=
  match k with Literal => "literal" | Regex => "regex" end.

Record PatternSpec := mkSpec { spec_name : string; spec_kind : PatternKind; spec_bytes : list byte }.

Inductive PatternError :=
| Count (n : Z)
| NameLen (name_len : Z)
| DuplicateName (name : string)
| PatternLen (name : string) (plen : Z)
| PatternEmpty (name : string)
| RegexNotUtf8 (name : string)
| Compile (name : option string) (why : string)
| Range (field : string) (value max : Z)
| LookbackTooSmall (value min : Z).

(** [min_lookback]: the longest literal, at least one byte. *)
Definition min_lookback (specs : list PatternSpec) : Z :=
  Z.max 1 (foldr (fun s n => Z.max (len (spec_bytes s)) n) 1
                 (filter (fun s => spec_kind s = Literal) specs)).

Definition checked (field : string) (value max : Z) : exec PatternError Z :=
  reject value >? max with Range field value max; Ok value.

(** ** The engine *)

(** Where a pattern fired, in window coordinates. *)
Record Hit := mkHit { hit_index : nat; hit_start : nat; hit_end : nat }.

(** [regex_automata::meta::Regex]: [build_many] on the sources (a build error may
    name a pattern), [find] the leftmost match. *)
Class Engine := {
  meta_regex : Type;
  build_many : list string -> (option nat * string) + meta_regex;
  re_find : meta_regex -> list byte -> option Hit
}.

Definition hex_digit (v : Z) : byte := as_u8 (if v <? 10 then 48 + v else 87 + v).

(** [escape_bytes]: every byte as [\xNN]. *)
Definition escape_bytes (bytes : list byte) : string :=
  from_bytes (bytes ≫= fun b => [x5c; x78; hex_digit (bval b / 16); hex_digit (bval b mod 16)]).

Section pattern.
Context `{E : Engine}.

Record Matcher := mkMatcher { re : meta_regex; names : list string }.

(** ** Compilation *)

Fixpoint compile_loop (ns sources : list string) (specs : list PatternSpec)
  : exec PatternError (list string * list string) :=
  match specs with
  | [] => Ok (ns, sources)
  | s :: specs =>
      reject bool_decide (spec_name s = ""%string) || (slen (spec_name s) >? MAX_NAME_LEN)
        with NameLen (slen (spec_name s));
      reject bool_decide (spec_name s ∈ ns) with DuplicateName (spec_name s);
      reject bool_decide (spec_bytes s = []) with PatternEmpty (spec_name s);
      reject len (spec_bytes s) >? MAX_PATTERN_BYTES
        with PatternLen (spec_name s) (len (spec_bytes s));
      source ← match spec_kind s with
               | Literal => Ok (escape_bytes (spec_bytes s))
               | Regex => from_utf8 (RegexNotUtf8 (spec_name s)) (spec_bytes s)
               end;
      compile_loop (ns ++ [spec_name s]) (sources ++ [source]) specs
  end.

Definition compile (specs : list PatternSpec) : exec PatternError Matcher :=
  reject bool_decide (specs = []) || (len specs >? MAX_PATTERNS) with Count (len specs);
  '(ns, sources) ← compile_loop [] [] specs;
  match build_many sources with
  | inr r => Ok (mkMatcher r ns)
  | inl (id, why) => Err (Compile (id ≫= fun i => ns !! i) why)
  end.

Definition earliest (m : Matcher) (hay : list byte) : option Hit := re_find (re m) hay.

(** [Matcher::name]: [&self.names\[index\]]. *)
Definition matcher_name (m : Matcher) (index : nat) : exec unit string :=
  match names m !! index with Some n => Ok n | None => Panic end.

(** ** The scan window *)

Record PatternMatch := mkMatch {
  pattern : string;
  offset : Z;
  end_offset : Z;
  context_bytes : list byte;
  context_offset : Z
}.

Record ScanWindow := mkWindow {
  matcher : Matcher;
  buf : list byte;
  lookback : nat;
  context : nat;
  base : Z;
  scanned : Z;
  gaps : Z;
  gap_bytes : Z
}.

Definition window_new (m : Matcher) (lookback context : nat) (base : Z) : ScanWindow :=
  mkWindow m [] lookback context base 0 0 0.

(** [&buf\[s..e\]]. *)
Definition subslice (s e : nat) (l : list byte) : exec unit (list byte) :=
  if ((s <=? e) && (e <=? length l))%nat then Ok (take (e - s) (drop s l)) else Panic.

Definition scan (w : ScanWindow) : exec unit (option PatternMatch) :=
  match earliest (matcher w) (buf w) with
  | None => Ok None
  | Some hit =>
      let half := (context w / 2)%nat in
      let ctx_start := (hit_start hit - half)%nat in
      let ctx_end := Nat.min (hit_end hit + half) (length (buf w)) in
      ctx ← subslice ctx_start ctx_end (buf w);
      let ctx := take (Nat.min (length ctx) (context w)) ctx in
      name ← matcher_name (matcher w) (hit_index hit);
      Ok (Some (mkMatch name
                  (u64_wrapping_add (base w) (Z.of_nat (hit_start hit)))
                  (u64_wrapping_add (base w) (Z.of_nat (hit_end hit)))
                  ctx
                  (u64_wrapping_add (base w) (Z.of_nat ctx_start))))
  end.

Definition trim (w : ScanWindow) : ScanWindow :=
  if (lookback w <? length (buf w))%nat then
    let d := (length (buf w) - lookback w)%nat in
    mkWindow (matcher w) (drop d (buf w)) (lookback w) (context w)
             (u64_wrapping_add (base w) (Z.of_nat d)) (scanned w) (gaps w) (gap_bytes w)
  else w.

(** The shared tail of [seed] and [feed]: scan, and trim when nothing was found. *)
Definition scan_then_trim (w : ScanWindow) : exec unit (ScanWindow * option PatternMatch) :=
  hit ← scan w;
  Ok (match hit with None => trim w | Some _ => w end, hit).

(** [if gap > 0 { self.gaps += 1; self.gap_bytes = ..saturating_add(gap) }]. *)
Definition count_gap (w : ScanWindow) (gap : Z) : ScanWindow :=
  if gap >? 0 then
    mkWindow (matcher w) (buf w) (lookback w) (context w) (base w) (scanned w)
             (u64_wrapping_add (gaps w) 1) (u64_saturating_add (gap_bytes w) gap)
  else w.

Definition seed (w : ScanWindow) (ring : list byte) (base0 excluded_gap : Z)
  : exec unit (ScanWindow * option PatternMatch) :=
  let w := count_gap w excluded_gap in
  scan_then_trim
    (mkWindow (matcher w) ring (lookback w) (context w) base0
              (u64_wrapping_add (scanned w) (len ring)) (gaps w) (gap_bytes w)).

(** The reset a gap forces on the window. *)
Definition gap_reset (w : ScanWindow) (gap : Z) : ScanWindow :=
  if gap >? 0 then
    let w := count_gap w gap in
    mkWindow (matcher w) [] (lookback w) (context w)
             (u64_wrapping_add (base w) (len (buf w))) (scanned w) (gaps w) (gap_bytes w)
  else w.

Definition feed (w : ScanWindow) (chunk : list byte) (gap_before : Z)
  : exec unit (ScanWindow * option PatternMatch) :=
  let w := gap_reset w gap_before in
  scan_then_trim
    (mkWindow (matcher w) (buf w ++ chunk) (lookback w) (context w) (base w)
              (u64_wrapping_add (scanned w) (len chunk)) (gaps w) (gap_bytes w)).

(** Feeding a sequence of chunks, each with the gap before it, until one hits:
    what an armed wait does. *)
Fixpoint observe (w : ScanWindow) (events : list (list byte * Z))
  : exec unit (ScanWindow * option PatternMatch) :=
  match events with
  | [] => Ok (w, None)
  | (chunk, gap) :: events =>
      '(w, hit) ← feed w chunk gap;
      match hit with Some m => Ok (w, Some m) | None => observe w events end
  end.

(** ** Laws of the engine *)

(** A match lies inside the haystack and names a pattern of the set. *)
Definition in_haystack (m : Matcher) : Prop :=
  forall hay h, re_find (re m) hay = Some h ->
    (hit_start h <= hit_end h <= length hay)%nat /\ (hit_index h < length (names m))%nat.

(** [p] occurs in [s] at [i]. *)
Definition occurs_at (p s : list byte) (i : nat) : Prop := take (length p) (drop i s) = p.

Definition none_occurs (pats : list (list byte)) (s : list byte) : Prop :=
  forall p i, p ∈ pats -> ~ occurs_at p s i.

(** Leftmost search for a set of byte strings. *)
Definition finds_literals (m : Matcher) (pats : list (list byte)) : Prop :=
  forall hay,
    match re_find (re m) hay with
    | None => none_occurs pats hay
    | Some h => exists p, pats !! hit_index h = Some p /\ occurs_at p hay (hit_start h) /\
                  hit_end h = (hit_start h + length p)%nat /\
                  forall p' i, p' ∈ pats -> occurs_at p' hay i -> (hit_start h <= i)%nat
    end.

(** ** Occurrences and suffixes *)

Lemma occurs_at_fits p s i : p <> [] -> occurs_at p s i -> (i + length p <= length s)%nat.
Proof.
  intros Hp H. apply (f_equal length) in H. rewrite length_take, length_drop in H.
  assert (length p <> 0%nat) by (by destruct p). lia.
Qed.

Lemma occurs_at_drop p s d i : occurs_at p (drop d s) i <-> occurs_at p s (d + i).
Proof. unfold occurs_at. by rewrite drop_drop. Qed.

Lemma occurs_at_prefix p s t i :
  (i + length p <= length s)%nat -> occurs_at p (s ++ t) i <-> occurs_at p s i.
Proof.
  intros H. unfold occurs_at. rewrite drop_app_le by lia. rewrite take_app_le; [done|].
  rewrite length_drop. lia.
Qed.

(** ** The window invariant

    [s] is everything fed so far, [seg] the position of the last gap in it; the
    window is a suffix of [s] that starts after the gap and is complete unless it
    is [lookback] deep. *)
Definition window_at (w : ScanWindow) (b0 : Z) (s : list byte) (seg d : nat) : Prop :=
  (seg <= d <= length s)%nat /\ buf w = drop d s /\ base w = b0 + Z.of_nat d /\
  (d = seg \/ (lookback w <= length (buf w))%nat).

(** Two windows over the same matcher and limits. *)
Definition same_setup (w w' : ScanWindow) : Prop :=
  matcher w' = matcher w /\ lookback w' = lookback w /\ context w' = context w.

Lemma same_setup_trans w w' w'' : same_setup w w' -> same_setup w' w'' -> same_setup w w''.
Proof. intros (? & ? & ?) (? & ? & ?). repeat split; congruence. Qed.

(** What [feed] scans: the window after the reset and the append. *)
Definition fed (w : ScanWindow) (chunk : list byte) (gap : Z) : ScanWindow :=
  let w := gap_reset w gap in
  mkWindow (matcher w) (buf w ++ chunk) (lookback w) (context w) (base w)
           (u64_wrapping_add (scanned w) (len chunk)) (gaps w) (gap_bytes w).

Lemma feed_eq w chunk gap : feed w chunk gap = scan_then_trim (fed w chunk gap).
Proof. reflexivity. Qed.

Lemma fed_setup w chunk gap : same_setup w (fed w chunk gap).
Proof. unfold fed, gap_reset, count_gap, same_setup. by destruct (gap >? 0). Qed.

Definition new_seg (s : list byte) (seg : nat) (gap : Z) : nat :=
  if gap >? 0 then length s else seg.

Lemma window_fed w b0 s seg d chunk gap :
  0 <= b0 -> b0 + len (s ++ chunk) <= u64_max -> window_at w b0 s seg d ->
  exists d', window_at (fed w chunk gap) b0 (s ++ chunk) (new_seg s seg gap) d' /\
    (d' = new_seg s seg gap \/ (d' = d /\ (lookback w <= length s - d)%nat)) /\ (d' <= length s)%nat.
Proof.
  intros Hb Hmax (Hd & Hbuf & Hbase & Hdeep). unfold fed, gap_reset, new_seg, count_gap.
  rewrite len_app in Hmax. unfold len in Hmax.
  destruct (gap >? 0) eqn:Hg; rewrite ?Hg; cbn.
  - exists (length s). split; [|split; [by left|lia]]. unfold window_at. cbn [buf base lookback matcher].
    rewrite length_app, drop_app_length, Hbuf, Hbase. split_and!; [lia|lia|done| |by left].
    unfold len. rewrite length_drop, u64_wrapping_add_small by lia. lia.
  - exists d. split; [|split; [|lia]].
    + unfold window_at. cbn [buf base lookback matcher]. rewrite length_app, drop_app_le, Hbuf by lia.
      split_and!; [lia|lia|done|done|]. destruct Hdeep as [->|Hdeep]; [by left|right].
      rewrite Hbuf in Hdeep. rewrite length_app. lia.
    + destruct Hdeep as [->|Hdeep]; [by left|right]. split; [done|].
      by rewrite Hbuf, length_drop in Hdeep.
Qed.

Lemma window_trim w b0 s seg d :
  0 <= b0 -> b0 + len s <= u64_max -> window_at w b0 s seg d ->
  exists d', window_at (trim w) b0 s seg d' /\ same_setup w (trim w) /\
             (length (buf (trim w)) <= lookback w)%nat.
Proof.
  intros Hb Hmax (Hd & Hbuf & Hbase & Hdeep). unfold trim. unfold len in Hmax.
  destruct (Nat.ltb_spec (lookback w) (length (buf w))) as [Hlt|Hge].
  - rewrite Hbuf, length_drop in Hlt. exists (length s - lookback w)%nat.
    split; [|split; [done|]].
    + unfold window_at. cbn [buf base lookback]. rewrite Hbuf, Hbase, drop_drop, length_drop.
      replace (d + (length s - d - lookback w))%nat with (length s - lookback w)%nat by lia.
      split_and!; [lia|lia|done| |right; rewrite length_drop; lia].
      rewrite u64_wrapping_add_small by lia. lia.
    + cbn [buf lookback]. rewrite Hbuf, !length_drop. lia.
  - exists d. split; [done|]. split; [done|lia].
Qed.

Lemma take_min_length {A} (l : list A) n : take (Nat.min (length l) n) l = take n l.
Proof.
  destruct (Nat.le_gt_cases n (length l)); [by rewrite Nat.min_r|].
  rewrite Nat.min_l, take_ge by lia. by rewrite take_ge by lia.
Qed.

(** ** One scan *)

(** What a hit reports of the stream [s] (offsets from [b0]): a range of the
    window and a bounded excerpt around it. *)
Definition reported (w : ScanWindow) (b0 : Z) (s : list byte) (seg : nat) (h : Hit) (d : nat)
    (m : PatternMatch) : Prop :=
  names (matcher w) !! hit_index h = Some (pattern m) /\
  offset m = b0 + Z.of_nat (d + hit_start h) /\ end_offset m = b0 + Z.of_nat (d + hit_end h) /\
  (seg <= d + hit_start h <= d + hit_end h)%nat /\ (d + hit_end h <= length s)%nat /\
  (length (context_bytes m) <= context w)%nat /\
  exists c, (seg <= c <= d + hit_start h)%nat /\ context_offset m = b0 + Z.of_nat c /\
    context_bytes m = take (length (context_bytes m)) (drop c s).

Lemma scan_reports w b0 s seg d :
  0 <= b0 -> b0 + len s <= u64_max -> in_haystack (matcher w) -> window_at w b0 s seg d ->
  match earliest (matcher w) (buf w) with
  | None => scan w = Ok None
  | Some h => exists m, scan w = Ok (Some m) /\ reported w b0 s seg h d m
  end.
Proof.
  intros Hb Hmax He (Hd & Hbuf & Hbase & Hdeep). unfold scan. unfold len in Hmax.
  destruct (earliest (matcher w) (buf w)) as [h|] eqn:Eh; [|done].
  destruct (He _ _ Eh) as [Hr Hi]. apply lookup_lt_is_Some in Hi as [nm Hnm].
  rewrite Hbuf, length_drop in Hr. set (half := (context w / 2)%nat).
  unfold subslice. rewrite (proj2 (andb_true_iff _ _)).
  2:{ rewrite !Nat.leb_le, Hbuf, length_drop. split; lia. }
  cbn [mbind exec_bind]. unfold matcher_name. rewrite Hnm. cbn [mbind exec_bind].
  eexists. split; [reflexivity|].
  set (c := take _ _). unfold reported. cbn [pattern offset end_offset context_bytes context_offset].
  rewrite Hbase, !u64_wrapping_add_small by lia.
  split_and!; [done|lia|lia|lia|lia|lia| |].
  - subst c. rewrite length_take. lia.
  - exists (d + (hit_start h - half))%nat. split_and!; [lia|lia|lia|].
    subst c. rewrite take_min_length, Hbuf, drop_drop, take_take.
    set (k := Nat.min _ _). rewrite length_take.
    set (l := drop _ s). destruct (Nat.le_gt_cases k (length l)).
    + by rewrite Nat.min_l.
    + rewrite Nat.min_r, (take_ge l k), take_ge by lia. done.
Qed.

(** ** Any engine: a hit lies after the last gap *)

(** The stream delivered by a list of events, and the position of its last gap. *)
Definition delivered (events : list (list byte * Z)) : list byte := mjoin events.*1.

Fixpoint last_gap (s : list byte) (seg : nat) (events : list (list byte * Z)) : nat :=
  match events with
  | [] => seg
  | (chunk, gap) :: events => last_gap (s ++ chunk) (new_seg s seg gap) events
  end.

Lemma delivered_cons chunk gap events :
  delivered ((chunk, gap) :: events) = chunk ++ delivered events.
Proof. reflexivity. Qed.

Lemma observe_reports events w b0 s seg d :
  0 <= b0 -> b0 + len (s ++ delivered events) <= u64_max -> in_haystack (matcher w) ->
  window_at w b0 s seg d ->
  exists w' r, observe w events = Ok (w', r) /\
    match r with
    | None => same_setup w w' /\ exists d', window_at w' b0 (s ++ delivered events) (last_gap s seg events) d'
    | Some m => exists n h d', (n <= length events)%nat /\
        reported w b0 (s ++ delivered (take n events)) (last_gap s seg (take n events)) h d' m
    end.
Proof.
  revert w s seg d. induction events as [|[chunk gap] events IH]; intros w s seg d Hb Hmax He Hw.
  { exists w, None. split; [done|]. split; [done|]. exists d. by rewrite app_nil_r. }
  cbn [observe]. rewrite delivered_cons, app_assoc in *. rewrite len_app in Hmax.
  pose proof (len_nonneg (delivered events)) as Hpos.
  destruct (window_fed w b0 s seg d chunk gap) as (d' & Hw' & _); [done|lia|done|].
  destruct (fed_setup w chunk gap) as (Sm & Sl & Sc).
  rewrite feed_eq. unfold scan_then_trim.
  pose proof (scan_reports (fed w chunk gap) b0 (s ++ chunk) (new_seg s seg gap) d') as Hs.
  rewrite Sm in Hs. specialize (Hs Hb ltac:(lia) He Hw').
  destruct (earliest _ _) as [h|].
  - destruct Hs as (m & -> & Hrep). cbn. exists (fed w chunk gap), (Some m). split; [done|].
    exists 1%nat, h, d'. split; [cbn; lia|].
    cbn [take last_gap]. rewrite take_0, delivered_cons, app_nil_r. unfold reported in *. by rewrite Sm, Sc in Hrep.
  - rewrite Hs. cbn.
    destruct (window_trim (fed w chunk gap) b0 (s ++ chunk) (new_seg s seg gap) d') as (d'' & Ht & St & _);
      [done|lia|done|].
    pose proof (same_setup_trans _ _ _ (conj Sm (conj Sl Sc)) St) as (Tm & Tl & Tc).
    destruct (IH (trim (fed w chunk gap)) (s ++ chunk) (new_seg s seg gap) d'') as (w' & r & Ho & Hr);
      [done|by rewrite len_app|by rewrite Tm|done|].
    exists w', r. rewrite Ho. split; [done|]. destruct r as [m|].
    + destruct Hr as (n & h & d3 & Hn & Hrep). exists (S n), h, d3. split; [cbn; lia|].
      cbn [take last_gap]. rewrite delivered_cons, app_assoc. unfold reported in *. by rewrite Tm, Tc in Hrep.
    + destruct Hr as [Hs' (d3 & Hw3)]. split; [by eapply same_setup_trans; [|done]|].
      by exists d3.
Qed.

(** ** Literal sets: nothing is missed across chunk boundaries *)

Lemma finds_literals_in_haystack m pats :
  length (names m) = length pats -> Forall (fun p => p <> []) pats -> finds_literals m pats -> in_haystack m.
Proof.
  intros Hl Hne Hf hay h Hh. specialize (Hf hay). rewrite Hh in Hf. destruct Hf as (p & Hp & Ho & He & _).
  rewrite Forall_lookup in Hne. apply Hne in Hp as Hpn. apply occurs_at_fits in Ho; [|done].
  apply lookup_lt_Some in Hp. lia.
Qed.

Section literals.
Context (m : Matcher) (pats : list (list byte)).
Hypothesis Hfind : finds_literals m pats.
Hypothesis Hnames : length (names m) = length pats.
Hypothesis Hpats : Forall (fun p => p <> []) pats.

Lemma pat_nonempty p : p ∈ pats -> p <> [].
Proof. rewrite Forall_forall in Hpats. apply Hpats. Qed.

(** An occurrence in the extended stream that is not in the window was in the
    stream before. *)
Lemma window_covers w b0 s chunk d p i :
  window_at (fed w chunk 0) b0 (s ++ chunk) 0 d -> (d = 0 \/ (lookback w <= length s - d)%nat)%nat ->
  (d <= length s)%nat -> none_occurs pats s ->
  p ∈ pats -> (length p <= lookback w)%nat -> occurs_at p (s ++ chunk) i ->
  (d <= i)%nat /\ occurs_at p (buf (fed w chunk 0)) (i - d).
Proof.
  intros (Hd & Hbuf & _) Hdeep Hds Hno Hp Hlen Ho.
  assert (d <= i)%nat as Hdi.
  { destruct (Nat.le_gt_cases d i) as [|Hlt]; [done|]. exfalso. apply (Hno p i Hp).
    apply (occurs_at_prefix p s chunk i); [|done]. lia. }
  split; [done|]. rewrite Hbuf, occurs_at_drop. by replace (d + (i - d))%nat with i by lia.
Qed.

(** The verdict on a gap-free stream [s]. *)
Definition first_occurrence (b0 : Z) (s : list byte) (pm : PatternMatch) : Prop :=
  exists i p k, pats !! i = Some p /\ names m !! i = Some (pattern pm) /\ occurs_at p s k /\
    offset pm = b0 + Z.of_nat k /\ end_offset pm = b0 + Z.of_nat (k + length p) /\
    forall p' k', p' ∈ pats -> occurs_at p' s k' -> (k <= k')%nat.

Lemma observe_literals (chunks : list (list byte)) w b0 s d :
  0 <= b0 -> b0 + len (s ++ mjoin chunks) <= u64_max -> matcher w = m ->
  (forall p, p ∈ pats -> (length p <= lookback w)%nat) ->
  window_at w b0 s 0 d -> none_occurs pats s ->
  exists w' r, observe w ((fun c => (c, 0)) <$> chunks) = Ok (w', r) /\
    match r with
    | None => none_occurs pats (s ++ mjoin chunks)
    | Some pm => exists n, (n < length chunks)%nat /\ none_occurs pats (s ++ mjoin (take n chunks)) /\
        first_occurrence b0 (s ++ mjoin (take (S n) chunks)) pm
    end.
Proof.
  pose proof (finds_literals_in_haystack _ _ Hnames Hpats Hfind) as Hin.
  revert w s d. induction chunks as [|chunk chunks IH]; intros w s d Hb Hmax Hm Hlk Hw Hno.
  { exists w, None. split; [done|]. cbn. by rewrite app_nil_r. }
  change (mjoin (chunk :: chunks)) with (chunk ++ mjoin chunks) in *.
  rewrite app_assoc in *. rewrite len_app in Hmax. pose proof (len_nonneg (mjoin chunks)).
  cbn [fmap list_fmap observe]. rewrite feed_eq.
  destruct (window_fed w b0 s 0 d chunk 0) as (d' & Hw' & Hdeep & Hds); [done|lia|done|].
  change (new_seg s 0 0) with 0%nat in *.
  destruct (fed_setup w chunk 0) as (Sm & Sl & Sc). rewrite Hm in Sm.
  assert (d' = 0 \/ (lookback w <= length s - d')%nat)%nat as Hdeep' by (destruct Hdeep as [|[-> ?]]; auto).
  assert (forall p i, p ∈ pats -> occurs_at p (s ++ chunk) i ->
            (d' <= i)%nat /\ occurs_at p (buf (fed w chunk 0)) (i - d')) as Hcov
    by (intros p i Hp Ho; eapply window_covers; eauto).
  pose proof (scan_reports (fed w chunk 0) b0 (s ++ chunk) 0 d') as Hs.
  rewrite Sm in Hs. specialize (Hs Hb ltac:(lia) Hin Hw'). unfold earliest in Hs.
  specialize (Hfind (buf (fed w chunk 0))). unfold scan_then_trim.
  destruct (re_find (re m) (buf (fed w chunk 0))) as [h|].
  - destruct Hs as (pm & -> & Hrep). cbn. exists (fed w chunk 0), (Some pm). split; [done|].
    exists 0%nat. split; [cbn; lia|]. cbn [take]. rewrite !app_nil_r. split; [done|].
    destruct Hfind as (p & Hp & Ho & He & Hleft). destruct Hrep as (Hn & Hoff & Hend & _). rewrite Sm in Hn.
    destruct Hw' as (_ & Hbuf & _). rewrite Hbuf, occurs_at_drop in Ho.
    exists (hit_index h), p, (d' + hit_start h)%nat. split_and!; [done|done|done|done| |].
    + rewrite Hend, He. lia.
    + intros p' k Hp' Hk. destruct (Hcov _ _ Hp' Hk) as [Hdk Hok]. specialize (Hleft _ _ Hp' Hok). lia.
  - rewrite Hs. cbn. assert (none_occurs pats (s ++ chunk)) as Hno'.
    { intros p i Hp Ho. destruct (Hcov _ _ Hp Ho) as [_ Hok]. by apply (Hfind p (i - d')%nat). }
    destruct (window_trim (fed w chunk 0) b0 (s ++ chunk) 0 d') as (d'' & Ht & (Tm & Tl & Tc) & _); [done|lia|done|].
    destruct (IH (trim (fed w chunk 0)) (s ++ chunk) d'') as (w' & r & Hr & Hpost);
      [done|by rewrite len_app|congruence|by rewrite Tl, Sl|done|done|].
    exists w', r. rewrite Hr. split; [done|]. destruct r as [pm|]; [|done].
    destruct Hpost as (n & Hn & Hpre & Hfirst). exists (S n). split; [cbn; lia|].
    cbn [take]. change (mjoin (chunk :: ?l)) with (chunk ++ mjoin l). by rewrite !app_assoc.
Qed.
End literals.

(** ** Compilation facts *)

Definition spec_ok (s : PatternSpec) : Prop :=
  1 <= slen (spec_name s) <= MAX_NAME_LEN /\ 1 <= len (spec_bytes s) <= MAX_PATTERN_BYTES.

Lemma compile_loop_cons s specs ns sources r :
  compile_loop ns sources (s :: specs) = Ok r ->
  spec_ok s /\ (spec_name s ∉ ns) /\
  exists source, (spec_kind s = Literal -> source = escape_bytes (spec_bytes s)) /\
    compile_loop (ns ++ [spec_name s]) (sources ++ [source]) specs = Ok r.
Proof.
  cbn [compile_loop].
  destruct (bool_decide (spec_name s = _) || _) eqn:E1; [done|].
  destruct (bool_decide (spec_name s ∈ ns)) eqn:E2; [done|].
  destruct (bool_decide (spec_bytes s = [])) eqn:E3; [done|].
  destruct (len (spec_bytes s) >? MAX_PATTERN_BYTES) eqn:E4; [done|]. intros H.
  rewrite Z.gtb_ltb in E4. apply orb_false_elim in E1 as [E0 E1]. rewrite Z.gtb_ltb in E1. split_bools.
  split; [|split; [done|]].
  - unfold spec_ok, slen, len in *. destruct (spec_name s); [done|]. destruct (spec_bytes s); [done|]. cbn in *. lia.
  - destruct (spec_kind s); cbn in H.
    + eexists. split; [|exact H]. done.
    + unfold from_utf8 in H. destruct (utf8_valid _); [|done]. cbn in H.
      eexists. split; [|exact H]. discriminate.
Qed.

Lemma compile_loop_ok specs ns sources ns' sources' :
  compile_loop ns sources specs = Ok (ns', sources') ->
  ns' = ns ++ (spec_name <$> specs) /\ (NoDup ns -> NoDup ns') /\ Forall spec_ok specs /\
  ((forall s, s ∈ specs -> spec_kind s = Literal) ->
   sources' = sources ++ ((fun s => escape_bytes (spec_bytes s)) <$> specs)).
Proof.
  revert ns sources. induction specs as [|s specs IH]; intros ns sources.
  { intros [= <- <-]. cbn. rewrite !app_nil_r. split_and!; [done|done|constructor|done]. }
  intros (Hs & Hnew & source & Hsrc & Hl)%compile_loop_cons.
  apply IH in Hl as (-> & Hnd & Hf & Hlit). rewrite !fmap_cons, <- app_assoc in *. split_and!.
  - done.
  - intros Hns. apply Hnd. apply NoDup_app. split_and!; [done|set_solver|apply NoDup_singleton].
  - by constructor.
  - intros Hall. rewrite Hlit by (intros; apply Hall; by right).
    by rewrite Hsrc by (apply Hall; left).
Qed.

Lemma compile_ok specs m :
  compile specs = Ok m ->
  1 <= len specs <= MAX_PATTERNS /\ names m = spec_name <$> specs /\ NoDup (names m) /\ Forall spec_ok specs /\
  ((forall s, s ∈ specs -> spec_kind s = Literal) ->
   build_many ((fun s => escape_bytes (spec_bytes s)) <$> specs) = inr (re m)).
Proof.
  unfold compile. destruct (bool_decide (specs = []) || _) eqn:E1; [done|].
  apply orb_false_elim in E1 as [E0 E1]. rewrite Z.gtb_ltb in E1. split_bools.
  destruct (compile_loop [] [] specs) as [[ns sources]| |] eqn:El; cbn; [|done|done].
  destruct (build_many sources) as [[id why]|r] eqn:Eb; [done|]. intros [= <-].
  apply compile_loop_ok in El as (-> & Hnd & Hf & Hlit). cbn [names re app] in *. split_and!; try done.
  - unfold len. destruct specs; [done|]. cbn. lia.
  - apply Hnd. constructor.
  - intros Hall. by rewrite <- Hlit.
Qed.

Lemma min_lookback_covers specs lb s :
  min_lookback specs <= Z.of_nat lb -> s ∈ specs -> spec_kind s = Literal ->
  (length (spec_bytes s) <= lb)%nat.
Proof.
  unfold min_lookback. intros Hm Hin Hk.
  assert (s ∈ filter (fun s => spec_kind s = Literal) specs) as Hf by (by apply list_elem_of_filter).
  revert Hm Hf. generalize (filter (fun s => spec_kind s = Literal) specs) as l.
  induction l as [|x l IH]; intros Hm Hf; [by apply elem_of_nil in Hf|]. cbn [foldr] in Hm. unfold len in *.
  apply elem_of_cons in Hf as [->|Hf]; [lia|]. apply IH; [lia|done].
Qed.

(** ** Properties *)

(** Whatever the engine (its matches lie in the haystack), feeding chunks to
    a fresh window never panics; a reported match lies wholly in the bytes
    delivered since the last gap, its offsets are exact stream offsets, and the
    excerpt is a bounded slice of the same contiguous bytes at the offset it
    states. *)
Theorem match_after_last_gap m lb ctx b0 events :
  in_haystack m -> 0 <= b0 -> b0 + len (delivered events) <= u64_max ->
  exists w r, observe (window_new m lb ctx b0) events = Ok (w, r) /\
    forall pm, r = Some pm ->
    exists n st en c,
      let s := delivered (take n events) in
      let gap := last_gap [] 0 (take n events) in
      (gap <= c <= st)%nat /\ (st <= en <= length s)%nat /\
      offset pm = b0 + Z.of_nat st /\ end_offset pm = b0 + Z.of_nat en /\
      context_offset pm = b0 + Z.of_nat c /\ (length (context_bytes pm) <= ctx)%nat /\
      context_bytes pm = take (length (context_bytes pm)) (drop c s) /\
      pattern pm ∈ names m.
Proof.
  intros He Hb Hmax.
  destruct (observe_reports events (window_new m lb ctx b0) b0 [] 0 0) as (w & r & Ho & Hr); try done.
  { unfold window_at. cbn. split_and!; [lia|lia|done|lia|by left]. }
  exists w, r. split; [done|]. intros pm ->. destruct Hr as (n & h & d & Hn & Hrep).
  destruct Hrep as (Hnm & Ho1 & Ho2 & Hr1 & Hr2 & Hc & c & Hc1 & Hc2 & Hc3).
  cbn [app] in *. exists n, (d + hit_start h)%nat, (d + hit_end h)%nat, c.
  cbn zeta. split_and!; try done; try lia. by eapply list_elem_of_lookup_2.
Qed.

(** C19: for a set of literals, with the lookback at the enforced minimum or above
    and an engine that finds literals leftmost, a gap-free stream is scanned
    exactly, however it is cut into chunks: no hit means no pattern occurs
    anywhere in it; a hit comes with the first chunk that completes an occurrence
    and reports the leftmost one, by name and by exact offsets. *)
Theorem literal_wait_exact specs m lb ctx b0 (chunks : list (list byte)) :
  compile specs = Ok m -> (forall s, s ∈ specs -> spec_kind s = Literal) ->
  min_lookback specs <= Z.of_nat lb ->
  finds_literals m (spec_bytes <$> specs) ->
  0 <= b0 -> b0 + len (mjoin chunks) <= u64_max ->
  exists w r, observe (window_new m lb ctx b0) ((fun c => (c, 0)) <$> chunks) = Ok (w, r) /\
    match r with
    | None => none_occurs (spec_bytes <$> specs) (mjoin chunks)
    | Some pm => exists n, (n < length chunks)%nat /\
        none_occurs (spec_bytes <$> specs) (mjoin (take n chunks)) /\
        first_occurrence m (spec_bytes <$> specs) b0 (mjoin (take (S n) chunks)) pm
    end.
Proof.
  intros (_ & Hn & _ & Hok & _)%compile_ok Hlit Hlb Hf Hb Hmax.
  assert (Forall (fun p => p <> []) (spec_bytes <$> specs)) as Hne.
  { apply Forall_fmap. eapply Forall_impl; [exact Hok|]. intros s [_ Hl] Hn0. cbn in Hn0. rewrite Hn0, len_nil in Hl. lia. }
  destruct (observe_literals m (spec_bytes <$> specs) Hf ltac:(by rewrite Hn, !length_fmap) Hne chunks
              (window_new m lb ctx b0) b0 [] 0) as (w & r & Ho & Hr); try done.
  - intros p (s & -> & Hs)%list_elem_of_fmap. by eapply min_lookback_covers; [| |apply Hlit].
  - unfold window_at. cbn. split_and!; [lia|lia|done|lia|by left].
  - intros p i (s & -> & Hs)%list_elem_of_fmap Ho. apply occurs_at_fits in Ho; cbn in Ho.
    + rewrite Forall_forall in Hok. destruct (Hok s Hs) as [_ Hl]. unfold len in Hl. lia.
    + rewrite Forall_forall in Hok. destruct (Hok s Hs) as [_ Hl]. intros Hn0. rewrite Hn0, len_nil in Hl. lia.
  - exists w, r. split; [done|]. done.
Qed.

(** A compiled pattern set has between one and [MAX_PATTERNS] patterns with
    pairwise different names in the caller's order, every name and pattern within
    its bounds, and a literal reaches the engine escaped byte by byte. *)
Theorem compile_checks specs m :
  compile specs = Ok m ->
  1 <= len specs <= MAX_PATTERNS /\ names m = spec_name <$> specs /\ NoDup (names m) /\ Forall spec_ok specs /\
  ((forall s, s ∈ specs -> spec_kind s = Literal) ->
   build_many ((fun s => escape_bytes (spec_bytes s)) <$> specs) = inr (re m)).
Proof. apply compile_ok. Qed.
End pattern.

(** ** An engine for literals

    A concrete engine that reads the [\xNN] form back and searches naively: it
    satisfies the laws above. *)

Definition hex_val (b : byte) : option Z :=
  let v := bval b in
  if (48 <=? v) && (v <=? 57) then Some (v - 48)
  else if (97 <=? v) && (v <=? 102) then Some (v - 87) else None.

Fixpoint unescape (s : list byte) : option (list byte) :=
  match s with
  | [] => Some []
  | x5c :: x78 :: h :: l :: s =>
      h ← hex_val h; l ← hex_val l; bs ← unescape s; Some (as_u8 (16 * h + l) :: bs)
  | _ => None
  end.

Fixpoint literal_search (pats : list (list byte)) (i : nat) (h : list byte) : option Hit :=
  match list_find (fun p => take (length p) h = p) pats with
  | Some (k, p) => Some (mkHit k i (i + length p))
  | None => match h with [] => None | _ :: h => literal_search pats (S i) h end
  end.

Definition literal_engine : Engine := {|
  meta_regex := list (list byte);
  build_many := fun sources => match mapM (fun s => unescape (as_bytes s)) sources with
                               | Some pats => inr pats
                               | None => inl (None, "unsupported"%string)
                               end;
  re_find := fun pats hay => literal_search pats 0 hay
|}.

Lemma hex_val_digit v : 0 <= v < 16 -> hex_val (hex_digit v) = Some v.
Proof.
  intros H. assert (v ∈ seqZ 0 16) as Hin by (apply elem_of_seqZ; lia). revert v Hin H.
  refine (proj1 (Forall_forall _ _) _). repeat constructor; reflexivity.
Qed.

(** The escaped form is read back exactly. *)
Lemma unescape_escape bs : unescape (as_bytes (escape_bytes bs)) = Some bs.
Proof.
  unfold escape_bytes. rewrite as_from_bytes. induction bs as [|b bs IH]; [done|].
  pose proof (bval_range b) as Hb. change (unescape _) with
    (h ← hex_val (hex_digit (bval b / 16)); l ← hex_val (hex_digit (bval b mod 16));
     r ← unescape (bs ≫= fun b => [x5c; x78; hex_digit (bval b / 16); hex_digit (bval b mod 16)]);
     Some (as_u8 (16 * h + l) :: r)).
  rewrite !hex_val_digit by (Z.to_euclidean_division_equations; lia). cbn [mbind option_bind]. rewrite IH.
  cbn [mbind option_bind]. do 2 f_equal. rewrite <- (Z.div_mod (bval b) 16) by lia. apply as_u8_bval.
Qed.

Lemma literal_search_spec pats hay i :
  Forall (fun p => p <> []) pats -> (i <= length hay)%nat ->
  (forall p j, p ∈ pats -> (j < i)%nat -> ~ occurs_at p hay j) ->
  match literal_search pats i (drop i hay) with
  | None => none_occurs pats hay
  | Some h => exists p, pats !! hit_index h = Some p /\ occurs_at p hay (hit_start h) /\
                hit_end h = (hit_start h + length p)%nat /\
                forall p' j, p' ∈ pats -> occurs_at p' hay j -> (hit_start h <= j)%nat
  end.
Proof.
  intros Hne. remember (length hay - i)%nat as n eqn:En. revert i En.
  induction n as [|n IH]; intros i En Hi Hbefore.
  - rewrite drop_ge by lia. cbn [literal_search].
    destruct (list_find (fun p => take (length p) [] = p) pats) as [[k p]|] eqn:F.
    + apply list_find_Some in F as (Hk & Hp & _). rewrite Forall_lookup in Hne. apply Hne in Hk.
      destruct p; [done|]. rewrite take_nil in Hp. done.
    + intros p j Hp Ho. destruct (Nat.lt_ge_cases j i); [by apply (Hbefore p j)|].
      apply occurs_at_fits in Ho; [|by rewrite Forall_forall in Hne; apply Hne].
      rewrite Forall_forall in Hne. apply Hne in Hp. destruct p; [done|]. cbn in Ho. lia.
  - destruct (drop i hay) as [|x h] eqn:D; [apply (f_equal length) in D; rewrite length_drop in D; cbn in D; lia|].
    cbn [literal_search]. rewrite <- D.
    destruct (list_find (fun p => take (length p) (drop i hay) = p) pats) as [[k p]|] eqn:F.
    + apply list_find_Some in F as (Hk & Hp & _). exists p. cbn. split_and!; [done|done|done|].
      intros p' j Hp' Ho. destruct (Nat.lt_ge_cases j i); [|done]. exfalso. by apply (Hbefore p' j).
    + assert (h = drop (S i) hay) as -> by (rewrite <- Nat.add_1_r, <- drop_drop, D; done).
      apply IH; [lia|lia|]. intros p j Hp Hj. destruct (decide (j = i)) as [->|]; [|apply Hbefore; [done|lia]].
      apply list_find_None in F. rewrite Forall_forall in F. by apply F.
Qed.

Lemma literal_engine_finds pats ns :
  Forall (fun p => p <> []) pats -> @finds_literals literal_engine (mkMatcher (E := literal_engine) pats ns) pats.
Proof.
  intros Hne hay. cbn. apply (literal_search_spec pats hay 0); [done|lia|]. intros p j _ Hj. lia.
Qed.

(** *** Instances of the properties *)

Definition login : PatternSpec := mkSpec "login" Literal (as_bytes "login:").
Definition panic : PatternSpec := mkSpec "panic" Literal (as_bytes "Oops").

Definition console_matcher : @Matcher literal_engine :=
  mkMatcher (E := literal_engine) [as_bytes "login:"; as_bytes "Oops"] ["login"; "panic"]%string.

Lemma compile_checks_witness :
  @compile literal_engine [login; panic] = Ok console_matcher /\ NoDup (names (E := literal_engine) console_matcher).
Proof.
  split; [vm_compute; reflexivity|].
  apply (@compile_checks literal_engine [login; panic]). vm_compute. reflexivity.
Defined.

(** The offsets of an observation's match. *)
Definition verdict {W} (r : exec unit (W * option PatternMatch)) : option (Z * Z) :=
  match r with Ok (_, Some pm) => Some (offset pm, end_offset pm) | _ => None end.

Lemma literal_wait_exact_witness :
  exists w pm,
    @observe literal_engine (window_new (E := literal_engine) console_matcher 6 128 1000)
      [(as_bytes "boot..lo", 0); (as_bytes "gin: ", 0)] = Ok (w, Some pm) /\
    offset pm = 1006 /\ end_offset pm = 1012.
Proof.
  destruct (@literal_wait_exact literal_engine [login; panic] console_matcher 6 128 1000
              [as_bytes "boot..lo"; as_bytes "gin: "]) as (w & r & Ho & _).
  - vm_compute. reflexivity.
  - intros s Hs. rewrite !elem_of_cons, elem_of_nil in Hs. destruct Hs as [->|[->|[]]]; reflexivity.
  - vm_compute. discriminate.
  - apply literal_engine_finds. repeat constructor; discriminate.
  - lia.
  - vm_compute. discriminate.
  - assert (verdict (observe (E := literal_engine) (window_new (E := literal_engine) console_matcher 6 128 1000)
      [(as_bytes "boot..lo", 0); (as_bytes "gin: ", 0)]) = Some (1006, 1012)) as Hv by (vm_compute; reflexivity).
    cbn [fmap list_fmap] in Ho. rewrite Ho in Hv. destruct r as [pm|]; [|discriminate].
    exists w, pm. split; [exact Ho|]. injection Hv as <- <-. split; reflexivity.
Defined.

Lemma match_after_last_gap_witness :
  exists w r, @observe literal_engine (window_new (E := literal_engine) console_matcher 6 128 0)
    [(as_bytes "log", 0); (as_bytes "in: login:", 7)] = Ok (w, Some r) /\ offset r = 7.
Proof.
  destruct (@match_after_last_gap literal_engine console_matcher 6 128 0
              [(as_bytes "log", 0); (as_bytes "in: login:", 7)]) as (w & r & Ho & _).
  - eapply (finds_literals_in_haystack (E := literal_engine) _ [as_bytes "login:"; as_bytes "Oops"]).
    + reflexivity.
    + repeat constructor; discriminate.
    + apply literal_engine_finds. repeat constructor; discriminate.
  - lia.
  - vm_compute. discriminate.
  - assert (verdict (observe (E := literal_engine) (window_new (E := literal_engine) console_matcher 6 128 0)
      [(as_bytes "log", 0); (as_bytes "in: login:", 7)]) = Some (7, 13)) as Hv by (vm_compute; reflexivity).
    rewrite Ho in Hv. destruct r as [pm|]; [|discriminate].
    exists w, pm. split; [exact Ho|]. injection Hv as <- _. reflexivity.
Defined.

(** ** Anchored expressions

    [^b]: a match at the start of the haystack only. *)
Definition anchored_engine : Engine := {|
  meta_regex := unit;
  build_many := fun _ => inr tt;
  re_find := fun _ hay => match hay with x62 :: _ => Some (mkHit 0 0 1) | _ => None end
|}.

Definition anchored_matcher : @Matcher anchored_engine := mkMatcher (E := anchored_engine) tt ["b"%string].

(** A chunk of one byte more than a window of [S n] bytes, with [b] second. *)
Definition one_over (n : nat) : list byte := x61 :: x62 :: replicate n x63.

(** Trimming moves the start of the haystack, so an anchored expression can
    match at the window's edge.  For every window depth the stream [ab..] is
    scanned without a hit, and one more byte makes [^b] fire at offset 1, wholly
    inside bytes an earlier scan had covered. *)
Theorem anchored_rescan_fires n ctx :
  Z.of_nat n + 3 <= u64_max ->
  exists w w' pm,
    @feed anchored_engine (window_new (E := anchored_engine) anchored_matcher (S n) ctx 0) (one_over n) 0
      = Ok (w, None) /\
    @feed anchored_engine w [x64] 0 = Ok (w', Some pm) /\
    offset pm = 1 /\ end_offset pm = 2 /\ end_offset pm <= scanned (E := anchored_engine) w.
Proof.
  intros Hn.
  set (w := mkWindow (E := anchored_engine) anchored_matcher (x62 :: replicate n x63) (S n) ctx 1
                     (Z.of_nat n + 2) 0 0).
  assert (@feed anchored_engine (window_new (E := anchored_engine) anchored_matcher (S n) ctx 0) (one_over n) 0
          = Ok (w, None)) as H1.
  { unfold feed, scan_then_trim, scan. cbn [gap_reset Z.gtb Z.compare window_new buf matcher earliest one_over app
      re_find anchored_engine lookback context base scanned gaps gap_bytes mbind exec_bind].
    unfold trim, one_over. cbn [buf lookback length]. rewrite length_replicate, (proj2 (Nat.ltb_lt _ _)) by lia.
    replace (S (S n) - S n)%nat with 1%nat by lia. cbn [drop matcher context base scanned gaps gap_bytes].
    unfold w. repeat f_equal.
    unfold len. cbn [length]. rewrite length_replicate, u64_wrapping_add_small by lia. lia. }
  set (w2 := mkWindow (E := anchored_engine) anchored_matcher (x62 :: replicate n x63 ++ [x64]) (S n) ctx 1
                      (u64_wrapping_add (Z.of_nat n + 2) 1) 0 0).
  destruct (@scan_reports anchored_engine w2
              0 (one_over n ++ [x64]) 0 1) as (pm & Hs & Hrep).
  - lia.
  - unfold len. rewrite length_app. cbn. rewrite length_replicate. lia.
  - intros hay h Hh. cbn in Hh. destruct hay as [|[] hay]; try discriminate. injection Hh as <-. cbn. lia.
  - unfold window_at. cbn. rewrite length_app, length_replicate. cbn. split_and!; [lia|lia|done|done|right; lia].
  - destruct Hrep as (_ & Ho & He & _). cbn in Ho, He. exists w. eexists _, pm. split; [exact H1|].
    split; [|split; [exact Ho|split; [exact He|rewrite He; cbn; lia]]].
    change (@feed anchored_engine w [x64] 0) with (@scan_then_trim anchored_engine w2).
    unfold scan_then_trim. rewrite Hs. reflexivity.
Qed.

Lemma anchored_rescan_fires_witness :
  exists w w' pm,
    @feed anchored_engine (window_new (E := anchored_engine) anchored_matcher 4096 128 0) (one_over 4095) 0
      = Ok (w, None) /\
    @feed anchored_engine w [x64] 0 = Ok (w', Some pm) /\
    offset pm = 1 /\ end_offset pm = 2 /\ end_offset pm <= scanned (E := anchored_engine) w.
Proof. apply anchored_rescan_fires. vm_compute. discriminate. Defined.
