(* ===== verification/Ring.v ===== *)
(** * The replay ring (daemon/src/tap.rs, [ReplayRing])

    A circular buffer of the most recent hostward bytes, allocated on the first
    byte.  It is proved to implement "the last [cap] bytes of the stream". *)

From S2P Require Import Prelude.
#[local] Open Scope nat_scope.

Record ReplayRing := mkRing { cap : nat; ring_buf : list byte; pos : nat; ring_len : nat }.

(** The ring of [TapHub::new]: nothing allocated. *)
Definition ring_new (c : nat) : ReplayRing := mkRing c [] 0 0.

(** [buf\[at..at + src.len()\].copy_from_slice(src)]. *)
Definition copy_into (buf : list byte) (at_ : nat) (src : list byte) : exec unit (list byte) :=
  if at_ + length src <=? length buf
  then Ok (take at_ buf ++ src ++ drop (at_ + length src) buf) else Panic.

(** [&buf\[s..e\]]. *)
Definition ring_slice (buf : list byte) (s e : nat) : exec unit (list byte) :=
  if (s <=? e) && (e <=? length buf) then Ok (take (e - s) (drop s buf)) else Panic.

Definition push (r : ReplayRing) (bytes : list byte) : exec unit ReplayRing :=
  if cap r =? 0 then Ok r
  else
    let bytes := if cap r <? length bytes then drop (length bytes - cap r) bytes else bytes in
    if bool_decide (bytes = []) then Ok r
    else
      let buf := if bool_decide (ring_buf r = []) then replicate (cap r) x00 else ring_buf r in
      let n := length bytes in
      let first := Nat.min (cap r - pos r) n in
      buf ← copy_into buf (pos r) (take first bytes);
      buf ← (if first <? n then copy_into buf 0 (drop first bytes) else Ok buf);
      Ok (mkRing (cap r) buf ((pos r + n) mod cap r) (Nat.min (ring_len r + n) (cap r))).

(** [ReplayRing::snapshot]. *)
Definition ring_snapshot (r : ReplayRing) : exec unit (list byte) :=
  if ring_len r =? 0 then Ok []
  else
    let start := (pos r + cap r - ring_len r) mod cap r in
    let first := Nat.min (cap r - start) (ring_len r) in
    out ← ring_slice (ring_buf r) start (start + first);
    if first <? ring_len r then
      tail ← ring_slice (ring_buf r) 0 (ring_len r - first);
      Ok (out ++ tail)
    else Ok out.

Fixpoint push_all (r : ReplayRing) (chunks : list (list byte)) : exec unit ReplayRing :=
  match chunks with
  | [] => Ok r
  | c :: chunks => r ← push r c; push_all r chunks
  end.

(** ** Specification *)

(** The last [n] elements. *)
Definition lastn {A} (n : nat) (l : list A) : list A := drop (length l - n) l.

Lemma lastn_app_le {A} n (l k : list A) : n <= length k -> lastn n (l ++ k) = lastn n k.
Proof.
  intros H. unfold lastn. rewrite length_app, drop_app_ge by lia. f_equal. lia.
Qed.

Lemma lastn_app_ge {A} n (l k : list A) : length k <= n -> lastn n (l ++ k) = lastn (n - length k) l ++ k.
Proof.
  intros H. unfold lastn. rewrite length_app.
  rewrite drop_app_le by lia. f_equal. f_equal. lia.
Qed.

Lemma lastn_lastn {A} n m (l : list A) : n <= m -> lastn n (lastn m l) = lastn n l.
Proof. intros H. unfold lastn. rewrite length_drop, drop_drop. f_equal. lia. Qed.

Lemma length_lastn {A} n (l : list A) : length (lastn n l) = Nat.min n (length l).
Proof. unfold lastn. rewrite length_drop. lia. Qed.

(** The buffer read from the write position: oldest byte first. *)
Definition rotated (r : ReplayRing) : list byte := drop (pos r) (ring_buf r) ++ take (pos r) (ring_buf r).

(** The ring holds the end of the stream [s]. *)
Definition ring_holds (r : ReplayRing) (s : list byte) : Prop :=
  (s = [] /\ ring_buf r = [] /\ pos r = 0 /\ ring_len r = 0) \/
  (0 < cap r /\ length (ring_buf r) = cap r /\ pos r < cap r /\
   ring_len r = Nat.min (length s) (cap r) /\ lastn (ring_len r) (rotated r) = lastn (cap r) s).

(** ** Pushing *)

Lemma length_rotated r : pos r <= length (ring_buf r) -> length (rotated r) = length (ring_buf r).
Proof. intros H. unfold rotated. rewrite length_app, length_drop, length_take. lia. Qed.

(** The core of [push] on an allocated buffer: the rotation loses its [n] oldest
    bytes and gains the new ones. *)
Definition write_at (c : nat) (buf : list byte) (p : nat) (bytes : list byte) : exec unit (list byte) :=
  let first := Nat.min (c - p) (length bytes) in
  buf ← copy_into buf p (take first bytes);
  if first <? length bytes then copy_into buf 0 (drop first bytes) else Ok buf.

Lemma write_at_rotates c buf p bytes :
  length buf = c -> p < c -> 0 < length bytes <= c ->
  exists buf', write_at c buf p bytes = Ok buf' /\ length buf' = c /\
    let p' := (p + length bytes) mod c in
    p' < c /\
    drop p' buf' ++ take p' buf' = drop (length bytes) (drop p buf ++ take p buf) ++ bytes.
Proof.
  intros Hb Hp Hn. unfold write_at, copy_into. set (n := length bytes) in *.
  destruct (Nat.le_gt_cases (p + n) c) as [Hfit|Hwrap].
  - rewrite Nat.min_r, (take_ge bytes), Nat.ltb_irrefl by lia. fold n.
    rewrite (proj2 (Nat.leb_le _ _)) by lia. cbn [mbind exec_bind].
    eexists. split; [done|].
    assert (length (take p buf) = p) as Ht by (rewrite length_take; lia).
    split; [rewrite !length_app, length_drop, Ht; fold n; lia|]. cbn zeta.
    rewrite (drop_app_le (drop p buf) (take p buf) n), drop_drop by (rewrite length_drop; lia).
    destruct (decide (p + n = c)) as [Hc|Hc].
    + rewrite Hc, Nat.Div0.mod_same. split; [lia|]. cbn. rewrite app_nil_r.
      rewrite (drop_ge buf) by lia. cbn. by rewrite app_nil_r.
    + rewrite Nat.mod_small by lia. split; [lia|].
      rewrite drop_app_ge, Ht by lia. replace (p + n - p) with n by lia.
      rewrite (drop_app_length' bytes) by done. rewrite take_app_ge, Ht by lia. replace (p + n - p) with n by lia.
      rewrite (take_app_length' bytes) by done. by rewrite <- app_assoc.
  - rewrite Nat.min_l by lia. set (f := c - p).
    assert (length (take f bytes) = f) as Htf by (rewrite length_take; fold n; lia).
    rewrite Htf, (proj2 (Nat.leb_le _ _)) by lia. cbn [mbind exec_bind].
    rewrite (proj2 (Nat.ltb_lt _ _)) by lia.
    replace (p + f) with c by lia. rewrite (drop_ge buf c) by lia. rewrite app_nil_r.
    assert (length (take p buf) = p) as Ht by (rewrite length_take; lia).
    rewrite length_drop. fold n. rewrite length_app, Ht, Htf.
    rewrite (proj2 (Nat.leb_le _ _)) by lia. eexists. split; [done|].
    rewrite take_0, app_nil_l, Nat.add_0_l, drop_app_le by (rewrite Ht; lia).
    split. { rewrite !length_app, !length_drop, Ht, Htf. fold n. lia. }
    replace ((p + n) mod c) with (n - f)
      by (apply Nat.mod_unique with 1; lia).
    split; [lia|].
    assert (length (drop f bytes) = n - f) as Hd by (rewrite length_drop; fold n; lia).
    rewrite (drop_app_length' (drop f bytes)), (take_app_length' (drop f bytes)) by done.
    rewrite <- app_assoc, take_drop.
    f_equal. rewrite drop_app_ge by (rewrite length_drop; lia). f_equal. rewrite length_drop. lia.
Qed.

(** What [push] leaves of its argument: the last [cap] bytes. *)
Lemma clipped c (bytes : list byte) :
  (if c <? length bytes then drop (length bytes - c) bytes else bytes) = lastn c bytes.
Proof.
  unfold lastn. destruct (Nat.ltb_spec c (length bytes)); [done|].
  by replace (length bytes - c) with 0 by lia.
Qed.

Lemma push_holds r s bytes :
  0 < cap r -> ring_holds r s ->
  exists r', push r bytes = Ok r' /\ cap r' = cap r /\ ring_holds r' (s ++ bytes).
Proof.
  intros Hc Hr. unfold push. rewrite (proj2 (Nat.eqb_neq _ _)) by lia. rewrite clipped.
  case_bool_decide as Hnil.
  { exists r. split; [done|]. split; [done|]. apply (f_equal length) in Hnil. rewrite length_lastn in Hnil.
    destruct bytes; [by rewrite app_nil_r|cbn in Hnil; lia]. }
  set (bs := lastn (cap r) bytes) in *.
  set (b0 := if bool_decide (ring_buf r = []) then replicate (cap r) x00 else ring_buf r).
  assert (length b0 = cap r /\ pos r < cap r /\ ring_len r = Nat.min (length s) (cap r) /\
          lastn (ring_len r) (drop (pos r) b0 ++ take (pos r) b0) = lastn (cap r) s) as (Hb & Hp & Hl & Hrot).
  { unfold b0. destruct Hr as [(-> & Hb & Hp & Hl)|(_ & Hb & Hp & Hl & Hrot)].
    - rewrite Hb, bool_decide_eq_true_2, length_replicate, Hl, Hp by done. split_and!; [done|lia|cbn; lia|].
      unfold lastn. cbn. rewrite drop_ge; [done|]. rewrite length_app, length_drop. cbn. lia.
    - case_bool_decide as E; [rewrite E in Hb; cbn in Hb; lia|done]. }
  assert (0 < length bs <= cap r) as Hbs.
  { unfold bs. rewrite length_lastn. destruct (length (lastn (cap r) bytes)) eqn:E.
    - apply nil_length_inv in E. done.
    - rewrite length_lastn in E. lia. }
  destruct (write_at_rotates (cap r) b0 (pos r) bs Hb Hp Hbs) as (buf' & Hw & Hlen & Hp' & Hrot').
  unfold write_at in Hw. cbn zeta.
  destruct (copy_into b0 (pos r) (take (Nat.min (cap r - pos r) (length bs)) bs)) as [b1| |]; cbn in Hw |- *; try done.
  rewrite Hw. cbn. eexists. split; [done|]. split; [done|]. right. cbn [cap ring_buf pos ring_len].
  assert (length bs = Nat.min (length bytes) (cap r)) as Hlbs by (unfold bs; rewrite length_lastn; lia).
  split_and!; [done|done|done|rewrite length_app; lia|].
  unfold rotated. cbn [ring_buf pos]. rewrite Hrot'.
  set (rot := drop (pos r) b0 ++ take (pos r) b0) in *.
  assert (length rot = cap r) as Hlr by (unfold rot; rewrite length_app, length_drop, length_take; lia).
  rewrite lastn_app_ge by lia.
  assert (lastn (Nat.min (ring_len r + length bs) (cap r) - length bs) (drop (length bs) rot)
          = lastn (cap r - length bs) (lastn (cap r) s)) as ->.
  { rewrite <- Hrot. unfold lastn. rewrite !length_drop, !drop_drop, Hlr. f_equal. lia. }
  rewrite lastn_lastn by lia.
  destruct (Nat.le_gt_cases (length bytes) (cap r)) as [Hle|Hgt].
  - assert (bs = bytes) as Hbb by (unfold bs, lastn; by replace (length bytes - cap r) with 0 by lia).
    rewrite Hbb, lastn_app_ge by done. done.
  - rewrite lastn_app_le by lia. replace (cap r - length bs) with 0 by lia. unfold lastn at 1.
    rewrite drop_ge by lia. done.
Qed.

(** ** Reading *)

Lemma ring_slice_ok buf s e : s <= e <= length buf -> ring_slice buf s e = Ok (take (e - s) (drop s buf)).
Proof. intros H. unfold ring_slice. by rewrite (proj2 (andb_true_iff _ _)) by (rewrite !Nat.leb_le; lia). Qed.

Lemma snapshot_holds r s : ring_holds r s -> ring_snapshot r = Ok (lastn (cap r) s).
Proof.
  unfold ring_snapshot. intros [(-> & Hb & Hp & Hl)|(Hc & Hb & Hp & Hl & Hrot)].
  { by rewrite Hl. }
  destruct (Nat.eqb_spec (ring_len r) 0) as [E|E].
  { rewrite <- Hrot, E. unfold lastn. rewrite drop_ge by lia. done. }
  rewrite <- Hrot. unfold lastn. rewrite length_rotated by lia. unfold rotated. rewrite Hb.
  set (l := ring_len r) in *. set (p := pos r) in *. set (c := cap r) in *. assert (l <= c) as Hlc by lia.
  destruct (Nat.le_gt_cases l p) as [Hlp|Hlp].
  - replace ((p + c - l) mod c) with (p - l) by (apply Nat.mod_unique with 1; lia).
    rewrite Nat.min_r, Nat.ltb_irrefl, ring_slice_ok by lia. cbn [mbind exec_bind].
    rewrite drop_app_ge by (rewrite length_drop; lia). rewrite length_drop, Hb. f_equal.
    replace (c - l - (c - p)) with (p - l) by lia. rewrite skipn_firstn_comm. f_equal. lia.
  - replace ((p + c - l) mod c) with (p + c - l) by (symmetry; apply Nat.mod_small; lia).
    rewrite Nat.min_l by lia. rewrite (ring_slice_ok _ (p + c - l)) by lia. cbn [mbind exec_bind].
    rewrite drop_app_le, drop_drop by (rewrite length_drop; lia).
    replace (p + (c - l)) with (p + c - l) by lia.
    rewrite (take_ge (drop (p + c - l) (ring_buf r))) by (rewrite length_drop; lia).
    destruct (Nat.ltb_spec (c - (p + c - l)) l) as [Hw|Hw].
    + rewrite ring_slice_ok by lia. cbn [mbind exec_bind drop]. do 3 f_equal. lia.
    + replace p with 0 by lia. by rewrite take_0, app_nil_r.
Qed.

Lemma push_all_holds chunks r s :
  0 < cap r -> ring_holds r s ->
  exists r', push_all r chunks = Ok r' /\ cap r' = cap r /\ ring_holds r' (s ++ mjoin chunks).
Proof.
  revert r s. induction chunks as [|c chunks IH]; intros r s Hc Hr.
  { exists r. by rewrite app_nil_r. }
  destruct (push_holds r s c Hc Hr) as (r1 & E1 & C1 & H1). cbn [push_all]. rewrite E1. cbn [mbind exec_bind].
  destruct (IH r1 (s ++ c)) as (r2 & E2 & C2 & H2); [lia|done|].
  exists r2. split; [done|]. split; [congruence|].
  change (mjoin (c :: chunks)) with (c ++ mjoin chunks). by rewrite app_assoc.
Qed.

(** the ring buffer is the last [cap] bytes of the stream: after any sequence
    of pushes (empty chunks, chunks larger than the ring, wrap-arounds at any
    position) neither writing nor reading goes out of range, and the snapshot is
    exactly the end of the concatenated input. *)
Theorem ring_refines_lastn c chunks :
  0 < c ->
  exists r, push_all (ring_new c) chunks = Ok r /\ ring_snapshot r = Ok (lastn c (mjoin chunks)).
Proof.
  intros Hc. destruct (push_all_holds chunks (ring_new c) []) as (r & Hp & Hcap & Hr); [done|by left|].
  exists r. split; [done|]. apply snapshot_holds in Hr. by rewrite Hcap in Hr.
Qed.

Lemma ring_refines_lastn_witness :
  exists r, push_all (ring_new 4) [as_bytes "abc"; []; as_bytes "defghijk"; as_bytes "lm"] = Ok r /\
            ring_snapshot r = Ok (as_bytes "jklm").
Proof. apply (ring_refines_lastn 4 [as_bytes "abc"; []; as_bytes "defghijk"; as_bytes "lm"]). lia. Defined.
