(* ===== verification/Tap.v ===== *)
(** * Taps, replay and armed waits (daemon/src/tap.rs)

    A hub per host-facing endpoint fans the endpoint's hostward bytes out to the
    taps, keeps the replay ring and feeds the armed pattern waits.  The bounded
    channels belong to the async runtime: the outcome of each [try_send] is an
    argument of the operation, and what reaches a channel is its output.  The
    shared atomics of the hub and its producer ([active], [feed_dropped]) are
    fields of the hub. *)

From Stdlib Require Import Strings.String.
From S2P Require Import Prelude GraphTypes Envelope Config Pattern Ring.
#[local] Open Scope Z_scope.

Definition MAX_ARMED_WAITS : Z := 64.
Definition REPLAY_PIECE : Z := 64 * 1024.

(** ** Messages *)

Inductive TapCloseReason := EndpointRemoved | GraphReplaced | Teardown.

Definition reason_as_str (r : TapCloseReason) : string :=
  match r with
  | EndpointRemoved => "endpoint removed"
  | GraphReplaced => "graph replaced"
  | Teardown => "teardown"
  end.

Inductive TapMsg :=
| Data (tap_id : Z) (bytes : list byte) (moffset gap_before : Z)
| Closed (tap_id : Z) (endpoint reason : string).

Record WaitAccounting := mkAccounting {
  bytes_scanned : Z; acc_gaps : Z; acc_gap_bytes : Z;
  acc_from_offset : Z; acc_epoch : Z; acc_replay_scanned : Z
}.

Inductive WaitEnd :=
| Matched (matched : PatternMatch) (accounting : WaitAccounting)
| WaitClosed (reason : TapCloseReason) (accounting : WaitAccounting).

(** Outcome of [try_send]. *)
Inductive SendResult := SentOk | SendFull | SendClosed.

(** What an operation sends: to a tap's channel, to its terminal channel, to the
    task parked on a wait. *)
Inductive Effect :=
| ToTap (id : Z) (m : TapMsg)
| ToTerminal (id : Z) (m : TapMsg)
| Settle (wait_id : Z) (r : WaitEnd).

Record Registered := mkRegistered {
  replay_bytes : Z; replay_truncated : Z; reg_from_offset : Z; reg_epoch : Z; reg_feed_dropped : Z
}.

Record Tap := mkTap { tap_id : Z; tap_terminal : bool; tap_dropped : Z }.

Section hub.
Context `{E : Engine}.

Record ArmedWait := mkWait {
  wait_id : Z;
  wait_scan : ScanWindow;
  wait_from_offset : Z;
  wait_replay_scanned : Z;
  pending_gap_credit : Z;
  wait_done : bool
}.

Inductive Armed :=
| AlreadyMatched (matched : PatternMatch) (accounting : WaitAccounting)
| Parked
| Refused (armed max : Z).

Record TapHub := mkHub {
  taps : list Tap;
  waits : list ArmedWait;
  ring : option ReplayRing;
  ingested : Z;
  active : bool;
  feed_dropped : Z;
  feed_dropped_seen : Z;
  ring_gap : option (Z * Z);
  orphaned : bool;
  hub_endpoint : string;
  epoch : Z
}.

(** ** The hub *)

(** [TapHub::new], with the epoch drawn from the process-wide counter. *)
Definition hub_new (endpoint : string) (ring_cap : nat) (ep : Z) : TapHub :=
  mkHub [] [] (if (0 <? ring_cap)%nat then Some (ring_new ring_cap) else None)
        0 (0 <? ring_cap)%nat 0 0 None false endpoint ep.

Definition refresh_active (h : TapHub) : TapHub :=
  mkHub (taps h) (waits h) (ring h) (ingested h)
        (negb (orphaned h) &&
         (bool_decide (is_Some (ring h)) || negb (bool_decide (taps h = [])) ||
          match waits h with [] => false | _ => true end))
        (feed_dropped h) (feed_dropped_seen h) (ring_gap h) (orphaned h) (hub_endpoint h) (epoch h).

Definition accounting (w : ArmedWait) (ep : Z) : WaitAccounting :=
  mkAccounting (scanned (wait_scan w)) (gaps (wait_scan w)) (gap_bytes (wait_scan w))
               (wait_from_offset w) ep (wait_replay_scanned w).

(** [taps.retain(|tap| match tap.out.try_send(..) ..)]. *)
Fixpoint fan_taps (send : Z -> SendResult) (chunk : list byte) (off gap : Z) (ts : list Tap)
  : list Tap * list Effect :=
  match ts with
  | [] => ([], [])
  | t :: ts =>
      let '(kept, out) := fan_taps send chunk off gap ts in
      match send (tap_id t) with
      | SentOk => (t :: kept, ToTap (tap_id t) (Data (tap_id t) chunk off gap) :: out)
      | SendFull => (mkTap (tap_id t) (tap_terminal t) (tap_dropped t + len chunk) :: kept, out)
      | SendClosed => (kept, out)
      end
  end.

(** [waits.retain_mut(..)]. *)
Fixpoint feed_waits (chunk : list byte) (gap ep : Z) (ws : list ArmedWait)
  : exec unit (list ArmedWait * list Effect) :=
  match ws with
  | [] => Ok ([], [])
  | w :: ws =>
      let mine := Z.max 0 (gap - pending_gap_credit w) in
      '(scan', hit) ← feed (wait_scan w) chunk mine;
      let w := mkWait (wait_id w) scan' (wait_from_offset w) (wait_replay_scanned w) 0 (wait_done w) in
      '(kept, out) ← feed_waits chunk gap ep ws;
      match hit with
      | None => Ok (w :: kept, out)
      | Some matched =>
          Ok (kept, if wait_done w then Settle (wait_id w) (Matched matched (accounting w ep)) :: out else out)
      end
  end.

Definition ingest (send : Z -> SendResult) (h : TapHub) (chunk : list byte)
  : exec unit (TapHub * list Effect) :=
  let gap_before := (feed_dropped h - feed_dropped_seen h) mod 2 ^ 64 in
  '(ring', ring_gap') ← match ring h with
                        | Some r => r' ← push r chunk;
                                    Ok (Some r', if gap_before >? 0 then Some (ingested h, gap_before) else ring_gap h)
                        | None => Ok (None, ring_gap h)
                        end;
  let '(taps', out1) := fan_taps send chunk (ingested h) gap_before (taps h) in
  '(waits', out2) ← feed_waits chunk gap_before (epoch h) (waits h);
  Ok (refresh_active
        (mkHub taps' waits' ring' (u64_wrapping_add (ingested h) (len chunk)) (active h)
               (feed_dropped h) (feed_dropped h) ring_gap' (orphaned h) (hub_endpoint h) (epoch h)),
      out1 ++ out2).

(** [a - b] on [u64]; an underflow aborts a checked build. *)
Definition u64_sub (a b : Z) : exec unit Z := if a <? b then Panic else Ok (a - b).

(** The replay half of [arm_wait]: the snapshot cut at the newest hole, its offset
    and the size of the hole. *)
Definition replay_window (h : TapHub) (r : ReplayRing) : exec unit (list byte * Z * Z) :=
  snap ← ring_snapshot r;
  from_offset ← u64_sub (ingested h) (len snap);
  match ring_gap h with
  | Some (at_, bytes) =>
      if at_ >? from_offset then
        Ok (drop (Z.to_nat (Z.min (at_ - from_offset) (len snap))) snap, at_, bytes)
      else Ok (snap, from_offset, 0)
  | None => Ok (snap, from_offset, 0)
  end.

(** The window of a new wait: seeded from the ring when asked. *)
Definition arm_scan (h : TapHub) (m : Matcher) (lookback context : nat) (replay : bool)
  : exec unit (ScanWindow * Z * Z * option PatternMatch) :=
  let scan := window_new m lookback context (ingested h) in
  match (if replay then ring h else None) with
  | Some r =>
      '(snap, from_offset, excluded) ← replay_window h r;
      '(scan, hit) ← seed scan snap from_offset excluded;
      Ok (scan, from_offset, len snap, hit)
  | None => Ok (scan, ingested h, 0, None)
  end.

Definition arm_wait (h : TapHub) (id : Z) (m : Matcher) (lookback context : nat) (replay : bool)
  : exec unit (TapHub * Armed) :=
  if MAX_ARMED_WAITS <=? len (waits h) then Ok (h, Refused (len (waits h)) MAX_ARMED_WAITS)
  else
    '(scan, from_offset, replay_scanned, hit) ← arm_scan h m lookback context replay;
    let credit := (feed_dropped h - feed_dropped_seen h) mod 2 ^ 64 in
    let w := mkWait id scan from_offset replay_scanned credit false in
    match hit with
    | Some matched => Ok (h, AlreadyMatched matched (accounting w (epoch h)))
    | None =>
        let w := mkWait id scan from_offset replay_scanned credit true in
        Ok (refresh_active
              (mkHub (taps h) (waits h ++ [w]) (ring h) (ingested h) (active h) (feed_dropped h)
                     (feed_dropped_seen h) (ring_gap h) (orphaned h) (hub_endpoint h) (epoch h)),
            Parked)
    end.

Fixpoint remove_wait (id : Z) (ws : list ArmedWait) : option (ArmedWait * list ArmedWait) :=
  match ws with
  | [] => None
  | w :: ws =>
      if wait_id w =? id then Some (w, ws)
      else match remove_wait id ws with Some (x, ws) => Some (x, w :: ws) | None => None end
  end.

Definition disarm (h : TapHub) (id : Z) : TapHub * option WaitAccounting :=
  match remove_wait id (waits h) with
  | None => (h, None)
  | Some (w, ws) =>
      (refresh_active
         (mkHub (taps h) ws (ring h) (ingested h) (active h) (feed_dropped h) (feed_dropped_seen h)
                (ring_gap h) (orphaned h) (hub_endpoint h) (epoch h)),
       Some (accounting w (epoch h)))
  end.

(** [slice.chunks(n)]; the length of the slice is fuel enough. *)
Fixpoint chunks_of (fuel n : nat) (l : list byte) : list (list byte) :=
  match fuel with
  | O => []
  | S fuel => match l with [] => [] | _ => take n l :: chunks_of fuel n (drop n l) end
  end.

(** The loop over the replay pieces; [send k] is the outcome of the [k]-th
    [try_send].  Returns the bytes sent, the drop counter and the messages. *)
Fixpoint send_pieces (send : nat -> SendResult) (k : nat) (id off : Z) (dropped : Z)
    (pieces : list (list byte)) : Z * Z * list Effect :=
  match pieces with
  | [] => (0, dropped, [])
  | piece :: pieces =>
      match send k with
      | SentOk =>
          let '(n, d, out) := send_pieces send (S k) id (off + len piece) dropped pieces in
          (len piece + n, d, ToTap id (Data id piece off 0) :: out)
      | SendFull => send_pieces send (S k) id (off + len piece) (dropped + len piece) pieces
      | SendClosed => (0, dropped, [])
      end
  end.

Definition register (h : TapHub) (id : Z) (capacity : Z) (send : nat -> SendResult) (dropped : Z) (replay : bool)
  : exec unit (TapHub * Registered * list Effect) :=
  '(sent, truncated, from_offset, dropped, out) ←
    match (if replay then ring h else None) with
    | Some r =>
        snap ← ring_snapshot r;
        let deliver := Z.min (len snap) (capacity * REPLAY_PIECE) in
        let truncated := len snap - deliver in
        let snap := drop (Z.to_nat truncated) snap in
        from_offset ← u64_sub (ingested h) deliver;
        let '(n, d, out) := send_pieces send 0 id from_offset dropped
                              (chunks_of (length snap) (Z.to_nat REPLAY_PIECE) snap) in
        Ok (n, truncated, from_offset, d, out)
    | None => Ok (0, 0, ingested h, dropped, [])
    end;
  Ok (refresh_active
        (mkHub (taps h ++ [mkTap id false dropped]) (waits h) (ring h) (ingested h) (active h)
               (feed_dropped h) (feed_dropped_seen h) (ring_gap h) (orphaned h) (hub_endpoint h) (epoch h)),
      mkRegistered sent truncated from_offset (epoch h) (feed_dropped_seen h), out).

Fixpoint attach_terminal_to (id : Z) (ts : list Tap) : list Tap :=
  match ts with
  | [] => []
  | t :: ts => if tap_id t =? id then mkTap id true (tap_dropped t) :: ts else t :: attach_terminal_to id ts
  end.

Definition attach_terminal (h : TapHub) (id : Z) : TapHub :=
  mkHub (attach_terminal_to id (taps h)) (waits h) (ring h) (ingested h) (active h) (feed_dropped h)
        (feed_dropped_seen h) (ring_gap h) (orphaned h) (hub_endpoint h) (epoch h).

(** [TapHub::close]. *)
Definition close_tap (h : TapHub) (id : Z) : TapHub :=
  refresh_active
    (mkHub (filter (fun t => tap_id t <> id) (taps h)) (waits h) (ring h) (ingested h) (active h)
           (feed_dropped h) (feed_dropped_seen h) (ring_gap h) (orphaned h) (hub_endpoint h) (epoch h)).

Definition detach_all (send : Z -> SendResult) (h : TapHub) (reason : TapCloseReason)
  : TapHub * list Z * list Effect :=
  let notice t := Closed (tap_id t) (hub_endpoint h) (reason_as_str reason) in
  let out1 := omap (fun t => match send (tap_id t) with
                             | SentOk => Some (ToTap (tap_id t) (notice t))
                             | SendFull => if tap_terminal t then Some (ToTerminal (tap_id t) (notice t)) else None
                             | SendClosed => None
                             end) (taps h) in
  let out2 := omap (fun w => if wait_done w
                             then Some (Settle (wait_id w) (WaitClosed reason (accounting w (epoch h))))
                             else None) (waits h) in
  (mkHub [] [] None (ingested h) false (feed_dropped h) (feed_dropped_seen h) (ring_gap h) true
         (hub_endpoint h) (epoch h),
   tap_id <$> taps h, out1 ++ out2).

(** ** The producer's side ([TapFeed]) *)

Definition add_dropped (h : TapHub) (n : Z) : TapHub :=
  mkHub (taps h) (waits h) (ring h) (ingested h) (active h) (u64_wrapping_add (feed_dropped h) n)
        (feed_dropped_seen h) (ring_gap h) (orphaned h) (hub_endpoint h) (epoch h).

(** The hub with the chunks queued in its feed channel. *)
Record Feed := mkFeed { feed_hub : TapHub; queue : list (list byte) }.

(** [TapFeed::mirror]; [sent] is whether [try_send] succeeds. *)
Definition mirror (f : Feed) (chunk : list byte) (sent : bool) : Feed :=
  if negb (active (feed_hub f)) || negb sent
  then mkFeed (add_dropped (feed_hub f) (len chunk)) (queue f)
  else mkFeed (feed_hub f) (queue f ++ [chunk]).

Definition skipped (f : Feed) (n : Z) : Feed := mkFeed (add_dropped (feed_hub f) n) (queue f).

Definition wanted (f : Feed) : bool := active (feed_hub f).

(** ** Runs

    Every operation of a hub and its feed, in any order.  [HDrain] is one turn of
    the task that takes the oldest queued chunk into the hub. *)
Inductive HubOp :=
| HMirror (chunk : list byte) (sent : bool)
| HSkipped (n : Z)
| HDrain (send : Z -> SendResult)
| HArm (id : Z) (m : Matcher) (lookback context : nat) (replay : bool)
| HDisarm (id : Z)
| HRegister (id capacity : Z) (send : nat -> SendResult) (dropped : Z) (replay : bool)
| HAttach (id : Z)
| HClose (id : Z)
| HDetach (send : Z -> SendResult) (reason : TapCloseReason).

Definition hub_op (f : Feed) (op : HubOp) : exec unit Feed :=
  let h := feed_hub f in
  let put h := mkFeed h (queue f) in
  match op with
  | HMirror chunk sent => Ok (mirror f chunk sent)
  | HSkipped n => Ok (skipped f n)
  | HDrain send =>
      match queue f with
      | [] => Ok f
      | chunk :: q => '(h, _) ← ingest send h chunk; Ok (mkFeed h q)
      end
  | HArm id m lb ctx replay => '(h, _) ← arm_wait h id m lb ctx replay; Ok (put h)
  | HDisarm id => Ok (put (disarm h id).1)
  | HRegister id capacity send dropped replay =>
      '(h, _, _) ← register h id capacity send dropped replay; Ok (put h)
  | HAttach id => Ok (put (attach_terminal h id))
  | HClose id => Ok (put (close_tap h id))
  | HDetach send reason => Ok (put (detach_all send h reason).1.1)
  end.

(** Bytes an operation moves into the hub, and bytes it accounts as produced. *)
Definition drained (f : Feed) (op : HubOp) : list byte :=
  match op with HDrain _ => default [] (head (queue f)) | _ => [] end.

Definition produced (op : HubOp) : Z :=
  match op with HMirror chunk _ => len chunk | HSkipped n => n | _ => 0 end.

(** The engine's matches lie in the haystack, counts are counts. *)
Definition op_ok (op : HubOp) : Prop :=
  0 <= produced op /\ match op with HArm _ m _ _ _ => in_haystack m | _ => True end.

(** [hub_reach f s p]: from a new hub, with [s] everything ingested and [p] the
    bytes produced. *)
Inductive hub_reach (endpoint : string) (c : nat) (ep : Z) : Feed -> list byte -> Z -> Prop :=
| reach_new : hub_reach endpoint c ep (mkFeed (hub_new endpoint c ep) []) [] 0
| reach_op f s p op f' :
    hub_reach endpoint c ep f s p -> hub_op f op = Ok f' -> op_ok op ->
    hub_reach endpoint c ep f' (s ++ drained f op) (p + produced op).

(** ** Invariant *)

Definition is_active (h : TapHub) : bool :=
  negb (orphaned h) &&
  (bool_decide (is_Some (ring h)) || negb (bool_decide (taps h = [])) ||
   match waits h with [] => false | _ => true end).

Definition queued (f : Feed) : Z := foldr (fun c n => len c + n) 0 (queue f).

Record hub_inv (c : nat) (f : Feed) (s : list byte) (p : Z) : Prop := {
  hi_ingested : ingested (feed_hub f) = len s;
  hi_ring : forall r, ring (feed_hub f) = Some r -> cap r = c /\ (0 < c)%nat /\ ring_holds r s;
  hi_active : active (feed_hub f) = is_active (feed_hub f);
  hi_orphan : orphaned (feed_hub f) = true -> ring (feed_hub f) = None;
  hi_waits : len (waits (feed_hub f)) <= MAX_ARMED_WAITS;
  hi_matchers : forall w, w ∈ waits (feed_hub f) -> in_haystack (matcher (wait_scan w));
  hi_gap : forall at_ b, ring_gap (feed_hub f) = Some (at_, b) -> 0 <= at_ <= len s;
  hi_bytes : (len s + queued f + feed_dropped (feed_hub f)) mod 2 ^ 64 = p mod 2 ^ 64
}.

Lemma queued_app f h chunk : queued (mkFeed h (queue f ++ [chunk])) = queued f + len chunk.
Proof. unfold queued. cbn [queue]. induction (queue f) as [|x q IH]; cbn; lia. Qed.

Lemma inv_new endpoint c ep : hub_inv c (mkFeed (hub_new endpoint c ep) []) [] 0.
Proof.
  destruct c as [|c]; constructor; cbn; try done; try (intros ?; rewrite elem_of_nil; done).
  intros r [= <-]. split_and!; [done|lia|by left].
Qed.

(** The operations that only touch taps and waits. *)
Lemma inv_observers c f s p h :
  hub_inv c f s p ->
  ring h = ring (feed_hub f) -> ingested h = ingested (feed_hub f) ->
  feed_dropped h = feed_dropped (feed_hub f) -> ring_gap h = ring_gap (feed_hub f) ->
  orphaned h = orphaned (feed_hub f) -> len (waits h) <= MAX_ARMED_WAITS ->
  (forall w, w ∈ waits h -> in_haystack (matcher (wait_scan w))) -> active h = is_active h ->
  hub_inv c (mkFeed h (queue f)) s p.
Proof.
  intros [H1 H2 H3 H4 H5 Hm H6 H7] Er Ei Ed Eg Eo Ew Em Ea. constructor; cbn [feed_hub]; try (congruence || done).
  - intros r. rewrite Er. apply H2.
  - intros Ho. rewrite Er. apply H4. congruence.
  - intros at_ b. rewrite Eg. apply H6.
  - unfold queued in *. cbn [queue]. congruence.
Qed.

(** Scanning never panics on an engine whose matches lie in the haystack. *)
Lemma scan_total w : in_haystack (matcher w) -> exists r, scan w = Ok r.
Proof.
  intros He. unfold scan. destruct (earliest (matcher w) (buf w)) as [hit|] eqn:Eh; [|by exists None].
  destruct (He _ _ Eh) as [Hr Hi]. apply lookup_lt_is_Some in Hi as [nm Hnm]. unfold subslice, matcher_name.
  rewrite (proj2 (andb_true_iff _ _)) by (rewrite !Nat.leb_le; lia). cbn. rewrite Hnm. cbn. eauto.
Qed.

Lemma scan_then_trim_total w :
  in_haystack (matcher w) -> exists w' r, scan_then_trim w = Ok (w', r) /\ matcher w' = matcher w.
Proof.
  intros He. unfold scan_then_trim. destruct (scan_total w He) as [r ->]. cbn.
  destruct r; eexists _, _; (split; [done|]); [done|]. unfold trim. by destruct (lookback w <? length (buf w))%nat.
Qed.

Lemma feed_total w chunk gap :
  in_haystack (matcher w) -> exists w' r, feed w chunk gap = Ok (w', r) /\ matcher w' = matcher w.
Proof.
  intros He. destruct (fed_setup w chunk gap) as (Sm & _). rewrite feed_eq.
  destruct (scan_then_trim_total (fed w chunk gap)) as (w' & r & Hs & Hm); [by rewrite Sm|].
  exists w', r. split; [done|congruence].
Qed.

Lemma feed_waits_spec chunk gap ep ws :
  (forall w, w ∈ ws -> in_haystack (matcher (wait_scan w))) ->
  exists kept out, feed_waits chunk gap ep ws = Ok (kept, out) /\ (length kept <= length ws)%nat /\
    forall w, w ∈ kept -> in_haystack (matcher (wait_scan w)).
Proof.
  induction ws as [|w ws IH]; intros Hw; cbn [feed_waits].
  { eexists _, _. split; [done|]. split; [done|]. set_solver. }
  destruct (feed_total (wait_scan w) chunk (Z.max 0 (gap - pending_gap_credit w))) as (sc & hit & -> & Hm);
    [apply Hw; left|].
  destruct IH as (kept & out & -> & Hl & Hk); [intros; apply Hw; by right|]. cbn.
  destruct hit; eexists _, _; (split; [done|]); (split; [cbn; lia|]); [done|].
  intros x [->|Hx]%elem_of_cons; [|auto]. cbn. rewrite Hm. apply Hw. left.
Qed.

Lemma remove_wait_spec id ws w ws' :
  remove_wait id ws = Some (w, ws') -> length ws = S (length ws') /\ ws' ⊆ ws.
Proof.
  revert w ws'. induction ws as [|x ws IH]; intros w ws'; cbn; [done|].
  destruct (wait_id x =? id); [intros [= <- <-]; set_solver|].
  destruct (remove_wait id ws) as [[y l]|]; [|done]. intros [= <- <-].
  destruct (IH y l eq_refl) as [Hl Hs]. cbn. split; [lia|set_solver].
Qed.

Lemma is_active_refresh h : active (refresh_active h) = is_active (refresh_active h).
Proof. reflexivity. Qed.

Lemma inv_ingest c f s p send chunk q h' out :
  hub_inv c f s p -> queue f = chunk :: q -> len (s ++ chunk) <= u64_max ->
  ingest send (feed_hub f) chunk = Ok (h', out) -> hub_inv c (mkFeed h' q) (s ++ chunk) p.
Proof.
  intros [H1 H2 H3 H4 H5 Hm H6 H7] Hq Hmax. unfold ingest. rewrite len_app in Hmax.
  pose proof (len_nonneg s). pose proof (len_nonneg chunk).
  set (gap := (_ mod 2 ^ 64)).
  destruct (match ring (feed_hub f) with Some r => _ | None => _ end) as [[ring' rg']| |] eqn:Er; [|done|done].
  cbn [mbind exec_bind]. destruct (fan_taps _ _ _ _ _) as [taps' o1] eqn:Et.
  destruct (feed_waits_spec chunk gap (epoch (feed_hub f)) (waits (feed_hub f)) Hm) as (waits' & o2 & -> & Hwl & Hwm).
  cbn [mbind exec_bind]. intros [= <- <-].
  assert ((forall r, ring' = Some r -> cap r = c /\ (0 < c)%nat /\ ring_holds r (s ++ chunk)) /\
          (forall at_ b, rg' = Some (at_, b) -> 0 <= at_ <= len s) /\
          (ring (feed_hub f) = None -> ring' = None)) as (Hr' & Hg' & Hn').
  { destruct (ring (feed_hub f)) as [r|] eqn:Hr; [|by injection Er as <- <-].
    destruct (H2 r eq_refl) as (Hc & Hc0 & Hh).
    destruct (push_holds r s chunk ltac:(lia) Hh) as (r' & Hp & Hcr & Hh'). rewrite Hp in Er. cbn in Er.
    injection Er as <- <-. split_and!; [|destruct (gap >? 0)|done].
    - intros r0 [= <-]. split_and!; [congruence|done|done].
    - intros at_ b [= <- _]. rewrite H1. lia.
    - apply H6. }
  constructor; cbn [feed_hub refresh_active ingested ring orphaned waits ring_gap feed_dropped queue]; try done.
  - rewrite H1, u64_wrapping_add_small, len_app by lia. done.
  - intros Ho. apply Hn'. by apply H4.
  - unfold len in *. lia.
  - intros at_ b Hb. apply Hg' in Hb. rewrite len_app. lia.
  - rewrite <- H7. f_equal. unfold queued. rewrite Hq. cbn [queue foldr]. rewrite len_app. lia.
Qed.

Lemma seed_total w snap b g :
  in_haystack (matcher w) -> exists w' r, seed w snap b g = Ok (w', r) /\ matcher w' = matcher w.
Proof.
  intros He. assert (matcher (count_gap w g) = matcher w) as Hc by (unfold count_gap; by destruct (g >? 0)).
  unfold seed. match goal with |- context [scan_then_trim ?x] =>
    destruct (scan_then_trim_total x) as (w' & r & Hs & Hm); [cbn [matcher]; by rewrite Hc|] end.
  exists w', r. split; [exact Hs|]. cbn [matcher] in Hm. congruence.
Qed.

(** The snapshot is never longer than what was ingested. *)
Lemma snapshot_fits c f s p r :
  hub_inv c f s p -> ring (feed_hub f) = Some r ->
  ring_snapshot r = Ok (lastn c s) /\ len (lastn c s) <= ingested (feed_hub f) /\
  ingested (feed_hub f) - len (lastn c s) = len s - len (lastn c s).
Proof.
  intros Hi Hr. destruct (hi_ring _ _ _ _ Hi r Hr) as (<- & Hc & Hh). rewrite (snapshot_holds r s Hh).
  rewrite (hi_ingested _ _ _ _ Hi). split; [done|]. unfold len. rewrite length_lastn. lia.
Qed.

Lemma arm_scan_spec c f s p m lb ctx replay :
  hub_inv c f s p -> in_haystack m ->
  exists sc fo rs hit, arm_scan (feed_hub f) m lb ctx replay = Ok (sc, fo, rs, hit) /\ matcher sc = m.
Proof.
  intros Hi He. unfold arm_scan. destruct (if replay then ring (feed_hub f) else None) as [r|] eqn:Er.
  2:{ by eexists _, _, _, _. }
  assert (ring (feed_hub f) = Some r) as Hr by (by destruct replay).
  destruct (snapshot_fits c f s p r Hi Hr) as (Hs & Hl & _). unfold replay_window. rewrite Hs. cbn.
  unfold u64_sub. rewrite (proj2 (Z.ltb_ge _ _)) by done. cbn.
  assert (exists sn fo ex, match ring_gap (feed_hub f) with
    | Some (at_, bytes) =>
        if at_ >? ingested (feed_hub f) - len (lastn c s) then
          Ok (drop (Z.to_nat (Z.min (at_ - (ingested (feed_hub f) - len (lastn c s))) (len (lastn c s)))) (lastn c s), at_, bytes)
        else Ok (lastn c s, ingested (feed_hub f) - len (lastn c s), 0)
    | None => Ok (lastn c s, ingested (feed_hub f) - len (lastn c s), 0)
    end = (Ok (sn, fo, ex) : exec unit _)) as (sn & fo & ex & ->)
    by (destruct (ring_gap (feed_hub f)) as [[at_ bytes]|]; [destruct (_ >? _)|]; eauto).
  cbn. destruct (seed_total (window_new m lb ctx (ingested (feed_hub f))) sn fo ex He) as (w' & hit & -> & Hm).
  cbn. by eexists _, _, _, _.
Qed.

Lemma dropped_counts x d n p :
  (x + d) mod 2 ^ 64 = p mod 2 ^ 64 -> (x + u64_wrapping_add d n) mod 2 ^ 64 = (p + n) mod 2 ^ 64.
Proof.
  intros H. unfold u64_wrapping_add. rewrite Zplus_mod_idemp_r, <- (Zplus_mod_idemp_l p), <- H, Zplus_mod_idemp_l.
  f_equal. lia.
Qed.

Lemma inv_op c f s p op f' :
  hub_inv c f s p -> hub_op f op = Ok f' -> op_ok op -> len (s ++ drained f op) <= u64_max ->
  hub_inv c f' (s ++ drained f op) (p + produced op).
Proof.
  intros Hi Hop [Hp Hok] Hmax. pose proof Hi as [H1 H2 H3 H4 H5 Hm H6 H7].
  destruct op; cbn [hub_op drained produced] in *; rewrite ?app_nil_r, ?Z.add_0_r in *.
  - injection Hop as <-. unfold mirror. destruct (negb (active (feed_hub f)) || negb sent).
    + constructor; try done. by apply dropped_counts.
    + constructor; try done. cbn [feed_hub]. rewrite queued_app, <- (Zplus_mod_idemp_l p), <- H7, Zplus_mod_idemp_l. f_equal. lia.
  - injection Hop as <-. unfold skipped. constructor; try done. by apply dropped_counts.
  - destruct (queue f) as [|chunk q] eqn:Hq; [injection Hop as <-; cbn; by rewrite app_nil_r|].
    destruct (ingest send (feed_hub f) chunk) as [[h' out]| |] eqn:Ei; cbn in Hop; [|done|done].
    injection Hop as <-. cbn in *. by eapply inv_ingest.
  - unfold arm_wait in Hop. destruct (MAX_ARMED_WAITS <=? len (waits (feed_hub f))) eqn:Em.
    { injection Hop as <-. by destruct f. }
    destruct (arm_scan_spec c f s p m lookback context replay Hi Hok) as (sc & fo & rs & hit & Es & Hsm).
    rewrite Es in Hop. cbn in Hop. destruct hit; injection Hop as <-; [by destruct f|].
    apply inv_observers; try done; cbn.
    + rewrite len_app. change (len [_]) with 1. split_bools. lia.
    + intros x [Hx|Hx]%elem_of_app; [auto|]. apply list_elem_of_singleton in Hx as ->. cbn. by rewrite Hsm.
  - injection Hop as <-. unfold disarm. destruct (remove_wait id (waits (feed_hub f))) as [[w ws]|] eqn:Er; cbn;
      [|by destruct f].
    apply remove_wait_spec in Er as [Hl Hs]. apply inv_observers; try done; cbn; [unfold len in *; lia|].
    intros x Hx. apply Hm. by apply Hs.
  - unfold register in Hop.
    destruct (match (if replay then _ else _) with Some r => _ | None => _ end) as [[[[[a b] c0] d] o]| |];
      cbn in Hop; [|done|done]. injection Hop as <-. by apply inv_observers.
  - injection Hop as <-. apply inv_observers; try done. cbn. rewrite H3. unfold is_active. cbn.
    do 3 f_equal. destruct (taps (feed_hub f)) as [|t ts]; [done|]. cbn. by destruct (tap_id t =? id).
  - injection Hop as <-. by apply inv_observers.
  - injection Hop as <-. constructor; cbn; try done. intros w Hw. by apply elem_of_nil in Hw.
Qed.

Lemma reach_inv endpoint c ep f s p : hub_reach endpoint c ep f s p -> len s <= u64_max -> hub_inv c f s p.
Proof.
  induction 1 as [|f s p op f' Hr IH Hop Hp]; intros Hmax; [apply inv_new|].
  eapply inv_op; [|done|done|done]. apply IH. rewrite len_app in Hmax. pose proof (len_nonneg (drained f op)). lia.
Qed.

(** ** No operation aborts *)

Lemma register_ok c f s p id capacity send dropped replay :
  hub_inv c f s p -> 0 <= capacity ->
  exists h reg out, register (feed_hub f) id capacity send dropped replay = Ok (h, reg, out).
Proof.
  intros Hi Hcap. unfold register. destruct (if replay then ring (feed_hub f) else None) as [r|] eqn:Er.
  2:{ cbn. by eexists _, _, _. }
  assert (ring (feed_hub f) = Some r) as Hr by (by destruct replay).
  destruct (snapshot_fits c f s p r Hi Hr) as (Hs & Hl & _). rewrite Hs. cbn [mbind exec_bind].
  unfold u64_sub. rewrite (proj2 (Z.ltb_ge _ _)) by lia. cbn [mbind exec_bind].
  destruct (send_pieces _ _ _ _ _ _) as [[n d] out]. cbn. by eexists _, _, _.
Qed.

Definition cap_ok (op : HubOp) : Prop := match op with HRegister _ k _ _ _ => 0 <= k | _ => True end.

Lemma op_total c f s p op :
  hub_inv c f s p -> op_ok op -> cap_ok op -> exists f', hub_op f op = Ok f'.
Proof.
  intros Hi [Hp Hok] Hcap. destruct op; cbn [hub_op]; eauto.
  - destruct (queue f) as [|chunk q] eqn:Hq; [eauto|]. unfold ingest.
    set (gap := (_ mod 2 ^ 64)).
    assert (exists rr : option ReplayRing * option (Z * Z), match ring (feed_hub f) with
      | Some r => r' ← push r chunk; Ok (Some r', if gap >? 0 then Some (ingested (feed_hub f), gap) else ring_gap (feed_hub f))
      | None => Ok (None, ring_gap (feed_hub f)) end = (Ok rr : exec unit _)) as ([rg gg] & ->).
    { destruct (ring (feed_hub f)) as [r|] eqn:Hr; [|eauto].
      destruct (hi_ring _ _ _ _ Hi r Hr) as (Hc & Hc0 & Hh).
      destruct (push_holds r s chunk ltac:(lia) Hh) as (r' & -> & _). cbn. eauto. }
    cbn [mbind exec_bind]. destruct (fan_taps _ _ _ _ _) as [taps' o1].
    destruct (feed_waits_spec chunk gap (epoch (feed_hub f)) (waits (feed_hub f)) (hi_matchers _ _ _ _ Hi))
      as (waits' & o2 & -> & _). cbn. eauto.
  - unfold arm_wait. destruct (_ <=? _); [cbn; eauto|].
    destruct (arm_scan_spec c f s p m lookback context replay Hi Hok) as (sc & fo & rs & hit & -> & _).
    cbn. destruct hit; cbn; eauto.
  - destruct (register_ok c f s p id capacity send dropped replay Hi Hcap) as (h & reg & out & ->). cbn. eauto.
Qed.

(** ** Replay *)

(** Contiguous replay messages from [off]. *)
Fixpoint messages (id off : Z) (pieces : list (list byte)) : list Effect :=
  match pieces with
  | [] => []
  | p :: pieces => ToTap id (Data id p off 0) :: messages id (off + len p) pieces
  end.

Lemma send_pieces_ok send k id off dropped pieces :
  (forall i, (k <= i < k + length pieces)%nat -> send i = SentOk) ->
  send_pieces send k id off dropped pieces = (len (mjoin pieces), dropped, messages id off pieces).
Proof.
  revert k off. induction pieces as [|p pieces IH]; intros k off H; [done|].
  cbn [send_pieces messages]. rewrite (H k) by (cbn; lia). rewrite IH by (intros; apply H; cbn; lia).
  change (mjoin (p :: pieces)) with (p ++ mjoin pieces). by rewrite len_app.
Qed.

Lemma chunks_of_join fuel n l : (0 < n)%nat -> (length l <= fuel)%nat -> mjoin (chunks_of fuel n l) = l.
Proof.
  intros Hn. revert l. induction fuel as [|fuel IH]; intros l Hl; [by destruct l; cbn in Hl; [|lia]|].
  destruct l as [|x l]; [done|]. cbn [chunks_of].
  change (mjoin (?a :: ?b)) with (a ++ mjoin b). rewrite IH; [apply take_drop|].
  rewrite length_drop. cbn in *. lia.
Qed.

Lemma chunks_of_count fuel n k l : (0 < n)%nat -> (length l <= k * n)%nat -> (length (chunks_of fuel n l) <= k)%nat.
Proof.
  intros Hn. revert k l. induction fuel as [|fuel IH]; intros k l Hl; cbn [chunks_of]; [cbn; lia|].
  destruct l as [|x l]; [cbn; lia|]. destruct k as [|k]; [cbn in Hl; lia|].
  cbn [length]. apply le_n_S, IH. rewrite length_drop. lia.
Qed.

(** What [register] does on a live ring when the channel takes what it announced. *)
Lemma register_replays c f s p id capacity send dropped :
  hub_inv c f s p -> is_Some (ring (feed_hub f)) -> 0 <= capacity ->
  (forall k, Z.of_nat k < capacity -> send k = SentOk) ->
  let sent := Z.min (Z.min (Z.of_nat c) (len s)) (capacity * REPLAY_PIECE) in
  exists h reg pieces,
    register (feed_hub f) id capacity send dropped true = Ok (h, reg, messages id (reg_from_offset reg) pieces) /\
    mjoin pieces = drop (Z.to_nat (reg_from_offset reg)) s /\
    reg_from_offset reg = len s - sent /\ replay_bytes reg = sent /\
    replay_truncated reg = Z.min (Z.of_nat c) (len s) - sent /\
    taps h = taps (feed_hub f) ++ [mkTap id false dropped] /\ ingested h = len s.
Proof.
  intros Hi [r Hr] Hcap Hsend sent. unfold register. rewrite Hr.
  destruct (snapshot_fits c f s p r Hi Hr) as (Hs & Hl & He). rewrite Hs. cbn [mbind exec_bind].
  assert (len (lastn c s) = Z.min (Z.of_nat c) (len s)) as Hll by (unfold len; rewrite length_lastn; lia).
  pose proof (hi_ingested _ _ _ _ Hi) as Hing. pose proof (len_nonneg s) as Hs0.
  assert (0 < REPLAY_PIECE) as HP by (vm_compute; done).
  rewrite Hll. fold sent. assert (0 <= sent <= Z.min (Z.of_nat c) (len s)) as Hsent by (unfold sent; nia).
  unfold u64_sub. rewrite (proj2 (Z.ltb_ge _ _)) by lia. cbn [mbind exec_bind].
  set (snap := drop (Z.to_nat (Z.min (Z.of_nat c) (len s) - sent)) (lastn c s)).
  assert (Z.of_nat (length snap) = sent) as Hsl.
  { unfold snap, len in *. rewrite length_drop, length_lastn. lia. }
  assert (0 < Z.to_nat REPLAY_PIECE)%nat as HPn by lia.
  rewrite send_pieces_ok.
  2:{ intros i Hir. apply Hsend.
      pose proof (chunks_of_count (length snap) (Z.to_nat REPLAY_PIECE) (Z.to_nat capacity) snap HPn) as Hk.
      assert (length snap <= Z.to_nat capacity * Z.to_nat REPLAY_PIECE)%nat as Hle.
      { apply Nat2Z.inj_le. rewrite Hsl, Nat2Z.inj_mul, !Z2Nat.id by lia. unfold sent. lia. }
      specialize (Hk Hle). lia. }
  rewrite chunks_of_join by done. cbn [mbind exec_bind].
  eexists _, (mkRegistered (len snap) (Z.min (Z.of_nat c) (len s) - sent) (ingested (feed_hub f) - sent)
    (epoch (feed_hub f)) (feed_dropped_seen (feed_hub f))), (chunks_of (length snap) (Z.to_nat REPLAY_PIECE) snap). split; [reflexivity|].
  cbn [reg_from_offset replay_bytes replay_truncated taps ingested refresh_active].
  rewrite chunks_of_join by done. split_and!; try done; try lia.
  unfold snap, lastn, len in *. rewrite drop_drop. f_equal. lia.
Qed.

Lemma fan_taps_sends send chunk off gap ts t :
  t ∈ ts -> send (tap_id t) = SentOk ->
  ToTap (tap_id t) (Data (tap_id t) chunk off gap) ∈ (fan_taps send chunk off gap ts).2.
Proof.
  induction ts as [|x ts IH]; intros Hin Hs; [by apply elem_of_nil in Hin|]. cbn [fan_taps].
  destruct (fan_taps send chunk off gap ts) as [kept out]. cbn in IH.
  apply elem_of_cons in Hin as [->|Hin]; [rewrite Hs; left|].
  destruct (send (tap_id x)); [right|..]; by apply IH.
Qed.

Lemma ingest_sends send h chunk h' out t :
  ingest send h chunk = Ok (h', out) -> t ∈ taps h -> send (tap_id t) = SentOk ->
  exists gap, ToTap (tap_id t) (Data (tap_id t) chunk (ingested h) gap) ∈ out.
Proof.
  unfold ingest. set (gap := (_ mod 2 ^ 64)). intros H Ht Hs. exists gap.
  destruct (match ring h with Some r => _ | None => _ end) as [[rg gg]| |]; [|done|done]. cbn [mbind exec_bind] in H.
  pose proof (fan_taps_sends send chunk (ingested h) gap (taps h) t Ht Hs) as Hin.
  destruct (fan_taps send chunk (ingested h) gap (taps h)) as [taps' o1]. cbn in Hin.
  destruct (feed_waits _ _ _ _) as [[waits' o2]| |]; [|done|done]. cbn in H. injection H as <- <-.
  apply elem_of_app. by left.
Qed.

(** ** Properties *)

(** C18: whatever interleaving of producers, drains, taps, waits and teardown: the
    replay snapshot is exactly the last [c] ingested bytes, every produced byte is
    ingested, queued or counted as dropped (modulo the counter width), at most
    [MAX_ARMED_WAITS] waits are armed, and the producer's flag says exactly whether
    a live hub has anyone to serve; an orphaned hub never does. *)
Theorem hub_invariant endpoint c ep f s p :
  hub_reach endpoint c ep f s p -> len s <= u64_max ->
  let h := feed_hub f in
  (forall r, ring h = Some r -> ring_snapshot r = Ok (lastn c s)) /\
  ingested h = len s /\
  (len s + queued f + feed_dropped h) mod 2 ^ 64 = p mod 2 ^ 64 /\
  len (waits h) <= MAX_ARMED_WAITS /\
  (active h = true <-> orphaned h = false /\ (is_Some (ring h) \/ taps h <> [] \/ waits h <> [])).
Proof.
  intros Hr Hmax h. pose proof (reach_inv _ _ _ _ _ _ Hr Hmax) as Hi. split_and!.
  - intros r Hr'. by destruct (snapshot_fits c f s p r Hi Hr').
  - apply Hi.
  - apply Hi.
  - apply Hi.
  - unfold h. rewrite (hi_active _ _ _ _ Hi). fold h. unfold is_active.
    rewrite andb_true_iff, !orb_true_iff, negb_true_iff, bool_decide_eq_true, negb_true_iff, bool_decide_eq_false.
    destruct (waits h); naive_solver.
Qed.

(** No operation on a reachable hub aborts (ring indices, offsets before the
    ring, pattern indices, excerpt bounds), as long as the engine's matches lie in
    the haystack. *)
Theorem hub_never_panics endpoint c ep f s p op :
  hub_reach endpoint c ep f s p -> len s <= u64_max -> op_ok op -> cap_ok op ->
  exists f', hub_op f op = Ok f'.
Proof. intros Hr Hmax. eapply op_total. by eapply reach_inv. Qed.

(** opening a tap with replay splices exactly: if the channel takes the pieces
    it has room for, the replay is one contiguous run of the stream that ends
    where the hub stands, cut at its head only when the channel is too small (the
    cut is reported), nothing is counted as dropped, and the next live chunk
    carries the offset where the replay ended. *)
Theorem replay_splice_exact endpoint c ep f s p id capacity send dropped :
  hub_reach endpoint c ep f s p -> len s <= u64_max ->
  is_Some (ring (feed_hub f)) -> 0 <= capacity ->
  (forall k, Z.of_nat k < capacity -> send k = SentOk) ->
  exists h reg pieces,
    register (feed_hub f) id capacity send dropped true = Ok (h, reg, messages id (reg_from_offset reg) pieces) /\
    mjoin pieces = drop (Z.to_nat (reg_from_offset reg)) s /\
    reg_from_offset reg + replay_bytes reg = len s /\
    replay_bytes reg + replay_truncated reg = Z.min (Z.of_nat c) (len s) /\
    (Z.of_nat c <= capacity * REPLAY_PIECE -> replay_truncated reg = 0) /\
    taps h = taps (feed_hub f) ++ [mkTap id false dropped] /\
    forall live chunk h' out, ingest live h chunk = Ok (h', out) -> live id = SentOk ->
      exists gap, ToTap id (Data id chunk (reg_from_offset reg + replay_bytes reg) gap) ∈ out.
Proof.
  intros Hr Hmax Hring Hcap Hsend. pose proof (reach_inv _ _ _ _ _ _ Hr Hmax) as Hi.
  destruct (register_replays c f s p id capacity send dropped Hi Hring Hcap Hsend)
    as (h & reg & pieces & Ho & Hj & Hf & Hb & Ht & Htaps & Hing).
  exists h, reg, pieces. split_and!; try done; try lia.
  intros live chunk h' out Hin Hs. rewrite Hf, Hb.
  destruct (ingest_sends live h chunk h' out (mkTap id false dropped) Hin) as [gap Hg]; [|done|].
  { rewrite Htaps. apply elem_of_app. right. left. }
  exists gap. rewrite Hing in Hg. cbn in Hg. by replace (len s - _ + _) with (len s) by lia.
Qed.
End hub.

(** ** Instances *)

Definition sample_feed : @Feed anchored_engine :=
  mkFeed (E := anchored_engine)
    (mkHub (E := anchored_engine) [] [] (Some (mkRing 4 (as_bytes "ello") 0 4)) 5 true 0 0 None false "e" 1) [].

Lemma sample_reach : @hub_reach anchored_engine "e" 4 1 sample_feed (as_bytes "hello") 5.
Proof.
  pose (f1 := @mirror anchored_engine (mkFeed (E := anchored_engine) (hub_new (E := anchored_engine) "e" 4 1) [])
                (as_bytes "hello") true).
  assert (@hub_reach anchored_engine "e" 4 1 f1 [] 5) as H1.
  { apply (reach_op (E := anchored_engine) _ _ _ _ _ _ (HMirror (E := anchored_engine) (as_bytes "hello") true)
             f1 (reach_new (E := anchored_engine) _ _ _)); [reflexivity|split; [vm_compute; discriminate|exact I]]. }
  apply (reach_op (E := anchored_engine) _ _ _ _ _ _ (HDrain (E := anchored_engine) (fun _ => SentOk)) sample_feed H1);
    [vm_compute; reflexivity|split; [vm_compute; discriminate|exact I]].
Qed.

Lemma hub_invariant_witness :
  ring_snapshot (mkRing 4 (as_bytes "ello") 0 4) = Ok (lastn 4 (as_bytes "hello")).
Proof.
  apply (proj1 (@hub_invariant anchored_engine "e" 4 1 sample_feed (as_bytes "hello") 5
                  sample_reach ltac:(vm_compute; discriminate))).
  reflexivity.
Defined.

Lemma hub_never_panics_witness :
  exists f', @hub_op anchored_engine sample_feed
    (HRegister (E := anchored_engine) 9 128 (fun _ => SentOk) 0 true) = Ok f'.
Proof.
  apply (@hub_never_panics anchored_engine "e" 4 1 sample_feed (as_bytes "hello") 5).
  - exact sample_reach.
  - vm_compute. discriminate.
  - split; [vm_compute; discriminate|exact I].
  - vm_compute. discriminate.
Defined.

Lemma replay_splice_exact_witness :
  exists h reg pieces,
    @register anchored_engine (feed_hub sample_feed) 9 128 (fun _ => SentOk) 0 true
      = Ok (h, reg, messages 9 (reg_from_offset reg) pieces) /\
    mjoin pieces = drop (Z.to_nat (reg_from_offset reg)) (as_bytes "hello").
Proof.
  destruct (@replay_splice_exact anchored_engine "e" 4 1 sample_feed (as_bytes "hello") 5 9 128 (fun _ => SentOk) 0)
    as (h & reg & pieces & H1 & H2 & _).
  - exact sample_reach.
  - vm_compute. discriminate.
  - eexists. reflexivity.
  - lia.
  - reflexivity.
  - exists h, reg, pieces. split; assumption.
Defined.

(** ** A hole at the ring's edge

    Bytes lost by the feed between the last ingested chunk and the arming of a
    wait are credited to the wait, so the next chunk is appended to the replayed
    bytes as if it followed them. *)

Fixpoint run_ops `{E : Engine} (f : Feed) (ops : list HubOp) : exec unit Feed :=
  match ops with
  | [] => Ok f
  | op :: ops => f ← hub_op f op; run_ops f ops
  end.

(** The endpoint prints [lo], loses four bytes, a replaying wait for [login:] is
    armed, and [gin:] is queued. *)
Definition seam_ops : list (@HubOp literal_engine) :=
  [HMirror (E := literal_engine) (as_bytes "lo") true;
   HDrain (E := literal_engine) (fun _ => SentOk);
   HMirror (E := literal_engine) (as_bytes "XXXX") false;
   HArm (E := literal_engine) 7 console_matcher 4096 128 true;
   HMirror (E := literal_engine) (as_bytes "gin:") true].

(** The loss the hub has not yet charged, and what ingesting the queued chunk
    settles: wait, match offsets, gaps and bytes scanned. *)
Definition seam_outcome : option (Z * list (Z * Z * Z * Z * Z)) :=
  match @run_ops literal_engine (mkFeed (E := literal_engine) (hub_new (E := literal_engine) "e" 64 1) []) seam_ops with
  | Ok f =>
      match @ingest literal_engine (fun _ => SentOk) (feed_hub f) (as_bytes "gin:") with
      | Ok (_, out) =>
          Some (feed_dropped (feed_hub f) - feed_dropped_seen (feed_hub f),
                omap (fun e => match e with
                               | Settle id (Matched pm acc) =>
                                   Some (id, offset pm, end_offset pm, acc_gaps acc, bytes_scanned acc)
                               | _ => None
                               end) out)
      | _ => None
      end
  | _ => None
  end.

(** A replaying wait can match across bytes nobody observed: with four bytes
    lost between the ring's last byte and the next chunk, the wait for [login:]
    fires on [lo] followed by [gin:] at offsets 0 to 6, and its accounting reports
    a scan without gaps. *)
Theorem replay_seam_hole : seam_outcome = Some (4, [(7, 0, 6, 0, 6)]).
Proof. vm_compute. reflexivity. Qed.
