(* ===== verification/State.v ===== *)
(** * Observed node state (core/src/state.rs)

    The status every node reports and the moment it last changed.  The text of a
    reason is a parameter type [R]: the code only compares reasons for equality. *)

From S2P Require Import Prelude.

Inductive NodeStatus (R : Type) := Active | Waiting (reason : R) | Faulted (reason : R).
Arguments Active {R}.
Arguments Waiting {R} _.
Arguments Faulted {R} _.

#[export] Instance node_status_eq_dec {R} `{EqDecision R} : EqDecision (NodeStatus R).
Proof. solve_decision. Defined.

Record NodeState (R : Type) := mkNodeState { node_status : NodeStatus R; since_unix_ms : Z }.
Arguments mkNodeState {R} _ _.
Arguments node_status {R} _.
Arguments since_unix_ms {R} _.

Definition status_is_active {R} (s : NodeStatus R) : bool :=
  match s with Active => true | _ => false end.

Definition status_reason {R} (s : NodeStatus R) : option R :=
  match s with Active => None | Waiting reason | Faulted reason => Some reason end.

Definition is_active {R} (s : NodeState R) : bool := status_is_active (node_status s).

Definition new_at {R} (status : NodeStatus R) (unix_ms : Z) : NodeState R := mkNodeState status unix_ms.

(** The new state and whether this was a transition. *)
Definition set_at {R} `{EqDecision R} (s : NodeState R) (status : NodeStatus R) (unix_ms : Z)
  : NodeState R * bool :=
  if bool_decide (node_status s = status) then (s, false) else (mkNodeState status unix_ms, true).

(** [NodeState::set], whose result the callers modelled here discard. *)
Definition set_status {R} `{EqDecision R} (status : NodeStatus R) (unix_ms : Z) (s : NodeState R)
  : NodeState R := (set_at s status unix_ms).1.

(** [now_unix_ms] for a clock that reads [ms] milliseconds after the epoch
    (negative before it). *)
Definition now_unix_ms (ms : Z) : Z :=
  if ms <? 0 then 0 else if ms <=? u64_max then ms else u64_max.

Section Reports.
Context {R : Type} `{EqDecision R}.

(** A node's life as seen by its state: a creation and a series of reports. *)
Fixpoint set_all (s : NodeState R) (reports : list (NodeStatus R * Z)) : NodeState R :=
  match reports with
  | [] => s
  | (status, t) :: reports => set_all (set_at s status t).1 reports
  end.

Lemma set_all_app s k l : set_all s (k ++ l) = set_all (set_all s k) l.
Proof. revert s. induction k as [|[st t] k IH]; intros s; [done|]. apply IH. Qed.

Lemma set_all_same s l :
  Forall (fun r => r.1 = node_status s) l -> set_all s l = s.
Proof.
  induction 1 as [|[st t] l E F IH]; [done|]. cbn [set_all]. unfold set_at. cbn in E.
  by rewrite bool_decide_eq_true_2.
Qed.

Lemma set_all_status s k st t : node_status (set_all s (k ++ [(st, t)])) = st.
Proof.
  rewrite set_all_app. cbn. unfold set_at. case_bool_decide; done.
Qed.

(** The reported stamp is the age of the condition, not of the last report: after
    any history in which the status last became [st] at [t] and has only been
    re-reported since, the stamp is [t]; and only a change answers [true]. *)
Theorem stamp_is_transition_time s k st t l :
  node_status (set_all s k) <> st ->
  Forall (fun r => r.1 = st) l ->
  set_all s (k ++ (st, t) :: l) = mkNodeState st t
  /\ (set_at (set_all s k) st t).2 = true
  /\ (forall t', (set_at (set_all s (k ++ (st, t) :: l)) st t').2 = false).
Proof.
  intros Hne Hl.
  assert (E : set_all s (k ++ (st, t) :: l) = mkNodeState st t).
  { rewrite set_all_app. cbn [set_all]. unfold set_at at 1.
    rewrite bool_decide_eq_false_2 by done. by apply set_all_same. }
  rewrite E. unfold set_at. rewrite bool_decide_eq_false_2 by done. cbn.
  split_and!; [done..|]. intros t'. by rewrite bool_decide_eq_true_2.
Qed.
End Reports.

Lemma now_unix_ms_range ms : u64 (now_unix_ms ms).
Proof. unfold now_unix_ms, u64, u64_max. repeat case_match; lia. Qed.
