(* ===== verification/Boundary.v ===== *)
(** * Reconnect backoff (daemon/src/boundary.rs, [Backoff]) *)

From S2P Require Import Prelude.

Record Backoff := mkBackoff { initial : Z; max_ms : Z; current : Z; floor : Z }.

Definition exponential (initial_ms max_ms : Z) : Backoff := mkBackoff initial_ms max_ms initial_ms 1.
Definition fixed (ms : Z) : Backoff := mkBackoff ms ms ms 0.

(** The interval to wait and the advanced schedule. *)
Definition next_interval (b : Backoff) : Z * Backoff :=
  let cap := Z.max (max_ms b) (floor b) in
  let this := Z.min (Z.max (current b) (floor b)) cap in
  (this, mkBackoff (initial b) (max_ms b) (Z.min (u64_saturating_mul this 2) cap) (floor b)).

Definition reset (b : Backoff) : Backoff := mkBackoff (initial b) (max_ms b) (initial b) (floor b).

(** The first [n] waits of an outage. *)
Fixpoint intervals (n : nat) (b : Backoff) : list Z :=
  match n with
  | O => []
  | S n => let '(this, b) := next_interval b in this :: intervals n b
  end.

Definition backoff_cap (b : Backoff) : Z := Z.max (max_ms b) (floor b).

(** Every field is a u64, and the configuration is [b0]'s. *)
Definition same_schedule (b0 b : Backoff) : Prop :=
  initial b = initial b0 /\ max_ms b = max_ms b0 /\ floor b = floor b0.

Lemma next_interval_schedule b : same_schedule b (next_interval b).2.
Proof. done. Qed.

Lemma pow2_ge_1 i : 1 <= 2 ^ Z.of_nat i.
Proof. pose proof (Z.pow_pos_nonneg 2 (Z.of_nat i) ltac:(lia) ltac:(lia)). lia. Qed.

(** Doubling towards the cap in closed form; the saturation of the doubling is
    absorbed by the cap, which is itself a u64. *)
Lemma intervals_closed n b :
  1 <= floor b <= u64_max -> u64 (max_ms b) ->
  intervals n b =
  (fun i => Z.min (Z.max (current b) (floor b) * 2 ^ Z.of_nat i) (backoff_cap b)) <$> seq 0 n.
Proof.
  intros Hf Hm. revert b Hf Hm. induction n as [|n IH]; intros b Hf Hm; [done|].
  cbn [intervals seq fmap list_fmap next_interval]. f_equal.
  { unfold backoff_cap. lia. }
  rewrite IH by done. rewrite <- fmap_S_seq, <- list_fmap_compose. apply list_fmap_ext.
  intros i x _. cbn [compose current floor max_ms].
  replace (Z.of_nat (S x)) with (Z.succ (Z.of_nat x)) by lia. rewrite Z.pow_succ_r by lia.
  pose proof (pow2_ge_1 x). unfold backoff_cap, u64_saturating_mul, u64 in *. cbn [max_ms floor].
  set (p := 2 ^ Z.of_nat x) in *. set (c := Z.max (max_ms b) (floor b)).
  assert (c <= u64_max) by lia. set (v := Z.max (current b) (floor b)).
  assert (1 <= v) by lia.
  destruct (Z_le_gt_dec c v) as [Hc|Hc].
  - rewrite (Z.min_r v c) by lia. assert (c <= Z.min (Z.min (c * 2) u64_max) c) by lia.
    replace (Z.max (Z.min (Z.min (c * 2) u64_max) c) (floor b)) with c by lia. nia.
  - rewrite (Z.min_l v c) by lia. destruct (Z_le_gt_dec c (v * 2)).
    + replace (Z.max (Z.min (Z.min (v * 2) u64_max) c) (floor b)) with c by lia. nia.
    + replace (Z.max (Z.min (Z.min (v * 2) u64_max) c) (floor b)) with (v * 2) by lia.
      f_equal. ring.
Qed.

(** Any mix of waits and resets of one schedule. *)
Inductive backoff_use (b0 : Backoff) : Backoff -> Prop :=
| use_start : backoff_use b0 b0
| use_wait b : backoff_use b0 b -> backoff_use b0 (next_interval b).2
| use_reset b : backoff_use b0 b -> backoff_use b0 (reset b).

Lemma backoff_use_schedule b0 b : backoff_use b0 b -> same_schedule b0 b.
Proof. unfold same_schedule. induction 1; cbn; intuition congruence. Qed.

(** The connect role's schedule: whatever waits and resets came before, after a
    reset the waits are [max(initial, 1) * 2^i] milliseconds cut at
    [max(max, 1)]: never zero, never above the cap, for every u64 configuration. *)
Theorem exponential_schedule initial_ms max_ms b n :
  u64 initial_ms -> u64 max_ms ->
  backoff_use (exponential initial_ms max_ms) b ->
  intervals n (reset b) =
    (fun i => Z.min (Z.max initial_ms 1 * 2 ^ Z.of_nat i) (Z.max max_ms 1)) <$> seq 0 n
  /\ 1 <= (next_interval b).1 <= Z.max max_ms 1.
Proof.
  intros Hi Hm (E1 & E2 & E3)%backoff_use_schedule. cbn in E1, E2, E3. split.
  - rewrite intervals_closed; cbn; rewrite ?E2, ?E3; [|unfold u64_max; lia|done].
    unfold backoff_cap. cbn. by rewrite E1, E2, E3.
  - cbn. rewrite E2, E3. lia.
Qed.

(** The restart role's schedule is constant and not floored: a configured zero
    waits zero milliseconds, so the struct's doc comment ("floored at 1 so a zero
    config still makes progress") describes only the exponential shape. *)
Theorem fixed_schedule ms b n :
  u64 ms -> backoff_use (fixed ms) b -> Forall (eq ms) (intervals n b).
Proof.
  intros Hms Hu.
  assert (Hc : current b = ms).
  { induction Hu as [|b Hu IH|b Hu IH]; [done|..];
      apply backoff_use_schedule in Hu; destruct Hu as (E1 & E2 & E3); cbn in *; [|done].
    unfold u64_saturating_mul, u64 in *. rewrite E2, E3, IH. lia. }
  revert b Hu Hc. induction n as [|n IH]; intros b Hu Hc; [constructor|]. cbn [intervals].
  pose proof (backoff_use_schedule _ _ Hu) as (E1 & E2 & E3). cbn in E1, E2, E3.
  unfold next_interval. constructor.
  - rewrite Hc, E2, E3. unfold u64 in Hms. lia.
  - apply IH; [by apply (use_wait _ b)|]. cbn. unfold u64_saturating_mul, u64 in *.
    rewrite Hc, E2, E3. lia.
Qed.
