(* ===== verification/Log.v ===== *)
(** * The log node (daemon/src/nodes/log.rs)

    The bounded queue between the ingest pump and the blocking writer thread, the
    overflow policies, the writer's drain with partial writes, rotation and its
    counter, close and abandonment.  The two threads interleave at the queue's
    mutex: [log_step] has one step per critical section (the writer's file
    operations, which touch no shared field, belong to the section that follows
    them).  What the file system answers is an argument of each step; what it then
    holds is [disk], the files of the log's directory, which nothing else writes. *)

From S2P Require Import Prelude Envelope IpAddr Config State.
#[local] Open Scope Z_scope.

(** The text of a [std::io::Error]. *)
Definition IoError := string.

(** ** The queue *)

Inductive QueueItem := Bytes (chunk : list byte) | Rotate.

Definition item_len (it : QueueItem) : Z := match it with Bytes chunk => len chunk | Rotate => 0 end.

(** Why a node is faulted, or a write was refused. *)
Inductive LogReason :=
| OpenFailed (e : IoError)
| ScanFailed (e : IoError)
| SpawnFailed (e : IoError)
| QueueOverflow
| WriteFailed (e : IoError)
| RotateFailed (next : Z) (e : IoError)
| ReopenFailed (e : IoError).

#[export] Instance log_reason_eq_dec : EqDecision LogReason.
Proof. solve_decision. Defined.

Record Queue := mkQueue {
  items : list QueueItem; queued_bytes : Z; draining_bytes : Z; dropped_bytes : Z;
  write_errors : Z; last_write_error : option LogReason;
  rotate_pending : Z; rotation : option Z; closed : bool; writer_gone : bool;
  status : NodeState LogReason; overflow : OverflowPolicy }.

Definition QUEUE_CAP_BYTES : Z := 16 * 1024 * 1024.

Definition set_items (its : list QueueItem) (queued draining : Z) (q : Queue) : Queue :=
  mkQueue its queued draining (dropped_bytes q) (write_errors q) (last_write_error q)
    (rotate_pending q) (rotation q) (closed q) (writer_gone q) (status q) (overflow q).
Definition add_dropped (n : Z) (q : Queue) : Queue :=
  mkQueue (items q) (queued_bytes q) (draining_bytes q) (dropped_bytes q + n) (write_errors q)
    (last_write_error q) (rotate_pending q) (rotation q) (closed q) (writer_gone q) (status q) (overflow q).
Definition add_write_error (e : LogReason) (q : Queue) : Queue :=
  mkQueue (items q) (queued_bytes q) (draining_bytes q) (dropped_bytes q) (write_errors q + 1)
    (Some e) (rotate_pending q) (rotation q) (closed q) (writer_gone q) (status q) (overflow q).
Definition set_rotation (pending : Z) (r : option Z) (q : Queue) : Queue :=
  mkQueue (items q) (queued_bytes q) (draining_bytes q) (dropped_bytes q) (write_errors q)
    (last_write_error q) pending r (closed q) (writer_gone q) (status q) (overflow q).
Definition set_closed (q : Queue) : Queue :=
  mkQueue (items q) (queued_bytes q) (draining_bytes q) (dropped_bytes q) (write_errors q)
    (last_write_error q) (rotate_pending q) (rotation q) true (writer_gone q) (status q) (overflow q).
Definition set_gone (b : bool) (q : Queue) : Queue :=
  mkQueue (items q) (queued_bytes q) (draining_bytes q) (dropped_bytes q) (write_errors q)
    (last_write_error q) (rotate_pending q) (rotation q) (closed q) b (status q) (overflow q).
Definition set_fault (r : LogReason) (now : Z) (q : Queue) : Queue :=
  mkQueue (items q) (queued_bytes q) (draining_bytes q) (dropped_bytes q) (write_errors q)
    (last_write_error q) (rotate_pending q) (rotation q) (closed q) (writer_gone q)
    (set_status (Faulted r) now (status q)) (overflow q).

Definition is_bytes (it : QueueItem) : Prop := match it with Bytes _ => True | Rotate => False end.
#[export] Instance is_bytes_dec it : Decision (is_bytes it).
Proof. destruct it; cbn; apply _. Defined.

(** The eviction loop of [enqueue]: [need] is the length of the new chunk.  Each
    turn removes an item, so [length items] turns are enough. *)
Fixpoint evict_loop (fuel : nat) (need : Z) (q : Queue) : Queue :=
  match fuel with
  | O => q
  | S fuel =>
      if QUEUE_CAP_BYTES <? queued_bytes q + need then
        match list_find is_bytes (items q) with
        | Some (pos, Bytes old) =>
            evict_loop fuel need
              (add_dropped (len old)
                 (set_items (delete pos (items q)) (queued_bytes q - len old) (draining_bytes q) q))
        | _ => q
        end
      else q
  end.

Definition push_chunk (chunk : list byte) (q : Queue) : Queue :=
  set_items (items q ++ [Bytes chunk]) (queued_bytes q + len chunk) (draining_bytes q) q.

Definition enqueue (now : Z) (chunk : list byte) (q : Queue) : Queue * bool :=
  let n := len chunk in
  if writer_gone q then (add_dropped n q, false)
  else if QUEUE_CAP_BYTES <? queued_bytes q + n then
    match overflow q with
    | DropOldest => (push_chunk chunk (evict_loop (length (items q)) n q), true)
    | Fault =>
        let q := add_dropped n q in
        (if State.is_active (status q) then set_fault QueueOverflow now q else q, false)
    end
  else (push_chunk chunk q, true).

(** The number the writer gives the next rotation it performs. *)
Definition next_rotation (r : option Z) : Z :=
  match r with None => 0 | Some n => u64_saturating_add n 1 end.

(** [LogNode::rotate].  [rotate_pending] is a u32. *)
Definition rotate (q : Queue) : exec LogReason Z * Queue :=
  match node_status (status q) with
  | Faulted reason => (Err reason, q)
  | _ =>
      let next := u64_saturating_add (next_rotation (rotation q)) (rotate_pending q) in
      (Ok next,
       set_items (items q ++ [Rotate]) (queued_bytes q) (draining_bytes q)
         (set_rotation ((rotate_pending q + 1) mod 2 ^ 32) (rotation q) q))
  end.

Definition items_len (its : list QueueItem) : Z := foldr (fun it n => item_len it + n) 0 its.
#[local] Arguments items_len : simpl never.

Definition count_abandoned (rest : list QueueItem) (q : Queue) : Queue :=
  let q := foldl (fun q it => add_dropped (item_len it) q) q rest in
  set_items (items q) (queued_bytes q) 0 q.

Definition abandon_queue (q : Queue) : Queue :=
  let orphaned := items q in
  count_abandoned orphaned (set_items [] 0 (draining_bytes q) (set_gone true q)).

(** ** One chunk's write *)

Inductive WriteOutcome := Wrote (n : nat) | Interrupted | WriteError (e : IoError).

(** [write_chunk] against the answers of the successive [write(2)] calls: what
    reached the file, and the unwritten remainder with its error.  [None]: the
    answers given end before the function returns, or store more than was asked. *)
Fixpoint write_chunk (outs : list WriteOutcome) (rest : list byte)
  : option (list byte * option (Z * IoError)) :=
  match rest with
  | [] => Some ([], None)
  | _ =>
      match outs with
      | [] => None
      | Wrote O :: _ => Some ([], Some (len rest, "write returned zero bytes"%string))
      | Wrote n :: outs =>
          if (n <=? length rest)%nat then
            '(stored, res) ← write_chunk outs (drop n rest);
            Some (take n rest ++ stored, res)
          else None
      | Interrupted :: outs => write_chunk outs rest
      | WriteError e :: _ => Some ([], Some (len rest, e))
      end
  end.

(** ** Names of rotated files *)

(** [u64::to_string]; twenty digits hold every u64. *)
Fixpoint dec_digits (fuel : nat) (n : Z) : list byte :=
  match fuel with
  | O => []
  | S fuel => if n <? 10 then [digit n] else dec_digits fuel (n / 10) ++ [digit (n mod 10)]
  end.

(** [format!("{n:0padding$}")]. *)
Definition zero_padded (padding : nat) (n : Z) : list byte :=
  let ds := dec_digits 20 n in replicate (padding - length ds) x30 ++ ds.

Fixpoint parse_digits (acc : Z) (bs : list byte) : option Z :=
  match bs with
  | [] => Some acc
  | b :: bs =>
      d ← to_digit 10 b;
      let acc := acc * 10 + d in
      if acc <=? u64_max then parse_digits acc bs else None
  end.

(** [str::parse::<u64>]: an optional plus sign, then digits. *)
Definition parse_u64 (bs : list byte) : option Z :=
  match bs with
  | [] => None
  | [b] => to_digit 10 b
  | b :: bs' => if bool_decide (b = x2b) then parse_digits 0 bs' else parse_digits 0 bs
  end.

Definition strip_prefix (p bs : list byte) : option (list byte) :=
  if bool_decide (take (length p) bs = p) then Some (drop (length p) bs) else None.

(** The files of the log's directory, by name. *)
Abbreviation Disk := (gmap string (list byte)).

Section Node.
(** The node's [filename] and [rotation_padding]. *)
Variable filename : string.
Variable padding : nat.

Definition rotated_name (n : Z) : string :=
  from_bytes (as_bytes filename ++ [x2e] ++ zero_padded padding n).

(** The rotation number a directory entry carries, if it does. *)
Definition rotation_of (name : string) : option Z :=
  if utf8_valid (as_bytes name) then
    suffix ← strip_prefix (as_bytes filename ++ [x2e]) (as_bytes name);
    parse_u64 suffix
  else None.

(** The listing: [read_dir] may fail, and so may each entry ([inl]). *)
Fixpoint scan_entries (max : option Z) (entries : list (IoError + string)) : IoError + option Z :=
  match entries with
  | [] => inr max
  | inl e :: _ => inl e
  | inr name :: entries =>
      scan_entries
        (match rotation_of name with
         | Some n => Some (match max with Some m => Z.max m n | None => n end)
         | None => max
         end) entries
  end.

Definition scan_rotation (dir : IoError + list (IoError + string)) : IoError + option Z :=
  match dir with inl e => inl e | inr entries => scan_entries None entries end.

(** ** The node: queue, writer thread, directory *)

(** Where the writer thread stands: before its lock, waiting on the condvar,
    inside a batch, returning after a failed rotation with the rest of the
    batch, after the drain, gone. *)
Inductive Writer :=
| WTop
| WWaiting
| WBatch (batch : list QueueItem) (closing : bool)
| WRotationFailed (rest : list QueueItem)
| WExit
| WGone.

Record LogSys := mkLog { lq : Queue; writer : Writer; disk : Disk }.

(** [open_append]: create the file if it is missing. *)
Definition open_append (d : Disk) : Disk :=
  match d !! filename with Some _ => d | None => <[filename := []]> d end.

Definition append_file (data : list byte) (d : Disk) : Disk :=
  <[filename := default [] (d !! filename) ++ data]> d.

(** [rename(2)] of the current file, replacing what the new name held. *)
Definition rename_to (n : Z) (d : Disk) : Disk :=
  match d !! filename with
  | Some content => <[rotated_name n := content]> (delete filename d)
  | None => d
  end.

Definition fresh_queue (r : option Z) (st : NodeStatus LogReason) (o : OverflowPolicy) (now : Z) : Queue :=
  mkQueue [] 0 0 0 0 None 0 r false true (new_at st now) o.

(** [LogNode::create_with_spawner] with what the directory scan, the open and
    the thread spawn answered ([None]: success). *)
Definition create (o : OverflowPolicy) (now : Z) (dir : IoError + list (IoError + string))
  (opened spawned : option IoError) (d : Disk) : LogSys :=
  let scan := scan_rotation dir in
  let r := match scan with inr r => r | inl _ => None end in
  match opened, scan with
  | Some e, _ => mkLog (fresh_queue r (Faulted (OpenFailed e)) o now) WGone d
  | None, inl e => mkLog (fresh_queue r (Faulted (ScanFailed e)) o now) WGone (open_append d)
  | None, inr _ =>
      let q := fresh_queue r Active o now in
      match spawned with
      | Some e => mkLog (set_fault (SpawnFailed e) now q) WGone (open_append d)
      | None => mkLog (set_gone false q) WTop (open_append d)
      end
  end.

(** The head of [writer_drain]'s loop: wait, or take the whole queue. *)
Definition writer_lock (q : Queue) : Queue * Writer :=
  let q := set_items (items q) (queued_bytes q) 0 q in
  if bool_decide (items q = []) && negb (closed q) then (q, WWaiting)
  else (set_items [] 0 (queued_bytes q) q, WBatch (items q) (closed q)).

(** A chunk of the batch whose write answered [res]. *)
Definition chunk_written (now : Z) (res : option (Z * IoError)) (rest : list QueueItem)
  (closing : bool) (q : Queue) : Queue * Writer :=
  match res with
  | None => (q, WBatch rest closing)
  | Some (unwritten, e) =>
      let q := add_dropped unwritten q in
      match overflow q with
      | Fault => (set_fault (WriteFailed e) now (count_abandoned rest q), WExit)
      | DropOldest => (add_write_error (WriteFailed e) q, WBatch rest closing)
      end
  end.

(** [perform_rotation] with the answers of [rename] and of the reopen ([None]:
    success); the flag says whether the writer goes on. *)
Definition perform_rotation (now : Z) (rename reopen : option IoError) (q : Queue) (d : Disk)
  : Queue * Disk * bool :=
  let next := next_rotation (rotation q) in
  let pending := Z.max 0 (rotate_pending q - 1) in
  match rename with
  | Some e => (set_rotation pending (rotation q) (set_fault (RotateFailed next e) now q), d, false)
  | None =>
      let d := rename_to next d in
      match reopen with
      | None => (set_rotation pending (Some next) q, open_append d, true)
      | Some e => (set_rotation pending (rotation q) (set_fault (ReopenFailed e) now q), d, false)
      end
  end.

(** ** Steps *)

(** [Ingest]: the pump moves a chunk into the queue; [RotateReq], [StopReq]: the
    control plane; the others are the writer thread's critical sections. *)
Inductive LogOp :=
| Ingest (chunk : list byte) (now : Z)
| RotateReq
| StopReq
| WriterLock
| WriterWrite (outs : list WriteOutcome) (now : Z)
| WriterRotate (rename reopen : option IoError) (now : Z)
| WriterBatchEnd
| WriterAbandon
| WriterExit.

(** What is asked of the log: bytes to append, and a rotation with its number
    (a rename and a reopen). *)
Inductive Ev := EByte (b : byte) | ERename (n : Z) | EOpen.

Definition rotation_evs (n : Z) : list Ev := [ERename n; EOpen].
#[local] Arguments rotation_evs : simpl never.

(** A step and what it asked of the log; [None] when the operation is not the
    next one of its thread. *)
Definition log_step (op : LogOp) (s : LogSys) : option (LogSys * list Ev) :=
  let q := lq s in
  match op, writer s with
  | Ingest chunk now, w => Some (mkLog (enqueue now chunk q).1 w (disk s), EByte <$> chunk)
  | RotateReq, w =>
      let '(res, q) := rotate q in
      Some (mkLog q w (disk s), match res with Ok n => rotation_evs n | _ => [] end)
  | StopReq, w => Some (mkLog (set_closed q) w (disk s), [])
  | WriterLock, (WTop | WWaiting) =>
      let '(q, w) := writer_lock q in Some (mkLog q w (disk s), [])
  | WriterWrite outs now, WBatch (Bytes chunk :: rest) closing =>
      '(stored, res) ← write_chunk outs chunk;
      let '(q, w) := chunk_written now res rest closing q in
      Some (mkLog q w (append_file stored (disk s)), [])
  | WriterRotate rename reopen now, WBatch (Rotate :: rest) closing =>
      let '(q, d, ok) := perform_rotation now rename reopen q (disk s) in
      Some (mkLog q (if ok : bool then WBatch rest closing else WRotationFailed rest) d, [])
  | WriterBatchEnd, WBatch [] closing =>
      Some (if closing : bool
            then mkLog (set_items (items q) (queued_bytes q) 0 q) WExit (disk s)
            else mkLog q WTop (disk s), [])
  | WriterAbandon, WRotationFailed rest => Some (mkLog (count_abandoned rest q) WExit (disk s), [])
  | WriterExit, WExit => Some (mkLog (abandon_queue q) WGone (disk s), [])
  | _, _ => None
  end.

Fixpoint log_run (ops : list LogOp) (s : LogSys) : option (LogSys * list Ev) :=
  match ops with
  | [] => Some (s, [])
  | op :: ops =>
      '(s, evs) ← log_step op s;
      '(s, evs') ← log_run ops s;
      Some (s, evs ++ evs')
  end.

(** [state_extra]: resident bytes and loss as the [state] verb reports them. *)
Definition reported_queued (q : Queue) : Z := queued_bytes q + draining_bytes q.

(** ** Specification *)

(** The effect of a stream of requests on the directory, one at a time. *)
Definition apply_ev (d : Disk) (e : Ev) : Disk :=
  match e with
  | EByte b => append_file [b] d
  | ERename n => rename_to n d
  | EOpen => open_append d
  end.

Definition apply_evs (d : Disk) (evs : list Ev) : Disk := foldl apply_ev d evs.

(** What the queued items ask for when rotation numbers start at [next]. *)
Fixpoint item_evs (next : Z) (its : list QueueItem) : list Ev :=
  match its with
  | [] => []
  | Bytes chunk :: its => (EByte <$> chunk) ++ item_evs next its
  | Rotate :: its => rotation_evs next ++ item_evs (u64_saturating_add next 1) its
  end.

Definition is_byte (e : Ev) : bool := match e with EByte _ => true | _ => false end.
Definition ev_bytes (evs : list Ev) : Z := len (filter is_byte evs).
Definition ev_rotations (evs : list Ev) : list Ev := filter (fun e => negb (is_byte e)) evs.

(** The items the writer still has to handle; none once it is on its way out. *)
Definition pending_items (s : LogSys) : list QueueItem :=
  match writer s with
  | WTop | WWaiting => items (lq s)
  | WBatch batch _ => batch ++ items (lq s)
  | _ => []
  end.

Definition draining (s : LogSys) : bool :=
  match writer s with WTop | WWaiting | WBatch _ _ => true | _ => false end.

(** Bytes of the batch the writer holds. *)
Definition in_flight (s : LogSys) : Z :=
  match writer s with WBatch rest _ | WRotationFailed rest => items_len rest | _ => 0 end.

(** ** Events and items *)

Definition marks (its : list QueueItem) : Z := len (filter (fun it => ~ is_bytes it) its).

Lemma items_len_cons it its : items_len (it :: its) = item_len it + items_len its.
Proof. done. Qed.

Lemma items_len_app a b : items_len (a ++ b) = items_len a + items_len b.
Proof. induction a as [|it a IH]; [done|]. cbn [app]. rewrite !items_len_cons, IH. lia. Qed.

Lemma items_len_snoc its it : items_len (its ++ [it]) = items_len its + item_len it.
Proof. rewrite items_len_app, items_len_cons. change (items_len []) with 0. lia. Qed.

Lemma item_len_nonneg it : 0 <= item_len it.
Proof. destruct it; cbn; [apply len_nonneg | lia]. Qed.

Lemma items_len_nonneg its : 0 <= items_len its.
Proof. induction its as [|it its IH]; [done|]. rewrite items_len_cons. pose proof (item_len_nonneg it). lia. Qed.

Lemma no_bytes_len its : Forall (fun it => ~ is_bytes it) its -> items_len its = 0.
Proof. induction 1 as [|[c|] its Hb _ IH]; [done|by destruct Hb|]. by rewrite items_len_cons, IH. Qed.

Lemma marks_app a b : marks (a ++ b) = marks a + marks b.
Proof. unfold marks. by rewrite filter_app, len_app. Qed.

Lemma marks_bytes c its : marks (Bytes c :: its) = marks its.
Proof. done. Qed.

Lemma marks_rotate its : marks (Rotate :: its) = 1 + marks its.
Proof. unfold marks. rewrite filter_cons_True by (cbn; tauto). apply len_cons. Qed.

Lemma marks_nonneg its : 0 <= marks its.
Proof. apply len_nonneg. Qed.

Lemma ev_bytes_app a b : ev_bytes (a ++ b) = ev_bytes a + ev_bytes b.
Proof. unfold ev_bytes. by rewrite filter_app, len_app. Qed.

Lemma ev_bytes_chunk c : ev_bytes (EByte <$> c) = len c.
Proof.
  induction c as [|b c IH]; [done|]. rewrite fmap_cons. unfold ev_bytes in *.
  by rewrite filter_cons_True, !len_cons, IH.
Qed.

Lemma ev_bytes_rotation n : ev_bytes (rotation_evs n) = 0.
Proof. done. Qed.

Lemma ev_rotations_app a b : ev_rotations (a ++ b) = ev_rotations a ++ ev_rotations b.
Proof. apply filter_app. Qed.

Lemma ev_rotations_chunk c : ev_rotations (EByte <$> c) = [].
Proof. by induction c. Qed.

Lemma ev_bytes_items n its : ev_bytes (item_evs n its) = items_len its.
Proof.
  revert n. induction its as [|[c|] its IH]; intros n; [done|..]; cbn [item_evs];
    rewrite ev_bytes_app, IH, items_len_cons; [by rewrite ev_bytes_chunk|done].
Qed.

Lemma sat_add_assoc n m : 0 <= m ->
  u64_saturating_add (u64_saturating_add n 1) m = u64_saturating_add n (1 + m).
Proof. unfold u64_saturating_add. lia. Qed.

Lemma sat_add_0 n : n <= u64_max -> u64_saturating_add n 0 = n.
Proof. unfold u64_saturating_add. lia. Qed.

(** The numbers continue where the items before them stop. *)
Lemma item_evs_app n a b : n <= u64_max ->
  item_evs n (a ++ b) = item_evs n a ++ item_evs (u64_saturating_add n (marks a)) b.
Proof.
  revert n. induction a as [|[c|] a IH]; intros n Hn; cbn [app item_evs].
  - by rewrite sat_add_0.
  - by rewrite IH, marks_bytes, app_assoc.
  - rewrite IH by (unfold u64_saturating_add; lia). rewrite marks_rotate, sat_add_assoc by apply marks_nonneg.
    done.
Qed.

Lemma apply_evs_app d a b : apply_evs d (a ++ b) = apply_evs (apply_evs d a) b.
Proof. apply foldl_app. Qed.

Lemma apply_evs_chunk d c : is_Some (d !! filename) ->
  apply_evs d (EByte <$> c) = append_file c d.
Proof.
  revert d. induction c as [|b c IH]; intros d [old E].
  - cbn. unfold append_file. by rewrite E, app_nil_r, insert_id.
  - cbn. unfold apply_evs in IH. rewrite IH by (unfold append_file; rewrite lookup_insert_eq; eauto).
    unfold append_file. rewrite lookup_insert_eq, insert_insert_eq, E. cbn. by rewrite <- app_assoc.
Qed.

Lemma append_file_present c d : is_Some (append_file c d !! filename).
Proof. unfold append_file. rewrite lookup_insert_eq. eauto. Qed.

Lemma open_append_present d : is_Some (open_append d !! filename).
Proof. unfold open_append. destruct (d !! filename) eqn:E; [by rewrite E|]. rewrite lookup_insert_eq. eauto. Qed.

(** ** One chunk's write is exact *)

Lemma write_chunk_spec outs c stored res :
  write_chunk outs c = Some (stored, res) ->
  exists rest, c = stored ++ rest
    /\ match res with None => rest = [] | Some (n, _) => n = len rest /\ rest <> [] end.
Proof.
  revert c stored res. induction outs as [|o outs IH]; intros [|b c] stored res; cbn [write_chunk];
    try (intros [= <- <-]; by exists []).
  destruct o as [[|n]| |e].
  - intros [= <- <-]. by exists (b :: c).
  - destruct (_ <=? _)%nat eqn:Hn; [|done].
    destruct (write_chunk outs (drop (S n) (b :: c))) as [[st r]|] eqn:E; [|done].
    intros [= <- <-]. apply IH in E as (rest & E & Hr). exists rest. split; [|done].
    rewrite <- (take_drop (S n) (b :: c)) at 1. by rewrite E, app_assoc.
  - apply IH.
  - intros [= <- <-]. by exists (b :: c).
Qed.

(** ** Eviction *)

Record same_but_items (q q' : Queue) : Prop := {
  sb_draining : draining_bytes q' = draining_bytes q;
  sb_pending : rotate_pending q' = rotate_pending q;
  sb_rotation : rotation q' = rotation q;
  sb_closed : closed q' = closed q;
  sb_gone : writer_gone q' = writer_gone q;
  sb_status : status q' = status q;
  sb_overflow : overflow q' = overflow q }.

Lemma same_but_items_trans q1 q2 q3 : same_but_items q1 q2 -> same_but_items q2 q3 -> same_but_items q1 q3.
Proof. intros [] []. split; congruence. Qed.

(** Dropping one chunk leaves the rotation requests and their numbers alone. *)
Lemma item_evs_remove n c a b :
  n <= u64_max ->
  item_evs n (a ++ b) `sublist_of` item_evs n (a ++ Bytes c :: b)
  /\ ev_rotations (item_evs n (a ++ b)) = ev_rotations (item_evs n (a ++ Bytes c :: b)).
Proof.
  intros Hn. rewrite !item_evs_app by done. cbn [item_evs]. split.
  - apply sublist_app; [done|]. by apply sublist_inserts_l.
  - by rewrite !ev_rotations_app, ev_rotations_chunk.
Qed.

Lemma evict_loop_spec fuel need q :
  queued_bytes q = items_len (items q) ->
  let q' := evict_loop fuel need q in
  same_but_items q q'
  /\ queued_bytes q' = items_len (items q')
  /\ dropped_bytes q' + items_len (items q') = dropped_bytes q + items_len (items q)
  /\ marks (items q') = marks (items q)
  /\ (forall n, n <= u64_max ->
      item_evs n (items q') `sublist_of` item_evs n (items q)
      /\ ev_rotations (item_evs n (items q')) = ev_rotations (item_evs n (items q)))
  /\ ((length (items q) <= fuel)%nat -> queued_bytes q' + need <= QUEUE_CAP_BYTES \/ queued_bytes q' = 0).
Proof.
  revert q. induction fuel as [|fuel IH]; intros q Hq; cbn [evict_loop].
  { split_and!; try done. destruct (items q) eqn:E; cbn; [|lia]. intros _. right. by rewrite Hq. }
  destruct (Z.ltb_spec QUEUE_CAP_BYTES (queued_bytes q + need)) as [Hlt|Hge]; cbn zeta;
    [|split_and!; try done; intros _; left; lia].
  destruct (list_find is_bytes (items q)) as [[pos [old|]]|] eqn:F.
  2: { by apply list_find_Some in F as (_ & [] & _). }
  2: { split_and!; try done. intros _. right. rewrite Hq. apply no_bytes_len. by apply (list_find_None is_bytes). }
  apply list_find_Some in F as (Hpos & _ & _).
  set (q1 := add_dropped _ _).
  pose proof (take_drop_middle _ _ _ Hpos) as E.
  set (a := take pos (items q)) in *. set (b := drop (S pos) (items q)) in *.
  assert (E1 : items q1 = a ++ b) by (cbn; by rewrite delete_take_drop).
  destruct (IH q1) as (S1 & S2 & S3 & S4 & S5 & S6).
  { rewrite E1. cbn. rewrite Hq, <- E, !items_len_app, items_len_cons. cbn [item_len]. lia. }
  rewrite E1 in *. rewrite <- E. split_and!.
  - by apply (same_but_items_trans _ q1).
  - done.
  - rewrite S3. cbn. rewrite !items_len_app, items_len_cons. cbn [item_len]. lia.
  - rewrite S4. by rewrite !marks_app, marks_bytes.
  - intros n Hn. destruct (S5 n Hn) as [T1 T2]. destruct (item_evs_remove n old a b Hn) as [U1 U2].
    split; [by etrans|congruence].
  - intros Hf. apply S6. rewrite length_app in *. cbn in Hf. lia.
Qed.

Lemma enqueue_queues now c q :
  (enqueue now c q).2 = true ->
  queued_bytes q = items_len (items q) ->
  let q' := (enqueue now c q).1 in
  exists kept, items q' = kept ++ [Bytes c]
  /\ same_but_items q q'
  /\ queued_bytes q' = items_len (items q')
  /\ dropped_bytes q' + items_len kept = dropped_bytes q + items_len (items q)
  /\ marks kept = marks (items q)
  /\ (forall n, n <= u64_max -> item_evs n kept `sublist_of` item_evs n (items q)
      /\ ev_rotations (item_evs n kept) = ev_rotations (item_evs n (items q)))
  /\ (queued_bytes q' <= QUEUE_CAP_BYTES \/ queued_bytes q' = len c).
Proof.
  unfold enqueue. destruct (writer_gone q); [done|].
  destruct (Z.ltb_spec QUEUE_CAP_BYTES (queued_bytes q + len c)) as [Hlt|Hge].
  - destruct (overflow q); [|done]. intros _ Hq.
    destruct (evict_loop_spec (length (items q)) (len c) q Hq) as (S1 & S2 & S3 & S4 & S5 & S6).
    eexists. cbn. split; [done|]. rewrite items_len_snoc. split_and!; try done.
    + destruct S1; by split.
    + rewrite S2. done.
    + destruct (S6 ltac:(lia)); lia.
  - intros _ Hq. exists (items q). cbn. rewrite items_len_snoc. cbn.
    split_and!; try done; lia.
Qed.

Lemma enqueue_drops now c q :
  (enqueue now c q).2 = false ->
  let q' := (enqueue now c q).1 in
  items q' = items q /\ queued_bytes q' = queued_bytes q /\ draining_bytes q' = draining_bytes q
  /\ dropped_bytes q' = dropped_bytes q + len c
  /\ rotate_pending q' = rotate_pending q /\ rotation q' = rotation q /\ writer_gone q' = writer_gone q.
Proof.
  unfold enqueue. destruct (writer_gone q) eqn:G; [cbn; by rewrite G|].
  destruct (_ <? _); [|done]. destruct (overflow q); [done|]. intros _. cbn.
  destruct (State.is_active _); done.
Qed.

(** ** The invariant of a run

    [k] rotations have been requested, [offered] is what was asked of the log
    since it was created with directory [d0], [written] what reached the disk. *)
Record log_inv (d0 : Disk) (k : Z) (offered written : list Ev) (s : LogSys) : Prop := {
  li_disk : disk s = apply_evs d0 written;
  li_file : draining s = true -> is_Some (disk s !! filename);
  li_order : written ++ item_evs (next_rotation (rotation (lq s))) (pending_items s) `sublist_of` offered;
  li_rotations : draining s = true ->
    ev_rotations (written ++ item_evs (next_rotation (rotation (lq s))) (pending_items s))
    = ev_rotations offered;
  li_bytes : ev_bytes offered
             = ev_bytes written + in_flight s + items_len (items (lq s)) + dropped_bytes (lq s);
  li_queued : queued_bytes (lq s) = items_len (items (lq s));
  li_draining : in_flight s <= draining_bytes (lq s);
  li_pending : draining s = true -> rotate_pending (lq s) = marks (pending_items s);
  li_pending_range : 0 <= rotate_pending (lq s) <= k;
  li_gone : writer_gone (lq s) = true <-> writer s = WGone }.

Lemma next_rotation_max r : next_rotation r <= u64_max.
Proof. destruct r; unfold next_rotation, u64_saturating_add, u64_max; lia. Qed.

(** The queue grows at its end, possibly losing bytes: the order of what is
    left is kept. *)
Lemma pending_snoc s q' kept new :
  items q' = kept ++ new ->
  rotation q' = rotation (lq s) ->
  marks kept = marks (items (lq s)) ->
  (forall n, n <= u64_max -> item_evs n kept `sublist_of` item_evs n (items (lq s))
      /\ ev_rotations (item_evs n kept) = ev_rotations (item_evs n (items (lq s)))) ->
  let s' := mkLog q' (writer s) (disk s) in
  let r := next_rotation (rotation (lq s)) in
  draining s = true ->
  exists evs, item_evs r (pending_items s')
              = evs ++ item_evs (u64_saturating_add r (marks (pending_items s))) new
    /\ evs `sublist_of` item_evs r (pending_items s)
    /\ ev_rotations evs = ev_rotations (item_evs r (pending_items s)).
Proof.
  intros E Er Em Hk s' r Ha. pose proof (next_rotation_max (rotation (lq s))).
  assert (Hb : exists batch, pending_items s = batch ++ items (lq s)
              /\ pending_items s' = batch ++ kept ++ new).
  { unfold pending_items, draining, s' in *. cbn in *. rewrite E.
    destruct (writer s); try done; [by exists []..|]. by eexists. }
  destruct Hb as (batch & Eb & Eb'). rewrite Eb, Eb'.
  exists (item_evs r (batch ++ kept)). rewrite app_assoc, item_evs_app by done.
  rewrite !marks_app, Em. split; [done|]. rewrite !item_evs_app by done.
  destruct (Hk (u64_saturating_add r (marks batch))) as [K1 K2]; [unfold u64_saturating_add; lia|].
  split; [by apply sublist_app|]. by rewrite !ev_rotations_app, K2.
Qed.

Lemma pending_none s : draining s = false -> pending_items s = [].
Proof. unfold draining, pending_items. by destruct (writer s). Qed.

(** Offering more that is refused keeps the order. *)
Lemma inv_offer_dropped d0 k o w s q' c :
  log_inv d0 k o w s ->
  items q' = items (lq s) -> queued_bytes q' = queued_bytes (lq s) ->
  draining_bytes q' = draining_bytes (lq s) -> dropped_bytes q' = dropped_bytes (lq s) + len c ->
  rotate_pending q' = rotate_pending (lq s) -> rotation q' = rotation (lq s) ->
  writer_gone q' = writer_gone (lq s) ->
  log_inv d0 k (o ++ (EByte <$> c)) w (mkLog q' (writer s) (disk s)).
Proof.
  intros [] E1 E2 E3 E4 E5 E6 E7. destruct s as [q wr d]. cbn in *.
  assert (P : pending_items (mkLog q' wr d) = pending_items (mkLog q wr d))
    by (unfold pending_items; cbn; by rewrite E1).
  split; cbn; rewrite ?P, ?E1, ?E2, ?E3, ?E4, ?E5, ?E6, ?E7; try done.
  - by apply sublist_inserts_r.
  - intros Hd. by rewrite !ev_rotations_app, ev_rotations_chunk, app_nil_r, <- ev_rotations_app, li_rotations0.
  - rewrite ev_bytes_app, ev_bytes_chunk, li_bytes0. unfold in_flight. cbn. lia.
Qed.

Lemma inv_enqueue d0 k o w s now c :
  log_inv d0 k o w s ->
  log_inv d0 k (o ++ (EByte <$> c)) w (mkLog (enqueue now c (lq s)).1 (writer s) (disk s)).
Proof.
  intros I. destruct (enqueue now c (lq s)).2 eqn:Q.
  2: { apply (enqueue_drops now c) in Q as (?&?&?&?&?&?&?). by apply inv_offer_dropped. }
  destruct (enqueue_queues now c (lq s) Q (li_queued _ _ _ _ _ I)) as (kept & E & [] & S2 & S3 & S4 & S5 & _).
  set (q' := (enqueue now c (lq s)).1) in *. destruct I. destruct s as [q wr d]. cbn in *.
  assert (B : items_len (items q') = items_len kept + len c)
    by (rewrite E, items_len_snoc; done).
  destruct (draining (mkLog q wr d)) eqn:D.
  - destruct (pending_snoc (mkLog q wr d) q' kept [Bytes c] E sb_rotation0 S4 S5 D)
      as (evs & Ev & V1 & V2). cbn in Ev, V1, V2. rewrite app_nil_r in Ev.
    assert (M : marks (pending_items (mkLog q' wr d)) = marks (pending_items (mkLog q wr d))).
    { unfold pending_items, draining in *. cbn in *. rewrite E.
      destruct wr; try done; rewrite !marks_app, S4, marks_bytes; change (marks []) with 0; lia. }
    split; cbn; rewrite ?sb_rotation0, ?Ev, ?M, ?sb_pending0, ?sb_gone0, ?sb_draining0; try done; auto.
    + rewrite app_assoc. apply sublist_app; [|done]. etrans; [|exact li_order0]. by apply sublist_app.
    + intros _. rewrite app_assoc, !(ev_rotations_app _ (EByte <$> c)). f_equal.
      rewrite ev_rotations_app, V2, <- ev_rotations_app. by apply li_rotations0.
    + rewrite ev_bytes_app, ev_bytes_chunk, li_bytes0. unfold in_flight. cbn. lia.
  - rewrite (pending_none (mkLog q wr d) D) in *.
    assert (P : pending_items (mkLog q' wr d) = []) by (by apply pending_none).
    change (draining (mkLog q' wr d)) with (draining (mkLog q wr d)) in *.
    split; cbn; rewrite ?P, ?sb_pending0, ?sb_gone0, ?sb_draining0; try done;
      try (change (draining (mkLog q' wr d)) with (draining (mkLog q wr d)); by rewrite D).
    + by apply sublist_inserts_r.
    + rewrite ev_bytes_app, ev_bytes_chunk, li_bytes0. unfold in_flight. cbn. lia.
Qed.

Definition requested (res : exec LogReason Z) : list Ev :=
  match res with Ok n => rotation_evs n | _ => [] end.

Lemma inv_more d0 k k' o w s : k <= k' -> log_inv d0 k o w s -> log_inv d0 k' o w s.
Proof. intros Hk []. split; try done. lia. Qed.

Definition push_rotate (q : Queue) : Queue :=
  set_items (items q ++ [Rotate]) (queued_bytes q) (draining_bytes q)
    (set_rotation (rotate_pending q + 1) (rotation q) q).

Lemma inv_push_rotate d0 k o w s :
  log_inv d0 k o w s ->
  log_inv d0 (k + 1)
    (o ++ rotation_evs (u64_saturating_add (next_rotation (rotation (lq s))) (rotate_pending (lq s)))) w
    (mkLog (push_rotate (lq s)) (writer s) (disk s)).
Proof.
  intros []. destruct s as [q wr d]. cbn in *. set (q' := push_rotate q).
  assert (L : items_len (items q ++ [Rotate]) = items_len (items q))
    by (rewrite items_len_snoc; cbn; lia).
  change (draining (mkLog q wr d)) with (draining (mkLog q' wr d)) in *.
  destruct (draining (mkLog q' wr d)) eqn:D.
  - destruct (pending_snoc (mkLog q wr d) q' (items q) [Rotate] eq_refl eq_refl eq_refl ltac:(done) D)
      as (evs & Ev & V1 & V2). cbn in Ev, V1, V2. rewrite app_nil_r, <- li_pending0 in Ev by done.
    assert (M : marks (pending_items (mkLog q' wr d)) = marks (pending_items (mkLog q wr d)) + 1).
    { unfold pending_items, draining in *. cbn in *.
      destruct wr; try done; rewrite !marks_app; change (marks [Rotate]) with 1; lia. }
    split; cbn; rewrite ?L, ?Ev, ?M; auto; try lia.
    + rewrite app_assoc. apply sublist_app; [|done]. etrans; [|exact li_order0]. by apply sublist_app.
    + intros _. rewrite app_assoc, !(ev_rotations_app _ (rotation_evs _)). f_equal.
      rewrite ev_rotations_app, V2, <- ev_rotations_app. by apply li_rotations0.
    + rewrite ev_bytes_app, ev_bytes_rotation, li_bytes0.
      change (in_flight (mkLog q' wr d)) with (in_flight (mkLog q wr d)). lia.
  - rewrite (pending_none (mkLog q wr d) D) in *. rewrite <- (pending_none (mkLog q' wr d) D) in li_order0.
    split; cbn; rewrite ?L; auto; try lia; try (rewrite D; done).
    + by apply sublist_inserts_r.
    + rewrite ev_bytes_app, ev_bytes_rotation, li_bytes0.
      change (in_flight (mkLog q' wr d)) with (in_flight (mkLog q wr d)). lia.
Qed.

Lemma inv_rotate d0 k o w s :
  k + 1 < 2 ^ 32 -> log_inv d0 k o w s ->
  log_inv d0 (k + 1) (o ++ requested (rotate (lq s)).1) w (mkLog (rotate (lq s)).2 (writer s) (disk s)).
Proof.
  intros Hk I. pose proof (li_pending_range _ _ _ _ _ I).
  assert (Hm : (rotate_pending (lq s) + 1) mod 2 ^ 32 = rotate_pending (lq s) + 1)
    by (apply Z.mod_small; lia).
  unfold rotate. destruct (node_status (status (lq s))) as [|r|r]; cbn [fst snd requested].
  3: { rewrite app_nil_r. destruct s. by apply (inv_more _ k); [lia|]. }
  all: rewrite Hm; by apply inv_push_rotate.
Qed.

Lemma inv_stop d0 k o w s : log_inv d0 k o w s -> log_inv d0 k o w (mkLog (set_closed (lq s)) (writer s) (disk s)).
Proof. intros []. by split. Qed.

(** Taking the queue moves its items into the batch. *)
Lemma inv_lock d0 k o w s :
  writer s = WTop \/ writer s = WWaiting ->
  log_inv d0 k o w s ->
  log_inv d0 k o w (mkLog (writer_lock (lq s)).1 (writer_lock (lq s)).2 (disk s)).
Proof.
  intros Hw []. destruct s as [q wr d]. cbn in *.
  assert (G : writer_gone q <> true) by (rewrite li_gone0; by destruct Hw; subst).
  assert (P : pending_items (mkLog q wr d) = items q /\ draining (mkLog q wr d) = true
              /\ in_flight (mkLog q wr d) = 0) by (by destruct Hw; subst).
  destruct P as (P & D & F). rewrite P, D, F in *. unfold writer_lock. cbn.
  destruct (bool_decide (items q = []) && negb (closed q)) eqn:E.
  - split; cbn; auto; try done.
  - split; cbn; rewrite ?app_nil_r; auto; change (items_len []) with 0; try done; lia.
Qed.

Lemma count_abandoned_eq rest q :
  count_abandoned rest q = set_items (items q) (queued_bytes q) 0 (add_dropped (items_len rest) q).
Proof.
  assert (E : foldl (fun q it => add_dropped (item_len it) q) q rest = add_dropped (items_len rest) q).
  { revert q. induction rest as [|it rest IH]; intros q; cbn [foldl].
    - destruct q. unfold add_dropped, items_len. cbn. by rewrite Z.add_0_r.
    - rewrite IH. unfold add_dropped. cbn. by rewrite items_len_cons, Z.add_assoc. }
  unfold count_abandoned. by rewrite E.
Qed.

(** A chunk of which a prefix was stored. *)
Lemma written_order r w stored lost rest :
  (w ++ (EByte <$> stored)) ++ item_evs r rest `sublist_of` w ++ item_evs r (Bytes (stored ++ lost) :: rest)
  /\ ev_rotations ((w ++ (EByte <$> stored)) ++ item_evs r rest)
     = ev_rotations (w ++ item_evs r (Bytes (stored ++ lost) :: rest)).
Proof.
  cbn [item_evs]. rewrite fmap_app, <- !app_assoc. split.
  - apply sublist_app; [done|]. apply sublist_app; [done|]. by apply sublist_inserts_l.
  - by rewrite !ev_rotations_app, !ev_rotations_chunk.
Qed.

Lemma inv_write d0 k o w s outs now c rest closing stored res :
  writer s = WBatch (Bytes c :: rest) closing ->
  write_chunk outs c = Some (stored, res) ->
  log_inv d0 k o w s ->
  log_inv d0 k o (w ++ (EByte <$> stored))
    (mkLog (chunk_written now res rest closing (lq s)).1 (chunk_written now res rest closing (lq s)).2
       (append_file stored (disk s))).
Proof.
  intros Hw Hc []. destruct s as [q wr d]. cbn in Hw. subst wr.
  apply write_chunk_spec in Hc as (lost & -> & Hres). cbn in *.
  specialize (li_file0 eq_refl). specialize (li_rotations0 eq_refl). specialize (li_pending0 eq_refl).
  destruct (written_order (next_rotation (rotation q)) w stored lost (rest ++ items q)) as [T1 T2].
  cbn [pending_items] in *.
  assert (F : items_len (Bytes (stored ++ lost) :: rest) = len stored + len lost + items_len rest)
    by (rewrite items_len_cons; cbn; by rewrite len_app).
  rewrite F in *. rewrite marks_bytes in li_pending0.
  assert (G : writer_gone q <> true) by (by rewrite li_gone0).
  assert (Hd : append_file stored d = apply_evs d0 (w ++ (EByte <$> stored)))
    by (by rewrite apply_evs_app, <- li_disk0, apply_evs_chunk).
  pose proof (append_file_present stored d). pose proof (len_nonneg lost).
  pose proof (len_nonneg stored). pose proof (items_len_nonneg rest).
  unfold chunk_written. destruct res as [[n e]|]; [destruct Hres as [-> _]; cbn;
    destruct (overflow q); rewrite ?count_abandoned_eq|subst lost; rewrite len_nil in *].
  all: split; cbn; auto; rewrite ?ev_bytes_app, ?ev_bytes_chunk; try (unfold in_flight; cbn; lia); try done.
  all: try (by etrans). all: try (intros _; congruence).
  rewrite app_nil_r. etrans; [|exact li_order0]. etrans; [|exact T1]. by apply sublist_inserts_r.
Qed.

Lemma inv_exit d0 k o w s :
  writer s = WExit -> log_inv d0 k o w s ->
  log_inv d0 k o w (mkLog (abandon_queue (lq s)) WGone (disk s)).
Proof.
  intros Hw []. destruct s as [q wr d]. cbn in *. subst wr. unfold abandon_queue.
  rewrite count_abandoned_eq. unfold in_flight in *. cbn in *.
  split; cbn; try done; change (items_len []) with 0; unfold in_flight; cbn; lia.
Qed.

Lemma inv_abandon d0 k o w s rest :
  writer s = WRotationFailed rest -> log_inv d0 k o w s ->
  log_inv d0 k o w (mkLog (count_abandoned rest (lq s)) WExit (disk s)).
Proof.
  intros Hw []. destruct s as [q wr d]. cbn in *. subst wr. rewrite count_abandoned_eq.
  unfold in_flight in *. cbn in *. assert (writer_gone q <> true) by (by rewrite li_gone0).
  split; cbn; try done; unfold in_flight; cbn; lia.
Qed.

Lemma inv_rotation d0 k o w s rename reopen now rest closing q' d' ok :
  writer s = WBatch (Rotate :: rest) closing ->
  perform_rotation now rename reopen (lq s) (disk s) = (q', d', ok) ->
  log_inv d0 k o w s ->
  exists w', log_inv d0 k o (w ++ w')
    (mkLog q' (if ok then WBatch rest closing else WRotationFailed rest) d').
Proof.
  intros Hw Hp []. destruct s as [q wr d]. cbn in *. subst wr.
  specialize (li_file0 eq_refl). specialize (li_rotations0 eq_refl). specialize (li_pending0 eq_refl).
  cbn [pending_items in_flight writer app lq] in *. cbn [item_evs] in *.
  rewrite items_len_cons in *. cbn [item_len] in *. rewrite marks_rotate in li_pending0.
  assert (G : writer_gone q <> true) by (by rewrite li_gone0).
  pose proof (marks_nonneg (rest ++ items q)).
  set (next := next_rotation (rotation q)) in *.
  unfold perform_rotation in Hp. fold next in Hp.
  destruct rename as [e|]; [|destruct reopen as [e|]]; injection Hp as <- <- <-;
    [exists []|exists [ERename next]|exists (rotation_evs next)].
  all: split; cbn; rewrite ?app_nil_r; auto; try (rewrite ?ev_bytes_app, ?ev_bytes_rotation;
    change (ev_bytes [ERename next]) with 0; unfold in_flight; cbn; lia); try done.
  - etrans; [|exact li_order0]. by apply sublist_inserts_r.
  - by rewrite apply_evs_app, <- li_disk0.
  - etrans; [|exact li_order0]. apply sublist_app; [done|]. unfold rotation_evs. cbn.
    apply sublist_skip, sublist_nil_l.
  - by rewrite apply_evs_app, <- li_disk0.
  - intros _. apply open_append_present.
  - by rewrite <- app_assoc.
  - intros _. by rewrite <- app_assoc.
Qed.

Lemma inv_batch_end d0 k o w s closing :
  writer s = WBatch [] closing -> log_inv d0 k o w s ->
  log_inv d0 k o w
    (if closing then mkLog (set_items (items (lq s)) (queued_bytes (lq s)) 0 (lq s)) WExit (disk s)
     else mkLog (lq s) WTop (disk s)).
Proof.
  intros Hw []. destruct s as [q wr d]. cbn in *. subst wr.
  assert (G : writer_gone q <> true) by (by rewrite li_gone0).
  cbn in *. change (items_len []) with 0 in *. destruct closing.
  - split; cbn; auto; try done. rewrite app_nil_r. etrans; [|exact li_order0]. by apply sublist_inserts_r.
  - split; cbn; auto; try done.
Qed.

(** Rotations requested by an operation. *)
Definition rotates (op : LogOp) : Z := match op with RotateReq => 1 | _ => 0 end.
Definition total_rotates (ops : list LogOp) : Z := foldr (fun op n => rotates op + n) 0 ops.

Lemma total_rotates_nonneg ops : 0 <= total_rotates ops.
Proof.
  induction ops as [|op ops IH]; [done|].
  change (total_rotates (op :: ops)) with (rotates op + total_rotates ops). destruct op; cbn [rotates]; lia.
Qed.

Lemma inv_step d0 k o w s op s' evs :
  k + rotates op < 2 ^ 32 -> log_inv d0 k o w s -> log_step op s = Some (s', evs) ->
  exists w', log_inv d0 (k + rotates op) (o ++ evs) (w ++ w') s'.
Proof.
  intros Hk I Hs. destruct s as [q wr d] eqn:Es. rewrite <- Es in I. unfold log_step in Hs. cbn in Hs.
  destruct op; cbn [rotates] in *; rewrite ?Z.add_0_r in *.
  - injection Hs as <- <-. exists []. rewrite app_nil_r. pose proof (inv_enqueue _ _ _ _ _ now chunk I) as J.
    by subst.
  - pose proof (inv_rotate _ _ _ _ _ Hk I) as J. subst. cbn in J. destruct (rotate q) as [res q'].
    injection Hs as <- <-. exists []. by rewrite app_nil_r.
  - injection Hs as <- <-. exists []. rewrite !app_nil_r. apply inv_stop in I. by subst.
  - exists []. assert (Hw : writer s = WTop \/ writer s = WWaiting) by (destruct wr; subst; auto; done).
    pose proof (inv_lock _ _ _ _ _ Hw I) as J. subst. cbn in J. destruct (writer_lock q) as [q' w1].
    destruct wr; try done; injection Hs as <- <-; by rewrite !app_nil_r.
  - destruct wr as [| |[|[c|] rest] closing| | |]; try done.
    destruct (write_chunk outs c) as [[stored res]|] eqn:C; [|done]. cbn in Hs.
    pose proof (inv_write _ _ _ _ s _ now _ _ _ _ _ ltac:(by subst) C I) as J. subst. cbn in J.
    destruct (chunk_written now res rest closing q) as [q' w1]. injection Hs as <- <-.
    rewrite app_nil_r. by eexists.
  - destruct wr as [| |[|[c|] rest] closing| | |]; try done.
    destruct (perform_rotation now rename reopen q d) as [[q' d'] ok] eqn:P. injection Hs as <- <-.
    rewrite app_nil_r. eapply (inv_rotation _ _ _ _ s); [by subst| |done]. subst. exact P.
  - destruct wr as [| |[|] closing| | |]; try done. injection Hs as <- <-. exists [].
    rewrite !app_nil_r. pose proof (inv_batch_end _ _ _ _ s closing ltac:(by subst) I) as J. by subst.
  - destruct wr as [| | |rest| |]; try done. injection Hs as <- <-. exists [].
    rewrite !app_nil_r. pose proof (inv_abandon _ _ _ _ s rest ltac:(by subst) I) as J. by subst.
  - destruct wr; try done. injection Hs as <- <-. exists [].
    rewrite !app_nil_r. pose proof (inv_exit _ _ _ _ s ltac:(by subst) I) as J. by subst.
Qed.

Lemma inv_run d0 ops : forall k o w s s' evs,
  k + total_rotates ops < 2 ^ 32 -> log_inv d0 k o w s -> log_run ops s = Some (s', evs) ->
  exists w', log_inv d0 (k + total_rotates ops) (o ++ evs) (w ++ w') s'.
Proof.
  induction ops as [|op ops IH]; intros k o w s s' evs Hk I; cbn [log_run].
  { intros [= <- <-]. exists []. rewrite !app_nil_r. by rewrite Z.add_0_r. }
  change (total_rotates (op :: ops)) with (rotates op + total_rotates ops) in *.
  destruct (log_step op s) as [[s1 e1]|] eqn:S1; [|done]. cbn.
  destruct (log_run ops s1) as [[s2 e2]|] eqn:S2; [|done]. intros [= <- <-].
  pose proof (total_rotates_nonneg ops). destruct (inv_step d0 k o w s op s1 e1) as [w1 I1]; [lia|done..|].
  destruct (IH (k + rotates op) (o ++ e1) (w ++ w1) s1 s2 e2) as [w2 I2]; [lia|done..|]. exists (w1 ++ w2).
  by rewrite Z.add_assoc, !app_assoc in *.
Qed.

Lemma inv_create o now dir opened spawned d :
  let s := create o now dir opened spawned d in log_inv (disk s) 0 [] [] s.
Proof.
  unfold create. destruct opened as [e|], (scan_rotation dir) as [e'|r], spawned as [e''|]; cbn.
  all: split; cbn; try done; try (intros _; apply open_append_present); auto.
Qed.

(** ** The stream *)

Lemma ev_split evs : len evs = ev_bytes evs + len (ev_rotations evs).
Proof.
  unfold ev_bytes, ev_rotations. induction evs as [|e evs IH]; [done|].
  rewrite !filter_cons. destruct e; rewrite !len_cons, IH; cbn [is_byte negb];
    repeat case_decide; try done; rewrite !len_cons; lia.
Qed.

Lemma sublist_same_length {A} (l k : list A) : l `sublist_of` k -> length k = length l -> l = k.
Proof.
  induction 1 as [|x l k Hs IH|x l k Hs IH]; cbn; intros E; [done|f_equal; auto|].
  apply sublist_length in Hs. lia.
Qed.

(** C10: the log node implements "append what was offered, rotate where it was
    requested".  For a node created in any environment and any interleaving of
    ingest, rotation requests, stop and writer steps, with any answers of the
    file system: the directory is the result of applying to the initial one a
    subsequence of what was offered, in order, each rotation under the number its
    request was answered with; what is still queued continues that subsequence;
    while the writer runs no rotation is lost; every offered byte is written, in
    the writer's batch, queued or counted as dropped, exactly; the reported depth
    covers what is resident; and with nothing dropped, the disk and the backlog
    together are exactly the offered stream. *)
Theorem log_stream_exact o now dir opened spawned d ops s' offered :
  let s := create o now dir opened spawned d in
  total_rotates ops < 2 ^ 32 ->
  log_run ops s = Some (s', offered) ->
  exists written,
    let backlog := item_evs (next_rotation (rotation (lq s'))) (pending_items s') in
    disk s' = apply_evs (disk s) written
    /\ written ++ backlog `sublist_of` offered
    /\ (draining s' = true -> ev_rotations (written ++ backlog) = ev_rotations offered)
    /\ ev_bytes offered
       = ev_bytes written + in_flight s' + queued_bytes (lq s') + dropped_bytes (lq s')
    /\ in_flight s' + queued_bytes (lq s') <= reported_queued (lq s')
    /\ (draining s' = true -> dropped_bytes (lq s') = 0 -> written ++ backlog = offered).
Proof.
  intros s Hk Hr. destruct (inv_run (disk s) ops 0 [] [] s s' offered) as [w I];
    [lia|apply inv_create|done|]. cbn [app] in I. exists w. cbn zeta.
  pose proof (li_queued _ _ _ _ _ I) as Q. pose proof (li_bytes _ _ _ _ _ I) as B.
  pose proof (li_draining _ _ _ _ _ I). unfold reported_queued. split_and!; try (by apply I); try lia.
  intros D Z. apply sublist_same_length; [by apply I|].
  assert (E : len offered = len (w ++ item_evs (next_rotation (rotation (lq s'))) (pending_items s')));
    [|unfold len in E; lia].
  rewrite (ev_split offered), (ev_split (w ++ _)), (li_rotations _ _ _ _ _ I D), ev_bytes_app, ev_bytes_items.
  assert (items_len (pending_items s') = in_flight s' + items_len (items (lq s'))); [|lia].
  unfold pending_items, in_flight, draining in *. destruct (writer s'); try done. by rewrite items_len_app.
Qed.
End Node.

(** ** Rotation names *)

Lemma parse_digits_app acc a b :
  parse_digits acc (a ++ b) = match parse_digits acc a with Some m => parse_digits m b | None => None end.
Proof.
  revert acc. induction a as [|x a IH]; intros acc; [done|]. cbn [app parse_digits].
  destruct (to_digit 10 x); [|done]. cbn. destruct (_ <=? _); [apply IH|done].
Qed.

Lemma parse_dec_digits fuel n :
  0 <= n <= u64_max -> n < 10 ^ Z.of_nat fuel -> (0 < fuel)%nat -> parse_digits 0 (dec_digits fuel n) = Some n.
Proof.
  revert n. induction fuel as [|fuel IH]; intros n Hn Hf Hp; [lia|]. cbn [dec_digits].
  destruct (Z.ltb_spec n 10) as [Hlt|Hge].
  - cbn [parse_digits]. rewrite to_digit_digit by lia. cbn [mbind option_bind].
    rewrite Z.mul_0_l, Z.add_0_l. by rewrite (proj2 (Z.leb_le _ _)) by lia.
  - pose proof (Z.div_mod n 10 ltac:(lia)). pose proof (Z.mod_pos_bound n 10 ltac:(lia)).
    rewrite Nat2Z.inj_succ, Z.pow_succ_r in Hf by lia.
    rewrite parse_digits_app, IH; [|lia|lia|].
    + cbn [parse_digits]. rewrite to_digit_digit by lia. cbn [mbind option_bind].
      replace (n / 10 * 10 + n mod 10) with n by lia. by rewrite (proj2 (Z.leb_le _ _)) by lia.
    + destruct fuel; [|lia]. cbn in Hf. lia.
Qed.

Lemma dec_digits_all fuel n :
  0 <= n -> Forall (fun b => exists v, 0 <= v < 10 /\ b = digit v) (dec_digits fuel n).
Proof.
  revert n. induction fuel as [|fuel IH]; intros n Hn; [constructor|]. cbn.
  destruct (Z.ltb_spec n 10); [repeat constructor; eauto with lia|].
  pose proof (Z.mod_pos_bound n 10 ltac:(lia)).
  apply Forall_app. split; [apply IH; pose proof (Z.div_pos n 10); lia|]. repeat constructor; eauto.
Qed.

Lemma zero_padded_all padding n :
  0 <= n -> Forall (fun b => exists v, 0 <= v < 10 /\ b = digit v) (zero_padded padding n).
Proof.
  intros Hn. apply Forall_app. split; [|by apply dec_digits_all].
  apply Forall_replicate. exists 0. split; [lia|done].
Qed.

Lemma parse_digits_zeros k bs : parse_digits 0 (replicate k x30 ++ bs) = parse_digits 0 bs.
Proof. induction k as [|k IH]; [done|]. cbn [replicate app parse_digits]. exact IH. Qed.

(** What the writer formats the recovery scan reads back, whatever the padding. *)
Lemma parse_zero_padded padding n : u64 n -> parse_u64 (zero_padded padding n) = Some n.
Proof.
  intros Hn. pose proof (zero_padded_all padding n ltac:(unfold u64 in Hn; lia)) as F.
  assert (P : parse_digits 0 (zero_padded padding n) = Some n).
  { unfold zero_padded. rewrite parse_digits_zeros. unfold u64, u64_max in *.
    apply parse_dec_digits; unfold u64_max; cbn; lia. }
  destruct (zero_padded padding n) as [|b [|b' bs]] eqn:E.
  - exfalso. unfold zero_padded in E. apply app_eq_nil in E as [_ E]. cbn in E.
    repeat (destruct (_ <? _) in E; [done|]; try (apply app_eq_nil in E as [_ E]; done)).
  - cbn [parse_digits parse_u64] in *. destruct (to_digit 10 b) as [v|]; [|done]. cbn in P.
    by destruct (_ <=? _).
  - inversion_clear F as [|? ? [v [Hv Eb]] _]. unfold parse_u64.
    rewrite bool_decide_eq_false_2; [done|]. intros ->.
    pose proof (to_digit_digit v Hv) as D. by rewrite <- Eb in D.
Qed.

Lemma to_digit_nonneg r b v : to_digit r b = Some v -> 0 <= v.
Proof.
  unfold to_digit. intros H. repeat case_match; simplify_eq; split_bools; lia.
Qed.

Lemma strip_prefix_app p bs : strip_prefix p (p ++ bs) = Some bs.
Proof. unfold strip_prefix. rewrite take_app_length, drop_app_length. by rewrite bool_decide_eq_true_2. Qed.

Lemma utf8_digits bs : Forall (fun b => exists v, 0 <= v < 10 /\ b = digit v) bs -> utf8_valid bs = true.
Proof.
  induction 1 as [|b bs (v & Hv & ->) _ IH]; [done|]. cbn [utf8_valid].
  replace (Envelope.in_range 0 0x7f (digit v)) with true; [done|]. unfold Envelope.in_range, digit.
  rewrite bval_as_u8, Z.mod_small by lia. symmetry. apply andb_true_intro. rewrite !Z.leb_le. lia.
Qed.

Lemma parse_digits_range acc bs n : parse_digits acc bs = Some n -> u64 acc -> u64 n.
Proof.
  revert acc. induction bs as [|b bs IH]; intros acc; cbn [parse_digits]; [by intros [= <-]|].
  destruct (to_digit 10 b) as [v|] eqn:D; [|done]. cbn. destruct (Z.leb_spec (acc * 10 + v) u64_max); [|done].
  intros H' Ha. apply (IH _ H'). split; [|done].
  apply to_digit_nonneg in D.
  unfold u64 in Ha. lia.
Qed.

Lemma parse_u64_range bs n : parse_u64 bs = Some n -> u64 n.
Proof.
  assert (Z0 : u64 0) by (unfold u64, u64_max; lia).
  destruct bs as [|b [|b' bs]]; cbn [parse_u64]; [done|..].
  - intros E. apply (parse_digits_range 0 [b]); [|done]. cbn. rewrite E. cbn.
    pose proof (to_digit_nonneg _ _ _ E). assert (n < 10); [|rewrite (proj2 (Z.leb_le _ _)); [done|unfold u64_max; lia]].
    revert E. unfold to_digit. intros. repeat case_match; simplify_eq; split_bools; lia.
  - case_bool_decide; intros E; by apply parse_digits_range in E.
Qed.

Section NoClobber.
Variable filename : string.
Variable padding : nat.
Hypothesis Hname : is_str filename.

(** The name given to a rotation carries its number back. *)
Lemma rotation_of_rotated n : u64 n -> rotation_of filename (rotated_name filename padding n) = Some n.
Proof.
  intros Hn. unfold rotation_of, rotated_name. rewrite as_from_bytes, app_assoc.
  rewrite utf8_valid_app.
  - rewrite strip_prefix_app. by apply parse_zero_padded.
  - by apply utf8_valid_app.
  - apply utf8_digits, zero_padded_all. unfold u64 in Hn. lia.
Qed.

Lemma rotation_of_current : rotation_of filename filename = None.
Proof.
  unfold rotation_of. destruct (utf8_valid _); [|done]. unfold strip_prefix.
  rewrite bool_decide_eq_false_2; [done|]. intros E. apply (f_equal length) in E.
  rewrite length_take, length_app in E. cbn in E. lia.
Qed.

(** Every rotation on disk is at most the counter. *)
Definition counter_covers (r : option Z) (d : Disk) : Prop :=
  forall name n, is_Some (d !! name) -> rotation_of filename name = Some n ->
    exists m, r = Some m /\ n <= m.

Definition rotation_range (r : option Z) : Prop := match r with Some m => u64 m | None => True end.

Lemma next_rotation_range r : rotation_range r -> u64 (next_rotation r).
Proof. destruct r; unfold rotation_range, u64, next_rotation, u64_saturating_add, u64_max; lia. Qed.

(** The next rotation's name is free, unless the counter is at its maximum. *)
Lemma next_name_free r d :
  rotation_range r -> r <> Some u64_max -> counter_covers r d ->
  d !! rotated_name filename padding (next_rotation r) = None.
Proof.
  intros Hr Hm C. destruct (d !! _) eqn:E; [|done].
  destruct (C _ (next_rotation r) (mk_is_Some _ _ E)) as (m & -> & Hle);
    [by apply rotation_of_rotated, next_rotation_range|].
  exfalso. unfold next_rotation, u64_saturating_add, rotation_range, u64 in *.
  assert (m <> u64_max) by congruence. lia.
Qed.

Lemma evict_loop_rotation fuel need q : rotation (evict_loop fuel need q) = rotation q.
Proof.
  revert q. induction fuel as [|fuel IH]; intros q; cbn; [done|]. destruct (_ <? _); [|done].
  destruct (list_find _ _) as [[pos [old|]]|]; [|done..]. by rewrite IH.
Qed.

Lemma enqueue_rotation now c q : rotation (enqueue now c q).1 = rotation q.
Proof.
  unfold enqueue. destruct (writer_gone q); [done|]. destruct (_ <? _); [|done].
  destruct (overflow q); cbn; [apply evict_loop_rotation|]. by destruct (State.is_active _).
Qed.

Lemma rotate_rotation q : rotation (rotate q).2 = rotation q.
Proof. unfold rotate. by destruct (node_status _). Qed.

Lemma chunk_written_frame now res rest closing q q' w :
  chunk_written now res rest closing q = (q', w) ->
  rotation q' = rotation q.
Proof.
  unfold chunk_written. destruct res as [[n e]|]; [|by intros [= <- <-]]. cbn.
  destruct (overflow q); intros [= <- <-]; by rewrite ?count_abandoned_eq.
Qed.

(** Only a rotation touches names or the counter. *)
Lemma step_frame op s s' evs :
  log_step filename padding op s = Some (s', evs) ->
  (rotation (lq s') = rotation (lq s) /\ (draining s' = true -> draining s = true)
   /\ (disk s' = disk s \/ draining s = true /\ exists c, disk s' = append_file filename c (disk s)))
  \/ (draining s = true /\ exists rename reopen now ok,
       perform_rotation filename padding now rename reopen (lq s) (disk s) = (lq s', disk s', ok)
       /\ draining s' = ok).
Proof.
  destruct s as [q wr d]. intros Hs. unfold log_step in Hs. cbn in Hs |- *.
  destruct op as [chunk now| | | |outs now|rename reopen now| | |].
  - left. injection Hs as <- <-. cbn. rewrite enqueue_rotation. auto.
  - left. pose proof (rotate_rotation q) as E. destruct (rotate q) as [res q']. injection Hs as <- <-.
    cbn in *. auto.
  - left. injection Hs as <- <-. auto.
  - left. assert (E : rotation (writer_lock q).1 = rotation q) by (unfold writer_lock; by case_if).
    destruct (writer_lock q) as [q' w]. destruct wr; try done; injection Hs as <- <-; auto.
  - left. destruct wr as [| |[|[c|] rest] closing| | |]; try done.
    destruct (write_chunk outs c) as [[stored res]|]; [|done]. cbn in Hs.
    destruct (chunk_written now res rest closing q) as [q' w] eqn:C. injection Hs as <- <-. cbn.
    apply chunk_written_frame in C. split_and!; [done..|]. right. eauto.
  - right. destruct wr as [| |[|[c|] rest] closing| | |]; try done. split; [done|].
    destruct (perform_rotation _ _ now rename reopen q d) as [[q' d'] ok] eqn:P. injection Hs as <- <-.
    exists rename, reopen, now, ok. split; [exact P|]. by destruct ok.
  - left. destruct wr as [| |[|] closing| | |]; try done. injection Hs as <- <-. destruct closing; auto.
  - left. destruct wr; try done. injection Hs as <- <-. rewrite count_abandoned_eq. auto.
  - left. destruct wr; try done. injection Hs as <- <-. unfold abandon_queue. rewrite count_abandoned_eq. auto.
Qed.

(** Every file but the current one is kept as it is. *)
Definition archives_kept (d d' : Disk) : Prop :=
  forall name c, name <> filename -> d !! name = Some c -> d' !! name = Some c.

#[local] Instance archives_kept_preorder : PreOrder archives_kept.
Proof. split; [intros d name c _ E; exact E|]. intros d1 d2 d3 H1 H2 name c Hn E. apply H2, H1; done. Qed.

Record archive_ok (s : LogSys) : Prop := {
  ao_range : rotation_range (rotation (lq s));
  ao_file : draining s = true -> is_Some (disk s !! filename);
  ao_covers : draining s = true -> counter_covers (rotation (lq s)) (disk s) }.

Lemma append_file_keeps c d : archives_kept d (append_file filename c d).
Proof. intros name x Hn E. unfold append_file. by rewrite lookup_insert_ne. Qed.

Lemma open_append_keeps d : archives_kept d (open_append filename d).
Proof. intros name x Hn E. unfold open_append. destruct (d !! filename); [done|]. by rewrite lookup_insert_ne. Qed.

Lemma rename_to_keeps n d :
  d !! rotated_name filename padding n = None -> archives_kept d (rename_to filename padding n d).
Proof.
  intros Hf name x Hn E. unfold rename_to. destruct (d !! filename); [|done].
  rewrite lookup_insert_ne by congruence. by rewrite lookup_delete_ne.
Qed.

Lemma covers_append r c d : counter_covers r d -> counter_covers r (append_file filename c d).
Proof.
  intros C name n [x E] R. destruct (decide (name = filename)) as [->|Hn].
  - by rewrite rotation_of_current in R.
  - unfold append_file in E. rewrite lookup_insert_ne in E by done. eauto.
Qed.

Lemma covers_rotated r d :
  rotation_range r -> counter_covers r d ->
  counter_covers (Some (next_rotation r)) (open_append filename (rename_to filename padding (next_rotation r) d)).
Proof.
  intros Hr C name n [x E] R. eexists. split; [done|].
  destruct (decide (name = filename)) as [->|Hn]; [by rewrite rotation_of_current in R|].
  assert (E' : rename_to filename padding (next_rotation r) d !! name = Some x).
  { unfold open_append in E. destruct (rename_to _ _ _ _ !! filename); [done|]. by rewrite lookup_insert_ne in E. }
  destruct (decide (name = rotated_name filename padding (next_rotation r))) as [->|Hn'].
  - rewrite rotation_of_rotated in R by (by apply next_rotation_range). injection R as <-. lia.
  - assert (E2 : d !! name = Some x).
    { unfold rename_to in E'. destruct (d !! filename); [|done].
      rewrite lookup_insert_ne in E' by done. by rewrite lookup_delete_ne in E'. }
    destruct (C name n ltac:(eauto) R) as (m & -> & Hle). unfold next_rotation, u64_saturating_add.
    unfold rotation_range, u64 in Hr. lia.
Qed.

Lemma archive_step op s s' evs :
  archive_ok s -> rotation (lq s) <> Some u64_max ->
  log_step filename padding op s = Some (s', evs) ->
  archive_ok s' /\ archives_kept (disk s) (disk s').
Proof.
  intros [R F C] Hm Hs. apply step_frame in Hs as [(Er & Hd & [Ed|[D [c Ed]]])|(D & rn & ro & now & ok & P & Hok)].
  - rewrite Ed. split; [|done]. split; rewrite ?Er, ?Ed; auto.
  - rewrite Ed. split; [|apply append_file_keeps]. split; rewrite ?Er, ?Ed; auto.
    + intros _. apply append_file_present.
    + intros _. by apply covers_append, C.
  - pose proof (next_name_free _ _ R Hm (C D)) as Free.
    pose proof (next_rotation_range _ R) as Rn. pose proof (covers_rotated _ _ R (C D)) as Cov.
    unfold perform_rotation in P. destruct rn as [e|]; [|destruct ro as [e|]];
      injection P as Eq Ed Eo; rewrite <- Ed; split.
    1, 3: by split; rewrite <- ?Eq, ?Hok, <- ?Eo; cbn.
    + done.
    + by apply rename_to_keeps.
    + split; rewrite <- ?Eq, <- ?Ed; cbn; auto. intros _. apply open_append_present.
    + etrans; [by apply rename_to_keeps|apply open_append_keeps].
Qed.

Lemma step_counter_max op s s' evs :
  log_step filename padding op s = Some (s', evs) ->
  rotation (lq s) = Some u64_max -> rotation (lq s') = Some u64_max.
Proof.
  intros [(Er & _ & _)|(_ & rn & ro & now & ok & P & _)]%step_frame Hm; [congruence|].
  unfold perform_rotation in P. rewrite Hm in P.
  destruct rn; [|destruct ro]; injection P as <- _ _; done.
Qed.

Lemma run_counter_max ops s s' evs :
  log_run filename padding ops s = Some (s', evs) ->
  rotation (lq s) = Some u64_max -> rotation (lq s') = Some u64_max.
Proof.
  revert s evs. induction ops as [|op ops IH]; intros s evs; cbn [log_run]; [by intros [= <- <-]|].
  destruct (log_step _ _ op s) as [[s1 e1]|] eqn:S1; [|done]. cbn.
  destruct (log_run _ _ ops s1) as [[s2 e2]|] eqn:S2; [|done]. intros [= <- <-] Hm.
  by eapply IH, step_counter_max.
Qed.

Lemma archive_run ops s s' evs :
  archive_ok s -> log_run filename padding ops s = Some (s', evs) ->
  rotation (lq s') <> Some u64_max ->
  archive_ok s' /\ archives_kept (disk s) (disk s').
Proof.
  revert s evs. induction ops as [|op ops IH]; intros s evs A; cbn [log_run]; [by intros [= <- <-]|].
  destruct (log_step _ _ op s) as [[s1 e1]|] eqn:S1; [|done]. cbn.
  destruct (log_run _ _ ops s1) as [[s2 e2]|] eqn:S2; [|done]. intros [= <- <-] Hm.
  assert (Hm1 : rotation (lq s1) <> Some u64_max) by (intros E; by apply Hm, (run_counter_max _ _ _ _ S2)).
  assert (Hm0 : rotation (lq s) <> Some u64_max) by (intros E; by apply Hm1, (step_counter_max _ _ _ _ S1)).
  destruct (archive_step _ _ _ _ A Hm0 S1) as [A1 K1]. destruct (IH _ _ A1 S2 Hm) as [A2 K2].
  split; [done|]. by etrans.
Qed.

(** The recovery scan returns the greatest rotation listed. *)
Lemma scan_entries_max entries m r :
  scan_entries filename m entries = inr r -> rotation_range m ->
  rotation_range r
  /\ (forall n, m = Some n -> exists n', r = Some n' /\ n <= n')
  /\ (forall name n, inr name ∈ entries -> rotation_of filename name = Some n ->
      exists n', r = Some n' /\ n <= n').
Proof.
  revert m. induction entries as [|[e|name] entries IH]; intros m; cbn [scan_entries]; [|done|].
  { intros [= <-] Hr. split_and!; [done| |by intros ? ? ?%elem_of_nil]. intros n ->. exists n. split; [done|lia]. }
  intros Hs Hr. destruct (rotation_of filename name) as [v|] eqn:E.
  - assert (U : u64 v).
    { unfold rotation_of in E. destruct (utf8_valid _); [|done]. destruct (strip_prefix _ _) as [bs|]; [|done].
      cbn in E. by apply parse_u64_range in E. }
    apply IH in Hs as (R1 & R2 & R3).
    2: { destruct m; cbn in *; unfold u64 in *; lia. }
    destruct (R2 _ eq_refl) as (n' & -> & Hn'). split_and!; [done|..].
    + intros n ->. exists n'. split; [done|lia].
    + intros nm n [Hin|Hin]%elem_of_cons Hrot; [|by eapply R3]. injection Hin as ->.
      rewrite E in Hrot. injection Hrot as <-. exists n'. split; [done|]. destruct m; lia.
  - apply IH in Hs as (R1 & R2 & R3); [|done]. split_and!; [done..|].
    intros nm n [Hin|Hin]%elem_of_cons Hrot; [|by eapply R3]. injection Hin as ->. congruence.
Qed.

Lemma archive_create o now entries opened spawned d :
  (forall name, is_Some (d !! name) -> inr name ∈ entries) ->
  archive_ok (create filename o now (inr entries) opened spawned d).
Proof.
  intros Hl. unfold create. cbn [scan_rotation].
  destruct (scan_entries filename None entries) as [e|r] eqn:E.
  { by destruct opened; split. }
  apply scan_entries_max in E as (R1 & _ & R3); [|done].
  destruct opened, spawned; split; cbn; try done.
  - intros _. apply open_append_present.
  - intros _ name n [x Hx] Hn. destruct (decide (name = filename)) as [->|Hne];
      [by rewrite rotation_of_current in Hn|].
    apply (R3 name); [|done]. apply Hl. unfold open_append in Hx.
    destruct (d !! filename); [eauto|]. rewrite lookup_insert_ne in Hx by done. eauto.
Qed.

(** rotation never destroys a file.  For a node whose recovery scan listed
    the directory, at any two moments of any run: every file of the directory
    other than the current one, rotated before the daemon started or since, still
    holds at the later moment what it held at the earlier one, as long as the
    counter has not reached the u64 maximum. *)
Theorem rotation_never_clobbers o now entries opened spawned d ops1 s1 e1 ops2 s2 e2 :
  (forall name, is_Some (d !! name) -> inr name ∈ entries) ->
  log_run filename padding ops1 (create filename o now (inr entries) opened spawned d) = Some (s1, e1) ->
  log_run filename padding ops2 s1 = Some (s2, e2) ->
  rotation (lq s2) <> Some u64_max ->
  archives_kept (disk s1) (disk s2).
Proof.
  intros Hl H1 H2 Hm. pose proof (archive_create o now entries opened spawned d Hl) as A.
  assert (Hm1 : rotation (lq s1) <> Some u64_max) by (intros E; by apply Hm, (run_counter_max _ _ _ _ H2)).
  destruct (archive_run _ _ _ _ A H1 Hm1) as [A1 _]. by destruct (archive_run _ _ _ _ A1 H2 Hm).
Qed.
End NoClobber.

(** ** Flush on close *)

Section Flush.
Variable filename : string.
Variable padding : nat.

(** The writer's operations on a batch when the file system answers success. *)
Definition flush_batch (batch : list QueueItem) : list LogOp :=
  (fun it => match it with Bytes c => WriterWrite [Wrote (length c)] 0 | Rotate => WriterRotate None None 0 end)
    <$> batch.

Lemma log_run_app a b s s1 e1 s2 e2 :
  log_run filename padding a s = Some (s1, e1) -> log_run filename padding b s1 = Some (s2, e2) ->
  log_run filename padding (a ++ b) s = Some (s2, e1 ++ e2).
Proof.
  revert s e1. induction a as [|op a IH]; intros s e1; cbn [app log_run]; [by intros [= -> <-]|].
  destruct (log_step _ _ op s) as [[s' e]|]; [|done]. cbn.
  destruct (log_run _ _ a s') as [[s'' e']|] eqn:E; [|done]. intros [= -> <-] Hb.
  rewrite (IH _ _ E Hb). cbn. by rewrite app_assoc.
Qed.

Lemma write_chunk_whole c : write_chunk [Wrote (length c)] c = Some (c, None).
Proof.
  destruct c as [|b c]; [done|]. cbn [write_chunk length]. rewrite Nat.leb_refl.
  rewrite drop_ge by (cbn; lia). cbn. by rewrite app_nil_r, firstn_all.
Qed.

Lemma flush_batch_run batch : forall closing q d,
  is_Some (d !! filename) ->
  exists q', log_run filename padding (flush_batch batch) (mkLog q (WBatch batch closing) d)
      = Some (mkLog q' (WBatch [] closing) (apply_evs filename padding d (item_evs (next_rotation (rotation q)) batch)), [])
    /\ is_Some (apply_evs filename padding d (item_evs (next_rotation (rotation q)) batch) !! filename)
    /\ next_rotation (rotation q') = u64_saturating_add (next_rotation (rotation q)) (marks batch)
    /\ items q' = items q /\ dropped_bytes q' = dropped_bytes q /\ closed q' = closed q
    /\ status q' = status q.
Proof.
  induction batch as [|[c|] batch IH]; intros closing q d Hd.
  - exists q. split_and!; try done. rewrite sat_add_0; [done|]. apply next_rotation_max.
  - change (flush_batch (Bytes c :: batch)) with (WriterWrite [Wrote (length c)] 0 :: flush_batch batch).
    cbn [log_run log_step writer lq item_evs]. rewrite write_chunk_whole.
    cbn [mbind option_bind chunk_written disk].
    destruct (IH closing q (append_file filename c d) (append_file_present _ _ _)) as (q' & R & P & Hq').
    rewrite apply_evs_app, apply_evs_chunk by done. rewrite R. exists q'. by rewrite marks_bytes.
  - change (flush_batch (Rotate :: batch)) with (WriterRotate None None 0 :: flush_batch batch).
    cbn [log_run log_step writer lq perform_rotation disk mbind option_bind item_evs].
    set (q1 := set_rotation _ _ _).
    destruct (IH closing q1 (open_append filename (rename_to filename padding (next_rotation (rotation q)) d))
                (open_append_present _ _)) as (q' & R & P & N & Hq').
    change (rotation q1) with (Some (next_rotation (rotation q))) in *.
    change (next_rotation (Some ?n)) with (u64_saturating_add n 1) in *.
    rewrite R. exists q'. cbn [app]. split; [done|]. split; [exact P|].
    rewrite N, marks_rotate, sat_add_assoc by apply marks_nonneg. done.
Qed.

(** A batch is the last one only after the close was signalled. *)
Definition closing_ok (s : LogSys) : Prop :=
  match writer s with WBatch _ true => closed (lq s) = true | _ => True end.

Lemma evict_loop_closed fuel need q : closed (evict_loop fuel need q) = closed q.
Proof.
  revert q. induction fuel as [|fuel IH]; intros q; cbn; [done|]. destruct (_ <? _); [|done].
  destruct (list_find _ _) as [[pos [old|]]|]; [|done..]. by rewrite IH.
Qed.

Lemma enqueue_closed now c q : closed (enqueue now c q).1 = closed q.
Proof.
  unfold enqueue. destruct (writer_gone q); [done|]. destruct (_ <? _); [|done].
  destruct (overflow q); cbn; [apply evict_loop_closed|]. by destruct (State.is_active _).
Qed.

Lemma rotate_closed q : closed (rotate q).2 = closed q.
Proof. unfold rotate. by destruct (node_status _). Qed.

Lemma closing_step op s s' evs :
  closing_ok s -> log_step filename padding op s = Some (s', evs) -> closing_ok s'.
Proof.
  destruct s as [q wr d]. unfold closing_ok. intros C Hs. unfold log_step in Hs. cbn in C, Hs.
  destruct op as [chunk now| | | |outs now|rename reopen now| | |].
  - injection Hs as <- <-. cbn. by rewrite enqueue_closed.
  - pose proof (rotate_closed q) as E. destruct (rotate q) as [res q']. injection Hs as <- <-.
    cbn in *. by rewrite E.
  - injection Hs as <- <-. cbn. by destruct wr as [| |? []| | |].
  - unfold writer_lock in Hs. cbn in Hs. destruct wr; try done; destruct (bool_decide _ && _);
      injection Hs as <- <-; cbn; by destruct (closed q).
  - destruct wr as [| |[|[c|] rest] closing| | |]; try done.
    destruct (write_chunk outs c) as [[stored res]|]; [|done]. cbn in Hs.
    unfold chunk_written in Hs. destruct res as [[n e]|]; cbn in Hs; [destruct (overflow q)|];
      injection Hs as <- <-; done.
  - destruct wr as [| |[|[c|] rest] closing| | |]; try done. unfold perform_rotation in Hs.
    destruct rename; [|destruct reopen]; injection Hs as <- <-; done.
  - destruct wr as [| |[|] closing| | |]; try done. injection Hs as <- <-. by destruct closing.
  - destruct wr; try done. by injection Hs as <- <-.
  - destruct wr; try done. by injection Hs as <- <-.
Qed.

Lemma closing_run ops s s' evs :
  closing_ok s -> log_run filename padding ops s = Some (s', evs) -> closing_ok s'.
Proof.
  revert s evs. induction ops as [|op ops IH]; intros s evs C; cbn [log_run]; [by intros [= <- <-]|].
  destruct (log_step _ _ op s) as [[s1 e1]|] eqn:S1; [|done]. cbn.
  destruct (log_run _ _ ops s1) as [[s2 e2]|] eqn:S2; [|done]. intros [= <- <-].
  by eapply IH, S2; eapply closing_step.
Qed.

Lemma closing_create o now dir opened spawned d : closing_ok (create filename o now dir opened spawned d).
Proof. unfold create. by destruct opened, (scan_rotation _ _), spawned. Qed.

(** From a closed queue: take everything, write it, leave. *)
Definition last_lap (its : list QueueItem) : list LogOp :=
  WriterLock :: flush_batch its ++ [WriterBatchEnd; WriterExit].

Lemma last_lap_run q wr d :
  wr = WTop \/ wr = WWaiting -> closed q = true -> is_Some (d !! filename) ->
  exists q', log_run filename padding (last_lap (items q)) (mkLog q wr d)
      = Some (mkLog q' WGone (apply_evs filename padding d (item_evs (next_rotation (rotation q)) (items q))), [])
    /\ items q' = [] /\ dropped_bytes q' = dropped_bytes q /\ reported_queued q' = 0
    /\ status q' = status q.
Proof.
  intros Hw Hc Hd. unfold last_lap. cbn [log_run].
  set (q1 := set_items [] 0 (queued_bytes q) q).
  destruct (flush_batch_run (items q) true q1 d Hd) as (q2 & R & _ & _ & E1 & E2 & _ & E4).
  assert (L : log_step filename padding WriterLock (mkLog q wr d) = Some (mkLog q1 (WBatch (items q) true) d, [])).
  { unfold log_step, writer_lock. cbn. rewrite Hc, andb_false_r. destruct Hw as [-> | ->]; done. }
  rewrite L. cbn [mbind option_bind].
  eexists. split_and!.
  { rewrite (log_run_app _ [WriterBatchEnd; WriterExit] _ _ _ _ _ R eq_refl). reflexivity. }
  all: unfold abandon_queue; rewrite count_abandoned_eq; cbn; try done.
  rewrite E1, E2. cbn. change (items_len []) with 0. lia.
Qed.

Lemma length_last_lap its : length (last_lap its) = (length its + 3)%nat.
Proof. unfold last_lap, flush_batch. cbn. rewrite length_app, length_fmap. cbn. lia. Qed.

Definition flush_ops (s : LogSys) : list LogOp :=
  match writer s with
  | WBatch batch _ => flush_batch batch ++ WriterBatchEnd :: last_lap (items (lq s))
  | _ => last_lap (items (lq s))
  end.

(** a clean stop flushes.  In any state of a running writer before the
    close, signalling the stop (ingest having ended) and letting the writer run
    against a file system that answers success brings it to its exit in as many
    steps as items plus four: everything accepted before the signal, rotations
    included, is on disk at its place, nothing more is counted as dropped, nothing
    stays resident and the status is unchanged. *)
Theorem clean_stop_flushes o now dir opened spawned d ops s evs :
  total_rotates ops < 2 ^ 32 ->
  log_run filename padding ops (create filename o now dir opened spawned d) = Some (s, evs) ->
  draining s = true -> closed (lq s) = false ->
  exists s', log_run filename padding (StopReq :: flush_ops s) s = Some (s', [])
    /\ (length (flush_ops s) <= length (pending_items s) + 4)%nat
    /\ writer s' = WGone /\ items (lq s') = []
    /\ disk s' = apply_evs filename padding (disk s)
                   (item_evs (next_rotation (rotation (lq s))) (pending_items s))
    /\ dropped_bytes (lq s') = dropped_bytes (lq s) /\ reported_queued (lq s') = 0
    /\ status (lq s') = status (lq s).
Proof.
  intros Hk Hr Hd Hc.
  set (s0 := create filename o now dir opened spawned d) in *.
  destruct (inv_run filename padding (disk s0) ops 0 [] [] s0 s evs) as [w I];
    [lia|apply inv_create|done|].
  pose proof (li_file _ _ _ _ _ _ _ I Hd) as F.
  pose proof (closing_run _ _ _ _ (closing_create o now dir opened spawned d) Hr) as C.
  clear I Hr. destruct s as [q wr dd]. unfold closing_ok, draining, flush_ops, pending_items in *.
  cbn [writer lq disk] in *. set (qc := set_closed q).
  assert (Stop : forall fops, log_run filename padding (StopReq :: fops) (mkLog q wr dd)
    = log_run filename padding fops (mkLog qc wr dd)).
  { intros fops. cbn. fold qc. by destruct (log_run _ _ fops _) as [[? ?]|]. }
  assert (Lap : wr = WTop \/ wr = WWaiting ->
    exists s', log_run filename padding (last_lap (items q)) (mkLog qc wr dd) = Some (s', [])
    /\ (length (last_lap (items q)) <= length (items q) + 4)%nat
    /\ writer s' = WGone /\ items (lq s') = []
    /\ disk s' = apply_evs filename padding dd (item_evs (next_rotation (rotation q)) (items q))
    /\ dropped_bytes (lq s') = dropped_bytes q /\ reported_queued (lq s') = 0 /\ status (lq s') = status q).
  { intros Hw. destruct (last_lap_run qc wr dd Hw eq_refl F) as (q' & R & G1 & G2 & G3 & G4). eexists. split; [exact R|].
    split; [rewrite length_last_lap; lia|]. by split_and!. }
  destruct wr as [| |batch closing| | |]; try done; rewrite ?Stop; [by apply Lap; auto..|].
  destruct closing; [congruence|]. clear Lap.
  destruct (flush_batch_run batch false qc dd F) as (q1 & R1 & F1 & N1 & E1 & E2 & E3 & E4).
  destruct (last_lap_run q1 WTop _ ltac:(auto) E3 F1) as (q2 & R2 & G1 & G2 & G3 & G4).
  change (dropped_bytes qc) with (dropped_bytes q) in E2. change (status qc) with (status q) in E4.
  change (rotation qc) with (rotation q) in *. rewrite E1 in R2. eexists. split.
  { refine (log_run_app _ (WriterBatchEnd :: last_lap (items q)) _ _ _ _ _ R1 _).
    cbn [log_run log_step writer mbind option_bind lq disk]. change (items qc) with (items q) in R2.
    rewrite R2. reflexivity. }
  split; [rewrite !length_app; cbn [length]; rewrite length_last_lap; unfold flush_batch; rewrite length_fmap; lia|].
  cbn [writer lq disk]. split_and!; try congruence.
  rewrite item_evs_app, apply_evs_app, <- N1 by apply next_rotation_max. done.
Qed.
End Flush.

(** ** Memory *)

Section Memory.
Variable filename : string.
Variable padding : nat.
Variable bound : Z.
Hypothesis Hcap : QUEUE_CAP_BYTES <= bound.

Record memory_ok (q : Queue) : Prop := {
  mo_queued : queued_bytes q = items_len (items q);
  mo_queue_bound : queued_bytes q <= bound;
  mo_draining : 0 <= draining_bytes q <= bound }.

Definition chunk_fits (op : LogOp) : Prop :=
  match op with Ingest chunk _ => len chunk <= bound | _ => True end.

Lemma memory_frame q q' :
  items q' = items q -> queued_bytes q' = queued_bytes q ->
  (draining_bytes q' = draining_bytes q \/ draining_bytes q' = 0) -> memory_ok q -> memory_ok q'.
Proof.
  intros E1 E2 E3 []. unfold QUEUE_CAP_BYTES in *.
  split; rewrite ?E1, ?E2; try done. destruct E3 as [-> | ->]; lia.
Qed.

Lemma memory_enqueue now c q : len c <= bound -> memory_ok q -> memory_ok (enqueue now c q).1.
Proof.
  intros Hc M. destruct (enqueue now c q).2 eqn:Q.
  - destruct (enqueue_queues now c q Q (mo_queued _ M)) as (kept & _ & [] & S2 & _ & _ & _ & S6).
    destruct M. split; [done| |by rewrite sb_draining0]. destruct S6; lia.
  - apply enqueue_drops in Q as (E1 & E2 & E3 & _). apply (memory_frame q); auto.
Qed.

Lemma memory_rotate q : memory_ok q -> memory_ok (rotate q).2.
Proof.
  intros []. unfold rotate.
  destruct (node_status _); cbn; split; cbn; rewrite ?items_len_snoc; cbn [item_len]; try done; lia.
Qed.

Lemma memory_step op s s' evs :
  chunk_fits op -> memory_ok (lq s) -> log_step filename padding op s = Some (s', evs) -> memory_ok (lq s').
Proof.
  destruct s as [q wr d]. intros Hc M Hs. unfold log_step in Hs. cbn in M, Hs.
  pose proof M as [Q1 Q2 Q3]. pose proof (items_len_nonneg (items q)).
  destruct op as [chunk now| | | |outs now|rename reopen now| | |].
  - injection Hs as <- <-. by apply memory_enqueue.
  - pose proof (memory_rotate q M) as E. destruct (rotate q) as [res q']. by injection Hs as <- <-.
  - injection Hs as <- <-. by apply (memory_frame q); auto.
  - unfold writer_lock in Hs. destruct wr; try done; cbn in Hs; destruct (bool_decide _ && _);
      injection Hs as <- <-; split; cbn; try done; unfold QUEUE_CAP_BYTES in *; lia.
  - destruct wr as [| |[|[c|] rest] closing| | |]; try done.
    destruct (write_chunk outs c) as [[stored res]|]; [|done]. cbn in Hs.
    unfold chunk_written in Hs. destruct res as [[n e]|]; cbn in Hs; [destruct (overflow q)|];
      injection Hs as <- <-; rewrite ?count_abandoned_eq; by apply (memory_frame q); auto.
  - destruct wr as [| |[|[c|] rest] closing| | |]; try done. unfold perform_rotation in Hs.
    destruct rename; [|destruct reopen]; injection Hs as <- <-; by apply (memory_frame q); auto.
  - destruct wr as [| |[|] closing| | |]; try done. injection Hs as <- <-.
    destruct closing; by apply (memory_frame q); auto.
  - destruct wr; try done. injection Hs as <- <-. rewrite count_abandoned_eq. by apply (memory_frame q); auto.
  - destruct wr; try done. injection Hs as <- <-. unfold abandon_queue. rewrite count_abandoned_eq.
    split; cbn; try done; unfold QUEUE_CAP_BYTES in *; lia.
Qed.

(** Bounded memory.  In every run of the node, under either overflow policy
    and with a writer as slow as the schedule likes, the queue holds at most the
    cap, or a single chunk larger than it, and what [state] reports as resident
    is at most twice that: the queue and the batch being written. *)
Theorem log_memory_bounded o now dir opened spawned d ops s evs :
  Forall chunk_fits ops ->
  log_run filename padding ops (create filename o now dir opened spawned d) = Some (s, evs) ->
  queued_bytes (lq s) = items_len (items (lq s)) /\ queued_bytes (lq s) <= bound
  /\ reported_queued (lq s) <= 2 * bound.
Proof.
  intros F Hr. assert (M : memory_ok (lq s)); [|destruct M; unfold reported_queued; split_and!; done || lia].
  assert (M0 : memory_ok (lq (create filename o now dir opened spawned d))).
  { unfold QUEUE_CAP_BYTES in *. unfold create.
    destruct opened, (scan_rotation _ _), spawned; split; cbn; try done; lia. }
  revert M0 Hr. generalize (create filename o now dir opened spawned d) as s0. revert evs.
  induction F as [|op ops Hop _ IH]; intros evs s0 M0; cbn [log_run]; [by intros [= <- <-]|].
  destruct (log_step _ _ op s0) as [[s1 e1]|] eqn:S1; [|done]. cbn.
  destruct (log_run _ _ ops s1) as [[s2 e2]|] eqn:S2; [|done]. intros [= <- <-].
  eapply IH, S2. by eapply memory_step.
Qed.
End Memory.

(** ** A day in the life of a log

    A directory with a current file and one rotation; two chunks with a rotation
    between them; a write interrupted by a signal and stored in two parts; a disk
    that fills up half-way through the second chunk. *)

Definition sample_disk : Disk :=
  {["console"%string := as_bytes "old"; "console.006"%string := as_bytes "archive"]}.
Definition sample_dir : list (IoError + string) := [inr "console"%string; inr "console.006"%string].
Definition sample_log : LogSys := create "console" DropOldest 100 (inr sample_dir) None None sample_disk.
Definition sample_ops : list LogOp :=
  [Ingest (as_bytes "ab") 101; RotateReq; Ingest (as_bytes "cdef") 102; WriterLock;
   WriterWrite [Wrote 1; Interrupted; Wrote 1] 103; WriterRotate None None 104;
   WriterWrite [Wrote 2; WriteError "ENOSPC"] 105; WriterBatchEnd; Ingest (as_bytes "g") 106].
Definition sample_result : LogSys * list Ev :=
  default (sample_log, []) (log_run "console" 3 sample_ops sample_log).

Example sample_files :
  disk sample_result.1 !! "console.006"%string = Some (as_bytes "archive")
  /\ disk sample_result.1 !! "console.007"%string = Some (as_bytes "oldab")
  /\ disk sample_result.1 !! "console"%string = Some (as_bytes "cd")
  /\ dropped_bytes (lq sample_result.1) = 2 /\ write_errors (lq sample_result.1) = 1
  /\ rotation (lq sample_result.1) = Some 7.
Proof. vm_compute. done. Qed.

Lemma log_stream_exact_witness :
  total_rotates sample_ops < 2 ^ 32
  /\ log_run "console" 3 sample_ops sample_log = Some (sample_result.1, sample_result.2)
  /\ exists written, disk sample_result.1 = apply_evs "console" 3 (disk sample_log) written
       /\ ev_bytes sample_result.2 = ev_bytes written + 0 + 1 + 2.
Proof.
  assert (H1 : total_rotates sample_ops < 2 ^ 32) by done.
  assert (H2 : log_run "console" 3 sample_ops sample_log = Some (sample_result.1, sample_result.2))
    by (vm_compute; reflexivity).
  split_and!; [exact H1|exact H2|].
  destruct (log_stream_exact "console" 3 DropOldest 100 (inr sample_dir) None None sample_disk
              sample_ops sample_result.1 sample_result.2 H1 H2) as (w & D & _ & _ & B & _).
  exists w. split; [exact D|exact B].
Defined.

Lemma rotation_never_clobbers_witness :
  disk sample_result.1 !! "console.006"%string = Some (as_bytes "archive").
Proof.
  assert (K : archives_kept "console" (disk sample_log) (disk sample_result.1)).
  { apply (rotation_never_clobbers "console" 3 eq_refl DropOldest 100 sample_dir None None sample_disk
             [] sample_log [] sample_ops sample_result.1 sample_result.2).
    - intros name [x E]. unfold sample_disk in E.
      destruct (decide (name = "console"%string)) as [->|N1]; [apply elem_of_cons; by left|].
      destruct (decide (name = "console.006"%string)) as [->|N2];
        [apply elem_of_cons; right; apply elem_of_cons; by left|].
      rewrite lookup_insert_ne in E by done. rewrite lookup_singleton_ne in E by done. discriminate E.
    - reflexivity.
    - vm_compute. reflexivity.
    - vm_compute. discriminate. }
  apply K; [discriminate|vm_compute; reflexivity].
Defined.

Lemma clean_stop_flushes_witness :
  exists s', log_run "console" 3 (StopReq :: flush_ops sample_result.1) sample_result.1 = Some (s', [])
    /\ writer s' = WGone /\ dropped_bytes (lq s') = 2.
Proof.
  destruct (clean_stop_flushes "console" 3 DropOldest 100 (inr sample_dir) None None sample_disk
              sample_ops sample_result.1 sample_result.2) as (s' & R & _ & W & _ & _ & D & _).
  - reflexivity.
  - vm_compute. reflexivity.
  - reflexivity.
  - reflexivity.
  - exists s'. split_and!; [exact R|exact W|rewrite D; reflexivity].
Defined.

Lemma log_memory_bounded_witness :
  queued_bytes (lq sample_result.1) = 1 /\ reported_queued (lq sample_result.1) <= 2 * QUEUE_CAP_BYTES.
Proof.
  split; [reflexivity|].
  apply (log_memory_bounded "console" 3 QUEUE_CAP_BYTES (Z.le_refl _) DropOldest 100 (inr sample_dir)
           None None sample_disk sample_ops sample_result.1 sample_result.2).
  - repeat constructor; cbn; discriminate.
  - vm_compute. reflexivity.
Defined.

(** The exception in [rotation_never_clobbers] is real: a directory entry with
    the u64 maximum as its suffix is adopted by the scan, the saturating counter
    stays there, and the next rotation renames the live file onto that entry. *)
Definition max_name : string := "console.18446744073709551615".
Definition max_disk : Disk := {["console"%string := as_bytes "live"; max_name := as_bytes "kept"]}.

Theorem counter_maximum_clobbers :
  let s := create "console" DropOldest 100 (inr [inr "console"%string; inr max_name]) None None max_disk in
  disk s !! max_name = Some (as_bytes "kept")
  /\ exists s' evs, log_run "console" 3 [RotateReq; WriterLock; WriterRotate None None 101] s = Some (s', evs)
     /\ disk s' !! max_name = Some (as_bytes "live") /\ rotation (lq s') = Some u64_max.
Proof. vm_compute. eauto 10. Qed.
