(* ===== verification/Arbiter.v ===== *)
(** * Arbitration tasks (daemon/src/runtime.rs, daemon/src/daemon.rs, nodes/leg.rs)

    One endpoint's [LockCell] with everything that acts on it: the verbs [lock],
    [unlock] and [send], the interior pumps that wait for the lock, the lease
    timers, edges that come and go, and teardown.  The daemon runs on one thread and
    holds no borrow across an await, so each step below is one synchronous critical
    section; a suspended future is a [Task].  [Notify::notify_waiters] stores no
    permit: it marks the tasks suspended at that moment and nothing else. *)

From S2P Require Import Prelude GraphTypes Lock.
#[local] Open Scope N_scope.

(** ** State *)

(** How a parked acquisition settles for a pump, and for a verb. *)
Inductive Grant := Fresh | GrantAlreadyHeld | Refused.
Inductive WaitOutcome := WFresh | WAlreadyHeld | WReadOnly | WDetached | WTimedOut | WClosed.

(** Who waits: the [lock --wait] verb, a [send] with its transient origin, the
    on-demand gate of a leg channel ([ensure_acquired]), a held origin's gate
    ([reacquire_held]). *)
Inductive WaitKind := KVerb (lease : bool) | KSend | KPump | KHeld.

(** [Parked]: registered on the cell's [Notify].  [Woken]: notified, to be polled.
    [Delivering]: a send that has the lock and writes its line. *)
Inductive Phase := Parked | Woken | Delivering.

Record Task := mkTask { t_kind : WaitKind; t_id : OriginId; t_phase : Phase }.

Record Arb := mkArb {
  a_lock : EndpointLock;
  a_closed : bool;
  a_tasks : gmap N Task;
  a_leases : list (OriginId * Z);
  a_next_edge : N;
  a_next_send : N }.

Definition SEND_ORIGIN_BASE : N := 2 ^ 40.

#[export] Instance wait_kind_eq_dec : EqDecision WaitKind.
Proof. solve_decision. Defined.
#[export] Instance phase_eq_dec : EqDecision Phase.
Proof. solve_decision. Defined.

Definition set_lock (l : EndpointLock) (a : Arb) : Arb :=
  mkArb l (a_closed a) (a_tasks a) (a_leases a) (a_next_edge a) (a_next_send a).
Definition set_tasks (ts : gmap N Task) (a : Arb) : Arb :=
  mkArb (a_lock a) (a_closed a) ts (a_leases a) (a_next_edge a) (a_next_send a).
Definition put_task (tid : N) (t : Task) (a : Arb) : Arb := set_tasks (<[tid := t]> (a_tasks a)) a.
Definition end_task (tid : N) (a : Arb) : Arb := set_tasks (delete tid (a_tasks a)) a.
Definition add_lease (id : OriginId) (g : Z) (a : Arb) : Arb :=
  mkArb (a_lock a) (a_closed a) (a_tasks a) (a_leases a ++ [(id, g)]) (a_next_edge a) (a_next_send a).

(** A cell as [Wiring::build] makes it. *)
Definition new_cell (arb : Arbitration) : Arb := mkArb (Lock.new arb) false ∅ [] 0 SEND_ORIGIN_BASE.

Definition notify (t : Task) : Task :=
  match t_phase t with Parked => mkTask (t_kind t) (t_id t) Woken | _ => t end.

(** [LockCell::wake_waiters]. *)
Definition wake_waiters (a : Arb) : Arb := set_tasks (notify <$> a_tasks a) a.

(** [LockCell::close]. *)
Definition close (a : Arb) : Arb :=
  wake_waiters (mkArb (a_lock a) true (a_tasks a) (a_leases a) (a_next_edge a) (a_next_send a)).

(** ** The attempts of the three waiters *)

(** The closure of [wait_for_grant]. *)
Definition attempt_wait (id : OriginId) (l : EndpointLock) : option WaitOutcome * EndpointLock :=
  match acquire l id with
  | (Granted, l) => (Some WFresh, l)
  | (AlreadyHeld, l) => (Some WAlreadyHeld, l)
  | (ReadOnly, l) => (Some WReadOnly, l)
  | (Unregistered, l) => (Some WDetached, l)
  | (Denied _, l) => (None, enqueue l id)
  end.

(** The closure of [ensure_acquired]. *)
Definition attempt_pump (id : OriginId) (l : EndpointLock) : option Grant * EndpointLock :=
  match acquire l id with
  | (Granted, l) => (Some Fresh, l)
  | (AlreadyHeld, l) => (Some GrantAlreadyHeld, l)
  | (ReadOnly, l) | (Unregistered, l) => (Some Refused, l)
  | (Denied _, l) => (None, enqueue l id)
  end.

(** The closure of [reacquire_held]. *)
Definition attempt_held (id : OriginId) (l : EndpointLock) : option Grant * EndpointLock :=
  if bool_decide (write_mode_of l id = None) then (Some Refused, l)
  else if may_write l id then (Some GrantAlreadyHeld, l)
  else let '(took, l) := reclaim_held l id in (if took : bool then Some Fresh else None, l).

(** One turn of [await_grant]'s loop: closed, settled, or suspended.  The wake
    future is enabled before the attempt and nothing runs in between, so a
    suspended task is registered from here on. *)
Inductive Turn (T : Type) := TurnClosed | TurnSettled (v : T) | TurnParked.
Arguments TurnClosed {T}.
Arguments TurnSettled {T} _.
Arguments TurnParked {T}.

Definition await_turn {T} (attempt : EndpointLock -> option T * EndpointLock) (a : Arb) : Turn T * Arb :=
  if a_closed a then (TurnClosed, a)
  else let '(r, l) := attempt (a_lock a) in
       (match r with Some v => TurnSettled v | None => TurnParked end, set_lock l a).

(** ** Cleanup handles *)

(** [Drop for WaiterGuard], while armed. *)
Definition waiter_guard_drop (id : OriginId) (a : Arb) : Arb :=
  let a := set_lock (dequeue (a_lock a) id) a in
  if bool_decide (holder (a_lock a) = None) then wake_waiters a else a.

(** [Drop for TransientOrigin], while armed. *)
Definition transient_drop (id : OriginId) (a : Arb) : Arb :=
  let a := set_lock (unregister (a_lock a) id).2 a in
  if bool_decide (holder (a_lock a) = None) then wake_waiters a else a.

(** ** Verbs *)

(** [purge_on_acquire]; [purged] is what the node's backlog held. *)
Definition purge_on_acquire (id : OriginId) (purged : Z) (a : Arb) : Arb :=
  if bool_decide (arbitration (a_lock a) = Exclusive) then
    if (0 <? purged)%Z then set_lock (record_purge (a_lock a) id purged) a else a
  else a.

(** [after_grant]: arm the lease with the current generation. *)
Definition after_grant (id : OriginId) (lease : bool) (a : Arb) : Arb :=
  if lease then add_lease id (generation (a_lock a)) a else a.

(** Renewal of a lease on a lock already held. *)
Definition renew_lease (id : OriginId) (lease : bool) (a : Arb) : Arb :=
  if lease then
    match renew (a_lock a) id with
    | (Some g, l) => add_lease id g (set_lock l a)
    | (None, l) => set_lock l a
    end
  else a.

(** The tail of the [lock] verb for a settled outcome. *)
Definition lock_reply (o : WaitOutcome) (id : OriginId) (lease : bool) (purged : Z) (a : Arb) : Arb :=
  match o with
  | WFresh => after_grant id lease (purge_on_acquire id purged a)
  | WAlreadyHeld => renew_lease id lease a
  | _ => a
  end.

(** [lock --wait]: the first turn ([wait_for_grant] without a deadline). *)
Definition verb_turn (tid : N) (id : OriginId) (lease : bool) (purged : Z) (a : Arb) : Arb :=
  match await_turn (attempt_wait id) a with
  | (TurnSettled o, a) => lock_reply o id lease purged (end_task tid a)
  | (TurnClosed, a) => waiter_guard_drop id (end_task tid a)
  | (TurnParked, a) => put_task tid (mkTask (KVerb lease) id Parked) a
  end.

(** [lock] without [--wait]. *)
Definition lock_now (id : OriginId) (lease : bool) (purged : Z) (a : Arb) : Arb :=
  match acquire (a_lock a) id with
  | (Granted, l) => lock_reply WFresh id lease purged (set_lock l a)
  | (AlreadyHeld, l) => lock_reply WAlreadyHeld id lease purged (set_lock l a)
  | (_, l) => set_lock l a
  end.

(** [lock --steal] ([grant_by_steal]). *)
Definition grant_by_steal (id : OriginId) (lease : bool) (purged : Z) (a : Arb) : Arb :=
  match steal (a_lock a) id with
  | (StealReadOnly, l) => set_lock l a
  | (StealAlreadyHeld, l) => renew_lease id lease (set_lock l a)
  | (Stolen _, l) => after_grant id lease (wake_waiters (purge_on_acquire id purged (set_lock l a)))
  end.

(** [unlock], and the leg's [release]. *)
Definition unlock (id : OriginId) (a : Arb) : Arb :=
  let '(released, l) := release (a_lock a) id in
  if released : bool then wake_waiters (set_lock l a) else set_lock l a.

(** One turn of a [send]'s wait; on a settled wait it writes. *)
Definition send_turn (tid : N) (id : OriginId) (a : Arb) : Arb :=
  match await_turn (attempt_wait id) a with
  | (TurnSettled (WFresh | WAlreadyHeld), a) => put_task tid (mkTask KSend id Delivering) a
  | (TurnSettled _, a) => transient_drop id (end_task tid a)
  | (TurnClosed, a) => transient_drop id (waiter_guard_drop id (end_task tid a))
  | (TurnParked, a) => put_task tid (mkTask KSend id Parked) a
  end.

(** [send] up to its first suspension. *)
Definition send_start (tid : N) (stealing : bool) (a : Arb) : Arb :=
  let id := a_next_send a in
  let a := mkArb (a_lock a) (a_closed a) (a_tasks a) (a_leases a) (a_next_edge a) ((id + 1) mod 2 ^ 64) in
  let a := set_lock (register (a_lock a) id "send" OnDemand) a in
  if stealing
  then put_task tid (mkTask KSend id Delivering) (wake_waiters (set_lock (steal (a_lock a) id).2 a))
  else send_turn tid id a.

(** The end of a [send] whose line was taken, or whose channel had closed. *)
Definition send_done (tid : N) (id : OriginId) (a : Arb) : Arb :=
  wake_waiters (set_lock (unregister (a_lock a) id).2 (end_task tid a)).

(** One turn of a pump's gate: [ensure_acquired] or [reacquire_held]. *)
Definition pump_turn (held : bool) (tid : N) (id : OriginId) (a : Arb) : Arb :=
  match await_turn (if held then attempt_held id else attempt_pump id) a with
  | (TurnSettled _, a) | (TurnClosed, a) => end_task tid a
  | (TurnParked, a) => put_task tid (mkTask (if held then KHeld else KPump) id Parked) a
  end.

(** Both gates return at once when the origin may write already. *)
Definition pump_start (held : bool) (tid : N) (id : OriginId) (a : Arb) : Arb :=
  if may_write (a_lock a) id then a else pump_turn held tid id a.

(** [may_write_reclaiming], the gate of a boundary origin. *)
Definition may_write_reclaiming (id : OriginId) (a : Arb) : bool * Arb :=
  if may_write (a_lock a) id then (true, a)
  else let '(took, l) := reclaim_held (a_lock a) id in (took, set_lock l a).

(** The body of [spawn_lease]'s task once its timer expired. *)
Definition lease_fire (id : OriginId) (g : Z) (a : Arb) : Arb :=
  if a_closed a then a
  else if bool_decide (holder (a_lock a) = Some id) && bool_decide (generation (a_lock a) = g)
  then wake_waiters (set_lock (release (a_lock a) id).2 a)
  else a.

(** The lock half of [connect] ([attach_edge] and what follows it). *)
Definition attach (label : string) (wm : WriteMode) (purged : Z) (a : Arb) : Arb :=
  let id := a_next_edge a in
  let a := mkArb (register (a_lock a) id label wm) (a_closed a) (a_tasks a) (a_leases a)
                 (id + 1) (a_next_send a) in
  let a := if bool_decide (holder (a_lock a) = Some id) && (0 <? purged)%Z
           then set_lock (record_purge (a_lock a) id purged) a else a in
  wake_waiters a.

(** The lock half of [detach_edge_runtime]. *)
Definition detach (id : OriginId) (a : Arb) : Arb :=
  wake_waiters (set_lock (unregister (a_lock a) id).2 a).

(** ** Steps *)

Inductive ArbOp :=
| LockWait (tid : N) (id : OriginId) (lease : bool) (purged : Z)
| LockNow (id : OriginId) (lease : bool) (purged : Z)
| LockSteal (id : OriginId) (lease : bool) (purged : Z)
| Unlock (id : OriginId)
| Send (tid : N) (stealing : bool)
| SendDone (tid : N)
| Pump (held : bool) (tid : N) (id : OriginId)
| Gate (id : OriginId)
| Poll (tid : N) (purged : Z)
| Cancel (tid : N)
| LeaseExpires (i : nat)
| Attach (label : string) (wm : WriteMode) (purged : Z)
| Detach (id : OriginId)
| Elsewhere (edges sends : N)
| Close.

Definition purged_ok (n : Z) : bool := (0 <=? n)%Z && (n <=? u64_max)%Z.

(** An origin [reacquire_held] is called for: registered as held, or not at all,
    or on an endpoint that does not arbitrate.  The validator refuses on-demand
    edges there ([Config.interior_edges_workable]). *)
Definition held_gate_ok (id : OriginId) (a : Arb) : bool :=
  match write_mode_of (a_lock a) id with
  | Some OnDemand => bool_decide (arbitration (a_lock a) = FreeForAll)
  | Some Never => false
  | _ => true
  end.

Definition fresh_task (tid : N) (a : Arb) : bool := bool_decide (a_tasks a !! tid = None).

(** Edge origins are allocated below [SEND_ORIGIN_BASE]. *)
Definition edge_id (id : OriginId) (a : Arb) : bool := id <? a_next_edge a.

(** Resume a notified task. *)
Definition poll (tid : N) (t : Task) (purged : Z) (a : Arb) : Arb :=
  match t_kind t with
  | KVerb lease => verb_turn tid (t_id t) lease purged a
  | KSend => send_turn tid (t_id t) a
  | KPump => pump_turn false tid (t_id t) a
  | KHeld => pump_turn true tid (t_id t) a
  end.

(** Drop a suspended future: its deadline passed, its connection closed, or its
    node stops. *)
Definition cancel (tid : N) (t : Task) (a : Arb) : Arb :=
  let a := end_task tid a in
  match t_kind t, t_phase t with
  | KVerb _, _ => waiter_guard_drop (t_id t) a
  | KSend, Delivering => transient_drop (t_id t) a
  | KSend, _ => transient_drop (t_id t) (waiter_guard_drop (t_id t) a)
  | (KPump | KHeld), _ => a
  end.

(** A pump's task ends only with its node, after its edges were detached or the
    cell closed. *)
Definition cancel_ok (t : Task) (a : Arb) : bool :=
  match t_kind t with
  | KPump | KHeld => a_closed a || bool_decide (origins (a_lock a) !! t_id t = None)
  | _ => true
  end.

Definition arb_step (op : ArbOp) (a : Arb) : option Arb :=
  match op with
  | LockWait tid id lease purged =>
      if fresh_task tid a && edge_id id a && purged_ok purged
      then Some (verb_turn tid id lease purged a) else None
  | LockNow id lease purged =>
      if edge_id id a && purged_ok purged then Some (lock_now id lease purged a) else None
  | LockSteal id lease purged =>
      if edge_id id a && purged_ok purged then Some (grant_by_steal id lease purged a) else None
  | Unlock id => Some (unlock id a)
  | Send tid stealing =>
      if fresh_task tid a && (a_next_send a + 1 <? 2 ^ 64)
      then Some (send_start tid stealing a) else None
  | SendDone tid =>
      match a_tasks a !! tid with
      | Some (mkTask KSend id Delivering) => Some (send_done tid id a)
      | _ => None
      end
  | Pump held tid id =>
      if fresh_task tid a && edge_id id a && (negb held || held_gate_ok id a)
      then Some (pump_start held tid id a) else None
  | Gate id => Some (may_write_reclaiming id a).2
  | Poll tid purged =>
      match a_tasks a !! tid with
      | Some t => if bool_decide (t_phase t = Woken) && purged_ok purged
                  then Some (poll tid t purged a) else None
      | None => None
      end
  | Cancel tid =>
      match a_tasks a !! tid with
      | Some t => if cancel_ok t a then Some (cancel tid t a) else None
      | None => None
      end
  | LeaseExpires i =>
      match a_leases a !! i with
      | Some (id, g) =>
          let a := mkArb (a_lock a) (a_closed a) (a_tasks a) (delete i (a_leases a))
                         (a_next_edge a) (a_next_send a) in
          Some (lease_fire id g a)
      | None => None
      end
  | Attach label wm purged =>
      if (a_next_edge a + 1 <? SEND_ORIGIN_BASE) && purged_ok purged
      then Some (attach label wm purged a) else None
  | Detach id => if edge_id id a then Some (detach id a) else None
  | Elsewhere edges sends =>
      (* the two counters are the daemon's: other cells draw from them too *)
      if (a_next_edge a + edges <? SEND_ORIGIN_BASE) && (a_next_send a + sends <? 2 ^ 64)
      then Some (mkArb (a_lock a) (a_closed a) (a_tasks a) (a_leases a)
                       (a_next_edge a + edges) (a_next_send a + sends))
      else None
  | Close => Some (close a)
  end.

Fixpoint arb_run (ops : list ArbOp) (a : Arb) : option Arb :=
  match ops with
  | [] => Some a
  | op :: ops => a ← arb_step op a; arb_run ops a
  end.

Definition arb_reachable (a : Arb) : Prop := exists arb ops, arb_run ops (new_cell arb) = Some a.

(** ** Blocked origins *)

(** Why [acquire] answers [Denied]. *)
Definition blocked (l : EndpointLock) (id : OriginId) : Prop :=
  exists o, origins l !! id = Some o /\ o_write_mode o <> Never /\ arbitration l = Exclusive
    /\ match holder l with
       | Some h => h <> id
       | None => o_write_mode o <> Held
           /\ ((exists x, x <> id /\ is_held l x)
               \/ exists f, head (waiters l) = Some f /\ f <> id)
       end.

Lemma acquire_denied l id :
  blocked l id <-> exists h, acquire l id = (Denied h, l).
Proof.
  unfold blocked, acquire. destruct (origins l !! id) as [o|]; [|naive_solver].
  destruct (bool_decide_reflect (o_write_mode o = Never)) as [E|E]; [naive_solver|].
  destruct (bool_decide_reflect (arbitration l = FreeForAll)) as [F|F].
  { split; [intros (? & ? & ? & ? & ?); congruence|naive_solver]. }
  assert (arbitration l = Exclusive) by (by destruct (arbitration l)).
  destruct (holder l) as [h|].
  { case_bool_decide; naive_solver. }
  destruct (bool_decide_reflect (o_write_mode o = Held)) as [G|G]; [naive_solver|].
  destruct (held_origin_other_than l id) as [x|] eqn:X.
  { apply held_origin_other_than_Some in X as [Hh Hne]. split; [by eauto|]. intros _.
    exists o. split_and!; eauto. }
  pose proof (proj1 (held_origin_other_than_None l id) X) as N.
  destruct (head (waiters l)) as [f|]; [case_bool_decide|]; (split; [|naive_solver]);
    intros (o' & [= <-] & _ & _ & _ & [(x & Hne & Hx)|(f' & Hf & Hne)]); try (by apply N in Hx);
    naive_solver.
Qed.

(** ** Invariant *)

(** [x], if any, is an origin whose task is being resumed or dropped: its queue
    entry and its registration may be without a task for the moment. *)
Record arb_base (x : option OriginId) (a : Arb) : Prop := {
  ab_lock : reachable (a_lock a);
  ab_queue : a_closed a = false -> forall w, w ∈ waiters (a_lock a) -> Some w <> x ->
    exists tid t, a_tasks a !! tid = Some t /\ t_id t = w /\ t_kind t <> KHeld /\ t_phase t <> Delivering;
  ab_origins : forall id o, origins (a_lock a) !! id = Some o -> a_next_edge a <= id -> Some id <> x ->
    exists tid t, a_tasks a !! tid = Some t /\ t_id t = id /\ t_kind t = KSend;
  ab_ids : forall tid t, a_tasks a !! tid = Some t ->
    if bool_decide (t_kind t = KSend) then SEND_ORIGIN_BASE <= t_id t < a_next_send a
    else t_id t < a_next_edge a;
  ab_unique : forall tid tid' t t', a_tasks a !! tid = Some t -> a_tasks a !! tid' = Some t' ->
    t_kind t = KSend -> t_id t' = t_id t -> tid' = tid;
  ab_held : forall tid t o, a_tasks a !! tid = Some t -> t_kind t = KHeld ->
    origins (a_lock a) !! t_id t = Some o ->
    o_write_mode o = Held \/ arbitration (a_lock a) = FreeForAll /\ o_write_mode o <> Never;
  ab_ffa : arbitration (a_lock a) = FreeForAll -> waiters (a_lock a) = [];
  ab_delivering : forall tid t, a_tasks a !! tid = Some t -> t_phase t = Delivering -> t_kind t = KSend;
  ab_bounds : a_next_edge a < SEND_ORIGIN_BASE /\ SEND_ORIGIN_BASE <= a_next_send a < 2 ^ 64 }.

(** A suspended task would be denied now. *)
Definition parked_ok (a : Arb) : Prop :=
  forall tid t, a_tasks a !! tid = Some t -> t_phase t = Parked ->
    a_closed a = false /\ blocked (a_lock a) (t_id t)
    /\ (t_kind t = KHeld -> holder (a_lock a) <> None).

Definition arb_ok (a : Arb) : Prop := arb_base None a /\ parked_ok a.

Lemma reach_op l op : reachable l -> op_ok l op -> reachable (run_op op l).
Proof.
  intros (arb & ops & H) Hok. exists arb, (ops ++ [op]).
  revert H. generalize (Lock.new arb). induction ops as [|o ops IH]; intros l0 H.
  - inversion H; subst. econstructor; [by constructor|constructor].
  - inversion H; subst. econstructor; [done|]. by apply IH.
Qed.

Lemma base_weaken x a : arb_base None a -> arb_base x a.
Proof. intros []. split; eauto. Qed.

(** *** Waking *)

Lemma notify_fields t : t_kind (notify t) = t_kind t /\ t_id (notify t) = t_id t
  /\ t_phase (notify t) <> Parked /\ (t_phase (notify t) = Delivering <-> t_phase t = Delivering).
Proof. destruct t as [k i []]; cbn; naive_solver. Qed.

Lemma wake_lookup a tid t :
  a_tasks (wake_waiters a) !! tid = Some t <-> exists t0, a_tasks a !! tid = Some t0 /\ t = notify t0.
Proof. cbn. rewrite lookup_fmap, fmap_Some. naive_solver. Qed.

Lemma base_wake x a : arb_base x a -> arb_base x (wake_waiters a).
Proof.
  intros []. split; try done; setoid_rewrite wake_lookup.
  - intros Hc w Hw Hx. destruct (ab_queue0 Hc w Hw Hx) as (tid & t & E & H1 & H2 & H3).
    exists tid, (notify t). destruct (notify_fields t) as (-> & -> & _ & ->). split_and!; eauto.
  - intros id o Ho Hn Hx. destruct (ab_origins0 id o Ho Hn Hx) as (tid & t & E & H1 & H2).
    exists tid, (notify t). destruct (notify_fields t) as (-> & -> & _). split_and!; eauto.
  - intros tid t (t0 & E & ->). destruct (notify_fields t0) as (-> & -> & _). by apply ab_ids0 in E.
  - intros tid tid' t t' (t0 & E & ->) (t1 & E' & ->).
    destruct (notify_fields t0) as (-> & -> & _). destruct (notify_fields t1) as (_ & -> & _). eauto.
  - intros tid t o (t0 & E & ->). destruct (notify_fields t0) as (-> & -> & _). eauto.
  - intros tid t (t0 & E & ->). destruct (notify_fields t0) as (-> & _ & _ & ->). eauto.
Qed.

Lemma parked_wake a : parked_ok (wake_waiters a).
Proof.
  intros tid t (t0 & E & ->)%wake_lookup H. by destruct (notify_fields t0) as (_ & _ & H' & _).
Qed.

Lemma ok_wake a : arb_base None a -> arb_ok (wake_waiters a).
Proof. split; [by apply base_wake|apply parked_wake]. Qed.

(** *** Changing the lock *)

Record lock_le (l' l : EndpointLock) : Prop := {
  le_arb : arbitration l' = arbitration l;
  le_waiters : forall w, w ∈ waiters l' -> w ∈ waiters l;
  le_origins : forall id o', origins l' !! id = Some o' ->
    exists o, origins l !! id = Some o /\ o_write_mode o' = o_write_mode o }.

Lemma base_set_lock x l' a : lock_le l' (a_lock a) -> reachable l' -> arb_base x a -> arb_base x (set_lock l' a).
Proof.
  intros [L1 L2 L3] Hr []. split; cbn; try done.
  - intros Hc w Hw. apply ab_queue0; auto.
  - intros id o Ho. destruct (L3 _ _ Ho) as (o0 & Ho0 & _). eauto.
  - intros tid t o' Ht Hk Ho. destruct (L3 _ _ Ho) as (o0 & Ho0 & ->). rewrite L1. eauto.
  - rewrite L1. intros E. apply ab_ffa0 in E. apply elem_of_nil_inv. intros w Hw%L2.
    rewrite E in Hw. by apply elem_of_nil in Hw.
Qed.

Definition quiet (l l' : EndpointLock) : Prop :=
  forall id, blocked l id -> blocked l' id /\ (holder l <> None -> holder l' <> None).

Lemma parked_set_lock l' a : quiet (a_lock a) l' -> parked_ok a -> parked_ok (set_lock l' a).
Proof.
  intros Q P tid t Ht Hp. destruct (P tid t Ht Hp) as (H1 & H2 & H3). destruct (Q _ H2). cbn.
  split_and!; auto.
Qed.

Lemma ok_set_lock l' a :
  lock_le l' (a_lock a) -> reachable l' -> quiet (a_lock a) l' -> arb_ok a -> arb_ok (set_lock l' a).
Proof. intros L R Q [B P]. split; [by apply base_set_lock|by apply parked_set_lock]. Qed.

Lemma lock_le_refl l : lock_le l l.
Proof. split; eauto. Qed.

Lemma quiet_refl l : quiet l l.
Proof. by intros id H. Qed.

Lemma lock_le_trans l1 l2 l3 : lock_le l1 l2 -> lock_le l2 l3 -> lock_le l1 l3.
Proof.
  intros [A1 A2 A3] [B1 B2 B3]. split; [congruence|auto|].
  intros id o Ho. destruct (A3 _ _ Ho) as (o2 & Ho2 & ->). destruct (B3 _ _ Ho2) as (o3 & ? & ->). eauto.
Qed.

#[local] Hint Resolve lock_le_refl quiet_refl : core.

(** The holder changes hands while the lock is free. *)
Lemma grant_le l id : lock_le (grant_to l id) l.
Proof. split; cbn; eauto. by intros w [_ Hw]%elem_of_retain_ne. Qed.

Lemma grant_quiet l id : ~ blocked l id -> quiet l (grant_to l id).
Proof.
  intros Hn x Hx. split; [|done]. assert (x <> id) by (by intros ->).
  destruct Hx as (o & H1 & H2 & H3 & _). exists o. cbn. split_and!; auto.
Qed.

Lemma acquire_cases l id r l' :
  acquire l id = (r, l') -> l' = l \/ l' = grant_to l id /\ r = Granted /\ ~ blocked l id.
Proof.
  intros E. assert (D : r = Granted -> ~ blocked l id).
  { intros -> (h & E')%acquire_denied. congruence. }
  revert E D. unfold acquire. repeat case_match; intros [= <- <-] D; auto.
Qed.

Lemma acquire_le l id : lock_le (acquire l id).2 l.
Proof. destruct (acquire l id) as [r l'] eqn:E. destruct (acquire_cases _ _ _ _ E) as [->|[-> _]]; [done|apply grant_le]. Qed.

Lemma acquire_quiet l id : quiet l (acquire l id).2.
Proof.
  destruct (acquire l id) as [r l'] eqn:E.
  destruct (acquire_cases _ _ _ _ E) as [->|(-> & _ & H)]; [done|by apply grant_quiet].
Qed.

Lemma blocked_origins l l' id :
  arbitration l' = arbitration l -> holder l' = holder l -> waiters l' = waiters l ->
  (forall x o, origins l !! x = Some o -> exists o', origins l' !! x = Some o' /\ o_write_mode o' = o_write_mode o) ->
  blocked l id -> blocked l' id.
Proof.
  intros E1 E2 E3 E4 (o & H1 & H2 & H3 & H4). destruct (E4 _ _ H1) as (o' & H1' & Em).
  exists o'. rewrite E1, E2, E3, Em. split_and!; try done.
  destruct (holder l); [done|]. destruct H4 as [Hm [(x & Hx & ox & Ho & Hh)|Hf]]; split; auto.
  left. exists x. split; [done|]. destruct (E4 _ _ Ho) as (ox' & Ho' & Ex). exists ox'. by rewrite Ex.
Qed.

Lemma reclaim_cases l id b l' :
  reclaim_held l id = (b, l') ->
  l' = l \/ l' = grant_to l id /\ b = true /\ is_held l id /\ holder l = None.
Proof.
  unfold reclaim_held. destruct (origins l !! id) as [o|] eqn:E; [|naive_solver].
  repeat case_bool_decide; intros [= <- <-]; auto. right. split_and!; try done. by exists o.
Qed.

Lemma reclaim_le l id : lock_le (reclaim_held l id).2 l.
Proof.
  destruct (reclaim_held l id) as [b l'] eqn:E.
  destruct (reclaim_cases _ _ _ _ E) as [->|[-> _]]; [done|apply grant_le].
Qed.

Lemma reclaim_quiet l id : quiet l (reclaim_held l id).2.
Proof.
  destruct (reclaim_held l id) as [b l'] eqn:E.
  destruct (reclaim_cases _ _ _ _ E) as [->|(-> & _ & [o [Ho Hm]] & Hh)]; [done|].
  apply grant_quiet. intros (o' & Ho' & _ & _ & Hb). rewrite Hh in Hb. naive_solver.
Qed.

Lemma renew_le l id : lock_le (renew l id).2 l.
Proof. unfold renew. case_bool_decide; [split; cbn; eauto|done]. Qed.

Lemma renew_quiet l id : quiet l (renew l id).2.
Proof. unfold renew. case_bool_decide; [|done]. intros x Hx. split; [|done]. by apply (blocked_origins l); eauto. Qed.

Lemma purge_origins l id n x o :
  origins l !! x = Some o ->
  exists o', origins (record_purge l id n) !! x = Some o' /\ o_write_mode o' = o_write_mode o.
Proof.
  intros Ho. unfold record_purge. destruct (origins l !! id) as [oi|] eqn:E; [|eauto]. cbn.
  destruct (decide (x = id)) as [->|].
  - rewrite lookup_insert_eq. rewrite E in Ho. injection Ho as <-. eauto.
  - rewrite lookup_insert_ne by done. eauto.
Qed.

Lemma purge_fields l id n :
  arbitration (record_purge l id n) = arbitration l /\ holder (record_purge l id n) = holder l
  /\ waiters (record_purge l id n) = waiters l.
Proof. unfold record_purge. by destruct (origins l !! id). Qed.

Lemma purge_le l id n : lock_le (record_purge l id n) l.
Proof.
  destruct (purge_fields l id n) as (E1 & E2 & E3). split; rewrite ?E1, ?E3; auto.
  intros x o'. unfold record_purge. destruct (origins l !! id) as [oi|] eqn:E; [|eauto]. cbn.
  destruct (decide (x = id)) as [->|].
  - rewrite lookup_insert_eq. intros [= <-]. eauto.
  - rewrite lookup_insert_ne by done. eauto.
Qed.

Lemma purge_quiet l id n : quiet l (record_purge l id n).
Proof.
  destruct (purge_fields l id n) as (E1 & E2 & E3). intros x Hx. rewrite E2. split; [|done].
  apply (blocked_origins l); auto. intros y o Ho. by apply purge_origins.
Qed.

Lemma release_le l id : lock_le (release l id).2 l.
Proof. unfold release. case_bool_decide; [split; cbn; eauto|done]. Qed.

Lemma dequeue_le l id : lock_le (dequeue l id) l.
Proof. split; cbn; eauto. by intros w [_ Hw]%elem_of_retain_ne. Qed.

Lemma dequeue_quiet l id : holder l <> None -> quiet l (dequeue l id).
Proof.
  intros Hh x (o & H1 & H2 & H3 & H4). split; [|done]. exists o. cbn. destruct (holder l); done.
Qed.

Lemma unregister_origins l id x :
  origins (unregister l id).2 !! x = (if bool_decide (x = id) then None else origins l !! x).
Proof.
  unfold unregister. case_match; cbn; rewrite lookup_delete; by repeat case_decide || case_bool_decide.
Qed.

Lemma unregister_fields l id :
  arbitration (unregister l id).2 = arbitration l /\ waiters (unregister l id).2 = retain_ne id (waiters l)
  /\ (holder (unregister l id).2 = if bool_decide (holder l = Some id) then None else holder l).
Proof. unfold unregister. cbn. by case_bool_decide. Qed.

Lemma unregister_le l id : lock_le (unregister l id).2 l.
Proof.
  destruct (unregister_fields l id) as (E1 & E2 & _). split; [done| |].
  - intros w. rewrite E2. by intros [_ Hw]%elem_of_retain_ne.
  - intros x o'. rewrite unregister_origins. case_bool_decide; [done|eauto].
Qed.

Lemma steal_le l id : lock_le (steal l id).2 l.
Proof.
  unfold steal. repeat case_match; split; cbn; eauto; by intros w [_ Hw]%elem_of_retain_ne.
Qed.

(** Joining the queue after a denial blocks nobody less. *)
Lemma enqueue_fields l id :
  arbitration (enqueue l id) = arbitration l /\ holder (enqueue l id) = holder l
  /\ origins (enqueue l id) = origins l
  /\ (waiters (enqueue l id) = waiters l \/ waiters (enqueue l id) = waiters l ++ [id]).
Proof. unfold enqueue. repeat case_match; cbn; auto 10. Qed.

Lemma enqueue_quiet l id : blocked l id -> quiet l (enqueue l id).
Proof.
  intros Hb x Hx. destruct (enqueue_fields l id) as (E1 & E2 & E3 & E4). rewrite E2. split; [|done].
  destruct Hx as (o & H1 & H2 & H3 & H4). exists o. rewrite E1, E2, E3. split_and!; try done.
  destruct (holder l); [done|]. destruct H4 as [Hm H4]. split; [done|].
  destruct H4 as [(y & Hy & Hh)|(f & Hf & Hn)].
  - left. exists y. split; [done|]. unfold is_held in *. by rewrite E3.
  - right. exists f. split; [|done]. destruct E4 as [-> | ->]; [done|]. by destruct (waiters l).
Qed.

(** *** Ending and suspending tasks *)

Lemma end_lookup tid a tid' t :
  a_tasks (end_task tid a) !! tid' = Some t <-> tid <> tid' /\ a_tasks a !! tid' = Some t.
Proof. apply lookup_delete_Some. Qed.

Lemma put_lookup tid u a tid' t :
  a_tasks (put_task tid u a) !! tid' = Some t <->
  tid = tid' /\ u = t \/ tid <> tid' /\ a_tasks a !! tid' = Some t.
Proof. apply lookup_insert_Some. Qed.

Lemma parked_end tid a : parked_ok a -> parked_ok (end_task tid a).
Proof. intros P tid' t [_ Ht]%end_lookup. exact (P tid' t Ht). Qed.

(** [tid] is unused, or is the suspended task of this kind and origin. *)
Definition slot (tid : N) (k : WaitKind) (id : OriginId) (a : Arb) : Prop :=
  forall t, a_tasks a !! tid = Some t -> t_kind t = k /\ t_id t = id.

Lemma base_end x tid a :
  arb_base x a -> (forall t, a_tasks a !! tid = Some t -> Some (t_id t) = x \/ t_kind t = KHeld) ->
  arb_base x (end_task tid a).
Proof.
  intros [] Hs. split; try done.
  - intros Hc w Hw Hx. destruct (ab_queue0 Hc w Hw Hx) as (tid' & t & Ht & Hi & Hk & Hp).
    exists tid', t. split_and!; try done. apply end_lookup. split; [|done].
    intros <-. destruct (Hs t Ht) as [E|E]; congruence.
  - intros id o Ho Hn Hx. destruct (ab_origins0 id o Ho Hn Hx) as (tid' & t & Ht & Hi & Hk).
    exists tid', t. split_and!; try done. apply end_lookup. split; [|done].
    intros <-. destruct (Hs t Ht) as [E|E]; congruence.
  - intros tid' t [_ Ht]%end_lookup. by apply ab_ids0 in Ht.
  - intros tid1 tid2 t1 t2 [_ H1]%end_lookup [_ H2]%end_lookup. by eapply ab_unique0.
  - intros tid' t o [_ Ht]%end_lookup. by eapply ab_held0.
  - intros tid' t [_ Ht]%end_lookup. by eapply ab_delivering0.
Qed.

Lemma base_end_slot tid k id a : arb_base None a -> slot tid k id a -> arb_base (Some id) (end_task tid a).
Proof.
  intros B S. apply base_end; [by apply base_weaken|]. intros t Ht. left. by destruct (S t Ht) as [_ ->].
Qed.

(** The exception ends once the origin is out of the queue and is no transient. *)
Lemma base_settle id a :
  arb_base (Some id) a -> (a_closed a = false -> id ∉ waiters (a_lock a)) ->
  id < a_next_edge a \/ origins (a_lock a) !! id = None -> arb_base None a.
Proof.
  intros [] Hq Ho. split; try done.
  - intros Hc w Hw _. apply ab_queue0; try done. intros [= ->]. by apply Hq.
  - intros i o Hi Hn _. apply (ab_origins0 i o Hi Hn). intros [= ->].
    destruct Ho; [lia|congruence].
Qed.

Lemma base_put x tid t a :
  arb_base x a -> a_tasks a !! tid = None ->
  x = None \/ x = Some (t_id t)
    /\ (t_id t ∈ waiters (a_lock a) -> t_kind t <> KHeld /\ t_phase t <> Delivering)
    /\ (a_next_edge a <= t_id t -> t_kind t = KSend) ->
  (if bool_decide (t_kind t = KSend) then SEND_ORIGIN_BASE <= t_id t < a_next_send a
   else t_id t < a_next_edge a) ->
  (t_kind t = KSend -> forall tid' t', a_tasks a !! tid' = Some t' -> t_id t' <> t_id t) ->
  (forall o, t_kind t = KHeld -> origins (a_lock a) !! t_id t = Some o ->
     o_write_mode o = Held \/ arbitration (a_lock a) = FreeForAll /\ o_write_mode o <> Never) ->
  (t_phase t = Delivering -> t_kind t = KSend) ->
  arb_base None (put_task tid t a).
Proof.
  intros [] Hf Hx Hid Hu Hh Hd. split; try done.
  - intros Hc w Hw _. destruct (decide (Some w = x)) as [E|E].
    + destruct Hx as [->|(-> & Hq & _)]; [done|]. injection E as ->.
      exists tid, t. rewrite put_lookup. destruct (Hq Hw). auto.
    + destruct (ab_queue0 Hc w Hw E) as (tid' & t' & Ht & H). exists tid', t'.
      rewrite put_lookup. split; [right; split; congruence|done].
  - intros id o Ho Hn _. destruct (decide (Some id = x)) as [E|E].
    + destruct Hx as [->|(-> & _ & Hs)]; [done|]. injection E as ->.
      exists tid, t. rewrite put_lookup. auto.
    + destruct (ab_origins0 id o Ho Hn E) as (tid' & t' & Ht & H). exists tid', t'.
      rewrite put_lookup. split; [right; split; congruence|done].
  - intros tid' t' [[-> ->]|[_ Ht]]%put_lookup; [done|by apply ab_ids0 in Ht].
  - intros tid1 tid2 t1 t2 [[-> ->]|[N1 H1]]%put_lookup [[-> ->]|[N2 H2]]%put_lookup Hk Hi; try done.
    + by apply (Hu Hk) in H2.
    + destruct (decide (t_kind t2 = KSend)) as [K|K]; [by apply (Hu K) in H1; rewrite Hi in H1|].
      apply ab_ids0 in H1. rewrite bool_decide_true in H1 by done.
      rewrite bool_decide_false in Hid by done. lia.
    + by eapply ab_unique0.
  - intros tid' t' o [[-> ->]|[_ Ht]]%put_lookup; [by apply Hh|by eapply ab_held0].
  - intros tid' t' [[-> ->]|[_ Ht]]%put_lookup; [done|by eapply ab_delivering0].
Qed.

(** Task [tid] acts for origin [id] with waits of kind [k]. *)
Record acts (tid : N) (k : WaitKind) (id : OriginId) (a : Arb) : Prop := {
  act_slot : slot tid k id a;
  act_ids : if bool_decide (k = KSend) then SEND_ORIGIN_BASE <= id < a_next_send a else id < a_next_edge a;
  act_unique : k = KSend -> forall tid' t', a_tasks a !! tid' = Some t' -> t_id t' = id -> tid' = tid;
  act_held : forall o, k = KHeld -> origins (a_lock a) !! id = Some o ->
    o_write_mode o = Held \/ arbitration (a_lock a) = FreeForAll /\ o_write_mode o <> Never }.

Lemma acts_task x tid t a : arb_base x a -> a_tasks a !! tid = Some t -> acts tid (t_kind t) (t_id t) a.
Proof.
  intros [] Ht. split; eauto.
  - intros t'. rewrite Ht. by intros [= <-].
  - by apply ab_ids0 in Ht.
Qed.

Lemma acts_set_lock tid k id l' a : lock_le l' (a_lock a) -> acts tid k id a -> acts tid k id (set_lock l' a).
Proof.
  intros [L1 L2 L3] []. split; try done. cbn. intros o' Hk Ho.
  destruct (L3 _ _ Ho) as (o & Ho' & ->). rewrite L1. eauto.
Qed.

Lemma put_end tid t a : put_task tid t a = put_task tid t (end_task tid a).
Proof. unfold put_task, end_task, set_tasks. cbn. by rewrite insert_delete_eq. Qed.

Lemma end_fresh tid a : a_tasks (end_task tid a) !! tid = None.
Proof. apply lookup_delete_eq. Qed.

(** Write task [tid] over its slot: it owns its queue entry unless it delivers. *)
Lemma base_act tid k id ph a :
  arb_base (Some id) (end_task tid a) -> acts tid k id a -> k <> KHeld ->
  (ph = Delivering -> k = KSend /\ id ∉ waiters (a_lock a)) ->
  arb_base None (put_task tid (mkTask k id ph) a).
Proof.
  intros B [S I U H] Hk Hp. rewrite put_end. pose proof (ab_bounds _ _ B) as Hb. cbn in Hb.
  apply (base_put (Some id)); try done.
  - apply end_fresh.
  - right. split; [done|]. cbn. split; [naive_solver|].
    revert I. case_bool_decide as K; [done|]. lia.
  - intros K tid' t' [Hne Ht']%end_lookup E. apply Hne. symmetry. by eapply U.
  - cbn. naive_solver.
Qed.

Lemma base_enqueue id a :
  blocked (a_lock a) id -> arb_base (Some id) a -> arb_base (Some id) (set_lock (enqueue (a_lock a) id) a).
Proof.
  intros Hb []. destruct (enqueue_fields (a_lock a) id) as (E1 & E2 & E3 & E4).
  assert (Hex : arbitration (a_lock a) = Exclusive) by (by destruct Hb as (? & ? & ? & ? & _)).
  split; cbn; rewrite ?E1, ?E3; try done.
  - apply (reach_op _ (OEnqueue id)); done.
  - intros Hc w Hw Hx. apply ab_queue0; [done| |done]. destruct E4 as [E4|E4]; rewrite E4 in Hw; [done|].
    apply elem_of_app in Hw as [?|Hw]; [done|].
    apply list_elem_of_singleton in Hw as ->. done.
  - by rewrite Hex.
Qed.

Lemma base_end_act tid k id a :
  arb_base None a -> acts tid k id a -> arb_base (Some id) (end_task tid a).
Proof. intros B A. eapply base_end_slot; [done|apply A]. Qed.

Lemma parked_put tid t a :
  (t_phase t = Parked -> a_closed a = false /\ blocked (a_lock a) (t_id t)
     /\ (t_kind t = KHeld -> holder (a_lock a) <> None)) ->
  parked_ok a -> parked_ok (put_task tid t a).
Proof. intros H P tid' t' [[-> ->]|[_ Ht]]%put_lookup Hp; [auto|exact (P tid' t' Ht Hp)]. Qed.

Lemma ok_park tid k id a :
  arb_ok a -> acts tid k id a -> k <> KHeld -> a_closed a = false -> blocked (a_lock a) id ->
  arb_ok (put_task tid (mkTask k id Parked) (set_lock (enqueue (a_lock a) id) a)).
Proof.
  intros [B P] A Hk Hc Hb. pose proof (enqueue_quiet _ _ Hb) as Q. split.
  - apply base_act; [|destruct A; split; cbn; try done|done|done].
    apply (base_enqueue id (end_task tid a)); [done|by eapply base_end_act].
  - apply parked_put; [|by apply parked_set_lock]. cbn. intros _. destruct (Q _ Hb). done.
Qed.

Lemma ok_park_held tid id a :
  arb_ok a -> acts tid KHeld id a -> a_closed a = false -> blocked (a_lock a) id ->
  holder (a_lock a) <> None -> arb_ok (put_task tid (mkTask KHeld id Parked) a).
Proof.
  intros [B P] A Hc Hb Hh. split; [|by apply parked_put].
  rewrite put_end. apply (base_put None); try done.
  - apply base_end; [done|]. intros t Ht. right. by destruct (act_slot _ _ _ _ A t Ht).
  - apply end_fresh.
  - by left.
  - apply (act_ids _ _ _ _ A).
  - intros o _. by apply (act_held _ _ _ _ A).
Qed.

(** A settled task leaves. *)
Lemma ok_settle tid k id a :
  arb_ok a -> acts tid k id a -> k <> KSend -> (a_closed a = false -> id ∉ waiters (a_lock a)) ->
  arb_ok (end_task tid a).
Proof.
  intros [B P] A Hk Hq. split; [|by apply parked_end].
  apply (base_settle id); [by eapply base_end_act|done|]. left.
  pose proof (act_ids _ _ _ _ A) as I. by rewrite bool_decide_false in I.
Qed.

(** *** The attempts *)

Lemma acquire_leaves_queue x a id r l' :
  arb_base x a -> acquire (a_lock a) id = (r, l') -> (forall h, r <> Denied h) -> id ∉ waiters l'.
Proof.
  intros B E Hr. pose proof (reachable_wf _ (ab_lock _ _ B)) as W.
  destruct (acquire_cases _ _ _ _ E) as [->|(-> & _)].
  2: { cbn. by intros [? _]%elem_of_retain_ne. }
  intros Hq. destruct (wf_waiters _ W _ Hq) as [(o & Ho & Hm) Hh].
  revert E. unfold acquire. rewrite Ho, bool_decide_false by done.
  case_bool_decide as F. { rewrite (ab_ffa _ _ B F) in Hq. by apply elem_of_nil in Hq. }
  destruct (holder (a_lock a)); [case_bool_decide; naive_solver|].
  repeat case_match; intros [= <-]; try naive_solver; cbn in *.
  all: match goal with H : grant_to _ _ = _ |- _ =>
         rewrite <- H in Hq; by apply elem_of_retain_ne in Hq as [? _] end.
Qed.

Lemma attempt_wait_spec x a id r l' :
  arb_base x a -> attempt_wait id (a_lock a) = (r, l') ->
  match r with
  | None => blocked (a_lock a) id /\ l' = enqueue (a_lock a) id
  | Some _ => l' = (acquire (a_lock a) id).2 /\ id ∉ waiters l'
  end.
Proof.
  intros B. unfold attempt_wait. destruct (acquire (a_lock a) id) as [q l1] eqn:E.
  pose proof (acquire_leaves_queue _ _ _ _ _ B E) as Q.
  destruct q; intros [= <- <-]; try (split; [done|by apply Q]).
  destruct (acquire_cases _ _ _ _ E) as [->|(_ & ? & _)]; [|done].
  split; [|done]. apply acquire_denied. eauto.
Qed.

Lemma attempt_pump_spec x a id r l' :
  arb_base x a -> attempt_pump id (a_lock a) = (r, l') ->
  match r with
  | None => blocked (a_lock a) id /\ l' = enqueue (a_lock a) id
  | Some _ => l' = (acquire (a_lock a) id).2 /\ id ∉ waiters l'
  end.
Proof.
  intros B E. assert (E' : exists r', attempt_wait id (a_lock a) = (r', l') /\ (r' = None <-> r = None)).
  { revert E. unfold attempt_pump, attempt_wait. destruct (acquire (a_lock a) id) as [[] ?];
      intros [= <- <-]; eauto. all: eexists; split; [done|]; naive_solver. }
  destruct E' as (r' & E' & H). apply (attempt_wait_spec _ _ _ _ _ B) in E'.
  destruct r, r'; naive_solver.
Qed.

Lemma may_write_out l id : lock_wf l -> (arbitration l = FreeForAll -> waiters l = []) ->
  may_write l id = true -> id ∉ waiters l.
Proof.
  intros W F M Hq. destruct (wf_waiters _ W _ Hq) as [(o & Ho & Hm) Hh]. revert M.
  unfold may_write. rewrite Ho, bool_decide_false by done.
  destruct (arbitration l); [by case_bool_decide|]. rewrite F in Hq by done. by apply elem_of_nil in Hq.
Qed.

Lemma attempt_held_spec a id r l' :
  arb_base None a ->
  (forall o, origins (a_lock a) !! id = Some o ->
     o_write_mode o = Held \/ arbitration (a_lock a) = FreeForAll /\ o_write_mode o <> Never) ->
  attempt_held id (a_lock a) = (r, l') ->
  match r with
  | None => l' = a_lock a /\ blocked (a_lock a) id /\ holder (a_lock a) <> None
  | Some _ => (l' = a_lock a \/ l' = (reclaim_held (a_lock a) id).2) /\ id ∉ waiters l'
  end.
Proof.
  intros B Hm. pose proof (reachable_wf _ (ab_lock _ _ B)) as W. pose proof (ab_ffa _ _ B) as F.
  unfold attempt_held, write_mode_of. destruct (origins (a_lock a) !! id) as [o|] eqn:Ho; cbn.
  2: { intros [= <- <-]. split; [by left|]. intros Hq. destruct (wf_waiters _ W _ Hq) as [(o & Ho' & _) _].
       congruence. }
  destruct (may_write (a_lock a) id) eqn:M.
  { intros [= <- <-]. split; [by left|]. by apply may_write_out. }
  specialize (Hm o eq_refl). destruct (reclaim_held (a_lock a) id) as [b l1] eqn:R.
  revert M R. unfold may_write, reclaim_held. rewrite Ho.
  destruct (decide (arbitration (a_lock a) = FreeForAll)) as [E|E].
  { rewrite E, bool_decide_false; [done|]. destruct Hm as [->|[_ ?]]; done. }
  destruct Hm as [Hm|[? _]]; [|done]. apply not_ffa in E. rewrite Hm, E. cbn. rewrite bool_decide_false by done.
  intros H1%bool_decide_eq_false_1. rewrite bool_decide_true, bool_decide_false by done. case_bool_decide as H2; intros [= <- <-]; intros [= <- <-].
  - split; [by right|]. cbn. by intros [? _]%elem_of_retain_ne.
  - split_and!; try done. exists o. split_and!; try done; [by rewrite Hm|].
    destruct (holder (a_lock a)); [congruence|done].
Qed.

(** *** The operations keep the invariant *)

Lemma ok_add_lease id g a : arb_ok a -> arb_ok (add_lease id g a).
Proof. intros [[] P]. split; [split; done|exact P]. Qed.

Lemma ok_lock_op op a :
  arb_ok a -> op_ok (a_lock a) op -> lock_le (run_op op (a_lock a)) (a_lock a) ->
  quiet (a_lock a) (run_op op (a_lock a)) -> arb_ok (set_lock (run_op op (a_lock a)) a).
Proof. intros O Hop L Q. apply ok_set_lock; try done. apply reach_op; [apply O|done]. Qed.

Lemma base_lock_op x op a :
  arb_base x a -> op_ok (a_lock a) op -> lock_le (run_op op (a_lock a)) (a_lock a) ->
  arb_base x (set_lock (run_op op (a_lock a)) a).
Proof. intros B Hop L. apply base_set_lock; try done. apply reach_op; [apply B|done]. Qed.

Lemma ok_wake_lock_op op a :
  arb_ok a -> op_ok (a_lock a) op -> lock_le (run_op op (a_lock a)) (a_lock a) ->
  arb_ok (wake_waiters (set_lock (run_op op (a_lock a)) a)).
Proof. intros [B _] Hop L. apply ok_wake. by apply base_lock_op. Qed.

Lemma purged_u64 n : purged_ok n = true -> u64 n.
Proof. unfold purged_ok, u64. lia. Qed.

Lemma ok_purge id n a : arb_ok a -> purged_ok n = true -> arb_ok (purge_on_acquire id n a).
Proof.
  intros O Hn. unfold purge_on_acquire. repeat case_match; try done.
  apply (ok_lock_op (OPurge id n)); [done|by apply purged_u64|apply purge_le|apply purge_quiet].
Qed.

Lemma ok_after_grant id lease a : arb_ok a -> arb_ok (after_grant id lease a).
Proof. intros O. unfold after_grant. destruct lease; [by apply ok_add_lease|done]. Qed.

Lemma ok_renew id lease a : arb_ok a -> arb_ok (renew_lease id lease a).
Proof.
  intros O. unfold renew_lease. destruct lease; [|done].
  pose proof (ok_lock_op (ORenew id) a O I (renew_le _ _) (renew_quiet _ _)) as R. cbn in R.
  destruct (renew (a_lock a) id) as [[g|] l]; cbn in R; [by apply ok_add_lease|done].
Qed.

Lemma ok_lock_reply o id lease n a : arb_ok a -> purged_ok n = true -> arb_ok (lock_reply o id lease n a).
Proof.
  intros O Hn. destruct o; cbn; try done; [|by apply ok_renew]. by apply ok_after_grant, ok_purge.
Qed.

Lemma ok_acquire id a : arb_ok a -> arb_ok (set_lock (acquire (a_lock a) id).2 a).
Proof. intros O. apply (ok_lock_op (OAcquire id)); [done|done|apply acquire_le|apply acquire_quiet]. Qed.

Lemma ok_lock_now id lease n a : arb_ok a -> purged_ok n = true -> arb_ok (lock_now id lease n a).
Proof.
  intros O Hn. unfold lock_now. pose proof (ok_acquire id a O) as A.
  destruct (acquire (a_lock a) id) as [[] l]; cbn in A; auto using ok_lock_reply.
Qed.

Lemma base_guard x id a : arb_base x a -> arb_base x (waiter_guard_drop id a).
Proof.
  intros B. pose proof (base_lock_op x (ODequeue id) a B I (dequeue_le _ _)) as B'.
  unfold waiter_guard_drop. case_bool_decide; [by apply base_wake|done].
Qed.

Lemma parked_guard id a : parked_ok a -> parked_ok (waiter_guard_drop id a).
Proof.
  intros P. unfold waiter_guard_drop. case_bool_decide as E; [apply parked_wake|].
  apply parked_set_lock; [|done]. by apply dequeue_quiet.
Qed.

Lemma guard_fields id a :
  (id ∉ waiters (a_lock (waiter_guard_drop id a))) /\ a_next_edge (waiter_guard_drop id a) = a_next_edge a
  /\ a_next_send (waiter_guard_drop id a) = a_next_send a
  /\ (forall tid, a_tasks a !! tid = None -> a_tasks (waiter_guard_drop id a) !! tid = None)
  /\ (forall tid t', a_tasks (waiter_guard_drop id a) !! tid = Some t' ->
        exists t, a_tasks a !! tid = Some t /\ t_id t' = t_id t).
Proof.
  unfold waiter_guard_drop. case_bool_decide; cbn; rewrite elem_of_retain_ne; split_and!; eauto; try naive_solver.
  - intros tid E. by rewrite lookup_fmap, E.
  - intros tid t'. rewrite lookup_fmap, fmap_Some. intros (t & Ht & ->). exists t.
    split; [done|]. by destruct (notify_fields t) as (_ & -> & _).
Qed.

(** A transient origin leaves; no task is left under its id. *)
Lemma ok_transient id a :
  arb_base (Some id) a -> parked_ok a -> (forall tid t, a_tasks a !! tid = Some t -> t_id t <> id) ->
  arb_ok (transient_drop id a).
Proof.
  intros B P Hno. destruct (unregister_fields (a_lock a) id) as (E1 & E2 & E3).
  assert (B' : arb_base None (set_lock (unregister (a_lock a) id).2 a)).
  { apply (base_settle id); [by apply (base_lock_op _ (OUnregister id)), unregister_le| |].
    - cbn. intros _. rewrite E2. by intros [? _]%elem_of_retain_ne.
    - right. cbn. by rewrite unregister_origins, bool_decide_true. }
  unfold transient_drop. cbn.
  destruct (bool_decide_reflect (holder (unregister (a_lock a) id).2 = None)); [by apply ok_wake|].
  split; [done|].
  intros tid t Ht Hp. specialize (Hno tid t Ht). destruct (P tid t Ht Hp) as (H1 & (o & Ho & H2 & H3 & H4) & H5).
  cbn in *. rewrite E3 in *. case_bool_decide as Eh; [done|]. split_and!; try done.
  exists o. rewrite E1, E3, unregister_origins, !bool_decide_false by done.
  split_and!; try done. by destruct (holder (a_lock a)).
Qed.

(** *** The turns *)

Lemma acts_acquire tid k id a : acts tid k id a -> acts tid k id (set_lock (acquire (a_lock a) id).2 a).
Proof. apply acts_set_lock, acquire_le. Qed.

Lemma ok_verb_turn tid id lease n a :
  arb_ok a -> acts tid (KVerb lease) id a -> purged_ok n = true -> arb_ok (verb_turn tid id lease n a).
Proof.
  intros O A Hn. unfold verb_turn, await_turn. destruct (a_closed a) eqn:C.
  { pose proof (base_end_act _ _ _ _ (proj1 O) A) as B. destruct (guard_fields id (end_task tid a)) as (G1 & G2 & _).
    split; [|by apply parked_guard, parked_end, O]. apply (base_settle id); [by apply base_guard|done|].
    left. rewrite G2. apply (act_ids _ _ _ _ A). }
  destruct (attempt_wait id (a_lock a)) as [r l'] eqn:E. apply (attempt_wait_spec _ _ _ _ _ (proj1 O)) in E.
  destruct r as [v|]; destruct E as [E Hq]; [|rewrite Hq; by apply ok_park]. rewrite E in *.
  apply ok_lock_reply; [|done]. apply (ok_settle tid (KVerb lease) id); try done; [by apply ok_acquire|by apply acts_acquire].
Qed.

Lemma ok_pump_turn (held : bool) tid id a :
  arb_ok a -> acts tid (if held then KHeld else KPump) id a -> arb_ok (pump_turn held tid id a).
Proof.
  intros O A. unfold pump_turn, await_turn. destruct (a_closed a) eqn:C.
  { eapply ok_settle; [done|done|by destruct held|]. by rewrite C. }
  destruct held.
  - destruct (attempt_held id (a_lock a)) as [r l'] eqn:E.
    apply (attempt_held_spec _ _ _ _ (proj1 O)) in E; [|intros o Ho; by eapply act_held].
    destruct r as [v|]; [|destruct E as (-> & Hb & Hh); by apply ok_park_held; destruct a].
    destruct E as [E Hq]. eapply ok_settle; [|eapply acts_set_lock; [|done]|done|done].
    + destruct E as [->| ->]; [by destruct a|].
      apply (ok_lock_op (OReclaim id)); [done|done|apply reclaim_le|apply reclaim_quiet].
    + destruct E as [->| ->]; [done|apply reclaim_le].
  - destruct (attempt_pump id (a_lock a)) as [r l'] eqn:E. apply (attempt_pump_spec _ _ _ _ _ (proj1 O)) in E.
    destruct r as [v|]; destruct E as [E Hq]; [|rewrite Hq; by apply ok_park].
    rewrite E in *. eapply ok_settle; [by apply ok_acquire|by apply acts_acquire|done|done].
Qed.

Lemma acts_alone tid id a : acts tid KSend id a ->
  forall tid' t, a_tasks (end_task tid a) !! tid' = Some t -> t_id t <> id.
Proof. intros A tid' t [Hne Ht]%end_lookup E. apply Hne. symmetry. by eapply act_unique. Qed.

Lemma ok_deliver tid id a :
  arb_ok a -> acts tid KSend id a -> id ∉ waiters (a_lock a) ->
  arb_ok (put_task tid (mkTask KSend id Delivering) a).
Proof.
  intros O A Hq. split; [|by apply parked_put, O].
  apply base_act; [by eapply base_end_act; [apply O|]|done|done|done].
Qed.

Lemma ok_send_turn tid id a : arb_ok a -> acts tid KSend id a -> arb_ok (send_turn tid id a).
Proof.
  intros O A. unfold send_turn, await_turn. destruct (a_closed a) eqn:C.
  { apply ok_transient.
    - apply base_guard. by eapply base_end_act; [apply O|].
    - by apply parked_guard, parked_end, O.
    - destruct (guard_fields id (end_task tid a)) as (_ & _ & _ & _ & G). intros tid' t' Ht'.
      destruct (G _ _ Ht') as (t & Ht & ->). by eapply acts_alone. }
  destruct (attempt_wait id (a_lock a)) as [r l'] eqn:E. apply (attempt_wait_spec _ _ _ _ _ (proj1 O)) in E.
  destruct r as [v|]; destruct E as [E Hq]; [|rewrite Hq; by apply ok_park]. rewrite E in *.
  pose proof (ok_acquire id a O) as O'. pose proof (acts_acquire _ _ _ _ A) as A'.
  destruct v; try (by apply ok_deliver).
  all: apply ok_transient; [by eapply base_end_act; [apply O'|]|by apply parked_end, O'|by apply acts_alone].
Qed.

(** Registering an origin. *)
Lemma register_origins l id lb wm x :
  origins (register l id lb wm) !! x = if bool_decide (x = id) then Some (mkOrigin lb wm 0) else origins l !! x.
Proof.
  unfold register. cbn. case_match; cbn; rewrite lookup_insert; by repeat case_decide || case_bool_decide.
Qed.

Lemma register_fields l id lb wm :
  arbitration (register l id lb wm) = arbitration l /\ waiters (register l id lb wm) = waiters l
  /\ (wm <> Held -> holder (register l id lb wm) = holder l).
Proof. unfold register. cbn. repeat case_bool_decide; done. Qed.

Lemma base_register id lb wm a :
  arb_base None a -> origins (a_lock a) !! id = None -> a_next_edge a <= id ->
  arb_base (Some id) (set_lock (register (a_lock a) id lb wm) a).
Proof.
  intros [] Hf Hn. destruct (register_fields (a_lock a) id lb wm) as (E1 & E2 & _).
  split; cbn; rewrite ?E1, ?E2; try done.
  - by apply (reach_op _ (ORegister id lb wm)).
  - intros Hc w Hw _. by apply ab_queue0.
  - intros i o. rewrite register_origins. case_bool_decide as E; [subst; done|]. intros Ho ? _. by eapply ab_origins0.
  - intros tid t o Ht Hk. rewrite register_origins. apply ab_ids0 in Ht as Hi.
    rewrite bool_decide_false in Hi by (by rewrite Hk). rewrite bool_decide_false by lia. by eapply ab_held0.
Qed.

Lemma register_quiet l id lb wm : origins l !! id = None -> wm <> Held -> quiet l (register l id lb wm).
Proof.
  intros Hf Hm x Hx. destruct (register_fields l id lb wm) as (E1 & E2 & E3). rewrite E3 by done.
  split; [|done]. apply (blocked_origins l); auto. intros y o Ho. exists o.
  rewrite register_origins, bool_decide_false; [done|congruence].
Qed.

Lemma fresh_send a : arb_base None a -> origins (a_lock a) !! a_next_send a = None.
Proof.
  intros []. destruct (origins (a_lock a) !! a_next_send a) eqn:E; [|done].
  destruct (ab_origins0 _ _ E ltac:(lia) ltac:(done)) as (tid & t & Ht & Hi & Hk).
  apply ab_ids0 in Ht. rewrite bool_decide_true in Ht by done. lia.
Qed.

Lemma fresh_edge a : arb_base None a -> origins (a_lock a) !! a_next_edge a = None.
Proof.
  intros []. destruct (origins (a_lock a) !! a_next_edge a) eqn:E; [|done].
  destruct (ab_origins0 _ _ E ltac:(lia) ltac:(done)) as (tid & t & Ht & Hi & Hk).
  apply ab_ids0 in Ht. rewrite bool_decide_true in Ht by done. lia.
Qed.

Lemma send_turn_put tid id u a : send_turn tid id (put_task tid u a) = send_turn tid id a.
Proof.
  unfold send_turn, await_turn. cbn. destruct (a_closed a).
  { unfold end_task, put_task, set_tasks. cbn. by rewrite delete_insert_eq. }
  destruct (attempt_wait id (a_lock a)) as [r l]. destruct r as [[]|]; cbn;
    unfold end_task, put_task, set_tasks, set_lock; cbn; by rewrite ?delete_insert_eq, ?insert_insert_eq.
Qed.

Lemma acts_put tid k id ph a : acts tid k id a -> acts tid k id (put_task tid (mkTask k id ph) a).
Proof.
  intros []. split; try done.
  - intros t [[_ <-]|[? _]]%put_lookup; done.
  - intros Hk tid' t' [[-> _]|[_ Ht]]%put_lookup Hi; [done|by eapply act_unique0].
Qed.

(** Registering a transient origin, up to the wait or the steal. *)
Lemma send_registered tid a :
  let id := a_next_send a in
  let a1 := mkArb (register (a_lock a) id "send" OnDemand) (a_closed a) (a_tasks a) (a_leases a)
                  (a_next_edge a) (id + 1) in
  arb_ok a -> a_tasks a !! tid = None -> id + 1 < 2 ^ 64 ->
  parked_ok a1 /\ acts tid KSend id a1
  /\ forall ph, arb_base None (put_task tid (mkTask KSend id ph) a1).
Proof.
  intros id a1 O Hf Hn. pose proof (fresh_send a (proj1 O)) as Hfr.
  pose proof (reachable_wf _ (ab_lock _ _ (proj1 O))) as W. pose proof (ab_bounds _ _ (proj1 O)) as Hb.
  destruct (register_fields (a_lock a) id "send" OnDemand) as (E1 & E2 & E3).
  assert (Hq : id ∉ waiters (a_lock a1)).
  { unfold a1. cbn. rewrite E2. intros Hq. destruct (wf_waiters _ W _ Hq) as [(o & Ho & _) _].
    unfold id in *. congruence. }
  assert (A : acts tid KSend id a1).
  { split; cbn; [by intros t; cbn; rewrite Hf|rewrite bool_decide_true by done; unfold id; lia| |done].
    intros _ tid' t' Ht' E. apply (ab_ids _ _ (proj1 O)) in Ht'. revert Ht'.
    case_bool_decide; unfold id in *; lia. }
  assert (B : arb_base (Some id) a1).
  { destruct (base_register id "send" OnDemand a (proj1 O) Hfr ltac:(unfold id; lia)).
    split; try done; [|cbn; unfold id; lia].
    intros t0 t Ht. apply ab_ids0 in Ht. revert Ht. case_bool_decide; cbn; unfold id; lia. }
  split_and!; [|done|].
  - change (parked_ok (set_lock (register (a_lock a) id "send" OnDemand) a)).
    apply parked_set_lock; [by apply register_quiet|apply O].
  - intros ph. apply base_act; try done. apply base_end; [done|]. intros t. cbn. by rewrite Hf.
Qed.

Lemma put_wake tid k id l a :
  put_task tid (mkTask k id Delivering) (wake_waiters (set_lock l a)) =
  wake_waiters (set_lock l (put_task tid (mkTask k id Delivering) a)).
Proof. unfold wake_waiters, put_task, set_tasks. cbn. by rewrite fmap_insert. Qed.

Lemma ok_send_start tid stealing a :
  arb_ok a -> a_tasks a !! tid = None -> a_next_send a + 1 < 2 ^ 64 -> arb_ok (send_start tid stealing a).
Proof.
  intros O Hf Hn. destruct (send_registered tid a O Hf Hn) as (P & A & B). unfold send_start.
  rewrite N.mod_small by lia. destruct stealing.
  - rewrite put_wake. apply ok_wake. exact (base_lock_op None (OSteal _) _ (B Delivering) I (steal_le _ _)).
  - rewrite <- (send_turn_put tid _ (mkTask KSend (a_next_send a) Woken)).
    apply ok_send_turn; [|exact (acts_put _ _ _ _ _ A)]. split; [exact (B _)|apply parked_put; [done|exact P]].
Qed.

(** *** Every step *)

Lemma ok_steal id lease n a : arb_ok a -> purged_ok n = true -> arb_ok (grant_by_steal id lease n a).
Proof.
  intros O Hn. unfold grant_by_steal. pose proof (base_lock_op None (OSteal id) a (proj1 O) I (steal_le _ _)) as B.
  assert (Q : forall r, (r = StealReadOnly \/ r = StealAlreadyHeld) -> (steal (a_lock a) id).1 = r ->
                (steal (a_lock a) id).2 = a_lock a).
  { intros r Hr. unfold steal. repeat case_match; cbn; intros; subst; naive_solver. }
  cbn in B. destruct (steal (a_lock a) id) as [[] l]; cbn in *.
  - apply ok_after_grant, ok_wake. unfold purge_on_acquire. repeat case_match; try done.
    apply (base_lock_op None (OPurge id n) (set_lock l a)); [done|by apply purged_u64|apply purge_le].
  - rewrite (Q StealAlreadyHeld) by auto. apply ok_renew. by destruct a.
  - rewrite (Q StealReadOnly) by auto. by destruct a.
Qed.

Lemma ok_unlock id a : arb_ok a -> arb_ok (unlock id a).
Proof.
  intros O. unfold unlock. pose proof (ok_wake_lock_op (ORelease id) a O I (release_le _ _)) as R. cbn in R.
  unfold release in *. case_bool_decide; [done|by destruct a].
Qed.

Lemma ok_gate id a : arb_ok a -> arb_ok (may_write_reclaiming id a).2.
Proof.
  intros O. unfold may_write_reclaiming. case_match; [done|].
  pose proof (ok_lock_op (OReclaim id) a O I (reclaim_le _ _) (reclaim_quiet _ _)) as R. cbn in R.
  by destruct (reclaim_held (a_lock a) id).
Qed.

Lemma ok_lease id g a : arb_ok a -> arb_ok (lease_fire id g a).
Proof.
  intros O. unfold lease_fire. repeat case_match; try done.
  apply (ok_wake_lock_op (ORelease id)); [done|done|apply release_le].
Qed.

Lemma ok_detach id a : arb_ok a -> arb_ok (detach id a).
Proof. intros O. apply (ok_wake_lock_op (OUnregister id)); [done|done|apply unregister_le]. Qed.

Lemma ok_attach label wm n a :
  arb_ok a -> a_next_edge a + 1 < SEND_ORIGIN_BASE -> purged_ok n = true -> arb_ok (attach label wm n a).
Proof.
  intros [B _] Hn Hp. unfold attach. apply ok_wake. set (id := a_next_edge a). set (a1 := mkArb _ _ _ _ _ _).
  assert (B1 : arb_base None a1).
  { pose proof (base_register id label wm a B (fresh_edge a B) ltac:(lia)) as B1.
    pose proof (reachable_wf _ (ab_lock _ _ B)) as W. destruct (register_fields (a_lock a) id label wm) as (_ & E2 & _).
    apply (base_settle id); [|intros _ Hq; cbn in Hq; rewrite E2 in Hq|left; cbn; lia].
    - destruct B1. split; try done.
      + intros i o Ho Hi. cbn in Hi. eapply ab_origins0; [done|cbn; lia].
      + intros tid t Ht. apply ab_ids0 in Ht. revert Ht. case_bool_decide; cbn; lia.
      + cbn in *. lia.
    - destruct (wf_waiters _ W _ Hq) as [(o & Ho & _) _]. pose proof (fresh_edge a B). unfold id in *. congruence. }
  case_match; [|done]. apply (base_lock_op None (OPurge id n)); [done|by apply purged_u64|apply purge_le].
Qed.

Lemma ok_elsewhere es ss a :
  arb_ok a -> a_next_edge a + es < SEND_ORIGIN_BASE -> a_next_send a + ss < 2 ^ 64 ->
  arb_ok (mkArb (a_lock a) (a_closed a) (a_tasks a) (a_leases a) (a_next_edge a + es) (a_next_send a + ss)).
Proof.
  intros [[] P] He Hs. split; [|exact P]. split; try done.
  - intros id o Ho Hn. apply (ab_origins0 id o Ho). cbn in Hn. lia.
  - intros tid t Ht. apply ab_ids0 in Ht. revert Ht. case_bool_decide; cbn; lia.
  - cbn. lia.
Qed.

Lemma ok_close a : arb_ok a -> arb_ok (close a).
Proof. intros [[] _]. apply ok_wake. by split. Qed.

Lemma ok_send_done tid id a :
  arb_ok a -> acts tid KSend id a -> arb_ok (send_done tid id a).
Proof.
  intros O A. unfold send_done. apply ok_wake.
  destruct (unregister_fields (a_lock a) id) as (_ & E2 & _). apply (base_settle id).
  - apply (base_lock_op (Some id) (OUnregister id) (end_task tid a)); [|done|apply unregister_le].
    by eapply base_end_act; [apply O|].
  - intros _. cbn. rewrite E2. by intros [? _]%elem_of_retain_ne.
  - right. cbn. by rewrite unregister_origins, bool_decide_true.
Qed.

Lemma ok_pump_start held tid id a :
  arb_ok a -> acts tid (if held : bool then KHeld else KPump) id a -> arb_ok (pump_start held tid id a).
Proof. intros O A. unfold pump_start. destruct (may_write _ _); [done|by apply ok_pump_turn]. Qed.

Lemma ok_cancel tid t a :
  arb_ok a -> a_tasks a !! tid = Some t -> cancel_ok t a = true -> arb_ok (cancel tid t a).
Proof.
  intros O Ht Hc. pose proof (acts_task _ _ _ _ (proj1 O) Ht) as A.
  pose proof (base_end_act _ _ _ _ (proj1 O) A) as B. pose proof (parked_end tid a (proj2 O)) as P.
  pose proof (act_ids _ _ _ _ A) as Hi.
  assert (K : t_kind t = KPump \/ t_kind t = KHeld -> arb_ok (end_task tid a)).
  { intros Hk. apply (ok_settle tid (t_kind t) (t_id t)); [done|done|by destruct Hk as [->| ->]|].
    intros Hcl Hq. unfold cancel_ok in Hc. rewrite Hcl in Hc.
    destruct (wf_waiters _ (reachable_wf _ (ab_lock _ _ (proj1 O))) _ Hq) as [(o & Ho & _) _].
    rewrite Ho in Hc. by destruct Hk as [Hk|Hk]; rewrite Hk in Hc; apply bool_decide_eq_true in Hc. }
  destruct (guard_fields (t_id t) (end_task tid a)) as (G1 & G2 & _ & _ & G5).
  unfold cancel. destruct (t_kind t) eqn:Ek; [|destruct (t_phase t) eqn:Ep|by auto|by auto].
  - split; [|by apply parked_guard]. apply (base_settle (t_id t)); [by apply base_guard|done|].
    left. by rewrite G2.
  - apply ok_transient; [by apply base_guard|by apply parked_guard|].
    intros tid' t' Ht'. destruct (G5 _ _ Ht') as (t0 & Ht0 & ->). by eapply acts_alone.
  - apply ok_transient; [by apply base_guard|by apply parked_guard|].
    intros tid' t' Ht'. destruct (G5 _ _ Ht') as (t0 & Ht0 & ->). by eapply acts_alone.
  - apply ok_transient; [done|done|by apply acts_alone].
Qed.

Lemma acts_fresh tid k id a :
  a_tasks a !! tid = None -> k <> KSend -> id < a_next_edge a ->
  (k = KHeld -> held_gate_ok id a = true) -> acts tid k id a.
Proof.
  intros Hf Hk Hi Hh. split; [intros t; by rewrite Hf|by rewrite bool_decide_false|done|].
  intros o E Ho. specialize (Hh E). unfold held_gate_ok, write_mode_of in Hh. rewrite Ho in Hh. cbn in Hh.
  destruct (o_write_mode o); [done|right; by apply bool_decide_eq_true in Hh|by left].
Qed.

Lemma leases_ok ls a :
  arb_ok a -> arb_ok (mkArb (a_lock a) (a_closed a) (a_tasks a) ls (a_next_edge a) (a_next_send a)).
Proof. intros [[] P]. split; [by split|exact P]. Qed.

Ltac step_guard :=
  unfold fresh_task, edge_id; repeat case_if; try done; split_bools; rewrite ?N.ltb_lt in *;
  intros [= <-].

Lemma step_ok op a a' : arb_ok a -> arb_step op a = Some a' -> arb_ok a'.
Proof.
  intros O. destruct op as [tid id lease n|id lease n|id lease n|id|tid st|tid|held tid id|id|tid n|tid|i|lb wm n|id|es ss|]; cbn.
  - step_guard. apply ok_verb_turn; try done. by apply acts_fresh.
  - step_guard. by apply ok_lock_now.
  - step_guard. by apply ok_steal.
  - intros [= <-]. by apply ok_unlock.
  - step_guard. by apply ok_send_start.
  - destruct (a_tasks a !! tid) as [[[] id []]|] eqn:E; try done. intros [= <-].
    apply ok_send_done; [done|]. exact (acts_task _ _ _ _ (proj1 O) E).
  - step_guard. apply ok_pump_start; [done|]. destruct held; by apply acts_fresh.
  - intros [= <-]. by apply ok_gate.
  - destruct (a_tasks a !! tid) as [t|] eqn:E; [|done]. step_guard.
    pose proof (acts_task _ _ _ _ (proj1 O) E) as A. unfold poll.
    destruct (t_kind t); [by apply ok_verb_turn|by apply ok_send_turn|by apply ok_pump_turn|by apply ok_pump_turn].
  - destruct (a_tasks a !! tid) as [t|] eqn:E; [|done]. step_guard. by apply ok_cancel.
  - destruct (a_leases a !! i) as [[id g]|]; [|done]. intros [= <-]. by apply ok_lease, leases_ok.
  - step_guard. by apply ok_attach.
  - step_guard. by apply ok_detach.
  - step_guard. by apply ok_elsewhere.
  - intros [= <-]. by apply ok_close.
Qed.

Lemma new_ok arb : arb_ok (new_cell arb).
Proof.
  split; [|by intros tid t; cbn; rewrite lookup_empty].
  split; cbn; try (by setoid_rewrite lookup_empty); try done.
  - exists arb, []. constructor.
  - intros _ w Hw. by apply elem_of_nil in Hw.
Qed.

Lemma reachable_ok a : arb_reachable a -> arb_ok a.
Proof.
  intros (arb & ops & H). revert H. generalize (new_ok arb). generalize (new_cell arb).
  induction ops as [|op ops IH]; cbn; intros a0 O; [by intros [= <-]|].
  destruct (arb_step op a0) as [a1|] eqn:E; [|done]. cbn. apply IH. by eapply step_ok.
Qed.

(** ** Theorems *)

(** What the attempt of a waiting task answers now. *)
Definition would_park (t : Task) (l : EndpointLock) : bool :=
  match t_kind t with
  | KVerb _ | KSend => bool_decide ((attempt_wait (t_id t) l).1 = None)
  | KPump => bool_decide ((attempt_pump (t_id t) l).1 = None)
  | KHeld => bool_decide ((attempt_held (t_id t) l).1 = None)
  end.

#[export] Instance wait_outcome_eq_dec : EqDecision WaitOutcome.
Proof. solve_decision. Defined.
#[export] Instance grant_eq_dec : EqDecision Grant.
Proof. solve_decision. Defined.

Lemma blocked_parks a t :
  blocked (a_lock a) (t_id t) -> t_kind t <> KHeld -> would_park t (a_lock a) = true.
Proof.
  intros (h & E)%acquire_denied Hk. unfold would_park, attempt_wait, attempt_pump. rewrite E.
  by destruct (t_kind t).
Qed.

(** C7: No wakeup is lost. In every reachable state of a cell, whatever verbs, pumps,
    sends, cancellations, lease expiries, edge changes and teardown came before, a task that is
    suspended on the cell's notify would be denied if it asked now: its attempt
    would suspend it again, and the cell is not closed. *)
Theorem no_stranded_waiter a tid t :
  arb_reachable a -> a_tasks a !! tid = Some t -> t_phase t = Parked ->
  a_closed a = false /\ would_park t (a_lock a) = true.
Proof.
  intros [B P]%reachable_ok Ht Hp. destruct (P tid t Ht Hp) as (Hc & Hb & Hh). split; [done|].
  destruct (decide (t_kind t = KHeld)) as [Hk|Hk]; [|by apply blocked_parks].
  unfold would_park. rewrite Hk. apply bool_decide_eq_true.
  destruct (attempt_held (t_id t) (a_lock a)) as [r l'] eqn:E. destruct Hb as (o & Ho & _ & Hex & Hb).
  revert E. unfold attempt_held, write_mode_of, may_write. rewrite Ho, Hex. cbn.
  destruct (ab_held _ _ B _ _ _ Ht Hk Ho) as [Hm|[Hf _]]; [|congruence]. rewrite Hm.
  specialize (Hh Hk). unfold reclaim_held. rewrite Ho, Hm, Hex. cbn.
  destruct (holder (a_lock a)) as [h|]; [|done]. rewrite bool_decide_false by done.
  rewrite bool_decide_false by congruence. by intros [= <- _].
Qed.

(** The cell's lock only ever moves by operations of the lock automaton, called
    as it requires (fresh origin ids, byte counts that fit): the arbitration layer
    refines [EndpointLock], so what is proved of the lock holds of every cell. *)
Theorem cell_refines_lock a : arb_reachable a -> reachable (a_lock a) /\ lock_wf (a_lock a).
Proof. intros [B _]%reachable_ok. split; [apply B|apply reachable_wf, B]. Qed.

(** No phantom origin. A registered origin is an edge of the graph or belongs to
    a send still in progress, however sends were cancelled, timed out or refused;
    so the holder of an exclusive lock is one of these and never a task that is gone. *)
Theorem no_phantom_origin a id o :
  arb_reachable a -> origins (a_lock a) !! id = Some o ->
  id < a_next_edge a \/ exists tid t, a_tasks a !! tid = Some t /\ t_id t = id /\ t_kind t = KSend.
Proof.
  intros [B _]%reachable_ok Ho. destruct (N.ltb_spec id (a_next_edge a)); [by left|right].
  by eapply ab_origins.
Qed.

(** Polling the task of an origin the lock grants makes it the holder. *)
Lemma poll_takes a tid t n :
  a_closed a = false -> t_kind t <> KHeld ->
  acquire (a_lock a) (t_id t) = (Granted, grant_to (a_lock a) (t_id t)) ->
  holder (a_lock (poll tid t n a)) = Some (t_id t).
Proof.
  intros Hc Hk E. assert (Hp : forall l i n, holder (record_purge l i n) = holder l) by apply purge_fields.
  unfold poll, verb_turn, send_turn, pump_turn, await_turn, attempt_wait, attempt_pump. rewrite Hc, E.
  destruct (t_kind t) as [lease| | |]; try done. cbn. unfold after_grant, purge_on_acquire.
  destruct lease; cbn; repeat case_match; cbn; by rewrite ?Hp.
Qed.

(** C15: A freed lock is handed on. When an exclusive cell is free and its queue is
    not empty, and no held origin has a claim, the task of the waiter at the front
    has been notified, and its next poll takes the lock. *)
Theorem freed_lock_handed_on a :
  arb_reachable a -> a_closed a = false -> arbitration (a_lock a) = Exclusive ->
  holder (a_lock a) = None -> (forall x, ~ is_held (a_lock a) x) -> waiters (a_lock a) <> [] ->
  exists tid t, a_tasks a !! tid = Some t /\ t_phase t = Woken
    /\ head (waiters (a_lock a)) = Some (t_id t)
    /\ forall n, holder (a_lock (poll tid t n a)) = Some (t_id t).
Proof.
  intros [B P]%reachable_ok Hc Hex Hh Hn Hw. destruct (waiters (a_lock a)) as [|f ws] eqn:Ew; [done|].
  assert (Hf : f ∈ waiters (a_lock a)) by (rewrite Ew; left).
  destruct (ab_queue _ _ B Hc f Hf ltac:(done)) as (tid & t & Ht & <- & Hk & Hd).
  destruct (wf_waiters _ (reachable_wf _ (ab_lock _ _ B)) _ Hf) as [(o & Ho & Hm) _].
  assert (Hnb : ~ blocked (a_lock a) (t_id t)).
  { intros (o' & Ho' & _ & _ & Hb). rewrite Hh, Ew in Hb. naive_solver. }
  exists tid, t. split_and!; [done| |done|].
  - destruct (t_phase t) eqn:Ep; try done. by destruct (P tid t Ht Ep) as (_ & ? & _).
  - intros n. apply poll_takes; [done|done|]. unfold acquire. rewrite Ho, Hex, Hh, Ew. cbn.
    rewrite !bool_decide_false by done. case_bool_decide; [done|].
    destruct (held_origin_other_than (a_lock a) (t_id t)) eqn:E; [|rewrite bool_decide_false; [done|tauto]].
    by apply held_origin_other_than_Some in E as [?%Hn _].
Qed.

(** Teardown ends every wait. On a closed cell no task is left suspended, and a
    notified one ends at its next poll instead of waiting again. *)
Theorem closed_cell_drains a tid t n :
  arb_reachable a -> a_closed a = true -> a_tasks a !! tid = Some t ->
  t_phase t <> Parked /\ (t_phase t = Woken -> a_tasks (poll tid t n a) !! tid = None).
Proof.
  intros [B P]%reachable_ok Hc Ht. split.
  { intros Hp. destruct (P tid t Ht Hp) as (? & _). congruence. }
  intros _. unfold poll, verb_turn, send_turn, pump_turn, await_turn. rewrite Hc.
  destruct (guard_fields (t_id t) (end_task tid a)) as (_ & _ & _ & G & _). specialize (G tid (end_fresh _ _)).
  destruct (t_kind t); [done| |by apply end_fresh|by apply end_fresh].
  unfold transient_drop. cbn. case_bool_decide; [|done]. cbn. by rewrite lookup_fmap, G.
Qed.

(** ** Witnesses *)

(** Two edges contend, a send queues behind them, the holder unlocks. *)
Definition demo_contend : list ArbOp :=
  [Attach "a" OnDemand 0; Attach "b" OnDemand 0; LockWait 1 0 true 5; LockWait 2 1 false 0; Send 3 false].

Definition demo_cell (ops : list ArbOp) : Arb := default (new_cell Exclusive) (arb_run ops (new_cell Exclusive)).

Lemma demo_cell_reachable ops : arb_run ops (new_cell Exclusive) <> None -> arb_reachable (demo_cell ops).
Proof.
  intros H. exists Exclusive, ops. unfold demo_cell. by destruct (arb_run ops (new_cell Exclusive)).
Qed.

Lemma no_stranded_waiter_witness :
  would_park (mkTask KSend SEND_ORIGIN_BASE Parked) (a_lock (demo_cell demo_contend)) = true.
Proof.
  apply (no_stranded_waiter (demo_cell demo_contend) 3 (mkTask KSend SEND_ORIGIN_BASE Parked));
    [apply demo_cell_reachable; by vm_compute|by vm_compute|done].
Defined.

Lemma cell_refines_lock_witness : lock_wf (a_lock (demo_cell demo_contend)).
Proof. apply (cell_refines_lock (demo_cell demo_contend)). apply demo_cell_reachable. by vm_compute. Defined.

Lemma no_phantom_origin_witness :
  SEND_ORIGIN_BASE < a_next_edge (demo_cell demo_contend)
  \/ exists tid t, a_tasks (demo_cell demo_contend) !! tid = Some t /\ t_id t = SEND_ORIGIN_BASE /\ t_kind t = KSend.
Proof.
  apply (no_phantom_origin (demo_cell demo_contend) SEND_ORIGIN_BASE (mkOrigin "send" OnDemand 0));
    [apply demo_cell_reachable; by vm_compute|by vm_compute].
Defined.

Lemma demo_unheld x : ~ is_held (a_lock (demo_cell (demo_contend ++ [Unlock 0; Cancel 2]))) x.
Proof.
  intros (o & Ho & Hm).
  assert (H : map_Forall (fun _ o => o_write_mode o <> Held)
                (origins (a_lock (demo_cell (demo_contend ++ [Unlock 0; Cancel 2]))))).
  { apply (bool_decide_eq_true_1 _). by vm_compute. }
  by apply (H x o Ho).
Qed.

(** The notified verb's client disconnects; the send behind it is next. *)
Lemma freed_lock_handed_on_witness :
  exists tid t, a_tasks (demo_cell (demo_contend ++ [Unlock 0; Cancel 2])) !! tid = Some t /\ t_phase t = Woken
    /\ head (waiters (a_lock (demo_cell (demo_contend ++ [Unlock 0; Cancel 2])))) = Some (t_id t)
    /\ forall n, holder (a_lock (poll tid t n (demo_cell (demo_contend ++ [Unlock 0; Cancel 2])))) = Some (t_id t).
Proof.
  apply (freed_lock_handed_on (demo_cell (demo_contend ++ [Unlock 0; Cancel 2])));
    [apply demo_cell_reachable; by vm_compute|by vm_compute|by vm_compute|by vm_compute|apply demo_unheld|].
  by vm_compute.
Defined.

Lemma closed_cell_drains_witness :
  a_tasks (poll 3 (mkTask KSend SEND_ORIGIN_BASE Woken) 0 (demo_cell (demo_contend ++ [Close]))) !! 3 = None.
Proof.
  apply (closed_cell_drains (demo_cell (demo_contend ++ [Close])) 3 (mkTask KSend SEND_ORIGIN_BASE Woken) 0);
    [apply demo_cell_reachable; by vm_compute|by vm_compute|by vm_compute|done].
Defined.
