(* ===== verification/Frames.v ===== *)
(** * Fragmentation into envelope frames (daemon/src/runtime.rs)

    [frame_payload_cap], [frame_ranges] and [data_frames]: the one place where a
    targetward chunk is cut into frames, shared by the leg's write half, the exec
    codec's stdin feed and (the boundaries) the in-process codec.  An iterator is the
    list of the items it yields. *)

From S2P Require Import Prelude GraphTypes Envelope.
#[local] Open Scope Z_scope.

Definition frame_payload_cap (ch : ChannelId) : Z :=
  Z.max (Z.max 0 (MAX_FRAME_SIZE - (3 + slen ch))) 1.

(** The closure of [frame_ranges] until it answers [None]. *)
Fixpoint ranges_from (fuel : nat) (cap total off : Z) : list (Z * Z) :=
  match fuel with
  | O => []
  | S fuel =>
      if total <=? off then []
      else let end_ := Z.min (off + cap) total in
           (off, end_) :: ranges_from fuel cap total end_
  end.

(** Each range is at least one byte wide, so [total] turns and the final [None] are enough. *)
Definition frame_ranges (ch : ChannelId) (total : Z) : list (Z * Z) :=
  ranges_from (S (Z.to_nat total)) (frame_payload_cap ch) total 0.

Inductive DataFrame :=
| Piece (payload_len : Z) (frame : list byte)
| Residual (tail : Z).

(** The closure of [data_frames] over the remaining ranges; [Chunk::slice] panics
    outside the chunk. *)
Fixpoint frames_from (ch : ChannelId) (bytes : list byte) (ranges : list (Z * Z)) : exec Empty_set (list DataFrame) :=
  match ranges with
  | [] => Ok []
  | (off, end_) :: ranges =>
      piece ← slice bytes off end_;
      match encode (event_data ch piece) [] with
      | (Ok _, frame) =>
          items ← frames_from ch bytes ranges;
          Ok (Piece (end_ - off) frame :: items)
      | (Err _, _) => Ok [Residual (len bytes - off)]
      | (Panic, _) => Panic
      end
  end.

Definition data_frames (ch : ChannelId) (bytes : list byte) : exec Empty_set (list DataFrame) :=
  frames_from ch bytes (frame_ranges ch (len bytes)).

(** ** Lemmas *)

(** What the iterator yields: whole frames for [pieces], then the unframed [tail]. *)
Definition yields (ch : ChannelId) (pieces : list (list byte)) (tail : list byte) : list DataFrame :=
  ((fun p => Piece (len p) (frame_of (event_data ch p))) <$> pieces)
  ++ (if bool_decide (tail = []) then [] else [Residual (len tail)]).

Definition pieces_ok (ch : ChannelId) (pieces : list (list byte)) (tail : list byte) : Prop :=
  Forall (fun p => p <> [] /\ event_fits (event_data ch p)) pieces
  /\ (tail <> [] -> MAX_FRAME_SIZE < 4 + slen ch).

Lemma frame_payload_cap_pos ch : 1 <= frame_payload_cap ch.
Proof. unfold frame_payload_cap. lia. Qed.

(** A full piece fits unless the channel id leaves no room for one byte. *)
Lemma piece_fits ch p :
  p <> [] -> len p <= frame_payload_cap ch ->
  event_fits (event_data ch p) \/ MAX_FRAME_SIZE < 4 + slen ch.
Proof.
  unfold frame_payload_cap, event_fits, event_body_len. cbn. intros Hp Hl.
  assert (0 < len p) by (destruct p; [done|]; autorewrite with snx_len; pose proof (len_nonneg p); lia).
  lia.
Qed.

Lemma frames_from_spec ch bytes fuel off :
  0 <= off <= len bytes -> len bytes - off < Z.of_nat fuel ->
  exists pieces tail,
    frames_from ch bytes (ranges_from fuel (frame_payload_cap ch) (len bytes) off) = Ok (yields ch pieces tail)
    /\ concat pieces ++ tail = drop (Z.to_nat off) bytes /\ pieces_ok ch pieces tail.
Proof.
  pose proof (frame_payload_cap_pos ch) as Hcap.
  revert off. induction fuel as [|fuel IH]; intros off Ho Hf; [lia|]. cbn [ranges_from].
  destruct (Z.leb_spec (len bytes) off) as [Hd|Hd].
  { exists [], []. split_and!; [done| |by split]. rewrite drop_ge; [done|]. unfold len in *. lia. }
  set (e := Z.min (off + frame_payload_cap ch) (len bytes)). cbn [frames_from].
  rewrite slice_ok, bind_ok by (unfold e; lia). set (p := take _ _).
  assert (Hlen : len p = e - off).
  { unfold p. rewrite len_take; [done|]. rewrite len_drop by lia. unfold e. lia. }
  assert (Hp : p <> []) by (intros E; rewrite E, len_nil in Hlen; unfold e in Hlen; lia).
  rewrite encode_spec. destruct (Z.ltb_spec MAX_FRAME_SIZE (event_body_len (event_data ch p))) as [Hbig|Hfit].
  - exists [], (drop (Z.to_nat off) bytes). rewrite <- (len_drop off bytes) by lia.
    assert (drop (Z.to_nat off) bytes <> []) by (intros E; apply Hp; unfold p; by rewrite E, take_nil).
    split_and!; [unfold yields; by rewrite bool_decide_false|done|]. split; [constructor|]. intros _.
    destruct (piece_fits ch p Hp) as [F|F]; [unfold e in *; lia| |done]. unfold event_fits in F. lia.
  - destruct (IH e) as (pieces & tail & -> & Hc & Hall & Ht); [unfold e; lia|unfold e; lia|].
    exists (p :: pieces), tail. cbn [mbind exec_bind concat]. split_and!.
    + unfold yields. cbn. by rewrite Hlen.
    + rewrite <- app_assoc, Hc. unfold p.
      rewrite <- (take_drop (Z.to_nat (e - off)) (drop (Z.to_nat off) bytes)) at 2. f_equal.
      rewrite drop_drop. f_equal. unfold e. lia.
    + split; [|done]. by constructor.
Qed.

Lemma data_frames_spec ch bytes :
  exists pieces tail, data_frames ch bytes = Ok (yields ch pieces tail)
    /\ concat pieces ++ tail = bytes /\ pieces_ok ch pieces tail.
Proof.
  destruct (frames_from_spec ch bytes (S (Z.to_nat (len bytes))) 0) as (pieces & tail & H); eauto.
  - pose proof (len_nonneg bytes). lia.
  - pose proof (len_nonneg bytes). lia.
Qed.

(** ** Theorems *)

Definition source_bytes (f : DataFrame) : Z := match f with Piece n _ => n | Residual n => n end.
Definition frame_bytes (f : DataFrame) : list byte := match f with Piece _ f => f | Residual _ => [] end.
Definition is_piece (f : DataFrame) : bool := match f with Piece _ _ => true | Residual _ => false end.

(** Every byte of a chunk is accounted for, whatever the channel id: the iterator
    terminates without panicking, its items' byte counts add up to the chunk, and
    a residual can only be its last item. *)
Theorem frames_account_for_chunk ch bytes :
  exists items, data_frames ch bytes = Ok items
    /\ foldr (fun f n => source_bytes f + n) 0 items = len bytes
    /\ forall i f, items !! i = Some f -> is_piece f = false -> S i = length items.
Proof.
  destruct (data_frames_spec ch bytes) as (pieces & tail & -> & <- & _). eexists. split; [done|]. split.
  - unfold yields. induction pieces as [|p ps IH]; cbn.
    + case_bool_decide as E; [by rewrite E|]. cbn. lia.
    + rewrite IH, <- app_assoc, (len_app p). done.
  - intros i f Hi Hf. unfold yields in *. rewrite length_app. apply lookup_app_Some in Hi as [Hi|[Hge Hi]].
    + apply list_lookup_fmap_Some in Hi as (p & -> & _). done.
    + revert Hi. case_bool_decide; [done|]. intros Hi%lookup_lt_Some. cbn in *. lia.
Qed.

(** A chunk survives the wire. For a channel id the configuration accepts, a
    chunk of any length is cut without residual, and however the transport cuts
    the frames again, the peer's reader emits data events of that channel alone,
    none of them empty, whose payloads are the chunk. *)
Theorem chunk_survives_wire ch bytes reads :
  is_str ch -> slen ch <= MAX_NAME_LEN ->
  (items ← data_frames ch bytes; Ok (concat (frame_bytes <$> items))) = Ok (concat reads) ->
  exists pieces d,
    read_stream reads decoder_new = Some (event_data ch <$> pieces, NeedMore, d)
    /\ concat pieces = bytes /\ Forall (.≠ []) pieces.
Proof.
  intros Hs Hl. destruct (data_frames_spec ch bytes) as (pieces & tail & -> & Hc & Hall & Ht).
  assert (tail = []) as ->.
  { destruct (decide (tail = [])) as [E|E]; [done|]. apply Ht in E. unfold MAX_NAME_LEN, MAX_FRAME_SIZE in *. lia. }
  unfold yields. rewrite bool_decide_true, app_nil_r, bind_ok by done. intros [= E].
  destruct (read_stream_decodes (event_data ch <$> pieces) reads decoder_new) as (d & Hd & _ & _).
  - apply Forall_fmap. eapply Forall_impl; [exact Hall|]. intros p [_ Hf]. split; [|done]. by split.
  - done.
  - cbn. rewrite <- E. f_equal. clear. induction pieces as [|p ps IH]; cbn; [done|by rewrite <- IH].
  - done.
  - exists pieces, d. rewrite app_nil_r in Hc. split_and!; [done|done|].
    eapply Forall_impl; [exact Hall|]. by intros p [? _].
Qed.

(** ** Witnesses *)

Definition demo_chunk : list byte := replicate (Z.to_nat 70000) x41.

Lemma chunk_survives_wire_witness :
  exists pieces d,
    read_stream [concat (frame_bytes <$> match data_frames "console" demo_chunk with Ok i => i | _ => [] end)]
      decoder_new = Some (event_data "console" <$> pieces, NeedMore, d)
    /\ concat pieces = demo_chunk /\ Forall (.≠ []) pieces.
Proof.
  apply chunk_survives_wire; [by vm_compute|by vm_compute|].
  destruct (data_frames_spec "console" demo_chunk) as (? & ? & -> & _). cbn. by rewrite app_nil_r.
Defined.
