(* ===== verification/Channel.v ===== *)
(** * Bounded channels

    What the daemon relies on of the bounded multi-producer channel of its async
    runtime, a third-party library: operations as a class, its documented behaviour
    as laws, and a queue that satisfies them for the concrete runs.  Everything built
    on channels is proved against the laws. *)

From S2P Require Import Prelude.

(** The depth of every data channel of the daemon, and the most one read takes (runtime.rs). *)
Definition CHANNEL_CAP : Z := 256.
Definition READ_BUF : Z := 64 * 1024.

(** Poll intervals of a boundary, in microseconds, and the wait after an idle one. *)
Definition ACTIVE_POLL : Z := 200.
Definition IDLE_POLL : Z := 5000.
Definition back_off (wait : Z) : Z := Z.min (wait * 2) IDLE_POLL.

Inductive TrySend := SendOk | SendFull | SendClosed.

#[export] Instance try_send_eq_dec : EqDecision TrySend.
Proof. solve_decision. Defined.

(** [contents] is what the receiver has still to take, oldest first; [rx_open] is
    whether the receiver exists. *)
Class Mpsc (C : Type -> Type) : Type := {
  channel : forall {T}, Z -> C T;
  contents : forall {T}, C T -> list T;
  rx_open : forall {T}, C T -> bool;
  capacity : forall {T}, C T -> Z;
  try_send : forall {T}, C T -> T -> TrySend * C T;
  try_recv : forall {T}, C T -> option T * C T;
  drop_rx : forall {T}, C T -> C T }.

(** A channel can be full below its capacity: permits are reserved for senders that
    are suspended. *)
Class MpscLaws (C : Type -> Type) `{Mpsc C} : Prop := {
  channel_spec : forall T n, 0 < n ->
    contents (channel (T := T) n) = [] /\ rx_open (channel (T := T) n) = true
    /\ capacity (channel (T := T) n) = n;
  try_send_spec : forall T (c : C T) x,
    match try_send c x with
    | (SendOk, c') => rx_open c = true /\ len (contents c) < capacity c
                      /\ contents c' = contents c ++ [x] /\ rx_open c' = true /\ capacity c' = capacity c
    | (SendFull, c') => rx_open c = true /\ c' = c
    | (SendClosed, c') => rx_open c = false /\ c' = c
    end;
  try_recv_spec : forall T (c : C T),
    match contents c with
    | [] => try_recv c = (None, c)
    | x :: q => (try_recv c).1 = Some x /\ contents (try_recv c).2 = q
                /\ rx_open (try_recv c).2 = rx_open c /\ capacity (try_recv c).2 = capacity c
    end;
  drop_rx_spec : forall T (c : C T), rx_open (drop_rx c) = false /\ contents (drop_rx c) = [] }.

(** ** A bounded queue *)

Record Bounded (T : Type) := mkBounded { b_cap : Z; b_items : list T; b_open : bool }.
Arguments mkBounded {T} _ _ _.
Arguments b_cap {T} _.
Arguments b_items {T} _.
Arguments b_open {T} _.

#[export] Instance bounded_mpsc : Mpsc Bounded := {
  channel := fun T n => mkBounded n [] true;
  contents := fun T c => b_items c;
  rx_open := fun T c => b_open c;
  capacity := fun T c => b_cap c;
  try_send := fun T c x =>
    if negb (b_open c) then (SendClosed, c)
    else if len (b_items c) <? b_cap c then (SendOk, mkBounded (b_cap c) (b_items c ++ [x]) true)
    else (SendFull, c);
  try_recv := fun T c =>
    match b_items c with
    | [] => (None, c)
    | x :: q => (Some x, mkBounded (b_cap c) q (b_open c))
    end;
  drop_rx := fun T c => mkBounded (b_cap c) [] false }.

#[export] Instance bounded_laws : MpscLaws Bounded.
Proof.
  split; cbn; try done.
  - intros T [n q []] x; cbn; [|done]. destruct (Z.ltb_spec (len q) n); done.
  - intros T [n q o]. cbn. by destruct q.
Qed.

(** ** Sums over what a channel holds *)

Section sums.
Context {T : Type} (size : T -> Z).

Definition total (xs : list T) : Z := foldr (fun x n => size x + n) 0 xs.

Lemma total_nil : total [] = 0.
Proof. done. Qed.

Lemma total_cons x xs : total (x :: xs) = size x + total xs.
Proof. done. Qed.

Lemma total_app xs ys : total (xs ++ ys) = total xs + total ys.
Proof. unfold total in *. induction xs as [|x xs IH]; cbn in *; lia. Qed.

Lemma total_nonneg xs : (forall x, 0 <= size x) -> 0 <= total xs.
Proof. intros H. unfold total. induction xs as [|x xs IH]; cbn; [lia|]. specialize (H x). lia. Qed.
End sums.
Arguments total : simpl never.
#[export] Hint Rewrite @total_nil @total_cons @total_app : snx_len.

(** The [while let Ok(item) = rx.try_recv()] loop; a channel of [n] items is
    exhausted after [n] turns and the failing one. *)
Section drain.
Context {C : Type -> Type} `{MpscLaws C} {T : Type}.

Fixpoint drain_loop (fuel : nat) (c : C T) : list T * C T :=
  match fuel with
  | O => ([], c)
  | S fuel =>
      match try_recv c with
      | (Some x, c) => let '(xs, c) := drain_loop fuel c in (x :: xs, c)
      | (None, c) => ([], c)
      end
  end.

Definition drain_all (c : C T) : list T * C T := drain_loop (S (length (contents c))) c.

Lemma drain_loop_spec fuel c :
  (length (contents c) < fuel)%nat ->
  (drain_loop fuel c).1 = contents c /\ contents (drain_loop fuel c).2 = []
  /\ rx_open (drain_loop fuel c).2 = rx_open c /\ capacity (drain_loop fuel c).2 = capacity c.
Proof.
  revert c. induction fuel as [|fuel IH]; intros c Hf; [lia|]. cbn [drain_loop].
  pose proof (try_recv_spec T c) as R. destruct (contents c) as [|x q] eqn:E.
  - rewrite R. cbn. by rewrite E.
  - destruct (try_recv c) as [o c']. cbn in R. destruct R as (-> & Hq & Ho & Hc).
    destruct (IH c') as (I1 & I2 & I3 & I4). { rewrite Hq. cbn in Hf. lia. }
    destruct (drain_loop fuel c') as [xs c'']. cbn in *. split_and!; congruence.
Qed.

Lemma drain_all_spec c :
  (drain_all c).1 = contents c /\ contents (drain_all c).2 = []
  /\ rx_open (drain_all c).2 = rx_open c /\ capacity (drain_all c).2 = capacity c.
Proof. apply drain_loop_spec. lia. Qed.
End drain.
