(* ===== verification/Inbox.v ===== *)
(** * Targetward queues (daemon/src/runtime.rs)

    [TargetwardInbox], [TeardownLoss], the purge on reconnect and the two handoffs.
    A node's queues live with everything that acts on them: the writers that fill them
    (suspended in [send().await] when a queue is full), the pump that takes one chunk
    at a time, the purge, and the teardown that takes the queues away.  The daemon is
    single-threaded, so these interleave only between the steps below.  Byte counters
    that no run of the daemon can overflow ([+=] on [u64], at line rate) are integers. *)

From S2P Require Import Prelude Channel.

Abbreviation Chunk := (list byte) (only parsing).

(** Bytes a queued item represents: a [u64]. *)
Class TeardownBytes (T : Type) : Type := {
  teardown_bytes : T -> Z;
  teardown_bytes_nonneg : forall x, 0 <= teardown_bytes x }.
#[export] Instance chunk_bytes : TeardownBytes (list byte) := {
  teardown_bytes := fun c => len c; teardown_bytes_nonneg := len_nonneg }.

(** The leg's queue tags each chunk with the connection it came from. *)
Record Inbound := mkInbound { in_epoch : Z; in_bytes : list byte }.
#[export] Instance inbound_bytes : TeardownBytes Inbound := {
  teardown_bytes := fun i => len (in_bytes i); teardown_bytes_nonneg := fun i => len_nonneg (in_bytes i) }.

Definition PURGE_ROUNDS : nat := 3.

(** [Poll<Option<T>>] of the pump's receive. *)
Inductive Poll (T : Type) := Pending | Ready (o : option T).
Arguments Pending {T}.
Arguments Ready {T} _.

Section inbox.
Context {C : Type -> Type} `{MpscLaws C} {T : Type} `{TeardownBytes T}.

(** ** Operations *)

Record TargetwardInbox := mkInbox { slot : option (C T); held : Z }.

Definition inbox_new (rx : C T) : TargetwardInbox := mkInbox (Some rx) 0.

Definition settle_held (i : TargetwardInbox) : TargetwardInbox := mkInbox (slot i) 0.

(** [senders] is whether a sender is left, on which an empty channel's answer depends. *)
Definition poll_recv (senders : bool) (i : TargetwardInbox) : Poll T * TargetwardInbox :=
  match slot i with
  | Some rx =>
      match try_recv rx with
      | (Some item, rx) => (Ready (Some item), mkInbox (Some rx) (teardown_bytes item))
      | (None, rx) => (if senders then Pending else Ready None, mkInbox (Some rx) (held i))
      end
  | None => (Ready None, i)
  end.

(** One poll of [recv] from its start. *)
Definition recv (senders : bool) (i : TargetwardInbox) : Poll T * TargetwardInbox :=
  poll_recv senders (settle_held i).

(** One round of [purge_to_quiescence]: bytes, whether anything was drained. *)
Definition purge_round (i : TargetwardInbox) : (Z * bool) * TargetwardInbox :=
  match slot i with
  | None => ((0, false), i)
  | Some rx =>
      let '(items, rx) := drain_all rx in
      ((total teardown_bytes items, bool_decide (items <> [])), mkInbox (Some rx) (held i))
  end.

Definition drain_and_count (i : TargetwardInbox) : Z * TargetwardInbox :=
  let queued := match slot i with
                | Some rx => total teardown_bytes (drain_all rx).1
                | None => 0
                end in
  (queued + held i, mkInbox None 0).

(** ** The queue and who acts on it *)

(** [writers]: items inside a suspended [send().await], first come first served.
    [hand]: the item the pump took and has not disposed of.  [accepted] counts the
    bytes the queue took, [refused] those whose send failed; [delivered], [charged] and
    [purged] are the pump's and the purge's counters.  [uncharged] is a history, of the bytes a
    pump let go on no counter: not every pump charges what it fails to deliver (a serial
    write that fails, an exec item its child died in). *)
Record Lane := mkLane {
  inbox : TargetwardInbox; writers : list T; hand : option T;
  accepted : Z; refused : Z; delivered : Z; charged : Z; purged : Z; uncharged : Z }.

Definition lane_new (depth : Z) : Lane := mkLane (inbox_new (channel depth)) [] None 0 0 0 0 0 0.

Definition set_inbox (i : TargetwardInbox) (l : Lane) : Lane :=
  mkLane i (writers l) (hand l) (accepted l) (refused l) (delivered l) (charged l) (purged l) (uncharged l).
Definition set_writers (ws : list T) (l : Lane) : Lane :=
  mkLane (inbox l) ws (hand l) (accepted l) (refused l) (delivered l) (charged l) (purged l) (uncharged l).
Definition set_hand (h : option T) (l : Lane) : Lane :=
  mkLane (inbox l) (writers l) h (accepted l) (refused l) (delivered l) (charged l) (purged l) (uncharged l).

(** A send of [x] resolves, or [None]: it has to wait. *)
Definition attempt_send (x : T) (l : Lane) : option Lane :=
  let n := teardown_bytes x in
  let refuse := mkLane (inbox l) (writers l) (hand l) (accepted l) (refused l + n)
                       (delivered l) (charged l) (purged l) (uncharged l) in
  match slot (inbox l) with
  | None => Some refuse
  | Some rx =>
      match try_send rx x with
      | (SendOk, rx) =>
          Some (mkLane (mkInbox (Some rx) (held (inbox l))) (writers l) (hand l) (accepted l + n)
                       (refused l) (delivered l) (charged l) (purged l) (uncharged l))
      | (SendFull, _) => None
      | (SendClosed, _) => Some refuse
      end
  end.

(** Charge a purge round. *)
Definition purge_lane (l : Lane) : bool * Lane :=
  let '((bytes, drained_any), i) := purge_round (inbox l) in
  (drained_any,
   mkLane i (writers l) (hand l) (accepted l) (refused l) (delivered l) (charged l)
          (if 0 <? bytes then purged l + bytes else purged l) (uncharged l)).

Inductive LaneOp :=
| LSend (x : T)
| LResume
| LRecv (senders : bool)
| LSettle
| LDeliver
| LCharge
| LDrop
| LPurge.

(** One step; an operation the pump cannot perform now changes nothing. *)
Definition lane_step (op : LaneOp) (l : Lane) : Lane :=
  match op with
  | LSend x => default (set_writers (writers l ++ [x]) l) (attempt_send x l)
  | LResume =>
      match writers l with
      | x :: ws => default l (attempt_send x (set_writers ws l))
      | [] => l
      end
  | LRecv senders =>
      match hand l with
      | None => let '(p, i) := recv senders (inbox l) in
                set_hand (match p with Ready o => o | Pending => None end) (set_inbox i l)
      | Some _ => l
      end
  | LSettle => match hand l with None => set_inbox (settle_held (inbox l)) l | Some _ => l end
  | LDeliver =>
      match hand l with
      | Some x => mkLane (inbox l) (writers l) None (accepted l) (refused l)
                         (delivered l + teardown_bytes x) (charged l) (purged l) (uncharged l)
      | None => l
      end
  | LCharge =>
      match hand l with
      | Some x => mkLane (inbox l) (writers l) None (accepted l) (refused l)
                         (delivered l) (charged l + teardown_bytes x) (purged l) (uncharged l)
      | None => l
      end
  | LDrop =>
      match hand l with
      | Some x => mkLane (inbox l) (writers l) None (accepted l) (refused l)
                         (delivered l) (charged l) (purged l) (uncharged l + teardown_bytes x)
      | None => l
      end
  | LPurge => (purge_lane l).2
  end.

(** [purge_to_quiescence]; [yields] is what runs during each [yield_now]. *)
Fixpoint purge_rounds (k : nat) (yields : list (list LaneOp)) (l : Lane) : Lane :=
  match k with
  | O => l
  | S k =>
      let '(drained_any, l) := purge_lane l in
      if drained_any : bool
      then purge_rounds k (tail yields) (foldl (fun l op => lane_step op l) l (default [] (head yields)))
      else l
  end.

Definition purge_to_quiescence (yields : list (list LaneOp)) (l : Lane) : Lane :=
  purge_rounds PURGE_ROUNDS yields l.

(** ** A node *)

(** The watched queues of one node and [TeardownLoss::bytes]. *)
Record NodeQueues := mkNode { lanes : list Lane; td_bytes : Z }.

Definition node_new : NodeQueues := mkNode [] 0.

(** [TeardownLoss::watch]. *)
Definition watch (depth : Z) (n : NodeQueues) : NodeQueues :=
  mkNode (lanes n ++ [lane_new depth]) (td_bytes n).

(** [TeardownLoss::drain]. *)
Definition td_drain (n : NodeQueues) : NodeQueues :=
  let drained := (fun l => drain_and_count (inbox l)) <$> lanes n in
  let lost := foldr (fun p s => p.1 + s) 0 drained in
  mkNode (zip_with (fun l p => set_inbox p.2 l) (lanes n) drained)
         (if 0 <? lost then u64_saturating_add (td_bytes n) lost else td_bytes n).

(** [signal_stop] of a node: drain, then abort the pumps, whose chunks die with
    them. *)
Definition signal_stop (n : NodeQueues) : NodeQueues :=
  let n := td_drain n in mkNode (set_hand None <$> lanes n) (td_bytes n).

Inductive NodeOp := NWatch (depth : Z) | NLane (i : nat) (op : LaneOp) | NStop.

Definition node_step (op : NodeOp) (n : NodeQueues) : NodeQueues :=
  match op with
  | NWatch depth => watch depth n
  | NLane i op => mkNode (alter (lane_step op) i (lanes n)) (td_bytes n)
  | NStop => signal_stop n
  end.

Definition node_run (ops : list NodeOp) (n : NodeQueues) : NodeQueues := foldl (fun n op => node_step op n) n ops.

(** ** Lemmas *)

Abbreviation size := (teardown_bytes (T := T)) (only parsing).

Definition hand_bytes (l : Lane) : Z := match hand l with Some x => size x | None => 0 end.
Definition queued_bytes (l : Lane) : Z :=
  match slot (inbox l) with Some rx => total size (contents rx) | None => 0 end.

(** Accepted, and neither on a counter nor let go without one. *)
Definition undisposed (l : Lane) : Z := accepted l - delivered l - charged l - purged l - uncharged l.

(** [held] while the pump is between disposing of a chunk and its next receive. *)
Definition idle_held (l : Lane) : Z := match hand l with Some _ => 0 | None => held (inbox l) end.

(** A running lane whose items are at most [M] bytes. *)
Record lane_ok (M : Z) (l : Lane) : Prop := {
  lo_live : exists rx, slot (inbox l) = Some rx /\ Forall (fun x => size x <= M) (contents rx);
  lo_writers : Forall (fun x => size x <= M) (writers l);
  lo_bytes : undisposed l = queued_bytes l + hand_bytes l;
  lo_counts : 0 <= delivered l /\ 0 <= charged l /\ 0 <= purged l /\ 0 <= uncharged l;
  lo_held : 0 <= held (inbox l) <= M;
  lo_hand : forall x, hand l = Some x -> held (inbox l) = size x }.

Record lane_stopped (l : Lane) : Prop := {
  ls_slot : slot (inbox l) = None;
  ls_hand : hand l = None;
  ls_held : held (inbox l) = 0 }.

Definition op_small (M : Z) (op : LaneOp) : Prop := match op with LSend x => size x <= M | _ => True end.

Lemma attempt_send_ok M x l l' :
  lane_ok M l -> size x <= M -> attempt_send x l = Some l' -> lane_ok M l'.
Proof.
  intros [[rx [Hs Hc]] Hw Hb Hn Hh Hd] Hx. unfold attempt_send, undisposed, queued_bytes, hand_bytes in *.
  rewrite Hs in *. pose proof (try_send_spec T rx x) as R.
  destruct (try_send rx x) as [[] rx']; intros [= <-].
  - destruct R as (_ & _ & Hq & _). split; cbn; try done.
    + exists rx'. split; [done|]. rewrite Hq. apply Forall_app. split; [done|by constructor].
    + unfold undisposed, queued_bytes, hand_bytes. cbn. rewrite Hq. len_lia.
  - split; cbn; unfold undisposed, queued_bytes, hand_bytes; cbn; rewrite ?Hs; eauto.
Qed.

Lemma set_writers_ok M ws l : lane_ok M l -> Forall (fun x => size x <= M) ws -> lane_ok M (set_writers ws l).
Proof. intros [] Hw. by split. Qed.

Lemma purge_lane_spec l rx :
  slot (inbox l) = Some rx ->
  exists rx', contents rx' = [] /\ rx_open rx' = rx_open rx
    /\ purge_lane l = (bool_decide (contents rx <> []),
         mkLane (mkInbox (Some rx') (held (inbox l))) (writers l) (hand l) (accepted l) (refused l)
                (delivered l) (charged l) (purged l + total size (contents rx)) (uncharged l)).
Proof.
  intros Hs. unfold purge_lane, purge_round. rewrite Hs. destruct (drain_all_spec rx) as (D1 & D2 & D3 & _).
  destruct (drain_all rx) as [items rx']. cbn in *. subst items. exists rx'. split_and!; try done.
  repeat f_equal. pose proof (total_nonneg size (contents rx) teardown_bytes_nonneg).
  destruct (Z.ltb_spec 0 (total size (contents rx))); lia.
Qed.

Lemma recv_ok M senders l :
  lane_ok M l -> lane_ok M (lane_step (LRecv senders) l).
Proof.
  intros [[rx [Hs Hc]] Hw Hb Hn Hh Hd]. cbn. destruct (hand l) as [x|] eqn:Eh; [by split; eauto; rewrite Eh|].
  unfold recv, poll_recv, settle_held. cbn. rewrite Hs. unfold undisposed, queued_bytes, hand_bytes in Hb.
  rewrite Hs, Eh in Hb. pose proof (try_recv_spec T rx) as R. destruct (contents rx) as [|x q] eqn:Eq.
  - rewrite R. assert (lane_ok M (set_hand None (set_inbox (mkInbox (Some rx) 0) l))) as O.
    { split; cbn; try done; [exists rx; by rewrite Eq| |lia].
      unfold undisposed, queued_bytes, hand_bytes. cbn. rewrite Eq. done. }
    by destruct senders.
  - destruct (try_recv rx) as [o rx']. cbn in R. destruct R as (-> & Hq & _). apply Forall_cons in Hc as [Hx Hc].
    split; cbn; try done.
    + exists rx'. by rewrite Hq.
    + unfold undisposed, queued_bytes, hand_bytes. cbn. rewrite Hq. len_lia.
    + pose proof (teardown_bytes_nonneg x). lia.
    + intros y [= <-]. done.
Qed.

Lemma lane_step_ok M op l : lane_ok M l -> op_small M op -> lane_ok M (lane_step op l).
Proof.
  intros O Hop. destruct op as [x| |senders| | | | |]; cbn [lane_step].
  - destruct (attempt_send x l) as [l'|] eqn:E; cbn; [by eapply attempt_send_ok|].
    apply set_writers_ok; [done|]. apply Forall_app. split; [apply O|by constructor].
  - destruct (writers l) as [|x ws] eqn:Ew; [done|].
    pose proof (lo_writers _ _ O) as Hw. rewrite Ew in Hw. apply Forall_cons in Hw as [Hx Hw].
    destruct (attempt_send x (set_writers ws l)) as [l'|] eqn:E; cbn; [|done].
    eapply attempt_send_ok; [|done|done]. by apply set_writers_ok.
  - by apply recv_ok.
  - destruct (hand l) as [x|] eqn:Eh; [done|]. destruct O. split; cbn; try done; [lia|]. by rewrite Eh.
  - destruct (hand l) as [x|] eqn:Eh; [|done]. destruct O. pose proof (teardown_bytes_nonneg x). split; cbn; try done; [|lia].
    unfold undisposed, queued_bytes, hand_bytes in *. cbn. rewrite Eh in *. lia.
  - destruct (hand l) as [x|] eqn:Eh; [|done]. destruct O. pose proof (teardown_bytes_nonneg x). split; cbn; try done; [|lia].
    unfold undisposed, queued_bytes, hand_bytes in *. cbn. rewrite Eh in *. lia.
  - destruct (hand l) as [x|] eqn:Eh; [|done]. destruct O. pose proof (teardown_bytes_nonneg x). split; cbn; try done; [|lia].
    unfold undisposed, queued_bytes, hand_bytes in *. cbn. rewrite Eh in *. lia.
  - destruct O as [[rx [Hs Hc]] Hw Hb Hn Hh Hd]. destruct (purge_lane_spec l rx Hs) as (rx' & Hq & _ & ->).
    unfold undisposed, queued_bytes, hand_bytes in *. rewrite Hs in Hb.
    pose proof (total_nonneg size (contents rx) teardown_bytes_nonneg).
    split; cbn; try done; [exists rx'; by rewrite Hq| |lia]. unfold undisposed, queued_bytes, hand_bytes. cbn.
    rewrite Hq. len_lia.
Qed.

Lemma lane_step_stopped op l :
  lane_stopped l -> lane_stopped (lane_step op l) /\ undisposed (lane_step op l) = undisposed l
    /\ accepted (lane_step op l) = accepted l.
Proof.
  intros [Hs Hd Hh]. destruct op as [x| |senders| | | | |]; cbn.
  - unfold attempt_send. rewrite Hs. by split_and!.
  - destruct (writers l) as [|x ws]; [by split_and!|]. unfold attempt_send. cbn. rewrite Hs. by split_and!.
  - rewrite Hd. unfold recv, poll_recv. cbn. rewrite Hs. by split_and!.
  - rewrite Hd. by split_and!.
  - rewrite Hd. by split_and!.
  - rewrite Hd. by split_and!.
  - rewrite Hd. by split_and!.
  - unfold purge_lane, purge_round. rewrite Hs. by split_and!.
Qed.

(** *** Stopping a node *)

Lemma drain_count M l :
  lane_ok M l ->
  (drain_and_count (inbox l)).1 = undisposed l + idle_held l
  /\ lane_stopped (set_hand None (set_inbox (drain_and_count (inbox l)).2 l)).
Proof.
  intros [[rx [Hs Hc]] Hw Hb Hn Hh Hd]. split; [|by split]. unfold drain_and_count, idle_held. cbn [fst].
  rewrite Hb. unfold queued_bytes, hand_bytes. rewrite Hs. destruct (drain_all_spec rx) as (-> & _).
  destruct (hand l) as [x|]; [rewrite (Hd x eq_refl)|]; lia.
Qed.

Definition stop_lane (l : Lane) : Lane := set_hand None (set_inbox (drain_and_count (inbox l)).2 l).

Lemma signal_stop_lanes n : lanes (signal_stop n) = stop_lane <$> lanes n.
Proof.
  unfold signal_stop, td_drain. cbn. induction (lanes n) as [|l ls IH]; cbn; [done|]. by rewrite IH.
Qed.

Lemma signal_stop_bytes n :
  let lost := total (fun l => (drain_and_count (inbox l)).1) (lanes n) in
  td_bytes (signal_stop n) = if 0 <? lost then u64_saturating_add (td_bytes n) lost else td_bytes n.
Proof.
  intros lost. unfold signal_stop, td_drain. cbn [td_bytes].
  replace (foldr _ 0 _) with lost; [done|]. subst lost.
  induction (lanes n) as [|l ls IH]; [done|]. by rewrite total_cons, fmap_cons, IH.
Qed.

(** A running node: nothing destroyed yet. *)
Definition node_ok (M : Z) (n : NodeQueues) : Prop := Forall (lane_ok M) (lanes n) /\ td_bytes n = 0.

Definition nop_small (M : Z) (op : NodeOp) : Prop :=
  match op with NWatch depth => 0 < depth | NLane _ op => op_small M op | NStop => True end.

Lemma lane_new_ok M depth : 0 <= M -> 0 < depth -> lane_ok M (lane_new depth).
Proof.
  intros HM Hd. destruct (channel_spec T depth Hd) as (E & _). split; cbn; try done.
  - eexists. split; [done|]. by rewrite E.
  - unfold undisposed, queued_bytes, hand_bytes. cbn. by rewrite E.
Qed.

Lemma node_run_ok M ops n :
  0 <= M -> Forall (nop_small M) ops -> Forall (.≠ NStop) ops -> node_ok M n -> node_ok M (node_run ops n).
Proof.
  intros HM. revert n. induction ops as [|op ops IH]; intros n Hs Hn O; [done|].
  apply Forall_cons in Hs as [Ho Hs]. apply Forall_cons in Hn as [Hno Hn]. cbn [node_run foldl].
  apply IH; try done. destruct O as [O E]. destruct op as [depth|i op|]; [| |done]; (split; [|done]); cbn.
  - apply Forall_app. split; [done|]. constructor; [by apply lane_new_ok|done].
  - apply Forall_alter; [done|]. intros l _ Hl. by apply lane_step_ok.
Qed.

Lemma total_ext {A} (f g : A -> Z) xs : Forall (fun x => f x = g x) xs -> total f xs = total g xs.
Proof. induction 1 as [|x xs E _ IH]; [done|]. by rewrite !total_cons, E, IH. Qed.

Lemma total_plus {A} (f g : A -> Z) xs : total (fun x => f x + g x) xs = total f xs + total g xs.
Proof. induction xs as [|x xs IH]; [done|]. rewrite !total_cons, IH. lia. Qed.

Lemma total_fmap {A B} (f : B -> Z) (g : A -> B) xs : total f (g <$> xs) = total (fun x => f (g x)) xs.
Proof. induction xs as [|x xs IH]; [done|]. by rewrite fmap_cons, !total_cons, IH. Qed.

Lemma total_alter {A} (f : A -> Z) (g : A -> A) (P : A -> Prop) i xs :
  Forall P xs -> (forall x, P x -> f (g x) = f x) -> total f (alter g i xs) = total f xs.
Proof.
  intros HP Hg. revert i. induction HP as [|x xs Hx HP IH]; intros [|i]; cbn; try done.
  - by rewrite !total_cons, Hg.
  - by rewrite !total_cons, IH.
Qed.

(** A stopped node only refuses. *)
Lemma node_run_stopped ops n :
  Forall (fun op => match op with NWatch _ => False | _ => True end) ops -> Forall lane_stopped (lanes n) ->
  total undisposed (lanes (node_run ops n)) = total undisposed (lanes n)
  /\ total accepted (lanes (node_run ops n)) = total accepted (lanes n)
  /\ td_bytes (node_run ops n) = td_bytes n.
Proof.
  revert n. induction ops as [|op ops IH]; intros n Hw Hs; [done|]. apply Forall_cons in Hw as [Hop Hw].
  assert (Forall lane_stopped (lanes (node_step op n))
    /\ total undisposed (lanes (node_step op n)) = total undisposed (lanes n)
    /\ total accepted (lanes (node_step op n)) = total accepted (lanes n)
    /\ td_bytes (node_step op n) = td_bytes n) as (S1 & S2 & S3 & S4).
  { destruct op as [|i op|]; [done| |]; cbn [node_step].
    - cbn. split_and!; [|eapply total_alter; [done|]; intros l Hl; by apply lane_step_stopped
                        |eapply total_alter; [done|]; intros l Hl; by apply lane_step_stopped|done].
      apply Forall_alter; [done|]. intros l _ Hl. by apply lane_step_stopped.
    - rewrite signal_stop_lanes, signal_stop_bytes, !total_fmap.
      assert (total (fun l => (drain_and_count (inbox l)).1) (lanes n) = 0) as ->.
      { clear -Hs. induction Hs as [|l ls [L1 L2 L3] _ IH]; [done|]. rewrite total_cons, IH.
        unfold drain_and_count. rewrite L1, L3. done. }
      split_and!; try done. apply Forall_fmap. eapply Forall_impl; [done|]. by intros l [].  }
  change (node_run (op :: ops) n) with (node_run ops (node_step op n)).
  destruct (IH (node_step op n) Hw S1) as (-> & -> & ->). done.
Qed.

(** The over-report of a teardown: the chunks just disposed of. *)
Definition over_report (n : NodeQueues) : Z := total idle_held (lanes n).

Lemma over_report_bound M n : Forall (lane_ok M) (lanes n) -> 0 <= over_report n <= M * len (lanes n).
Proof.
  unfold over_report. induction 1 as [|l ls [] _ IH]; [unfold total, len; cbn; lia|].
  rewrite total_cons, len_cons. assert (0 <= idle_held l <= M) by (unfold idle_held; destruct (hand l); lia). lia.
Qed.

Lemma stop_total M n :
  node_ok M n -> total undisposed (lanes n) + over_report n <= u64_max ->
  td_bytes (signal_stop n) = total undisposed (lanes n) + over_report n
  /\ Forall lane_stopped (lanes (signal_stop n))
  /\ total undisposed (lanes (signal_stop n)) = total undisposed (lanes n)
  /\ total accepted (lanes (signal_stop n)) = total accepted (lanes n).
Proof.
  intros [O E] Hmax. rewrite signal_stop_bytes, signal_stop_lanes, !total_fmap, E.
  assert (total (fun l => (drain_and_count (inbox l)).1) (lanes n) = total undisposed (lanes n) + over_report n) as ->.
  { unfold over_report. rewrite <- total_plus. apply total_ext. eapply Forall_impl; [done|]. intros l Hl.
    by eapply drain_count. }
  split_and!; try done.
  - unfold u64_saturating_add. destruct (Z.ltb_spec 0 (total undisposed (lanes n) + over_report n)); [lia|].
    assert (0 <= total undisposed (lanes n)).
    { clear -O. induction O as [|l ls [] _ IH]; [done|]. rewrite total_cons, lo_bytes0.
      destruct lo_live0 as (rx & Hs & _). unfold queued_bytes, hand_bytes. rewrite Hs.
      pose proof (total_nonneg size (contents rx) teardown_bytes_nonneg).
      destruct (hand l) as [x|]; [pose proof (teardown_bytes_nonneg x)|]; lia. }
    pose proof (over_report_bound M n O). lia.
  - apply Forall_fmap. eapply Forall_impl; [done|]. intros l Hl. by eapply drain_count.
Qed.

Lemma total_undisposed ls :
  total undisposed ls
  = total accepted ls - total delivered ls - total charged ls - total purged ls - total uncharged ls.
Proof. induction ls as [|l ls IH]; [done|]. rewrite !total_cons, IH. unfold undisposed. lia. Qed.

(** *** The purge *)

(** While suspended senders resolve, and nothing else runs, no byte appears or goes. *)
Lemma resume_spec ops l rx :
  Forall (fun op => op = LResume) ops -> slot (inbox l) = Some rx -> rx_open rx = true ->
  let l' := foldl (fun l op => lane_step op l) l ops in
  exists rx', slot (inbox l') = Some rx' /\ rx_open rx' = true /\ purged l' = purged l
    /\ total size (contents rx') + total size (writers l') = total size (contents rx) + total size (writers l)
    /\ (writers l = [] -> l' = l).
Proof.
  intros Hall. revert l rx. induction Hall as [|op ops -> Hall IH]; intros l rx Hs Ho; cbn [foldl].
  { exists rx. done. }
  cbn [lane_step]. destruct (writers l) as [|x ws] eqn:Ew.
  { destruct (IH l rx Hs Ho) as (rx' & H' & Ho' & Hp & Ht & Hw). rewrite Ew in *. exists rx'. split_and!; auto. }
  unfold attempt_send. cbn. rewrite Hs. pose proof (try_send_spec T rx x) as R.
  destruct (try_send rx x) as [[] rx1]; cbn.
  - destruct R as (_ & _ & Hq & Ho1 & _).
    edestruct (IH (mkLane (mkInbox (Some rx1) (held (inbox l))) ws (hand l) (accepted l + size x)
                    (refused l) (delivered l) (charged l) (purged l) (uncharged l)) rx1)
      as (rx' & H' & Ho' & Hp & Ht & _); [done|done|].
    exists rx'. split_and!; try done. rewrite Ht, Hq. cbn. len_lia.
  - destruct (IH l rx Hs Ho) as (rx' & H' & Ho' & Hp & Ht & Hw). rewrite Ew in *. exists rx'. done.
  - destruct R as [R _]. congruence.
Qed.

(** Three purge rounds are enough. When the yields let the suspended senders
    resolve, the purge leaves the queue empty and no sender suspended behind it, and
    every byte that was queued or waiting is on the purge counter. *)
Theorem purge_quiesces (y1 y2 : list LaneOp) l rx :
  slot (inbox l) = Some rx -> rx_open rx = true ->
  (contents rx = [] -> writers l = []) ->
  Forall (fun op => op = LResume) y1 -> Forall (fun op => op = LResume) y2 ->
  writers (foldl (fun l op => lane_step op l) (purge_lane l).2 y1) = [] ->
  let l' := purge_to_quiescence [y1; y2] l in
  queued_bytes l' = 0 /\ writers l' = []
  /\ purged l' = purged l + total size (contents rx) + total size (writers l).
Proof.
  intros Hs Ho Hw Hy1 Hy2 Hr. unfold purge_to_quiescence, PURGE_ROUNDS. cbn [purge_rounds head tail default].
  destruct (purge_lane_spec l rx Hs) as (rx1 & Hq1 & Ho1 & E1). rewrite E1 in *. cbn [snd] in Hr.
  case_bool_decide as Hd.
  2: { specialize (Hw Hd). cbn. unfold queued_bytes. cbn.
       rewrite Hq1, Hw, Hd, !total_nil. split_and!; try done. lia. }
  set (l1 := mkLane _ _ _ _ _ _ _ _ _) in *.
  destruct (resume_spec y1 l1 rx1 Hy1 eq_refl (eq_trans Ho1 Ho)) as (rx2 & Hs2 & Ho2 & Hp2 & Ht2 & _).
  rewrite Hr, Hq1, !total_nil in Ht2. cbn in Ht2, Hp2. cbn [from_option id].
  set (l2 := foldl _ l1 y1) in *. destruct (purge_lane_spec l2 rx2 Hs2) as (rx3 & Hq3 & Ho3 & ->).
  case_bool_decide as Hd2.
  2: { rewrite Hd2, total_nil in *. cbn. unfold queued_bytes. cbn.
       rewrite Hq3, total_nil, Hr. split_and!; try done. lia. }
  set (l3 := mkLane _ _ _ _ _ _ _ _ _).
  destruct (resume_spec y2 l3 rx3 Hy2 eq_refl (eq_trans Ho3 Ho2)) as (_ & _ & _ & _ & _ & H3).
  rewrite H3 by done. destruct (purge_lane_spec l3 rx3 eq_refl) as (rx4 & Hq4 & _ & ->).
  rewrite bool_decide_false by (rewrite Hq3; naive_solver). cbn. unfold queued_bytes. cbn.
  rewrite Hq3, Hq4, total_nil, Hr. split_and!; try done. lia.
Qed.

(** A step that takes a chunk from a pump's hand puts it on a counter. *)
Definition pump_charges (op : NodeOp) : Prop := match op with NLane _ LDrop => False | _ => True end.

Lemma lane_step_uncharged op l : op <> LDrop -> uncharged (lane_step op l) = uncharged l.
Proof.
  assert (A : forall x l0, uncharged (default l0 (attempt_send x l0)) = uncharged l0
                           /\ forall l', attempt_send x l0 = Some l' -> uncharged l' = uncharged l0).
  { intros x l0. unfold attempt_send. destruct (slot (inbox l0)) as [rx|]; [destruct (try_send rx x) as [[] ?]|];
      (split; [done|]); by intros ? [= <-]. }
  intros Hop. destruct op as [x| |senders| | | | |]; cbn [lane_step]; try done.
  - destruct (attempt_send x l) eqn:E; cbn; [by eapply A|done].
  - destruct (writers l) as [|x ws]; [done|]. pose proof (A x (set_writers ws l)) as [_ A2].
    destruct (attempt_send x (set_writers ws l)) eqn:E; cbn; [by apply A2|done].
  - destruct (hand l); [done|]. by destruct (recv senders (inbox l)).
  - by destruct (hand l).
  - by destruct (hand l).
  - by destruct (hand l).
  - unfold purge_lane. by destruct (purge_round (inbox l)) as [[? ?] ?].
Qed.

Lemma node_run_uncharged ops n :
  Forall pump_charges ops -> total uncharged (lanes (node_run ops n)) = total uncharged (lanes n).
Proof.
  revert n. induction ops as [|op ops IH]; intros n F; [done|]. apply Forall_cons in F as [Fo F].
  change (node_run (op :: ops) n) with (node_run ops (node_step op n)). rewrite IH by done.
  destruct op as [depth|i op|]; cbn [node_step].
  - cbn. rewrite total_app, total_cons, total_nil. cbn. lia.
  - cbn. apply (total_alter _ _ (fun _ => True)); [by apply Forall_true|]. intros l _. apply lane_step_uncharged. by intros ->.
  - by rewrite signal_stop_lanes, total_fmap.
Qed.

(** C4: Teardown itself hides no targetward byte. Whatever writers, pumps and purges did to
    a node's queues before it is stopped, and whatever they try afterwards
    (another stop included), every byte the queues accepted was delivered, charged,
    purged, let go by a pump on no counter, or is in the teardown count; nothing is accepted after the stop.
    The count errs only upwards, by the chunks the pumps had just disposed of: at most one per queue. Where
    every pump charges what it does not deliver, no byte is missing at all; a serial write that fails and an exec
    item its child died in are the pumps' exceptions ([reconnect_forgets_failed_chunk] of Serial.v,
    [cut_item_uncounted] of ExecFlow.v). *)
Theorem teardown_hides_nothing M ops1 ops2 :
  let n1 := node_run ops1 node_new in
  let n2 := node_run (ops1 ++ NStop :: ops2) node_new in
  0 <= M -> Forall (nop_small M) ops1 -> Forall (.≠ NStop) ops1 ->
  Forall (fun op => match op with NWatch _ => False | _ => True end) ops2 ->
  total accepted (lanes n1) + M * len (lanes n1) <= u64_max ->
  total accepted (lanes n2) + over_report n1
    = total delivered (lanes n2) + total charged (lanes n2) + total purged (lanes n2) + total uncharged (lanes n2) + td_bytes n2
  /\ 0 <= over_report n1 <= M * len (lanes n1)
  /\ total accepted (lanes n2) = total accepted (lanes n1)
  /\ (Forall pump_charges ops1 -> Forall pump_charges ops2 -> total uncharged (lanes n2) = 0).
Proof.
  intros n1 n2 HM Hs Hn Hw Hmax.
  pose proof (node_run_ok M ops1 node_new HM Hs Hn ltac:(by split)) as O. fold n1 in O.
  pose proof (over_report_bound M n1 (proj1 O)) as Hover.
  assert (total undisposed (lanes n1) <= total accepted (lanes n1)) as Hle.
  { destruct O as [O _]. clear -O. induction O as [|l ls [] _ IH]; [done|]. rewrite !total_cons. unfold undisposed at 1. lia. }
  destruct (stop_total M n1 O) as (S1 & S2 & S3 & S4); [lia|].
  assert (n2 = node_run ops2 (signal_stop n1)) as -> by (unfold n2, node_run; by rewrite foldl_app).
  destruct (node_run_stopped ops2 (signal_stop n1) Hw S2) as (R1 & R2 & R3).
  pose proof (total_undisposed (lanes (node_run ops2 (signal_stop n1)))). split_and!; [lia..|].
  intros P1 P2. rewrite node_run_uncharged, signal_stop_lanes, total_fmap by done. by apply (node_run_uncharged ops1 node_new).
Qed.

(** ** Handoffs *)

Inductive Handoff := Taken | Full (chunk : list byte) | Lost.

(** [try_forward_targetward]; the lock is not looked at. *)
Definition try_forward_targetward (tx : C (list byte)) (chunk : list byte) (lost : Z)
  : Handoff * C (list byte) * Z :=
  match try_send tx chunk with
  | (SendOk, tx) => (Taken, tx, lost)
  | (SendFull, tx) => (Full chunk, tx, lost)
  | (SendClosed, tx) => (Lost, tx, u64_wrapping_add lost (len chunk))
  end.

(** [forward_targetward] up to the end of its send: [None] while the send is
    suspended; otherwise the source bytes not delivered.  [reacquired] is the
    outcome of [reacquire_held]. *)
Definition forward_targetward (reacquired : bool) (cost : Z) (payload : option (list byte)) (tx : C (list byte))
  : option (Z * C (list byte)) :=
  if negb reacquired then Some (cost, tx)
  else match payload with
       | None => Some (0, tx)
       | Some chunk =>
           match try_send tx chunk with
           | (SendOk, tx) => Some (0, tx)
           | (SendFull, _) => None
           | (SendClosed, tx) => Some (cost, tx)
           end
       end.

(** [TargetwardLoss::charge]. *)
Definition charge (loss lost : Z) : bool * Z :=
  if loss =? 0 then (true, lost) else (false, u64_wrapping_add lost loss).

(** Every exit of the two handoffs delivers, hands back or charges. *)
Lemma try_forward_accounts tx chunk lost h tx' lost' :
  try_forward_targetward tx chunk lost = (h, tx', lost') ->
  match h with
  | Taken => contents tx' = contents tx ++ [chunk] /\ lost' = lost
  | Full c => c = chunk /\ tx' = tx /\ lost' = lost
  | Lost => tx' = tx /\ lost' = u64_wrapping_add lost (len chunk)
  end.
Proof.
  unfold try_forward_targetward. pose proof (try_send_spec _ tx chunk) as R.
  destruct (try_send tx chunk) as [[] c]; intros [= <- <- <-]; naive_solver.
Qed.

Lemma forward_accounts reacquired chunk tx loss tx' lost :
  forward_targetward reacquired (len chunk) (Some chunk) tx = Some (loss, tx') ->
  (contents tx' = contents tx ++ [chunk] /\ loss = 0)
  \/ (tx' = tx /\ loss = len chunk /\ (charge loss lost).2 = u64_wrapping_add lost (len chunk) \/ chunk = []).
Proof.
  unfold forward_targetward. destruct chunk as [|b bs]; [naive_solver|].
  assert ((len (b :: bs) =? 0) = false) as E.
  { apply Z.eqb_neq. rewrite len_cons. pose proof (len_nonneg bs). lia. }
  destruct reacquired; cbn [negb].
  - pose proof (try_send_spec _ tx (b :: bs)) as R. destruct (try_send tx (b :: bs)) as [[] c]; intros [= <- <-].
    + naive_solver.
    + right. left. unfold charge. rewrite E. naive_solver.
  - intros [= <- <-]. right. left. unfold charge. by rewrite E.
Qed.
End inbox.

Arguments TargetwardInbox C T : clear implicits.
Arguments Lane C T : clear implicits.
Arguments NodeQueues C T : clear implicits.

(** ** Witnesses *)

(** Two queues of depth 1: a delivery in progress, a chunk let go, a delivery just done, a suspended writer. *)
Definition demo_before : list (@NodeOp (list byte)) :=
  [NWatch 1; NWatch 1; NLane 0 (LSend [x61; x62]); NLane 0 (LSend [x63]); NLane 0 (LRecv true); NLane 0 LResume;
   NLane 1 (LSend [x64]); NLane 1 (LRecv true); NLane 1 LDrop; NLane 1 (LSend [x66; x67]); NLane 1 (LRecv true); NLane 1 LDeliver].
Definition demo_after : list (@NodeOp (list byte)) := [NLane 0 (LSend [x65]); NStop; NLane 1 (LRecv true)].

Lemma teardown_hides_nothing_witness :
  let n2 := node_run (C := Bounded) (demo_before ++ NStop :: demo_after) node_new in
  total accepted (lanes n2) + over_report (node_run (C := Bounded) demo_before node_new)
  = total delivered (lanes n2) + total charged (lanes n2) + total purged (lanes n2) + total uncharged (lanes n2) + td_bytes n2
  /\ total uncharged (lanes n2) = 1.
Proof.
  split; [|vm_compute; reflexivity]. apply (teardown_hides_nothing (C := Bounded) 2 demo_before demo_after).
  - lia.
  - repeat constructor; vm_compute; done.
  - repeat constructor; done.
  - repeat constructor.
  - vm_compute. done.
Defined.

(** A full queue with a writer behind it. *)
Definition demo_lane : Lane Bounded (list byte) :=
  foldl (fun l op => lane_step op l) (lane_new 1) [LSend [x61; x62]; LSend [x63]].

Lemma purge_quiesces_witness : purged (purge_to_quiescence [[LResume]; []] demo_lane) = 3.
Proof.
  destruct (purge_quiesces [LResume] [] demo_lane (mkBounded 1 [[x61; x62]] true)) as (_ & _ & E).
  - reflexivity.
  - reflexivity.
  - discriminate.
  - by repeat constructor.
  - constructor.
  - reflexivity.
  - rewrite E. reflexivity.
Defined.
