(* ===== verification/FanOut.v ===== *)
(** * Hostward fan-out (daemon/src/runtime.rs)

    [FanOutList], [fan_out], [DropCounters] and [route_channel_data]: how one chunk
    from a device, a codec or a peer reaches every attached consumer, and where the
    bytes that do not reach one are counted. *)

From S2P Require Import Prelude GraphTypes Tap Channel.

Section fan.
Context {C : Type -> Type} `{MpscLaws C}.

(** ** Operations *)

(** [DropCounters]: relaxed atomics that wrap. *)
Record DropCounters := mkDrops { dropped_full : Z; discarded_absent : Z }.
Definition drops_new : DropCounters := mkDrops 0 0.
Definition add_full (n : Z) (d : DropCounters) : DropCounters :=
  mkDrops (u64_wrapping_add (dropped_full d) n) (discarded_absent d).
Definition add_absent (n : Z) (d : DropCounters) : DropCounters :=
  mkDrops (dropped_full d) (u64_wrapping_add (discarded_absent d) n).

Record AttachedSink := mkSink { s_target : EndpointAddr; s_tx : C (list byte); s_counters : DropCounters }.

Abbreviation FanOutList := (list AttachedSink) (only parsing).
Definition fanout_new : FanOutList := [].
Definition fanout_attach (sink : AttachedSink) (f : FanOutList) : FanOutList := f ++ [sink].
Definition fanout_detach (target : EndpointAddr) (f : FanOutList) : bool * FanOutList :=
  let kept := filter (fun s => s_target s <> target) f in
  (bool_decide (length kept <> length f), kept).
Definition fanout_is_empty (f : FanOutList) : bool := bool_decide (f = []).

Record FanOut := mkFan { live : bool; delivered : Z; fan_dropped_full : Z }.

(** The loop body of [fan_out]. *)
Definition fan_sink (chunk : list byte) (out : FanOut) (s : AttachedSink) : FanOut * AttachedSink :=
  let n := len chunk in
  match try_send (s_tx s) chunk with
  | (SendOk, tx) => (mkFan true n (fan_dropped_full out), mkSink (s_target s) tx (s_counters s))
  | (SendFull, tx) =>
      (mkFan true (delivered out) (u64_wrapping_add (fan_dropped_full out) n),
       mkSink (s_target s) tx (add_full n (s_counters s)))
  | (SendClosed, tx) => (out, mkSink (s_target s) tx (s_counters s))
  end.

Fixpoint fan_loop (chunk : list byte) (out : FanOut) (sinks : FanOutList) : FanOut * FanOutList :=
  match sinks with
  | [] => (out, [])
  | s :: sinks =>
      let '(out, s) := fan_sink chunk out s in
      let '(out, sinks) := fan_loop chunk out sinks in (out, s :: sinks)
  end.

(** [fan_out] and [FanOutList::broadcast], with the counter for unattached bytes. *)
Definition fan_out (chunk : list byte) (sinks : FanOutList) (unattached : Z) : FanOut * FanOutList * Z :=
  let '(out, sinks) := fan_loop chunk (mkFan false 0 0) sinks in
  (out, sinks, if live out then unattached else u64_wrapping_add unattached (len chunk)).

(** ** Reference: every sink on its own *)

Inductive Outcome := Took | WasFull | WasClosed.
#[export] Instance outcome_eq_dec : EqDecision Outcome.
Proof. solve_decision. Defined.

Definition sink_outcome (chunk : list byte) (s : AttachedSink) : Outcome :=
  match (try_send (s_tx s) chunk).1 with SendOk => Took | SendFull => WasFull | SendClosed => WasClosed end.

Definition sink_after (chunk : list byte) (s : AttachedSink) : AttachedSink :=
  mkSink (s_target s) (try_send (s_tx s) chunk).2
         (match sink_outcome chunk s with WasFull => add_full (len chunk) (s_counters s) | _ => s_counters s end).

#[local] Arguments sink_after : simpl never.

(** Whether some sink had this outcome. *)
Definition some_sink (o : Outcome) (chunk : list byte) (sinks : FanOutList) : bool :=
  existsb (fun s => bool_decide (sink_outcome chunk s = o)) sinks.

Lemma fan_loop_spec chunk out sinks :
  let '(out', sinks') := fan_loop chunk out sinks in
  sinks' = sink_after chunk <$> sinks
  /\ live out' = live out || some_sink Took chunk sinks || some_sink WasFull chunk sinks
  /\ delivered out' = (if some_sink Took chunk sinks then len chunk else delivered out).
Proof.
  revert out. induction sinks as [|s sinks IH]; intros out; cbn [fan_loop].
  { cbn. split_and!; try done. by destruct (live out). }
  unfold fan_sink. destruct (try_send (s_tx s) chunk) as [r tx] eqn:E.
  assert (Ho : sink_outcome chunk s = match r with SendOk => Took | SendFull => WasFull | SendClosed => WasClosed end)
    by (unfold sink_outcome; by rewrite E).
  assert (Ha : sink_after chunk s = mkSink (s_target s) tx (match r with SendFull => add_full (len chunk) (s_counters s) | _ => s_counters s end))
    by (unfold sink_after; rewrite Ho, E; by destruct r).
  assert (Hs : forall o, some_sink o chunk (s :: sinks) = bool_decide (sink_outcome chunk s = o) || some_sink o chunk sinks)
    by done.
  rewrite fmap_cons, Ha, !Hs, Ho.
  destruct r; match goal with |- context [fan_loop chunk ?o sinks] => specialize (IH o) end;
    destruct (fan_loop chunk _ sinks) as [out' sinks']; destruct IH as (-> & -> & ->); cbn.
  all: split_and!; [done|by destruct (live out), (some_sink Took chunk sinks)|by destruct (some_sink Took chunk sinks)].
Qed.

Lemma sink_outcome_spec chunk s :
  match sink_outcome chunk s with
  | Took => rx_open (s_tx s) = true /\ contents (s_tx (sink_after chunk s)) = contents (s_tx s) ++ [chunk]
            /\ rx_open (s_tx (sink_after chunk s)) = true
            /\ s_counters (sink_after chunk s) = s_counters s
  | WasFull => rx_open (s_tx s) = true /\ s_tx (sink_after chunk s) = s_tx s
               /\ s_counters (sink_after chunk s) = add_full (len chunk) (s_counters s)
  | WasClosed => rx_open (s_tx s) = false /\ sink_after chunk s = s
  end.
Proof.
  unfold sink_after, sink_outcome. pose proof (try_send_spec _ (s_tx s) chunk) as R.
  destruct (try_send (s_tx s) chunk) as [[] tx]; cbn in *.
  - naive_solver.
  - naive_solver.
  - destruct R as [R ->]. split; [done|]. by destruct s.
Qed.

(** Some sink is live exactly when some receiver exists. *)
Lemma some_live chunk sinks :
  some_sink Took chunk sinks || some_sink WasFull chunk sinks = existsb (fun s => rx_open (s_tx s)) sinks.
Proof.
  induction sinks as [|s sinks IH]; [done|]. cbn. rewrite <- IH.
  pose proof (sink_outcome_spec chunk s) as O. unfold some_sink in *.
  destruct (sink_outcome chunk s); destruct O as [-> _]; cbn; try done; by rewrite orb_true_r.
Qed.

(** The fan-out loop is the per-consumer specification. Whatever the others do,
    each sink takes the chunk at the end of its queue, or is full and is charged the chunk on its
    own counter, or is closed and untouched; the chunk counts as delivered when some
    sink took it, and is charged as unattached exactly when no receiver is left. *)
Theorem fan_out_isolates chunk sinks unattached :
  let '(out, sinks', unattached') := fan_out chunk sinks unattached in
  sinks' = sink_after chunk <$> sinks
  /\ live out = existsb (fun s => rx_open (s_tx s)) sinks
  /\ delivered out = (if some_sink Took chunk sinks then len chunk else 0)
  /\ unattached' = (if existsb (fun s => rx_open (s_tx s)) sinks then unattached
                    else u64_wrapping_add unattached (len chunk)).
Proof.
  unfold fan_out. pose proof (fan_loop_spec chunk (mkFan false 0 0) sinks) as L.
  destruct (fan_loop chunk _ sinks) as [out sinks']. destruct L as (-> & Hl & Hd). cbn in Hl, Hd.
  rewrite some_live in Hl. by rewrite Hl, Hd.
Qed.

(** ** Streams *)

(** A consumer with what it has taken and what was broadcast since it joined. *)
Record Hop := mkHop { h_sink : AttachedSink; h_got : list (list byte); h_offered : list (list byte) }.

Inductive FanOp :=
| FBroadcast (chunk : list byte)
| FTake (i : nat)
| FAttach (sink : AttachedSink).

Definition take_one (h : Hop) : Hop :=
  let '(o, tx) := try_recv (s_tx (h_sink h)) in
  mkHop (mkSink (s_target (h_sink h)) tx (s_counters (h_sink h)))
        (h_got h ++ match o with Some c => [c] | None => [] end) (h_offered h).

Definition fan_step (op : FanOp) (hops : list Hop) : list Hop :=
  match op with
  | FBroadcast chunk =>
      let '(_, sinks, _) := fan_out chunk (h_sink <$> hops) 0 in
      zip_with (fun h s => mkHop s (h_got h) (h_offered h ++ [chunk])) hops sinks
  | FTake i => alter take_one i hops
  | FAttach sink =>
      zip_with (fun s h => mkHop s (h_got h) (h_offered h)) (fanout_attach sink (h_sink <$> hops))
               (hops ++ [mkHop sink [] []])
  end.

Definition fan_run (ops : list FanOp) (hops : list Hop) : list Hop := foldl (fun h op => fan_step op h) hops ops.

Record hop_ok (h : Hop) : Prop := {
  ho_open : rx_open (s_tx (h_sink h)) = true;
  ho_order : h_got h ++ contents (s_tx (h_sink h)) `sublist_of` h_offered h;
  ho_bytes : (total len (h_got h) + total len (contents (s_tx (h_sink h)))
              + dropped_full (s_counters (h_sink h))) mod 2 ^ 64 = total len (h_offered h) mod 2 ^ 64 }.

Lemma hop_broadcast chunk h :
  hop_ok h -> hop_ok (mkHop (sink_after chunk (h_sink h)) (h_got h) (h_offered h ++ [chunk])).
Proof.
  intros [Ho Hs Hb]. pose proof (sink_outcome_spec chunk (h_sink h)) as O.
  destruct (sink_outcome chunk (h_sink h)).
  - destruct O as (_ & Hc & Hopen & Hd). split; cbn; [done| |].
    + rewrite Hc, app_assoc. by apply sublist_app.
    + rewrite Hc, Hd. autorewrite with snx_len. rewrite <- (Zplus_mod_idemp_l (total len (h_offered h))), <- Hb, Zplus_mod_idemp_l.
      f_equal. lia.
  - destruct O as (_ & Ht & Hd). split; cbn; rewrite ?Ht; [done| |].
    + by apply sublist_inserts_r.
    + rewrite Hd. cbn. unfold u64_wrapping_add. autorewrite with snx_len.
      rewrite Zplus_mod_idemp_r, <- (Zplus_mod_idemp_l (total len (h_offered h))), <- Hb, Zplus_mod_idemp_l.
      f_equal. lia.
  - destruct O as [O _]. congruence.
Qed.

Lemma hop_take h : hop_ok h -> hop_ok (take_one h).
Proof.
  intros [Ho Hs Hb]. unfold take_one. pose proof (try_recv_spec _ (s_tx (h_sink h))) as R.
  destruct (contents (s_tx (h_sink h))) as [|c q] eqn:E.
  - rewrite R. split; cbn; rewrite ?app_nil_r, ?E; done || by rewrite ?app_nil_r in *.
  - destruct (try_recv (s_tx (h_sink h))) as [o tx]. cbn in R. destruct R as (-> & Hq & Hopen & _).
    split; cbn; rewrite ?Hq; [congruence|by rewrite <- app_assoc|].
    rewrite <- Hb. f_equal. autorewrite with snx_len. lia.
Qed.

Lemma fan_step_ok op hops :
  match op with FAttach s => rx_open (s_tx s) = true /\ contents (s_tx s) = [] /\ s_counters s = drops_new | _ => True end ->
  Forall hop_ok hops -> Forall hop_ok (fan_step op hops).
Proof.
  intros Hop Hall. destruct op as [chunk|i|sink]; cbn [fan_step].
  - unfold fan_out. pose proof (fan_loop_spec chunk (mkFan false 0 0) (h_sink <$> hops)) as L.
    destruct (fan_loop chunk _ _) as [out sinks']. destruct L as (-> & _). clear -Hall H H0.
    induction Hall as [|h hops Hh Hall IH]; cbn; [done|]. constructor; [by apply hop_broadcast|done].
  - apply Forall_alter; [done|]. intros h _ Hh. by apply hop_take.
  - unfold fanout_attach.
    replace (zip_with _ _ _) with (hops ++ [mkHop sink [] []]).
    2: { clear. induction hops as [|[] hops IH]; cbn; [done|]. by rewrite <- IH. }
    apply Forall_app. split; [done|]. constructor; [|done]. destruct Hop as (Ho & Hc & Hd).
    split; cbn; rewrite ?Hc, ?Hd; done.
Qed.

(** A consumer gets the stream or sees what it missed. However a live consumer
    lags behind the broadcasts, what it has taken and what waits for it is a
    subsequence of what was broadcast since it attached, in order, and its
    full-buffer counter makes up the difference exactly (modulo the counter's width). *)
Theorem consumer_stream_accounted ops i h :
  Forall (fun op => match op with
                    | FAttach s => rx_open (s_tx s) = true /\ contents (s_tx s) = [] /\ s_counters s = drops_new
                    | _ => True end) ops ->
  fan_run ops [] !! i = Some h ->
  h_got h ++ contents (s_tx (h_sink h)) `sublist_of` h_offered h
  /\ (total len (h_got h) + total len (contents (s_tx (h_sink h))) + dropped_full (s_counters (h_sink h))) mod 2 ^ 64
     = total len (h_offered h) mod 2 ^ 64.
Proof.
  intros Hops Hi. assert (Forall hop_ok (fan_run ops [])) as Hall.
  { unfold fan_run. generalize (Forall_nil_2 hop_ok). generalize (@nil Hop).
    clear Hi. induction Hops as [|op ops Hop Hops IH]; intros hops Hh; cbn [foldl]; [done|].
    apply IH. by apply fan_step_ok. }
  destruct (proj1 (Forall_lookup _ _) Hall i h Hi). done.
Qed.

(** Detaching by target removes exactly the sinks of that target, in order. *)
Lemma detach_spec target f :
  fanout_detach target f = (existsb (fun s => bool_decide (s_target s = target)) f,
                            filter (fun s => s_target s <> target) f).
Proof.
  unfold fanout_detach. f_equal. induction f as [|s f IH]; [done|]. rewrite filter_cons. cbn [existsb].
  pose proof (length_filter (fun s => s_target s <> target) f) as Hlen.
  destruct (decide (s_target s <> target)) as [E|E]; cbn [length].
  - rewrite (bool_decide_false (s_target s = target)) by done. cbn [orb]. rewrite <- IH. apply bool_decide_ext. lia.
  - rewrite (bool_decide_true (s_target s = target)) by (by apply dec_stable). cbn. apply bool_decide_true. lia.
Qed.

(** ** Routing a decoded channel event *)

Class HostwardChannelStat (S : Type) : Type := {
  set_active : S -> S;
  add_delivered : Z -> S -> S;
  add_unattached : Z -> S -> S;
  add_dropped_full : Z -> S -> S }.

Context `{E : Pattern.Engine}.

(** [route_channel_data]; [sent] is the tap feed's own send. *)
Definition route_channel_data {S} `{HostwardChannelStat S} (bytes : list byte)
    (feed : option Feed) (sent : bool) (sinks : option FanOutList) (stat : option S)
  : option Feed * option FanOutList * option S :=
  let n := len bytes in
  let stat := set_active <$> stat in
  let feed := (fun f => mirror f bytes sent) <$> feed in
  match sinks with
  | None => (feed, None, add_unattached n <$> stat)
  | Some sinks =>
      let '(fan, sinks, charged) := fan_out bytes sinks 0 in
      let stat := if live fan then stat else add_unattached n <$> stat in
      (feed, Some sinks, (fun s => add_dropped_full (fan_dropped_full fan) (add_delivered (delivered fan) s)) <$> stat)
  end.

(** On a channel with a counter record: delivered when a consumer took the chunk, unattached when none is left. *)
Lemma route_channel_data_spec {S} `{HostwardChannelStat S} bytes feed sent sinks s :
  exists feed' sinks' dropped,
    route_channel_data bytes feed sent sinks (Some s)
    = (feed', sinks',
       Some (match sinks with
             | None => add_unattached (len bytes) (set_active s)
             | Some sinks =>
                 add_dropped_full dropped (add_delivered (if some_sink Took bytes sinks then len bytes else 0)
                   (if existsb (fun s => rx_open (s_tx s)) sinks then set_active s else add_unattached (len bytes) (set_active s)))
             end)).
Proof.
  unfold route_channel_data. destruct sinks as [sinks|]; [|by eexists _, None, 0]. unfold fan_out.
  pose proof (fan_loop_spec bytes (mkFan false 0 0) sinks) as L. pose proof (some_live bytes sinks) as Hs.
  destruct (fan_loop bytes _ sinks) as [out sinks']. destruct L as (_ & Hl & Hd). cbn in Hl, Hd. rewrite Hs in Hl.
  rewrite Hl, Hd. eexists _, _, (fan_dropped_full out). by destruct (existsb _ sinks).
Qed.
End fan.

(** ** Witnesses *)

Definition demo_sink (cap : Z) (name : string) : AttachedSink (C := Bounded) :=
  mkSink (mkAddr name ""%string) (channel cap) drops_new.

Definition demo_fan : list (FanOp (C := Bounded)) :=
  [FAttach (demo_sink 1 "log"); FBroadcast [x61; x62]; FBroadcast [x63]; FTake 0; FBroadcast [x64]].

Lemma consumer_stream_accounted_witness :
  exists h, fan_run demo_fan [] !! 0%nat = Some h /\ dropped_full (s_counters (h_sink h)) = 1
    /\ h_got h ++ contents (s_tx (h_sink h)) `sublist_of` h_offered h.
Proof.
  eexists. split; [reflexivity|]. split; [reflexivity|].
  apply (consumer_stream_accounted demo_fan 0); [|reflexivity]. repeat constructor; done.
Defined.

Lemma fan_out_isolates_witness :
  (fan_out [x61; x62] [demo_sink 0 "slow"; demo_sink 1 "log"] 0).1.2
    = sink_after [x61; x62] <$> [demo_sink 0 "slow"; demo_sink 1 "log"].
Proof.
  pose proof (fan_out_isolates (C := Bounded) [x61; x62] [demo_sink 0 "slow"; demo_sink 1 "log"] 0) as H.
  vm_compute in H |- *. exact (proj1 H).
Defined.
