(* ===== verification/Daemon.v ===== *)
(** * The control plane (daemon/src/runtime.rs, daemon/src/daemon.rs)

    The verbs that change the graph, [load], [add-node], [remove-node], [connect],
    [disconnect] and [teardown], on the run-time handles they maintain: the write
    locks, targetward senders, fan-outs and tap hubs of host-facing endpoints, the
    edge inboxes and edge slots of target-facing ones, and the map from writable
    origins to locks.  Lock cells are shared by reference, so they live in a store
    under identities that are never reused; a targetward channel is named by the
    identity of the lock made with it.  The daemon keys its maps by the display form
    of an address, which is one-to-one on legal names
    ([GraphTypes.addr_display_roundtrip]); the keys here are the addresses. *)

From S2P Require Import Prelude GraphTypes Lock Arbiter Cycle Graph Config Channel.
#[local] Open Scope N_scope.

(** ** Run-time state *)

Definition EDGE_INBOX_CAP : Z := 4.

Record LockCell := mkCell { cell_lock : EndpointLock; cell_closed : bool }.

(** [TargetEdge]: the live edge binding of a target-facing endpoint. *)
Record TargetEdge := mkSlot { registered : option (N * OriginId); writer : option N; attached : bool }.
Definition slot_empty : TargetEdge := mkSlot None None false.

(** An attached sink: the target it reaches, and the depth of its channel. *)
Record Sink := mkSink { sink_target : EndpointAddr; sink_depth : Z }.

(** The maps of [Wiring] and of [GraphState], with the store of lock cells. *)
Record Runtime := mkRuntime {
  cells : gmap N LockCell;
  next_cell : N;
  endpoint_locks : gmap EndpointAddr N;
  endpoint_targetward : gmap EndpointAddr N;
  host_fanout : gmap EndpointAddr (list Sink);
  tap_hubs : gmap EndpointAddr Z;
  target_inbox : gmap EndpointAddr (Bounded unit);
  target_edges : gmap EndpointAddr TargetEdge;
  origin_locks : gmap EndpointAddr (N * OriginId);
  next_edge_origin : N }.

Definition set_cells (x : gmap N LockCell) (r : Runtime) : Runtime :=
  mkRuntime x (next_cell r) (endpoint_locks r) (endpoint_targetward r) (host_fanout r) (tap_hubs r)
            (target_inbox r) (target_edges r) (origin_locks r) (next_edge_origin r).
Definition set_fanout (x : gmap EndpointAddr (list Sink)) (r : Runtime) : Runtime :=
  mkRuntime (cells r) (next_cell r) (endpoint_locks r) (endpoint_targetward r) x (tap_hubs r)
            (target_inbox r) (target_edges r) (origin_locks r) (next_edge_origin r).
Definition set_inbox (x : gmap EndpointAddr (Bounded unit)) (r : Runtime) : Runtime :=
  mkRuntime (cells r) (next_cell r) (endpoint_locks r) (endpoint_targetward r) (host_fanout r) (tap_hubs r)
            x (target_edges r) (origin_locks r) (next_edge_origin r).
Definition set_edges (x : gmap EndpointAddr TargetEdge) (r : Runtime) : Runtime :=
  mkRuntime (cells r) (next_cell r) (endpoint_locks r) (endpoint_targetward r) (host_fanout r) (tap_hubs r)
            (target_inbox r) x (origin_locks r) (next_edge_origin r).
Definition set_origin_locks (x : gmap EndpointAddr (N * OriginId)) (r : Runtime) : Runtime :=
  mkRuntime (cells r) (next_cell r) (endpoint_locks r) (endpoint_targetward r) (host_fanout r) (tap_hubs r)
            (target_inbox r) (target_edges r) x (next_edge_origin r).
Definition set_next_origin (x : N) (r : Runtime) : Runtime :=
  mkRuntime (cells r) (next_cell r) (endpoint_locks r) (endpoint_targetward r) (host_fanout r) (tap_hubs r)
            (target_inbox r) (target_edges r) (origin_locks r) x.

Definition runtime_empty (cell : N) : Runtime := mkRuntime ∅ cell ∅ ∅ ∅ ∅ ∅ ∅ ∅ 0.

(** [with_mut] on a shared lock. *)
Definition with_lock (L : N) (f : EndpointLock -> EndpointLock) (r : Runtime) : Runtime :=
  set_cells (alter (fun c => mkCell (f (cell_lock c)) (cell_closed c)) L (cells r)) r.

Definition lock_of (L : N) (r : Runtime) : option EndpointLock := cell_lock <$> cells r !! L.

Section control.
Context {Table : Type}.

(** ** Building the wiring *)

Definition hostward_depth (ns : list (NodeConfig Table)) (host_node : string) : Z :=
  default CHANNEL_CAP
    (head (omap (fun n => match n with
                          | Serial name _ _ _ _ _ _ _ _ hostward_buffer _ _ _ =>
                              if bool_decide (name = host_node) then Some hostward_buffer else None
                          | _ => None
                          end) ns)).

(** The endpoints of a node with its replay-ring depth. *)
Definition node_endpoints (n : NodeConfig Table) : list (EndpointAddr * EndpointSpec * option Z) :=
  (fun ep => (mkAddr (node_name n) (ep_name ep), ep, node_replay_ring n)) <$> shape_endpoints (node_shape n).

Definition endpoints_of (ns : list (NodeConfig Table)) : list (EndpointAddr * EndpointSpec * option Z) :=
  mjoin (node_endpoints <$> ns).

(** The [facing] table of [build]: the last entry for a key stays. *)
Definition facing_map (ns : list (NodeConfig Table)) : gmap EndpointAddr Facing :=
  foldl (fun m p => <[p.1.1 := ep_facing p.1.2]> m) ∅ (endpoints_of ns).

(** The handles of one endpoint.  The code's loop goes over the facing table in hash
    order; the order decides the identities of new locks and nothing else, and here it
    is the order of declaration. *)
Definition wire_endpoint (r : Runtime) (p : EndpointAddr * EndpointSpec * option Z) : Runtime :=
  let '(addr, ep, ring) := p in
  match ep_facing ep with
  | Host =>
      let L := next_cell r in
      mkRuntime (<[L := mkCell (Lock.new (ep_arbitration ep)) false]> (cells r)) (L + 1)
        (<[addr := L]> (endpoint_locks r)) (<[addr := L]> (endpoint_targetward r))
        (<[addr := []]> (host_fanout r)) (<[addr := default 0%Z ring]> (tap_hubs r))
        (target_inbox r) (target_edges r) (origin_locks r) (next_edge_origin r)
  | Target =>
      set_inbox (<[addr := channel EDGE_INBOX_CAP]> (target_inbox r))
        (set_edges (<[addr := slot_empty]> (target_edges r)) r)
  end.

(** ** Attaching and detaching one edge *)

Record AttachOutcome := mkAttach {
  at_registered : option (N * OriginId);
  addressable : bool;
  granted : bool;
  consumer_live : bool;
  inbox_full : bool }.

(** [attach_edge] with the parts its two callers look up: the fan-out of [host], the
    inbox of [target], their lock and sender. *)
Definition attach_edge (host target : EndpointAddr) (origin : OriginId) (fanout : list Sink)
    (inbox : Bounded unit) (mode : WriteMode) (depth : Z) (r : Runtime) : AttachOutcome * Runtime :=
  match try_send inbox tt with
  | (SendFull, _) => (mkAttach None false false false true, r)
  | (sent, inbox) =>
      let r := set_inbox (<[target := inbox]> (target_inbox r)) r in
      let lock := endpoint_locks r !! host in
      let registered := (fun L => (L, origin)) <$> lock in
      let r := match lock with
               | Some L => with_lock L (fun l => register l origin (addr_display target) mode) r
               | None => r
               end in
      let granted := match lock with
                     | Some L => bool_decide (lock_of L r ≫= holder = Some origin)
                     | None => false
                     end in
      let writer := if bool_decide (mode <> Never) then endpoint_targetward r !! host else None in
      let r := set_edges (<[target := mkSlot registered writer true]> (target_edges r)) r in
      let r := set_fanout (<[host := fanout ++ [mkSink target depth]]> (host_fanout r)) r in
      (mkAttach registered (bool_decide (writer <> None)) granted (bool_decide (sent = SendOk)) false, r)
  end.

(** What [build] and [connect] do with the registration: writable origins only. *)
Definition record_origin (target : EndpointAddr) (a : AttachOutcome) (r : Runtime) : Runtime :=
  match at_registered a with
  | Some reg => if addressable a then set_origin_locks (<[target := reg]> (origin_locks r)) r else r
  | None => r
  end.

(** The edge loop of [Wiring::build]. *)
Definition wire_edge (ns : list (NodeConfig Table)) (facing : gmap EndpointAddr Facing) (r : Runtime)
    (e : EdgeConfig) : Runtime :=
  let ends := match facing !! ec_a e, facing !! ec_b e with
              | Some Host, Some Target => Some (ec_a e, ec_b e)
              | Some Target, Some Host => Some (ec_b e, ec_a e)
              | _, _ => None
              end in
  match ends with
  | None => r
  | Some (host, target) =>
      match host_fanout r !! host, target_inbox r !! target, target_edges r !! target with
      | Some fanout, Some inbox, Some _ =>
          let mode := effective_write_mode (mkConfig ns []) e in
          let origin := next_edge_origin r in
          let r := set_next_origin (origin + 1) r in
          let '(a, r) := attach_edge host target origin fanout inbox mode (hostward_depth ns (addr_node host)) r in
          record_origin target a r
      | _, _, _ => r
      end
  end.

(** [Wiring::build]; [cell] is the first unused lock identity. *)
Definition build (c : GraphConfig Table) (cell : N) : Runtime :=
  foldl (wire_edge (cfg_nodes c) (facing_map (cfg_nodes c)))
        (foldl wire_endpoint (runtime_empty cell) (endpoints_of (cfg_nodes c))) (cfg_edges c).

(** [GraphState::absorb_wiring] and [spawn_tap_hubs]: the wiring's entries are
    inserted over those of the state. *)
Definition absorb (w r : Runtime) : Runtime :=
  mkRuntime (cells w ∪ cells r) (next_cell w) (endpoint_locks w ∪ endpoint_locks r)
    (endpoint_targetward w ∪ endpoint_targetward r) (host_fanout w ∪ host_fanout r) (tap_hubs w ∪ tap_hubs r)
    (target_inbox w ∪ target_inbox r) (target_edges w ∪ target_edges r) (origin_locks w ∪ origin_locks r)
    (N.max (next_edge_origin w) (next_edge_origin r)).

(** [GraphState::detach_edge_runtime]: whether the origin held the lock, and the state.
    (The purge of the departing origin's client buffer is the node's.) *)
Definition detach_edge_runtime (host target : EndpointAddr) (r : Runtime) : bool * Runtime :=
  (* 1: the producer's sink goes *)
  let r := match host_fanout r !! host with
           | Some f => set_fanout (<[host := filter (fun s => sink_target s <> target) f]> (host_fanout r)) r
           | None => r
           end in
  (* 2: the consumer's write path is cleared *)
  let r := set_edges (alter (fun e => mkSlot (registered e) None false) target (target_edges r)) r in
  (* 3: the origin leaves the lock *)
  let r := set_origin_locks (delete target (origin_locks r)) r in
  let reg := target_edges r !! target ≫= registered in
  let '(released, r) :=
    match reg with
    | Some (L, id) =>
        (bool_decide (lock_of L r ≫= holder = Some id), with_lock L (fun l => (unregister l id).2) r)
    | None => (false, r)
    end in
  (released, set_edges (alter (fun e => mkSlot None (writer e) (attached e)) target (target_edges r)) r).


(** ** Verbs *)

Record GraphState := mkGraph { g_config : GraphConfig Table; g_nodes : list string; g_rt : Runtime }.

Inductive RpcError := EStructural | EPrecheck | ELoadNonempty | EInstantiate | EInvalidParams | EHasEdges
                    | ENotWired | EEdgeInboxFull.

Definition graph_new : GraphState := mkGraph (mkConfig [] []) [] (runtime_empty 0).

(** The maps of [GraphState] cleared; lock cells outlive them behind other handles. *)
Definition cleared (r : Runtime) : Runtime :=
  mkRuntime (cells r) (next_cell r) ∅ ∅ ∅ ∅ ∅ ∅ ∅ (next_edge_origin r).

Definition close_cell (L : N) (cs : gmap N LockCell) : gmap N LockCell :=
  alter (fun c => mkCell (cell_lock c) true) L cs.

(** [teardown_with]. *)
Definition teardown (g : GraphState) : GraphState :=
  let r := g_rt g in
  let r := set_cells (foldr close_cell (cells r) (map_to_list (endpoint_locks r)).*2) r in
  mkGraph (mkConfig [] []) [] (cleared r).

Context `{!HashOrder string, !HashOrder EndpointAddr}.

(** [structural_errors(&config.validate())]. *)
Definition structural_ok (c : GraphConfig Table) : bool :=
  match config_validate c with Some (Ok []) => true | _ => false end.

(** [load]; [precheck] is the outcome of the codec and flow-control checks,
    [instantiate] whether a node of this configuration can be made. *)
Definition load (precheck : bool) (instantiate : NodeConfig Table -> bool) (c : GraphConfig Table) (replace : bool)
    (g : GraphState) : option RpcError * GraphState :=
  if negb (structural_ok c) then (Some EStructural, g)
  else if negb precheck then (Some EPrecheck, g)
  else
    let g := if replace then teardown g else g in
    if bool_decide (g_nodes g <> []) then (Some ELoadNonempty, g)
    else if negb (forallb instantiate (cfg_nodes c)) then (Some EInstantiate, g)
    else (None, mkGraph c (node_name <$> cfg_nodes c) (absorb (build c (next_cell (g_rt g))) (cleared (g_rt g)))).

(** [add_node], after the device input of a serial node was resolved. *)
Definition add_node (precheck : bool) (instantiate : NodeConfig Table -> bool) (n : NodeConfig Table)
    (g : GraphState) : option RpcError * GraphState :=
  if negb precheck then (Some EPrecheck, g)
  else
    let candidate := mkConfig (cfg_nodes (g_config g) ++ [n]) (cfg_edges (g_config g)) in
    if negb (structural_ok candidate) then (Some EStructural, g)
    else if negb (instantiate n) then (Some EInstantiate, g)
    else (None, mkGraph candidate (g_nodes g ++ [node_name n])
                        (absorb (build (mkConfig [n] []) (next_cell (g_rt g))) (g_rt g))).

Definition touches (name : string) (e : EdgeConfig) : Prop :=
  addr_node (ec_a e) = name \/ addr_node (ec_b e) = name.

#[export] Instance touches_dec name e : Decision (touches name e).
Proof. unfold touches. apply _. Defined.

(** The loop of [remove_node] over the node's endpoints: closed locks, and the state. *)
Definition prune_endpoint (st : list N * Runtime) (ep : EndpointAddr) : list N * Runtime :=
  let '(removed, r) := st in
  let '(removed, r) :=
    match endpoint_locks r !! ep with
    | Some L => (removed ++ [L],
                 mkRuntime (close_cell L (cells r)) (next_cell r) (delete ep (endpoint_locks r))
                   (endpoint_targetward r) (host_fanout r) (tap_hubs r) (target_inbox r) (target_edges r)
                   (origin_locks r) (next_edge_origin r))
    | None => (removed, r)
    end in
  let r := mkRuntime (cells r) (next_cell r) (endpoint_locks r) (delete ep (endpoint_targetward r))
             (host_fanout r) (tap_hubs r) (target_inbox r) (target_edges r) (origin_locks r) (next_edge_origin r) in
  match origin_locks r !! ep with
  | Some (L, id) =>
      (removed, with_lock L (fun l => (unregister l id).2) (set_origin_locks (delete ep (origin_locks r)) r))
  | None => (removed, r)
  end.

(** [detach_taps] for the endpoints that go. *)
Definition drop_taps (eps : list EndpointAddr) (r : Runtime) : Runtime :=
  mkRuntime (cells r) (next_cell r) (endpoint_locks r) (endpoint_targetward r) (host_fanout r)
    (filter (fun p => p.1 ∉ eps) (tap_hubs r)) (target_inbox r) (target_edges r) (origin_locks r) (next_edge_origin r).

(** [GraphState::forget_endpoints]. *)
Definition forget_endpoints (eps : list EndpointAddr) (r : Runtime) : Runtime :=
  foldl (fun r ep => mkRuntime (cells r) (next_cell r) (endpoint_locks r) (endpoint_targetward r)
           (delete ep (host_fanout r)) (tap_hubs r) (delete ep (target_inbox r)) (delete ep (target_edges r))
           (origin_locks r) (next_edge_origin r)) r eps.

(** [remove_node]. *)
Definition remove_node (name : string) (cascade : bool) (g : GraphState) : option RpcError * GraphState :=
  let c := g_config g in
  match list_find (fun n => n = name) (g_nodes g) with
  | None => (Some EInvalidParams, g)
  | Some (idx, _) =>
      let attached := filter (touches name) (cfg_edges c) in
      if bool_decide (attached <> []) && negb cascade then (Some EHasEdges, g)
      else
        let endpoints := match node_named c name with
                         | Some n => (fun ep => mkAddr name (ep_name ep)) <$> shape_endpoints (node_shape n)
                         | None => []
                         end in
        let r := foldl (fun r p => (detach_edge_runtime p.1 p.2 r).2) (g_rt g) (omap (edge_ends c) attached) in
        let r := drop_taps endpoints r in
        let '(removed, r) := foldl prune_endpoint ([], r) endpoints in
        let r := set_origin_locks (filter (fun p => p.2.1 ∉ removed) (origin_locks r)) r in
        let r := forget_endpoints endpoints r in
        (None, mkGraph (mkConfig (filter (fun n => node_name n <> name) (cfg_nodes c))
                                 (filter (fun e => ~ touches name e) (cfg_edges c)))
                       (delete idx (g_nodes g)) r)
  end.

(** [connect]; [purged] is what the node's client buffer held. *)
Definition connect (e : EdgeConfig) (purged : Z) (g : GraphState) : option RpcError * GraphState :=
  let candidate := mkConfig (cfg_nodes (g_config g)) (cfg_edges (g_config g) ++ [e]) in
  if negb (structural_ok candidate) then (Some EStructural, g)
  else match edge_ends candidate e with
  | None => (Some EInvalidParams, g)
  | Some (host, target) =>
      let mode := effective_write_mode candidate e in
      let r := g_rt g in
      match host_fanout r !! host, target_inbox r !! target, target_edges r !! target with
      | Some fanout, Some inbox, Some _ =>
          let origin := next_edge_origin r in
          let r := set_next_origin (origin + 1) r in
          let '(a, r) := attach_edge host target origin fanout inbox mode
                           (hostward_depth (cfg_nodes candidate) (addr_node host)) r in
          if inbox_full a then (Some EEdgeInboxFull, mkGraph (g_config g) (g_nodes g) r)
          else
            let r := record_origin target a r in
            let r := match at_registered a with
                     | Some (L, id) =>
                         if granted a && (0 <? purged)%Z then with_lock L (fun l => record_purge l id purged) r else r
                     | None => r
                     end in
            (None, mkGraph candidate (g_nodes g) r)
      | _, _, _ => (Some ENotWired, g)
      end
  end.

Definition same_edge (x y : EdgeConfig) : Prop :=
  ec_a x = ec_a y /\ ec_b x = ec_b y \/ ec_a x = ec_b y /\ ec_b x = ec_a y.

#[export] Instance same_edge_dec x y : Decision (same_edge x y).
Proof. unfold same_edge. apply _. Defined.

(** [disconnect]. *)
Definition disconnect (e : EdgeConfig) (g : GraphState) : option RpcError * GraphState :=
  let c := g_config g in
  match list_find (fun x => same_edge x e) (cfg_edges c) with
  | None => (Some EInvalidParams, g)
  | Some (index, existing) =>
      let c' := mkConfig (cfg_nodes c) (delete index (cfg_edges c)) in
      match edge_ends c existing with
      | None => (None, mkGraph c' (g_nodes g) (g_rt g))
      | Some (host, target) => (None, mkGraph c' (g_nodes g) (detach_edge_runtime host target (g_rt g)).2)
      end
  end.

(** [resolve_origin]. *)
Definition resolve_origin (origin : EndpointAddr) (g : GraphState) : option (N * OriginId) :=
  origin_locks (g_rt g) !! origin.

(** ** The run-time state mirrors the configuration *)

(** What an edge asks of the run time: its target's binding to a host, with a mode.
    It depends on the nodes only. *)
Definition facing (ns : list (NodeConfig Table)) (a : EndpointAddr) : option Facing := endpoint_facing (mkConfig ns []) a.
Definition binding (ns : list (NodeConfig Table)) (e : EdgeConfig) : option (EndpointAddr * (EndpointAddr * WriteMode)) :=
  '(h, t) ← edge_ends (mkConfig ns []) e; Some (t, (h, effective_write_mode (mkConfig ns []) e)).
Definition bindings (ns : list (NodeConfig Table)) (es : list EdgeConfig) : list (EndpointAddr * (EndpointAddr * WriteMode)) :=
  omap (binding ns) es.

(** The edge of target [t] is attached to [h] with mode [m]. *)
Record bound (r : Runtime) (t h : EndpointAddr) (m : WriteMode) (s : TargetEdge) : Prop := {
  bd_attached : attached s = true;
  bd_registered : exists L id l o, registered s = Some (L, id) /\ endpoint_locks r !! h = Some L
    /\ lock_of L r = Some l /\ origins l !! id = Some o
    /\ o_label o = addr_display t /\ o_write_mode o = m /\ id < next_edge_origin r;
  bd_writer : writer s = if bool_decide (m <> Never) then endpoint_targetward r !! h else None;
  bd_origin : origin_locks r !! t = if bool_decide (m <> Never) then registered s else None;
  bd_sink : exists f, host_fanout r !! h = Some f /\ t ∈ sink_target <$> f }.

(** The handles and the configuration agree.  [mi_lock] to [mi_inbox]: which endpoints
    have which handles; [mi_cell] to [mi_inj]: live endpoints have open locks of their
    own; [mi_bound], [mi_free]: targets with an edge and without; [mi_phantom], [mi_ids]:
    edge origins belong to one slot each; [mi_sinks]: sinks belong to edges. *)
Record mirrors (ns : list (NodeConfig Table)) (B : list (EndpointAddr * (EndpointAddr * WriteMode))) (r : Runtime) : Prop := {
  mi_lock : forall a, facing ns a = Some Host <-> is_Some (endpoint_locks r !! a);
  mi_tx : forall a, facing ns a = Some Host <-> is_Some (endpoint_targetward r !! a);
  mi_fan : forall a, facing ns a = Some Host <-> is_Some (host_fanout r !! a);
  mi_hub : forall a, facing ns a = Some Host <-> is_Some (tap_hubs r !! a);
  mi_slot : forall a, facing ns a = Some Target <-> is_Some (target_edges r !! a);
  mi_inbox : forall a, facing ns a = Some Target <-> is_Some (target_inbox r !! a);
  mi_cell : forall a L, endpoint_locks r !! a = Some L -> exists c, cells r !! L = Some c /\ cell_closed c = false;
  mi_fresh : forall L, next_cell r <= L -> cells r !! L = None;
  mi_inj : forall a b L, endpoint_locks r !! a = Some L -> endpoint_locks r !! b = Some L -> a = b;
  mi_bound : forall t h m, (t, (h, m)) ∈ B ->
    exists s, target_edges r !! t = Some s /\ bound r t h m s;
  mi_free : forall t, t ∉ (B).*1 ->
    (forall s, target_edges r !! t = Some s -> s = slot_empty) /\ origin_locks r !! t = None;
  mi_phantom : forall a L l id o, endpoint_locks r !! a = Some L -> lock_of L r = Some l ->
    origins l !! id = Some o -> id < SEND_ORIGIN_BASE ->
    exists t s, target_edges r !! t = Some s /\ registered s = Some (L, id);
  mi_ids : forall t t' s s' L L' id, target_edges r !! t = Some s -> target_edges r !! t' = Some s' ->
    registered s = Some (L, id) -> registered s' = Some (L', id) -> t = t';
  mi_sinks : forall h f, host_fanout r !! h = Some f ->
    NoDup (sink_target <$> f) /\ forall t, t ∈ sink_target <$> f -> exists m, (t, (h, m)) ∈ B;
  mi_base : next_edge_origin r < SEND_ORIGIN_BASE }.

Lemma bindings_app ns es es' : bindings ns (es ++ es') = bindings ns es ++ bindings ns es'.
Proof. apply omap_app. Qed.

Lemma binding_facing ns e t h m :
  binding ns e = Some (t, (h, m)) -> facing ns h = Some Host /\ facing ns t = Some Target.
Proof.
  unfold binding, facing. destruct (edge_ends (mkConfig ns []) e) as [[h' t']|] eqn:E; [|done]. intros [= <- <- <-].
  revert E. unfold edge_ends.
  destruct (endpoint_facing (mkConfig ns []) (ec_a e)) as [fa|] eqn:Ea,
    (endpoint_facing (mkConfig ns []) (ec_b e)) as [fb|] eqn:Eb; cbn; try done;
    destruct fa; try destruct fb; intros [= <- <-]; done.
Qed.

(** A registered slot belongs to a bound target. *)
Lemma registered_bound ns B r t s L id :
  mirrors ns B r -> target_edges r !! t = Some s -> registered s = Some (L, id) ->
  exists h m, (t, (h, m)) ∈ B /\ bound r t h m s.
Proof.
  intros M Ht Hr. destruct (decide (t ∈ B.*1)) as [Hin|Hin].
  - apply list_elem_of_fmap in Hin as ([t' [h m]] & -> & Hin).
    destruct (mi_bound _ _ _ M _ _ _ Hin) as (s' & Hs' & Bd). exists h, m. cbn in Ht.
    rewrite Ht in Hs'. injection Hs' as <-. done.
  - destruct (mi_free _ _ _ M t Hin) as [He _]. rewrite (He s Ht) in Hr. done.
Qed.

(** *** Locks that move without their edges *)

(** What an edge's registration shows of a lock. *)
Definition edge_view (l : EndpointLock) (id : OriginId) : option (string * WriteMode) :=
  (fun o => (o_label o, o_write_mode o)) <$> origins l !! id.

Lemma lock_of_with L f r L' :
  lock_of L' (with_lock L f r) = if bool_decide (L' = L) then f <$> lock_of L r else lock_of L' r.
Proof.
  unfold lock_of, with_lock. cbn. case_bool_decide as E.
  - subst. rewrite lookup_alter_eq. by destruct (cells r !! L).
  - by rewrite lookup_alter_ne.
Qed.

Lemma bound_mono r r' t h m s :
  (forall L, endpoint_locks r !! h = Some L -> endpoint_locks r' !! h = Some L) ->
  endpoint_targetward r' !! h = endpoint_targetward r !! h ->
  origin_locks r' !! t = origin_locks r !! t -> next_edge_origin r <= next_edge_origin r' ->
  (forall f, host_fanout r !! h = Some f -> t ∈ sink_target <$> f ->
     exists f', host_fanout r' !! h = Some f' /\ t ∈ sink_target <$> f') ->
  (forall L id l, endpoint_locks r !! h = Some L -> registered s = Some (L, id) -> lock_of L r = Some l ->
     id < next_edge_origin r -> exists l', lock_of L r' = Some l' /\ edge_view l' id = edge_view l id) ->
  bound r t h m s -> bound r' t h m s.
Proof.
  intros E1 E2 E3 E4 E5 Hl []. split; rewrite ?E2, ?E3; try done.
  - destruct bd_registered0 as (L & id & l & o & H1 & H2 & H3 & H4 & H5 & H6 & H7).
    destruct (Hl L id l H2 H1 H3 H7) as (l' & Hl' & Ev). unfold edge_view in Ev. rewrite H4 in Ev.
    destruct (origins l' !! id) as [o'|] eqn:Eo; [|done]. injection Ev as Ev1 Ev2.
    exists L, id, l', o'. split_and!; auto; congruence || lia.
  - destruct bd_sink0 as (f & Hf & Hin). eauto.
Qed.

Lemma mirrors_with_lock ns B r L f :
  (forall l, lock_of L r = Some l -> forall id, id < SEND_ORIGIN_BASE -> edge_view (f l) id = edge_view l id) ->
  mirrors ns B r -> mirrors ns B (with_lock L f r).
Proof.
  intros Hf M. assert (Hl : forall L' id l, lock_of L' r = Some l -> id < SEND_ORIGIN_BASE ->
    exists l', lock_of L' (with_lock L f r) = Some l' /\ edge_view l' id = edge_view l id).
  { intros L' id l Hl Hid. rewrite lock_of_with. case_bool_decide as E; [subst|eauto].
    rewrite Hl. cbn. eexists. split; [done|]. by apply Hf. }
  destruct M. split; try done.
  - intros a L' Ha. destruct (mi_cell0 a L' Ha) as (c & Hc & Hcl). cbn.
    destruct (decide (L' = L)) as [->|Hne].
    + rewrite lookup_alter_eq, Hc. cbn. eauto.
    + rewrite lookup_alter_ne by done. eauto.
  - intros L' HL. cbn. rewrite lookup_alter. case_decide; [subst|]; rewrite mi_fresh0; done.
  - intros t h m Hin. destruct (mi_bound0 t h m Hin) as (s & Hs & Bd). exists s. split; [done|].
    eapply bound_mono; [..|exact Bd]; try done; [by eauto|]. intros L' id l _ _ Hl' Hid. apply Hl; [done|lia].
  - intros a L' l id o Ha Hl' Ho Hid. rewrite lock_of_with in Hl'. case_bool_decide as E.
    + subst. destruct (lock_of L r) as [l0|] eqn:El; [|done]. injection Hl' as <-.
      specialize (Hf l0 eq_refl id Hid). unfold edge_view in Hf. rewrite Ho in Hf.
      destruct (origins l0 !! id) as [o0|] eqn:Eo; [|done]. eauto.
    + eauto.
Qed.

(** *** Attaching *)

Lemma register_view l id label mode id' :
  edge_view (register l id label mode) id' = if bool_decide (id' = id) then Some (label, mode) else edge_view l id'.
Proof. unfold edge_view. rewrite register_origins. by case_bool_decide. Qed.

(** The state after an attachment that was not refused. *)
Definition attached_rt (h t : EndpointAddr) (o : OriginId) (f : list Sink) (inbox : Bounded unit) (m : WriteMode)
    (depth : Z) (L X : N) (r : Runtime) : Runtime :=
  mkRuntime (cells (with_lock L (fun l => register l o (addr_display t) m) r)) (next_cell r) (endpoint_locks r)
    (endpoint_targetward r) (<[h := f ++ [mkSink t depth]]> (host_fanout r)) (tap_hubs r)
    (<[t := inbox]> (target_inbox r))
    (<[t := mkSlot (Some (L, o)) (if bool_decide (m <> Never) then Some X else None) true]> (target_edges r))
    (if bool_decide (m <> Never) then <[t := (L, o)]> (origin_locks r) else origin_locks r) (next_edge_origin r).

Lemma attach_spec h t o f inbox m depth r a r' L X :
  attach_edge h t o f inbox m depth r = (a, r') -> inbox_full a = false ->
  endpoint_locks r !! h = Some L -> endpoint_targetward r !! h = Some X ->
  at_registered a = Some (L, o) /\ record_origin t a r' = attached_rt h t o f (try_send inbox tt).2 m depth L X r.
Proof.
  unfold attach_edge. intros E Hf HL HX. destruct (try_send inbox tt) as [sent inbox'].
  assert (G : forall x, x = SendFull \/ x <> SendFull) by (intros []; auto).
  destruct (G sent) as [->|Hs]; [by injection E as <- <-|].
  cbn in E. rewrite HL in E. cbn in E. rewrite HX in E.
  destruct sent; [|done|]; injection E as <- <-; cbn; (split; [done|]); unfold record_origin, attached_rt; cbn;
    repeat case_bool_decide; done.
Qed.

Lemma mirrors_attach ns B t h m f inbox depth L X r :
  mirrors ns B r -> facing ns h = Some Host -> facing ns t = Some Target -> t ∉ B.*1 ->
  host_fanout r !! h = Some f -> endpoint_locks r !! h = Some L -> endpoint_targetward r !! h = Some X ->
  next_edge_origin r + 1 < SEND_ORIGIN_BASE ->
  mirrors ns (B ++ [(t, (h, m))])
    (attached_rt h t (next_edge_origin r) f inbox m depth L X (set_next_origin (next_edge_origin r + 1) r)).
Proof.
  intros M Fh Ft Hnew Hf HL HX Hn. set (o := next_edge_origin r) in *.
  assert (Hreg : forall t' s L' id, target_edges r !! t' = Some s -> registered s = Some (L', id) -> id < o /\ t' <> t).
  { intros t' s L' id Ht' Hr. destruct (registered_bound _ _ _ _ _ _ _ M Ht' Hr) as (h' & m' & Hin & Bd).
    destruct (bd_registered _ _ _ _ _ Bd) as (L2 & id2 & _ & _ & E2 & _ & _ & _ & _ & _ & Hlt).
    split; [unfold o; congruence|]. intros ->. apply Hnew. apply list_elem_of_fmap. by exists (t, (h', m')). }
  destruct (mi_cell _ _ _ M h L HL) as (c & Hc & Hcl).
  set (r' := attached_rt _ _ _ _ _ _ _ _ _ _).
  assert (HlL : lock_of L r = Some (cell_lock c)) by (unfold lock_of; by rewrite Hc).
  assert (Hlk : forall L', lock_of L' r' = if bool_decide (L' = L)
            then Some (register (cell_lock c) o (addr_display t) m) else lock_of L' r).
  { intros L'. unfold r'. pose proof (lock_of_with L (fun l => register l o (addr_display t) m) r L') as W.
    unfold lock_of in *. cbn in *. rewrite W. case_bool_decide; [|done]. by rewrite Hc. }
  destruct M. split; try done.
  - intros a. rewrite mi_fan0. unfold r'. cbn. destruct (decide (a = h)) as [->|]; [|by rewrite lookup_insert_ne].
    rewrite lookup_insert_eq, Hf. done.
  - intros a. rewrite mi_slot0. unfold r'. cbn. destruct (decide (a = t)) as [->|]; [|by rewrite lookup_insert_ne].
    rewrite lookup_insert_eq. split; [done|]. intros _. by apply mi_slot0.
  - intros a. rewrite mi_inbox0. unfold r'. cbn. destruct (decide (a = t)) as [->|]; [|by rewrite lookup_insert_ne].
    rewrite lookup_insert_eq. split; [done|]. intros _. by apply mi_inbox0.
  - intros a L' Ha. unfold r'. cbn. rewrite lookup_alter. destruct (mi_cell0 a L' Ha) as (c' & Hc' & Hcl').
    case_decide; subst; rewrite Hc'; cbn; eauto.
  - intros L' HL'. unfold r'. cbn. rewrite lookup_alter. case_decide; subst; rewrite mi_fresh0; done.
  - intros t' h' m' Hin. rewrite elem_of_app, list_elem_of_singleton in Hin. destruct Hin as [Hin|[= -> -> ->]].
    + destruct (mi_bound0 t' h' m' Hin) as (s & Hs & Bd).
      assert (t' <> t) by (intros ->; apply Hnew, list_elem_of_fmap; by exists (t, (h', m'))).
      exists s. split; [unfold r'; cbn; by rewrite lookup_insert_ne|].
      eapply bound_mono; [..|exact Bd]; try done.
      * unfold r'. cbn. case_bool_decide; [by rewrite lookup_insert_ne|done].
      * unfold r'. cbn. lia.
      * intros f' Hf' Hin'. unfold r'. cbn. destruct (decide (h' = h)) as [->|].
        -- rewrite lookup_insert_eq. eexists. split; [done|]. rewrite Hf in Hf'. injection Hf' as <-.
           rewrite fmap_app, elem_of_app. by left.
        -- rewrite lookup_insert_ne by done. eauto.
      * intros L' id l _ Hr Hl Hid. rewrite Hlk. case_bool_decide as E; [subst L'|eauto].
        rewrite HlL in Hl. injection Hl as <-. eexists. split; [done|].
        rewrite register_view, bool_decide_false; [done|]. unfold o. lia.
    + exists (mkSlot (Some (L, o)) (if bool_decide (m <> Never) then Some X else None) true).
      split; [unfold r'; cbn; by rewrite lookup_insert_eq|]. split; cbn; try done.
      * exists L, o, (register (cell_lock c) o (addr_display t) m), (mkOrigin (addr_display t) m 0).
        rewrite Hlk, bool_decide_true by done. rewrite register_origins, bool_decide_true by done.
        split_and!; try done. lia.
      * case_bool_decide; [|done]. by rewrite HX.
      * case_bool_decide; [by rewrite lookup_insert_eq|]. by apply mi_free0.
      * eexists. rewrite lookup_insert_eq. split; [done|]. rewrite fmap_app, elem_of_app. right. by left.
  - intros t' Hin. rewrite fmap_app, not_elem_of_app in Hin. destruct Hin as [Hin Ht'].
    assert (t' <> t) by (intros ->; apply Ht'; by left). unfold r'. cbn. rewrite lookup_insert_ne by done.
    destruct (mi_free0 t' Hin) as [H1 H2]. split; [done|]. case_bool_decide; [by rewrite lookup_insert_ne|done].
  - intros a L' l id o' Ha Hl Ho Hid. rewrite Hlk in Hl. case_bool_decide as E.
    + subst L'. injection Hl as <-. rewrite register_origins in Ho. case_bool_decide as E.
      * subst id. exists t. eexists. split; [unfold r'; cbn; by rewrite lookup_insert_eq|done].
      * destruct (mi_phantom0 a L (cell_lock c) id o' Ha HlL Ho Hid) as (t' & s & Ht' & Hr').
        exists t', s. destruct (Hreg _ _ _ _ Ht' Hr') as [_ ?]. unfold r'. cbn. by rewrite lookup_insert_ne.
    + destruct (mi_phantom0 a L' l id o' Ha Hl Ho Hid) as (t' & s & Ht' & Hr').
      exists t', s. destruct (Hreg _ _ _ _ Ht' Hr') as [_ ?]. unfold r'. cbn. by rewrite lookup_insert_ne.
  - intros t1 t2 s1 s2 L1 L2 id. unfold r'. cbn. rewrite !lookup_insert.
    destruct (decide (t = t1)), (decide (t = t2)); subst; try done.
    + intros [= <-] K2 [= <- <-] R2. destruct (Hreg _ _ _ _ K2 R2). lia.
    + intros K1 [= <-] R1 [= <- <-]. destruct (Hreg _ _ _ _ K1 R1). lia.
    + intros K1 K2 R1 R2. by eapply mi_ids0.
  - intros h' f'. unfold r'. cbn. rewrite lookup_insert. case_decide as E.
    + subst h'. intros [= <-]. destruct (mi_sinks0 h f Hf) as [Hnd Hsub]. rewrite fmap_app. split.
      * apply NoDup_app. split_and!; [done| |apply NoDup_singleton].
        intros t' Hin ->%list_elem_of_singleton. destruct (Hsub _ Hin) as [m' Hm'].
        apply Hnew, list_elem_of_fmap. by exists (t, (h, m')).
      * intros t'. rewrite elem_of_app. setoid_rewrite elem_of_app.
        intros [Hin| ->%list_elem_of_singleton]; [destruct (Hsub _ Hin); eauto|]. exists m. right. by left.
    + intros Hf'. destruct (mi_sinks0 h' f' Hf') as [Hnd Hsub]. split; [done|]. intros t' Hin.
      destruct (Hsub _ Hin) as [m' Hm']. exists m'. rewrite elem_of_app. by left.
Qed.

(** *** Detaching *)

Lemma alter_present {K A} `{Countable K} (f : A -> A) (k : K) (x : A) (mp : gmap K A) :
  mp !! k = Some x -> alter f k mp = <[k := f x]> mp.
Proof.
  intros E. apply map_eq. intros k'. rewrite lookup_alter, lookup_insert.
  case_decide; [subst; by rewrite E|done].
Qed.

Lemma NoDup_fst_fun {A B} (l : list (A * B)) a b b' : NoDup l.*1 -> (a, b) ∈ l -> (a, b') ∈ l -> b = b'.
Proof.
  induction l as [|[x y] l IH]; cbn; [by intros _ ?%elem_of_nil|]. intros [Hx Hl]%NoDup_cons.
  assert (Hno : forall z, (x, z) ∈ l -> False) by (intros z Hz; apply Hx; by apply (list_elem_of_fmap_2 fst l (x, z))).
  rewrite !elem_of_cons. intros [E1|Hb] [E2|Hb']; simplify_eq; auto; exfalso; eauto.
Qed.

Definition detached_rt (h t : EndpointAddr) (L id : N) (f : list Sink) (r : Runtime) : Runtime :=
  mkRuntime (cells (with_lock L (fun l => (unregister l id).2) r)) (next_cell r) (endpoint_locks r)
    (endpoint_targetward r) (<[h := filter (fun s => sink_target s <> t) f]> (host_fanout r)) (tap_hubs r)
    (target_inbox r) (<[t := slot_empty]> (target_edges r)) (delete t (origin_locks r)) (next_edge_origin r).

Lemma detach_runtime_spec h t s L id f r :
  host_fanout r !! h = Some f -> target_edges r !! t = Some s -> registered s = Some (L, id) ->
  (detach_edge_runtime h t r).2 = detached_rt h t L id f r.
Proof.
  intros Hf Hs Hr. unfold detach_edge_runtime. rewrite Hf. cbn.
  rewrite (alter_present _ t s (target_edges r) Hs), lookup_insert_eq. cbn. rewrite Hr.
  unfold detached_rt, set_edges. cbn. f_equal.
  rewrite (alter_present _ t (mkSlot (Some (L, id)) None false)) by (by rewrite lookup_insert_eq).
  by rewrite insert_insert_eq.
Qed.

Lemma unregister_view l id id' :
  edge_view (unregister l id).2 id' = if bool_decide (id' = id) then None else edge_view l id'.
Proof. unfold edge_view. rewrite unregister_origins. by case_bool_decide. Qed.

Lemma mirrors_detach ns B t h m s L id f r :
  mirrors ns B r -> (t, (h, m)) ∈ B -> NoDup B.*1 ->
  host_fanout r !! h = Some f -> target_edges r !! t = Some s -> registered s = Some (L, id) ->
  mirrors ns (filter (fun p => p.1 <> t) B) (detached_rt h t L id f r).
Proof.
  intros M Hin Hnd Hf Hs Hr.
  assert (Hbs : forall p, p ∈ filter (fun p => p.1 <> t) B <-> p ∈ B /\ p.1 <> t).
  { intros p. rewrite list_elem_of_filter. tauto. }
  destruct (mi_bound _ _ _ M _ _ _ Hin) as (s' & Hs' & Bd). rewrite Hs in Hs'. injection Hs' as <-.
  destruct (bd_registered _ _ _ _ _ Bd) as (L' & id' & l & o & Er & HL & Hl & Ho & _ & _ & Hid).
  rewrite Hr in Er. injection Er as <- <-. pose proof (mi_base _ _ _ M) as Hbase.
  set (r' := detached_rt _ _ _ _ _ _).
  assert (Hlk : forall L', lock_of L' r' = if bool_decide (L' = L) then Some (unregister l id).2 else lock_of L' r).
  { intros L'. unfold r'. pose proof (lock_of_with L (fun l => (unregister l id).2) r L') as W.
    unfold lock_of in *. cbn in *. rewrite W. case_bool_decide; [|done]. by rewrite Hl. }
  destruct M. split; try done.
  - intros a. rewrite mi_fan0. unfold r'. cbn. destruct (decide (a = h)) as [->|]; [|by rewrite lookup_insert_ne].
    by rewrite lookup_insert_eq, Hf.
  - intros a. rewrite mi_slot0. unfold r'. cbn. destruct (decide (a = t)) as [->|]; [|by rewrite lookup_insert_ne].
    by rewrite lookup_insert_eq, Hs.
  - intros a L' Ha. unfold r'. cbn. rewrite lookup_alter. destruct (mi_cell0 a L' Ha) as (c' & Hc' & Hcl').
    case_decide; subst; rewrite Hc'; cbn; eauto.
  - intros L' HL'. unfold r'. cbn. rewrite lookup_alter. case_decide; subst; rewrite mi_fresh0; done.
  - intros t' h' m' [Hin' Hne]%Hbs. cbn in Hne. destruct (mi_bound0 t' h' m' Hin') as (s' & Hs' & Bd').
    exists s'. split; [unfold r'; cbn; by rewrite lookup_insert_ne|]. eapply bound_mono; [..|exact Bd']; try done.
    + unfold r'. cbn. by rewrite lookup_delete_ne.
    + intros f' Hf' Hin2. unfold r'. cbn. destruct (decide (h' = h)) as [->|].
      * rewrite lookup_insert_eq. eexists. split; [done|]. rewrite Hf in Hf'. injection Hf' as <-.
        apply list_elem_of_fmap in Hin2 as (k & -> & Hk). apply list_elem_of_fmap_2.
        by apply list_elem_of_filter.
      * rewrite lookup_insert_ne by done. eauto.
    + intros L' id' l' _ Hr' Hl' Hid'. rewrite Hlk. case_bool_decide as E; [subst L'|eauto].
      rewrite Hl in Hl'. injection Hl' as <-. eexists. split; [done|].
      rewrite unregister_view, bool_decide_false; [done|]. intros ->. apply Hne.
      by eapply mi_ids0.
  - intros t' Hin'. unfold r'. cbn. destruct (decide (t' = t)) as [->|Hne].
    + rewrite lookup_insert_eq, lookup_delete_eq. split; [by intros ? [= <-]|done].
    + rewrite lookup_insert_ne, lookup_delete_ne by done. apply mi_free0. intros Hin2. apply Hin'.
      apply list_elem_of_fmap in Hin2 as (p & -> & Hp). apply list_elem_of_fmap_2. by apply Hbs.
  - intros a L' l' id' o' Ha Hl' Ho' Hid'. rewrite Hlk in Hl'. case_bool_decide as E.
    + subst L'. injection Hl' as <-. rewrite unregister_origins in Ho'. case_bool_decide as E; [done|].
      destruct (mi_phantom0 a L l id' o' Ha Hl Ho' Hid') as (t' & s' & Ht' & Hr').
      exists t', s'. split; [|done]. unfold r'. cbn. rewrite lookup_insert_ne; [done|]. intros ->. congruence.
    + destruct (mi_phantom0 a L' l' id' o' Ha Hl' Ho' Hid') as (t' & s' & Ht' & Hr').
      exists t', s'. split; [|done]. unfold r'. cbn. rewrite lookup_insert_ne; [done|]. intros ->. congruence.
  - intros t1 t2 s1 s2 L1 L2 id'. unfold r'. cbn. rewrite !lookup_insert.
    destruct (decide (t = t1)), (decide (t = t2)); subst; try done.
    + by intros [= <-].
    + by intros _ [= <-].
    + intros K1 K2 R1 R2. by eapply mi_ids0.
  - intros h' f'. unfold r'. cbn. rewrite lookup_insert. destruct (decide (h = h')) as [->|Hne].
    + intros [= <-]. destruct (mi_sinks0 h' f Hf) as [Hnd' Hsub]. split.
      * by apply NoDup_fmap_filter.
      * intros t' (k & -> & [Hk Hk2]%list_elem_of_filter)%list_elem_of_fmap.
        destruct (Hsub (sink_target k)) as [m' Hm']; [by apply list_elem_of_fmap_2|]. exists m'. by apply Hbs.
    + intros Hf'. destruct (mi_sinks0 h' f' Hf') as [Hnd' Hsub]. split; [done|]. intros t' Hin2.
      destruct (Hsub t' Hin2) as [m' Hm']. exists m'. apply Hbs. split; [done|]. cbn. intros ->.
      apply Hne. by injection (NoDup_fst_fun _ _ _ _ Hnd Hin Hm').
Qed.

(** *** The endpoints of the nodes *)

Record legal_nodes (ns : list (NodeConfig Table)) : Prop := {
  ln_names : NoDup (node_name <$> ns);
  ln_endpoints : forall n, n ∈ ns -> NoDup (ep_name <$> shape_endpoints (node_shape n)) }.

(** Searching by a key that is unique finds the element. *)
Lemma find_first_key {A} (key : A -> string) (l : list A) k x :
  NoDup (key <$> l) -> find_first (fun y => String.eqb (key y) k) l = Some x <-> x ∈ l /\ key x = k.
Proof.
  intros Hnd. split; [by intros [? ?%String.eqb_eq]%find_first_Some|].
  induction l as [|y l IH]; [by intros [?%elem_of_nil _]|]. rewrite fmap_cons in Hnd.
  apply NoDup_cons in Hnd as [Hy Hnd]. rewrite elem_of_cons. cbn. intros [[->|Hx] <-].
  - by rewrite String.eqb_refl.
  - destruct (String.eqb_spec (key y) (key x)) as [E|]; [|auto].
    exfalso. apply Hy. rewrite E. by apply list_elem_of_fmap_2.
Qed.

Definition has_facing (eps : list (EndpointAddr * EndpointSpec * option Z)) (a : EndpointAddr) (f : Facing) : Prop :=
  exists ep ring, (a, ep, ring) ∈ eps /\ ep_facing ep = f.

Lemma elem_of_endpoints ns a ep ring :
  (a, ep, ring) ∈ endpoints_of ns <->
  exists n, n ∈ ns /\ ep ∈ shape_endpoints (node_shape n) /\ a = mkAddr (node_name n) (ep_name ep)
    /\ ring = node_replay_ring n.
Proof.
  unfold endpoints_of. rewrite list_elem_of_join. split.
  - intros (l & Hin & (n & -> & Hn)%list_elem_of_fmap). unfold node_endpoints in Hin.
    apply list_elem_of_fmap in Hin as (ep' & [= -> -> ->] & Hep). eauto 10.
  - intros (n & Hn & Hep & -> & ->). exists (node_endpoints n). split; [|by apply list_elem_of_fmap_2].
    unfold node_endpoints. apply list_elem_of_fmap. eauto.
Qed.

Lemma facing_spec ns a f : legal_nodes ns -> facing ns a = Some f <-> has_facing (endpoints_of ns) a f.
Proof.
  intros [Hn He]. unfold facing, endpoint_facing, node_named, has_facing. cbn [cfg_nodes]. split.
  - destruct (find_first _ ns) as [n|] eqn:E; [|done]. cbn [mbind option_bind].
    intros (ep & Hep & ->)%fmap_Some. apply find_first_key in E as [Hin Hname]; [|done].
    apply find_first_key in Hep as [Hep Hepn]; [|auto]. exists ep, (node_replay_ring n). split; [|done].
    apply elem_of_endpoints. exists n. split_and!; try done. destruct a. cbn in *. congruence.
  - intros (ep & ring & (n & Hin & Hep & -> & ->)%elem_of_endpoints & <-). cbn [addr_node addr_endpoint].
    rewrite (proj2 (find_first_key node_name ns (node_name n) n Hn)) by done. cbn [mbind option_bind].
    rewrite (proj2 (find_first_key ep_name _ (ep_name ep) ep (He n Hin))) by done. done.
Qed.

(** The endpoint loop of [build]. *)
Record wired (cell : N) (eps : list (EndpointAddr * EndpointSpec * option Z)) (r : Runtime) : Prop := {
  wi_lock : forall a, has_facing eps a Host <-> is_Some (endpoint_locks r !! a);
  wi_tx : forall a, has_facing eps a Host <-> is_Some (endpoint_targetward r !! a);
  wi_fan : forall a, has_facing eps a Host <-> is_Some (host_fanout r !! a);
  wi_hub : forall a, has_facing eps a Host <-> is_Some (tap_hubs r !! a);
  wi_slot : forall a, has_facing eps a Target <-> is_Some (target_edges r !! a);
  wi_inbox : forall a, has_facing eps a Target <-> is_Some (target_inbox r !! a);
  wi_cell : forall a L, endpoint_locks r !! a = Some L ->
    exists arb, cells r !! L = Some (mkCell (Lock.new arb) false);
  wi_range : forall L, is_Some (cells r !! L) -> cell <= L < next_cell r;
  wi_next : cell <= next_cell r;
  wi_inj : forall a b L, endpoint_locks r !! a = Some L -> endpoint_locks r !! b = Some L -> a = b;
  wi_empty : forall a s, target_edges r !! a = Some s -> s = slot_empty;
  wi_fresh_inbox : forall a b, target_inbox r !! a = Some b -> b = channel EDGE_INBOX_CAP;
  wi_sinks : forall a f, host_fanout r !! a = Some f -> f = [];
  wi_origins : origin_locks r = ∅;
  wi_counter : next_edge_origin r = 0 }.

Lemma has_facing_snoc eps a ep ring b f :
  has_facing (eps ++ [(a, ep, ring)]) b f <-> has_facing eps b f \/ (b = a /\ ep_facing ep = f).
Proof.
  unfold has_facing. setoid_rewrite elem_of_app. setoid_rewrite list_elem_of_singleton. split.
  - intros (ep' & ring' & [?|[= -> -> ->]] & ?); eauto.
  - intros [(ep' & ring' & ? & ?)|[-> ?]]; eauto 10.
Qed.

Lemma is_Some_insert {A} (mp : gmap EndpointAddr A) k x a :
  is_Some (<[k := x]> mp !! a) <-> a = k \/ is_Some (mp !! a).
Proof. rewrite lookup_insert. case_decide; [subst; split; eauto|naive_solver]. Qed.

Lemma wire_endpoints cell eps : wired cell eps (foldl wire_endpoint (runtime_empty cell) eps).
Proof.
  induction eps as [|[[a ep] ring] eps IH] using rev_ind.
  { split; cbn; try done; try (by intros a; split; [intros (? & ? & []%elem_of_nil & _)|rewrite lookup_empty; intros []]);
      try (by intros *; rewrite lookup_empty); intros L; rewrite lookup_empty; by intros []. }
  rewrite foldl_app. cbn [foldl]. set (r := foldl wire_endpoint _ eps) in *. destruct IH.
  unfold wire_endpoint. destruct (ep_facing ep) eqn:Ef.
  - split; cbn; try done; try (intros b; rewrite has_facing_snoc, Ef, ?is_Some_insert; naive_solver).
    + intros b s. rewrite lookup_insert. case_decide; [by intros [= <-]|by apply wi_empty0].
    + intros b s. rewrite lookup_insert. case_decide; [by intros [= <-]|by apply wi_fresh_inbox0].
  - assert (Hnew : cells r !! next_cell r = None).
    { destruct (cells r !! next_cell r) eqn:E; [|done].
      destruct (wi_range0 (next_cell r)); [by rewrite E|lia]. }
    assert (Hold : forall b L, endpoint_locks r !! b = Some L -> L <> next_cell r).
    { intros b L Hb ->. destruct (wi_cell0 _ _ Hb). congruence. }
    split; cbn; try done; try (intros b; rewrite has_facing_snoc, Ef, ?is_Some_insert; naive_solver).
    + intros b L. rewrite !lookup_insert. destruct (decide (a = b)).
      * intros [= <-]. rewrite decide_True by done. eauto.
      * intros Hb. rewrite decide_False by (intros E; by eapply Hold). eauto.
    + intros L. rewrite lookup_insert. case_decide; [subst; lia|]. intros HL%wi_range0. lia.
    + lia.
    + intros b b' L. rewrite !lookup_insert. destruct (decide (a = b)), (decide (a = b')); try congruence; eauto.
      * intros [= <-] Hb. by apply Hold in Hb.
      * intros Hb [= <-]. by apply Hold in Hb.
    + intros b f. rewrite lookup_insert. case_decide; [by intros [= <-]|by apply wi_sinks0].
Qed.

Lemma mirrors_wired ns cell r :
  legal_nodes ns -> wired cell (endpoints_of ns) r -> mirrors ns [] r.
Proof.
  intros Hl []. split; try (intros a; rewrite facing_spec by done; auto); try done.
  - intros a L Ha. destruct (wi_cell0 a L Ha) as [arb E]. eauto.
  - intros L HL. destruct (cells r !! L) eqn:E; [|done]. destruct (wi_range0 L); [by rewrite E|]. lia.
  - by intros ? ? ? ?%elem_of_nil.
  - intros t _. rewrite wi_origins0, lookup_empty. split; [|done]. by apply wi_empty0.
  - intros a L l id o Ha Hlk Ho _. destruct (wi_cell0 a L Ha) as [arb E]. unfold lock_of in Hlk.
    rewrite E in Hlk. injection Hlk as <-. cbn in Ho. by rewrite lookup_empty in Ho.
  - intros t t' s s' L L' id Ha _ Hr _. apply wi_empty0 in Ha as ->. done.
  - intros h f Ha. apply wi_sinks0 in Ha as ->. split; [constructor|]. by intros t ?%elem_of_nil.
  - rewrite wi_counter0. done.
Qed.

(** The facing table agrees with the configuration's own orientation. *)
Lemma facing_map_spec ns a : legal_nodes ns -> facing_map ns !! a = facing ns a.
Proof.
  intros Hl. unfold facing_map.
  assert (H : forall eps (m0 : gmap EndpointAddr Facing),
    let m := foldl (fun m p => <[p.1.1 := ep_facing p.1.2]> m) m0 eps in
    (forall f, m !! a = Some f -> has_facing eps a f \/ m0 !! a = Some f)
    /\ (forall f, has_facing eps a f -> is_Some (m !! a))).
  { induction eps as [|[[b ep] ring] eps IH] using rev_ind; intros m0.
    - split; [auto|]. intros f (? & ? & []%elem_of_nil & _).
    - cbn. rewrite foldl_app. cbn. destruct (IH m0) as [I1 I2]. split; intros f.
      + rewrite lookup_insert, has_facing_snoc. case_decide; [intros [= <-]; auto|].
        intros [?|?]%I1; auto.
      + rewrite has_facing_snoc, is_Some_insert. intros [?%I2|[-> _]]; auto. }
  destruct (H (endpoints_of ns) ∅) as [H1 H2]. cbn in *.
  set (m := foldl _ ∅ _) in *. destruct (m !! a) as [f|] eqn:E.
  - symmetry. apply facing_spec; [done|]. destruct (H1 f eq_refl) as [?|F]; [done|].
    by rewrite lookup_empty in F.
  - destruct (facing ns a) as [f|] eqn:F; [|done]. apply facing_spec in F; [|done].
    apply H2 in F as [? ?]. done.
Qed.

Lemma binding_ends ns e t h m :
  binding ns e = Some (t, (h, m)) ->
  edge_ends (mkConfig ns []) e = Some (h, t) /\ effective_write_mode (mkConfig ns []) e = m.
Proof.
  unfold binding. destruct (edge_ends (mkConfig ns []) e) as [[h' t']|]; [|done]. by intros [= <- <- <-].
Qed.

(** Inboxes of targets without an edge are as they were made. *)
Definition inboxes_fresh (ns : list (NodeConfig Table)) (es : list EdgeConfig) (r : Runtime) : Prop :=
  forall t b, t ∉ (bindings ns es).*1 -> target_inbox r !! t = Some b -> b = channel EDGE_INBOX_CAP.

Lemma wire_edge_spec ns es e t h m r :
  legal_nodes ns -> mirrors ns (bindings ns es) r -> binding ns e = Some (t, (h, m)) -> t ∉ (bindings ns es).*1 ->
  inboxes_fresh ns es r ->
  exists f L X, host_fanout r !! h = Some f /\ endpoint_locks r !! h = Some L /\ endpoint_targetward r !! h = Some X
    /\ wire_edge ns (facing_map ns) r e =
       attached_rt h t (next_edge_origin r) f (try_send (channel EDGE_INBOX_CAP) tt).2 m
         (hostward_depth ns (addr_node h)) L X (set_next_origin (next_edge_origin r + 1) r).
Proof.
  intros Hl M Hb Hnew Hi. destruct (binding_facing _ _ _ _ _ Hb) as [Fh Ft].
  destruct (binding_ends _ _ _ _ _ Hb) as [He Hm].
  destruct (proj1 (mi_fan _ _ _ M h) Fh) as [f Hf]. destruct (proj1 (mi_lock _ _ _ M h) Fh) as [L HL].
  destruct (proj1 (mi_tx _ _ _ M h) Fh) as [X HX]. destruct (proj1 (mi_inbox _ _ _ M t) Ft) as [b Hib].
  destruct (proj1 (mi_slot _ _ _ M t) Ft) as [s Hs]. exists f, L, X. split_and!; try done.
  unfold wire_edge. rewrite !facing_map_spec by done.
  assert (match facing ns (ec_a e), facing ns (ec_b e) with
          | Some Host, Some Target => Some (ec_a e, ec_b e)
          | Some Target, Some Host => Some (ec_b e, ec_a e)
          | _, _ => None end = Some (h, t)) as ->.
  { revert He. unfold edge_ends, facing.
    destruct (endpoint_facing (mkConfig ns []) (ec_a e)) as [fa|], (endpoint_facing (mkConfig ns []) (ec_b e)) as [fb|];
      cbn; try done; destruct fa; try destruct fb; done. }
  rewrite Hf, Hib, Hs, Hm. rewrite (Hi t b Hnew Hib).
  destruct (attach_edge _ _ _ _ _ _ _ _) as [a r'] eqn:Ea.
  assert (Hfull : inbox_full a = false) by (revert Ea; unfold attach_edge; cbn; intros [= <- _]; done).
  by destruct (attach_spec _ _ _ _ _ _ _ _ _ _ L X Ea Hfull HL HX) as [_ ->].
Qed.

(** The edge loop of [build], with any further property [P] an attachment keeps. *)
Lemma wire_edges (P : Runtime -> Prop) ns es0 es r :
  (forall B h t f inbox m depth L X r, mirrors ns B r -> endpoint_locks r !! h = Some L -> P r ->
     P (attached_rt h t (next_edge_origin r) f inbox m depth L X (set_next_origin (next_edge_origin r + 1) r))) ->
  P r -> legal_nodes ns -> mirrors ns (bindings ns es0) r -> inboxes_fresh ns es0 r ->
  NoDup (bindings ns (es0 ++ es)).*1 -> (forall e, e ∈ es -> is_Some (binding ns e)) ->
  next_edge_origin r + N.of_nat (length es) < SEND_ORIGIN_BASE ->
  let r' := foldl (wire_edge ns (facing_map ns)) r es in
  mirrors ns (bindings ns (es0 ++ es)) r' /\ next_edge_origin r' = next_edge_origin r + N.of_nat (length es)
  /\ next_cell r' = next_cell r /\ inboxes_fresh ns (es0 ++ es) r' /\ P r'.
Proof.
  intros HP HPr Hl. revert es0 r HPr. induction es as [|e es IH]; intros es0 r HPr M Hi Hnd Hall Hn; cbn [foldl].
  { rewrite app_nil_r. split_and!; [done|cbn; lia|done..]. }
  destruct (Hall e) as [[t [h m]] Hb]; [left|].
  assert (Hnew : t ∉ (bindings ns es0).*1).
  { rewrite bindings_app, fmap_app in Hnd. apply NoDup_app in Hnd as (_ & Hd & _). intros Hin. apply (Hd t Hin).
    unfold bindings. cbn [omap list_omap]. rewrite Hb. left. }
  destruct (wire_edge_spec ns es0 e t h m r Hl M Hb Hnew Hi) as (f & L & X & Hf & HL & HX & E).
  rewrite E. rewrite (cons_middle e), app_assoc in Hnd |- *. cbn [length] in Hn.
  edestruct (IH (es0 ++ [e])) as (M' & Hn' & Hc' & Hi' & HP').
  - by eapply HP.
  - destruct (binding_facing _ _ _ _ _ Hb). rewrite bindings_app. unfold bindings at 2. cbn [omap list_omap].
    rewrite Hb. apply mirrors_attach; try done. lia.
  - intros t' b' Hin. rewrite bindings_app, fmap_app, not_elem_of_app in Hin. destruct Hin as [Hin Ht'].
    cbn. rewrite lookup_insert_ne; [by apply Hi|]. intros <-. apply Ht'. unfold bindings. cbn [omap list_omap].
    rewrite Hb. left.
  - done.
  - intros e' He'. apply Hall. by right.
  - cbn. lia.
  - split_and!; [done| |done..]. rewrite Hn'. cbn. lia.
Qed.

(** *** Parts of a valid configuration are valid *)

Implicit Types (c : GraphConfig Table).

Lemma sublist_omap {A B} (f : A -> option B) (l l' : list A) :
  l `sublist_of` l' -> omap f l `sublist_of` omap f l'.
Proof.
  induction 1 as [|x l l' _ IH|x l l' _ IH]; [constructor| |]; cbn [omap list_omap]; destruct (f x); auto;
    by constructor.
Qed.

(** Two configurations see the same nodes behind an edge. *)
Definition same_nodes (c c' : GraphConfig Table) (e : EdgeConfig) : Prop :=
  node_named c' (addr_node (ec_a e)) = node_named c (addr_node (ec_a e))
  /\ node_named c' (addr_node (ec_b e)) = node_named c (addr_node (ec_b e)).

Lemma same_nodes_ends c c' e : same_nodes c c' e -> edge_ends c' e = edge_ends c e.
Proof. intros [Ha Hb]. unfold edge_ends, endpoint_facing. by rewrite Ha, Hb. Qed.

Lemma edge_ends_cases (c : GraphConfig Table) e h t :
  edge_ends c e = Some (h, t) -> h = ec_a e /\ t = ec_b e \/ h = ec_b e /\ t = ec_a e.
Proof.
  unfold edge_ends. destruct (endpoint_facing c (ec_a e)) as [fa|], (endpoint_facing c (ec_b e)) as [fb|];
    cbn; try done; destruct fa; try destruct fb; intros [= <- <-]; auto.
Qed.

Lemma same_nodes_named c c' e h t :
  same_nodes c c' e -> edge_ends c e = Some (h, t) ->
  node_named c' (addr_node h) = node_named c (addr_node h) /\ node_named c' (addr_node t) = node_named c (addr_node t).
Proof. intros [Ha Hb] [[-> ->]|[-> ->]]%edge_ends_cases; done. Qed.

Lemma same_nodes_mode c c' e : same_nodes c c' e -> effective_write_mode c' e = effective_write_mode c e.
Proof.
  intros S. unfold effective_write_mode. rewrite (same_nodes_ends c c' e S).
  destruct (edge_ends c e) as [[h t]|] eqn:E; [|done].
  destruct (same_nodes_named c c' e h t S E) as [_ Ht]. unfold named_is. by rewrite Ht.
Qed.

Lemma same_nodes_held c c' e : same_nodes c c' e -> held_at c' e = held_at c e.
Proof.
  intros S. unfold held_at. rewrite (same_nodes_ends c c' e S), (same_nodes_mode c c' e S).
  destruct (edge_ends c e) as [[h t]|] eqn:E; [|done]. cbn.
  destruct (same_nodes_named c c' e h t S E) as [Hh _]. unfold endpoint_arbitrates. by rewrite Hh.
Qed.

Lemma node_named_in c name n : node_named c name = Some n -> n ∈ cfg_nodes c /\ node_name n = name.
Proof. intros [? ?%String.eqb_eq]%find_first_Some. done. Qed.

Lemma omap_ext_in {A B} (f g : A -> option B) (l : list A) : (forall x, x ∈ l -> f x = g x) -> omap f l = omap g l.
Proof.
  induction l as [|x l IH]; intros H; [done|]. cbn [omap list_omap]. rewrite (H x) by left.
  rewrite IH; [done|]. intros y Hy. apply H. by right.
Qed.

(** A target has one edge. *)
Lemma targets_nodup c : config_ok c -> NoDup (omap (fun e => snd <$> edge_ends c e) (cfg_edges c)).
Proof.
  intros Hok. pose proof (ok_unique _ Hok) as Hnd. apply NoDup_omap_iff. intros i j t Hi Hj.
  destruct (cfg_edges c !! i) as [ei|] eqn:Ei; [|done]. destruct (cfg_edges c !! j) as [ej|] eqn:Ej; [|done].
  cbn in *. apply fmap_Some in Hi as ([hi ti] & Hi & ->). apply fmap_Some in Hj as ([hj tj] & Hj & Et).
  cbn in Et. subst tj. apply (edge_ends_joins _ _ _ _ Hnd) in Hi. apply (edge_ends_joins _ _ _ _ Hnd) in Hj.
  apply (wf_rule2 _ (ok_graph _ Hok) i j (edge_spec ei) (edge_spec ej) hi hj ti); try done;
    by rewrite to_model_edges, list_lookup_fmap, ?Ei, ?Ej.
Qed.

Lemma config_ok_targets c :
  config_ok c -> NoDup (bindings (cfg_nodes c) (cfg_edges c)).*1
    /\ forall e, e ∈ cfg_edges c -> is_Some (binding (cfg_nodes c) e).
Proof.
  intros Hok. pose proof (ok_unique _ Hok) as Hnd. split.
  - assert ((bindings (cfg_nodes c) (cfg_edges c)).*1 = omap (fun e => snd <$> edge_ends c e) (cfg_edges c)) as ->.
    { unfold bindings. induction (cfg_edges c) as [|e es IH]; [done|]. cbn [omap list_omap].
      unfold binding at 1. change (edge_ends (mkConfig (cfg_nodes c) []) e) with (edge_ends c e).
      destruct (edge_ends c e) as [[h t]|]; cbn; [by rewrite IH|done]. }
    by apply targets_nodup.
  - intros e He. destruct (wf_rule1 _ (ok_graph _ Hok) (edge_spec e)) as (h & t & Hj).
    { rewrite to_model_edges. by apply list_elem_of_fmap_2. }
    apply edge_ends_joins in Hj; [|done]. unfold binding.
    change (edge_ends (mkConfig (cfg_nodes c) []) e) with (edge_ends c e). by rewrite Hj.
Qed.

Lemma config_ok_legal c : config_ok c -> legal_nodes (cfg_nodes c).
Proof.
  intros Hok. pose proof (ok_unique _ Hok) as Hnd. split; [done|]. intros n Hn.
  assert (shapes (to_model c) !! node_name n = Some (node_shape n)) as Hs.
  { rewrite to_model_shapes by done. unfold node_named.
    by rewrite (proj2 (find_first_key node_name (cfg_nodes c) (node_name n) n Hnd)). }
  by apply (wf_names _ (ok_graph _ Hok)) in Hs as (_ & _ & _ & ?).
Qed.

Lemma config_ok_sub c c' :
  config_ok c -> NoDup (node_name <$> cfg_nodes c') -> (forall n, n ∈ cfg_nodes c' -> n ∈ cfg_nodes c) ->
  cfg_edges c' `sublist_of` cfg_edges c -> (forall e, e ∈ cfg_edges c' -> same_nodes c c' e) ->
  config_ok c'.
Proof.
  intros Hok Hnd' Hns Hsub Hsame. pose proof (ok_unique _ Hok) as Hnd.
  assert (Hin : forall e, e ∈ cfg_edges c' -> e ∈ cfg_edges c) by (intros e He; by eapply elem_of_submseteq, sublist_submseteq).
  assert (Hjoin : forall e h t, e ∈ cfg_edges c' -> joins (to_model c') (edge_spec e) h t <-> joins (to_model c) (edge_spec e) h t).
  { intros e h t He. rewrite <- !edge_ends_joins by done. by rewrite (same_nodes_ends c c' e (Hsame e He)). }
  split; [done|intros n Hn; by apply Hok, Hns| | |split].
  - intros e He h t Hends Hmux Harb. pose proof (Hsame e He) as S. rewrite (same_nodes_ends c c' e S) in Hends.
    destruct (same_nodes_named c c' e h t S Hends) as [Hh Ht].
    apply (ok_mux _ Hok e (Hin e He) h t Hends).
    + revert Hmux. unfold is_multiplexed_endpoint, named_is. by rewrite Ht.
    + revert Harb. unfold endpoint_arbitrates. by rewrite Hh.
  - apply NoDup_omap_iff. erewrite omap_ext_in; [|intros e He; apply same_nodes_held, Hsame, He].
    eapply sublist_NoDup; [|by apply sublist_omap]. apply NoDup_omap_iff. apply Hok.
  - intros node shape. rewrite to_model_shapes by done. intros (n & Hn & ->)%fmap_Some.
    apply node_named_in in Hn as [Hn <-]. apply (wf_names _ (ok_graph _ Hok)). rewrite to_model_shapes by done.
    unfold node_named. by rewrite (proj2 (find_first_key node_name (cfg_nodes c) (node_name n) n Hnd)) by auto.
  - intros edge. rewrite to_model_edges. intros (e & -> & He)%list_elem_of_fmap.
    destruct (wf_rule1 _ (ok_graph _ Hok) (edge_spec e)) as (h & t & Hj).
    { rewrite to_model_edges. by apply list_elem_of_fmap_2, Hin. }
    exists h, t. by apply Hjoin.
  - intros i j ei ej hi hj t. rewrite to_model_edges, !list_lookup_fmap.
    intros (e1 & Hi & ->)%fmap_Some (e2 & Hj & ->)%fmap_Some J1 J2.
    assert (NoDup (omap (fun e => snd <$> edge_ends c' e) (cfg_edges c'))) as Hd.
    { erewrite omap_ext_in; [|intros e He; by rewrite (same_nodes_ends c c' e (Hsame e He))].
      eapply sublist_NoDup; [|by apply sublist_omap]. by apply targets_nodup. }
    rewrite NoDup_omap_iff in Hd. apply (edge_ends_joins _ _ _ _ Hnd') in J1. apply (edge_ends_joins _ _ _ _ Hnd') in J2.
    apply (Hd i j t); [rewrite Hi|rewrite Hj]; cbn; [by rewrite J1|by rewrite J2].
  - eapply acyclic_ext; [|apply (wf_rule3 _ (ok_graph _ Hok))]. intros a b (edge & h & t & He & Hj & -> & ->).
    rewrite to_model_edges in He. apply list_elem_of_fmap in He as (e & -> & He).
    exists (edge_spec e), h, t. split_and!; try done; [|by apply Hjoin].
    rewrite to_model_edges. by apply list_elem_of_fmap_2, Hin.
Qed.

(** *** Absorbing a wiring *)

Lemma lookup_over {K A} `{Countable K} (m1 m2 : gmap K A) k :
  (m1 ∪ m2) !! k = match m1 !! k with Some x => Some x | None => m2 !! k end.
Proof. rewrite lookup_union. by destruct (m1 !! k), (m2 !! k). Qed.

Lemma lock_of_over L w r :
  lock_of L (absorb w r) = match lock_of L w with Some l => Some l | None => lock_of L r end.
Proof. unfold lock_of, absorb. cbn. rewrite lookup_over. by destruct (cells w !! L). Qed.

Lemma mirrors_absorb_cleared ns B w r :
  mirrors ns B w -> (forall L, next_cell r <= L -> cells r !! L = None) -> next_cell r <= next_cell w ->
  next_edge_origin r < SEND_ORIGIN_BASE -> mirrors ns B (absorb w (cleared r)).
Proof.
  intros M Hfresh Hle Hbase. destruct M.
  assert (Hl : forall a L l, endpoint_locks w !! a = Some L -> lock_of L (absorb w (cleared r)) = Some l <-> lock_of L w = Some l).
  { intros a L l Ha. rewrite lock_of_over. destruct (mi_cell0 a L Ha) as (c & Hc & _).
    unfold lock_of at 1 3. by rewrite Hc. }
  split; cbn; rewrite ?map_union_empty; try done.
  - intros a L Ha. rewrite lookup_over. destruct (mi_cell0 a L Ha) as (c & Hc & Hcl). rewrite Hc. eauto.
  - intros L HL. rewrite lookup_over, mi_fresh0, Hfresh by lia. done.
  - intros t h m Hin. destruct (mi_bound0 t h m Hin) as (s & Hs & Bd). exists s. split; [done|].
    eapply bound_mono; [..|exact Bd]; cbn; rewrite ?map_union_empty; try done; [lia|by eauto|].
    intros L id l HL _ Hlk _. exists l. split; [|done]. by apply (Hl h).
  - intros a L l id o Ha Hlk. apply (Hl a) in Hlk; [|done]. eauto.
  - lia.
Qed.

Lemma facing_snoc ns n :
  legal_nodes (ns ++ [n]) ->
  legal_nodes [n]
  /\ (forall a f, facing (ns ++ [n]) a = Some f <-> facing ns a = Some f \/ has_facing (endpoints_of [n]) a f)
  /\ (forall a f f', facing ns a = Some f -> has_facing (endpoints_of [n]) a f' -> False).
Proof.
  intros Hl. pose proof Hl as [Hnd He]. rewrite fmap_app in Hnd. apply NoDup_app in Hnd as (H1 & H2 & H3).
  assert (L1 : legal_nodes ns) by (split; [done|]; intros x Hx; apply He, elem_of_app; by left).
  split_and!.
  - split; [done|]. intros x Hx. apply He, elem_of_app. by right.
  - intros a f. rewrite !facing_spec by done. unfold has_facing, endpoints_of. rewrite fmap_app, join_app.
    generalize (mjoin (node_endpoints <$> ns)), (mjoin (node_endpoints <$> [n])). intros l1 l2. setoid_rewrite elem_of_app. split; [intros (ep & ring & [?|?] & ?); [left|right]|intros [(ep & ring & ? & ?)|(ep & ring & ? & ?)]];
      exists ep, ring; tauto.
  - intros a f f' F F'. apply facing_spec in F as (ep & ring & (x & Hx & _ & -> & _)%elem_of_endpoints & _); [|done].
    destruct F' as (ep' & ring' & (y & Hy & _ & [= E1 _] & _)%elem_of_endpoints & _).
    apply list_elem_of_singleton in Hy as ->. apply (H2 (node_name x)); [by apply list_elem_of_fmap_2|].
    rewrite E1. left.
Qed.

Lemma mirrors_absorb ns B n w r :
  legal_nodes (ns ++ [n]) -> mirrors ns B r -> wired (next_cell r) (endpoints_of [n]) w ->
  mirrors (ns ++ [n]) B (absorb w r).
Proof.
  intros Hl M W. destruct (facing_snoc ns n Hl) as (L2 & Hsn & Hdis).
  assert (Hdom : forall {A} (m1 m2 : gmap EndpointAddr A) f,
    (forall a, has_facing (endpoints_of [n]) a f <-> is_Some (m1 !! a)) ->
    (forall a, facing ns a = Some f <-> is_Some (m2 !! a)) ->
    forall a, facing (ns ++ [n]) a = Some f <-> is_Some ((m1 ∪ m2) !! a)).
  { intros A m1 m2 f E1 E2 a. rewrite Hsn, E1, E2, lookup_over. destruct (m1 !! a); [split; eauto|].
    split; [intros [?|[? ?]]; done|by left]. }
  assert (Hmiss : forall {A} (m1 m2 : gmap EndpointAddr A) f f' a x,
    (forall a, has_facing (endpoints_of [n]) a f <-> is_Some (m1 !! a)) ->
    facing ns a = Some f' -> m2 !! a = Some x -> (m1 ∪ m2) !! a = Some x).
  { intros A m1 m2 f f' a x E1 Hf Hx. rewrite lookup_over. destruct (m1 !! a) eqn:E; [|done].
    exfalso. eapply Hdis; [exact Hf|]. apply E1. by rewrite E. }
  assert (Hold : forall a L, endpoint_locks r !! a = Some L -> lock_of L (absorb w r) = lock_of L r).
  { intros a L Ha. rewrite lock_of_over. destruct (mi_cell _ _ _ M a L Ha) as (c & Hc & _).
    assert (cells w !! L = None) as E.
    { destruct (cells w !! L) eqn:E; [|done]. destruct (wi_range _ _ _ W L) as [Hge _]; [by rewrite E|].
      rewrite (mi_fresh _ _ _ M L Hge) in Hc. done. }
    unfold lock_of at 1. by rewrite E. }
  destruct M, W. split; cbn; try (apply Hdom; done).
  - intros a L. rewrite lookup_over. destruct (endpoint_locks w !! a) as [L'|] eqn:E.
    + intros [= <-]. destruct (wi_cell0 a L' E) as [arb Hc]. rewrite lookup_over, Hc. eauto.
    + intros Ha. destruct (mi_cell0 a L Ha) as (c & Hc & Hcl). exists c. split; [|done]. rewrite lookup_over.
      destruct (cells w !! L) eqn:Ec; [|done]. destruct (wi_range0 L) as [Hge _]; [by rewrite Ec|].
      rewrite (mi_fresh0 L Hge) in Hc. done.
  - intros L HL. rewrite lookup_over. destruct (cells w !! L) eqn:Ec.
    + destruct (wi_range0 L); [by rewrite Ec|lia].
    + apply mi_fresh0. lia.
  - assert (Hlt : forall a b L, endpoint_locks w !! a = Some L -> endpoint_locks r !! b = Some L -> False).
    { intros a b L Ha Hb'. destruct (wi_cell0 a L Ha) as [arb Hc]. destruct (wi_range0 L) as [Hge _]; [by rewrite Hc|].
      destruct (mi_cell0 b L Hb') as (c & Hc' & _). rewrite (mi_fresh0 L Hge) in Hc'. done. }
    intros a b L. rewrite !lookup_over.
    destruct (endpoint_locks w !! a) eqn:E1, (endpoint_locks w !! b) eqn:E2; intros Ka Kb; simplify_eq; eauto;
      exfalso; eauto.
  - intros t h m Hin. destruct (mi_bound0 t h m Hin) as (s & Hs & Bd). exists s.
    assert (Ft : facing ns t = Some Target) by (apply mi_slot0; eauto).
    assert (Fh : facing ns h = Some Host).
    { destruct (bd_registered _ _ _ _ _ Bd) as (L & _ & _ & _ & _ & HL & _). apply mi_lock0. eauto. }
    split; [by eapply (Hmiss _ _ _ Target)|]. eapply bound_mono; [..|exact Bd]; cbn.
    + intros L HL. by eapply (Hmiss _ _ _ Host).
    + destruct (proj1 (mi_tx0 h) Fh) as [X HX]. rewrite HX. by eapply (Hmiss _ _ _ Host).
    + by rewrite wi_origins0, lookup_over, lookup_empty.
    + lia.
    + intros f Hf Hin'. exists f. split; [|done]. by eapply (Hmiss _ _ _ Host).
    + intros L id l HL _ Hlk _. exists l. split; [|done]. by rewrite (Hold h).
  - intros t Hin. destruct (mi_free0 t Hin) as [K1 K2]. split.
    + intros s. rewrite lookup_over. destruct (target_edges w !! t) eqn:E; [|auto].
      intros [= <-]. by apply wi_empty0 in E.
    + by rewrite wi_origins0, lookup_over, lookup_empty.
  - intros a L l id o. rewrite lookup_over. destruct (endpoint_locks w !! a) as [L'|] eqn:E.
    + intros [= <-] Hlk Ho. exfalso. destruct (wi_cell0 a L' E) as [arb Hc]. rewrite lock_of_over in Hlk.
      unfold lock_of at 1 in Hlk. rewrite Hc in Hlk. injection Hlk as <-. cbn in Ho. by rewrite lookup_empty in Ho.
    + intros Ha Hlk Ho Hid. rewrite (Hold a) in Hlk by done.
      destruct (mi_phantom0 a L l id o Ha Hlk Ho Hid) as (t & s & Ht & Hr). exists t, s. split; [|done].
      eapply (Hmiss _ _ _ Target); [done| |done]. apply mi_slot0. eauto.
  - assert (Hts : forall t s L id, (target_edges w ∪ target_edges r) !! t = Some s -> registered s = Some (L, id) ->
               target_edges r !! t = Some s).
    { intros t s L id. rewrite lookup_over. destruct (target_edges w !! t) eqn:E; [|done].
      intros [= <-]. apply wi_empty0 in E as ->. done. }
    intros t t' s s' L L' id K1 K2 R1 R2. eapply mi_ids0; eauto.
  - intros h f. rewrite lookup_over. destruct (host_fanout w !! h) eqn:E; [|by apply mi_sinks0].
    intros [= <-]. apply wi_sinks0 in E as ->. split; [constructor|]. by intros t ?%elem_of_nil.
  - rewrite wi_counter0. lia.
Qed.

(** *** Removing a node *)

Lemma mirrors_ext ns B B' r : (forall p, p ∈ B <-> p ∈ B') -> mirrors ns B r -> mirrors ns B' r.
Proof.
  intros E []. split; try done.
  - intros t h m Hin. by apply mi_bound0, E.
  - intros t Hin. apply mi_free0. intros (p & -> & Hp)%list_elem_of_fmap. apply Hin, list_elem_of_fmap_2. by apply E.
  - intros h f Hf. destruct (mi_sinks0 h f Hf) as [Hn Hs]. split; [done|]. intros t Ht.
    destruct (Hs t Ht) as [m Hm]. exists m. by apply E.
Qed.

Lemma detach_bound ns B t h m r :
  mirrors ns B r -> (t, (h, m)) ∈ B -> NoDup B.*1 ->
  mirrors ns (filter (fun p => p.1 <> t) B) (detach_edge_runtime h t r).2.
Proof.
  intros M Hin Hnd. destruct (mi_bound _ _ _ M _ _ _ Hin) as (s & Hs & Bd).
  destruct (bd_registered _ _ _ _ _ Bd) as (L & id & _ & _ & Hr & _).
  destruct (bd_sink _ _ _ _ _ Bd) as (f & Hf & _).
  rewrite (detach_runtime_spec h t s L id f r Hf Hs Hr). by eapply mirrors_detach.
Qed.

Lemma detach_fold ns B ps r :
  mirrors ns B r -> NoDup B.*1 -> (forall h t, (h, t) ∈ ps -> exists m, (t, (h, m)) ∈ B) -> NoDup ps.*2 ->
  mirrors ns (filter (fun p => p.1 ∉ ps.*2) B) (foldl (fun r p => (detach_edge_runtime p.1 p.2 r).2) r ps).
Proof.
  revert B r. induction ps as [|[h t] ps IH]; intros B r M Hnd Hps Hps2; cbn [foldl].
  - eapply mirrors_ext; [|exact M]. intros p. rewrite list_elem_of_filter.
    split; [|tauto]. intros Hp. split; [apply not_elem_of_nil|done].
  - cbn in Hps2. apply NoDup_cons in Hps2 as [Ht Hps2]. destruct (Hps h t) as [m Hm]; [left|].
    eapply mirrors_ext; [|apply (IH (filter (fun p => p.1 <> t) B))].
    + intros p. rewrite !list_elem_of_filter. cbn. rewrite not_elem_of_cons. tauto.
    + by eapply detach_bound.
    + by apply NoDup_fmap_filter.
    + intros h' t' Hin. destruct (Hps h' t') as [m' Hm']; [by right|]. exists m'.
      apply list_elem_of_filter. split; [|done]. cbn. intros ->. apply Ht.
      by apply (list_elem_of_fmap_2 snd ps (h', t)).
    + done.
Qed.

Lemma drop_cons {A} (a ep : EndpointAddr) eps (x : option A) :
  (if bool_decide (a ∈ eps) then None else if bool_decide (a = ep) then None else x)
  = if bool_decide (a ∈ ep :: eps) then None else x.
Proof.
  repeat case_bool_decide; try done; exfalso; rewrite ?elem_of_cons in *; tauto.
Qed.

Lemma lookup_delete_bool {A} (mp : gmap EndpointAddr A) (a ep : EndpointAddr) :
  delete ep mp !! a = if bool_decide (a = ep) then None else mp !! a.
Proof. rewrite lookup_delete. case_decide; case_bool_decide; congruence. Qed.

(** The pruning loop on endpoints that are no writable origins. *)
Lemma prune_spec eps removed r :
  (forall ep, ep ∈ eps -> origin_locks r !! ep = None) ->
  let '(removed', r') := foldl prune_endpoint (removed, r) eps in
  (forall a, endpoint_locks r' !! a = if bool_decide (a ∈ eps) then None else endpoint_locks r !! a)
  /\ (forall a, endpoint_targetward r' !! a = if bool_decide (a ∈ eps) then None else endpoint_targetward r !! a)
  /\ host_fanout r' = host_fanout r /\ tap_hubs r' = tap_hubs r /\ target_inbox r' = target_inbox r
  /\ target_edges r' = target_edges r /\ origin_locks r' = origin_locks r
  /\ next_edge_origin r' = next_edge_origin r /\ next_cell r' = next_cell r
  /\ (forall L, L ∈ removed' -> L ∈ removed \/ exists ep, ep ∈ eps /\ endpoint_locks r !! ep = Some L)
  /\ (forall L, L ∉ removed' -> cells r' !! L = cells r !! L)
  /\ (forall L, cells r !! L = None -> cells r' !! L = None)
  /\ (forall L, L ∈ removed -> L ∈ removed').
Proof.
  revert removed r. induction eps as [|ep eps IH]; intros removed r Ho; cbn [foldl].
  { split_and!; try done; auto. }
  destruct (prune_endpoint (removed, r) ep) as [removed1 r1] eqn:E.
  assert (Hep : origin_locks r !! ep = None) by (apply Ho; left).
  assert (S : (forall a, endpoint_locks r1 !! a = if bool_decide (a = ep) then None else endpoint_locks r !! a)
    /\ (forall a, endpoint_targetward r1 !! a = if bool_decide (a = ep) then None else endpoint_targetward r !! a)
    /\ host_fanout r1 = host_fanout r /\ tap_hubs r1 = tap_hubs r /\ target_inbox r1 = target_inbox r
    /\ target_edges r1 = target_edges r /\ origin_locks r1 = origin_locks r
    /\ next_edge_origin r1 = next_edge_origin r /\ next_cell r1 = next_cell r
    /\ (forall L, L ∈ removed1 -> L ∈ removed \/ endpoint_locks r !! ep = Some L)
    /\ (forall L, L ∉ removed1 -> cells r1 !! L = cells r !! L)
    /\ (forall L, cells r !! L = None -> cells r1 !! L = None)
    /\ (forall L, L ∈ removed -> L ∈ removed1)).
  { revert E. unfold prune_endpoint.
    destruct (endpoint_locks r !! ep) as [L0|] eqn:El; cbn; rewrite Hep; intros [= <- <-]; cbn; split_and!; try done.
    all: try (intros a; rewrite lookup_delete; repeat case_decide; repeat case_bool_decide; congruence || done).
    - intros L. rewrite elem_of_app, list_elem_of_singleton. intros [?| ->]; auto.
    - intros L. rewrite elem_of_app, list_elem_of_singleton. intros HL. unfold close_cell.
      rewrite lookup_alter_ne by (intros ->; tauto). done.
    - intros L HL. unfold close_cell. rewrite lookup_alter. case_decide; [subst|]; by rewrite HL.
    - intros L HL. apply elem_of_app. by left.
    - intros a. case_bool_decide; [subst|]; done.
    - auto. }
  destruct S as (S1 & S2 & S3 & S4 & S5 & S6 & S7 & S8 & S9 & S10 & S11 & S12 & S13).
  specialize (IH removed1 r1). destruct (foldl prune_endpoint (removed1, r1) eps) as [removed' r'].
  destruct IH as (I1 & I2 & I3 & I4 & I5 & I6 & I7 & I8 & I9 & I10 & I11 & I12 & I13).
  { intros x Hx. rewrite S7. apply Ho. by right. }
  split_and!; try congruence; auto.
  - intros a. by rewrite I1, S1, drop_cons.
  - intros a. by rewrite I2, S2, drop_cons.
  - intros L HL. destruct (I10 L HL) as [HL1|(x & Hx & HLx)].
    + destruct (S10 L HL1) as [?|?]; [by left|]. right. exists ep. split; [left|done].
    + right. exists x. split; [by right|]. rewrite S1 in HLx. by case_bool_decide.
  - intros L HL. rewrite I11 by done. apply S11. auto.
Qed.

Lemma forget_spec eps r :
  let r' := forget_endpoints eps r in
  (forall a, host_fanout r' !! a = if bool_decide (a ∈ eps) then None else host_fanout r !! a)
  /\ (forall a, target_inbox r' !! a = if bool_decide (a ∈ eps) then None else target_inbox r !! a)
  /\ (forall a, target_edges r' !! a = if bool_decide (a ∈ eps) then None else target_edges r !! a)
  /\ cells r' = cells r /\ next_cell r' = next_cell r /\ endpoint_locks r' = endpoint_locks r
  /\ endpoint_targetward r' = endpoint_targetward r /\ tap_hubs r' = tap_hubs r
  /\ origin_locks r' = origin_locks r /\ next_edge_origin r' = next_edge_origin r.
Proof.
  unfold forget_endpoints. revert r. induction eps as [|ep eps IH]; intros r; cbn [foldl]; [done|].
  match goal with |- context [foldl _ ?r0 eps] =>
    destruct (IH r0) as (I1 & I2 & I3 & I4 & I5 & I6 & I7 & I8 & I9 & I10) end. split_and!; try done.
  - intros a. by rewrite I1, <- drop_cons, <- lookup_delete_bool.
  - intros a. by rewrite I2, <- drop_cons, <- lookup_delete_bool.
  - intros a. by rewrite I3, <- drop_cons, <- lookup_delete_bool.
Qed.

Definition endpoint_addrs (n : NodeConfig Table) : list EndpointAddr :=
  (fun ep => mkAddr (node_name n) (ep_name ep)) <$> shape_endpoints (node_shape n).

Definition others (name : string) (ns : list (NodeConfig Table)) : list (NodeConfig Table) :=
  filter (fun n => node_name n <> name) ns.

Lemma legal_others name ns : legal_nodes ns -> legal_nodes (others name ns).
Proof.
  intros [Hn He]. split; [by apply NoDup_fmap_filter|]. intros x [_ Hx]%list_elem_of_filter. auto.
Qed.

Lemma facing_others ns n a f :
  legal_nodes ns -> n ∈ ns ->
  facing (others (node_name n) ns) a = Some f <-> facing ns a = Some f /\ a ∉ endpoint_addrs n.
Proof.
  intros Hl Hn. rewrite !facing_spec by (done || by apply legal_others). unfold has_facing. split.
  - intros (ep & ring & (x & [Hx Hxin]%list_elem_of_filter & Hep & -> & ->)%elem_of_endpoints & <-).
    split; [exists ep, (node_replay_ring x); split; [|done]; apply elem_of_endpoints; eauto|].
    intros (ep' & [= E _] & _)%list_elem_of_fmap. done.
  - intros [(ep & ring & (x & Hxin & Hep & -> & ->)%elem_of_endpoints & <-) Hno].
    exists ep, (node_replay_ring x). split; [|done]. apply elem_of_endpoints. exists x. split_and!; try done.
    apply list_elem_of_filter. split; [|done]. intros E. apply Hno.
    assert (x = n) as ->.
    { assert (find_first (fun y => String.eqb (node_name y) (node_name n)) ns = Some n) as K
        by (by apply (find_first_key node_name ns (node_name n) n (ln_names _ Hl))).
      assert (find_first (fun y => String.eqb (node_name y) (node_name n)) ns = Some x) as K'
        by (by apply (find_first_key node_name ns (node_name n) x (ln_names _ Hl))).
      congruence. }
    apply list_elem_of_fmap. eauto.
Qed.

#[local] Arguments facing : simpl never.

Definition prune_node (eps : list EndpointAddr) (r : Runtime) : Runtime :=
  let '(removed, r) := foldl prune_endpoint ([], drop_taps eps r) eps in
  forget_endpoints eps (set_origin_locks (filter (fun p => p.2.1 ∉ removed) (origin_locks r)) r).

Lemma mirrors_prune ns B n r :
  legal_nodes ns -> mirrors ns B r -> n ∈ ns ->
  (forall t h m, (t, (h, m)) ∈ B -> (t ∉ endpoint_addrs n) /\ h ∉ endpoint_addrs n) ->
  mirrors (others (node_name n) ns) B (prune_node (endpoint_addrs n) r).
Proof.
  intros Hl M Hn Hfree. set (eps := endpoint_addrs n) in *.
  pose proof (fun a f => facing_others ns n a f Hl Hn) as Hfa. fold eps in Hfa.
  assert (Ho : forall ep, ep ∈ eps -> origin_locks (drop_taps eps r) !! ep = None).
  { intros ep Hep. cbn. apply (mi_free _ _ _ M). intros ([t [h m]] & -> & Hin)%list_elem_of_fmap.
    by apply (proj1 (Hfree t h m Hin)). }
  unfold prune_node. pose proof (prune_spec eps [] (drop_taps eps r) Ho) as P.
  destruct (foldl prune_endpoint ([], drop_taps eps r) eps) as [removed r1].
  destruct P as (P1 & P2 & P3 & P4 & P5 & P6 & P7 & P8 & P9 & P10 & P11 & P12 & _). cbn in *.
  set (r2 := set_origin_locks _ r1). destruct (forget_spec eps r2) as (F1 & F2 & F3 & F4 & F5 & F6 & F7 & F8 & F9 & F10).
  set (r' := forget_endpoints eps r2) in *. cbn in *.
  (* the locks that stay are not among those removed *)
  assert (Hkeep : forall a L, a ∉ eps -> endpoint_locks r !! a = Some L -> L ∉ removed).
  { intros a L Ha HL Hin. destruct (P10 L Hin) as [?%elem_of_nil|(ep & Hep & HLep)]; [done|].
    rewrite (mi_inj _ _ _ M a ep L HL HLep) in Ha. done. }
  assert (Hol : forall t, origin_locks r' !! t = origin_locks r !! t).
  { intros t. rewrite F9. unfold r2. cbn. rewrite P7. destruct (origin_locks r !! t) as [[L id]|] eqn:Et.
    - apply map_lookup_filter_Some. split; [done|]. cbn.
      destruct (decide (t ∈ B.*1)) as [Hin|Hin]; [|destruct (mi_free _ _ _ M t Hin) as [_ E]; congruence].
      apply list_elem_of_fmap in Hin as ([t' [h m]] & -> & Hin). cbn in Et.
      destruct (mi_bound _ _ _ M t' h m Hin) as (s & _ & Bd). rewrite (bd_origin _ _ _ _ _ Bd) in Et.
      destruct (bd_registered _ _ _ _ _ Bd) as (L' & id' & _ & _ & Er & HL & _). rewrite Er in Et.
      case_bool_decide; [|done]. injection Et as <- <-. eapply Hkeep; [|exact HL]. by apply (Hfree t' h m).
    - apply map_lookup_filter_None. by left. }
  assert (Hlk : forall a L, a ∉ eps -> endpoint_locks r !! a = Some L -> cells r' !! L = cells r !! L).
  { intros a L Ha HL. rewrite F4. unfold r2. cbn. apply P11. by eapply Hkeep. }
  assert (Hdom : forall {A} (m m' : gmap EndpointAddr A) f,
    (forall a, facing ns a = Some f <-> is_Some (m !! a)) ->
    (forall a, m' !! a = if bool_decide (a ∈ eps) then None else m !! a) ->
    forall a, facing (others (node_name n) ns) a = Some f <-> is_Some (m' !! a)).
  { intros A m m' f E1 E2 a. rewrite Hfa, E1, E2. case_bool_decide; [|tauto].
    split; [intros [_ ?]; done|intros [? ?]; done]. }
  assert (Hel : forall a, endpoint_locks r' !! a = if bool_decide (a ∈ eps) then None else endpoint_locks r !! a)
    by (intros a; by rewrite F6).
  assert (Hte : forall a, target_edges r' !! a = if bool_decide (a ∈ eps) then None else target_edges r !! a)
    by (intros a; rewrite F3; unfold r2; cbn; by rewrite P6).
  assert (Hhf : forall a, host_fanout r' !! a = if bool_decide (a ∈ eps) then None else host_fanout r !! a)
    by (intros a; rewrite F1; unfold r2; cbn; by rewrite P3).
  assert (Hsome : forall {A} (m : gmap EndpointAddr A) a x,
    (if bool_decide (a ∈ eps) then None else m !! a) = Some x -> (a ∉ eps) /\ m !! a = Some x).
  { intros A m a x. by case_bool_decide. }
  destruct M. split.
  - exact (Hdom _ _ _ _ mi_lock0 Hel).
  - eapply Hdom; [exact mi_tx0|]. intros a. by rewrite F7.
  - exact (Hdom _ _ _ _ mi_fan0 Hhf).
  - eapply Hdom; [exact mi_hub0|]. intros a. rewrite F8. unfold r2. cbn. rewrite P4.
    case_bool_decide as E; [apply map_lookup_filter_None; right; cbn; tauto|].
    destruct (tap_hubs r !! a) eqn:Et; [apply map_lookup_filter_Some; done|apply map_lookup_filter_None; by left].
  - exact (Hdom _ _ _ _ mi_slot0 Hte).
  - eapply Hdom; [exact mi_inbox0|]. intros a. rewrite F2. unfold r2. cbn. by rewrite P5.
  - intros a L. rewrite Hel. intros [Ha HL]%Hsome. rewrite (Hlk a L Ha HL). eauto.
  - intros L HL. rewrite F4. unfold r2. cbn. apply P12. apply mi_fresh0. by rewrite F5, <- P9 in *.
  - intros a b L. rewrite !Hel. intros [Ha HL]%Hsome [Hb HL']%Hsome. eauto.
  - intros t h m Hin. destruct (mi_bound0 t h m Hin) as (s & Hs & Bd). destruct (Hfree t h m Hin) as [Ht Hh].
    exists s. split; [rewrite Hte, bool_decide_false by done; done|]. eapply bound_mono; [..|exact Bd].
    + intros L HL. by rewrite Hel, bool_decide_false.
    + rewrite F7. unfold r2. cbn. by rewrite P2, bool_decide_false.
    + by rewrite Hol.
    + rewrite F10. unfold r2. cbn. lia.
    + intros f Hf Hin'. exists f. by rewrite Hhf, bool_decide_false.
    + intros L id l HL _ Hlo _. exists l. split; [|done]. unfold lock_of in *. by rewrite (Hlk h L Hh HL).
  - intros t Hin. rewrite Hol, Hte. destruct (mi_free0 t Hin) as [K1 K2]. split; [|done].
    intros s [_ Hs]%Hsome. auto.
  - intros a L l id o. rewrite Hel. intros [Ha HL]%Hsome Hlo Hor Hid. unfold lock_of in Hlo.
    rewrite (Hlk a L Ha HL) in Hlo. destruct (mi_phantom0 a L l id o HL Hlo Hor Hid) as (t & s & Ht & Hr).
    exists t, s. split; [|done]. rewrite Hte, bool_decide_false; [done|]. intros Hin.
    destruct (decide (t ∈ B.*1)) as [Hb|Hb].
    + apply list_elem_of_fmap in Hb as ([t' [h m]] & -> & Hb). by apply (proj1 (Hfree t' h m Hb)).
    + destruct (mi_free0 t Hb) as [K _]. rewrite (K s Ht) in Hr. done.
  - intros t t' s s' L L' id. rewrite !Hte. intros [_ K1]%Hsome [_ K2]%Hsome. eauto.
  - intros h f. rewrite Hhf. intros [_ Hf]%Hsome. auto.
  - rewrite F10. unfold r2. cbn. lia.
Qed.
End control.
