(* ===== verification/Control.v ===== *)
(** * Runs of the control plane (daemon/src/daemon.rs)

    The verbs of [Daemon] as one transition system, interleaved with what happens to
    the shared handles between two verbs: the arbitration tasks move a lock, a node's
    pump empties or closes an edge inbox.  The theorems state that the run-time state
    always mirrors the configuration, that a refused verb changes nothing, and that
    loading a graph and growing it edge by edge give the same state. *)

From S2P Require Import Prelude GraphTypes Lock Arbiter Cycle Graph Config Channel Daemon.
#[local] Open Scope N_scope.
#[local] Arguments facing : simpl never.
#[local] Arguments bindings : simpl never.
#[local] Arguments retain_ne : simpl never.

Section runs.
Context {Table : Type} `{!HashOrder string, !HashOrder EndpointAddr}.
Implicit Types (c : GraphConfig Table) (g : GraphState (Table := Table)) (ns : list (NodeConfig Table)).

(** ** The transition system *)

Inductive Verb :=
| VLoad (precheck : bool) (instantiate : NodeConfig Table -> bool) (c : GraphConfig Table) (replace : bool)
| VAddNode (precheck : bool) (instantiate : NodeConfig Table -> bool) (n : NodeConfig Table)
| VRemoveNode (name : string) (cascade : bool)
| VConnect (e : EdgeConfig) (purged : Z)
| VDisconnect (e : EdgeConfig)
| VTeardown
| VArbitrate (L : N) (op : LockOp)
| VInbox (target : EndpointAddr) (inbox : Bounded unit).

Definition on_runtime (f : Runtime -> Runtime) g : GraphState := mkGraph (g_config g) (g_nodes g) (f (g_rt g)).

Definition set_inbox_of (t : EndpointAddr) (b : Bounded unit) (r : Runtime) : Runtime :=
  set_inbox (alter (fun _ => b) t (target_inbox r)) r.

Definition perform (v : Verb) g : option RpcError * GraphState :=
  match v with
  | VLoad precheck instantiate c replace => load precheck instantiate c replace g
  | VAddNode precheck instantiate n => add_node precheck instantiate n g
  | VRemoveNode name cascade => remove_node name cascade g
  | VConnect e purged => connect e purged g
  | VDisconnect e => disconnect e g
  | VTeardown => (None, teardown g)
  | VArbitrate L op => (None, on_runtime (with_lock L (run_op op)) g)
  | VInbox t b => (None, on_runtime (set_inbox_of t b) g)
  end.

(** Edge identities stay below those of sends, arbitration registers and unregisters
    sends only ([Arbiter]: the other registrations are the verbs'), and byte counts are
    [u64]. *)
Definition admissible (v : Verb) g : Prop :=
  match v with
  | VLoad _ _ c _ => N.of_nat (length (cfg_edges c)) < SEND_ORIGIN_BASE
  | VConnect _ purged => next_edge_origin (g_rt g) + 1 < SEND_ORIGIN_BASE /\ u64 purged
  | VArbitrate L op =>
      (forall l, lock_of L (g_rt g) = Some l -> op_ok l op)
      /\ match op with ORegister id _ _ | OUnregister id => SEND_ORIGIN_BASE <= id | _ => True end
  | _ => True
  end.

Inductive reached : GraphState -> Prop :=
| reached_new : reached graph_new
| reached_step g v : reached g -> admissible v g -> reached (perform v g).2.

(** ** The invariant *)

(** Every lock came about by the operations of [Lock]. *)
Definition lawful (r : Runtime) : Prop := forall L l, lock_of L r = Some l -> reachable l.

Record good g : Prop := {
  gd_config : config_ok (g_config g);
  gd_mirror : mirrors (cfg_nodes (g_config g)) (bindings (cfg_nodes (g_config g)) (cfg_edges (g_config g))) (g_rt g);
  gd_names : g_nodes g = node_name <$> cfg_nodes (g_config g);
  gd_locks : lawful (g_rt g) }.

Lemma structural_ok_spec c : structural_ok c = true <-> config_ok c.
Proof.
  unfold structural_ok. destruct (config_validate_spec c) as (es & -> & E). rewrite <- E.
  by destruct es.
Qed.

Lemma config_ok_nil : config_ok (mkConfig (Table := Table) [] []).
Proof.
  split; cbn; [constructor|by intros ? ?%elem_of_nil..|done|]. split; cbn.
  - intros node shape. by rewrite lookup_empty.
  - by intros e ?%elem_of_nil.
  - done.
  - intros x Hx. assert (forall a b, ~ node_arc (to_model (mkConfig (Table := Table) [] [])) a b) as Hno
      by (intros a b (e & _ & _ & []%elem_of_nil & _)).
    by destruct Hx as [? ? ?%Hno|? ? ? ?%Hno].
Qed.

Lemma run_op_view op l id :
  (match op with ORegister i _ _ | OUnregister i => id <> i | _ => True end) ->
  edge_view (run_op op l) id = edge_view l id.
Proof.
  destruct op as [i lb wm|i|i|i|i|i|i|i|i|i n]; cbn; intros Hne.
  - by rewrite register_view, bool_decide_false.
  - by rewrite unregister_view, bool_decide_false.
  - by destruct (acquire_state l i) as [->|(_ & _ & ->)].
  - unfold enqueue. repeat case_match; done.
  - done.
  - destruct (steal_state l i) as [->|(_ & s & ->)]; done.
  - by destruct (reclaim_state l i) as [->|(_ & _ & ->)].
  - unfold release. by case_bool_decide.
  - unfold renew. by case_bool_decide.
  - unfold edge_view, record_purge. destruct (origins l !! i) as [o|] eqn:E; [|done]. cbn.
    destruct (decide (id = i)) as [->|]; [rewrite lookup_insert_eq, E|rewrite lookup_insert_ne by done]; done.
Qed.

(** *** Locks stay lawful *)

Lemma reachable_op l op : reachable l -> op_ok l op -> reachable (run_op op l).
Proof.
  intros (arb & ops & R) Hok. exists arb, (ops ++ [op]).
  induction R as [l|l op' l1 ops l2 S _ IH]; cbn; (econstructor; [|]); eauto; [by constructor|constructor].
Qed.

Lemma lawful_cells r r' : cells r' = cells r -> lawful r -> lawful r'.
Proof. intros E H L l. unfold lock_of. rewrite E. apply H. Qed.

Lemma lawful_with_lock L op r :
  lawful r -> (forall l, lock_of L r = Some l -> op_ok l op) -> lawful (with_lock L (run_op op) r).
Proof.
  intros H Hok L' l. rewrite lock_of_with. case_bool_decide; [|apply H].
  intros (l0 & E & ->)%fmap_Some. apply reachable_op; eauto.
Qed.

Lemma lawful_unregister L id r : lawful r -> lawful (with_lock L (fun l => (unregister l id).2) r).
Proof. intros H. by apply (lawful_with_lock L (OUnregister id)). Qed.

Lemma lawful_close r Ls : lawful r -> lawful (set_cells (foldr close_cell (cells r) Ls) r).
Proof.
  intros H. unfold lawful, lock_of. cbn. induction Ls as [|L' Ls IH]; [exact H|]. intros L l. cbn.
  unfold close_cell at 1. rewrite lookup_alter. case_decide; [subst|by apply IH].
  intros ([lk cl] & E & ->)%fmap_Some. apply fmap_Some in E as (c & E & [= -> _]).
  eapply (IH L). by rewrite E.
Qed.

Lemma lawful_absorb w r : lawful w -> lawful r -> lawful (absorb w r).
Proof. intros Hw Hr L l. rewrite lock_of_over. destruct (lock_of L w) eqn:E; [intros [= <-]; eauto|apply Hr]. Qed.

Lemma lawful_endpoints cell eps : lawful (foldl wire_endpoint (runtime_empty cell) eps).
Proof.
  assert (H : forall r, lawful r -> lawful (foldl wire_endpoint r eps)).
  { induction eps as [|[[a ep] ring] eps IH]; intros r H; [done|]. apply IH. unfold wire_endpoint.
    destruct (ep_facing ep); [done|]. intros L l. unfold lock_of. cbn. rewrite lookup_insert. case_decide; [|apply H].
    intros [= <-]. exists (ep_arbitration ep), []. constructor. }
  apply H. intros L l. unfold lock_of. cbn. by rewrite lookup_empty.
Qed.

Lemma lawful_detach h t r : lawful r -> lawful (detach_edge_runtime h t r).2.
Proof.
  intros H. unfold detach_edge_runtime. destruct (host_fanout r !! h); cbn;
    (destruct (alter _ t (target_edges r) !! t ≫= registered) as [[L id]|]; cbn;
     [apply (lawful_unregister L id r H)|exact H]).
Qed.

Lemma lawful_prune eps st : lawful st.2 -> lawful (foldl prune_endpoint st eps).2.
Proof.
  revert st. induction eps as [|ep eps IH]; intros [removed r] H; [done|]. cbn [foldl]. apply IH.
  unfold prune_endpoint. cbn in H.
  destruct (endpoint_locks r !! ep) as [L|]; cbn; destruct (origin_locks r !! ep) as [[L' id]|]; cbn.
  - pose proof (lawful_close r [L] H) as H1. exact (lawful_unregister L' id _ H1).
  - exact (lawful_close r [L] H).
  - exact (lawful_unregister L' id _ H).
  - exact H.
Qed.

Lemma mirrors_cleared r :
  (forall L, next_cell r <= L -> cells r !! L = None) -> next_edge_origin r < SEND_ORIGIN_BASE ->
  mirrors (Table := Table) [] [] (cleared r).
Proof.
  intros Hf Hb.
  assert (H : forall {A} a f, facing (Table := Table) [] a = Some f <-> is_Some ((∅ : gmap EndpointAddr A) !! a)).
  { intros A a f. rewrite lookup_empty. split; [done|]. by intros []. }
  split; cbn; try apply H; try done; try (by intros ? ? ?%lookup_empty_Some).
  by intros ? ? ? ?%elem_of_nil.
Qed.

Lemma mirrors_next_origin ns B n r :
  mirrors ns B r -> next_edge_origin r <= n -> n < SEND_ORIGIN_BASE -> mirrors ns B (set_next_origin n r).
Proof.
  intros [] Hle Hb. split; try done. intros t h m Hin. destruct (mi_bound t h m Hin) as (s & Hs & Bd).
  exists s. split; [done|]. eapply bound_mono; [..|exact Bd]; try done; eauto.
Qed.

Lemma mirrors_inbox ns B t b r : mirrors ns B r -> mirrors ns B (set_inbox_of t b r).
Proof.
  intros []. split; try done.
  - intros a. rewrite mi_inbox. cbn. rewrite lookup_alter. case_decide; [|done]. subst.
    by destruct (target_inbox r !! a).
  - intros t' h m Hin. destruct (mi_bound t' h m Hin) as (s & Hs & Bd).
    exists s. split; [done|]. eapply bound_mono; [..|exact Bd]; try done; eauto.
Qed.

Lemma close_cells_fresh Ls (cs : gmap N LockCell) L : cs !! L = None -> foldr close_cell cs Ls !! L = None.
Proof.
  intros E. induction Ls as [|L' Ls IH]; [done|]. cbn. unfold close_cell at 1. rewrite lookup_alter.
  case_decide; [subst|]; by rewrite IH.
Qed.

Lemma next_origin_fresh ns B r h L l :
  mirrors ns B r -> endpoint_locks r !! h = Some L -> lock_of L r = Some l -> origins l !! next_edge_origin r = None.
Proof.
  intros M HL Hl. destruct (origins l !! next_edge_origin r) as [o|] eqn:E; [|done].
  destruct (mi_phantom _ _ _ M h L l _ o HL Hl E (mi_base _ _ _ M)) as (t & s & Ht & Hr).
  destruct (registered_bound _ _ _ _ _ _ _ M Ht Hr) as (h' & m & _ & Bd).
  destruct (bd_registered _ _ _ _ _ Bd) as (L' & id & _ & _ & Er & _ & _ & _ & _ & _ & Hlt).
  rewrite Hr in Er. injection Er as <- <-. lia.
Qed.

Lemma lawful_attached ns B h t f inbox m depth L X r :
  mirrors ns B r -> endpoint_locks r !! h = Some L -> lawful r ->
  lawful (attached_rt h t (next_edge_origin r) f inbox m depth L X (set_next_origin (next_edge_origin r + 1) r)).
Proof.
  intros M HL H. apply (lawful_with_lock L (ORegister (next_edge_origin r) (addr_display t) m) r H).
  intros l Hl. by eapply next_origin_fresh.
Qed.

Lemma good_new : good graph_new.
Proof.
  split; cbn; [apply config_ok_nil| |done|].
  - by apply (mirrors_cleared (runtime_empty 0)).
  - intros L l. unfold lock_of. cbn. by rewrite lookup_empty.
Qed.

Lemma good_teardown g : good g -> good (teardown g).
Proof.
  intros []. split; cbn; [apply config_ok_nil| |done|].
  - apply mirrors_cleared; cbn.
    + intros L HL. apply close_cells_fresh. by apply (mi_fresh _ _ _ gd_mirror0).
    + by apply (mi_base _ _ _ gd_mirror0).
  - by apply (lawful_close (g_rt g)).
Qed.

Lemma build_mirrors c cell :
  config_ok c -> N.of_nat (length (cfg_edges c)) < SEND_ORIGIN_BASE ->
  mirrors (cfg_nodes c) (bindings (cfg_nodes c) (cfg_edges c)) (build c cell)
  /\ cell <= next_cell (build c cell) /\ inboxes_fresh (cfg_nodes c) (cfg_edges c) (build c cell)
  /\ lawful (build c cell).
Proof.
  intros Hok Hb. pose proof (config_ok_legal c Hok) as Hl. destruct (config_ok_targets c Hok) as [Hnd Hall].
  pose proof (wire_endpoints cell (endpoints_of (cfg_nodes c))) as W. unfold build.
  pose proof (lawful_endpoints cell (endpoints_of (cfg_nodes c))) as HL.
  set (r := foldl wire_endpoint _ _) in *.
  destruct (wire_edges lawful (cfg_nodes c) [] (cfg_edges c) r) as (M & _ & Hc & Hi & Hlaw); try done.
  - intros B h t f inbox m depth L X r'. apply lawful_attached.
  - by eapply mirrors_wired.
  - intros t b _ Hi. by apply (wi_fresh_inbox _ _ _ W) in Hi.
  - by rewrite (wi_counter _ _ _ W).
  - split_and!; [done| |done..]. rewrite Hc. apply (wi_next _ _ _ W).
Qed.

Lemma good_load precheck instantiate c replace g :
  good g -> N.of_nat (length (cfg_edges c)) < SEND_ORIGIN_BASE -> good (load precheck instantiate c replace g).2.
Proof.
  intros G Hb. unfold load. destruct (structural_ok c) eqn:Hok; [|done]. apply structural_ok_spec in Hok.
  destruct precheck; [|done]. cbn [negb]. set (g' := if replace then teardown g else g).
  assert (G' : good g') by (unfold g'; destruct replace; [by apply good_teardown|done]).
  clearbody g'. case_bool_decide; [done|]. destruct (forallb instantiate (cfg_nodes c)); [|done]. cbn [negb].
  destruct (build_mirrors c (next_cell (g_rt g')) Hok Hb) as (M & Hc & _ & Hlaw). destruct G'.
  split; cbn; [done| |done|by apply lawful_absorb].
  apply mirrors_absorb_cleared; [done|by apply (mi_fresh _ _ _ gd_mirror0)|done|by apply (mi_base _ _ _ gd_mirror0)].
Qed.

Lemma binding_same c c' e : same_nodes c c' e -> binding (cfg_nodes c') e = binding (cfg_nodes c) e.
Proof.
  intros S. assert (S' : same_nodes (mkConfig (cfg_nodes c) []) (mkConfig (cfg_nodes c') []) e) by exact S.
  unfold binding. by rewrite (same_nodes_ends _ _ _ S'), (same_nodes_mode _ _ _ S').
Qed.

Lemma node_named_key c name n :
  NoDup (node_name <$> cfg_nodes c) -> node_named c name = Some n <-> n ∈ cfg_nodes c /\ node_name n = name.
Proof. apply (find_first_key node_name). Qed.

(** An edge of a valid configuration has both its nodes in it. *)
Lemma edge_nodes_named c e :
  config_ok c -> e ∈ cfg_edges c ->
  is_Some (node_named c (addr_node (ec_a e))) /\ is_Some (node_named c (addr_node (ec_b e))).
Proof.
  intros Hok He. destruct (config_ok_targets c Hok) as [_ Hall]. destruct (Hall e He) as [[t [h m]] Hb].
  destruct (binding_facing _ _ _ _ _ Hb) as [Fh Ft]. destruct (binding_ends _ _ _ _ _ Hb) as [Hends _].
  assert (N : forall a f, facing (cfg_nodes c) a = Some f -> is_Some (node_named c (addr_node a))).
  { intros a f. unfold facing, endpoint_facing.
    change (node_named (mkConfig (cfg_nodes c) []) (addr_node a)) with (node_named c (addr_node a)).
    by destruct (node_named c (addr_node a)). }
  destruct (edge_ends_cases _ _ _ _ Hends) as [[-> ->]|[-> ->]]; eauto.
Qed.

Lemma good_add_node precheck instantiate n g : good g -> good (add_node precheck instantiate n g).2.
Proof.
  intros G. unfold add_node. destruct precheck; [|done]. cbn [negb].
  set (c := g_config g). set (c' := mkConfig _ _). destruct (structural_ok c') eqn:Hok; [|done].
  apply structural_ok_spec in Hok. destruct (instantiate n); [|done]. cbn [negb]. destruct G.
  split; cbn [g_config g_nodes g_rt snd]; [done| |cbn; by rewrite gd_names0, fmap_app|].
  2: { apply lawful_absorb; [apply lawful_endpoints|done]. }
  cbn [cfg_nodes cfg_edges c'].
  assert (bindings (cfg_nodes c ++ [n]) (cfg_edges c) = bindings (cfg_nodes c) (cfg_edges c)) as ->.
  { apply omap_ext_in. intros e He. apply (binding_same c c').
    destruct (edge_nodes_named c e gd_config0 He) as [Ha Hb].
    assert (K : forall name, is_Some (node_named c name) -> node_named c' name = node_named c name).
    { intros name [x Hx]. rewrite Hx. apply node_named_in in Hx as [Hx <-].
      apply node_named_key; [apply Hok|]. split; [|done]. cbn. apply elem_of_app. by left. }
    split; auto. }
  apply mirrors_absorb; [by apply (config_ok_legal c')|done|].
  apply (wire_endpoints (next_cell (g_rt g)) (endpoints_of [n])).
Qed.
Lemma bindings_delete ns es i e t h m p :
  es !! i = Some e -> binding ns e = Some (t, (h, m)) -> NoDup (bindings ns es).*1 ->
  p ∈ bindings ns (delete i es) <-> p ∈ bindings ns es /\ p.1 <> t.
Proof.
  intros Hi Hb. rewrite delete_take_drop, bindings_app.
  assert (bindings ns es = bindings ns (take i es) ++ (t, (h, m)) :: bindings ns (drop (S i) es)) as ->.
  { rewrite <- (take_drop_middle es i e Hi) at 1. rewrite bindings_app. f_equal.
    unfold bindings at 1. cbn [omap list_omap]. by rewrite Hb. }
  rewrite fmap_app, fmap_cons. intros (_ & N1 & N2)%NoDup_app.
  apply NoDup_cons in N2 as [N2 _]. rewrite !elem_of_app, elem_of_cons. cbn in *. split.
  - intros [Hp|Hp]; (split; [by auto|]); intros <-.
    + apply (N1 p.1); [by apply list_elem_of_fmap_2|left].
    + apply N2. by apply list_elem_of_fmap_2.
  - intros [[?|[->|?]] Hne]; auto. done.
Qed.

Lemma delete_named ns idx name :
  NoDup (node_name <$> ns) -> (node_name <$> ns) !! idx = Some name ->
  delete idx (node_name <$> ns) = node_name <$> others name ns.
Proof.
  unfold others. revert idx. induction ns as [|n ns IH]; intros idx; [done|]. rewrite fmap_cons, filter_cons.
  intros [Hn Hnd]%NoDup_cons. destruct idx as [|idx]; cbn.
  - intros [= <-]. rewrite decide_False by tauto.
    clear IH Hnd. induction ns as [|x ns IH]; [done|]. rewrite fmap_cons in *. rewrite not_elem_of_cons in Hn.
    destruct Hn as [Hn1 Hn2]. rewrite filter_cons, decide_True by congruence. cbn. by rewrite <- IH.
  - intros Hi. rewrite decide_True.
    + cbn. f_equal. by apply IH.
    + intros E. apply Hn. rewrite E. by apply list_elem_of_lookup_2 in Hi.
Qed.

Lemma elem_of_bindings ns es p : p ∈ bindings ns es <-> exists e, e ∈ es /\ binding ns e = Some p.
Proof. apply list_elem_of_omap. Qed.

(** Whether an edge touches a node is visible in its binding. *)
Lemma touches_binding ns name e t h m :
  binding ns e = Some (t, (h, m)) -> touches name e <-> addr_node h = name \/ addr_node t = name.
Proof.
  intros [E _]%binding_ends. unfold touches. destruct (edge_ends_cases _ _ _ _ E) as [[-> ->]|[-> ->]]; tauto.
Qed.

Lemma same_nodes_others c name e :
  NoDup (node_name <$> cfg_nodes c) -> ~ touches name e ->
  same_nodes c (mkConfig (others name (cfg_nodes c)) (filter (fun e => ~ touches name e) (cfg_edges c))) e.
Proof.
  intros Hnd Hno.
  assert (K : forall x, x <> name -> node_named (mkConfig (others name (cfg_nodes c))
                (filter (fun e => ~ touches name e) (cfg_edges c))) x = node_named c x).
  { intros x Hx. apply option_eq. intros n. rewrite !node_named_key by (done || by apply NoDup_fmap_filter).
    cbn. unfold others. rewrite list_elem_of_filter. split; [tauto|]. intros [Hin <-]. done. }
  split; apply K; intros E; apply Hno; [by left|by right].
Qed.

Lemma binding_others c name e :
  NoDup (node_name <$> cfg_nodes c) -> ~ touches name e ->
  binding (others name (cfg_nodes c)) e = binding (cfg_nodes c) e.
Proof. intros Hnd Hno. exact (binding_same c _ e (same_nodes_others c name e Hnd Hno)). Qed.

(** The edges of a node, as [remove_node] collects them. *)
Definition cascaded c (name : string) : list (EndpointAddr * EndpointAddr) :=
  omap (edge_ends c) (filter (touches name) (cfg_edges c)).

Lemma cascaded_bound c name h t :
  config_ok c -> (h, t) ∈ cascaded c name ->
  exists e m, e ∈ cfg_edges c /\ touches name e /\ binding (cfg_nodes c) e = Some (t, (h, m)).
Proof.
  intros Hok (e & [Ht He]%list_elem_of_filter & Ee)%list_elem_of_omap. destruct (config_ok_targets c Hok) as [_ Hall].
  destruct (Hall e He) as [[t' [h' m]] Hb]. destruct (binding_ends _ _ _ _ _ Hb) as [Ee' _].
  change (edge_ends (mkConfig (cfg_nodes c) []) e) with (edge_ends c e) in Ee'.
  rewrite Ee in Ee'. injection Ee' as <- <-. eauto.
Qed.

Lemma cascaded_nodup c name : config_ok c -> NoDup (cascaded c name).*2.
Proof.
  intros Hok. eapply sublist_NoDup; [apply (targets_nodup c Hok)|].
  assert ((cascaded c name).*2 = omap (fun e => snd <$> edge_ends c e) (filter (touches name) (cfg_edges c))) as ->.
  { unfold cascaded. induction (filter (touches name) (cfg_edges c)) as [|e es IH]; [done|]. cbn [omap list_omap].
    destruct (edge_ends c e); cbn; by rewrite IH. }
  apply sublist_omap, sublist_filter.
Qed.

Lemma cascaded_rest c name p :
  config_ok c ->
  p ∈ filter (fun p => p.1 ∉ (cascaded c name).*2) (bindings (cfg_nodes c) (cfg_edges c)) <->
  p ∈ bindings (others name (cfg_nodes c)) (filter (fun e => ~ touches name e) (cfg_edges c)).
Proof.
  intros Hok. pose proof (ok_unique _ Hok) as Hnd. destruct (config_ok_targets c Hok) as [HB _].
  destruct p as [t [h m]]. rewrite list_elem_of_filter, !elem_of_bindings. cbn [fst].
  setoid_rewrite list_elem_of_filter. split.
  - intros (Hno & e & He & Hb). exists e. assert (Hnt : ~ touches name e).
    { intros Ht. apply Hno. apply (list_elem_of_fmap_2 snd (cascaded c name) (h, t)).
      apply list_elem_of_omap. exists e. split; [by apply list_elem_of_filter|].
      by destruct (binding_ends _ _ _ _ _ Hb). }
    split_and!; try done. by rewrite binding_others.
  - intros (e & [Hnt He] & Hb). rewrite binding_others in Hb by done.
    split; [|by eauto]. intros ([h' t'] & -> & Hin)%list_elem_of_fmap. cbn in *.
    destruct (cascaded_bound c name h' t' Hok Hin) as (e' & m' & He' & Ht' & Hb').
    assert ((h, m) = (h', m')) as [= -> ->].
    { eapply NoDup_fst_fun; [exact HB| |]; apply elem_of_bindings; eauto. }
    apply Hnt. apply (touches_binding _ _ _ _ _ _ Hb). by apply (touches_binding _ _ _ _ _ _ Hb').
Qed.

Lemma good_remove_node name cascade g : good g -> good (remove_node name cascade g).2.
Proof.
  intros G. unfold remove_node. destruct (list_find _ (g_nodes g)) as [[idx name']|] eqn:Ef; [|done].
  apply list_find_Some in Ef as (Hi & -> & _). destruct (_ && _); [done|].
  set (c := g_config g). destruct G as [Hok M Hnames Hlaw]. fold c in Hok, M, Hnames.
  pose proof (ok_unique _ Hok) as Hnd. rewrite Hnames in Hi |- *.
  destruct (node_named c name) as [n|] eqn:En; last first.
  { apply list_elem_of_lookup_2, list_elem_of_fmap in Hi as (x & -> & Hx).
    rewrite (proj2 (node_named_key c (node_name x) x Hnd)) in En; done. }
  apply node_named_in in En as [Hn <-]. set (name := node_name n) in *.
  fold (cascaded c name). set (r1 := foldl _ (g_rt g) (cascaded c name)) in *.
  assert (M1 : mirrors (cfg_nodes c)
            (bindings (others name (cfg_nodes c)) (filter (fun e => ~ touches name e) (cfg_edges c))) r1).
  { eapply mirrors_ext; [intros p; apply (cascaded_rest c name p Hok)|].
    apply detach_fold; [done|by apply config_ok_targets| |by apply cascaded_nodup].
    intros h t (e & m & He & _ & Hb)%cascaded_bound; [|done]. exists m. apply elem_of_bindings. eauto. }
  pose proof (mirrors_prune (cfg_nodes c) _ n r1 (config_ok_legal c Hok) M1 Hn) as P.
  unfold prune_node in P.
  change (endpoint_addrs n) with ((fun ep => mkAddr name (ep_name ep)) <$> shape_endpoints (node_shape n)) in P.
  assert (Hlaw1 : lawful r1).
  { unfold r1. clear -Hlaw. revert Hlaw. generalize (g_rt g). induction (cascaded c name) as [|p ps IH]; [done|].
    intros r H. cbn. by apply IH, lawful_detach. }
  match type of P with context [foldl prune_endpoint ?st ?eps] => pose proof (lawful_prune eps st Hlaw1) as Hlaw2 end.
  destruct (foldl prune_endpoint _ _) as [removed r2] in P, Hlaw2 |- *. split.
  - apply (config_ok_sub c); cbn; [done|by apply NoDup_fmap_filter| |apply sublist_filter|].
    + by intros x [_ ?]%list_elem_of_filter.
    + intros e [Hnt _]%list_elem_of_filter. by apply same_nodes_others.
  - apply P. intros t h m (e & [Hnt He]%list_elem_of_filter & Hb)%elem_of_bindings.
    rewrite (touches_binding _ _ _ _ _ _ Hb) in Hnt.
    split; intros (ep & -> & _)%list_elem_of_fmap; apply Hnt; cbn; auto.
  - cbn. by apply delete_named.
  - eapply lawful_cells; [apply forget_spec|]. exact Hlaw2.
Qed.
Lemma binding_edge c e t h m :
  binding (cfg_nodes c) e = Some (t, (h, m)) -> edge_ends c e = Some (h, t) /\ effective_write_mode c e = m.
Proof. apply binding_ends. Qed.

(** [connect] of an edge the validator accepts. *)
Lemma connect_spec e purged g :
  good g -> config_ok (mkConfig (cfg_nodes (g_config g)) (cfg_edges (g_config g) ++ [e])) ->
  exists h t m f L X l b gr,
    binding (cfg_nodes (g_config g)) e = Some (t, (h, m))
    /\ (t ∉ (bindings (cfg_nodes (g_config g)) (cfg_edges (g_config g))).*1)
    /\ host_fanout (g_rt g) !! h = Some f /\ endpoint_locks (g_rt g) !! h = Some L
    /\ endpoint_targetward (g_rt g) !! h = Some X /\ lock_of L (g_rt g) = Some l
    /\ target_inbox (g_rt g) !! t = Some b
    /\ (let o := next_edge_origin (g_rt g) in
       let r0 := set_next_origin (o + 1) (g_rt g) in
       let r' := attached_rt h t o f (try_send b tt).2 m (hostward_depth (cfg_nodes (g_config g)) (addr_node h)) L X r0 in
       connect e purged g =
         if bool_decide ((try_send b tt).1 = SendFull) then (Some EEdgeInboxFull, mkGraph (g_config g) (g_nodes g) r0)
         else (None, mkGraph (mkConfig (cfg_nodes (g_config g)) (cfg_edges (g_config g) ++ [e])) (g_nodes g)
                 (if gr && (0 <? purged)%Z then with_lock L (fun l => record_purge l o purged) r' else r'))).
Proof.
  intros [Hok M Hn Hlaw] Hok'. unfold connect. set (c := g_config g) in *. set (c' := mkConfig _ _) in *.
  rewrite (proj2 (structural_ok_spec c') Hok'). cbn [negb].
  destruct (config_ok_targets c' Hok') as [Hnd Hall]. destruct (Hall e) as [[t [h m]] Hb].
  { cbn. rewrite elem_of_app. right. by left. }
  destruct (binding_edge c' _ _ _ _ Hb) as [He Hm]. rewrite He, Hm. change (cfg_nodes c') with (cfg_nodes c) in *.
  destruct (binding_facing _ _ _ _ _ Hb) as [Fh Ft].
  destruct (proj1 (mi_fan _ _ _ M h) Fh) as [f Hf]. destruct (proj1 (mi_lock _ _ _ M h) Fh) as [L HL].
  destruct (proj1 (mi_tx _ _ _ M h) Fh) as [X HX]. destruct (proj1 (mi_inbox _ _ _ M t) Ft) as [b Hib].
  destruct (proj1 (mi_slot _ _ _ M t) Ft) as [s Hs]. rewrite Hf, Hib, Hs.
  destruct (mi_cell _ _ _ M h L HL) as (cl & Hc & _).
  destruct (attach_edge _ _ _ _ _ _ _ _) as [a r'] eqn:Ea.
  exists h, t, m, f, L, X, (cell_lock cl), b, (granted a). split_and!; try done.
  - cbn in Hnd. rewrite bindings_app, fmap_app in Hnd. apply NoDup_app in Hnd as (_ & Hd & _).
    intros Hin. apply (Hd t Hin). unfold bindings. cbn [omap list_omap]. rewrite Hb. left.
  - unfold lock_of. by rewrite Hc.
  - cbn zeta. assert (Efull : inbox_full a = bool_decide ((try_send b tt).1 = SendFull)).
    { revert Ea. unfold attach_edge. destruct (try_send b tt) as [[] b']; cbn; by intros [= <- _]. }
    rewrite <- Efull. destruct (inbox_full a) eqn:E.
    + revert Ea. unfold attach_edge. destruct (try_send b tt) as [[] b']; cbn; intros [= <- <-]; done.
    + destruct (attach_spec _ _ _ _ _ _ _ _ _ _ L X Ea E HL HX) as [-> ->]. done.
Qed.

(** A successful [connect], step by step. *)
Record connected (e : EdgeConfig) (purged : Z) g (h t : EndpointAddr) (m : WriteMode) (g' : GraphState) : Prop := {
  cn_config : g_config g' = mkConfig (cfg_nodes (g_config g)) (cfg_edges (g_config g) ++ [e]);
  cn_ok : config_ok (g_config g');
  cn_nodes : g_nodes g' = g_nodes g;
  cn_binding : binding (cfg_nodes (g_config g)) e = Some (t, (h, m));
  cn_new : t ∉ (bindings (cfg_nodes (g_config g)) (cfg_edges (g_config g))).*1;
  cn_runtime : exists f L X l b, host_fanout (g_rt g) !! h = Some f /\ endpoint_locks (g_rt g) !! h = Some L
    /\ endpoint_targetward (g_rt g) !! h = Some X /\ lock_of L (g_rt g) = Some l
    /\ target_inbox (g_rt g) !! t = Some b
    /\ let o := next_edge_origin (g_rt g) in
       let r' := attached_rt h t o f (try_send b tt).2 m (hostward_depth (cfg_nodes (g_config g)) (addr_node h)) L X
                   (set_next_origin (o + 1) (g_rt g)) in
       g_rt g' = r' \/ g_rt g' = with_lock L (fun l => record_purge l o purged) r' }.

Lemma connect_cases e purged g :
  good g ->
  let '(err, g') := connect e purged g in
  match err with
  | None => exists h t m, connected e purged g h t m g'
  | Some EEdgeInboxFull => g' = on_runtime (set_next_origin (next_edge_origin (g_rt g) + 1)) g
  | Some _ => g' = g
  end.
Proof.
  intros G. destruct (structural_ok (mkConfig (cfg_nodes (g_config g)) (cfg_edges (g_config g) ++ [e]))) eqn:Hok.
  - apply structural_ok_spec in Hok.
    destruct (connect_spec e purged g G Hok) as (h & t & m & f & L & X & l & b & gr & Hb & Hnew & Hf & HL & HX & Hl & Hib & E).
    cbn zeta in E. rewrite E. case_bool_decide; [done|]. exists h, t, m. split; try done.
    exists f, L, X, l, b. split_and!; try done. cbn. destruct (_ && _); [by right|by left].
  - unfold connect. by rewrite Hok.
Qed.

Lemma bindings_snoc ns es e p : binding ns e = Some p -> bindings ns (es ++ [e]) = bindings ns es ++ [p].
Proof. intros Hb. rewrite bindings_app. unfold bindings at 2. cbn [omap list_omap]. by rewrite Hb. Qed.

Lemma good_connected e purged g h t m g' :
  good g -> next_edge_origin (g_rt g) + 1 < SEND_ORIGIN_BASE -> u64 purged ->
  connected e purged g h t m g' -> good g'.
Proof.
  intros [Hok M Hn Hlaw] Hb Hp [Ec Hok' En Hbi Hnew (f & L & X & l & b & Hf & HL & HX & Hl & Hib & Hr)].
  destruct (binding_facing _ _ _ _ _ Hbi) as [Fh Ft].
  pose proof (fun depth inbox => mirrors_attach _ _ t h m f inbox depth L X _ M Fh Ft Hnew Hf HL HX Hb) as MA.
  pose proof (fun depth inbox => lawful_attached _ _ h t f inbox m depth L X _ M HL Hlaw) as LA.
  split; [done| |by rewrite En, Ec|].
  - rewrite Ec. cbn [cfg_nodes cfg_edges]. rewrite (bindings_snoc _ _ _ _ Hbi).
    destruct Hr as [->| ->]; [apply MA|]. apply mirrors_with_lock; [|apply MA].
    intros l' _ id _. by apply (run_op_view (OPurge (next_edge_origin (g_rt g)) purged)).
  - destruct Hr as [->| ->]; [apply LA|].
    by apply (lawful_with_lock L (OPurge (next_edge_origin (g_rt g)) purged)).
Qed.

Lemma same_nodes_edges c es e : same_nodes c (mkConfig (cfg_nodes c) es) e.
Proof. done. Qed.

(** [disconnect] of a configured edge. *)
Lemma disconnect_cases e g :
  good g ->
  let '(err, g') := disconnect e g in
  match err with
  | None => exists i x h t m, cfg_edges (g_config g) !! i = Some x /\ same_edge x e
      /\ binding (cfg_nodes (g_config g)) x = Some (t, (h, m))
      /\ g' = mkGraph (mkConfig (cfg_nodes (g_config g)) (delete i (cfg_edges (g_config g)))) (g_nodes g)
                (detach_edge_runtime h t (g_rt g)).2
  | Some _ => g' = g
  end.
Proof.
  intros [Hok M Hn Hlaw]. unfold disconnect. set (c := g_config g) in *.
  destruct (list_find _ (cfg_edges c)) as [[i x]|] eqn:E; [|done]. apply list_find_Some in E as (Hi & Hs & _).
  destruct (config_ok_targets c Hok) as [_ Hall]. destruct (Hall x) as [[t [h m]] Hb].
  { by apply list_elem_of_lookup_2 in Hi. }
  destruct (binding_ends _ _ _ _ _ Hb) as [He _].
  change (edge_ends (mkConfig (cfg_nodes c) []) x) with (edge_ends c x) in He. rewrite He.
  exists i, x, h, t, m. done.
Qed.

Lemma good_disconnect e g : good g -> good (disconnect e g).2.
Proof.
  intros G. pose proof (disconnect_cases e g G) as D. destruct (disconnect e g) as [[err|] g']; [by subst|].
  destruct D as (i & x & h & t & m & Hi & _ & Hb & ->). destruct G as [Hok M Hn Hlaw].
  set (c := g_config g) in *. destruct (config_ok_targets c Hok) as [Hnd _]. split; cbn; [| |done|by apply lawful_detach].
  - apply (config_ok_sub c); cbn; [done|apply Hok|done|apply sublist_delete|]. intros. apply same_nodes_edges.
  - eapply mirrors_ext; [|apply (detach_bound _ _ t h m _ M); [|done]].
    + intros p. rewrite list_elem_of_filter, (bindings_delete _ _ i x t h m p Hi Hb Hnd). tauto.
    + apply elem_of_bindings. exists x. split; [by eapply list_elem_of_lookup_2|done].
Qed.

Lemma good_perform v g : good g -> admissible v g -> good (perform v g).2.
Proof.
  destruct v as [pre inst c rep|pre inst n|name cascade|e purged|e| |L op|t b]; cbn; intros G A.
  - by apply good_load.
  - by apply good_add_node.
  - by apply good_remove_node.
  - destruct A as [Hb Hp]. pose proof (connect_cases e purged g G) as Hc.
    destruct (connect e purged g) as [[[]|] g']; cbn; try (by subst).
    + subst g'. destruct G. split; cbn; try done. apply mirrors_next_origin; [done|lia..].
    + destruct Hc as (h & t & m & Hc). by eapply good_connected.
  - by apply good_disconnect.
  - by apply good_teardown.
  - destruct A as [Hop Hid]. destruct G. split; cbn; try done; [|by apply lawful_with_lock].
    apply mirrors_with_lock; [|done]. intros l _ id Hlt. apply run_op_view. destruct op; try done; lia.
  - destruct G. split; cbn; try done. by apply mirrors_inbox.
Qed.

Lemma reached_good g : reached g -> good g.
Proof. induction 1; [apply good_new|by apply good_perform]. Qed.
(** ** What the invariant says of origins *)

Lemma edge_bound g e h t :
  good g -> e ∈ cfg_edges (g_config g) -> edge_ends (g_config g) e = Some (h, t) ->
  exists s, target_edges (g_rt g) !! t = Some s /\ bound (g_rt g) t h (effective_write_mode (g_config g) e) s.
Proof.
  intros G He Hends. apply (mi_bound _ _ _ (gd_mirror _ G)). apply elem_of_bindings. exists e. split; [done|].
  unfold binding. change (edge_ends (mkConfig (cfg_nodes (g_config g)) []) e) with (edge_ends (g_config g) e).
  by rewrite Hends.
Qed.

Lemma may_write_holder l id : arbitration l = Exclusive -> may_write l id = true -> holder l = Some id.
Proof. intros Ha. unfold may_write. rewrite Ha. repeat case_match; intros; split_bools; done. Qed.

Lemma resolve_bound g t L id :
  good g -> resolve_origin t g = Some (L, id) ->
  exists e h s, e ∈ cfg_edges (g_config g) /\ edge_ends (g_config g) e = Some (h, t)
    /\ effective_write_mode (g_config g) e <> Never
    /\ target_edges (g_rt g) !! t = Some s /\ registered s = Some (L, id)
    /\ endpoint_locks (g_rt g) !! h = Some L.
Proof.
  intros [Hok M Hn Hlaw] Hr. unfold resolve_origin in Hr.
  destruct (decide (t ∈ (bindings (cfg_nodes (g_config g)) (cfg_edges (g_config g))).*1)) as [Hin|Hin].
  - apply list_elem_of_fmap in Hin as ([t' [h m]] & -> & Hin). cbn in *.
    destruct (mi_bound _ _ _ M _ _ _ Hin) as (s & Hs & Bd). rewrite (bd_origin _ _ _ _ _ Bd) in Hr.
    case_bool_decide as Hm; [|done]. apply elem_of_bindings in Hin as (e & He & Hb).
    destruct (binding_edge _ _ _ _ _ Hb) as [H1 H2].
    destruct (bd_registered _ _ _ _ _ Bd) as (L' & id' & _ & _ & Er & HL & _). rewrite Er in Hr. injection Hr as <- <-.
    exists e, h, s. split_and!; try done. congruence.
  - destruct (mi_free _ _ _ M t Hin) as [_ E]. congruence.
Qed.

(** ** Theorems *)

(** C2: the run-time state mirrors the configuration in every state the control plane
    can reach, whatever verbs ran, failed, and interleaved with arbitration and pumps:
    the configuration is valid, the live nodes are its nodes, exactly its host-facing
    endpoints have a lock, sender, fan-out and tap hub and exactly its target-facing
    ones an inbox and an edge slot, every edge is attached with its effective mode on
    both sides, targets without an edge are unattached and unaddressable, no lock has an
    edge origin without an edge, and every lock came about by the lock's operations. *)
Theorem runtime_mirrors_config g :
  reached g ->
  config_ok (g_config g) /\ g_nodes g = node_name <$> cfg_nodes (g_config g)
  /\ mirrors (cfg_nodes (g_config g)) (bindings (cfg_nodes (g_config g)) (cfg_edges (g_config g))) (g_rt g)
  /\ lawful (g_rt g).
Proof. by intros []%reached_good. Qed.

(** The edge origins of a host endpoint's lock are its configured edges: each
    registered origin below the sends is the target of a configured edge into that
    endpoint, under its label and effective mode, and each such edge has one. *)
Theorem lock_origins_are_edges g h L l :
  reached g -> endpoint_locks (g_rt g) !! h = Some L -> lock_of L (g_rt g) = Some l ->
  (forall id o, origins l !! id = Some o -> id < SEND_ORIGIN_BASE ->
     exists e t, e ∈ cfg_edges (g_config g) /\ edge_ends (g_config g) e = Some (h, t)
       /\ o_label o = addr_display t /\ o_write_mode o = effective_write_mode (g_config g) e) /\
  (forall e t, e ∈ cfg_edges (g_config g) -> edge_ends (g_config g) e = Some (h, t) ->
     exists id o, id < SEND_ORIGIN_BASE /\ origins l !! id = Some o
       /\ o_label o = addr_display t /\ o_write_mode o = effective_write_mode (g_config g) e).
Proof.
  intros G%reached_good HL Hl. destruct G as [Hok M Hn Hlaw] eqn:EG. split.
  - intros id o Ho Hid. destruct (mi_phantom _ _ _ M h L l id o HL Hl Ho Hid) as (t & s & Ht & Hr).
    destruct (registered_bound _ _ _ _ _ _ _ M Ht Hr) as (h' & m & Hin & Bd).
    destruct (bd_registered _ _ _ _ _ Bd) as (L' & id' & l' & o' & Er & HL' & Hl' & Ho' & H1 & H2 & _).
    rewrite Hr in Er. injection Er as <- <-. rewrite Hl in Hl'. injection Hl' as <-.
    rewrite Ho in Ho'. injection Ho' as <-. rewrite (mi_inj _ _ _ M _ _ _ HL' HL) in *.
    apply elem_of_bindings in Hin as (e & He & [Hb1 Hb2]%binding_edge). exists e, t. split_and!; congruence.
  - intros e t He Hends. destruct (edge_bound g e h t G He Hends) as (s & Hs & Bd).
    destruct (bd_registered _ _ _ _ _ Bd) as (L' & id & l' & o & _ & HL' & Hl' & Ho & H1 & H2 & Hlt).
    rewrite HL in HL'. injection HL' as <-. rewrite Hl in Hl'. injection Hl' as <-.
    exists id, o. split_and!; try done. pose proof (mi_base _ _ _ M). lia.
Qed.

(** [lock], [unlock] and their like can address an origin by its endpoint exactly
    when the configuration has an edge into that endpoint whose effective mode writes. *)
Theorem resolve_origin_exact g t :
  reached g ->
  is_Some (resolve_origin t g) <->
  exists e h, e ∈ cfg_edges (g_config g) /\ edge_ends (g_config g) e = Some (h, t)
    /\ effective_write_mode (g_config g) e <> Never.
Proof.
  intros G%reached_good. split.
  - intros [[L id] Hr]. destruct (resolve_bound g t L id G Hr) as (e & h & s & He & Hends & Hm & _). eauto.
  - intros (e & h & He & Hends & Hm). destruct (edge_bound g e h t G He Hends) as (s & Hs & Bd).
    unfold resolve_origin. rewrite (bd_origin _ _ _ _ _ Bd), bool_decide_true by done.
    destruct (bd_registered _ _ _ _ _ Bd) as (L & id & _ & _ & -> & _). done.
Qed.

(** in every state of the daemon at most one addressable origin of an exclusive
    endpoint may write. *)
Theorem daemon_write_exclusion g t1 t2 L id1 id2 l :
  reached g -> resolve_origin t1 g = Some (L, id1) -> resolve_origin t2 g = Some (L, id2) ->
  lock_of L (g_rt g) = Some l -> arbitration l = Exclusive ->
  may_write l id1 = true -> may_write l id2 = true -> t1 = t2.
Proof.
  intros G%reached_good R1 R2 Hl Ha W1 W2.
  destruct (resolve_bound g t1 L id1 G R1) as (_ & _ & s1 & _ & _ & _ & Hs1 & Hr1 & _).
  destruct (resolve_bound g t2 L id2 G R2) as (_ & _ & s2 & _ & _ & _ & Hs2 & Hr2 & _).
  apply may_write_holder in W1; [|done]. apply may_write_holder in W2; [|done].
  assert (id1 = id2) as -> by congruence. exact (mi_ids _ _ _ (gd_mirror _ G) _ _ _ _ _ _ _ Hs1 Hs2 Hr1 Hr2).
Qed.

(** C22: a refused verb leaves the graph as it was, with two exceptions the code has: a
    [connect] refused because the consumer has not drained its inbox uses up an edge
    identity, and a [load --replace] whose nodes cannot be made has already torn the old
    graph down (the prechecks, which build the same codecs, are there to rule this out). *)
Theorem refused_verb_changes_nothing v g err g' :
  reached g -> perform v g = (Some err, g') ->
  g' = g
  \/ (err = EEdgeInboxFull /\ g' = on_runtime (set_next_origin (next_edge_origin (g_rt g) + 1)) g)
  \/ (err = EInstantiate /\ g' = teardown g /\ exists pre inst c, v = VLoad pre inst c true).
Proof.
  intros G%reached_good. destruct v as [pre inst c rep|pre inst n|name cascade|e purged|e| |L op|t b]; cbn; try done.
  - unfold load. destruct (structural_ok c), pre; cbn; try (by intros [= <- <-]; auto). destruct rep; cbn.
    + destruct (forallb _ _); cbn; intros [= <- <-]. right. right. split_and!; eauto 10.
    + case_bool_decide; [|destruct (forallb _ _)]; cbn; intros [= <- <-]; auto.
  - unfold add_node. destruct pre, (structural_ok _), (inst n); cbn; intros [= <- <-]; auto.
  - unfold remove_node. destruct (list_find _ (g_nodes g)) as [[idx name']|]; [|by intros [= <- <-]; auto].
    destruct (_ && _); [by intros [= <- <-]; auto|]. by destruct (foldl prune_endpoint _ _).
  - pose proof (connect_cases e purged g G) as Hc. intros E. rewrite E in Hc. destruct err; auto.
  - pose proof (disconnect_cases e g G) as Hc. intros E. rewrite E in Hc. auto.
Qed.
(** ** Connecting and disconnecting *)

Lemma same_edge_ends c x e : same_edge x e -> edge_ends c x = edge_ends c e.
Proof.
  unfold same_edge, edge_ends. intros [[-> ->]|[-> ->]]; [done|].
  destruct (endpoint_facing c (ec_a e)) as [fa|], (endpoint_facing c (ec_b e)) as [fb|]; cbn; try done;
    destruct fa; try destruct fb; done.
Qed.

Lemma list_find_snoc {A} (P : A -> Prop) `{!forall x, Decision (P x)} (l : list A) x :
  (forall y, y ∈ l -> ~ P y) -> P x -> list_find P (l ++ [x]) = Some (length l, x).
Proof.
  intros Hl Hx. apply list_find_Some. split_and!; [by rewrite lookup_app_r, Nat.sub_diag by lia|done|].
  intros j y. rewrite lookup_app_Some. intros [Hj|[Hj _]] Hlt; [|lia]. by eapply Hl, list_elem_of_lookup_2.
Qed.

(** Registering a new origin and taking it off again. *)
Lemma register_unregister l id lb wm :
  lock_wf l -> origins l !! id = None ->
  let l' := (unregister (register l id lb wm) id).2 in
  origins l' = origins l /\ holder l' = holder l /\ waiters l' = waiters l /\ arbitration l' = arbitration l
  /\ stolen l' = stolen l.
Proof.
  intros Hwf Hf.
  assert (Hnh : holder l <> Some id) by (intros (( o & ? & _) & _)%(wf_holder l Hwf); congruence).
  assert (Hnw : retain_ne id (waiters l) = waiters l).
  { apply retain_ne_id. intros ((o & ? & _) & _)%(wf_waiters l Hwf). congruence. }
  unfold register. destruct (_ && _ && _) eqn:E; unfold unregister; cbn.
  - apply andb_prop in E as [_ E%bool_decide_eq_true]. cbn in E. rewrite bool_decide_true by done. cbn.
    rewrite delete_insert_id by done. by rewrite Hnw, E.
  - rewrite bool_decide_false by done. cbn. by rewrite delete_insert_id, Hnw by done.
Qed.

Lemma purge_unregister l id n : (unregister (record_purge l id n) id).2 = (unregister l id).2.
Proof.
  unfold record_purge. destruct (origins l !! id) as [o|]; [|done].
  unfold unregister. cbn. rewrite delete_insert_eq. by case_bool_decide.
Qed.

Lemma filter_everything {A} (P : A -> Prop) `{!forall x, Decision (P x)} (l : list A) :
  (forall x, x ∈ l -> P x) -> filter P l = l.
Proof.
  induction l as [|x l IH]; intros Hall; [done|]. rewrite filter_cons, decide_True by (apply Hall; left).
  f_equal. apply IH. intros y Hy. apply Hall. by right.
Qed.

(** A lock as it was, its lease generation aside. *)
Definition same_lock (l l' : EndpointLock) : Prop :=
  origins l' = origins l /\ holder l' = holder l /\ waiters l' = waiters l /\ arbitration l' = arbitration l
  /\ stolen l' = stolen l.
(** The same handles; inboxes keep what was handed over, identities are used up. *)
Definition same_handles (r r' : Runtime) : Prop :=
  endpoint_locks r' = endpoint_locks r /\ endpoint_targetward r' = endpoint_targetward r
  /\ host_fanout r' = host_fanout r /\ tap_hubs r' = tap_hubs r
  /\ target_edges r' = target_edges r /\ origin_locks r' = origin_locks r.

Lemma detach_attached ns B h t f inbox m depth L X l n r :
  mirrors ns B r -> lawful r -> t ∉ B.*1 -> facing ns t = Some Target -> host_fanout r !! h = Some f ->
  endpoint_locks r !! h = Some L -> lock_of L r = Some l ->
  let o := next_edge_origin r in
  let r1 := attached_rt h t o f inbox m depth L X (set_next_origin (o + 1) r) in
  let r2 := (detach_edge_runtime h t (with_lock L (fun l => record_purge l o n) r1)).2 in
  (detach_edge_runtime h t r1).2 = r2 /\ same_handles r r2
  /\ forall L' l', lock_of L' r = Some l' -> exists l2, lock_of L' r2 = Some l2 /\ same_lock l' l2.
Proof.
  intros M Hlaw Hnew Ft Hf HL Hl o r1 r2.
  pose proof (next_origin_fresh _ _ _ _ _ _ M HL Hl) as Hfresh.
  destruct (mi_free _ _ _ M t Hnew) as [Hslot Horg]. destruct (proj1 (mi_slot _ _ _ M t) Ft) as [s Hs].
  pose proof (Hslot s Hs) as ->.
  assert (D : forall r1, host_fanout r1 = <[h := f ++ [mkSink t depth]]> (host_fanout r) ->
    target_edges r1 = <[t := mkSlot (Some (L, o)) (if bool_decide (m <> Never) then Some X else None) true]> (target_edges r) ->
    (detach_edge_runtime h t r1).2 = detached_rt h t L o (f ++ [mkSink t depth]) r1).
  { intros r1' E1 E2. eapply detach_runtime_spec; [by rewrite E1, lookup_insert_eq|by rewrite E2, lookup_insert_eq|done]. }
  unfold r2. rewrite !D by done. split_and!.
  - unfold detached_rt, with_lock, set_cells. cbn. f_equal. apply map_eq. intros k.
    destruct (decide (k = L)) as [->|]; [rewrite !lookup_alter_eq|by rewrite !lookup_alter_ne].
    destruct (cells r !! L); cbn; [by rewrite purge_unregister|done].
  - unfold same_handles. cbn. split_and!; try done.
    + rewrite insert_insert_eq, filter_app, filter_cons, decide_False by (cbn; tauto). rewrite filter_nil, app_nil_r.
      rewrite insert_id; [done|]. rewrite Hf. f_equal. symmetry. apply filter_everything.
      intros k Hk E. apply Hnew. destruct (mi_sinks _ _ _ M h f Hf) as [_ Hsub]. destruct (Hsub t) as [m' Hin].
      { rewrite <- E. by apply list_elem_of_fmap_2. }
      by apply (list_elem_of_fmap_2 fst B (t, (h, m'))).
    + rewrite insert_insert_eq. by apply insert_id.
    + case_bool_decide; [by rewrite delete_insert_id|]. by apply delete_id.
  - intros L' l' Hl'. unfold lock_of in *. cbn. destruct (decide (L' = L)) as [->|Hne].
    + rewrite !lookup_alter_eq. destruct (cells r !! L) as [c|] eqn:Ec; [|done]. cbn in *.
      injection Hl as <-. injection Hl' as <-. eexists. split; [done|]. rewrite purge_unregister.
      apply register_unregister; [|done]. apply reachable_wf, (Hlaw L). unfold lock_of. by rewrite Ec.
    + rewrite !lookup_alter_ne by done. rewrite Hl'. exists l'. by split.
Qed.

(** disconnecting the edge just connected always succeeds and gives the graph back:
    configuration, nodes and every handle are those before, and every lock has the
    origins, holder, queue and steal record it had, also when the edge was granted the
    lock and its client purged. *)
Theorem connect_disconnect_roundtrip e purged g g1 :
  reached g -> connect e purged g = (None, g1) ->
  exists g2, disconnect e g1 = (None, g2) /\ g_config g2 = g_config g /\ g_nodes g2 = g_nodes g
    /\ same_handles (g_rt g) (g_rt g2)
    /\ forall L l, lock_of L (g_rt g) = Some l -> exists l', lock_of L (g_rt g2) = Some l' /\ same_lock l l'.
Proof.
  intros G%reached_good E. pose proof (connect_cases e purged g G) as Hc. rewrite E in Hc. clear E.
  destruct Hc as (h & t & m & [Ec Hok' En Hb Hnew (f & L & X & l & b & Hf & HL & HX & Hl & Hib & Hr)]).
  destruct G as [Hok M Hn Hlaw]. destruct (binding_facing _ _ _ _ _ Hb) as [_ Ft].
  destruct (binding_edge (g_config g) _ _ _ _ Hb) as [Hends _].
  assert (Hfind : list_find (fun x => same_edge x e) (cfg_edges (g_config g) ++ [e])
                  = Some (length (cfg_edges (g_config g)), e)).
  { apply list_find_snoc; [|left; done]. intros x Hx Hs. apply Hnew.
    destruct (config_ok_targets _ Hok) as [_ Hall]. destruct (Hall x Hx) as [[t' [h' m']] Hbx].
    destruct (binding_edge (g_config g) _ _ _ _ Hbx) as [Hex _]. rewrite (same_edge_ends _ _ _ Hs), Hends in Hex.
    injection Hex as <- <-. apply (list_elem_of_fmap_2 fst _ (t, (h, m'))). apply elem_of_bindings. eauto. }
  destruct (detach_attached _ _ h t f (try_send b tt).2 m (hostward_depth (cfg_nodes (g_config g)) (addr_node h))
              L X l purged _ M Hlaw Hnew Ft Hf HL Hl) as (D1 & D2 & D3).
  unfold disconnect. rewrite Ec. cbn [cfg_edges cfg_nodes]. rewrite Hfind.
  change (edge_ends (mkConfig (cfg_nodes (g_config g)) (cfg_edges (g_config g) ++ [e])) e)
    with (edge_ends (g_config g) e). rewrite Hends.
  eexists. split; [done|]. cbn [g_config g_nodes g_rt]. split_and!; [|done|..].
  - rewrite delete_take_drop, take_app_length, drop_ge by (rewrite length_app; cbn; lia).
    rewrite app_nil_r. by destruct (g_config g).
  - destruct Hr as [->| ->]; [rewrite D1|]; exact D2.
  - destruct Hr as [->| ->]; [rewrite D1|]; exact D3.
Qed.
(** ** Loading and growing *)

Lemma absorb_attached h t f inbox m depth L X w r :
  is_Some (cells w !! L) -> next_edge_origin r = 0 ->
  absorb (attached_rt h t (next_edge_origin w) f inbox m depth L X (set_next_origin (next_edge_origin w + 1) w)) (cleared r)
  = attached_rt h t (next_edge_origin (absorb w (cleared r))) f inbox m depth L X
      (set_next_origin (next_edge_origin (absorb w (cleared r)) + 1) (absorb w (cleared r))).
Proof.
  intros [c Hc] Hn. assert (next_edge_origin (absorb w (cleared r)) = next_edge_origin w) as -> by (cbn; lia).
  unfold absorb, attached_rt, cleared, set_next_origin. cbn. rewrite !map_union_empty. f_equal; [|lia].
  apply map_eq. intros k. rewrite lookup_over. destruct (decide (k = L)) as [->|Hne].
  - rewrite !lookup_alter_eq, lookup_over, Hc. done.
  - by rewrite !lookup_alter_ne, lookup_over.
Qed.

(** [connect] one edge after the other, stopping at the first error. *)
Definition connect_all (es : list EdgeConfig) (st : option RpcError * GraphState (Table := Table))
    : option RpcError * GraphState :=
  foldl (fun st e => match st.1 with Some _ => st | None => connect e 0 st.2 end) st es.

Definition loaded ns es g : GraphState :=
  mkGraph (mkConfig ns es) (node_name <$> ns) (absorb (build (mkConfig ns es) (next_cell (g_rt g))) (cleared (g_rt g))).

Lemma load_loaded c g :
  config_ok c -> g_nodes g = [] -> load true (fun _ => true) c false g = (None, loaded (cfg_nodes c) (cfg_edges c) g).
Proof.
  intros Hok Hg. unfold load. rewrite (proj2 (structural_ok_spec c) Hok), Hg, bool_decide_false by (by intros []).
  assert (forallb (fun _ => true) (cfg_nodes c) = true) as -> by (by apply forallb_forall).
  by destruct c.
Qed.

Lemma connect_loaded ns es e g :
  good g -> next_edge_origin (g_rt g) = 0 -> config_ok (mkConfig ns (es ++ [e])) ->
  N.of_nat (length (es ++ [e])) < SEND_ORIGIN_BASE ->
  connect e 0 (loaded ns es g) = (None, loaded ns (es ++ [e]) g).
Proof.
  intros G Hn Hok' Hlen. rewrite length_app in Hlen. cbn in Hlen.
  assert (Hok : config_ok (mkConfig ns es)).
  { apply (config_ok_sub (mkConfig ns (es ++ [e]))); cbn; [done|apply Hok'|done|by apply sublist_inserts_r|].
    intros x _. apply (same_nodes_edges (mkConfig ns (es ++ [e]))). }
  destruct (build_mirrors (mkConfig ns es) (next_cell (g_rt g)) Hok ltac:(cbn; lia)) as (M & Hc & Hi & Hlaw). cbn in M, Hi.
  assert (GL : good (loaded ns es g)).
  { destruct G. split; cbn; [done| |done|by apply lawful_absorb].
    apply mirrors_absorb_cleared; [done|apply (mi_fresh _ _ _ gd_mirror0)|done|apply (mi_base _ _ _ gd_mirror0)]. }
  destruct (connect_spec e 0 (loaded ns es g) GL Hok')
    as (h & t & m & f & L & X & l & b & gr & Hb & Hnew & Hf & HL & HX & Hl & Hib & E). cbn zeta in E. rewrite E.
  clear E. set (w := build (mkConfig ns es) (next_cell (g_rt g))) in *.
  assert (Q : host_fanout (absorb w (cleared (g_rt g))) = host_fanout w
    /\ endpoint_locks (absorb w (cleared (g_rt g))) = endpoint_locks w
    /\ endpoint_targetward (absorb w (cleared (g_rt g))) = endpoint_targetward w
    /\ target_inbox (absorb w (cleared (g_rt g))) = target_inbox w)
    by (split_and!; apply map_union_empty).
  destruct Q as (Q1 & Q2 & Q3 & Q4). unfold loaded in Hf, HL, HX, Hib, Hb, Hnew. fold w in Hf, HL, HX, Hib.
  cbn [g_rt g_config cfg_nodes cfg_edges] in Hf, HL, HX, Hib, Hb, Hnew. rewrite Q1 in Hf. rewrite Q2 in HL.
  rewrite Q3 in HX. rewrite Q4 in Hib.
  apply Hi in Hib; [|done]. subst b. rewrite bool_decide_false by done. rewrite andb_false_r.
  destruct (wire_edge_spec ns es e t h m (build (mkConfig ns es) (next_cell (g_rt g))))
    as (f' & L' & X' & Hf' & HL' & HX' & W); try done; [by apply (config_ok_legal (mkConfig ns es))|].
  fold w in Hf', HL', HX', W. simplify_eq. unfold loaded. fold w. cbn [g_rt g_config g_nodes cfg_nodes cfg_edges].
  assert (build (mkConfig ns (es ++ [e])) (next_cell (g_rt g)) = wire_edge ns (facing_map ns) w e) as ->
    by (unfold w, build; cbn [cfg_nodes cfg_edges]; by rewrite foldl_app).
  rewrite W, absorb_attached; [done| |done].
  destruct (mi_cell _ _ _ M h L HL) as (cl & Hcl & _). exists cl. exact Hcl.
Qed.

(** C11: loading a configuration into a daemon that has had no edge yet is loading its
    nodes and then connecting its edges one at a time: every prefix is accepted, no
    [connect] fails, and the two states are equal. *)
Theorem load_is_connects c g :
  reached g -> g_nodes g = [] -> next_edge_origin (g_rt g) = 0 -> structural_ok c = true ->
  N.of_nat (length (cfg_edges c)) < SEND_ORIGIN_BASE ->
  connect_all (cfg_edges c) (load true (fun _ => true) (mkConfig (cfg_nodes c) []) false g)
  = load true (fun _ => true) c false g.
Proof.
  intros G%reached_good Hg Hn Hok%structural_ok_spec Hlen.
  assert (Hpre : forall es rest, cfg_edges c = es ++ rest -> config_ok (mkConfig (cfg_nodes c) es)).
  { intros es rest E. apply (config_ok_sub c); cbn; [done|apply Hok|done|rewrite E; by apply sublist_inserts_r|].
    intros x _. apply same_nodes_edges. }
  rewrite !load_loaded by (done || by apply (Hpre [] (cfg_edges c))). cbn [cfg_nodes cfg_edges].
  enough (H : forall es rest, cfg_edges c = es ++ rest ->
            connect_all es (None, loaded (cfg_nodes c) [] g) = (None, loaded (cfg_nodes c) es g)).
  { apply (H _ []). by rewrite app_nil_r. }
  induction es as [|e es IH] using rev_ind; intros rest E; [done|]. unfold connect_all. rewrite foldl_app. cbn [foldl].
  rewrite <- app_assoc in E. fold (connect_all es (None, loaded (cfg_nodes c) [] g)). rewrite (IH _ E). cbn [fst snd].
  rewrite app_assoc in E. apply connect_loaded; [done|done|by eapply Hpre|].
  rewrite E, length_app in Hlen. lia.
Qed.
End runs.
(** ** A daemon that loaded the sample configuration *)

#[local] Existing Instance some_order.

Definition lab_load : Verb := VLoad true (fun _ => true) lab false.
Definition lab_graph : GraphState := (perform lab_load graph_new).2.

Lemma lab_reached : reached lab_graph.
Proof. apply (reached_step graph_new lab_load); [constructor|]. vm_compute. reflexivity. Qed.

Definition console : EndpointAddr := mkAddr "mux" "console".
Definition tidy_raw : EndpointAddr := mkAddr "tidy" "raw".
Definition lab_cell (h : EndpointAddr) : N := default 0 (endpoint_locks (g_rt lab_graph) !! h).
Definition lab_lock (h : EndpointAddr) : EndpointLock := default (Lock.new Exclusive) (lock_of (lab_cell h) (g_rt lab_graph)).

Lemma runtime_mirrors_config_witness : config_ok (g_config lab_graph) /\ length (cfg_edges (g_config lab_graph)) = 4%nat.
Proof. split; [apply (runtime_mirrors_config lab_graph lab_reached)|vm_compute; reflexivity]. Defined.

Lemma lock_origins_are_edges_witness :
  exists id o, id < SEND_ORIGIN_BASE /\ origins (lab_lock console) !! id = Some o
    /\ o_label o = addr_display tidy_raw /\ o_write_mode o = Held.
Proof.
  destruct (lock_origins_are_edges lab_graph console (lab_cell console) (lab_lock console) lab_reached) as [_ H];
    [vm_compute; reflexivity..|].
  apply (H (mkEdgeConfig console tidy_raw OnDemand) tidy_raw); [|vm_compute; reflexivity].
  apply (list_elem_of_lookup_2 _ 1%nat). vm_compute. reflexivity.
Defined.

Lemma resolve_origin_exact_witness :
  is_Some (resolve_origin tidy_raw lab_graph) /\ resolve_origin (mkAddr "capture" "") lab_graph = None.
Proof.
  split; [|vm_compute; reflexivity]. apply (resolve_origin_exact lab_graph tidy_raw lab_reached).
  exists (mkEdgeConfig console tidy_raw OnDemand), console. split_and!; [|vm_compute; reflexivity|vm_compute; done].
  apply (list_elem_of_lookup_2 _ 1%nat). vm_compute. reflexivity.
Defined.

Lemma daemon_write_exclusion_witness :
  may_write (lab_lock console) (default (0, 0) (resolve_origin tidy_raw lab_graph)).2 = true /\ tidy_raw = tidy_raw.
Proof.
  split; [vm_compute; reflexivity|].
  apply (daemon_write_exclusion lab_graph tidy_raw tidy_raw (lab_cell console)
           (default (0, 0) (resolve_origin tidy_raw lab_graph)).2
           (default (0, 0) (resolve_origin tidy_raw lab_graph)).2 (lab_lock console) lab_reached);
    vm_compute; reflexivity.
Defined.

(** A [load] of the sample over itself is refused. *)
Lemma refused_verb_changes_nothing_witness :
  (perform lab_load lab_graph).1 = Some ELoadNonempty /\ (perform lab_load lab_graph).2 = lab_graph.
Proof.
  assert (E : (perform lab_load lab_graph).1 = Some ELoadNonempty) by (vm_compute; reflexivity). split; [exact E|].
  assert (P : perform lab_load lab_graph = (Some ELoadNonempty, (perform lab_load lab_graph).2))
    by (rewrite <- E; apply surjective_pairing).
  destruct (refused_verb_changes_nothing lab_load lab_graph _ _ lab_reached P) as [H|[[H _]|[H _]]];
    [exact H|discriminate H..].
Defined.

(** The sample's leg re-attached: disconnected, connected, and disconnected again. *)
Definition trace_edge : EdgeConfig := mkEdgeConfig (mkAddr "uplink" "trace") (mkAddr "mux" "trace") OnDemand.
Definition lab_cut : GraphState := (perform (VDisconnect trace_edge) lab_graph).2.

Lemma lab_cut_reached : reached lab_cut.
Proof. apply (reached_step lab_graph (VDisconnect trace_edge)); [apply lab_reached|done]. Qed.

Lemma connect_disconnect_roundtrip_witness :
  exists g2, disconnect trace_edge (connect trace_edge 3 lab_cut).2 = (None, g2) /\ g_config g2 = g_config lab_cut
    /\ origin_locks (g_rt g2) = origin_locks (g_rt lab_cut).
Proof.
  assert (E : (connect trace_edge 3 lab_cut).1 = None) by (vm_compute; reflexivity).
  assert (P : connect trace_edge 3 lab_cut = (None, (connect trace_edge 3 lab_cut).2))
    by (rewrite <- E; apply surjective_pairing).
  destruct (connect_disconnect_roundtrip trace_edge 3 lab_cut _ lab_cut_reached P)
    as (g2 & H1 & H2 & _ & (_ & _ & _ & _ & _ & H3) & _).
  exists g2. exact (conj H1 (conj H2 H3)).
Defined.

Lemma load_is_connects_witness :
  connect_all (cfg_edges lab) (load true (fun _ => true) (mkConfig (cfg_nodes lab) []) false graph_new)
  = load true (fun _ => true) lab false graph_new.
Proof. apply (load_is_connects lab graph_new); [constructor|done|done|vm_compute; reflexivity|vm_compute; reflexivity]. Defined.
