(* ===== verification/Paths.v ===== *)
(** * Strings and paths of the standard library

    What the device resolver uses of [str] and [std::path] on Unix: [trim],
    [strip_prefix], [split], and paths as the components that [Path]'s equality,
    ordering, prefix tests, [parent] and [file_name] see.  File names are valid UTF-8,
    so that [to_string_lossy] and [to_str] are the name itself. *)

From Stdlib Require Import Strings.String Strings.Ascii.
From S2P Require Import Prelude GraphTypes.
#[local] Open Scope string_scope.

(** ** Strings *)

(** [s.strip_prefix(p)]. *)
Fixpoint strip_prefix (p s : string) : option string :=
  match p, s with
  | EmptyString, _ => Some s
  | String a p, String b s => if Ascii.eqb a b then strip_prefix p s else None
  | String _ _, EmptyString => None
  end.

Definition starts_with (p s : string) : bool := match strip_prefix p s with Some _ => true | None => false end.

(** [s.split(c)] and [s.trim_start_matches(c)]. *)
Fixpoint split_on (c : ascii) (s : string) : list string :=
  match s with
  | EmptyString => [""]
  | String a s =>
      if Ascii.eqb a c then "" :: split_on c s
      else match split_on c s with
           | x :: xs => String a x :: xs
           | [] => [String a ""]
           end
  end.

Fixpoint trim_start_char (c : ascii) (s : string) : string :=
  match s with
  | String a s' => if Ascii.eqb a c then trim_start_char c s' else s
  | EmptyString => s
  end.

(** One white-space character off the end of a UTF-8 string held in reverse. *)
Definition strip_ws_back (bs : list byte) : option (list byte) :=
  match bs with
  | b0 :: r0 =>
      match strip_ws [b0] with
      | Some _ => Some r0
      | None =>
          match r0 with
          | b1 :: r1 =>
              if ((bval b1 =? 0xc2) && ((bval b0 =? 0x85) || (bval b0 =? 0xa0)))%Z then Some r1
              else match r1 with
              | b2 :: r2 => match strip_ws [b2; b1; b0] with Some [] => Some r2 | _ => None end
              | [] => None
              end
          | [] => None
          end
      end
  | [] => None
  end.

Fixpoint repeat_strip (strip : list byte -> option (list byte)) (fuel : nat) (bs : list byte) : list byte :=
  match fuel with
  | O => bs
  | S n => match strip bs with Some r => repeat_strip strip n r | None => bs end
  end.

(** [s.trim()]: each step takes at least a byte, so the length is enough. *)
Definition trim_bytes (bs : list byte) : list byte :=
  let bs := repeat_strip strip_ws (length bs) bs in
  rev (repeat_strip strip_ws_back (length bs) (rev bs)).

Definition trim (s : string) : string := from_bytes (trim_bytes (as_bytes s)).

(** Joining strings ([Vec<String>::join]). *)
Fixpoint join_with (sep : string) (l : list string) : string :=
  match l with
  | [] => ""
  | [x] => x
  | x :: l => x ++ sep ++ join_with sep l
  end.

(** ** Paths *)

Inductive Component := RootDir | CurDir | ParentDir | Normal (name : string).
#[export] Instance component_eq_dec : EqDecision Component.
Proof. solve_decision. Defined.

Abbreviation Path := (list Component).

Definition component (s : string) : option Component :=
  if bool_decide (s = "") then None
  else if bool_decide (s = ".") then None
  else if bool_decide (s = "..") then Some ParentDir
  else Some (Normal s).

(** [Path::new(s).components()]: repeated separators and [.] go, a leading [.] of a
    relative path stays. *)
Definition components (s : string) : Path :=
  let segs := split_on slash s in
  let front := match segs with
               | [] => []
               | x :: rest =>
                   if bool_decide (x = "") && bool_decide (rest <> []) then [RootDir]
                   else if bool_decide (x = ".") then [CurDir] else []
               end in
  app front (omap component segs).

(** [p.join(q)]. *)
Definition join (p q : Path) : Path :=
  match q with
  | RootDir :: _ => q
  | CurDir :: q' => match p with [] => q | _ => app p q' end
  | _ => app p q
  end.

Definition join_str (p : Path) (s : string) : Path := join p (components s).

Definition file_name (p : Path) : option string :=
  match last p with Some (Normal s) => Some s | _ => None end.

Definition parent (p : Path) : option Path :=
  match last p with
  | None | Some RootDir => None
  | Some _ => Some (take (length p - 1) p)
  end.

(** [p.strip_prefix(root)] and [p.starts_with(root)]. *)
Fixpoint path_strip_prefix (root p : Path) : option Path :=
  match root, p with
  | [], _ => Some p
  | c :: root, d :: p => if decide (c = d) then path_strip_prefix root p else None
  | _ :: _, [] => None
  end.

Definition path_starts_with (root p : Path) : bool :=
  match path_strip_prefix root p with Some _ => true | None => false end.

Definition component_display (c : Component) : string :=
  match c with RootDir => "" | CurDir => "." | ParentDir => ".." | Normal s => s end.

(** [p.display()] of a path without redundant separators. *)
Definition path_display (p : Path) : string :=
  match p with
  | [RootDir] => "/"
  | _ => join_with "/" (component_display <$> p)
  end.

(** The order of components and of paths. *)
Definition component_rank (c : Component) : Z :=
  match c with RootDir => 0 | CurDir => 1 | ParentDir => 2 | Normal _ => 3 end.
Definition component_compare (c d : Component) : comparison :=
  match c, d with
  | Normal a, Normal b => String.compare a b
  | _, _ => Z.compare (component_rank c) (component_rank d)
  end.
Fixpoint path_compare (p q : Path) : comparison :=
  match p, q with
  | [], [] => Eq
  | [], _ :: _ => Lt
  | _ :: _, [] => Gt
  | c :: p, d :: q => match component_compare c d with Eq => path_compare p q | r => r end
  end.

Example trim_samples :
  trim "  a b	" = "a b" /\ trim "" = "" /\ trim " " = "" /\ trim " x " = "x".
Proof. vm_compute. done. Qed.

Example components_samples :
  components "/dev//serial/./by-id/" = [RootDir; Normal "dev"; Normal "serial"; Normal "by-id"]
  /\ components "./a/../b" = [CurDir; Normal "a"; ParentDir; Normal "b"]
  /\ components "" = [] /\ components "/" = [RootDir] /\ components "." = [CurDir].
Proof. vm_compute. done. Qed.

(** ** Lemmas: trimming *)

Lemma strip_ws_app a b r : strip_ws a = Some r -> strip_ws (app a b) = Some (app r b).
Proof.
  destruct a as [|b0 [|b1 [|b2 a]]]; cbn; try done; repeat case_match; try done; try (by intros [= <-]);
    simplify_eq; try done.
Qed.

Lemma strip_ws_shorter bs r : strip_ws bs = Some r -> (length r < length bs)%nat.
Proof. destruct bs as [|b0 [|b1 [|b2 bs]]]; cbn; repeat case_match; try done; intros [= <-]; cbn; lia. Qed.

Lemma strip_ws_back_suffix bs r : strip_ws_back bs = Some r -> exists q, q <> [] /\ bs = app q r.
Proof.
  destruct bs as [|b0 r0]; [done|]. cbn [strip_ws_back].
  destruct (strip_ws [b0]); [intros [= <-]; by exists [b0]|]. destruct r0 as [|b1 r1]; [done|].
  destruct (_ && _); [intros [= <-]; by exists [b0; b1]|]. destruct r1 as [|b2 r2]; [done|].
  destruct (strip_ws [b2; b1; b0]) as [[|]|]; [|done..]. intros [= <-]. by exists [b0; b1; b2].
Qed.

Lemma repeat_strip_done strip n bs :
  (forall bs r, strip bs = Some r -> (length r < length bs)%nat) -> strip [] = None -> (length bs <= n)%nat ->
  strip (repeat_strip strip n bs) = None.
Proof.
  intros Hlen Hnil. revert bs. induction n as [|n IH]; intros bs Hn; cbn.
  - by destruct bs; [|cbn in Hn; lia].
  - destruct (strip bs) as [r|] eqn:E; [|done]. apply IH. apply Hlen in E. lia.
Qed.

Lemma repeat_strip_id strip n bs : strip bs = None -> repeat_strip strip n bs = bs.
Proof. destruct n; cbn; [done|]. by intros ->. Qed.

Lemma repeat_back_suffix n bs : exists q, bs = app q (repeat_strip strip_ws_back n bs).
Proof.
  revert bs. induction n as [|n IH]; intros bs; cbn; [by exists []|].
  destruct (strip_ws_back bs) as [r|] eqn:E; [|by exists []].
  apply strip_ws_back_suffix in E as (q & _ & ->). destruct (IH r) as [q' Hq']. exists (app q q').
  by rewrite <- app_assoc, <- Hq'.
Qed.

(** No white space at either end. *)
Definition trimmed_bytes (bs : list byte) : Prop := strip_ws bs = None /\ strip_ws_back (rev bs) = None.

Lemma trim_bytes_trimmed bs : trimmed_bytes (trim_bytes bs).
Proof.
  unfold trim_bytes. set (bs' := repeat_strip strip_ws _ bs).
  assert (H1 : strip_ws bs' = None) by (apply repeat_strip_done; [apply strip_ws_shorter|done|done]).
  split.
  - destruct (repeat_back_suffix (length bs') (rev bs')) as [q Hq].
    assert (bs' = app (rev (repeat_strip strip_ws_back (length bs') (rev bs'))) (rev q)) as E.
    { rewrite <- rev_app_distr, <- Hq. by rewrite rev_involutive. }
    destruct (strip_ws (rev _)) as [r|] eqn:S; [|done].
    apply (strip_ws_app _ (rev q)) in S. rewrite <- E in S. congruence.
  - rewrite rev_involutive. apply repeat_strip_done; [|done|by rewrite length_rev].
    intros x r (q & Hq & ->)%strip_ws_back_suffix. rewrite length_app. destruct q; [done|]. cbn. lia.
Qed.

Lemma trim_bytes_id bs : trimmed_bytes bs -> trim_bytes bs = bs.
Proof.
  intros [H1 H2]. unfold trim_bytes. rewrite (repeat_strip_id strip_ws) by done.
  rewrite (repeat_strip_id strip_ws_back) by done. apply rev_involutive.
Qed.

(** A string that [trim] leaves alone. *)
Definition trimmed (s : string) : Prop := trimmed_bytes (as_bytes s).

Lemma trim_trimmed s : trimmed (trim s).
Proof. unfold trimmed, trim. rewrite as_from_bytes. apply trim_bytes_trimmed. Qed.

Lemma trim_id s : trimmed s -> trim s = s.
Proof. intros H. unfold trim. rewrite trim_bytes_id by done. apply from_as_bytes. Qed.

Lemma as_bytes_app a b : as_bytes (a ++ b) = app (as_bytes a) (as_bytes b).
Proof.
  unfold as_bytes, list_byte_of_string. induction a as [|c a IH]; [done|].
  change (String c a ++ b) with (String c (a ++ b)). cbn. by rewrite IH.
Qed.

Lemma str_app_assoc a b c : a ++ (b ++ c) = (a ++ b) ++ c.
Proof. induction a as [|x a IH]; [done|]. exact (f_equal (String x) IH). Qed.

(** A plain byte: ASCII, not white space. *)
Definition plain (b : byte) : bool := ((0x21 <=? bval b) && (bval b <? 0x80))%Z.

Lemma plain_front b bs : plain b = true -> strip_ws (b :: bs) = None.
Proof.
  unfold plain. intros [H1%Z.leb_le H2%Z.ltb_lt]%andb_prop. cbn [strip_ws].
  replace (_ && _ || _)%Z with false by (symmetry; rewrite orb_false_iff, andb_false_iff, !Z.leb_gt, Z.eqb_neq; lia).
  destruct bs as [|b1 bs]; [done|]. replace (bval b =? 0xc2)%Z with false by (symmetry; apply Z.eqb_neq; lia).
  cbn. destruct bs as [|b2 bs]; [done|]. pose proof (bval_range b1). pose proof (bval_range b2).
  match goal with |- (if ?c then _ else _) = _ => replace c with false; [done|] end.
  symmetry. rewrite !orb_false_iff, andb_false_iff, !Z.eqb_neq, !Z.leb_gt. lia.
Qed.

Lemma plain_back y x z :
  plain x = true -> y <> [] -> strip_ws_back y = None -> strip_ws_back (app y (x :: z)) = None.
Proof.
  intros Hx Hy. pose proof (plain_front x) as Hf. pose proof Hx as Hx'. unfold plain in Hx'.
  apply andb_prop in Hx' as [H1%Z.leb_le H2%Z.ltb_lt].
  destruct y as [|a [|b [|c y]]]; [done|..]; cbn [app strip_ws_back].
  - destruct (strip_ws [a]); [done|]. intros _. replace (bval x =? 0xc2)%Z with false by (symmetry; apply Z.eqb_neq; lia).
    cbn [andb]. destruct z as [|z0 z]; [done|]. destruct (strip_ws [z0; x; a]) as [[|]|] eqn:E; [|done..]. exfalso.
    revert E. cbn [strip_ws]. repeat case_match; try done. intros _. pose proof (bval_range z0). pose proof (bval_range a).
    rewrite ?orb_true_iff, ?andb_true_iff, ?Z.eqb_eq, ?Z.leb_le in *. lia.
  - destruct (strip_ws [a]); [done|]. destruct (_ && _); [done|]. intros _. by rewrite Hf by done.
  - destruct (strip_ws [a]); [done|]. destruct (_ && _); [done|]. by destruct (strip_ws [c; b; a]) as [[|]|].
Qed.

Lemma trimmed_join p x s :
  plain x = true -> s <> "" -> trimmed s -> (exists b bs, as_bytes p = b :: bs /\ plain b = true) ->
  trimmed (p ++ String (ascii_of_byte x) s).
Proof.
  intros Hx Hs [_ Hb] (b & bs & Hp & Hpl). unfold trimmed. rewrite as_bytes_app, Hp. cbn [app].
  split; [by apply plain_front|].
  assert (as_bytes (String (ascii_of_byte x) s) = x :: as_bytes s) as ->.
  { unfold as_bytes, list_byte_of_string. cbn. by rewrite byte_of_ascii_of_byte. }
  change (b :: app bs (x :: as_bytes s)) with (app (b :: bs) (x :: as_bytes s)). rewrite rev_app_distr. cbn [rev].
  rewrite <- app_assoc. cbn [app]. apply plain_back; [done| |done].
  intros E. apply Hs. rewrite <- (from_as_bytes s). apply (f_equal (@rev byte)) in E.
  rewrite rev_involutive in E. by rewrite E.
Qed.

(** ** Lemmas: splitting, paths *)

Lemma strip_prefix_lead p s : strip_prefix p (p ++ s) = Some s.
Proof. induction p as [|a p IH]; [done|]. change (String a p ++ s) with (String a (p ++ s)). cbn. by rewrite Ascii.eqb_refl. Qed.

Lemma strip_prefix_Some p s r : strip_prefix p s = Some r -> s = p ++ r.
Proof.
  revert s. induction p as [|a p IH]; intros s; cbn; [by intros [= ->]|].
  destruct s as [|b s]; [done|]. destruct (Ascii.eqb_spec a b) as [->|]; [|done]. intros H%IH. by rewrite H.
Qed.

Lemma split_on_nonempty c s : split_on c s <> [].
Proof. destruct s as [|a s]; cbn; [done|]. destruct (Ascii.eqb a c); [done|]. by destruct (split_on c s). Qed.

Lemma split_on_free c s : contains_char c s = false -> split_on c s = [s].
Proof.
  induction s as [|a s IH]; [done|]. cbn. intros [-> H]%orb_false_iff. by rewrite IH.
Qed.

Lemma split_on_app c a s : contains_char c a = false -> split_on c (a ++ String c s) = a :: split_on c s.
Proof.
  induction a as [|x a IH]; cbn [contains_char].
  - intros _. change ("" ++ String c s) with (String c s). cbn. by rewrite Ascii.eqb_refl.
  - intros [Hx H]%orb_false_iff. change (String x a ++ String c s) with (String x (a ++ String c s)).
    cbn. by rewrite Hx, IH.
Qed.

(** The name of a directory entry. *)
Definition plain_name (s : string) : Prop :=
  s <> "" /\ s <> "." /\ s <> ".." /\ contains_char slash s = false.

Lemma component_plain s : plain_name s -> component s = Some (Normal s).
Proof. intros (H1 & H2 & H3 & _). unfold component. by rewrite !bool_decide_false. Qed.

Lemma components_plain s : plain_name s -> components s = [Normal s].
Proof.
  intros H. pose proof H as (H1 & H2 & H3 & H4). unfold components. rewrite split_on_free by done. cbn zeta.
  rewrite (bool_decide_false (s = "")), (bool_decide_false (s = ".")) by done.
  cbn [omap list_omap andb app]. by rewrite component_plain.
Qed.

Lemma join_plain p s : plain_name s -> join_str p s = app p [Normal s].
Proof. intros H. unfold join_str. by rewrite components_plain. Qed.

Lemma join_normal p q : Forall (fun c => exists s, c = Normal s) q -> join p q = app p q.
Proof. intros H. destruct H as [|c q [s ->] _]; [|done]. cbn. by rewrite app_nil_r. Qed.

Lemma file_name_snoc p s : file_name (app p [Normal s]) = Some s.
Proof. unfold file_name. by rewrite last_snoc. Qed.

(** A relative path never starts at the root. *)
Lemma component_cases s c : component s = Some c -> c = ParentDir \/ c = Normal s.
Proof. unfold component. repeat case_bool_decide; try done; intros [= <-]; auto. Qed.

Lemma components_relative s :
  (forall s', s <> String slash s') -> forall c, c ∈ components s -> c <> RootDir.
Proof.
  intros Hs c. unfold components. rewrite elem_of_app. intros [Hf|(x & _ & [->| ->]%component_cases)%list_elem_of_omap]; [|done..].
  assert (E : forall x rest, split_on slash s = x :: rest -> rest <> [] -> x <> "").
  { intros x rest E Hr ->. destruct s as [|a s]; cbn in E; [congruence|].
    destruct (Ascii.eqb_spec a slash) as [->|]; [by destruct (Hs s)|]. by destruct (split_on slash s). }
  destruct (split_on slash s) as [|x rest]; [by apply elem_of_nil in Hf|]. specialize (E x rest eq_refl).
  repeat case_bool_decide; cbn in Hf; try (by apply elem_of_nil in Hf); try (by exfalso; apply E);
    apply list_elem_of_singleton in Hf; by subst.
Qed.

Lemma trim_start_char_no c s s' : trim_start_char c s <> String c s'.
Proof.
  induction s as [|a s IH]; cbn; [done|]. destruct (Ascii.eqb_spec a c); [apply IH|]. by intros [= ->].
Qed.

(** The final component of a parsed path is the name of an entry. *)
Lemma split_on_pieces c s x : x ∈ split_on c s -> contains_char c x = false.
Proof.
  revert x. induction s as [|a s IH]; intros x; cbn; [by intros ->%list_elem_of_singleton|].
  destruct (Ascii.eqb_spec a c) as [->|Hne].
  - rewrite elem_of_cons. intros [->|?]; [done|auto].
  - destruct (split_on c s) as [|y l]; [by intros ->%list_elem_of_singleton; cbn; destruct (Ascii.eqb_spec a c)|].
    rewrite elem_of_cons. intros [->|Hx]; [|apply IH; by right].
    cbn. destruct (Ascii.eqb_spec a c); [done|]. cbn. apply IH. left.
Qed.

Lemma components_names s x : Normal x ∈ components s -> plain_name x.
Proof.
  unfold components. rewrite elem_of_app. intros [Hf|(y & Hy & Hc)%list_elem_of_omap].
  - exfalso. destruct (split_on slash s); [by apply elem_of_nil in Hf|].
    repeat case_bool_decide; cbn in Hf; try (by apply elem_of_nil in Hf); by apply list_elem_of_singleton in Hf.
  - destruct (component_cases _ _ Hc) as [|[= ->]]; [done|]. revert Hc. unfold component.
    repeat case_bool_decide; try done. intros _. split_and!; try done. by eapply split_on_pieces.
Qed.

Lemma file_name_plain s x : file_name (components s) = Some x -> plain_name x.
Proof.
  unfold file_name. destruct (last (components s)) as [[]|] eqn:E; try done. intros [= ->].
  apply (components_names s). apply last_Some in E as (l & ->). apply elem_of_app. right. by left.
Qed.

(** Leading separators do not change what a path passes through. *)
Lemma parent_in_components s : ParentDir ∈ components s <-> ParentDir ∈ omap component (split_on slash s).
Proof.
  unfold components. rewrite elem_of_app. split; [|by right]. intros [Hf|?]; [|done]. exfalso.
  destruct (split_on slash s); [by apply elem_of_nil in Hf|].
  repeat case_bool_decide; cbn in Hf; try (by apply elem_of_nil in Hf); by apply list_elem_of_singleton in Hf.
Qed.

Lemma trim_start_components s :
  omap component (split_on slash (trim_start_char slash s)) = omap component (split_on slash s).
Proof.
  induction s as [|a s IH]; [done|]. cbn [trim_start_char]. destruct (Ascii.eqb_spec a slash) as [->|]; [|done].
  cbn [split_on]. rewrite Ascii.eqb_refl. cbn [omap list_omap]. rewrite IH. done.
Qed.

Lemma trim_start_relative s c : c ∈ components (trim_start_char slash s) -> c <> RootDir.
Proof. apply components_relative. intros s'. apply trim_start_char_no. Qed.

(** Joining a relative path adds to the end, a leading [.] aside. *)
Lemma join_relative p q : (forall c, c ∈ q -> c <> RootDir) -> exists q', join p q = app p q' /\ (forall c, c ∈ q' -> c ∈ q)
  /\ (ParentDir ∈ q -> ParentDir ∈ q').
Proof.
  intros H. destruct q as [|c q]; [by exists []|]. destruct c; cbn.
  - by destruct (H RootDir); [left|].
  - destruct p; [by exists (CurDir :: q)|]. exists q. split_and!; [done|by right|]. by rewrite elem_of_cons; intros [|].
  - by eexists.
  - by eexists.
Qed.

Lemma components_two a b : plain_name a -> plain_name b -> components (a ++ String slash b) = [Normal a; Normal b].
Proof.
  intros Ha Hb. pose proof Ha as (H1 & H2 & H3 & H4). pose proof Hb as (_ & _ & _ & H5).
  unfold components. rewrite split_on_app, split_on_free by done. cbn zeta.
  rewrite (bool_decide_false (a = "")), (bool_decide_false (a = ".")) by done.
  cbn [omap list_omap andb app]. by rewrite !component_plain.
Qed.
