(* ===== verification/Resolver.v ===== *)
(** * The device resolver (core/src/resolver.rs)

    Operator input to a canonical identity, and a stored identity back to the device
    path it has now.  The file system is a parameter: what the resolver reads of it are
    directory listings, link targets, canonical paths, metadata and small files.  One
    call sees one state of it. *)

From Stdlib Require Import Strings.String Strings.Ascii.
From stdpp Require Import pretty.
From S2P Require Import Prelude GraphTypes Paths.
#[local] Open Scope string_scope.

(** ** Data *)

Inductive DeviceKind := Usb | ByPath | Raw.
#[export] Instance device_kind_eq_dec : EqDecision DeviceKind.
Proof. solve_decision. Defined.

Definition scheme (k : DeviceKind) : string :=
  match k with Usb => "usb" | ByPath => "by-path" | Raw => "raw" end.

Record Resolved := mkResolved {
  res_identity : string; res_path : option Path; res_kind : DeviceKind; res_description : string;
  res_warning : option string }.

Inductive ResolveError :=
| NotPresent (input : string)
| Malformed (input reason : string).

Record Adapter := mkAdapter { by_id_name : string; ad_dev_path : Path; ad_identity : option string }.

Record PortCandidate := mkPort {
  pc_identity : string; pc_kind : DeviceKind; pc_path : Path; pc_description : string;
  pc_by_id : option string; pc_warning : option string }.

Record UsbInfo := mkUsb { usb_identity : string; usb_description : string }.

Record Resolver := mkResolver { dev_root : Path; sys_root : Path }.

(** [Resolver::new] and [Resolver::with_roots]. *)
Definition resolver_new (dev : Path) : Resolver := mkResolver dev (join_str dev "sys").
Definition with_roots (dev sys : Path) : Resolver := mkResolver dev sys.

(** The file system: [read_dir] as the names of its readable entries, [metadata] as
    whether the path, links followed, is a directory. *)
Record FileSystem := mkFs {
  read_dir : Path -> option (list string);
  read_link : Path -> option string;
  canonicalize : Path -> option Path;
  metadata : Path -> option bool;
  read_to_string : Path -> option string }.

(** ** Identity strings *)

Definition BYPATH_WARNING : string :=
  "bound by topology (by-path): this identity follows whatever adapter occupies the physical port, not a specific device (§12)".
Definition RAW_WARNING : string :=
  "bound by raw path: no device identity — a replugged or different adapter on this path is adopted blindly, and the path is not stable across reboots (§12)".

Definition colon : ascii := ":"%char.

Definition usb_serial_field (identity : string) : option string :=
  rest ← strip_prefix "usb:" identity; split_on colon rest !! 2%nat.

Definition is_absent (s : string) : bool := bool_decide (s = "-").

Definition echo_tail (serial iface : string) : string :=
  (if is_absent serial then "" else ", serial " ++ serial) ++ (if is_absent iface then "" else ", interface " ++ iface).

Definition describe (manufacturer product : option string) (serial iface vid pid : string) : string :=
  let head := match manufacturer, product with
              | Some m, Some p => m ++ " " ++ p
              | Some m, None => m
              | None, Some p => p
              | None, None => "USB " ++ vid ++ ":" ++ pid
              end in
  trim head ++ echo_tail serial iface.

Definition describe_usb_identity (fields : string) : string :=
  match split_on colon fields with
  | [vid; pid; serial; iface] => "USB " ++ vid ++ ":" ++ pid ++ echo_tail serial iface
  | _ => "usb:" ++ fields
  end.

Definition ambiguous_warning (matches : list (Path * UsbInfo)) : string :=
  let devices := (fun m => path_display m.1) <$> matches in
  "ambiguous usb identity: " ++ pretty (length devices) ++ " present devices answer to it (" ++
  join_with ", " devices ++
  ") — a duplicated serial number pins no single adapter, so nothing is bound and the node stays waiting; bind each adapter by the by-path: identity `ports` lists for it instead (§12)".

(** [DeviceKind::of] and [DeviceKind::label]. *)
Definition kind_of (device : string) : DeviceKind :=
  let device := trim device in
  if starts_with "usb:" device then Usb else if starts_with "by-path:" device then ByPath else Raw.
Definition label (k : DeviceKind) : string := scheme k.

(** ** Reading the file system *)

Section resolver.
Context (fs : FileSystem) (r : Resolver).

Definition is_dir (p : Path) : bool := bool_decide (metadata fs p = Some true).
Definition exists_ (p : Path) : bool := bool_decide (metadata fs p <> None).
Definition is_dev_node (p : Path) : bool := bool_decide (metadata fs p = Some false).
Definition read_trimmed (p : Path) : option string := trim <$> read_to_string fs p.

Definition non_empty (o : option string) : option string :=
  s ← o; if bool_decide (s = "") then None else Some s.

Definition has_colon (s : string) : bool := contains_char colon s.

(** The ancestor walk of [sysfs_lookup]: at most twelve levels, inside [guard]. *)
Fixpoint walk (fuel : nat) (guard : Path) (interface : option string) (cur : Path) : option UsbInfo :=
  match fuel with
  | O => None
  | S fuel =>
      let interface := match interface with
                       | None => non_empty (read_trimmed (join_str cur "bInterfaceNumber"))
                       | Some i => Some i
                       end in
      if exists_ (join_str cur "idVendor") then
        vid ← non_empty (read_trimmed (join_str cur "idVendor"));
        pid ← non_empty (read_trimmed (join_str cur "idProduct"));
        let serial := default "-" (non_empty (read_trimmed (join_str cur "serial"))) in
        let iface := default "-" interface in
        if existsb has_colon [vid; pid; serial; iface] then None
        else Some (mkUsb ("usb:" ++ vid ++ ":" ++ pid ++ ":" ++ serial ++ ":" ++ iface)
                         (describe (read_trimmed (join_str cur "manufacturer")) (read_trimmed (join_str cur "product"))
                                   serial iface vid pid))
      else match parent cur with
           | Some up => if bool_decide (up <> cur) && path_starts_with guard up then walk fuel guard interface up else None
           | None => None
           end
  end.

Definition sysfs_lookup (dev_name : string) : option UsbInfo :=
  start ← canonicalize fs (join_str (join_str (join_str (sys_root r) "class/tty") dev_name) "device");
  let guard := default (sys_root r) (canonicalize fs (sys_root r)) in
  walk 12 guard None start.

(** Sorting names and paths. *)
Definition str_le (a b : string) : Prop := String.leb a b = true.
#[local] Instance str_le_dec : RelDecision str_le := fun a b => decide (String.leb a b = true).

Definition dev_path (name : string) : Path := join_str (join_str (dev_root r) "dev") name.

Definition sysfs_usb_devices : list (Path * UsbInfo) :=
  match read_dir fs (join_str (sys_root r) "class/tty") with
  | None => []
  | Some entries =>
      omap (fun name => if is_dev_node (dev_path name) then (fun info => (dev_path name, info)) <$> sysfs_lookup name
                        else None) (merge_sort str_le entries)
  end.

Definition usb_identity_matches (identity : string) : list (Path * UsbInfo) :=
  filter (fun m => usb_identity m.2 = identity) sysfs_usb_devices.

Definition usb_identity_ambiguous (identity : string) : bool := (1 <? length (usb_identity_matches identity))%nat.

Definition devices_with_serial (serial : string) : list (Path * UsbInfo) :=
  if is_absent serial then []
  else filter (fun m => usb_serial_field (usb_identity m.2) = Some serial) sysfs_usb_devices.

Definition by_id_dir : Path := join_str (dev_root r) "dev/serial/by-id".
Definition by_path_dir : Path := join_str (dev_root r) "dev/serial/by-path".

(** The final component of a link's target. *)
Definition target_name (dir : Path) (name : string) : option string :=
  target ← read_link fs (join_str dir name); file_name (components target).

Definition find_usb_by_id (identity : string) : option (Path * UsbInfo) :=
  entries ← read_dir fs by_id_dir;
  head (omap (fun name =>
    dev_name ← target_name by_id_dir name;
    info ← sysfs_lookup dev_name;
    if bool_decide (usb_identity info = identity) && is_dev_node (dev_path dev_name)
    then Some (dev_path dev_name, info) else None) entries).

Definition find_usb (identity : string) : option (Path * UsbInfo) :=
  let matches := usb_identity_matches identity in
  if (1 <? length matches)%nat then None
  else match find_usb_by_id identity with
       | Some found => Some found
       | None => last matches
       end.

Definition bypath_lookup (port : string) : option Path :=
  dev_name ← target_name by_path_dir port;
  if is_dev_node (dev_path dev_name) then Some (dev_path dev_name) else None.

Definition bypath_of (dev_name : string) : option string :=
  entries ← read_dir fs by_path_dir;
  head (omap (fun name =>
    if bool_decide (target_name by_path_dir name = Some dev_name) then Some name else None) entries).

(** ** Literal paths *)

Definition rooted (abs : string) : Path := join_str (dev_root r) (trim_start_char slash abs).

Definition check_literal (input path : string) : exec ResolveError Path :=
  if bool_decide (ParentDir ∈ components path)
  then Err (Malformed input ".. components are not allowed: the path must stay inside the device root")
  else if is_dir (rooted path) then Err (Malformed input "path is a directory, not a device node")
  else Ok (rooted path).

Definition literal_dev_path (path : string) : option Path :=
  match check_literal path path with
  | Ok p => if is_dev_node p then Some p else None
  | _ => None
  end.

(** ** Input to identity *)

Definition capture_for_dev (dev_name : string) (rooted : Path) (raw : string) : Resolved :=
  match (info ← sysfs_lookup dev_name;
         if negb (bool_decide (usb_serial_field (usb_identity info) = Some "-"))
            && negb (usb_identity_ambiguous (usb_identity info)) then Some info else None) with
  | Some info => mkResolved (usb_identity info) (Some rooted) Usb (usb_description info) None
  | None =>
      match bypath_of dev_name with
      | Some port => mkResolved ("by-path:" ++ port) (Some rooted) ByPath
                       ("topology port " ++ port ++ " (" ++ dev_name ++ ")") (Some BYPATH_WARNING)
      | None => mkResolved ("raw:" ++ raw) (Some rooted) Raw ("raw path " ++ raw) (Some RAW_WARNING)
      end
  end.

Definition resolve_usb_identity (input rest : string) : exec ResolveError Resolved :=
  let fields := split_on colon rest in
  if negb (length fields =? 4)%nat then Err (Malformed input "expected usb:<vid>:<pid>:<serial>:<iface>")
  else if existsb (fun f => bool_decide (trim f = "")) fields
  then Err (Malformed input "usb identity fields must be non-empty (use - for an absent serial/interface)")
  else
    let ambiguous := usb_identity_matches input in
    if (1 <? length ambiguous)%nat
    then Ok (mkResolved input None Usb (describe_usb_identity rest) (Some (ambiguous_warning ambiguous)))
    else match find_usb input with
         | Some (p, info) => Ok (mkResolved input (Some p) Usb (usb_description info) None)
         | None => Ok (mkResolved input None Usb (describe_usb_identity rest) None)
         end.

Definition resolve_bypath_identity (input rest : string) : exec ResolveError Resolved :=
  if bool_decide (rest = "") then Err (Malformed input "empty by-path port")
  else Ok (mkResolved input (bypath_lookup rest) ByPath ("topology port " ++ rest) (Some BYPATH_WARNING)).

Definition resolve_raw_identity (input rest : string) : exec ResolveError Resolved :=
  if bool_decide (trim_start_char slash rest = "") then Err (Malformed input "empty raw path")
  else p ← check_literal input rest;
       Ok (mkResolved input (if is_dev_node p then Some p else None) Raw ("raw path " ++ rest) (Some RAW_WARNING)).

(** Symbolic links followed, staying under the root; with the path's own spelling. *)
Definition canonical_dev (rooted_ : Path) (input : string) : Path * string :=
  match canonicalize fs rooted_ with
  | None => (rooted_, input)
  | Some canon =>
      let root := default (dev_root r) (canonicalize fs (dev_root r)) in
      match path_strip_prefix root canon with
      | None | Some [] => (rooted_, input)
      | Some rel => let spelling := "/" ++ path_display rel in (rooted spelling, spelling)
      end
  end.

Definition capture_from_path (input : string) : exec ResolveError Resolved :=
  if bool_decide (trim_start_char slash input = "") then Err (Malformed input "empty path")
  else p ← check_literal input input;
       if negb (is_dev_node p) then Err (NotPresent input)
       else let '(p, raw) := canonical_dev p input in
            Ok (capture_for_dev (default "" (file_name p)) p raw).

Definition ambiguous_serial_reason (matches : list (Path * UsbInfo)) : string :=
  let pinnings := (fun m =>
        let dev_name := default "" (file_name m.1) in
        (m.1, capture_for_dev dev_name m.1 ("/dev/" ++ dev_name))) <$> matches in
  let unpinned := existsb (fun p => bool_decide (res_kind p.2 = Raw)) pinnings in
  let devices := (fun p => path_display p.1 ++ " → " ++ res_identity p.2) <$> pinnings in
  let caveat := if unpinned
    then "; where the list shows a raw path, no by-path entry covers that device here, so it names the path and not the adapter — nothing published here pins that one across a replug"
    else "" in
  pretty (length devices) ++ " present devices carry this serial number (" ++ join_with ", " devices ++
  ") — a serial number that names more than one adapter pins none of them; add by the identity listed against the adapter you mean, or by its device path"
  ++ caveat ++ " (§12)".

Definition capture_from_serial (serial : string) : exec ResolveError Resolved :=
  let matches := devices_with_serial serial in
  if (1 <? length matches)%nat then Err (Malformed serial (ambiguous_serial_reason matches))
  else match last matches with
       | None => Err (NotPresent serial)
       | Some (p, _) =>
           let dev_name := default "" (file_name p) in
           Ok (capture_for_dev dev_name p ("/dev/" ++ dev_name))
       end.

Definition resolve_input (input : string) : exec ResolveError Resolved :=
  let input := trim input in
  if bool_decide (input = "") then Err (Malformed input "empty device string")
  else match strip_prefix "usb:" input with
  | Some rest => resolve_usb_identity input rest
  | None => match strip_prefix "by-path:" input with
  | Some rest => resolve_bypath_identity input rest
  | None => match strip_prefix "raw:" input with
  | Some rest => resolve_raw_identity input rest
  | None => if starts_with "/" input then capture_from_path input else capture_from_serial input
  end end end.

(** ** Identity to path *)

Definition resolve_current_path (device : string) : option Path :=
  let device := trim device in
  if starts_with "usb:" device then fst <$> find_usb device
  else match strip_prefix "by-path:" device with
  | Some rest => bypath_lookup rest
  | None => match strip_prefix "raw:" device with
  | Some rest => literal_dev_path rest
  | None =>
      if starts_with "/" device then literal_dev_path device
      else let matches := devices_with_serial device in
           if (length matches =? 1)%nat then fst <$> last matches else None
  end end.

(** ** Listing *)

Definition has_identity_source : bool := is_dir by_id_dir || is_dir (join_str (sys_root r) "class/tty").

Definition adapter_le (a b : Adapter) : Prop := String.leb (by_id_name a) (by_id_name b) = true.
#[local] Instance adapter_le_dec : RelDecision adapter_le :=
  fun a b => decide (String.leb (by_id_name a) (by_id_name b) = true).

Definition discover_adapters : list Adapter :=
  match read_dir fs by_id_dir with
  | None => []
  | Some entries =>
      merge_sort adapter_le (omap (fun name =>
        target ← read_link fs (join_str by_id_dir name);
        let dev_name := default "" (file_name (components target)) in
        Some (mkAdapter name (dev_path dev_name) (usb_identity <$> sysfs_lookup dev_name))) entries)
  end.

Definition path_leb (p q : Path) : bool := match path_compare p q with Gt => false | _ => true end.
Definition port_le (a b : PortCandidate) : Prop := path_leb (pc_path a) (pc_path b) = true.
#[local] Instance port_le_dec : RelDecision port_le :=
  fun a b => decide (path_leb (pc_path a) (pc_path b) = true).

Definition or_insert (m : gmap string (option string)) (k : string) : gmap string (option string) :=
  match m !! k with Some _ => m | None => <[k := None]> m end.

(** The device names the four sources show, with the by-id name where there is one. *)
Definition seen_names : gmap string (option string) :=
  let seen := foldl (fun m a => match file_name (ad_dev_path a) with
                                | Some n => <[n := Some (by_id_name a)]> m
                                | None => m
                                end) ∅ discover_adapters in
  let seen := foldl or_insert seen (omap (fun m => file_name m.1) sysfs_usb_devices) in
  let seen := match read_dir fs by_path_dir with
              | None => seen
              | Some entries => foldl or_insert seen
                  (omap (target_name by_path_dir) entries)
              end in
  match read_dir fs (join_str (dev_root r) "dev") with
  | None => seen
  | Some entries => foldl or_insert seen (filter (fun name => starts_with "cu." name = true) entries)
  end.

Definition key_le (a b : string * option string) : Prop := String.leb a.1 b.1 = true.
#[local] Instance key_le_dec : RelDecision key_le := fun a b => decide (String.leb a.1 b.1 = true).

Definition port_of (entry : string * option string) : option PortCandidate :=
  let raw := "/dev/" ++ entry.1 in
  if negb (is_dev_node (rooted raw)) then None
  else let res := capture_for_dev entry.1 (rooted raw) raw in
       Some (mkPort (res_identity res) (res_kind res) (rooted raw) (res_description res) entry.2 (res_warning res)).

Definition enumerate_ports : list PortCandidate :=
  merge_sort port_le (omap port_of (merge_sort key_le (map_to_list seen_names))).

(** ** What the file system promises

    [read_dir] lists names, each once, without [.] and [..]; the kernel's listing of
    terminals can be read and has every entry that can be followed. *)
Record fs_laws : Prop := {
  fl_names : forall d names, read_dir fs d = Some names -> NoDup names /\ Forall plain_name names;
  fl_class : forall name p, plain_name name ->
    canonicalize fs (join_str (join_str (join_str (sys_root r) "class/tty") name) "device") = Some p ->
    exists names, read_dir fs (join_str (sys_root r) "class/tty") = Some names /\ name ∈ names }.

(** A device that is there: its node exists and sysfs gives it an identity. *)
Definition present (name : string) (info : UsbInfo) : Prop :=
  plain_name name /\ is_dev_node (dev_path name) = true /\ sysfs_lookup name = Some info.

(** The one present device with a property, and its path. *)
Definition only_device (P : UsbInfo -> Prop) (p : Path) : Prop :=
  exists name info, present name info /\ P info /\ p = dev_path name
    /\ forall name' info', present name' info' -> P info' -> name' = name.

Lemma dev_path_plain name : plain_name name -> dev_path name = app (dev_root r) [Normal "dev"; Normal name].
Proof. intros H. unfold dev_path. rewrite !join_plain by done. by rewrite <- app_assoc. Qed.

Lemma dev_path_inj a b : plain_name a -> plain_name b -> dev_path a = dev_path b -> a = b.
Proof. intros Ha Hb. rewrite !dev_path_plain by done. by intros [= ->]%app_inv_head. Qed.

Lemma dev_path_name name : plain_name name -> file_name (dev_path name) = Some name.
Proof.
  intros H. rewrite dev_path_plain by done. change [Normal "dev"; Normal name] with (app [Normal "dev"] [Normal name]).
  rewrite app_assoc. apply file_name_snoc.
Qed.

(** ** The listing *)

Section listing.
Hypothesis L : fs_laws.

Lemma elem_of_devices p info : (p, info) ∈ sysfs_usb_devices <-> exists name, present name info /\ p = dev_path name.
Proof.
  unfold sysfs_usb_devices. split.
  - destruct (read_dir fs _) as [names|] eqn:E; [|by intros ?%elem_of_nil].
    intros (name & Hin & Hn)%list_elem_of_omap. rewrite merge_sort_Permutation in Hin.
    destruct (is_dev_node (dev_path name)) eqn:Ed; [|done]. apply fmap_Some in Hn as (info' & Hi & [= -> ->]).
    exists name. split; [|done]. split; [|done]. destruct (fl_names L _ _ E) as [_ H]. rewrite Forall_forall in H. auto.
  - intros (name & (Hp & Hd & Hi) & ->). unfold sysfs_lookup in Hi.
    destruct (canonicalize fs (join_str (join_str (join_str (sys_root r) "class/tty") name) "device")) as [c|] eqn:Ec; [|done].
    destruct (fl_class L name c Hp Ec) as (names & -> & Hin). apply list_elem_of_omap. exists name.
    rewrite merge_sort_Permutation, Hd. split; [done|]. unfold sysfs_lookup. rewrite Ec. cbn in Hi |- *. by rewrite Hi.
Qed.

Lemma devices_nodup : NoDup sysfs_usb_devices.*1.
Proof.
  unfold sysfs_usb_devices. destruct (read_dir fs _) as [names|] eqn:E; [|constructor].
  destruct (fl_names L _ _ E) as [Hnd Hp]. rewrite <- (merge_sort_Permutation str_le names) in Hnd, Hp.
  induction (merge_sort str_le names) as [|name l IH]; [constructor|]. apply NoDup_cons in Hnd as [Hn Hnd].
  apply Forall_cons in Hp as [Hpn Hp]. cbn [omap list_omap]. specialize (IH Hnd Hp).
  destruct (is_dev_node (dev_path name)); [|done]. destruct (sysfs_lookup name) as [info|]; [|done]. cbn.
  apply NoDup_cons. split; [|done]. intros ([p info'] & Ep & (x & Hx & Hf)%list_elem_of_omap)%list_elem_of_fmap.
  cbn in Ep. destruct (is_dev_node (dev_path x)); [|done]. apply fmap_Some in Hf as (i & _ & [= -> _]).
  apply dev_path_inj in Ep as ->; [done..|]. rewrite Forall_forall in Hp. auto.
Qed.

(** Devices with a property: one in the list exactly when it is the only one there. *)
Lemma only_device_list (P : UsbInfo -> Prop) `{!forall i, Decision (P i)} l p :
  l = filter (fun m : Path * UsbInfo => P m.2) sysfs_usb_devices ->
  only_device P p <-> exists info, l = [(p, info)].
Proof.
  intros ->. assert (Hin : forall p info, (p, info) ∈ filter (fun m : Path * UsbInfo => P m.2) sysfs_usb_devices <->
                    exists name, present name info /\ P info /\ p = dev_path name).
  { intros p' info. rewrite list_elem_of_filter, elem_of_devices. naive_solver. }
  assert (Hnd : NoDup (filter (fun m : Path * UsbInfo => P m.2) sysfs_usb_devices).*1).
  { apply NoDup_fmap_filter, devices_nodup. }
  revert Hin Hnd. generalize (filter (fun m : Path * UsbInfo => P m.2) sysfs_usb_devices). intros l Hin Hnd. split.
  - intros (name & info & Hp & HP & -> & Huniq). exists info.
    assert (H1 : (dev_path name, info) ∈ l) by (apply Hin; eauto).
    assert (Hall : forall m, m ∈ l -> m = (dev_path name, info)).
    { intros [p' info'] (name' & Hp' & HP' & ->)%Hin. assert (name' = name) as -> by eauto.
      destruct Hp as (_ & _ & Hi), Hp' as (_ & _ & Hi'). rewrite Hi in Hi'. by injection Hi' as ->. }
    destruct l as [|m1 [|m2 l]]; [by apply elem_of_nil in H1| |].
    + by rewrite (Hall m1) by left.
    + exfalso. rewrite (Hall m1), (Hall m2) in Hnd by (rewrite !elem_of_cons; auto).
      cbn in Hnd. apply NoDup_cons in Hnd as [Hn _]. apply Hn. left.
  - intros [info ->]. destruct (proj1 (Hin p info)) as (name & Hp & HP & ->); [left|].
    exists name, info. split_and!; try done. intros name' info' Hp' HP'.
    assert ((dev_path name', info') ∈ [(dev_path name, info)]) as E%list_elem_of_singleton by (apply Hin; eauto).
    injection E as E _. apply dev_path_inj in E; [done|apply Hp'|apply Hp].
Qed.

Lemma usb_matches_only identity p :
  only_device (fun i => usb_identity i = identity) p <-> exists info, usb_identity_matches identity = [(p, info)].
Proof. exact (only_device_list (fun i => usb_identity i = identity) _ p eq_refl). Qed.

Lemma target_plain dir name dev : target_name dir name = Some dev -> plain_name dev.
Proof.
  unfold target_name. destruct (read_link fs _) as [t|]; [|done]. cbn. apply file_name_plain.
Qed.

(** By-id is a fast path over the one listing. *)
Lemma find_usb_spec identity :
  find_usb identity = match usb_identity_matches identity with [m] => Some m | _ => None end.
Proof.
  unfold find_usb. assert (Hby : forall m, find_usb_by_id identity = Some m -> m ∈ usb_identity_matches identity).
  { intros [p info]. unfold find_usb_by_id. destruct (read_dir fs by_id_dir) as [entries|]; [|done]. cbn.
    intros (name & _ & Hn)%head_Some_elem_of%list_elem_of_omap.
    destruct (target_name by_id_dir name) as [dev|] eqn:Et; [|done]. cbn in Hn.
    destruct (sysfs_lookup dev) as [i|] eqn:Ei; [|done]. cbn in Hn.
    destruct (bool_decide _ && _) eqn:E; [|done]. injection Hn as <- <-.
    apply andb_prop in E as [Ed%bool_decide_eq_true En]. apply list_elem_of_filter. split; [done|].
    apply elem_of_devices. exists dev. split; [|done]. split; [by eapply target_plain|done]. }
  destruct (usb_identity_matches identity) as [|m [|m' l]]; cbn.
  - destruct (find_usb_by_id identity) as [m|] ; [|done]. by specialize (Hby _ eq_refl) as ?%elem_of_nil.
  - destruct (find_usb_by_id identity) as [m'|] ; [|done]. by specialize (Hby _ eq_refl) as ->%list_elem_of_singleton.
  - done.
Qed.

(** ** Resolution *)

Lemma resolve_usb d : starts_with "usb:" (trim d) = true -> resolve_current_path d = fst <$> find_usb (trim d).
Proof. unfold resolve_current_path. by intros ->. Qed.

(** C8: a [usb:] identity resolves to a path exactly when one device that is there now
    has that very identity in sysfs, and then to that device's node: a different adapter
    on the old path is never adopted, an identity two devices share binds nothing, and
    whether udev published a by-id link makes no difference. *)
Theorem usb_resolution_exact d p :
  starts_with "usb:" (trim d) = true ->
  resolve_current_path d = Some p <-> only_device (fun i => usb_identity i = trim d) p.
Proof.
  intros Hd. rewrite resolve_usb, find_usb_spec by done. rewrite usb_matches_only.
  destruct (usb_identity_matches (trim d)) as [|[q info] [|]]; cbn; split; try done; try (by intros [? ?]).
  - intros [= ->]. by eexists.
  - by intros [info' [= -> _]].
Qed.

(** A bare serial number resolves exactly when one device that is there now carries
    it; the marker of a missing serial number names no device. *)
Theorem serial_resolution_exact d p :
  starts_with "usb:" (trim d) = false -> starts_with "by-path:" (trim d) = false ->
  starts_with "raw:" (trim d) = false -> starts_with "/" (trim d) = false ->
  resolve_current_path d = Some p <->
  trim d <> "-" /\ only_device (fun i => usb_serial_field (usb_identity i) = Some (trim d)) p.
Proof.
  intros H1 H2 H3 H4. unfold resolve_current_path. rewrite H1, H4. unfold starts_with in H2, H3.
  destruct (strip_prefix "by-path:" (trim d)), (strip_prefix "raw:" (trim d)); try done.
  unfold devices_with_serial, is_absent. case_bool_decide as E; [by split; [|intros [? _]]|].
  rewrite (only_device_list (fun i => usb_serial_field (usb_identity i) = Some (trim d)) _ p eq_refl).
  destruct (filter _ _) as [|[q info] [|]]; cbn; split; try done; try (by intros (_ & ? & ?)).
  - intros [= ->]. split; [done|]. by eexists.
  - by intros (_ & info' & [= -> _]).
Qed.
End listing.

(** ** Minted identities *)

Definition good_field (f : string) : Prop := f <> "" /\ trimmed f /\ contains_char colon f = false.

Record minted (identity vid pid serial iface : string) : Prop := {
  mt_identity : identity = "usb:" ++ vid ++ ":" ++ pid ++ ":" ++ serial ++ ":" ++ iface;
  mt_fields : Forall good_field [vid; pid; serial; iface] }.

Lemma read_field p s : non_empty (read_trimmed p) = Some s -> s <> "" /\ trimmed s.
Proof.
  unfold non_empty, read_trimmed. destruct (read_to_string fs p) as [t|]; [|done]. cbn.
  case_bool_decide; [done|]. intros [= <-]. split; [done|apply trim_trimmed].
Qed.

Lemma default_field o : (forall s, o = Some s -> s <> "" /\ trimmed s) -> default "-" o <> "" /\ trimmed (default "-" o).
Proof. intros H. destruct o as [s|]; [by apply H|]. done. Qed.

Lemma walk_minted fuel guard interface cur info :
  (forall i, interface = Some i -> i <> "" /\ trimmed i) -> walk fuel guard interface cur = Some info ->
  exists vid pid serial iface, minted (usb_identity info) vid pid serial iface.
Proof.
  revert interface cur. induction fuel as [|fuel IH]; intros interface cur Hi; cbn [walk]; [done|].
  set (i' := match interface with None => _ | Some i => Some i end).
  assert (Hi' : forall i, i' = Some i -> i <> "" /\ trimmed i).
  { unfold i'. destruct interface as [i|]; [exact Hi|]. intros i. apply read_field. }
  destruct (exists_ _).
  - destruct (non_empty (read_trimmed (join_str cur "idVendor"))) as [vid|] eqn:Ev; [|done]. cbn [mbind option_bind].
    destruct (non_empty (read_trimmed (join_str cur "idProduct"))) as [pid|] eqn:Ep; [|done]. cbn [mbind option_bind].
    pose proof (default_field _ (fun s E => read_field _ _ E : _) : default "-" (non_empty (read_trimmed (join_str cur "serial"))) <> "" /\ _) as [Hs1 Hs2].
    pose proof (default_field _ Hi') as [Hf1 Hf2]. apply read_field in Ev as [Hv1 Hv2]. apply read_field in Ep as [Hp1 Hp2].
    destruct (existsb has_colon _) eqn:Ec; [done|]. intros [= <-]. cbn [usb_identity].
    cbn [existsb] in Ec. unfold has_colon in Ec. rewrite !orb_false_iff in Ec. destruct Ec as (C1 & C2 & C3 & C4 & _).
    eexists _, _, _, _. split; [done|].
    rewrite !Forall_cons, Forall_nil. unfold good_field. by split_and!.
  - destruct (parent cur) as [up|]; [|done]. destruct (_ && _); [|done]. by apply IH.
Qed.

Lemma lookup_minted name info :
  sysfs_lookup name = Some info -> exists vid pid serial iface, minted (usb_identity info) vid pid serial iface.
Proof. unfold sysfs_lookup. destruct (canonicalize fs (join_str _ "device")) as [c|]; [|done]. intros H. by eapply walk_minted; [|exact H]. Qed.

Lemma minted_fields identity vid pid serial iface :
  minted identity vid pid serial iface ->
  exists rest, strip_prefix "usb:" identity = Some rest /\ split_on colon rest = [vid; pid; serial; iface].
Proof.
  intros [-> Hf]. rewrite strip_prefix_lead. eexists. split; [done|].
  assert (C : Forall (fun f => contains_char colon f = false) [vid; pid; serial; iface])
    by (eapply Forall_impl; [exact Hf|]; by intros f (_ & _ & ?)).
  repeat (apply Forall_cons in C as [? C]).
  change (":" ++ pid ++ ":" ++ serial ++ ":" ++ iface) with (String colon (pid ++ String colon (serial ++ String colon iface))).
  by rewrite !split_on_app, split_on_free by done.
Qed.

Lemma minted_trimmed identity vid pid serial iface : minted identity vid pid serial iface -> trimmed identity.
Proof.
  intros [-> Hf]. repeat (apply Forall_cons in Hf as [(? & ? & ?) Hf]).
  assert (("usb:" ++ vid ++ ":" ++ pid ++ ":" ++ serial ++ ":" ++ iface)
    = ("usb:" ++ vid ++ ":" ++ pid ++ ":" ++ serial) ++ String (ascii_of_byte x3a) iface) as ->
    by (rewrite <- !str_app_assoc; done).
  apply trimmed_join; [done..|]. exists x75, (as_bytes ("sb:" ++ vid ++ ":" ++ pid ++ ":" ++ serial)). done.
Qed.

(** C23: every identity the resolver mints from sysfs has four fields, none of them
    empty, blank-edged or with a colon in it, and so it is taken back: as input it is
    accepted as a [usb:] identity under its own spelling, whether or not the device is
    there, and it is classified as one. *)
Theorem minted_identity_accepted name info :
  sysfs_lookup name = Some info ->
  (exists vid pid serial iface, minted (usb_identity info) vid pid serial iface)
  /\ (exists res, resolve_input (usb_identity info) = Ok res /\ res_identity res = usb_identity info /\ res_kind res = Usb)
  /\ kind_of (usb_identity info) = Usb.
Proof.
  intros (vid & pid & serial & iface & M)%lookup_minted. split; [eauto|].
  pose proof (minted_trimmed _ _ _ _ _ M) as Ht. destruct (minted_fields _ _ _ _ _ M) as (rest & Hr & Hs).
  assert (Hk : kind_of (usb_identity info) = Usb) by (unfold kind_of, starts_with; by rewrite trim_id, Hr).
  split; [|done]. unfold resolve_input. rewrite trim_id, bool_decide_false, Hr by (done || by intros E; rewrite E in Hr).
  unfold resolve_usb_identity. rewrite Hs. cbn [length]. rewrite Nat.eqb_refl. cbn [negb].
  assert (existsb (fun f => bool_decide (trim f = "")) [vid; pid; serial; iface] = false) as ->.
  { destruct M as [_ Hf]. repeat (apply Forall_cons in Hf as [(? & ? & ?) Hf]). cbn.
    by rewrite !trim_id, !bool_decide_false by done. }
  destruct (1 <? _)%nat; [eauto|]. destruct (find_usb _) as [[p i]|]; eauto.
Qed.

(** ** The two directions agree *)

Lemma literal_binds_back raw p :
  rooted raw = p -> (ParentDir ∉ components raw) -> is_dev_node p = true -> literal_dev_path raw = Some p.
Proof.
  intros <- Hn Hd. unfold literal_dev_path, check_literal. rewrite bool_decide_false by done.
  assert (is_dir (rooted raw) = false) as ->.
  { revert Hd. unfold is_dev_node, is_dir. intros E%bool_decide_eq_true. by rewrite E, bool_decide_false. }
  by rewrite Hd.
Qed.

Lemma capture_binds_back name raw :
  fs_laws -> plain_name name -> is_dev_node (dev_path name) = true ->
  rooted raw = dev_path name -> (ParentDir ∉ components raw) ->
  let res := capture_for_dev name (dev_path name) raw in
  trimmed (res_identity res) -> resolve_current_path (res_identity res) = Some (dev_path name).
Proof.
  intros L Hp Hd Hr Hn. cbn zeta. unfold capture_for_dev.
  destruct (sysfs_lookup name ≫= _) as [info|] eqn:Eu; [|destruct (bypath_of name) as [port|] eqn:Eb]; cbn [res_identity]; intros Ht.
  - destruct (sysfs_lookup name) as [i|] eqn:Ei; [|done]. cbn in Eu. destruct (_ && _) eqn:Ec; [|done].
    injection Eu as ->. apply andb_prop in Ec as [_ Ea%negb_true_iff]. unfold usb_identity_ambiguous in Ea.
    destruct (lookup_minted _ _ Ei) as (vid & pid & serial & iface & M).
    destruct (minted_fields _ _ _ _ _ M) as (rest & Hs & _).
    rewrite resolve_usb, trim_id by (rewrite ?trim_id; unfold starts_with; rewrite ?Hs; done).
    rewrite find_usb_spec by done.
    assert (Hin : (dev_path name, info) ∈ usb_identity_matches (usb_identity info)).
    { apply list_elem_of_filter. split; [done|]. apply elem_of_devices; [done|]. by exists name. }
    destruct (usb_identity_matches (usb_identity info)) as [|m [|m' l]]; [by apply elem_of_nil in Hin| |done].
    by apply list_elem_of_singleton in Hin as <-.
  - unfold resolve_current_path. rewrite trim_id by done.
    change (starts_with "usb:" ("by-path:" ++ port)) with false. cbn iota. rewrite strip_prefix_lead. cbn iota.
    revert Eb. unfold bypath_of, bypath_lookup. destruct (read_dir fs by_path_dir) as [entries|]; [|done]. cbn [mbind option_bind].
    intros (x & _ & Hx)%head_Some_elem_of%list_elem_of_omap. case_bool_decide as Et; [|done]. injection Hx as ->.
    rewrite Et. cbn. by rewrite Hd.
  - unfold resolve_current_path. rewrite trim_id by done.
    change (starts_with "usb:" ("raw:" ++ raw)) with false. cbn iota.
    change (strip_prefix "by-path:" ("raw:" ++ raw)) with (@None string). cbn iota. rewrite strip_prefix_lead. cbn iota.
    by apply literal_binds_back.
Qed.

Lemma capture_path name p raw : res_path (capture_for_dev name p raw) = Some p.
Proof. unfold capture_for_dev. repeat case_match; done. Qed.

Lemma dev_plain : plain_name "dev".
Proof. done. Qed.

(** The spelling [/dev/<name>]. *)
Lemma dev_spelling name : plain_name name -> rooted ("/dev/" ++ name) = dev_path name /\ (ParentDir ∉ components ("/dev/" ++ name)).
Proof.
  intros H. assert (E : components ("dev" ++ String slash name) = [Normal "dev"; Normal name]) by (by apply components_two).
  split.
  - unfold rooted. change (trim_start_char slash ("/dev/" ++ name)) with ("dev" ++ String slash name).
    unfold join_str. rewrite E, dev_path_plain by done. done.
  - rewrite parent_in_components, <- trim_start_components.
    change (trim_start_char slash ("/dev/" ++ name)) with ("dev" ++ String slash name).
    rewrite <- parent_in_components, E. set_solver.
Qed.

Lemma rooted_no_parent name raw : plain_name name -> rooted raw = dev_path name -> ParentDir ∉ components raw.
Proof.
  intros Hp Hr. rewrite parent_in_components, <- trim_start_components, <- parent_in_components. intros Hin.
  unfold rooted, join_str in Hr. destruct (join_relative (dev_root r) (components (trim_start_char slash raw)))
    as (q & E & _ & Hq); [intros c; apply trim_start_relative|].
  rewrite E, dev_path_plain in Hr by done. apply app_inv_head in Hr as ->. specialize (Hq Hin).
  rewrite !elem_of_cons in Hq. destruct Hq as [?|[?|?%elem_of_nil]]; done.
Qed.

Lemma is_node_literal raw p : literal_dev_path raw = Some p -> p = rooted raw /\ is_dev_node p = true /\ (ParentDir ∉ components raw).
Proof.
  unfold literal_dev_path, check_literal. case_bool_decide; [done|]. destruct (is_dir (rooted raw)); [done|].
  destruct (is_dev_node (rooted raw)) eqn:E; [|done]. intros [= <-]. done.
Qed.

Lemma canonical_rooted input : let '(p, raw) := canonical_dev (rooted input) input in p = rooted raw.
Proof.
  unfold canonical_dev. destruct (canonicalize fs (rooted input)); [|done].
  destruct (path_strip_prefix _ _) as [[|c rel]|]; done.
Qed.

(** the two directions agree: whatever form the input had, an identity given out
    together with a path resolves back to that very path.  For a path as input this
    needs the path to lie directly in the device directory: capture looks only at the
    final component ([elsewhere_captured]). *)
Theorem capture_resolves_back input res p :
  fs_laws -> resolve_input input = Ok res -> res_path res = Some p -> trimmed (res_identity res) ->
  (starts_with "/" (trim input) = true -> is_dev_node p = true /\ exists name, plain_name name /\ p = dev_path name) ->
  resolve_current_path (res_identity res) = Some p.
Proof.
  intros L. unfold resolve_input. case_bool_decide as Hempty; [done|].
  destruct (strip_prefix "usb:" (trim input)) as [rest|] eqn:E1; [|destruct (strip_prefix "by-path:" (trim input)) as [rest|] eqn:E2;
    [|destruct (strip_prefix "raw:" (trim input)) as [rest|] eqn:E3]].
  - unfold resolve_usb_identity. destruct (negb _); [done|]. destruct (existsb _ _); [done|].
    destruct (1 <? _)%nat; [by intros [= <-]|]. destruct (find_usb (trim input)) as [[q i]|] eqn:Ef; intros [= <-]; [|done].
    cbn. intros [= ->] Ht _.
    rewrite resolve_usb by (rewrite trim_id by done; unfold starts_with; by rewrite E1).
    by rewrite trim_id, Ef.
  - unfold resolve_bypath_identity. case_bool_decide; [done|]. intros [= <-]. cbn. intros Hb Ht _.
    unfold resolve_current_path. rewrite trim_id by done. unfold starts_with. by rewrite E1, E2.
  - unfold resolve_raw_identity. case_bool_decide; [done|]. destruct (check_literal (trim input) rest) as [q| |] eqn:Ec; [|done..].
    cbn. intros [= <-]. cbn. destruct (is_dev_node q) eqn:Ed; [|done]. intros [= ->] Ht _.
    unfold resolve_current_path. rewrite trim_id by done. unfold starts_with. rewrite E1, E2, E3.
    revert Ec. unfold check_literal. case_bool_decide as Hn; [done|]. destruct (is_dir (rooted rest)) eqn:Edir; [done|].
    intros [= <-]. by apply literal_binds_back.
  - destruct (starts_with "/" (trim input)).
    + unfold capture_from_path. case_bool_decide; [done|]. unfold check_literal. case_bool_decide; [done|].
      destruct (is_dir _); [done|]. cbn [mbind exec_bind]. destruct (negb _); [done|].
      pose proof (canonical_rooted (trim input)) as Hc. destruct (canonical_dev (rooted (trim input)) (trim input)) as [q raw].
      intros [= <-]. rewrite capture_path. intros [= ->] Ht Hdir.
      destruct (Hdir eq_refl) as (Hd & name & Hp & ->). rewrite dev_path_name in * by done. cbn [default] in *.
      apply capture_binds_back; try done. by apply (rooted_no_parent name).
    + unfold capture_from_serial. destruct (1 <? _)%nat; [done|].
      destruct (last (devices_with_serial (trim input))) as [[q i]|] eqn:El; [|done]. intros [= <-]. rewrite capture_path.
      intros [= ->] Ht _. apply last_Some_elem_of in El. unfold devices_with_serial in El.
      destruct (is_absent _); [by apply elem_of_nil in El|]. apply list_elem_of_filter in El as [_ El].
      apply elem_of_devices in El as (name & (Hp & Hd & _) & ->); [|done].
      rewrite dev_path_name in * by done. cbn [default] in *. destruct (dev_spelling name Hp) as [H1 H2].
      by apply capture_binds_back.
Qed.

(** ** The listing of ports *)

Lemma or_insert_keys l (m : gmap string (option string)) k v :
  foldl or_insert m l !! k = Some v -> k ∈ l \/ is_Some (m !! k).
Proof.
  revert m. induction l as [|x l IH]; intros m; cbn [foldl]; [eauto|]. intros [?|Hm]%IH; [by left; right|].
  unfold or_insert in Hm. destruct (m !! x) eqn:E; [by right|]. rewrite lookup_insert in Hm.
  case_decide; [subst; left; left|by right].
Qed.

Lemma adapter_names a n : a ∈ discover_adapters -> file_name (ad_dev_path a) = Some n -> plain_name n.
Proof.
  unfold discover_adapters. destruct (read_dir fs by_id_dir) as [entries|]; [|by intros ?%elem_of_nil].
  rewrite merge_sort_Permutation. intros (x & _ & Hx)%list_elem_of_omap.
  destruct (read_link fs (join_str by_id_dir x)) as [t|]; [|done]. cbn in Hx. injection Hx as <-. cbn [ad_dev_path].
  destruct (file_name (components t)) as [dev|] eqn:E; cbn [default].
  - apply file_name_plain in E. rewrite dev_path_name by done. by intros [= <-].
  - unfold dev_path, join_str at 1. change (components "") with (@nil Component). cbn [join].
    rewrite app_nil_r, join_plain, file_name_snoc by done. by intros [= <-].
Qed.

Lemma seen_plain k v : fs_laws -> seen_names !! k = Some v -> plain_name k.
Proof.
  intros L. unfold seen_names. set (base := foldl _ ∅ discover_adapters).
  assert (Hbase : forall k, is_Some (base !! k) -> plain_name k).
  { unfold base. assert (Hall : forall a, a ∈ discover_adapters -> forall n, file_name (ad_dev_path a) = Some n -> plain_name n)
      by (intros; by eapply adapter_names).
    revert Hall. generalize discover_adapters. intros l. induction l as [|a l IH] using rev_ind; intros Hall k'.
    - cbn. rewrite lookup_empty. by intros [].
    - rewrite foldl_app. cbn [foldl]. setoid_rewrite elem_of_app in Hall.
      destruct (file_name (ad_dev_path a)) as [n|] eqn:E; [|by apply IH; eauto].
      rewrite lookup_insert. case_decide; [|by apply IH; eauto]. subst. intros _. apply (Hall a); [|done]. right. by left. }
  assert (Hsys : forall k, is_Some (foldl or_insert base (omap (fun m => file_name m.1) sysfs_usb_devices) !! k) -> plain_name k).
  { intros k' [v' H']. apply or_insert_keys in H' as [([q i] & Hin & Hf)%list_elem_of_omap|?]; [|auto].
    apply elem_of_devices in Hin as (name & (Hp & _) & ->); [|done]. cbn in Hf. rewrite dev_path_name in Hf by done. by injection Hf as <-. }
  revert Hsys. generalize (foldl or_insert base (omap (fun m => file_name m.1) sysfs_usb_devices)). intros m Hsys.
  assert (Hby : forall k, is_Some ((match read_dir fs by_path_dir with
              | None => m | Some entries => foldl or_insert m (omap (target_name by_path_dir) entries) end) !! k) -> plain_name k).
  { intros k'. destruct (read_dir fs by_path_dir) as [entries|]; [|auto].
    intros [v' [(x & _ & Hx)%list_elem_of_omap|?]%or_insert_keys]; [by eapply target_plain|auto]. }
  revert Hby. generalize (match read_dir fs by_path_dir with
              | None => m | Some entries => foldl or_insert m (omap (target_name by_path_dir) entries) end). intros m' Hby.
  destruct (read_dir fs (join_str (dev_root r) "dev")) as [entries|] eqn:E; [|eauto].
  intros [[_ Hin]%list_elem_of_filter|?]%or_insert_keys; [|auto].
  destruct (fl_names L _ _ E) as [_ H]. rewrite Forall_forall in H. auto.
Qed.

Lemma port_spec entry c :
  port_of entry = Some c -> plain_name entry.1 ->
  pc_path c = dev_path entry.1 /\ is_dev_node (dev_path entry.1) = true
  /\ pc_identity c = res_identity (capture_for_dev entry.1 (dev_path entry.1) ("/dev/" ++ entry.1)).
Proof.
  intros Hc Hp. revert Hc. unfold port_of. destruct (dev_spelling entry.1 Hp) as [-> _].
  destruct (is_dev_node (dev_path entry.1)); [|done]. intros [= <-]. done.
Qed.

(** what [ports] lists is what binding binds: every candidate's identity resolves
    to that candidate's own path, also when several adapters share a serial number,
    and no two candidates have one path. *)
Theorem ports_bind_back :
  fs_laws ->
  NoDup (pc_path <$> enumerate_ports)
  /\ forall c, c ∈ enumerate_ports -> trimmed (pc_identity c) -> resolve_current_path (pc_identity c) = Some (pc_path c).
Proof.
  intros L. split.
  - unfold enumerate_ports. rewrite (merge_sort_Permutation port_le), (merge_sort_Permutation key_le).
    assert (Hall : forall e, e ∈ map_to_list seen_names -> plain_name e.1).
    { intros [k v] ?%elem_of_map_to_list. by eapply seen_plain. }
    pose proof (NoDup_fst_map_to_list seen_names) as Hnd. revert Hall Hnd.
    generalize (map_to_list seen_names). induction l as [|e l IH]; intros Hall Hnd; [constructor|].
    apply NoDup_cons in Hnd as [Hn Hnd]. cbn [omap list_omap].
    specialize (IH (fun x Hx => Hall x (list_elem_of_further _ _ _ Hx)) Hnd). destruct (port_of e) as [c|] eqn:Ec; [|done].
    rewrite fmap_cons. apply NoDup_cons. split; [|done].
    intros (c' & Ep & (e' & He' & Ec')%list_elem_of_omap)%list_elem_of_fmap.
    assert (Pe : plain_name e.1) by (apply Hall; left). assert (Pe' : plain_name e'.1) by (apply Hall; by right).
    apply port_spec in Ec as (E1 & _), Ec' as (E2 & _); [|done..]. rewrite E1, E2 in Ep.
    apply dev_path_inj in Ep; [|done..]. apply Hn. rewrite Ep. by apply list_elem_of_fmap_2.
  - intros c. unfold enumerate_ports. rewrite (merge_sort_Permutation port_le).
    intros (e & He & Hc)%list_elem_of_omap Ht. rewrite (merge_sort_Permutation key_le) in He.
    destruct e as [k v]. apply elem_of_map_to_list, seen_plain in He; [|done].
    destruct (port_spec _ _ Hc He) as (-> & Hd & E). rewrite E in *. cbn [fst] in *.
    destruct (dev_spelling k He) as [H1 H2]. by apply capture_binds_back.
Qed.

(** ** Staying under the root *)

(** a device path the resolver hands out is a present device node at or below the
    device root, and no component after the root goes up: neither a stored identity nor
    a raw path makes the daemon open anything outside. *)
Theorem resolution_stays_in_root d p :
  fs_laws -> resolve_current_path d = Some p ->
  is_dev_node p = true /\ exists rest, p = app (dev_root r) rest /\ ParentDir ∉ rest.
Proof.
  intros L. assert (Hdev : forall name, plain_name name -> exists rest, dev_path name = app (dev_root r) rest /\ ParentDir ∉ rest).
  { intros name H. rewrite dev_path_plain by done. eexists. split; [done|]. set_solver. }
  assert (Hlist : forall q i, (q, i) ∈ sysfs_usb_devices ->
            is_dev_node q = true /\ exists rest, q = app (dev_root r) rest /\ ParentDir ∉ rest).
  { intros q i (name & (Hp & Hd & _) & ->)%elem_of_devices; auto. }
  assert (Hlit : forall raw, literal_dev_path raw = Some p ->
            is_dev_node p = true /\ exists rest, p = app (dev_root r) rest /\ ParentDir ∉ rest).
  { intros raw (-> & Hd & Hn)%is_node_literal. split; [done|]. unfold rooted, join_str.
    destruct (join_relative (dev_root r) (components (trim_start_char slash raw))) as (q & -> & Hq & _);
      [intros c; apply trim_start_relative|]. exists q. split; [done|]. intros Hin%Hq. apply Hn.
    by rewrite parent_in_components, <- trim_start_components, <- parent_in_components. }
  unfold resolve_current_path. destruct (starts_with "usb:" (trim d)).
  - rewrite find_usb_spec by done. destruct (usb_identity_matches (trim d)) as [|[q i] [|]] eqn:E; [done| |done].
    intros [= <-]. apply (Hlist q i). assert (Hin : (q, i) ∈ usb_identity_matches (trim d)) by (rewrite E; left).
    by apply list_elem_of_filter in Hin as [_ ?].
  - destruct (strip_prefix "by-path:" (trim d)) as [rest|].
    { unfold bypath_lookup. destruct (target_name by_path_dir rest) as [dev|] eqn:Et; [|done]. cbn.
      destruct (is_dev_node (dev_path dev)) eqn:Ed; [|done]. intros [= <-]. split; [done|]. by eapply Hdev, target_plain. }
    destruct (strip_prefix "raw:" (trim d)); [apply Hlit|]. destruct (starts_with "/" (trim d)); [apply Hlit|].
    unfold devices_with_serial. destruct (is_absent _); [done|].
    destruct (filter _ _) as [|[q i] [|]] eqn:E; [done| |done]. intros [= <-]. apply (Hlist q i).
    assert (Hin : (q, i) ∈ [(q, i)]) by left. rewrite <- E in Hin. by apply list_elem_of_filter in Hin as [_ ?].
Qed.

(** An input that names an identity is never refused for the device being absent;
    only a path or a serial number, whose identity has to be read off the device, is. *)
Theorem identity_input_needs_no_device input absent :
  resolve_input input = Err (NotPresent absent) ->
  absent = trim input /\ starts_with "usb:" absent = false /\ starts_with "by-path:" absent = false
  /\ starts_with "raw:" absent = false.
Proof.
  unfold resolve_input. case_bool_decide; [done|].
  destruct (strip_prefix "usb:" (trim input)) as [rest|] eqn:E1; [|destruct (strip_prefix "by-path:" (trim input)) as [rest|] eqn:E2;
    [|destruct (strip_prefix "raw:" (trim input)) as [rest|] eqn:E3]].
  - unfold resolve_usb_identity. destruct (negb _); [done|]. destruct (existsb _ _); [done|].
    destruct (1 <? _)%nat; [done|]. by destruct (find_usb _) as [[]|].
  - unfold resolve_bypath_identity. by case_bool_decide.
  - unfold resolve_raw_identity, check_literal. case_bool_decide; [done|]. case_bool_decide; [done|]. by destruct (is_dir _).
  - assert (N1 : starts_with "usb:" (trim input) = false) by (unfold starts_with; by rewrite E1).
    assert (N2 : starts_with "by-path:" (trim input) = false) by (unfold starts_with; by rewrite E2).
    assert (N3 : starts_with "raw:" (trim input) = false) by (unfold starts_with; by rewrite E3).
    destruct (starts_with "/" (trim input)).
    + unfold capture_from_path, check_literal. case_bool_decide; [done|]. case_bool_decide; [done|].
      destruct (is_dir _); [done|]. cbn [mbind exec_bind]. destruct (negb _); [|by destruct (canonical_dev _ _)].
      by intros [= <-].
    + unfold capture_from_serial. destruct (1 <? _)%nat; [done|]. destruct (last _) as [[]|]; [done|].
      by intros [= <-].
Qed.
End resolver.

(** ** A machine with three adapters

    One with a serial number of its own, two clones that share one, which udev names by
    their ports only, and a file elsewhere that is called like a terminal. *)

Definition assoc {A} (l : list (Path * A)) (p : Path) : option A := snd <$> head (filter (fun e => e.1 = p) l).

Lemma assoc_elem {A} (l : list (Path * A)) p x : assoc l p = Some x -> (p, x) ∈ l.
Proof.
  unfold assoc. intros ([q y] & Hh & ->)%fmap_Some. apply head_Some_elem_of, list_elem_of_filter in Hh as [<- Hin]. done.
Qed.

Definition usb_files (bus iface vid pid serial : string) : list (Path * string) :=
  [(components ("/sys/devices/" ++ bus ++ "/" ++ iface ++ "/bInterfaceNumber"), "00
");
   (components ("/sys/devices/" ++ bus ++ "/idVendor"), vid); (components ("/sys/devices/" ++ bus ++ "/idProduct"), pid);
   (components ("/sys/devices/" ++ bus ++ "/serial"), serial)].

Definition bench_files : list (Path * string) :=
  usb_files "1-1" "1-1.0" "0403" "6001" "A6008isP " ++ usb_files "1-2" "1-2.0" "10c4" "ea60" "0001"
  ++ usb_files "1-3" "1-3.0" "10c4" "ea60" "0001".

Definition bench_dirs : list (Path * list string) :=
  [(components "/sys/class/tty", ["ttyUSB2"; "ttyUSB0"; "ttyS0"; "ttyUSB1"]);
   (components "/dev", ["ttyUSB0"; "ttyUSB1"; "ttyUSB2"; "ttyS0"; "cu.modem"]);
   (components "/dev/serial/by-id", ["usb-FTDI_A6008isP-if00"]);
   (components "/dev/serial/by-path", ["pci-usb-0:2"; "pci-usb-0:3"])].

Definition bench_links : list (Path * string) :=
  [(components "/dev/serial/by-id/usb-FTDI_A6008isP-if00", "../../ttyUSB0");
   (components "/dev/serial/by-path/pci-usb-0:2", "../../ttyUSB1");
   (components "/dev/serial/by-path/pci-usb-0:3", "../../ttyUSB2")].

Definition bench_canon : list (Path * Path) :=
  [(components "/sys", components "/sys"); ([RootDir], [RootDir]);
   (components "/sys/class/tty/ttyUSB0/device", components "/sys/devices/1-1/1-1.0/ttyUSB0");
   (components "/sys/class/tty/ttyUSB1/device", components "/sys/devices/1-2/1-2.0/ttyUSB1");
   (components "/sys/class/tty/ttyUSB2/device", components "/sys/devices/1-3/1-3.0/ttyUSB2");
   (components "/dev/serial/by-id/usb-FTDI_A6008isP-if00", components "/dev/ttyUSB0");
   (components "/srv/ttyUSB0", components "/srv/ttyUSB0")].

Definition bench_nodes : list (Path * bool) :=
  ((fun e => (e.1, false)) <$> bench_files) ++ ((fun e => (e.1, true)) <$> bench_dirs) ++
  [(components "/dev/ttyUSB0", false); (components "/dev/ttyUSB1", false); (components "/dev/ttyUSB2", false);
   (components "/dev/ttyS0", false); (components "/dev/serial/by-id/usb-FTDI_A6008isP-if00", false);
   (components "/srv/ttyUSB0", false)].

Definition bench : FileSystem :=
  mkFs (assoc bench_dirs) (assoc bench_links) (assoc bench_canon) (assoc bench_nodes) (assoc bench_files).
Definition bench_resolver : Resolver := resolver_new [RootDir].

#[local] Instance plain_name_dec s : Decision (plain_name s).
Proof. unfold plain_name. apply _. Defined.

Lemma bench_laws : fs_laws bench bench_resolver.
Proof.
  split.
  - intros d names H%assoc_elem.
    assert (Hall : Forall (fun e : Path * list string => NoDup e.2 /\ Forall plain_name e.2) bench_dirs)
      by (apply (bool_decide_unpack _); vm_compute; exact I).
    rewrite Forall_forall in Hall. exact (Hall _ H).
  - intros name p Hp H%assoc_elem. exists ["ttyUSB2"; "ttyUSB0"; "ttyS0"; "ttyUSB1"]. split; [vm_compute; reflexivity|].
    assert (E : join_str (join_str (join_str (sys_root bench_resolver) "class/tty") name) "device"
      = [RootDir; Normal "sys"; Normal "class"; Normal "tty"; Normal name; Normal "device"])
      by (rewrite (join_plain _ name) by done; reflexivity).
    rewrite E in H. unfold bench_canon in H. rewrite !elem_of_cons in H.
    destruct H as [H|[H|[H|[H|[H|[H|[H|H%elem_of_nil]]]]]]]; try done; vm_compute in H; try discriminate;
      injection H as -> _; rewrite !elem_of_cons; auto.
Qed.

Definition ftdi : string := "usb:0403:6001:A6008isP:00".
Definition clone : string := "usb:10c4:ea60:0001:00".

(** The clones are refused by their shared identity, bound by their ports. *)
Example bench_ports :
  pc_identity <$> enumerate_ports bench bench_resolver = [ftdi; "by-path:pci-usb-0:2"; "by-path:pci-usb-0:3"]
  /\ resolve_current_path bench bench_resolver clone = None
  /\ resolve_current_path bench bench_resolver "0001" = None.
Proof. vm_compute. done. Qed.

Lemma usb_resolution_exact_witness :
  only_device bench bench_resolver (fun i => usb_identity i = ftdi) (components "/dev/ttyUSB0").
Proof. apply (usb_resolution_exact bench bench_resolver bench_laws ftdi); vm_compute; reflexivity. Defined.

Lemma serial_resolution_exact_witness :
  only_device bench bench_resolver (fun i => usb_serial_field (usb_identity i) = Some "A6008isP") (components "/dev/ttyUSB0").
Proof.
  destruct (serial_resolution_exact bench bench_resolver bench_laws "A6008isP" (components "/dev/ttyUSB0")) as [H _];
    [vm_compute; reflexivity..|].
  apply H. vm_compute. reflexivity.
Defined.

Lemma minted_identity_accepted_witness :
  exists info, sysfs_lookup bench bench_resolver "ttyUSB0" = Some info /\ usb_identity info = ftdi /\ kind_of (usb_identity info) = Usb.
Proof.
  destruct (sysfs_lookup bench bench_resolver "ttyUSB0") as [info|] eqn:E; [|vm_compute in E; discriminate].
  exists info. split; [done|]. split; [vm_compute in E; by injection E as <-|].
  apply (minted_identity_accepted bench bench_resolver "ttyUSB0" info E).
Defined.

Lemma capture_resolves_back_witness :
  exists res, resolve_input bench bench_resolver "/dev/serial/by-id/usb-FTDI_A6008isP-if00" = Ok res
    /\ resolve_current_path bench bench_resolver (res_identity res) = Some (components "/dev/ttyUSB0").
Proof.
  destruct (resolve_input bench bench_resolver "/dev/serial/by-id/usb-FTDI_A6008isP-if00") as [res| |] eqn:E;
    [|vm_compute in E; discriminate..].
  exists res. split; [done|]. apply (capture_resolves_back bench bench_resolver _ res _ bench_laws E).
  - vm_compute in E. by injection E as <-.
  - vm_compute in E. injection E as <-. by apply (trim_trimmed ftdi).
  - intros _. split; [vm_compute; reflexivity|]. exists "ttyUSB0".
    split; [apply (bool_decide_unpack _)|]; vm_compute; [exact I|reflexivity].
Defined.

Lemma ports_bind_back_witness :
  exists c, enumerate_ports bench bench_resolver !! 1%nat = Some c
    /\ resolve_current_path bench bench_resolver (pc_identity c) = Some (pc_path c).
Proof.
  destruct (enumerate_ports bench bench_resolver !! 1%nat) as [c|] eqn:E; [|vm_compute in E; discriminate].
  exists c. split; [done|]. apply (ports_bind_back bench bench_resolver bench_laws).
  - by apply list_elem_of_lookup_2 in E.
  - vm_compute in E. injection E as <-. by apply (trim_trimmed "by-path:pci-usb-0:2").
Defined.

Lemma resolution_stays_in_root_witness : exists rest, components "/dev/ttyS0" = app [RootDir] rest /\ ParentDir ∉ rest.
Proof.
  apply (resolution_stays_in_root bench bench_resolver "raw:/dev/ttyS0" (components "/dev/ttyS0") bench_laws).
  vm_compute. reflexivity.
Defined.

Lemma identity_input_needs_no_device_witness : "B7" = trim " B7 " /\ starts_with "usb:" "B7" = false.
Proof.
  destruct (identity_input_needs_no_device bench bench_resolver " B7 " "B7") as (H1 & H2 & _);
    [vm_compute; reflexivity|]. exact (conj H1 H2).
Defined.

(** Capture looks at the final component only: a file elsewhere that is called like a
    terminal is given that terminal's identity, which resolves to the terminal. *)
Example elsewhere_captured :
  match resolve_input bench bench_resolver "/srv/ttyUSB0" with
  | Ok res => res_identity res = ftdi /\ res_path res = Some (components "/srv/ttyUSB0")
  | _ => False
  end /\ resolve_current_path bench bench_resolver ftdi = Some (components "/dev/ttyUSB0").
Proof. vm_compute. done. Qed.

(** An identity may be malformed all the same. *)
Example malformed_identity :
  resolve_input bench bench_resolver "usb:0403:6001::00"
  = Err (Malformed "usb:0403:6001::00" "usb identity fields must be non-empty (use - for an absent serial/interface)").
Proof. vm_compute. done. Qed.
