(* ===== verification/Identity.v ===== *)
(** * Identities from the wire (daemon/src/nodes/identity_set.rs)

    [IdentitySet], the bounded set in which a leg or a codec node remembers channel
    names that a peer sent and the configuration does not have.  The [HashSet] beside
    the vector is a [gset]; the refusal counter ([+= 1] on a [u64]) is an integer. *)

From S2P Require Import Prelude Envelope.
#[local] Open Scope Z_scope.

(** ** Operations *)

Definition MAX_IDENTITIES : nat := 256.
Definition MAX_IDENTITY_LEN : nat := 64.
Definition TRUNCATION_MARKER : string := "…(truncated)".

(** [str::is_char_boundary] of the standard library. *)
Definition is_char_boundary (bs : list byte) (i : nat) : bool :=
  match i with
  | O => true
  | _ => match bs !! i with
         | Some b => negb (utf8_cont b)
         | None => bool_decide (i = length bs)
         end
  end.

(** [while end > 0 && !id.is_char_boundary(end) { end -= 1 }]. *)
Fixpoint boundary_before (bs : list byte) (end_ : nat) : nat :=
  match end_ with
  | O => O
  | S e => if is_char_boundary bs end_ then end_ else boundary_before bs e
  end.

Definition truncate_identity (id : string) : string :=
  if slen id <=? Z.of_nat MAX_IDENTITY_LEN then id
  else from_bytes (take (boundary_before (as_bytes id) MAX_IDENTITY_LEN) (as_bytes id) ++ as_bytes TRUNCATION_MARKER).

Record IdentitySet := mkIdentitySet { order : list string; seen : gset string; overflow : Z }.

(** [IdentitySet::default]. *)
Definition identity_default : IdentitySet := mkIdentitySet [] ∅ 0.

(** [insert], with what it returns. *)
Definition id_insert (id : string) (s : IdentitySet) : option string * IdentitySet :=
  let id := truncate_identity id in
  if bool_decide (id ∈ seen s) then (None, s)
  else if (MAX_IDENTITIES <=? length (order s))%nat then (None, mkIdentitySet (order s) (seen s) (overflow s + 1))
  else (Some id, mkIdentitySet (order s ++ [id]) ({[id]} ∪ seen s) (overflow s)).

Definition id_clear (s : IdentitySet) : IdentitySet := mkIdentitySet [] ∅ 0.

(** A series of insertions and what each returned. *)
Fixpoint insert_all (ids : list string) (s : IdentitySet) : list (option string) * IdentitySet :=
  match ids with
  | [] => ([], s)
  | id :: ids =>
      let '(r, s) := id_insert id s in
      let '(rs, s) := insert_all ids s in (r :: rs, s)
  end.

(** ** Characters *)

(** A boundary behind the first character is one of the rest. *)
Lemma boundary_shift b c r m :
  utf8_valid r = true -> is_char_boundary (b :: c ++ r) (S (length c) + m) = is_char_boundary r m.
Proof.
  intros Hr. cbn [is_char_boundary Nat.add].
  change ((b :: c ++ r) !! S (length c + m)) with ((c ++ r) !! (length c + m)%nat). rewrite lookup_app_r by lia.
  replace (length c + m - length c)%nat with m by lia. destruct m as [|m]; cbn [is_char_boundary].
  - destruct (utf8_uncons r Hr) as [->|(x & k & q & -> & _ & Hx & _)]; cbn [lookup list_lookup].
    + apply bool_decide_true. rewrite app_nil_r. cbn. lia.
    + by rewrite Hx.
  - destruct (r !! S m) as [x|]; [done|]. apply bool_decide_ext. cbn. rewrite length_app. lia.
Qed.

Lemma boundary_inside b c r n :
  Forall (fun x => utf8_cont x = true) c -> (0 < n < S (length c))%nat ->
  is_char_boundary (b :: c ++ r) n = false.
Proof.
  intros Hc Hn. destruct n as [|n]; [lia|]. unfold is_char_boundary.
  change ((b :: c ++ r) !! S n) with ((c ++ r) !! n).
  destruct (lookup_lt_is_Some_2 c n) as [x Hx]; [lia|]. rewrite lookup_app_l, Hx by lia.
  rewrite Forall_lookup in Hc. by rewrite (Hc n x Hx).
Qed.

(** Cutting a valid string at a boundary. *)
Lemma boundary_cut bs n :
  utf8_valid bs = true -> is_char_boundary bs n = true ->
  utf8_valid (take n bs) = true /\ utf8_valid (drop n bs) = true.
Proof.
  revert bs. induction n as [n IH] using lt_wf_ind. intros bs H Hn. destruct n as [|n]; [done|].
  destruct (utf8_uncons bs H) as [->|(b & c & r & -> & _ & Hb & Hc & Hr & Hk)]; [done|].
  destruct (decide (n < length c)%nat) as [Hl|Hl]; [rewrite boundary_inside in Hn; done || lia|].
  assert (exists m, n = length c + m)%nat as [m ->] by (exists (n - length c)%nat; lia).
  change (S (length c + m)) with (S (length c) + m)%nat in Hn. rewrite boundary_shift in Hn by done.
  destruct (IH m ltac:(lia) r Hr Hn) as [H1 H2]. cbn [take drop]. rewrite take_app_add, drop_app_add. auto.
Qed.

(** Some boundary is among any four positions. *)
Lemma boundary_near bs n :
  utf8_valid bs = true -> (n <= length bs)%nat ->
  exists m, (m <= n < m + 4)%nat /\ is_char_boundary bs m = true.
Proof.
  revert bs. induction n as [n IH] using lt_wf_ind. intros bs H Hn.
  destruct (utf8_uncons bs H) as [->|(b & c & r & -> & Hl & Hb & Hc & Hr & Hk)].
  { exists O. cbn in Hn. split; [lia|done]. }
  destruct (decide (n < S (length c))%nat) as [Hs|Hs]; [exists O; split; [lia|done]|].
  assert (exists m, n = S (length c) + m)%nat as [m ->] by (exists (n - S (length c))%nat; lia).
  destruct (IH m ltac:(lia) r Hr) as (k & Hk1 & Hk2). { cbn in Hn. rewrite length_app in Hn. lia. }
  exists (S (length c) + k)%nat. split; [lia|]. by rewrite boundary_shift.
Qed.

(** The loop finds the last boundary at or below [e]. *)
Lemma boundary_before_spec bs e :
  is_char_boundary bs (boundary_before bs e) = true /\ (boundary_before bs e <= e)%nat
  /\ forall m, (m <= e)%nat -> is_char_boundary bs m = true -> (m <= boundary_before bs e)%nat.
Proof.
  induction e as [|e (IH1 & IH2 & IH3)]; cbn [boundary_before]; [split_and!; [done|lia|lia]|].
  destruct (is_char_boundary bs (S e)) eqn:E; [split_and!; [done|lia|lia]|]. split_and!; [done|lia|].
  intros m Hm Hb. apply IH3; [|done]. destruct (decide (m = S e)) as [->|]; [congruence|lia].
Qed.

(** ** The set *)

(** The specification: the distinct elements in the order they first occur. *)
Fixpoint first_sightings (xs : list string) : list string :=
  match xs with
  | [] => []
  | x :: xs => x :: filter (.≠ x) (first_sightings xs)
  end.

Record set_ok (s : IdentitySet) : Prop := {
  so_seen : seen s = list_to_set (order s);
  so_cap : (length (order s) <= MAX_IDENTITIES)%nat }.

Lemma set_ok_default : set_ok identity_default.
Proof. split; [done|cbn; lia]. Qed.

Lemma elem_of_seen s x : set_ok s -> (x ∈ seen s <-> x ∈ order s).
Proof. intros [-> _]. apply elem_of_list_to_set. Qed.

Lemma id_insert_ok id s : set_ok s -> set_ok (id_insert id s).2.
Proof.
  intros [H1 H2]. unfold id_insert. case_bool_decide; [by split|].
  destruct (Nat.leb_spec MAX_IDENTITIES (length (order s))) as [Hl|Hl]; split; cbn; try done.
  - rewrite H1, list_to_set_app_L. set_solver.
  - rewrite length_app. cbn. lia.
Qed.

(** What an insertion does, by cases on the order alone. *)
Lemma id_insert_cases id s :
  set_ok s ->
  let x := truncate_identity id in
  (x ∈ order s /\ id_insert id s = (None, s))
  \/ (~ x ∈ order s /\ length (order s) = MAX_IDENTITIES
      /\ id_insert id s = (None, mkIdentitySet (order s) (seen s) (overflow s + 1)))
  \/ (~ x ∈ order s /\ (length (order s) < MAX_IDENTITIES)%nat
      /\ id_insert id s = (Some x, mkIdentitySet (order s ++ [x]) ({[x]} ∪ seen s) (overflow s))).
Proof.
  intros O x. unfold id_insert. fold x. pose proof (elem_of_seen s x O). destruct O as [_ Hc].
  case_bool_decide; [left; tauto|right]. destruct (Nat.leb_spec MAX_IDENTITIES (length (order s))).
  - left. split_and!; [tauto|lia|done].
  - right. split_and!; [tauto|lia|done].
Qed.

Lemma insert_all_prefix ids s : set_ok s -> (order s) `prefix_of` (order (insert_all ids s).2).
Proof.
  revert s. induction ids as [|id ids IH]; intros s O; [done|]. cbn [insert_all].
  pose proof (id_insert_ok id s O) as O'. pose proof (id_insert_cases id s O) as C.
  destruct (id_insert id s) as [r s1]. specialize (IH s1 O'). destruct (insert_all ids s1) as [rs s2]. cbn [snd] in *.
  etrans; [|exact IH]. destruct C as [[_ [= _ ->]]|[(_ & _ & [= _ ->])|(_ & _ & [= _ ->])]]; cbn; [done..|by apply prefix_app_r].
Qed.

Lemma filter_sightings (l : list string) x (fs : list string) :
  filter (.∉ l ++ [x]) fs = filter (.∉ l) (filter (.≠ x) fs).
Proof. rewrite list_filter_filter. apply list_filter_iff. intros y. set_solver. Qed.

Lemma filter_not_nil (xs : list string) : filter (.∉ []) xs = xs.
Proof.
  induction xs as [|x xs IH]; [done|]. rewrite filter_cons, decide_True by apply not_elem_of_nil. by f_equal.
Qed.

Lemma insert_all_spec ids s :
  set_ok s ->
  let '(rs, s') := insert_all ids s in
  set_ok s'
  /\ order s' = take MAX_IDENTITIES (order s ++ filter (.∉ order s) (first_sightings (truncate_identity <$> ids)))
  /\ order s' = order s ++ omap id rs
  /\ overflow s' = overflow s + len (filter (.∉ order s') (truncate_identity <$> ids)).
Proof.
  revert s. induction ids as [|i ids IH]; intros s O; cbn [insert_all fmap list_fmap first_sightings].
  { split_and!; [done| |by rewrite app_nil_r|unfold len; cbn; lia]. rewrite app_nil_r, take_ge; [done|apply O]. }
  pose proof (id_insert_ok i s O) as O1. pose proof (id_insert_cases i s O) as C. fold (fmap (M := list) truncate_identity ids).
  set (x := truncate_identity i) in *. destruct (id_insert i s) as [r s1]. cbn [snd] in O1.
  specialize (IH s1 O1). pose proof (insert_all_prefix ids s1 O1) as Hpre.
  destruct (insert_all ids s1) as [rs s2]. destruct IH as (O2 & H1 & H2 & H3). cbn [snd] in Hpre.
  split; [done|]. rewrite !filter_cons.
  destruct C as [[Hx [= -> ->]]|[(Hx & Hl & [= -> ->])|(Hx & Hl & [= -> ->])]]; cbn [order overflow] in *.
  - rewrite decide_False by tauto. assert (x ∈ order s2) by (eapply elem_of_prefix; done).
    rewrite decide_False by tauto. split_and!; [|done|done].
    rewrite H1. f_equal. f_equal. rewrite list_filter_filter. apply list_filter_iff. intros y. naive_solver.
  - assert (order s2 = order s) as Es by (rewrite H1, take_app_le, take_ge by lia; done).
    rewrite Es in *. rewrite !decide_True by done. split_and!; [|done|rewrite len_cons; lia].
    rewrite take_app_le, take_ge by lia. done.
  - rewrite decide_True by done. assert (x ∈ order s2) by (eapply elem_of_prefix; [|done]; set_solver).
    rewrite decide_False by tauto. split_and!; [|cbn; by rewrite H2, <- app_assoc|done].
    rewrite H1, <- app_assoc, filter_sightings. done.
Qed.

(** A wire identity is stored bounded and honest: text stays text, at most 64 bytes
    and the marker are kept, a short identity is kept as it is, and a long one is
    cut between two characters, at most three bytes short of the limit, and marked. *)
Theorem identity_truncation id :
  is_str id ->
  is_str (truncate_identity id) /\ slen (truncate_identity id) <= 64 + 14
  /\ (slen id <= 64 -> truncate_identity id = id)
  /\ (64 < slen id -> exists kept lost,
        as_bytes id = kept ++ lost /\ as_bytes (truncate_identity id) = kept ++ as_bytes TRUNCATION_MARKER
        /\ 61 <= len kept <= 64 /\ utf8_valid kept = true /\ utf8_valid lost = true).
Proof.
  intros Hs. unfold truncate_identity. change (Z.of_nat MAX_IDENTITY_LEN) with 64.
  destruct (Z.leb_spec (slen id) 64) as [Hl|Hl]; [split_and!; [done|lia|done|lia]|].
  set (bs := as_bytes id) in *. set (e := boundary_before bs MAX_IDENTITY_LEN).
  destruct (boundary_before_spec bs MAX_IDENTITY_LEN) as (E1 & E2 & E3). fold e in E1, E2, E3.
  assert (Hlen : len bs = slen id) by apply len_as_bytes. unfold MAX_IDENTITY_LEN in *.
  destruct (boundary_near bs 64 Hs) as (m & Hm & Hb); [unfold len in Hlen; lia|].
  specialize (E3 m ltac:(lia) Hb). destruct (boundary_cut bs e Hs E1) as [C1 C2].
  assert (Hk : len (take e bs) = Z.of_nat e) by (unfold len in *; rewrite length_take; lia).
  assert (Hn : len (as_bytes TRUNCATION_MARKER) = 14) by reflexivity. split_and!.
  - unfold is_str. rewrite as_from_bytes. apply utf8_valid_app; [done|by vm_compute].
  - rewrite <- len_as_bytes, as_from_bytes. len_lia.
  - lia.
  - intros _. exists (take e bs), (drop e bs). rewrite as_from_bytes, take_drop. split_and!; done || lia.
Qed.

(** The bounded set is exactly the first 256 distinct identities. Whatever a
    peer sends, the recorded identities are the first 256 distinct ones in the
    order they first arrived, the index mirrors them, an insertion reports an identity
    exactly when it records it, once each and in that order, and the refusals are
    exactly the occurrences of identities that are not recorded. *)
Theorem identity_set_exact ids :
  let '(reported, s) := insert_all ids identity_default in
  order s = take MAX_IDENTITIES (first_sightings (truncate_identity <$> ids))
  /\ seen s = list_to_set (order s)
  /\ omap id reported = order s
  /\ overflow s = len (filter (.∉ order s) (truncate_identity <$> ids)).
Proof.
  pose proof (insert_all_spec ids identity_default set_ok_default) as H.
  destruct (insert_all ids identity_default) as [rs s]. destruct H as ([Hs _] & H1 & H2 & H3). cbn in H1, H2, H3.
  split_and!; [|done|done|rewrite H3; lia]. rewrite H1. f_equal.
  apply filter_not_nil.
Qed.

(** ** Witnesses *)

Definition long_name : string := String.concat "" (replicate 30 "zé").

Lemma identity_truncation_witness :
  slen long_name = 90 /\ is_str (truncate_identity long_name) /\ slen (truncate_identity long_name) <= 64 + 14.
Proof.
  split; [by vm_compute|]. destruct (identity_truncation long_name) as (H1 & H2 & _); [by vm_compute|done].
Defined.

Example demo_identities :
  (insert_all ["a"; "b"; "a"]%string identity_default).1 = [Some "a"%string; Some "b"%string; None].
Proof. vm_compute. reflexivity. Qed.
