(* ===== verification/Leg.v ===== *)
(** * The leg: binding, handshake, routing (daemon/src/nodes/leg.rs)

    A leg carries its channels over one socket to a leg of another daemon.  This file
    has its counters and shared state, the hello exchange, the binding of channels,
    and the routing of decoded wire events into the local graph; LegSend.v has the
    sending half, LegTask.v the per-channel writer, LegLife.v the supervisor.

    The counters of one leg are [Cell<u64>] bumped at line rate: integers.  The
    reasons of a status are constructors for the texts the code formats; the text of
    an I/O error is a parameter type. *)

From S2P Require Import Prelude GraphTypes Envelope Tap Channel State Frames Inbox FanOut Identity.
#[local] Open Scope Z_scope.

(** ** State *)

Record ChannelStat := mkChannelStat {
  delivered_hostward : Z; accepted_targetward : Z; discarded_hostward : Z; discarded_targetward : Z;
  discarded_unframable : Z; discarded_peer_gone : Z; purged_on_reconnect : Z;
  ch_bound : bool; ch_active : bool }.

Definition stat_default : ChannelStat := mkChannelStat 0 0 0 0 0 0 0 false false.

(** One function per counter: the seven [Cell]s. *)
Definition on_delivered_hostward (f : Z -> Z) (s : ChannelStat) : ChannelStat :=
  mkChannelStat (f (delivered_hostward s)) (accepted_targetward s) (discarded_hostward s) (discarded_targetward s)
    (discarded_unframable s) (discarded_peer_gone s) (purged_on_reconnect s) (ch_bound s) (ch_active s).
Definition on_accepted_targetward (f : Z -> Z) (s : ChannelStat) : ChannelStat :=
  mkChannelStat (delivered_hostward s) (f (accepted_targetward s)) (discarded_hostward s) (discarded_targetward s)
    (discarded_unframable s) (discarded_peer_gone s) (purged_on_reconnect s) (ch_bound s) (ch_active s).
Definition on_discarded_hostward (f : Z -> Z) (s : ChannelStat) : ChannelStat :=
  mkChannelStat (delivered_hostward s) (accepted_targetward s) (f (discarded_hostward s)) (discarded_targetward s)
    (discarded_unframable s) (discarded_peer_gone s) (purged_on_reconnect s) (ch_bound s) (ch_active s).
Definition on_discarded_targetward (f : Z -> Z) (s : ChannelStat) : ChannelStat :=
  mkChannelStat (delivered_hostward s) (accepted_targetward s) (discarded_hostward s) (f (discarded_targetward s))
    (discarded_unframable s) (discarded_peer_gone s) (purged_on_reconnect s) (ch_bound s) (ch_active s).
Definition on_discarded_unframable (f : Z -> Z) (s : ChannelStat) : ChannelStat :=
  mkChannelStat (delivered_hostward s) (accepted_targetward s) (discarded_hostward s) (discarded_targetward s)
    (f (discarded_unframable s)) (discarded_peer_gone s) (purged_on_reconnect s) (ch_bound s) (ch_active s).
Definition on_discarded_peer_gone (f : Z -> Z) (s : ChannelStat) : ChannelStat :=
  mkChannelStat (delivered_hostward s) (accepted_targetward s) (discarded_hostward s) (discarded_targetward s)
    (discarded_unframable s) (f (discarded_peer_gone s)) (purged_on_reconnect s) (ch_bound s) (ch_active s).
Definition on_purged_on_reconnect (f : Z -> Z) (s : ChannelStat) : ChannelStat :=
  mkChannelStat (delivered_hostward s) (accepted_targetward s) (discarded_hostward s) (discarded_targetward s)
    (discarded_unframable s) (discarded_peer_gone s) (f (purged_on_reconnect s)) (ch_bound s) (ch_active s).
Definition set_bound (b : bool) (s : ChannelStat) : ChannelStat :=
  mkChannelStat (delivered_hostward s) (accepted_targetward s) (discarded_hostward s) (discarded_targetward s)
    (discarded_unframable s) (discarded_peer_gone s) (purged_on_reconnect s) b (ch_active s).
Definition set_ch_active (b : bool) (s : ChannelStat) : ChannelStat :=
  mkChannelStat (delivered_hostward s) (accepted_targetward s) (discarded_hostward s) (discarded_targetward s)
    (discarded_unframable s) (discarded_peer_gone s) (purged_on_reconnect s) (ch_bound s) b.

(** The leg's instance of the accounting rule of [route_channel_data]. *)
#[export] Instance channel_stat : HostwardChannelStat ChannelStat := {
  set_active := set_ch_active true;
  add_delivered := fun n => on_delivered_hostward (Z.add n);
  add_unattached := fun n => on_discarded_hostward (Z.add n);
  add_dropped_full := fun n => on_discarded_hostward (Z.add n) }.

(** Why a leg waits or is faulted; [E] is the text of an I/O error. *)
Inductive LegReason (E : Type) :=
| NoPeerYet
| PeerDisconnected
| BindFailed (e : E)
| ConnectFailed (e : E)
| ClosedDuringHandshake
| ClosedBeforeHello
| EncodeHello (e : WireError)
| ReadHello (e : E)
| HelloRefused (e : WireError)
| DeadlineExceeded
| ProtocolViolation (e : EnvelopeError).
Arguments NoPeerYet {E}.
Arguments PeerDisconnected {E}.
Arguments BindFailed {E} _.
Arguments ConnectFailed {E} _.
Arguments ClosedDuringHandshake {E}.
Arguments ClosedBeforeHello {E}.
Arguments EncodeHello {E} _.
Arguments ReadHello {E} _.
Arguments HelloRefused {E} _.
Arguments DeadlineExceeded {E}.
Arguments ProtocolViolation {E} _.

#[export] Instance leg_reason_eq_dec {E} `{EqDecision E} : EqDecision (LegReason E).
Proof. solve_decision. Defined.

(** [LegShared], less the fields only the supervisor's socket work uses (LegLife.v). *)
Record LegShared (E : Type) := mkShared {
  status : NodeState (LegReason E); peer_address : option string; peer_version : option Z;
  peer_capabilities : Z; reconnect_count : Z; unbound : IdentitySet;
  purge_on_reconnect : bool; disconnect_epoch : Z }.
Arguments mkShared {E} _ _ _ _ _ _ _ _.
Arguments status {E} _.
Arguments peer_address {E} _.
Arguments peer_version {E} _.
Arguments peer_capabilities {E} _.
Arguments reconnect_count {E} _.
Arguments unbound {E} _.
Arguments purge_on_reconnect {E} _.
Arguments disconnect_epoch {E} _.

Abbreviation Stats := (gmap string ChannelStat) (only parsing).

Section leg.
Context {IoError : Type} `{EqDecision IoError}.
Abbreviation Shared := (LegShared IoError) (only parsing).
Implicit Types (sh : LegShared IoError) (stats : gmap string ChannelStat).

(** [LegShared::new] at time [now]. *)
Definition shared_new (purge : bool) (now : Z) : Shared :=
  mkShared (new_at (Waiting NoPeerYet) now) None None 0 0 identity_default purge 0.

Definition set_unbound (u : IdentitySet) sh : Shared :=
  mkShared (status sh) (peer_address sh) (peer_version sh) (peer_capabilities sh) (reconnect_count sh) u
    (purge_on_reconnect sh) (disconnect_epoch sh).

(** ** Binding *)

(** The configured-channel loop of [bind_channels]. *)
Definition bind_one (announced : list ChannelId) stats (ch : string) : Stats :=
  alter (set_bound (bool_decide (ch ∈ announced))) ch stats.

Definition bind_channels (channels : list string) (hello : Hello) stats sh : Stats * Shared :=
  (foldl (bind_one (Envelope.channels hello)) stats channels,
   set_unbound (insert_all (filter (.∉ channels) (Envelope.channels hello)) (id_clear (unbound sh))).2 sh).

Definition clear_connection_state stats sh : Stats * Shared :=
  ((fun s => set_ch_active false (set_bound false s)) <$> stats,
   mkShared (status sh) None None 0 (reconnect_count sh) (id_clear (unbound sh)) (purge_on_reconnect sh)
     (disconnect_epoch sh + 1)).

(** ** Handshake *)

(** A read of the socket: data ([Ok []] is end of file) or an error. *)
Abbreviation Read := (IoError + list byte)%type (only parsing).

(** How the hello exchange ends: done with the bytes left over and the reads not
    used, refused, still waiting for bytes, or a panic. *)
Inductive Handshake :=
| HsDone (hello : Hello) (leftover : list byte) (reads : list (IoError + list byte))
| HsRefused (reason : LegReason IoError)
| HsWaiting (buf : list byte)
| HsPanic.

(** The read loop of [handshake]. *)
Fixpoint hello_loop (reads : list (IoError + list byte)) (buf : list byte) : Handshake :=
  match try_decode_hello buf with
  | Ok (Some (hello, consumed)) => HsDone hello (drop (Z.to_nat consumed) buf) reads
  | Ok None =>
      match reads with
      | [] => HsWaiting buf
      | inr [] :: _ => HsRefused ClosedBeforeHello
      | inr k :: reads => hello_loop reads (buf ++ k)
      | inl e :: _ => HsRefused (ReadHello e)
      end
  | Err e => HsRefused (HelloRefused e)
  | Panic => HsPanic
  end.

Definition our_hello (channels : list string) : Hello := mkHello WIRE_VERSION 0 channels.

(** [handshake]: what is written, how it ends, the shared state.  [written] is
    whether the socket takes the hello. *)
Definition handshake (channels : list string) (written : bool) (reads : list (IoError + list byte)) sh
  : list byte * Handshake * Shared :=
  match encode_hello (our_hello channels) [] with
  | (Ok _, frame) =>
      if negb written then (frame, HsRefused ClosedDuringHandshake, sh)
      else
        let r := hello_loop reads [] in
        (frame, r,
         match r with
         | HsDone hello _ _ =>
             mkShared (status sh) (peer_address sh) (Some (version hello)) (Envelope.capabilities hello) (reconnect_count sh)
               (unbound sh) (purge_on_reconnect sh) (disconnect_epoch sh)
         | _ => sh
         end)
  | (Err e, _) => ([], HsRefused (EncodeHello e), sh)
  | (Panic, _) => ([], HsPanic, sh)
  end.

(** ** Routing decoded events *)

Context {C : Type -> Type} `{MpscLaws C} `{Eng : Pattern.Engine}.

Inductive RecvRoute :=
| RHost (sinks : gmap string (list (AttachedSink (C := C)))) (feeds : gmap string Feed)
| RTarget (txs : gmap string (C Inbound)).

(** What the read half of a connection works on. *)
Record LegRun := mkRun { r_route : RecvRoute; r_stats : Stats; r_shared : Shared }.

Definition put_stats (stats : Stats) (r : LegRun) : LegRun := mkRun (r_route r) stats (r_shared r).

Inductive Undeliverable := UHostward | UTargetward.

Definition note_undeliverable (ch : string) (n : Z) (direction : Undeliverable) (r : LegRun) : LegRun :=
  match r_stats r !! ch with
  | Some _ =>
      let count := match direction with UHostward => on_discarded_hostward | UTargetward => on_discarded_targetward end in
      put_stats (alter (count (Z.add n)) ch (r_stats r)) r
  | None => mkRun (r_route r) (r_stats r) (set_unbound (id_insert ch (unbound (r_shared r))).2 (r_shared r))
  end.

(** [route_recv]; [false] while it is suspended on a full queue, to be called again.
    [sent] is whether the tap feed takes the chunk. *)
Definition route_recv (ev : Event) (sent : bool) (r : LegRun) : bool * LegRun :=
  let ch := Envelope.channel ev in
  match kind ev with
  | Envelope.Data bytes =>
      let n := len bytes in
      let r := put_stats (alter (set_ch_active true) ch (r_stats r)) r in
      match r_route r with
      | RHost sinks feeds =>
          match sinks !! ch with
          | Some chsinks =>
              let '(feed, chsinks, stat) :=
                route_channel_data bytes (feeds !! ch) sent (Some chsinks) (r_stats r !! ch) in
              (true, mkRun (RHost (partial_alter (fun _ => chsinks) ch sinks) (partial_alter (fun _ => feed) ch feeds))
                           (partial_alter (fun _ => stat) ch (r_stats r)) (r_shared r))
          | None =>
              let feeds := alter (fun f => mirror f bytes sent) ch feeds in
              (true, note_undeliverable ch n UHostward (mkRun (RHost sinks feeds) (r_stats r) (r_shared r)))
          end
      | RTarget txs =>
          match txs !! ch with
          | Some tx =>
              match try_send tx (mkInbound (disconnect_epoch (r_shared r)) bytes) with
              | (SendOk, tx) => (true, mkRun (RTarget (<[ch := tx]> txs)) (r_stats r) (r_shared r))
              | (SendFull, _) => (false, r)
              | (SendClosed, _) => (true, put_stats (alter (on_discarded_targetward (Z.add n)) ch (r_stats r)) r)
              end
          | None => (true, note_undeliverable ch n UTargetward r)
          end
      end
  | Envelope.Open => (true, put_stats (alter (set_ch_active true) ch (r_stats r)) r)
  | Envelope.Close => (true, put_stats (alter (set_ch_active false) ch (r_stats r)) r)
  | Envelope.Error _ => (true, r)
  end.
(** ** Lemmas *)

Lemma bind_all_lookup announced channels stats ch :
  foldl (bind_one announced) stats channels !! ch =
  if bool_decide (ch ∈ channels) then set_bound (bool_decide (ch ∈ announced)) <$> stats !! ch else stats !! ch.
Proof.
  revert stats. induction channels as [|c channels IH]; intros stats; cbn [foldl]; [done|]. rewrite IH. unfold bind_one.
  destruct (decide (ch = c)) as [->|Hne].
  - rewrite lookup_alter_eq, (bool_decide_true (c ∈ c :: channels)) by set_solver.
    case_bool_decide; [|done]. by destruct (stats !! c).
  - rewrite lookup_alter_ne by done. by rewrite (bool_decide_ext (ch ∈ c :: channels) (ch ∈ channels)) by set_solver.
Qed.

Lemma id_clear_ok s : set_ok (id_clear s).
Proof. apply set_ok_default. Qed.

#[local] Arguments hello_frame : simpl never.

Lemma hello_partial h p q :
  hello_typed h -> hello_body_len h <= MAX_FRAME_SIZE -> hello_frame h = p ++ q -> q <> [] ->
  try_decode_hello p = Ok None.
Proof.
  intros Ht Hf He Hq. rewrite try_decode_hello_unfold. destruct (Z.ltb_spec (len p) 4) as [H4|H4]; [done|].
  assert (Hl : len (hello_frame h) = 4 + hello_body_len h)
    by (unfold hello_frame; rewrite len_app, len_hello_body; done).
  assert (Hp : prefix_len p = hello_body_len h).
  { transitivity (prefix_len (hello_frame h)).
    - rewrite He. unfold prefix_len. f_equal. rewrite take_app_le; [done|]. unfold len in H4. lia.
    - unfold prefix_len, hello_frame. rewrite take_app_length' by done. apply from_to_be.
      pose proof (len_nonneg (hello_body h)) as Hn. rewrite len_hello_body in Hn.
      unfold MAX_FRAME_SIZE in Hf. change (256 ^ Z.of_nat 4) with (2 ^ 32). lia. }
  rewrite Hp, (proj2 (Z.ltb_ge _ _)) by done. rewrite (proj2 (Z.ltb_lt _ _)); [done|].
  rewrite <- Hl, He, len_app. destruct q; [done|]. rewrite len_cons. pose proof (len_nonneg q). lia.
Qed.

Lemma hello_loop_exact h rest reads buf :
  hello_typed h -> hello_body_len h <= MAX_FRAME_SIZE -> version h = WIRE_VERSION ->
  Forall (.≠ []) reads -> buf ++ concat reads = hello_frame h ++ rest ->
  exists leftover unread, hello_loop (inr <$> reads) buf = HsDone h leftover (inr <$> unread)
    /\ leftover ++ concat unread = rest.
Proof.
  intros Ht Hf Hv Hall. revert buf. induction Hall as [|k reads Hk Hall IH]; intros buf Hb.
  - cbn in Hb. rewrite app_nil_r in Hb. subst buf. cbn [fmap list_fmap hello_loop].
    rewrite try_decode_hello_frame, Hv, Z.eqb_refl by done. exists rest, [].
    unfold len. rewrite Nat2Z.id, drop_app_length, app_nil_r. done.
  - destruct (decide (length (hello_frame h) <= length buf)%nat) as [Hl|Hl].
    + assert (buf = hello_frame h ++ drop (length (hello_frame h)) buf) as Eb.
      { rewrite <- (take_drop (length (hello_frame h)) buf) at 1. f_equal.
        apply (f_equal (take (length (hello_frame h)))) in Hb. by rewrite take_app_le, take_app_length in Hb. }
      set (r := drop (length (hello_frame h)) buf) in *. rewrite Eb in Hb |- *. cbn [fmap list_fmap hello_loop].
      rewrite try_decode_hello_frame, Hv, Z.eqb_refl by done. exists r, (k :: reads).
      unfold len. rewrite Nat2Z.id, drop_app_length. split; [done|].
      rewrite <- app_assoc in Hb. by apply app_inv_head in Hb.
    + cbn [fmap list_fmap hello_loop]. rewrite (hello_partial h buf (drop (length buf) (hello_frame h))); [|done..| |].
      * destruct k as [|x k]; [done|]. apply IH. by rewrite <- app_assoc.
      * rewrite <- (take_drop (length buf) (hello_frame h)) at 1. f_equal.
        apply (f_equal (take (length buf))) in Hb. rewrite take_app_length, take_app_le in Hb by lia. done.
      * intros E. apply (f_equal length) in E. rewrite length_drop in E. cbn in E. lia.
Qed.
Lemma our_hello_typed channels : Forall is_str channels -> hello_typed (our_hello channels).
Proof. intros H1. split; [|split]; [by vm_compute|by vm_compute|done]. Qed.

Lemma our_hello_encoded channels frame :
  encode_hello (our_hello channels) [] = (Ok tt, frame) ->
  frame = hello_frame (our_hello channels) /\ hello_body_len (our_hello channels) <= MAX_FRAME_SIZE.
Proof.
  rewrite encode_hello_spec. destruct (Z.ltb_spec MAX_FRAME_SIZE (hello_body_len (our_hello channels))); [done|].
  by intros [= <-].
Qed.

Lemma bind_channels_unbound channels hello stats sh :
  let unknown := truncate_identity <$> filter (.∉ channels) (Envelope.channels hello) in
  let u := unbound (bind_channels channels hello stats sh).2 in
  order u = take MAX_IDENTITIES (first_sightings unknown) /\ overflow u = len (filter (.∉ order u) unknown).
Proof.
  cbn. pose proof (insert_all_spec (filter (.∉ channels) (Envelope.channels hello)) (id_clear (unbound sh)) (id_clear_ok _)) as S.
  destruct (insert_all _ _) as [rs u]. cbn [snd]. destruct S as (_ & S1 & _ & S3). cbn in S1, S3.
  rewrite filter_not_nil in S1. split; [done|]. rewrite S3. lia.
Qed.

(** ** Theorems *)

(** The hello exchange does not depend on how the transport cuts the stream. A peer's
    hello of the spoken version, followed by anything, is read as itself from any
    non-empty reads; what was read beyond it and what was not read yet are what
    followed it; and the node remembers the peer's version and capabilities. *)
Theorem handshake_exact channels (hello : Hello) rest reads sh :
  hello_typed hello -> version hello = WIRE_VERSION -> hello_body_len (our_hello channels) <= MAX_FRAME_SIZE ->
  (encode_hello hello []).1 = Ok tt -> Forall (.≠ []) reads ->
  concat reads = (encode_hello hello []).2 ++ rest ->
  exists leftover unread sh',
    handshake channels true (inr <$> reads) sh
      = ((encode_hello (our_hello channels) []).2, HsDone hello leftover (inr <$> unread), sh')
    /\ leftover ++ concat unread = rest
    /\ peer_version sh' = Some WIRE_VERSION /\ peer_capabilities sh' = Envelope.capabilities hello.
Proof.
  intros Ht Hv Ho He Hall Hc. rewrite encode_hello_spec in He, Hc. rewrite !encode_hello_spec.
  destruct (Z.ltb_spec MAX_FRAME_SIZE (hello_body_len hello)) as [|Hf]; [done|]. cbn [snd app] in Hc.
  destruct (hello_loop_exact hello rest reads [] Ht Hf Hv Hall Hc) as (leftover & unread & Hl & Hr).
  unfold handshake. rewrite encode_hello_spec, (proj2 (Z.ltb_ge _ _)) by done. cbn [negb fst snd].
  rewrite Hl. eexists _, _, _. split; [done|]. cbn. by rewrite Hv.
Qed.

Lemma hello_none_len buf : try_decode_hello buf = Ok None -> len buf < 4 + MAX_FRAME_SIZE.
Proof.
  rewrite try_decode_hello_unfold. destruct (Z.ltb_spec (len buf) 4); [unfold MAX_FRAME_SIZE; lia|].
  destruct (Z.ltb_spec MAX_FRAME_SIZE (prefix_len buf)); [done|].
  destruct (Z.ltb_spec (len buf) (4 + prefix_len buf)); [lia|]. by destruct (parse_hello _).
Qed.

Lemma hello_loop_safe reads buf :
  len buf < 4 + MAX_FRAME_SIZE + 4096 ->
  Forall (fun r => match r with inr k => len k <= 4096 | inl _ => True end) reads ->
  match hello_loop reads buf with
  | HsDone hello leftover _ => version hello = WIRE_VERSION /\ len leftover < 4 + MAX_FRAME_SIZE + 4096
  | HsWaiting buf' => len buf' < 4 + MAX_FRAME_SIZE
  | HsRefused _ => True
  | HsPanic => False
  end.
Proof.
  intros Hb Hall. revert buf Hb. induction Hall as [|r reads Hr Hall IH]; intros buf Hb; cbn [hello_loop];
    pose proof (hello_decode_safe buf) as [Hnp Hs]; pose proof (hello_none_len buf) as Hn;
    destruct (try_decode_hello buf) as [[[h n]|]|e|]; try done.
  - destruct (Hs h n eq_refl) as (H1 & _ & H2 & _). split; [done|]. unfold len in *. rewrite length_drop. lia.
  - by apply Hn.
  - destruct (Hs h n eq_refl) as (H1 & _ & H2 & _). split; [done|]. unfold len in *. rewrite length_drop. lia.
  - destruct r as [e|[|b k]]; [done..|]. apply IH. rewrite len_app. specialize (Hn eq_refl). lia.
Qed.

(** A handshake with anybody is safe. Whatever the peer sends or does not send, the
    exchange neither panics nor accepts another version, and it never holds more than one
    maximal hello and one read. *)
Theorem handshake_safe channels written reads sh :
  Forall (fun r => match r with inr k => len k <= 4096 | inl _ => True end) reads ->
  match (handshake channels written reads sh).1.2 with
  | HsDone hello leftover _ => version hello = WIRE_VERSION /\ len leftover < 4 + MAX_FRAME_SIZE + 4096
  | HsWaiting buf => len buf < 4 + MAX_FRAME_SIZE
  | HsRefused _ => (handshake channels written reads sh).2 = sh
  | HsPanic => False
  end.
Proof.
  intros Hall. unfold handshake. rewrite encode_hello_spec.
  destruct (MAX_FRAME_SIZE <? hello_body_len (our_hello channels)); [done|]. destruct written; cbn [negb]; [|done].
  pose proof (hello_loop_safe reads [] ltac:(rewrite len_nil; unfold MAX_FRAME_SIZE; lia) Hall) as S.
  cbn [fst snd]. by destruct (hello_loop reads []).
Qed.

(** Two legs agree on what is bound. Each sends its hello, reads the other's, however
    the transport cuts what it delivers, and reconciles; then a channel is bound on either
    side exactly when both configure it, the channels of one side keep their counters, and
    each side lists as unbound exactly the first 256 identities that only the other configures. *)
Theorem link_binds_intersection ca cb ra rb resta restb sta stb sha shb :
  Forall is_str ca -> Forall is_str cb ->
  (encode_hello (our_hello ca) []).1 = Ok tt -> (encode_hello (our_hello cb) []).1 = Ok tt ->
  Forall (.≠ []) ra -> Forall (.≠ []) rb ->
  concat ra = (handshake cb true (inr <$> rb) shb).1.1 ++ resta ->
  concat rb = (handshake ca true (inr <$> ra) sha).1.1 ++ restb ->
  exists ha la ua sha' hb lb ub shb',
    handshake ca true (inr <$> ra) sha = ((encode_hello (our_hello ca) []).2, HsDone ha la ua, sha')
    /\ handshake cb true (inr <$> rb) shb = ((encode_hello (our_hello cb) []).2, HsDone hb lb ub, shb')
    /\ let A := bind_channels ca ha sta sha' in let B := bind_channels cb hb stb shb' in
       (forall ch, ch ∈ ca -> A.1 !! ch = set_bound (bool_decide (ch ∈ cb)) <$> sta !! ch)
       /\ (forall ch, ch ∈ cb -> B.1 !! ch = set_bound (bool_decide (ch ∈ ca)) <$> stb !! ch)
       /\ order (unbound A.2) = take MAX_IDENTITIES (first_sightings (truncate_identity <$> filter (.∉ ca) cb))
       /\ order (unbound B.2) = take MAX_IDENTITIES (first_sightings (truncate_identity <$> filter (.∉ cb) ca)).
Proof.
  intros Ha Hb Ea Eb Hra Hrb Ca Cb.
  assert (forall channels sh reads, (encode_hello (our_hello channels) []).1 = Ok tt ->
    (handshake channels true reads sh).1.1 = hello_frame (our_hello channels)) as Hw.
  { intros channels sh reads E. unfold handshake. destruct (encode_hello (our_hello channels) []) as [r f] eqn:Ef.
    cbn in E. subst r. apply our_hello_encoded in Ef as [-> _]. done. }
  rewrite Hw in Ca, Cb by done.
  destruct (our_hello_encoded ca (encode_hello (our_hello ca) []).2) as [Fa La].
  { rewrite <- Ea. apply surjective_pairing. }
  destruct (our_hello_encoded cb (encode_hello (our_hello cb) []).2) as [Fb Lb].
  { rewrite <- Eb. apply surjective_pairing. }
  destruct (hello_loop_exact (our_hello cb) resta ra [] (our_hello_typed cb Hb) Lb eq_refl Hra Ca) as (la & ua & H1 & _).
  destruct (hello_loop_exact (our_hello ca) restb rb [] (our_hello_typed ca Ha) La eq_refl Hrb Cb) as (lb & ub & H2 & _).
  do 8 eexists. split; [|split].
  - unfold handshake. destruct (encode_hello (our_hello ca) []) as [r f]. cbn in Ea. subst r. cbn [negb fst snd].
    rewrite H1. done.
  - unfold handshake. destruct (encode_hello (our_hello cb) []) as [r f]. cbn in Eb. subst r. cbn [negb fst snd].
    rewrite H2. done.
  - cbv zeta. split_and!.
    + intros ch Hch. unfold bind_channels. cbn [fst]. rewrite bind_all_lookup. by rewrite bool_decide_true.
    + intros ch Hch. unfold bind_channels. cbn [fst]. rewrite bind_all_lookup. by rewrite bool_decide_true.
    + by destruct (bind_channels_unbound ca (our_hello cb) sta
        (mkShared (status sha) (peer_address sha) (Some 1) 0 (reconnect_count sha) (unbound sha) (purge_on_reconnect sha) (disconnect_epoch sha))).
    + by destruct (bind_channels_unbound cb (our_hello ca) stb
        (mkShared (status shb) (peer_address shb) (Some 1) 0 (reconnect_count shb) (unbound shb) (purge_on_reconnect shb) (disconnect_epoch shb))).
Qed.

(** ** Routing over time *)

(** A leg facing its consumers: events arrive, and anything may happen to the consumers
    of a channel (they take, they vanish, edges come and go). *)
Inductive LegEvent := LRecv (ev : Event) (sent : bool) | LConsumers (ch : string) (sinks : list (AttachedSink (C := C))).

Definition leg_step (e : LegEvent) (r : LegRun) : LegRun :=
  match e with
  | LRecv ev sent => (route_recv ev sent r).2
  | LConsumers ch sinks =>
      match r_route r with
      | RHost m feeds => mkRun (RHost (<[ch := sinks]> m) feeds) (r_stats r) (r_shared r)
      | RTarget _ => r
      end
  end.

Definition data_on (ch : string) (ev : Event) : Z :=
  match kind ev with
  | Envelope.Data bytes => if bool_decide (Envelope.channel ev = ch) then len bytes else 0
  | _ => 0
  end.
Definition event_data_on (ch : string) (e : LegEvent) : Z :=
  match e with LRecv ev _ => data_on ch ev | LConsumers _ _ => 0 end.

(** At most one consumer per channel. *)
Definition single (r : LegRun) : Prop :=
  match r_route r with
  | RHost m _ => forall ch l, m !! ch = Some l -> (length l <= 1)%nat
  | RTarget _ => False
  end.
Definition event_single (e : LegEvent) : Prop :=
  match e with LConsumers _ sinks => (length sinks <= 1)%nat | LRecv _ _ => True end.

(** The counters a hostward event can move, and those it cannot. *)
Definition hostward (s : ChannelStat) : Z := delivered_hostward s + discarded_hostward s.
Definition targetward (s : ChannelStat) : Z * Z * Z * Z * Z :=
  (accepted_targetward s, discarded_targetward s, discarded_unframable s, discarded_peer_gone s, purged_on_reconnect s).

Definition moved (n : Z) (s s' : ChannelStat) : Prop := hostward s' = hostward s + n /\ targetward s' = targetward s.

Lemma moved_refl s : moved 0 s s.
Proof. split; [lia|done]. Qed.

Lemma moved_trans n m s1 s2 s3 : moved n s1 s2 -> moved m s2 s3 -> moved (n + m) s1 s3.
Proof. intros [H1 H2] [H3 H4]. split; [lia|congruence]. Qed.

Definition moved_opt (n : Z) (o o' : option ChannelStat) : Prop :=
  match o, o' with Some s, Some s' => moved n s s' | None, None => True | _, _ => False end.

Lemma moved_opt_refl o : moved_opt 0 o o.
Proof. destruct o; [apply moved_refl|done]. Qed.

Lemma moved_opt_fmap n (f : ChannelStat -> ChannelStat) o : (forall s, moved n s (f s)) -> moved_opt n o (f <$> o).
Proof. intros Hf. destruct o; [apply Hf|done]. Qed.

Lemma moved_opt_trans n m o1 o2 o3 : moved_opt n o1 o2 -> moved_opt m o2 o3 -> moved_opt (n + m) o1 o3.
Proof. destruct o1, o2, o3; try done. apply moved_trans. Qed.

(** Every channel moved by the data for it. *)
Definition moved_all (ev : Event) (stats stats' : Stats) : Prop :=
  forall ch, moved_opt (data_on ch ev) (stats !! ch) (stats' !! ch).

Lemma route_one bytes feed sent sinks (o : option ChannelStat) :
  len bytes <= u64_max -> (length sinks <= 1)%nat ->
  exists feed' sinks' o', route_channel_data bytes feed sent (Some sinks) o = (feed', Some sinks', o')
    /\ (length sinks' <= 1)%nat /\ moved_opt (len bytes) o o'.
Proof.
  intros Hn Hl. pose proof (len_nonneg bytes).
  assert (Hw : u64_wrapping_add 0 (len bytes) = len bytes) by (apply u64_wrapping_add_small; unfold u64_max in *; lia).
  unfold route_channel_data, fan_out. destruct sinks as [|k [|? ?]]; cbn [length] in Hl; [| |lia]; cbn.
  - eexists _, _, _. split; [done|]. split; [cbn; lia|]. destruct o; [|done]. split; [unfold hostward; cbn; lia|done].
  - unfold fan_sink. destruct (try_send (s_tx k) bytes) as [[] tx]; cbn [fst snd live delivered fan_dropped_full];
      (eexists _, _, _; split; [done|]; split; [cbn; lia|]; destruct o; [|done];
       split; [unfold hostward; cbn; rewrite ?Hw; lia|done]).
Qed.

(** One channel's entry changed. *)
Lemma moved_at ev f stats :
  moved_opt (data_on (Envelope.channel ev) ev) (stats !! Envelope.channel ev) (f (stats !! Envelope.channel ev)) ->
  moved_all ev stats (partial_alter f (Envelope.channel ev) stats).
Proof.
  intros Hf ch. destruct (decide (ch = Envelope.channel ev)) as [->|Hne]; [by rewrite lookup_partial_alter_eq|].
  rewrite lookup_partial_alter_ne by done. unfold data_on. destruct (kind ev); try apply moved_opt_refl.
  rewrite bool_decide_false by done. apply moved_opt_refl.
Qed.

Lemma set_active_moved b s : moved 0 s (set_ch_active b s).
Proof. split; [unfold hostward; cbn; lia|done]. Qed.

Lemma route_recv_host ev sent r :
  single r -> data_on (Envelope.channel ev) ev <= u64_max ->
  (route_recv ev sent r).1 = true /\ single (route_recv ev sent r).2
  /\ moved_all ev (r_stats r) (r_stats (route_recv ev sent r).2).
Proof.
  unfold single, route_recv. destruct (r_route r) as [sinks feeds|] eqn:Er; [|done]. intros H1 Hu.
  assert (Hd : data_on (Envelope.channel ev) ev = match kind ev with Envelope.Data bytes => len bytes | _ => 0 end).
  { unfold data_on. destruct (kind ev); [|done..]. by rewrite bool_decide_true. }
  rewrite Hd in Hu. destruct (kind ev) as [bytes| | |m] eqn:Ek; cbn [fst snd r_route r_stats put_stats].
  - rewrite Er. destruct (sinks !! Envelope.channel ev) as [l|] eqn:El.
    + destruct (route_one bytes (feeds !! Envelope.channel ev) sent l
        (alter (set_ch_active true) (Envelope.channel ev) (r_stats r) !! Envelope.channel ev)) as (feed' & l' & o' & -> & Hl & Hm);
        [done|by eapply H1|]. cbn. split_and!; [done| |].
      * intros ch k. destruct (decide (ch = Envelope.channel ev)) as [->|Hne].
        -- rewrite lookup_partial_alter_eq. by intros [= <-].
        -- rewrite lookup_partial_alter_ne by done. apply H1.
      * rewrite partial_alter_alter_eq. apply moved_at. cbn. rewrite Hd.
        rewrite lookup_alter_eq in Hm. change (len bytes) with (0 + len bytes).
        eapply moved_opt_trans; [|exact Hm]. apply moved_opt_fmap, set_active_moved.
    + unfold note_undeliverable. cbn [r_stats r_route r_shared]. rewrite lookup_alter_eq.
      destruct (r_stats r !! Envelope.channel ev) as [s|] eqn:Es; cbn; split_and!; try done.
      * rewrite alter_alter_eq. apply (moved_at ev (fmap _)). rewrite Es, Hd. cbn.
        split; [unfold hostward; cbn; lia|done].
      * apply (moved_at ev (fmap _)). by rewrite Es.
  - rewrite Er. split_and!; [done..|]. apply (moved_at ev (fmap _)). rewrite Hd. apply moved_opt_fmap, set_active_moved.
  - rewrite Er. split_and!; [done..|]. apply (moved_at ev (fmap _)). rewrite Hd. apply moved_opt_fmap, set_active_moved.
  - rewrite Er. split_and!; [done..|]. intros ch. unfold data_on. rewrite Ek. apply moved_opt_refl.
Qed.

Definition event_ok (e : LegEvent) : Prop :=
  match e with
  | LRecv ev _ => data_on (Envelope.channel ev) ev <= u64_max
  | LConsumers _ sinks => (length sinks <= 1)%nat
  end.

Lemma leg_step_host e r :
  single r -> event_ok e -> single (leg_step e r)
  /\ forall ch, moved_opt (event_data_on ch e) (r_stats r !! ch) (r_stats (leg_step e r) !! ch).
Proof.
  intros Hs He. destruct e as [ev sent|ch l]; cbn [leg_step event_data_on].
  - destruct (route_recv_host ev sent r Hs He) as (_ & H1 & H2). done.
  - unfold single in *. destruct (r_route r) as [m feeds|]; [|done]. split; [|intros; apply moved_opt_refl].
    cbn. intros c k. destruct (decide (c = ch)) as [->|]; [rewrite lookup_insert_eq; by intros [= <-]|].
    rewrite lookup_insert_ne by done. apply Hs.
Qed.

(** A leg facing its consumers accounts for every byte its peer sends. Whatever events
    arrive and whatever becomes of the consumers (at most one per channel at a time), a
    configured channel's delivered and discarded counters together grow by exactly the data
    that arrived for it, its targetward counters do not move, and no channel is ever added. *)
Theorem host_leg_accounts events r ch :
  single r -> Forall event_ok events ->
  let r' := foldl (fun r e => leg_step e r) r events in
  match r_stats r !! ch with
  | Some s => exists s', r_stats r' !! ch = Some s'
      /\ delivered_hostward s' + discarded_hostward s'
         = delivered_hostward s + discarded_hostward s + total (event_data_on ch) events
      /\ targetward s' = targetward s
  | None => r_stats r' !! ch = None
  end.
Proof.
  intros Hs Hall r'. assert (moved_opt (total (event_data_on ch) events) (r_stats r !! ch) (r_stats r' !! ch)) as M.
  { subst r'. revert r Hs. induction Hall as [|e events He Hall IH]; intros r Hs; cbn [foldl].
    - apply moved_opt_refl.
    - destruct (leg_step_host e r Hs He) as [H1 H2]. rewrite total_cons. by eapply moved_opt_trans; [apply H2|apply IH]. }
  destruct (r_stats r !! ch) as [s|], (r_stats r' !! ch) as [s'|]; try done.
  exists s'. destruct M as [M1 M2]. unfold hostward in M1. done.
Qed.
End leg.

(** ** Witnesses *)

Definition demo_shared : LegShared string := shared_new true 0.
Definition demo_stats (channels : list string) : gmap string ChannelStat :=
  list_to_map ((fun ch => (ch, stat_default)) <$> channels).

Definition hello_bytes (channels : list string) : list byte := (encode_hello (our_hello channels) []).2.

(** A stream cut after every third byte. *)
Definition thirds (bs : list byte) : list (list byte) :=
  [take 3 bs; take 3 (drop 3 bs); drop 6 bs].

Lemma handshake_exact_witness :
  exists leftover unread sh',
    handshake ["a"] true (inr <$> thirds (hello_bytes ["b"] ++ [x01])) demo_shared
      = (hello_bytes ["a"], HsDone (our_hello ["b"]) leftover (inr <$> unread), sh')
    /\ leftover ++ concat unread = [x01] /\ peer_version sh' = Some WIRE_VERSION /\ peer_capabilities sh' = 0.
Proof.
  apply (handshake_exact ["a"] (our_hello ["b"]) [x01]).
  - apply our_hello_typed. repeat constructor.
  - reflexivity.
  - vm_compute. discriminate.
  - reflexivity.
  - repeat constructor; discriminate.
  - vm_compute. reflexivity.
Defined.

Lemma handshake_safe_witness :
  (handshake ["a"] true [inr [x00; x00; x00; x06; x48; x54]; inr [x54; x50; x00; x01]] demo_shared).1.2
    = HsRefused (HelloRefused (BadMagic 0x48545450))
  /\ (handshake ["a"] true [inr [x00; x00; x00; x06; x48; x54]; inr [x54; x50; x00; x01]] demo_shared).2 = demo_shared.
Proof.
  assert (Forall (fun r : string + list byte => match r with inr k => len k <= 4096 | inl _ => True end)
    [inr [x00; x00; x00; x06; x48; x54]; inr [x54; x50; x00; x01]]) as F by (repeat constructor; vm_compute; discriminate).
  split; [vm_compute; reflexivity|]. exact (handshake_safe ["a"] true _ demo_shared F).
Defined.

Lemma link_binds_intersection_witness :
  exists ha la ua sha' hb lb ub shb',
    handshake ["a"; "b"] true (inr <$> thirds (hello_bytes ["b"; "c"])) demo_shared
      = (hello_bytes ["a"; "b"], HsDone ha la ua, sha')
    /\ handshake ["b"; "c"] true (inr <$> thirds (hello_bytes ["a"; "b"])) demo_shared
      = (hello_bytes ["b"; "c"], HsDone hb lb ub, shb')
    /\ (bind_channels ["a"; "b"] ha (demo_stats ["a"; "b"]) sha').1 !! "b"%string = Some (set_bound true stat_default)
    /\ order (unbound (bind_channels ["a"; "b"] ha (demo_stats ["a"; "b"]) sha').2) = ["c"%string].
Proof.
  destruct (link_binds_intersection (IoError := string) ["a"; "b"] ["b"; "c"] (thirds (hello_bytes ["b"; "c"]))
      (thirds (hello_bytes ["a"; "b"])) [] [] (demo_stats ["a"; "b"]) (demo_stats ["b"; "c"]) demo_shared demo_shared)
    as (ha & la & ua & sha' & hb & lb & ub & shb' & H1 & H2 & H3 & _ & H4 & _).
  1-2: repeat constructor.
  1-2: reflexivity.
  1-2: repeat constructor; discriminate.
  1-2: vm_compute; reflexivity.
  exists ha, la, ua, sha', hb, lb, ub, shb'. split_and!; [exact H1|exact H2| |exact H4].
  rewrite H3 by (apply (list_elem_of_lookup_2 _ 1); reflexivity). vm_compute. reflexivity.
Defined.

Definition demo_host_leg : LegRun (IoError := string) (C := Bounded) (Eng := Pattern.literal_engine) :=
  mkRun (RHost {["a"%string := [demo_sink 1 "pty"]]} ∅) (demo_stats ["a"; "b"]) demo_shared.

Lemma host_leg_accounts_witness :
  exists s, r_stats (foldl (fun r e => leg_step e r) demo_host_leg
      [LRecv (event_data "a" [x61]) true; LRecv (event_data "a" [x62; x63]) true; LRecv (event_data "z" [x64]) true]) !! "a"%string = Some s
    /\ delivered_hostward s + discarded_hostward s = 3 /\ targetward s = (0, 0, 0, 0, 0).
Proof.
  apply (host_leg_accounts [LRecv (event_data "a" [x61]) true; LRecv (event_data "a" [x62; x63]) true;
    LRecv (event_data "z" [x64]) true] demo_host_leg "a").
  - intros ch l. cbn. intros [_ <-]%lookup_singleton_Some. cbn. lia.
  - repeat constructor; vm_compute; discriminate.
Defined.
