(* ===== verification/LegSend.v ===== *)
(** * The leg's sending half (daemon/src/nodes/leg.rs)

    [next_send], the round over the channels' queues, and the write half of [pump]
    with its custody slot.  The connection can end at any await of the write half: in
    [next_send], or inside a [write_all] that fails or is dropped half way. *)

From S2P Require Import Prelude GraphTypes Envelope Tap Channel State Frames Inbox FanOut Identity Leg.
#[local] Open Scope Z_scope.

(** ** The round over the queues *)

Section round.
Context {C : Type -> Type} `{MpscLaws C}.

(** A source of the socket; the third component, its stat, is the entry of its
    channel ([start] takes both from the same map). *)
Record SendReceiver := mkSendReceiver { sr_ch : string; sr_inbox : TargetwardInbox C (list byte) }.

Definition is_bound (stats : gmap string ChannelStat) (ch : string) : bool :=
  match stats !! ch with Some s => ch_bound s | None => false end.

Definition put_inbox (i : TargetwardInbox C (list byte)) (r : SendReceiver) : SendReceiver := mkSendReceiver (sr_ch r) i.

(** The polling loop, over the indices it visits.  [senders i] is whether a sender of
    queue [i] is left. *)
Fixpoint poll_order (senders : nat -> bool) (stats : gmap string ChannelStat) (n : nat) (idx : list nat)
    (all_closed : bool) (start : nat) (rs : list SendReceiver)
  : Poll (string * list byte) * nat * list SendReceiver :=
  match idx with
  | [] => (if all_closed then Ready None else Pending, start, rs)
  | i :: idx =>
      match rs !! i with
      | None => (Pending, start, rs) (* indexing past the end: every index is below [n] *)
      | Some r =>
          if negb (is_bound stats (sr_ch r)) then poll_order senders stats n idx false start rs
          else
            let '(p, inbox) := poll_recv (senders i) (sr_inbox r) in
            let rs := <[i := put_inbox inbox r]> rs in
            match p with
            | Ready (Some v) => (Ready (Some (sr_ch r, v)), ((i + 1) mod n)%nat, rs)
            | Ready None => poll_order senders stats n idx all_closed start rs
            | Pending => poll_order senders stats n idx false start rs
            end
      end
  end.

Definition rotation (start n : nat) : list nat := (fun k => ((start + k) mod n)%nat) <$> seq 0 n.

(** One poll of [next_send]. *)
Definition next_send (senders : nat -> bool) (stats : gmap string ChannelStat) (start : nat) (rs : list SendReceiver)
  : Poll (string * list byte) * nat * list SendReceiver :=
  let n := length rs in
  if (n =? 0)%nat then (Ready None, start, rs)
  else
    let rs := (fun r => put_inbox (settle_held (sr_inbox r)) r) <$> rs in
    poll_order senders stats n (rotation start n) true start rs.
End round.

(** ** The write half *)

(** A [write_all] of a frame: done, or the connection ends with [k] bytes of it out,
    and at least one not ([write_all] would have succeeded). *)
Inductive Wrote := WAll | WCut (k : nat).

Record InFlight := mkInFlight { if_channel : string; remaining : Z }.

(** [w_wire]: what the socket took after the hello. *)
Record SendSide := mkSendSide { w_wire : list byte; w_stats : gmap string ChannelStat; in_flight : option InFlight }.

Definition set_in_flight (f : option InFlight) (w : SendSide) : SendSide := mkSendSide (w_wire w) (w_stats w) f.
Definition on_stat (ch : string) (f : ChannelStat -> ChannelStat) (w : SendSide) : SendSide :=
  mkSendSide (w_wire w) (alter f ch (w_stats w)) (in_flight w).
Definition put_wire (bs : list byte) (w : SendSide) : SendSide :=
  mkSendSide (w_wire w ++ bs) (w_stats w) (in_flight w).

(** [saturating_sub]. *)
Definition discharge (n : Z) (w : SendSide) : SendSide :=
  match in_flight w with
  | Some f => set_in_flight (Some (mkInFlight (if_channel f) (Z.max 0 (remaining f - n)))) w
  | None => w
  end.

(** The loop over the frames of a chunk; the flag is whether the connection ended. *)
Fixpoint write_items (hostward : bool) (ch : string) (items : list DataFrame) (outs : list Wrote) (w : SendSide)
  : bool * list Wrote * SendSide :=
  match items with
  | [] => (false, outs, w)
  | Piece n frame :: items =>
      match outs with
      | WAll :: outs =>
          let w := discharge n (put_wire frame w) in
          let w := on_stat ch (if hostward then on_delivered_hostward (Z.add n) else on_accepted_targetward (Z.add n)) w in
          write_items hostward ch items outs w
      | WCut k :: outs => (true, outs, put_wire (take (Nat.min k (pred (length frame))) frame) w)
      | [] => (true, [], w)
      end
  | Residual n :: items =>
      write_items hostward ch items outs (on_stat ch (on_discarded_unframable (Z.add n)) (discharge n w))
  end.

(** One turn of the write loop after [next_send] answered. *)
Definition send_chunk (hostward : bool) (ch : string) (bytes : list byte) (outs : list Wrote) (w : SendSide)
  : exec Empty_set (bool * list Wrote * SendSide) :=
  let w := on_stat ch (set_ch_active true) w in
  let w := set_in_flight (Some (mkInFlight ch (len bytes))) w in
  items ← data_frames ch bytes;
  let '(ended, outs, w) := write_items hostward ch items outs w in
  Ok (ended, outs, if ended : bool then w else set_in_flight None w).

(** The write loop over the chunks [next_send] answers: what it took, where it ended. *)
Fixpoint write_loop (hostward : bool) (chunks : list (string * list byte)) (outs : list Wrote) (w : SendSide)
  : exec Empty_set (list (string * list byte) * SendSide) :=
  match chunks with
  | [] => Ok ([], w)
  | (ch, bytes) :: chunks =>
      '(ended, outs, w) ← send_chunk hostward ch bytes outs w;
      if ended : bool then Ok ([(ch, bytes)], w)
      else '(taken, w) ← write_loop hostward chunks outs w; Ok ((ch, bytes) :: taken, w)
  end.

(** The end of [pump], by either half. *)
Definition pump_end (w : SendSide) : SendSide :=
  match in_flight w with
  | Some f =>
      if 0 <? remaining f
      then on_stat (if_channel f) (on_discarded_peer_gone (Z.add (remaining f))) (set_in_flight None w)
      else set_in_flight None w
  | None => w
  end.

(** The sending half of a connection: the chunks taken and the final state. *)
Definition send_connection (hostward : bool) (chunks : list (string * list byte)) (outs : list Wrote)
    (stats : gmap string ChannelStat) : exec Empty_set (list (string * list byte) * SendSide) :=
  '(taken, w) ← write_loop hostward chunks outs (mkSendSide [] stats None); Ok (taken, pump_end w).

(** ** Lemmas: what the counters say *)

Definition forwarded (hostward : bool) (s : ChannelStat) : Z :=
  if hostward then delivered_hostward s else accepted_targetward s.
Definition losses (s : ChannelStat) : Z := discarded_unframable s + discarded_peer_gone s.
Definition kept (hostward : bool) (s : ChannelStat) : Z * Z * Z * Z * bool :=
  (forwarded (negb hostward) s, discarded_hostward s, discarded_targetward s, purged_on_reconnect s, ch_bound s).

(** [s'] is [s] after [n] more bytes forwarded and [l] more lost, and nothing else. *)
Definition sent_by (hostward : bool) (n l : Z) (s s' : ChannelStat) : Prop :=
  forwarded hostward s' = forwarded hostward s + n /\ losses s' = losses s + l /\ kept hostward s' = kept hostward s.

Definition sent_opt (hostward : bool) (n l : Z) (o o' : option ChannelStat) : Prop :=
  match o, o' with Some s, Some s' => sent_by hostward n l s s' | None, None => True | _, _ => False end.

Lemma sent_opt_refl h o : sent_opt h 0 0 o o.
Proof. destruct o; [|done]. split_and!; [lia|lia|done]. Qed.

Lemma sent_opt_trans h n1 l1 n2 l2 o1 o2 o3 :
  sent_opt h n1 l1 o1 o2 -> sent_opt h n2 l2 o2 o3 -> sent_opt h (n1 + n2) (l1 + l2) o1 o3.
Proof.
  destruct o1, o2, o3; try done. intros (A1 & A2 & A3) (B1 & B2 & B3). split_and!; [lia|lia|congruence].
Qed.

Definition only (b : bool) (n : Z) : Z := if b then n else 0.

(** One channel's counters changed. *)
Lemma sent_alter h n l f ch (m : gmap string ChannelStat) c :
  (forall s, sent_by h n l s (f s)) ->
  sent_opt h (only (bool_decide (c = ch)) n) (only (bool_decide (c = ch)) l) (m !! c) (alter f ch m !! c).
Proof.
  intros Hf. destruct (decide (c = ch)) as [->|Hne].
  - rewrite lookup_alter_eq, bool_decide_true by done. destruct (m !! ch); [apply Hf|done].
  - rewrite lookup_alter_ne, bool_decide_false by done. apply sent_opt_refl.
Qed.

Lemma sent_forward h n s :
  sent_by h n 0 s ((if h then on_delivered_hostward (Z.add n) else on_accepted_targetward (Z.add n)) s).
Proof. destruct h; split_and!; unfold losses; cbn; lia || done. Qed.

Lemma sent_unframable h n s : sent_by h 0 n s (on_discarded_unframable (Z.add n) s).
Proof. destruct h; split_and!; unfold losses; cbn; lia || done. Qed.

Lemma sent_peer_gone h n s : sent_by h 0 n s (on_discarded_peer_gone (Z.add n) s).
Proof. destruct h; split_and!; unfold losses; cbn; lia || done. Qed.

Lemma sent_active h b s : sent_by h 0 0 s (set_ch_active b s).
Proof. destruct h; split_and!; unfold losses; cbn; lia || done. Qed.

(** A beginning of a frame. *)
Definition frame_part (p : list byte) : Prop :=
  exists e q, event_typed e /\ event_fits e /\ frame_of e = p ++ q /\ q <> [].

Lemma frame_part_nil : frame_part [].
Proof. exists (event_open ""), (frame_of (event_open "")). split_and!; done || (vm_compute; discriminate). Qed.

Lemma write_items_spec h ch pieces tail outs w :
  is_str ch -> Forall (fun p => event_fits (event_data ch p)) pieces ->
  in_flight w = Some (mkInFlight ch (total len pieces + len tail)) ->
  let '(ended, outs', w') := write_items h ch (yields ch pieces tail) outs w in
  exists done left part, pieces = done ++ left
    /\ w_wire w' = w_wire w ++ concat (frame_of <$> (event_data ch <$> done)) ++ part /\ frame_part part
    /\ (if ended : bool then in_flight w' = Some (mkInFlight ch (total len left + len tail)) else left = [] /\ part = [])
    /\ forall c, sent_opt h (only (bool_decide (c = ch)) (total len done))
                   (only (bool_decide (c = ch)) (if ended : bool then 0 else len tail)) (w_stats w !! c) (w_stats w' !! c).
Proof.
  intros Hs. revert outs w. induction pieces as [|p ps IH]; intros outs w Hall Hf.
  - unfold yields. cbn [fmap list_fmap app]. case_bool_decide as E.
    + subst tail. cbn. exists [], [], []. rewrite !app_nil_r. split_and!; try done; [apply frame_part_nil|].
      intros c. destruct (bool_decide (c = ch)); apply sent_opt_refl.
    + cbn [write_items]. exists [], [], []. rewrite !app_nil_r. unfold discharge. rewrite Hf. cbn.
      split_and!; try done; [apply frame_part_nil|]. intros c. rewrite total_nil.
      pose proof (sent_alter h 0 (len tail) _ ch (w_stats w) c (sent_unframable h (len tail))) as S. done.
  - apply Forall_cons in Hall as [Hp Hall]. change (yields ch (p :: ps) tail) with
      (Piece (len p) (frame_of (event_data ch p)) :: yields ch ps tail). cbn [write_items].
    assert (Hl : 0 < len (frame_of (event_data ch p))).
    { rewrite len_frame_of. pose proof (event_body_len_pos (event_data ch p)). lia. }
    assert (Hcut : forall k, frame_part (take (Nat.min k (pred (length (frame_of (event_data ch p))))) (frame_of (event_data ch p)))).
    { intros k. set (j := Nat.min k _). exists (event_data ch p), (drop j (frame_of (event_data ch p))).
      rewrite take_drop. split_and!; [by split|done|done|]. intros E%(f_equal length). rewrite length_drop in E.
      unfold len in Hl. cbn in E. subst j. lia. }
    destruct outs as [|[|k] outs].
    + exists [], (p :: ps), []. cbn. rewrite app_nil_r. split_and!; try done; [apply frame_part_nil|].
      intros c. rewrite total_nil. destruct (bool_decide (c = ch)); apply sent_opt_refl.
    + set (w1 := on_stat ch _ _).
      assert (Hf1 : in_flight w1 = Some (mkInFlight ch (total len ps + len tail))).
      { subst w1. unfold discharge. cbn. rewrite Hf. cbn. rewrite total_cons. do 2 f_equal.
        pose proof (total_nonneg len ps len_nonneg). pose proof (len_nonneg tail). lia. }
      specialize (IH outs w1 Hall Hf1). destruct (write_items h ch (yields ch ps tail) outs w1) as [[ended outs'] w'].
      destruct IH as (dn & left & part & -> & Hw & Hp2 & He & Hc). exists (p :: dn), left, part.
      split_and!; [done| |done|done|].
      * rewrite Hw. subst w1. unfold discharge. cbn. rewrite Hf. cbn. by rewrite <- !app_assoc.
      * intros c. rewrite total_cons.
        assert (sent_opt h (only (bool_decide (c = ch)) (len p)) 0 (w_stats w !! c) (w_stats w1 !! c)) as S.
        { subst w1. unfold discharge. cbn. rewrite Hf. cbn.
          pose proof (sent_alter h (len p) 0 _ ch (w_stats w) c (sent_forward h (len p))) as S.
          by destruct (bool_decide (c = ch)). }
        pose proof (sent_opt_trans _ _ _ _ _ _ _ _ S (Hc c)) as T. by destruct (bool_decide (c = ch)).
    + exists [], (p :: ps), (take (Nat.min k (pred (length (frame_of (event_data ch p))))) (frame_of (event_data ch p))).
      cbn [app fmap list_fmap concat]. split_and!; try done. intros c. rewrite total_nil.
      destruct (bool_decide (c = ch)); apply sent_opt_refl.
Qed.

(** ** Lemmas: a connection *)

(** The data the events carry on a channel, and the chunks taken from it. *)
Definition payload_on (c : string) (evs : list Event) : list byte :=
  concat ((fun ev => match kind ev with
                     | Envelope.Data bytes => if bool_decide (c = Envelope.channel ev) then bytes else []
                     | _ => [] end) <$> evs).
Definition bytes_on (c : string) (chunks : list (string * list byte)) : list byte :=
  concat ((fun x : string * list byte => if bool_decide (c = x.1) then x.2 else []) <$> chunks).

Lemma payload_on_app c evs1 evs2 : payload_on c (evs1 ++ evs2) = payload_on c evs1 ++ payload_on c evs2.
Proof. unfold payload_on. by rewrite fmap_app, concat_app. Qed.

Lemma bytes_on_cons c ch bytes chunks :
  bytes_on c ((ch, bytes) :: chunks) = (if bool_decide (c = ch) then bytes else []) ++ bytes_on c chunks.
Proof. done. Qed.

Lemma payload_on_data c ch pieces :
  payload_on c (event_data ch <$> pieces) = if bool_decide (c = ch) then concat pieces else [].
Proof.
  unfold payload_on. induction pieces as [|p ps IH]; cbn [fmap list_fmap concat]; [by destruct (bool_decide _)|].
  change (list_fmap _ _ ?f ?l) with (f <$> l) in *. rewrite IH. cbn. by destruct (bool_decide (c = ch)).
Qed.

Lemma total_concat (ps : list (list byte)) : total len ps = len (concat ps).
Proof. induction ps as [|p ps IH]; [done|]. rewrite total_cons, IH. cbn. by rewrite len_app. Qed.

Definition good_event (e : Event) : Prop := event_typed e /\ event_fits e.

(** What is still in custody on a channel. *)
Definition custody (c : string) (f : option InFlight) : Z :=
  match f with Some f => only (bool_decide (c = if_channel f)) (remaining f) | None => 0 end.

(** A run of the write loop from [w] to [w'] over the chunks [taken], with the events
    whose frames went out whole and the part of one that did not. *)
Record wrote (h : bool) (taken : list (string * list byte)) (evs : list Event) (part : list byte) (w w' : SendSide) : Prop := {
  wr_wire : w_wire w' = w_wire w ++ concat (frame_of <$> evs) ++ part;
  wr_part : frame_part part;
  wr_good : Forall good_event evs;
  wr_stats : forall c, exists l,
    sent_opt h (len (payload_on c evs)) l (w_stats w !! c) (w_stats w' !! c)
    /\ len (payload_on c evs) + l + custody c (in_flight w') = len (bytes_on c taken);
  wr_order : forall c, slen c <= MAX_NAME_LEN -> payload_on c evs `prefix_of` bytes_on c taken;
  wr_custody : match in_flight w' with Some f => 0 <= remaining f | None => part = [] end }.

Lemma send_chunk_spec h ch bytes outs w :
  is_str ch ->
  exists ended outs' w' evs part, send_chunk h ch bytes outs w = Ok (ended, outs', w')
    /\ wrote h [(ch, bytes)] evs part w w'
    /\ (if ended : bool then True else in_flight w' = None
         /\ forall c, slen c <= MAX_NAME_LEN -> payload_on c evs = bytes_on c [(ch, bytes)]).
Proof.
  intros Hs. unfold send_chunk. destruct (data_frames_spec ch bytes) as (pieces & tail & -> & Hc & Hall & Ht).
  rewrite bind_ok. set (w0 := set_in_flight _ _).
  assert (Hfit : Forall (fun p => event_fits (event_data ch p)) pieces) by (eapply Forall_impl; [exact Hall|]; by intros p [_ ?]).
  pose proof (write_items_spec h ch pieces tail outs w0 Hs Hfit) as W.
  destruct (write_items h ch (yields ch pieces tail) outs w0) as [[ended outs'] w'].
  destruct W as (dn & left & part & -> & Hw & Hp & He & Hst).
  { cbn. rewrite <- Hc, len_app, total_concat. done. }
  assert (Hst' : forall c, sent_opt h (len (payload_on c (event_data ch <$> dn)))
    (only (bool_decide (c = ch)) (if ended : bool then 0 else len tail)) (w_stats w !! c) (w_stats w' !! c)).
  { intros c. rewrite payload_on_data. pose proof (sent_alter h 0 0 _ ch (w_stats w) c (sent_active h true)) as S.
    specialize (Hst c). rewrite total_concat in Hst. pose proof (sent_opt_trans _ _ _ _ _ _ _ _ S Hst) as T.
    by destruct (bool_decide (c = ch)). }
  assert (Hgood : Forall good_event (event_data ch <$> dn)).
  { apply Forall_app in Hfit as [Hfit _]. apply Forall_fmap. eapply Forall_impl; [exact Hfit|]. intros p Hf. by split. }
  assert (Hb : forall c, bytes_on c [(ch, bytes)] = if bool_decide (c = ch) then bytes else []).
  { intros c. rewrite bytes_on_cons. cbn. by rewrite app_nil_r. }
  rewrite concat_app in Hc. eexists ended, outs', _, (event_data ch <$> dn), part. split; [done|]. split.
  - destruct ended.
    + split; [done|done|done| | |].
      * intros c. exists (only (bool_decide (c = ch)) 0). split; [apply Hst'|]. rewrite He, Hb, payload_on_data. cbn.
        destruct (bool_decide (c = ch)); [|done]. cbn. rewrite <- Hc, !len_app, total_concat. lia.
      * intros c _. rewrite Hb, payload_on_data. destruct (bool_decide (c = ch)); [|done].
        rewrite <- Hc, <- app_assoc. apply prefix_app_r. done.
      * rewrite He. cbn. pose proof (total_nonneg len left len_nonneg). pose proof (len_nonneg tail). lia.
    + destruct He as [-> ->]. split; [done|done|done| | |done].
      * intros c. eexists. split; [apply Hst'|]. rewrite Hb, payload_on_data. cbn.
        destruct (bool_decide (c = ch)); [|done]. cbn. rewrite <- Hc, !len_app. unfold len. cbn. lia.
      * intros c _. rewrite Hb, payload_on_data. destruct (bool_decide (c = ch)); [|done].
        rewrite <- Hc, <- app_assoc. apply prefix_app_r. done.
  - destruct ended; [done|]. split; [done|]. intros c Hlen. rewrite Hb, payload_on_data. destruct He as [-> _].
    case_bool_decide as E; [|done]. subst c. assert (tail = []) as ->.
    { destruct (decide (tail = [])) as [E|E]; [done|]. apply Ht in E. unfold MAX_NAME_LEN, MAX_FRAME_SIZE in *. lia. }
    by rewrite <- Hc, !app_nil_r.
Qed.

Lemma wrote_nil h w : in_flight w = None -> wrote h [] [] [] w w.
Proof.
  intros Hf. split; [by rewrite app_nil_r|apply frame_part_nil|done| |done|by rewrite Hf].
  intros c. exists 0. split; [apply sent_opt_refl|]. by rewrite Hf.
Qed.

Lemma wrote_cons h ch bytes taken evs1 evs2 part w w1 w2 :
  wrote h [(ch, bytes)] evs1 [] w w1 -> in_flight w1 = None ->
  (forall c, slen c <= MAX_NAME_LEN -> payload_on c evs1 = bytes_on c [(ch, bytes)]) ->
  wrote h taken evs2 part w1 w2 -> wrote h ((ch, bytes) :: taken) (evs1 ++ evs2) part w w2.
Proof.
  intros [A1 _ A3 A4 _ _] Hf Hall [B1 B2 B3 B4 B5 B6].
  assert (Hb : forall c, bytes_on c ((ch, bytes) :: taken) = bytes_on c [(ch, bytes)] ++ bytes_on c taken).
  { intros c. rewrite !bytes_on_cons. cbn. by rewrite app_nil_r. }
  split; [|done|by apply Forall_app| | |done].
  - rewrite B1, A1, fmap_app, concat_app, !app_nil_r, <- !app_assoc. done.
  - intros c. destruct (A4 c) as (l1 & S1 & E1). destruct (B4 c) as (l2 & S2 & E2). exists (l1 + l2).
    rewrite payload_on_app, Hb, !len_app. split; [by eapply sent_opt_trans|]. rewrite Hf in E1. change (custody c None) with 0 in E1. lia.
  - intros c Hc. rewrite payload_on_app, Hb, Hall by done. by apply prefix_app, B5.
Qed.

Lemma write_loop_spec h chunks outs w :
  Forall (fun c => is_str c.1) chunks -> in_flight w = None ->
  exists taken w' evs part, write_loop h chunks outs w = Ok (taken, w')
    /\ taken `prefix_of` chunks /\ wrote h taken evs part w w'.
Proof.
  intros Hall. revert outs w. induction Hall as [|[ch bytes] chunks Hs Hall IH]; intros outs w Hf; cbn [write_loop].
  - exists [], w, [], []. split_and!; [done|done|by apply wrote_nil].
  - destruct (send_chunk_spec h ch bytes outs w Hs) as (ended & outs' & w1 & evs1 & part1 & -> & W1 & He).
    rewrite bind_ok. destruct ended.
    + exists [(ch, bytes)], w1, evs1, part1. split_and!; [done| |done]. apply prefix_cons, prefix_nil.
    + destruct He as [Hf1 He]. assert (part1 = []) as -> by (pose proof (wr_custody _ _ _ _ _ _ W1) as K; by rewrite Hf1 in K).
      destruct (IH outs' w1 Hf1) as (taken & w2 & evs2 & part2 & -> & Hpre & W2). rewrite bind_ok.
      exists ((ch, bytes) :: taken), w2, (evs1 ++ evs2), part2. split_and!; [done|by apply prefix_cons|].
      by eapply wrote_cons.
Qed.

Lemma pump_end_spec w c h :
  match in_flight w with Some f => 0 <= remaining f | None => True end ->
  in_flight (pump_end w) = None /\ w_wire (pump_end w) = w_wire w
  /\ sent_opt h 0 (custody c (in_flight w)) (w_stats w !! c) (w_stats (pump_end w) !! c).
Proof.
  intros Hf. unfold pump_end. destruct (in_flight w) as [f|] eqn:E; [|by split_and!; [| |apply sent_opt_refl]].
  destruct (Z.ltb_spec 0 (remaining f)) as [Hp|Hp]; cbn; split_and!; try done.
  - pose proof (sent_alter h 0 _ _ (if_channel f) (w_stats w) c (sent_peer_gone h (remaining f))) as S.
    by destruct (bool_decide (c = if_channel f)).
  - replace (only _ _) with 0 by (destruct (bool_decide _); cbn; lia). apply sent_opt_refl.
Qed.

(** The counters of a channel after a connection whose peer decodes [evs]. *)
Definition channel_accounted (h : bool) (stats stats' : gmap string ChannelStat) (taken : list (string * list byte))
    (evs : list Event) (ch : string) : Prop :=
  match stats !! ch with
  | Some s => exists s', stats' !! ch = Some s'
      /\ forwarded h s' = forwarded h s + len (payload_on ch evs)
      /\ (forwarded h s' - forwarded h s) + (discarded_unframable s' - discarded_unframable s)
         + (discarded_peer_gone s' - discarded_peer_gone s) = len (bytes_on ch taken)
      /\ kept h s' = kept h s
  | None => stats' !! ch = None
  end.

Lemma send_connection_spec h chunks outs stats :
  Forall (fun c => is_str c.1) chunks ->
  exists taken w evs part, send_connection h chunks outs stats = Ok (taken, w)
    /\ taken `prefix_of` chunks /\ w_wire w = concat (frame_of <$> evs) ++ part /\ frame_part part
    /\ Forall good_event evs
    /\ forall ch, (slen ch <= MAX_NAME_LEN -> payload_on ch evs `prefix_of` bytes_on ch taken)
       /\ channel_accounted h stats (w_stats w) taken evs ch.
Proof.
  intros Hall. unfold send_connection.
  destruct (write_loop_spec h chunks outs (mkSendSide [] stats None) Hall eq_refl) as (taken & w & evs & part & -> & Hpre & W).
  rewrite bind_ok. destruct W as [W1 W2 W3 W4 W5 W6]. cbn in W1.
  assert (match in_flight w with Some f => 0 <= remaining f | None => True end) as Hc by (by destruct (in_flight w)).
  exists taken, (pump_end w), evs, part. split_and!; [done|done| |done|done|].
  - destruct (pump_end_spec w "" h Hc) as (_ & -> & _). done.
  - intros ch. split; [apply W5|]. destruct (W4 ch) as (l & S1 & E1). destruct (pump_end_spec w ch h Hc) as (_ & _ & S2).
    pose proof (sent_opt_trans _ _ _ _ _ _ _ _ S1 S2) as S. cbn [w_stats] in S. unfold sent_opt, channel_accounted in *.
    destruct (stats !! ch) as [s|], (w_stats (pump_end w) !! ch) as [s'|]; try done.
    exists s'. destruct S as (A1 & A2 & A3). unfold losses in A2. split_and!; [done|lia|lia|done].
Qed.

(** ** Theorems: a connection *)

(** C24: A link loses nothing unseen. However the sending half of a connection ends, each byte
    of every chunk it took from its queues is on exactly one counter of its channel
    (forwarded, unframable, or gone with the peer). A peer that receives the whole stream, cut
    in any way, completes the handshake and then decodes, for each channel, exactly as
    many bytes as the sender's forwarded counter says; and for a legal channel name they are
    the beginning of what was taken, in order. *)
Theorem link_accounts {E} h ca cb chunks outs stats (shb : LegShared E) :
  Forall is_str ca -> (encode_hello (our_hello ca) []).1 = Ok tt -> (encode_hello (our_hello cb) []).1 = Ok tt ->
  Forall (fun c => is_str c.1) chunks ->
  exists taken w, send_connection h chunks outs stats = Ok (taken, w) /\ taken `prefix_of` chunks
    /\ forall reads, Forall (.≠ []) reads -> concat reads = (encode_hello (our_hello ca) []).2 ++ w_wire w ->
       exists leftover unread shb' evs d,
         handshake cb true (inr <$> reads) shb
           = ((encode_hello (our_hello cb) []).2, HsDone (our_hello ca) leftover (inr <$> unread), shb')
         /\ read_stream (leftover :: unread) decoder_new = Some (evs, NeedMore, d)
         /\ forall ch, (slen ch <= MAX_NAME_LEN -> payload_on ch evs `prefix_of` bytes_on ch taken)
            /\ channel_accounted h stats (w_stats w) taken evs ch.
Proof.
  intros Hca Ha Hb Hall. destruct (send_connection_spec h chunks outs stats Hall)
    as (taken & w & evs & part & -> & Hpre & Hw & (e & q & Ht & Hf & He & Hq) & Hgood & Hch).
  exists taken, w. split_and!; [done..|]. intros reads Hr Hc.
  destruct (our_hello_encoded ca (encode_hello (our_hello ca) []).2) as [Fa La]; [rewrite <- Ha; apply surjective_pairing|].
  rewrite Fa in Hc. destruct (hello_loop_exact (IoError := E) (our_hello ca) (w_wire w) reads []
    (our_hello_typed ca Hca) La eq_refl Hr Hc) as (leftover & unread & Hl & Hrest).
  destruct (read_stream_partial evs e part q (leftover :: unread) decoder_new) as (d & Hd & _); [|done..| |done|].
  - apply Forall_app. split; [done|]. by constructor.
  - cbn. by rewrite Hrest, Hw.
  - eexists leftover, unread, _, evs, d. split_and!; [|done|done]. unfold handshake.
    destruct (encode_hello (our_hello cb) []) as [r f]. cbn in Hb. subst r. cbn [negb fst snd]. rewrite Hl. done.
Qed.

(** A chunk in the hands of the read half when the write half ends the connection
    is on no counter: while [route_recv] is suspended it has the chunk, and neither the queue nor
    any byte counter has moved; [pump] drops it there, and [clear_connection_state] counts
    nothing. *)
Theorem suspended_chunk_uncounted {E} {C : Type -> Type} `{MpscLaws C} `{Eng : Pattern.Engine}
    ev sent (r : LegRun (IoError := E) (C := C)) :
  (route_recv ev sent r).1 = false ->
  (exists bytes, kind ev = Envelope.Data bytes)
  /\ let r' := (route_recv ev sent r).2 in
     r_route r' = r_route r
     /\ forall ch s', (clear_connection_state (r_stats r') (r_shared r')).1 !! ch = Some s' ->
        exists s, r_stats r !! ch = Some s /\ hostward s' = hostward s /\ targetward s' = targetward s.
Proof.
  unfold route_recv. destruct (kind ev) as [bytes| | |m]; try done. cbn [r_route put_stats].
  destruct (r_route r) as [sinks feeds|txs] eqn:Er.
  { destruct (sinks !! _); [|done]. by destruct (route_channel_data _ _ _ _ _) as [[? ?] ?]. }
  destruct (txs !! _) as [tx|]; [|done]. destruct (try_send _ _) as [[] tx']; cbn; try done. intros _.
  split; [by eexists|]. split; [done|]. intros ch s'. rewrite lookup_fmap.
  destruct (decide (ch = Envelope.channel ev)) as [->|Hne].
  - rewrite lookup_alter_eq. destruct (r_stats r !! _) as [s|]; [|done]. cbn. intros [= <-]. by exists s.
  - rewrite lookup_alter_ne by done. destruct (r_stats r !! _) as [s|]; [|done]. cbn. intros [= <-]. by exists s.
Qed.

(** ** Lemmas: the round *)

Section rounds.
Context {C : Type -> Type} `{MpscLaws C}.
Implicit Types (r : SendReceiver (C := C)) (rs : list (SendReceiver (C := C))).

Definition waiting (r : SendReceiver) : list (list byte) :=
  match slot (sr_inbox r) with Some rx => contents rx | None => [] end.

(** A source [next_send] can serve now. *)
Definition ready (stats : gmap string ChannelStat) (r : SendReceiver) : bool :=
  is_bound stats (sr_ch r) && negb (bool_decide (waiting r = [])).

(** [r] after its oldest chunk was taken. *)
Definition popped (r r' : SendReceiver) (v : list byte) : Prop :=
  sr_ch r' = sr_ch r /\ waiting r = v :: waiting r'.

Lemma poll_recv_waiting senders (i : TargetwardInbox C (list byte)) ch :
  match waiting (mkSendReceiver ch i) with
  | [] => exists p, poll_recv senders i = (p, i) /\ (p = Pending \/ p = Ready None)
  | v :: q => exists i', poll_recv senders i = (Ready (Some v), i') /\ waiting (mkSendReceiver ch i') = q
  end.
Proof.
  unfold waiting, poll_recv. cbn. destruct i as [[rx|] h]; cbn; [|by eexists; eauto].
  pose proof (try_recv_spec _ rx) as R. destruct (contents rx) as [|v q].
  - rewrite R. destruct senders; eexists; split; eauto.
  - destruct (try_recv rx) as [o rx']. cbn in R. destruct R as (-> & Hq & _). by eexists.
Qed.

(** The loop serves the first ready source it visits, and touches no other. *)
Lemma poll_order_spec senders stats n idx all_closed start rs :
  Forall (fun i => (i < length rs)%nat) idx ->
  match find_first (fun i => match rs !! i with Some r => ready stats r | None => false end) idx with
  | Some i => exists r r' v, rs !! i = Some r /\ popped r r' v
      /\ poll_order senders stats n idx all_closed start rs = (Ready (Some (sr_ch r, v)), ((i + 1) mod n)%nat, <[i := r']> rs)
  | None => exists p, poll_order senders stats n idx all_closed start rs = (p, start, rs) /\ (p = Pending \/ p = Ready None)
  end.
Proof.
  intros Hall. revert all_closed. induction Hall as [|i idx Hi Hall IH]; intros all_closed; cbn [find_first poll_order].
  { exists (if all_closed then Ready None else Pending). split; [done|]. destruct all_closed; auto. }
  destruct (lookup_lt_is_Some_2 rs i Hi) as [r Er]. rewrite Er. unfold ready at 1.
  destruct (is_bound stats (sr_ch r)) eqn:Eb; cbn [negb andb]; [|apply IH].
  pose proof (poll_recv_waiting (senders i) (sr_inbox r) (sr_ch r)) as P.
  replace (mkSendReceiver (sr_ch r) (sr_inbox r)) with r in P by (by destruct r).
  assert (Hput : <[i := put_inbox (sr_inbox r) r]> rs = rs) by (apply list_insert_id; rewrite Er; by destruct r).
  destruct (waiting r) as [|v q] eqn:Ew.
  - rewrite bool_decide_true by done. cbn [negb]. destruct P as (p & -> & [-> | ->]); rewrite Hput; apply IH.
  - rewrite bool_decide_false by done. cbn [negb]. destruct P as (i' & -> & Hq).
    exists r, (put_inbox i' r), v. split_and!; [done| |done]. split; [done|]. rewrite Ew. f_equal. by rewrite <- Hq.
Qed.

(** What the theorems see of the sources: channel and queue. *)
Definition view (rs : list SendReceiver) : list (string * list (list byte)) := (fun r => (sr_ch r, waiting r)) <$> rs.
Definition ready_at (stats : gmap string ChannelStat) (v : list (string * list (list byte))) (i : nat) : bool :=
  match v !! i with Some (ch, q) => is_bound stats ch && negb (bool_decide (q = [])) | None => false end.

Lemma ready_view stats rs i :
  match rs !! i with Some r => ready stats r | None => false end = ready_at stats (view rs) i.
Proof. unfold ready_at, view. rewrite list_lookup_fmap. by destruct (rs !! i). Qed.

Lemma view_settled rs : view ((fun r => put_inbox (settle_held (sr_inbox r)) r) <$> rs) = view rs.
Proof. unfold view. rewrite <- list_fmap_compose. by apply list_fmap_ext. Qed.

Lemma rotation_bound start n : (0 < n)%nat -> Forall (fun i => (i < n)%nat) (rotation start n).
Proof. intros Hn. apply Forall_fmap, Forall_true. intros k. apply Nat.mod_upper_bound. lia. Qed.

Lemma next_send_spec senders stats start rs :
  rs <> [] ->
  match find_first (ready_at stats (view rs)) (rotation start (length rs)) with
  | Some i => exists ch v q rs', view rs !! i = Some (ch, v :: q)
      /\ next_send senders stats start rs = (Ready (Some (ch, v)), ((i + 1) mod length rs)%nat, rs')
      /\ view rs' = <[i := (ch, q)]> (view rs)
  | None => exists p rs', next_send senders stats start rs = (p, start, rs') /\ (p = Pending \/ p = Ready None)
      /\ view rs' = view rs
  end.
Proof.
  intros Hne. assert (0 < length rs)%nat as Hn by (destruct rs; [done|cbn; lia]).
  unfold next_send. rewrite (proj2 (Nat.eqb_neq _ _)) by lia.
  set (rs0 := _ <$> rs) at 1. assert (Hv : view rs0 = view rs) by apply view_settled.
  assert (Hl : length rs0 = length rs) by apply length_fmap.
  pose proof (poll_order_spec senders stats (length rs) (rotation start (length rs)) true start rs0) as P.
  rewrite Hl in P. specialize (P (rotation_bound start _ Hn)).
  replace (find_first _ (rotation start (length rs))) with (find_first (ready_at stats (view rs)) (rotation start (length rs))) in P.
  2: { rewrite <- Hv. generalize (rotation start (length rs)). intros l. induction l as [|i l IH]; [done|]. cbn.
       by rewrite IH, ready_view. }
  destruct (find_first _ _) as [i|].
  - destruct P as (r & r' & v & Er & [Hch Hw] & E). exists (sr_ch r), v, (waiting r'), (<[i:=r']> rs0).
    split_and!; [|exact E|].
    + rewrite <- Hv. unfold view. rewrite list_lookup_fmap, Er. cbn. by rewrite Hw.
    + rewrite <- Hv. unfold view. rewrite list_fmap_insert. by rewrite Hch.
  - destruct P as (p & E & Hp). by exists p, rs0.
Qed.

(** Senders may push between two calls. *)
Definition push_to (x : nat * list byte) (rs : list SendReceiver) : list SendReceiver :=
  alter (fun r => match slot (sr_inbox r) with
                  | Some rx => put_inbox (mkInbox (Some (try_send rx x.2).2) (held (sr_inbox r))) r
                  | None => r end) x.1 rs.

(** Calls of [next_send] with pushes before each. *)
Fixpoint serve (senders : nat -> bool) (stats : gmap string ChannelStat) (envs : list (list (nat * list byte)))
    (start : nat) (rs : list SendReceiver) : list (Poll (string * list byte)) :=
  match envs with
  | [] => []
  | env :: envs =>
      let rs := foldl (fun rs x => push_to x rs) rs env in
      let '(p, start, rs) := next_send senders stats start rs in
      p :: serve senders stats envs start rs
  end.

(** Source [i] has the chunk [v] at its head. *)
Definition heads (stats : gmap string ChannelStat) (i : nat) (ch : string) (v : list byte) (rs : list SendReceiver) : Prop :=
  is_bound stats ch = true /\ exists q, view rs !! i = Some (ch, v :: q).

Lemma heads_ready stats i ch v rs : heads stats i ch v rs -> ready_at stats (view rs) i = true.
Proof. intros [Hb [q Hq]]. unfold ready_at. by rewrite Hq, Hb. Qed.

Lemma heads_push stats i ch v x rs :
  heads stats i ch v rs -> heads stats i ch v (push_to x rs) /\ length (push_to x rs) = length rs.
Proof.
  intros [Hb [q Hq]]. unfold push_to. split; [|by rewrite length_alter]. split; [done|].
  unfold view in *. rewrite list_lookup_fmap in *. destruct (decide (i = x.1)) as [->|Hne].
  - rewrite list_lookup_alter_eq. destruct (rs !! x.1) as [r|]; [|done]. cbn in *. injection Hq as <- Hq.
    destruct (slot (sr_inbox r)) as [rx|] eqn:Es; [|by exists q; rewrite Hq].
    unfold waiting in *. cbn. rewrite Es in Hq. pose proof (try_send_spec _ rx x.2) as S.
    destruct (try_send rx x.2) as [[] rx']; cbn.
    + destruct S as (_ & _ & -> & _). rewrite Hq. by exists (q ++ [x.2]).
    + destruct S as [_ ->]. exists q. by rewrite Hq.
    + destruct S as [_ ->]. exists q. by rewrite Hq.
  - rewrite list_lookup_alter_ne by done. by exists q.
Qed.

Lemma heads_pushes stats i ch v env rs :
  heads stats i ch v rs ->
  let rs' := foldl (fun rs x => push_to x rs) rs env in heads stats i ch v rs' /\ length rs' = length rs.
Proof.
  revert rs. induction env as [|x env IH]; intros rs Hh; cbn [foldl]; [done|].
  destruct (heads_push stats i ch v x rs Hh) as [Hh' Hl]. destruct (IH _ Hh') as [H1 H2]. cbv zeta. split; [done|congruence].
Qed.

Lemma find_first_seq (P : nat -> bool) (f : nat -> nat) m n d :
  P (f d) = true -> (m <= d < m + n)%nat ->
  exists k, (m <= k <= d)%nat /\ find_first P (f <$> seq m n) = Some (f k).
Proof.
  revert m. induction n as [|n IH]; intros m Hd Hm; [lia|]. cbn [seq fmap list_fmap find_first].
  destruct (P (f m)) eqn:E; [exists m; split; [lia|done]|].
  destruct (decide (m = d)) as [->|]; [congruence|]. destruct (IH (S m) Hd) as (k & Hk & Hf); [lia|].
  exists k. split; [lia|exact Hf].
Qed.

Lemma rotation_step (start k d n : nat) :
  (0 < n)%nat -> (k < d)%nat -> ((((start + k) mod n + 1) mod n + (d - k - 1)) mod n = (start + d) mod n)%nat.
Proof.
  intros Hn Hk. rewrite Nat.Div0.add_mod_idemp_l, <- Nat.add_assoc, Nat.Div0.add_mod_idemp_l. f_equal. lia.
Qed.

Lemma serve_within senders stats envs start rs i ch v d :
  heads stats i ch v rs -> (d < length rs)%nat -> ((start + d) mod length rs = i)%nat -> (d < length envs)%nat ->
  exists k, (k <= d)%nat /\ serve senders stats envs start rs !! k = Some (Ready (Some (ch, v))).
Proof.
  revert start rs d. induction envs as [|env envs IH]; intros start rs d Hh Hd Hi Hn; [cbn in Hn; lia|]. cbn [serve].
  destruct (heads_pushes stats i ch v env rs Hh) as [Hh1 Hl1]. set (rs1 := foldl _ rs env) in *.
  assert (rs1 <> []) as Hne by (intros E; rewrite E in Hl1; cbn in Hl1; lia).
  pose proof (next_send_spec senders stats start rs1 Hne) as S.
  destruct (find_first_seq (ready_at stats (view rs1)) (fun k => ((start + k) mod length rs1)%nat) 0 (length rs1) d)
    as (k & Hk & Hf); [rewrite Hl1, Hi; by eapply heads_ready|lia|].
  unfold rotation in S. rewrite Hf in S. destruct S as (ch' & v' & q & rs2 & Hj & -> & Hv2).
  assert (Hl2 : length rs2 = length rs).
  { apply (f_equal length) in Hv2. unfold view in Hv2. rewrite length_insert, !length_fmap in Hv2. lia. }
  destruct (decide (((start + k) mod length rs1)%nat = i)) as [Ej|Hji].
  - exists O. split; [lia|]. destruct Hh1 as [_ [q1 Hq1]]. rewrite Ej, Hq1 in Hj. by injection Hj as <- <- _.
  - assert (k <> d) as Hkd by (intros ->; by rewrite Hl1, Hi in Hji).
    destruct (IH (((start + k) mod length rs1 + 1) mod length rs1)%nat rs2 (d - k - 1)%nat) as (k' & Hk' & Hs).
    + destruct Hh1 as [Hb [q1 Hq1]]. split; [done|]. exists q1. by rewrite Hv2, list_lookup_insert_ne.
    + lia.
    + rewrite Hl2, Hl1, rotation_step by lia. done.
    + cbn in Hn. lia.
    + exists (S k'). split; [lia|done].
Qed.

(** ** Theorems: the round *)

(** What [next_send] answers. It serves the first channel, in the order of the round, that is
    bound and has a chunk: that channel's oldest chunk leaves its queue, the next round starts
    behind it, and no other queue moves; with no such channel every queue is as it was. *)
Theorem next_send_exact senders stats start rs :
  rs <> [] ->
  match find_first (ready_at stats (view rs)) (rotation start (length rs)) with
  | Some i => exists ch v q, view rs !! i = Some (ch, v :: q)
      /\ (next_send senders stats start rs).1 = (Ready (Some (ch, v)), ((i + 1) mod length rs)%nat)
      /\ view (next_send senders stats start rs).2 = <[i := (ch, q)]> (view rs)
  | None => (forall x, (next_send senders stats start rs).1.1 <> Ready (Some x))
      /\ view (next_send senders stats start rs).2 = view rs
  end.
Proof.
  intros Hne. pose proof (next_send_spec senders stats start rs Hne) as S. destruct (find_first _ _) as [i|].
  - destruct S as (ch & v & q & rs' & Hi & -> & Hv). by exists ch, v, q.
  - destruct S as (p & rs' & -> & [-> | ->] & Hv); done.
Qed.

(** No channel starves. A bound channel with a chunk waiting is served by one of the next
    [n] calls of [next_send], [n] being the number of channels, wherever the round starts and
    whatever is queued meanwhile on it or on the others. *)
Theorem round_serves_all senders stats envs start rs i ch v q :
  (start < length rs)%nat -> is_bound stats ch = true -> view rs !! i = Some (ch, v :: q) ->
  (length rs <= length envs)%nat ->
  exists k, (k < length rs)%nat /\ serve senders stats envs start rs !! k = Some (Ready (Some (ch, v))).
Proof.
  intros Hs Hb Hi Hn. assert (i < length rs)%nat as Hlt.
  { apply lookup_lt_Some in Hi. unfold view in Hi. by rewrite length_fmap in Hi. }
  set (d := ((i + length rs - start) mod length rs)%nat).
  assert (d < length rs)%nat as Hd by (apply Nat.mod_upper_bound; lia).
  destruct (serve_within senders stats envs start rs i ch v d) as (k & Hk & Hsv).
  - split; [done|by exists q].
  - done.
  - unfold d. rewrite Nat.Div0.add_mod_idemp_r. replace (start + (i + length rs - start))%nat with (i + 1 * length rs)%nat by lia.
    rewrite Nat.Div0.mod_add. by apply Nat.mod_small.
  - lia.
  - exists k. split; [lia|done].
Qed.
End rounds.

(** ** Witnesses *)

Definition demo_sends : list (string * list byte) := [("a", [x61; x62]); ("b", [x63]); ("a", [x64])]%string.

(** The connection dies four bytes into the frame of the third chunk. *)
Definition demo_outs : list Wrote := [WAll; WAll; WCut 4].

Lemma link_accounts_witness :
  exists taken w, send_connection false demo_sends demo_outs (demo_stats ["a"; "b"]) = Ok (taken, w)
    /\ discarded_peer_gone <$> w_stats w !! "a"%string = Some 1
    /\ accepted_targetward <$> w_stats w !! "a"%string = Some 2
    /\ exists leftover unread shb' evs d,
         handshake ["b"] true (inr <$> thirds (hello_bytes ["a"; "b"] ++ w_wire w)) demo_shared
           = (hello_bytes ["b"], HsDone (our_hello ["a"; "b"]) leftover (inr <$> unread), shb')
         /\ read_stream (leftover :: unread) decoder_new = Some (evs, NeedMore, d)
         /\ channel_accounted false (demo_stats ["a"; "b"]) (w_stats w) taken evs "a".
Proof.
  destruct (link_accounts false ["a"; "b"] ["b"] demo_sends demo_outs (demo_stats ["a"; "b"]) demo_shared)
    as (taken & w & E & _ & H).
  1: repeat constructor.
  1-2: reflexivity.
  1: repeat constructor.
  exists taken, w. split; [exact E|]. vm_compute in E. injection E as <- <-.
  split; [vm_compute; reflexivity|]. split; [vm_compute; reflexivity|].
  match type of H with
  | context [concat _ = _ ++ w_wire ?w] =>
      destruct (H (thirds (hello_bytes ["a"; "b"] ++ w_wire w))) as (leftover & unread & shb' & evs & d & H1 & H2 & H3)
  end.
  - repeat constructor; discriminate.
  - vm_compute. reflexivity.
  - exists leftover, unread, shb', evs, d. split; [exact H1|]. split; [exact H2|]. exact (proj2 (H3 "a"%string)).
Defined.

(** A target-facing leg whose one-slot queue is full. *)
Definition demo_full : LegRun (IoError := string) (C := Bounded) (Eng := Pattern.literal_engine) :=
  (route_recv (event_data "a" [x61]) true (mkRun (RTarget {["a"%string := channel 1]}) (demo_stats ["a"]) demo_shared)).2.

Lemma suspended_chunk_uncounted_witness :
  r_route (route_recv (event_data "a" [x62]) true demo_full).2 = r_route demo_full
  /\ exists s, (clear_connection_state (r_stats (route_recv (event_data "a" [x62]) true demo_full).2) demo_shared).1 !! "a"%string = Some s
       /\ hostward s = 0 /\ targetward s = (0, 0, 0, 0, 0).
Proof.
  destruct (suspended_chunk_uncounted (event_data "a" [x62]) true demo_full) as (_ & H1 & H2); [vm_compute; reflexivity|].
  split; [exact H1|]. eexists. split; [vm_compute; reflexivity|]. split; vm_compute; reflexivity.
Defined.

Definition demo_source (ch : string) (chunks : list (list byte)) : SendReceiver (C := Bounded) :=
  mkSendReceiver ch (mkInbox (Some (mkBounded 4 chunks true)) 0).
Definition demo_sources : list SendReceiver := [demo_source "a" [[x61]; [x62]]; demo_source "b" []; demo_source "c" [[x63]]]%string.
Definition all_bound : gmap string ChannelStat := set_bound true <$> demo_stats ["a"; "b"; "c"]%string.

Lemma next_send_exact_witness :
  (next_send (fun _ => true) all_bound 1 demo_sources).1 = (Ready (Some ("c", [x63])), 0%nat)%string
  /\ view (next_send (fun _ => true) all_bound 1 demo_sources).2 = [("a", [[x61]; [x62]]); ("b", []); ("c", [])]%string.
Proof.
  pose proof (next_send_exact (fun _ => true) all_bound 1 demo_sources ltac:(discriminate)) as S.
  vm_compute in S |- *. destruct S as (ch & v & q & S1 & S2 & S3). injection S1 as <- <- <-. by split.
Defined.

Lemma round_serves_all_witness :
  exists k, (k < 3)%nat /\ serve (fun _ => true) all_bound [[(1%nat, [x7a])]; []; []] 0 demo_sources !! k = Some (Ready (Some ("c", [x63])))%string.
Proof.
  apply (round_serves_all (fun _ => true) all_bound [[(1%nat, [x7a])]; []; []] 0 demo_sources 2 "c" [x63] []);
    [cbn; lia|vm_compute; reflexivity|vm_compute; reflexivity|cbn; lia].
Defined.
