(* ===== verification/LegTask.v ===== *)
(** * The leg's per-channel writer (daemon/src/nodes/leg.rs, [channel_targetward])

    One task per channel of a target-facing leg hands wire-arriving chunks to the
    local graph under the leg's on-demand write lock.  A state is the task at one of its
    awaits, with everything that acts on it: the pump that queues chunks, the
    supervisor that drops the connection, and edge surgery.  Between two awaits the task
    runs alone.  What the lock and the local queue answer, and which ready arm of a
    [select!] wins, are operations of the environment. *)

From S2P Require Import Prelude GraphTypes Envelope Channel Inbox FanOut Identity Leg.
#[local] Open Scope Z_scope.

Abbreviation OriginId := N (only parsing).

(** The awaits.  [pulsed]: the [Notified] the task polls was notified. *)
Inductive TaskPhase :=
| PDrain                                              (* [rx.recv()] with no edge *)
| PRecv (id : OriginId)                               (* [rx.recv()] without the floor *)
| PHold (id : OriginId) (pulsed : bool)               (* [select!] of recv, idle and disconnect *)
| PAcquire (id : OriginId) (item : Inbound)           (* [ensure_acquired] *)
| PWrite (id : OriginId) (item : Inbound) (pulsed : bool) (begun : Z)  (* the local write; [begun]: the epoch it began in *)
| PDone.

(** [t_edge] is the live binding, [t_epoch] [disconnect_epoch].  The last three fields are
    histories: chunks queued by the pump, chunks the local queue took with the epoch their write
    began in, chunks purged with the epoch they were purged in. *)
Record ChanTask := mkChanTask {
  t_phase : TaskPhase; t_holding : option OriginId; t_queue : list Inbound; t_open : bool;
  t_edge : option OriginId; t_epoch : Z; t_purging : bool; t_stat : ChannelStat;
  t_last : Z; t_released : list OriginId;
  t_sent : list Inbound; t_written : list (Inbound * Z); t_stale : list (Inbound * Z) }.

Definition with_phase (p : TaskPhase) (t : ChanTask) : ChanTask :=
  mkChanTask p (t_holding t) (t_queue t) (t_open t) (t_edge t) (t_epoch t) (t_purging t) (t_stat t) (t_last t)
    (t_released t) (t_sent t) (t_written t) (t_stale t).
Definition with_holding (h : option OriginId) (t : ChanTask) : ChanTask :=
  mkChanTask (t_phase t) h (t_queue t) (t_open t) (t_edge t) (t_epoch t) (t_purging t) (t_stat t) (t_last t)
    (t_released t) (t_sent t) (t_written t) (t_stale t).
Definition with_queue (q : list Inbound) (t : ChanTask) : ChanTask :=
  mkChanTask (t_phase t) (t_holding t) q (t_open t) (t_edge t) (t_epoch t) (t_purging t) (t_stat t) (t_last t)
    (t_released t) (t_sent t) (t_written t) (t_stale t).
Definition count_discarded (n : Z) (t : ChanTask) : ChanTask :=
  mkChanTask (t_phase t) (t_holding t) (t_queue t) (t_open t) (t_edge t) (t_epoch t) (t_purging t)
    (on_discarded_targetward (Z.add n) (t_stat t)) (t_last t) (t_released t) (t_sent t) (t_written t) (t_stale t).
Definition count_purged (i : Inbound) (t : ChanTask) : ChanTask :=
  mkChanTask (t_phase t) (t_holding t) (t_queue t) (t_open t) (t_edge t) (t_epoch t) (t_purging t)
    (on_purged_on_reconnect (Z.add (len (in_bytes i))) (t_stat t)) (t_last t) (t_released t) (t_sent t) (t_written t)
    (t_stale t ++ [(i, t_epoch t)]).
Definition count_accepted (i : Inbound) (begun : Z) (t : ChanTask) : ChanTask :=
  mkChanTask (t_phase t) (t_holding t) (t_queue t) (t_open t) (t_edge t) (t_epoch t) (t_purging t)
    (on_accepted_targetward (Z.add (len (in_bytes i))) (t_stat t)) (in_epoch i) (t_released t) (t_sent t)
    (t_written t ++ [(i, begun)]) (t_stale t).

(** [release(&lock, id)]. *)
Definition yield_floor (id : OriginId) (t : ChanTask) : ChanTask :=
  mkChanTask (t_phase t) None (t_queue t) (t_open t) (t_edge t) (t_epoch t) (t_purging t) (t_stat t) (t_last t)
    (t_released t ++ [id]) (t_sent t) (t_written t) (t_stale t).

(** [if let Some((old_lock, old_id)) = holding.take() { release(..) }]. *)
Definition yield_held (t : ChanTask) : ChanTask :=
  match t_holding t with Some id => yield_floor id t | None => t end.

(** The top of the loop: re-read the edge, run to the next await. *)
Definition loop_top (t : ChanTask) : ChanTask :=
  let t := match t_edge t, t_holding t with
           | Some new_id, Some old_id => if bool_decide (new_id <> old_id) then yield_floor old_id t else t
           | None, Some old_id => yield_floor old_id t
           | _, _ => t
           end in
  match t_edge t with
  | None => with_phase PDrain t
  | Some id => with_phase (if t_holding t is Some _ then PHold id false else PRecv id) t
  end.

(** [rx.recv()] answered [i]. *)
Definition on_item (id : OriginId) (i : Inbound) (t : ChanTask) : ChanTask :=
  if t_purging t && negb (t_epoch t =? in_epoch i) then loop_top (yield_held (count_purged i t))
  else with_phase (PAcquire id i) t.

(** [rx.recv()] answered [None]: the loop ends. *)
Definition on_end (t : ChanTask) : ChanTask := with_phase PDone (yield_held t).

Definition on_acquired (granted : bool) (id : OriginId) (i : Inbound) (t : ChanTask) : ChanTask :=
  if negb granted then loop_top (with_holding None (count_discarded (len (in_bytes i)) t))
  else
    let t := with_holding (Some id) t in
    if t_purging t && negb (t_epoch t =? in_epoch i) then loop_top (yield_floor id (count_purged i t))
    else with_phase (PWrite id i false (t_epoch t)) t.

Definition on_sent (ok : bool) (id : OriginId) (i : Inbound) (begun : Z) (t : ChanTask) : ChanTask :=
  if ok then
    let t := count_accepted i begun t in
    loop_top (if t_epoch t =? in_epoch i then t else yield_floor id t)
  else loop_top (yield_floor id (count_discarded (len (in_bytes i)) t)).

(** ** Steps *)

Inductive TaskOp :=
| TQueue (bytes : list byte)     (* the pump's send: tagged with the live epoch *)
| TDisconnect                    (* [clear_connection_state] *)
| TEdge (e : option OriginId)    (* edge surgery *)
| TClose                         (* the pump's senders are gone *)
| TRecv | TIdle | TPulse         (* the arms of the waits *)
| TLock (granted : bool)         (* [ensure_acquired] answers *)
| TSent (ok : bool).             (* the local send answers *)

Definition pulse (p : TaskPhase) : TaskPhase :=
  match p with PHold id _ => PHold id true | PWrite id i _ b => PWrite id i true b | _ => p end.

Definition take_item (t : ChanTask) : option (option Inbound * ChanTask) :=
  match t_queue t with
  | i :: q => Some (Some i, with_queue q t)
  | [] => if t_open t then None else Some (None, t)
  end.

(** [None]: the operation is not possible now. *)
Definition task_step (op : TaskOp) (t : ChanTask) : option ChanTask :=
  match op with
  | TQueue bytes =>
      if t_open t then
        let i := mkInbound (t_epoch t) bytes in
        Some (mkChanTask (t_phase t) (t_holding t) (t_queue t ++ [i]) true (t_edge t) (t_epoch t) (t_purging t) (t_stat t)
                (t_last t) (t_released t) (t_sent t ++ [i]) (t_written t) (t_stale t))
      else None
  | TDisconnect =>
      Some (mkChanTask (pulse (t_phase t)) (t_holding t) (t_queue t) (t_open t) (t_edge t) (t_epoch t + 1) (t_purging t)
              (t_stat t) (t_last t) (t_released t) (t_sent t) (t_written t) (t_stale t))
  | TEdge e =>
      Some (mkChanTask (t_phase t) (t_holding t) (t_queue t) (t_open t) e (t_epoch t) (t_purging t) (t_stat t) (t_last t)
              (t_released t) (t_sent t) (t_written t) (t_stale t))
  | TClose =>
      Some (mkChanTask (t_phase t) (t_holding t) (t_queue t) false (t_edge t) (t_epoch t) (t_purging t) (t_stat t) (t_last t)
              (t_released t) (t_sent t) (t_written t) (t_stale t))
  | TRecv =>
      match t_phase t with
      | PDrain =>
          '(o, t) ← take_item t;
          Some match o with
               | Some i => loop_top (count_discarded (len (in_bytes i)) t)
               | None => on_end t
               end
      | PRecv id | PHold id _ =>
          '(o, t) ← take_item t;
          Some match o with Some i => on_item id i t | None => on_end t end
      | _ => None
      end
  | TIdle => match t_phase t with PHold id _ => Some (loop_top (yield_floor id t)) | _ => None end
  | TPulse =>
      match t_phase t with
      | PHold id true => Some (loop_top (yield_floor id t))
      | PWrite id i true _ => if t_purging t then Some (loop_top (yield_floor id (count_purged i t))) else None
      | _ => None
      end
  | TLock granted => match t_phase t with PAcquire id i => Some (on_acquired granted id i t) | _ => None end
  | TSent ok => match t_phase t with PWrite id i _ begun => Some (on_sent ok id i begun t) | _ => None end
  end.

Fixpoint task_run (ops : list TaskOp) (t : ChanTask) : option ChanTask :=
  match ops with
  | [] => Some t
  | op :: ops => t ← task_step op t; task_run ops t
  end.

(** The spawned task at its first await. *)
Definition task_new (purging : bool) (edge : option OriginId) : ChanTask :=
  loop_top (mkChanTask PDone None [] true edge 0 purging stat_default 0 [] [] [] []).

Definition task_reachable (t : ChanTask) : Prop := exists purging edge ops, task_run ops (task_new purging edge) = Some t.

(** ** The invariant *)

Definition in_hand (t : ChanTask) : list Inbound :=
  match t_phase t with PAcquire _ i | PWrite _ i _ _ => [i] | _ => [] end.

Abbreviation weight := (fun i => len (in_bytes i)) (only parsing).

(** What the counters account for. *)
Definition disposed (s : ChannelStat) : Z := accepted_targetward s + purged_on_reconnect s + discarded_targetward s.

Record body_ok (hand : list Inbound) (t : ChanTask) : Prop := {
  bo_bytes : total weight (t_sent t) = disposed (t_stat t) + total weight hand + total weight (t_queue t);
  bo_order : (t_written t).*1 ++ hand ++ t_queue t `sublist_of` t_sent t;
  bo_epochs : Forall (fun i => in_epoch i <= t_epoch t) (hand ++ t_queue t);
  bo_written : Forall (fun x => t_purging t = true -> in_epoch x.1 = x.2) (t_written t);
  bo_stale : Forall (fun x => t_purging t = true /\ in_epoch x.1 < x.2) (t_stale t) }.

Definition phase_ok (t : ChanTask) : Prop :=
  match t_phase t with
  | PDrain | PRecv _ | PDone => t_holding t = None
  | PHold id pulsed => t_holding t = Some id /\ (pulsed = false -> t_last t = t_epoch t)
  | PAcquire id _ => t_holding t = None \/ t_holding t = Some id
  | PWrite id i pulsed begun =>
      t_holding t = Some id /\ begun <= t_epoch t /\ (pulsed = true -> begun < t_epoch t)
      /\ (t_purging t = true -> in_epoch i = begun)
  end.

Definition task_ok (t : ChanTask) : Prop := body_ok (in_hand t) t /\ phase_ok t.

(** Changes of the phase, the holding and the releases do not matter to the body. *)
Lemma body_frame hand t t' :
  t_queue t' = t_queue t -> t_epoch t' = t_epoch t -> t_purging t' = t_purging t -> t_stat t' = t_stat t ->
  t_sent t' = t_sent t -> t_written t' = t_written t -> t_stale t' = t_stale t -> body_ok hand t -> body_ok hand t'.
Proof. intros E1 E2 E3 E4 E5 E6 E7 []. split; rewrite ?E1, ?E2, ?E3, ?E4, ?E5, ?E6, ?E7; done. Qed.

(** The loop top is safe whenever what is held belongs to the live connection. *)
Lemma loop_top_ok t :
  body_ok [] t -> (t_holding t <> None -> t_last t = t_epoch t) -> task_ok (loop_top t).
Proof.
  intros B Hh. unfold task_ok, loop_top, in_hand, phase_ok.
  destruct (t_edge t) as [e|] eqn:Ee, (t_holding t) as [h|] eqn:Eh; cbn [t_phase with_phase t_edge yield_floor t_holding];
    try case_bool_decide as Hn; cbn; rewrite ?Ee, ?Eh; cbn; rewrite ?Eh; split; try (by apply (body_frame [] t)); try done.
  subst h. split; [done|]. intros _. by apply Hh.
Qed.

Lemma discarded_ok n hand t :
  body_ok hand t -> total weight hand = n -> body_ok [] (count_discarded n t).
Proof.
  intros [B1 B2 B3 B4 B5] Hn. split; cbn; try done.
  - rewrite total_nil. unfold disposed in *. cbn. lia.
  - etrans; [|exact B2]. apply sublist_app; [done|]. by apply sublist_inserts_l.
  - by apply Forall_app in B3 as [_ B3].
Qed.

Lemma purged_item_ok i t :
  body_ok [i] t -> t_purging t = true -> in_epoch i < t_epoch t -> body_ok [] (count_purged i t).
Proof.
  intros [B1 B2 B3 B4 B5] Hp He. split; cbn; try done.
  - rewrite total_nil, total_cons, total_nil in *. unfold disposed in *. cbn. lia.
  - etrans; [|exact B2]. apply sublist_app; [done|]. by apply sublist_cons.
  - by apply Forall_cons in B3 as [_ B3].
  - apply Forall_app. split; [done|]. by repeat constructor.
Qed.

Lemma accepted_item_ok i begun t :
  body_ok [i] t -> (t_purging t = true -> in_epoch i = begun) -> body_ok [] (count_accepted i begun t).
Proof.
  intros [B1 B2 B3 B4 B5] Hb. split; cbn; try done.
  - rewrite total_nil, total_cons, total_nil in *. unfold disposed in *. cbn. lia.
  - rewrite fmap_app. cbn. by rewrite <- app_assoc.
  - by apply Forall_cons in B3 as [_ B3].
  - apply Forall_app. split; [done|]. by repeat constructor.
Qed.

Lemma take_item_ok t o t' :
  take_item t = Some (o, t') -> body_ok [] t ->
  match o with Some i => body_ok [i] t' | None => body_ok [] t' end
  /\ t_holding t' = t_holding t /\ t_phase t' = t_phase t /\ t_edge t' = t_edge t /\ t_purging t' = t_purging t.
Proof.
  unfold take_item. destruct (t_queue t) as [|i q] eqn:Eq; [destruct (t_open t); [done|]|]; intros [= <- <-] B; [done|].
  split; [|done]. destruct B as [B1 B2 B3 B4 B5]. rewrite Eq in *. split; cbn; try done.
  rewrite total_nil, !total_cons, total_nil in *. lia.
Qed.

Lemma give_up_body hand id t : body_ok hand t -> body_ok hand (yield_floor id t).
Proof. by apply body_frame. Qed.

Lemma yield_held_body hand t : body_ok hand t -> body_ok hand (yield_held t).
Proof. unfold yield_held. destruct (t_holding t); [apply give_up_body|done]. Qed.

Lemma yield_held_none t : t_holding (yield_held t) = None.
Proof. unfold yield_held. by destruct (t_holding t) eqn:E. Qed.

(** A loop top that holds nothing. *)
Lemma loop_top_idle t :
  t_holding t = None -> loop_top t = with_phase match t_edge t with Some id => PRecv id | None => PDrain end t.
Proof. intros Hn. unfold loop_top. by destruct (t_edge t) as [|] eqn:E; rewrite Hn, E, ?Hn. Qed.

Lemma loop_top_free t : body_ok [] t -> t_holding t = None -> task_ok (loop_top t).
Proof. intros B Hn. apply loop_top_ok; [done|]. by rewrite Hn. Qed.

Lemma stale_neq t i : Forall (fun i => in_epoch i <= t_epoch t) [i] -> (t_epoch t =? in_epoch i) = false -> in_epoch i < t_epoch t.
Proof. intros [Hl _]%Forall_cons Hn. apply Z.eqb_neq in Hn. lia. Qed.

Lemma hand_epoch i t : body_ok [i] t -> Forall (fun i => in_epoch i <= t_epoch t) [i].
Proof. intros B. pose proof (bo_epochs _ _ B) as F. apply Forall_app in F. apply F. Qed.

Lemma on_item_ok id i t :
  body_ok [i] t -> (t_holding t = None \/ t_holding t = Some id) -> task_ok (on_item id i t).
Proof.
  intros B Hh. unfold on_item. destruct (t_purging t) eqn:Ep; cbn [andb]; [destruct (t_epoch t =? in_epoch i) eqn:Ee|]; cbn [negb].
  - split; [by apply (body_frame [i] t)|done].
  - apply loop_top_free; [|apply yield_held_none]. apply yield_held_body, purged_item_ok; [done|done|].
    apply stale_neq; [by apply hand_epoch|done].
  - split; [by apply (body_frame [i] t)|done].
Qed.

Lemma on_end_ok t : body_ok [] t -> task_ok (on_end t).
Proof.
  intros B. unfold on_end. split; cbn; [|apply yield_held_none]. by apply (body_frame [] (yield_held t)), yield_held_body.
Qed.

Lemma on_acquired_ok granted id i t : body_ok [i] t -> task_ok (on_acquired granted id i t).
Proof.
  intros B. unfold on_acquired. destruct granted; cbn [negb].
  - cbn [t_purging t_epoch with_holding]. destruct (t_purging t) eqn:Ep; cbn [andb]; [destruct (t_epoch t =? in_epoch i) eqn:Ee|]; cbn [negb].
    + split; [by apply (body_frame [i] t)|]. cbn. split_and!; [done|lia|done|]. intros _. apply Z.eqb_eq in Ee. lia.
    + apply loop_top_free; [|done]. apply give_up_body, purged_item_ok; [by apply (body_frame [i] t)|done|].
      apply (stale_neq t); [by apply hand_epoch|done].
    + split; [by apply (body_frame [i] t)|]. cbn. split_and!; [done|lia|done|]. by rewrite Ep.
  - apply loop_top_free; [|done]. apply (body_frame [] (count_discarded (len (in_bytes i)) t)); try done.
    eapply discarded_ok; [exact B|]. by rewrite total_cons, total_nil, Z.add_0_r.
Qed.

Lemma on_sent_ok ok id i begun t :
  body_ok [i] t -> (t_purging t = true -> in_epoch i = begun) -> task_ok (on_sent ok id i begun t).
Proof.
  intros B Hb. unfold on_sent. destruct ok.
  - assert (B' : body_ok [] (count_accepted i begun t)) by (by apply accepted_item_ok). cbn [t_epoch count_accepted].
    destruct (Z.eqb_spec (t_epoch t) (in_epoch i)) as [E|E].
    + apply loop_top_ok; [done|]. intros _. cbn. congruence.
    + apply loop_top_free; [by apply give_up_body|done].
  - apply loop_top_free; [|done]. apply give_up_body. eapply discarded_ok; [exact B|].
    by rewrite total_cons, total_nil, Z.add_0_r.
Qed.

Lemma queue_ok i t :
  body_ok (in_hand t) t -> in_epoch i = t_epoch t ->
  body_ok (in_hand t) (mkChanTask (t_phase t) (t_holding t) (t_queue t ++ [i]) true (t_edge t) (t_epoch t) (t_purging t) (t_stat t)
                (t_last t) (t_released t) (t_sent t ++ [i]) (t_written t) (t_stale t)).
Proof.
  intros [B1 B2 B3 B4 B5] He. split; cbn; try done.
  - rewrite !total_app, !total_cons, total_nil. lia.
  - rewrite !app_assoc. apply sublist_app; [|done]. by rewrite <- app_assoc.
  - rewrite app_assoc. apply Forall_app. split; [done|]. repeat constructor. lia.
Qed.

Lemma task_step_ok op t t' : task_ok t -> task_step op t = Some t' -> task_ok t'.
Proof.
  intros [B P] E. unfold phase_ok in P. destruct op as [bytes| |e| | | | |granted|ok]; cbn [task_step] in E.
  - destruct (t_open t); [|done]. injection E as <-. split; [|exact P]. by apply (queue_ok (mkInbound (t_epoch t) bytes) t B).
  - injection E as <-. split.
    + set (t1 := mkChanTask _ _ _ _ _ _ _ _ _ _ _ _ _). replace (in_hand t1) with (in_hand t) by (unfold in_hand; cbn; by destruct (t_phase t)).
      destruct B as [B1 B2 B3 B4 B5]. split; try done. eapply Forall_impl; [exact B3|]. cbn. lia.
    + unfold phase_ok. cbn. destruct (t_phase t); cbn in *; try done; try tauto.
      * split; [apply P|done].
      * destruct P as (P1 & P2 & P3 & P4). split_and!; [done|lia|lia|done].
  - injection E as <-. split; [by apply (body_frame (in_hand t) t)|exact P].
  - injection E as <-. split; [by apply (body_frame (in_hand t) t)|exact P].
  - unfold in_hand in B. destruct (t_phase t) as [|id|id p|id i|id i p b|] eqn:Eph; try done;
      (destruct (take_item t) as [[o t1]|] eqn:Et; cbn in E; [|done]; injection E as <-;
       destruct (take_item_ok t o t1 Et B) as (B1 & Hh & _); destruct o as [i|]; [|by apply on_end_ok]).
    + apply loop_top_free; [|by rewrite <- P, <- Hh]. eapply discarded_ok; [exact B1|].
      by rewrite total_cons, total_nil, Z.add_0_r.
    + apply on_item_ok; [done|]. left. congruence.
    + apply on_item_ok; [done|]. right. rewrite Hh. apply P.
  - unfold in_hand in B. destruct (t_phase t) as [| |id p| | |] eqn:Eph; try done. injection E as <-.
    apply loop_top_free; [by apply give_up_body|done].
  - unfold in_hand in B. destruct (t_phase t) as [| |id [|]| |id i [|] b|] eqn:Eph; try done.
    + injection E as <-. apply loop_top_free; [by apply give_up_body|done].
    + destruct (t_purging t) eqn:Ep; [|done]. injection E as <-. destruct P as (P1 & P2 & P3 & P4).
      apply loop_top_free; [|done]. apply give_up_body, purged_item_ok; [done|done|]. rewrite P4 by done. auto.
  - unfold in_hand in B. destruct (t_phase t) as [| | |id i| |] eqn:Eph; try done. injection E as <-. by apply on_acquired_ok.
  - unfold in_hand in B. destruct (t_phase t) as [| | | |id i p b|] eqn:Eph; try done. injection E as <-. apply on_sent_ok; [done|apply P].
Qed.

Lemma task_run_ok ops t t' : task_ok t -> task_run ops t = Some t' -> task_ok t'.
Proof.
  revert t. induction ops as [|op ops IH]; intros t O; cbn [task_run]; [by intros [= <-]|].
  destruct (task_step op t) as [t1|] eqn:E; [|done]. cbn. apply IH. by eapply task_step_ok.
Qed.

Lemma reachable_task_ok t : task_reachable t -> task_ok t.
Proof.
  intros (purging & edge & ops & E). eapply task_run_ok; [|exact E]. apply loop_top_free; [|done].
  split; cbn; done || constructor.
Qed.

(** ** Theorems *)

(** The per-channel writer accounts for every wire-arriving byte, in order. In every
    reachable state the bytes the pump queued are those accepted by the local graph, purged,
    discarded, in the task's hand or still queued; and what was accepted is in the order
    of arrival, ahead of what is in hand and queued. *)
Theorem channel_task_accounts t :
  task_reachable t ->
  total weight (t_sent t)
    = accepted_targetward (t_stat t) + purged_on_reconnect (t_stat t) + discarded_targetward (t_stat t)
      + total weight (in_hand t) + total weight (t_queue t)
  /\ (t_written t).*1 ++ in_hand t ++ t_queue t `sublist_of` t_sent t.
Proof. intros R. destruct (reachable_task_ok t R) as [[B1 B2 _ _ _] _]. by unfold disposed in B1. Qed.

(** The purge hits exactly the dead connections' chunks. With the purge on, every chunk the
    local graph took was handed over in the connection that delivered it, and every purged
    chunk's connection had ended; with the purge off nothing is purged. *)
Theorem purge_exact t i e :
  task_reachable t ->
  ((i, e) ∈ t_written t -> t_purging t = true -> in_epoch i = e)
  /\ ((i, e) ∈ t_stale t -> t_purging t = true /\ in_epoch i < e).
Proof.
  intros R. destruct (reachable_task_ok t R) as [[_ _ _ B4 B5] _]. rewrite Forall_forall in B4, B5.
  split; intros Hi; [exact (B4 _ Hi)|exact (B5 _ Hi)].
Qed.

(** The floor follows the peer. A task parked for data that holds the local floor took
    it for the connection that is live, or has the disconnect signal pending, and polling
    that signal gives the floor up; a task parked for data without one holds nothing. *)
Theorem floor_follows_peer t :
  task_reachable t ->
  match t_phase t with
  | PHold id pulsed =>
      t_holding t = Some id
      /\ (t_last t <> t_epoch t -> exists t', task_step TPulse t = Some t' /\ t_holding t' = None
            /\ t_released t' = t_released t ++ [id])
  | PDrain | PRecv _ | PDone => t_holding t = None
  | PAcquire _ _ | PWrite _ _ _ _ => True
  end.
Proof.
  intros R. destruct (reachable_task_ok t R) as [_ P]. unfold phase_ok in P. destruct (t_phase t) as [| |id p| | |] eqn:Ep; try done.
  destruct P as [P1 P2]. split; [done|]. intros Hne. destruct p; [|by destruct Hne; apply P2]. eexists.
  split; [unfold task_step; rewrite Ep; reflexivity|]. rewrite loop_top_idle by done. by destruct (t_edge (yield_floor id t)).
Qed.

(** The first chunk after a connect is lost. The binding is read before the wait for data and
    not after it: a task parked without an edge discards the next chunk although an
    edge was attached in between, and only then reads the new one. *)
Theorem first_chunk_after_connect_discarded t id bytes :
  task_reachable t -> t_phase t = PDrain -> t_open t = true -> t_queue t = [] ->
  exists t', task_run [TEdge (Some id); TQueue bytes; TRecv] t = Some t'
    /\ discarded_targetward (t_stat t') = len bytes + discarded_targetward (t_stat t)
    /\ accepted_targetward (t_stat t') = accepted_targetward (t_stat t)
    /\ t_phase t' = PRecv id.
Proof.
  intros R Ep Eo Eq. destruct (reachable_task_ok t R) as [_ P]. unfold phase_ok in P. rewrite Ep in P.
  eexists. unfold task_run, task_step. cbn. rewrite Eo. cbn. rewrite Ep. unfold take_item. cbn. rewrite Eq. cbn.
  split; [reflexivity|]. unfold loop_top. cbn. by rewrite P.
Qed.

(** ** Witnesses *)

(** Two chunks delivered, the peer drops with a third queued, a new peer sends a fourth. *)
Definition demo_task_ops : list TaskOp :=
  [TQueue [x61]; TRecv; TLock true; TSent true; TQueue [x62; x63]; TRecv; TLock true; TQueue [x64]; TSent true; TDisconnect;
   TQueue [x65]; TRecv; TRecv; TLock true].

Definition demo_task : ChanTask := default (task_new true (Some 1%N)) (task_run demo_task_ops (task_new true (Some 1%N))).

Lemma demo_task_reachable : task_reachable demo_task.
Proof. exists true, (Some 1%N), demo_task_ops. vm_compute. reflexivity. Qed.

Example demo_task_state :
  t_phase demo_task = PWrite 1 (mkInbound 1 [x65]) false 1 /\ t_stale demo_task = [(mkInbound 0 [x64], 1)].
Proof. vm_compute. split; reflexivity. Qed.

Lemma channel_task_accounts_witness :
  total weight (t_sent demo_task) = 5
  /\ total weight (t_sent demo_task)
    = accepted_targetward (t_stat demo_task) + purged_on_reconnect (t_stat demo_task) + discarded_targetward (t_stat demo_task)
      + total weight (in_hand demo_task) + total weight (t_queue demo_task).
Proof. split; [vm_compute; reflexivity|]. apply (channel_task_accounts demo_task demo_task_reachable). Defined.

Lemma purge_exact_witness : t_purging demo_task = true /\ in_epoch (mkInbound 0 [x64]) < 1.
Proof.
  apply (purge_exact demo_task (mkInbound 0 [x64]) 1 demo_task_reachable).
  apply (list_elem_of_lookup_2 _ 0). vm_compute. reflexivity.
Defined.

Definition demo_held : ChanTask :=
  default (task_new true (Some 1%N)) (task_run [TQueue [x61]; TRecv; TLock true; TSent true; TDisconnect] (task_new true (Some 1%N))).

Lemma floor_follows_peer_witness : exists t', task_step TPulse demo_held = Some t' /\ t_holding t' = None.
Proof.
  assert (task_reachable demo_held) as R.
  { exists true, (Some 1%N), [TQueue [x61]; TRecv; TLock true; TSent true; TDisconnect]. vm_compute. reflexivity. }
  pose proof (floor_follows_peer demo_held R) as F. vm_compute in F. destruct F as [_ F].
  destruct F as (t' & H1 & H2 & _); [discriminate|]. exists t'. split; [exact H1|exact H2].
Defined.

Lemma first_chunk_after_connect_discarded_witness :
  exists t', task_run [TEdge (Some 7%N); TQueue [x61; x62]; TRecv] (task_new true None) = Some t'
    /\ discarded_targetward (t_stat t') = 2 /\ t_phase t' = PRecv 7.
Proof.
  destruct (first_chunk_after_connect_discarded (task_new true None) 7 [x61; x62]) as (t' & H1 & H2 & _ & H4).
  - exists true, None, []. reflexivity.
  - reflexivity.
  - reflexivity.
  - reflexivity.
  - exists t'. split; [exact H1|]. split; [exact H2|exact H4].
Defined.
