(* ===== verification/LegLife.v ===== *)
(** * The leg's supervisor (daemon/src/nodes/leg.rs, [supervise])

    Bind, connect or accept, handshake, purge, pump, drop, back off, again, as a transition
    system: a state is the supervisor at one of its awaits.  What sockets, files and the clock
    answer are arguments of the operations.  The pump's own work is in Leg.v (read half) and
    LegSend.v (write half); here it may route events and move counters. *)

From S2P Require Import Prelude GraphTypes Envelope Config Tap Channel State Boundary Inbox FanOut Identity Leg.
#[local] Open Scope Z_scope.

#[export] Instance leg_role_eq_dec : EqDecision LegRole.
Proof. solve_decision. Defined.

(** ** The listening socket *)

(** Errors of the socket work: the system's, and the refusals of [clear_stale_socket]. *)
Inductive SockError (E : Type) := SysError (e : E) | NotASocket | LivePeer | SlowPeer | ProbeError (e : E).
Arguments SysError {E} _.
Arguments NotASocket {E}.
Arguments LivePeer {E}.
Arguments SlowPeer {E}.
Arguments ProbeError {E} _.

#[export] Instance sock_error_eq_dec {E} `{EqDecision E} : EqDecision (SockError E).
Proof. solve_decision. Defined.

(** [symlink_metadata] of the address, and the dial of what is there. *)
Inductive Meta (E : Type) := MNotFound | MError (e : E) | MSocket | MOther.
Arguments MNotFound {E}.
Arguments MError {E} _.
Arguments MSocket {E}.
Arguments MOther {E}.
Inductive Dial (E : Type) := DRefused | DAnswered | DError (e : E) | DTimeout.
Arguments DRefused {E}.
Arguments DAnswered {E}.
Arguments DError {E} _.
Arguments DTimeout {E}.

(** What [bind_listener] does to the file system. *)
Inductive FsCall := FsRemove | FsBind | FsChmod.
#[export] Instance fs_call_eq_dec : EqDecision FsCall.
Proof. solve_decision. Defined.

Section life.
Context {E : Type} `{EqDecision E}.
Abbreviation IoResult := (E + unit)%type (only parsing).

(** The answers of one bind attempt. *)
Record BindAnswers := mkBindAnswers { a_meta : Meta E; a_dial : Dial E; a_remove : E + unit; a_bind : E + unit; a_chmod : E + unit }.

Definition clear_stale_socket (a : BindAnswers) : list FsCall * (SockError E + unit) :=
  match a_meta a with
  | MNotFound => ([], inr tt)
  | MError e => ([], inl (SysError e))
  | MOther => ([], inl NotASocket)
  | MSocket =>
      match a_dial a with
      | DRefused => ([FsRemove], match a_remove a with inl e => inl (SysError e) | inr _ => inr tt end)
      | DAnswered => ([], inl LivePeer)
      | DError e => ([], inl (ProbeError e))
      | DTimeout => ([], inl SlowPeer)
      end
  end.

Definition bind_listener (transport : Transport) (a : BindAnswers) : list FsCall * (SockError E + unit) :=
  match transport with
  | Tcp => ([], match a_bind a with inl e => inl (SysError e) | inr _ => inr tt end)
  | Unix =>
      match clear_stale_socket a with
      | (calls, inl e) => (calls, inl e)
      | (calls, inr _) =>
          match a_bind a with
          | inl e => (calls, inl (SysError e))
          | inr _ =>
              match a_chmod a with
              | inl e => (calls ++ [FsBind; FsChmod], inl (SysError e))
              | inr _ => (calls ++ [FsBind; FsChmod], inr tt)
              end
          end
      end
  end.

(** ** The supervisor *)

Context {C : Type -> Type} `{MpscLaws C} `{Eng : Pattern.Engine}.
Abbreviation Run := (LegRun (IoError := SockError E) (C := C)) (only parsing).

(** The supervisor's configuration. *)
Record SuperviseArgs := mkArgs {
  s_faces : Facing; s_transport : Transport; s_role : LegRole; s_address : string;
  s_initial_ms : Z; s_max_ms : Z; s_channels : list string }.

Inductive SupPhase :=
| SBind
| SEstablish
| SHandshake (peer_addr : option string)
| SPurge
| SPump
| SBackoff (ms : Z)
| SStopped.

(** [s_unlinked] is the history of the addresses teardown removed, [s_pumps] and [s_purges]
    those of the connections pumped and of the purge passes. *)
Record Supervisor := mkSup {
  s_phase : SupPhase; s_run : Run; s_backoff : Backoff; connected_before : bool; s_listener : bool;
  bound_unix_path : option string; listen_attempted : bool;
  s_calls : list FsCall; s_unlinked : list string; s_pumps : nat; s_purges : nat }.

Definition to_phase (p : SupPhase) (s : Supervisor) : Supervisor :=
  mkSup p (s_run s) (s_backoff s) (connected_before s) (s_listener s) (bound_unix_path s) (listen_attempted s)
    (s_calls s) (s_unlinked s) (s_pumps s) (s_purges s).
Definition put_run (r : Run) (s : Supervisor) : Supervisor :=
  mkSup (s_phase s) r (s_backoff s) (connected_before s) (s_listener s) (bound_unix_path s) (listen_attempted s)
    (s_calls s) (s_unlinked s) (s_pumps s) (s_purges s).
Definition put_backoff (b : Backoff) (s : Supervisor) : Supervisor :=
  mkSup (s_phase s) (s_run s) b (connected_before s) (s_listener s) (bound_unix_path s) (listen_attempted s)
    (s_calls s) (s_unlinked s) (s_pumps s) (s_purges s).
Definition mark_listen_attempted (s : Supervisor) : Supervisor :=
  mkSup (s_phase s) (s_run s) (s_backoff s) (connected_before s) (s_listener s) (bound_unix_path s) true
    (s_calls s) (s_unlinked s) (s_pumps s) (s_purges s).

Definition put_shared (sh : LegShared (SockError E)) (r : Run) : Run := mkRun (r_route r) (r_stats r) sh.

Definition shared_status (st : NodeState (LegReason (SockError E))) (sh : LegShared (SockError E)) : LegShared (SockError E) :=
  mkShared st (peer_address sh) (peer_version sh) (peer_capabilities sh) (reconnect_count sh) (unbound sh)
    (purge_on_reconnect sh) (disconnect_epoch sh).

(** [set_status] at time [now]. *)
Definition leg_set_status (now : Z) (st : NodeStatus (LegReason (SockError E))) (s : Supervisor) : Supervisor :=
  let sh := r_shared (s_run s) in put_run (put_shared (shared_status (set_status st now (status sh)) sh) (s_run s)) s.

(** [backoff.sleep().await]. *)
Definition sleep (s : Supervisor) : Supervisor :=
  let '(ms, b) := next_interval (s_backoff s) in to_phase (SBackoff ms) (put_backoff b s).

(** The top of the loop, up to its first await. *)
Definition sup_top (a : SuperviseArgs) (s : Supervisor) : Supervisor :=
  if bool_decide (s_role a = Listen) && negb (s_listener s) then to_phase SBind s
  else to_phase SEstablish (mark_listen_attempted s).

(** [if a.role == LegRole::Connect { backoff.sleep().await }; continue]. *)
Definition retry (a : SuperviseArgs) (s : Supervisor) : Supervisor :=
  if bool_decide (s_role a = Connect) then sleep s else sup_top a s.

Definition on_bind (a : SuperviseArgs) (now : Z) (ans : BindAnswers) (s : Supervisor) : Supervisor :=
  let '(calls, res) := bind_listener (s_transport a) ans in
  let s := mkSup (s_phase s) (s_run s) (s_backoff s) (connected_before s) (s_listener s) (bound_unix_path s)
             (listen_attempted s) (s_calls s ++ calls) (s_unlinked s) (s_pumps s) (s_purges s) in
  match res with
  | inr _ =>
      let path := if bool_decide (s_transport a = Unix) then Some (s_address a) else bound_unix_path s in
      let s := mkSup (s_phase s) (s_run s) (s_backoff s) (connected_before s) true path (listen_attempted s)
                 (s_calls s) (s_unlinked s) (s_pumps s) (s_purges s) in
      let s := leg_set_status now (Waiting NoPeerYet) s in
      to_phase SEstablish (mark_listen_attempted s)
  | inl e => sleep (mark_listen_attempted (leg_set_status now (Faulted (BindFailed e)) s))
  end.

Definition on_established (a : SuperviseArgs) (now : Z) (r : SockError E + option string) (s : Supervisor) : Supervisor :=
  match r with
  | inr addr => to_phase (SHandshake addr) s
  | inl e => sleep (leg_set_status now (Faulted (ConnectFailed e)) s)
  end.

(** The purge decision and the start of the pump. *)
Definition start_pump (s : Supervisor) : Supervisor :=
  mkSup SPump (s_run s) (s_backoff s) true (s_listener s) (bound_unix_path s) (listen_attempted s)
    (s_calls s) (s_unlinked s) (S (s_pumps s)) (s_purges s).

Definition purges (a : SuperviseArgs) (s : Supervisor) : bool :=
  connected_before s && purge_on_reconnect (r_shared (s_run s)) && bool_decide (s_faces a = Host).

Definition connected (a : SuperviseArgs) (now : Z) (addr : option string) (hello : Hello) (s : Supervisor) : Supervisor :=
  let r := s_run s in
  let '(stats, sh) := bind_channels (s_channels a) hello (r_stats r) (r_shared r) in
  let sh := mkShared (status sh) (Some (default (s_address a) addr)) (peer_version sh) (peer_capabilities sh)
              (reconnect_count sh) (unbound sh) (purge_on_reconnect sh) (disconnect_epoch sh) in
  let s := leg_set_status now Active (put_run (mkRun (r_route r) stats sh) s) in
  let s := put_backoff (reset (s_backoff s)) s in
  if purges a s then to_phase SPurge s else start_pump s.

(** The handshake ended; [None] while it waits for bytes. *)
Definition on_handshake (a : SuperviseArgs) (now : Z) (addr : option string) (written : bool)
    (reads : list (SockError E + list byte)) (s : Supervisor) : option Supervisor :=
  let r := s_run s in
  let '(_, res, sh) := handshake (s_channels a) written reads (r_shared r) in
  let s := put_run (put_shared sh r) s in
  match res with
  | HsDone hello _ _ => Some (connected a now addr hello s)
  | HsRefused reason => Some (retry a (leg_set_status now (Faulted reason) s))
  | HsWaiting _ | HsPanic => None
  end.

Definition on_deadline (a : SuperviseArgs) (now : Z) (s : Supervisor) : Supervisor :=
  retry a (leg_set_status now (Faulted DeadlineExceeded) s).

(** The purge of every source's backlog: what each gave up. *)
Definition on_purged (amounts : list (string * Z)) (s : Supervisor) : Supervisor :=
  let r := s_run s in
  let stats := foldl (fun m x => alter (on_purged_on_reconnect (Z.add x.2)) x.1 m) (r_stats r) amounts in
  let s := put_run (mkRun (r_route r) stats (r_shared r)) s in
  start_pump (mkSup (s_phase s) (s_run s) (s_backoff s) (connected_before s) (s_listener s) (bound_unix_path s)
    (listen_attempted s) (s_calls s) (s_unlinked s) (s_pumps s) (S (s_purges s))).

Inductive PumpEnd := PeerGone | Protocol (e : EnvelopeError).

Definition on_pump_end (a : SuperviseArgs) (now : Z) (e : PumpEnd) (s : Supervisor) : Supervisor :=
  let r := s_run s in
  let '(stats, sh) := clear_connection_state (r_stats r) (r_shared r) in
  let sh := mkShared (status sh) (peer_address sh) (peer_version sh) (peer_capabilities sh) (reconnect_count sh + 1)
              (unbound sh) (purge_on_reconnect sh) (disconnect_epoch sh) in
  let s := put_run (mkRun (r_route r) stats sh) s in
  let s := leg_set_status now match e with PeerGone => Waiting PeerDisconnected | Protocol e => Faulted (ProtocolViolation e) end s in
  retry a s.

(** [signal_stop] (and [Drop]): abort, then [unlink_listen_socket]. *)
Definition on_stop (s : Supervisor) : Supervisor :=
  mkSup SStopped (s_run s) (s_backoff s) (connected_before s) false None (listen_attempted s) (s_calls s)
    (s_unlinked s ++ match bound_unix_path s with Some p => [p] | None => [] end) (s_pumps s) (s_purges s).

Inductive SupOp :=
| OBind (now : Z) (ans : BindAnswers)
| OEstablish (now : Z) (r : SockError E + option string)
| OHandshake (now : Z) (written : bool) (reads : list (SockError E + list byte))
| ODeadline (now : Z)
| OPurged (amounts : list (string * Z))
| ORoute (ev : Event) (sent : bool)                   (* the read half *)
| OForward (ch : string) (f : Z -> Z) (hostward : bool) (* the write half's counters *)
| OPumpEnd (now : Z) (e : PumpEnd)
| OSlept
| OStop.

Definition sup_step (a : SuperviseArgs) (op : SupOp) (s : Supervisor) : option Supervisor :=
  match op, s_phase s with
  | OBind now ans, SBind => Some (on_bind a now ans s)
  | OEstablish now r, SEstablish => Some (on_established a now r s)
  | OHandshake now written reads, SHandshake addr => on_handshake a now addr written reads s
  | ODeadline now, SHandshake _ => Some (on_deadline a now s)
  | OPurged amounts, SPurge => Some (on_purged amounts s)
  | ORoute ev sent, SPump => Some (put_run (route_recv ev sent (s_run s)).2 s)
  | OForward ch f hostward, SPump =>
      let r := s_run s in
      let count := if hostward : bool then on_delivered_hostward f else on_accepted_targetward f in
      Some (put_run (mkRun (r_route r) (alter (fun st => set_ch_active true (count st)) ch (r_stats r)) (r_shared r)) s)
  | OPumpEnd now e, SPump => Some (on_pump_end a now e s)
  | OSlept, SBackoff _ => Some (sup_top a s)
  | OStop, _ => Some (on_stop s)
  | _, _ => None
  end.

Fixpoint sup_run (a : SuperviseArgs) (ops : list SupOp) (s : Supervisor) : option Supervisor :=
  match ops with
  | [] => Some s
  | op :: ops => s ← sup_step a op s; sup_run a ops s
  end.

(** The node as created and its supervisor as spawned. *)
Definition sup_new (a : SuperviseArgs) (route : RecvRoute (C := C)) (purge : bool) (now : Z) : Supervisor :=
  sup_top a (mkSup SStopped (mkRun route (list_to_map ((fun ch => (ch, stat_default)) <$> s_channels a)) (shared_new purge now))
    (exponential (s_initial_ms a) (s_max_ms a)) false false None false [] [] 0 0).

Definition sup_reachable (a : SuperviseArgs) (s : Supervisor) : Prop :=
  exists route purge now ops, sup_run a ops (sup_new a route purge now) = Some s.

(** ** The invariant *)

Definition no_peer (r : Run) : Prop :=
  let sh := r_shared r in
  node_status (status sh) <> Active /\ peer_version sh = None /\ peer_address sh = None /\ peer_capabilities sh = 0
  /\ unbound sh = identity_default
  /\ forall ch st, r_stats r !! ch = Some st -> ch_bound st = false /\ ch_active st = false.

Definition has_peer (r : Run) : Prop :=
  let sh := r_shared r in
  node_status (status sh) = Active /\ peer_version sh = Some WIRE_VERSION /\ peer_address sh <> None.

Definition phase_peer (p : SupPhase) (r : Run) : Prop :=
  match p with SPurge | SPump => has_peer r | SStopped => True | _ => no_peer r end.

Definition purge_ok (a : SuperviseArgs) (s : Supervisor) : Prop :=
  if connected_before s
  then purge_on_reconnect (r_shared (s_run s)) = true -> s_faces a = Host -> s_pumps s = S (s_purges s)
  else s_pumps s = 0%nat /\ s_purges s = 0%nat.

(** What holds at every await of a running supervisor. *)
Record base_ok (a : SuperviseArgs) (s : Supervisor) : Prop := {
  bs_epoch : disconnect_epoch (r_shared (s_run s)) = reconnect_count (r_shared (s_run s));
  bs_backoff : backoff_use (exponential (s_initial_ms a) (s_max_ms a)) (s_backoff s);
  bs_path : bound_unix_path s = if s_listener s && bool_decide (s_transport a = Unix) then Some (s_address a) else None;
  bs_role : s_listener s = true -> s_role a = Listen;
  bs_bound : s_listener s = true -> s_transport a = Unix -> FsBind ∈ s_calls s;
  bs_unlinked : s_unlinked s = [];
  bs_purge : purge_ok a s }.

Definition phase_ready (a : SuperviseArgs) (s : Supervisor) : Prop :=
  match s_phase s with
  | SBind => s_listener s = false /\ s_role a = Listen
  | SBackoff ms => listen_attempted s = true
      /\ exists b, backoff_use (exponential (s_initial_ms a) (s_max_ms a)) b /\ ms = (next_interval b).1
  | SPurge => (s_role a = Listen -> s_listener s = true) /\ listen_attempted s = true /\ connected_before s = true
      /\ current (s_backoff s) = s_initial_ms a
  | SPump => (s_role a = Listen -> s_listener s = true) /\ listen_attempted s = true
      /\ current (s_backoff s) = s_initial_ms a
  | _ => (s_role a = Listen -> s_listener s = true) /\ listen_attempted s = true
  end.

(** A stopped node has removed nothing, or the socket it bound, once. *)
Definition stopped_ok (a : SuperviseArgs) (s : Supervisor) : Prop :=
  bound_unix_path s = None
  /\ (s_unlinked s = [] \/ (s_unlinked s = [s_address a] /\ s_transport a = Unix /\ FsBind ∈ s_calls s)).

Definition sup_ok (a : SuperviseArgs) (s : Supervisor) : Prop :=
  match s_phase s with
  | SStopped => stopped_ok a s
  | p => base_ok a s /\ phase_peer p (s_run s) /\ phase_ready a s
  end.

Lemma set_status_eq (st : NodeStatus (LegReason (SockError E))) now s : node_status (set_status st now s) = st.
Proof. unfold set_status, set_at. by case_bool_decide. Qed.

Lemma hello_loop_version (reads : list (SockError E + list byte)) buf :
  match hello_loop reads buf with HsDone hello _ _ => version hello = WIRE_VERSION | _ => True end.
Proof.
  revert buf. induction reads as [|r reads IH]; intros buf; cbn [hello_loop];
    pose proof (hello_decode_safe buf) as [_ Hs]; destruct (try_decode_hello buf) as [[[h n]|]|e|]; try done;
    try (by destruct (Hs h n eq_refl) as (_ & _ & ? & _)).
  destruct r as [e|[|b k]]; [done..|apply IH].
Qed.

Lemma handshake_result channels written (reads : list (SockError E + list byte)) sh :
  match (handshake channels written reads sh).1.2 with
  | HsDone hello _ _ => version hello = WIRE_VERSION
      /\ (handshake channels written reads sh).2
         = mkShared (status sh) (peer_address sh) (Some (version hello)) (Envelope.capabilities hello) (reconnect_count sh)
             (unbound sh) (purge_on_reconnect sh) (disconnect_epoch sh)
  | _ => (handshake channels written reads sh).2 = sh
  end.
Proof.
  unfold handshake. destruct (encode_hello _ _) as [[| |] f]; try done. destruct written; cbn [negb]; [|done].
  pose proof (hello_loop_version reads []) as V. cbn [fst snd]. by destruct (hello_loop reads []).
Qed.

(** The read half moves nothing of the shared state but the unbound identities. *)
Lemma route_recv_shared ev sent (r : Run) : exists u, r_shared (route_recv ev sent r).2 = set_unbound u (r_shared r).
Proof.
  assert (Same : exists u, r_shared r = set_unbound u (r_shared r)) by (exists (unbound (r_shared r)); by destruct (r_shared r)).
  assert (Note : forall ch n d (r' : Run), r_shared r' = r_shared r ->
    exists u, r_shared (note_undeliverable ch n d r') = set_unbound u (r_shared r)).
  { intros ch n d r' Er. unfold note_undeliverable. destruct (r_stats r' !! ch); cbn; rewrite Er; [done|by eexists]. }
  unfold route_recv. destruct (kind ev); cbn [snd r_shared put_stats r_route]; try done.
  destruct (r_route r) as [sinks feeds|txs].
  - destruct (sinks !! _); [|by apply Note]. by destruct (route_channel_data _ _ _ _ _) as [[? ?] ?].
  - destruct (txs !! _) as [tx|]; [|by apply Note]. by destruct (try_send _ _) as [[] ?].
Qed.

Lemma base_frame a s s' :
  s_run s' = s_run s -> s_backoff s' = s_backoff s -> connected_before s' = connected_before s ->
  s_listener s' = s_listener s -> bound_unix_path s' = bound_unix_path s -> s_calls s' = s_calls s ->
  s_unlinked s' = s_unlinked s -> s_pumps s' = s_pumps s -> s_purges s' = s_purges s -> base_ok a s -> base_ok a s'.
Proof.
  intros E1 E2 E3 E4 E5 E6 E7 E8 E9 []. split; unfold purge_ok in *; rewrite ?E1, ?E2, ?E3, ?E4, ?E5, ?E6, ?E7, ?E8, ?E9; done.
Qed.

(** The run changes, but not its epoch, count and purge flag. *)
Lemma base_run a r s :
  disconnect_epoch (r_shared r) = reconnect_count (r_shared r) ->
  purge_on_reconnect (r_shared r) = purge_on_reconnect (r_shared (s_run s)) -> base_ok a s -> base_ok a (put_run r s).
Proof. intros He Hp []. split; cbn; try done. unfold purge_ok in *. cbn. by rewrite Hp. Qed.

Lemma sleep_ok a s : base_ok a s -> no_peer (s_run s) -> listen_attempted s = true -> sup_ok a (sleep s).
Proof.
  intros B Hn Ha. unfold sleep. destruct (next_interval (s_backoff s)) as [ms b] eqn:En. destruct B.
  unfold sup_ok. cbn. split_and!; [|done|done|].
  - split; cbn; try done. replace b with (next_interval (s_backoff s)).2 by (by rewrite En). by apply use_wait.
  - exists (s_backoff s). split; [done|]. exact (eq_sym (f_equal fst En)).
Qed.

Lemma sup_top_ok a s : base_ok a s -> no_peer (s_run s) -> sup_ok a (sup_top a s).
Proof.
  intros B Hn. unfold sup_top. destruct (s_listener s) eqn:El; [rewrite andb_false_r|rewrite andb_true_r; case_bool_decide as Hr];
    unfold sup_ok, phase_ready; cbn; rewrite ?El; (split; [by apply (base_frame a s)|]); done.
Qed.

Lemma retry_ok a s : base_ok a s -> no_peer (s_run s) -> listen_attempted s = true -> sup_ok a (retry a s).
Proof. intros. unfold retry. case_bool_decide; [by apply sleep_ok|by apply sup_top_ok]. Qed.

Lemma status_base a now st s : base_ok a s -> base_ok a (leg_set_status now st s).
Proof. intros B. apply base_run; [apply B|done|done]. Qed.

Lemma status_no_peer now st s : st <> Active -> no_peer (s_run s) -> no_peer (s_run (leg_set_status now st s)).
Proof. intros Hst (H1 & H2). split; [cbn; by rewrite set_status_eq|exact H2]. Qed.

Lemma no_peer_shared_eq r sh : sh = r_shared r -> no_peer r -> no_peer (put_shared sh r).
Proof. intros ->. by destruct r. Qed.

Lemma bind_calls t ans calls : bind_listener t ans = (calls, inr tt) -> t = Unix -> FsBind ∈ calls.
Proof.
  intros E0 ->. cbn in E0. destruct (clear_stale_socket ans) as [cs [e|[]]]; [done|].
  destruct (a_bind ans); [done|]. destruct (a_chmod ans); [done|]. injection E0 as <-. set_solver.
Qed.

Lemma on_bind_ok a now ans s :
  base_ok a s -> no_peer (s_run s) -> s_listener s = false -> s_role a = Listen -> sup_ok a (on_bind a now ans s).
Proof.
  intros B Hn Hl Hr. unfold on_bind. destruct (bind_listener (s_transport a) ans) as [calls [e|[]]] eqn:Eb.
  - apply sleep_ok; [|by apply status_no_peer|done]. destruct B. split; cbn; try done; rewrite ?Hl in *; done.
  - unfold sup_ok, phase_ready. cbn. split_and!; [|by apply status_no_peer|done|done]. destruct B. split; cbn; try done.
    + case_bool_decide; [done|]. by rewrite Hl in bs_path0.
    + intros _ Ht. apply elem_of_app. right. by eapply bind_calls.
Qed.

Lemma start_pump_base a s :
  base_ok a s ->
  (purge_on_reconnect (r_shared (s_run s)) = true -> s_faces a = Host ->
   if connected_before s then s_pumps s = s_purges s else True) ->
  base_ok a (start_pump s).
Proof.
  intros [] Hp. split; cbn; try done. unfold purge_ok in *. cbn. intros H1 H2. specialize (Hp H1 H2).
  destruct (connected_before s); [lia|]. destruct bs_purge0. lia.
Qed.

Lemma connected_ok a now addr hello s :
  base_ok a s -> phase_ready a (to_phase SEstablish s) -> version hello = WIRE_VERSION ->
  peer_version (r_shared (s_run s)) = Some WIRE_VERSION -> sup_ok a (connected a now addr hello s).
Proof.
  intros B Hr Hv Hp. unfold connected. unfold bind_channels. set (u := set_unbound _ _). set (stats := foldl _ _ _).
  set (sh := mkShared _ _ _ _ _ _ _ _). set (s1 := put_backoff _ _).
  assert (B1 : base_ok a s1).
  { destruct B. split; cbn; try done. by apply use_reset. }
  assert (P1 : has_peer (s_run s1)) by (split_and!; [cbn; apply set_status_eq|done|done]).
  assert (Hb : initial (s_backoff s) = s_initial_ms a).
  { destruct B as [_ Bb _ _ _ _ _]. apply backoff_use_schedule in Bb as [-> _]. done. }
  unfold phase_ready in Hr. cbn in Hr. destruct (purges a s1) eqn:Ep; unfold sup_ok, phase_ready; cbn.
  - unfold purges in Ep. apply andb_prop in Ep as [[Hc _]%andb_prop _].
    split; [by apply (base_frame a s1)|]. split; [exact P1|]. split; [apply Hr|]. split; [apply Hr|]. split; [exact Hc|exact Hb].
  - split; [|split; [exact P1|]; split; [apply Hr|]; split; [apply Hr|exact Hb]]. apply start_pump_base; [done|]. unfold purges in Ep. intros Hpu Hf.
    rewrite Hpu, Hf in Ep. rewrite bool_decide_true, !andb_true_r in Ep by done. by rewrite Ep.
Qed.

Lemma on_handshake_ok a now addr written reads s s' :
  base_ok a s -> no_peer (s_run s) -> phase_ready a (to_phase SEstablish s) ->
  on_handshake a now addr written reads s = Some s' -> sup_ok a s'.
Proof.
  intros B Hn Hr. unfold on_handshake. pose proof (handshake_result (s_channels a) written reads (r_shared (s_run s))) as R.
  destruct (handshake _ _ _ _) as [[w res] sh]. cbn [fst snd] in R. destruct res as [hello l u|reason| |]; try done.
  - intros [= <-]. destruct R as [Hv ->]. apply connected_ok; [|done|done|cbn; by rewrite Hv]. by apply base_run; [apply B| |].
  - intros [= <-]. subst sh. apply retry_ok; [| |apply Hr].
    + apply status_base. apply base_run; [apply B|done|done].
    + apply status_no_peer; [done|]. by apply no_peer_shared_eq.
Qed.

Lemma on_pump_end_ok a now e s :
  base_ok a s -> phase_ready a (to_phase SEstablish s) -> sup_ok a (on_pump_end a now e s).
Proof.
  intros B Hr. unfold on_pump_end, clear_connection_state. apply retry_ok; [| |apply Hr].
  - apply status_base, base_run; cbn; [|done|done]. by rewrite (bs_epoch _ _ B).
  - split_and!; cbn; try done.
    + rewrite set_status_eq. by destruct e.
    + intros ch st. rewrite lookup_fmap. destruct (r_stats (s_run s) !! ch); [|done]. by intros [= <-].
Qed.

Lemma stop_ok a s : sup_ok a s -> stopped_ok a (on_stop s).
Proof.
  intros O. assert (stopped_ok a s /\ s_phase s = SStopped \/ base_ok a s) as [[[Hp Hu] _]|[]].
  { unfold sup_ok in O. destruct (s_phase s); auto; right; apply O. }
  - split; [done|]. cbn. by rewrite Hp, app_nil_r.
  - split; [done|]. cbn. rewrite bs_unlinked0, bs_path0. destruct (s_listener s) eqn:El; cbn; [|by left].
    case_bool_decide; [right; auto|by left].
Qed.

(** The stopped phase aside, a state is well-formed by the base, its peer and its readiness. *)
Lemma sup_ok_running a s :
  s_phase s <> SStopped -> sup_ok a s -> base_ok a s /\ phase_peer (s_phase s) (s_run s) /\ phase_ready a s.
Proof. intros Hp O. unfold sup_ok in O. by destruct (s_phase s). Qed.

Lemma on_purged_ok a amounts s :
  base_ok a s -> has_peer (s_run s) -> phase_ready a s -> s_phase s = SPurge -> sup_ok a (on_purged amounts s).
Proof.
  intros [] P R Es. unfold phase_ready in R. rewrite Es in R. destruct R as (R1 & R2 & Hc & Hb). unfold purge_ok in *.
  rewrite Hc in *. unfold sup_ok, phase_ready. cbn. split_and!; [|apply P..|done|done|done].
  split; cbn; try done. unfold purge_ok. cbn. intros H1 H2. by rewrite bs_purge0.
Qed.

Lemma sup_step_ok a op s s' : sup_ok a s -> sup_step a op s = Some s' -> sup_ok a s'.
Proof.
  intros O E0. destruct (s_phase s) eqn:Es; destruct op; cbn in E0; try rewrite Es in E0; try done;
    try (injection E0 as <-; by apply stop_ok);
    (destruct (sup_ok_running a s) as (B & P & R); [by rewrite Es|done|]); rewrite Es in P; cbn in P;
    pose proof R as R'; unfold phase_ready in R'; rewrite Es in R'.
  - injection E0 as <-. apply on_bind_ok; [done..|apply R'|apply R'].
  - injection E0 as <-. destruct r as [e|addr]; unfold on_established.
    + apply sleep_ok; [by apply status_base|by apply status_no_peer|exact (proj2 R')].
    + unfold sup_ok, phase_ready. cbn. split_and!; [by apply (base_frame a s)|apply P..|apply R'|apply R'].
  - by eapply on_handshake_ok; [done..| |exact E0].
  - injection E0 as <-. apply retry_ok; [by apply status_base|by apply status_no_peer|exact (proj2 R')].
  - injection E0 as <-. by apply on_purged_ok.
  - injection E0 as <-. destruct (route_recv_shared ev sent (s_run s)) as [u Hu].
    unfold sup_ok, phase_ready. cbn. rewrite Es. split_and!; [|unfold has_peer; rewrite Hu; apply P..|apply R'|apply R'|apply R'].
    apply base_run; [rewrite Hu; apply B|by rewrite Hu|done].
  - injection E0 as <-. unfold sup_ok, phase_ready. cbn. rewrite Es. split_and!; [|apply P..|apply R'|apply R'|apply R'].
    apply base_run; [apply B|done|done].
  - injection E0 as <-. apply on_pump_end_ok; [done|]. split; apply R'.
  - injection E0 as <-. by apply sup_top_ok.
Qed.

Lemma sup_new_ok a route purge now : sup_ok a (sup_new a route purge now).
Proof.
  apply sup_top_ok.
  - split; cbn; try done. apply use_start.
  - split_and!; cbn; try done. intros ch st Hl%elem_of_list_to_map_2.
    apply list_elem_of_fmap in Hl as (c & [= _ ->] & _). done.
Qed.

Lemma sup_run_ok a ops s s' : sup_ok a s -> sup_run a ops s = Some s' -> sup_ok a s'.
Proof.
  revert s. induction ops as [|op ops IH]; intros s O; cbn; [by intros [= <-]|].
  intros (s1 & E1 & E2)%bind_Some. eapply IH; [|exact E2]. by eapply sup_step_ok.
Qed.

Lemma reachable_sup_ok a s : sup_reachable a s -> sup_ok a s.
Proof. intros (route & purge & now & ops & E0). eapply sup_run_ok; [apply sup_new_ok|exact E0]. Qed.

Definition in_connection (p : SupPhase) : bool := match p with SPurge | SPump => true | _ => false end.

(** C26: The node's published state is that of its connection. At every await of a
    supervisor that runs, whatever the socket, the peer and the clock did, the status is
    active exactly while a connection is up, and then the peer's address and wire version are
    shown; otherwise no peer field, no bound or active channel and no unbound identity is
    left over. The disconnect epoch the channel tasks compare against is the published
    reconnect count. *)
Theorem leg_state_coherent a s :
  sup_reachable a s -> s_phase s <> SStopped ->
  let sh := r_shared (s_run s) in
  disconnect_epoch sh = reconnect_count sh
  /\ (node_status (status sh) = Active <-> in_connection (s_phase s) = true)
  /\ if in_connection (s_phase s)
     then peer_version sh = Some WIRE_VERSION /\ peer_address sh <> None
     else peer_version sh = None /\ peer_address sh = None /\ peer_capabilities sh = 0 /\ unbound sh = identity_default
       /\ forall ch st, r_stats (s_run s) !! ch = Some st -> ch_bound st = false /\ ch_active st = false.
Proof.
  intros R%reachable_sup_ok Hp sh. destruct (sup_ok_running a s Hp R) as (B & P & _).
  split; [apply B|]. unfold phase_peer, no_peer, has_peer, in_connection in *. fold sh in P.
  destruct (s_phase s); try done; destruct P as (P1 & P2); (split; [by split|done]).
Qed.

(** ** The schedule of an outage *)

Definition advance (b : Backoff) : Backoff := (next_interval b).2.

Lemma intervals_iter n b : intervals (S n) b !! n = Some (next_interval (Nat.iter n advance b)).1.
Proof. revert b. induction n as [|n IH]; intros b; [done|]. rewrite Nat.iter_succ_r. exact (IH (advance b)). Qed.

(** A wait ends and the dial fails. *)
Definition redial (f : Z * SockError E) : list SupOp := [OSlept; OEstablish f.1 (inl f.2)].

Lemma redials a fails b s :
  s_role a = Connect -> (exists w, s_phase s = SBackoff w) -> s_phase s = SBackoff (next_interval b).1 ->
  s_backoff s = advance b ->
  exists s', sup_run a (flat_map redial fails) s = Some s'
    /\ s_phase s' = SBackoff (next_interval (Nat.iter (length fails) advance b)).1.
Proof.
  intros Hr _. revert b s. induction fails as [|[now e] fails IH]; intros b s Hp Hb; cbn [flat_map redial app sup_run].
  - by exists s.
  - cbn [sup_step]. rewrite Hp. cbn [mbind option_bind]. unfold sup_top. rewrite bool_decide_false by (by rewrite Hr).
    cbn [andb sup_step to_phase s_phase mbind option_bind on_established fst snd].
    set (s1 := sleep _). cbn [length]. rewrite Nat.iter_succ_r. apply IH; subst s1; unfold sleep; cbn; by rewrite Hb.
Qed.

(** C27: The reconnect schedule. For every u64 configuration, every wait of the supervisor is
    between one millisecond and the configured maximum (at least one). A connect leg that
    loses its peer and then fails to dial [n] times waits [max(initial, 1) * 2^n], cut at the
    maximum: each good connection restarts the schedule. *)
Theorem reconnect_schedule a s :
  u64 (s_initial_ms a) -> u64 (s_max_ms a) -> sup_reachable a s ->
  (forall ms, s_phase s = SBackoff ms -> 1 <= ms <= Z.max (s_max_ms a) 1)
  /\ (s_role a = Connect -> s_phase s = SPump -> forall now e fails,
     exists s', sup_run a (OPumpEnd now e :: flat_map redial fails) s = Some s'
       /\ s_phase s' = SBackoff (Z.min (Z.max (s_initial_ms a) 1 * 2 ^ len fails) (Z.max (s_max_ms a) 1))).
Proof.
  intros Hi Hm O%reachable_sup_ok. split.
  - intros ms Hp. unfold sup_ok, phase_ready in O. rewrite Hp in O.
    destruct O as (_ & _ & _ & b & (_ & E2 & E3)%backoff_use_schedule & ->). cbn in *. rewrite E2, E3. lia.
  - intros Hr Hp now e fails. destruct (sup_ok_running a s) as (B & _ & R); [by rewrite Hp|done|].
    unfold phase_ready in R. rewrite Hp in R. destruct R as (_ & _ & Hc), B as [_ (E1 & E2 & E3)%backoff_use_schedule _ _ _ _ _].
    cbn in E1, E2, E3. cbn [sup_run sup_step]. rewrite Hp. cbn [mbind option_bind].
    destruct (redials a fails (s_backoff s) (on_pump_end a now e s)) as (s' & H1 & H2).
    1-4: try eexists; unfold on_pump_end, retry, clear_connection_state; rewrite ?bool_decide_true by done; try done.
    exists s'. split; [exact H1|]. rewrite H2. f_equal. pose proof (intervals_iter (length fails) (s_backoff s)) as I.
    rewrite intervals_closed, list_lookup_fmap, lookup_seq_lt in I; [|lia|rewrite E3; unfold u64_max; lia|by rewrite E2].
    apply (inj Some) in I. rewrite <- I. unfold backoff_cap. rewrite Hc, E2, E3. done.
Qed.

(** Every reconnection of a host-facing leg configured to purge is preceded by a purge pass,
    the first connection never is. *)
Theorem purges_before_every_reconnect a s :
  sup_reachable a s -> s_phase s <> SStopped ->
  purge_on_reconnect (r_shared (s_run s)) = true -> s_faces a = Host -> s_purges s = pred (s_pumps s).
Proof.
  intros O%reachable_sup_ok Hp H1 H2. destruct (sup_ok_running a s Hp O) as ([_ _ _ _ _ _ Q] & _ & _). unfold purge_ok in Q.
  destruct (connected_before s); [by rewrite Q|by destruct Q as [-> ->]].
Qed.

(** A bind attempt removes only a socket that refused a dial, and never over TCP. *)
Theorem reclaims_only_stale_sockets transport ans :
  FsRemove ∈ (bind_listener transport ans).1 <-> transport = Unix /\ a_meta ans = MSocket /\ a_dial ans = DRefused.
Proof.
  assert (No : ~ FsRemove ∈ [FsBind; FsChmod]) by (apply (bool_decide_eq_false_1 _); reflexivity).
  pose proof (list_elem_of_here FsRemove []) as Yes. pose proof (not_elem_of_nil FsRemove) as Nil.
  destruct ans as [m d r b c], transport; cbn; [intuition congruence|].
  unfold clear_stale_socket; cbn. destruct m, d; cbn; try (destruct r, b, c; cbn; intuition congruence).
  split; [done|intros _]. destruct r; cbn; [done|]. destruct b, c; cbn; apply list_elem_of_here.
Qed.

(** Teardown removes the socket the leg bound and nothing else: in any history a stopped
    leg has removed at most its configured address, once, over the Unix transport, and only
    after a bind there succeeded. *)
Theorem teardown_unlinks_own_socket a s :
  sup_reachable a s ->
  s_unlinked s = [] \/ (s_unlinked s = [s_address a] /\ s_transport a = Unix /\ FsBind ∈ s_calls s).
Proof.
  intros O%reachable_sup_ok. unfold sup_ok in O. destruct (s_phase s); try (left; apply O). apply O.
Qed.

(** Not every socket it bound, though: when the permissions cannot be set after the bind,
    the inode is not recorded and teardown leaves it behind. *)
Lemma chmod_failure_leaves_inode a now ans e s :
  s_transport a = Unix -> a_meta ans = MNotFound -> a_bind ans = inr tt -> a_chmod ans = inl e ->
  bound_unix_path s = None -> s_unlinked s = [] ->
  FsBind ∈ s_calls (on_bind a now ans s) /\ s_unlinked (on_stop (on_bind a now ans s)) = [].
Proof.
  destruct ans as [m d r b c]; cbn. intros Ht -> -> -> Hb Hu. unfold on_bind. rewrite Ht. cbn. rewrite Hb, Hu.
  split; [set_solver|done].
Qed.
End life.

(** ** Witnesses *)

Definition demo_args (role : LegRole) : SuperviseArgs := mkArgs Host Unix role "/run/leg" 100 1000 ["a"%string].
Definition demo_sup (role : LegRole) : Supervisor (E := string) (C := Bounded) (Eng := Pattern.literal_engine) :=
  sup_new (demo_args role) (RHost ∅ ∅) true 0.
Definition demo_bind : BindAnswers (E := string) := mkBindAnswers MNotFound DTimeout (inr tt) (inr tt) (inr tt).
Definition demo_connect : list (SupOp (E := string)) :=
  [OEstablish 1 (inr (Some "peer"%string)); OHandshake 2 true [inr (hello_bytes ["a"])]].
Definition demo_listen_ops : list (SupOp (E := string)) := OBind 1 demo_bind :: demo_connect ++ [OPumpEnd 3 PeerGone] ++ demo_connect.

Definition demo_state (role : LegRole) (ops : list SupOp) : Supervisor :=
  default (demo_sup role) (sup_run (demo_args role) ops (demo_sup role)).

Lemma demo_sup_reachable role ops :
  bool_decide (is_Some (sup_run (demo_args role) ops (demo_sup role))) = true ->
  sup_reachable (demo_args role) (demo_state role ops).
Proof.
  intros [s Hs]%bool_decide_eq_true. exists (RHost ∅ ∅), true, 0, ops. unfold demo_state. fold (demo_sup role). by rewrite Hs.
Qed.

(** Connected for the second time: purging. *)
Lemma leg_state_coherent_witness :
  let s := demo_state Listen demo_listen_ops in
  s_phase s = SPurge /\ reconnect_count (r_shared (s_run s)) = 1 /\ disconnect_epoch (r_shared (s_run s)) = 1
  /\ node_status (status (r_shared (s_run s))) = Active.
Proof.
  intros s. assert (s_phase s = SPurge) as Hp by (vm_compute; reflexivity).
  destruct (leg_state_coherent (demo_args Listen) s) as (H1 & H2 & _).
  - apply demo_sup_reachable. vm_compute. reflexivity.
  - rewrite Hp. discriminate.
  - split; [exact Hp|]. split; [vm_compute; reflexivity|]. split; [rewrite H1; vm_compute; reflexivity|].
    apply H2. rewrite Hp. reflexivity.
Defined.

Lemma purges_before_every_reconnect_witness :
  let s := demo_state Listen (demo_listen_ops ++ [OPurged [("a"%string, 5)]]) in s_pumps s = 2%nat /\ s_purges s = 1%nat.
Proof.
  intros s. split; [vm_compute; reflexivity|]. rewrite (purges_before_every_reconnect (demo_args Listen) s).
  - vm_compute. reflexivity.
  - apply demo_sup_reachable. vm_compute. reflexivity.
  - vm_compute. discriminate.
  - vm_compute. reflexivity.
  - reflexivity.
Defined.

Lemma reconnect_schedule_witness :
  exists s', sup_run (demo_args Connect) (OPumpEnd 5 PeerGone :: flat_map redial [(6, SysError "refused"%string); (7, SysError "refused"%string)])
      (demo_state Connect demo_connect) = Some s'
    /\ s_phase s' = SBackoff 400.
Proof.
  destruct (reconnect_schedule (demo_args Connect) (demo_state Connect demo_connect)) as [_ H].
  - split; vm_compute; congruence.
  - split; vm_compute; congruence.
  - apply demo_sup_reachable. vm_compute. reflexivity.
  - destruct (H eq_refl) with (now := 5) (e := PeerGone) (fails := [(6, SysError "refused"%string); (7, SysError "refused"%string)])
      as (s' & H1 & H2); [vm_compute; reflexivity|].
    exists s'. split; [exact H1|]. rewrite H2. vm_compute. reflexivity.
Defined.

Lemma teardown_unlinks_own_socket_witness :
  let s := demo_state Listen (demo_listen_ops ++ [OStop; OStop]) in s_unlinked s = ["/run/leg"%string].
Proof.
  intros s. destruct (teardown_unlinks_own_socket (demo_args Listen) s) as [H|[H _]].
  - apply demo_sup_reachable. vm_compute. reflexivity.
  - vm_compute in H. discriminate.
  - exact H.
Defined.

Lemma chmod_failure_leaves_inode_witness :
  let ans := mkBindAnswers MNotFound DTimeout (inr tt) (inr tt) (inl "denied"%string) in
  FsBind ∈ s_calls (on_bind (demo_args Listen) 1 ans (demo_sup Listen))
  /\ s_unlinked (on_stop (on_bind (demo_args Listen) 1 ans (demo_sup Listen))) = [].
Proof. apply (chmod_failure_leaves_inode _ _ _ "denied"%string); reflexivity. Defined.
