(* ===== verification/Pump.v ===== *)
(** * The interior nodes' targetward pump (daemon/src/runtime.rs, nodes/map.rs, nodes/codec.rs)

    The loop the map and the codec channels share: take a chunk, wait for a writable origin
    ([await_origin]), and hand its pieces on one at a time ([forward_targetward]: hold the
    lock, build the payload, send).  What a node does with a chunk is a [Client]; an
    invariant of a client that is kept by its operations ([ClientInv]) holds in every state
    the pump can reach, whatever the edge, the lock and the upstream queue do meanwhile.
    Waking on an edge change is a poll that may come at any time. *)

From S2P Require Import Prelude GraphTypes Channel.
#[local] Open Scope Z_scope.

Abbreviation OriginId := N (only parsing).

(** What a node does with its chunks.  [J] is the piece in flight. *)
Class Client (X J : Type) : Type := {
  blocked : list byte -> X -> X;                    (* attached, but not writable *)
  first : list byte -> X -> X * option J;           (* the first piece; [None]: nothing to do *)
  payload : J -> X -> X * option (list byte);       (* built once the lock is held *)
  forwarded : J -> X -> X * option J;               (* the piece is gone; the next one *)
  failed : J -> X -> X;                             (* it has nowhere to go *)
  shared : X -> X -> Prop }.                        (* what other tasks may do to [X] *)

(** The awaits of the loop. *)
Inductive PumpPhase (J : Type) :=
| PRecv
| PPark (chunk : list byte)
| PGate (o : OriginId) (j : J)
| PSend (o : OriginId) (j : J) (bytes : list byte)
| PDone.
Arguments PRecv {J}.
Arguments PPark {J} _.
Arguments PGate {J} _ _.
Arguments PSend {J} _ _ _.
Arguments PDone {J}.

Section pump.
Context {X J : Type} `{Client X J}.

(** [p_attached] and [p_origin] are the edge slot; [p_queued], [p_taken] and [p_up] are histories:
    what was queued, taken from the queue, and handed to an upstream endpoint. *)
Record Pump := mkPump {
  p_phase : PumpPhase J; p_client : X; p_queue : list (list byte); p_open : bool;
  p_attached : bool; p_origin : option OriginId;
  p_queued : list (list byte); p_taken : list (list byte); p_up : list (OriginId * list byte) }.

Definition pump_new (x : X) : Pump := mkPump PRecv x [] true false None [] [] [].

Definition move (ph : PumpPhase J) (x : X) (p : Pump) : Pump :=
  mkPump ph x (p_queue p) (p_open p) (p_attached p) (p_origin p) (p_queued p) (p_taken p) (p_up p).

(** One look at the slot by [await_origin], and the loop up to its next await. *)
Definition look (chunk : list byte) (p : Pump) : Pump :=
  match p_origin p with
  | Some o =>
      match first chunk (p_client p) with
      | (x, Some j) => move (PGate o j) x p
      | (x, None) => move PRecv x p
      end
  | None => if p_attached p then move PRecv (blocked chunk (p_client p)) p else move (PPark chunk) (p_client p) p
  end.

(** [forward_targetward] came back with nothing to charge. *)
Definition piece_done (o : OriginId) (j : J) (x : X) (p : Pump) : Pump :=
  match forwarded j x with
  | (x, Some j) => move (PGate o j) x p
  | (x, None) => move PRecv x p
  end.

Inductive PumpOp :=
| PQueue (chunk : list byte)
| PClose
| PEdge (attached : bool) (o : option OriginId)
| PTake
| PLook
| PLock (granted : bool)
| PSent (ok : bool).

Definition pump_step (op : PumpOp) (p : Pump) : option Pump :=
  match op with
  | PQueue chunk =>
      if p_open p then
        Some (mkPump (p_phase p) (p_client p) (p_queue p ++ [chunk]) true (p_attached p) (p_origin p)
                (p_queued p ++ [chunk]) (p_taken p) (p_up p))
      else None
  | PClose =>
      Some (mkPump (p_phase p) (p_client p) (p_queue p) false (p_attached p) (p_origin p) (p_queued p) (p_taken p) (p_up p))
  | PEdge attached o =>
      Some (mkPump (p_phase p) (p_client p) (p_queue p) (p_open p) attached o (p_queued p) (p_taken p) (p_up p))
  | PTake =>
      match p_phase p, p_queue p with
      | PRecv, chunk :: q =>
          Some (look chunk (mkPump PRecv (p_client p) q (p_open p) (p_attached p) (p_origin p) (p_queued p)
                              (p_taken p ++ [chunk]) (p_up p)))
      | PRecv, [] => if p_open p then None else Some (move PDone (p_client p) p)
      | _, _ => None
      end
  | PLook => match p_phase p with PPark chunk => Some (look chunk p) | _ => None end
  | PLock granted =>
      match p_phase p with
      | PGate o j =>
          if granted : bool then
            match payload j (p_client p) with
            | (x, Some bytes) => Some (move (PSend o j bytes) x p)
            | (x, None) => Some (piece_done o j x p)
            end
          else Some (move PRecv (failed j (p_client p)) p)
      | _ => None
      end
  | PSent ok =>
      match p_phase p with
      | PSend o j bytes =>
          if ok : bool then
            Some (piece_done o j (p_client p)
                    (mkPump (p_phase p) (p_client p) (p_queue p) (p_open p) (p_attached p) (p_origin p) (p_queued p)
                       (p_taken p) (p_up p ++ [(o, bytes)])))
          else Some (move PRecv (failed j (p_client p)) p)
      | _ => None
      end
  end.

Fixpoint pump_run (ops : list PumpOp) (p : Pump) : option Pump :=
  match ops with
  | [] => Some p
  | op :: ops => p ← pump_step op p; pump_run ops p
  end.

(** What the pump can come to, with other tasks sharing the client's state. *)
Inductive pump_reachable (x0 : X) : Pump -> Prop :=
| pr_new : pump_reachable x0 (pump_new x0)
| pr_step op p p' : pump_reachable x0 p -> pump_step op p = Some p' -> pump_reachable x0 p'
| pr_shared x p : pump_reachable x0 p -> shared (p_client p) x -> pump_reachable x0 (move (p_phase p) x p).

Lemma pump_run_reachable x0 ops p p' : pump_reachable x0 p -> pump_run ops p = Some p' -> pump_reachable x0 p'.
Proof.
  revert p. induction ops as [|op ops IH]; intros p R; cbn; [by intros [= <-]|].
  intros (p1 & E1 & E2)%bind_Some. eapply IH; [by eapply pr_step|exact E2].
Qed.

(** ** Invariants of a client *)

(** [inv taken up x j]: after taking [taken] (the chunk of [j] last) and handing on [up], in the state
    [x]; [sending] while the payload of [j] is offered. *)
Class ClientInv : Type := {
  inv : list (list byte) -> list (list byte) -> X -> option J -> Prop;
  sending : list (list byte) -> list (list byte) -> X -> J -> list byte -> Prop;
  inv_blocked t u x c : inv t u x None -> inv (t ++ [c]) u (blocked c x) None;
  inv_first t u x c : inv t u x None -> inv (t ++ [c]) u (first c x).1 (first c x).2;
  inv_payload t u x j : inv t u x (Some j) ->
    match (payload j x).2 with
    | Some b => sending t u (payload j x).1 j b
    | None => inv t u (forwarded j (payload j x).1).1 (forwarded j (payload j x).1).2
    end;
  inv_forwarded t u x j b : sending t u x j b -> inv t (u ++ [b]) (forwarded j x).1 (forwarded j x).2;
  inv_failed t u x j : inv t u x (Some j) -> inv t u (failed j x) None;
  inv_lost t u x j b : sending t u x j b -> inv t u (failed j x) None;
  inv_shared t u x x' j : shared x x' -> inv t u x j -> inv t u x' j;
  sending_shared t u x x' j b : shared x x' -> sending t u x j b -> sending t u x' j b }.

Context `{!ClientInv}.

Definition up_bytes (p : Pump) : list (list byte) := (p_up p).*2.

Definition phase_inv (p : Pump) : Prop :=
  match p_phase p with
  | PRecv | PDone => inv (p_taken p) (up_bytes p) (p_client p) None
  | PPark c => exists t, p_taken p = t ++ [c] /\ inv t (up_bytes p) (p_client p) None
  | PGate _ j => inv (p_taken p) (up_bytes p) (p_client p) (Some j)
  | PSend _ j b => sending (p_taken p) (up_bytes p) (p_client p) j b
  end.

Lemma look_inv c p t :
  p_taken p = t ++ [c] -> inv t (up_bytes p) (p_client p) None -> phase_inv (look c p).
Proof.
  intros Et I. unfold look, phase_inv. destruct (p_origin p) as [o|].
  - pose proof (inv_first _ _ _ c I) as F. rewrite <- Et in F. by destruct (first c (p_client p)) as [x [j|]].
  - destruct (p_attached p); cbn; [rewrite Et; by apply inv_blocked|eauto].
Qed.

Lemma piece_done_inv o j x p :
  inv (p_taken p) (up_bytes p) (forwarded j x).1 (forwarded j x).2 -> phase_inv (piece_done o j x p).
Proof. unfold piece_done, phase_inv. by destruct (forwarded j x) as [x' [j'|]]. Qed.

Lemma pump_step_inv op p p' :
  phase_inv p -> p_queued p = p_taken p ++ p_queue p -> pump_step op p = Some p' ->
  phase_inv p' /\ p_queued p' = p_taken p' ++ p_queue p'.
Proof.
  intros I Q E0. destruct op as [c| |a o| | |g|ok]; cbn in E0.
  - destruct (p_open p); [|done]. injection E0 as <-. split; [exact I|]. cbn. by rewrite Q, app_assoc.
  - injection E0 as <-. by split.
  - injection E0 as <-. by split.
  - unfold phase_inv in I. destruct (p_phase p) eqn:Ep; try done. destruct (p_queue p) as [|c q] eqn:Eq.
    + destruct (p_open p); [done|]. injection E0 as <-. split; [exact I|]. cbn. by rewrite Eq.
    + injection E0 as <-. set (p1 := mkPump _ _ _ _ _ _ _ _ _). split; [by apply (look_inv _ _ (p_taken p))|].
      assert (p_queued (look c p1) = p_queued p1 /\ p_taken (look c p1) = p_taken p1 /\ p_queue (look c p1) = p_queue p1)
        as (-> & -> & ->).
      { unfold look. destruct (p_origin p1); [by destruct (first _ _) as [? []]|by destruct (p_attached p1)]. }
      cbn. by rewrite <- app_assoc.
  - unfold phase_inv in I. destruct (p_phase p) eqn:Ep; try done. injection E0 as <-. destruct I as (t & Et & I).
    split; [by apply (look_inv _ _ t)|]. unfold look.
    destruct (p_origin p); [by destruct (first _ _) as [? []]|by destruct (p_attached p)].
  - unfold phase_inv in I. destruct (p_phase p) as [| |o j| |] eqn:Ep; try done. destruct g.
    + pose proof (inv_payload _ _ _ _ I) as P. destruct (payload j (p_client p)) as [x [b|]] eqn:Epay; injection E0 as <-.
      * by split.
      * split; [by apply piece_done_inv|]. unfold piece_done. by destruct (forwarded j x) as [? []].
    + injection E0 as <-. split; [by apply inv_failed|done].
  - unfold phase_inv in I. destruct (p_phase p) as [| | |o j b|] eqn:Ep; try done. destruct ok; injection E0 as <-.
    + split; [|unfold piece_done; by destruct (forwarded j _) as [? []]].
      apply piece_done_inv. cbn. unfold up_bytes. cbn. rewrite fmap_app. by apply inv_forwarded.
    + split; [by eapply inv_lost|done].
Qed.

Lemma pump_invariant x0 p :
  inv [] [] x0 None -> pump_reachable x0 p -> phase_inv p /\ p_queued p = p_taken p ++ p_queue p.
Proof.
  intros I0. induction 1 as [|op p p' R [I Q] E0|x p R [I Q] E0].
  - by split.
  - by eapply pump_step_inv.
  - split; [|done]. unfold phase_inv in *. cbn. destruct (p_phase p); cbn.
    + by eapply inv_shared.
    + destruct I as (t & -> & I). exists t. split; [done|]. by eapply inv_shared.
    + by eapply inv_shared.
    + by eapply sending_shared.
    + by eapply inv_shared.
Qed.

(** ** Progress *)

(** A client that runs out of pieces. *)
Class ClientProgress : Type := {
  pieces_left : J -> nat;
  pieces_left_forwarded x j j' : (forwarded j x).2 = Some j' -> (pieces_left j' < pieces_left j)%nat }.

Context `{!ClientProgress}.

(** The lock is granted and the upstream queue takes what it is offered. *)
Definition obliging (op : PumpOp) : Prop := op = PTake \/ op = PLook \/ op = PLock true \/ op = PSent true.

(** What a client's pieces keep, an obliging environment keeps while the origin is there. *)
Lemma obliging_keeps (Q : X -> Prop) o ops p p' :
  (forall c x, Q x -> Q (first c x).1) -> (forall j x, Q x -> Q (payload j x).1) -> (forall j x, Q x -> Q (forwarded j x).1) ->
  Forall obliging ops -> pump_run ops p = Some p' -> p_origin p = Some o -> Q (p_client p) ->
  Q (p_client p') /\ p_queued p' = p_queued p.
Proof.
  intros Q1 Q2 Q3 Hall. revert p.
  assert (Look : forall c p, p_origin p = Some o -> Q (p_client p) ->
    p_origin (look c p) = Some o /\ Q (p_client (look c p)) /\ p_queued (look c p) = p_queued p).
  { intros c p Eo Hq. unfold look. rewrite Eo. pose proof (Q1 c _ Hq). by destruct (first c (p_client p)) as [x [j|]]. }
  assert (Done : forall o' j x p, p_origin p = Some o -> Q x ->
    p_origin (piece_done o' j x p) = Some o /\ Q (p_client (piece_done o' j x p)) /\ p_queued (piece_done o' j x p) = p_queued p).
  { intros o' j x p Eo Hq. unfold piece_done. pose proof (Q3 j _ Hq). by destruct (forwarded j x) as [x' [j'|]]. }
  assert (One : forall op p p', obliging op -> pump_step op p = Some p' -> p_origin p = Some o -> Q (p_client p) ->
    p_origin p' = Some o /\ Q (p_client p') /\ p_queued p' = p_queued p).
  { intros op p p1 [->|[->|[->| ->]]] E1 Eo Hq; cbn in E1.
    - destruct (p_phase p); try done. destruct (p_queue p); [destruct (p_open p); [done|]|]; injection E1 as <-; [done|].
      match goal with |- context [look ?c ?q] => exact (Look c q Eo Hq) end.
    - destruct (p_phase p); try done. injection E1 as <-. by apply Look.
    - destruct (p_phase p) as [| |o' j| |]; try done. pose proof (Q2 j _ Hq).
      destruct (payload j (p_client p)) as [x [b|]]; injection E1 as <-; [done|by apply Done].
    - destruct (p_phase p) as [| | |o' j b|]; try done. injection E1 as <-.
      match goal with |- context [piece_done ?o ?j ?x ?q] => exact (Done o j x q Eo Hq) end. }
  induction Hall as [|op ops Hop Hall IH]; intros p; cbn; [by intros [= <-]|].
  intros (p1 & E1 & E2)%bind_Some Eo Hq. destruct (One op p p1) as (O1 & Q' & E); [done..|].
  destruct (IH p1 E2 O1 Q') as [Q'' E']. split; [done|congruence].
Qed.

(** The pump is idle, its edge and its queue as given. *)
Definition idle_with (o : OriginId) (q : list (list byte)) (p : Pump) : Prop :=
  p_phase p = PRecv /\ p_origin p = Some o /\ p_queue p = q.

Lemma piece_done_slot o j x p :
  p_origin (piece_done o j x p) = p_origin p /\ p_queue (piece_done o j x p) = p_queue p
  /\ match (forwarded j x).2 with
     | Some j' => p_phase (piece_done o j x p) = PGate o j'
     | None => p_phase (piece_done o j x p) = PRecv
     end.
Proof. unfold piece_done. by destruct (forwarded j x) as [? []]. Qed.

Lemma serve_job n j o o' q p :
  (pieces_left j < n)%nat -> p_phase p = PGate o' j -> p_origin p = Some o -> p_queue p = q ->
  exists ops p', Forall obliging ops /\ pump_run ops p = Some p' /\ idle_with o q p'.
Proof.
  revert j p. induction n as [|n IH]; intros j p Hn Ep Eo Eq; [lia|].
  assert (Next : forall x p1, p_origin p1 = Some o -> p_queue p1 = q ->
    exists ops p', Forall obliging ops /\ pump_run ops (piece_done o' j x p1) = Some p' /\ idle_with o q p').
  { intros x p1 E1 E2. destruct (piece_done_slot o' j x p1) as (D1 & D2 & D3).
    pose proof (pieces_left_forwarded x j) as L. destruct (forwarded j x).2 as [j'|].
    - apply (IH j'); [specialize (L j' eq_refl); lia|done|congruence|congruence].
    - exists [], (piece_done o' j x p1). split; [constructor|]. split; [done|]. split_and!; [done|congruence..]. }
  destruct (payload j (p_client p)) as [x [b|]] eqn:Epay.
  - destruct (Next x (mkPump (PSend o' j b) x (p_queue p) (p_open p) (p_attached p) (p_origin p) (p_queued p) (p_taken p)
      (p_up p ++ [(o', b)]))) as (ops & p' & Hall & Hr & Hi); [done..|].
    exists (PLock true :: PSent true :: ops), p'. split; [repeat (constructor; [unfold obliging; auto|]); done|].
    split; [|done]. cbn [pump_run pump_step]. rewrite Ep, Epay. exact Hr.
  - destruct (Next x p) as (ops & p' & Hall & Hr & Hi); [done..|].
    exists (PLock true :: ops), p'. split; [constructor; [unfold obliging; auto|done]|]. split; [|done].
    cbn [pump_run pump_step]. rewrite Ep, Epay. exact Hr.
Qed.

(** With an origin, a lock that is granted and an upstream that takes, the queue is served to the end. *)
Lemma serve_queue o q p :
  idle_with o q p -> exists ops p', Forall obliging ops /\ pump_run ops p = Some p' /\ idle_with o [] p'.
Proof.
  revert p. induction q as [|c q IH]; intros p (Ep & Eo & Eq).
  { exists [], p. by split_and!. }
  set (p1 := mkPump PRecv (p_client p) q (p_open p) (p_attached p) (p_origin p) (p_queued p) (p_taken p ++ [c]) (p_up p)).
  assert (exists ops p', Forall obliging ops /\ pump_run ops (look c p1) = Some p' /\ idle_with o q p') as (ops1 & p2 & F1 & R1 & I1).
  { unfold look. cbn [p_origin p1]. rewrite Eo. destruct (first c (p_client p1)) as [x [j|]].
    - by apply (serve_job (S (pieces_left j)) j o o); [lia|..].
    - eexists [], _. split_and!; [constructor|done..]. }
  destruct (IH p2 I1) as (ops2 & p' & F2 & R2 & I2). exists (PTake :: ops1 ++ ops2), p'.
  split; [constructor; [unfold obliging; auto|by apply Forall_app]|]. split; [|done].
  cbn [pump_run pump_step]. rewrite Ep, Eq. cbn [mbind option_bind]. fold p1. clear -R1 R2.
  revert R1. generalize (look c p1). induction ops1 as [|op ops1 IH]; intros p0; cbn; [by intros [= <-]|].
  intros (p3 & -> & R)%bind_Some. cbn. by apply IH.
Qed.
End pump.

Arguments Pump X J : clear implicits.
Arguments ClientInv X J {_}.
Arguments ClientProgress X J {_}.
