(* ===== verification/MapNode.v ===== *)
(** * The map node (daemon/src/nodes/map.rs)

    A character mapping between an upstream endpoint and its own consumers: hostward
    ([hostward_map]) a transformed broadcast, targetward ([targetward_map]) a pump
    whose client transforms each chunk once the upstream lock is held.  The counters are
    [Cell<u64>]s bumped at line rate: integers. *)

From S2P Require Import Prelude GraphTypes CharMap Config Tap State Channel FanOut Pump.
#[local] Open Scope Z_scope.

(** ** One direction *)

Record DirStat := mkDirStat { bytes_in : Z; bytes_out : Z; rule_counts : list Z }.
Definition dir_stat_new (rules : Z) : DirStat := mkDirStat 0 0 (replicate (Z.to_nat rules) 0).

Record Direction := mkDir { d_map : MapDirection; d_stat : DirStat }.

Definition count_rules (fired : list nat) (counts : list Z) : list Z :=
  foldl (fun counts rule => alter Z.succ rule counts) counts fired.

(** [Direction::transform]. *)
Definition transform (d : Direction) (input : list byte) : exec unit (list byte * Direction) :=
  '(out, fired) ← apply (d_map d) input [] [];
  let st := d_stat d in
  Ok (out, mkDir (d_map d) (mkDirStat (bytes_in st + len input) (bytes_out st + len out) (count_rules fired (rule_counts st)))).

(** One direction of [MapNode::create]. *)
Definition dir_create (names : list string) : exec string Direction :=
  d ← parse names; Ok (mkDir d (dir_stat_new (rule_count d))).

(** ** Targetward *)

Record MapTarget := mkTarget { t_dir : Direction; targetward_discarded : Z }.

Definition discard (n : Z) (x : MapTarget) : MapTarget := mkTarget (t_dir x) (targetward_discarded x + n).

(** The payload closure of [targetward_map]; [transform] cannot fail ([transform_ok]). *)
Definition map_payload (chunk : list byte) (x : MapTarget) : MapTarget * option (list byte) :=
  match transform (t_dir x) chunk with
  | Ok (mapped, d) => (mkTarget d (targetward_discarded x), if bool_decide (mapped = []) then None else Some mapped)
  | _ => (x, None)
  end.

(** The body of [targetward_map]: the chunk itself is the piece, and its cost is what arrived. *)
#[export] Instance map_client : Client MapTarget (list byte) := {
  blocked := fun chunk => discard (len chunk);
  first := fun chunk x => (x, Some chunk);
  payload := map_payload;
  forwarded := fun _ x => (x, None);
  failed := fun chunk => discard (len chunk);
  shared := eq }.

Lemma map_one_piece (x : MapTarget) (j j' : list byte) : (forwarded j x).2 = Some j' -> (0 < 0)%nat.
Proof. done. Qed.

#[export] Instance map_progress : ClientProgress MapTarget (list byte) :=
  { pieces_left := fun _ => 0%nat; pieces_left_forwarded := map_one_piece }.

(** ** The node *)

Section map_node.
Context {C : Type -> Type} `{MpscLaws C} `{Eng : Pattern.Engine}.

Record Hostward := mkHost { h_dir : Direction; h_sinks : list (AttachedSink (C := C)); h_feed : option Feed; hostward_unattached : Z }.

(** One chunk through [hostward_map]; [sent] is the tap feed's own send. *)
Definition hostward_map (chunk : list byte) (sent : bool) (h : Hostward) : exec unit Hostward :=
  '(mapped, d) ← transform (h_dir h) chunk;
  if bool_decide (mapped = []) then Ok (mkHost d (h_sinks h) (h_feed h) (hostward_unattached h))
  else
    let '(out, sinks, _) := fan_out mapped (h_sinks h) 0 in
    Ok (mkHost d sinks ((fun f => mirror f mapped sent) <$> h_feed h)
         (if live out then hostward_unattached h else hostward_unattached h + len mapped)).

Inductive MapReason := NoUpstream.
#[export] Instance map_reason_eq_dec : EqDecision MapReason.
Proof. solve_decision. Defined.

Record MapNode := mkMapNode { m_name : string; m_host : Hostward; m_target : Pump MapTarget (list byte); m_status : NodeState MapReason }.

Definition upstream_status (attached : bool) : NodeStatus MapReason := if attached then Active else Waiting NoUpstream.

(** [MapNode::create] and [start] on a raw side whose slot has these contents. *)
Definition map_create (name : string) (hostward targetward : list string) (sinks : list AttachedSink) (feed : option Feed)
    (attached : bool) (o : option OriginId) (now : Z) : exec string MapNode :=
  hd ← dir_create hostward;
  td ← dir_create targetward;
  let p := pump_new (mkTarget td 0) in
  let p := mkPump (p_phase p) (p_client p) [] true attached o [] [] [] in
  Ok (mkMapNode name (mkHost hd sinks feed 0) p
        (if attached then new_at Active now else set_status (Waiting NoUpstream) now (new_at Active now))).

Definition set_upstream_attached (addr : EndpointAddr) (attached : bool) (now : Z) (m : MapNode) : MapNode :=
  if negb (bool_decide (addr_node addr = m_name m)) || negb (bool_decide (addr_endpoint addr = MAP_RAW_ENDPOINT)) then m
  else mkMapNode (m_name m) (m_host m) (m_target m) (set_status (upstream_status attached) now (m_status m)).

Definition put_target (p : Pump MapTarget (list byte)) (m : MapNode) : MapNode := mkMapNode (m_name m) (m_host m) p (m_status m).
Definition put_host (h : Hostward) (m : MapNode) : MapNode := mkMapNode (m_name m) h (m_target m) (m_status m).

(** What can happen to the node: raw bytes arrive, consumers come, go and take, its targetward pump
    moves, its raw edge is attached or detached, another endpoint's is. *)
Inductive MapOp :=
| MChunk (chunk : list byte) (sent : bool)
| MConsumers (sinks : list (AttachedSink (C := C)))
| MPump (op : PumpOp)
| MEdge (attached : bool) (o : option OriginId) (now : Z)
| MOther (addr : EndpointAddr) (attached : bool) (now : Z).

Definition raw_addr (m : MapNode) : EndpointAddr := mkAddr (m_name m) MAP_RAW_ENDPOINT.

Definition map_step (op : MapOp) (m : MapNode) : option MapNode :=
  match op with
  | MChunk chunk sent => match hostward_map chunk sent (m_host m) with Ok h => Some (put_host h m) | _ => None end
  | MConsumers sinks =>
      let h := m_host m in Some (put_host (mkHost (h_dir h) sinks (h_feed h) (hostward_unattached h)) m)
  | MPump (PEdge _ _) => None
  | MPump op => p ← pump_step op (m_target m); Some (put_target p m)
  | MEdge attached o now =>
      p ← pump_step (PEdge attached o) (m_target m);
      Some (set_upstream_attached (raw_addr m) attached now (put_target p m))
  | MOther addr attached now =>
      if bool_decide (addr = raw_addr m) then None else Some (set_upstream_attached addr attached now m)
  end.

Fixpoint map_run (ops : list MapOp) (m : MapNode) : option MapNode :=
  match ops with
  | [] => Some m
  | op :: ops => m ← map_step op m; map_run ops m
  end.
End map_node.

(** ** What a direction computes *)

Definition mapped (rs : list Mapping) (c : list byte) : list byte := concat (first_match rs <$> c).

(** The bytes of [c] the [i]th rule substitutes. *)
Definition fires (rs : list Mapping) (i : nat) (c : list byte) : Z :=
  total (fun b => if bool_decide (first_rule rs b = [i]) then 1 else 0) c.

(** The direction for [rs] after transforming [ins]. *)
Record dir_after (rs : list Mapping) (ins : list (list byte)) (d : Direction) : Prop := {
  da_map : compile rs = Ok (d_map d);
  da_in : bytes_in (d_stat d) = total len ins;
  da_out : bytes_out (d_stat d) = total (fun c => len (mapped rs c)) ins;
  da_rules : length (rule_counts (d_stat d)) = length rs;
  da_counts : forall i n, rule_counts (d_stat d) !! i = Some n -> n = total (fires rs i) ins }.

Lemma count_rules_lookup fired counts i :
  count_rules fired counts !! i = Z.add (total (fun j => if bool_decide (j = i) then 1 else 0) fired) <$> counts !! i.
Proof.
  revert counts. induction fired as [|j fired IH]; intros counts.
  - cbn. by destruct (counts !! i).
  - change (count_rules (j :: fired) counts) with (count_rules fired (alter Z.succ j counts)). rewrite IH. destruct (decide (j = i)) as [->|Hne].
    + rewrite list_lookup_alter_eq. destruct (counts !! i) as [n|]; [|done]. cbn.
      rewrite total_cons, bool_decide_true by done. f_equal. lia.
    + rewrite list_lookup_alter_ne by done. destruct (counts !! i); [|done]. cbn.
      rewrite total_cons, bool_decide_false by done. done.
Qed.

Lemma length_count_rules fired counts : length (count_rules fired counts) = length counts.
Proof.
  revert counts. induction fired as [|j fired IH]; intros counts; [done|].
  transitivity (length (alter Z.succ j counts)); [apply IH|apply length_alter].
Qed.

Lemma fires_total rs i c :
  total (fun j => if bool_decide (j = i) then 1 else 0) (concat (first_rule rs <$> c)) = fires rs i c.
Proof.
  unfold fires. induction c as [|b c IH]; [done|]. cbn [fmap list_fmap concat]. rewrite total_app, IH, total_cons. f_equal.
  unfold first_rule. destruct (find_rule 0 rs b) as [[j m]|]; [|done]. rewrite total_cons. cbn.
  rewrite (bool_decide_ext (j = i) ([j] = [i])) by naive_solver. apply Z.add_0_r.
Qed.

Lemma transform_ok rs ins d c :
  dir_after rs ins d -> exists d', transform d c = Ok (mapped rs c, d') /\ dir_after rs (ins ++ [c]) d'.
Proof.
  intros [Hm Hi Ho Hr Hc]. unfold transform. rewrite (apply_spec rs) by done. cbn [mbind exec_bind app].
  eexists. split; [reflexivity|]. split; cbn.
  - done.
  - by rewrite Hi, total_app, total_cons, Z.add_0_r.
  - by rewrite Ho, total_app, total_cons, Z.add_0_r.
  - by rewrite length_count_rules.
  - intros i n. rewrite count_rules_lookup, fires_total. intros (k & Hk & ->)%fmap_Some.
    rewrite (Hc i k Hk), total_app, total_cons, Z.add_0_r. lia.
Qed.

Lemma dir_create_ok names d : dir_create names = Ok d -> exists rs, parse names = Ok (d_map d) /\ rules (d_map d) = rs /\ dir_after rs [] d.
Proof.
  unfold dir_create. destruct (parse names) as [md|e|] eqn:Ep; try done. intros [= <-]. exists (rules md). split; [done|]. split; [done|].
  unfold parse in Ep. destruct (parse_names names) as [rs|e|]; try done. rewrite bind_ok in Ep.
  destruct (compile_spec rs) as (d' & Hc & Hr & _). rewrite Hc in Ep. injection Ep as ->.
  rewrite Hr. split; cbn; try done.
  - rewrite length_replicate. unfold rule_count, len. by rewrite ?Hr, Nat2Z.id.
  - intros i n [-> _]%lookup_replicate_1. done.
Qed.

(** ** The targetward invariant *)

(** What became of a chunk: handed upstream as [mapped], never transformed, or lost after that. *)
Inductive Fate := Delivered | Refused | Lost.
#[export] Instance fate_eq_dec : EqDecision Fate.
Proof. solve_decision. Defined.

Definition having (f : Fate -> bool) (fates : list (list byte * Fate)) : list (list byte) :=
  (filter (fun p => f p.2 = true) fates).*1.
Definition is_delivered (f : Fate) : bool := match f with Delivered => true | _ => false end.
Definition was_transformed (f : Fate) : bool := match f with Refused => false | _ => true end.

Definition nonempty (c : list byte) : Prop := c <> [].
#[export] Instance nonempty_dec c : Decision (nonempty c).
Proof. unfold nonempty. apply _. Defined.

Lemma having_app f xs c fate : having f (xs ++ [(c, fate)]) = having f xs ++ (if f fate then [c] else []).
Proof.
  unfold having. rewrite filter_app, fmap_app. f_equal. rewrite filter_cons. cbn.
  destruct (f fate); [by rewrite decide_True by done|by rewrite decide_False by done].
Qed.

(** [now]: the chunk in hand has been transformed. *)
Record target_after (rs : list Mapping) (taken up : list (list byte)) (x : MapTarget) (hand : list (list byte)) (now : bool)
    (fates : list (list byte * Fate)) : Prop := {
  ta_taken : taken = fates.*1 ++ hand;
  ta_up : up = filter nonempty (mapped rs <$> having is_delivered fates);
  ta_lost : targetward_discarded x = total len (having (fun f => negb (is_delivered f)) fates);
  ta_dir : dir_after rs (having was_transformed fates ++ (if now then hand else [])) (t_dir x) }.

Definition target_inv rs taken up x hand now : Prop := exists fates, target_after rs taken up x hand now fates.

Definition hand_of {T} (o : option T) : list T := match o with Some x => [x] | None => [] end.

(** The chunk in hand meets its fate. *)
Lemma settle rs taken up x c now x' fate up' :
  target_inv rs taken up x [c] now ->
  now = was_transformed fate -> t_dir x' = t_dir x ->
  targetward_discarded x' = targetward_discarded x + (if is_delivered fate then 0 else len c) ->
  up' = up ++ (if is_delivered fate then filter nonempty [mapped rs c] else []) ->
  target_inv rs taken up' x' [] false.
Proof.
  intros (fates & [Ht Hu Hl Hd]) -> Ed El ->. exists (fates ++ [(c, fate)]). split.
  - rewrite fmap_app, app_nil_r. exact Ht.
  - rewrite having_app, fmap_app, filter_app, Hu. by destruct fate.
  - rewrite having_app, El, Hl. destruct fate; autorewrite with snx_len; cbn; rewrite ?app_nil_r; autorewrite with snx_len; lia.
  - rewrite having_app, Ed, app_nil_r. by destruct fate.
Qed.

(** A chunk taken and disposed of at once. *)
Lemma take_up rs taken up x c : target_inv rs taken up x [] false -> target_inv rs (taken ++ [c]) up x [c] false.
Proof. intros (fates & [Ht Hu Hl Hd]). exists fates. split; [by rewrite Ht, app_nil_r|done..]. Qed.

Section target_inv.
Context (rs : list Mapping).

Lemma map_payload_spec taken up x c :
  target_inv rs taken up x [c] false ->
  exists d, map_payload c x = (mkTarget d (targetward_discarded x), if bool_decide (mapped rs c = []) then None else Some (mapped rs c))
    /\ target_inv rs taken up (mkTarget d (targetward_discarded x)) [c] true.
Proof.
  intros (fates & [Ht Hu Hl Hd]). cbn in Hd. rewrite app_nil_r in Hd.
  destruct (transform_ok rs _ _ c Hd) as (d & E & Hd'). exists d. unfold map_payload. rewrite E. split; [done|].
  exists fates. by split.
Qed.

Program Definition map_inv : ClientInv MapTarget (list byte) := {|
  inv := fun taken up x j => target_inv rs taken up x (hand_of j) false;
  sending := fun taken up x c b => target_inv rs taken up x [c] true /\ b = mapped rs c /\ b <> [] |}.
Next Obligation. intros t u x c I. by apply (settle rs (t ++ [c]) u x c false _ Refused); [apply take_up|..|rewrite app_nil_r]. Qed.
Next Obligation. intros t u x c I. by apply take_up. Qed.
Next Obligation.
  intros t u x j I. destruct (map_payload_spec t u x j I) as (d & E & I'). cbn. rewrite E. case_bool_decide as Hm; cbn.
  - apply (settle rs t u (mkTarget d (targetward_discarded x)) j true _ Delivered); [done..|cbn; lia|].
    cbn [is_delivered]. by rewrite Hm, filter_cons_False, filter_nil, app_nil_r by (by intros []).
  - done.
Qed.
Next Obligation.
  intros t u x j b (I & -> & Hb). apply (settle rs t u x j true x Delivered); [done..|cbn; lia|].
  cbn [is_delivered]. by rewrite filter_cons_True.
Qed.
Next Obligation. intros t u x j I. by apply (settle rs t u x j false _ Refused); [..|rewrite app_nil_r]. Qed.
Next Obligation. intros t u x j b [I _]. by apply (settle rs t u x j true _ Lost); [..|rewrite app_nil_r]. Qed.
Next Obligation. by intros t u x x' j ->. Qed.
Next Obligation. by intros t u x x' j b ->. Qed.
End target_inv.

Lemma concat_mapped rs cs : concat (mapped rs <$> cs) = mapped rs (concat cs).
Proof.
  induction cs as [|c cs IH]; [done|]. cbn [fmap list_fmap concat]. unfold mapped in *. by rewrite IH, fmap_app, concat_app.
Qed.

Lemma concat_nonempty (cs : list (list byte)) : concat (filter nonempty cs) = concat cs.
Proof.
  induction cs as [|c cs IH]; [done|]. rewrite filter_cons. destruct (decide (nonempty c)) as [|E]; cbn; [by rewrite IH|].
  destruct c; [exact IH|by destruct E].
Qed.

(** What the pump can come to, in full. *)
Lemma target_reachable rs dir p :
  dir_after rs [] dir -> pump_reachable (mkTarget dir 0) p ->
  exists fates hand now, (length hand <= 1)%nat /\ p_queued p = fates.*1 ++ hand ++ p_queue p
    /\ up_bytes p = filter nonempty (mapped rs <$> having is_delivered fates)
    /\ targetward_discarded (p_client p) = total len (having (fun f => negb (is_delivered f)) fates)
    /\ dir_after rs (having was_transformed fates ++ (if now : bool then hand else [])) (t_dir (p_client p)).
Proof.
  intros Hd R. destruct (@pump_invariant _ _ _ (map_inv rs) (mkTarget dir 0) p) as [I Q]; [|exact R|].
  { exists []. by split. }
  assert (Sum : forall hand now fates, target_after rs (p_taken p) (up_bytes p) (p_client p) hand now fates -> (length hand <= 1)%nat ->
    exists fates hand now, (length hand <= 1)%nat /\ p_queued p = fates.*1 ++ hand ++ p_queue p
    /\ up_bytes p = filter nonempty (mapped rs <$> having is_delivered fates)
    /\ targetward_discarded (p_client p) = total len (having (fun f => negb (is_delivered f)) fates)
    /\ dir_after rs (having was_transformed fates ++ (if now : bool then hand else [])) (t_dir (p_client p))).
  { intros hand now fates [Ht Hu Hl Hm] Hn. exists fates, hand, now. split_and!; try done. by rewrite Q, Ht, <- app_assoc. }
  unfold phase_inv in I. destruct (p_phase p) as [|c|o j|o j b|].
  - destruct I as [fates I]. eapply (Sum _ _ _ I). cbn. lia.
  - destruct I as (t & Et & I). apply (take_up _ _ _ _ c) in I as [fates I]. rewrite <- Et in I. by apply (Sum _ _ _ I).
  - destruct I as [fates I]. by apply (Sum _ _ _ I).
  - destruct I as ([fates I] & _). by apply (Sum _ _ _ I).
  - destruct I as [fates I]. eapply (Sum _ _ _ I). cbn. lia.
Qed.

(** C40: Targetward a map is its character mapping and nothing else. However chunks are cut,
    the edge is attached, replaced, read-only or detached, the lock is stolen and the
    upstream queue stalls or closes: every chunk queued is delivered, discarded, in hand or
    still queued, in order; the upstream gets exactly the first-match image of the delivered
    bytes; and the loss counter is the bytes of the discarded ones. *)
Theorem map_targetward_exact names dir p :
  dir_create names = Ok dir -> pump_reachable (mkTarget dir 0) p ->
  exists fates hand, (length hand <= 1)%nat
    /\ p_queued p = fates.*1 ++ hand ++ p_queue p
    /\ concat (up_bytes p) = concat (first_match (rules (d_map dir)) <$> concat (having is_delivered fates))
    /\ targetward_discarded (p_client p) = total len (having (fun f => negb (is_delivered f)) fates).
Proof.
  intros (rs & _ & -> & Hd)%dir_create_ok R. destruct (target_reachable rs dir p Hd R) as (fates & hand & now & H1 & H2 & H3 & H4 & _).
  exists fates, hand. split_and!; [done..| |done]. by rewrite H3, concat_nonempty, concat_mapped.
Qed.

(** With a writable origin, a lock that is granted and an upstream that takes, the queue is
    served to its end and nothing is discarded. *)
Theorem map_targetward_serves x0 p o :
  pump_reachable x0 p -> p_phase p = PRecv -> p_origin p = Some o ->
  exists ops p', Forall obliging ops /\ pump_run ops p = Some p' /\ p_phase p' = PRecv /\ p_queue p' = []
    /\ p_queued p' = p_queued p
    /\ targetward_discarded (p_client p') = targetward_discarded (p_client p).
Proof.
  intros R Ep Eo. destruct (serve_queue o (p_queue p) p) as (ops & p' & Hall & Hr & I1 & I2 & I3); [by split_and!|].
  exists ops, p'. destruct (obliging_keeps (fun x => targetward_discarded x = targetward_discarded (p_client p)) o ops p p')
    as [K1 K2]; try done.
  intros j x <-. cbn. unfold map_payload. by destruct (transform (t_dir x) j) as [[? ?]| |].
Qed.

(** The rule counters claim more than left the node, though: a chunk whose send fails was
    transformed before. *)
Theorem lost_chunk_is_counted_as_mapped rs dir c :
  dir_after rs [] dir -> mapped rs c <> [] ->
  exists p, pump_run [PEdge true (Some 1%N); PQueue c; PTake; PLock true; PSent false] (pump_new (mkTarget dir 0)) = Some p
    /\ p_up p = [] /\ targetward_discarded (p_client p) = len c /\ dir_after rs [c] (t_dir (p_client p)).
Proof.
  intros Hd Hc. destruct (transform_ok rs [] dir c Hd) as (d & E & Hd').
  eexists. cbn. unfold map_payload. cbn. rewrite E, bool_decide_false by done. by split_and!.
Qed.

(** ** The whole node *)

Section node.
Context {C : Type -> Type} `{MpscLaws C} `{Eng : Pattern.Engine}.

(** Hostward: each consumer is offered the mapped chunk on its own; what finds no live consumer is
    counted; a chunk the rules delete is nothing. *)
Theorem hostward_map_exact rs ins (h : Hostward (C := C)) chunk sent :
  dir_after rs ins (h_dir h) ->
  exists h', hostward_map chunk sent h = Ok h' /\ dir_after rs (ins ++ [chunk]) (h_dir h')
    /\ let m := mapped rs chunk in
       h_sinks h' = (if bool_decide (m = []) then h_sinks h else sink_after m <$> h_sinks h)
       /\ hostward_unattached h' = hostward_unattached h
            + (if existsb (fun s => rx_open (s_tx s)) (h_sinks h) then 0 else len m)
       /\ h_feed h' = (if bool_decide (m = []) then h_feed h else (fun f => mirror f m sent) <$> h_feed h).
Proof.
  intros Hd. destruct (transform_ok rs ins (h_dir h) chunk Hd) as (d & E & Hd'). unfold hostward_map. rewrite E, bind_ok.
  cbv zeta. case_bool_decide as Em.
  - eexists. split; [done|]. split; [done|]. split_and!; [done| |done].
    cbn [hostward_unattached]. replace (len (mapped rs chunk)) with 0 by (by rewrite Em). case_match; lia.
  - unfold fan_out. pose proof (fan_loop_spec (mapped rs chunk) (mkFan false 0 0) (h_sinks h)) as L.
    destruct (fan_loop _ _ _) as [out sinks]. destruct L as (-> & Hl & _). cbn in Hl. rewrite some_live in Hl.
    eexists. split; [done|]. split; [done|]. cbn. rewrite Hl. split_and!; [done| |done]. case_match; lia.
Qed.

Definition chunks_of (ops : list (MapOp (C := C))) : list (list byte) :=
  omap (fun op => match op with MChunk chunk _ => Some chunk | _ => None end) ops.

(** What every run of a node keeps. *)
Record node_inv (hs : list Mapping) (x0 : MapTarget) (ins : list (list byte)) (m : MapNode (C := C)) : Prop := {
  ni_host : dir_after hs ins (h_dir (m_host m));
  ni_target : pump_reachable x0 (m_target m);
  ni_status : node_status (m_status m) = upstream_status (p_attached (m_target m)) }.

Lemma pump_step_attached op (p p' : Pump MapTarget (list byte)) :
  (forall a o, op <> PEdge a o) -> pump_step op p = Some p' -> p_attached p' = p_attached p.
Proof.
  intros Hop E0. destruct op as [c| |a o| | |g|ok]; cbn in E0.
  - destruct (p_open p); [|done]. by injection E0 as <-.
  - by injection E0 as <-.
  - by destruct (Hop a o).
  - destruct (p_phase p); try done. destruct (p_queue p); [destruct (p_open p); [done|]|]; injection E0 as <-; [done|].
    unfold look. cbn. by destruct (p_origin p), (p_attached p) eqn:Ea.
  - destruct (p_phase p); try done. injection E0 as <-. unfold look. cbn. by destruct (p_origin p), (p_attached p) eqn:Ea.
  - destruct (p_phase p); try done. destruct g; [|by injection E0 as <-].
    destruct (map_payload _ _) as [x [b|]]; by injection E0 as <-.
  - destruct (p_phase p); try done. destruct ok; by injection E0 as <-.
Qed.

Lemma map_step_inv hs x0 ins op m m' :
  node_inv hs x0 ins m -> map_step op m = Some m' -> node_inv hs x0 (ins ++ chunks_of [op]) m'.
Proof.
  intros [Hh Ht Hs] E0. destruct op as [chunk sent|sinks|op|a o now|addr a now]; cbn in E0 |- *; rewrite ?app_nil_r.
  - destruct (hostward_map_exact hs ins (m_host m) chunk sent Hh) as (h & E & Hd & _). rewrite E in E0.
    injection E0 as <-. by split.
  - injection E0 as <-. by split.
  - assert (exists p, pump_step op (m_target m) = Some p /\ m' = put_target p m /\ forall a o, op <> PEdge a o) as (p & E & -> & Hop).
    { destruct op; try done; apply bind_Some in E0 as (p & E & [= <-]); by exists p. }
    split; cbn; [done|by eapply pr_step|]. by rewrite (pump_step_attached op (m_target m) p).
  - injection E0 as <-. unfold set_upstream_attached. rewrite !bool_decide_true by done. split; cbn.
    + done.
    + by eapply (pr_step _ (PEdge a o)).
    + unfold set_status, set_at. by case_bool_decide.
  - unfold raw_addr, set_upstream_attached in *. destruct addr as [n e]. cbn in *.
    repeat case_bool_decide; cbn in E0; simplify_eq; try done; by split.
Qed.

Lemma map_run_inv hs x0 ins ops m m' :
  node_inv hs x0 ins m -> map_run ops m = Some m' -> node_inv hs x0 (ins ++ chunks_of ops) m'.
Proof.
  revert m ins. induction ops as [|op ops IH]; intros m ins I; [intros [= <-]; by rewrite app_nil_r|].
  cbn [map_run].
  intros (m1 & E1 & E2)%bind_Some. pose proof (map_step_inv _ _ _ op m m1 I E1) as I1.
  replace (ins ++ chunks_of (op :: ops)) with ((ins ++ chunks_of [op]) ++ chunks_of ops); [by eapply IH|].
  rewrite <- app_assoc. f_equal. unfold chunks_of. cbn. by destruct op.
Qed.

(** A map node, over its whole life. Whatever happens to it after its creation, its
    hostward counters are exactly those of the chunks that arrived, in bytes in, bytes out
    and substitutions per configured rule; its targetward side is a run of its pump from the
    configured rules; and it reports itself active exactly while its raw side is attached. *)
Theorem map_node_coherent name hn tn sinks feed att o now (ops : list (MapOp (C := C))) m m' :
  map_create name hn tn sinks feed att o now = Ok m -> map_run ops m = Some m' ->
  exists hd td, dir_create hn = Ok hd /\ dir_create tn = Ok td
    /\ (let st := d_stat (h_dir (m_host m')) in let rs := rules (d_map hd) in
        bytes_in st = len (concat (chunks_of ops))
        /\ bytes_out st = len (concat (first_match rs <$> concat (chunks_of ops)))
        /\ forall i n, rule_counts st !! i = Some n ->
             n = total (fun b => if bool_decide (first_rule rs b = [i]) then 1 else 0) (concat (chunks_of ops)))
    /\ pump_reachable (mkTarget td 0) (m_target m')
    /\ (node_status (m_status m') = Active <-> p_attached (m_target m') = true).
Proof.
  unfold map_create. destruct (dir_create hn) as [hd|e|] eqn:Eh; try done. destruct (dir_create tn) as [td|e|] eqn:Et; try done.
  intros [= <-] Hr. exists hd, td. split; [done|]. split; [done|].
  destruct (dir_create_ok hn hd Eh) as (hs & _ & -> & Hh).
  match type of Hr with map_run _ ?m0 = _ => assert (node_inv hs (mkTarget td 0) [] m0) as I end.
  { split; cbn; [done| |by destruct att]. eapply (pr_step _ (PEdge att o)); [apply pr_new|done]. }
  assert (node_inv hs (mkTarget td 0) (chunks_of ops) m') as [[Hm Hi Ho _ Hc] Ht Hs].
  { exact (map_run_inv _ _ [] ops _ m' I Hr). }
  assert (Cat : forall f : list byte -> Z, (forall a b, f (a ++ b) = f a + f b) -> f [] = 0 ->
    forall cs, total f cs = f (concat cs)).
  { intros f Ha H0' cs. induction cs as [|c cs IH]; cbn; [done|]. by rewrite total_cons, IH, Ha. }
  split_and!.
  - rewrite Hi. apply Cat; [apply len_app|done].
  - rewrite Ho. apply (Cat (fun c => len (mapped hs c))); [|done]. intros a b. unfold mapped.
    by rewrite fmap_app, concat_app, len_app.
  - intros i n En. rewrite (Hc i n En). apply (Cat (fires hs i)); [|done]. intros a b. apply total_app.
  - done.
  - rewrite Hs. unfold upstream_status. by destruct (p_attached (m_target m')).
Qed.
End node.

(** ** Witnesses *)

(** CR becomes LF, LF is dropped; the second rule never fires. *)
Definition demo_names : list string := ["crlf"; "igncr"; "ignlf"].
Definition demo_dir : Direction :=
  match dir_create demo_names with Ok d => d | _ => mkDir (mkDirection [] [] 1) (dir_stat_new 0) end.

(** "a\r\n" delivered, then a chunk refused for want of a writable edge, then one in hand. *)
Definition demo_pump : Pump MapTarget (list byte) :=
  default (pump_new (mkTarget demo_dir 0))
    (pump_run [PQueue [x61; x0d; x0a]; PQueue [x62]; PQueue [x63; x0d]; PEdge true (Some 4%N); PTake; PLock true; PSent true;
               PEdge true None; PTake; PEdge false None; PTake] (pump_new (mkTarget demo_dir 0))).

Lemma demo_pump_reachable : pump_reachable (mkTarget demo_dir 0) demo_pump.
Proof.
  apply (pump_run_reachable _ [PQueue [x61; x0d; x0a]; PQueue [x62]; PQueue [x63; x0d]; PEdge true (Some 4%N); PTake; PLock true;
    PSent true; PEdge true None; PTake; PEdge false None; PTake] (pump_new (mkTarget demo_dir 0))); [constructor|].
  vm_compute. reflexivity.
Qed.

Lemma map_targetward_exact_witness :
  p_up demo_pump = [(4%N, [x61; x0a])] /\ targetward_discarded (p_client demo_pump) = 1 /\ p_phase demo_pump = PPark [x63; x0d]
  /\ exists fates hand, (length hand <= 1)%nat /\ p_queued demo_pump = fates.*1 ++ hand ++ p_queue demo_pump
    /\ targetward_discarded (p_client demo_pump) = total len (having (fun f => negb (is_delivered f)) fates).
Proof.
  split; [vm_compute; reflexivity|]. split; [vm_compute; reflexivity|]. split; [vm_compute; reflexivity|].
  destruct (map_targetward_exact demo_names demo_dir demo_pump) as (fates & hand & H1 & H2 & _ & H4).
  - vm_compute. reflexivity.
  - exact demo_pump_reachable.
  - exists fates, hand. split_and!; [exact H1|exact H2|exact H4].
Defined.

Lemma map_targetward_serves_witness :
  let p := mkPump PRecv (mkTarget demo_dir 0) [[x61]; [x62]] true true (Some 4%N) [[x61]; [x62]] [] [] in
  exists ops (p' : Pump MapTarget (list byte)),
    Forall obliging ops /\ pump_run ops p = Some p' /\ p_queue p' = [] /\ targetward_discarded (p_client p') = 0.
Proof.
  intros p. destruct (map_targetward_serves (mkTarget demo_dir 0) p 4) as (ops & p' & H1 & H2 & _ & H4 & _ & H6).
  - apply (pump_run_reachable _ [PQueue [x61]; PQueue [x62]; PEdge true (Some 4%N)] (pump_new (mkTarget demo_dir 0))); [constructor|].
    vm_compute. reflexivity.
  - reflexivity.
  - reflexivity.
  - exists ops, p'. split_and!; [exact H1|exact H2|exact H4|exact H6].
Defined.

Lemma demo_dir_after : dir_after (rules (d_map demo_dir)) [] demo_dir.
Proof.
  assert (dir_create demo_names = Ok demo_dir) as E by (vm_compute; reflexivity).
  destruct (dir_create_ok demo_names demo_dir E) as (rs & _ & -> & H). exact H.
Qed.

Lemma lost_chunk_is_counted_as_mapped_witness :
  exists p : Pump MapTarget (list byte), p_up p = [] /\ targetward_discarded (p_client p) = 2 /\ rule_counts (d_stat (t_dir (p_client p))) = [1; 0; 0].
Proof.
  destruct (lost_chunk_is_counted_as_mapped (rules (d_map demo_dir)) demo_dir [x61; x0d]) as (p & H1 & H2 & H3 & _).
  - exact demo_dir_after.
  - vm_compute. discriminate.
  - exists p. vm_compute in H1. injection H1 as <-. split; [exact H2|]. split; [exact H3|]. reflexivity.
Defined.

Definition demo_map_node : MapNode (C := Bounded) (Eng := Pattern.literal_engine) :=
  match map_create "m" demo_names [] [demo_sink 1 "pty"] None true (Some 4%N) 0 with
  | Ok m => m
  | _ => mkMapNode "" (mkHost demo_dir [] None 0) (pump_new (mkTarget demo_dir 0)) (new_at Active 0)
  end.

Lemma hostward_map_exact_witness :
  exists h', hostward_map [x0d; x0a] true (m_host demo_map_node) = Ok h' /\ hostward_unattached h' = 0
    /\ h_sinks h' = sink_after [x0a] <$> [demo_sink 1 "pty"].
Proof.
  destruct (hostward_map_exact (rules (d_map demo_dir)) [] (m_host demo_map_node) [x0d; x0a] true) as (h' & H1 & _ & H3 & H4 & _).
  - exact demo_dir_after.
  - exists h'. split; [exact H1|]. split; [rewrite H4; vm_compute; reflexivity|]. rewrite H3. vm_compute. reflexivity.
Defined.

Definition demo_map_ops : list (MapOp (C := Bounded)) :=
  [MChunk [x61; x0d] true; MEdge false None 5; MConsumers []; MChunk [x0a; x0d] true; MPump (PQueue [x61])].

Definition demo_map_after : MapNode := default demo_map_node (map_run demo_map_ops demo_map_node).

Lemma map_node_coherent_witness :
  rule_counts (d_stat (h_dir (m_host demo_map_after))) = [2; 0; 1] /\ hostward_unattached (m_host demo_map_after) = 1
  /\ node_status (m_status demo_map_after) <> Active
  /\ bytes_in (d_stat (h_dir (m_host demo_map_after))) = len (concat (chunks_of demo_map_ops)).
Proof.
  split; [vm_compute; reflexivity|]. split; [vm_compute; reflexivity|]. split; [vm_compute; discriminate|].
  destruct (map_node_coherent "m" demo_names [] [demo_sink 1 "pty"] None true (Some 4%N) 0 demo_map_ops demo_map_node demo_map_after)
    as (hd & td & _ & _ & (H & _) & _).
  - reflexivity.
  - vm_compute. reflexivity.
  - exact H.
Defined.
