(* ===== verification/CodecNode.v ===== *)
(** * The codec node (daemon/src/nodes/codec.rs)

    A demultiplexer between one multiplexed upstream and its channels, around any
    [Codec]: hostward it decodes and routes ([hostward_demux], with the node's protocol
    health and the identities it is not configured for), targetward each channel is a
    pump that frames its chunks ([channel_targetward]).  Counters are [Cell<u64>]s and a
    plain [u64] bumped at line rate: integers. *)

From S2P Require Import Prelude GraphTypes Envelope Reference Tap State Channel Frames FanOut Identity Pump.
#[local] Open Scope Z_scope.

(** ** The transform as the node sees it *)

(** [Codec::demux] with the events it emitted even when it refuses, and the text of the
    refusal; [Codec::mux] with the frame it appended. *)
Class Transform (T : Type) : Type := {
  tr_demux : T -> list byte -> list Event * option string * T;
  tr_mux : T -> Event -> option (list byte) * T }.

(** The reference codec never refuses a chunk ([demux_total_bounded]), so no error text is needed. *)
#[export] Instance reference_transform : Transform ReferenceCodec := {
  tr_demux := fun c input =>
    match codec_demux c input with (Ok evs, c) => (evs, None, c) | (_, c) => ([], Some ""%string, c) end;
  tr_mux := fun c ev =>
    match codec_mux c ev [] with (Ok _, out, c) => (Some out, c) | (_, _, c) => (None, c) end }.

(** ** State *)

Record ChannelStat := mkStat {
  delivered_hostward : Z; discarded_unattached : Z; accepted_targetward : Z; discarded_targetward : Z; ch_active : bool }.
Definition stat_default : ChannelStat := mkStat 0 0 0 0 false.

Definition set_ch_active (b : bool) (s : ChannelStat) : ChannelStat :=
  mkStat (delivered_hostward s) (discarded_unattached s) (accepted_targetward s) (discarded_targetward s) b.
Definition on_delivered (n : Z) (s : ChannelStat) : ChannelStat :=
  mkStat (delivered_hostward s + n) (discarded_unattached s) (accepted_targetward s) (discarded_targetward s) (ch_active s).
Definition on_unattached (n : Z) (s : ChannelStat) : ChannelStat :=
  mkStat (delivered_hostward s) (discarded_unattached s + n) (accepted_targetward s) (discarded_targetward s) (ch_active s).
Definition on_accepted (n : Z) (s : ChannelStat) : ChannelStat :=
  mkStat (delivered_hostward s) (discarded_unattached s) (accepted_targetward s + n) (discarded_targetward s) (ch_active s).
Definition on_discarded (n : Z) (s : ChannelStat) : ChannelStat :=
  mkStat (delivered_hostward s) (discarded_unattached s) (accepted_targetward s) (discarded_targetward s + n) (ch_active s).

(** A slow consumer's full-buffer loss is left to that consumer's own counter. *)
#[export] Instance codec_stat : HostwardChannelStat ChannelStat := {
  set_active := set_ch_active true;
  add_delivered := on_delivered;
  add_unattached := on_unattached;
  add_dropped_full := fun _ s => s }.

Record UnconfiguredChannels := mkUnconfigured { u_set : IdentitySet; u_bytes : Z }.
Definition unconfigured_default : UnconfiguredChannels := mkUnconfigured identity_default 0.
(** [record], without its one log line per identity. *)
Definition record (id : string) (n : Z) (u : UnconfiguredChannels) : UnconfiguredChannels :=
  mkUnconfigured (id_insert id (u_set u)).2 (u_bytes u + n).

Record DemuxHealth := mkHealth { dh_errors : Z; dh_discarded : Z; dh_faulted : bool; dh_last : option string }.
Definition health_default : DemuxHealth := mkHealth 0 0 false None.

(** Why the node waits or is faulted; the prefix of the demux fault is the constructor. *)
Inductive CodecReason := NoDriver | NoUpstream | DemuxError (reason : string).
#[export] Instance codec_reason_eq_dec : EqDecision CodecReason.
Proof. solve_decision. Defined.

Definition is_data (ev : Event) : Z := match kind ev with Envelope.Data bytes => len bytes | _ => 0 end.
Definition salvaged (evs : list Event) : Z := total is_data evs.

(** What became of one data event; [Slow]: every live consumer was full and was charged itself. *)
Inductive Verdict := Reached | Unattached | Slow | Unconfigured.
#[export] Instance verdict_eq_dec : EqDecision Verdict.
Proof. solve_decision. Defined.

Section codec.
Context {T : Type} `{Transform T} {C : Type -> Type} `{MpscLaws C} `{Eng : Pattern.Engine}.

(** ** Hostward *)

(** What the demux task works on.  [d_log] is the history of the data events routed, with their
    channel, length and fate; [d_refused] that of the refusals, with the loss of each. *)
Record Demux := mkDemux {
  d_codec : T; channel_sinks : gmap string (list (AttachedSink (C := C))); channel_feeds : gmap string Feed;
  d_stats : gmap string ChannelStat; unconfigured : UnconfiguredChannels; d_health : DemuxHealth;
  d_status : NodeState CodecReason; d_log : list (string * Z * Verdict); d_refused : list Z }.

Definition put_status (now : Z) (st : NodeStatus CodecReason) (d : Demux) : Demux :=
  mkDemux (d_codec d) (channel_sinks d) (channel_feeds d) (d_stats d) (unconfigured d) (d_health d)
    (set_status st now (d_status d)) (d_log d) (d_refused d).
Definition put_health (h : DemuxHealth) (d : Demux) : Demux :=
  mkDemux (d_codec d) (channel_sinks d) (channel_feeds d) (d_stats d) (unconfigured d) h (d_status d) (d_log d) (d_refused d).
Definition put_refused (n : Z) (d : Demux) : Demux :=
  mkDemux (d_codec d) (channel_sinks d) (channel_feeds d) (d_stats d) (unconfigured d) (d_health d) (d_status d) (d_log d)
    (d_refused d ++ [n]).
Definition put_codec (c : T) (d : Demux) : Demux :=
  mkDemux c (channel_sinks d) (channel_feeds d) (d_stats d) (unconfigured d) (d_health d) (d_status d) (d_log d) (d_refused d).

Definition note_demux_error (now chunk_len salvaged : Z) (reason : string) (d : Demux) : Demux :=
  let h := d_health d in
  let lost := Z.max 0 (chunk_len - salvaged) in
  let changed := negb (bool_decide (dh_last h = Some reason)) in
  let d := put_refused lost (put_health (mkHealth (dh_errors h + 1) (dh_discarded h + lost) (dh_faulted h) (Some reason)) d) in
  if negb changed && dh_faulted h then d
  else
    let d := put_status now (Faulted (DemuxError reason)) d in
    let h := d_health d in put_health (mkHealth (dh_errors h) (dh_discarded h) true (dh_last h)) d.

Definition clear_demux_fault (now : Z) (d : Demux) : Demux :=
  let h := d_health d in
  let d := put_health (mkHealth (dh_errors h) (dh_discarded h) false (dh_last h)) d in
  match node_status (d_status d) with Faulted (DemuxError _) => put_status now Active d | _ => d end.

(** The fate of a data event for [ch], read off its consumers before it is routed. *)
Definition verdict (ch : string) (bytes : list byte) (d : Demux) : Verdict :=
  match d_stats d !! ch with
  | None => Unconfigured
  | Some _ =>
      match channel_sinks d !! ch with
      | None => Unattached
      | Some sinks =>
          if some_sink Took bytes sinks then Reached
          else if existsb (fun s => rx_open (s_tx s)) sinks then Slow else Unattached
      end
  end.

(** The body of the event loop; [sent] is the tap feed's own send. *)
Definition route_event (ev : Event) (sent : bool) (d : Demux) : Demux :=
  let ch := Envelope.channel ev in
  match kind ev with
  | Envelope.Data bytes =>
      let n := len bytes in
      let log := d_log d ++ [(ch, n, verdict ch bytes d)] in
      match d_stats d !! ch with
      | None => mkDemux (d_codec d) (channel_sinks d) (channel_feeds d) (d_stats d) (record ch n (unconfigured d))
                  (d_health d) (d_status d) log (d_refused d)
      | Some s =>
          let '(feed, sinks, stat) := route_channel_data bytes (channel_feeds d !! ch) sent (channel_sinks d !! ch) (Some s) in
          mkDemux (d_codec d) (partial_alter (fun _ => sinks) ch (channel_sinks d))
            (partial_alter (fun _ => feed) ch (channel_feeds d)) (partial_alter (fun _ => stat) ch (d_stats d))
            (unconfigured d) (d_health d) (d_status d) log (d_refused d)
      end
  | Envelope.Open =>
      match d_stats d !! ch with
      | Some s => mkDemux (d_codec d) (channel_sinks d) (channel_feeds d) (<[ch := set_ch_active true s]> (d_stats d))
                    (unconfigured d) (d_health d) (d_status d) (d_log d) (d_refused d)
      | None => mkDemux (d_codec d) (channel_sinks d) (channel_feeds d) (d_stats d) (record ch 0 (unconfigured d))
                  (d_health d) (d_status d) (d_log d) (d_refused d)
      end
  | Envelope.Close =>
      mkDemux (d_codec d) (channel_sinks d) (channel_feeds d) (alter (set_ch_active false) ch (d_stats d))
        (unconfigured d) (d_health d) (d_status d) (d_log d) (d_refused d)
  | Envelope.Error _ => d
  end.

(** The events of one chunk, each with its feed's answer (taken, where the list ends). *)
Fixpoint route_events (evs : list Event) (sent : list bool) (d : Demux) : Demux :=
  match evs with
  | [] => d
  | ev :: evs => route_events evs (tail sent) (route_event ev (default true (head sent)) d)
  end.

(** One chunk through [hostward_demux]. *)
Definition hostward_demux (now : Z) (chunk : list byte) (sent : list bool) (d : Demux) : Demux :=
  let '(evs, refused, c) := tr_demux (d_codec d) chunk in
  let d := put_codec c d in
  let d := match refused with
           | Some reason => note_demux_error now (len chunk) (salvaged evs) reason d
           | None => if dh_faulted (d_health d) then clear_demux_fault now d else d
           end in
  route_events evs sent d.

(** [set_upstream_attached] on the multiplexed endpoint. *)
Definition set_upstream_attached (now : Z) (attached : bool) (d : Demux) : Demux :=
  let h := d_health d in
  put_status now (if attached then Active else Waiting NoUpstream)
    (put_health (mkHealth (dh_errors h) (dh_discarded h) false (dh_last h)) d).

(** [CodecNode::create] and [start] of a demultiplexer whose slot is [attached]. *)
Definition demux_new (codec : T) (channels : list string) (sinks : gmap string (list AttachedSink)) (feeds : gmap string Feed)
    (attached : bool) (now : Z) : Demux :=
  let d := mkDemux codec sinks feeds (list_to_map ((fun ch => (ch, stat_default)) <$> channels)) unconfigured_default
             health_default (new_at Active now) [] [] in
  if attached then d else put_status now (Waiting NoUpstream) d.

(** What can happen to the hostward side: a chunk, edge surgery on the multiplexed side (a chunk of the
    old edge may still be queued then), consumers of a channel, and what the other tasks do: mux
    through the codec, move the targetward counters. *)
Inductive DemuxOp :=
| DChunk (now : Z) (chunk : list byte) (sent : list bool)
| DUpstream (now : Z) (attached : bool)
| DConsumers (ch : string) (sinks : list (AttachedSink (C := C)))
| DMux (ev : Event)
| DTargetward (ch : string) (accepted discarded : Z).

Definition demux_step (op : DemuxOp) (d : Demux) : Demux :=
  match op with
  | DChunk now chunk sent => hostward_demux now chunk sent d
  | DUpstream now attached => set_upstream_attached now attached d
  | DConsumers ch sinks =>
      mkDemux (d_codec d) (<[ch := sinks]> (channel_sinks d)) (channel_feeds d) (d_stats d) (unconfigured d) (d_health d)
        (d_status d) (d_log d) (d_refused d)
  | DMux ev => put_codec (tr_mux (d_codec d) ev).2 d
  | DTargetward ch accepted discarded =>
      mkDemux (d_codec d) (channel_sinks d) (channel_feeds d)
        (alter (fun s => on_accepted accepted (on_discarded discarded s)) ch (d_stats d)) (unconfigured d) (d_health d)
        (d_status d) (d_log d) (d_refused d)
  end.

Definition demux_run (ops : list DemuxOp) (d : Demux) : Demux := foldl (fun d op => demux_step op d) d ops.

(** ** What the hostward side keeps *)

(** The bytes of [ch] with fate [v]. *)
Definition logged (ch : string) (v : Verdict) (log : list (string * Z * Verdict)) : Z :=
  total (fun e => if bool_decide (e.1.1 = ch /\ e.2 = v) then e.1.2 else 0) log.

Definition fault_ok (d : Demux) : Prop :=
  if dh_faulted (d_health d) then exists r, node_status (d_status d) = Faulted (DemuxError r) /\ dh_last (d_health d) = Some r
  else forall r, node_status (d_status d) <> Faulted (DemuxError r).

Record demux_ok (channels : list string) (d : Demux) : Prop := {
  do_dom : forall ch, d_stats d !! ch <> None <-> ch ∈ channels;
  do_counts : forall ch s, d_stats d !! ch = Some s ->
    delivered_hostward s = logged ch Reached (d_log d) /\ discarded_unattached s = logged ch Unattached (d_log d);
  do_unconfigured : u_bytes (unconfigured d) = total (fun e => if bool_decide (e.2 = Unconfigured) then e.1.2 else 0) (d_log d);
  do_log : Forall (fun e => e.2 = Unconfigured <-> e.1.1 ∉ channels) (d_log d);
  do_errors : dh_errors (d_health d) = len (d_refused d) /\ dh_discarded (d_health d) = total id (d_refused d);
  do_fault : fault_ok d }.

Lemma logged_app ch v log e : logged ch v (log ++ [e]) = logged ch v log + (if bool_decide (e.1.1 = ch /\ e.2 = v) then e.1.2 else 0).
Proof. unfold logged. by rewrite total_app, total_cons, Z.add_0_r. Qed.

(** [route_channel_data] on a configured channel moves the counter its verdict names. *)
Lemma route_configured ch bytes sent d s :
  d_stats d !! ch = Some s ->
  exists feed sinks s', route_channel_data bytes (channel_feeds d !! ch) sent (channel_sinks d !! ch) (Some s) = (feed, sinks, Some s')
    /\ delivered_hostward s' = delivered_hostward s + (if bool_decide (verdict ch bytes d = Reached) then len bytes else 0)
    /\ discarded_unattached s' = discarded_unattached s + (if bool_decide (verdict ch bytes d = Unattached) then len bytes else 0)
    /\ verdict ch bytes d <> Unconfigured.
Proof.
  intros Es. unfold verdict. rewrite Es. destruct (route_channel_data_spec bytes (channel_feeds d !! ch) sent (channel_sinks d !! ch) s)
    as (feed & sinks' & dropped & ->). eexists _, _, _. split; [done|]. destruct (channel_sinks d !! ch) as [sinks|].
  - pose proof (some_live bytes sinks) as Hs.
    destruct (some_sink Took bytes sinks), (existsb _ sinks); cbn in Hs |- *; try done; split_and!; try done; case_bool_decide; done || lia.
  - cbn. split_and!; try done; case_bool_decide; done || lia.
Qed.

Lemma route_event_ok channels ev sent d :
  demux_ok channels d -> demux_ok channels (route_event ev sent d)
  /\ (d_log (route_event ev sent d)).*1 = (d_log d).*1 ++ match kind ev with Envelope.Data bytes => [(Envelope.channel ev, len bytes)] | _ => [] end.
Proof.
  intros O. destruct O as [D1 D2 D3 D4 D5 D6]. unfold route_event. set (ch := Envelope.channel ev).
  destruct (kind ev) as [bytes| | |msg]; rewrite ?app_nil_r.
  - destruct (d_stats d !! ch) as [s|] eqn:Es.
    + destruct (route_configured ch bytes sent d s Es) as (feed & sinks & s' & -> & R1 & R2 & R3).
      assert (Hch : ch ∈ channels) by (apply D1; by rewrite Es).
      split; [|cbn; by rewrite fmap_app]. split; cbn [d_stats d_log unconfigured d_health d_refused u_bytes].
      * intros c. destruct (decide (c = ch)) as [->|Hne]; [by rewrite lookup_partial_alter_eq|].
        rewrite lookup_partial_alter_ne by done. apply D1.
      * intros c st. rewrite !logged_app. cbn. destruct (decide (c = ch)) as [->|Hne].
        -- rewrite lookup_partial_alter_eq. intros [= <-]. destruct (D2 ch s Es) as [E1 E2]. rewrite R1, R2, E1, E2.
           split; repeat case_bool_decide; naive_solver.
        -- rewrite lookup_partial_alter_ne by done. intros Est. destruct (D2 c st Est) as [E1 E2]. rewrite E1, E2.
           rewrite !bool_decide_false by naive_solver. lia.
      * rewrite D3. autorewrite with snx_len. cbn. rewrite bool_decide_false by done. lia.
      * apply Forall_app. split; [done|]. repeat constructor; cbn; naive_solver.
      * done.
      * done.
    + assert (Hch : ~ ch ∈ channels) by (intros Hin%D1; by rewrite Es in Hin).
      assert (Hv : verdict ch bytes d = Unconfigured) by (unfold verdict; by rewrite Es).
      split; [|cbn; by rewrite fmap_app]. rewrite Hv. split; cbn [d_stats d_log unconfigured d_health d_refused record u_bytes].
      * done.
      * intros c st Est. rewrite !logged_app. cbn. rewrite !bool_decide_false by naive_solver. rewrite !Z.add_0_r. by apply D2.
      * rewrite D3. autorewrite with snx_len. cbn. rewrite bool_decide_true by done. lia.
      * apply Forall_app. split; [done|]. repeat constructor; cbn; naive_solver.
      * done.
      * done.
  - destruct (d_stats d !! ch) as [s|] eqn:Es; (split; [|done]); split; cbn [d_stats d_log unconfigured d_health d_refused record u_bytes]; try done.
    + intros c. destruct (decide (c = ch)) as [->|]; [rewrite lookup_insert_eq; rewrite <- D1, Es; by split|by rewrite lookup_insert_ne].
    + intros c st. destruct (decide (c = ch)) as [->|]; [rewrite lookup_insert_eq; intros [= <-]; by apply (D2 ch s)|].
      rewrite lookup_insert_ne by done. apply D2.
    + by rewrite D3, Z.add_0_r.
  - split; [|done]. split; cbn [d_stats d_log unconfigured d_health d_refused u_bytes]; try done.
    + intros c. rewrite <- D1. destruct (decide (c = ch)) as [->|]; [|by rewrite lookup_alter_ne].
      rewrite lookup_alter_eq. by destruct (d_stats d !! ch).
    + intros c st. destruct (decide (c = ch)) as [->|]; [|rewrite lookup_alter_ne by done; apply D2].
      rewrite lookup_alter_eq. intros (s & Es & ->)%fmap_Some. by apply (D2 ch s).
  - by split.
Qed.

(** The data events of a decoded chunk, as the log has them. *)
Definition data_of (evs : list Event) : list (string * Z) :=
  omap (fun ev => match kind ev with Envelope.Data bytes => Some (Envelope.channel ev, len bytes) | _ => None end) evs.

Lemma route_events_ok channels evs sent d :
  demux_ok channels d -> demux_ok channels (route_events evs sent d)
  /\ (d_log (route_events evs sent d)).*1 = (d_log d).*1 ++ data_of evs.
Proof.
  revert sent d. induction evs as [|ev evs IH]; intros sent d O; [by rewrite app_nil_r|]. cbn [route_events].
  destruct (route_event_ok channels ev (default true (head sent)) d O) as [O1 L1].
  destruct (IH (tail sent) _ O1) as [O2 L2]. split; [done|]. rewrite L2, L1, <- app_assoc. f_equal.
  unfold data_of. cbn. by destruct (kind ev).
Qed.

(** Routing touches neither the transform, nor the health, nor the status. *)
Lemma route_events_frame evs sent d :
  d_codec (route_events evs sent d) = d_codec d /\ d_health (route_events evs sent d) = d_health d
  /\ d_status (route_events evs sent d) = d_status d /\ d_refused (route_events evs sent d) = d_refused d.
Proof.
  revert sent d. induction evs as [|ev evs IH]; intros sent d; [done|]. cbn [route_events].
  destruct (IH (tail sent) (route_event ev (default true (head sent)) d)) as (-> & -> & -> & ->).
  unfold route_event. destruct (kind ev); try done; destruct (d_stats d !! _); try done.
  by destruct (route_channel_data _ _ _ _ _) as [[? ?] ?].
Qed.

Lemma status_eq {R} `{EqDecision R} (st : NodeStatus R) now s : node_status (set_status st now s) = st.
Proof. unfold set_status, set_at. by case_bool_decide. Qed.

(** The health, the status and the refusals after a chunk. *)
Lemma note_ok channels now n m reason d :
  demux_ok channels d ->
  let d' := note_demux_error now n m reason d in
  demux_ok channels d' /\ d_log d' = d_log d /\ d_codec d' = d_codec d
  /\ d_refused d' = d_refused d ++ [Z.max 0 (n - m)] /\ dh_faulted (d_health d') = true
  /\ node_status (d_status d') = Faulted (DemuxError reason).
Proof.
  intros [D1 D2 D3 D4 [D5 D5'] D6]. unfold note_demux_error, fault_ok in *.
  assert (L : dh_errors (d_health d) + 1 = len (d_refused d ++ [Z.max 0 (n - m)])
    /\ dh_discarded (d_health d) + Z.max 0 (n - m) = total id (d_refused d ++ [Z.max 0 (n - m)])).
  { rewrite D5, D5'. autorewrite with snx_len. unfold id. lia. }
  destruct (negb (negb (bool_decide (dh_last (d_health d) = Some reason))) && dh_faulted (d_health d)) eqn:Eb.
  - rewrite negb_involutive in Eb. apply andb_prop in Eb as [El%bool_decide_eq_true Ef].
    rewrite Ef in D6. destruct D6 as (r & Hr & Hl). assert (r = reason) as -> by congruence.
    split_and!; try done. split; try done. unfold fault_ok. cbn. rewrite Ef. by exists reason.
  - split_and!; try done; [|cbn; apply status_eq]. split; try done. unfold fault_ok. cbn. exists reason. split; [apply status_eq|done].
Qed.

Lemma clear_ok channels now d :
  demux_ok channels d ->
  let d' := clear_demux_fault now d in
  demux_ok channels d' /\ d_log d' = d_log d /\ d_codec d' = d_codec d /\ d_refused d' = d_refused d
  /\ dh_faulted (d_health d') = false.
Proof.
  intros [D1 D2 D3 D4 D5 D6]. unfold clear_demux_fault, fault_ok in *. cbn [node_status d_status put_health].
  destruct (node_status (d_status d)) as [|w|[| |r]] eqn:Est; (split_and!; try done); (split; try done); unfold fault_ok; cbn;
    rewrite ?Est; try done. intros r'. by rewrite status_eq.
Qed.

Lemma hostward_demux_ok channels now chunk sent d :
  demux_ok channels d ->
  let d' := hostward_demux now chunk sent d in
  demux_ok channels d'
  /\ (d_log d').*1 = (d_log d).*1 ++ data_of (tr_demux (d_codec d) chunk).1.1
  /\ d_codec d' = (tr_demux (d_codec d) chunk).2
  /\ d_refused d' = d_refused d ++ (if (tr_demux (d_codec d) chunk).1.2 is Some _
                                  then [Z.max 0 (len chunk - salvaged (tr_demux (d_codec d) chunk).1.1)] else [])
  /\ dh_faulted (d_health d') = (if (tr_demux (d_codec d) chunk).1.2 is Some _ then true else false)
  /\ (if (tr_demux (d_codec d) chunk).1.2 is Some r then node_status (d_status d') = Faulted (DemuxError r) else True).
Proof.
  intros O d'. subst d'. unfold hostward_demux. destruct (tr_demux (d_codec d) chunk) as [[evs refused] c]. cbn [fst snd].
  assert (O1 : demux_ok channels (put_codec c d)) by (by destruct O; split).
  set (d1 := match refused with Some _ => _ | None => _ end).
  assert (demux_ok channels d1 /\ d_log d1 = d_log d /\ d_codec d1 = c
    /\ d_refused d1 = d_refused d ++ (if refused is Some _ then [Z.max 0 (len chunk - salvaged evs)] else [])
    /\ dh_faulted (d_health d1) = (if refused is Some _ then true else false)
    /\ (if refused is Some r then node_status (d_status d1) = Faulted (DemuxError r) else True)) as (P1 & P2 & P3 & P4 & P5 & P6).
  { subst d1. destruct refused as [r|].
    - destruct (note_ok channels now (len chunk) (salvaged evs) r _ O1) as (Q1 & Q2 & Q3 & Q4 & Q5 & Q6). by split_and!.
    - rewrite app_nil_r. destruct (dh_faulted (d_health (put_codec c d))) eqn:Ef; [|by split_and!].
      destruct (clear_ok channels now _ O1) as (Q1 & Q2 & Q3 & Q4 & Q5). by split_and!. }
  destruct (route_events_ok channels evs sent d1 P1) as [R1 R2].
  destruct (route_events_frame evs sent d1) as (F1 & F2 & F3 & F4).
  rewrite F1, F2, F3, F4, R2, P2. by split_and!.
Qed.

(** What the transform makes of a run: the events decoded, the cost of each refusal, its state. *)
Definition transform_step (op : DemuxOp) (acc : list Event * list Z * T) : list Event * list Z * T :=
  let '(evs, refused, c) := acc in
  match op with
  | DChunk _ chunk _ =>
      let '(new, r, c) := tr_demux c chunk in
      (evs ++ new, refused ++ (if r is Some _ then [Z.max 0 (len chunk - salvaged new)] else []), c)
  | DMux ev => (evs, refused, (tr_mux c ev).2)
  | _ => acc
  end.
Definition transform_run (ops : list DemuxOp) (c : T) : list Event * list Z * T :=
  foldl (fun acc op => transform_step op acc) ([], [], c) ops.

Lemma demux_step_ok channels op d acc :
  demux_ok channels d -> (d_log d).*1 = data_of acc.1.1 -> d_refused d = acc.1.2 -> d_codec d = acc.2 ->
  let d' := demux_step op d in let acc' := transform_step op acc in
  demux_ok channels d' /\ (d_log d').*1 = data_of acc'.1.1 /\ d_refused d' = acc'.1.2 /\ d_codec d' = acc'.2.
Proof.
  destruct acc as [[evs refused] c]. cbn [fst snd]. intros O El Er Ec. destruct op as [now chunk sent|now att|ch sinks|ev|ch x y].
  - destruct (hostward_demux_ok channels now chunk sent d O) as (H1' & H2' & H3' & H4' & _).
    cbn [demux_step transform_step]. rewrite <- Ec. destruct (tr_demux (d_codec d) chunk) as [[new r] c']. cbn [fst snd] in *.
    split_and!; [done| |by rewrite H4', Er|done]. rewrite H2', El. unfold data_of. by rewrite omap_app.
  - split_and!; try done. destruct O as [D1 D2 D3 D4 D5 D6]. split; try done. unfold fault_ok. cbn. intros r.
    rewrite status_eq. by destruct att.
  - split_and!; try done. by destruct O; split.
  - cbn. rewrite Ec. split_and!; try done. by destruct O; split.
  - split_and!; try done. destruct O as [D1 D2 D3 D4 D5 D6]. split; try done; cbn.
    + intros c0. rewrite <- D1. destruct (decide (c0 = ch)) as [->|]; [|by rewrite lookup_alter_ne].
      rewrite lookup_alter_eq. by destruct (d_stats d !! ch).
    + intros c0 st. destruct (decide (c0 = ch)) as [->|]; [|rewrite lookup_alter_ne by done; apply D2].
      rewrite lookup_alter_eq. intros (s & Es & ->)%fmap_Some. by apply (D2 ch s).
Qed.

Lemma demux_new_ok codec channels sinks feeds attached now : demux_ok channels (demux_new codec channels sinks feeds attached now).
Proof.
  assert (Dom : forall ch, (list_to_map ((fun ch => (ch, stat_default)) <$> channels) : gmap string ChannelStat) !! ch <> None <-> ch ∈ channels).
  { intros ch. rewrite not_eq_None_Some. split.
    - intros [s Hs%elem_of_list_to_map_2]. by apply list_elem_of_fmap in Hs as (c & [= -> _] & ?).
    - intros Hin. apply not_eq_None_Some. intros Hn%not_elem_of_list_to_map_2. apply Hn.
      rewrite <- list_fmap_compose. apply list_elem_of_fmap. by exists ch. }
  assert (Def : forall ch s, (list_to_map ((fun ch => (ch, stat_default)) <$> channels) : gmap string ChannelStat) !! ch = Some s -> s = stat_default).
  { intros ch s Hs%elem_of_list_to_map_2. by apply list_elem_of_fmap in Hs as (c & [= _ ->] & _). }
  unfold demux_new. destruct attached; split; cbn; try done; try (by intros ch s ->%Def); unfold fault_ok; cbn; try done;
    intros r; by rewrite status_eq.
Qed.

Lemma demux_run_ok channels ops d acc :
  demux_ok channels d -> (d_log d).*1 = data_of acc.1.1 -> d_refused d = acc.1.2 -> d_codec d = acc.2 ->
  let d' := demux_run ops d in let acc' := foldl (fun acc op => transform_step op acc) acc ops in
  demux_ok channels d' /\ (d_log d').*1 = data_of acc'.1.1 /\ d_refused d' = acc'.1.2 /\ d_codec d' = acc'.2.
Proof.
  revert d acc. induction ops as [|op ops IH]; intros d acc O E1 E2 E3; [done|].
  destruct (demux_step_ok channels op d acc O E1 E2 E3) as (O' & E1' & E2' & E3'). cbn. by apply IH.
Qed.

(** ** Theorems: hostward *)

(** A codec node routes everything it decodes and counts each byte once. Over any
    interleaving of chunks, edge surgery, consumers that come, go and lag, and the targetward
    tasks, and for any transform: the data events logged are those the transform emitted, in
    order; each has one fate; a configured channel's two counters are the bytes that reached
    a consumer and those that found none; bytes on a channel not configured, and only these,
    are on the node's counter; and each refusal is counted once, with what it cost. *)
Theorem codec_hostward_exact codec channels sinks feeds attached now ops :
  let d := demux_run ops (demux_new codec channels sinks feeds attached now) in
  let r := transform_run ops codec in
  (d_log d).*1 = data_of r.1.1
  /\ (forall ch s, d_stats d !! ch = Some s ->
        delivered_hostward s = logged ch Reached (d_log d) /\ discarded_unattached s = logged ch Unattached (d_log d))
  /\ Forall (fun e => e.2 = Unconfigured <-> e.1.1 ∉ channels) (d_log d)
  /\ u_bytes (unconfigured d) = total (fun e => if bool_decide (e.2 = Unconfigured) then e.1.2 else 0) (d_log d)
  /\ dh_errors (d_health d) = len r.1.2 /\ dh_discarded (d_health d) = total id r.1.2.
Proof.
  intros d r. destruct (demux_run_ok channels ops (demux_new codec channels sinks feeds attached now) ([], [], codec))
    as (O & E1 & E2 & _); [apply demux_new_ok|by destruct attached..|].
  destruct O as [_ D2 D3 D4 [D5 D5'] _]. subst r. unfold transform_run. rewrite <- E2. by split_and!.
Qed.

(** The demux fault is the truth about the last chunk. In every state a node can come to,
    once a chunk has been put through the transform the node is faulted with a demux error
    exactly if that very chunk was refused, and with that refusal's message; and edge
    surgery clears the fault. *)
Theorem codec_fault_is_current codec channels sinks feeds attached now ops t chunk sent att :
  let d := demux_run ops (demux_new codec channels sinks feeds attached now) in
  (forall reason, node_status (d_status (demux_step (DChunk t chunk sent) d)) = Faulted (DemuxError reason)
                  <-> (tr_demux (d_codec d) chunk).1.2 = Some reason)
  /\ node_status (d_status (demux_step (DUpstream t att) d)) = (if att then Active else Waiting NoUpstream).
Proof.
  intros d. destruct (demux_run_ok channels ops (demux_new codec channels sinks feeds attached now) ([], [], codec))
    as (O & _); [apply demux_new_ok|by destruct attached..|]. fold d in O.
  split; [|cbn; by rewrite status_eq]. intros reason.
  destruct (hostward_demux_ok channels t chunk sent d O) as (O' & _ & _ & _ & Hf & Hs).
  cbn [demux_step]. pose proof (do_fault _ _ O') as F. unfold fault_ok in F. rewrite Hf in F.
  destruct (tr_demux (d_codec d) chunk).1.2 as [r|].
  - rewrite Hs. naive_solver.
  - split; [intros E; by destruct (F reason)|done].
Qed.

(** Not about the edge, though: a chunk still queued from a removed edge that is refused, and
    then one that is not, leave a node without an upstream reporting itself active. *)
Theorem drained_edge_reports_active channels t d k1 k2 sent1 sent2 :
  demux_ok channels d ->
  let d0 := set_upstream_attached t false d in
  let d1 := hostward_demux t k1 sent1 d0 in
  (tr_demux (d_codec d0) k1).1.2 <> None -> (tr_demux (d_codec d1) k2).1.2 = None ->
  node_status (d_status d0) = Waiting NoUpstream /\ node_status (d_status (hostward_demux t k2 sent2 d1)) = Active.
Proof.
  intros O d0 d1 N1 N2. split; [cbn; by rewrite status_eq|].
  assert (O0 : demux_ok channels d0).
  { destruct O as [D1 D2 D3 D4 D5 D6]. split; try done. unfold fault_ok. cbn. intros r. by rewrite status_eq. }
  destruct (hostward_demux_ok channels t k1 sent1 d0 O0) as (_ & _ & _ & _ & Hf & Hs). fold d1 in Hf, Hs.
  destruct (tr_demux (d_codec d0) k1).1.2 as [r|]; [|done]. unfold hostward_demux.
  destruct (tr_demux (d_codec d1) k2) as [[evs refused] c]. cbn in N2. subst refused.
  cbn [d_health put_codec]. rewrite Hf.
  destruct (route_events_frame evs sent2 (clear_demux_fault t (put_codec c d1))) as (_ & _ & -> & _).
  unfold clear_demux_fault. cbn. rewrite Hs. cbn. by rewrite status_eq.
Qed.
End codec.

(** ** Targetward *)

(** What one channel's task works on: the shared transform and its two counters. *)
Record CodecTarget (T : Type) := mkTarget { x_codec : T; x_accepted : Z; x_discarded : Z }.
Arguments mkTarget {T} _ _ _.
Arguments x_codec {T} _.
Arguments x_accepted {T} _.
Arguments x_discarded {T} _.

(** A framed range of a chunk, with the ranges after it. *)
Record FramedPiece := mkPiece { pc_bytes : list byte; pc_off : Z; pc_end : Z; pc_rest : list (Z * Z); pc_framed : list byte }.

Section targetward.
Context {T : Type} `{Transform T} (ch : string).

Definition accept (n : Z) (x : CodecTarget T) : CodecTarget T := mkTarget (x_codec x) (x_accepted x + n) (x_discarded x).
Definition discard (n : Z) (x : CodecTarget T) : CodecTarget T := mkTarget (x_codec x) (x_accepted x) (x_discarded x + n).

(** The turn of the range loop up to [forward_targetward]. *)
Definition next_piece (bytes : list byte) (ranges : list (Z * Z)) (x : CodecTarget T) : CodecTarget T * option FramedPiece :=
  match ranges with
  | [] => (x, None)
  | (off, end_) :: rest =>
      match slice (E := Empty_set) bytes off end_ with
      | Ok piece =>
          let '(muxed, c) := tr_mux (x_codec x) (event_data ch piece) in
          let x := mkTarget c (x_accepted x) (x_discarded x) in
          match muxed with
          | Some framed => (x, Some (mkPiece bytes off end_ rest framed))
          | None => (discard (len bytes - off) x, None)
          end
      | _ => (x, None)
      end
  end.

(** [channel_targetward] as a client of the pump; [slice] cannot fail ([next_piece_spec]). *)
Definition codec_client : Client (CodecTarget T) FramedPiece := {|
  blocked := fun chunk => discard (len chunk);
  first := fun chunk => next_piece chunk (frame_ranges ch (len chunk));
  payload := fun j x => (x, Some (pc_framed j));
  forwarded := fun j x => next_piece (pc_bytes j) (pc_rest j) (accept (pc_end j - pc_off j) x);
  failed := fun j => discard (len (pc_bytes j) - pc_off j);
  shared := fun x x' => x_accepted x' = x_accepted x /\ x_discarded x' = x_discarded x |}.

(** A transform whose frame for an event does not depend on what went before. *)
Class FrameLaw : Type := {
  frame : Event -> list byte;
  sendable : Event -> Prop;
  mux_frame c ev f : (tr_mux c ev).1 = Some f -> f = frame ev /\ sendable ev }.
Context `{!FrameLaw}.

Definition piece_frame (p : list byte) : list byte := frame (event_data ch p).

(** The chunks done with, each with the prefix that was accepted; the chunk in hand with its; the
    pieces sent. *)
Record sent_after (taken up : list (list byte)) (x : CodecTarget T) (hand : list (list byte * list byte))
    (fates : list (list byte * list byte)) (pieces : list (list byte)) : Prop := {
  sa_taken : taken = fates.*1 ++ hand.*1;
  sa_prefix : Forall (fun f => f.2 `prefix_of` f.1) (fates ++ hand);
  sa_pieces : concat pieces = concat (fates ++ hand).*2;
  sa_up : up = piece_frame <$> pieces;
  sa_sendable : Forall (fun p => sendable (event_data ch p)) pieces;
  sa_accepted : x_accepted x = len (concat pieces);
  sa_discarded : x_discarded x = total (fun f => len f.1 - len f.2) fates }.

Definition sent_inv taken up x hand : Prop := exists fates pieces, sent_after taken up x hand fates pieces.

(** A piece in flight: its place in its chunk, and its frame. *)
Record piece_ok (j : FramedPiece) : Prop := {
  po_range : 0 <= pc_off j < pc_end j /\ pc_end j <= len (pc_bytes j);
  po_rest : exists fuel, pc_rest j = ranges_from fuel (frame_payload_cap ch) (len (pc_bytes j)) (pc_end j)
    /\ len (pc_bytes j) - pc_end j < Z.of_nat fuel;
  po_framed : let piece := take (Z.to_nat (pc_end j - pc_off j)) (drop (Z.to_nat (pc_off j)) (pc_bytes j)) in
    pc_framed j = piece_frame piece /\ sendable (event_data ch piece) }.

Definition accepted_of (bytes : list byte) (off : Z) : list byte := take (Z.to_nat off) bytes.

Definition codec_inv (taken up : list (list byte)) (x : CodecTarget T) (j : option FramedPiece) : Prop :=
  match j with
  | Some j => piece_ok j /\ sent_inv taken up x [(pc_bytes j, accepted_of (pc_bytes j) (pc_off j))]
  | None => sent_inv taken up x []
  end.

(** The chunk in hand is done with, the rest of it discarded. *)
Lemma drop_tail taken up x bytes p n x' :
  sent_inv taken up x [(bytes, p)] -> n = len bytes - len p -> x_accepted x' = x_accepted x -> x_discarded x' = x_discarded x + n ->
  sent_inv taken up x' [].
Proof.
  intros (fates & pieces & [S1 S2 S3 S4 S7 S5 S6]) -> Ea Ed. exists (fates ++ [(bytes, p)]), pieces.
  split; rewrite ?app_nil_r; try done.
  - by rewrite fmap_app.
  - by rewrite Ea.
  - rewrite Ed, S6. autorewrite with snx_len. cbn. lia.
Qed.

Lemma len_accepted bytes off : 0 <= off <= len bytes -> len (accepted_of bytes off) = off.
Proof. intros Ho. unfold accepted_of. by rewrite len_take. Qed.

Lemma next_piece_spec fuel taken up x bytes off :
  0 <= off <= len bytes -> len bytes - off < Z.of_nat fuel ->
  sent_inv taken up x [(bytes, accepted_of bytes off)] ->
  let r := next_piece bytes (ranges_from fuel (frame_payload_cap ch) (len bytes) off) x in codec_inv taken up r.1 r.2.
Proof.
  intros Ho Hf I. pose proof (frame_payload_cap_pos ch) as Hcap. destruct fuel as [|fuel]; [lia|]. cbn [ranges_from].
  destruct (Z.leb_spec (len bytes) off) as [Hd|Hd]; cbn [next_piece].
  - cbn. apply (drop_tail _ _ x bytes (accepted_of bytes off) 0); [done| |done|lia]. rewrite len_accepted by done. lia.
  - set (e := Z.min (off + frame_payload_cap ch) (len bytes)). rewrite slice_ok by (unfold e; lia).
    pose proof (mux_frame (x_codec x) (event_data ch (take (Z.to_nat (e - off)) (drop (Z.to_nat off) bytes)))) as M.
    destruct (tr_mux _ _) as [[framed|] c]; cbn [fst snd codec_inv] in *.
    + split; [|by destruct I as (fates & pieces & []); exists fates, pieces; split].
      split; cbn; [unfold e; lia| |by apply M]. exists fuel. split; [done|]. unfold e. lia.
    + apply (drop_tail _ _ x bytes (accepted_of bytes off) (len bytes - off)); [done| |done|done]. by rewrite len_accepted.
Qed.

(** A piece is gone: what its chunk had accepted grows by it. *)
Lemma forwarded_spec taken up x j :
  piece_ok j -> sent_inv taken up x [(pc_bytes j, accepted_of (pc_bytes j) (pc_off j))] ->
  sent_inv taken (up ++ [pc_framed j]) (accept (pc_end j - pc_off j) x) [(pc_bytes j, accepted_of (pc_bytes j) (pc_end j))].
Proof.
  intros [Hr _ [Hf Hs]] (fates & pieces & [S1 S2 S3 S4 S7 S5 S6]).
  set (piece := take (Z.to_nat (pc_end j - pc_off j)) (drop (Z.to_nat (pc_off j)) (pc_bytes j))) in *.
  assert (Hp : accepted_of (pc_bytes j) (pc_end j) = accepted_of (pc_bytes j) (pc_off j) ++ piece).
  { unfold accepted_of, piece. rewrite <- (take_drop (Z.to_nat (pc_off j)) (take (Z.to_nat (pc_end j)) (pc_bytes j))).
    rewrite take_take, Nat.min_l by lia. f_equal.
    rewrite take_drop_commute. do 2 f_equal. lia. }
  exists fates, (pieces ++ [piece]). split.
  - exact S1.
  - apply Forall_app in S2 as [S2 _]. apply Forall_app. split; [done|]. constructor; [|constructor]. cbn. apply prefix_take.
  - rewrite concat_app, S3, !fmap_app, !concat_app. cbn. rewrite !app_nil_r, Hp. by rewrite app_assoc.
  - rewrite fmap_app, S4. cbn. by rewrite Hf.
  - apply Forall_app. split; [done|]. by constructor.
  - cbn. rewrite S5, concat_app, len_app. cbn. rewrite app_nil_r. f_equal. unfold piece. rewrite len_take; [lia|].
    rewrite len_drop by lia. lia.
  - exact S6.
Qed.

Lemma blocked_spec taken up x c :
  sent_inv taken up x [] -> sent_inv (taken ++ [c]) up x [(c, accepted_of c 0)].
Proof.
  intros (fates & pieces & [S1 S2 S3 S4 S7 S5 S6]). exists fates, pieces. cbn in S1. rewrite app_nil_r in S1, S2, S3. split; try done.
  - by rewrite S1.
  - apply Forall_app. split; [done|]. constructor; [|constructor]. apply prefix_take.
  - rewrite S3, fmap_app, concat_app. cbn. by rewrite app_nil_r.
Qed.

#[local] Existing Instance codec_client.

Program Definition codec_client_inv : ClientInv (CodecTarget T) FramedPiece := {|
  inv := codec_inv;
  sending := fun taken up x j b => codec_inv taken up x (Some j) /\ b = pc_framed j |}.
Next Obligation.
  intros t u x c I. apply (drop_tail _ _ x c (accepted_of c 0) (len c)); [by apply blocked_spec| |done|done].
  rewrite len_accepted; [lia|]. pose proof (len_nonneg c). lia.
Qed.
Next Obligation.
  intros t u x c I. pose proof (len_nonneg c). apply next_piece_spec; [lia|lia|]. by apply blocked_spec.
Qed.
Next Obligation. done. Qed.
Next Obligation.
  intros t u x j b [[P I] ->]. pose proof (forwarded_spec t u x j P I) as I'. destruct P as [Hr (fuel & Hrest & Hf) _].
  cbn. rewrite Hrest. apply next_piece_spec; [lia|done|done].
Qed.
Next Obligation.
  intros t u x j [[Hr _ _] I]. apply (drop_tail _ _ x (pc_bytes j) (accepted_of (pc_bytes j) (pc_off j)) (len (pc_bytes j) - pc_off j));
    [done| |done|done]. rewrite len_accepted; lia.
Qed.
Next Obligation.
  intros t u x j b [[[Hr _ _] I] _].
  apply (drop_tail _ _ x (pc_bytes j) (accepted_of (pc_bytes j) (pc_off j)) (len (pc_bytes j) - pc_off j));
    [done| |done|done]. rewrite len_accepted; lia.
Qed.
Next Obligation.
  intros t u x x' j [Ea Ed] I. assert (Fr : forall hand, sent_inv t u x hand -> sent_inv t u x' hand).
  { intros hand (fates & pieces & []). exists fates, pieces. split; try done; congruence. }
  destruct j as [j|]; [destruct I as [P I]; split; [done|]|]; by apply Fr.
Qed.
Next Obligation.
  intros t u x x' j b [Ea Ed] [[P (fates & pieces & [])] ->]. split; [split; [done|]|done].
  exists fates, pieces. split; try done; congruence.
Qed.

(** What the pump can come to. *)
Lemma codec_reachable c p :
  pump_reachable (mkTarget c 0 0) p ->
  exists fates hand pieces, (length hand <= 1)%nat
    /\ p_queued p = fates.*1 ++ hand.*1 ++ p_queue p
    /\ sent_after (fates.*1 ++ hand.*1) (up_bytes p) (p_client p) hand fates pieces.
Proof.
  intros R. destruct (@pump_invariant _ _ _ codec_client_inv (mkTarget c 0 0) p) as [I Q]; [|exact R|].
  { exists [], []. by split. }
  assert (Sum : forall hand, (length hand <= 1)%nat -> sent_inv (p_taken p) (up_bytes p) (p_client p) hand ->
    exists fates hand pieces, (length hand <= 1)%nat
    /\ p_queued p = fates.*1 ++ hand.*1 ++ p_queue p
    /\ sent_after (fates.*1 ++ hand.*1) (up_bytes p) (p_client p) hand fates pieces).
  { intros hand Hl (fates & pieces & S). exists fates, hand, pieces. split; [done|]. destruct S. split; [|by split].
    by rewrite Q, sa_taken0, <- app_assoc. }
  unfold phase_inv in I. destruct (p_phase p) as [|k|o j|o j b|].
  - by apply (Sum []); [cbn; lia|].
  - destruct I as (t & Et & I). eapply (Sum [(k, accepted_of k 0)]); [done|]. rewrite Et. by apply blocked_spec.
  - destruct I as [_ I]. by eapply Sum; [|exact I].
  - destruct I as [[_ I] _]. by eapply Sum; [|exact I].
  - by apply (Sum []); [cbn; lia|].
Qed.

(** A codec channel never loses a targetward byte unseen. However the edge, the lock and the
    device queue behave, and whatever the other tasks do to the shared transform: the chunks
    queued are those done with, the one in hand and those still queued, in order; of each
    chunk a prefix was accepted; the device was handed exactly the frames of consecutive
    pieces whose concatenation is what was accepted; and the counters are the bytes accepted
    and the bytes of the chunks done with that were not. *)
Theorem codec_targetward_exact c p :
  pump_reachable (mkTarget c 0 0) p ->
  exists fates hand pieces, (length hand <= 1)%nat
    /\ p_queued p = fates.*1 ++ hand.*1 ++ p_queue p
    /\ Forall (fun f => f.2 `prefix_of` f.1) (fates ++ hand)
    /\ up_bytes p = piece_frame <$> pieces /\ Forall (fun p => sendable (event_data ch p)) pieces
    /\ concat pieces = concat (fates ++ hand).*2
    /\ x_accepted (p_client p) = len (concat pieces)
    /\ x_discarded (p_client p) = total (fun f => len f.1 - len f.2) fates.
Proof.
  intros R. destruct (codec_reachable c p R) as (fates & hand & pieces & Hl & Hq & []).
  exists fates, hand, pieces. by split_and!.
Qed.
End targetward.

#[local] Existing Instance codec_client.

(** ** Two codec nodes on one line *)

#[export] Instance reference_frames : FrameLaw (T := ReferenceCodec).
Proof.
  refine {| frame := frame_of; sendable := event_fits |}. intros c ev f. cbn. unfold mux. rewrite encode_spec.
  destruct (Z.ltb_spec MAX_FRAME_SIZE (event_body_len ev)); cbn; [done|]. by intros [= <-].
Defined.

(** The data of channel [ch] among the events of a stream. *)
Definition payload_on (ch : string) (ev : Event) : list byte :=
  match kind ev with Envelope.Data bytes => if bool_decide (Envelope.channel ev = ch) then bytes else [] | _ => [] end.
Definition payloads (ch : string) (evs : list Event) : list byte := concat (payload_on ch <$> evs).

Lemma frame_of_inj e e' :
  event_typed e -> event_fits e -> event_typed e' -> event_fits e' -> frame_of e = frame_of e' -> e = e'.
Proof.
  intros T1 F1 T2 F2 E. pose proof (try_decode_frame e [] T1 F1) as D. rewrite E, try_decode_frame in D by done. congruence.
Qed.

(** A line that carries whole frames of data events. *)
Lemma wire_events (wire : list (string * list byte)) :
  Forall (fun w => is_str w.1 /\ exists p, w.2 = frame_of (event_data w.1 p) /\ event_fits (event_data w.1 p)) wire ->
  exists ps, wire = (fun p => (p.1, frame_of (event_data p.1 p.2))) <$> ps
    /\ Forall (fun p : string * list byte => event_typed (event_data p.1 p.2) /\ event_fits (event_data p.1 p.2)) ps.
Proof.
  induction 1 as [|[ch f] wire [Hs (p & Hf & Hfit)] _ (ps & -> & IH)]; [by exists []|]. cbn in *. subst f.
  exists ((ch, p) :: ps). split; [done|]. by constructor.
Qed.

Lemma payloads_pieces ch (ps : list (string * list byte)) :
  payloads ch ((fun p => event_data p.1 p.2) <$> ps) = concat (filter (fun p => p.1 = ch) ps).*2.
Proof.
  unfold payloads. induction ps as [|[c p] ps IH]; [done|]. rewrite filter_cons. cbn [fmap list_fmap concat payload_on event_data kind Envelope.channel fst snd].
  destruct (decide (c = ch)) as [->|Hne]; [rewrite bool_decide_true by done|rewrite bool_decide_false by done]; cbn; by rewrite IH.
Qed.

Lemma pieces_of_wire ch (ps : list (string * list byte)) (pieces : list (list byte)) :
  Forall (fun p : string * list byte => event_typed (event_data p.1 p.2) /\ event_fits (event_data p.1 p.2)) ps ->
  Forall (fun p => event_fits (event_data ch p)) pieces -> is_str ch ->
  (filter (fun w : string * list byte => w.1 = ch) ((fun p => (p.1, frame_of (event_data p.1 p.2))) <$> ps)).*2
    = (fun p => frame_of (event_data ch p)) <$> pieces ->
  (filter (fun p => p.1 = ch) ps).*2 = pieces.
Proof.
  intros Hall Hp Hs. revert pieces Hp. induction Hall as [|[c p] ps [Ht Hf] Hall IH]; intros pieces Hp.
  - by destruct pieces.
  - rewrite fmap_cons, !filter_cons. cbn [fst snd] in *. destruct (decide (c = ch)) as [->|Hne]; [|by apply IH].
    destruct pieces as [|q pieces]; [done|]. rewrite !fmap_cons. intros E0. apply Forall_cons in Hp as [Hq Hp].
    pose proof (f_equal (hd []) E0) as E1. pose proof (f_equal tail E0) as E2. cbn [hd tail] in E1, E2.
    f_equal; [|by apply IH]. apply frame_of_inj in E1; [by injection E1|done..].
Qed.

Section line.
Context {C : Type -> Type}.

Lemma reference_run reads evs refused c c' evs' :
  demux_all c reads = (Ok evs, c') ->
  foldl (fun acc op => transform_step (C := C) op acc) (evs', refused, c) ((fun k => DChunk 0 k []) <$> reads)
    = (evs' ++ evs, refused, c').
Proof.
  revert c evs evs'. induction reads as [|k reads IH]; intros c evs evs'; cbn.
  - intros [= <- <-]. by rewrite app_nil_r.
  - destruct (demux c k) as [[new|e|] c1]; try done. destruct (demux_all c1 reads) as [[evs2|e|] c2] eqn:E2; try done.
    intros [= <- <-]. rewrite app_nil_r. rewrite (IH c1 evs2 _ E2). by rewrite app_assoc.
Qed.

(** C39: Two codec nodes back to back are transparent. Let the channel tasks of one node put
    their frames on a line in any order, and let the line cut the bytes anywhere on the way
    to a node with the same codec: it refuses nothing, holds nothing back, and decodes on
    each channel exactly the bytes that channel's task counts as accepted, which are the
    accepted prefixes of the chunks queued there, in order. *)
Theorem codec_pair_transparent (tasks : list (string * Pump (CodecTarget ReferenceCodec) FramedPiece)) wire reads :
  Forall (fun t => is_str t.1 /\ @pump_reachable _ _ (codec_client t.1) (mkTarget ref_new 0 0) t.2) tasks ->
  Forall (fun w : string * list byte => w.1 ∈ tasks.*1) wire ->
  (forall ch p, (ch, p) ∈ tasks -> (filter (fun w : string * list byte => w.1 = ch) wire).*2 = up_bytes p) ->
  concat reads = concat wire.*2 ->
  let r := transform_run (C := C) ((fun k => DChunk 0 k []) <$> reads) ref_new in
  r.1.2 = [] /\ r.2 = ref_new
  /\ forall ch p, (ch, p) ∈ tasks ->
       len (payloads ch r.1.1) = x_accepted (p_client p)
       /\ exists fates hand, p_queued p = fates.*1 ++ hand.*1 ++ p_queue p
            /\ Forall (fun f => f.2 `prefix_of` f.1) (fates ++ hand)
            /\ payloads ch r.1.1 = concat (fates ++ hand).*2.
Proof.
  intros Ht Hw Hup Hr r. rewrite Forall_forall in Ht.
  assert (W : Forall (fun w => is_str w.1 /\ exists p, w.2 = frame_of (event_data w.1 p) /\ event_fits (event_data w.1 p)) wire).
  { rewrite Forall_forall in Hw |- *. intros [ch f] Hin. specialize (Hw _ Hin). cbn in Hw.
    apply list_elem_of_fmap in Hw as ([c p] & -> & Hp). destruct (Ht _ Hp) as [Hs R]. cbn in *. split; [done|].
    destruct (codec_reachable c ref_new p R) as (fates & hand & pieces & _ & _ & S).
    assert (f ∈ up_bytes p) as Hf.
    { rewrite <- (Hup c p Hp). apply list_elem_of_fmap. exists (c, f). split; [done|]. by apply list_elem_of_filter. }
    rewrite (sa_up _ _ _ _ _ _ _ S) in Hf. apply list_elem_of_fmap in Hf as (q & -> & Hq). exists q. split; [done|].
    pose proof (sa_sendable _ _ _ _ _ _ _ S) as Hs'. rewrite Forall_forall in Hs'. by apply Hs'. }
  destruct (wire_events wire W) as (ps & -> & Hps).
  set (evs := (fun p => event_data p.1 p.2) <$> ps).
  assert (D : demux_all ref_new reads = (Ok evs, ref_new)).
  { pose proof (scans_items (Good <$> evs) [] [] 0 []) as Sc.
    assert (item_events <$> (Good <$> evs) = (fun e => [e]) <$> evs) as Ee by (by rewrite <- list_fmap_compose).
    rewrite (demux_all_scans reads ref_new evs 0 []); [done|done|].
    replace (rc_buf ref_new ++ concat reads) with (concat (item_bytes <$> (Good <$> evs)) ++ []).
    - replace evs with (concat (item_events <$> (Good <$> evs)) ++ []) at 2.
      2: { rewrite Ee, app_nil_r. clear. induction evs as [|e evs IH]; [done|]. cbn. by rewrite IH. }
      replace 0 with (foldr (fun i n => item_damaged i + n) 0 (Good <$> evs)).
      2: { clear. induction evs as [|e evs IH]; [done|]. cbn. rewrite IH. done. }
      apply Sc; [|by constructor]. unfold evs. rewrite !Forall_fmap. eapply Forall_impl; [exact Hps|]. intros [c p] [T F]. cbn in *.
      split; [done|]. rewrite encode_spec. by rewrite (proj2 (Z.ltb_ge _ _)).
    - cbn. rewrite app_nil_r, Hr. unfold evs. rewrite <- !list_fmap_compose. f_equal.
      apply Forall_fmap_ext_1. eapply Forall_impl; [exact Hps|]. intros [c p] [T F]. cbn in *.
      rewrite encode_spec. by rewrite (proj2 (Z.ltb_ge _ _)). }
  assert (r = (evs, [], ref_new)) as -> by exact (reference_run reads evs [] ref_new ref_new [] D). cbn [fst snd].
  split; [done|]. split; [done|]. intros ch p Hp. destruct (Ht _ Hp) as [Hs R]. cbn in Hs, R.
  destruct (codec_reachable ch ref_new p R) as (fates & hand & pieces & _ & Hq & S).
  assert ((filter (fun p => p.1 = ch) ps).*2 = pieces) as Epi.
  { apply (pieces_of_wire ch ps pieces); [done|apply S|done|]. rewrite (Hup ch p Hp). apply S. }
  assert (payloads ch evs = concat pieces) as Epay by (unfold evs; by rewrite payloads_pieces, Epi).
  rewrite Epay. split; [symmetry; apply S|]. exists fates, hand. split; [done|]. split; [apply S|apply S].
Qed.
End line.

(** ** Witnesses *)

(** A transform that follows a script of refusals and emits nothing. *)
#[local] Instance scripted : Transform (list (option string)) :=
  {| tr_demux := fun s _ => ([], default None (head s), tail s); tr_mux := fun s _ => (None, s) |}.

Lemma drained_edge_reports_active_witness :
  let d := demux_new (T := list (option string)) (C := Bounded) (Eng := Pattern.literal_engine) [Some "bad"%string; None] ["a"%string] ∅ ∅ true 0 in
  let d1 := hostward_demux 5 [x00] [] (set_upstream_attached 5 false d) in
  node_status (d_status (hostward_demux 5 [x01] [] d1)) = Active.
Proof.
  intros d d1. apply (drained_edge_reports_active ["a"%string] 5 d [x00] [x01] [] []).
  - apply demux_new_ok.
  - vm_compute. discriminate.
  - vm_compute. reflexivity.
Defined.

Definition demo_task (ch : string) (chunks : list (list byte)) : Pump (CodecTarget ReferenceCodec) FramedPiece :=
  default (pump_new (mkTarget ref_new 0 0))
    (@pump_run _ _ (codec_client ch) (PEdge true (Some 3%N) :: (PQueue <$> chunks) ++ [PTake; PLock true; PSent true; PTake; PLock true; PSent false])
       (pump_new (mkTarget ref_new 0 0))).

Lemma demo_task_reachable_a : @pump_reachable _ _ (codec_client "a") (mkTarget ref_new 0 0) (demo_task "a" [[x61; x62]; [x63]]).
Proof.
  eapply (@pump_run_reachable _ _ (codec_client "a") _ (PEdge true (Some 3%N) :: (PQueue <$> [[x61; x62]; [x63]])
    ++ [PTake; PLock true; PSent true; PTake; PLock true; PSent false])); [constructor|]. vm_compute. reflexivity.
Qed.

Lemma demo_task_reachable_b : @pump_reachable _ _ (codec_client "b") (mkTarget ref_new 0 0) (demo_task "b" [[x64]; [x65]]).
Proof.
  eapply (@pump_run_reachable _ _ (codec_client "b") _ (PEdge true (Some 3%N) :: (PQueue <$> [[x64]; [x65]])
    ++ [PTake; PLock true; PSent true; PTake; PLock true; PSent false])); [constructor|]. vm_compute. reflexivity.
Qed.

Lemma codec_targetward_exact_witness :
  x_accepted (p_client (demo_task "a" [[x61; x62]; [x63]])) = 2 /\ x_discarded (p_client (demo_task "a" [[x61; x62]; [x63]])) = 1
  /\ exists fates hand pieces, up_bytes (demo_task "a" [[x61; x62]; [x63]]) = piece_frame "a" <$> pieces
     /\ concat pieces = concat (fates ++ hand).*2 /\ p_queued (demo_task "a" [[x61; x62]; [x63]]) = fates.*1 ++ hand.*1.
Proof.
  split; [vm_compute; reflexivity|]. split; [vm_compute; reflexivity|].
  destruct (codec_targetward_exact "a" ref_new (demo_task "a" [[x61; x62]; [x63]]) demo_task_reachable_a)
    as (fates & hand & pieces & _ & Hq & _ & Hu & _ & Hc & _).
  exists fates, hand, pieces. split; [exact Hu|]. split; [exact Hc|]. rewrite Hq, app_assoc. apply app_nil_r.
Defined.

Definition demo_tasks : list (string * Pump (CodecTarget ReferenceCodec) FramedPiece) :=
  [("a"%string, demo_task "a" [[x61; x62]; [x63]]); ("b"%string, demo_task "b" [[x64]; [x65]])].
Definition demo_wire : list (string * list byte) :=
  [("b"%string, frame_of (event_data "b" [x64])); ("a"%string, frame_of (event_data "a" [x61; x62]))].

Lemma codec_pair_transparent_witness :
  let reads := [take 5 (concat demo_wire.*2); drop 5 (concat demo_wire.*2)] in
  let r := transform_run (C := Bounded) ((fun k => DChunk 0 k []) <$> reads) ref_new in
  r.1.2 = [] /\ payloads "a" r.1.1 = [x61; x62]
  /\ len (payloads "b" r.1.1) = x_accepted (p_client (demo_task "b" [[x64]; [x65]])).
Proof.
  intros reads r.
  destruct (codec_pair_transparent (C := Bounded) demo_tasks demo_wire reads) as (H1 & _ & H3).
  - constructor; [split; [vm_compute; reflexivity|exact demo_task_reachable_a]|].
    constructor; [split; [vm_compute; reflexivity|exact demo_task_reachable_b]|constructor].
  - constructor; [apply (list_elem_of_lookup_2 _ 1); reflexivity|].
    constructor; [apply (list_elem_of_lookup_2 _ 0); reflexivity|constructor].
  - intros ch p [[-> ->]%pair_equal_spec|[[-> ->]%pair_equal_spec|[]%elem_of_nil]%elem_of_cons]%elem_of_cons;
      vm_compute; reflexivity.
  - vm_compute. reflexivity.
  - split; [exact H1|]. split; [vm_compute; reflexivity|]. apply (H3 "b"%string). apply (list_elem_of_lookup_2 _ 1). reflexivity.
Defined.

(** A chunk with data for a channel without a consumer and for one that is not configured. *)
Lemma codec_hostward_exact_witness :
  let ops := [DChunk 1 (concat demo_wire.*2) []] in
  let d := demux_run ops (demux_new (C := Bounded) (Eng := Pattern.literal_engine) ref_new ["a"%string] ∅ ∅ true 0) in
  u_bytes (unconfigured d) = 1
  /\ exists s, d_stats d !! "a"%string = Some s /\ discarded_unattached s = logged "a" Unattached (d_log d) /\ discarded_unattached s = 2.
Proof.
  intros ops d. destruct (codec_hostward_exact (C := Bounded) (Eng := Pattern.literal_engine) ref_new ["a"%string] ∅ ∅ true 0 ops)
    as (_ & H2 & _).
  split; [vm_compute; reflexivity|]. exists (mkStat 0 2 0 0 true).
  assert (d_stats d !! "a"%string = Some (mkStat 0 2 0 0 true)) as E by (vm_compute; reflexivity).
  split; [exact E|]. split; [|reflexivity]. exact (proj2 (H2 _ _ E)).
Defined.

Lemma codec_fault_is_current_witness :
  let d := demux_new (T := list (option string)) (C := Bounded) (Eng := Pattern.literal_engine) [Some "bad"%string; None] ["a"%string] ∅ ∅ true 0 in
  node_status (d_status (demux_step (DChunk 1 [x00] []) d)) = Faulted (DemuxError "bad")
  /\ node_status (d_status (demux_step (DChunk 2 [x01] []) (demux_step (DChunk 1 [x00] []) d))) <> Faulted (DemuxError "bad").
Proof.
  intros d. split.
  - apply (codec_fault_is_current (C := Bounded) (Eng := Pattern.literal_engine) [Some "bad"%string; None] ["a"%string] ∅ ∅ true 0 [] 1 [x00] [] true).
    vm_compute. reflexivity.
  - intros E. apply (codec_fault_is_current (C := Bounded) (Eng := Pattern.literal_engine) [Some "bad"%string; None] ["a"%string] ∅ ∅ true 0
      [DChunk 1 [x00] []] 2 [x01] [] true) in E. vm_compute in E. discriminate.
Defined.
