(* ===== verification/Exec.v ===== *)
(** * The exec codec node (daemon/src/nodes/exec.rs)

    A codec whose transform is a child process.  The node is a transition system: the forwarders
    into the merge queue, the supervisor, and the two concurrent halves of the pump ([Pumping]
    holds where each one is suspended) move from await to await; [drain_unwired] tasks run
    instead on a re-multiplexer.  What the child, the process spawn, the lock, the upstream
    queue and the writers answer are arguments of the operations.  Splitting a half between two
    events it handles without awaiting only adds interleavings.  A suspended send into the merge
    queue is one that is offered again later. *)

From S2P Require Import Prelude GraphTypes Config Envelope Tap State Boundary Channel Inbox Frames FanOut Identity CodecNode.
#[local] Open Scope Z_scope.

Abbreviation OriginId := N (only parsing).

Definition MUX_CHANNEL : ChannelId := ""%string.

(** ** Data *)

Record FeedItem := mkFeed { fi_channel : ChannelId; fi_bytes : list byte }.
#[export] Instance feed_item_eq_dec : EqDecision FeedItem.
Proof. solve_decision. Defined.

Definition is_mux (ch : ChannelId) : bool := bool_decide (ch = MUX_CHANNEL).

(** Hostward items are not teardown loss. *)
#[export] Instance feed_bytes : TeardownBytes FeedItem.
Proof.
  refine {| teardown_bytes := fun x => if is_mux (fi_channel x) then 0 else len (fi_bytes x) |}.
  intros x. destruct (is_mux _); [done|apply len_nonneg].
Defined.

Record ExecAttributes := mkAttributes { argv : list string; env : gmap string string; restart_backoff_ms : Z }.
Definition default_backoff_ms : Z := 200.

Inductive AttributeError := BadTable (e : string) | EmptyArgv | BackoffTooLong (ms : Z).

(** The serde derivation, a library, is [deserialize]. *)
Definition parse_attributes {Table} (deserialize : Table -> string + ExecAttributes) (attributes : Table) : AttributeError + unit :=
  match deserialize attributes with
  | inl e => inl (BadTable e)
  | inr attrs =>
      if bool_decide (argv attrs = []) then inl EmptyArgv
      else if MAX_TIMER_MS <? restart_backoff_ms attrs then inl (BackoffTooLong (restart_backoff_ms attrs))
      else inr tt
  end.

Record ChannelStat := mkChannelStat { delivered_hostward : Z; discarded_unattached : Z; active : bool }.
Definition channel_stat_default : ChannelStat := mkChannelStat 0 0 false.
Definition set_channel_active (b : bool) (s : ChannelStat) : ChannelStat :=
  mkChannelStat (delivered_hostward s) (discarded_unattached s) b.

#[export] Instance exec_stat : HostwardChannelStat ChannelStat := {
  set_active := set_channel_active true;
  add_delivered := fun n s => mkChannelStat (delivered_hostward s + n) (discarded_unattached s) (active s);
  add_unattached := fun n s => mkChannelStat (delivered_hostward s) (discarded_unattached s + n) (active s);
  add_dropped_full := fun _ s => s }.

(** The texts of [waiting] and [faulted], with the restart count they show. *)
Inductive ExecReason := NoDriver | NoUpstream | SpawnFailed (e : string) (count : Z) | ChildExited (count : Z).
#[export] Instance exec_reason_eq_dec : EqDecision ExecReason.
Proof. solve_decision. Defined.

Inductive PumpEnd := ChildDied | SourceClosed.

(** The awaits of the stdin half: [recv]; [write_all] with what is left of the frame, and the
    items of [data_frames] not yet reached; [flush]. *)
Inductive FeedPhase := FRecv | FWrite (todo : list byte) (rest : list DataFrame) | FFlush (rest : list DataFrame).

(** The stdout half: [read]; about to call [next_event]; the two awaits of [forward_targetward]. *)
Inductive ReadPhase :=
| RRead (d : FrameDecoder)
| RDecode (d : FrameDecoder)
| RGate (d : FrameDecoder) (o : OriginId) (bytes : list byte)
| RSend (d : FrameDecoder) (o : OriginId) (bytes : list byte).

(** The life of one child: the items its pump has written and the one it has begun, and what
    crossed its pipes. *)
Record Child := mkChild {
  c_done : list FeedItem; c_hand : option FeedItem; c_stdin : list byte; c_reads : list (list byte); c_events : list Event }.
Definition child_new : Child := mkChild [] None [] [] [].

(** The awaits of [supervise].  [Unwired]: [start] returned without starting it; [Aborted]: by [signal_stop]. *)
Inductive Phase :=
| Unwired
| Spawning
| Pumping (c : Child) (f : FeedPhase) (r : ReadPhase)
| Killing (end_ : PumpEnd)
| BackingOff (ms : Z)
| Done
| Aborted.

Section exec.
Context {C : Type -> Type} `{MpscLaws C} `{Eng : Pattern.Engine}.

(** A watched channel queue and the task that reads it.  [w_in] and [w_took] are histories: the chunks
    the queue accepted and those the task received. *)
Record Forwarder := mkForwarder {
  w_channel : ChannelId; w_lane : Lane C (list byte); w_done : bool; w_in : list (list byte); w_took : list (list byte) }.
Definition forwarder_new (ch : ChannelId) : Forwarder := mkForwarder ch (lane_new CHANNEL_CAP) false [] [].

(** The forwarder of the raw stream: the edges given to it (the first is the one it drains; their
    queue, and whether the upstream still holds the sender), and the chunk in its hand. *)
Record MuxForwarder := mkMuxForwarder { m_edges : list (list (list byte) * bool); m_inbox_open : bool; m_hand : option (list byte) }.

(** Everything that feeds the child.  [merged] is the history of what the merge queue accepted. *)
Record Feeds := mkFeeds { rxs : list Forwarder; mux : MuxForwarder; src : Lane C FeedItem; merged : list FeedItem }.

(** What [route_event] works on.  Histories: [r_log] the channel data with its fate, [r_sent] what was handed
    upstream, [r_cut] the device-bound bytes that died with a pump. *)
Record Routing := mkRouting {
  channel_sinks : gmap string (list (AttachedSink (C := C))); channel_feeds : gmap string Feed;
  stats : gmap string ChannelStat; unconfigured : UnconfiguredChannels; mux_discarded_targetward : Z;
  r_log : list (string * Z * Verdict); r_sent : list (OriginId * list byte); r_cut : Z }.

(** Status, what it is decided from ([attached], [origin]: the edge slot), and the backoff.  [c_failed] is the
    history of the spawns that failed. *)
Record Control := mkControl {
  child_live : bool; restart_count : Z; status : NodeState ExecReason; attached : bool; origin : option OriginId;
  backoff : Backoff; c_failed : Z }.

(** [x_past]: the children gone. *)
Record Exec := mkExec {
  x_phase : Phase; x_past : list Child; x_ctl : Control; x_feeds : Feeds; x_routing : Routing;
  unframable_discarded : Z; teardown_loss : Z }.

Definition set_phase (p : Phase) (e : Exec) : Exec :=
  mkExec p (x_past e) (x_ctl e) (x_feeds e) (x_routing e) (unframable_discarded e) (teardown_loss e).
Definition set_ctl (c : Control) (e : Exec) : Exec :=
  mkExec (x_phase e) (x_past e) c (x_feeds e) (x_routing e) (unframable_discarded e) (teardown_loss e).
Definition set_feeds (f : Feeds) (e : Exec) : Exec :=
  mkExec (x_phase e) (x_past e) (x_ctl e) f (x_routing e) (unframable_discarded e) (teardown_loss e).
Definition set_routing (r : Routing) (e : Exec) : Exec :=
  mkExec (x_phase e) (x_past e) (x_ctl e) (x_feeds e) r (unframable_discarded e) (teardown_loss e).
Definition set_src (l : Lane C FeedItem) (f : Feeds) : Feeds := mkFeeds (rxs f) (mux f) l (merged f).

(** ** Targetward: the forwarders *)

(** What a send of [x] into the queue of [l] answers. *)
Definition answer {T} `{TeardownBytes T} (x : T) (l : Lane C T) : TrySend :=
  match slot (inbox l) with Some rx => (try_send rx x).1 | None => SendClosed end.

(** A writer of the endpoint sends, or a suspended one is polled again. *)
Definition writer_sends (chunk : list byte) (w : Forwarder) : Forwarder :=
  mkForwarder (w_channel w) (lane_step (LSend chunk) (w_lane w)) (w_done w)
    (match answer chunk (w_lane w) with SendOk => w_in w ++ [chunk] | _ => w_in w end) (w_took w).
Definition writer_resumes (w : Forwarder) : Forwarder :=
  mkForwarder (w_channel w) (lane_step LResume (w_lane w)) (w_done w)
    (match writers (w_lane w) with
     | chunk :: ws => match answer chunk (w_lane w) with SendOk => w_in w ++ [chunk] | _ => w_in w end
     | [] => w_in w
     end) (w_took w).

(** [rx.recv()] of the task, which holds nothing then. *)
Definition forwarder_recv (senders : bool) (w : Forwarder) : Forwarder :=
  match w_done w, hand (w_lane w) with
  | false, None =>
      let closed := match (recv senders (inbox (w_lane w))).1 with Ready None => true | _ => false end in
      let l := lane_step (LRecv senders) (w_lane w) in
      mkForwarder (w_channel w) l closed (w_in w) (w_took w ++ match hand l with Some chunk => [chunk] | None => [] end)
  | _, _ => w
  end.

(** The chunk in hand goes into the merge queue, or the queue is full, or closed.  Between the accepted send
    and the [settle_held] of the next [recv] nothing awaits. *)
Definition forwarder_offer (w : Forwarder) (f : Feeds) : option (Forwarder * Feeds) :=
  match hand (w_lane w) with
  | Some chunk =>
      let item := mkFeed (w_channel w) chunk in
      match attempt_send item (src f), answer item (src f) with
      | Some l, SendOk =>
          Some (mkForwarder (w_channel w) (lane_step LSettle (lane_step LDeliver (w_lane w))) (w_done w) (w_in w) (w_took w),
                mkFeeds (rxs f) (mux f) l (merged f ++ [item]))
      | Some l, _ =>
          Some (mkForwarder (w_channel w) (lane_step LDrop (w_lane w)) true (w_in w) (w_took w), set_src l f)
      | None, _ => None
      end
  | None => None
  end.

Definition offer (i : nat) (f : Feeds) : Feeds :=
  match rxs f !! i with
  | Some w =>
      match forwarder_offer w f with
      | Some (w, f) => mkFeeds (<[i := w]> (rxs f)) (mux f) (src f) (merged f)
      | None => f
      end
  | None => f
  end.

(** One poll of the raw stream's forwarder: the next chunk of the current edge, or the edge is over. *)
Definition mux_recv (m : MuxForwarder) : MuxForwarder :=
  match m_hand m, m_edges m with
  | None, (chunk :: q, open) :: edges => mkMuxForwarder ((q, open) :: edges) (m_inbox_open m) (Some chunk)
  | None, ([], false) :: edges => mkMuxForwarder edges (m_inbox_open m) None
  | _, _ => m
  end.

Definition mux_offer (f : Feeds) : Feeds :=
  match m_hand (mux f) with
  | Some chunk =>
      let item := mkFeed MUX_CHANNEL chunk in
      let m := mkMuxForwarder (m_edges (mux f)) (m_inbox_open (mux f)) None in
      match attempt_send item (src f), answer item (src f) with
      | Some l, SendOk => mkFeeds (rxs f) m l (merged f ++ [item])
      | Some l, _ => mkFeeds (rxs f) (mkMuxForwarder [] false None) l (merged f)
      | None, _ => f
      end
  | None => f
  end.

(** Whether a sender of the merge queue is left. *)
Definition src_senders (f : Feeds) : bool :=
  existsb (fun w => negb (w_done w)) (rxs f)
  || m_inbox_open (mux f) || bool_decide (m_edges (mux f) <> []) || bool_decide (is_Some (m_hand (mux f))).

(** ** The pump *)

(** One half ended it: the other halves are dropped where they are, with what they hold; the item begun is on no
    counter. *)
Definition in_flight (r : ReadPhase) : Z := match r with RGate _ _ bytes | RSend _ _ bytes => len bytes | _ => 0 end.

Definition add_cut (n : Z) (r : Routing) : Routing :=
  mkRouting (channel_sinks r) (channel_feeds r) (stats r) (unconfigured r) (mux_discarded_targetward r) (r_log r) (r_sent r) (r_cut r + n).

Definition end_pump (end_ : PumpEnd) (c : Child) (r : ReadPhase) (e : Exec) : Exec :=
  mkExec (Killing end_) (x_past e ++ [c]) (x_ctl e) (set_src (lane_step LDrop (src (x_feeds e))) (x_feeds e))
    (add_cut (in_flight r) (x_routing e)) (unframable_discarded e) (teardown_loss e).

(** The loop over [data_frames] up to its next await, with the residuals met on the way. *)
Fixpoint next_frame (items : list DataFrame) : option (list byte * list DataFrame) * Z :=
  match items with
  | [] => (None, 0)
  | Piece _ frame :: items => (Some (frame, items), 0)
  | Residual n :: items => let '(o, m) := next_frame items in (o, n + m)
  end.

Definition item_frames (x : FeedItem) : list DataFrame :=
  match data_frames (fi_channel x) (fi_bytes x) with Ok items => items | _ => [] end.

Definition begin_item (x : FeedItem) (c : Child) : Child := mkChild (c_done c) (Some x) (c_stdin c) (c_reads c) (c_events c).
Definition finish_item (c : Child) : Child :=
  mkChild (c_done c ++ option_list (c_hand c)) None (c_stdin c) (c_reads c) (c_events c).
Definition wrote (bytes : list byte) (c : Child) : Child := mkChild (c_done c) (c_hand c) (c_stdin c ++ bytes) (c_reads c) (c_events c).

(** With the last frame written, the half is back at [recv], which settles the item. *)
Definition feed_on (c : Child) (items : list DataFrame) (r : ReadPhase) (e : Exec) : Exec :=
  match next_frame items with
  | (Some (frame, rest), n) =>
      mkExec (Pumping c (FWrite frame rest) r) (x_past e) (x_ctl e) (x_feeds e) (x_routing e) (unframable_discarded e + n) (teardown_loss e)
  | (None, n) =>
      mkExec (Pumping (finish_item c) FRecv r) (x_past e) (x_ctl e) (set_src (lane_step LSettle (lane_step LDeliver (src (x_feeds e)))) (x_feeds e))
        (x_routing e) (unframable_discarded e + n) (teardown_loss e)
  end.

Definition feed_recv (e : Exec) : Exec :=
  match x_phase e with
  | Pumping c FRecv r =>
      let senders := src_senders (x_feeds e) in
      let l := lane_step (LRecv senders) (src (x_feeds e)) in
      let e := set_feeds (set_src l (x_feeds e)) e in
      match hand l with
      | Some x => feed_on (begin_item x c) (item_frames x) r e
      | None => if senders then e else end_pump SourceClosed c r e
      end
  | _ => e
  end.

(** [n] bytes of the frame go into the pipe. *)
Definition feed_write (n : Z) (e : Exec) : Exec :=
  match x_phase e with
  | Pumping c (FWrite todo rest) r =>
      if (1 <=? n) && (n <=? len todo) then
        let rest_todo := drop (Z.to_nat n) todo in
        set_phase (Pumping (wrote (take (Z.to_nat n) todo) c) (if bool_decide (rest_todo = []) then FFlush rest else FWrite rest_todo rest) r) e
      else e
  | _ => e
  end.

Definition feed_flushed (e : Exec) : Exec :=
  match x_phase e with Pumping c (FFlush rest) r => feed_on c rest r e | _ => e end.

(** The write or the flush fails. *)
Definition feed_broke (e : Exec) : Exec :=
  match x_phase e with
  | Pumping c (FWrite _ _) r | Pumping c (FFlush _) r => end_pump ChildDied c r e
  | _ => e
  end.

(** *** Stdout *)

(** The fate of data for [ch], read off its consumers before it is routed. *)
Definition verdict (ch : string) (bytes : list byte) (r : Routing) : Verdict :=
  match stats r !! ch with
  | None => Unconfigured
  | Some _ =>
      match channel_sinks r !! ch with
      | None => Unattached
      | Some sinks =>
          if some_sink Took bytes sinks then Reached
          else if existsb (fun s => rx_open (s_tx s)) sinks then Slow else Unattached
      end
  end.

Definition lose (n : Z) (r : Routing) : Routing :=
  mkRouting (channel_sinks r) (channel_feeds r) (stats r) (unconfigured r) (mux_discarded_targetward r + n) (r_log r) (r_sent r) (r_cut r).
Definition note_sent (o : OriginId) (bytes : list byte) (r : Routing) : Routing :=
  mkRouting (channel_sinks r) (channel_feeds r) (stats r) (unconfigured r) (mux_discarded_targetward r) (r_log r) (r_sent r ++ [(o, bytes)]) (r_cut r).
Definition set_stats (s : gmap string ChannelStat) (u : UnconfiguredChannels) (r : Routing) : Routing :=
  mkRouting (channel_sinks r) (channel_feeds r) s u (mux_discarded_targetward r) (r_log r) (r_sent r) (r_cut r).

(** [route_event] on a real channel; [sent] is the tap feed's own send. *)
Definition route_channel (ev : Event) (sent : bool) (r : Routing) : Routing :=
  let ch := Envelope.channel ev in
  match kind ev with
  | Envelope.Data bytes =>
      let n := len bytes in
      let log := r_log r ++ [(ch, n, verdict ch bytes r)] in
      match stats r !! ch with
      | None => mkRouting (channel_sinks r) (channel_feeds r) (stats r) (record ch n (unconfigured r)) (mux_discarded_targetward r)
                  log (r_sent r) (r_cut r)
      | Some s =>
          let '(feed, sinks, stat) := route_channel_data bytes (channel_feeds r !! ch) sent (channel_sinks r !! ch) (Some s) in
          mkRouting (partial_alter (fun _ => sinks) ch (channel_sinks r)) (partial_alter (fun _ => feed) ch (channel_feeds r))
            (partial_alter (fun _ => stat) ch (stats r)) (unconfigured r) (mux_discarded_targetward r) log (r_sent r) (r_cut r)
      end
  | Envelope.Open =>
      match stats r !! ch with
      | Some s => set_stats (<[ch := set_channel_active true s]> (stats r)) (unconfigured r) r
      | None => set_stats (stats r) (record ch 0 (unconfigured r)) r
      end
  | Envelope.Close => set_stats (alter (set_channel_active false) ch (stats r)) (unconfigured r) r
  | Envelope.Error _ => r
  end.

(** [route_event], up to its first await. *)
Definition route_event (d : FrameDecoder) (ev : Event) (sent : bool) (o : option OriginId) (r : Routing) : ReadPhase * Routing :=
  if is_mux (Envelope.channel ev) then
    match kind ev with
    | Envelope.Data bytes => match o with Some o => (RGate d o bytes, r) | None => (RDecode d, lose (len bytes) r) end
    | _ => (RDecode d, r)
    end
  else (RDecode d, route_channel ev sent r).

Definition read_some (bytes : list byte) (e : Exec) : Exec :=
  match x_phase e with
  | Pumping c f (RRead d) =>
      if (1 <=? len bytes) && (len bytes <=? READ_BUF) then
        set_phase (Pumping (mkChild (c_done c) (c_hand c) (c_stdin c) (c_reads c ++ [bytes]) (c_events c)) f (RDecode (push d bytes))) e
      else e
  | _ => e
  end.

Definition read_ended (e : Exec) : Exec :=
  match x_phase e with Pumping c f (RRead d) => end_pump ChildDied c (RRead d) e | _ => e end.

Definition decode_next (sent : bool) (e : Exec) : Exec :=
  match x_phase e with
  | Pumping c f (RDecode d) =>
      match next_event d with
      | (Ok (Some ev), d) =>
          let '(rp, r) := route_event d ev sent (origin (x_ctl e)) (x_routing e) in
          set_routing r (set_phase (Pumping (mkChild (c_done c) (c_hand c) (c_stdin c) (c_reads c) (c_events c ++ [ev])) f rp) e)
      | (Ok None, d) => set_phase (Pumping c f (RRead d)) e
      | (_, d) => end_pump ChildDied c (RDecode d) e
      end
  | _ => e
  end.

(** [forward_targetward]: the lock is held again or cannot be, then the send resolves. *)
Definition gate (granted : bool) (e : Exec) : Exec :=
  match x_phase e with
  | Pumping c f (RGate d o bytes) =>
      if granted then set_phase (Pumping c f (RSend d o bytes)) e
      else set_routing (lose (len bytes) (x_routing e)) (set_phase (Pumping c f (RDecode d)) e)
  | _ => e
  end.

Definition send_resolved (ok : bool) (e : Exec) : Exec :=
  match x_phase e with
  | Pumping c f (RSend d o bytes) =>
      set_routing (if ok then note_sent o bytes (x_routing e) else lose (len bytes) (x_routing e))
        (set_phase (Pumping c f (RDecode d)) e)
  | _ => e
  end.

(** ** The supervisor *)

Definition put_status (now : Z) (st : NodeStatus ExecReason) (c : Control) : Control :=
  mkControl (child_live c) (restart_count c) (set_status st now (status c)) (attached c) (origin c) (backoff c) (c_failed c).
Definition put_live (b : bool) (c : Control) : Control :=
  mkControl b (restart_count c) (status c) (attached c) (origin c) (backoff c) (c_failed c).

Definition upstream_status (attached : bool) : NodeStatus ExecReason := if attached then Active else Waiting NoUpstream.

(** No child: count it, report it, and how long to wait. *)
Definition retry (now : Z) (why : Z -> ExecReason) (failed : Z) (c : Control) : Z * Control :=
  let n := restart_count c + 1 in
  let '(ms, b) := next_interval (backoff c) in
  (ms, put_status now (Faulted (why n)) (mkControl false n (status c) (attached c) (origin c) b (c_failed c + failed))).

Definition spawn (now : Z) (error : option string) (e : Exec) : Exec :=
  match x_phase e with
  | Spawning =>
      match error with
      | Some err => let '(ms, c) := retry now (SpawnFailed err) 1 (x_ctl e) in set_ctl c (set_phase (BackingOff ms) e)
      | None =>
          set_ctl (put_status now (upstream_status (attached (x_ctl e))) (put_live true (x_ctl e)))
            (set_phase (Pumping child_new FRecv (RRead decoder_new)) e)
      end
  | _ => e
  end.

Definition killed (now : Z) (e : Exec) : Exec :=
  match x_phase e with
  | Killing SourceClosed => set_ctl (put_live false (x_ctl e)) (set_phase Done e)
  | Killing ChildDied => let '(ms, c) := retry now ChildExited 0 (x_ctl e) in set_ctl c (set_phase (BackingOff ms) e)
  | _ => e
  end.

Definition slept (e : Exec) : Exec := match x_phase e with BackingOff _ => set_phase Spawning e | _ => e end.

(** ** Edges, creation, teardown *)

(** [set_upstream_attached] on the multiplexed endpoint. *)
Definition set_upstream_attached (now : Z) (b : bool) (c : Control) : Control :=
  if child_live c then put_status now (upstream_status b) c else c.

(** [connect] and [disconnect] of the multiplexed side: the slot, then the status. *)
Definition edge_surgery (now : Z) (b : bool) (o : option OriginId) (c : Control) : Control :=
  set_upstream_attached now b (mkControl (child_live c) (restart_count c) (status c) b o (backoff c) (c_failed c)).

(** A task of [drain_unwired_channels] receives a chunk. *)
Definition drain_chunk (senders : bool) (i : nat) (e : Exec) : Exec :=
  match rxs (x_feeds e) !! i with
  | Some w =>
      let w := forwarder_recv senders w in
      let n := match hand (w_lane w) with Some chunk => len chunk | None => 0 end in
      let w := mkForwarder (w_channel w) (lane_step LSettle (lane_step LCharge (w_lane w))) (w_done w) (w_in w) (w_took w) in
      let f := x_feeds e in
      set_routing (lose n (x_routing e)) (set_feeds (mkFeeds (<[i := w]> (rxs f)) (mux f) (src f) (merged f)) e)
  | None => e
  end.

(** [create] and [start]: [endpoints] are those whose receiver was claimed. *)
Definition exec_new (attrs : ExecAttributes) (faces : Facing) (channels endpoints : list string)
    (sinks : gmap string (list AttachedSink)) (feeds : gmap string Feed) (attached : bool) (o : option OriginId) (now : Z) : Exec :=
  let st := new_at Active now in
  let st := match faces with
            | Host => set_status (Waiting NoDriver) now st
            | Target => if attached then st else set_status (Waiting NoUpstream) now st
            end in
  mkExec (match faces with Host => Unwired | Target => Spawning end) []
    (mkControl false 0 st attached o (fixed (restart_backoff_ms attrs)) 0)
    (mkFeeds (forwarder_new <$> endpoints) (mkMuxForwarder [] true None) (lane_new CHANNEL_CAP) [])
    (mkRouting sinks feeds (list_to_map ((fun ch => (ch, channel_stat_default)) <$> channels)) unconfigured_default 0 [] [] 0)
    0 0.

(** [TeardownLoss::drain] over every watched queue, then [abort_all]: the futures die with what they hold. *)
Definition stop_forwarder (w : Forwarder) : Forwarder :=
  mkForwarder (w_channel w) (stop_lane (w_lane w)) true (w_in w) (w_took w).
Definition signal_stop (e : Exec) : Exec :=
  let f := x_feeds e in
  let lost := (drain_and_count (inbox (src f))).1 + total (fun w => (drain_and_count (inbox (w_lane w))).1) (rxs f) in
  mkExec Aborted (match x_phase e with Pumping c _ _ => x_past e ++ [c] | _ => x_past e end) (x_ctl e)
    (mkFeeds (stop_forwarder <$> rxs f) (mkMuxForwarder [] false None) (stop_lane (src f)) (merged f))
    (add_cut (match x_phase e with Pumping _ _ r => in_flight r | _ => 0 end) (x_routing e)) (unframable_discarded e)
    (if 0 <? lost then u64_saturating_add (teardown_loss e) lost else teardown_loss e).

(** ** The node *)

Inductive ExecOp :=
| OWrite (i : nat) (chunk : list byte)      (* a writer of endpoint [i] *)
| OResume (i : nat)
| ORecv (i : nat) (senders : bool)          (* its forwarder, or its drain *)
| OOffer (i : nat)
| OMuxConnect                               (* the raw stream: edges and chunks *)
| OMuxChunk (i : nat) (chunk : list byte)
| OMuxClose (i : nat)
| OMuxRecv
| OMuxOffer
| OSpawn (now : Z) (error : option string)  (* the supervisor *)
| OKilled (now : Z)
| OSlept
| OFeed                                     (* stdin *)
| OStdin (n : Z)
| OFlushed
| OBroke
| OStdout (bytes : list byte)               (* stdout *)
| OStdoutEnd
| ODecode (sent : bool)
| OGate (granted : bool)
| OSent (ok : bool)
| OEdge (now : Z) (b : bool) (o : option OriginId)
| OConsumers (ch : string) (sinks : list (AttachedSink (C := C)))
| OStop.

Definition on_forwarder (i : nat) (g : Forwarder -> Forwarder) (e : Exec) : Exec :=
  let f := x_feeds e in set_feeds (mkFeeds (alter g i (rxs f)) (mux f) (src f) (merged f)) e.
Definition on_mux (g : MuxForwarder -> MuxForwarder) (e : Exec) : Exec :=
  let f := x_feeds e in set_feeds (mkFeeds (rxs f) (g (mux f)) (src f) (merged f)) e.
Definition on_edges (g : list (list (list byte) * bool) -> list (list (list byte) * bool)) : MuxForwarder -> MuxForwarder :=
  fun m => mkMuxForwarder (g (m_edges m)) (m_inbox_open m) (m_hand m).

(** A task that is gone takes no step: the forwarders of a stopped or unwired node, the drains of a wired one. *)
Definition exec_step (op : ExecOp) (e : Exec) : Exec :=
  match op with
  | OWrite i chunk => on_forwarder i (writer_sends chunk) e
  | OResume i => on_forwarder i writer_resumes e
  | ORecv i senders =>
      match x_phase e with
      | Aborted => e
      | Unwired => drain_chunk senders i e
      | _ => on_forwarder i (forwarder_recv senders) e
      end
  | OOffer i => match x_phase e with Aborted | Unwired => e | _ => set_feeds (offer i (x_feeds e)) e end
  | OMuxConnect => on_mux (on_edges (fun es => es ++ [([], true)])) e
  | OMuxChunk i chunk => on_mux (on_edges (alter (fun q : list (list byte) * bool => if q.2 then (q.1 ++ [chunk], q.2) else q) i)) e
  | OMuxClose i => on_mux (on_edges (alter (fun q : list (list byte) * bool => (q.1, false)) i)) e
  | OMuxRecv => match x_phase e with Aborted | Unwired => e | _ => on_mux mux_recv e end
  | OMuxOffer => match x_phase e with Aborted | Unwired => e | _ => set_feeds (mux_offer (x_feeds e)) e end
  | OSpawn now error => spawn now error e
  | OKilled now => killed now e
  | OSlept => slept e
  | OFeed => feed_recv e
  | OStdin n => feed_write n e
  | OFlushed => feed_flushed e
  | OBroke => feed_broke e
  | OStdout bytes => read_some bytes e
  | OStdoutEnd => read_ended e
  | ODecode sent => decode_next sent e
  | OGate granted => gate granted e
  | OSent ok => send_resolved ok e
  | OEdge now b o => set_ctl (edge_surgery now b o (x_ctl e)) e
  | OConsumers ch sinks =>
      let r := x_routing e in
      set_routing (mkRouting (<[ch := sinks]> (channel_sinks r)) (channel_feeds r) (stats r) (unconfigured r)
                     (mux_discarded_targetward r) (r_log r) (r_sent r) (r_cut r)) e
  | OStop => match x_phase e with Aborted => e | _ => signal_stop e end
  end.

Definition exec_run (ops : list ExecOp) (e : Exec) : Exec := foldl (fun e op => exec_step op e) e ops.

(** ** The children, living and past *)

Definition current (p : Phase) : list Child := match p with Pumping c _ _ => [c] | _ => [] end.
Definition children (e : Exec) : list Child := x_past e ++ current (x_phase e).

(** What the pumps took of the merge queue, in order: all but an item cut short per child is written. *)
Definition c_fed (c : Child) : list FeedItem := c_done c ++ option_list (c_hand c).
Definition fed (e : Exec) : list FeedItem := concat (c_fed <$> children e).

(** ** Status *)

Definition shown_count (r : ExecReason) : option Z := match r with SpawnFailed _ n | ChildExited n => Some n | _ => None end.

Definition faulted_with (n : Z) (c : Control) : Prop :=
  exists why, node_status (status c) = Faulted why /\ shown_count why = Some n.

Definition carries (c : Control) : Prop := exists b, node_status (status c) = upstream_status b.

Definition ctl_ok (ms : Z) (e : Exec) : Prop :=
  let c := x_ctl e in
  let n := restart_count c in
  let dead := len (x_past e) in
  backoff_use (fixed ms) (backoff c) /\ 0 <= n
  /\ match x_phase e with
     | Unwired => node_status (status c) = Waiting NoDriver /\ child_live c = false
     | Spawning => child_live c = false /\ n = c_failed c + dead /\ (n = 0 /\ carries c \/ 0 < n /\ faulted_with n c)
     | Pumping _ _ _ => child_live c = true /\ n = c_failed c + dead /\ node_status (status c) = upstream_status (attached c)
     | Killing _ => child_live c = true /\ n + 1 = c_failed c + dead /\ node_status (status c) = upstream_status (attached c)
     | BackingOff w => child_live c = false /\ n = c_failed c + dead /\ w = ms /\ 0 < n /\ faulted_with n c
     | Done => child_live c = false /\ n + 1 = c_failed c + dead /\ carries c
     | Aborted => True
     end.

Lemma put_status_eq now st c : node_status (status (put_status now st c)) = st.
Proof. unfold put_status, set_status, set_at. cbn. by case_bool_decide. Qed.

Lemma fixed_interval ms b : u64 ms -> backoff_use (fixed ms) b -> (next_interval b).1 = ms.
Proof. intros Hm Hu. pose proof (fixed_schedule ms b 1 Hm Hu) as F. cbn in F. by apply Forall_inv in F. Qed.

Lemma respawn_ok ms now why failed c :
  u64 ms -> backoff_use (fixed ms) (backoff c) -> (forall n, shown_count (why n) = Some n) ->
  exists c', retry now why failed c = (ms, c') /\ child_live c' = false /\ restart_count c' = restart_count c + 1
    /\ c_failed c' = c_failed c + failed /\ faulted_with (restart_count c') c' /\ backoff_use (fixed ms) (backoff c').
Proof.
  intros Hm Hu Hw. unfold retry. pose proof (fixed_interval ms _ Hm Hu) as Hi. pose proof (use_wait _ _ Hu) as Hb.
  destruct (next_interval (backoff c)) as [w b]. cbn in Hi, Hb. subst w. eexists. split; [done|].
  split_and!; try done. exists (why (restart_count c + 1)). split; [apply put_status_eq|apply Hw].
Qed.

(** A step of the pump that does not end it. *)
Definition pumps_on (e e' : Exec) : Prop :=
  x_ctl e' = x_ctl e /\ x_past e' = x_past e
  /\ match x_phase e, x_phase e' with Pumping _ _ _, Pumping _ _ _ => True | p, p' => p' = p end.

Lemma ctl_frame ms e e' : pumps_on e e' -> ctl_ok ms e -> ctl_ok ms e'.
Proof.
  intros (E1 & E2 & E3). unfold ctl_ok. rewrite E1, E2. destruct (x_phase e), (x_phase e'); done || (by injection E3 as ->).
Qed.

Lemma ctl_end_pump ms end_ c f r e : x_phase e = Pumping c f r -> ctl_ok ms e -> ctl_ok ms (end_pump end_ c r e).
Proof.
  intros E O. unfold ctl_ok, end_pump in *. rewrite E in O. destruct O as (O1 & O2 & O3 & O4 & O5). cbn.
  split_and!; try done. len_lia.
Qed.

Lemma feed_on_pumps c c' items f r e : x_phase e = Pumping c f r -> pumps_on e (feed_on c' items r e).
Proof. intros E. unfold feed_on, pumps_on. rewrite E. by destruct (next_frame items) as [[[]|] ?]. Qed.

Lemma pumps_on_refl e e' :
  x_phase e' = x_phase e -> x_ctl e' = x_ctl e -> x_past e' = x_past e -> pumps_on e e'.
Proof. intros E1 E2 E3. unfold pumps_on. rewrite E1. by destruct (x_phase e). Qed.

Definition moves_control (op : ExecOp) : bool :=
  match op with OSpawn _ _ | OKilled _ | OSlept | OEdge _ _ _ | OStop => true | _ => false end.

(** The other operations step on or end the pump. *)
Lemma quiet_ops op e :
  moves_control op = false ->
  pumps_on e (exec_step op e)
  \/ exists end_ c f r e', x_phase e = Pumping c f r /\ x_phase e' = Pumping c f r /\ x_ctl e' = x_ctl e /\ x_past e' = x_past e
       /\ exec_step op e = end_pump end_ c r e'.
Proof.
  intros Hop. destruct op; cbn in Hop; try done; cbn [exec_step].
  all: try (left; by apply pumps_on_refl).
  - destruct (x_phase e) eqn:E; left; try by apply pumps_on_refl. unfold drain_chunk.
    destruct (rxs (x_feeds e) !! i); by apply pumps_on_refl.
  - destruct (x_phase e) eqn:E; left; by apply pumps_on_refl.
  - destruct (x_phase e) eqn:E; left; by apply pumps_on_refl.
  - destruct (x_phase e) eqn:E; left; by apply pumps_on_refl.
  - unfold feed_recv. destruct (x_phase e) as [| |c [|todo rest|rest] r| | | |] eqn:E; try (left; by apply pumps_on_refl).
    set (e1 := set_feeds _ e). destruct (hand _) as [x|].
    + left. exact (feed_on_pumps c _ _ FRecv r e1 E).
    + destruct (src_senders (x_feeds e)); [left; by apply pumps_on_refl|].
      right. exists SourceClosed, c, FRecv, r, e1. done.
  - unfold feed_write. destruct (x_phase e) as [| |c [|todo rest|rest] r| | | |] eqn:E; try (left; by apply pumps_on_refl).
    destruct (_ && _); left; [|by apply pumps_on_refl]. unfold pumps_on. cbn. by rewrite E.
  - unfold feed_flushed. destruct (x_phase e) as [| |c [|todo rest|rest] r| | | |] eqn:E; try (left; by apply pumps_on_refl).
    left. by eapply feed_on_pumps.
  - unfold feed_broke. destruct (x_phase e) as [| |c [|todo rest|rest] r| | | |] eqn:E; try (left; by apply pumps_on_refl);
      right; exists ChildDied, c; by eexists _, r, e.
  - unfold read_some. destruct (x_phase e) as [| |c f [d|d|d o b|d o b]| | | |] eqn:E; try (left; by apply pumps_on_refl).
    destruct (_ && _); left; [|by apply pumps_on_refl]. unfold pumps_on. cbn. by rewrite E.
  - unfold read_ended. destruct (x_phase e) as [| |c f [d|d|d o b|d o b]| | | |] eqn:E; try (left; by apply pumps_on_refl).
    right. by exists ChildDied, c, f, (RRead d), e.
  - unfold decode_next. destruct (x_phase e) as [| |c f [d|d|d o b|d o b]| | | |] eqn:E; try (left; by apply pumps_on_refl).
    destruct (next_event d) as [[[ev|]|err|] d'].
    + destruct (route_event _ _ _ _ _). left. unfold pumps_on. cbn. by rewrite E.
    + left. unfold pumps_on. cbn. by rewrite E.
    + right. exists ChildDied, c, f, (RDecode d), e. done.
    + right. exists ChildDied, c, f, (RDecode d), e. done.
  - unfold gate. destruct (x_phase e) as [| |c f [d|d|d o b|d o b]| | | |] eqn:E; try (left; by apply pumps_on_refl).
    left. unfold pumps_on. destruct granted; cbn; by rewrite E.
  - unfold send_resolved. destruct (x_phase e) as [| |c f [d|d|d o b|d o b]| | | |] eqn:E; try (left; by apply pumps_on_refl).
    left. unfold pumps_on. destruct ok; cbn; by rewrite E.
Qed.

Lemma ctl_step ms op e : u64 ms -> ctl_ok ms e -> ctl_ok ms (exec_step op e).
Proof.
  intros Hm O. destruct (moves_control op) eqn:Hop.
  2: { destruct (quiet_ops op e Hop) as [P|(end_ & c & f & r & e' & E & E' & E1 & E2 & ->)]; [by eapply ctl_frame|].
       eapply ctl_end_pump; [exact E'|]. eapply ctl_frame; [|exact O]. unfold pumps_on. by rewrite E, E'. }
  destruct op; cbn in Hop; try done; cbn [exec_step].
  - unfold spawn. destruct (x_phase e) eqn:E; try done. unfold ctl_ok in O. rewrite E in O.
    destruct O as (O1 & O2 & O3 & O4 & O5). destruct error as [err|].
    + destruct (respawn_ok ms now (SpawnFailed err) 1 (x_ctl e) Hm O1 (fun n => eq_refl)) as (c & -> & R1 & R2 & R3 & R4 & R5).
      unfold ctl_ok. cbn. rewrite R2, R3 in *. split_and!; try done; lia.
    + unfold ctl_ok. cbn. split_and!; try done. apply put_status_eq.
  - unfold killed. destruct (x_phase e) as [| | |[]| | |] eqn:E; try done; unfold ctl_ok in O; rewrite E in O;
      destruct O as (O1 & O2 & O3 & O4 & O5).
    + destruct (respawn_ok ms now ChildExited 0 (x_ctl e) Hm O1 (fun n => eq_refl)) as (c & -> & R1 & R2 & R3 & R4 & R5).
      unfold ctl_ok. cbn. rewrite R2, R3 in *. split_and!; try done; lia.
    + unfold ctl_ok. cbn. split_and!; try done. by eexists.
  - unfold slept. destruct (x_phase e) eqn:E; try done. unfold ctl_ok in *. rewrite E in O. cbn.
    destruct O as (O1 & O2 & O3 & O4 & O5 & O6 & O7). split_and!; try done. by right.
  - unfold ctl_ok, edge_surgery, set_upstream_attached in *. cbn.
    destruct (child_live (x_ctl e)) eqn:El; cbn.
    + destruct (x_phase e); rewrite ?El in O; intuition (try discriminate); apply put_status_eq.
    + destruct (x_phase e); rewrite ?El in *; intuition (try discriminate).
  - destruct (x_phase e) eqn:E; try done; unfold ctl_ok, signal_stop in *; cbn; rewrite ?E in *; intuition.
Qed.
(** ** The child's pipes *)

Definition item_wire (x : FeedItem) : list byte := concat (frame_bytes <$> item_frames x).
Definition wire_of (xs : list FeedItem) : list byte := concat (item_wire <$> xs).
#[local] Arguments wire_of : simpl never.

(** The stdin half: [pre] is the part of the item's frames that is written, or being written. *)
Definition writing (x : FeedItem) (todo : list byte) (rest : list DataFrame) (c : Child) : Prop :=
  c_hand c = Some x /\ wire_of (c_done c) `prefix_of` c_stdin c
  /\ exists pre, item_frames x = pre ++ rest /\ c_stdin c ++ todo = wire_of (c_done c) ++ concat (frame_bytes <$> pre).

Definition stdin_ok (f : FeedPhase) (c : Child) : Prop :=
  match f with
  | FRecv => c_hand c = None /\ c_stdin c = wire_of (c_done c)
  | FWrite todo rest => exists x, writing x todo rest c
  | FFlush rest => exists x, writing x [] rest c
  end.

(** [parsed s evs l]: the bytes [s] begin with the frames of [evs], and [l] is left. *)
Inductive parsed : list byte -> list Event -> list byte -> Prop :=
| parsed_none s : parsed s [] s
| parsed_event s ev n evs l :
    try_decode s = Ok (Some (ev, n)) -> parsed (drop (Z.to_nat n) s) evs l -> parsed s (ev :: evs) l.

Definition stdout_ok (r : ReadPhase) (c : Child) : Prop :=
  let at_ d := decoder_wf d /\ parsed (concat (c_reads c)) (c_events c) (Envelope.live d) in
  match r with
  | RRead d => at_ d /\ try_decode (Envelope.live d) = Ok None
  | RDecode d | RGate d _ _ | RSend d _ _ => at_ d
  end.

(** What holds of a child once it is gone. *)
Definition child_ok (c : Child) : Prop :=
  wire_of (c_done c) `prefix_of` c_stdin c /\ c_stdin c `prefix_of` wire_of (c_fed c)
  /\ exists l, parsed (concat (c_reads c)) (c_events c) l.

Lemma wire_of_app xs ys : wire_of (xs ++ ys) = wire_of xs ++ wire_of ys.
Proof. unfold wire_of. by rewrite fmap_app, concat_app. Qed.

Lemma stdin_child f c : stdin_ok f c -> wire_of (c_done c) `prefix_of` c_stdin c /\ c_stdin c `prefix_of` wire_of (c_fed c).
Proof.
  assert (forall x todo rest, writing x todo rest c -> c_stdin c `prefix_of` wire_of (c_fed c)) as W.
  { intros x todo rest (Eh & _ & pre & Ei & Ew). unfold c_fed. rewrite Eh, wire_of_app. cbn.
    exists (todo ++ concat (frame_bytes <$> rest)). rewrite (app_assoc (c_stdin c)), Ew, <- app_assoc. f_equal. unfold wire_of, item_wire. cbn.
    by rewrite app_nil_r, Ei, fmap_app, concat_app. }
  destruct f as [|todo rest|rest]; cbn.
  - intros [Eh ->]. unfold c_fed. rewrite Eh. cbn. by rewrite app_nil_r.
  - intros [x Hw]. split; [apply Hw|by eapply W].
  - intros [x Hw]. split; [apply Hw|by eapply W].
Qed.

Lemma stdout_child r c : stdout_ok r c -> exists l, parsed (concat (c_reads c)) (c_events c) l.
Proof. destruct r; cbn; naive_solver. Qed.

Lemma parsed_snoc s evs l ev n :
  parsed s evs l -> try_decode l = Ok (Some (ev, n)) -> parsed s (evs ++ [ev]) (drop (Z.to_nat n) l).
Proof. induction 1 as [s|s e1 n1 evs l E1 P IH]; intros E2; cbn; econstructor; eauto. constructor. Qed.

Lemma parsed_more s evs l r : parsed s evs l -> parsed (s ++ r) evs (l ++ r).
Proof.
  induction 1 as [s|s e1 n1 evs l E1 P IH]; [constructor|]. pose proof (try_decode_consumed _ _ _ E1) as [Hn _].
  econstructor; [by apply try_decode_app|]. rewrite drop_app_le; [exact IH|]. unfold len in Hn. lia.
Qed.

(** A child that writes whole frames has had exactly a beginning of them routed. *)
Lemma parsed_frames s more evs evs' l :
  Forall (fun e => event_typed e /\ event_fits e) evs -> s ++ more = concat (frame_of <$> evs) -> parsed s evs' l ->
  exists rest, evs = evs' ++ rest /\ l ++ more = concat (frame_of <$> rest).
Proof.
  intros Hall Hs P. revert evs Hall Hs. induction P as [s|s ev n evs' l E0 P IH]; intros evs Hall Hs; [by exists evs|].
  destruct evs as [|e evs].
  - apply app_eq_nil in Hs as [-> _]. apply try_decode_consumed in E0 as [Hn _]. rewrite len_nil in Hn. lia.
  - apply Forall_cons in Hall as [[Ht Hf] Hall]. pose proof (try_decode_app _ more _ _ E0) as D. rewrite Hs in D. cbn in D.
    rewrite try_decode_frame in D by done. injection D as -> <-. pose proof (try_decode_consumed _ _ _ E0) as [Hn _].
    assert (length (frame_of ev) <= length s)%nat as Hlen by (unfold len in Hn; lia).
    destruct (IH evs Hall) as (rest & -> & Hl).
    + unfold len. rewrite Nat2Z.id. apply (f_equal (drop (length (frame_of ev)))) in Hs. cbn in Hs.
      rewrite drop_app_length in Hs. rewrite drop_app_le in Hs by done. exact Hs.
    + by exists rest.
Qed.
(** *** Residuals *)

Definition residue_of (items : list DataFrame) : Z := total (fun i => match i with Residual n => n | Piece _ _ => 0 end) items.
Definition residue (x : FeedItem) : Z := residue_of (item_frames x).
Definition pending (f : FeedPhase) : list DataFrame := match f with FRecv => [] | FWrite _ rest | FFlush rest => rest end.
Definition owed (p : Phase) : Z := match p with Pumping _ f _ => residue_of (pending f) | _ => 0 end.
Definition begun (p : Phase) : list FeedItem := match p with Pumping c _ _ => option_list (c_hand c) | _ => [] end.

Lemma residue_of_app a b : residue_of (a ++ b) = residue_of a + residue_of b.
Proof. apply total_app. Qed.

Lemma residue_of_piece k frame rest : residue_of (Piece k frame :: rest) = residue_of rest.
Proof. unfold residue_of. by rewrite total_cons. Qed.

Lemma item_frames_spec x :
  exists pieces tail, item_frames x = yields (fi_channel x) pieces tail
    /\ concat pieces ++ tail = fi_bytes x /\ pieces_ok (fi_channel x) pieces tail.
Proof.
  unfold item_frames. destruct (data_frames_spec (fi_channel x) (fi_bytes x)) as (pieces & tail & -> & H1 & H2).
  by exists pieces, tail.
Qed.

Lemma residue_parts x pre rest : item_frames x = pre ++ rest -> 0 <= residue_of pre /\ 0 <= residue_of rest.
Proof.
  intros E. destruct (item_frames_spec x) as (pieces & tail & Ey & _ & _). rewrite Ey in E.
  assert (Forall (fun i => 0 <= match i with Residual n => n | Piece _ _ => 0 end) (pre ++ rest)) as F.
  { rewrite <- E. unfold yields. apply Forall_app. split; [apply Forall_fmap, Forall_true; cbn; lia|].
    case_bool_decide; constructor; [apply len_nonneg|done]. }
  assert (forall l, Forall (fun i => 0 <= match i with Residual n => n | Piece _ _ => 0 end) l -> 0 <= residue_of l) as G.
  { intros l. unfold residue_of. induction 1; [done|]. rewrite total_cons. lia. }
  apply Forall_app in F as [F1 F2]. auto.
Qed.

Lemma next_frame_spec items :
  match next_frame items with
  | (Some (frame, rest), n) =>
      exists k skipped, items = skipped ++ Piece k frame :: rest /\ residue_of skipped = n /\ concat (frame_bytes <$> skipped) = []
  | (None, n) => residue_of items = n /\ concat (frame_bytes <$> items) = []
  end.
Proof.
  induction items as [|[k frame|n] items IH]; cbn [next_frame]; [done|by exists k, []|].
  destruct (next_frame items) as [[[frame rest]|] m].
  - destruct IH as (k & skipped & -> & <- & Hc). exists k, (Residual n :: skipped). split_and!; [done| |done].
    unfold residue_of. by rewrite total_cons.
  - destruct IH as [<- Hc]. split; [|done]. unfold residue_of. by rewrite total_cons.
Qed.

Record pipe_ok (e : Exec) : Prop := {
  po_past : Forall child_ok (x_past e);
  po_current : match x_phase e with Pumping c f r => stdin_ok f c /\ stdout_ok r c | _ => True end;
  po_residue : total residue (concat (c_done <$> children e) ++ begun (x_phase e)) <= unframable_discarded e + owed (x_phase e)
               <= total residue (fed e) }.

(** [feed_on] from wherever the stdin half stands in its item. *)
Lemma feed_on_pipe c c0 f0 x items r e :
  x_phase e = Pumping c0 f0 r -> Forall child_ok (x_past e) -> stdout_ok r c -> writing x [] items c ->
  total residue (concat (c_done <$> x_past e ++ [c]) ++ [x]) <= unframable_discarded e + residue_of items
    <= total residue (concat (c_fed <$> x_past e ++ [c])) ->
  pipe_ok (feed_on c items r e).
Proof.
  intros E Hp Ho (Eh & Hd & pre & Ei & Ew) Hr. rewrite app_nil_r in Ew. unfold feed_on.
  pose proof (next_frame_spec items) as N. destruct (next_frame items) as [[[frame rest]|] n].
  - destruct N as (k & skipped & -> & <- & Hc). rewrite residue_of_app, residue_of_piece in Hr.
    split; cbn; [done|split; [|done]|].
    + exists x. split_and!; [done|done|]. exists (pre ++ skipped ++ [Piece k frame]). split; [by rewrite Ei, <- !app_assoc|].
      rewrite Ew, !fmap_app, !concat_app, Hc. cbn. by rewrite app_nil_r, <- app_assoc.
    + unfold fed, children, begun, current. cbn. rewrite Eh. cbn. lia.
  - destruct N as [<- Hc]. split; cbn; [done|split; [|exact Ho]|].
    + split; [done|]. rewrite Eh, wire_of_app, Ew. f_equal. unfold wire_of, item_wire. cbn.
      by rewrite app_nil_r, Ei, fmap_app, concat_app, Hc, app_nil_r.
    + unfold fed, children, begun, current in *. cbn. unfold finish_item, c_fed in *. cbn.
      rewrite !fmap_app, !concat_app in *. cbn in *. rewrite Eh in *. cbn in *. rewrite !app_nil_r in *.
      rewrite !app_assoc in *. change (residue_of []) with 0. lia.
Qed.
(** The pipes only depend on the children and the residual counter. *)
Lemma pipe_frame e e' :
  pipe_ok e -> x_past e' = x_past e -> unframable_discarded e' = unframable_discarded e ->
  match x_phase e, x_phase e' with
  | Pumping c f r, p' => p' = Pumping c f r
  | _, Pumping _ _ _ => False
  | _, _ => True
  end -> pipe_ok e'.
Proof.
  intros [O1 O2 O3] E1 E2 E3. unfold fed, children in *.
  split; unfold fed, children; rewrite ?E1, ?E2; [done| |].
  - destruct (x_phase e), (x_phase e'); done || (by injection E3 as -> -> ->).
  - destruct (x_phase e), (x_phase e'); done || exact O3 || (by injection E3 as -> -> ->).
Qed.

(** The pump is over, one way or the other. *)
Lemma pipe_gone e e' c f r :
  pipe_ok e -> x_phase e = Pumping c f r -> x_past e' = x_past e ++ [c] -> current (x_phase e') = [] ->
  unframable_discarded e' = unframable_discarded e -> pipe_ok e'.
Proof.
  intros [O1 O2 O3] E Ep Ec Eu. rewrite E in O2. destruct O2 as [Oi Oo]. unfold fed, children in O3. rewrite E in O3. cbn in O3.
  split; rewrite ?Ep.
  - apply Forall_app. split; [done|]. constructor; [|done]. pose proof (stdin_child f c Oi) as [S1 S2]. split_and!; try done.
    by eapply stdout_child.
  - by destruct (x_phase e').
  - unfold fed, children, begun in *. rewrite Ep, Ec, Eu, app_nil_r.
    assert (owed (x_phase e') = 0) as -> by (by destruct (x_phase e')).
    assert (match x_phase e' with Pumping c _ _ => option_list (c_hand c) | _ => [] end = []) as -> by (by destruct (x_phase e')).
    rewrite total_app in O3. rewrite app_nil_r.
    assert (0 <= residue_of (pending f) <= total residue (option_list (c_hand c))) as B; [|lia].
    destruct f as [|todo rest|rest]; cbn.
    + destruct Oi as [-> _]. done.
    + destruct Oi as (x & -> & _ & pre & Ei & _). cbn. rewrite total_cons, total_nil. unfold residue. rewrite Ei, residue_of_app.
      pose proof (residue_parts x pre rest Ei). lia.
    + destruct Oi as (x & -> & _ & pre & Ei & _). cbn. rewrite total_cons, total_nil. unfold residue. rewrite Ei, residue_of_app.
      pose proof (residue_parts x pre rest Ei). lia.
Qed.

Lemma pipe_feed_recv e : pipe_ok e -> pipe_ok (feed_recv e).
Proof.
  intros O. unfold feed_recv. destruct (x_phase e) as [| |c [|todo rest|rest] r| | | |] eqn:E; try done.
  set (e1 := set_feeds _ e). assert (pipe_ok e1) as O1 by (eapply pipe_frame; [exact O|done..|]; cbn; by rewrite E).
  assert (x_phase e1 = Pumping c FRecv r) as E1 by exact E.
  destruct (hand _) as [x|].
  - destruct O as [P1 P2 P3]. rewrite E in P2. destruct P2 as [[Eh Es] Po].
    eapply (feed_on_pipe _ c FRecv x); [exact E1|exact P1| |split_and!|].
    + exact Po.
    + done.
    + cbn. by rewrite Es.
    + exists []. split; [done|]. cbn. by rewrite !app_nil_r.
    + unfold fed, children, begun, c_fed in *. rewrite E in P3. cbn in P3. rewrite Eh in P3. cbn in P3. cbn.
      rewrite !fmap_app, !concat_app in *. cbn in *. rewrite !app_nil_r, ?Eh in *. cbn in *. rewrite ?app_nil_r in *.
      rewrite !total_app, !total_cons in *. change (residue_of []) with 0 in P3. change (residue_of (item_frames x)) with (residue x).
      rewrite total_nil in *. lia.
  - destruct (src_senders _); [done|]. by eapply pipe_gone.
Qed.

Lemma pipe_feed_write n e : pipe_ok e -> pipe_ok (feed_write n e).
Proof.
  intros O. unfold feed_write. destruct (x_phase e) as [| |c [|todo rest|rest] r| | | |] eqn:E; try done.
  destruct (_ && _); [|done]. destruct O as [P1 P2 P3]. rewrite E in P2. destruct P2 as [(x & Eh & Hd & pre & Ei & Ew) Po].
  set (w := take (Z.to_nat n) todo). set (todo' := drop (Z.to_nat n) todo).
  assert (todo = w ++ todo') as Et by (symmetry; apply take_drop).
  assert (writing x todo' rest (wrote w c)) as W.
  { split; [done|]. split; [cbn; by apply prefix_app_r|]. exists pre. split; [done|]. cbn. by rewrite <- Ew, Et, <- app_assoc. }
  assert (residue_of (pending (if bool_decide (todo' = []) then FFlush rest else FWrite todo' rest)) = residue_of rest) as Er
    by (by case_bool_decide).
  split; cbn.
  - done.
  - split; [|by destruct r]. case_bool_decide as En; exists x; [by rewrite En in W|done].
  - rewrite Er. unfold fed, children, begun, c_fed in *. rewrite E in P3. cbn in *.
    rewrite !fmap_app, !concat_app in *. done.
Qed.
Lemma pipe_feed_flushed e : pipe_ok e -> pipe_ok (feed_flushed e).
Proof.
  intros [P1 P2 P3]. unfold feed_flushed. destruct (x_phase e) as [| |c [|todo rest|rest] r| | | |] eqn:E; try done; try by split; rewrite ?E.
  destruct P2 as [(x & W) Po]. eapply (feed_on_pipe _ c (FFlush rest) x); try done.
  unfold fed, children, begun in P3. rewrite E in P3. cbn in P3. destruct W as [Eh _]. rewrite Eh in P3. exact P3.
Qed.

(** The stdout half moves: the stdin half and the items stay. *)
Lemma pipe_read e e' c c' f r r' :
  pipe_ok e -> x_phase e = Pumping c f r -> x_phase e' = Pumping c' f r' -> x_past e' = x_past e ->
  unframable_discarded e' = unframable_discarded e ->
  c_done c' = c_done c -> c_hand c' = c_hand c -> c_stdin c' = c_stdin c -> (stdout_ok r c -> stdout_ok r' c') -> pipe_ok e'.
Proof.
  intros [P1 P2 P3] E E' Ep Eu Ed Eh Es Hr. unfold fed, children, begun, c_fed in *. rewrite E in P2, P3. destruct P2 as [Pi Po].
  split; rewrite ?Ep, ?Eu, ?E'; [done| |].
  - split; [|by apply Hr]. destruct f; cbn in *; unfold writing in *; by rewrite Ed, Eh, Es.
  - unfold fed, children, begun, c_fed. rewrite E', Ep. cbn in *. rewrite !fmap_app, !concat_app in *. cbn in *. by rewrite Ed, Eh.
Qed.

Lemma pipe_read_some bytes e : pipe_ok e -> pipe_ok (read_some bytes e).
Proof.
  intros O. unfold read_some. destruct (x_phase e) as [| |c f [d|d|d o b|d o b]| | | |] eqn:E; try done.
  destruct (_ && _); [|done]. eapply pipe_read; [exact O|exact E|done..|].
  intros [[Hwf P] _]. destruct (push_live d bytes Hwf) as [Hwf' Hl]. split; [done|]. cbn.
  rewrite concat_app, Hl. cbn. rewrite app_nil_r. by apply parsed_more.
Qed.

Lemma pipe_decode sent e : pipe_ok e -> pipe_ok (decode_next sent e).
Proof.
  intros O. unfold decode_next. destruct (x_phase e) as [| |c f [d|d|d o b|d o b]| | | |] eqn:E; try done.
  assert (forall d', stdout_ok (RDecode d) c -> next_event d = (Ok None, d') -> stdout_ok (RRead d') c) as Hnone.
  { intros d' [Hwf P] En. pose proof (next_event_live d Hwf) as [Hwf' N]. rewrite En in *. cbn in *.
    destruct (try_decode (Envelope.live d)) as [[[ev n]|]|err|] eqn:Et; try done; [by destruct N|]. injection N as ->. done. }
  assert (forall ev d', stdout_ok (RDecode d) c -> next_event d = (Ok (Some ev), d') ->
    decoder_wf d' /\ parsed (concat (c_reads c)) (c_events c ++ [ev]) (Envelope.live d')) as Hsome.
  { intros ev d' [Hwf P] En. pose proof (next_event_live d Hwf) as [Hwf' N]. rewrite En in *. cbn in *. split; [done|].
    destruct (try_decode (Envelope.live d)) as [[[ev' n]|]|err|] eqn:Et; try done. destruct N as [[= <-] ->].
    by apply parsed_snoc. }
  destruct (next_event d) as [[[ev|]|err|] d'].
  - destruct (route_event d' ev sent (origin (x_ctl e)) (x_routing e)) as [rp rt] eqn:Er.
    eapply pipe_read; [exact O|exact E|done..|]. intros Ho. specialize (Hsome ev d' Ho eq_refl).
    unfold route_event in Er. repeat case_match; injection Er as <- <-; exact Hsome.
  - eapply pipe_read; [exact O|exact E|done..|]. intros Ho. by apply Hnone.
  - by eapply pipe_gone.
  - by eapply pipe_gone.
Qed.

Lemma pipe_step op e : pipe_ok e -> pipe_ok (exec_step op e).
Proof.
  intros O. destruct op; cbn [exec_step].
  all: try (eapply pipe_frame; [exact O|done..|]; cbn; by destruct (x_phase e)).
  - destruct (x_phase e) eqn:E; try done; try (eapply pipe_frame; [exact O|done..|cbn; by rewrite E]).
    unfold drain_chunk. destruct (rxs (x_feeds e) !! i); [|done]. eapply pipe_frame; [exact O|done..|cbn; by rewrite E].
  - destruct (x_phase e) eqn:E; try done; (eapply pipe_frame; [exact O|done..|cbn; by rewrite E]).
  - destruct (x_phase e) eqn:E; try done; (eapply pipe_frame; [exact O|done..|cbn; by rewrite E]).
  - destruct (x_phase e) eqn:E; try done; (eapply pipe_frame; [exact O|done..|cbn; by rewrite E]).
  - unfold spawn. destruct (x_phase e) eqn:E; try done. destruct error as [err|].
    + destruct (retry _ _ _ _). eapply pipe_frame; [exact O|done..|cbn; by rewrite E].
    + destruct O as [P1 P2 P3]. unfold fed, children, begun in P3. rewrite E in P3.
      split; unfold fed, children, begun; cbn; [done|split_and!; try done; constructor|].
      rewrite !fmap_app, !concat_app. cbn in *. rewrite !app_nil_r in *. exact P3.
  - unfold killed. destruct (x_phase e) as [| | |[]| | |] eqn:E; try done.
    + destruct (retry _ _ _ _). eapply pipe_frame; [exact O|done..|cbn; by rewrite E].
    + eapply pipe_frame; [exact O|done..|cbn; by rewrite E].
  - unfold slept. destruct (x_phase e) eqn:E; try done. eapply pipe_frame; [exact O|done..|cbn; by rewrite E].
  - by apply pipe_feed_recv.
  - by apply pipe_feed_write.
  - by apply pipe_feed_flushed.
  - unfold feed_broke. destruct (x_phase e) as [| |c [|todo rest|rest] r| | | |] eqn:E; try done; by eapply pipe_gone.
  - by apply pipe_read_some.
  - unfold read_ended. destruct (x_phase e) as [| |c f [d|d|d o b|d o b]| | | |] eqn:E; try done; by eapply pipe_gone.
  - by apply pipe_decode.
  - unfold gate. destruct (x_phase e) as [| |c f [d|d|d o b|d o b]| | | |] eqn:E; try done.
    destruct granted; by eapply pipe_read.
  - unfold send_resolved. destruct (x_phase e) as [| |c f [d|d|d o b|d o b]| | | |] eqn:E; try done.
    destruct ok; by eapply pipe_read.
  - destruct (x_phase e) eqn:E; try done; unfold signal_stop; rewrite E;
      try (eapply pipe_frame; [exact O|done..|cbn; by rewrite E]). by eapply pipe_gone.
Qed.
End exec.
