(* ===== verification/ExecFlow.v ===== *)
(** * The exec codec node: accounting

    What the exec node of Exec.v does with every byte: the order and the fate of targetward chunks
    through channel queues, merge queue and children, the teardown count, and the fate of
    everything a child emits. *)

From S2P Require Import Prelude GraphTypes Config Envelope Tap State Boundary Channel Inbox Frames FanOut Identity CodecNode Exec.
#[local] Open Scope Z_scope.

Section flow.
Context {C : Type -> Type} `{MpscLaws C} `{Eng : Pattern.Engine}.
Abbreviation Forwarder := (Exec.Forwarder (C := C)) (only parsing).
Abbreviation Feeds := (Exec.Feeds (C := C)) (only parsing).
Abbreviation Exec := (Exec.Exec (C := C)) (only parsing).
Abbreviation ExecOp := (Exec.ExecOp (C := C)) (only parsing).
Abbreviation Routing := (Exec.Routing (C := C)) (only parsing).

(** ** Queues *)

Section lanes.
Context {T : Type} `{TeardownBytes T}.

Definition queue (l : Lane C T) : list T := match slot (inbox l) with Some rx => contents rx | None => [] end.

Lemma answer_spec x (l : Lane C T) rx :
  slot (inbox l) = Some rx ->
  match answer x l with
  | SendOk => exists rx', contents rx' = contents rx ++ [x] /\ rx_open rx' = true
      /\ attempt_send x l = Some (mkLane (mkInbox (Some rx') (held (inbox l))) (writers l) (hand l) (accepted l + teardown_bytes x)
                                   (refused l) (Inbox.delivered l) (charged l) (purged l) (uncharged l))
  | SendFull => attempt_send x l = None
  | SendClosed => rx_open rx = false
      /\ attempt_send x l = Some (mkLane (inbox l) (writers l) (hand l) (accepted l) (refused l + teardown_bytes x)
                                   (Inbox.delivered l) (charged l) (purged l) (uncharged l))
  end.
Proof.
  intros Es. unfold answer, attempt_send. rewrite Es. pose proof (try_send_spec T rx x) as R.
  destruct (try_send rx x) as [[] rx']; cbn; [|done|by destruct R].
  destruct R as (_ & _ & Hc & Ho & _). by exists rx'.
Qed.

Lemma lane_recv_spec senders (l : Lane C T) rx :
  slot (inbox l) = Some rx -> hand l = None ->
  exists rx', rx_open rx' = rx_open rx
  /\ lane_step (LRecv senders) l =
       mkLane (mkInbox (Some rx') (match contents rx with x :: _ => teardown_bytes x | [] => 0 end)) (writers l) (head (contents rx))
         (accepted l) (refused l) (Inbox.delivered l) (charged l) (purged l) (uncharged l)
  /\ contents rx' = tail (contents rx).
Proof.
  intros Es Eh. cbn. rewrite Eh. unfold recv, poll_recv, settle_held. cbn. rewrite Es. pose proof (try_recv_spec T rx) as R.
  destruct (contents rx) as [|x q] eqn:Eq.
  - rewrite R. exists rx. split; [done|]. by destruct senders.
  - destruct (try_recv rx) as [o rx']. cbn in R. destruct R as (-> & Hq & Ho & _). by exists rx'.
Qed.

(** What senders do leaves the receiver's side alone. *)
Definition same_receiver (l l' : Lane C T) : Prop :=
  hand l' = hand l /\ held (inbox l') = held (inbox l) /\ Inbox.delivered l' = Inbox.delivered l
  /\ charged l' = charged l /\ purged l' = purged l /\ uncharged l' = uncharged l.

Lemma send_spec x (l : Lane C T) rx :
  slot (inbox l) = Some rx ->
  same_receiver l (lane_step (LSend x) l)
  /\ queue (lane_step (LSend x) l) = queue l ++ match answer x l with SendOk => [x] | _ => [] end.
Proof.
  intros Es. pose proof (answer_spec x l rx Es) as A. unfold queue. rewrite Es. cbn. destruct (answer x l).
  - destruct A as (rx' & Hc & _ & ->). cbn. by rewrite Hc.
  - rewrite A. cbn. by rewrite Es, app_nil_r.
  - destruct A as [_ ->]. cbn. by rewrite Es, app_nil_r.
Qed.

Lemma resume_send_spec (l : Lane C T) rx :
  slot (inbox l) = Some rx ->
  same_receiver l (lane_step LResume l)
  /\ queue (lane_step LResume l) = queue l ++ match writers l with x :: _ => match answer x l with SendOk => [x] | _ => [] end | [] => [] end.
Proof.
  intros Es. cbn. destruct (writers l) as [|x ws]; [by rewrite app_nil_r|].
  pose proof (answer_spec x (set_writers ws l) rx Es) as A. change (answer x (set_writers ws l)) with (answer x l) in A.
  unfold queue. rewrite Es. destruct (answer x l).
  - destruct A as (rx' & Hc & _ & ->). cbn. by rewrite Hc.
  - rewrite A. cbn. by rewrite Es, app_nil_r.
  - destruct A as [_ ->]. cbn. by rewrite Es, app_nil_r.
Qed.
End lanes.
(** *** Forwarders *)

(** A running queue with the task that reads it. *)
Record forwarder_ok (M : Z) (w : Forwarder) : Prop := {
  fo_lane : lane_ok M (w_lane w);
  fo_idle : hand (w_lane w) = None -> held (inbox (w_lane w)) = 0;
  fo_purged : purged (w_lane w) = 0;
  fo_uncharged : uncharged (w_lane w) = 0;
  fo_in : w_in w = w_took w ++ queue (w_lane w) }.

(** The task forwards: what it took is in the merge queue's past, in order, or in its hand. *)
Definition forwards (mg : list FeedItem) (w : Forwarder) : Prop :=
  charged (w_lane w) = 0
  /\ mkFeed (w_channel w) <$> w_took w
    = filter (fun x => fi_channel x = w_channel w) mg ++ (mkFeed (w_channel w) <$> option_list (hand (w_lane w))).

(** The task drains. *)
Definition drains (w : Forwarder) : Prop := hand (w_lane w) = None /\ Inbox.delivered (w_lane w) = 0.

(** A writer moves: only the queue behind the task changes. *)
Definition writer_moved (w w' : Forwarder) : Prop :=
  w_channel w' = w_channel w /\ w_took w' = w_took w /\ same_receiver (w_lane w) (w_lane w').

Lemma writer_sends_ok M chunk w :
  forwarder_ok M w -> len chunk <= M -> forwarder_ok M (writer_sends chunk w) /\ writer_moved w (writer_sends chunk w).
Proof.
  intros [F1 F2 F3 Fu F4] Hm. destruct (lo_live _ _ F1) as (rx & Es & _). destruct (send_spec chunk (w_lane w) rx Es) as [S Q].
  split; [|done]. destruct S as (S1 & S2 & S3 & S4 & S5 & S6). split; cbn [writer_sends w_lane w_in w_took].
  - by apply (lane_step_ok M (LSend chunk)).
  - intros Eh. rewrite S2. apply F2. by rewrite <- S1.
  - by rewrite S5.
  - by rewrite S6.
  - rewrite Q, F4. by destruct (answer chunk (w_lane w)); rewrite ?app_nil_r, ?app_assoc.
Qed.

Lemma writer_resumes_ok M w :
  forwarder_ok M w -> forwarder_ok M (writer_resumes w) /\ writer_moved w (writer_resumes w).
Proof.
  intros [F1 F2 F3 Fu F4]. destruct (lo_live _ _ F1) as (rx & Es & _). destruct (resume_send_spec (w_lane w) rx Es) as [S Q].
  split; [|done]. destruct S as (S1 & S2 & S3 & S4 & S5 & S6). split; cbn [writer_resumes w_lane w_in w_took].
  - by apply (lane_step_ok M LResume).
  - intros Eh. rewrite S2. apply F2. by rewrite <- S1.
  - by rewrite S5.
  - by rewrite S6.
  - rewrite Q, F4. destruct (writers (w_lane w)) as [|chunk ws]; [by rewrite app_nil_r|].
    by destruct (answer chunk (w_lane w)); rewrite ?app_nil_r, ?app_assoc.
Qed.

Lemma forwards_moved mg w w' : writer_moved w w' -> forwards mg w -> forwards mg w'.
Proof. intros (E1 & E2 & E3 & _ & _ & E4 & _) [F1 F2]. split; [by rewrite E4|]. by rewrite E1, E2, E3. Qed.

Lemma drains_moved w w' : writer_moved w w' -> drains w -> drains w'.
Proof. intros (_ & _ & E1 & _ & E2 & _) [F1 F2]. split; congruence. Qed.

(** A receive: nothing, or the head of the queue. *)
Lemma forwarder_recv_ok M senders w :
  forwarder_ok M w ->
  let w' := forwarder_recv senders w in
  forwarder_ok M w' /\ w_channel w' = w_channel w /\ Inbox.delivered (w_lane w') = Inbox.delivered (w_lane w)
  /\ charged (w_lane w') = charged (w_lane w)
  /\ (w' = w \/ hand (w_lane w) = None /\ w_took w' = w_took w ++ option_list (hand (w_lane w'))).
Proof.
  intros F w'. unfold w', forwarder_recv. destruct (w_done w), (hand (w_lane w)) as [x|] eqn:Eh; try (by split_and!; auto).
  destruct F as [F1 F2 F3 Fu F4]. pose proof (lane_step_ok M (LRecv senders) _ F1 I) as L'.
  destruct (lo_live _ _ F1) as (rx & Es & _). destruct (lane_recv_spec senders (w_lane w) rx Es Eh) as (rx' & _ & El & Hc).
  rewrite El in *. cbn [w_channel w_lane w_took hand Inbox.delivered charged].
  split_and!; [|done..|right; split; [done|]; by destruct (head (contents rx))].
  unfold queue in F4. rewrite Es in F4. split; cbn [w_lane w_in w_took]; [exact L'| |done..|].
  - cbn. by destruct (contents rx).
  - unfold queue. cbn. rewrite F4, Hc. destruct (contents rx) as [|c q]; cbn; [by rewrite !app_nil_r|by rewrite <- app_assoc].
Qed.

Lemma forwards_recv mg senders M w : forwarder_ok M w -> forwards mg w -> forwards mg (forwarder_recv senders w).
Proof.
  intros F [G1 G2]. destruct (forwarder_recv_ok M senders w F) as (_ & E1 & _ & E3 & [->|[Eh E4]]); [done|].
  split; [by rewrite E3|]. rewrite E1, E4, fmap_app, G2, Eh. cbn. by rewrite app_nil_r.
Qed.
(** *** The merge queue *)

Abbreviation size := (teardown_bytes (T := FeedItem)) (only parsing).

(** Items the pumps have begun in the past: each was cut short by the death of its child. *)
Definition cut_items (e : Exec) : list FeedItem := concat ((fun c => option_list (c_hand c)) <$> x_past e).

Record src_ok (M : Z) (e : Exec) : Prop := {
  so_lane : lane_ok M (src (x_feeds e));
  so_open : exists rx, slot (inbox (src (x_feeds e))) = Some rx /\ rx_open rx = true;
  so_purged : purged (src (x_feeds e)) = 0;
  so_merged : merged (x_feeds e) = fed e ++ queue (src (x_feeds e));
  so_hand : option_list (hand (src (x_feeds e))) = begun (x_phase e);
  so_delivered : Inbox.delivered (src (x_feeds e)) = total size (concat (c_done <$> children e));
  so_charged : charged (src (x_feeds e)) = 0;
  so_uncharged : uncharged (src (x_feeds e)) = total size (cut_items e);
  so_held : hand (src (x_feeds e)) = None ->
    held (inbox (src (x_feeds e))) = 0 \/ exists x, x ∈ cut_items e /\ held (inbox (src (x_feeds e))) = size x;
  so_accepted : accepted (src (x_feeds e)) = total (fun w => Inbox.delivered (w_lane w)) (rxs (x_feeds e)) }.

Record wired (f : Feeds) : Prop := {
  wi_names : NoDup (w_channel <$> rxs f);
  wi_real : MUX_CHANNEL ∉ w_channel <$> rxs f;
  wi_forwards : Forall (forwards (merged f)) (rxs f);
  wi_known : Forall (fun x => fi_channel x = MUX_CHANNEL \/ fi_channel x ∈ w_channel <$> rxs f) (merged f) }.

Record feeds_ok (M : Z) (e : Exec) : Prop := {
  fe_rxs : Forall (forwarder_ok M) (rxs (x_feeds e));
  fe_tasks : match x_phase e with Unwired => Forall drains (rxs (x_feeds e)) | _ => wired (x_feeds e) end;
  fe_src : src_ok M e }.

Lemma total_insert {A} (g : A -> Z) i (xs : list A) x y :
  xs !! i = Some x -> total g (<[i := y]> xs) = total g xs - g x + g y.
Proof.
  revert i. induction xs as [|a xs IH]; intros [|i]; cbn; try done.
  - intros [= ->]. rewrite !total_cons. lia.
  - intros E. rewrite !total_cons. etrans; [apply Z.add_cancel_l, (IH i E)|lia].
Qed.

Lemma Forall_at {A} (P Q : A -> Prop) i (xs : list A) y :
  Forall P xs -> Q y -> (forall j x, j <> i -> xs !! j = Some x -> P x -> Q x) -> Forall Q (<[i := y]> xs).
Proof.
  intros HP Hy HQ. rewrite Forall_lookup in *. intros j x Hj. apply list_lookup_insert_Some in Hj as [(-> & -> & _)|[Hne Hj]]; [done|].
  eapply HQ; eauto.
Qed.

(** The task hands its chunk on, and is polled again: nothing is held. *)
Lemma handed_on M w chunk :
  forwarder_ok M w -> hand (w_lane w) = Some chunk ->
  let w' := mkForwarder (w_channel w) (lane_step LSettle (lane_step LDeliver (w_lane w))) (w_done w) (w_in w) (w_took w) in
  forwarder_ok M w' /\ hand (w_lane w') = None /\ charged (w_lane w') = charged (w_lane w)
  /\ Inbox.delivered (w_lane w') = Inbox.delivered (w_lane w) + len chunk.
Proof.
  intros [F1 F2 F3 Fu F4] Eh. pose proof (lane_step_ok M LSettle _ (lane_step_ok M LDeliver _ F1 I) I) as L.
  cbn [w_lane] in *. cbn [lane_step] in *. rewrite Eh in *. cbn [hand] in *. split; [|done]. by split.
Qed.

Lemma attempt_src_ok M x f l :
  lane_ok M (src f) -> (exists rx, slot (inbox (src f)) = Some rx /\ rx_open rx = true) -> size x <= M ->
  attempt_send x (src f) = Some l ->
  answer x (src f) = SendOk /\ lane_ok M l /\ (exists rx, slot (inbox l) = Some rx /\ rx_open rx = true)
  /\ same_receiver (src f) l /\ queue l = queue (src f) ++ [x] /\ accepted l = accepted (src f) + size x.
Proof.
  intros L (rx & Es & Eo) Hx Ha. pose proof (answer_spec x (src f) rx Es) as A. pose proof (attempt_send_ok M x _ _ L Hx Ha) as L'.
  destruct (answer x (src f)).
  - destruct A as (rx' & Hc & Ho & A). rewrite A in Ha. injection Ha as <-.
    split_and!; try done; [by exists rx'|]. unfold queue. cbn. by rewrite Es, Hc.
  - congruence.
  - destruct A as [A _]. congruence.
Qed.

Lemma src_accepts M x e l ws :
  src_ok M e -> size x <= M -> attempt_send x (src (x_feeds e)) = Some l ->
  total (fun w => Inbox.delivered (w_lane w)) ws = total (fun w => Inbox.delivered (w_lane w)) (rxs (x_feeds e)) + size x ->
  forall m, src_ok M (set_feeds (mkFeeds ws m l (merged (x_feeds e) ++ [x])) e).
Proof.
  intros [S1 S2 S3 S4 S5 S6 Sc S7 S8 S9] Hx Ha Ht m.
  destruct (attempt_src_ok M x _ l S1 S2 Hx Ha) as (_ & L1 & L2 & (R1 & R2 & R3 & R4 & R5 & R6) & L4 & L5).
  split; cbn; try done; [congruence|..].
  - by rewrite L4, S4, <- app_assoc.
  - by rewrite R1.
  - by rewrite R3.
  - by rewrite R4.
  - by rewrite R6.
  - by rewrite R1, R2.
  - by rewrite L5, S9, Ht.
Qed.
Lemma forwards_other mg x w : fi_channel x <> w_channel w -> forwards mg w -> forwards (mg ++ [x]) w.
Proof.
  intros Hne [F1 F2]. split; [done|]. rewrite F2, filter_app, filter_cons, filter_nil.
  rewrite decide_False by congruence. by rewrite app_nil_r.
Qed.

Lemma offer_ok M i e : feeds_ok M e -> x_phase e <> Unwired -> feeds_ok M (set_feeds (offer i (x_feeds e)) e).
Proof.
  intros O Hph. assert (feeds_ok M (set_feeds (x_feeds e) e)) as O' by (by destruct e).
  unfold offer. destruct (rxs (x_feeds e) !! i) as [w|] eqn:Ei; [|done]. unfold forwarder_offer.
  destruct (hand (w_lane w)) as [chunk|] eqn:Eh; [|done]. set (item := mkFeed (w_channel w) chunk).
  destruct O as [O1 O2 O3]. assert (wired (x_feeds e)) as [W1 W2 W3 W4] by (destruct (x_phase e); done). clear O2.
  pose proof (proj1 (Forall_lookup _ _) O1 i w Ei) as Fw. pose proof (proj1 (Forall_lookup _ _) W3 i w Ei) as [Fc Ft].
  assert (is_mux (w_channel w) = false) as Hreal.
  { apply bool_decide_eq_false. intros Em. apply W2. rewrite <- Em. apply list_elem_of_fmap. exists w. split; [done|]. by eapply list_elem_of_lookup_2. }
  assert (size item = len chunk) as Hsz by (unfold item; cbn; by rewrite Hreal).
  assert (size item <= M) as Hm.
  { rewrite Hsz. destruct Fw as [L _ _ _ _]. pose proof (lo_hand _ _ L chunk Eh) as E1. pose proof (lo_held _ _ L). cbn in E1. lia. }
  destruct (attempt_send item (src (x_feeds e))) as [l|] eqn:Ea; [|done].
  destruct (attempt_src_ok M item _ l (so_lane _ _ O3) (so_open _ _ O3) Hm Ea) as (-> & _).
  destruct (handed_on M w chunk Fw Eh) as (H1 & H2 & H3 & H4). set (w' := mkForwarder _ _ _ _ _) in *.
  split; cbn [set_feeds x_feeds x_phase rxs merged].
  - eapply Forall_at; [exact O1|exact H1|done].
  - assert (wired (mkFeeds (<[i:=w']> (rxs (x_feeds e))) (mux (x_feeds e)) l (merged (x_feeds e) ++ [item]))) as Wd;
      [|by destruct (x_phase e)].
    assert (w_channel <$> <[i:=w']> (rxs (x_feeds e)) = w_channel <$> rxs (x_feeds e)) as En.
    { rewrite list_fmap_insert. apply list_insert_id. by rewrite list_lookup_fmap, Ei. }
    split; cbn [rxs merged]; rewrite ?En; try done.
    2: { apply Forall_app. split; [done|]. constructor; [|done]. right. apply list_elem_of_fmap. exists w. split; [done|]. by eapply list_elem_of_lookup_2. }
    eapply Forall_at; [exact W3| |].
    + split; [by rewrite H3|]. rewrite H2. cbn [w' w_channel w_took option_list]. rewrite Ft, Eh. cbn.
      rewrite app_nil_r, filter_app. f_equal. rewrite filter_cons, filter_nil. by rewrite decide_True.
    + intros j v Hne Hj Fv. apply forwards_other; [|done]. cbn. intros E1. apply Hne.
      apply (NoDup_lookup _ j i (w_channel w) W1); rewrite list_lookup_fmap; [rewrite Hj; cbn; by rewrite E1|by rewrite Ei].
  - eapply (src_accepts M item e l); [done|done|done|]. rewrite (total_insert _ _ _ w) by done. rewrite H4. lia.
Qed.

Lemma mux_offer_ok M e : 0 <= M -> feeds_ok M e -> x_phase e <> Unwired -> feeds_ok M (set_feeds (mux_offer (x_feeds e)) e).
Proof.
  intros HM O Hph. assert (feeds_ok M (set_feeds (x_feeds e) e)) as O' by (by destruct e).
  unfold mux_offer. destruct (m_hand (mux (x_feeds e))) as [chunk|]; [|done]. set (item := mkFeed MUX_CHANNEL chunk).
  destruct O as [O1 O2 O3]. assert (wired (x_feeds e)) as [W1 W2 W3 W4] by (destruct (x_phase e); done). clear O2.
  destruct (attempt_send item (src (x_feeds e))) as [l|] eqn:Ea; [|done].
  destruct (attempt_src_ok M item _ l (so_lane _ _ O3) (so_open _ _ O3) HM Ea) as (-> & _).
  split; cbn [set_feeds x_feeds x_phase rxs merged].
  - exact O1.
  - assert (wired (mkFeeds (rxs (x_feeds e)) (mkMuxForwarder (m_edges (mux (x_feeds e))) (m_inbox_open (mux (x_feeds e))) None) l
                     (merged (x_feeds e) ++ [item]))) as Wd; [|by destruct (x_phase e)].
    split; cbn [rxs merged]; try done.
    2: { apply Forall_app. split; [done|]. constructor; [by left|done]. }
    rewrite Forall_lookup in *. intros j v Hj. apply forwards_other; [|by apply (W3 j)]. cbn. intros E1.
    apply W2. rewrite E1. apply list_elem_of_fmap. exists v. split; [done|]. by eapply list_elem_of_lookup_2.
  - eapply (src_accepts M item e l); [done|done|done|].
    assert (size item = 0) as -> by done. lia.
Qed.
(** What the feed knows of the running child. *)
Definition view (p : Phase) : option (list FeedItem * option FeedItem) :=
  match p with Pumping c _ _ => Some (c_done c, c_hand c) | _ => None end.

(** The same items in the same hands. *)
Definition same_items (e e' : Exec) : Prop :=
  fed e' = fed e /\ concat (c_done <$> children e') = concat (c_done <$> children e)
  /\ begun (x_phase e') = begun (x_phase e) /\ cut_items e' = cut_items e.

Lemma view_items e e' : x_past e' = x_past e -> view (x_phase e') = view (x_phase e) -> same_items e e'.
Proof.
  intros E1 E2. unfold same_items, fed, children, cut_items, begun, c_fed. rewrite !E1, !fmap_app, !concat_app.
  destruct (x_phase e), (x_phase e'); cbn in *; try done. injection E2 as -> ->. done.
Qed.

(** Where the tasks or writers of one queue move, the merge queue does not. *)
Lemma src_frame M e e' :
  src_ok M e -> src (x_feeds e') = src (x_feeds e) -> merged (x_feeds e') = merged (x_feeds e) ->
  same_items e e' ->
  total (fun w => Inbox.delivered (w_lane w)) (rxs (x_feeds e')) = total (fun w => Inbox.delivered (w_lane w)) (rxs (x_feeds e)) ->
  src_ok M e'.
Proof.
  intros [S1 S2 S3 S4 S5 S6 Sc S7 S8 S9] E1 E2 (F1 & F2 & F3 & F4) E5.
  split; rewrite ?E1, ?E2, ?E5, ?F1, ?F2, ?F3, ?F4; done.
Qed.

(** A step that only touches forwarder [i], keeping its channel and what it delivered. *)
Lemma on_forwarder_ok M i (g : Forwarder -> Forwarder) e :
  feeds_ok M e ->
  (forall w, forwarder_ok M w -> forwarder_ok M (g w) /\ w_channel (g w) = w_channel w
     /\ Inbox.delivered (w_lane (g w)) = Inbox.delivered (w_lane w)) ->
  (forall w mg, forwarder_ok M w -> x_phase e <> Unwired -> forwards mg w -> forwards mg (g w)) ->
  (forall w, forwarder_ok M w -> x_phase e = Unwired -> drains w -> drains (g w)) ->
  feeds_ok M (on_forwarder i g e).
Proof.
  intros [O1 O2 O3] Hg Hf Hd. unfold on_forwarder.
  assert (w_channel <$> alter g i (rxs (x_feeds e)) = w_channel <$> rxs (x_feeds e)) as En.
  { apply list_eq. intros j. rewrite !list_lookup_fmap. destruct (decide (i = j)) as [->|Hne].
    - rewrite list_lookup_alter_eq. destruct (rxs (x_feeds e) !! j) as [w|] eqn:Ej; [|done]. cbn. f_equal. apply Hg.
      exact (proj1 (Forall_lookup _ _) O1 j w Ej).
    - by rewrite list_lookup_alter_ne. }
  assert (forall P Q : Forwarder -> Prop, Forall P (rxs (x_feeds e)) -> (forall w, P w -> Q w) ->
    (forall w, forwarder_ok M w -> P w -> Q (g w)) -> Forall Q (alter g i (rxs (x_feeds e)))) as A.
  { intros P Q HP HPQ HQ. rewrite Forall_lookup in *. intros j w Hj. destruct (decide (i = j)) as [->|Hne].
    - rewrite list_lookup_alter_eq in Hj. apply fmap_Some in Hj as (v & Hv & ->). eauto.
    - rewrite list_lookup_alter_ne in Hj by done. eauto. }
  split; cbn [set_feeds x_feeds x_phase rxs merged].
  - eapply A; [exact O1|done|]. intros w Hw _. by apply Hg.
  - assert (x_phase e <> Unwired -> wired (x_feeds e) ->
      wired (mkFeeds (alter g i (rxs (x_feeds e))) (mux (x_feeds e)) (src (x_feeds e)) (merged (x_feeds e)))) as Wd.
    { intros Hne [W1 W2 W3 W4]. split; cbn [rxs merged]; rewrite ?En; try done. eapply A; [exact W3|done|]. intros w Hw Fw. by apply Hf. }
    destruct (x_phase e); try (by apply Wd). eapply A; [exact O2|done|]. intros w Hw Dw. by apply Hd.
  - eapply src_frame; [exact O3|done..|]. cbn [set_feeds x_feeds rxs]. eapply total_alter; [exact O1|]. intros w Hw. by apply Hg.
Qed.
(** *** The feed of the child *)

Lemma feeds_frame M e e' :
  feeds_ok M e -> rxs (x_feeds e') = rxs (x_feeds e) -> src (x_feeds e') = src (x_feeds e) ->
  merged (x_feeds e') = merged (x_feeds e) -> same_items e e' ->
  (x_phase e' = Unwired <-> x_phase e = Unwired) -> feeds_ok M e'.
Proof.
  intros [O1 O2 O3] E1 E2 E3 E5 E6. split; [by rewrite E1| |].
  - assert (x_phase e = Unwired \/ x_phase e <> Unwired) as [Eu|Eu] by (destruct (x_phase e); auto).
    + rewrite (proj2 E6 Eu), E1. by rewrite Eu in O2.
    + assert (wired (x_feeds e)) as [W1 W2 W3 W4] by (by destruct (x_phase e)).
      assert (wired (x_feeds e')) as W by (split; by rewrite ?E1, ?E3). destruct (x_phase e'); try done. exfalso. by apply Eu, E6.
  - eapply src_frame; [exact O3|done..|]. by rewrite E1.
Qed.

(** The pump's steps on the merge queue. *)
Lemma src_step M e e' l :
  feeds_ok M e -> x_phase e <> Unwired -> x_phase e' <> Unwired ->
  x_feeds e' = set_src l (x_feeds e) -> lane_ok M l -> (exists rx, slot (inbox l) = Some rx /\ rx_open rx = true) ->
  purged l = 0 -> accepted l = accepted (src (x_feeds e)) ->
  fed e ++ queue (src (x_feeds e)) = fed e' ++ queue l ->
  option_list (hand l) = begun (x_phase e') ->
  Inbox.delivered l = total size (concat (c_done <$> children e')) -> charged l = 0 -> uncharged l = total size (cut_items e') ->
  (hand l = None -> held (inbox l) = 0 \/ exists x, x ∈ cut_items e' /\ held (inbox l) = size x) ->
  feeds_ok M e'.
Proof.
  intros [O1 O2 O3] Hu Hu' Ef L1 L2 L3 L4 L5 L6 L7 Lc L8 L9. pose proof (so_merged _ _ O3) as Em. pose proof (so_accepted _ _ O3) as Ea.
  assert (wired (x_feeds e)) as [W1 W2 W3 W4] by (by destruct (x_phase e)).
  split; rewrite ?Ef; cbn [rxs set_src merged]; [done| |].
  - assert (wired (x_feeds e')) as W by (rewrite Ef; by split). rewrite Ef in W. by destruct (x_phase e').
  - split; rewrite ?Ef; cbn [rxs set_src merged src]; try done; [by rewrite Em|by rewrite L4].
Qed.

Lemma option_list_None {A} (o : option A) : option_list o = [] -> o = None.
Proof. by destruct o. Qed.

(** An item is done: its bytes count as delivered. *)
Lemma item_done M e c c0 f0 x items r :
  feeds_ok M e -> x_phase e = Pumping c0 f0 r -> c_done c = c_done c0 -> c_hand c0 = Some x -> c_hand c = Some x ->
  feeds_ok M (feed_on c items r e).
Proof.
  intros O E Ed Eh0 Eh. unfold feed_on. destruct (next_frame items) as [[[frame rest]|] n].
  - eapply feeds_frame; [exact O|done..| |cbn; by rewrite E].
    apply view_items; [done|]. cbn. rewrite E. cbn. by rewrite Ed, Eh, Eh0.
  - destruct (fe_src _ _ O) as [S1 S2 S3 S4 S5 S6 Sc S7 S8 S9]. rewrite E in S5. cbn in S5. rewrite Eh0 in S5.
    assert (hand (src (x_feeds e)) = Some x) as Es by (destruct (hand (src (x_feeds e))); cbn in S5; congruence).
    pose proof (lane_step_ok M LSettle _ (lane_step_ok M LDeliver _ S1 I) I) as L. cbn [lane_step] in *. rewrite Es in *. cbn [hand] in *.
    unfold fed, children, cut_items, c_fed in *. rewrite E in *. cbn [current] in *.
    eapply (src_step M e); try done; cbn; rewrite ?E; try done.
    + unfold fed, children, c_fed. rewrite E. cbn. rewrite !fmap_app, !concat_app. cbn. by rewrite Eh, Eh0, Ed, !app_nil_r.
    + unfold children. cbn. rewrite S6, !fmap_app, !concat_app. cbn. rewrite Eh, Ed, !app_nil_r, !total_app. cbn. rewrite total_cons, total_nil. lia.
    + by left.
Qed.
(** The pump is over: an item begun is let go, and its inbox still carries it. *)
Lemma end_pump_feeds M end_ c f r r' e :
  feeds_ok M e -> x_phase e = Pumping c f r -> feeds_ok M (end_pump end_ c r' e).
Proof.
  intros O E. destruct (fe_src _ _ O) as [S1 S2 S3 S4 S5 S6 Sc S7 S8 S9]. rewrite E in S5. cbn in S5.
  assert (hand (src (x_feeds e)) = c_hand c) as Eh by (destruct (hand (src (x_feeds e))), (c_hand c); cbn in S5; congruence).
  pose proof (lane_step_ok M LDrop _ S1 I) as L. unfold cut_items in *.
  assert (concat ((fun c => option_list (c_hand c)) <$> x_past e ++ [c]) =
    concat ((fun c => option_list (c_hand c)) <$> x_past e) ++ option_list (c_hand c)) as Ec
    by (rewrite fmap_app, concat_app; cbn; by rewrite app_nil_r).
  eapply (src_step M e _ (lane_step LDrop (src (x_feeds e)))); try done; try (by rewrite E).
  - cbn. destruct (hand (src (x_feeds e))); [|done]. exact S2.
  - cbn. by destruct (hand (src (x_feeds e))).
  - cbn. by destruct (hand (src (x_feeds e))).
  - unfold fed, children. rewrite E. cbn. rewrite app_nil_r. f_equal. by destruct (hand (src (x_feeds e))).
  - cbn. destruct (hand (src (x_feeds e))) eqn:Eq; cbn; by rewrite ?Eq.
  - unfold children in *. rewrite E in S6. cbn. rewrite app_nil_r. by destruct (hand (src (x_feeds e))).
  - cbn. by destruct (hand (src (x_feeds e))).
  - unfold cut_items. cbn [end_pump x_past]. rewrite Ec, total_app, <- S7, <- Eh. cbn.
    destruct (hand (src (x_feeds e))) eqn:Eq; cbn; rewrite ?total_cons, total_nil; lia.
  - intros _. unfold cut_items. cbn [end_pump x_past]. rewrite Ec. cbn. rewrite <- Eh.
    destruct (hand (src (x_feeds e))) as [x|] eqn:Eq; cbn.
    + right. exists x. split; [apply elem_of_app; right; by apply list_elem_of_singleton|by apply (lo_hand _ _ S1)].
    + destruct (S8 eq_refl) as [->|(x & Hx & ->)]; [by left|]. right. exists x. split; [|done]. apply elem_of_app. by left.
Qed.

Lemma feed_recv_feeds M e : feeds_ok M e -> pipe_ok e -> feeds_ok M (feed_recv e).
Proof.
  intros O P. unfold feed_recv. destruct (x_phase e) as [| |c [|todo rest|rest] r| | | |] eqn:E; try done.
  pose proof (po_current _ P) as P2. rewrite E in P2. destruct P2 as [[Ec _] _]. clear P.
  destruct (fe_src _ _ O) as [S1 S2 S3 S4 S5 S6 Sc S7 S8 S9]. rewrite E in S5. cbn in S5. rewrite Ec in S5.
  assert (hand (src (x_feeds e)) = None) as Eh by (by apply option_list_None).
  set (senders := src_senders (x_feeds e)). pose proof (lane_step_ok M (LRecv senders) _ S1 I) as L.
  destruct S2 as (rx & Es & Eo). destruct (lane_recv_spec senders _ rx Es Eh) as (rx' & Eo' & El & Hc).
  set (l := lane_step (LRecv senders) (src (x_feeds e))) in *. clearbody l. subst l.
  unfold queue in S4. rewrite Es in S4. set (e1 := set_feeds _ e).
  assert (feeds_ok M (set_phase (Pumping (mkChild (c_done c) (head (contents rx)) (c_stdin c) (c_reads c) (c_events c)) FRecv r) e1)) as O1.
  { eapply (src_step M e); try done; try (by rewrite E); cbn.
    - exists rx'. by rewrite Eo'.
    - unfold fed, children, c_fed, queue. rewrite E. cbn. rewrite Es, Hc, !fmap_app, !concat_app. cbn.
      rewrite Ec. cbn. rewrite !app_nil_r, <- !app_assoc. do 2 f_equal. by destruct (contents rx).
    - unfold children in *. rewrite E in S6. cbn in *. rewrite S6. by rewrite !fmap_app.
    - by left; destruct (contents rx). }
  destruct (contents rx) as [|x q] eqn:Eq; cbn [head hand].
  - destruct senders.
    + eapply feeds_frame; [exact O1|done..| |cbn; by rewrite E]. apply view_items; [done|]. cbn. rewrite E. cbn. by rewrite Ec.
    + eapply (end_pump_feeds M SourceClosed _ FRecv r). 2: { cbn. rewrite E. done. }
      eapply feeds_frame; [exact O1|done..| |cbn; by rewrite E]. apply view_items; [done|]. cbn. rewrite E. cbn. by rewrite Ec.
  - eapply (item_done M _ (begin_item x c) (begin_item x c) FRecv x (item_frames x) r) in O1; done.
Qed.
Lemma drain_chunk_feeds M senders i e : feeds_ok M e -> x_phase e = Unwired -> feeds_ok M (drain_chunk senders i e).
Proof.
  intros [O1 O2 O3] E. rewrite E in O2. unfold drain_chunk. destruct (rxs (x_feeds e) !! i) as [w|] eqn:Ei; [|by split; rewrite ?E].
  pose proof (proj1 (Forall_lookup _ _) O1 i w Ei) as Fw. pose proof (proj1 (Forall_lookup _ _) O2 i w Ei) as [Dh Dd].
  destruct (forwarder_recv_ok M senders w Fw) as (F' & Ech & Edel & _ & _). set (w1 := forwarder_recv senders w) in *.
  destruct F' as [L1 L2 L3 Lu L4]. pose proof (lane_step_ok M LSettle _ (lane_step_ok M LCharge _ L1 I) I) as L.
  set (w2 := mkForwarder _ _ _ _ _).
  assert (forwarder_ok M w2 /\ drains w2 /\ Inbox.delivered (w_lane w2) = Inbox.delivered (w_lane w)) as (F2 & D2 & Ed2).
  { unfold w2, drains. cbn [lane_step] in *. destruct (hand (w_lane w1)) as [x|] eqn:Eh; cbn [hand] in *; rewrite ?Eh in *.
    - split; [by split|]. cbn. rewrite Edel. done.
    - split; [split; cbn; try done|]. cbn. by rewrite Eh, Edel. }
  split; cbn [set_routing set_feeds x_feeds x_phase rxs]; rewrite ?E.
  - eapply Forall_at; [exact O1|exact F2|done].
  - eapply Forall_at; [exact O2|exact D2|done].
  - eapply src_frame; [exact O3|done..|]. cbn [set_routing set_feeds x_feeds rxs]. rewrite (total_insert _ _ _ w) by done. rewrite Ed2. lia.
Qed.

Definition exec_small (M : Z) (op : ExecOp) : Prop := match op with OWrite _ chunk => len chunk <= M | _ => True end.

Lemma feeds_idle M e e' :
  feeds_ok M e -> x_feeds e' = x_feeds e -> x_past e' = x_past e -> view (x_phase e') = view (x_phase e) ->
  (x_phase e' = Unwired <-> x_phase e = Unwired) -> feeds_ok M e'.
Proof. intros O E1 E2 E3 E4. eapply feeds_frame; [exact O|by rewrite ?E1..|by apply view_items|done]. Qed.

Lemma feeds_step M op e :
  0 <= M -> exec_small M op -> op <> OStop -> feeds_ok M e -> pipe_ok e -> feeds_ok M (exec_step op e).
Proof.
  intros HM Hs Hop O P. destruct op; cbn [exec_step].
  all: try (eapply feeds_frame; [exact O|done..|by apply view_items|done]).
  - apply on_forwarder_ok; [done|..].
    + intros w Fw. destruct (writer_sends_ok M chunk w Fw Hs) as (W & E1 & _ & _ & _ & E2 & _). by split_and!.
    + intros w mg Fw _. apply forwards_moved. by apply (writer_sends_ok M).
    + intros w Fw _. apply drains_moved. by apply (writer_sends_ok M).
  - apply on_forwarder_ok; [done|..].
    + intros w Fw. destruct (writer_resumes_ok M w Fw) as (W & E1 & _ & _ & _ & E2 & _). by split_and!.
    + intros w mg Fw _. apply forwards_moved. by apply (writer_resumes_ok M).
    + intros w Fw _. apply drains_moved. by apply (writer_resumes_ok M).
  - assert (x_phase e <> Unwired -> feeds_ok M (on_forwarder i (forwarder_recv senders) e)) as R.
    { intros Hne. apply on_forwarder_ok; [done|..|done].
      - intros w Fw. destruct (forwarder_recv_ok M senders w Fw) as (W & E1 & E2 & _). by split_and!.
      - intros w mg Fw _. by apply (forwards_recv mg senders M). }
    destruct (x_phase e) eqn:E; try (by apply R); [by apply drain_chunk_feeds|done].
  - pose proof (offer_ok M i e O) as R. destruct (x_phase e) eqn:E; try (by apply R); done.
  - destruct (x_phase e) eqn:E; try done; (eapply feeds_frame; [exact O|done..|by apply view_items|cbn; by rewrite E]).
  - pose proof (mux_offer_ok M e HM O) as R. destruct (x_phase e) eqn:E; try (by apply R); done.
  - unfold spawn. destruct (x_phase e) eqn:E; try done. destruct error as [err|].
    + destruct (retry _ _ _ _). eapply feeds_idle; [exact O|done..|cbn; by rewrite E|cbn; by rewrite E].
    + eapply feeds_frame; [exact O|done..| |cbn; by rewrite E]. unfold same_items, fed, children, cut_items. rewrite E. cbn.
      rewrite !fmap_app, !concat_app. cbn. by rewrite ?app_nil_r.
  - unfold killed. destruct (x_phase e) as [| | |[]| | |] eqn:E; try done; [destruct (retry _ _ _ _)|];
      (eapply feeds_idle; [exact O|done..|cbn; by rewrite E|cbn; by rewrite E]).
  - unfold slept. destruct (x_phase e) eqn:E; try done. eapply feeds_idle; [exact O|done..|cbn; by rewrite E|cbn; by rewrite E].
  - by apply feed_recv_feeds.
  - unfold feed_write. destruct (x_phase e) as [| |c [|todo rest|rest] r| | | |] eqn:E; try done.
    destruct (_ && _); [|done]. eapply feeds_idle; [exact O|done..|cbn; by rewrite E|cbn; by rewrite E].
  - unfold feed_flushed. destruct (x_phase e) as [| |c [|todo rest|rest] r| | | |] eqn:E; try done.
    pose proof (po_current _ P) as P2. rewrite E in P2. destruct P2 as [(x & Eh & _) _].
    eapply item_done; [exact O|exact E|done..].
  - unfold feed_broke. destruct (x_phase e) as [| |c [|todo rest|rest] r| | | |] eqn:E; try done; by eapply end_pump_feeds.
  - unfold read_some. destruct (x_phase e) as [| |c f [d|d|d o b|d o b]| | | |] eqn:E; try done.
    destruct (_ && _); [|done]. eapply feeds_idle; [exact O|done..|cbn; by rewrite E|cbn; by rewrite E].
  - unfold read_ended. destruct (x_phase e) as [| |c f [d|d|d o b|d o b]| | | |] eqn:E; try done; by eapply end_pump_feeds.
  - unfold decode_next. destruct (x_phase e) as [| |c f [d|d|d o b|d o b]| | | |] eqn:E; try done.
    destruct (next_event d) as [[[ev|]|err|] d']; [destruct (route_event _ _ _ _ _)| | |];
      try (by eapply end_pump_feeds); (eapply feeds_idle; [exact O|done..|cbn; by rewrite E|cbn; by rewrite E]).
  - unfold gate. destruct (x_phase e) as [| |c f [d|d|d o b|d o b]| | | |] eqn:E; try done.
    destruct granted; (eapply feeds_idle; [exact O|done..|cbn; by rewrite E|cbn; by rewrite E]).
  - unfold send_resolved. destruct (x_phase e) as [| |c f [d|d|d o b|d o b]| | | |] eqn:E; try done.
    destruct ok; (eapply feeds_idle; [exact O|done..|cbn; by rewrite E|cbn; by rewrite E]).
Qed.
(** ** Routing *)

Definition events (e : Exec) : list Event := concat (c_events <$> children e).

(** Data on a real channel, and the bytes of data on the reserved one. *)
Definition channel_data (ev : Event) : list (string * Z) :=
  match kind ev with
  | Envelope.Data bytes => if is_mux (Envelope.channel ev) then [] else [(Envelope.channel ev, len bytes)]
  | _ => []
  end.
Definition mux_data (ev : Event) : Z :=
  match kind ev with Envelope.Data bytes => if is_mux (Envelope.channel ev) then len bytes else 0 | _ => 0 end.

Record counters_ok (channels : list string) (r : Routing) : Prop := {
  co_dom : forall ch, stats r !! ch <> None <-> ch ∈ channels;
  co_counts : forall ch s, stats r !! ch = Some s ->
    delivered_hostward s = logged ch Reached (r_log r) /\ discarded_unattached s = logged ch Unattached (r_log r);
  co_unconfigured : u_bytes (unconfigured r) = total (fun e => if bool_decide (e.2 = Unconfigured) then e.1.2 else 0) (r_log r);
  co_log : Forall (fun e => e.2 = Unconfigured <-> e.1.1 ∉ channels) (r_log r) }.

(** The counters of a channel move as its verdict says. *)
Lemma routed_counts ch bytes sent r s :
  stats r !! ch = Some s ->
  exists feed sinks s', route_channel_data bytes (channel_feeds r !! ch) sent (channel_sinks r !! ch) (Some s) = (feed, sinks, Some s')
    /\ delivered_hostward s' = delivered_hostward s + (if bool_decide (verdict ch bytes r = Reached) then len bytes else 0)
    /\ discarded_unattached s' = discarded_unattached s + (if bool_decide (verdict ch bytes r = Unattached) then len bytes else 0)
    /\ verdict ch bytes r <> Unconfigured.
Proof.
  intros Es. unfold verdict. rewrite Es. destruct (route_channel_data_spec bytes (channel_feeds r !! ch) sent (channel_sinks r !! ch) s)
    as (feed & sinks' & dropped & ->). eexists _, _, _. split; [done|]. destruct (channel_sinks r !! ch) as [sinks|].
  - pose proof (some_live bytes sinks) as Hs.
    destruct (some_sink Took bytes sinks), (existsb _ sinks); cbn in Hs |- *; try done; split_and!; try done; case_bool_decide; done || lia.
  - cbn. split_and!; try done; case_bool_decide; done || lia.
Qed.

(** Replacing the record of a channel by one with the counts its log has. *)
Lemma counters_put channels r r' ch s' :
  counters_ok channels r -> ch ∈ channels ->
  stats r' !! ch = Some s' -> (forall c, c <> ch -> stats r' !! c = stats r !! c) ->
  (forall c v, c <> ch -> logged c v (r_log r') = logged c v (r_log r)) ->
  delivered_hostward s' = logged ch Reached (r_log r') -> discarded_unattached s' = logged ch Unattached (r_log r') ->
  u_bytes (unconfigured r') = total (fun e => if bool_decide (e.2 = Unconfigured) then e.1.2 else 0) (r_log r') ->
  Forall (fun e => e.2 = Unconfigured <-> e.1.1 ∉ channels) (r_log r') -> counters_ok channels r'.
Proof.
  intros [D1 D2 D3 D4] Hch Es Ho Hl H1 H2 H3 H4. split; [| |done|done].
  - intros c. destruct (decide (c = ch)) as [->|Hne]; [by rewrite Es|by rewrite Ho].
  - intros c s. destruct (decide (c = ch)) as [->|Hne]; [rewrite Es; by intros [= <-]|].
    rewrite Ho, !Hl by done. apply D2.
Qed.

Lemma logged_other c v log e : c <> e.1.1 -> logged c v (log ++ [e]) = logged c v log.
Proof. intros Hne. rewrite logged_app, bool_decide_false by naive_solver. lia. Qed.

Lemma route_channel_ok channels ev sent r :
  counters_ok channels r -> is_mux (Envelope.channel ev) = false ->
  counters_ok channels (route_channel ev sent r)
  /\ (r_log (route_channel ev sent r)).*1 = (r_log r).*1 ++ channel_data ev.
Proof.
  intros O Hmux. pose proof O as [D1 D2 D3 D4]. unfold route_channel, channel_data. rewrite Hmux. set (ch := Envelope.channel ev).
  destruct (kind ev) as [bytes| | |msg]; rewrite ?app_nil_r.
  - destruct (stats r !! ch) as [s|] eqn:Es.
    + destruct (routed_counts ch bytes sent r s Es) as (feed & sinks & s' & -> & R1 & R2 & R3).
      assert (Hch : ch ∈ channels) by (apply D1; by rewrite Es). destruct (D2 ch s Es) as [E1 E2].
      split; [|cbn; by rewrite fmap_app].
      eapply (counters_put channels r _ ch s' O Hch); cbn [stats r_log unconfigured].
      * by rewrite lookup_partial_alter_eq.
      * intros c Hne. by rewrite lookup_partial_alter_ne.
      * intros c v Hne. by apply logged_other.
      * rewrite logged_app, R1, E1. cbn. repeat case_bool_decide; naive_solver.
      * rewrite logged_app, R2, E2. cbn. repeat case_bool_decide; naive_solver.
      * rewrite D3. autorewrite with snx_len. cbn. rewrite bool_decide_false by done. lia.
      * apply Forall_app. split; [done|]. repeat constructor; cbn; naive_solver.
    + assert (Hch : ~ ch ∈ channels) by (intros Hin%D1; by rewrite Es in Hin).
      assert (Hv : verdict ch bytes r = Unconfigured) by (unfold verdict; by rewrite Es).
      split; [|cbn; by rewrite fmap_app]. rewrite Hv. split; cbn [stats r_log unconfigured record u_bytes].
      * done.
      * intros c st Est. rewrite !logged_app. cbn. rewrite !bool_decide_false by naive_solver. rewrite !Z.add_0_r. by apply D2.
      * rewrite D3. autorewrite with snx_len. cbn. rewrite bool_decide_true by done. lia.
      * apply Forall_app. split; [done|]. repeat constructor; cbn; naive_solver.
  - destruct (stats r !! ch) as [s|] eqn:Es; (split; [|done]).
    + assert (Hch : ch ∈ channels) by (apply D1; by rewrite Es). destruct (D2 ch s Es) as [E1 E2].
      eapply (counters_put channels r _ ch (set_channel_active true s) O Hch); cbn [set_stats stats r_log unconfigured]; try done.
      * by rewrite lookup_insert_eq.
      * intros c Hne. by rewrite lookup_insert_ne.
    + split; cbn [set_stats stats r_log unconfigured record u_bytes]; try done. by rewrite D3, Z.add_0_r.
  - split; [|done]. destruct (stats r !! ch) as [s|] eqn:Es.
    + assert (Hch : ch ∈ channels) by (apply D1; by rewrite Es). destruct (D2 ch s Es) as [E1 E2].
      eapply (counters_put channels r _ ch (set_channel_active false s) O Hch); cbn [set_stats stats r_log unconfigured]; try done.
      * by rewrite lookup_alter_eq, Es.
      * intros c Hne. by rewrite lookup_alter_ne.
    + split; cbn [set_stats stats r_log unconfigured]; try done.
      * intros c. rewrite <- D1. destruct (decide (c = ch)) as [->|]; [|by rewrite lookup_alter_ne]. by rewrite lookup_alter_eq, Es.
      * intros c st. destruct (decide (c = ch)) as [->|]; [|rewrite lookup_alter_ne by done; apply D2]. by rewrite lookup_alter_eq, Es.
  - by split.
Qed.
Definition flight (p : Phase) : Z := match p with Pumping _ _ r => in_flight r | _ => 0 end.
Definition drained (f : Feeds) : Z := total (fun w => charged (w_lane w)) (rxs f).

(** Device-bound bytes: handed upstream, counted, cut with a pump, or still with it.  The counter also has the
    drains of an unwired node. *)
Record routing_ok (channels : list string) (e : Exec) : Prop := {
  ro_counts : counters_ok channels (x_routing e);
  ro_log : (r_log (x_routing e)).*1 = concat (channel_data <$> events e);
  ro_mux : total mux_data (events e) + drained (x_feeds e)
           = total (fun b => len b.2) (r_sent (x_routing e)) + mux_discarded_targetward (x_routing e)
             + r_cut (x_routing e) + flight (x_phase e) }.

Lemma routing_frame channels e e' :
  routing_ok channels e -> x_routing e' = x_routing e -> events e' = events e -> flight (x_phase e') = flight (x_phase e) ->
  drained (x_feeds e') = drained (x_feeds e) -> routing_ok channels e'.
Proof. intros [R1 R2 R3] E1 E2 E3 E4. split; rewrite ?E1, ?E2, ?E3, ?E4; done. Qed.

(** [lose], [note_sent] and [add_cut] leave the channels alone. *)
Lemma counters_same channels r r' :
  counters_ok channels r -> stats r' = stats r -> unconfigured r' = unconfigured r -> r_log r' = r_log r -> counters_ok channels r'.
Proof. intros [D1 D2 D3 D4] E1 E2 E3. split; rewrite ?E1, ?E2, ?E3; done. Qed.

Lemma events_pumping e e' c c' f f' r r' :
  x_phase e = Pumping c f r -> x_phase e' = Pumping c' f' r' -> x_past e' = x_past e -> c_events c' = c_events c -> events e' = events e.
Proof. intros E1 E2 E3 E4. unfold events, children. rewrite E1, E2, E3, !fmap_app, !concat_app. cbn. by rewrite E4. Qed.

Lemma events_idle e e' :
  concat (c_events <$> current (x_phase e')) = concat (c_events <$> current (x_phase e)) -> x_past e' = x_past e -> events e' = events e.
Proof. intros E1 E2. unfold events, children. by rewrite !fmap_app, !concat_app, E1, E2. Qed.

Lemma end_pump_drained end_ c r e : drained (x_feeds (end_pump end_ c r e)) = drained (x_feeds e).
Proof. done. Qed.

Lemma routing_end_pump channels end_ c f r r' e :
  routing_ok channels e -> x_phase e = Pumping c f r -> in_flight r' = in_flight r -> routing_ok channels (end_pump end_ c r' e).
Proof.
  intros [R1 R2 R3] E Er. assert (events (end_pump end_ c r' e) = events e) as Ee.
  { unfold events, children. rewrite E. cbn. by rewrite app_nil_r. }
  split; rewrite ?Ee; cbn; [by eapply counters_same|done|]. rewrite E in R3. cbn in R3. rewrite Er.
  change (drained (set_src _ (x_feeds e))) with (drained (x_feeds e)). lia.
Qed.

(** The feed half moves: no event, nothing in flight changes. *)
Lemma routing_pumping channels e e' c c' f f' r r' :
  routing_ok channels e -> x_phase e = Pumping c f r -> x_phase e' = Pumping c' f' r' -> x_past e' = x_past e ->
  c_events c' = c_events c -> in_flight r' = in_flight r -> x_routing e' = x_routing e -> drained (x_feeds e') = drained (x_feeds e) -> routing_ok channels e'.
Proof.
  intros O E1 E2 E3 E4 Er E5 E6. eapply routing_frame; [exact O|done| |by rewrite E1, E2|done]. by eapply events_pumping.
Qed.

Lemma feed_on_phase c items r e :
  exists c' f', x_phase (feed_on c items r e) = Pumping c' f' r /\ c_events c' = c_events c
  /\ x_past (feed_on c items r e) = x_past e /\ x_routing (feed_on c items r e) = x_routing e
  /\ drained (x_feeds (feed_on c items r e)) = drained (x_feeds e).
Proof. unfold feed_on. destruct (next_frame items) as [[[frame rest]|] n]; by eexists _, _. Qed.

Lemma routing_decode channels sent e : routing_ok channels e -> routing_ok channels (decode_next sent e).
Proof.
  intros O. unfold decode_next. destruct (x_phase e) as [| |c f [d|d|d o b|d o b]| | | |] eqn:E; try done.
  destruct (next_event d) as [[[ev|]|err|] d'].
  2: { by eapply routing_pumping. } 2, 3: by eapply routing_end_pump.
  destruct O as [R1 R2 R3]. rewrite E in R3. cbn in R3.
  set (c1 := mkChild (c_done c) (c_hand c) (c_stdin c) (c_reads c) (c_events c ++ [ev])).
  assert (forall rp r, events (set_routing r (set_phase (Pumping c1 f rp) e)) = events e ++ [ev]) as Ee.
  { intros rp r. unfold events, children. rewrite E. cbn. rewrite !fmap_app, !concat_app. cbn. by rewrite !app_nil_r, app_assoc. }
  unfold route_event. destruct (is_mux (Envelope.channel ev)) eqn:Em.
  - assert (channel_data ev = []) as Ec by (unfold channel_data; rewrite Em; by destruct (kind ev)).
    destruct (kind ev) as [bytes| | |msg] eqn:Ek; [destruct (origin (x_ctl e)) as [o|]|..];
      (split; rewrite ?Ee, ?fmap_app, ?concat_app; cbn [set_routing set_phase x_routing x_phase x_feeds fmap list_fmap concat]; rewrite ?Ec;
       [exact R1 || by eapply counters_same|by rewrite ?app_nil_r|]; rewrite total_app, total_cons, total_nil; unfold mux_data at 2; rewrite Ek, ?Em; cbn; lia).
  - destruct (route_channel_ok channels ev sent (x_routing e) R1 Em) as [C1 C2].
    split; rewrite ?Ee; cbn [set_routing set_phase x_routing x_phase x_feeds].
    + exact C1.
    + rewrite C2, R2, fmap_app, concat_app. cbn. by rewrite app_nil_r.
    + rewrite total_app, total_cons, total_nil. assert (mux_data ev = 0) as -> by (unfold mux_data; rewrite Em; by destruct (kind ev)).
      assert (r_sent (route_channel ev sent (x_routing e)) = r_sent (x_routing e)
        /\ mux_discarded_targetward (route_channel ev sent (x_routing e)) = mux_discarded_targetward (x_routing e)
        /\ r_cut (route_channel ev sent (x_routing e)) = r_cut (x_routing e)) as (-> & -> & ->).
      { unfold route_channel. destruct (kind ev); try done; destruct (stats (x_routing e) !! _); try done.
        by destruct (route_channel_data _ _ _ _ _) as [[? ?] ?]. }
      cbn. lia.
Qed.
(** Writers, receives and offers drain nothing. *)
Lemma on_forwarder_drained M i g e :
  Forall (forwarder_ok M) (rxs (x_feeds e)) -> (forall w, forwarder_ok M w -> charged (w_lane (g w)) = charged (w_lane w)) ->
  drained (x_feeds (on_forwarder i g e)) = drained (x_feeds e).
Proof. intros F Hg. unfold drained. cbn. by eapply total_alter. Qed.

Lemma offer_drained M i e :
  feeds_ok M e -> x_phase e <> Unwired -> drained (offer i (x_feeds e)) = drained (x_feeds e).
Proof.
  intros O Hph. unfold offer. destruct (rxs (x_feeds e) !! i) as [w|] eqn:Ei; [|done]. unfold forwarder_offer.
  destruct (hand (w_lane w)) as [chunk|] eqn:Eh; [|done]. set (item := mkFeed (w_channel w) chunk).
  destruct O as [O1 O2 O3]. assert (wired (x_feeds e)) as [W1 W2 W3 W4] by (destruct (x_phase e); done).
  pose proof (proj1 (Forall_lookup _ _) O1 i w Ei) as Fw.
  assert (size item <= M) as Hm.
  { destruct Fw as [L _ _ _ _]. pose proof (lo_hand _ _ L chunk Eh) as E1. pose proof (lo_held _ _ L). cbn in *.
    destruct (is_mux (w_channel w)); lia. }
  destruct (attempt_send item (src (x_feeds e))) as [l|] eqn:Ea; [|done].
  destruct (attempt_src_ok M item _ l (so_lane _ _ O3) (so_open _ _ O3) Hm Ea) as (-> & _).
  destruct (handed_on M w chunk Fw Eh) as (_ & _ & H3 & _). unfold drained. cbn [rxs].
  rewrite (total_insert _ _ _ w) by done. rewrite H3. lia.
Qed.

Lemma mux_offer_drained f : drained (mux_offer f) = drained f.
Proof. unfold mux_offer. destruct (m_hand (mux f)); [|done]. by repeat case_match. Qed.

Lemma routing_drain_chunk M channels senders i e :
  feeds_ok M e -> x_phase e = Unwired -> routing_ok channels e -> routing_ok channels (drain_chunk senders i e).
Proof.
  intros [O1 O2 O3] E R. unfold drain_chunk. destruct (rxs (x_feeds e) !! i) as [w|] eqn:Ei; [|done].
  pose proof (proj1 (Forall_lookup _ _) O1 i w Ei) as Fw.
  destruct (forwarder_recv_ok M senders w Fw) as (_ & _ & _ & Ec & _). set (w1 := forwarder_recv senders w) in *.
  destruct R as [R1 R2 R3]. split; [by eapply counters_same|done|]. cbn [set_routing set_feeds x_feeds x_routing x_phase lose].
  unfold drained. cbn [rxs]. rewrite (total_insert _ _ _ w) by done. unfold drained in R3.
  assert (events (set_routing (lose 0 (x_routing e)) e) = events e) as Ee by done.
  change (events _) with (events e). cbn [r_sent mux_discarded_targetward r_cut]. cbn [w_lane lane_step].
  destruct (hand (w_lane w1)) as [x|] eqn:Eh; cbn [hand charged]; rewrite ?Eh; cbn [set_inbox charged]; rewrite Ec; cbn; lia.
Qed.

Lemma routing_step M channels op e :
  op <> OStop -> feeds_ok M e -> pipe_ok e -> exec_small M op -> routing_ok channels e -> routing_ok channels (exec_step op e).
Proof.
  intros Hop F P Hs O. destruct op; cbn [exec_step]; try done.
  all: try (by eapply routing_frame).
  - eapply routing_frame; [exact O|done..|]. apply (on_forwarder_drained M); [apply F|]. intros w Fw. by apply (writer_sends_ok M).
  - eapply routing_frame; [exact O|done..|]. apply (on_forwarder_drained M); [apply F|]. intros w Fw. by apply (writer_resumes_ok M).
  - assert (routing_ok channels (on_forwarder i (forwarder_recv senders) e)) as R.
    { eapply routing_frame; [exact O|done..|]. apply (on_forwarder_drained M); [apply F|]. intros w Fw. by apply (forwarder_recv_ok M). }
    destruct (x_phase e) eqn:E; try done. by apply (routing_drain_chunk M).
  - pose proof (offer_drained M i e F) as R. destruct (x_phase e) eqn:E; try done; (eapply routing_frame; [exact O|done..|by apply R]).
  - destruct (x_phase e) eqn:E; try done; by eapply routing_frame.
  - destruct (x_phase e) eqn:E; try done; (eapply routing_frame; [exact O|done..|by apply mux_offer_drained]).
  - unfold spawn. destruct (x_phase e) eqn:E; try done. destruct error as [err|].
    + destruct (retry _ _ _ _). eapply routing_frame; [exact O|done| |cbn; by rewrite E|done]. apply events_idle; [|done]. cbn. by rewrite E.
    + eapply routing_frame; [exact O|done| |cbn; by rewrite E|done]. apply events_idle; [|done]. cbn. by rewrite E.
  - unfold killed. destruct (x_phase e) as [| | |[]| | |] eqn:E; try done; [destruct (retry _ _ _ _)|];
      (eapply routing_frame; [exact O|done| |cbn; by rewrite E|done]; apply events_idle; [|done]; cbn; by rewrite E).
  - unfold slept. destruct (x_phase e) eqn:E; try done. eapply routing_frame; [exact O|done| |cbn; by rewrite E|done].
    apply events_idle; [|done]. cbn. by rewrite E.
  - unfold feed_recv. destruct (x_phase e) as [| |c [|todo rest|rest] r| | | |] eqn:E; try done. set (e1 := set_feeds _ e).
    assert (routing_ok channels e1) as O1 by (by eapply routing_frame). destruct (hand _) as [x|].
    + destruct (feed_on_phase (begin_item x c) (item_frames x) r e1) as (c' & f' & P1 & P2 & P3 & P4 & P5). by eapply routing_pumping.
    + destruct (src_senders _); [done|]. by eapply routing_end_pump.
  - unfold feed_write. destruct (x_phase e) as [| |c [|todo rest|rest] r| | | |] eqn:E; try done.
    destruct (_ && _); [|done]. by eapply routing_pumping.
  - unfold feed_flushed. destruct (x_phase e) as [| |c [|todo rest|rest] r| | | |] eqn:E; try done.
    destruct (feed_on_phase c rest r e) as (c' & f' & P1 & P2 & P3 & P4 & P5). by eapply routing_pumping.
  - unfold feed_broke. destruct (x_phase e) as [| |c [|todo rest|rest] r| | | |] eqn:E; try done; by eapply routing_end_pump.
  - unfold read_some. destruct (x_phase e) as [| |c f [d|d|d o b|d o b]| | | |] eqn:E; try done.
    destruct (_ && _); [|done]. by eapply routing_pumping.
  - unfold read_ended. destruct (x_phase e) as [| |c f [d|d|d o b|d o b]| | | |] eqn:E; try done; by eapply routing_end_pump.
  - by apply routing_decode.
  - unfold gate. destruct (x_phase e) as [| |c f [d|d|d o b|d o b]| | | |] eqn:E; try done. destruct granted.
    + by eapply routing_pumping.
    + destruct O as [R1 R2 R3]. assert (forall r, events (set_routing r (set_phase (Pumping c f (RDecode d)) e)) = events e) as Ee
        by (intros r; by eapply events_pumping).
      split; rewrite ?Ee; [by eapply counters_same|done|]. rewrite E in R3. cbn in *. lia.
  - unfold send_resolved. destruct (x_phase e) as [| |c f [d|d|d o b|d o b]| | | |] eqn:E; try done.
    destruct O as [R1 R2 R3]. assert (forall r, events (set_routing r (set_phase (Pumping c f (RDecode d)) e)) = events e) as Ee
      by (intros r; by eapply events_pumping).
    rewrite E in R3. destruct ok; (split; rewrite ?Ee; [by eapply counters_same|done|]); cbn in *; [|lia].
    rewrite total_app, total_cons, total_nil. cbn. lia.
  - destruct O as [R1 R2 R3]. split; [by eapply counters_same|done|done].
Qed.
(** ** Runs *)

Record exec_ok (M ms : Z) (channels : list string) (e : Exec) : Prop := {
  eo_ctl : ctl_ok ms e; eo_pipe : pipe_ok e; eo_feeds : feeds_ok M e; eo_routing : routing_ok channels e }.

Lemma exec_step_ok M ms channels op e :
  0 <= M -> u64 ms -> exec_small M op -> op <> OStop -> exec_ok M ms channels e -> exec_ok M ms channels (exec_step op e).
Proof.
  intros HM Hms Hs Hop [O1 O2 O3 O4]. split; [by apply ctl_step|by apply pipe_step|by apply feeds_step|by apply (routing_step M)].
Qed.

Definition names_ok (faces : Facing) (endpoints : list string) : Prop :=
  match faces with Target => NoDup endpoints /\ MUX_CHANNEL ∉ endpoints | Host => True end.

Lemma exec_new_ok M attrs faces channels endpoints sinks feeds att o now :
  0 <= M -> names_ok faces endpoints ->
  exec_ok M (restart_backoff_ms attrs) channels (exec_new attrs faces channels endpoints sinks feeds att o now).
Proof.
  intros HM Hn. assert (rxs (x_feeds (exec_new attrs faces channels endpoints sinks feeds att o now)) = forwarder_new <$> endpoints) as Er by done.
  assert (total (fun w : Forwarder => Inbox.delivered (w_lane w)) (forwarder_new <$> endpoints) = 0) as Ed.
  { clear. induction endpoints as [|ch l IH]; [done|]. by rewrite fmap_cons, total_cons, IH. }
  assert (drained (x_feeds (exec_new attrs faces channels endpoints sinks feeds att o now)) = 0) as Ez.
  { unfold drained. rewrite Er. clear. induction endpoints as [|ch l IH]; [done|]. by rewrite fmap_cons, total_cons, IH. }
  destruct (channel_spec FeedItem CHANNEL_CAP ltac:(done)) as (Sc & So & _).
  split.
  - unfold ctl_ok, exec_new. cbn. split_and!; [constructor|done|]. destruct faces; cbn.
    + split_and!; try done. left. split; [done|]. unfold carries. destruct att; [by exists true|exists false]. apply status_eq.
    + split; [apply status_eq|done].
  - split; cbn; [constructor|by destruct faces|]. unfold fed, children. by destruct faces.
  - split; rewrite ?Er.
    + apply Forall_fmap, Forall_true. intros ch. cbn. destruct (channel_spec (list byte) CHANNEL_CAP ltac:(done)) as (Ec & _).
      split; cbn; try done. by apply lane_new_ok.
    + destruct faces; cbn [exec_new x_phase].
      * destruct Hn as [N1 N2]. assert (w_channel <$> (forwarder_new <$> endpoints) = endpoints) as En.
        { rewrite <- list_fmap_compose. apply list_fmap_id. }
        split; rewrite ?Er, ?En; [done|done| |by constructor]. apply Forall_fmap, Forall_true. intros ch. split; done.
      * apply Forall_fmap, Forall_true. intros ch. split; done.
    + split; cbn; rewrite ?Ed; try done.
      * by apply lane_new_ok.
      * by eexists.
      * unfold queue, fed, children. cbn. rewrite Sc. by destruct faces.
      * by destruct faces.
      * unfold children. by destruct faces.
      * by left.
  - split.
    + split; cbn; try done.
      * intros ch. rewrite <- not_elem_of_list_to_map.
        rewrite <- list_fmap_compose. cbn. rewrite list_fmap_id. split; [intros Hin; by apply dec_stable|intros Hin Hn2; by apply Hn2].
      * intros ch s Hs. apply elem_of_list_to_map_2, list_elem_of_fmap in Hs as (? & [= <- ->] & _). done.
    + unfold events, children. by destruct faces.
    + rewrite Ez. unfold events, children. by destruct faces.
Qed.
(** The endpoints of a node are those of its creation. *)
Definition endpoints_of (e : Exec) : list string := w_channel <$> rxs (x_feeds e).

Lemma same_endpoints_insert (i : nat) (w w' : Forwarder) (ws : list Forwarder) :
  ws !! i = Some w -> w_channel w' = w_channel w -> w_channel <$> <[i := w']> ws = w_channel <$> ws.
Proof. intros Ei Ew. rewrite list_fmap_insert, Ew. apply list_insert_id. by rewrite list_lookup_fmap, Ei. Qed.

Lemma same_endpoints_alter (i : nat) (g : Forwarder -> Forwarder) (ws : list Forwarder) :
  (forall w, w_channel (g w) = w_channel w) -> w_channel <$> alter g i ws = w_channel <$> ws.
Proof.
  intros Hg. revert i. induction ws as [|w ws IH]; intros [|i]; cbn; [done..|by rewrite Hg|]. f_equal. apply IH.
Qed.

Lemma forwarder_recv_channel senders w : w_channel (forwarder_recv senders w) = w_channel w.
Proof. unfold forwarder_recv. by destruct (w_done w), (hand (w_lane w)). Qed.

Lemma feed_on_endpoints c items r e : endpoints_of (feed_on c items r e) = endpoints_of e.
Proof. unfold feed_on. by destruct (next_frame items) as [[[]|] ?]. Qed.

Lemma same_endpoints op e : endpoints_of (exec_step op e) = endpoints_of e.
Proof.
  unfold endpoints_of. destruct op; cbn [exec_step]; try done.
  - by apply same_endpoints_alter.
  - by apply same_endpoints_alter.
  - assert (w_channel <$> rxs (x_feeds (on_forwarder i (forwarder_recv senders) e)) = w_channel <$> rxs (x_feeds e)) as R
      by (apply same_endpoints_alter, forwarder_recv_channel).
    destruct (x_phase e); try done. unfold drain_chunk. destruct (rxs (x_feeds e) !! i) as [w|] eqn:Ei; [|done].
    cbn [set_routing set_feeds x_feeds rxs]. by rewrite (same_endpoints_insert i w) by (done || apply forwarder_recv_channel).
  - assert (w_channel <$> rxs (offer i (x_feeds e)) = w_channel <$> rxs (x_feeds e)) as R.
    { unfold offer. destruct (rxs (x_feeds e) !! i) as [w|] eqn:Ei; [|done].
      destruct (forwarder_offer w (x_feeds e)) as [[w' f]|] eqn:Ef; [|done]. cbn [rxs].
      unfold forwarder_offer in Ef. destruct (hand (w_lane w)); [|done]. repeat case_match; try done; injection Ef as <- <-;
        by rewrite (same_endpoints_insert i w). }
    by destruct (x_phase e).
  - by destruct (x_phase e).
  - assert (rxs (mux_offer (x_feeds e)) = rxs (x_feeds e)) as R by (unfold mux_offer; by repeat case_match). 
    destruct (x_phase e); try done; cbn; by rewrite R.
  - unfold spawn. destruct (x_phase e), error; try done; by destruct (retry _ _ _ _).
  - unfold killed. destruct (x_phase e) as [| | |[]| | |]; try done; by destruct (retry _ _ _ _).
  - unfold slept. by destruct (x_phase e).
  - unfold feed_recv. destruct (x_phase e) as [| |c [] r| | | |]; try done. set (e1 := set_feeds _ e).
    destruct (hand _); [exact (feed_on_endpoints _ _ _ e1)|by destruct (src_senders _)].
  - unfold feed_write. destruct (x_phase e) as [| |c [] r| | | |]; try done; by destruct (_ && _).
  - unfold feed_flushed. destruct (x_phase e) as [| |c [] r| | | |]; try done. apply feed_on_endpoints.
  - unfold feed_broke. by destruct (x_phase e) as [| |c [] r| | | |].
  - unfold read_some. destruct (x_phase e) as [| |c f []| | | |]; try done; by destruct (_ && _).
  - unfold read_ended. by destruct (x_phase e) as [| |c f []| | | |].
  - unfold decode_next. destruct (x_phase e) as [| |c f []| | | |]; try done.
    destruct (next_event _) as [[[]| |] ?]; try done; by destruct (route_event _ _ _ _ _).
  - unfold gate. destruct (x_phase e) as [| |c f []| | | |]; try done; by destruct granted.
  - unfold send_resolved. destruct (x_phase e) as [| |c f []| | | |]; try done.
  - destruct (x_phase e); try done; cbn; by rewrite <- list_fmap_compose.
Qed.

Lemma stays_wired op e : x_phase e <> Unwired -> x_phase (exec_step op e) <> Unwired.
Proof.
  intros Hne. destruct (moves_control op) eqn:Hop.
  2: { destruct (quiet_ops op e Hop) as [(_ & _ & P)|(end_ & c & f & r & e' & _ & _ & _ & _ & ->)]; [|done].
       destruct (x_phase e), (x_phase (exec_step op e)); try done. }
  destruct op; cbn in Hop; try done; cbn [exec_step].
  - unfold spawn. destruct (x_phase e) eqn:E; try (by rewrite E). destruct error; [by destruct (retry _ _ _ _)|done].
  - unfold killed. destruct (x_phase e) as [| | |[]| | |] eqn:E; try (by rewrite E); [by destruct (retry _ _ _ _)|done].
  - unfold slept. destruct (x_phase e) eqn:E; try (by rewrite E). done.
  - destruct (x_phase e) eqn:E; try done. by rewrite E.
Qed.

(** The longest chunk of a run. *)
Definition op_len (op : ExecOp) : Z := match op with OWrite _ chunk => len chunk | _ => 0 end.

Lemma ops_small (ops : list ExecOp) : 0 <= total op_len ops /\ Forall (exec_small (total op_len ops)) ops.
Proof.
  assert (forall op : ExecOp, 0 <= op_len op) as Hn by (intros []; cbn; try lia; apply len_nonneg).
  split; [by apply total_nonneg|]. induction ops as [|op ops IH]; [done|]. rewrite total_cons. specialize (Hn op) as H1.
  pose proof (total_nonneg op_len ops Hn). constructor; [destruct op; cbn in *; try done; lia|].
  eapply Forall_impl; [exact IH|]. intros [] Hs; cbn in *; try done. lia.
Qed.

Lemma exec_run_ok M attrs faces channels endpoints sinks feeds att o now ops :
  0 <= M -> u64 (restart_backoff_ms attrs) -> names_ok faces endpoints -> Forall (exec_small M) ops -> Forall (.≠ OStop) ops ->
  let e := exec_run ops (exec_new attrs faces channels endpoints sinks feeds att o now) in
  exec_ok M (restart_backoff_ms attrs) channels e /\ (faces = Target -> x_phase e <> Unwired) /\ endpoints_of e = endpoints.
Proof.
  intros HM Hms Hn Hs Hop. pose proof (exec_new_ok M attrs faces channels endpoints sinks feeds att o now HM Hn) as O.
  assert (faces = Target -> x_phase (exec_new attrs faces channels endpoints sinks feeds att o now) <> Unwired) as W by (by intros ->).
  assert (endpoints_of (exec_new attrs faces channels endpoints sinks feeds att o now) = endpoints) as N
    by (unfold endpoints_of; cbn; rewrite <- list_fmap_compose; apply list_fmap_id).
  cbn zeta. revert O W N. generalize (exec_new attrs faces channels endpoints sinks feeds att o now).
  induction Hs as [|op ops Ho Hs IH]; intros e O W N; [done|]. apply Forall_cons in Hop as [Hne Hop]. cbn [exec_run foldl].
  apply IH; [done|by apply exec_step_ok| |by rewrite same_endpoints]. intros Hf. by apply stays_wired, W.
Qed.
(** ** What a child reads *)

Definition data_on (ch : ChannelId) (xs : list FeedItem) : list byte := concat (fi_bytes <$> filter (fun x => fi_channel x = ch) xs).
Definition named (x : FeedItem) : Prop := is_str (fi_channel x) /\ slen (fi_channel x) <= MAX_NAME_LEN.
Definition whole (evs : list Event) : Prop := Forall (fun e => event_typed e /\ event_fits e) evs.

Lemma payloads_app ch a b : payloads ch (a ++ b) = payloads ch a ++ payloads ch b.
Proof. unfold payloads. by rewrite fmap_app, concat_app. Qed.

Lemma payloads_data ch c ps : payloads ch (event_data c <$> ps) = if bool_decide (c = ch) then concat ps else [].
Proof.
  unfold payloads. induction ps as [|p ps IH]; [by case_bool_decide|]. rewrite !fmap_cons. cbn [concat]. rewrite IH.
  unfold payload_on. cbn. by case_bool_decide.
Qed.

Lemma item_events x :
  named x -> exists evs, item_wire x = concat (frame_of <$> evs) /\ whole evs /\ residue x = 0
    /\ forall ch, payloads ch evs = data_on ch [x].
Proof.
  intros [Hs Hl]. destruct (item_frames_spec x) as (pieces & tail & Ei & Hc & Hall & Ht).
  assert (tail = []) as ->.
  { destruct (decide (tail = [])) as [E|E]; [done|]. apply Ht in E. unfold MAX_NAME_LEN, MAX_FRAME_SIZE in *. lia. }
  unfold yields in Ei. rewrite bool_decide_true, app_nil_r in Ei by done. rewrite app_nil_r in Hc.
  exists (event_data (fi_channel x) <$> pieces). split_and!.
  - unfold item_wire. rewrite Ei. f_equal. by rewrite <- !list_fmap_compose.
  - apply Forall_fmap. eapply Forall_impl; [exact Hall|]. intros p [_ Hf]. split; [by split|done].
  - unfold residue, residue_of. rewrite Ei. clear. induction pieces as [|p ps IH]; [done|]. by rewrite fmap_cons, total_cons, IH.
  - intros ch. rewrite payloads_data, Hc. unfold data_on. rewrite filter_cons, filter_nil.
    destruct (decide (fi_channel x = ch)); [by rewrite bool_decide_true; cbn; rewrite ?app_nil_r|by rewrite bool_decide_false].
Qed.

Lemma items_events xs :
  Forall named xs -> exists evs, wire_of xs = concat (frame_of <$> evs) /\ whole evs /\ total residue xs = 0
    /\ forall ch, payloads ch evs = data_on ch xs.
Proof.
  induction 1 as [|x xs Hx _ (evs & E1 & E2 & E3 & E4)]; [exists []; split_and!; [done|constructor|done|done]|].
  destruct (item_events x Hx) as (ev1 & F1 & F2 & F3 & F4). exists (ev1 ++ evs). split_and!.
  - unfold wire_of in *. cbn. by rewrite F1, E1, fmap_app, concat_app.
  - by apply Forall_app.
  - by rewrite total_cons, F3, E3.
  - intros ch. rewrite payloads_app, F4, E4. unfold data_on. rewrite (filter_app _ [x] xs), fmap_app, concat_app. done.
Qed.

(** The end of the bytes that [decodes] leaves is a proper part of the next frame. *)
Lemma leftover_partial s evs l e t rest :
  decodes s evs l -> event_typed e -> event_fits e -> l ++ t = frame_of e ++ rest -> exists q, frame_of e = l ++ q /\ q <> [].
Proof.
  intros D Ht Hf E. assert (try_decode l = Ok None) as Hn by (clear -D; induction D; auto).
  destruct (decide (length (frame_of e) <= length l)%nat) as [Hle|Hgt].
  - exfalso. apply (f_equal (take (length (frame_of e)))) in E. rewrite take_app_length, take_app_le in E by done.
    rewrite <- (take_drop (length (frame_of e)) l), E, try_decode_frame in Hn by done. done.
  - exists (drop (length l) (frame_of e)). apply (f_equal (take (length l))) in E.
    rewrite take_app_length, take_app_le in E by lia. split; [rewrite E at 1; by rewrite take_drop|].
    intros En. apply (f_equal length) in En. rewrite length_drop in En. cbn in En. lia.
Qed.

(** A child that reads its stdin with the envelope decoder, in reads cut anywhere. *)
Lemma child_decodes c reads :
  child_ok c -> Forall named (c_fed c) -> concat reads = c_stdin c ->
  exists evs d, read_stream reads decoder_new = Some (evs, NeedMore, d)
    /\ forall ch, data_on ch (c_done c) `prefix_of` payloads ch evs /\ payloads ch evs `prefix_of` data_on ch (c_fed c).
Proof.
  intros ([s' Es] & [t Et] & _) Hn Hr. unfold c_fed in *. rewrite wire_of_app in Et. apply Forall_app in Hn as [Hd Hh].
  destruct (items_events _ Hd) as (evd & D1 & D2 & _ & D4). destruct (items_events _ Hh) as (evh & H1 & H2 & _ & H4).
  rewrite Es, <- app_assoc in Et. apply app_inv_head in Et. rewrite H1 in Et.
  destruct (prefix_decodes evh s' t H2 (eq_sym Et)) as (ev1 & ev2 & l & -> & Dec & Hl & _).
  assert (s' = concat (frame_of <$> ev1) ++ l) as ->.
  { rewrite fmap_app, concat_app, <- Hl, app_assoc in Et. by apply app_inv_tail in Et. }
  assert (exists d, read_stream reads decoder_new = Some (evd ++ ev1, NeedMore, d)) as [d Hd'].
  { apply Forall_app in H2 as [W1 W2]. destruct ev2 as [|e ev2].
    - apply app_eq_nil in Hl as [-> _]. destruct (read_stream_decodes (evd ++ ev1) reads decoder_new) as (d & Hd' & _); [by apply Forall_app|done| |done|].
      { cbn. by rewrite Hr, Es, D1, app_nil_r, fmap_app, concat_app. }
      by exists d.
    - apply Forall_cons in W2 as [[T F] _]. destruct (leftover_partial _ _ _ e t _ Dec T F Hl) as (q & Hq & Hne).
      destruct (read_stream_partial (evd ++ ev1) e l q reads decoder_new) as (d & Hd' & _); try done.
      + apply Forall_app. split; [by apply Forall_app|]. by constructor.
      + change (Envelope.live decoder_new) with (@nil byte). rewrite Hr, Es, D1, fmap_app, concat_app. by rewrite <- app_assoc.
      + by exists d. }
  exists (evd ++ ev1), d. split; [done|]. intros ch. rewrite payloads_app, D4. split; [by apply prefix_app_r|].
  unfold data_on at 2. rewrite filter_app, fmap_app, concat_app. fold (data_on ch (c_done c)). apply prefix_app.
  fold (data_on ch (option_list (c_hand c))). rewrite <- H4, payloads_app. by apply prefix_app_r.
Qed.
(** ** Theorems *)

Lemma forwards_split mg w :
  forwards mg w -> w_took w = (fi_bytes <$> filter (fun x => fi_channel x = w_channel w) mg) ++ option_list (hand (w_lane w)).
Proof.
  intros [_ F]. apply (f_equal (fmap fi_bytes)) in F. rewrite fmap_app, <- !list_fmap_compose in F. cbn in F.
  rewrite !list_fmap_id in F. done.
Qed.

(** C36: What reaches a child is what was written. In every state of a wired exec node, the chunks a
    channel's queue accepted are, in order, those taken by the pumps of its children, those in
    the merge queue, the one in the forwarder's hand, and those still queued: none is lost,
    doubled or reordered by a restart. Nothing is unframable; and however its stdin is cut into
    reads, a child that decodes it with the envelope decoder gets, on each channel and on the
    raw stream, every byte of the items written and a beginning of the one it died in. *)
Theorem exec_child_hears attrs channels endpoints sinks feeds att o now ops :
  u64 (restart_backoff_ms attrs) -> NoDup endpoints -> MUX_CHANNEL ∉ endpoints ->
  Forall (fun ch => is_str ch /\ slen ch <= MAX_NAME_LEN) endpoints -> Forall (.≠ OStop) ops ->
  let e := exec_run ops (exec_new attrs Target channels endpoints sinks feeds att o now) in
  (forall w, w ∈ rxs (x_feeds e) ->
     w_in w = (fi_bytes <$> filter (fun x => fi_channel x = w_channel w) (fed e))
              ++ (fi_bytes <$> filter (fun x => fi_channel x = w_channel w) (queue (src (x_feeds e))))
              ++ option_list (hand (w_lane w)) ++ queue (w_lane w))
  /\ unframable_discarded e = 0
  /\ forall c reads, c ∈ children e -> concat reads = c_stdin c ->
       exists evs d, read_stream reads decoder_new = Some (evs, NeedMore, d)
         /\ forall ch, data_on ch (c_done c) `prefix_of` payloads ch evs /\ payloads ch evs `prefix_of` data_on ch (c_fed c).
Proof.
  intros Hms Hnd Hmux Hnames Hop e. destruct (ops_small ops) as [HM Hs].
  destruct (exec_run_ok _ attrs Target channels endpoints sinks feeds att o now ops HM Hms (conj Hnd Hmux) Hs Hop) as ([_ P [F1 F2 F3] _] & W & N).
  fold e in P, F1, F2, F3, W, N. assert (wired (x_feeds e)) as [_ _ W3 W4] by (specialize (W eq_refl); destruct (x_phase e); done).
  assert (Forall named (fed e)) as Hnamed.
  { rewrite (so_merged _ _ F3) in W4. apply Forall_app in W4 as [W4 _]. eapply Forall_impl; [exact W4|]. intros x [Hx|Hx]; unfold named.
    - rewrite Hx. split; [done|]. vm_compute. discriminate.
    - rewrite Forall_forall in Hnames. apply Hnames. rewrite <- N. exact Hx. }
  split_and!.
  - intros w Hw. rewrite Forall_forall in F1, W3. rewrite (fo_in _ _ (F1 w Hw)), (forwards_split _ _ (W3 w Hw)), (so_merged _ _ F3).
    by rewrite filter_app, fmap_app, <- !app_assoc.
  - destruct P as [_ P2 P3]. destruct (items_events (fed e) Hnamed) as (_ & _ & _ & Hz & _). rewrite Hz in P3.
    assert (forall xs, 0 <= total residue xs) as Hr.
    { intros xs. apply total_nonneg. intros x. by destruct (residue_parts x [] (item_frames x) eq_refl). }
    assert (0 <= owed (x_phase e) <= total residue (begun (x_phase e))) as Ho.
    { destruct (x_phase e) as [| |c [|todo rest|rest] r| | | |]; cbn [owed begun pending]; try (split; [done|apply Hr]);
        destruct P2 as [(x & -> & _ & pre & Ei & _) _]; destruct (residue_parts x pre rest Ei); cbn; rewrite total_cons, total_nil;
        unfold residue; rewrite Ei, residue_of_app; lia. }
    rewrite total_app in P3. pose proof (Hr (concat (c_done <$> children e))). lia.
  - intros c reads Hc Hr. apply child_decodes; [|rewrite Forall_forall in *|done].
    + unfold children in Hc. apply elem_of_app in Hc as [Hc|Hc].
      * pose proof (po_past _ P) as P1. rewrite Forall_forall in P1. by apply P1.
      * pose proof (po_current _ P) as P2. destruct (x_phase e) as [| |c' f r| | | |]; cbn in Hc; try (by apply elem_of_nil in Hc).
        apply list_elem_of_singleton in Hc as ->. destruct P2 as [P2 P3]. destruct (stdin_child _ _ P2). split_and!; try done. by eapply stdout_child.
    + intros x Hx. apply Hnamed. unfold fed. apply list_elem_of_In, in_concat. exists (c_fed c).
      split; apply list_elem_of_In; [|done]. apply list_elem_of_fmap. by exists c.
Qed.
Lemma wired_drains_nothing f : wired f -> drained f = 0.
Proof.
  intros [_ _ W _]. unfold drained. induction W as [|w ws [Hw _] _ IH]; [done|]. by rewrite total_cons, Hw, IH.
Qed.

Lemma child_parsed (e : Exec) c : pipe_ok e -> c ∈ children e -> exists l, parsed (concat (c_reads c)) (c_events c) l.
Proof.
  intros [P1 P2 _] Hc. unfold children in Hc. apply elem_of_app in Hc as [Hc|Hc].
  - rewrite Forall_forall in P1. by apply P1.
  - destruct (x_phase e) as [| |c' f r| | | |]; cbn in Hc; try (by apply elem_of_nil in Hc).
    apply list_elem_of_singleton in Hc as ->. by eapply stdout_child, P2.
Qed.

(** What the routing of [bytes] owes one consumer of the channel: the chunk at the end of its queue, or, where that is full,
    the bytes on the consumer's own full-buffer counter, or nothing where it is gone. *)
Definition consumer_served (bytes : list byte) (s s' : AttachedSink (C := C)) : Prop :=
  s_target s' = s_target s
  /\ match (try_send (s_tx s) bytes).1 with
     | SendOk => contents (s_tx s') = contents (s_tx s) ++ [bytes] /\ s_counters s' = s_counters s
     | SendFull => s_tx s' = s_tx s
                   /\ dropped_full (s_counters s') = u64_wrapping_add (dropped_full (s_counters s)) (len bytes)
                   /\ discarded_absent (s_counters s') = discarded_absent (s_counters s)
     | SendClosed => s' = s
     end.

Lemma sink_after_served bytes s : consumer_served bytes s (sink_after bytes s).
Proof.
  split; [done|]. pose proof (sink_outcome_spec bytes s) as O. unfold sink_outcome in O.
  destruct (try_send (s_tx s) bytes) as [[] tx]; cbn in *; [by destruct O as (_ & ? & _ & ?)|by destruct O as (_ & ? & ->)|by destruct O].
Qed.

(** Some consumer answered [a]. *)
Definition some_answer (a : TrySend) (bytes : list byte) (sinks : list (AttachedSink (C := C))) : Prop :=
  exists s, s ∈ sinks /\ (try_send (s_tx s) bytes).1 = a.

Lemma some_sink_answer o bytes sinks :
  some_sink o bytes sinks = true
  <-> some_answer (match o with Took => SendOk | WasFull => SendFull | WasClosed => SendClosed end) bytes sinks.
Proof.
  unfold some_sink, some_answer, sink_outcome. rewrite existsb_exists. setoid_rewrite <- list_elem_of_In.
  setoid_rewrite bool_decide_eq_true. split; intros (s & Hs & E); exists s; (split; [done|]);
    destruct (try_send (s_tx s) bytes).1, o; done.
Qed.

(** The fate of a chunk with attached consumers is read off their answers. *)
Lemma verdict_spec ch bytes (r : Routing) st sinks :
  stats r !! ch = Some st -> channel_sinks r !! ch = Some sinks ->
  (verdict ch bytes r = Reached <-> some_answer SendOk bytes sinks)
  /\ (verdict ch bytes r = Slow <-> ~ some_answer SendOk bytes sinks /\ some_answer SendFull bytes sinks).
Proof.
  intros Es Ek. unfold verdict. rewrite Es, Ek. pose proof (some_live bytes sinks) as L.
  rewrite <- (some_sink_answer Took), <- (some_sink_answer WasFull). rewrite <- L.
  destruct (some_sink Took bytes sinks), (some_sink WasFull bytes sinks); cbn; split; split; naive_solver.
Qed.

(** One event routed to a channel with consumers. *)
Lemma decode_serves sent e c f d d' ev bytes channels sinks :
  let r := x_routing e in let r' := x_routing (decode_next sent e) in let ch := Envelope.channel ev in
  counters_ok channels r -> x_phase e = Pumping c f (RDecode d) -> next_event d = (Ok (Some ev), d') ->
  kind ev = Envelope.Data bytes -> is_mux ch = false -> ch ∈ channels -> channel_sinks r !! ch = Some sinks ->
  exists sinks' v, channel_sinks r' !! ch = Some sinks' /\ Forall2 (consumer_served bytes) sinks sinks'
    /\ (forall ch', ch' <> ch -> channel_sinks r' !! ch' = channel_sinks r !! ch')
    /\ r_log r' = r_log r ++ [(ch, len bytes, v)]
    /\ (v = Reached <-> some_answer SendOk bytes sinks)
    /\ (v = Slow <-> ~ some_answer SendOk bytes sinks /\ some_answer SendFull bytes sinks).
Proof.
  intros r r' ch [D1 _ _ _] Ep En Ek Em Hch Es. destruct (stats r !! ch) as [st|] eqn:Hst; [|by apply D1 in Hch].
  assert (r' = route_channel ev sent r) as ->.
  { unfold r', decode_next. rewrite Ep, En. unfold route_event. fold ch. by rewrite Em. }
  unfold route_channel. fold ch. rewrite Ek, Hst, Es. unfold route_channel_data, fan_out.
  pose proof (fan_loop_spec bytes (mkFan false 0 0) sinks) as L. destruct (fan_loop bytes _ sinks) as [out sinks'].
  destruct L as (-> & _). exists (sink_after bytes <$> sinks), (verdict ch bytes r). cbn [channel_sinks r_log]. split_and!.
  - by rewrite lookup_partial_alter_eq.
  - apply Forall2_fmap_r, Forall_Forall2_diag, Forall_true. apply sink_after_served.
  - intros ch' Hne. by rewrite lookup_partial_alter_ne.
  - done.
  - by eapply verdict_spec.
  - by eapply verdict_spec.
Qed.

(** C37: Every event a child emits is routed once, and every byte it emits has one fate. What the
    node routed is, child by child, a beginning of the frames the child wrote, and all of them
    once the reading half is back at its read. Data on a channel is delivered, unattached or
    left to full consumers; the channel's counters say how much was delivered and how much unattached, and on whichever
    event comes next each consumer of its channel, and no other, gets the chunk at the end of its queue or is charged it
    on its own full-buffer counter; data for a channel the node does not have is on the unconfigured counter. Data
    for the device is handed upstream, on the discard counter, in flight, or was cut off
    with a pump: those last bytes are on no counter of the node ([waiting_bytes_uncounted]). *)
Theorem exec_routes_exact attrs channels endpoints sinks feeds att o now ops :
  u64 (restart_backoff_ms attrs) -> NoDup endpoints -> MUX_CHANNEL ∉ endpoints -> Forall (.≠ OStop) ops ->
  let e := exec_run ops (exec_new attrs Target channels endpoints sinks feeds att o now) in
  let r := x_routing e in
  (r_log r).*1 = concat (channel_data <$> events e)
  /\ Forall (fun l => l.2 = Unconfigured <-> l.1.1 ∉ channels) (r_log r)
  /\ (forall ch s, stats r !! ch = Some s ->
       delivered_hostward s = logged ch Reached (r_log r) /\ discarded_unattached s = logged ch Unattached (r_log r))
  /\ u_bytes (unconfigured r) = total (fun l => if bool_decide (l.2 = Unconfigured) then l.1.2 else 0) (r_log r)
  /\ total mux_data (events e) = total (fun b => len b.2) (r_sent r) + mux_discarded_targetward r + r_cut r + flight (x_phase e)
  /\ (forall sent c f d d' ev bytes sinks, x_phase e = Pumping c f (RDecode d) -> next_event d = (Ok (Some ev), d') ->
       kind ev = Envelope.Data bytes -> is_mux (Envelope.channel ev) = false -> Envelope.channel ev ∈ channels ->
       channel_sinks r !! Envelope.channel ev = Some sinks ->
       let r' := x_routing (decode_next sent e) in
       exists sinks' v, channel_sinks r' !! Envelope.channel ev = Some sinks' /\ Forall2 (consumer_served bytes) sinks sinks'
         /\ (forall ch', ch' <> Envelope.channel ev -> channel_sinks r' !! ch' = channel_sinks r !! ch')
         /\ r_log r' = r_log r ++ [(Envelope.channel ev, len bytes, v)]
         /\ (v = Reached <-> some_answer SendOk bytes sinks)
         /\ (v = Slow <-> ~ some_answer SendOk bytes sinks /\ some_answer SendFull bytes sinks))
  /\ (forall c evs more, c ∈ children e -> whole evs -> concat (c_reads c) ++ more = concat (frame_of <$> evs) -> c_events c `prefix_of` evs)
  /\ (forall c f d evs, x_phase e = Pumping c f (RRead d) -> whole evs -> concat (c_reads c) = concat (frame_of <$> evs) -> c_events c = evs).
Proof.
  intros Hms Hnd Hmux Hop e r. destruct (ops_small ops) as [HM Hs].
  destruct (exec_run_ok _ attrs Target channels endpoints sinks feeds att o now ops HM Hms (conj Hnd Hmux) Hs Hop) as ([_ P F [R1 R2 R3]] & W & _).
  fold e in P, F, R1, R2, R3, W. assert (wired (x_feeds e)) as Wd by (specialize (W eq_refl); destruct F as [_ F _]; destruct (x_phase e); done).
  rewrite (wired_drains_nothing _ Wd), Z.add_0_r in R3. split_and!; [done|apply R1|apply R1|apply R1|done|..].
  - intros sent c f d d' ev bytes snk Ep En Ek Em Hch Es. by eapply decode_serves.
  - intros c evs more Hc He Hr. destruct (child_parsed e c P Hc) as [l Hl].
    destruct (parsed_frames _ more evs _ l He Hr Hl) as (rest & -> & _). by apply prefix_app_r.
  - intros c f d evs Ep He Hr. pose proof (po_current _ P) as P2. rewrite Ep in P2. destruct P2 as [_ [[_ Hl] Hn]].
    destruct (parsed_frames _ [] evs _ _ He ltac:(by rewrite app_nil_r) Hl) as (rest & -> & Er). rewrite app_nil_r in Er.
    destruct rest as [|ev rest]; [by rewrite app_nil_r|]. exfalso. apply Forall_app in He as [_ He]. apply Forall_cons in He as [[T F'] _].
    rewrite Er in Hn. cbn in Hn. by rewrite try_decode_frame in Hn.
Qed.

(** An exec node reports the life of its child. Whatever children do and whenever edges come
    and go, a live child is reported by its upstream alone, active with one and waiting
    without; without a child a node that retries is faulted and shows the number of failed
    spawns and dead children so far; and every wait is exactly the configured backoff,
    which the attribute check keeps within the cap. *)
Theorem exec_status_coherent {Table} (deserialize : Table -> string + ExecAttributes) table attrs faces channels endpoints sinks feeds att o now ops :
  deserialize table = inr attrs -> parse_attributes deserialize table = inr tt -> 0 <= restart_backoff_ms attrs ->
  names_ok faces endpoints -> Forall (.≠ OStop) ops ->
  let e := exec_run ops (exec_new attrs faces channels endpoints sinks feeds att o now) in
  let c := x_ctl e in
  let attempts := c_failed c + len (x_past e) in
  argv attrs <> []
  /\ match x_phase e with
     | Unwired => node_status (status c) = Waiting NoDriver /\ child_live c = false
     | Spawning => child_live c = false /\ restart_count c = attempts /\ (restart_count c = 0 /\ carries c \/ faulted_with attempts c)
     | Pumping _ _ _ => child_live c = true /\ restart_count c = attempts /\ node_status (status c) = upstream_status (attached c)
     | Killing _ => child_live c = true /\ restart_count c + 1 = attempts /\ node_status (status c) = upstream_status (attached c)
     | BackingOff ms => child_live c = false /\ ms = restart_backoff_ms attrs /\ ms <= MAX_TIMER_MS /\ restart_count c = attempts
                        /\ faulted_with attempts c
     | Done => child_live c = false /\ carries c
     | Aborted => True
     end.
Proof.
  intros Hd Hp H0ms Hn Hop e c attempts. unfold parse_attributes in Hp. rewrite Hd in Hp. case_bool_decide as Ha; [done|].
  destruct (Z.ltb_spec MAX_TIMER_MS (restart_backoff_ms attrs)) as [|Hmax]; [done|].
  assert (u64 (restart_backoff_ms attrs)) as Hms by (unfold u64, u64_max, MAX_TIMER_MS in *; lia).
  destruct (ops_small ops) as [HM Hs].
  destruct (exec_run_ok _ attrs faces channels endpoints sinks feeds att o now ops HM Hms Hn Hs Hop) as ([K _ _ _] & _).
  fold e in K. split; [done|]. unfold ctl_ok in K. destruct K as (_ & _ & K). subst attempts c.
  destruct (x_phase e); try done; try tauto.
  - destruct K as (K1 & K2 & K3). rewrite <- K2. naive_solver.
  - destruct K as (K1 & K2 & K3 & K4 & K5). rewrite <- K2. subst. by split_and!.
Qed.
(** *** Teardown *)

Definition taken (f : Feeds) : Z := total (fun w => accepted (w_lane w)) (rxs f).

Record stopped (e : Exec) : Prop := {
  st_phase : x_phase e = Aborted;
  st_lanes : Forall (fun w => lane_stopped (w_lane w)) (rxs (x_feeds e)) }.

(** Only the stop moves the teardown count. *)
Lemma teardown_step op e : op <> OStop -> teardown_loss (exec_step op e) = teardown_loss e.
Proof.
  intros Hop. assert (forall c items r e', teardown_loss (feed_on c items r e') = teardown_loss e') as Hf
    by (intros c items r e'; unfold feed_on; by destruct (next_frame items) as [[[]|] ?]).
  destruct op; cbn [exec_step]; try done.
  - destruct (x_phase e); try done. unfold drain_chunk. by destruct (rxs (x_feeds e) !! i).
  - by destruct (x_phase e).
  - by destruct (x_phase e).
  - by destruct (x_phase e).
  - unfold spawn. destruct (x_phase e), error; try done; by destruct (retry _ _ _ _).
  - unfold killed. destruct (x_phase e) as [| | |[]| | |]; try done; by destruct (retry _ _ _ _).
  - unfold slept. by destruct (x_phase e).
  - unfold feed_recv. destruct (x_phase e) as [| |c [] r| | | |]; try done. set (e' := set_feeds _ e).
    destruct (hand _); [apply (Hf _ _ _ e')|by destruct (src_senders _)].
  - unfold feed_write. destruct (x_phase e) as [| |c [] r| | | |]; try done; by destruct (_ && _).
  - unfold feed_flushed. destruct (x_phase e) as [| |c [] r| | | |]; done || apply Hf.
  - unfold feed_broke. by destruct (x_phase e) as [| |c [] r| | | |].
  - unfold read_some. destruct (x_phase e) as [| |c f []| | | |]; try done; by destruct (_ && _).
  - unfold read_ended. by destruct (x_phase e) as [| |c f []| | | |].
  - unfold decode_next. destruct (x_phase e) as [| |c f []| | | |]; try done.
    destruct (next_event _) as [[[]| |] ?]; try done; by destruct (route_event _ _ _ _ _).
  - unfold gate. destruct (x_phase e) as [| |c f []| | | |]; try done; by destruct granted.
  - unfold send_resolved. by destruct (x_phase e) as [| |c f []| | | |].
Qed.

Lemma teardown_run ops e : Forall (.≠ OStop) ops -> teardown_loss (exec_run ops e) = teardown_loss e.
Proof.
  intros Hop. revert e. induction Hop as [|op ops Hne Hop IH]; intros e; [done|]. cbn [exec_run foldl]. etrans; [apply IH|by apply teardown_step].
Qed.

(** A stopped node only refuses. *)
Lemma stopped_step op e :
  stopped e -> stopped (exec_step op e) /\ taken (x_feeds (exec_step op e)) = taken (x_feeds e)
  /\ teardown_loss (exec_step op e) = teardown_loss e.
Proof.
  intros [Ep El].
  assert (forall i g, (forall w : Forwarder, lane_stopped (w_lane w) -> lane_stopped (w_lane (g w)) /\ accepted (w_lane (g w)) = accepted (w_lane w)) ->
    stopped (on_forwarder i g e) /\ taken (x_feeds (on_forwarder i g e)) = taken (x_feeds e) /\ teardown_loss (on_forwarder i g e) = teardown_loss e) as W.
  { intros i g Hg. split_and!; [split; cbn; [done|]|unfold taken; cbn|done].
    - apply Forall_alter; [done|]. intros w _ Hw. by apply Hg.
    - eapply total_alter; [exact El|]. intros w Hw. by apply Hg. }
  destruct op; cbn [exec_step]; rewrite ?Ep; try (split_and!; done).
  - apply W. intros w Hw. destruct (lane_step_stopped (LSend chunk) _ Hw) as (? & _ & ?). done.
  - apply W. intros w Hw. destruct (lane_step_stopped LResume _ Hw) as (? & _ & ?). done.
  - unfold spawn. rewrite Ep. by split_and!.
  - unfold killed. rewrite Ep. by split_and!.
  - unfold slept. rewrite Ep. by split_and!.
  - unfold feed_recv. rewrite Ep. by split_and!.
  - unfold feed_write. rewrite Ep. by split_and!.
  - unfold feed_flushed. rewrite Ep. by split_and!.
  - unfold feed_broke. rewrite Ep. by split_and!.
  - unfold read_some. rewrite Ep. by split_and!.
  - unfold read_ended. rewrite Ep. by split_and!.
  - unfold decode_next. rewrite Ep. by split_and!.
  - unfold gate. rewrite Ep. by split_and!.
  - unfold send_resolved. rewrite Ep. by split_and!.
Qed.

Lemma stopped_run ops e :
  stopped e -> taken (x_feeds (exec_run ops e)) = taken (x_feeds e) /\ teardown_loss (exec_run ops e) = teardown_loss e.
Proof.
  revert e. induction ops as [|op ops IH]; intros e S; [done|]. cbn [exec_run foldl].
  destruct (stopped_step op e S) as (S1 & S2 & S3). destruct (IH _ S1) as [E1 E2]. split; (etrans; [eassumption|done]).
Qed.

(** What the drain finds in the channel queues: all that is not in the merge queue's past. *)
Lemma queues_drained M f :
  Forall (forwarder_ok M) (rxs f) -> wired f ->
  total (fun w => (drain_and_count (inbox (w_lane w))).1) (rxs f) = taken f - total (fun w => Inbox.delivered (w_lane w)) (rxs f).
Proof.
  intros F [_ _ W _]. unfold taken. induction F as [|w ws [F1 F2 F3 Fu F4] _ IH]; [done|]. apply Forall_cons in W as [[Wc _] W].
  rewrite !total_cons, IH by done. destruct (drain_count M _ F1) as [-> _]. unfold undisposed, idle_held. rewrite F3, Wc.
  destruct (hand (w_lane w)); [lia|]. rewrite F2 by done. lia.
Qed.

Lemma drain_nonneg {T} `{TeardownBytes T} M (l : Lane C T) : lane_ok M l -> 0 <= (drain_and_count (inbox l)).1.
Proof.
  intros L. destruct (lo_held _ _ L) as [Hh _]. unfold drain_and_count. cbn [fst]. apply Z.add_nonneg_nonneg; [|done].
  destruct (slot (inbox l)) as [rx|]; [|done]. apply total_nonneg, teardown_bytes_nonneg.
Qed.

Lemma total_member {A} (g : A -> Z) xs x : (forall y, 0 <= g y) -> x ∈ xs -> g x <= total g xs.
Proof.
  intros Hg Hx. apply list_elem_of_split in Hx as (l1 & l2 & ->). rewrite total_app, total_cons.
  pose proof (total_nonneg g l1 Hg). pose proof (total_nonneg g l2 Hg). lia.
Qed.

(** The teardown count is a total, up to the items children died in. When a running node is
    stopped, every targetward byte its channel queues ever accepted is in the teardown count, was
    written to a child, or belongs to an item a child died in, with one exception: the last
    such item can be counted although part of it was written. If no child died inside an
    item the count is exact: accepted is destroyed plus written. Nothing is accepted and
    nothing more is counted after the stop. *)
Theorem exec_teardown_total attrs channels endpoints sinks feeds att o now ops1 ops2 :
  u64 (restart_backoff_ms attrs) -> NoDup endpoints -> MUX_CHANNEL ∉ endpoints -> Forall (.≠ OStop) ops1 ->
  let e1 := exec_run ops1 (exec_new attrs Target channels endpoints sinks feeds att o now) in
  let e2 := exec_run (ops1 ++ OStop :: ops2) (exec_new attrs Target channels endpoints sinks feeds att o now) in
  x_phase e1 <> Aborted -> taken (x_feeds e1) <= u64_max ->
  taken (x_feeds e2) = taken (x_feeds e1)
  /\ exists stale, (stale = 0 \/ exists x, x ∈ cut_items e1 /\ stale = size x)
     /\ taken (x_feeds e1) + stale
         = teardown_loss e2 + total size (concat (c_done <$> children e1)) + total size (cut_items e1).
Proof.
  intros Hms Hnd Hmux Hop e1 e2 Hrun Hmax. destruct (ops_small ops1) as [HM Hs].
  destruct (exec_run_ok _ attrs Target channels endpoints sinks feeds att o now ops1 HM Hms (conj Hnd Hmux) Hs Hop) as ([_ _ F _] & W & _).
  fold e1 in F, W. assert (wired (x_feeds e1)) as Wd by (specialize (W eq_refl); destruct F as [_ F _]; destruct (x_phase e1); done).
  assert (e2 = exec_run ops2 (signal_stop e1)) as ->.
  { unfold e2, exec_run. rewrite foldl_app. fold (exec_run ops1 (exec_new attrs Target channels endpoints sinks feeds att o now)). fold e1.
    cbn [foldl exec_step]. by destruct (x_phase e1). }
  destruct F as [F1 _ [S1 S2 S3 S4 S5 S6 Sc S7 S8 S9]]. pose proof (queues_drained _ _ F1 Wd) as Q.
  assert (stopped (signal_stop e1)) as Stp.
  { split; [done|]. cbn. apply Forall_fmap. eapply Forall_impl; [exact F1|]. intros w [Fl _ _ _ _]. by apply (drain_count _ _ Fl). }
  destruct (stopped_run ops2 _ Stp) as [-> ->].
  assert (taken (x_feeds (signal_stop e1)) = taken (x_feeds e1)) as Et by (unfold taken; cbn; by rewrite total_fmap).
  split; [exact Et|]. exists (idle_held (src (x_feeds e1))). split.
  { unfold idle_held. destruct (hand (src (x_feeds e1))); [by left|by apply S8]. }
  destruct (drain_count _ _ S1) as [D _]. unfold undisposed in D. rewrite S3, S6, Sc, S7, S9 in D.
  assert (teardown_loss e1 = 0) as Etd by (by apply (teardown_run ops1)).
  unfold signal_stop. cbn [teardown_loss]. rewrite Q, D, Etd.
  assert (0 <= total size (concat (c_done <$> children e1))) as H1 by (apply total_nonneg, teardown_bytes_nonneg).
  assert (idle_held (src (x_feeds e1)) <= total size (cut_items e1)) as H2.
  { unfold idle_held. destruct (hand (src (x_feeds e1))); [apply total_nonneg, teardown_bytes_nonneg|].
    destruct (S8 eq_refl) as [->|(x & Hx & ->)]; [apply total_nonneg, teardown_bytes_nonneg|]. apply total_member; [apply teardown_bytes_nonneg|done]. }
  pose proof (drain_nonneg _ _ S1) as H3. rewrite D in H3.
  assert (0 <= total (fun w : Forwarder => (drain_and_count (inbox (w_lane w))).1) (rxs (x_feeds e1))) as H4.
  { clear -F1. induction F1 as [|w ws [Fl _ _ _ _] _ IH]; [done|]. rewrite total_cons. pose proof (drain_nonneg _ _ Fl). lia. }
  rewrite Q in H4. unfold u64_saturating_add. case_match; lia.
Qed.
End flow.

(** ** Witnesses *)

#[local] Existing Instance Pattern.literal_engine.

Definition demo_attrs : ExecAttributes := mkAttributes ["proto"%string] ∅ 200.

(** A chunk reaches the first child; the second is begun when its stdout ends. *)
Definition demo_feed : list (ExecOp (C := Bounded)) :=
  [OWrite 0 [x61; x62]; ORecv 0 true; OOffer 0; OSpawn 1 None; OFeed; OStdin 6; OStdin 4; OFlushed;
   OWrite 0 [x63]; ORecv 0 true; OOffer 0; OFeed; OStdin 3; OStdoutEnd].
(** Another child is up, and its feed is polled. *)
Definition demo_again : list (ExecOp (C := Bounded)) := demo_feed ++ [OKilled 2; OSlept; OSpawn 3 None; OFeed].

(** The child emits on its channel, for the device and on an unknown identity. *)
Definition demo_out : list byte :=
  frame_of (event_data "a" [x70]) ++ frame_of (event_data "" [x71; x72]) ++ frame_of (event_data "zz" [x73]) ++ frame_of (event_data "" [x74]).
Definition demo_emit : list (ExecOp (C := Bounded)) :=
  [OWrite 0 [x61; x62]; ORecv 0 true; OOffer 0; OSpawn 1 None; OStdout demo_out; ODecode true; ODecode true; OGate true; OSent true; ODecode true; ODecode true].

Abbreviation demo_state ops :=
  (exec_run (C := Bounded) ops (exec_new demo_attrs Target ["a"%string] ["a"%string] ∅ ∅ true (Some 3%N) 0)) (only parsing).

Lemma not_stop_check (ops : list (ExecOp (C := Bounded))) :
  forallb (fun op => match op with OStop => false | _ => true end) ops = true -> Forall (.≠ OStop) ops.
Proof. intros H. apply Forall_forall. intros op Hin E. rewrite forallb_forall in H. apply list_elem_of_In, H in Hin. by subst. Qed.

Lemma demo_a_single : NoDup ["a"%string] /\ MUX_CHANNEL ∉ ["a"%string].
Proof. split; [apply NoDup_singleton|]. intros E%list_elem_of_singleton. discriminate E. Qed.

Definition demo_child : Child :=
  mkChild [mkFeed "a" [x61; x62]] (Some (mkFeed "a" [x63])) (take 13 (wire_of [mkFeed "a" [x61; x62]; mkFeed "a" [x63]])) [] [].

Lemma exec_child_hears_witness :
  exists evs d, read_stream [take 4 (c_stdin demo_child); drop 4 (c_stdin demo_child)] decoder_new = Some (evs, NeedMore, d)
    /\ [x61; x62] `prefix_of` payloads "a" evs /\ payloads "a" evs `prefix_of` [x61; x62; x63].
Proof.
  destruct (exec_child_hears (C := Bounded) demo_attrs ["a"%string] ["a"%string] ∅ ∅ true (Some 3%N) 0 demo_feed) as (_ & _ & H).
  - vm_compute. split; discriminate.
  - apply demo_a_single.
  - apply demo_a_single.
  - repeat constructor. vm_compute. discriminate.
  - apply not_stop_check. reflexivity.
  - destruct (H demo_child [take 4 (c_stdin demo_child); drop 4 (c_stdin demo_child)]) as (evs & d & Hr & Hp).
    + vm_compute. apply list_elem_of_here.
    + vm_compute. reflexivity.
    + exists evs, d. split; [exact Hr|]. exact (Hp "a"%string).
Defined.

Lemma exec_teardown_total_witness :
  taken (x_feeds (demo_state demo_again)) = 3 /\ cut_items (demo_state demo_again) = [mkFeed "a" [x63]]
  /\ exists stale, (stale = 0 \/ exists x, x ∈ cut_items (demo_state demo_again) /\ stale = teardown_bytes x)
     /\ 3 + stale = teardown_loss (demo_state (demo_again ++ [OStop; OWrite 0 [x64]])) + 2 + 1.
Proof.
  split; [vm_compute; reflexivity|]. split; [vm_compute; reflexivity|].
  destruct (exec_teardown_total (C := Bounded) demo_attrs ["a"%string] ["a"%string] ∅ ∅ true (Some 3%N) 0 demo_again [OWrite 0 [x64]]) as (_ & stale & H1 & H2).
  - vm_compute. split; discriminate.
  - apply demo_a_single.
  - apply demo_a_single.
  - apply not_stop_check. reflexivity.
  - vm_compute. discriminate.
  - vm_compute. discriminate.
  - assert (taken (x_feeds (demo_state demo_again)) = 3) as E1 by (vm_compute; reflexivity).
    assert (total teardown_bytes (concat (c_done <$> children (demo_state demo_again))) = 2) as E2 by (vm_compute; reflexivity).
    assert (total teardown_bytes (cut_items (demo_state demo_again)) = 1) as E3 by (vm_compute; reflexivity).
    rewrite E1, E2, E3 in H2. exists stale. split; [exact H1|exact H2].
Defined.

(** The same child with a full consumer on its channel, before its first event is routed. *)
Definition demo_slow : gmap string (list (AttachedSink (C := Bounded))) := {["a"%string := [demo_sink 0 "slow"]]}.
Definition demo_undecoded : Exec.Exec (C := Bounded) :=
  exec_run [OSpawn 1 None; OStdout demo_out] (exec_new demo_attrs Target ["a"%string] ["a"%string] demo_slow ∅ true (Some 3%N) 0).

Lemma exec_routes_exact_witness :
  let r := x_routing (demo_state demo_emit) in
  (r_log r).*1 = [("a"%string, 1); ("zz"%string, 1)] /\ u_bytes (unconfigured r) = 1
  /\ total mux_data (events (demo_state demo_emit)) = 3 /\ r_sent r = [(3%N, [x71; x72])] /\ flight (x_phase (demo_state demo_emit)) = 1
  /\ exists s', channel_sinks (x_routing (decode_next true demo_undecoded)) !! "a"%string = Some [s'] /\ dropped_full (s_counters s') = 1.
Proof.
  destruct (exec_routes_exact (C := Bounded) demo_attrs ["a"%string] ["a"%string] ∅ ∅ true (Some 3%N) 0 demo_emit) as (H1 & _ & _ & H4 & H5 & _).
  - vm_compute. split; discriminate.
  - apply demo_a_single.
  - apply demo_a_single.
  - apply not_stop_check. reflexivity.
  - split; [etrans; [exact H1|vm_compute; reflexivity]|]. split; [etrans; [exact H4|vm_compute; reflexivity]|].
    split; [etrans; [exact H5|vm_compute; reflexivity]|]. split; [vm_compute; reflexivity|]. split; [vm_compute; reflexivity|].
    destruct (exec_routes_exact (C := Bounded) demo_attrs ["a"%string] ["a"%string] demo_slow ∅ true (Some 3%N) 0 [OSpawn 1 None; OStdout demo_out])
      as (_ & _ & _ & _ & _ & H6 & _).
    + vm_compute. split; discriminate.
    + apply demo_a_single.
    + apply demo_a_single.
    + apply not_stop_check. reflexivity.
    + destruct (H6 true (mkChild [] None [] [demo_out] []) FRecv (push decoder_new demo_out) (next_event (push decoder_new demo_out)).2
        (event_data "a" [x70]) [x70] [demo_sink 0 "slow"]) as (sinks' & v & Ek & F & _).
      * vm_compute. reflexivity.
      * vm_compute. reflexivity.
      * reflexivity.
      * reflexivity.
      * apply list_elem_of_here.
      * vm_compute. reflexivity.
      * apply Forall2_cons_inv_l in F as (s' & k & [_ [_ [Fd _]]] & F & ->). apply Forall2_nil_inv_l in F as ->.
        exists s'. split; [exact Ek|]. rewrite Fd. vm_compute. reflexivity.
Defined.

Lemma exec_status_coherent_witness :
  exists why, node_status (status (x_ctl (demo_state (demo_feed ++ [OKilled 2])))) = Faulted why /\ shown_count why = Some 1.
Proof.
  destruct (exec_status_coherent (C := Bounded) (fun _ : unit => inr demo_attrs) tt demo_attrs Target ["a"%string] ["a"%string] ∅ ∅ true
    (Some 3%N) 0 (demo_feed ++ [OKilled 2])) as (_ & H).
  - reflexivity.
  - vm_compute. reflexivity.
  - vm_compute. discriminate.
  - apply demo_a_single.
  - apply not_stop_check. reflexivity.
  - assert (x_phase (demo_state (demo_feed ++ [OKilled 2])) = BackingOff 200) as E by (vm_compute; reflexivity).
    assert (c_failed (x_ctl (demo_state (demo_feed ++ [OKilled 2]))) + len (x_past (demo_state (demo_feed ++ [OKilled 2]))) = 1) as N
      by (vm_compute; reflexivity).
    rewrite E in H. destruct H as (_ & _ & _ & _ & why & H1 & H2). exists why. split; [exact H1|]. rewrite <- N. exact H2.
Defined.

(** ** What the counters miss *)

(** The item a child died in is on no counter once the next child's feed is polled: the second chunk was
    accepted, neither child decoded its byte, and a teardown reports nothing. *)
Theorem cut_item_uncounted :
  let e := demo_state (demo_again ++ [OStop]) in
  taken (x_feeds e) = 3 /\ teardown_loss e = 0 /\ uncharged (src (x_feeds e)) = 1 /\ mux_discarded_targetward (x_routing e) = 0 /\ unframable_discarded e = 0
  /\ (fun c => (fun r => payloads "a" r.1.1) <$> read_stream [c_stdin c] decoder_new) <$> children e = [Some [x61; x62]; Some []].
Proof. vm_compute. split_and!; reflexivity. Qed.

(** Device-bound bytes waiting for the lock when stdin breaks are on no counter either. *)
Theorem waiting_bytes_uncounted :
  let e := demo_state (demo_emit ++ [OFeed; OBroke; OKilled 2]) in
  r_cut (x_routing e) = 1 /\ mux_discarded_targetward (x_routing e) = 0 /\ r_sent (x_routing e) = [(3%N, [x71; x72])].
Proof. vm_compute. split_and!; reflexivity. Qed.
