(* ===== verification/SerialLines.v ===== *)
(** * What serial nodes assert on a tty (daemon/src/nodes/serial.rs)

    Exclusivity, break and modem lines are state of the tty, which departed nodes, their
    successors and verbs in flight share.  Here are the nodes' shared cells, the reference-counted
    [ExclusivePort]s, the signal verbs with their lease and restore guard, and the ttys, as one
    world.  A tty is one plugging of one device: after a replug the name leads to another one.
    A step is what the daemon's thread does between two awaits; whether the kernel carries an
    ioctl out may differ from one step to the next, also between setting a line and clearing it.
    Nobody else is assumed to drive the tty. *)

From stdpp Require Import functions.
From S2P Require Import Prelude Config.
#[local] Open Scope Z_scope.

(** ** The device *)

Record Tty := mkTty { t_excl : bool; t_break : bool; t_dtr : bool; t_rts : bool }.

Inductive Line := LExcl | LBreak | LDtr | LRts.

Definition drive (l : Line) (b : bool) (t : Tty) : Tty :=
  match l with
  | LExcl => mkTty b (t_break t) (t_dtr t) (t_rts t)
  | LBreak => mkTty (t_excl t) b (t_dtr t) (t_rts t)
  | LDtr => mkTty (t_excl t) (t_break t) b (t_rts t)
  | LRts => mkTty (t_excl t) (t_break t) (t_dtr t) b
  end.

#[export] Instance line_eq_dec : EqDecision Line.
Proof. solve_decision. Defined.

Definition level (l : Line) (t : Tty) : bool :=
  match l with LExcl => t_excl t | LBreak => t_break t | LDtr => t_dtr t | LRts => t_rts t end.

(** The serial library and the drivers: what an open does to a tty ([A]: what may differ from
    one attempt to the next); and whether the daemon has CAP_SYS_ADMIN. *)
Class SerialDriver (E A : Type) : Type := {
  privileged : bool;
  sp_open : A -> N -> Tty -> E + Tty;
  not_found : E -> bool }.

(** An exclusive tty refuses the opens of an unprivileged process (TIOCEXCL in ioctl_tty(2));
    an open leaves exclusivity and break alone. *)
Class DriverLaws (E A : Type) `{SerialDriver E A} : Prop := {
  open_exclusive a t x y : privileged = false -> sp_open a t x = inr y -> t_excl x = false;
  open_keeps a t x y : sp_open a t x = inr y -> t_excl y = t_excl x /\ t_break y = t_break x }.

(** The errors with which the ioctls of a step fail: on this tty, to set or clear this line. *)
Definition Answers (E : Type) : Type := N -> Line -> bool -> option E.

(** Exclusivity and break are state of the tty that a close leaves standing. *)
Definition outlives (l : Line) : bool := match l with LExcl | LBreak => true | LDtr | LRts => false end.

(** ** The state *)

(** [stored]: a node's cell owns a reference; [clones]: those of futures and of local variables. *)
Record ExclusivePort := mkPort { p_tty : N; claimed : bool; stored : bool; clones : nat }.

Record SerialShared := mkShared { sh_port : option N; generation : Z; signal_in_flight : option Z }.

Inductive Signal := SendBreak | PulseDtr (assert : bool).

(** A verb that holds its line: the generation of its handle, lease and guard. *)
Record Verb := mkVerb { v_node : N; v_gen : Z; v_signal : Signal }.

Inductive SignalError (E : Type) := Io (e : E) | NodeGone | LineBusy.
Arguments Io {E} _.
Arguments NodeGone {E}.
Arguments LineBusy {E}.

(** [owed]: a clear of this line failed while it stood, and the code let the error go
    (history: [release_claims] and [Drop for RestoreGuard] are best effort). *)
Record World := mkWorld {
  ttys : N -> Tty; ports : gmap N ExclusivePort; nodes : gmap N SerialShared; verbs : gmap N Verb;
  owed : N -> Line -> bool }.

Definition set_ttys (f : (N -> Tty) -> N -> Tty) (w : World) : World :=
  mkWorld (f (ttys w)) (ports w) (nodes w) (verbs w) (owed w).
Definition put_port (pid : N) (p : ExclusivePort) (w : World) : World :=
  mkWorld (ttys w) (<[pid := p]> (ports w)) (nodes w) (verbs w) (owed w).
Definition put_node (n : N) (sh : SerialShared) (w : World) : World :=
  mkWorld (ttys w) (ports w) (<[n := sh]> (nodes w)) (verbs w) (owed w).
Definition set_verbs (f : gmap N Verb -> gmap N Verb) (w : World) : World :=
  mkWorld (ttys w) (ports w) (nodes w) (f (verbs w)) (owed w).
Definition owe (t : N) (l : Line) (b : bool) (w : World) : World :=
  mkWorld (ttys w) (ports w) (nodes w) (verbs w)
    (fun u l' => if bool_decide (u = t /\ l' = l) then b else owed w u l').

Definition put_in_flight (n : N) (g : option Z) (w : World) : World :=
  match nodes w !! n with
  | Some sh => put_node n (mkShared (sh_port sh) (generation sh) g) w
  | None => w
  end.

Section lines.
Context {E A : Type} `{DriverLaws E A}.
Abbreviation Signalled := (SignalError E + unit)%type (only parsing).

Section step.
Variable o : Answers E.

(** ** Ports *)

(** The debt of a failed clear is settled by the next clear that the kernel carries out. *)
Definition ioctl (t : N) (l : Line) (b : bool) (w : World) : (E + unit) * World :=
  match o t l b with
  | Some e => (inl e, if negb b && outlives l && level l (ttys w t) then owe t l true w else w)
  | None => (inr tt, let w := set_ttys (alter (drive l b) t) w in if negb b && outlives l then owe t l false w else w)
  end.

Definition unclaim (p : ExclusivePort) : ExclusivePort := mkPort (p_tty p) false (stored p) (clones p).

Definition release_claims (pid : N) (w : World) : World :=
  match ports w !! pid with
  | Some p =>
      if claimed p then (ioctl (p_tty p) LExcl false (ioctl (p_tty p) LBreak false (put_port pid (unclaim p) w)).2).2 else w
  | None => w
  end.

(** A reference goes; the last one runs [Drop for ExclusivePort]. *)
Definition drop_rc (pid : N) (p : ExclusivePort) (w : World) : World :=
  let w := put_port pid p w in
  if stored p || negb (clones p =? 0)%nat then w else release_claims pid w.

Definition drop_clone (pid : N) (w : World) : World :=
  match ports w !! pid with
  | Some p => drop_rc pid (mkPort (p_tty p) (claimed p) (stored p) (pred (clones p))) w
  | None => w
  end.

Definition drop_stored (pid : N) (w : World) : World :=
  match ports w !! pid with
  | Some p => drop_rc pid (mkPort (p_tty p) (claimed p) false (clones p)) w
  | None => w
  end.

(** An asked-for level, and a pair of them, as [open_port] and [set_modem] drive them. *)
Definition drive_opt (t : N) (l : Line) (b : option bool) (w : World) : (E + unit) * World :=
  match b with Some b => ioctl t l b w | None => (inr tt, w) end.

Definition drive_modem (t : N) (d r : option bool) (w : World) : (E + unit) * World :=
  match drive_opt t LDtr d w with
  | (inl e, w) => (inl e, w)
  | (inr _, w) => drive_opt t LRts r w
  end.

(** The result is the new port's one reference; [pid] is its identity. *)
Definition open_port (pid t : N) (modem : ModemLines) (a : A) (w : World) : (E + unit) * World :=
  match sp_open a t (ttys w t) with
  | inl e => (inl e, w)
  | inr x =>
      match ioctl t LExcl true (set_ttys <[t := x]> w) with
      | (inl e, w) => (inl e, w)
      | (inr _, w) =>
          match drive_modem t (dtr modem) (rts modem) (put_port pid (mkPort t true false 1) w) with
          | (inl e, w) => (inl e, drop_clone pid w)
          | (inr _, w) => (inr tt, w)
          end
      end
  end.

(** ** The node's cell *)

(** The cell takes over a reference of the incoming port; the outgoing one's goes to the caller. *)
Definition set_port (n : N) (port : option N) (w : World) : option N * World :=
  match nodes w !! n with
  | Some sh => (sh_port sh, put_node n (mkShared port (u64_wrapping_add (generation sh) 1) (signal_in_flight sh)) w)
  | None => (None, w)
  end.

Definition release_port (n : N) (w : World) : World :=
  match set_port n None w with
  | (Some pid, w) => drop_stored pid (release_claims pid w)
  | (None, w) => w
  end.

(** The cell's reference of a port just opened, besides [k] others. *)
Definition store (k : nat) (pid : N) (w : World) : World :=
  match ports w !! pid with
  | Some p => put_port pid (mkPort (p_tty p) (claimed p) true k) w
  | None => w
  end.

Definition create (n pid : N) (modem : ModemLines) (path : option (N * A)) (w : World) : World :=
  match path with
  | Some (t, a) =>
      match open_port pid t modem a w with
      | (inr _, w) => store 0 pid (put_node n (mkShared (Some pid) 0 None) w)
      | (inl _, w) => put_node n (mkShared None 0 None) w
      end
  | None => put_node n (mkShared None 0 None) w
  end.

Definition adopt_port (n pid : N) (w : World) : World :=
  match set_port n (Some pid) (store 1 pid w) with
  | (Some outgoing, w) => drop_stored outgoing w
  | (None, w) => w
  end.

(** [reopen] up to its first await; a fault releases the node's port. *)
Definition reopen (n pid t : N) (modem : ModemLines) (a : A) (w : World) : World :=
  match open_port pid t modem a w with
  | (inl e, w) => if not_found e then w else release_port n w
  | (inr _, w) => adopt_port n pid w
  end.

(** ** Signal verbs *)

Definition signal_handle (n : N) (w : World) : option Z :=
  match nodes w !! n with
  | Some sh => match sh_port sh with Some _ => Some (generation sh) | None => None end
  | None => None
  end.

Definition with_scoped_port (n : N) (g : Z) (w : World) : option ExclusivePort :=
  match nodes w !! n with
  | Some sh => match sh_port sh with Some pid => if generation sh =? g then ports w !! pid else None | None => None end
  | None => None
  end.

Definition try_port (n : N) (g : Z) (f : N -> World -> (E + unit) * World) (w : World) : Signalled * World :=
  match with_scoped_port n g w with
  | Some p => match f (p_tty p) w with (inl e, w) => (inl (Io e), w) | (inr _, w) => (inr tt, w) end
  | None => (inl NodeGone, w)
  end.

Definition claim_line (n : N) (g : Z) (w : World) : Signalled * World :=
  match nodes w !! n with
  | Some sh =>
      if bool_decide (sh_port sh = None) || negb (generation sh =? g) then (inl NodeGone, w)
      else if bool_decide (signal_in_flight sh = Some (generation sh)) then (inl LineBusy, w)
      else (inr tt, put_in_flight n (Some (generation sh)) w)
  | None => (inl NodeGone, w)
  end.

(** [Drop for LineLease] *)
Definition drop_lease (n : N) (g : Z) (w : World) : World :=
  match nodes w !! n with
  | Some sh => if bool_decide (signal_in_flight sh = Some g) then put_in_flight n None w else w
  | None => w
  end.

Definition asserts (s : Signal) : Line * bool := match s with SendBreak => (LBreak, true) | PulseDtr a => (LDtr, a) end.
Definition restores (s : Signal) : Line * bool :=
  match s with SendBreak => (LBreak, false) | PulseDtr a => (LDtr, negb a) end.

(** [Drop for RestoreGuard] *)
Definition drop_guard (v : Verb) (w : World) : World :=
  (try_port (v_node v) (v_gen v) (fun t => ioctl t (restores (v_signal v)).1 (restores (v_signal v)).2) w).2.

(** [send_break] and [pulse_dtr] up to their hold. *)
Definition signal (v n : N) (g : Z) (s : Signal) (w : World) : Signalled * World :=
  match claim_line n g w with
  | (inl e, w) => (inl e, w)
  | (inr _, w) =>
      match try_port n g (fun t => ioctl t (asserts s).1 (asserts s).2) w with
      | (inl e, w) => (inl e, drop_lease n g w)
      | (inr _, w) => (inr tt, set_verbs <[v := mkVerb n g s]> w)
      end
  end.

(** What [hold] answers when it is over. *)
Definition hold (v : Verb) (w : World) : Signalled :=
  match with_scoped_port (v_node v) (v_gen v) w with Some _ => inr tt | None => inl NodeGone end.

(** The verb ends or is cancelled: the guard goes, then the lease. *)
Definition end_verb (v : N) (w : World) : World :=
  match verbs w !! v with
  | Some vb => drop_lease (v_node vb) (v_gen vb) (drop_guard vb (set_verbs (delete v) w))
  | None => w
  end.

Definition set_modem (n : N) (g : Z) (d r : option bool) (w : World) : Signalled * World :=
  try_port n g (fun t => drive_modem t d r) w.

(** ** Runs *)

(** Identities are those of fresh allocations.  A supervisor reopens only when its node has no port
    (Serial.v); it clones the port it finds in the cell.  [WRelease] is [set_waiting], [fault] or [teardown].
    [WLastClose]: no process has tty [t] open any more, so its exclusivity ends; what the driver does
    with break and the modem lines is its own. *)
Inductive WorldOp :=
| WCreate (n pid : N) (modem : ModemLines) (path : option (N * A))
| WReopen (n pid t : N) (modem : ModemLines) (a : A)
| WClone (n : N)
| WDrop (pid : N)
| WRelease (n : N)
| WSignal (v n : N) (s : Signal)
| WEnd (v : N)
| WModem (n : N) (d r : option bool)
| WLastClose (t : N) (brk d r : bool).

Definition closed_everywhere (t : N) (w : World) : Prop :=
  map_Forall (fun _ p => p_tty p = t -> stored p = false /\ clones p = 0%nat) (ports w).

Definition last_close (t : N) (brk d r : bool) (w : World) : World :=
  let brk := t_break (ttys w t) && brk in
  owe t LExcl false (owe t LBreak (owed w t LBreak && brk) (set_ttys <[t := mkTty false brk d r]> w)).

Definition world_step (op : WorldOp) (w : World) : World :=
  match op with
  | WCreate n pid modem path =>
      match nodes w !! n, ports w !! pid with None, None => create n pid modem path w | _, _ => w end
  | WReopen n pid t modem a =>
      match nodes w !! n, ports w !! pid with
      | Some sh, None => if bool_decide (sh_port sh = None) then reopen n pid t modem a w else w
      | _, _ => w
      end
  | WClone n =>
      match nodes w !! n with
      | Some sh =>
          match sh_port sh with
          | Some pid =>
              match ports w !! pid with
              | Some p => put_port pid (mkPort (p_tty p) (claimed p) (stored p) (S (clones p))) w
              | None => w
              end
          | None => w
          end
      | None => w
      end
  | WDrop pid =>
      match ports w !! pid with Some p => if (clones p =? 0)%nat then w else drop_clone pid w | None => w end
  | WRelease n => release_port n w
  | WSignal v n s =>
      match verbs w !! v, signal_handle n w with None, Some g => (signal v n g s w).2 | _, _ => w end
  | WEnd v => end_verb v w
  | WModem n d r => match signal_handle n w with Some g => (set_modem n g d r w).2 | None => w end
  | WLastClose t brk d r => if bool_decide (closed_everywhere t w) then last_close t brk d r w else w
  end.

(** Nobody holds anything yet. *)
Definition world_new (levels : N -> bool * bool) : World :=
  mkWorld (fun t => mkTty false false (levels t).1 (levels t).2) ∅ ∅ ∅ (fun _ _ => false).

(** ** The invariant *)

Definition publishes (w : World) (n pid : N) : Prop := exists sh, nodes w !! n = Some sh /\ sh_port sh = Some pid.

(** Verb [v] holds its line on tty [t]: its node still has the port it was issued on. *)
Definition holding (w : World) (v : N) (s : Signal) (t : N) : Prop :=
  exists vb sh pid p, verbs w !! v = Some vb /\ v_signal vb = s /\ nodes w !! v_node vb = Some sh /\
    generation sh = v_gen vb /\ sh_port sh = Some pid /\ ports w !! pid = Some p /\ p_tty p = t.

(** What is owed still stands. *)
Definition debts_ok (w : World) : Prop := forall t l, owed w t l = true -> outlives l = true /\ level l (ttys w t) = true.

Record world_ok (k : Z) (w : World) : Prop := {
  wo_published n pid : publishes w n pid -> exists p, ports w !! pid = Some p /\ claimed p = true /\ stored p = true;
  wo_owned pid p : ports w !! pid = Some p -> claimed p = true \/ stored p = true -> exists n, publishes w n pid;
  wo_owner n n' pid : publishes w n pid -> publishes w n' pid -> n = n';
  wo_one pid pid' p p' : privileged = false -> ports w !! pid = Some p -> ports w !! pid' = Some p' -> claimed p = true -> claimed p' = true ->
    p_tty p = p_tty p' -> pid = pid';
  wo_claim pid p : privileged = false -> ports w !! pid = Some p -> claimed p = true -> t_excl (ttys w (p_tty p)) = true;
  wo_excl t : t_excl (ttys w t) = true ->
    owed w t LExcl = true \/ exists pid p, ports w !! pid = Some p /\ claimed p = true /\ p_tty p = t;
  wo_break t : t_break (ttys w t) = true -> owed w t LBreak = true \/ exists v, holding w v SendBreak t;
  wo_held v t : privileged = false -> holding w v SendBreak t -> t_break (ttys w t) = true;
  wo_debt : debts_ok w;
  wo_gen n sh : nodes w !! n = Some sh -> 0 <= generation sh <= k;
  wo_verb v vb : verbs w !! v = Some vb -> exists sh, nodes w !! v_node vb = Some sh /\ v_gen vb <= generation sh /\
    (v_gen vb = generation sh -> signal_in_flight sh = Some (generation sh));
  wo_alone v v' vb vb' : verbs w !! v = Some vb -> verbs w !! v' = Some vb' -> v_node vb = v_node vb' ->
    v_gen vb = v_gen vb' -> v = v' }.

(** ** Lemmas *)

Lemma level_drive l l' b t : level l' (drive l b t) = if decide (l' = l) then b else level l' t.
Proof. by destruct l, l'. Qed.

Lemma ioctl_world t l b w :
  ports (ioctl t l b w).2 = ports w /\ nodes (ioctl t l b w).2 = nodes w /\ verbs (ioctl t l b w).2 = verbs w.
Proof. unfold ioctl. by destruct (o t l b), (_ && _). Qed.

Lemma ioctl_level t l b w u l' :
  level l' (ttys (ioctl t l b w).2 u)
  = if decide (u = t /\ l' = l /\ o t l b = None) then b else level l' (ttys w u).
Proof.
  unfold ioctl. destruct (o t l b) eqn:R; cbn.
  - rewrite decide_False by (intros (_ & _ & [=])). by destruct (_ && _).
  - transitivity (level l' (alter (drive l b) t (ttys w) u)); [by destruct (_ && _)|].
    destruct (decide (u = t)) as [->|N]; [|rewrite fn_lookup_alter_ne by done; by rewrite decide_False by naive_solver].
    rewrite fn_lookup_alter, level_drive. destruct (decide (l' = l)) as [->|N].
    + by rewrite decide_True.
    + by rewrite decide_False by naive_solver.
Qed.

Lemma ioctl_owed t l b w u l' :
  owed (ioctl t l b w).2 u l'
  = if decide (u = t /\ l' = l /\ negb b && outlives l = true)
    then match o t l b with Some _ => level l (ttys w t) || owed w t l | None => false end else owed w u l'.
Proof.
  unfold ioctl. destruct (o t l b) eqn:R; cbn.
  - destruct (_ && outlives l) eqn:B, (level l (ttys w t)) eqn:V; cbn; try rewrite (decide_False (P := _ /\ _ /\ false = true)) by naive_solver; try done;
      repeat case_bool_decide; repeat case_decide; naive_solver.
  - destruct (_ && outlives l) eqn:B; cbn; [case_bool_decide|]; repeat case_decide; naive_solver.
Qed.

Lemma ioctl_clear t l w :
  outlives l = true -> level l (ttys (ioctl t l false w).2 t) = true -> owed (ioctl t l false w).2 t l = true.
Proof.
  intros Ho. rewrite ioctl_level, ioctl_owed, (decide_True (P := _ /\ _ /\ negb false && _ = true)) by done. destruct (o t l false).
  - rewrite decide_False by (intros (_ & _ & [=])). by intros ->.
  - by rewrite decide_True.
Qed.

(** Nothing that outlives the port is asserted, and what is not cleared is owed. *)
Record settles (w w' : World) : Prop := {
  se_on u l : outlives l = true -> level l (ttys w' u) = true -> level l (ttys w u) = true \/ owed w' u l = true;
  se_owed u l : outlives l = true -> level l (ttys w' u) = true -> owed w u l = true -> owed w' u l = true;
  se_debt : debts_ok w -> debts_ok w';
  se_origin u l : owed w' u l = true -> owed w u l = true \/ o u l false <> None }.

Lemma settles_eq w w' : ttys w' = ttys w -> owed w' = owed w -> settles w w'.
Proof. intros ET EO. split; unfold debts_ok; rewrite ?ET, ?EO; auto. Qed.

Lemma settles_comp w1 w2 w3 : settles w1 w2 -> settles w2 w3 -> settles w1 w3.
Proof.
  intros [A1 A2 A3 A4] [B1 B2 B3 B4]. split; [| |by auto|].
  - intros u l Ho Hl. destruct (B1 u l Ho Hl) as [Hl'|]; [|by right]. destruct (A1 u l Ho Hl'); auto.
  - intros u l Ho Hl Hw. destruct (B1 u l Ho Hl) as [Hl'|]; [|done]. auto.
  - intros u l [H3|H3]%B4; auto.
Qed.

Lemma settles_ioctl t l b w : b && outlives l = false -> settles w (ioctl t l b w).2.
Proof.
  intros B. split; intros *; rewrite ?ioctl_level, ?ioctl_owed.
  - repeat case_decide; naive_solver.
  - repeat case_decide; destruct b; try naive_solver. destruct (o t l false); intros; [|naive_solver]. by apply orb_true_iff; naive_solver.
  - intros D u l'. rewrite ioctl_level, ioctl_owed. specialize (D u l'). destruct (decide (_ /\ _ /\ negb b && _ = true)) as [(-> & -> & Hb)|N].
    + apply andb_true_iff in Hb as [Hb Ho]. destruct (o t l b) eqn:R; [|done]. rewrite decide_False by naive_solver. intros [|]%orb_true_iff; auto.
    + intros [D1 D2]%D. split; [done|]. destruct (decide _) as [(-> & -> & _)|]; [|done]. destruct b; [done|]. destruct N. by rewrite D1.
  - case_decide as D; [|by left]. destruct D as (-> & -> & [Hb _]%andb_true_iff). destruct b; [done|].
    destruct (o t l false) eqn:R; [|done]. rewrite ?R. by right.
Qed.

(** What the invariant sees of a port. *)
Definition same_port (p p' : ExclusivePort) : Prop := p_tty p = p_tty p' /\ claimed p = claimed p' /\ stored p = stored p'.

(** Nothing the invariant speaks of is added: clones, modem lines and dead ports may differ; on a tty
    that no port claims, exclusivity and break may end. *)
Record frame (w w' : World) : Prop := {
  fr_nodes : nodes w' = nodes w;
  fr_verbs : verbs w' = verbs w;
  fr_old pid p : ports w !! pid = Some p -> exists p', ports w' !! pid = Some p' /\ same_port p p';
  fr_new pid p' : ports w' !! pid = Some p' -> claimed p' = true \/ stored p' = true ->
    exists p, ports w !! pid = Some p /\ same_port p p';
  fr_settles : settles w w';
  fr_keep pid p l : privileged = false -> ports w !! pid = Some p -> claimed p = true -> t_excl (ttys w (p_tty p)) = true ->
    outlives l = true -> level l (ttys w (p_tty p)) = true -> level l (ttys w' (p_tty p)) = true }.

(** A step that leaves ports, cells and verbs alone. *)
Lemma frame_ttys w w' :
  ports w' = ports w -> nodes w' = nodes w -> verbs w' = verbs w -> settles w w' ->
  (forall pid p l, privileged = false -> ports w !! pid = Some p -> claimed p = true -> t_excl (ttys w (p_tty p)) = true ->
    outlives l = true -> level l (ttys w (p_tty p)) = true -> level l (ttys w' (p_tty p)) = true) ->
  frame w w'.
Proof. intros EP EN EV Se K. split; try done; rewrite EP; intros pid p Hp; [|intros _]; by exists p. Qed.

Lemma frame_refl w : frame w w.
Proof. apply frame_ttys; try done. by apply settles_eq. Qed.

Lemma frame_trans w1 w2 w3 : frame w1 w2 -> frame w2 w3 -> frame w1 w3.
Proof.
  intros F G. split.
  - by rewrite (fr_nodes _ _ G), (fr_nodes _ _ F).
  - by rewrite (fr_verbs _ _ G), (fr_verbs _ _ F).
  - intros pid p Hp. destruct (fr_old _ _ F _ _ Hp) as (p' & Hp' & S1). destruct (fr_old _ _ G _ _ Hp') as (p'' & Hp'' & S2).
    exists p''. split; [done|]. unfold same_port in *. intuition congruence.
  - intros pid p Hp Hc. destruct (fr_new _ _ G _ _ Hp Hc) as (p' & Hp' & S1). pose proof S1 as (E1 & E2 & E3).
    rewrite <- E2, <- E3 in Hc. destruct (fr_new _ _ F _ _ Hp' Hc) as (p'' & Hp'' & S2).
    exists p''. split; [done|]. unfold same_port in *. intuition congruence.
  - by eapply settles_comp; [apply F|apply G].
  - intros pid p l Hpr Hp Hc Hx Ho Hl. pose proof (fr_keep _ _ F pid p LExcl Hpr Hp Hc Hx eq_refl Hx) as Hx'.
    pose proof (fr_keep _ _ F pid p l Hpr Hp Hc Hx Ho Hl) as Hl'. destruct (fr_old _ _ F _ _ Hp) as (p' & Hp' & S1 & S2 & _).
    rewrite S1 in *. apply (fr_keep _ _ G pid p'); try done. congruence.
Qed.

(** Driving a modem line. *)
Lemma frame_ioctl t l b w : outlives l = false -> frame w (ioctl t l b w).2.
Proof.
  intros N. destruct (ioctl_world t l b w) as (E1 & E2 & E3). apply frame_ttys; [done..|apply settles_ioctl; by destruct b|].
  intros pid p l' _ _ _ _ Ho. rewrite ioctl_level, decide_False; [done|]. intros (_ & -> & _). congruence.
Qed.

Lemma frame_drive_opt t l b w : outlives l = false -> frame w (drive_opt t l b w).2.
Proof. destruct b; cbn; [apply frame_ioctl|intros _; apply frame_refl]. Qed.

Lemma frame_modem t d r w : frame w (drive_modem t d r w).2.
Proof.
  unfold drive_modem. pose proof (frame_drive_opt t LDtr d w eq_refl) as F1. destruct (drive_opt t LDtr d w) as [[e|u] w1]; cbn in *; [done|].
  eapply frame_trans; [exact F1|]. by apply frame_drive_opt.
Qed.

Lemma world_ok_frame k w w' : world_ok k w -> frame w w' -> world_ok k w'.
Proof.
  intros O F. pose proof (fr_nodes _ _ F) as EN. pose proof (fr_verbs _ _ F) as EV. pose proof (fr_settles _ _ F) as Se.
  assert (P : forall n pid, publishes w' n pid <-> publishes w n pid) by (intros n pid; unfold publishes; by rewrite EN).
  assert (C : forall pid p', ports w' !! pid = Some p' -> claimed p' = true -> exists p, ports w !! pid = Some p /\ claimed p = true /\ p_tty p = p_tty p').
  { intros pid p' Hp Hc. destruct (fr_new _ _ F pid p') as (p & Hp' & S1 & S2 & S3); [done|by left|]. exists p. by rewrite S2. }
  split.
  - intros n pid (p & Hp & Hc & Hs)%P%(wo_published _ _ O). destruct (fr_old _ _ F _ _ Hp) as (p' & Hp' & S1 & S2 & S3).
    exists p'. by rewrite <- S2, <- S3.
  - intros pid p' Hp Hc. destruct (fr_new _ _ F _ _ Hp Hc) as (p & Hp' & S1 & S2 & S3). rewrite <- S2, <- S3 in Hc.
    destruct (wo_owned _ _ O _ _ Hp' Hc) as [n Hn]. exists n. by apply P.
  - intros n n' pid P1%P P2%P. by eapply wo_owner.
  - intros pid pid' p p' Hpr Hp Hp' Hc Hc' Ht. destruct (C _ _ Hp Hc) as (q & Hq & Hqc & E1). destruct (C _ _ Hp' Hc') as (q' & Hq' & Hqc' & E2).
    eapply (wo_one _ _ O); [done|exact Hq|exact Hq'|done|done|congruence].
  - intros pid p' Hpr Hp Hc. destruct (C _ _ Hp Hc) as (p & Hp' & Hc' & <-). pose proof (wo_claim _ _ O _ _ Hpr Hp' Hc').
    by apply (fr_keep _ _ F pid p LExcl).
  - intros t Ht. destruct (se_on _ _ Se t LExcl) as [Hl|]; [done|done| |by left].
    destruct (wo_excl _ _ O _ Hl) as [Ho|(pid & p & Hp & Hc & <-)]; [left; by apply (se_owed _ _ Se)|].
    destruct (fr_old _ _ F _ _ Hp) as (p' & Hp' & S1 & S2 & S3). right. exists pid, p'. split_and!; [done|congruence|done].
  - intros t Ht. destruct (se_on _ _ Se t LBreak) as [Hl|]; [done|done| |by left].
    destruct (wo_break _ _ O _ Hl) as [Ho|(v & vb & sh & pid & p & H1 & H2 & H3 & H4 & H5 & H6 & H7)]; [left; by apply (se_owed _ _ Se)|].
    right. destruct (fr_old _ _ F _ _ H6) as (p' & Hp' & S1 & S2 & S3).
    exists v, vb, sh, pid, p'. rewrite EV, EN. split_and!; try done. congruence.
  - intros v t Hpr (vb & sh & pid & p' & H1 & H2 & H3 & H4 & H5 & H6 & H7). rewrite EV in H1. rewrite EN in H3.
    destruct (wo_published _ _ O (v_node vb) pid) as (p & Hp & Hc & _); [by exists sh|].
    destruct (fr_old _ _ F _ _ Hp) as (q & Hq & S1 & _). replace q with p' in * by congruence. rewrite <- H7, <- S1.
    apply (fr_keep _ _ F pid p LBreak); [done..|by apply (wo_claim _ _ O pid)|done|]. apply (wo_held _ _ O v); [done|].
    exists vb, sh, pid, p. split_and!; congruence.
  - apply (se_debt _ _ Se), O.
  - rewrite EN. apply O.
  - rewrite EV, EN. apply O.
  - rewrite EV. apply O.
Qed.

Lemma modem_world t d r w :
  ports (drive_modem t d r w).2 = ports w /\ nodes (drive_modem t d r w).2 = nodes w /\ verbs (drive_modem t d r w).2 = verbs w.
Proof.
  assert (F : forall l b w, ports (drive_opt t l b w).2 = ports w /\ nodes (drive_opt t l b w).2 = nodes w
                            /\ verbs (drive_opt t l b w).2 = verbs w).
  { intros l [b|] w'; cbn; [apply ioctl_world|done]. }
  unfold drive_modem. pose proof (F LDtr d w) as (E1 & E2 & E3). destruct (drive_opt t LDtr d w) as [[e|u] w1]; cbn in *; [done|].
  pose proof (F LRts r w1) as (E1' & E2' & E3'). split_and!; congruence.
Qed.

(** Modem ioctls leave exclusivity, break and the debts alone. *)
Lemma modem_level t d r w u l :
  (outlives l = true -> level l (ttys (drive_modem t d r w).2 u) = level l (ttys w u))
  /\ owed (drive_modem t d r w).2 u l = owed w u l.
Proof.
  assert (F : forall l' b w, outlives l' = false ->
    (outlives l = true -> level l (ttys (drive_opt t l' b w).2 u) = level l (ttys w u)) /\ owed (drive_opt t l' b w).2 u l = owed w u l).
  { intros l' [b|] w' L; cbn; [|done]. rewrite ioctl_level, ioctl_owed, L, andb_false_r. rewrite (decide_False (P := _ /\ _ /\ false = true)) by naive_solver.
    split; [|done]. intros Hl. rewrite decide_False; [done|]. intros (_ & -> & _). congruence. }
  unfold drive_modem. destruct (F LDtr d w eq_refl) as [F1 F2]. destruct (drive_opt t LDtr d w) as [[e|?] w1]; cbn in *; [done|].
  destruct (F LRts r w1 eq_refl) as [F3 F4]. rewrite F4. split; [|done]. intros Hl. by rewrite F3, F1.
Qed.

(** The release of a claim: what it cannot clear is owed. *)
Lemma release_claims_spec pid p w :
  ports w !! pid = Some p ->
  let w' := release_claims pid w in
  ports w' = <[pid := unclaim p]> (ports w) /\ nodes w' = nodes w /\ verbs w' = verbs w /\ settles w w' /\
  (forall u l, level l (ttys w' u)
    = if decide (claimed p = true /\ u = p_tty p /\ outlives l = true /\ o u l false = None) then false else level l (ttys w u)) /\
  (forall l, claimed p = true -> outlives l = true -> level l (ttys w' (p_tty p)) = true -> owed w' (p_tty p) l = true) /\
  (forall u l, u <> p_tty p -> owed w' u l = owed w u l).
Proof.
  intros Hp. unfold release_claims. rewrite Hp. destruct (claimed p) eqn:C; cbn.
  - set (w0 := put_port pid (unclaim p) w).
    split_and!; [by rewrite !(proj1 (ioctl_world _ _ _ _))|by rewrite !(proj1 (proj2 (ioctl_world _ _ _ _)))
      |by rewrite !(proj2 (proj2 (ioctl_world _ _ _ _)))|..].
    + apply (settles_comp _ w0); [by apply settles_eq|].
      eapply settles_comp; [by apply (settles_ioctl (p_tty p) LBreak false)|by apply settles_ioctl].
    + intros u l. rewrite !ioctl_level. change (ttys w0) with (ttys w). destruct l; repeat case_decide; cbn in *; try done; naive_solver.
    + intros [] _ Ho; try done; [by apply ioctl_clear|]. rewrite ioctl_level, ioctl_owed, !decide_False by naive_solver. by apply ioctl_clear.
    + intros u l N. rewrite !ioctl_owed. by repeat rewrite decide_False by naive_solver.
  - split_and!; [|done|done|by apply settles_eq| |done|done].
    + symmetry. apply insert_id. rewrite Hp. destruct p; cbn in *. by subst.
    + intros u l. by rewrite decide_False by naive_solver.
Qed.

(** A claim taken and given up again. *)
Lemma frame_reclaim pid t w w4 :
  ports w !! pid = None -> (privileged = false -> t_excl (ttys w t) = false) ->
  ports w4 = <[pid := mkPort t true false 0]> (ports w) -> nodes w4 = nodes w -> verbs w4 = verbs w ->
  (forall u l, outlives l = true -> level l (ttys w4 u) = if decide (u = t /\ l = LExcl) then true else level l (ttys w u)) ->
  (forall u l, owed w4 u l = owed w u l) ->
  frame w (release_claims pid w4).
Proof.
  intros Hp Hx EP EN EV EL EO.
  destruct (release_claims_spec pid (mkPort t true false 0) w4) as (R1 & R2 & R3 & Se & R4 & R5 & _); [by rewrite EP, lookup_insert_eq|].
  cbn in *. split; [congruence|congruence|..].
  - rewrite R1, EP. intros pid' p' Hp'. exists p'. split; [|done]. rewrite !lookup_insert_ne by congruence. done.
  - rewrite R1, EP. intros pid' p' Hp' Hc. destruct (decide (pid = pid')) as [<-|N].
    + rewrite lookup_insert_eq in Hp'. injection Hp' as <-. cbn in Hc. by destruct Hc.
    + rewrite !lookup_insert_ne in Hp' by done. by exists p'.
  - split.
    + intros u l Ho Hl. destruct (se_on _ _ Se u l Ho Hl) as [H4|]; [|by right]. rewrite EL in H4 by done.
      destruct (decide _) as [[-> ->]|]; [right; auto|by left].
    + intros u l Ho Hl Hw. apply (se_owed _ _ Se); [done..|by rewrite EO].
    + intros D. apply (se_debt _ _ Se). intros u l. rewrite EO. intros [Ho Hl]%D. split; [done|]. rewrite EL by done. by destruct (decide (u = t /\ _)).
    + intros u l Hw. destruct (se_origin _ _ Se _ _ Hw) as [Hw'|]; [left; by rewrite <- EO|by right].
  - intros pid' p l Hpr Hp' Hc Hx' Ho Hl. rewrite R4. rewrite decide_False by (intros (_ & <- & _); rewrite Hx in Hx'; done).
    rewrite EL by done. by destruct (decide (_ /\ l = LExcl)).
Qed.

(** An open that fails leaves nothing behind; one that succeeds found the tty free (to an
    unprivileged daemon) and claimed it. *)
Lemma open_port_spec pid t modem a w :
  ports w !! pid = None ->
  match open_port pid t modem a w with
  | (inl _, w') => frame w w'
  | (inr _, w') =>
      ports w' = <[pid := mkPort t true false 1]> (ports w) /\ nodes w' = nodes w /\ verbs w' = verbs w /\
      (privileged = false -> t_excl (ttys w t) = false) /\
      (forall u l, outlives l = true -> level l (ttys w' u) = if decide (u = t /\ l = LExcl) then true else level l (ttys w u)) /\
      (forall u l, owed w' u l = owed w u l)
  end.
Proof.
  intros Hp. unfold open_port. destruct (sp_open a t (ttys w t)) as [e|x] eqn:Eo; [apply frame_refl|].
  pose proof (fun Hpr => open_exclusive _ _ _ _ Hpr Eo) as Ex. destruct (open_keeps _ _ _ _ Eo) as [Kx Kb].
  set (w0 := set_ttys <[t := x]> w).
  assert (K : forall u l, outlives l = true -> level l (ttys w0 u) = level l (ttys w u)).
  { intros u l. cbn. destruct (decide (t = u)) as [<-|N]; [rewrite fn_lookup_insert; by destruct l|by rewrite fn_lookup_insert_ne by done]. }
  assert (F0 : frame w w0).
  { apply frame_ttys; try done; [|intros pid' p l _ _ _ _ Ho; by rewrite K]. split; [intros u l Ho; rewrite K by done; auto|done| |auto].
    intros D u l [Ho Hl]%D. by rewrite K. }
  pose proof (fun u l => ioctl_level t LExcl true w0 u l) as L1. pose proof (fun u l => ioctl_owed t LExcl true w0 u l) as O1.
  destruct (ioctl_world t LExcl true w0) as (I1 & I2 & I3).
  destruct (ioctl t LExcl true w0) as [[e|[]] w1] eqn:E1; unfold ioctl in E1; destruct (o t LExcl true) as [e'|] eqn:R; try discriminate E1.
  { cbn in E1. injection E1 as <- <-. exact F0. }
  clear E1. cbn [snd] in L1, O1, I1, I2, I3. set (w2 := put_port pid (mkPort t true false 1) w1).
  pose proof (modem_world t (dtr modem) (rts modem) w2) as (M1 & M2 & M3).
  pose proof (fun u l => modem_level t (dtr modem) (rts modem) w2 u l) as ML.
  destruct (drive_modem t (dtr modem) (rts modem) w2) as [r w3]; cbn [snd] in M1, M2, M3, ML.
  assert (L3 : forall u l, outlives l = true -> level l (ttys w3 u) = if decide (u = t /\ l = LExcl) then true else level l (ttys w u)).
  { intros u l Ho. rewrite (proj1 (ML u l) Ho). cbn. rewrite L1, K by done. repeat case_decide; naive_solver. }
  assert (O3 : forall u l, owed w3 u l = owed w u l).
  { intros u l. rewrite (proj2 (ML u l)). cbn. rewrite O1. by rewrite decide_False by naive_solver. }
  assert (P3 : ports w3 = <[pid := mkPort t true false 1]> (ports w)) by (rewrite M1; cbn; by rewrite I1).
  cbn in M2, M3. rewrite I2 in M2. rewrite I3 in M3. destruct r as [e|[]]; [|by split_and!].
  unfold drop_clone. rewrite P3, lookup_insert_eq. unfold drop_rc. cbn. apply (frame_reclaim pid t); try done. cbn. rewrite P3. apply insert_insert_eq.
Qed.

Lemma world_ok_later k k' w : world_ok k w -> k <= k' -> world_ok k' w.
Proof. intros [] L. split; try done. intros n sh Hn. specialize (wo_gen0 n sh Hn). lia. Qed.

(** Only a node's own entry decides what it publishes. *)
Lemma publishes_put w w' n sh n' pid :
  nodes w' = <[n := sh]> (nodes w) ->
  publishes w' n' pid <-> (n' = n /\ sh_port sh = Some pid) \/ (n' <> n /\ publishes w n' pid).
Proof.
  intros EN. unfold publishes. rewrite EN. destruct (decide (n' = n)) as [->|N].
  - rewrite lookup_insert_eq. naive_solver.
  - rewrite lookup_insert_ne by done. naive_solver.
Qed.

Lemma verb_has_node k w v vb : world_ok k w -> verbs w !! v = Some vb -> nodes w !! v_node vb <> None.
Proof. intros O Hv. destruct (wo_verb _ _ O _ _ Hv) as (sh & -> & _). done. Qed.

(** A node that has no port publishes one just opened. *)
Lemma publish_ok k w w' n pid t c g fl :
  world_ok k w -> ports w !! pid = None -> (privileged = false -> t_excl (ttys w t) = false) ->
  (forall pid', ~ publishes w n pid') -> (forall sh, nodes w !! n = Some sh -> generation sh < g) -> 0 <= g <= k + 1 ->
  ports w' = <[pid := mkPort t true true c]> (ports w) -> nodes w' = <[n := mkShared (Some pid) g fl]> (nodes w) -> verbs w' = verbs w ->
  (forall u l, outlives l = true -> level l (ttys w' u) = if decide (u = t /\ l = LExcl) then true else level l (ttys w u)) ->
  (forall u l, owed w' u l = owed w u l) ->
  world_ok (k + 1) w'.
Proof.
  intros O Hnew Hfree Hno Hg Hgk EP EN EV ET EO.
  assert (EX : forall u, t_excl (ttys w' u) = if decide (u = t) then true else t_excl (ttys w u)).
  { intros u. pose proof (ET u LExcl eq_refl) as L. cbn in L. rewrite L. repeat case_decide; naive_solver. }
  assert (EB : forall u, t_break (ttys w' u) = t_break (ttys w u)).
  { intros u. pose proof (ET u LBreak eq_refl) as L. cbn in L. rewrite L. by rewrite decide_False by naive_solver. }
  pose proof (fun n' pid' => publishes_put w w' n _ n' pid' EN) as P. cbn in P.
  assert (Old : forall n' pid', publishes w n' pid' -> pid' <> pid).
  { intros n' pid' Hp ->. destruct (wo_published _ _ O _ _ Hp) as (p & Hp' & _). congruence. }
  assert (Free : forall pid' p, privileged = false -> ports w !! pid' = Some p -> claimed p = true -> p_tty p <> t).
  { intros pid' p Hpr Hp Hc <-. pose proof (wo_claim _ _ O _ _ Hpr Hp Hc). rewrite Hfree in *; done. }
  split.
  - intros n' pid' [[-> [= <-]]|[N Hp]]%P; rewrite EP.
    + rewrite lookup_insert_eq. eauto.
    + rewrite lookup_insert_ne by (intros <-; by eapply Old). by apply (wo_published _ _ O n').
  - intros pid' p. rewrite EP. destruct (decide (pid = pid')) as [<-|N].
    + intros _ _. exists n. apply P. by left.
    + rewrite lookup_insert_ne by done. intros Hp Hc. destruct (wo_owned _ _ O _ _ Hp Hc) as [n' Hn']. exists n'. apply P. right.
      split; [|done]. intros ->. by eapply Hno.
  - intros n1 n2 pid' [[-> [= <-]]|[N1 P1]]%P [[-> HE]|[N2 P2]]%P; try done.
    + by destruct (Old _ _ P2).
    + injection HE as <-. by destruct (Old _ _ P1).
    + by eapply (wo_owner _ _ O).
  - intros pid1 pid2 p1 p2 Hpr. rewrite EP. destruct (decide (pid = pid1)) as [<-|N1], (decide (pid = pid2)) as [<-|N2]; [done|..];
      rewrite ?lookup_insert_eq, ?lookup_insert_ne by done.
    + intros [= <-] Hp2 _ Hc2 HE. cbn in HE. by destruct (Free _ _ Hpr Hp2 Hc2).
    + intros Hp1 [= <-] Hc1 _ HE. cbn in HE. by destruct (Free _ _ Hpr Hp1 Hc1).
    + by apply (wo_one _ _ O).
  - intros pid' p Hpr. rewrite EP. destruct (decide (pid = pid')) as [<-|N].
    + rewrite lookup_insert_eq. intros [= <-] _. cbn. by rewrite EX, decide_True.
    + rewrite lookup_insert_ne by done. intros Hp Hc. rewrite EX, decide_False by (by eapply Free). by eapply (wo_claim _ _ O).
  - intros u. rewrite EX, EP, EO. destruct (decide (u = t)) as [->|N].
    + intros _. right. exists pid. rewrite lookup_insert_eq. eauto.
    + intros [|(pid' & p & Hp & Hc & <-)]%(wo_excl _ _ O); [by left|]. right. exists pid', p. rewrite lookup_insert_ne by (intros <-; congruence). done.
  - intros u. rewrite EB, EO. intros [|(v & vb & sh & pid' & p & H1 & H2 & H3 & H4 & H5 & H6 & H7)]%(wo_break _ _ O); [by left|right].
    assert (v_node vb <> n) by (intros Ev; rewrite Ev in H3; eapply (Hno pid'); by exists sh).
    exists v, vb, sh, pid', p. rewrite EV, EN, EP, lookup_insert_ne by done. rewrite lookup_insert_ne by (intros <-; congruence). done.
  - intros v u Hpr (vb & sh & pid' & q & H1 & H2 & H3 & H4 & H5 & H6 & H7). rewrite EV in H1. rewrite EB.
    assert (v_node vb <> n) as N.
    { intros Ev. destruct (wo_verb _ _ O _ _ H1) as (sh0 & E1 & E2 & _). rewrite EN, Ev, lookup_insert_eq in H3. injection H3 as <-.
      rewrite Ev in E1. specialize (Hg _ E1). cbn in H4. lia. }
    rewrite EN, lookup_insert_ne in H3 by done. assert (pid' <> pid) by (eapply Old; by exists sh).
    rewrite EP, lookup_insert_ne in H6 by done. apply (wo_held _ _ O v); [done|]. by exists vb, sh, pid', q.
  - intros u l. rewrite EO. intros [Ho Hl]%(wo_debt _ _ O). split; [done|]. rewrite ET by done. by case_decide.
  - intros n' sh. rewrite EN. destruct (decide (n = n')) as [<-|N].
    + rewrite lookup_insert_eq. intros [= <-]. exact Hgk.
    + rewrite lookup_insert_ne by done. intros Hn'. pose proof (wo_gen _ _ O _ _ Hn'). lia.
  - intros v vb. rewrite EV, EN. intros Hv. destruct (wo_verb _ _ O _ _ Hv) as (sh & H1 & H2 & H3).
    destruct (decide (n = v_node vb)) as [->|N].
    + rewrite lookup_insert_eq. eexists. split; [done|]. cbn. specialize (Hg _ H1). split; [lia|]. intros HE. lia.
    + rewrite lookup_insert_ne by done. eauto.
  - rewrite EV. apply (wo_alone _ _ O).
Qed.

(** What [release_port] does to a node in a sane world. *)
Lemma release_port_spec k n sh w :
  world_ok k w -> k < u64_max -> nodes w !! n = Some sh ->
  let w' := release_port n w in
  nodes w' = <[n := mkShared None (generation sh + 1) (signal_in_flight sh)]> (nodes w) /\ verbs w' = verbs w /\ settles w w' /\
  match sh_port sh with
  | None => ports w' = ports w /\ ttys w' = ttys w
  | Some pid => exists p, ports w !! pid = Some p /\ claimed p = true /\
      ports w' = <[pid := mkPort (p_tty p) false false (clones p)]> (ports w) /\
      (forall u l, level l (ttys w' u) = if decide (u = p_tty p /\ outlives l = true /\ o u l false = None) then false else level l (ttys w u)) /\
      (forall l, outlives l = true -> level l (ttys w' (p_tty p)) = true -> owed w' (p_tty p) l = true)
  end.
Proof.
  intros O Hk Hn. unfold release_port, set_port. rewrite Hn. pose proof (wo_gen _ _ O _ _ Hn).
  rewrite u64_wrapping_add_small by lia. destruct (sh_port sh) as [pid|] eqn:Ep; [|by split_and!; [..|apply settles_eq| |]].
  destruct (wo_published _ _ O n pid) as (p & Hp & Hc & Hs); [by exists sh|]. set (w1 := put_node _ _ w).
  destruct (release_claims_spec pid p w1 Hp) as (R1 & R2 & R3 & R4 & R5 & R6 & _). set (w2 := release_claims pid w1) in *.
  unfold drop_stored. rewrite R1, lookup_insert_eq. cbn. unfold drop_rc.
  set (p' := mkPort (p_tty p) false false (clones p)).
  assert (D : forall v, v = (if stored p' || negb (clones p' =? 0)%nat then put_port pid p' w2 else release_claims pid (put_port pid p' w2)) ->
    ports v = <[pid := p']> (ports w) /\ nodes v = nodes w2 /\ verbs v = verbs w2 /\ ttys v = ttys w2 /\ owed v = owed w2).
  { intros v ->. assert (ports (put_port pid p' w2) = <[pid := p']> (ports w)) as EP by (cbn; rewrite R1; apply insert_insert_eq).
    destruct (stored p' || _); [done|]. unfold release_claims. rewrite EP, lookup_insert_eq. cbn. done. }
  destruct (D _ eq_refl) as (D1 & D2 & D3 & D4 & D5). rewrite D1, D2, D3, D4, D5, R2, R3. split_and!; [done..| |].
  - apply (settles_comp _ w1); [by apply settles_eq|]. eapply settles_comp; [exact R4|by apply settles_eq].
  - exists p. split_and!; [done..| |by intros l; apply R6]. intros u l. rewrite R5. change (ttys w1) with (ttys w).
    destruct (decide (u = p_tty p /\ _)) as [D'|N]; [rewrite decide_True by naive_solver|rewrite decide_False by naive_solver]; done.
Qed.

(** A node lets its port go: the others keep theirs, and their ttys. *)
Lemma vacate_ok k w w' n sh :
  world_ok k w -> nodes w !! n = Some sh ->
  nodes w' = <[n := mkShared None (generation sh + 1) (signal_in_flight sh)]> (nodes w) -> verbs w' = verbs w -> settles w w' ->
  (forall pid q, claimed q = true \/ stored q = true ->
     ports w' !! pid = Some q <-> ports w !! pid = Some q /\ ~ publishes w n pid) ->
  (forall pid p l, publishes w n pid -> ports w !! pid = Some p -> outlives l = true ->
     level l (ttys w' (p_tty p)) = true -> owed w' (p_tty p) l = true) ->
  (forall u, (forall pid p, publishes w n pid -> ports w !! pid = Some p -> p_tty p <> u) -> ttys w' u = ttys w u) ->
  world_ok (k + 1) w'.
Proof.
  intros O Hn EN EV Se EP EC ET. pose proof (wo_gen _ _ O _ _ Hn) as Hgen.
  assert (P : forall n' pid, publishes w' n' pid <-> n' <> n /\ publishes w n' pid).
  { intros n' pid. rewrite (publishes_put w w' n _ n' pid EN). cbn. naive_solver. }
  assert (Q : forall n' pid, n' <> n -> publishes w n' pid -> ~ publishes w n pid) by (intros n' pid N P1 P2; by eapply N, (wo_owner _ _ O)).
  assert (Node : forall n' s, n' <> n -> nodes w' !! n' = Some s <-> nodes w !! n' = Some s) by (intros; rewrite EN, lookup_insert_ne by done; done).
  assert (Here : nodes w' !! n = Some (mkShared None (generation sh + 1) (signal_in_flight sh))) by (rewrite EN; apply lookup_insert_eq).
  assert (Back : forall v s u, holding w' v s u -> holding w v s u /\ exists pid q, ports w !! pid = Some q /\ claimed q = true /\ ~ publishes w n pid /\ p_tty q = u).
  { intros v s u (vb & s' & pid & q & H1 & H2 & H3 & H4 & H5 & H6 & <-). assert (v_node vb <> n) as N by (intros Ev; rewrite Ev in H3; naive_solver).
    apply Node in H3; [|done]. assert (publishes w (v_node vb) pid) as Pb by by exists s'.
    destruct (wo_published _ _ O _ _ Pb) as (q' & Hq' & Hc & _).
    assert (ports w' !! pid = Some q') as Y by (apply EP; [by left|split; [done|by eapply Q]]). replace q' with q in * by congruence.
    rewrite EV in H1. split; [by exists vb, s', pid, q|]. exists pid, q. split_and!; try done. by eapply Q. }
  assert (Forth : forall v s u, holding w v s u -> holding w' v s u \/ exists pid p, publishes w n pid /\ ports w !! pid = Some p /\ p_tty p = u).
  { intros v s u (vb & s' & pid & q & H1 & H2 & H3 & H4 & H5 & H6 & <-). assert (publishes w (v_node vb) pid) as Pb by by exists s'.
    destruct (wo_published _ _ O _ _ Pb) as (q' & Hq' & Hc & _). replace q' with q in * by congruence.
    destruct (decide (v_node vb = n)) as [Ev|N]; [right; rewrite Ev in Pb; by exists pid, q|left].
    exists vb, s', pid, q. rewrite EV. split_and!; try done; [by apply Node|]. apply EP; [by left|]. split; [done|by eapply Q]. }
  (* exclusive ttys of an unprivileged daemon: the others' are not the released one *)
  assert (Other : forall pid q, privileged = false -> ports w !! pid = Some q -> claimed q = true -> ~ publishes w n pid -> ttys w' (p_tty q) = ttys w (p_tty q)).
  { intros pid q Hpr Hq Hc Hno. apply ET. intros pid2 p2 P2 Hp2 Et. apply Hno.
    destruct (wo_published _ _ O _ _ P2) as (q2 & Hq2 & Hc2 & _). assert (pid = pid2) as -> by (apply (wo_one _ _ O _ _ q q2); congruence). done. }
  split.
  - intros n' pid [N Hp]%P. destruct (wo_published _ _ O _ _ Hp) as (p & Hp' & Hc & Hs). exists p. split; [|done].
    apply EP; [by left|]. split; [done|by eapply Q].
  - intros pid q Hq Hc. apply EP in Hq as [Hq Hno]; [|done]. destruct (wo_owned _ _ O _ _ Hq Hc) as [n' Hn']. exists n'. apply P. split; [by intros ->|done].
  - intros n1 n2 pid [_ P1]%P [_ P2]%P. by eapply (wo_owner _ _ O).
  - intros pid1 pid2 p1 p2 Hpr H1 H2 Hc1 Hc2. apply EP in H1 as [H1 _]; [|by left]. apply EP in H2 as [H2 _]; [|by left]. by apply (wo_one _ _ O).
  - intros pid q Hpr Hq Hc. apply EP in Hq as [Hq Hno]; [|by left]. rewrite (Other pid) by done. by apply (wo_claim _ _ O pid).
  - intros u Hu. destruct (se_on _ _ Se u LExcl) as [Hl|]; [done|done| |by left].
    destruct (wo_excl _ _ O _ Hl) as [Ho|(pid & p & Hp & Hc & <-)]; [left; by apply (se_owed _ _ Se)|].
    destruct (wo_owned _ _ O _ _ Hp) as [n' Hn']; [by left|]. destruct (decide (n' = n)) as [->|N]; [left; by apply (EC pid)|].
    right. exists pid, p. split; [|done]. apply EP; [by left|]. split; [done|by eapply Q].
  - intros u Hu. destruct (se_on _ _ Se u LBreak) as [Hl|]; [done|done| |by left].
    destruct (wo_break _ _ O _ Hl) as [Ho|[v Hh]]; [left; by apply (se_owed _ _ Se)|].
    destruct (Forth _ _ _ Hh) as [Hh'|(pid & p & Hp & Hp' & <-)]; [right; by exists v|left; by apply (EC pid)].
  - intros v u Hpr [Hh (pid & q & Hq & Hc & Hno & <-)]%Back. rewrite (Other pid) by done. by apply (wo_held _ _ O v).
  - apply (se_debt _ _ Se), O.
  - intros n' s Hn'. destruct (decide (n' = n)) as [->|N]; [rewrite Here in Hn'; injection Hn' as <-; cbn; lia|].
    apply Node in Hn'; [|done]. pose proof (wo_gen _ _ O _ _ Hn'). lia.
  - intros v vb. rewrite EV. intros Hv. destruct (wo_verb _ _ O _ _ Hv) as (s & H1 & H2 & H3). destruct (decide (v_node vb = n)) as [Ev|N].
    + rewrite Ev in *. eexists. split; [done|]. cbn. replace s with sh in * by congruence. split; [lia|]. intros Eg. lia.
    + exists s. split; [by apply Node|done].
  - rewrite EV. apply (wo_alone _ _ O).
Qed.

Lemma release_ok k n w : world_ok k w -> k < u64_max -> world_ok (k + 1) (release_port n w).
Proof.
  intros O Hk. destruct (nodes w !! n) as [sh|] eqn:Hn.
  2: { unfold release_port, set_port. rewrite Hn. apply (world_ok_later k); [done|lia]. }
  destruct (release_port_spec k n sh w O Hk Hn) as (EN & EV & Se & S). apply (vacate_ok k w _ n sh); try done.
  - intros pid q Hc. destruct (sh_port sh) as [pid0|] eqn:Ep.
    + destruct S as (p & Hp & _ & EP & _). rewrite EP. destruct (decide (pid0 = pid)) as [<-|N].
      * rewrite lookup_insert_eq. split; [intros [= <-]; by destruct Hc|]. intros [_ []]. by exists sh.
      * rewrite lookup_insert_ne by done. split; [|tauto]. intros Hq. split; [done|]. intros (sh' & E1 & E2). congruence.
    + destruct S as [-> _]. split; [|tauto]. intros Hq. split; [done|]. intros (sh' & E1 & E2). congruence.
  - intros pid p l (sh' & E1 & E2) Hp. replace sh' with sh in * by congruence. rewrite E2 in S. destruct S as (q & Hq & _ & _ & _ & L).
    replace p with q by congruence. apply L.
  - intros u Hne. destruct (sh_port sh) as [pid0|] eqn:Ep; [|by destruct S as [_ ->]]. destruct S as (p & Hp & _ & _ & L & _).
    assert (p_tty p <> u) as N by (apply (Hne pid0); [by exists sh|done]). pose proof (L u) as Lu.
    assert (El : forall l, level l (ttys (release_port n w) u) = level l (ttys w u)) by (intros l; rewrite Lu; by rewrite decide_False by naive_solver).
    pose proof (El LExcl) as E1. pose proof (El LBreak) as E2. pose proof (El LDtr) as E3. pose proof (El LRts) as E4. cbn in E1, E2, E3, E4.
    destruct (ttys (release_port n w) u), (ttys w u). cbn in *. congruence.
Qed.

(** A change of the slot alone. *)
Lemma put_in_flight_world n fl w :
  ports (put_in_flight n fl w) = ports w /\ verbs (put_in_flight n fl w) = verbs w /\ ttys (put_in_flight n fl w) = ttys w.
Proof. unfold put_in_flight. by destruct (nodes w !! n). Qed.

Lemma put_in_flight_owed n fl w : owed (put_in_flight n fl w) = owed w.
Proof. unfold put_in_flight. by destruct (nodes w !! n). Qed.

Lemma put_in_flight_nodes n fl w n' sh' :
  nodes (put_in_flight n fl w) !! n' = Some sh' ->
  exists sh, nodes w !! n' = Some sh /\ sh_port sh' = sh_port sh /\ generation sh' = generation sh
    /\ (signal_in_flight sh' = signal_in_flight sh \/ n' = n /\ signal_in_flight sh' = fl).
Proof.
  unfold put_in_flight. destruct (nodes w !! n) as [sh|] eqn:Hn; [|eauto 6]. cbn. destruct (decide (n = n')) as [<-|N].
  - rewrite lookup_insert_eq. intros [= <-]. exists sh. cbn. auto 6.
  - rewrite lookup_insert_ne by done. eauto 6.
Qed.

Lemma put_in_flight_old n fl w n' sh :
  nodes w !! n' = Some sh ->
  exists sh', nodes (put_in_flight n fl w) !! n' = Some sh' /\ sh_port sh' = sh_port sh /\ generation sh' = generation sh
    /\ signal_in_flight sh' = if decide (n' = n) then fl else signal_in_flight sh.
Proof.
  intros Hn. unfold put_in_flight. destruct (decide (n' = n)) as [->|N].
  - rewrite Hn. cbn. rewrite lookup_insert_eq. eauto.
  - destruct (nodes w !! n); cbn; rewrite ?lookup_insert_ne by done; eauto.
Qed.

Lemma put_in_flight_publishes n fl w n' pid : publishes (put_in_flight n fl w) n' pid <-> publishes w n' pid.
Proof.
  split.
  - intros (sh' & Hn & Hp). destruct (put_in_flight_nodes _ _ _ _ _ Hn) as (sh & Hn' & HE & _). exists sh. by rewrite <- HE.
  - intros (sh & Hn & Hp). destruct (put_in_flight_old n fl _ _ _ Hn) as (sh' & Hn' & HE & _). exists sh'. by rewrite HE.
Qed.

Lemma in_flight_ok k w n fl :
  world_ok k w ->
  (forall v vb sh, verbs w !! v = Some vb -> v_node vb = n -> nodes w !! n = Some sh -> v_gen vb = generation sh -> fl = Some (generation sh)) ->
  world_ok k (put_in_flight n fl w).
Proof.
  intros O Hfl. destruct (put_in_flight_world n fl w) as (EP & EV & ET). pose proof (put_in_flight_publishes n fl w) as P.
  split; unfold debts_ok; rewrite ?EP, ?ET, ?EV, ?put_in_flight_owed.
  - intros n' pid Hp%P. by apply (wo_published _ _ O n').
  - intros pid p Hp Hc. destruct (wo_owned _ _ O _ _ Hp Hc) as [n' Hn']. exists n'. by apply P.
  - intros n1 n2 pid P1%P P2%P. by eapply (wo_owner _ _ O).
  - apply (wo_one _ _ O).
  - apply (wo_claim _ _ O).
  - apply (wo_excl _ _ O).
  - intros u Hu. destruct (wo_break _ _ O _ Hu) as [|(v & vb & sh & pid & p & H1 & H2 & H3 & H4 & H5 & H6 & H7)]; [by left|right].
    destruct (put_in_flight_old n fl _ _ _ H3) as (sh' & E1 & E2 & E3 & _). exists v, vb, sh', pid, p.
    rewrite EV, EP. split_and!; congruence.
  - intros v u Hpr (vb & sh' & pid & p & H1 & H2 & H3 & H4 & H5 & H6 & H7). rewrite EV in H1. rewrite EP in H6.
    destruct (put_in_flight_nodes _ _ _ _ _ H3) as (sh & E1 & E2 & E3 & _). apply (wo_held _ _ O v); [done|].
    exists vb, sh, pid, p. split_and!; congruence.
  - apply (wo_debt _ _ O).
  - intros n' sh' Hn'. destruct (put_in_flight_nodes _ _ _ _ _ Hn') as (sh & Hn & _ & -> & _). by apply (wo_gen _ _ O n').
  - intros v vb Hv. destruct (wo_verb _ _ O _ _ Hv) as (sh & H1 & H2 & H3).
    destruct (put_in_flight_old n fl _ _ _ H1) as (sh' & E1 & E2 & E3 & E4). exists sh'. rewrite E3, E4. split_and!; [done..|].
    intros Hg. destruct (decide _) as [Hn|]; [|by apply H3]. eapply Hfl; [done|done| |done]. by rewrite <- Hn.
  - apply (wo_alone _ _ O).
Qed.

(** The scoped port of a node is one it publishes. *)
Lemma scoped_spec n g w p :
  with_scoped_port n g w = Some p <->
  exists sh pid, nodes w !! n = Some sh /\ sh_port sh = Some pid /\ generation sh = g /\ ports w !! pid = Some p.
Proof.
  unfold with_scoped_port. split.
  - destruct (nodes w !! n) as [sh|]; [|done]. destruct (sh_port sh) as [pid|] eqn:Hp; [|done]. destruct (Z.eqb_spec (generation sh) g); [|done]. eauto 8.
  - intros (sh & pid & -> & -> & <- & Hp). by rewrite Z.eqb_refl.
Qed.

(** Handle, lease, line: the answers of a signal verb. *)
Lemma signal_spec k v n g s w :
  world_ok k w -> signal_handle n w = Some g ->
  exists sh pid p, nodes w !! n = Some sh /\ sh_port sh = Some pid /\ generation sh = g /\ ports w !! pid = Some p /\
    signal v n g s w =
      if bool_decide (signal_in_flight sh = Some g) then (inl LineBusy, w) else
      match o (p_tty p) (asserts s).1 (asserts s).2 with
      | Some e => (inl (Io e), put_in_flight n None (put_in_flight n (Some g) w))
      | None => (inr tt, set_verbs <[v := mkVerb n g s]> (ioctl (p_tty p) (asserts s).1 (asserts s).2 (put_in_flight n (Some g) w)).2)
      end.
Proof.
  intros O. unfold signal_handle. destruct (nodes w !! n) as [sh|] eqn:Hn; [|done]. destruct (sh_port sh) as [pid|] eqn:Hp; [|done].
  intros [= <-]. destruct (wo_published _ _ O n pid) as (p & Hpp & Hc & Hs); [by exists sh|]. exists sh, pid, p. split_and!; [done..|].
  unfold signal, claim_line. rewrite Hn, Hp, Z.eqb_refl. cbn. case_bool_decide as B; [done|].
  unfold try_port, with_scoped_port, put_in_flight. rewrite Hn. cbn. rewrite lookup_insert_eq. cbn. rewrite Hp, Z.eqb_refl, Hpp.
  unfold ioctl. assert (negb (asserts s).2 && outlives (asserts s).1 = false) as Ha by by destruct s as [|[]]. rewrite Ha. cbn.
  destruct (o (p_tty p) (asserts s).1 (asserts s).2); [|done]. unfold drop_lease. cbn. rewrite lookup_insert_eq. cbn.
  rewrite bool_decide_true by done. unfold put_in_flight. cbn. by rewrite lookup_insert_eq.
Qed.

Lemma signal_ok k v n g s w :
  world_ok k w -> signal_handle n w = Some g -> verbs w !! v = None -> world_ok k (signal v n g s w).2.
Proof.
  intros O Hh Hv. destruct (signal_spec k v n g s w O Hh) as (sh & pid & p & Hn & Hp & <- & Hpp & ->).
  case_bool_decide as B; [done|].
  assert (Idle : forall v' vb, verbs w !! v' = Some vb -> v_node vb = n -> v_gen vb <> generation sh).
  { intros v' vb Hv' <- Hg. destruct (wo_verb _ _ O _ _ Hv') as (sh' & E1 & _ & E3). replace sh' with sh in * by congruence. auto. }
  assert (O1 : forall fl, world_ok k (put_in_flight n fl w)).
  { intros fl. apply in_flight_ok; [done|]. intros v' vb sh' Hv' Hn' Hsh Hg. replace sh' with sh in * by congruence. by destruct (Idle v' vb). }
  destruct (o _ _ _) as [e|] eqn:R; cbn [snd].
  { apply in_flight_ok; [done|]. rewrite (proj1 (proj2 (put_in_flight_world _ _ _))). intros v' vb sh' Hv' Hn' Hsh Hg.
    destruct (put_in_flight_nodes _ _ _ _ _ Hsh) as (sh2 & E1 & _ & E3 & _). replace sh2 with sh in * by congruence.
    destruct (Idle v' vb); [done|done|congruence]. }
  specialize (O1 (Some (generation sh))). set (w1 := put_in_flight n (Some (generation sh)) w) in *.
  destruct (put_in_flight_world n (Some (generation sh)) w) as (EP & EV & ET). fold w1 in EP, EV, ET.
  destruct (put_in_flight_old n (Some (generation sh)) w n sh Hn) as (sh1 & S1 & S2 & S3 & S4). fold w1 in S1. rewrite decide_True in S4 by done.
  set (a := asserts s) in *. assert (a.1 <> LExcl) as Na by by destruct s.
  destruct (ioctl_world (p_tty p) a.1 a.2 w1) as (I1 & I2 & I3). pose proof (fun u l => ioctl_level (p_tty p) a.1 a.2 w1 u l) as IL.
  assert (IO : forall u l, owed (ioctl (p_tty p) a.1 a.2 w1).2 u l = owed w1 u l).
  { intros u l. rewrite ioctl_owed, decide_False; [done|]. intros (_ & _ & Ha). unfold a in Ha. by destruct s as [|[]]. }
  set (w2 := (ioctl (p_tty p) a.1 a.2 w1).2) in *.
  assert (X : forall u, t_excl (ttys w2 u) = t_excl (ttys w1 u)).
  { intros u. pose proof (IL u LExcl) as L. cbn [level] in L. rewrite L. by rewrite decide_False by naive_solver. }
  split; cbn [ports nodes verbs ttys owed set_verbs]; rewrite ?I1, ?I2, ?I3, ?EV.
  - intros n' pid' (s' & E1 & E2). cbn in E1. rewrite I2 in E1. apply (wo_published _ _ O1 n'). by exists s'.
  - intros pid' q Hq Hc. destruct (wo_owned _ _ O1 _ _ Hq Hc) as [n' (s' & E1 & E2)]. exists n', s'. cbn. by rewrite I2.
  - intros n1 n2 pid' (s1 & E1 & E2) (s2 & E3 & E4). cbn in E1, E3. rewrite I2 in E1, E3.
    apply (wo_owner _ _ O1 n1 n2 pid'); [by exists s1|by exists s2].
  - apply (wo_one _ _ O1).
  - intros pid' q Hpr Hq Hc. rewrite X. by apply (wo_claim _ _ O1 pid').
  - intros u Hu. rewrite X in Hu. rewrite IO. by apply (wo_excl _ _ O1).
  - intros u Hu. rewrite IO.
    assert (owed w1 u LBreak = true \/ exists v', holding w1 v' SendBreak u \/ (v' = v /\ s = SendBreak /\ u = p_tty p)) as [?|(v' & Hh')]; [|by left|].
    { pose proof (IL u LBreak) as L. cbn [level] in L. rewrite L in Hu. destruct (decide _) as [(-> & El & _)|_].
      - assert (s = SendBreak) as -> by by destruct s. right. exists v. auto.
      - destruct (wo_break _ _ O1 _ Hu) as [|(v' & Hh')]; [by left|]. right. exists v'. auto. }
    right. destruct Hh' as [(vb & s' & pid' & q & H1 & H2 & H3 & H4 & H5 & H6 & H7)|(-> & -> & ->)].
    + exists v', vb, s', pid', q. cbn. rewrite I1, I2, I3. split_and!; try done. rewrite lookup_insert_ne; [done|]. intros <-. rewrite EV in H1. congruence.
    + exists v, (mkVerb n (generation sh) SendBreak), sh1, pid, p. cbn. rewrite I1, I2, lookup_insert_eq, EP. split_and!; try done; congruence.
  - intros v' u Hpr (vb & s' & pid' & q & H1 & H2 & H3 & H4 & H5 & H6 & H7). cbn in H1, H3, H6. rewrite I3 in H1. rewrite I2 in H3. rewrite I1 in H6.
    pose proof (IL u LBreak) as L. cbn [level] in L. rewrite L. destruct (decide (v = v')) as [<-|N].
    + rewrite lookup_insert_eq in H1. injection H1 as <-. cbn in H2, H3, H4. subst s. replace s' with sh1 in * by congruence.
      replace pid' with pid in * by congruence. rewrite EP in H6. replace q with p in * by congruence. by rewrite decide_True.
    + rewrite lookup_insert_ne in H1 by done. destruct (decide _) as [(_ & El & _)|_]; [unfold a; by destruct s|].
      apply (wo_held _ _ O1 v'); [done|]. exists vb, s', pid', q. by rewrite EV in *.
  - intros u l. cbn. rewrite IO. intros [Ho Hl]%(wo_debt _ _ O1). split; [done|]. rewrite IL. case_decide as D; [|done].
    destruct D as (_ & -> & _). unfold a in *. by destruct s.
  - apply (wo_gen _ _ O1).
  - intros v' vb. destruct (decide (v = v')) as [<-|N].
    + rewrite lookup_insert_eq. intros [= <-]. exists sh1. cbn. rewrite S3, S4. split_and!; [done|lia|done].
    + rewrite lookup_insert_ne by done. intros Hv'. apply (wo_verb _ _ O1 v'). by rewrite EV.
  - intros v1 v2 b1 b2. destruct (decide (v = v1)) as [<-|N1], (decide (v = v2)) as [<-|N2]; [done|..];
      rewrite ?lookup_insert_eq, ?lookup_insert_ne by done.
    + intros [= <-] Hv2 En Eg. cbn in En, Eg. by destruct (Idle v2 b2).
    + intros Hv1 [= <-] En Eg. cbn in En, Eg. by destruct (Idle v1 b1).
    + apply (wo_alone _ _ O).
Qed.

(** A tty has one verb holding a line of it. *)
Lemma holding_alone k w v v' s s' t : privileged = false -> world_ok k w -> holding w v s t -> holding w v' s' t -> v = v' /\ s = s'.
Proof.
  intros Hpr O (vb & sh & pid & p & H1 & H2 & H3 & H4 & H5 & H6 & H7) (vb' & sh' & pid' & p' & H1' & H2' & H3' & H4' & H5' & H6' & H7').
  assert (publishes w (v_node vb) pid) as P by by exists sh. assert (publishes w (v_node vb') pid') as P' by by exists sh'.
  destruct (wo_published _ _ O _ _ P) as (q & Hq & Hc & _). destruct (wo_published _ _ O _ _ P') as (q' & Hq' & Hc' & _).
  replace q with p in * by congruence. replace q' with p' in * by congruence.
  assert (pid = pid') as <- by (apply (wo_one _ _ O _ _ p p'); congruence). pose proof (wo_owner _ _ O _ _ _ P P') as En.
  assert (v = v') as <- by (apply (wo_alone _ _ O _ _ vb vb'); [done..|]; rewrite En in H3; congruence). split; [done|congruence].
Qed.

(** What the guard does: the restoring ioctl on the port of the verb, or nothing. *)
Lemma drop_guard_spec vb w :
  drop_guard vb w = match with_scoped_port (v_node vb) (v_gen vb) w with
                    | Some p => (ioctl (p_tty p) (restores (v_signal vb)).1 (restores (v_signal vb)).2 w).2
                    | None => w
                    end.
Proof. unfold drop_guard, try_port. destruct (with_scoped_port _ _ w); [|done]. by destruct (ioctl _ _ _ w) as [[]]. Qed.

Lemma guard_settles w vb : settles w (drop_guard vb w).
Proof. rewrite drop_guard_spec. destruct (with_scoped_port _ _ w); [|by apply settles_eq]. apply settles_ioctl. by destruct (v_signal vb) as [|[]]. Qed.

Lemma guard_ok k w v vb :
  world_ok k w -> verbs w !! v = Some vb -> world_ok k (drop_guard vb (set_verbs (delete v) w)).
Proof.
  intros O Hv. pose proof (guard_settles (set_verbs (delete v) w) vb) as Se. rewrite drop_guard_spec in *.
  set (w1 := set_verbs (delete v) w) in *. set (a := restores (v_signal vb)) in *.
  assert (Na : a.1 <> LExcl) by (unfold a; by destruct (v_signal vb)).
  set (w2 := match with_scoped_port _ _ w1 with Some p => _ | None => w1 end) in *.
  assert (ports w2 = ports w /\ nodes w2 = nodes w /\ verbs w2 = delete v (verbs w)) as (EP & EN & EV).
  { unfold w2. destruct (with_scoped_port _ _ w1) as [p|]; [|done]. destruct (ioctl_world (p_tty p) a.1 a.2 w1) as (-> & -> & ->). done. }
  assert (X : forall u, t_excl (ttys w2 u) = t_excl (ttys w u)).
  { intros u. unfold w2. destruct (with_scoped_port _ _ w1) as [p|]; [|done].
    pose proof (ioctl_level (p_tty p) a.1 a.2 w1 u LExcl) as L. cbn [level] in L. rewrite L. by rewrite decide_False by naive_solver. }
  assert (P : forall n pid, publishes w2 n pid <-> publishes w n pid) by (intros n pid; unfold publishes; by rewrite EN).
  split; rewrite ?EP, ?EN, ?EV.
  - intros n pid Hp%P. by apply (wo_published _ _ O n).
  - intros pid p Hp Hc. destruct (wo_owned _ _ O _ _ Hp Hc) as [n Hn]. exists n. by apply P.
  - intros n n' pid P1%P P2%P. by eapply (wo_owner _ _ O).
  - apply (wo_one _ _ O).
  - intros pid p Hpr Hp Hc. rewrite X. by apply (wo_claim _ _ O pid).
  - intros u Hu. pose proof Hu as Hu2. rewrite X in Hu. destruct (wo_excl _ _ O _ Hu) as [|]; [left; by apply (se_owed _ _ Se)|by right].
  - intros u Hu. destruct (se_on _ _ Se u LBreak) as [Hl|]; [done|done| |by left].
    destruct (wo_break _ _ O _ Hl) as [|(v' & vb' & sh & pid & q & H1 & H2 & H3 & H4 & H5 & H6 & H7)]; [left; by apply (se_owed _ _ Se)|].
    destruct (decide (v = v')) as [<-|Nv].
    + left. replace vb' with vb in * by congruence. assert (with_scoped_port (v_node vb) (v_gen vb) w1 = Some q) as Sc by (apply scoped_spec; eauto 10).
      unfold w2, a in *. rewrite Sc, H2, H7 in *. by apply ioctl_clear.
    + right. exists v', vb', sh, pid, q. rewrite EV, EN, EP, lookup_delete_ne by done. done.
  - intros v' u Hpr (vb' & sh & pid & q & H1 & H2 & H3 & H4 & H5 & H6 & H7). rewrite EV in H1. rewrite EN in H3. rewrite EP in H6.
    apply lookup_delete_Some in H1 as [Nv H1]. assert (holding w v' SendBreak u) as Hh by by exists vb', sh, pid, q.
    pose proof (wo_held _ _ O _ _ Hpr Hh) as B. unfold w2. destruct (with_scoped_port _ _ w1) as [p|] eqn:Sc; [|done].
    pose proof (ioctl_level (p_tty p) a.1 a.2 w1 u LBreak) as L. cbn [level] in L. rewrite L. destruct (decide _) as [(-> & _)|]; [|done].
    destruct Nv. apply scoped_spec in Sc as (sh' & pid' & E1 & E2 & E3 & E4).
    destruct (holding_alone k w v v' (v_signal vb) SendBreak (p_tty p) Hpr O) as [-> _]; [|exact Hh|done]. by exists vb, sh', pid', p.
  - apply (se_debt _ _ Se), O.
  - apply (wo_gen _ _ O).
  - intros v' vb' [_ Hv']%lookup_delete_Some. by apply (wo_verb _ _ O v').
  - intros v1 v2 b1 b2 [_ H1]%lookup_delete_Some [_ H2]%lookup_delete_Some. by apply (wo_alone _ _ O).
Qed.

Lemma end_ok k w v : world_ok k w -> world_ok k (end_verb v w).
Proof.
  intros O. unfold end_verb. destruct (verbs w !! v) as [vb|] eqn:Hv; [|done].
  pose proof (guard_ok k w v vb O Hv) as O2. assert (verbs (drop_guard vb (set_verbs (delete v) w)) = delete v (verbs w)) as EV.
  { rewrite drop_guard_spec. destruct (with_scoped_port _ _ _) as [p|]; [|done]. by rewrite (proj2 (proj2 (ioctl_world _ _ _ _))). }
  set (w2 := drop_guard vb _) in *. unfold drop_lease. destruct (nodes w2 !! v_node vb) as [sh|] eqn:Hn; [|done].
  case_bool_decide as B; [|done]. apply in_flight_ok; [done|]. intros v' vb' sh' Hv' En Hn' Eg. exfalso.
  replace sh' with sh in * by congruence. destruct (wo_verb _ _ O2 _ _ Hv') as (sh2 & E1 & _ & E3). rewrite En in E1.
  replace sh2 with sh in * by congruence. specialize (E3 Eg). rewrite B in E3. injection E3 as E3.
  rewrite EV in Hv'. apply lookup_delete_Some in Hv' as [Nv Hv']. apply Nv. eapply (wo_alone _ _ O); [exact Hv|exact Hv'|done|congruence].
Qed.

Lemma store_ports c pid p w : ports w !! pid = Some p -> store c pid w = put_port pid (mkPort (p_tty p) (claimed p) true c) w.
Proof. intros Hp. unfold store. by rewrite Hp. Qed.

Lemma create_ok k n pid modem path w :
  world_ok k w -> nodes w !! n = None -> ports w !! pid = None -> 0 <= k -> world_ok (k + 1) (create n pid modem path w).
Proof.
  intros O Hn Hp Hk.
  assert (Idle : forall w1, frame w w1 -> world_ok (k + 1) (put_node n (mkShared None 0 None) w1)).
  { intros w1 F. pose proof (world_ok_frame _ _ _ O F) as O1. assert (nodes w1 !! n = None) as Hn1 by by rewrite (fr_nodes _ _ F).
    pose proof (fun n' pid' => publishes_put w1 (put_node n (mkShared None 0 None) w1) n _ n' pid' eq_refl) as P. cbn in P.
    assert (Ne : forall n' sh, nodes w1 !! n' = Some sh -> n <> n') by (intros n' sh E1 <-; congruence).
    split; cbn [ports nodes verbs ttys put_node].
    - intros n' pid' [[_ [=]]|[_ Hp']]%P. by apply (wo_published _ _ O1 n').
    - intros pid' p Hp' Hc. destruct (wo_owned _ _ O1 _ _ Hp' Hc) as [n' Hn']. exists n'. apply P. right. split; [|done].
      destruct Hn' as (sh & E1 & _). intros ->. by eapply Ne.
    - intros n1 n2 pid' [[_ [=]]|[_ P1]]%P [[_ [=]]|[_ P2]]%P. by eapply (wo_owner _ _ O1).
    - apply (wo_one _ _ O1).
    - apply (wo_claim _ _ O1).
    - apply (wo_excl _ _ O1).
    - intros u Hu. destruct (wo_break _ _ O1 _ Hu) as [|(v & vb & sh & pid' & q & H1 & H2 & H3 & H4)]; [by left|right].
      exists v, vb, sh, pid', q. cbn. rewrite lookup_insert_ne by (by eapply Ne). done.
    - intros v u Hpr (vb & sh & pid' & q & H1 & H2 & H3 & H4 & H5 & H6). cbn in H1, H3, H6.
      destruct (decide (n = v_node vb)) as [En|N]; [rewrite <- En, lookup_insert_eq in H3; by injection H3 as <-|].
      rewrite lookup_insert_ne in H3 by done. apply (wo_held _ _ O1 v); [done|]. by exists vb, sh, pid', q.
    - apply (wo_debt _ _ O1).
    - intros n' sh. destruct (decide (n = n')) as [<-|N]; [rewrite lookup_insert_eq; intros [= <-]; cbn; lia|].
      rewrite lookup_insert_ne by done. intros Hn'. pose proof (wo_gen _ _ O1 _ _ Hn'). lia.
    - intros v vb Hv. destruct (wo_verb _ _ O1 _ _ Hv) as (sh & H1 & H2). exists sh. rewrite lookup_insert_ne by (by eapply Ne). done.
    - apply (wo_alone _ _ O1). }
  unfold create. destruct path as [[t a]|]; [|apply Idle, frame_refl].
  pose proof (open_port_spec pid t modem a w Hp) as S. destruct (open_port pid t modem a w) as [[e|[]] w1]; [by apply Idle|].
  destruct S as (EP & EN & EV & X & ET & EO). erewrite store_ports by (cbn; rewrite EP; apply lookup_insert_eq). cbn.
  eapply (publish_ok k w _ n pid t 0 0 None); try done.
  - intros pid' (sh & E1 & _). congruence.
  - intros sh. by rewrite Hn.
  - lia.
  - cbn. rewrite EP. apply insert_insert_eq.
  - cbn. by rewrite EN.
Qed.

Lemma reopen_ok k n pid t modem a w sh :
  world_ok k w -> nodes w !! n = Some sh -> sh_port sh = None -> ports w !! pid = None -> k < u64_max ->
  world_ok (k + 1) (reopen n pid t modem a w).
Proof.
  intros O Hn Hs Hp Hk. unfold reopen. pose proof (open_port_spec pid t modem a w Hp) as S.
  destruct (open_port pid t modem a w) as [[e|[]] w1].
  - pose proof (world_ok_frame _ _ _ O S) as O1. destruct (not_found e); [apply (world_ok_later k); [done|lia]|by apply release_ok].
  - destruct S as (EP & EN & EV & X & ET & EO). unfold adopt_port, set_port.
    erewrite store_ports by (rewrite EP; apply lookup_insert_eq). cbn. rewrite EN, Hn. cbn. rewrite Hs. pose proof (wo_gen _ _ O _ _ Hn).
    rewrite u64_wrapping_add_small by lia.
    eapply (publish_ok k w _ n pid t 1 (generation sh + 1) (signal_in_flight sh)); try done.
    + intros pid' (sh' & E1 & E2). congruence.
    + intros sh'. rewrite Hn. intros [= <-]. lia.
    + lia.
    + cbn. rewrite EP. apply insert_insert_eq.
    + cbn. by rewrite EN.
Qed.

(** Counting references. *)
Lemma frame_clones w pid p c :
  ports w !! pid = Some p -> frame w (put_port pid (mkPort (p_tty p) (claimed p) (stored p) c) w).
Proof.
  intros Hp. split; try done; [| |by apply settles_eq]; cbn; intros pid' q; destruct (decide (pid = pid')) as [<-|N];
    rewrite ?lookup_insert_eq, ?lookup_insert_ne by done.
  - rewrite Hp. intros [= <-]. by eexists.
  - intros Hq. by exists q.
  - intros [= <-] _. by exists p.
  - intros Hq _. by exists q.
Qed.

(** The last close of a tty on which nobody holds a port. *)
Lemma frame_close k t brk d r w : world_ok k w -> closed_everywhere t w -> frame w (last_close t brk d r w).
Proof.
  intros O Cl. unfold last_close. set (b := t_break (ttys w t) && brk).
  assert (L : forall u l, outlives l = true -> level l (<[t := mkTty false b d r]> (ttys w) u)
    = if decide (u = t) then bool_decide (l = LBreak) && b else level l (ttys w u)).
  { intros u l Ho. destruct (decide (u = t)) as [->|N]; [rewrite fn_lookup_insert; by destruct l|by rewrite fn_lookup_insert_ne]. }
  apply frame_ttys; try done.
  - split; cbn; unfold debts_ok; cbn.
    + intros u l Ho. rewrite L by done. case_decide; [subst|by left]. intros [El Hb]%andb_true_iff. apply bool_decide_eq_true in El as ->. 
      left. by apply andb_true_iff in Hb as [? _].
    + intros u l Ho. rewrite L by done. case_decide; [subst|by repeat rewrite bool_decide_false by naive_solver].
      intros [El Hb]%andb_true_iff. apply bool_decide_eq_true in El as ->. rewrite bool_decide_false by naive_solver.
      rewrite bool_decide_true by done. intros ->. done.
    + intros D u l. repeat case_bool_decide; try done.
      * destruct_and!. subst. rewrite andb_true_iff. intros [_ Hb]. by rewrite fn_lookup_insert.
      * intros [Ho Hl]%D. split; [done|]. rewrite L by done. rewrite decide_False; [done|]. intros ->. destruct l; naive_solver.
    + intros u l. repeat case_bool_decide; try done; [|by left]. destruct_and!; subst. intros [? _]%andb_true_iff. by left.
  - intros pid p l _ Hp Hc _ Ho. cbn. rewrite L by done. rewrite decide_False; [done|]. intros Et.
    destruct (wo_owned _ _ O _ _ Hp) as [n Hn]; [by left|]. destruct (wo_published _ _ O _ _ Hn) as (q & Hq & _ & Hs).
    destruct (Cl pid p Hp Et). congruence.
Qed.

(** The identities a run uses are fresh, and each step makes at most one port transition. *)
Lemma world_step_ok k op w : world_ok k w -> 0 <= k < u64_max -> world_ok (k + 1) (world_step op w).
Proof.
  intros O Hk. assert (Later : forall w', world_ok k w' -> world_ok (k + 1) w') by (intros w' O'; apply (world_ok_later k); [done|lia]).
  pose proof (fun pid p c => frame_clones w pid p c) as Put.
  destruct op as [n pid modem path|n pid t modem a|n|pid|n|v n s|v|n d r|t brk d r]; cbn.
  - destruct (nodes w !! n) eqn:Hn; [by apply Later|]. destruct (ports w !! pid) eqn:Hp; [by apply Later|]. apply create_ok; [done..|lia].
  - destruct (nodes w !! n) as [sh|] eqn:Hn; [|by apply Later]. destruct (ports w !! pid) eqn:Hp; [by apply Later|].
    case_bool_decide; [|by apply Later]. eapply reopen_ok; [done..|lia].
  - apply Later. destruct (nodes w !! n) as [sh|]; [|done]. destruct (sh_port sh) as [pid|]; [|done].
    destruct (ports w !! pid) as [p|] eqn:Hp; [|done]. eapply world_ok_frame; [done|]. by apply Put.
  - apply Later. destruct (ports w !! pid) as [p|] eqn:Hp; [|done]. destruct (clones p =? 0)%nat; [done|].
    unfold drop_clone. rewrite Hp. unfold drop_rc. cbn. pose proof (world_ok_frame _ _ _ O (Put pid p (pred (clones p)) Hp)) as O1.
    set (p1 := mkPort _ _ _ _) in *. set (w1 := put_port pid p1 w) in *. destruct (stored p || _) eqn:St; [done|].
    apply orb_false_iff in St as [St _]. assert (claimed p = false) as C.
    { destruct (claimed p) eqn:C; [|done]. destruct (wo_owned _ _ O _ _ Hp) as [n Hn]; [auto|].
      destruct (wo_published _ _ O _ _ Hn) as (p' & Hp' & _ & Hs). congruence. }
    unfold release_claims. change (ports w1 !! pid) with (<[pid := p1]> (ports w) !! pid). rewrite lookup_insert_eq. cbn. by rewrite C.
  - apply release_ok; [done|lia].
  - apply Later. destruct (verbs w !! v) eqn:Hv; [done|]. destruct (signal_handle n w) eqn:Hh; [|done]. by apply signal_ok.
  - apply Later. by apply end_ok.
  - apply Later. destruct (signal_handle n w); [|done]. unfold set_modem, try_port. destruct (with_scoped_port n _ w) as [p|]; [|done].
    pose proof (frame_modem (p_tty p) d r w) as F. destruct (drive_modem (p_tty p) d r w) as [[|] w']; by eapply world_ok_frame.
  - apply Later. case_bool_decide; [|done]. eapply world_ok_frame; [done|by eapply frame_close].
Qed.

(** Generations only grow, and a taken slot has its verb. *)
Definition slots_ok (w : World) : Prop :=
  forall n sh g, nodes w !! n = Some sh -> signal_in_flight sh = Some g ->
    exists v vb, verbs w !! v = Some vb /\ v_node vb = n /\ v_gen vb = g.

Definition later (w w' : World) : Prop :=
  forall n sh, nodes w !! n = Some sh -> exists sh', nodes w' !! n = Some sh' /\ generation sh <= generation sh'.

Lemma later_refl w w' : nodes w' = nodes w -> later w w'.
Proof. intros EN n sh Hn. rewrite EN. exists sh. split; [done|lia]. Qed.

Lemma later_trans w1 w2 w3 : later w1 w2 -> later w2 w3 -> later w1 w3.
Proof.
  intros L1 L2 n sh Hn. destruct (L1 n sh Hn) as (sh2 & H2 & ?). destruct (L2 n sh2 H2) as (sh3 & H3 & ?). exists sh3. split; [done|lia].
Qed.

Lemma later_put w w' n sh' :
  nodes w' = <[n := sh']> (nodes w) -> (forall sh, nodes w !! n = Some sh -> generation sh <= generation sh') -> later w w'.
Proof.
  intros EN Hg n' sh Hn. rewrite EN. destruct (decide (n = n')) as [<-|N].
  - rewrite lookup_insert_eq. eauto.
  - rewrite lookup_insert_ne by done. exists sh. split; [done|lia].
Qed.

Lemma slots_put w w' n sh' :
  nodes w' = <[n := sh']> (nodes w) -> verbs w' = verbs w ->
  signal_in_flight sh' = None \/ (exists sh, nodes w !! n = Some sh /\ signal_in_flight sh' = signal_in_flight sh) ->
  slots_ok w -> slots_ok w'.
Proof.
  intros EN EV Hf S n' sh g. rewrite EN, EV. destruct (decide (n = n')) as [<-|N].
  - rewrite lookup_insert_eq. intros [= <-] Hg. destruct Hf as [Hf|(sh0 & H1 & H2)]; [congruence|]. apply (S n sh0); congruence.
  - rewrite lookup_insert_ne by done. apply S.
Qed.

Lemma open_port_world pid t modem a w w' r :
  ports w !! pid = None -> open_port pid t modem a w = (r, w') -> nodes w' = nodes w /\ verbs w' = verbs w.
Proof.
  intros Hp Eo. pose proof (open_port_spec pid t modem a w Hp) as S. rewrite Eo in S. destruct r as [e|[]].
  - by destruct S.
  - by destruct S as (_ & -> & -> & _).
Qed.

Lemma release_later k n w :
  world_ok k w -> k < u64_max -> later w (release_port n w) /\ (slots_ok w -> slots_ok (release_port n w)).
Proof.
  intros O Hk. destruct (nodes w !! n) as [sh|] eqn:Hn.
  - destruct (release_port_spec k n sh w O Hk Hn) as (EN & EV & _). split.
    + eapply later_put; [exact EN|]. rewrite Hn. intros ? [= <-]. cbn. lia.
    + eapply slots_put; [exact EN|exact EV|]. right. by exists sh.
  - unfold release_port, set_port. rewrite Hn. by split; [apply later_refl|].
Qed.

Lemma create_later n pid modem path w :
  nodes w !! n = None -> ports w !! pid = None ->
  later w (create n pid modem path w) /\ (slots_ok w -> slots_ok (create n pid modem path w)).
Proof.
  intros Hn Hp. assert (exists sh, nodes (create n pid modem path w) = <[n := sh]> (nodes w) /\ signal_in_flight sh = None
    /\ verbs (create n pid modem path w) = verbs w) as (sh & EN & Hf & EV).
  { unfold create. destruct path as [[t a]|]; [|by eexists].
    destruct (open_port pid t modem a w) as [[e|[]] w1] eqn:Eo; destruct (open_port_world _ _ _ _ _ _ _ Hp Eo) as [<- <-]; [by eexists|].
    unfold store. cbn. destruct (ports w1 !! pid); by eexists. }
  split; [eapply later_put; [exact EN|by rewrite Hn]|]. eapply slots_put; [exact EN|exact EV|by left].
Qed.

Lemma reopen_later k n pid t modem a w sh :
  world_ok k w -> nodes w !! n = Some sh -> sh_port sh = None -> ports w !! pid = None -> k < u64_max ->
  later w (reopen n pid t modem a w) /\ (slots_ok w -> slots_ok (reopen n pid t modem a w)).
Proof.
  intros O Hn Hs Hp Hk. unfold reopen. pose proof (open_port_spec pid t modem a w Hp) as Sp.
  destruct (open_port pid t modem a w) as [[e|[]] w1] eqn:Eo; destruct (open_port_world _ _ _ _ _ _ _ Hp Eo) as [EN EV].
  - assert (L : later w w1 /\ (slots_ok w -> slots_ok w1)) by (split; [by apply later_refl|unfold slots_ok; by rewrite EN, EV]).
    destruct (not_found e); [done|]. destruct (release_later k n w1) as [L1 S1]; [by eapply world_ok_frame|done|].
    split; [by eapply later_trans; [apply L|]|]. intros S. by apply S1, L.
  - destruct Sp as (EP & _). unfold adopt_port, set_port. erewrite store_ports by (rewrite EP; apply lookup_insert_eq).
    cbn. rewrite EN, Hn. cbn. rewrite Hs. pose proof (wo_gen _ _ O _ _ Hn). rewrite u64_wrapping_add_small by lia. split.
    + eapply later_put; [cbn; rewrite EN; reflexivity|]. rewrite Hn. intros ? [= <-]. cbn. lia.
    + eapply slots_put; [cbn; rewrite EN; reflexivity|done|]. right. by exists sh.
Qed.

Lemma put_in_flight_later n fl w : later w (put_in_flight n fl w).
Proof. intros n' sh Hn. destruct (put_in_flight_old n fl w _ _ Hn) as (sh' & E1 & _ & E3 & _). exists sh'. split; [done|lia]. Qed.

Lemma signal_later k v n g s w :
  world_ok k w -> signal_handle n w = Some g -> verbs w !! v = None ->
  later w (signal v n g s w).2 /\ (slots_ok w -> slots_ok (signal v n g s w).2).
Proof.
  intros O Hh Hv. destruct (signal_spec k v n g s w O Hh) as (sh & pid & p & Hn & Hp & Hg & Hpp & ->).
  case_bool_decide as B; [by split; [apply later_refl|]|]. destruct (o _ _ _) as [e|]; cbn [snd].
  - split; [eapply later_trans; apply put_in_flight_later|]. intros S n' sh2 g' Hn' Hg'.
    rewrite !(proj1 (proj2 (put_in_flight_world _ _ _))).
    destruct (put_in_flight_nodes _ _ _ _ _ Hn') as (sh1 & E1 & _ & _ & F1). destruct (put_in_flight_nodes _ _ _ _ _ E1) as (sh0 & E0 & _ & _ & F0).
    destruct F1 as [F1|[-> F1]]; [|congruence]. destruct F0 as [F0|[-> F0]]; [apply (S n' sh0); congruence|].
    exfalso. rewrite F0 in F1. unfold put_in_flight in Hn' at 1. rewrite E1 in Hn'. cbn in Hn'. rewrite lookup_insert_eq in Hn'.
    injection Hn' as <-. done.
  - set (w1 := put_in_flight n (Some g) w). destruct (ioctl_world (p_tty p) (asserts s).1 (asserts s).2 w1) as (_ & I2 & I3). split.
    + eapply later_trans; [apply put_in_flight_later|]. apply later_refl. cbn. exact I2.
    + intros S n' sh2 g' Hn' Hg'. cbn in Hn' |- *. rewrite I2 in Hn'. rewrite I3.
      destruct (put_in_flight_nodes _ _ _ _ _ Hn') as (sh1 & E1 & _ & _ & F1).
      assert (verbs w1 = verbs w) as -> by apply put_in_flight_world.
      assert (g' = g /\ n' = n \/ signal_in_flight sh1 = Some g') as [[-> ->]|F0] by (destruct F1 as [F1|[-> F1]]; [right; congruence|left; split; congruence]).
      * exists v. rewrite lookup_insert_eq. by eexists.
      * destruct (S _ _ _ E1 F0) as (v' & vb & Hv' & ? & ?). exists v', vb. rewrite lookup_insert_ne by congruence. done.
Qed.

Lemma guard_world vb w : ports (drop_guard vb w) = ports w /\ nodes (drop_guard vb w) = nodes w /\ verbs (drop_guard vb w) = verbs w.
Proof. rewrite drop_guard_spec. destruct (with_scoped_port _ _ w); [apply ioctl_world|done]. Qed.

Lemma end_later w v : later w (end_verb v w) /\ (slots_ok w -> slots_ok (end_verb v w)).
Proof.
  unfold end_verb. destruct (verbs w !! v) as [vb|] eqn:Hv; [|by split; [apply later_refl|]].
  destruct (guard_world vb (set_verbs (delete v) w)) as (_ & EN & EV). set (w2 := drop_guard _ _) in *. cbn in EN, EV.
  assert (L2 : later w w2) by by apply later_refl. unfold drop_lease. destruct (nodes w2 !! v_node vb) as [sh|] eqn:Hn.
  2: { split; [done|]. intros S n sh g Hn' Hg. rewrite EN in Hn', Hn. destruct (S _ _ _ Hn' Hg) as (v' & vb' & H1 & H2 & H3).
       exists v', vb'. rewrite EV, lookup_delete_ne; [done|]. intros <-. congruence. }
  case_bool_decide as B.
  - split; [eapply later_trans; [exact L2|apply put_in_flight_later]|]. intros S n sh' g Hn' Hg.
    rewrite (proj1 (proj2 (put_in_flight_world _ _ _))), EV. unfold put_in_flight in Hn'. rewrite Hn in Hn'. cbn in Hn'.
    destruct (decide (v_node vb = n)) as [<-|N]; [rewrite lookup_insert_eq in Hn'; by injection Hn' as <-|].
    rewrite lookup_insert_ne, EN in Hn' by done. destruct (S _ _ _ Hn' Hg) as (v' & vb' & H1 & H2 & H3).
    exists v', vb'. rewrite lookup_delete_ne; [done|]. intros <-. congruence.
  - split; [done|]. intros S n sh' g Hn' Hg. rewrite EN in Hn'. destruct (S _ _ _ Hn' Hg) as (v' & vb' & H1 & H2 & H3).
    exists v', vb'. rewrite EV, lookup_delete_ne; [done|]. intros <-. rewrite EN in Hn. replace vb' with vb in * by congruence. subst.
    replace sh' with sh in * by congruence. congruence.
Qed.

Lemma world_step_later k op w :
  world_ok k w -> 0 <= k < u64_max -> later w (world_step op w) /\ (slots_ok w -> slots_ok (world_step op w)).
Proof.
  intros O Hk. assert (Same : forall w', nodes w' = nodes w -> verbs w' = verbs w -> later w w' /\ (slots_ok w -> slots_ok w')).
  { intros w' EN EV. split; [by apply later_refl|]. unfold slots_ok. by rewrite EN, EV. }
  destruct op as [n pid modem path|n pid t modem a|n|pid|n|v n s|v|n d r|t brk d r]; cbn.
  - destruct (nodes w !! n) eqn:Hn; [by apply Same|]. destruct (ports w !! pid) eqn:Hp; [by apply Same|]. by apply create_later.
  - destruct (nodes w !! n) as [sh|] eqn:Hn; [|by apply Same]. destruct (ports w !! pid) eqn:Hp; [by apply Same|].
    case_bool_decide; [|by apply Same]. eapply reopen_later; [done..|lia].
  - destruct (nodes w !! n) as [sh|]; [|by apply Same]. destruct (sh_port sh) as [pid|]; [|by apply Same].
    destruct (ports w !! pid); by apply Same.
  - destruct (ports w !! pid) as [p|] eqn:Hp; [|by apply Same]. destruct (clones p =? 0)%nat; [by apply Same|].
    unfold drop_clone. rewrite Hp. unfold drop_rc. destruct (stored _ || _); [by apply Same|].
    set (p' := mkPort _ _ _ _). destruct (release_claims_spec pid p' (put_port pid p' w)) as (_ & EN & EV & _); [apply lookup_insert_eq|by apply Same].
  - eapply release_later; [done|lia].
  - destruct (verbs w !! v) eqn:Hv; [by apply Same|]. destruct (signal_handle n w) eqn:Hh; [|by apply Same]. by eapply signal_later.
  - apply end_later.
  - destruct (signal_handle n w); [|by apply Same]. unfold set_modem, try_port. destruct (with_scoped_port n _ w) as [p|]; [|by apply Same].
    pose proof (modem_world (p_tty p) d r w) as (_ & EN & EV). destruct (drive_modem (p_tty p) d r w) as [[|] w']; by apply Same.
  - by case_bool_decide; apply Same.
Qed.

(** *** The end of a verb *)

Lemma drop_lease_world n g w :
  ports (drop_lease n g w) = ports w /\ verbs (drop_lease n g w) = verbs w /\ ttys (drop_lease n g w) = ttys w
  /\ forall n' sh', nodes (drop_lease n g w) !! n' = Some sh' ->
       exists sh, nodes w !! n' = Some sh /\ sh_port sh' = sh_port sh /\ generation sh' = generation sh.
Proof.
  unfold drop_lease. destruct (nodes w !! n); [|eauto 10]. case_bool_decide; [|eauto 10]. destruct (put_in_flight_world n None w) as (-> & -> & ->).
  split_and!; [done..|]. intros n' sh' Hn. destruct (put_in_flight_nodes _ _ _ _ _ Hn) as (sh & ? & ? & ? & _). eauto.
Qed.

(** An ended verb holds nothing, and the others hold what they held. *)
Lemma end_verb_holding w v vb v' s t :
  verbs w !! v = Some vb -> holding (end_verb v w) v' s t -> v' <> v /\ holding w v' s t.
Proof.
  intros Hv (vb' & sh & pid & p & H1 & H2 & H3 & H4 & H5 & H6 & H7). unfold end_verb in H1, H3, H6. rewrite Hv in H1, H3, H6.
  destruct (drop_lease_world (v_node vb) (v_gen vb) (drop_guard vb (set_verbs (delete v) w))) as (D1 & D2 & _ & D3).
  destruct (guard_world vb (set_verbs (delete v) w)) as (G1 & G2 & G3). rewrite D2, G3 in H1. rewrite D1, G1 in H6.
  destruct (D3 _ _ H3) as (sh0 & E1 & E2 & E3). rewrite G2 in E1. cbn in H1. apply lookup_delete_Some in H1 as [N H1].
  split; [by intros ->|]. exists vb', sh0, pid, p. split_and!; try done; congruence.
Qed.

Lemma end_verb_level w v vb p u l :
  verbs w !! v = Some vb -> with_scoped_port (v_node vb) (v_gen vb) w = Some p ->
  level l (ttys (end_verb v w) u)
  = if decide (u = p_tty p /\ l = (restores (v_signal vb)).1 /\ o (p_tty p) l (restores (v_signal vb)).2 = None)
    then (restores (v_signal vb)).2 else level l (ttys w u).
Proof.
  intros Hv Sc. unfold end_verb. rewrite Hv. rewrite (proj1 (proj2 (proj2 (drop_lease_world _ _ _)))), drop_guard_spec.
  change (with_scoped_port _ _ _) with (with_scoped_port (v_node vb) (v_gen vb) w). rewrite Sc, ioctl_level.
  repeat case_decide; naive_solver.
Qed.

(** A verb that holds a line of a node's tty has the node's slot. *)
Lemma held_is_busy k w n sh pid p v s :
  privileged = false -> world_ok k w -> nodes w !! n = Some sh -> sh_port sh = Some pid -> ports w !! pid = Some p -> holding w v s (p_tty p) ->
  signal_in_flight sh = Some (generation sh).
Proof.
  intros Hpr O Hn Hs Hp (vb & sh' & pid' & p' & H1 & H2 & H3 & H4 & H5 & H6 & H7).
  destruct (wo_published _ _ O n pid) as (q & Hq & Hc & _); [by exists sh|]. destruct (wo_published _ _ O (v_node vb) pid') as (q' & Hq' & Hc' & _); [by exists sh'|].
  assert (pid' = pid) as -> by (apply (wo_one _ _ O _ _ q' q); congruence).
  assert (v_node vb = n) as En by (apply (wo_owner _ _ O _ _ pid); [by exists sh'|by exists sh]).
  destruct (wo_verb _ _ O _ _ H1) as (sh2 & E1 & _ & E3). rewrite En in *. replace sh2 with sh in * by congruence. apply E3. congruence.
Qed.

(** Only a failed clear makes a debt. *)
Lemma ioctl_origin t l b w u l' : owed (ioctl t l b w).2 u l' = true -> owed w u l' = true \/ o u l' false <> None.
Proof.
  rewrite ioctl_owed. case_decide as D; [|by left]. destruct D as (-> & -> & [Hb _]%andb_true_iff). destruct b; [done|].
  destruct (o t l false); [by right|done].
Qed.

(** What is owed after [w'] was owed before, or a clear was refused. *)
Definition debts_from (w w' : World) : Prop := forall u l, owed w' u l = true -> owed w u l = true \/ o u l false <> None.

Lemma debts_same w w' w'' : owed w'' = owed w' -> debts_from w w' -> debts_from w w''.
Proof. unfold debts_from. by intros ->. Qed.

Lemma settles_debts w w' : settles w w' -> debts_from w w'.
Proof. intros S u l. apply S. Qed.

Lemma open_debts pid t modem a w : ports w !! pid = None -> debts_from w (open_port pid t modem a w).2.
Proof.
  intros Hp. pose proof (open_port_spec pid t modem a w Hp) as S. destruct (open_port pid t modem a w) as [[e|[]] w1]; cbn.
  - by apply settles_debts, S.
  - destruct S as (_ & _ & _ & _ & _ & EO). intros u l. rewrite EO. by left.
Qed.

Lemma release_debts k n w : world_ok k w -> k < u64_max -> debts_from w (release_port n w).
Proof.
  intros O Hk. destruct (nodes w !! n) as [sh|] eqn:Hn; [by apply settles_debts, (release_port_spec k n sh)|].
  unfold release_port, set_port. rewrite Hn. by left.
Qed.

Lemma step_debts k op w : world_ok k w -> 0 <= k < u64_max -> debts_from w (world_step op w).
Proof.
  intros O Hk. assert (Same : forall w', owed w' = owed w -> debts_from w w') by (intros w' E1 u l; rewrite E1; by left).
  destruct op as [n pid modem path|n pid t modem a|n|pid|n|v n s|v|n d r|t brk d r]; cbn.
  - destruct (nodes w !! n), (ports w !! pid) eqn:Hp; try by apply Same. unfold create. destruct path as [[t a]|]; [|by apply Same].
    pose proof (open_debts pid t modem a w Hp) as D. destruct (open_port pid t modem a w) as [[e|[]] w1]; [done|].
    unfold store. cbn in *. by destruct (ports w1 !! pid).
  - destruct (nodes w !! n) as [sh|] eqn:Hn, (ports w !! pid) eqn:Hp; try by apply Same. case_bool_decide as Hs; [|by apply Same].
    unfold reopen. pose proof (open_debts pid t modem a w Hp) as D. pose proof (open_port_spec pid t modem a w Hp) as S.
    destruct (open_port pid t modem a w) as [[e|[]] w1]; cbn in D.
    + destruct (not_found e); [done|]. intros u l [Hw|]%(release_debts k n w1 (world_ok_frame _ _ _ O S) ltac:(lia)); [by apply D|by right].
    + destruct S as (EP & EN & _). unfold adopt_port, set_port. erewrite store_ports by (rewrite EP; apply lookup_insert_eq).
      cbn. rewrite EN, Hn. cbn. by rewrite Hs.
  - destruct (nodes w !! n) as [sh|]; [|by apply Same]. destruct (sh_port sh) as [pid|]; [|by apply Same].
    destruct (ports w !! pid); by apply Same.
  - destruct (ports w !! pid) as [p|] eqn:Hp; [|by apply Same]. destruct (clones p =? 0)%nat; [by apply Same|].
    unfold drop_clone. rewrite Hp. unfold drop_rc. destruct (stored _ || _); [by apply Same|]. set (p' := mkPort _ _ _ _).
    by apply (settles_debts (put_port pid p' w)), (release_claims_spec pid p'), lookup_insert_eq.
  - by apply (release_debts k); [|lia].
  - destruct (verbs w !! v) eqn:Hv; [by apply Same|]. destruct (signal_handle n w) eqn:Hh; [|by apply Same].
    destruct (signal_spec k v n z s w O Hh) as (sh & pid & p & _ & _ & _ & _ & ->). case_bool_decide; [by apply Same|].
    destruct (o _ _ _); cbn; [apply Same; by rewrite !put_in_flight_owed|]. intros u l [Hw|]%ioctl_origin; [left|by right].
    by rewrite put_in_flight_owed in Hw.
  - unfold end_verb. destruct (verbs w !! v) as [vb|]; [|by apply Same].
    apply (debts_same _ (drop_guard vb (set_verbs (delete v) w))); [|apply (settles_debts (set_verbs (delete v) w)), guard_settles].
    unfold drop_lease. destruct (nodes _ !! _); [|done]. case_bool_decide; [apply put_in_flight_owed|done].
  - destruct (signal_handle n w); [|by apply Same]. unfold set_modem, try_port. destruct (with_scoped_port n _ w) as [p|]; [|by apply Same].
    pose proof (settles_debts _ _ (fr_settles _ _ (frame_modem (p_tty p) d r w))) as D. by destruct (drive_modem (p_tty p) d r w) as [[|] w'].
  - case_bool_decide; [|by apply Same]. by eapply settles_debts, fr_settles, frame_close.
Qed.

End step.

(** ** Runs of steps *)

(** Every step has its answers. *)
Definition world_run (ops : list (Answers E * WorldOp)) (w : World) : World := foldl (fun w s => world_step s.1 s.2 w) w ops.

Lemma world_new_ok levels : world_ok 0 (world_new levels).
Proof. split; try done; unfold publishes; cbn; intros *; try (intros (? & [=] & _)); try done.
  intros _ (? & ? & ? & ? & [=] & _). Qed.

Lemma world_run_ok levels ops : len ops <= u64_max -> world_ok (len ops) (world_run ops (world_new levels)).
Proof.
  induction ops as [|op ops IH] using rev_ind; intros L; [apply world_new_ok|].
  unfold world_run. rewrite foldl_app. autorewrite with snx_len in *. cbn. pose proof (len_nonneg ops).
  apply world_step_ok; [apply IH; lia|lia].
Qed.

Lemma world_run_slots levels ops : len ops <= u64_max -> slots_ok (world_run ops (world_new levels)).
Proof.
  induction ops as [|op ops IH] using rev_ind; intros L; [intros n sh g; cbn; done|].
  unfold world_run in *. rewrite foldl_app. autorewrite with snx_len in *. cbn. pose proof (len_nonneg ops).
  apply (world_step_later op.1 (len ops)); [apply world_run_ok; lia|lia|apply IH; lia].
Qed.

Lemma world_run_later levels ops ops2 :
  len (ops ++ ops2) <= u64_max -> later (world_run ops (world_new levels)) (world_run (ops ++ ops2) (world_new levels)).
Proof.
  induction ops2 as [|op ops2 IH] using rev_ind; intros L; [rewrite app_nil_r; by apply later_refl|].
  autorewrite with snx_len in L. cbn in L. rewrite app_assoc. unfold world_run at 2. rewrite foldl_app. cbn. fold (world_run (ops ++ ops2) (world_new levels)).
  pose proof (len_nonneg (ops ++ ops2)). autorewrite with snx_len in *.
  eapply later_trans; [apply IH; autorewrite with snx_len; lia|]. eapply (world_step_later op.1 (len (ops ++ ops2))).
  - apply world_run_ok. autorewrite with snx_len. lia.
  - autorewrite with snx_len. lia.
Qed.

(** A debt of a run comes from a clear that one of its steps was refused. *)
Lemma world_run_debts levels ops t l :
  len ops <= u64_max -> owed (world_run ops (world_new levels)) t l = true -> exists s, In s ops /\ s.1 t l false <> None.
Proof.
  induction ops as [|s ops IH] using rev_ind; intros L; [done|].
  unfold world_run in *. rewrite foldl_app. autorewrite with snx_len in L. cbn in L |- *. pose proof (len_nonneg ops).
  intros [Hw|R]%(step_debts s.1 (len ops)); [|exists s|apply world_run_ok; lia|lia].
  - destruct IH as (s' & I & R); [lia|done|]. exists s'. split; [apply in_or_app; by left|done].
  - split; [apply in_or_app; right; by left|done].
Qed.

(** ** Theorems *)

(** C28: Every tty-level assertion has an owner the daemon can reach, or is one the kernel refused
    to clear. Whatever nodes are created, reopened, released and replaced, however long their futures
    keep references, whatever signal verbs come and go, and whatever ioctls fail at any step: a tty is
    exclusive only while a node publishes a port on it, where the ordered release sees the claim, or
    while a release of the claim that was refused is owed; it is on break only while a send-break verb
    is in flight on the port its node still has, or while a refused clear is owed. What is owed does
    stand, and comes from a step whose clear of that line was refused: with no such step nothing is
    owed. Conversely, for an unprivileged daemon: a tty on which a node publishes a port is exclusive and
    no other node publishes one on it; a send-break in flight keeps its tty on break, and no
    second verb holds a line of that tty. *)
Theorem tty_assertions_owned levels ops :
  len ops <= u64_max ->
  let w := world_run ops (world_new levels) in
  (forall t, t_excl (ttys w t) = true ->
     owed w t LExcl = true \/ exists n pid p, publishes w n pid /\ ports w !! pid = Some p /\ p_tty p = t)
  /\ (forall t, t_break (ttys w t) = true -> owed w t LBreak = true \/ exists v, holding w v SendBreak t)
  /\ (forall t l, owed w t l = true ->
        (l = LExcl \/ l = LBreak) /\ level l (ttys w t) = true /\ exists s, In s ops /\ s.1 t l false <> None)
  /\ (privileged = false ->
      (forall n pid p, publishes w n pid -> ports w !! pid = Some p -> t_excl (ttys w (p_tty p)) = true)
      /\ (forall n n' pid pid' p p', publishes w n pid -> publishes w n' pid' -> ports w !! pid = Some p -> ports w !! pid' = Some p' ->
            p_tty p = p_tty p' -> n = n')
      /\ (forall t v, holding w v SendBreak t -> t_break (ttys w t) = true)
      /\ (forall t v v' s s', holding w v s t -> holding w v' s' t -> v = v' /\ s = s')).
Proof.
  intros L w. pose proof (world_run_ok levels ops L : world_ok _ w) as O. split; [|split; [|split]].
  - intros t [Ho|(pid & p & Hp & Hc & <-)]%(wo_excl _ _ O); [by left|right].
    destruct (wo_owned _ _ O _ _ Hp (or_introl Hc)) as [n Hn]. by exists n, pid, p.
  - intros t. apply (wo_break _ _ O).
  - intros t l Ho. destruct (wo_debt _ _ O _ _ Ho) as [Hl Hs]. split_and!; [destruct l; auto; done|done|by eapply world_run_debts].
  - intros Hpr. split_and!.
    + intros n pid p Hn Hp. destruct (wo_published _ _ O _ _ Hn) as (q & Hq & Hc & _). apply (wo_claim _ _ O pid); congruence.
    + intros n n' pid pid' p p' Hn Hn' Hp Hp' Et. destruct (wo_published _ _ O _ _ Hn) as (q & Hq & Hc & _).
      destruct (wo_published _ _ O _ _ Hn') as (q' & Hq' & Hc' & _).
      assert (pid = pid') as <- by (apply (wo_one _ _ O _ _ q q'); congruence). by apply (wo_owner _ _ O _ _ pid).
    + intros t v. by apply (wo_held _ _ O v).
    + intros t v v' s s'. by apply (holding_alone _ _ _ _ _ _ _ Hpr O).
Qed.

(** A node hands its device on clean and then keeps silent. Releasing a node's port (teardown,
    [set_waiting], [fault]) ends exclusivity and break on its tty, even while futures still hold the
    port, unless the kernel refuses the clear, which is then owed; it changes nothing else on any
    tty. And whatever happens afterwards, a signal verb that was in flight on the node reports that the
    node is gone and drives no line when it ends, and the last drop of a lingering reference drives
    none either: a successor on the same device is never touched. *)
Theorem departed_node_is_silent levels ops o n pid p ops2 :
  len (ops ++ (o, WRelease n) :: ops2) <= u64_max ->
  let w := world_run ops (world_new levels) in
  let w' := world_step o (WRelease n) w in
  let w2 := world_run ops2 w' in
  publishes w n pid -> ports w !! pid = Some p ->
  (forall u l, level l (ttys w' u)
     = if decide (u = p_tty p /\ outlives l = true /\ o u l false = None) then false else level l (ttys w u))
  /\ (forall l, outlives l = true -> level l (ttys w' (p_tty p)) = true -> owed w' (p_tty p) l = true)
  /\ (forall v vb, verbs w !! v = Some vb -> v_node vb = n ->
        hold vb w2 = inl NodeGone /\ forall o2, verbs w2 !! v = Some vb -> ttys (world_step o2 (WEnd v) w2) = ttys w2)
  /\ (forall o2 pid', ttys (world_step o2 (WDrop pid') w2) = ttys w2).
Proof.
  intros L w w' w2 (sh & Hn & Hs) Hp. autorewrite with snx_len in L. cbn in L. pose proof (len_nonneg ops). pose proof (len_nonneg ops2).
  assert (O : world_ok (len ops) w) by (apply world_run_ok; lia).
  assert (E2 : w2 = world_run (ops ++ (o, WRelease n) :: ops2) (world_new levels)) by (unfold w2, w', w, world_run; by rewrite foldl_app).
  assert (O2 : world_ok (len (ops ++ (o, WRelease n) :: ops2)) w2) by (rewrite E2; apply world_run_ok; autorewrite with snx_len; cbn; lia).
  destruct (release_port_spec o _ n sh w O ltac:(lia) Hn) as (EN & _ & _ & Sp). rewrite Hs in Sp. destruct Sp as (q & Hq & _ & _ & Lv & Le).
  replace q with p in * by congruence. split_and!; [exact Lv|exact Le|..].
  - intros v vb Hv Ev. destruct (wo_verb _ _ O _ _ Hv) as (sh0 & Hn0 & Hle & _). rewrite Ev in Hn0. replace sh0 with sh in * by congruence.
    assert (later w' w2) as La.
    { assert (w' = world_run (ops ++ [(o, WRelease n)]) (world_new levels)) as -> by (unfold w', w, world_run; by rewrite foldl_app).
      rewrite E2. replace (ops ++ (o, WRelease n) :: ops2) with ((ops ++ [(o, WRelease n)]) ++ ops2) by (by rewrite <- app_assoc).
      apply world_run_later. autorewrite with snx_len. cbn. lia. }
    assert (nodes w' !! n = Some (mkShared None (generation sh + 1) (signal_in_flight sh))) as Hn'
      by (change (nodes w') with (nodes (release_port o n w)); rewrite EN; apply lookup_insert_eq).
    destruct (La _ _ Hn') as (sh2 & Hn2 & Hg). cbn in Hg.
    assert (forall x : World, nodes x = nodes w2 -> with_scoped_port n (v_gen vb) x = None) as Gone.
    { intros x Ex. unfold with_scoped_port. rewrite Ex, Hn2. destruct (sh_port sh2); [|done]. by destruct (Z.eqb_spec (generation sh2) (v_gen vb)); [lia|]. }
    split; [unfold hold; by rewrite Ev, Gone|]. intros o2 Hv2. cbn. unfold end_verb. rewrite Hv2, drop_guard_spec, Ev, Gone by done.
    by rewrite (proj1 (proj2 (proj2 (drop_lease_world _ _ _)))).
  - intros o2 pid'. cbn. destruct (ports w2 !! pid') as [p'|] eqn:Hp'; [|done]. destruct (clones p' =? 0)%nat; [done|].
    unfold drop_clone. rewrite Hp'. unfold drop_rc. cbn. destruct (stored p' || _) eqn:St; [done|]. apply orb_false_iff in St as [St _].
    unfold release_claims. cbn. rewrite lookup_insert_eq. cbn. destruct (claimed p') eqn:C; [|done].
    destruct (wo_owned _ _ O2 _ _ Hp') as [n' Hn']; [auto|]. destruct (wo_published _ _ O2 _ _ Hn') as (p'' & Hp'' & _ & Hs'). congruence.
Qed.

(** What a signal verb of an unprivileged daemon answers and does. With a port on tty [t], a send-break
    or pulse-dtr is refused as busy exactly when some verb holds a line of [t], and then changes
    nothing; it fails with the driver's own error, no line driven, when the tty refuses the ioctl;
    otherwise it drives its one line, and only that, and holds. When it ends with the port still there
    it reports success, its line has the level to restore (unless the kernel refuses that), no other
    line has moved, and nobody holds [t]. *)
Theorem signal_verb_exact levels ops o o2 v n g s :
  len ops <= u64_max ->
  privileged = false ->
  let w := world_run ops (world_new levels) in
  signal_handle n w = Some g -> verbs w !! v = None ->
  exists pid p, publishes w n pid /\ ports w !! pid = Some p /\ let t := p_tty p in
    match signal o v n g s w with
    | (inl LineBusy, w') => w' = w /\ exists v' s', holding w v' s' t
    | (inl (Io e), w') =>
        o t (asserts s).1 (asserts s).2 = Some e /\ (forall v' s', ~ holding w v' s' t) /\ ttys w' = ttys w /\ verbs w' = verbs w
    | (inl NodeGone, _) => False
    | (inr _, w') =>
        (forall v' s', ~ holding w v' s' t) /\ holding w' v s t
        /\ (forall u l, level l (ttys w' u) = if decide (u = t /\ l = (asserts s).1) then (asserts s).2 else level l (ttys w u))
        /\ hold (mkVerb n g s) w' = inr tt
        /\ (forall u l, level l (ttys (end_verb o2 v w') u)
              = if decide (u = t /\ l = (asserts s).1)
                then if o2 t (restores s).1 (restores s).2 is Some _ then (asserts s).2 else (restores s).2
                else level l (ttys w u))
        /\ (forall v' s', ~ holding (end_verb o2 v w') v' s' t)
    end.
Proof.
  intros L Hpr w Hh Hv. pose proof (world_run_ok levels ops L : world_ok _ w) as O. pose proof (world_run_slots levels ops L : slots_ok w) as Sl.
  pose proof (signal_ok o _ v n g s w O Hh Hv) as O1.
  destruct (signal_spec o _ v n g s w O Hh) as (sh & pid & p & Hn & Hs & Hg & Hp & Es). rewrite Es in *. clear Es.
  exists pid, p. split; [by exists sh|]. split; [done|]. cbn zeta.
  pose proof (fun v' s' => held_is_busy _ w n sh pid p v' s' Hpr O Hn Hs Hp) as Held. rewrite Hg in Held.
  case_bool_decide as B.
  { split; [done|]. destruct (Sl _ _ _ Hn B) as (v' & vb & H1 & H2 & H3). exists v', (v_signal vb), vb, sh, pid, p. rewrite H2, H3. done. }
  assert (Free : forall v' s', ~ holding w v' s' (p_tty p)) by (intros v' s' Hd; by apply B, (Held v' s')).
  destruct (o (p_tty p) (asserts s).1 (asserts s).2) as [e|] eqn:R.
  { split_and!; [done|done|by rewrite !(proj2 (proj2 (put_in_flight_world _ _ _)))|by rewrite !(proj1 (proj2 (put_in_flight_world _ _ _)))]. }
  cbn [snd] in O1. set (w1 := put_in_flight n (Some g) w) in *. set (w2 := set_verbs _ _) in *.
  destruct (put_in_flight_world n (Some g) w) as (EP & EV & ET). fold w1 in EP, EV, ET.
  destruct (put_in_flight_old n (Some g) w n sh Hn) as (sh1 & S1 & S2 & S3 & S4). fold w1 in S1. rewrite decide_True in S4 by done.
  destruct (ioctl_world o (p_tty p) (asserts s).1 (asserts s).2 w1) as (I1 & I2 & I3).
  assert (Hold2 : holding w2 v s (p_tty p)).
  { exists (mkVerb n g s), sh1, pid, p. cbn. rewrite I1, I2, lookup_insert_eq, EP. split_and!; try done; congruence. }
  assert (Lv : forall u l, level l (ttys w2 u) = if decide (u = p_tty p /\ l = (asserts s).1) then (asserts s).2 else level l (ttys w u)).
  { intros u l. cbn. rewrite ioctl_level, ET. repeat case_decide; naive_solver. }
  assert (Sc : forall x : World, nodes x = nodes w1 -> ports x = ports w -> with_scoped_port n g x = Some p).
  { intros x E1 E2. apply scoped_spec. exists sh1, pid. rewrite E1, E2. split_and!; try done; congruence. }
  assert (EN2 : nodes w2 = nodes w1) by done. assert (EP2 : ports w2 = ports w) by (cbn; congruence).
  assert (Hv2 : verbs w2 !! v = Some (mkVerb n g s)) by apply lookup_insert_eq.
  split_and!; [done|done|exact Lv|unfold hold; cbn; by rewrite Sc| |].
  - intros u l. rewrite (end_verb_level o2 w2 v _ p u l Hv2) by (by apply Sc). cbn [v_signal]. rewrite Lv.
    assert ((restores s).1 = (asserts s).1) as -> by by destruct s.
    destruct (decide (u = p_tty p /\ l = (asserts s).1)) as [[-> ->]|N]; [|by rewrite decide_False by naive_solver].
    destruct (o2 _ _ _); [by rewrite decide_False by (intros (_ & _ & [=]))|by rewrite decide_True].
  - intros v' s' Hd. destruct (end_verb_holding o2 _ _ _ _ _ _ Hv2 Hd) as [N Hd2].
    by destruct (holding_alone _ _ _ _ _ _ _ Hpr O1 Hold2 Hd2) as [<- _].
Qed.
End lines.

(** ** Witnesses *)

(** An unprivileged daemon; an open may raise DTR and RTS. *)
#[export] Instance bench_driver : SerialDriver string (bool * bool) := {
  privileged := false;
  sp_open a t x := if t_excl x then inl "EBUSY"%string else inr (mkTty (t_excl x) (t_break x) a.1 a.2);
  not_found e := bool_decide (e = "ENOENT"%string) }.

#[export] Instance bench_laws : DriverLaws string (bool * bool).
Proof.
  split; cbn; intros a t x y; destruct (t_excl x) eqn:Ex; try done; intros [= <-]; cbn; by rewrite ?Ex.
Qed.

(** UARTs and pty-backed ports (id 9 and above: no modem lines); and a UART that lets nobody end a break. *)
Definition uart : Answers string := fun t l _ =>
  match l with LDtr | LRts => if (9 <=? t)%N then Some "ENOTTY"%string else None | _ => None end.
Definition stuck : Answers string := fun t l b => match l, b with LBreak, false => Some "EIO"%string | _, _ => uart t l b end.

Definition no_levels (_ : N) : bool * bool := (false, false).

(** Node 1 on tty 5 with a break in flight and a future holding its port. *)
Definition bench_ops : list (Answers string * WorldOp (A := bool * bool)) :=
  map (pair uart) [WCreate 1%N 10%N (mkModem (Some true) None) (Some (5%N, (true, true))); WClone 1; WSignal 100 1 SendBreak].
(** Its successor on the same tty, and what is left of it. *)
Definition successor_ops : list (Answers string * WorldOp (A := bool * bool)) :=
  map (pair uart) [WCreate 2%N 11%N (mkModem None None) (Some (5%N, (true, true))); WSignal 101 2 SendBreak].

Definition bench_world : World := world_run bench_ops (world_new no_levels).

(** A pty refuses the configured DTR: the open fails and the claim is given back; then the successor's
    world; and a break whose clear is refused stands until a successor's own verb clears it. *)
Example bench_runs :
  let w := world_run [(uart, WCreate 1%N 10%N (mkModem (Some true) None) (Some (9%N, (true, true))))] (world_new no_levels) in
  (t_excl (ttys w 9%N), sh_port <$> nodes w !! 1%N) = (false, Some None)
  /\ (let w := world_run (bench_ops ++ (uart, WRelease 1) :: successor_ops ++ [(uart, WEnd 100); (uart, WDrop 10)]) (world_new no_levels) in
      ttys w 5%N = mkTty true true true true /\ sh_port <$> nodes w !! 2%N = Some (Some 11%N))
  /\ let w := world_step stuck (WRelease 1) bench_world in
     ttys w 5%N = mkTty false true true true /\ owed w 5%N LBreak = true
     /\ let w := world_run (successor_ops ++ [(uart, WEnd 101)]) w in
        ttys w 5%N = mkTty true false true true /\ owed w 5%N LBreak = false.
Proof. by vm_compute. Qed.

Lemma tty_assertions_owned_witness :
  (t_break (ttys bench_world 5%N) = true /\ exists v, holding bench_world v SendBreak 5%N)
  /\ t_excl (ttys bench_world 5%N) = true
  /\ let ops := bench_ops ++ [(stuck, WRelease 1)] in
     owed (world_run ops (world_new no_levels)) 5%N LBreak = true /\ exists s, In s ops /\ s.1 5%N LBreak false <> None.
Proof.
  destruct (tty_assertions_owned no_levels bench_ops ltac:(by vm_compute)) as (_ & B & _ & U).
  destruct (tty_assertions_owned no_levels (bench_ops ++ [(stuck, WRelease 1)]) ltac:(by vm_compute)) as (_ & _ & D & _).
  split; [|split].
  - split; [reflexivity|]. destruct (B 5%N ltac:(reflexivity)) as [[=]|Hv]. exact Hv.
  - exact (proj1 (U eq_refl) 1%N 10%N (mkPort 5%N true true 1) ltac:(eexists; split; reflexivity) ltac:(reflexivity)).
  - split; [reflexivity|]. exact (proj2 (proj2 (D 5%N LBreak ltac:(reflexivity)))).
Defined.

Lemma departed_node_is_silent_witness :
  let w' := world_step uart (WRelease 1) bench_world in
  let w2 := world_run successor_ops w' in
  level LBreak (ttys w' 5%N) = false
  /\ ttys (world_step uart (WEnd 100) w2) = ttys w2 /\ level LBreak (ttys w2 5%N) = true.
Proof.
  destruct (departed_node_is_silent no_levels bench_ops uart 1%N 10%N (mkPort 5%N true true 1) successor_ops
    ltac:(by vm_compute) ltac:(eexists; split; reflexivity) ltac:(reflexivity)) as (C & _ & V & _).
  split; [|split].
  - exact (C 5%N LBreak).
  - exact (proj2 (V 100%N (mkVerb 1%N 0 SendBreak) ltac:(reflexivity) ltac:(reflexivity)) uart ltac:(reflexivity)).
  - reflexivity.
Defined.

Lemma signal_verb_exact_witness :
  (signal uart 102%N 1%N 0 (PulseDtr true) bench_world).1 = inl LineBusy
  /\ exists v' s', holding bench_world v' s' 5%N.
Proof.
  split; [reflexivity|].
  destruct (signal_verb_exact no_levels bench_ops uart uart 102%N 1%N 0 (PulseDtr true) ltac:(by vm_compute) ltac:(reflexivity) ltac:(reflexivity) ltac:(reflexivity))
    as (pid & p & (sh & Hn & Hs) & Hp & M).
  vm_compute in Hn. injection Hn as <-. vm_compute in Hs. injection Hs as <-. vm_compute in Hp. injection Hp as <-.
  exact (proj2 M).
Defined.
