(* ===== verification/Serial.v ===== *)
(** * The serial node (daemon/src/nodes/serial.rs)

    Supervisor, targetward writer and reader thread of one node as a transition system.  The
    supervisor and everything else on the runtime thread move from await to await; the reader is a
    thread of its own, whose steps may fall anywhere, also while the runtime thread is blocked in
    [join].  What the device, the resolver, the clock and the thread spawn answer are arguments of
    the operations.  Exclusivity, break and modem lines are in SerialLines.v. *)

From S2P Require Import Prelude GraphTypes Config Channel Tap State Inbox FanOut.
#[local] Open Scope Z_scope.

(** ** Writing to a boundary fd (runtime.rs, [write_all]) *)

(** [write_fd], with what [poll_ready] says when it would block. *)
Inductive WriteAnswer := WWrote (n : nat) | WBlock (pollout pollhup : bool) | WErr (errno : Z).

Inductive IoError := WriteZero | BrokenPipe | Os (errno : Z).

Definition raw_os_error (e : IoError) : option Z := match e with Os errno => Some errno | _ => None end.

(** One turn of the loop: written bytes and the rest, or the error; the sleep, if any, and the next wait. *)
Definition write_turn (a : WriteAnswer) (wait : Z) (data : list byte)
  : (IoError + list byte * list byte) * option Z * Z :=
  match a with
  | WWrote O => (inl WriteZero, None, wait)
  | WWrote n => (inr (take n data, drop n data), None, ACTIVE_POLL)
  | WBlock true _ => (inr ([], data), None, wait)
  | WBlock false true => (inl BrokenPipe, None, wait)
  | WBlock false false => (inr ([], data), Some wait, back_off wait)
  | WErr errno => (inl (Os errno), None, wait)
  end.

(** What is written, the sleeps, and the result, if the answers suffice for one. *)
Fixpoint write_all (answers : list WriteAnswer) (wait : Z) (data : list byte)
  : list byte * list Z * option (IoError + unit) :=
  match data, answers with
  | [], _ => ([], [], Some (inr tt))
  | _, [] => ([], [], None)
  | _, a :: answers =>
      match write_turn a wait data with
      | (inl e, _, _) => ([], [], Some (inl e))
      | (inr (written, data), sleep, wait) =>
          let '(w, sleeps, r) := write_all answers wait data in
          (written ++ w, match sleep with Some s => s :: sleeps | None => sleeps end, r)
      end
  end.

(** ** Why the device was lost *)

Definition UNSET : Z := 0.
Definition EOF : Z := -1.
Definition WRITE_FAILED : Z := -2.

Inductive LossText := CauseNotRecorded | ReadReturnedEof | TargetwardWriteFailed | ReadFailed (errno : Z).

(** [LossCause::set], the compare-exchange. *)
Definition cause_set (cause c : Z) : Z := if c =? UNSET then cause else c.
Definition cause_set_errno (e : IoError) (c : Z) : Z := cause_set (default UNSET (raw_os_error e)) c.

(** [LossCause::take] *)
Definition loss_text (c : Z) : LossText :=
  if c =? UNSET then CauseNotRecorded else if c =? EOF then ReadReturnedEof
  else if c =? WRITE_FAILED then TargetwardWriteFailed else ReadFailed c.
Definition cause_take (c : Z) : LossText * Z := (loss_text c, UNSET).

(** ** The state *)

(** What a driver does with a request for flow control, and what a failed open says about it. *)
Inductive FlowOutcome := Honoured | AcceptedThenDropped | Refused.
Inductive OpenText := ErrorAlone | DriverDropsFlow (asked : FlowControl) | DriverRefusesFlow (asked : FlowControl).

Definition open_failure_text (measured : option FlowOutcome) (flow : FlowControl) : OpenText :=
  match flow with
  | FlowNone => ErrorAlone
  | _ =>
      match measured with
      | Some AcceptedThenDropped => DriverDropsFlow flow
      | Some Refused => DriverRefusesFlow flow
      | Some Honoured | None => ErrorAlone
      end
  end.

(** [honours]: the second open of [honours_flow_control], [None] where it fails too. *)
Definition explain_open_failure (flow : FlowControl) (honours : FlowControl -> option FlowOutcome) : OpenText :=
  open_failure_text (match flow with FlowNone => None | _ => honours flow end) flow.

Inductive Reason (E : Type) :=
| NoIdentitySource | NotPresent | VanishedDuringOpen | OpenFailed (e : E) (text : OpenText) | ReopenFailed (e : E) (text : OpenText)
| ArmFailed (e : E) | DeviceLost (why : LossText).
Arguments NoIdentitySource {E}.
Arguments NotPresent {E}.
Arguments VanishedDuringOpen {E}.
Arguments OpenFailed {E} _ _.
Arguments ReopenFailed {E} _ _.
Arguments ArmFailed {E} _.
Arguments DeviceLost {E} _.

#[export] Instance loss_text_eq_dec : EqDecision LossText.
Proof. solve_decision. Defined.
#[export] Instance flow_control_eq_dec : EqDecision FlowControl.
Proof. solve_decision. Defined.
#[export] Instance open_text_eq_dec : EqDecision OpenText.
Proof. solve_decision. Defined.
#[export] Instance reason_eq_dec {E} `{EqDecision E} : EqDecision (Reason E).
Proof. solve_decision. Defined.

(** An identity that does not resolve, by the form of the device and whether the system has identities at all. *)
Definition waiting_reason {E} (device : string) (has_identity_source : bool) : Reason E :=
  if negb (String.prefix "/" device) && negb (String.prefix "raw:" device) && negb has_identity_source
  then NoIdentitySource else NotPresent.

(** The reader thread: at the loop's head, in [poll_blocking], in the drain loop, or returned. *)
Inductive ReaderPhase := RHead | RPolling | RDrain | RExit.
Record Reader := mkReader { r_fd : N; r_phase : ReaderPhase; r_stop : bool }.

Inductive ReadAnswer := ReadOk (bytes : list byte) | ReadWouldBlock | ReadErr (errno : Z).

Inductive JoinWhy := JLost | JTeardown.

(** The supervisor's awaits; [Joining] is the runtime thread blocked in [stop_join_reader]. *)
Inductive Phase :=
| Starting
| Active
| Writing (rest : list byte) (wait : Z)
| Joining (why : JoinWhy)
| Polling
| Purging (rounds : nat) (generation : Z)
| Aborted
| Gone.

Section serial.
Context {C : Type -> Type} `{MpscLaws C} `{Eng : Pattern.Engine} {E : Type} `{EqDecision E}.
Abbreviation Opened := (option (E * (FlowControl -> option FlowOutcome) + N)) (only parsing).
Abbreviation Queues := (NodeQueues C (list byte)) (only parsing).
Abbreviation Sinks := (list (AttachedSink (C := C))) (only parsing).

(** [SerialShared], less the signal verbs' fields; a port is its identity. *)
Record Shared := mkShared { status : NodeState (Reason E); port : option N; generation : Z }.

(** The reader's notify and the cause; [stamps] is the history of causes since the reader was armed. *)
Record LossSignal := mkLoss { lost : bool; cause : Z; stamps : list Z }.

(** What the reader feeds; [chunks_read] is a history. *)
Record HostwardSide := mkHostward { sinks : Sinks; tap_feed : option Feed; discarded_unattached : Z; chunks_read : list (list byte) }.

(** [SuperviseCtx::targetward] and the node's queue behind it.  A chunk whose write fails is let go on no
    counter ([LDrop]).  Histories: [wire],
    what the fd took, and [sent], the chunks done with and how much of each was written. *)
Record TargetwardSide := mkTargetward { serving : bool; queues : Queues; wire : list byte; sent : list (list byte * list byte) }.

Record Serial := mkSerial {
  n_phase : Phase; n_shared : Shared; n_reader : option Reader; n_loss : LossSignal;
  n_hostward : HostwardSide; n_targetward : TargetwardSide }.

Definition to_phase (p : Phase) (s : Serial) : Serial :=
  mkSerial p (n_shared s) (n_reader s) (n_loss s) (n_hostward s) (n_targetward s).
Definition put_shared (sh : Shared) (s : Serial) : Serial :=
  mkSerial (n_phase s) sh (n_reader s) (n_loss s) (n_hostward s) (n_targetward s).
Definition put_reader (r : option Reader) (s : Serial) : Serial :=
  mkSerial (n_phase s) (n_shared s) r (n_loss s) (n_hostward s) (n_targetward s).
Definition put_loss (l : LossSignal) (s : Serial) : Serial :=
  mkSerial (n_phase s) (n_shared s) (n_reader s) l (n_hostward s) (n_targetward s).
Definition put_hostward (h : HostwardSide) (s : Serial) : Serial :=
  mkSerial (n_phase s) (n_shared s) (n_reader s) (n_loss s) h (n_targetward s).
Definition put_targetward (t : TargetwardSide) (s : Serial) : Serial :=
  mkSerial (n_phase s) (n_shared s) (n_reader s) (n_loss s) (n_hostward s) t.

(** ** The reader thread *)

(** The [Ok(n)] arm of the drain loop; [sent] is whether the tap queue has room. *)
Definition reader_chunk (sent : bool) (bytes : list byte) (h : HostwardSide) : HostwardSide :=
  let tap_wanted := match tap_feed h with Some f => wanted f | None => false end in
  if fanout_is_empty (sinks h) && negb tap_wanted then
    mkHostward (sinks h) ((fun f => skipped f (len bytes)) <$> tap_feed h)
      (u64_wrapping_add (discarded_unattached h) (len bytes)) (chunks_read h ++ [bytes])
  else
    let '(_, sinks, discarded) := fan_out bytes (sinks h) (discarded_unattached h) in
    mkHostward sinks ((fun f => mirror f bytes sent) <$> tap_feed h) discarded (chunks_read h ++ [bytes]).

Definition stamp (c : Z) (l : LossSignal) : LossSignal := mkLoss (lost l) (cause_set c (cause l)) (stamps l ++ [c]).

Lemma reader_chunk_read sent bytes h : chunks_read (reader_chunk sent bytes h) = chunks_read h ++ [bytes].
Proof. unfold reader_chunk. destruct (_ && _); [done|]. by destruct (fan_out _ _ _) as [[? ?] ?]. Qed.

(** The thread returns, having noticed the loss. *)
Definition reader_lost (r : Reader) (c : Z) (s : Serial) : Serial :=
  let l := stamp c (n_loss s) in
  put_reader (Some (mkReader (r_fd r) RExit (r_stop r))) (put_loss (mkLoss true (cause l) (stamps l)) s).

Definition reader_at (p : ReaderPhase) (r : Reader) (s : Serial) : Serial :=
  put_reader (Some (mkReader (r_fd r) p (r_stop r))) s.

Inductive ReaderOp :=
| RCheckStop
| RPoll (pollin pollhup : bool)
| RRead (a : ReadAnswer) (sent : bool).

Definition reader_step (op : ReaderOp) (s : Serial) : option Serial :=
  r ← n_reader s;
  match op, r_phase r with
  | RCheckStop, RHead => Some (reader_at (if r_stop r then RExit else RPolling) r s)
  | RPoll pollin pollhup, RPolling =>
      Some (if pollin : bool then reader_at RDrain r s else if pollhup : bool then reader_lost r EOF s else reader_at RHead r s)
  | RRead a sent, RDrain =>
      Some match a with
           | ReadOk [] => reader_lost r EOF s
           | ReadOk bytes => put_hostward (reader_chunk sent bytes (n_hostward s)) s
           | ReadWouldBlock => reader_at RHead r s
           | ReadErr errno => reader_lost r errno s
           end
  | _, _ => None
  end.

(** ** The supervisor *)

(** The outcomes of [arm_reader]. *)
Inductive ArmAnswer := Armed | NotNonblocking (e : E) | NotSpawned (e : E).

Definition release_port (sh : Shared) : Shared := mkShared (status sh) None (u64_wrapping_add (generation sh) 1).
Definition put_status (st : NodeStatus (Reason E)) (now : Z) (sh : Shared) : Shared :=
  mkShared (set_status st now (status sh)) (port sh) (generation sh).

Definition set_waiting (r : Reason E) (now : Z) (s : Serial) : Serial :=
  put_shared (put_status (Waiting r) now (release_port (n_shared s))) s.
Definition fault (r : Reason E) (now : Z) (s : Serial) : Serial :=
  put_shared (put_status (Faulted r) now (release_port (n_shared s))) s.
Definition set_active (now : Z) (s : Serial) : Serial := put_shared (put_status State.Active now (n_shared s)) s.

(** Clearing the cause comes after the fd is made non-blocking and before the spawn. *)
Definition arm_reader (pid : N) (a : ArmAnswer) (s : Serial) : (E + unit) * Serial :=
  match a with
  | NotNonblocking e => (inl e, s)
  | NotSpawned e => (inl e, put_loss (mkLoss (lost (n_loss s)) (cause_take (cause (n_loss s))).2 []) s)
  | Armed => (inr tt, put_reader (Some (mkReader pid RHead false)) (put_loss (mkLoss false UNSET []) s))
  end.

(** The head of [supervise]. *)
Definition supervise_start (a : ArmAnswer) (now : Z) (s : Serial) : Serial :=
  match port (n_shared s) with
  | Some pid =>
      match arm_reader pid a s with
      | (inr _, s) => to_phase Active s
      | (inl e, s) => to_phase Polling (fault (ArmFailed e) now s)
      end
  | None => to_phase Polling s
  end.

(** [stop_join_reader] up to the join. *)
Definition begin_join (why : JoinWhy) (s : Serial) : Serial :=
  to_phase (Joining why) (put_reader ((fun r => mkReader (r_fd r) (r_phase r) true) <$> n_reader s) s).

(** The thread has returned; the supervisor goes on. *)
Definition joined (why : JoinWhy) (now : Z) (s : Serial) : Serial :=
  let s := put_reader None s in
  match why with
  | JLost =>
      let '(why, c) := cause_take (cause (n_loss s)) in
      to_phase Polling (set_waiting (DeviceLost why) now (put_loss (mkLoss (lost (n_loss s)) c (stamps (n_loss s))) s))
  | JTeardown => to_phase Gone (put_shared (release_port (n_shared s)) s)
  end.

Definition lane_op (op : LaneOp) (t : TargetwardSide) : TargetwardSide :=
  mkTargetward (serving t) (node_step (NLane 0 op) (queues t)) (wire t) (sent t).

(** The chunk in hand is done with, [rest] of it not written. *)
Definition chunk_done (rest : list byte) (t : TargetwardSide) : TargetwardSide :=
  match head (lanes (queues t)) with
  | Some l =>
      match hand l with
      | Some chunk =>
          let t := lane_op (if bool_decide (rest = []) then LDeliver else LDrop) t in
          mkTargetward (serving t) (queues t) (wire t) (sent t ++ [(chunk, take (length chunk - length rest) chunk)])
      | None => t
      end
  | None => t
  end.

(** [write_all] with this much left. *)
Definition write_rest (rest : list byte) (wait : Z) (s : Serial) : Serial :=
  match rest with
  | [] => to_phase Active (put_targetward (chunk_done [] (n_targetward s)) s)
  | _ => to_phase (Writing rest wait) s
  end.

(** One poll of [active_step]'s select: loss first, then the queue. *)
Definition active_poll (senders : bool) (s : Serial) : option Serial :=
  let t := n_targetward s in
  if lost (n_loss s) then
    Some (begin_join JLost (put_loss (mkLoss false (cause (n_loss s)) (stamps (n_loss s))) s))
  else if serving t then
    l ← head (lanes (queues t));
    let s := put_targetward (lane_op (LRecv senders) t) s in
    Some match (recv senders (inbox l)).1 with
         | Ready (Some chunk) => write_rest chunk ACTIVE_POLL s
         | Ready None => put_targetward (mkTargetward false (queues (n_targetward s)) (wire t) (sent t)) s
         | Pending => s
         end
  else None.

(** [write_all] in the select's arm; [None]: the kernel takes no more than it is offered. *)
Definition write_step (a : WriteAnswer) (rest : list byte) (wait : Z) (s : Serial) : option Serial :=
  let t := n_targetward s in
  if match a with WWrote n => (length rest <? n)%nat | _ => false end then None else
  match write_turn a wait rest with
  | (inr (written, rest), _, wait) =>
      Some (write_rest rest wait (put_targetward (mkTargetward (serving t) (queues t) (wire t ++ written) (sent t)) s))
  | (inl e, _, _) =>
      let l := n_loss s in
      Some (begin_join JLost (put_targetward (chunk_done rest t)
        (put_loss (mkLoss (lost l) (cause_set WRITE_FAILED (cause_set_errno e (cause l)))
                     (stamps l ++ [default UNSET (raw_os_error e); WRITE_FAILED])) s)))
  end.

(** The end of [reopen]: the generation is re-checked, the reader armed. *)
Definition reopened (g : Z) (a : ArmAnswer) (now : Z) (s : Serial) : Serial :=
  match port (n_shared s) with
  | Some pid =>
      if negb (generation (n_shared s) =? g) then to_phase Polling s else
      match arm_reader pid a s with
      | (inr _, s) => to_phase Active (set_active now s)
      | (inl e, s) => to_phase Polling (fault (ArmFailed e) now s)
      end
  | None => to_phase Polling s
  end.

(** One round of the purge, [rounds] more to come. *)
Definition purge_turn (rounds : nat) (g : Z) (a : ArmAnswer) (now : Z) (s : Serial) : Serial :=
  match head (lanes (queues (n_targetward s))) with
  | Some l =>
      let s := put_targetward (lane_op LPurge (n_targetward s)) s in
      if (purge_lane l).1 then to_phase (Purging rounds g) s else reopened g a now s
  | None => reopened g a now s
  end.

(** A tick of the reconnect poll: the device's open, if it resolves, and [reopen] up to its first await. *)
Definition tick (not_found : E -> bool) (purge_on_reconnect : bool) (flow : FlowControl) (opened : Opened) (a : ArmAnswer) (now : Z)
    (s : Serial) : Serial :=
  match opened with
  | None => s
  | Some (inl (e, honours)) => if not_found e then s else fault (ReopenFailed e (explain_open_failure flow honours)) now s
  | Some (inr pid) =>
      let g := u64_wrapping_add (generation (n_shared s)) 1 in
      let s := put_shared (mkShared (status (n_shared s)) (Some pid) g) s in
      if purge_on_reconnect && serving (n_targetward s) then purge_turn (pred PURGE_ROUNDS) g a now s else reopened g a now s
  end.

(** [signal_stop]: count the queue, abort the supervisor, ask the reader to stop. *)
Definition stop_node (s : Serial) : Serial :=
  let t := n_targetward s in
  to_phase Aborted (put_targetward (mkTargetward (serving t) (Inbox.signal_stop (queues t)) (wire t) (sent t))
    (put_reader ((fun r => mkReader (r_fd r) (r_phase r) true) <$> n_reader s) s)).

(** ** The node *)

Inductive SerialOp :=
| SReader (op : ReaderOp)
| SStart (a : ArmAnswer) (now : Z)
| SActive (senders : bool)
| SWrite (a : WriteAnswer)
| SJoined (now : Z)
| STick (opened : Opened) (a : ArmAnswer) (now : Z)
| SYield (a : ArmAnswer) (now : Z)
| SSend (chunk : list byte)
| SResume
| SSinks (f : Sinks)
| SFeed (f : option Feed)
| SSignalStop
| STeardown.

(** Only the reader moves while the runtime thread is in [join]. *)
Definition blocked (s : Serial) : bool := match n_phase s with Joining _ => true | _ => false end.

Context (not_found : E -> bool) (purge_on_reconnect : bool) (flow : FlowControl).

Definition serial_step (op : SerialOp) (s : Serial) : option Serial :=
  match op with
  | SReader op => reader_step op s
  | SJoined now =>
      match n_phase s, n_reader s with
      | Joining why, None => Some (joined why now s)
      | Joining why, Some r => match r_phase r with RExit => Some (joined why now s) | _ => None end
      | _, _ => None
      end
  | _ =>
      if blocked s then None else
      match op, n_phase s with
      | SStart a now, Starting => Some (supervise_start a now s)
      | SActive senders, Active => active_poll senders s
      | SWrite a, Writing rest wait => write_step a rest wait s
      | STick opened a now, Polling => Some (tick not_found purge_on_reconnect flow opened a now s)
      | SYield a now, Purging rounds g =>
          Some match rounds with O => reopened g a now s | S rounds => purge_turn rounds g a now s end
      | SSend chunk, _ => Some (put_targetward (lane_op (LSend chunk) (n_targetward s)) s)
      | SResume, _ => Some (put_targetward (lane_op LResume (n_targetward s)) s)
      | SSinks f, _ =>
          Some (put_hostward (mkHostward f (tap_feed (n_hostward s)) (discarded_unattached (n_hostward s)) (chunks_read (n_hostward s))) s)
      | SFeed f, _ =>
          Some (put_hostward (mkHostward (sinks (n_hostward s)) f (discarded_unattached (n_hostward s)) (chunks_read (n_hostward s))) s)
      | SSignalStop, _ => Some (stop_node s)
      | STeardown, _ => Some (begin_join JTeardown (stop_node s))
      | _, _ => None
      end
  end.

Fixpoint serial_run (ops : list SerialOp) (s : Serial) : option Serial :=
  match ops with
  | [] => Some s
  | op :: ops => s ← serial_step op s; serial_run ops s
  end.

(** [create] by the outcome of its open, and [start] with a queue of depth [depth]. *)
Definition serial_new (device : string) (has_identity_source : bool) (opened : Opened) (depth now : Z) (f : Sinks) (feed : option Feed) : Serial :=
  let '(st, p) := match opened with
                  | None => (Waiting (waiting_reason device has_identity_source), None)
                  | Some (inl (e, honours)) =>
                      (if not_found e then Waiting VanishedDuringOpen else Faulted (OpenFailed e (explain_open_failure flow honours)), None)
                  | Some (inr pid) => (State.Active, Some pid)
                  end in
  mkSerial Starting (mkShared (new_at st now) p 0) None (mkLoss false UNSET []) (mkHostward f feed 0 [])
    (mkTargetward true (watch depth node_new) [] []).

(** ** The state is coherent *)

(** The cause that counts: the first one known. *)
Definition first_cause (stamps : list Z) : Z := default UNSET (head (filter (fun c => c <> UNSET) stamps)).

Lemma first_cause_snoc stamps c : first_cause (stamps ++ [c]) = cause_set c (first_cause stamps).
Proof.
  unfold first_cause, cause_set. rewrite filter_app. cbn. destruct (filter (fun c => c <> UNSET) stamps) as [|c' cs] eqn:Ef; cbn.
  - destruct (decide (c <> UNSET)) as [N|N]; [done|]. cbn. by apply dec_stable in N.
  - assert (c' ∈ filter (fun c => c <> UNSET) stamps) as [N _]%list_elem_of_filter by (rewrite Ef; apply list_elem_of_here).
    destruct (Z.eqb_spec c' UNSET); done.
Qed.

(** The reader is armed and will be heard. *)
Definition watched (s : Serial) : Prop :=
  exists r, n_reader s = Some r /\ r_stop r = false /\ (r_phase r = RExit -> lost (n_loss s) = true).

Definition idle (s : Serial) : Prop :=
  is_active (status (n_shared s)) = false /\ n_reader s = None /\ cause (n_loss s) = UNSET.

Definition phase_ok (s : Serial) : Prop :=
  match n_phase s with
  | Starting => n_reader s = None /\ cause (n_loss s) = UNSET /\ (is_active (status (n_shared s)) = true <-> port (n_shared s) <> None)
  | Active | Writing _ _ => is_active (status (n_shared s)) = true /\ watched s
  | Joining JLost => is_active (status (n_shared s)) = true /\ exists r, n_reader s = Some r /\ r_stop r = true
  | Polling => idle s /\ port (n_shared s) = None
  | Purging _ g => idle s /\ port (n_shared s) <> None /\ generation (n_shared s) = g
  | Gone => n_reader s = None /\ port (n_shared s) = None
  | Aborted | Joining JTeardown => True
  end.

(** The port a reader works on is held as long as the thread lives. *)
Record serial_ok (s : Serial) : Prop := {
  so_fd r : n_reader s = Some r -> port (n_shared s) = Some (r_fd r);
  so_cause : n_reader s <> None -> cause (n_loss s) = first_cause (stamps (n_loss s));
  so_phase : phase_ok s }.

Lemma is_active_set {R} `{EqDecision R} (st : NodeStatus R) now ns : is_active (set_status st now ns) = status_is_active st.
Proof. unfold set_status, set_at, is_active. case_bool_decide as B; cbn; [by rewrite B|done]. Qed.

(** What does not look at the targetward or hostward side. *)
Lemma serial_ok_same s s' :
  serial_ok s -> n_phase s' = n_phase s -> n_shared s' = n_shared s -> n_reader s' = n_reader s -> n_loss s' = n_loss s -> serial_ok s'.
Proof.
  intros [F Ca P] E1 E2 E3 E4. split; rewrite ?E2, ?E3, ?E4; [exact F|exact Ca|]. unfold phase_ok, watched, idle in *.
  by rewrite E1, E2, E3, E4.
Qed.

(** An idle node stays pollable: a failed attempt leaves no port. *)
Lemma fault_ok s r now : idle s -> serial_ok (to_phase Polling (fault r now s)).
Proof.
  intros (A & R & Ca). split; cbn; rewrite ?R; [done|done|]. unfold phase_ok, idle. cbn. split_and!; [apply is_active_set|done..].
Qed.

Lemma armed_ok pid s :
  port (n_shared s) = Some pid -> is_active (status (n_shared s)) = true ->
  serial_ok (to_phase Active (put_reader (Some (mkReader pid RHead false)) (put_loss (mkLoss false UNSET []) s))).
Proof.
  intros Hp A. split; cbn; [by intros ? [= <-]|done|]. unfold phase_ok, watched. cbn. split; [done|]. eexists. split_and!; done.
Qed.

Lemma supervise_start_ok a now s : serial_ok s -> n_phase s = Starting -> serial_ok (supervise_start a now s).
Proof.
  intros [F Ca P] Ph. unfold phase_ok in P. rewrite Ph in P. destruct P as (R & U & A). unfold supervise_start.
  destruct (port (n_shared s)) as [pid|] eqn:Hp.
  - assert (is_active (status (n_shared s)) = true) as A' by by apply A. destruct a as [|e|e]; cbn [arm_reader].
    + by apply armed_ok.
    + split; cbn; rewrite ?R; [done|done|]. unfold phase_ok, idle. cbn. split_and!; [apply is_active_set|done..].
    + split; cbn; rewrite ?R; [done|done|]. unfold phase_ok, idle. cbn. split_and!; [apply is_active_set|done..].
  - split; cbn; rewrite ?R; [done|done|]. unfold phase_ok, idle. cbn. split_and!; try done.
    destruct (is_active (status (n_shared s))) eqn:A'; [|done]. destruct (proj1 A eq_refl); done.
Qed.

Lemma reopened_ok g a now s :
  idle s -> port (n_shared s) <> None -> generation (n_shared s) = g -> serial_ok (reopened g a now s).
Proof.
  intros I Hp Hg. unfold reopened. destruct (port (n_shared s)) as [pid|] eqn:Ep; [|done]. rewrite Hg, Z.eqb_refl. cbn.
  destruct a as [|e|e]; cbn [arm_reader].
  - destruct I as (_ & R & _). split; cbn; [by intros ? [= <-]|done|]. unfold phase_ok, watched. cbn. rewrite is_active_set. split; [done|].
    eexists. split_and!; done.
  - by apply fault_ok.
  - apply fault_ok. destruct I as (A & R & U). split_and!; done.
Qed.

Lemma purge_turn_ok k g a now s :
  idle s -> port (n_shared s) <> None -> generation (n_shared s) = g -> serial_ok (purge_turn k g a now s).
Proof.
  intros I Hp Hg. unfold purge_turn. destruct (head _) as [l|]; [|by apply reopened_ok]. destruct (purge_lane l).1; [|by apply reopened_ok].
  destruct I as (A & R & U). split; cbn; rewrite ?R; done.
Qed.

Lemma tick_ok opened a now s : serial_ok s -> n_phase s = Polling -> serial_ok (tick not_found purge_on_reconnect flow opened a now s).
Proof.
  intros O Ph. pose proof (so_phase _ O) as P. unfold phase_ok in P. rewrite Ph in P. destruct P as [I Hp]. unfold tick.
  destruct opened as [[[e hf]|pid]|]; [|set (s1 := put_shared _ _)|done].
  - destruct (not_found e); [done|]. set (why := ReopenFailed e _).
    replace (fault why now s) with (to_phase Polling (fault why now s)); [by apply fault_ok|].
    destruct s; cbn in *; by subst.
  - assert (idle s1) by by destruct I. destruct (_ && _); [by apply purge_turn_ok|by apply reopened_ok].
Qed.

Lemma begin_join_ok s l :
  serial_ok s -> is_active (status (n_shared s)) = true -> watched s ->
  cause l = first_cause (stamps l) -> serial_ok (begin_join JLost (put_loss l s)).
Proof.
  intros [F Ca P] A (r & R & _) E1. split; cbn; rewrite ?R.
  - intros ? [= <-]. cbn. by apply F.
  - done.
  - unfold phase_ok. cbn. split; [done|]. by eexists.
Qed.

Lemma write_rest_ok rest wait s : serial_ok s -> is_active (status (n_shared s)) = true -> watched s -> serial_ok (write_rest rest wait s).
Proof. intros [F Ca P] A W. destruct rest; cbn; split; done. Qed.

Lemma reader_step_ok op s s' : serial_ok s -> reader_step op s = Some s' -> serial_ok s'.
Proof.
  intros O (r & Hr & E1)%bind_Some. pose proof (so_fd _ O r Hr) as F. pose proof (so_cause _ O) as Ca. rewrite Hr in Ca. specialize (Ca ltac:(done)).
  assert (Move : forall p, r_phase r <> RExit -> (p = RExit -> r_stop r = true) -> serial_ok (reader_at p r s)).
  { intros p Np Hp. split; cbn; [intros ? [= <-]; exact F|done|]. pose proof (so_phase _ O) as P.
    unfold phase_ok, watched, idle in *. cbn. rewrite Hr in P. destruct (n_phase s) as [| | |[]| | | |];
      try done; try (by destruct P as [? _]); try (by destruct P as [(_ & ? & _) _]); try (destruct P as [A (r' & [= <-] & S)]; split; [done|]; by eexists);
      try done; destruct P as [A (r' & [= <-] & S & X)]; split; try done; eexists; split_and!; try done; intros Ep; specialize (Hp Ep); congruence. }
  assert (Lost : forall c, serial_ok (reader_lost r c s)).
  { intros c. split; cbn; [intros ? [= <-]; exact F|intros _; by rewrite first_cause_snoc, Ca|]. pose proof (so_phase _ O) as P.
    unfold phase_ok, watched, idle in *. cbn. rewrite Hr in P. destruct (n_phase s) as [| | |[]| | | |]; naive_solver. }
  destruct op as [|pi ph|a sent]; destruct (r_phase r) eqn:Ep; try discriminate E1; injection E1 as <-.
  - apply Move; [done|]. by destruct (r_stop r).
  - destruct pi; [by apply Move|]. destruct ph; [apply Lost|by apply Move].
  - destruct a as [[|b bs]| |errno]; [apply Lost| |by apply Move|apply Lost]. by eapply serial_ok_same.
Qed.

Lemma active_poll_ok senders s s' : serial_ok s -> n_phase s = Active -> active_poll senders s = Some s' -> serial_ok s'.
Proof.
  intros O Ph. pose proof (so_phase _ O) as P. unfold phase_ok in P. rewrite Ph in P. destruct P as [A W]. unfold active_poll.
  pose proof W as (r & Hr & _). pose proof (so_cause _ O) as Ca. rewrite Hr in Ca. specialize (Ca ltac:(done)).
  destruct (lost (n_loss s)); [intros [= <-]; by apply begin_join_ok|]. destruct (serving _); [|done].
  intros (l & _ & [= <-])%bind_Some. destruct (recv senders (inbox l)).1 as [|[chunk|]]; [by eapply serial_ok_same| |by eapply serial_ok_same].
  apply write_rest_ok; [by eapply serial_ok_same|done|exact W].
Qed.

Lemma write_step_ok a rest wait s s' :
  serial_ok s -> n_phase s = Writing rest wait -> write_step a rest wait s = Some s' -> serial_ok s'.
Proof.
  intros O Ph. pose proof (so_phase _ O) as P. unfold phase_ok in P. rewrite Ph in P. destruct P as [A W]. unfold write_step.
  pose proof W as (r & Hr & _). pose proof (so_cause _ O) as Ca. rewrite Hr in Ca. specialize (Ca ltac:(done)).
  destruct (match a with WWrote n => _ | _ => _ end); [done|]. destruct (write_turn a wait rest) as [[[e|[w rest']] sl] wait']; intros [= <-].
  - set (l := mkLoss _ _ _). apply (serial_ok_same (begin_join JLost (put_loss l s))); [|done..]. apply begin_join_ok; [done..|]. cbn.
    change [default UNSET (raw_os_error e); WRITE_FAILED] with ([default UNSET (raw_os_error e)] ++ [WRITE_FAILED]).
    by rewrite app_assoc, !first_cause_snoc, <- Ca.
  - apply write_rest_ok; [by eapply serial_ok_same|done|exact W].
Qed.

Lemma stop_node_ok s : serial_ok s -> serial_ok (stop_node s).
Proof.
  intros [F Ca P]. split; cbn; [|intros Hr; apply Ca; by destruct (n_reader s)|done]. intros r. destruct (n_reader s) as [r0|]; [|done]. intros [= <-]. cbn. by apply F.
Qed.

Lemma joined_ok why now s : serial_ok s -> n_phase s = Joining why -> serial_ok (joined why now s).
Proof.
  intros O Ph. destruct why; cbn; split; cbn; try done; unfold phase_ok, idle; cbn; split_and!; try done. apply is_active_set.
Qed.

Lemma serial_step_ok op s s' : serial_ok s -> serial_step op s = Some s' -> serial_ok s'.
Proof.
  intros O Es. destruct op; cbn in Es.
  1: by eapply reader_step_ok.
  4: { destruct (n_phase s) as [| | |why| | | |] eqn:Ph; try done. pose proof (joined_ok why now s O Ph) as J.
       destruct (n_reader s) as [r|]; [destruct (r_phase r); try done|]; injection Es as <-; exact J. }
  all: destruct (blocked s) eqn:B; [done|]; try (injection Es as <-; by eapply serial_ok_same).
  - destruct (n_phase s) eqn:Ph; try done. injection Es as <-. by apply supervise_start_ok.
  - destruct (n_phase s) eqn:Ph; try done. by eapply active_poll_ok.
  - destruct (n_phase s) eqn:Ph; try done. by eapply write_step_ok.
  - destruct (n_phase s) eqn:Ph; try done. injection Es as <-. by apply tick_ok.
  - destruct (n_phase s) as [| | | | |k g| |] eqn:Ph; try done. pose proof (so_phase _ O) as P. unfold phase_ok in P. rewrite Ph in P.
    destruct P as (I & Hp & Hg). destruct k; injection Es as <-; [by apply reopened_ok|by apply purge_turn_ok].
  - injection Es as <-. by apply stop_node_ok.
  - injection Es as <-. pose proof (stop_node_ok s O) as [F Ca _]. split; cbn in *.
    + intros r. destruct (n_reader s) as [r0|]; [|done]. intros [= <-]. cbn. by apply (F (mkReader (r_fd r0) (r_phase r0) true)).
    + intros Hr. apply Ca. by destruct (n_reader s).
    + done.
Qed.

Lemma serial_new_ok device src opened depth now f feed : serial_ok (serial_new device src opened depth now f feed).
Proof.
  unfold serial_new. destruct opened as [[[e hf]|pid]|]; [destruct (not_found e)|..]; split; cbn; try done; unfold phase_ok; cbn; split_and!; done.
Qed.

Lemma serial_run_ok ops s s' : serial_ok s -> serial_run ops s = Some s' -> serial_ok s'.
Proof.
  revert s. induction ops as [|op ops IH]; intros s O; cbn; [by intros [= <-]|].
  intros (s1 & E1 & E2)%bind_Some. eapply IH; [by eapply serial_step_ok|done].
Qed.

(** ** Targetward bytes *)

Abbreviation bytes_of := (fun c : list byte => len c) (only parsing).

(** Chunks written whole, and the others. *)
Definition whole (cw : list byte * list byte) : Z := if bool_decide (cw.1 = cw.2) then len cw.1 else 0.
Definition failed (cw : list byte * list byte) : Z := if bool_decide (cw.1 = cw.2) then 0 else len cw.1.

(** The chunk being written and what is left of it. *)
Definition in_hand (s : Serial) : list byte := match n_phase s with Writing rest _ => rest | _ => [] end.

(** Not stopped by [signal_stop]. *)
Definition running (s : Serial) : bool :=
  match n_phase s with Aborted | Gone | Joining JTeardown => false | _ => true end.

(** [part]: what the fd took of the chunk in hand. *)
Record targetward_ok (M : Z) (s : Serial) (l : Lane C (list byte)) (part : list byte) : Prop := {
  to_lanes : lanes (queues (n_targetward s)) = [l];
  to_td : td_bytes (queues (n_targetward s)) = 0;
  to_lane : lane_ok M l;
  to_wire : wire (n_targetward s) = concat (sent (n_targetward s)).*2 ++ part;
  to_hand : hand l = match n_phase s with Writing rest _ => Some (part ++ rest) | _ => None end;
  to_part : match n_phase s with Writing rest _ => rest <> [] | _ => part = [] end;
  to_prefix : Forall (fun cw => cw.2 `prefix_of` cw.1) (sent (n_targetward s));
  to_whole : Inbox.delivered l = total whole (sent (n_targetward s));
  to_failed : uncharged l = total failed (sent (n_targetward s));
  to_charged : charged l = 0 }.

Lemma lane_op_lanes op t l :
  lanes (queues t) = [l] -> lanes (queues (lane_op op t)) = [lane_step op l] /\ td_bytes (queues (lane_op op t)) = td_bytes (queues t).
Proof. intros El. unfold lane_op. cbn. by rewrite El. Qed.

(** Operations of the lane that leave the hand and the dispositions alone. *)
Lemma lane_step_side (op : LaneOp (T := list byte)) (l : Lane C (list byte)) :
  match op with LSend _ | LResume | LPurge | LSettle => True | _ => False end ->
  hand (lane_step op l) = hand l /\ Inbox.delivered (lane_step op l) = Inbox.delivered l /\ charged (lane_step op l) = charged l
  /\ uncharged (lane_step op l) = uncharged l.
Proof.
  assert (At : forall (x : list byte) (l0 l' : Lane C (list byte)), attempt_send x l0 = Some l' -> hand l' = hand l0 /\ Inbox.delivered l' = Inbox.delivered l0 /\ charged l' = charged l0
    /\ uncharged l' = uncharged l0).
  { intros x l0 l'. unfold attempt_send. destruct (slot (inbox l0)) as [rx|]; [|by intros [= <-]].
    destruct (try_send rx x) as [[] rx']; [by intros [= <-]|done|by intros [= <-]]. }
  destruct op as [x| |sd| | | | |]; try done; intros _; cbn.
  - destruct (attempt_send x l) as [l'|] eqn:Ea; cbn; [by eapply At|done].
  - destruct (writers l) as [|x ws]; [done|]. destruct (attempt_send x (set_writers ws l)) as [l'|] eqn:Ea; cbn; [|done].
    destruct (At _ _ _ Ea) as (-> & -> & -> & ->). done.
  - by destruct (hand l) eqn:Eh; cbn.
  - unfold purge_lane. by destruct (purge_round (inbox l)) as [[b d] i].
Qed.

Lemma targetward_side M op s l part :
  targetward_ok M s l part -> op_small M op -> match op with LSend _ | LResume | LPurge | LSettle => True | _ => False end ->
  targetward_ok M (put_targetward (lane_op op (n_targetward s)) s) (lane_step op l) part.
Proof.
  intros [] Hop Hside. destruct (lane_op_lanes op _ _ to_lanes0) as [L1 L2]. destruct (lane_step_side op l Hside) as (E1 & E2 & E3 & E4).
  split; cbn [put_targetward n_targetward n_phase]; try done; [by apply lane_step_ok|by rewrite E1|by rewrite E2|by rewrite E4|by rewrite E3].
Qed.

(** What the targetward side does not see. *)
Lemma targetward_same M s s' l part :
  targetward_ok M s l part -> n_targetward s' = n_targetward s ->
  match n_phase s, n_phase s' with Writing r _, Writing r' _ => r' = r | Writing _ _, _ => False | _, Writing _ _ => False | _, _ => True end ->
  targetward_ok M s' l part.
Proof.
  intros [] E1 E2. split; rewrite ?E1; try done.
  - rewrite to_hand0. destruct (n_phase s), (n_phase s'); try done. by subst.
  - destruct (n_phase s), (n_phase s'); try done. by subst.
Qed.

(** A chunk is done with: whole, or with something left. *)
Lemma chunk_done_ok M s s' l rest part :
  targetward_ok M s l part -> (exists wait, n_phase s = Writing rest wait) ->
  n_targetward s' = chunk_done rest (n_targetward s) -> match n_phase s' with Writing _ _ => False | _ => True end ->
  exists l', targetward_ok M s' l' [].
Proof.
  intros [] [wait Ph] E1 E2. rewrite Ph in *. unfold chunk_done in E1. rewrite to_lanes0 in E1. cbn [head] in E1. rewrite to_hand0 in E1.
  rewrite (bool_decide_false (rest = [])) in E1 by done. destruct (lane_op_lanes LDrop _ _ to_lanes0) as [L1 L2].
  replace (length (part ++ rest) - length rest)%nat with (length part) in E1 by (rewrite length_app; lia). rewrite take_app_length in E1.
  assert (Ne : bool_decide (part ++ rest = part) = false).
  { apply bool_decide_false. intros Ep. apply to_part0. apply (f_equal length) in Ep. rewrite length_app in Ep. destruct rest; [done|cbn in Ep; lia]. }
  exists (lane_step LDrop l). split; rewrite ?E1; cbn [queues wire sent]; try done.
  - by apply lane_step_ok.
  - change (wire (lane_op LDrop (n_targetward s))) with (wire (n_targetward s)). change (sent (lane_op LDrop (n_targetward s))) with (sent (n_targetward s)).
    rewrite to_wire0, fmap_app, concat_app. cbn. by rewrite !app_nil_r.
  - cbn. rewrite to_hand0. by destruct (n_phase s').
  - by destruct (n_phase s').
  - apply Forall_app. split; [done|]. constructor; [|done]. cbn. by exists rest.
  - cbn. rewrite to_hand0. cbn. rewrite to_whole0. autorewrite with snx_len. unfold whole. cbn. rewrite Ne. lia.
  - cbn. rewrite to_hand0. cbn. rewrite to_failed0. autorewrite with snx_len. unfold failed. cbn. rewrite Ne. autorewrite with snx_len. lia.
  - cbn. by rewrite to_hand0.
Qed.

(** More of the chunk in hand is written. *)
Lemma write_rest_targetward M s l part w rest wait :
  lanes (queues (n_targetward s)) = [l] -> td_bytes (queues (n_targetward s)) = 0 -> lane_ok M l ->
  wire (n_targetward s) = concat (sent (n_targetward s)).*2 ++ part ++ w -> hand l = Some (part ++ w ++ rest) ->
  Forall (fun cw => cw.2 `prefix_of` cw.1) (sent (n_targetward s)) ->
  Inbox.delivered l = total whole (sent (n_targetward s)) -> uncharged l = total failed (sent (n_targetward s)) -> charged l = 0 ->
  exists l' part', targetward_ok M (write_rest rest wait s) l' part'.
Proof.
  intros L Td O W Hd Pf Dl Ch C0. destruct rest as [|b rest]; cbn [write_rest].
  - rewrite app_nil_r in Hd. exists (lane_step LDeliver l), []. destruct (lane_op_lanes LDeliver _ _ L) as [L1 L2].
    assert (chunk_done [] (n_targetward s) = mkTargetward (serving (n_targetward s)) (queues (lane_op LDeliver (n_targetward s)))
              (wire (n_targetward s)) (sent (n_targetward s) ++ [(part ++ w, part ++ w)])) as Ec.
    { unfold chunk_done. rewrite L. cbn [head]. rewrite Hd. rewrite Nat.sub_0_r, firstn_all. done. }
    split; cbn [to_phase put_targetward n_targetward n_phase]; rewrite ?Ec; cbn [queues wire sent]; try done.
    + by apply lane_step_ok.
    + rewrite W, fmap_app, concat_app. cbn. by rewrite !app_nil_r.
    + cbn. by rewrite Hd.
    + apply Forall_app. split; [done|]. by constructor.
    + cbn. rewrite Hd. cbn. rewrite Dl. autorewrite with snx_len. unfold whole. cbn. rewrite bool_decide_true by done. autorewrite with snx_len. lia.
    + cbn. rewrite Hd. cbn. rewrite Ch. autorewrite with snx_len. unfold failed. cbn. rewrite bool_decide_true by done. lia.
    + cbn. by rewrite Hd.
  - exists l, (part ++ w). split; cbn; try done. by rewrite Hd, <- app_assoc.
Qed.

Definition targetward_good (M : Z) (s : Serial) : Prop := running s = true -> exists l part, targetward_ok M s l part.

Lemma good_same M s s' :
  targetward_good M s -> n_targetward s' = n_targetward s -> n_phase s' = n_phase s -> targetward_good M s'.
Proof.
  intros G E1 E2. unfold targetward_good, running. rewrite E2. intros R. destruct (G R) as (l & part & O). exists l, part.
  eapply targetward_same; [exact O|done|]. rewrite E2. by destruct (n_phase s).
Qed.

(** Between chunks the supervisor may be anywhere. *)
Lemma good_phase M s s' :
  targetward_good M s -> running s = true -> n_targetward s' = n_targetward s ->
  match n_phase s with Writing _ _ => False | _ => True end -> match n_phase s' with Writing _ _ => False | _ => True end ->
  targetward_good M s'.
Proof.
  intros G R E1 P1 P2 _. destruct (G R) as (l & part & O). exists l, part. eapply targetward_same; [exact O|done|].
  by destruct (n_phase s), (n_phase s').
Qed.

Lemma reader_step_side op s s' :
  reader_step op s = Some s' -> n_phase s' = n_phase s /\ n_targetward s' = n_targetward s /\ n_shared s' = n_shared s.
Proof.
  intros (r & _ & E1)%bind_Some.
  destruct op as [|pi ph|a sd]; destruct (r_phase r); try discriminate E1; injection E1 as <-; [done|by destruct pi; [|destruct ph]|].
  by destruct a as [[|]| |].
Qed.

Lemma reopened_side g a now s :
  n_targetward (reopened g a now s) = n_targetward s /\ match n_phase (reopened g a now s) with Active | Polling => True | _ => False end.
Proof.
  unfold reopened. destruct (port _) as [pid|]; [|done]. destruct (negb _); [done|]. by destruct a.
Qed.

Lemma purge_turn_good M k g a now s :
  targetward_good M s -> running s = true -> match n_phase s with Writing _ _ => False | _ => True end ->
  targetward_good M (purge_turn k g a now s).
Proof.
  intros G R P. unfold purge_turn. destruct (head _) as [l0|] eqn:Hl.
  2: { destruct (reopened_side g a now s) as [E1 E2]. eapply good_phase; [exact G|done..|]. by destruct (n_phase (reopened g a now s)). }
  set (s1 := put_targetward _ s). assert (G1 : targetward_good M s1).
  { intros _. destruct (G R) as (l & part & O). exists (lane_step LPurge l), part. by apply targetward_side. }
  destruct (purge_lane l0).1; [by eapply good_phase|].
  destruct (reopened_side g a now s1) as [E1 E2]. eapply good_phase; [exact G1|done..|]. by destruct (n_phase (reopened g a now s1)).
Qed.

Lemma active_poll_good M senders s s' :
  targetward_good M s -> n_phase s = Active -> active_poll senders s = Some s' -> targetward_good M s'.
Proof.
  intros G Ph. assert (R : running s = true) by (unfold running; by rewrite Ph). unfold active_poll. destruct (lost _).
  { intros [= <-]. eapply good_phase; [exact G|done|done|by rewrite Ph|done]. }
  destruct (serving _); [|done]. destruct (G R) as (l & part & []). rewrite Ph in *. subst part. rewrite to_lanes0. cbn [head].
  intros (l' & [= <-] & [= <-])%bind_Some. destruct (lane_op_lanes (LRecv senders) _ _ to_lanes0) as [L1 L2].
  pose proof (lane_step_ok M (LRecv senders) l to_lane0 I) as O1. cbn [lane_step] in O1, L1. rewrite to_hand0 in O1, L1.
  destruct (recv senders (inbox l)) as [p i]. cbn [fst]. set (s1 := put_targetward _ s).
  assert (Rest : p = Pending \/ p = Ready None -> targetward_ok M s1 (set_hand None (set_inbox i l)) []).
  { intros Hp. assert (match p with Ready o => o | Pending => None end = None :> option (list byte)) as Ep by by destruct Hp as [->| ->].
    rewrite Ep in *. split; cbn [put_targetward n_targetward n_phase s1]; rewrite ?Ph; done. }
  destruct p as [|[chunk|]].
  - intros _. eexists _, _. apply Rest. by left.
  - intros _. eapply (write_rest_targetward M s1 _ [] [] chunk ACTIVE_POLL); cbn [put_targetward n_targetward n_phase s1]; [exact L1|by rewrite L2|exact O1|..]; try done.
  - intros _. eexists _, _. eapply (targetward_same M (put_targetward _ s1)); [|done|by destruct (n_phase (put_targetward _ s1))].
    specialize (Rest (or_intror eq_refl)). destruct Rest. split; try done.
Qed.

Lemma write_step_good M a rest wait s s' :
  targetward_good M s -> n_phase s = Writing rest wait -> write_step a rest wait s = Some s' -> targetward_good M s'.
Proof.
  intros G Ph. assert (R : running s = true) by (unfold running; by rewrite Ph). unfold write_step.
  destruct (match a with WWrote n => _ | _ => _ end); [done|]. destruct (G R) as (l & part & O).
  destruct (write_turn a wait rest) as [[[e|[w rest']] sl] wait'] eqn:Et; intros [= <-] _.
  - set (s' := begin_join _ _). destruct (chunk_done_ok M s s' l rest part) as [l' O']; [exact O|by eexists|done..|]. by exists l', [].
  - destruct O. rewrite Ph in *. assert (rest = w ++ rest') as ->.
    { destruct a as [[|n]|[] []|]; cbn in Et; try done; injection Et as <- <-; by rewrite ?take_drop. }
    eapply (write_rest_targetward M _ l part w rest' wait'); cbn; try done. by rewrite to_wire0, <- app_assoc.
Qed.

Definition sop_small (M : Z) (op : SerialOp) : Prop := match op with SSend c => len c <= M | _ => True end.

Lemma serial_step_good M op s s' : targetward_good M s -> sop_small M op -> serial_step op s = Some s' -> targetward_good M s'.
Proof.
  intros G Hop Es. destruct op; cbn in Es.
  1: { destruct (reader_step_side _ _ _ Es) as (E1 & E2 & _). by eapply good_same. }
  4: { destruct (n_phase s) as [| | |why| | | |] eqn:Ph; try done.
       assert (targetward_good M (joined why now s)) as J.
       { destruct why; [|intros [=]]. eapply good_phase; [exact G|unfold running; by rewrite Ph|done|by rewrite Ph|done]. }
       destruct (n_reader s) as [r|]; [destruct (r_phase r); try done|]; injection Es as <-; exact J. }
  all: destruct (blocked s) eqn:B; [done|].
  - destruct (n_phase s) eqn:Ph; try done. injection Es as <-. assert (R : running s = true) by (unfold running; by rewrite Ph).
    unfold supervise_start. destruct (port (n_shared s)) as [pid|]; [destruct a; cbn|];
      (eapply good_phase; [exact G|done|done|by rewrite Ph|done]).
  - destruct (n_phase s) eqn:Ph; try done. by eapply active_poll_good.
  - destruct (n_phase s) eqn:Ph; try done. by eapply write_step_good.
  - destruct (n_phase s) eqn:Ph; try done. injection Es as <-. assert (R : running s = true) by (unfold running; by rewrite Ph).
    unfold tick. destruct opened as [[[e hf]|pid]|]; [|set (s1 := put_shared _ s)|done].
    + destruct (not_found e); [done|by eapply good_same].
    + assert (G1 : targetward_good M s1) by by eapply good_same. assert (R1 : running s1 = true) by done.
      assert (P1 : match n_phase s1 with Writing _ _ => False | _ => True end) by (cbn; by rewrite Ph).
      destruct (_ && _); [by apply purge_turn_good|]. match goal with |- context [reopened ?g a now s1] => destruct (reopened_side g a now s1) as [E1 E2] end.
      eapply good_phase; [exact G1|done..|]. by destruct (n_phase (reopened _ a now s1)).
  - destruct (n_phase s) as [| | | | |k g| |] eqn:Ph; try done. assert (R : running s = true) by (unfold running; by rewrite Ph).
    destruct k; injection Es as <-.
    + destruct (reopened_side g a now s) as [E1 E2]. eapply good_phase; [exact G|done|done|by rewrite Ph|]. by destruct (n_phase (reopened g a now s)).
    + apply purge_turn_good; [done|done|by rewrite Ph].
  - injection Es as <-. intros R. destruct (G R) as (l & part & O). exists (lane_step (LSend chunk) l), part. by apply targetward_side.
  - injection Es as <-. intros R. destruct (G R) as (l & part & O). exists (lane_step LResume l), part. by apply targetward_side.
  - injection Es as <-. by eapply good_same.
  - injection Es as <-. by eapply good_same.
  - injection Es as <-. intros [=].
  - injection Es as <-. intros [=].
Qed.

Lemma serial_run_good M ops s s' :
  targetward_good M s -> Forall (sop_small M) ops -> serial_run ops s = Some s' -> targetward_good M s'.
Proof.
  intros G Hs. revert s G. induction Hs as [|op ops Hop Hs IH]; intros s G; cbn; [by intros [= <-]|].
  intros (s1 & E1 & E2)%bind_Some. eapply IH; [by eapply serial_step_good|done].
Qed.

Lemma serial_new_good M device src opened depth now f feed : 0 <= M -> 0 < depth -> targetward_good M (serial_new device src opened depth now f feed).
Proof.
  intros HM Hd _. exists (lane_new depth), []. unfold serial_new.
  destruct opened as [[[e hf]|pid]|]; split; cbn; try done; by apply lane_new_ok.
Qed.

(** ** Theorems *)

(** C30: The serial node's state is coherent and no loss goes unnoticed. However the reader
    thread, the supervisor, the reconnect poll, the writers and a teardown interleave: while a reader
    lives the node holds the port it reads; [active] means a port held by an armed reader nobody
    asked to stop, and once that reader returns the next poll of the supervisor sees the loss;
    a node that polls for its device has no port, no reader and is not active, and one that purges
    still owns the port it adopted; a lost device is reported waiting, its port let go, with the
    first cause that was known since the reader was armed, and the next outage starts without one. *)
Theorem serial_state_coherent device src opened depth now f feed ops s :
  serial_run ops (serial_new device src opened depth now f feed) = Some s ->
  (forall r, n_reader s = Some r -> port (n_shared s) = Some (r_fd r))
  /\ match n_phase s with
     | Active | Writing _ _ =>
         is_active (status (n_shared s)) = true /\ exists r, n_reader s = Some r /\ r_stop r = false
         /\ (n_phase s = Active -> r_phase r = RExit ->
               forall senders, exists s', serial_step (SActive senders) s = Some s' /\ n_phase s' = Joining JLost)
     | Polling => is_active (status (n_shared s)) = false /\ port (n_shared s) = None /\ n_reader s = None
     | Purging _ g => is_active (status (n_shared s)) = false /\ n_reader s = None
         /\ port (n_shared s) <> None /\ generation (n_shared s) = g
     | _ => True
     end
  /\ (n_phase s = Joining JLost -> forall now' s', serial_step (SJoined now') s = Some s' ->
        node_status (status (n_shared s')) = Waiting (DeviceLost (loss_text (first_cause (stamps (n_loss s)))))
        /\ port (n_shared s') = None /\ cause (n_loss s') = UNSET).
Proof.
  intros Er. pose proof (serial_run_ok _ _ _ (serial_new_ok device src opened depth now f feed) Er) as [F Ca P]. split; [done|]. unfold phase_ok in P. split.
  - destruct (n_phase s) eqn:Ph; try done.
    + destruct P as [A (r & Hr & St & X)]. split; [done|]. exists r. split_and!; [done..|]. intros _ Ex senders.
      unfold serial_step, blocked. rewrite Ph. unfold active_poll. rewrite X by done. eexists. split; reflexivity.
    + destruct P as [A (r & Hr & St & X)]. split; [done|]. by exists r.
    + by destruct P as [(A & R & _) Hp].
    + by destruct P as [(A & R & _) Hp].
  - intros Ph now' s'. rewrite Ph in P. destruct P as [A (r & Hr & _)]. unfold serial_step. rewrite Ph, Hr. destruct (r_phase r); try done.
    intros [= <-]. cbn. split_and!; [|done..]. rewrite <- Ca by by rewrite Hr. unfold set_status, set_at.
    case_bool_decide as B; [|done]. cbn. done.
Qed.

(** C31: What becomes of the bytes for a serial device. Until the node is stopped, whatever
    interleaves: the fd took the chunks of the queue in the order they were taken, every one whole
    except those whose write failed, of which it took a proper prefix and which are on no counter; every byte the queue
    accepted was written in a whole chunk, was in a chunk that failed, was purged on a
    reconnect, is queued, or is in the chunk being written; and stopping the node now charges
    exactly the queue, the chunk being written and, until the next receive, the last chunk done with. *)
Theorem serial_targetward_exact M device src opened depth now f feed ops s :
  0 <= M -> 0 < depth -> Forall (sop_small M) ops ->
  serial_run ops (serial_new device src opened depth now f feed) = Some s -> running s = true ->
  exists l part, lanes (queues (n_targetward s)) = [l]
  /\ wire (n_targetward s) = concat (sent (n_targetward s)).*2 ++ part
  /\ Forall (fun cw => cw.2 `prefix_of` cw.1) (sent (n_targetward s))
  /\ hand l = match n_phase s with Writing rest _ => Some (part ++ rest) | _ => None end
  /\ accepted l = total whole (sent (n_targetward s)) + total failed (sent (n_targetward s)) + purged l
                  + queued_bytes l + hand_bytes l
  /\ uncharged l = total failed (sent (n_targetward s)) /\ charged l = 0
  /\ (accepted l + M <= u64_max ->
      td_bytes (queues (n_targetward (stop_node s))) = queued_bytes l + hand_bytes l + idle_held l).
Proof.
  intros HM Hd Hs Er R. destruct (serial_run_good M _ _ _ (serial_new_good M device src opened depth now f feed HM Hd) Hs Er R) as (l & part & []).
  pose proof (lo_bytes _ _ to_lane0) as B. exists l, part. split_and!; try done.
  - unfold undisposed in B. rewrite to_whole0, to_failed0, to_charged0 in B. lia.
  - intros Hmax. assert (node_ok M (queues (n_targetward s))) as NO by (split; [rewrite to_lanes0; by constructor|done]).
    pose proof (over_report_bound M _ (proj1 NO)) as Ho. unfold over_report in Ho. rewrite to_lanes0, total_cons, total_nil in Ho. change (len [l]) with 1 in Ho.
    destruct to_lane0. unfold undisposed in B.
    destruct (stop_total M _ NO) as (E1 & _); [unfold over_report; rewrite to_lanes0, !total_cons, !total_nil; unfold undisposed; lia|].
    change (td_bytes (queues (n_targetward (stop_node s)))) with (td_bytes (Inbox.signal_stop (queues (n_targetward s)))).
    rewrite E1. unfold over_report. rewrite to_lanes0, !total_cons, !total_nil. unfold undisposed. lia.
Qed.

(** The reader's fast arm is the slow one. Discarding a read unallocated when nobody
    listens leaves exactly what mirroring it and broadcasting it to nobody would: the same unattached
    counter, the same hole in the tap's offsets. *)
Theorem reader_fast_arm_is_slow_arm sent bytes h :
  reader_chunk sent bytes h =
    let '(_, sinks, discarded) := fan_out bytes (sinks h) (discarded_unattached h) in
    mkHostward sinks ((fun f => mirror f bytes sent) <$> tap_feed h) discarded (chunks_read h ++ [bytes]).
Proof.
  unfold reader_chunk. destruct (fanout_is_empty (sinks h)) eqn:Em; [|done]. unfold fanout_is_empty in Em. apply bool_decide_eq_true in Em.
  rewrite Em. cbn. destruct (tap_feed h) as [fd|]; cbn; [|done]. unfold mirror, wanted. by destruct (active (feed_hub fd)).
Qed.

(** Stopping a reader waits for the device to fall silent. A reader asked to stop
    returns, and the join ends, once a read would block or a poll finds nothing; but the drain loop
    does not look at the flag: as long as every read finds data, any number of reads later, the
    thread is still reading and the runtime thread still blocked in the join. *)
Theorem stop_waits_for_silence why r s cs :
  n_phase s = Joining why -> n_reader s = Some r -> r_stop r = true -> r_phase r = RDrain -> Forall (.≠ []) cs ->
  (exists s', serial_run [SReader (RRead ReadWouldBlock true); SReader RCheckStop] s = Some s' /\ forall now, serial_step (SJoined now) s' <> None)
  /\ exists s', serial_run ((fun c => SReader (RRead (ReadOk c) true)) <$> cs) s = Some s'
      /\ chunks_read (n_hostward s') = chunks_read (n_hostward s) ++ cs
      /\ forall op, (forall rop, op <> SReader rop) -> serial_step op s' = None.
Proof.
  intros Ph Hr St Rp Hcs. split.
  - eexists. split; [cbn; unfold reader_step; cbn; rewrite Hr; cbn; rewrite Rp; cbn; rewrite St; reflexivity|]. intros now. cbn. by rewrite Ph.
  - revert s Ph Hr. induction Hcs as [|c cs Hc Hcs IH]; intros s Ph Hr.
    + exists s. split_and!; [done|by rewrite app_nil_r|]. intros op Hop. unfold serial_step, blocked. rewrite Ph, Hr, Rp.
      destruct op; try done. by destruct (Hop op).
    + assert (serial_step (SReader (RRead (ReadOk c) true)) s = Some (put_hostward (reader_chunk true c (n_hostward s)) s)) as E1.
      { cbn. unfold reader_step. rewrite Hr. cbn. rewrite Rp. by destruct c. }
      destruct (IH (put_hostward (reader_chunk true c (n_hostward s)) s)) as (s' & R' & Cr & Bl); [done..|].
      exists s'. split_and!; [rewrite fmap_cons; cbn [serial_run]; rewrite E1; exact R'| |done].
      rewrite Cr. cbn. by rewrite reader_chunk_read, <- app_assoc.
Qed.
End serial.

(** ** Writes *)

(** An answer that is no failure, and one that makes progress. *)
Definition benign (a : WriteAnswer) : bool :=
  match a with WWrote n => (0 <? n)%nat | WBlock out hup => out || negb hup | WErr _ => false end.
Definition progress (a : WriteAnswer) : bool := match a with WWrote n => (0 <? n)%nat | _ => false end.

(** [write_all] writes in order, completely or not, and paces itself. Whatever the fd
    answers, what it took is a prefix of the data, all of it exactly when the result is a success;
    each wait lies between the active and the idle poll interval, whatever the fd does; and
    without errors as many productive answers as there are bytes are enough for success. *)
Theorem write_all_exact answers wait data :
  ACTIVE_POLL <= wait <= IDLE_POLL ->
  let '(w, sleeps, r) := write_all answers wait data in
  (exists rest, data = w ++ rest /\ (r = Some (inr tt) <-> rest = []))
  /\ Forall (fun s => ACTIVE_POLL <= s <= IDLE_POLL) sleeps
  /\ (forallb benign answers = true -> (length data <= length (filter (fun a => progress a = true) answers))%nat -> r = Some (inr tt)).
Proof.
  revert wait data. induction answers as [|a answers IH]; intros wait data Hw.
  { destruct data as [|b data]; cbn; (split_and!; [|done|]); [by exists []|done|by exists (b :: data)|intros _ L; lia]. }
  destruct data as [|b data]; [cbn; split_and!; [by exists []|done..]|]. cbn [write_all].
  destruct (write_turn a wait (b :: data)) as [[[e|[w0 data']] sleep] wait'] eqn:Et.
  { split_and!; [by exists (b :: data)|done|]. intros [Ha _]%andb_prop. destruct a as [[|n]|[] []|]; done. }
  assert (b :: data = w0 ++ data' /\ ACTIVE_POLL <= wait' <= IDLE_POLL /\ (match sleep with Some s => s = wait | None => True end)
          /\ (length data' <= length (b :: data) - (if progress a then 1 else 0))%nat) as (Ed & Hw' & Hsl & Hl).
  { unfold ACTIVE_POLL, IDLE_POLL in *.
    destruct a as [[|n]|[] hup|]; cbn in Et; [done| |by injection Et as <- <- <- <-|destruct hup; [done|]|done].
    - injection Et as <- <- <- <-. unfold ACTIVE_POLL. cbn [app progress length Nat.ltb Nat.leb]. rewrite take_drop, length_drop. split_and!; [done|lia|lia|done|lia].
    - injection Et as <- <- <- <-. unfold back_off, IDLE_POLL. cbn [app progress]. split_and!; [done|lia|lia|done|lia]. }
  specialize (IH wait' data' Hw'). destruct (write_all answers wait' data') as [[w sl] r]. destruct IH as ((rest & Er & Hr) & Fs & Hen). split_and!.
  - exists rest. by rewrite Ed, Er, app_assoc.
  - destruct sleep; [|done]. constructor; [lia|done].
  - cbn [forallb]. intros [Ha Hb]%andb_prop Hlen. apply Hen; [done|]. rewrite filter_cons in Hlen. destruct (progress a) eqn:Pa.
    + rewrite decide_True in Hlen by done. cbn in Hlen, Hl. lia.
    + rewrite decide_False in Hlen by done. cbn in Hlen, Hl. lia.
Qed.

(** A write that fails with an error number is reported as a failed read: the number is stamped first. *)
Lemma write_error_reported_as_read errno :
  errno <> UNSET -> errno <> EOF -> errno <> WRITE_FAILED ->
  loss_text (cause_set WRITE_FAILED (cause_set_errno (Os errno) UNSET)) = ReadFailed errno.
Proof.
  intros N1 N2 N3. unfold cause_set_errno, cause_set, loss_text. cbn.
  destruct (Z.eqb_spec errno UNSET); [done|]. destruct (Z.eqb_spec errno UNSET); [done|]. destruct (Z.eqb_spec errno EOF); [done|].
  by destruct (Z.eqb_spec errno WRITE_FAILED).
Qed.

(** ** Witnesses *)

Section demo.
#[local] Existing Instance Pattern.literal_engine.

Definition demo_errors (e : string) : bool := bool_decide (e = "ENOENT"%string).
Abbreviation DemoOp := (SerialOp (C := Bounded) (E := string)) (only parsing).
Definition demo_node : Serial (C := Bounded) := serial_new demo_errors RtsCts "usb:0403:6001:A1:00" true (Some (inr 1%N)) 4 0 [] None.
Abbreviation demo_run ops := (serial_run (C := Bounded) demo_errors true RtsCts ops demo_node) (only parsing).

(** Two chunks; the second write fails with EIO after one byte; then the outage. *)
Definition demo_outage : list DemoOp :=
  [SStart Armed 1; SSend [x61; x62]; SSend [x63; x64]; SActive true; SWrite (WWrote 2); SActive true; SWrite (WWrote 1); SWrite (WErr 5);
   SReader RCheckStop; SJoined 2].
(** The device comes back, and the writer waits for more. *)
Definition demo_back : list DemoOp := demo_outage ++ [STick (Some (inr 2%N)) Armed 3; SActive true].

Definition demo_after (ops : list DemoOp) : Serial := default demo_node (demo_run ops).

(** What the operator sees of the outage: the failed chunk counted, and attributed to a read. *)
Example outage_seen :
  demo_run demo_outage = Some (demo_after demo_outage)
  /\ node_status (status (n_shared (demo_after demo_outage))) = Waiting (DeviceLost (ReadFailed 5))
  /\ wire (n_targetward (demo_after demo_outage)) = [x61; x62; x63]
  /\ td_bytes (queues (n_targetward (stop_node (demo_after demo_outage)))) = 2.
Proof. by vm_compute. Qed.

(** After the reconnect the failed chunk is on no counter: four bytes accepted, two delivered, none purged, none counted at teardown. *)
Lemma reconnect_forgets_failed_chunk :
  let s := demo_after demo_back in
  demo_run demo_back = Some s
  /\ is_active (status (n_shared s)) = true
  /\ (fun l : Lane Bounded (list byte) => (accepted l, Inbox.delivered l, charged l, purged l, uncharged l, queued_bytes l))
     <$> lanes (queues (n_targetward s)) = [(4, 2, 0, 0, 2, 0)]
  /\ td_bytes (queues (n_targetward (stop_node s))) = 0.
Proof. by vm_compute. Qed.

Lemma serial_state_coherent_witness :
  n_reader (demo_after demo_back) = Some (mkReader 2 RHead false) /\ port (n_shared (demo_after demo_back)) = Some 2%N.
Proof.
  assert (R : n_reader (demo_after demo_back) = Some (mkReader 2 RHead false)) by (vm_compute; reflexivity). split; [exact R|].
  pose proof (proj1 reconnect_forgets_failed_chunk : demo_run demo_back = Some (demo_after demo_back)) as Er.
  destruct (serial_state_coherent _ _ _ _ _ _ _ _ _ _ _ _ Er) as (F & _). exact (F _ R).
Defined.

Lemma serial_targetward_exact_witness :
  exists l part, lanes (queues (n_targetward (demo_after demo_outage))) = [l]
    /\ wire (n_targetward (demo_after demo_outage)) = concat (sent (n_targetward (demo_after demo_outage))).*2 ++ part.
Proof.
  assert (Hs : Forall (sop_small (C := Bounded) (E := string) 2) demo_outage) by (repeat constructor; by vm_compute).
  assert (R : running (demo_after demo_outage) = true) by (vm_compute; reflexivity).
  destruct (serial_targetward_exact _ _ _ 2 _ _ _ 4 _ _ _ _ _ ltac:(lia) ltac:(lia) Hs (proj1 outage_seen) R) as (l & part & El & Ew & _).
  by exists l, part.
Defined.

Definition demo_join : list DemoOp :=
  [SStart Armed 1; SReader RCheckStop; SReader (RPoll true false); STeardown].

Lemma stop_waits_for_silence_witness :
  n_phase (demo_after demo_join) = Joining JTeardown
  /\ exists s', serial_run (C := Bounded) demo_errors true RtsCts [SReader (RRead (ReadOk [x61]) true)] (demo_after demo_join) = Some s'
      /\ serial_step (C := Bounded) demo_errors true RtsCts (SJoined 2) s' = None.
Proof.
  split; [vm_compute; reflexivity|].
  destruct (stop_waits_for_silence (C := Bounded) demo_errors true RtsCts JTeardown (mkReader 1 RDrain true) (demo_after demo_join) [[x61]]
    ltac:(vm_compute; reflexivity) ltac:(vm_compute; reflexivity) ltac:(reflexivity) ltac:(reflexivity) ltac:(by repeat constructor))
    as [_ (s' & R & _ & B)].
  exists s'. split; [exact R|]. apply B. done.
Defined.

Lemma write_all_exact_witness :
  write_all [WBlock false false; WWrote 1; WWrote 1] ACTIVE_POLL [x61; x62] = ([x61; x62], [200], Some (inr tt))
  /\ Forall (fun s => ACTIVE_POLL <= s <= IDLE_POLL) (write_all [WBlock false false; WWrote 1; WWrote 1] ACTIVE_POLL [x61; x62]).1.2.
Proof.
  split; [reflexivity|].
  exact (proj1 (proj2 (write_all_exact [WBlock false false; WWrote 1; WWrote 1] ACTIVE_POLL [x61; x62] ltac:(by vm_compute)))).
Defined.
End demo.
