(* ===== verification/Pty.v ===== *)
(** * The pty node: life cycle and hostward half (daemon/src/nodes/pty.rs)

    Creation ([setup] with the permissions and the symlink), [start], teardown, the baseline
    and observed termios, and the hostward half: the pump that fills the bounded bridge, the
    writer thread that empties it, presence gating.  PtyRead.v has the reader task.
    Every system call's answer is an argument; the system's own state that the node changes
    (the entry at the symlink's path, the pair's termios, the pts node's owner and mode) is a
    [World].  The Linux arms are modelled. *)

From S2P Require Import Prelude Config State Channel FanOut Paths.

(** ** Termios *)

Inductive CharSize := CS5 | CS6 | CS7 | CS8.

(** The flags the node looks at; [t_rest] is everything else. *)
Record Termios (R : Type) := mkTermios {
  t_echo : bool; t_extproc : bool; t_icanon : bool; t_csize : CharSize; t_parenb : bool; t_parodd : bool; t_rest : R }.
Arguments mkTermios {R} _ _ _ _ _ _ _.
Arguments t_echo {R} _.
Arguments t_extproc {R} _.
Arguments t_icanon {R} _.
Arguments t_csize {R} _.
Arguments t_parenb {R} _.
Arguments t_parodd {R} _.
Arguments t_rest {R} _.

Inductive Parity := ParityNone | ParityOdd | ParityEven.

(** The [client_termios] object of the state. *)
Record ClientTermios := mkClient {
  c_baud : Z; c_char_bits : Z; c_parity : Parity; c_echo : bool; c_icanon : bool; c_extproc : bool }.

Definition standard_rates : list Z := [9600; 19200; 38400; 57600; 115200; 230400; 460800; 921600].
Definition standard_baud (baud : Z) : option Z := if bool_decide (baud ∈ standard_rates) then Some baud else None.

(** What the C library does to a termios: a third party. *)
Class TermiosLib (R : Type) : Type := {
  cfmakeraw : Termios R -> Termios R;
  cfsetspeed : Z -> Termios R -> Termios R;
  cfgetospeed : Termios R -> Z }.

(** Setting a speed leaves the local flags alone. *)
Class TermiosLaws (R : Type) `{TermiosLib R} : Prop := {
  cfsetspeed_flags : forall baud t, t_echo (cfsetspeed baud t) = t_echo t /\ t_extproc (cfsetspeed baud t) = t_extproc t }.

Section termios.
Context {R : Type} `{TermiosLib R}.

Definition set_extproc (t : Termios R) : Termios R :=
  mkTermios (t_echo t) true (t_icanon t) (t_csize t) (t_parenb t) (t_parodd t) (t_rest t).
Definition clear_echo (t : Termios R) : Termios R :=
  mkTermios false (t_extproc t) (t_icanon t) (t_csize t) (t_parenb t) (t_parodd t) (t_rest t).

(** What [apply_baseline_fd] passes to [tcsetattr]. *)
Definition baseline (advertised_baud : Z) (t : Termios R) : Termios R :=
  let t := set_extproc (clear_echo (cfmakeraw t)) in
  match standard_baud advertised_baud with Some baud => cfsetspeed baud t | None => t end.

(** [reconcile_termios_fd] on what [tcgetattr] answers: the observed settings, and the
    settings it writes back, if any. *)
Definition reconcile_termios (t : Termios R) : ClientTermios * option (Termios R) :=
  let re := if t_extproc t then None else Some (set_extproc t) in
  let char_bits := match t_csize t with CS8 => 8 | CS7 => 7 | CS6 => 6 | CS5 => 5 end in
  let parity := if negb (t_parenb t) then ParityNone else if t_parodd t then ParityOdd else ParityEven in
  (mkClient (cfgetospeed t) char_bits parity (t_echo t) (t_icanon t) (t_extproc t), re).
End termios.

(** ** Creation *)

Section node.
Context {E R : Type} `{TermiosLib R} `{EqDecision E}.

(** What is at a path of the file system. *)
Inductive Entry := Link (target : string) | Other.

Inductive SysCall :=
| CPosixOpenpt | CCloexec | CGrantpt | CUnlockpt | CPtsname | CTcgetattr | CTcsetattr | CPacketMode
| CChown | CChmod | CPrimeOpen | CSymlink.

Inductive SetupError :=
| SysFailed (call : SysCall) (e : E)
| UserNotFound (owner : string)
| GroupNotFound (group : string)
| SymlinkExists
| PathExists.

#[local] Instance syscall_eq_dec : EqDecision SysCall.
Proof. solve_decision. Defined.
#[local] Instance setup_error_eq_dec : EqDecision SetupError.
Proof. solve_decision. Defined.

(** The texts of a fault. *)
Inductive PtyReason := SetupFault (e : SetupError) | SetNonblocking (e : E) | SpawnWriter (e : E).
#[export] Instance pty_reason_eq_dec : EqDecision PtyReason.
Proof. solve_decision. Defined.

(** A change of the slave device node that succeeded. *)
Inductive DevChange := Chowned (uid gid : option N) | Chmodded (mode : Z) | Opened.

Record World := mkWorld { w_entries : gmap string Entry; w_tty : Termios R; w_dev : list DevChange }.

(** What the system answers: [None] where a call succeeds. *)
Record Host := mkHost {
  fails : SysCall -> option E;
  openpt_fd : N; pts_name : string;
  user_from_name : string -> option N; group_from_name : string -> option N;
  target_exists : string -> bool;
  eexist : E; unlink_fails : bool }.

Record PtyNode := mkPty {
  name : string; path : string; mode : Z; owner : option string; group : option string;
  advertised_baud : Z; hostward_buffer : Z;
  master : option N; pts_path : option string; symlink_installed : bool;
  writer : option bool; tasks : nat;
  status : NodeState PtyReason }.

(** ** The setup's monad: an answer and the world, or the step that failed *)

Definition Setup (A : Type) : Type := World -> (SetupError + A) * World.
Definition done {A} (a : A) : Setup A := fun w => (inr a, w).
Definition fail {A} (e : SetupError) : Setup A := fun w => (inl e, w).
Definition andthen {A B} (m : Setup A) (k : A -> Setup B) : Setup B := fun w =>
  match m w with (inl e, w) => (inl e, w) | (inr a, w) => k a w end.

(** A call that changes the world by [f] when it succeeds. *)
Definition call (h : Host) (c : SysCall) (f : World -> World) : Setup unit := fun w =>
  match fails h c with Some e => (inl (SysFailed c e), w) | None => (inr tt, f w) end.

Definition set_tty (t : Termios R) (w : World) : World := mkWorld (w_entries w) t (w_dev w).
Definition set_entries (es : gmap string Entry) (w : World) : World := mkWorld es (w_tty w) (w_dev w).
Definition log_dev (d : DevChange) (w : World) : World := mkWorld (w_entries w) (w_tty w) (w_dev w ++ [d]).

Definition apply_baseline (h : Host) (baud : Z) : Setup unit :=
  andthen (call h CTcgetattr id) (fun _ => call h CTcsetattr (fun w => set_tty (baseline baud (w_tty w)) w)).

Definition lookup_name (db : string -> option N) (missing : string -> SetupError) (o : option string) : Setup (option N) :=
  match o with
  | None => done None
  | Some s => match db s with Some id => done (Some id) | None => fail (missing s) end
  end.

Definition apply_perms (h : Host) (n : PtyNode) : Setup unit :=
  andthen (lookup_name (user_from_name h) UserNotFound (owner n)) (fun uid =>
  andthen (lookup_name (group_from_name h) GroupNotFound (group n)) (fun gid =>
  andthen (if bool_decide (uid <> None) || bool_decide (gid <> None)
           then call h CChown (log_dev (Chowned uid gid)) else done tt) (fun _ =>
  call h CChmod (log_dev (Chmodded (mode n)))))).

Definition prime_slave (h : Host) : Setup unit := call h CPrimeOpen (log_dev Opened).

(** [symlink(2)] refuses an existing path. *)
Definition symlink (h : Host) (pts p : string) : Setup unit := fun w =>
  match w_entries w !! p with
  | Some _ => (inl (SysFailed CSymlink (eexist h)), w)
  | None => call h CSymlink (fun w => set_entries (<[p := Link pts]> (w_entries w)) w) w
  end.

(** [fs::remove_file], its error ignored. *)
Definition remove_file (h : Host) (p : string) (w : World) : World :=
  if unlink_fails h then w else set_entries (delete p (w_entries w)) w.

Definition dangling_into_devpts (h : Host) (target : string) : bool :=
  path_starts_with (components "/dev/pts") (components target) && negb (target_exists h target).

Definition install_symlink (h : Host) (n : PtyNode) (pts : string) : Setup unit := fun w =>
  match w_entries w !! path n with
  | Some (Link target) =>
      if dangling_into_devpts h target then symlink h pts (path n) (remove_file h (path n) w)
      else fail SymlinkExists w
  | Some Other => fail PathExists w
  | None => symlink h pts (path n) w
  end.

Definition setup (h : Host) (n : PtyNode) : Setup (N * string) :=
  andthen (call h CPosixOpenpt id) (fun _ =>
  andthen (call h CCloexec id) (fun _ =>
  andthen (call h CGrantpt id) (fun _ =>
  andthen (call h CUnlockpt id) (fun _ =>
  andthen (call h CPtsname id) (fun _ =>
  andthen (apply_baseline h (advertised_baud n)) (fun _ =>
  andthen (call h CPacketMode id) (fun _ =>
  andthen (apply_perms h n) (fun _ =>
  andthen (prime_slave h) (fun _ =>
  andthen (install_symlink h n (pts_name h)) (fun _ =>
  done (openpt_fd h, pts_name h))))))))))).

Definition set_status (s : NodeStatus PtyReason) (now : Z) (n : PtyNode) : PtyNode :=
  mkPty (name n) (path n) (mode n) (owner n) (group n) (advertised_baud n) (hostward_buffer n) (master n) (pts_path n)
        (symlink_installed n) (writer n) (tasks n) (State.set_status s now (status n)).
Definition set_pair (m : option N) (p : option string) (i : bool) (n : PtyNode) : PtyNode :=
  mkPty (name n) (path n) (mode n) (owner n) (group n) (advertised_baud n) (hostward_buffer n) m p i
        (writer n) (tasks n) (status n).
Definition set_workers (wr : option bool) (t : nat) (n : PtyNode) : PtyNode :=
  mkPty (name n) (path n) (mode n) (owner n) (group n) (advertised_baud n) (hostward_buffer n) (master n) (pts_path n)
        (symlink_installed n) wr t (status n).

(** [PtyNode::create]; [None] is its [unreachable!]. *)
Definition create {Table} (config : NodeConfig Table) (h : Host) (now : Z) (w : World) : option PtyNode * World :=
  match config with
  | Pty name path owner group mode advertised_baud hostward_buffer =>
      let default_mode := if bool_decide (group <> None) then 0x1b0 else 0x180 in
      let n := mkPty name path (default default_mode mode) owner group advertised_baud hostward_buffer
                     None None false None 0 (new_at State.Active now) in
      match setup h n w with
      | (inr (m, pts), w) => (Some (set_status State.Active now (set_pair (Some m) (Some pts) true n)), w)
      | (inl e, w) => (Some (set_status (Faulted (SetupFault e)) now n), w)
      end
  | _ => (None, w)
  end.

(** [start]: the reader task, then the hostward pump and the writer thread.  [nonblocking]
    and [spawn] are the errors of the two calls. *)
Definition start (nonblocking spawn : option E) (has_inbox : bool) (now : Z) (n : PtyNode) : PtyNode :=
  match master n with
  | None => n
  | Some _ =>
      match nonblocking with
      | Some e => set_status (Faulted (SetNonblocking e)) now n
      | None =>
          let n := set_workers (writer n) (tasks n + 1) n in
          if has_inbox then
            let n := set_workers (writer n) (tasks n + 1) n in
            match spawn with
            | None => set_workers (Some false) (tasks n) n
            | Some e => set_status (Faulted (SpawnWriter e)) now n
            end
          else n
      end
  end.

(** [BlockingWorker::signal_stop] and [TaskSet::abort_all]. *)
Definition signal_stop (n : PtyNode) : PtyNode :=
  set_workers (match writer n with Some _ => Some true | None => None end) 0 n.

(** [teardown], and [Drop]: the thread is joined before the master goes. *)
Definition teardown (h : Host) (n : PtyNode) (w : World) : PtyNode * World :=
  let n := signal_stop n in
  let n := set_workers None (tasks n) n in
  let n := set_pair None (pts_path n) (symlink_installed n) n in
  if symlink_installed n then (set_pair (master n) (pts_path n) false n, remove_file h (path n) w) else (n, w).

(** ** Creation and teardown, exactly *)

(** The changes of the device node a successful setup makes, in order. *)
Definition perm_changes (h : Host) (n : PtyNode) : list DevChange :=
  (if bool_decide (owner n <> None) || bool_decide (group n <> None)
   then [Chowned (owner n ≫= user_from_name h) (group n ≫= group_from_name h)] else [])
  ++ [Chmodded (mode n); Opened].

(** A step that changes no entry, and of the device node only [ds], all of it if it succeeds. *)
Record frame {A} (m : Setup A) (ds : list DevChange) (w : World) : Prop := {
  fr_entries : w_entries (m w).2 = w_entries w;
  fr_dev : exists k, w_dev (m w).2 = w_dev w ++ take k ds;
  fr_all : forall a, (m w).1 = inr a -> w_dev (m w).2 = w_dev w ++ ds }.

Lemma frame_andthen {A B} (m : Setup A) (k : A -> Setup B) ds1 ds2 w :
  frame m ds1 w -> (forall a w', (m w) = (inr a, w') -> frame (k a) ds2 w') -> frame (andthen m k) (ds1 ++ ds2) w.
Proof.
  intros [E1 [j D1] L1] Hk. unfold andthen. destruct (m w) as [[e|a] w'] eqn:Em; cbn in *.
  - split; cbn; rewrite ?Em; cbn; try done. exists (j `min` length ds1)%nat. rewrite take_app_le by lia.
    rewrite D1. f_equal. destruct (decide (j <= length ds1)%nat); [by replace (_ `min` _)%nat with j by lia|].
    rewrite Nat.min_r, !take_ge by lia. done.
  - destruct (Hk a w' eq_refl) as [E2 [i D2] L2]. rewrite (L1 _ eq_refl) in *. split; cbn; rewrite ?Em; cbn.
    + congruence.
    + exists (length ds1 + i)%nat. rewrite D2, take_app_add. by rewrite <- (assoc_L _).
    + intros b Hb. rewrite (L2 _ Hb). by rewrite <- (assoc_L _).
Qed.

Lemma frame_call h c f ds w :
  w_entries (f w) = w_entries w -> w_dev (f w) = w_dev w ++ ds -> frame (call h c f) ds w.
Proof.
  intros He Hd. unfold call. destruct (fails h c) eqn:Ef; split; cbn; rewrite ?Ef; cbn; try done.
  - exists 0%nat. by rewrite take_0, app_nil_r.
  - exists (length ds). by rewrite take_ge.
Qed.

Lemma frame_done {A} (a : A) w : frame (done a) [] w.
Proof. split; cbn; [done|exists 0%nat; by rewrite app_nil_r|intros; by rewrite app_nil_r]. Qed.

Lemma frame_fail {A} e ds w : frame (fail (A := A) e) ds w.
Proof. split; cbn; [done|exists 0%nat; by rewrite take_0, app_nil_r|done]. Qed.

Lemma frame_id h c w : frame (call h c id) [] w.
Proof. apply frame_call; cbn; by rewrite ?app_nil_r. Qed.

Lemma frame_lookup db missing o w : frame (lookup_name db missing o) [] w.
Proof. unfold lookup_name. repeat case_match; auto using frame_done, frame_fail. Qed.

Lemma lookup_name_answer db missing o w a w' :
  lookup_name db missing o w = (inr a, w') -> a = o ≫= db /\ (a = None <-> o = None).
Proof. unfold lookup_name. destruct o as [s|]; cbn; [destruct (db s)|]; intros [= <- <-]; naive_solver. Qed.

Lemma frame_perms h n w : frame (andthen (apply_perms h n) (fun _ => prime_slave h)) (perm_changes h n) w.
Proof.
  unfold perm_changes. change [Chmodded (mode n); Opened] with ([Chmodded (mode n)] ++ [Opened]). rewrite (assoc_L _).
  apply frame_andthen; [|intros; by apply frame_call]. unfold apply_perms.
  apply (frame_andthen _ _ []); [apply frame_lookup|]. intros uid w1 E1.
  apply (frame_andthen _ _ []); [apply frame_lookup|]. intros gid w2 E2.
  apply lookup_name_answer in E1 as [-> U], E2 as [-> G].
  rewrite (bool_decide_ext (owner n ≫= _ <> None) (owner n <> None)) by (by rewrite U).
  rewrite (bool_decide_ext (group n ≫= _ <> None) (group n <> None)) by (by rewrite G).
  apply frame_andthen; [|intros; by apply frame_call]. case_match; [by apply frame_call|apply frame_done].
Qed.

Lemma tty_frame h n w a w' :
  andthen (apply_perms h n) (fun _ => prime_slave h) w = (inr a, w') -> w_tty w' = w_tty w.
Proof.
  unfold apply_perms, prime_slave, andthen, lookup_name, call, done, fail.
  intros Hr. repeat (case_match; simplify_eq/=); done.
Qed.

(** A stale link of ours, left by a crash. *)
Definition stale (h : Host) (p : string) (w : World) : Prop :=
  exists t, w_entries w !! p = Some (Link t) /\ dangling_into_devpts h t = true.

Lemma symlink_spec h pts p w r w' :
  symlink h pts p w = (r, w') ->
  w_tty w' = w_tty w /\ w_dev w' = w_dev w /\
  match r with
  | inr _ => w_entries w !! p = None /\ w_entries w' = <[p := Link pts]> (w_entries w)
  | inl _ => w_entries w' = w_entries w
  end.
Proof. unfold symlink, call. intros Hr. repeat (case_match; simplify_eq/=); done. Qed.

Lemma install_spec h n pts w r w' :
  install_symlink h n pts w = (r, w') ->
  w_tty w' = w_tty w /\ w_dev w' = w_dev w /\
  match r with
  | inr _ => (w_entries w !! path n = None \/ stale h (path n) w) /\ w_entries w' = <[path n := Link pts]> (w_entries w)
  | inl _ => w_entries w' = w_entries w \/ stale h (path n) w /\ w_entries w' = delete (path n) (w_entries w)
  end.
Proof.
  unfold install_symlink. destruct (w_entries w !! path n) as [[t|]|] eqn:Ep.
  - destruct (dangling_into_devpts h t) eqn:Ed; [|intros [= <- <-]; auto].
    intros (T & D & S)%symlink_spec. unfold remove_file in *.
    assert (stale h (path n) w) as St by (by exists t).
    destruct (unlink_fails h); cbn in T, D, S; split_and!; try done; destruct r; auto.
    + destruct S. congruence.
    + destruct S as [_ ->]. split; [auto|]. by rewrite insert_delete_eq.
  - intros [= <- <-]. auto.
  - intros (T & D & S)%symlink_spec. split_and!; try done. destruct r; tauto.
Qed.

Lemma andthen_assoc {A B D} (m : Setup A) (k : A -> Setup B) (k' : B -> Setup D) w :
  andthen (andthen m k) k' w = andthen m (fun a => andthen (k a) k') w.
Proof. unfold andthen. by destruct (m w) as [[e|a] w']. Qed.

(** Where the fallible calls of [setup] that change no entry end. *)
Definition prepare (h : Host) (n : PtyNode) : Setup unit :=
  andthen (call h CPosixOpenpt id) (fun _ =>
  andthen (call h CCloexec id) (fun _ =>
  andthen (call h CGrantpt id) (fun _ =>
  andthen (call h CUnlockpt id) (fun _ =>
  andthen (call h CPtsname id) (fun _ =>
  andthen (apply_baseline h (advertised_baud n)) (fun _ =>
  andthen (call h CPacketMode id) (fun _ =>
  andthen (apply_perms h n) (fun _ => prime_slave h)))))))).

Lemma setup_prepare h n w :
  setup h n w = andthen (prepare h n) (fun _ => andthen (install_symlink h n (pts_name h)) (fun _ => done (openpt_fd h, pts_name h))) w.
Proof.
  unfold setup, prepare, andthen, call. repeat case_match; simplify_eq; done.
Qed.

Lemma frame_baseline h baud w : frame (apply_baseline h baud) [] w.
Proof.
  apply (frame_andthen _ _ [] []); [apply frame_id|]. intros. apply frame_call; cbn; by rewrite ?app_nil_r.
Qed.

Lemma prepare_frame h n w : frame (prepare h n) (perm_changes h n) w.
Proof.
  unfold prepare. repeat (apply (frame_andthen _ _ []); [apply frame_id || apply frame_baseline|]; intros).
  apply frame_perms.
Qed.

Context `{TL : !TermiosLaws R}.

Lemma baseline_flags baud (t : Termios R) : t_echo (baseline baud t) = false /\ t_extproc (baseline baud t) = true.
Proof.
  unfold baseline. destruct (standard_baud baud) as [b|]; [|done].
  by destruct (cfsetspeed_flags b (set_extproc (clear_echo (cfmakeraw t)))) as [-> ->].
Qed.

Lemma prepare_tty h n w a w' :
  prepare h n w = (inr a, w') -> t_echo (w_tty w') = false /\ t_extproc (w_tty w') = true.
Proof.
  unfold prepare, apply_baseline, call. unfold andthen at 1 2 3 4 5 6 7 8.
  intros Hr. repeat (case_match; simplify_eq/=).
  apply tty_frame in Hr as ->. apply baseline_flags.
Qed.

Lemma setup_spec h n w r w' :
  setup h n w = (r, w') ->
  match r with
  | inr mp =>
      mp = (openpt_fd h, pts_name h) /\ (w_entries w !! path n = None \/ stale h (path n) w)
      /\ w_entries w' = <[path n := Link (pts_name h)]> (w_entries w)
      /\ t_echo (w_tty w') = false /\ t_extproc (w_tty w') = true /\ w_dev w' = w_dev w ++ perm_changes h n
  | inl _ =>
      (w_entries w' = w_entries w \/ stale h (path n) w /\ w_entries w' = delete (path n) (w_entries w))
      /\ exists k, w_dev w' = w_dev w ++ take k (perm_changes h n)
  end.
Proof.
  rewrite setup_prepare. pose proof (prepare_frame h n w) as [F1 [k F2] F3].
  pose proof (prepare_tty h n w) as T. unfold andthen at 1. destruct (prepare h n w) as [[e|a] w1]; cbn in *.
  { intros [= <- <-]. split; [by left|by exists k]. }
  rewrite (F3 _ eq_refl) in *. destruct (T a w1 eq_refl) as [T1 T2]. unfold andthen, stale.
  destruct (install_symlink h n (pts_name h) w1) as [[e|[]] w2] eqn:Ei; intros [= <- <-];
    apply install_spec in Ei as (I1 & I2 & I3); unfold stale in I3; rewrite F1 in I3.
  - split; [done|]. exists (length (perm_changes h n)). by rewrite I2, take_ge, (F3 _ eq_refl) by done.
  - destruct I3 as [P ->]. rewrite I1, I2, (F3 _ eq_refl). done.
Qed.

Lemma status_set s now n : node_status (status (set_status s now n)) = s.
Proof. cbn. unfold State.set_status, set_at. case_bool_decide; done. Qed.

(** C35: Creating a pty node settles exactly. An active node holds the master and its link points at
    the pts, at a path that was free or held a dangling link into devpts; its terminal has echo
    off and EXTPROC on, and the device node was given to the configured owner and group before
    its mode was set.  A fault leaves no master and no link of its own: nothing but a stale link
    can be gone, and the mode was not touched unless ownership had settled. *)
Theorem pty_creation_exact {Table} nm p own grp md baud depth h now w n w' :
  create (Pty (Table := Table) nm p own grp md baud depth) h now w = (Some n, w') ->
  path n = p /\ owner n = own /\ group n = grp
  /\ mode n = default (if bool_decide (grp <> None) then 0x1b0 else 0x180) md
  /\ tasks n = 0%nat /\ writer n = None
  /\ match node_status (status n) with
     | State.Active =>
         master n = Some (openpt_fd h) /\ pts_path n = Some (pts_name h) /\ symlink_installed n = true
         /\ (w_entries w !! p = None \/ stale h p w)
         /\ w_entries w' = <[p := Link (pts_name h)]> (w_entries w)
         /\ t_echo (w_tty w') = false /\ t_extproc (w_tty w') = true
         /\ w_dev w' = w_dev w ++ perm_changes h n
     | Faulted (SetupFault _) =>
         master n = None /\ pts_path n = None /\ symlink_installed n = false
         /\ (w_entries w' = w_entries w \/ stale h p w /\ w_entries w' = delete p (w_entries w))
         /\ exists k, w_dev w' = w_dev w ++ take k (perm_changes h n)
     | _ => False
     end.
Proof.
  unfold create. set (n0 := mkPty _ _ _ _ _ _ _ _ _ _ _ _ _).
  destruct (setup h n0 w) as [[e|[m pts]] w1] eqn:Es; intros [= <- <-]; apply setup_spec in Es.
  - destruct Es as (E1 & k & E2). rewrite status_set. split_and!; try done. by exists k.
  - destruct Es as ([= -> ->] & E2 & E3 & E4 & E5 & E6). rewrite status_set. done.
Qed.

Lemma start_pair nb sp inbox now n :
  master (start nb sp inbox now n) = master n /\ path (start nb sp inbox now n) = path n
  /\ symlink_installed (start nb sp inbox now n) = symlink_installed n
  /\ pts_path (start nb sp inbox now n) = pts_path n.
Proof. unfold start. repeat case_match; done. Qed.

Lemma teardown_spec h n w n2 w2 :
  teardown h n w = (n2, w2) ->
  master n2 = None /\ writer n2 = None /\ tasks n2 = 0%nat /\ symlink_installed n2 = false
  /\ w2 = if symlink_installed n then remove_file h (path n) w else w.
Proof. unfold teardown. destruct n as [? ? ? ? ? ? ? ? ? [] ? ? ?]; intros [= <- <-]; done. Qed.

Lemma teardown_idle h n w :
  master n = None -> writer n = None -> tasks n = 0%nat -> symlink_installed n = false -> teardown h n w = (n, w).
Proof. destruct n as [? ? ? ? ? ? ? ? ? [] ? ? ?]; cbn; intros; by simplify_eq. Qed.

(** Teardown undoes creation. Whatever became of the node's start, once it is torn down it has no
    thread, task or master, and the path is as it was before creation but for a stale link, which
    is gone; what creation did not install is not removed.  A second teardown, or the drop, does
    nothing, even when the path has been taken by somebody else since. *)
Theorem pty_teardown_undoes {Table} nm p own grp md baud depth h h' h2 nb sp inbox now now2 w n w1 n2 w2 w3 :
  create (Pty (Table := Table) nm p own grp md baud depth) h now w = (Some n, w1) ->
  unlink_fails h' = false ->
  teardown h' (start nb sp inbox now2 n) w1 = (n2, w2) ->
  (w_entries w2 = w_entries w \/ stale h p w /\ w_entries w2 = delete p (w_entries w))
  /\ master n2 = None /\ writer n2 = None /\ tasks n2 = 0%nat /\ symlink_installed n2 = false
  /\ teardown h2 n2 w3 = (n2, w3).
Proof.
  unfold create. set (n0 := mkPty _ _ _ _ _ _ _ _ _ _ _ _ _).
  destruct (setup h n0 w) as [r w1'] eqn:Es. apply setup_spec in Es. intros Hc Hu.
  intros (T1 & T2 & T3 & T4 & ->)%teardown_spec. rewrite (teardown_idle h2 n2 w3) by done.
  destruct (start_pair nb sp inbox now2 n) as (_ & P & I & _). rewrite P, I. unfold remove_file. rewrite Hu.
  destruct r as [e|[fd pts]]; injection Hc as <- <-; cbn in *; split_and!; try done; [apply Es|].
  destruct Es as (_ & E2 & -> & _). destruct E2 as [E2|E2]; [left|right; split; [done|]].
  - by apply delete_insert_id.
  - apply delete_insert_eq.
Qed.
End node.

(** ** Witnesses *)

(** A C library and a host: group 100 is [console], a stale link is at the path. *)
#[export] Instance demo_lib : TermiosLib unit := {
  cfmakeraw := fun t => mkTermios false (t_extproc t) false CS8 false (t_parodd t) tt;
  cfsetspeed := fun _ t => t;
  cfgetospeed := fun _ => 115200 }.
#[export] Instance demo_laws : TermiosLaws unit.
Proof. by split. Qed.

Definition demo_tty : Termios unit := mkTermios true false true CS7 true false tt.
Definition demo_host (fails : SysCall -> option unit) : Host :=
  mkHost fails 9 "/dev/pts/4" (fun _ => None) (fun g => if bool_decide (g = "console"%string) then Some 100%N else None)
         (fun _ => false) tt false.
Definition demo_world : World := mkWorld {["/run/con"%string := Link "/dev/pts/3"]} demo_tty [].
Definition demo_config : NodeConfig unit := Pty "con"%string "/run/con"%string None (Some "console"%string) None 115200 32.
Abbreviation demo_created := (create demo_config (demo_host (fun _ => None)) 5 demo_world).
Abbreviation demo_pty := (default (mkPty "" "" 0 None None 0 0 None None false None 0 (new_at State.Active 0)) demo_created.1).

Lemma pty_creation_exact_witness :
  demo_created = (Some demo_pty, demo_created.2) /\ path demo_pty = "/run/con"%string /\ mode demo_pty = 0x1b0
  /\ w_dev demo_created.2 = [Chowned None (Some 100%N); Chmodded 0x1b0; Opened].
Proof.
  assert (demo_created = (Some demo_pty, demo_created.2)) as E by (vm_compute; reflexivity).
  pose proof (pty_creation_exact _ _ _ _ _ _ _ _ _ _ _ _ E) as (P & _ & _ & M & _). rewrite P, M. split_and!; try done.
Defined.

Lemma pty_teardown_undoes_witness :
  let n := start None None true 6 demo_pty in
  let '(n2, w2) := teardown (demo_host (fun _ => None)) n demo_created.2 in
  writer n = Some false /\ master n2 = None /\ writer n2 = None.
Proof.
  assert (demo_created = (Some demo_pty, demo_created.2)) as E by (vm_compute; reflexivity).
  cbn zeta. destruct (teardown _ _ _) as [n2 w2] eqn:T.
  destruct (pty_teardown_undoes _ _ _ _ _ _ _ _ (demo_host (fun _ => None)) (demo_host (fun _ => None)) None None true 5 6 _ _ _ _ _ demo_world E eq_refl T)
    as (_ & M & Wr & _). split_and!; done.
Defined.
