(* ===== verification/PtyHost.v ===== *)
(** * The pty node's hostward half (daemon/src/nodes/pty.rs)

    The pump that moves chunks of the attached edge into a bounded bridge and drops with a
    count when it is full, and the blocking writer thread that empties the bridge into the
    master while a client is present.  They run on two threads with the reader task that
    flips presence and the teardown that sets the stop flag: [host_step] is one of their
    steps, [host_run] any interleaving of them. *)

From S2P Require Import Prelude Channel FanOut.

Section hostward.
Context {E : Type}.

(** ** [blocking_write_all] *)

Inductive WriteAnswer :=
| Wrote (n : nat)
| WouldBlock (pollhup pollout : bool)
| WriteFailed (e : E).

Inductive WriteError := WriteZero | BrokenPipe | Interrupted | OsError (e : E).

(** [WriteShort unwritten]: a [WriteShortfall]. *)
Inductive WriteEnd := WriteDone | WriteShort (unwritten : Z) (error : WriteError).

(** One turn of the loop: the bytes the master took and the end of the write, or the rest.
    A write takes at most what it is given. *)
Definition write_turn (stop : bool) (a : WriteAnswer) (rest : list byte) : list byte * (WriteEnd + list byte) :=
  match rest with
  | [] => ([], inl WriteDone)
  | _ =>
      match a with
      | Wrote 0 => ([], inl (WriteShort (len rest) WriteZero))
      | Wrote n => (take n rest, inr (drop n rest))
      | WouldBlock pollhup pollout =>
          if pollhup && negb pollout then ([], inl (WriteShort (len rest) BrokenPipe))
          else if stop then ([], inl (WriteShort (len rest) Interrupted))
          else ([], inr rest)
      | WriteFailed e => ([], inl (WriteShort (len rest) (OsError e)))
      end
  end.

(** The loop against a series of answers, each with the stop flag at that time: the bytes
    written, and the end, or what is left when the answers run out. *)
Fixpoint blocking_write_all (answers : list (bool * WriteAnswer)) (data : list byte) : list byte * (WriteEnd + list byte) :=
  match data, answers with
  | [], _ => ([], inl WriteDone)
  | _, [] => ([], inr data)
  | _, (stop, a) :: answers =>
      match write_turn stop a data with
      | (out, inl e) => (out, inl e)
      | (out, inr rest) => let '(more, e) := blocking_write_all answers rest in (out ++ more, e)
      end
  end.

(** ** The bridge, the pump and the thread *)

(** [AtTop]: at the head of the loop or inside [recv_timeout]. *)
Inductive WriterPhase := AtTop | Writing (chunk rest : list byte) | WriterGone (dropped : list (list byte)).

(** [received] is what the pump took off its edges, [wire] what the master took, [shed]
    what the producer's fan-out counted on the shared counters. *)
Record Hostward := mkHostward {
  present : bool; stop : bool; counters : DropCounters;
  bridge : Bounded (list byte); pump_live : bool; phase : WriterPhase;
  received : list (list byte); wire : list byte; shed : Z }.

(** As [start] makes it; [spawned]: the thread exists. *)
Definition hostward_new (hostward_buffer : Z) (spawned : bool) : Hostward :=
  let b := channel (Z.max hostward_buffer 1) in
  mkHostward false false drops_new (if spawned then b else drop_rx b) true (if spawned then AtTop else WriterGone []) [] [] 0.

Definition put_counters (d : DropCounters) (h : Hostward) : Hostward :=
  mkHostward (present h) (stop h) d (bridge h) (pump_live h) (phase h) (received h) (wire h) (shed h).
Definition put_phase (p : WriterPhase) (h : Hostward) : Hostward :=
  mkHostward (present h) (stop h) (counters h) (bridge h) (pump_live h) p (received h) (wire h) (shed h).
Definition put_bridge (b : Bounded (list byte)) (h : Hostward) : Hostward :=
  mkHostward (present h) (stop h) (counters h) b (pump_live h) (phase h) (received h) (wire h) (shed h).
Definition put_pump (b : bool) (h : Hostward) : Hostward :=
  mkHostward (present h) (stop h) (counters h) (bridge h) b (phase h) (received h) (wire h) (shed h).
Definition put_wire (out : list byte) (h : Hostward) : Hostward :=
  mkHostward (present h) (stop h) (counters h) (bridge h) (pump_live h) (phase h) (received h) (wire h ++ out) (shed h).

(** The body of the pump's inner loop. *)
Definition pump_chunk (chunk : list byte) (h : Hostward) : Hostward :=
  let h := mkHostward (present h) (stop h) (counters h) (bridge h) (pump_live h) (phase h) (received h ++ [chunk]) (wire h) (shed h) in
  match try_send (bridge h) chunk with
  | (SendOk, b) => put_bridge b h
  | (SendFull, _) => put_counters (add_full (len chunk) (counters h)) h
  | (SendClosed, _) => put_pump false h
  end.

(** The thread's return: its receiver and what the bridge holds go with it. *)
Definition writer_return (h : Hostward) : Hostward :=
  put_bridge (drop_rx (bridge h)) (put_phase (WriterGone (contents (bridge h))) h).

(** One turn of [writer_thread]'s loop, up to a write: the stop flag, then the bridge.
    An empty bridge is a time-out, after which the flag is looked at again, or the end when
    the pump is gone. *)
Definition writer_turn (h : Hostward) : Hostward :=
  if stop h then writer_return h
  else match try_recv (bridge h) with
       | (Some chunk, b) =>
           let h := put_bridge b h in
           if present h then put_phase (Writing chunk chunk) h
           else put_counters (add_absent (len chunk) (counters h)) h
       | (None, _) => if pump_live h then h else writer_return h
       end.

(** The thread goes on with its write. *)
Definition writer_write (a : WriteAnswer) (chunk rest : list byte) (h : Hostward) : Hostward :=
  match write_turn (stop h) a rest with
  | (out, inr rest) => put_phase (Writing chunk rest) (put_wire out h)
  | (out, inl WriteDone) => put_phase AtTop (put_wire out h)
  | (out, inl (WriteShort unwritten _)) =>
      put_phase AtTop (put_counters (add_absent unwritten (counters h)) (put_wire out h))
  end.

Inductive HostOp :=
| HChunk (chunk : list byte)
| HTurn
| HWrite (a : WriteAnswer)
| HPresent (b : bool)
| HShed (n : Z)
| HSignalStop.

(** The pump is suspended in a receive and the thread in [recv_timeout] or a write: an
    operation one of them cannot perform now changes nothing. *)
Definition host_step (op : HostOp) (h : Hostward) : Hostward :=
  match op with
  | HChunk chunk => if pump_live h then pump_chunk chunk h else h
  | HTurn => match phase h with AtTop => writer_turn h | _ => h end
  | HWrite a => match phase h with Writing chunk rest => writer_write a chunk rest h | _ => h end
  | HPresent b => mkHostward b (stop h) (counters h) (bridge h) (pump_live h) (phase h) (received h) (wire h) (shed h)
  | HShed n => put_counters (add_full n (counters h))
                 (mkHostward (present h) (stop h) (counters h) (bridge h) (pump_live h) (phase h) (received h) (wire h) (shed h + n))
  | HSignalStop => put_pump false (mkHostward (present h) true (counters h) (bridge h) (pump_live h) (phase h) (received h) (wire h) (shed h))
  end.

Definition host_run (ops : list HostOp) (h : Hostward) : Hostward := foldl (fun h op => host_step op h) h ops.

(** ** Every chunk's fate *)

(** Chunks that left the bridge for good, each with how many of its bytes were written. *)
Abbreviation Fates := (list (list byte * nat)) (only parsing).
Definition written (f : Fates) : list byte := mjoin ((fun p => take p.2 p.1) <$> f).
Definition unwritten (f : Fates) : Z := total (fun p => len (drop p.2 p.1)) f.

(** The chunk being written, with what is written of it; what the thread took with it. *)
Definition current (p : WriterPhase) : Fates :=
  match p with Writing chunk rest => [(chunk, (length chunk - length rest)%nat)] | _ => [] end.
Definition left_behind (p : WriterPhase) : list (list byte) := match p with WriterGone dropped => dropped | _ => [] end.
Definition entered (f : Fates) (h : Hostward) : list (list byte) :=
  (f ++ current (phase h)).*1 ++ contents (bridge h) ++ left_behind (phase h).

Record host_ok (f : Fates) (full : Z) (h : Hostward) : Prop := {
  ho_order : sublist (entered f h) (received h);
  ho_bytes : total len (received h) = total len (entered f h) + full;
  ho_wire : wire h = written (f ++ current (phase h));
  ho_full : wrapped (dropped_full (counters h)) = wrapped (full + shed h);
  ho_absent : wrapped (discarded_absent (counters h)) = wrapped (unwritten f);
  ho_rest : forall chunk rest, phase h = Writing chunk rest -> exists pre, chunk = pre ++ rest;
  ho_open : pump_live h = true -> rx_open (bridge h) = true /\ stop h = false;
  ho_gone : forall d, phase h = WriterGone d -> pump_live h = false;
  ho_left : stop h = false -> left_behind (phase h) = [] }.

Lemma written_app f g : written (f ++ g) = written f ++ written g.
Proof. unfold written. by rewrite fmap_app, join_app. Qed.

Lemma unwritten_app f g : unwritten (f ++ g) = unwritten f + unwritten g.
Proof. unfold unwritten. by rewrite total_app. Qed.

Lemma fate_one c k : written [(c, k)] = take k c /\ unwritten [(c, k)] = len (drop k c).
Proof. unfold written, unwritten. cbn. by rewrite app_nil_r, total_cons, total_nil, Z.add_0_r. Qed.

Lemma written_part (pre rest : list byte) : take (length (pre ++ rest) - length rest) (pre ++ rest) = pre.
Proof. by rewrite length_app, Nat.add_sub, take_app_length. Qed.

Lemma unwritten_part (pre rest : list byte) : drop (length (pre ++ rest) - length rest) (pre ++ rest) = rest.
Proof. by rewrite length_app, Nat.add_sub, drop_app_length. Qed.

Lemma hostward_new_ok depth : host_ok [] 0 (hostward_new depth true).
Proof. by split. Qed.

Lemma pump_chunk_ok f full chunk h :
  host_ok f full h -> pump_live h = true -> exists full', host_ok f full' (pump_chunk chunk h).
Proof.
  intros [Ho Hb Hw Hf Ha Hr Hp Hg Hl] Hlive. destruct (Hp Hlive) as [Hopen Hs].
  assert (left_behind (phase h) = []) as El by auto.
  unfold pump_chunk. cbn -[try_send]. pose proof (try_send_spec (C := Bounded) _ (bridge h) chunk) as T.
  unfold entered in Ho, Hb. rewrite El, app_nil_r in Ho, Hb.
  destruct (try_send (bridge h) chunk) as [[] b].
  - destruct T as (_ & _ & T & To & _). exists full. split; unfold entered; cbn -[contents current left_behind]; try done.
    + rewrite El, T, app_nil_r, (assoc_L _). by apply sublist_app.
    + rewrite El, T, app_nil_r. len_lia.
  - exists (full + len chunk). split; unfold entered; cbn -[contents current left_behind]; try done.
    + rewrite El, app_nil_r. by apply sublist_inserts_r.
    + rewrite El, app_nil_r. len_lia.
    + rewrite (wrapped_add _ _ _ Hf). f_equal. lia.
  - destruct T as [T _]. congruence.
Qed.

Lemma writer_return_ok f full h :
  host_ok f full h -> phase h = AtTop -> pump_live h = false -> (stop h = false -> contents (bridge h) = []) ->
  host_ok f full (writer_return h).
Proof.
  intros [Ho Hb Hw Hf Ha Hr Hp Hg Hl] Et Hlive Hc. unfold entered in *. rewrite Et in *.
  destruct (drop_rx_spec (C := Bounded) _ (bridge h)) as [_ D].
  cbn [left_behind current] in *. rewrite !app_nil_r in *.
  split; unfold entered; cbn -[contents drop_rx total]; rewrite ?D, ?app_nil_r; try done.
  by rewrite Hlive.
Qed.

Lemma writer_turn_ok f full h :
  host_ok f full h -> phase h = AtTop -> exists f', host_ok f' full (writer_turn h).
Proof.
  intros O Et. assert (stop h = true -> pump_live h = false) as Hlive.
  { intros Es. destruct (pump_live h) eqn:El; [|done]. destruct (ho_open _ _ _ O El). congruence. }
  unfold writer_turn. destruct (stop h) eqn:Es; [exists f; by apply writer_return_ok; rewrite ?Es; auto|].
  pose proof (try_recv_spec (C := Bounded) _ (bridge h)) as T. destruct (contents (bridge h)) as [|chunk q] eqn:Ec.
  { rewrite T. destruct (pump_live h) eqn:El; [by exists f|]. exists f. by apply writer_return_ok. }
  destruct (try_recv (bridge h)) as [o b]. cbn [fst snd] in T. destruct T as (-> & T & To & _).
  destruct O as [Ho Hb Hw Hf Ha Hr Hp Hg Hl]. unfold entered in *. rewrite Et, Ec in *. cbn [current left_behind] in *.
  rewrite !app_nil_r in *. change (present (put_bridge b h)) with (present h). destruct (present h).
  - exists f. split; unfold entered; cbn -[contents total]; try done.
    + rewrite T, fmap_app, app_nil_r, <- (assoc_L _). cbn. done.
    + rewrite T, fmap_app, app_nil_r, <- (assoc_L _). cbn -[total]. done.
    + rewrite written_app, Nat.sub_diag, (proj1 (fate_one _ _)), app_nil_r. done.
    + intros ? ? [= <- <-]. by exists [].
    + intros El. change (b_open b) with (rx_open b). rewrite To. auto.
  - exists (f ++ [(chunk, 0%nat)]). split; unfold entered; rewrite ?app_nil_r; cbn -[contents total]; rewrite ?Et; try done.
    + cbn [current left_behind]. rewrite T, !app_nil_r, fmap_app, <- (assoc_L _). done.
    + cbn [current left_behind]. rewrite T, !app_nil_r, fmap_app, <- (assoc_L _). done.
    + cbn [current]. rewrite app_nil_r, written_app, (proj1 (fate_one _ _)), app_nil_r. done.
    + rewrite unwritten_app, (proj2 (fate_one _ _)). by apply wrapped_add.
    + intros El. change (b_open b) with (rx_open b). rewrite To. auto.
Qed.

Lemma write_turn_spec stopped a rest out r :
  write_turn stopped a rest = (out, r) ->
  match r with
  | inr rest' => rest = out ++ rest'
  | inl WriteDone => rest = [] /\ out = []
  | inl (WriteShort unwritten _) => out = [] /\ unwritten = len rest /\ rest <> []
  end.
Proof.
  unfold write_turn. destruct rest as [|x rest]; [by intros [= <- <-]|].
  destruct a as [[|n]|hup pout|e]; [| |destruct (hup && negb pout); [|destruct stopped]|]; intros [= <- <-]; try done.
  cbn. by rewrite take_drop.
Qed.

(** A chunk is done with, [length pre] of its bytes written. *)
Lemma finish_ok f full pre rest d h :
  host_ok f full h -> phase h = Writing (pre ++ rest) rest ->
  dropped_full d = dropped_full (counters h) -> wrapped (discarded_absent d) = wrapped (unwritten f + len rest) ->
  host_ok (f ++ [(pre ++ rest, length pre)]) full (put_phase AtTop (put_counters d h)).
Proof.
  intros [Ho Hb Hw Hf Ha Hr Hp Hg Hl] Ep D1 D2. unfold entered in *. rewrite Ep in *.
  cbn [current left_behind] in *. rewrite length_app, Nat.add_sub in *.
  split; unfold entered; cbn -[contents total]; rewrite ?(app_nil_r (f ++ _)); try done.
  - by rewrite D1.
  - by rewrite D2, unwritten_app, (proj2 (fate_one _ _)), drop_app_length.
Qed.

Lemma put_wire_ok f full pre out rest h :
  host_ok f full h -> phase h = Writing (pre ++ out ++ rest) (out ++ rest) ->
  host_ok f full (put_phase (Writing (pre ++ out ++ rest) rest) (put_wire out h)).
Proof.
  intros [Ho Hb Hw Hf Ha Hr Hp Hg Hl] Ep. unfold entered in *. rewrite Ep in *.
  cbn [current left_behind] in *. rewrite fmap_app in *. cbn [fmap list_fmap fst] in *.
  split; unfold entered; cbn -[contents total]; rewrite ?fmap_app; try done.
  - rewrite Hw, !written_app, !(proj1 (fate_one _ _)), written_part.
    by rewrite <- (assoc_L _), (assoc_L _ pre), written_part.
  - intros ? ? [= <- <-]. exists (pre ++ out). by rewrite (assoc_L _).
Qed.

Lemma writer_write_ok f full a chunk rest h :
  host_ok f full h -> phase h = Writing chunk rest -> exists f', host_ok f' full (writer_write a chunk rest h).
Proof.
  intros O Ep. destruct (ho_rest _ _ _ O _ _ Ep) as [pre ->].
  unfold writer_write. destruct (write_turn (stop h) a rest) as [out r] eqn:Et. apply write_turn_spec in Et.
  assert (put_wire [] h = h) as E0 by (unfold put_wire; rewrite app_nil_r; by destruct h).
  destruct r as [[|u e]|rest'].
  - destruct Et as [-> ->]. rewrite E0. exists (f ++ [(pre ++ [], length pre)]).
    assert (put_phase AtTop h = put_phase AtTop (put_counters (counters h) h)) as -> by done.
    apply finish_ok; try done. rewrite (ho_absent _ _ _ O). f_equal. by rewrite Z.add_0_r.
  - destruct Et as (-> & -> & _). rewrite E0. exists (f ++ [(pre ++ rest, length pre)]).
    apply finish_ok; try done. cbn. apply wrapped_add, O.
  - subst rest. exists f. by apply put_wire_ok.
Qed.

Lemma host_step_ok f full op h : host_ok f full h -> exists f' full', host_ok f' full' (host_step op h).
Proof.
  intros O. destruct op as [chunk| |a|b|n|]; cbn [host_step].
  - destruct (pump_live h) eqn:El; [|by eauto]. destruct (pump_chunk_ok f full chunk h O El). eauto.
  - destruct (phase h) eqn:Ep; [|by eauto..]. destruct (writer_turn_ok f full h O Ep). eauto.
  - destruct (phase h) as [|chunk rest|] eqn:Ep; [by eauto| |by eauto].
    destruct (writer_write_ok f full a chunk rest h O Ep). eauto.
  - exists f, full. by destruct O.
  - exists f, full. destruct O as [Ho Hb Hw Hf Ha Hr Hp Hg Hl]. split; try done. cbn.
    rewrite (wrapped_add _ _ _ Hf). f_equal. lia.
  - exists f, full. by destruct O.
Qed.

Lemma host_run_ok ops : forall f full h, host_ok f full h -> exists f' full', host_ok f' full' (host_run ops h).
Proof.
  induction ops as [|op ops IH]; intros f full h O; [by eauto|]. cbn.
  destruct (host_step_ok f full op h O) as (f1 & full1 & O1). by apply (IH f1 full1).
Qed.

Lemma total_entered f h :
  total len (entered f h) = total len f.*1 + total len (current (phase h)).*1
    + total len (contents (bridge h)) + total len (left_behind (phase h)).
Proof. unfold entered. rewrite fmap_app, !total_app. lia. Qed.

Lemma written_unwritten f : total len f.*1 = len (written f) + unwritten f.
Proof.
  induction f as [|[c k] f IH]; [done|]. change ((c, k) :: f) with ([(c, k)] ++ f).
  rewrite fmap_app, total_app, IH, written_app, unwritten_app, (proj1 (fate_one _ _)), (proj2 (fate_one _ _)). cbn.
  rewrite total_cons, total_nil. rewrite <- (take_drop k c) at 1. len_lia.
Qed.

(** C34: The console hears an exact account.  Whatever the device sends, however the client comes and
    goes and however slowly it reads, the bytes the master took are, in order, prefixes of the
    chunks that entered the bridge, which entered in the order they came; the chunks that did not
    enter are the [full] bytes shed, and the two counters are the bytes shed (with the fan-out's
    own) and the unwritten bytes of every chunk that left the bridge, modulo [2 ^ 64].  Only a stop leaves chunks
    behind uncounted. *)
Theorem pty_hostward_exact depth ops :
  let h := host_run ops (hostward_new depth true) in
  exists (f : Fates) (full : Z),
    sublist (entered f h) (received h)
    /\ wire h = written (f ++ current (phase h))
    /\ total len (received h) = len (wire h) + full + unwritten (f ++ current (phase h))
         + total len (contents (bridge h)) + total len (left_behind (phase h))
    /\ wrapped (dropped_full (counters h)) = wrapped (full + shed h)
    /\ wrapped (discarded_absent (counters h)) = wrapped (unwritten f)
    /\ (stop h = false -> left_behind (phase h) = []).
Proof.
  intros h. destruct (host_run_ok ops [] 0 _ (hostward_new_ok depth)) as (f & full & [Ho Hb Hw Hf Ha _ _ _ Hl]).
  exists f, full. fold h in Ho, Hb, Hw, Hf, Ha, Hl. split_and!; try done.
  rewrite Hb, total_entered, Hw. rewrite <- total_app, <- fmap_app, written_unwritten. lia.
Qed.

(** ** A write *)

Lemma blocking_write_all_spec answers data out r :
  blocking_write_all answers data = (out, r) ->
  match r with
  | inr rest => data = out ++ rest /\ rest <> []
  | inl WriteDone => data = out
  | inl (WriteShort unwritten _) => unwritten = len data - len out /\ 0 < unwritten /\ out = take (length out) data
  end.
Proof.
  revert data out r. induction answers as [|[stopped a] answers IH]; intros [|x data] out r;
    cbn [blocking_write_all]; try (by intros [= <- <-]).
  destruct (write_turn stopped a (x :: data)) as [o [e|rest]] eqn:Et; apply write_turn_spec in Et.
  - intros [= <- <-]. destruct e as [|u e]; [naive_solver|]. destruct Et as (-> & -> & _).
    pose proof (len_nonneg data). split_and!; [len_lia|len_lia|done].
  - destruct (blocking_write_all answers rest) as [more e] eqn:Er. intros [= <- <-]. rewrite Et.
    apply IH in Er. destruct e as [[|u e]|rest'].
    + by subst.
    + destruct Er as (-> & P & Q). rewrite length_app, take_app_add, <- Q. split_and!; [len_lia|len_lia|done].
    + destruct Er as [-> Hn]. by rewrite (assoc_L _).
Qed.

Lemma stopped_turn h : stop h = true -> phase h = AtTop -> exists d, phase (host_step HTurn h) = WriterGone d.
Proof. intros Es Ep. cbn. rewrite Ep. unfold writer_turn. rewrite Es. by eexists. Qed.

Lemma stopped_write h hup pout chunk rest :
  stop h = true -> phase (writer_write (WouldBlock hup pout) chunk rest h) = AtTop
  /\ stop (writer_write (WouldBlock hup pout) chunk rest h) = true.
Proof. intros Es. unfold writer_write, write_turn. rewrite Es. by destruct rest, hup, pout. Qed.

(** A stop ends the thread whatever the client does: at the first answer that would block, or
    at the head of its loop. *)
Lemma stop_ends_writer h hup pout :
  stop h = true -> exists dropped, phase (host_run [HWrite (WouldBlock hup pout); HTurn] h) = WriterGone dropped.
Proof.
  intros Es. unfold host_run. cbn [foldl]. cbn [host_step]. destruct (phase h) as [|chunk rest|d] eqn:Ep.
  - by apply stopped_turn.
  - destruct (stopped_write h hup pout chunk rest Es). by apply stopped_turn.
  - rewrite Ep. by exists d.
Qed.
End hostward.

Arguments WriteAnswer E : clear implicits.
Arguments HostOp E : clear implicits.

(** ** Witness *)

(** Three chunks into a bridge of one with a slow client, who goes mid-chunk; then one nobody reads. *)
Definition demo_ops : list (HostOp unit) :=
  [HPresent true; HChunk [x61; x62; x63]; HTurn; HChunk [x64]; HChunk [x65; x66]; HShed 7; HWrite (Wrote 2);
   HWrite (WouldBlock true false); HTurn; HWrite (Wrote 1); HWrite (Wrote 1); HPresent false; HChunk [x67]; HTurn;
   HSignalStop; HTurn].

Example demo_hostward :
  let h := host_run demo_ops (hostward_new 1 true) in
  (wire h, counters h, phase h) = ([x61; x62; x64], mkDrops 9 2, WriterGone []).
Proof. vm_compute. reflexivity. Qed.
