(* ===== verification/PtyRead.v ===== *)
(** * The pty node's reader task (daemon/src/nodes/pty.rs, [read_and_poll])

    One task forwards what the client types, tracks its presence and closes its sessions.  A
    [pass] is one turn of its loop up to the await at its end, a synchronous function of what the
    system answers during it ([Pass]); between passes the task sleeps or is suspended in
    [reserve()] with the chunk it holds.  [reader_step] interleaves it with the control plane,
    the endpoints' other users and teardown.  The endpoints are a store of channels and lock
    cells under the names the edge slot holds.  Change notifications are not modelled. *)

From S2P Require Import Prelude GraphTypes Lock Arbiter Channel Inbox Pty.
#[local] Open Scope Z_scope.

(** Microseconds. *)
Definition RECONCILE_INTERVAL : Z := 3 * 1000 * 1000.
Definition MAX_FLUSH_ROUNDS : nat := 16.

Definition TIOCPKT_DATA : Z := 0.
Definition TIOCPKT_IOCTL : Z := 64.

(** A store at a name. *)
Definition upd {A} (e : N) (x : A) (f : N -> A) : N -> A := fun i => if N.eqb i e then x else f i.

Section reader.
Context {C : Type -> Type} `{MpscLaws C} {R : Type} `{TermiosLib R}.

(** ** What the system answers *)

(** One successful read of the master in packet mode; [k_termios] is what [tcgetattr] answers
    right after it. *)
Record Packet := mkPacket { k_control : byte; k_payload : list byte; k_termios : option (Termios R) }.

(** How a series of reads ends. *)
Inductive ReadEnd := Eof | WouldBlock | Eio | OtherError.

Record Pass := mkPass {
  x_pollin : bool; x_pollhup : bool;
  x_reads : list Packet; x_end : ReadEnd;      (* the drain *)
  x_edge : bool;                               (* [SessionLatch::took_edge]; never on Linux *)
  x_baseline : option (Termios R);             (* [tcgetattr] of the baseline reset *)
  x_slave : option (list (list Z * bool));     (* the flush: rounds of reads, and whether more is ready *)
  x_backlog : list Packet;                     (* the purge on detach *)
  x_residual : list Packet;                    (* the drain after the close *)
  x_now : Z; x_termios : option (Termios R) }. (* the clock, the backstop's [tcgetattr] *)

(** ** State *)

Record Losses := mkLosses { targetward : Z; at_last_close : Z }.

(** [Reserving chunk e]: suspended in [reserve()] on endpoint [e]. *)
Inductive ReaderPhase := Looping | Sleeping | Reserving (chunk : list byte) (e : N) | Aborted.

Record Reader := mkReader {
  r_attached : bool; r_origin : option (N * OriginId);
  r_chan : N -> C (list byte); r_cell : N -> Arb;
  r_present : bool; r_termios : option ClientTermios; r_asserted : list (Termios R);
  r_loss : Losses; r_saw : bool; r_pending : option (list byte);
  r_wait : Z; r_reconcile : Z; r_phase : ReaderPhase }.

Definition put_chan (e : N) (tx : C (list byte)) (r : Reader) : Reader :=
  mkReader (r_attached r) (r_origin r) (upd e tx (r_chan r)) (r_cell r) (r_present r) (r_termios r) (r_asserted r)
           (r_loss r) (r_saw r) (r_pending r) (r_wait r) (r_reconcile r) (r_phase r).
Definition put_cell (e : N) (a : Arb) (r : Reader) : Reader :=
  mkReader (r_attached r) (r_origin r) (r_chan r) (upd e a (r_cell r)) (r_present r) (r_termios r) (r_asserted r)
           (r_loss r) (r_saw r) (r_pending r) (r_wait r) (r_reconcile r) (r_phase r).
Definition put_edge (attached : bool) (o : option (N * OriginId)) (r : Reader) : Reader :=
  mkReader attached o (r_chan r) (r_cell r) (r_present r) (r_termios r) (r_asserted r)
           (r_loss r) (r_saw r) (r_pending r) (r_wait r) (r_reconcile r) (r_phase r).
Definition put_present (b : bool) (r : Reader) : Reader :=
  mkReader (r_attached r) (r_origin r) (r_chan r) (r_cell r) b (r_termios r) (r_asserted r)
           (r_loss r) (r_saw r) (r_pending r) (r_wait r) (r_reconcile r) (r_phase r).
Definition put_termios (c : option ClientTermios) (t : option (Termios R)) (r : Reader) : Reader :=
  mkReader (r_attached r) (r_origin r) (r_chan r) (r_cell r) (r_present r) c (r_asserted r ++ option_list t)
           (r_loss r) (r_saw r) (r_pending r) (r_wait r) (r_reconcile r) (r_phase r).
Definition put_loss (l : Losses) (r : Reader) : Reader :=
  mkReader (r_attached r) (r_origin r) (r_chan r) (r_cell r) (r_present r) (r_termios r) (r_asserted r)
           l (r_saw r) (r_pending r) (r_wait r) (r_reconcile r) (r_phase r).
Definition put_saw (b : bool) (r : Reader) : Reader :=
  mkReader (r_attached r) (r_origin r) (r_chan r) (r_cell r) (r_present r) (r_termios r) (r_asserted r)
           (r_loss r) b (r_pending r) (r_wait r) (r_reconcile r) (r_phase r).
Definition put_pending (p : option (list byte)) (r : Reader) : Reader :=
  mkReader (r_attached r) (r_origin r) (r_chan r) (r_cell r) (r_present r) (r_termios r) (r_asserted r)
           (r_loss r) (r_saw r) p (r_wait r) (r_reconcile r) (r_phase r).
Definition put_reconcile (t : Z) (r : Reader) : Reader :=
  mkReader (r_attached r) (r_origin r) (r_chan r) (r_cell r) (r_present r) (r_termios r) (r_asserted r)
           (r_loss r) (r_saw r) (r_pending r) (r_wait r) t (r_phase r).
Definition put_phase (wait : Z) (p : ReaderPhase) (r : Reader) : Reader :=
  mkReader (r_attached r) (r_origin r) (r_chan r) (r_cell r) (r_present r) (r_termios r) (r_asserted r)
           (r_loss r) (r_saw r) (r_pending r) wait (r_reconcile r) p.

(** The task as it is spawned, on the edge the node is wired with. *)
Definition reader_new (attached : bool) (o : option (N * OriginId)) (chans : N -> C (list byte)) (cells : N -> Arb) (now : Z) : Reader :=
  mkReader attached o chans cells false None [] (mkLosses 0 0) false None ACTIVE_POLL now Looping.

(** ** Steps of a pass *)

Definition lose (n : Z) (r : Reader) : Reader :=
  put_loss (mkLosses (u64_wrapping_add (targetward (r_loss r)) n) (at_last_close (r_loss r))) r.

(** [try_forward_targetward] on endpoint [e]. *)
Definition offer (e : N) (chunk : list byte) (r : Reader) : Handoff * Reader :=
  let '(h, tx, lost) := try_forward_targetward (r_chan r e) chunk (targetward (r_loss r)) in
  (h, put_chan e tx (put_loss (mkLosses lost (at_last_close (r_loss r))) r)).

Definition gate (r : Reader) : bool * Reader :=
  match r_origin r with
  | Some (e, id) => let '(may, a) := may_write_reclaiming id (r_cell r e) in (may, put_cell e a r)
  | None => (r_attached r, r)
  end.

(** The hand-off of a payload held over; whether the pass did something. *)
Definition retry_pending (r : Reader) : bool * Reader :=
  match r_pending r with
  | None => (false, r)
  | Some chunk =>
      let r := put_pending None r in
      match r_origin r with
      | Some (e, _) =>
          match offer e chunk r with
          | (Taken, r) => (true, r)
          | (Full chunk, r) => (false, put_pending (Some chunk) r)
          | (Lost, r) => (false, r)
          end
      | None => (false, lose (len chunk) r)
      end
  end.

Definition is_data (p : Packet) : bool := bval (k_control p) =? TIOCPKT_DATA.

Definition reconcile (t : option (Termios R)) (r : Reader) : Reader :=
  match t with
  | Some t => let '(c, re) := reconcile_termios t in put_termios (Some c) re r
  | None => r
  end.

(** The drain of the master: the state, whether something was read, whether the close was
    seen, and the packets it did not come to read. *)
Fixpoint drain_loop (now : bool) (clock : Z) (fin : ReadEnd) (reads : list Packet) (did : bool) (r : Reader)
  : Reader * bool * bool * list Packet :=
  match reads with
  | [] => (r, did, match fin with Eof | Eio => true | WouldBlock | OtherError => false end, [])
  | p :: reads =>
      let r := put_saw true r in
      if is_data p then
        if bool_decide (k_payload p = []) then drain_loop now clock fin reads true r
        else match r_origin r with
             | None => drain_loop now clock fin reads true (lose (len (k_payload p)) r)
             | Some (e, _) =>
                 match offer e (k_payload p) r with
                 | (Taken, r) => drain_loop now clock fin reads true r
                 | (Full chunk, r) => (put_pending (Some chunk) r, true, false, reads)
                 | (Lost, r) => (r, true, false, reads)
                 end
             end
      else if negb (Z.land (bval (k_control p)) TIOCPKT_IOCTL =? 0) && now
      then drain_loop now clock fin reads true (put_reconcile clock (reconcile (k_termios p) r))
      else drain_loop now clock fin reads true r
  end.

Definition data_len (p : Packet) : Z := if is_data p then len (k_payload p) else 0.

Fixpoint drain_and_discard (reads : list Packet) (discarded : Z) : Z :=
  match reads with
  | [] => discarded
  | p :: reads => drain_and_discard reads (discarded + data_len p)
  end.

(** The purge on acquire: the control plane drains a node's master at grant time. *)
Definition purge_origin {E} (reads : list Packet) (n : PtyNode (E := E)) : Z :=
  match master n with None => 0 | Some _ => drain_and_discard reads 0 end.

(** The bounded loop of [flush_hostward_queue]; an exhausted list is an empty round. *)
Fixpoint flush_rounds (fuel : nat) (rounds : list (list Z * bool)) (discarded : Z) : Z :=
  match fuel, rounds with
  | S fuel, (reads, more) :: rounds =>
      let round := foldr Z.add 0 reads in
      let discarded := discarded + round in
      if (round =? 0) || negb more then discarded else flush_rounds fuel rounds discarded
  | _, _ => discarded
  end.

Definition flush_hostward_queue (slave : option (list (list Z * bool))) : Z :=
  match slave with Some rounds => flush_rounds MAX_FLUSH_ROUNDS rounds 0 | None => 0 end.

(** The lock's half of [handle_last_close]. *)
Definition settle_lock (id : OriginId) (backlog : list Packet) (a : Arb) : Arb :=
  let held := bool_decide (holder (a_lock a) = Some id) in
  let exclusive := bool_decide (arbitration (a_lock a) = Exclusive) in
  let held_mode := bool_decide (write_mode_of (a_lock a) id = Some Held) in
  if held && negb held_mode then
    let '(released, l) := release (a_lock a) id in
    let a := set_lock l a in
    if released : bool then wake_waiters a else a
  else if negb held && exclusive then
    let purged := drain_and_discard backlog 0 in
    if 0 <? purged then set_lock (record_purge (a_lock a) id purged) a else a
  else a.

Definition handle_last_close (baud : Z) (x : Pass) (r : Reader) : Reader :=
  let r := put_termios (r_termios r) (baseline baud <$> x_baseline x) r in
  let r := put_loss (mkLosses (targetward (r_loss r)) (u64_wrapping_add (at_last_close (r_loss r)) (flush_hostward_queue (x_slave x)))) r in
  let r := put_termios None None r in
  match r_origin r with
  | Some (e, id) => put_cell e (settle_lock id (x_backlog x) (r_cell r e)) r
  | None => r
  end.

(** The held payload is offered once more; what the endpoint still refuses. *)
Definition settle_held (r : Reader) : Z * Reader :=
  match r_pending r with
  | None => (0, r)
  | Some chunk =>
      let r := put_pending None r in
      match r_origin r with
      | Some (e, _) =>
          match offer e chunk r with
          | (Taken, r) => (0, r)
          | (Full chunk, r) => (len chunk, r)
          | (Lost, r) => (0, r)
          end
      | None => (0, lose (len chunk) r)
      end
  end.

Definition record_detach_purge (n : Z) (r : Reader) : Reader :=
  if n =? 0 then r
  else match r_origin r with
       | Some (e, id) => put_cell e (set_lock (record_purge (a_lock (r_cell r e)) id n) (r_cell r e)) r
       | None => lose n r
       end.

(** The close block. *)
Definition close_session (baud : Z) (may_write : bool) (x : Pass) (r : Reader) : Reader :=
  let '(held, r) := settle_held r in
  let r := handle_last_close baud x r in
  let r := put_saw false r in
  let residual := if may_write then drain_and_discard (x_residual x) 0 else 0 in
  record_detach_purge (held + residual) r.

(** The end of the loop body, up to its await. *)
Definition await_next (did : bool) (r : Reader) : Reader :=
  match r_pending r with
  | Some chunk =>
      let r := put_pending None r in
      match r_origin r with
      | Some (e, _) => put_phase (r_wait r) (Reserving chunk e) r
      | None => put_phase (r_wait r) Looping (lose (len chunk) r)
      end
  | None => if did then put_phase ACTIVE_POLL Looping r else put_phase (r_wait r) Sleeping r
  end.

(** The data half of a turn: whether the origin may write, whether anything was done, whether the
    close was seen, and what was left on the master. *)
Definition read_half (x : Pass) (r : Reader) : bool * Reader * bool * bool * list Packet :=
  let '(may_write, r) := gate r in
  let '(did, r) := retry_pending r in
  let '(r, did, closed, unread) :=
    if bool_decide (r_pending r = None) && may_write && x_pollin x
    then drain_loop (negb (x_pollhup x)) (x_now x) (x_end x) (x_reads x) did r else (r, did, false, x_reads x) in
  (may_write, r, did, closed, unread).

(** One turn of the loop, and what was left on the master. *)
Definition pass (baud : Z) (x : Pass) (r : Reader) : Reader * list Packet :=
  let '(may_write, r, did, closed, unread) := read_half x r in
  let r := if x_edge x then put_saw true r else r in
  let present_now := negb (x_pollhup x) && negb closed in
  let was := r_present r in
  let r := put_present present_now r in
  let r := if negb present_now && (was || r_saw r) then close_session baud may_write x r else r in
  let r := if r_present r && (RECONCILE_INTERVAL <=? x_now x - r_reconcile r)
           then put_reconcile (x_now x) (reconcile (x_termios x) r) else r in
  (await_next did r, unread).

(** ** Steps *)

Inductive ReaderOp :=
| RPass (x : Pass)
| RSlept
| RReserved
| RTimedOut
| REdge (attached : bool) (o : option (N * OriginId))
| RChannel (e : N) (tx : C (list byte))
| RCell (e : N) (a : Arb)
| RAbort.

(** [RChannel], [RCell]: what others did to an endpoint. *)
Definition reader_step (baud : Z) (op : ReaderOp) (r : Reader) : option Reader :=
  match op with
  | RPass x => match r_phase r with Looping => Some (pass baud x r).1 | _ => None end
  | RSlept => match r_phase r with Sleeping => Some (put_phase (back_off (r_wait r)) Looping r) | _ => None end
  | RReserved =>
      match r_phase r with
      | Reserving chunk e =>
          match try_send (r_chan r e) chunk with
          | (SendOk, tx) => Some (put_phase ACTIVE_POLL Looping (put_chan e tx r))
          | (SendFull, _) => None
          | (SendClosed, _) => Some (put_phase (r_wait r) Looping (lose (len chunk) r))
          end
      | _ => None
      end
  | RTimedOut =>
      match r_phase r with
      | Reserving chunk _ => Some (put_phase (back_off (r_wait r)) Looping (put_pending (Some chunk) r))
      | _ => None
      end
  | REdge attached o => Some (put_edge attached o r)
  | RChannel e tx => Some (put_chan e tx r)
  | RCell e a => Some (put_cell e a r)
  | RAbort => Some (put_phase (r_wait r) Aborted (put_pending None r))
  end.

Fixpoint reader_run (baud : Z) (ops : list ReaderOp) (r : Reader) : option Reader :=
  match ops with
  | [] => Some r
  | op :: ops => r ← reader_step baud op r; reader_run baud ops r
  end.

(** ** What happens to the client's bytes *)

Inductive Fate := FSent (chunk : list byte) | FLost (chunk : list byte).
Definition fate_chunk (f : Fate) : list byte := match f with FSent c | FLost c => c end.
Definition sent_of (fs : list Fate) : list (list byte) := omap (fun f => match f with FSent c => Some c | FLost _ => None end) fs.
Definition lost_of (fs : list Fate) : list (list byte) := omap (fun f => match f with FLost c => Some c | FSent _ => None end) fs.

(** The payloads of a series of packets. *)
Definition payloads (reads : list Packet) : list (list byte) := filter (fun c => c <> []) (k_payload <$> filter (fun p => is_data p = true) reads).

(** The chunk the task holds. *)
Definition holding (r : Reader) : list (list byte) :=
  option_list (r_pending r) ++ match r_phase r with Reserving chunk _ => [chunk] | _ => [] end.

(** A synchronous stretch that settled [fs] and touched no lock, edge or presence. *)
Record moves (r r' : Reader) (fs : list Fate) : Prop := {
  mv_edge : r_attached r' = r_attached r /\ r_origin r' = r_origin r;
  mv_cell : r_cell r' = r_cell r;
  mv_present : r_present r' = r_present r;
  mv_wait : r_wait r' = r_wait r /\ r_phase r' = r_phase r;
  mv_other : forall e, (forall o, r_origin r = Some o -> o.1 <> e) -> r_chan r' e = r_chan r e;
  mv_chan : forall e id, r_origin r = Some (e, id) -> contents (r_chan r' e) = contents (r_chan r e) ++ sent_of fs;
  mv_none : r_origin r = None -> sent_of fs = [];
  mv_lost : wrapped (targetward (r_loss r')) = wrapped (targetward (r_loss r) + total len (lost_of fs)) }.

Lemma sent_of_app fs gs : sent_of (fs ++ gs) = sent_of fs ++ sent_of gs.
Proof. unfold sent_of. by rewrite omap_app. Qed.
Lemma lost_of_app fs gs : lost_of (fs ++ gs) = lost_of fs ++ lost_of gs.
Proof. unfold lost_of. by rewrite omap_app. Qed.

Lemma moves_refl r : moves r r [].
Proof. split; try done. - intros. by rewrite app_nil_r. - by rewrite Z.add_0_r. Qed.

Lemma moves_trans r1 r2 r3 fs gs : moves r1 r2 fs -> moves r2 r3 gs -> moves r1 r3 (fs ++ gs).
Proof.
  intros [[A1 A2] A3 A4 [A5 A6] A7 A8 A9 A10] [[B1 B2] B3 B4 [B5 B6] B7 B8 B9 B10]. rewrite A2 in *. split; try (split; congruence); try congruence.
  - intros e He. rewrite B7, A7; auto.
  - intros e id Ho. rewrite (B8 _ _ Ho), (A8 _ _ Ho), sent_of_app. by rewrite (assoc_L _).
  - intros Ho. by rewrite sent_of_app, (A9 Ho), (B9 Ho).
  - rewrite lost_of_app, total_app. unfold wrapped in *. rewrite B10.
    rewrite Z.add_mod, A10, <- Z.add_mod by lia. f_equal. lia.
Qed.

(** A change of nothing [moves] is about. *)
Lemma moves_same r r' :
  r_attached r' = r_attached r -> r_origin r' = r_origin r -> r_cell r' = r_cell r -> r_present r' = r_present r ->
  r_wait r' = r_wait r -> r_phase r' = r_phase r -> r_chan r' = r_chan r -> targetward (r_loss r') = targetward (r_loss r) ->
  moves r r' [].
Proof.
  intros E1 E2 E3 E4 E5 E6 E7 E8. split; try done; rewrite ?E7, ?E8; intros; rewrite ?app_nil_r; try done.
  by rewrite Z.add_0_r.
Qed.

Lemma moves_lose r chunk : r_origin r = None -> moves r (lose (len chunk) r) [FLost chunk].
Proof.
  intros Ho. split; cbn; try done; [by rewrite Ho|]. change (lost_of [FLost chunk]) with [chunk].
  rewrite total_cons, total_nil, Z.add_0_r. by apply wrapped_add.
Qed.

(** What an offer leaves alone. *)
Definition same_session (r r' : Reader) : Prop :=
  r_saw r' = r_saw r /\ r_pending r' = r_pending r /\ r_termios r' = r_termios r /\ r_reconcile r' = r_reconcile r
  /\ at_last_close (r_loss r') = at_last_close (r_loss r).

Lemma offer_spec e id chunk r h r' :
  r_origin r = Some (e, id) -> offer e chunk r = (h, r') ->
  same_session r r' /\
  match h with
  | Taken => moves r r' [FSent chunk]
  | Full c => c = chunk /\ moves r r' []
  | Lost => moves r r' [FLost chunk]
  end.
Proof.
  intros Ho. unfold offer. destruct (try_forward_targetward (r_chan r e) chunk (targetward (r_loss r))) as [[h0 tx] lost] eqn:Et.
  apply try_forward_accounts in Et. intros [= <- <-]. split; [done|].
  assert (forall e', (forall o, r_origin r = Some o -> o.1 <> e') -> upd e tx (r_chan r) e' = r_chan r e') as Hother.
  { intros e' He. unfold upd. destruct (N.eqb_spec e' e) as [->|]; [|done]. by destruct (He _ Ho). }
  destruct h0 as [|c|]; [destruct Et as [Ec ->]|destruct Et as (-> & -> & ->); split; [done|]|destruct Et as [-> ->]];
    (split; cbn; try done; try (intros e' id' Ho'; rewrite Ho in Ho'; injection Ho' as <- <-; unfold upd; rewrite N.eqb_refl);
     try (intros; congruence)).
  all: rewrite ?app_nil_r, ?total_cons, ?total_nil, ?Z.add_0_r; try done.
  by apply wrapped_add.
Qed.

Lemma retry_spec r did r' :
  retry_pending r = (did, r') ->
  exists fs, option_list (r_pending r) = (fate_chunk <$> fs) ++ option_list (r_pending r') /\ moves r r' fs
    /\ r_saw r' = r_saw r /\ r_termios r' = r_termios r /\ (r_origin r = None -> r_pending r' = None).
Proof.
  unfold retry_pending. destruct (r_pending r) as [chunk|] eqn:Ep.
  2: { intros [= <- <-]. exists []. rewrite Ep. split_and!; try done. apply moves_refl. }
  set (r0 := put_pending None r). assert (moves r r0 []) as M0 by by apply moves_same.
  change (r_origin r) with (r_origin r0). destruct (r_origin r0) as [[e id]|] eqn:Eo.
  - destruct (offer e chunk r0) as [h r1] eqn:E. destruct (offer_spec _ _ _ _ _ _ Eo E) as [(S1 & S2 & S3 & _) Hh].
    destruct h as [|c|]; intros [= <- <-].
    + exists [FSent chunk]. rewrite S2. split_and!; try done. by apply (moves_trans _ _ _ [] _ M0).
    + destruct Hh as [-> M]. exists []. split_and!; try done.
      apply (moves_trans _ r1 _ [] []); [by apply (moves_trans _ _ _ [] _ M0)|by apply moves_same].
    + exists [FLost chunk]. rewrite S2. split_and!; try done. by apply (moves_trans _ _ _ [] _ M0).
  - intros [= <- <-]. exists [FLost chunk]. split_and!; try done.
    apply (moves_trans _ _ _ [] _ M0). by apply moves_lose.
Qed.

Lemma payloads_cons p reads :
  payloads (p :: reads) = (if is_data p then filter (fun c => c <> []) [k_payload p] else []) ++ payloads reads.
Proof.
  unfold payloads. rewrite filter_cons. destruct (is_data p); cbn [decide]; case_decide; try done.
  rewrite fmap_cons. change (k_payload p :: ?l) with ([k_payload p] ++ l). by rewrite filter_app.
Qed.

Lemma reconcile_spec t r :
  moves r (reconcile t r) [] /\ r_saw (reconcile t r) = r_saw r /\ r_pending (reconcile t r) = r_pending r
  /\ r_loss (reconcile t r) = r_loss r.
Proof. destruct t; cbn; split_and!; try done; [by apply moves_same|apply moves_refl]. Qed.

(** From [r] to [r'] the packets [reads] were read but for [unread]. *)
Definition drained (reads unread : list Packet) (did did' : bool) (r r' : Reader) : Prop :=
  exists consumed fs,
    reads = consumed ++ unread
    /\ payloads consumed = (fate_chunk <$> fs) ++ option_list (r_pending r')
    /\ moves r r' fs
    /\ r_saw r' = r_saw r || bool_decide (consumed <> [])
    /\ did' = did || bool_decide (consumed <> [])
    /\ (r_origin r = None -> r_pending r' = None /\ unread = [])
    /\ (consumed = [] -> r_termios r' = r_termios r).

(** What one packet carries. *)
Definition payload_of (p : Packet) : list (list byte) := if is_data p then filter (fun c => c <> []) [k_payload p] else [].

(** The loop goes on from [r1], the payload settled as [fs1]. *)
Lemma drained_go p reads unread did did' r r1 r' fs1 :
  drained reads unread true did' r1 r' -> payload_of p = fate_chunk <$> fs1 ->
  moves (put_saw true r) r1 fs1 -> r_saw r1 = true ->
  drained (p :: reads) unread did did' r r'.
Proof.
  intros (consumed & fs & -> & P & M & S & -> & N & _) Hf M1 Hs. exists (p :: consumed), (fs1 ++ fs).
  rewrite payloads_cons. change (if is_data p then _ else _) with (payload_of p).
  rewrite Hf, P, fmap_app, <- (assoc_L _), S, Hs, (bool_decide_true (p :: consumed <> [])), !orb_true_r by done.
  split_and!; try done.
  - apply (moves_trans _ (put_saw true r) _ []); [by apply moves_same|by apply (moves_trans _ r1)].
  - destruct (mv_edge _ _ _ M1) as [_ E]. cbn in E. by rewrite E in N.
Qed.

(** The loop ends in [r1], the payload settled as [fs1] or held. *)
Lemma drained_end p reads did r r1 fs1 :
  payload_of p = (fate_chunk <$> fs1) ++ option_list (r_pending r1) ->
  moves (put_saw true r) r1 fs1 -> r_saw r1 = true -> r_origin r <> None ->
  drained (p :: reads) reads did true r r1.
Proof.
  intros Hf M1 Hs Ho. exists [p], fs1. rewrite payloads_cons. change (if is_data p then _ else _) with (payload_of p).
  rewrite Hf, app_nil_r, Hs, (bool_decide_true ([p] <> [])), !orb_true_r by done. split_and!; try done.
  by apply (moves_trans _ (put_saw true r) _ []); [apply moves_same|].
Qed.

Lemma drain_spec now clock fin reads : forall did r r' did' closed unread,
  drain_loop now clock fin reads did r = (r', did', closed, unread) -> r_pending r = None ->
  drained reads unread did did' r r'.
Proof.
  induction reads as [|p reads IH]; intros did r r' did' closed unread Hd Hp; cbn [drain_loop] in Hd.
  { injection Hd as <- <- <- <-. exists [], []. rewrite Hp, !orb_false_r. split_and!; try done. apply moves_refl. }
  set (r0 := put_saw true r) in *.
  assert (payload_of p = if is_data p then if bool_decide (k_payload p = []) then [] else [k_payload p] else []) as Hf.
  { unfold payload_of. rewrite filter_cons. destruct (is_data p), (k_payload p); done. }
  destruct (is_data p); [case_bool_decide as He|].
  - apply (drained_go _ _ _ _ _ _ r0 _ []); [by eapply IH|done|apply moves_refl|done].
  - destruct (r_origin r0) as [[e id]|] eqn:Eo.
    + destruct (offer e (k_payload p) r0) as [h r1] eqn:E.
      destruct (offer_spec _ id _ _ _ _ Eo E) as [(S1 & S2 & _) Hh]. cbn in S1, S2.
      destruct h as [|c|].
      * apply (drained_go _ _ _ _ _ _ r1 _ [FSent (k_payload p)]); try done. eapply IH; [done|congruence].
      * destruct Hh as [-> M]. injection Hd as <- <- <- <-. apply (drained_end _ _ _ _ _ []); try done.
        2: { change (r_origin r) with (r_origin r0). by rewrite Eo. }
        apply (moves_trans _ r1 _ [] []); [done|by apply moves_same].
      * injection Hd as <- <- <- <-. apply (drained_end _ _ _ _ _ [FLost (k_payload p)]); try done.
        -- cbn. by rewrite S2, Hp.
        -- change (r_origin r) with (r_origin r0). by rewrite Eo.
    + apply (drained_go _ _ _ _ _ _ (lose (len (k_payload p)) r0) _ [FLost (k_payload p)]); try done;
        [by eapply IH|by apply moves_lose].
  - destruct (negb _ && now).
    + destruct (reconcile_spec (k_termios p) r0) as (M & S & P & _).
      apply (drained_go _ _ _ _ _ _ (put_reconcile clock (reconcile (k_termios p) r0)) _ []); try done.
      * eapply IH; [done|]. cbn. by rewrite P.
      * by apply (moves_trans _ (reconcile (k_termios p) r0) _ [] []); [|apply moves_same].
    + apply (drained_go _ _ _ _ _ _ r0 _ []); [by eapply IH|done|apply moves_refl|done].
Qed.

(** ** The lock *)

Definition data_bytes (reads : list Packet) : Z := total data_len reads.

Lemma drain_and_discard_total reads : forall d, drain_and_discard reads d = d + data_bytes reads.
Proof.
  unfold data_bytes. induction reads as [|p reads IH]; intros d; cbn; [by rewrite total_nil, Z.add_0_r|].
  rewrite IH, total_cons. lia.
Qed.

(** The purge counts the payload bytes and nothing else. *)
Lemma purge_origin_exact {E} reads (n : PtyNode (E := E)) :
  purge_origin reads n = match master n with None => 0 | Some _ => data_bytes reads end.
Proof. unfold purge_origin. destruct (master n); [|done]. by rewrite drain_and_discard_total. Qed.

Lemma data_bytes_nonneg reads : 0 <= data_bytes reads.
Proof. apply total_nonneg. intros p. unfold data_len. destruct (is_data p); [apply len_nonneg|lia]. Qed.

Lemma may_write_reclaiming_spec id a may a' :
  may_write_reclaiming id a = (may, a') ->
  origins (a_lock a') = origins (a_lock a) /\ arbitration (a_lock a') = arbitration (a_lock a)
  /\ may = may_write (a_lock a') id /\ a_tasks a' = a_tasks a /\ (lock_wf (a_lock a) -> lock_wf (a_lock a')).
Proof.
  unfold may_write_reclaiming. destruct (may_write (a_lock a) id) eqn:Em; [by intros [= <- <-]|].
  pose proof (wf_reclaim (a_lock a) id) as W. destruct (reclaim_held (a_lock a) id) as [took l] eqn:Er.
  intros [= <- <-]. cbn in *. unfold reclaim_held in Er. unfold may_write in *.
  destruct (origins (a_lock a) !! id) as [o|] eqn:Eo; [|by injection Er as <- <-; rewrite Eo].
  destruct (decide (o_write_mode o = Held)) as [Eh|Eh].
  - rewrite Eh in *. rewrite bool_decide_true in Er by done. rewrite bool_decide_false in Em by done.
    destruct (arbitration (a_lock a)) eqn:Ea; [|done]. rewrite bool_decide_false in Er by done.
    case_bool_decide; injection Er as <- <-; cbn;
      rewrite Eo, Eh, Ea, (bool_decide_false (Held = Never)) by done; split_and!; try done.
    by rewrite bool_decide_true.
  - rewrite bool_decide_false in Er by done. injection Er as <- <-. rewrite Eo. split_and!; try done.
Qed.

Lemma record_purge_purged l id n :
  origins l !! id <> None -> Lock.purged (record_purge l id n) id = u64_saturating_add (Lock.purged l id) n.
Proof.
  unfold record_purge, Lock.purged. destruct (origins l !! id) as [o|] eqn:Eo; [intros _|done].
  cbn. by rewrite lookup_insert_eq.
Qed.

Lemma record_purge_frame l id n :
  holder (record_purge l id n) = holder l /\ arbitration (record_purge l id n) = arbitration l
  /\ (forall x, write_mode_of (record_purge l id n) x = write_mode_of l x)
  /\ (forall x, origins (record_purge l id n) !! x = None <-> origins l !! x = None).
Proof.
  unfold record_purge, write_mode_of. destruct (origins l !! id) as [o|] eqn:Eo; [|done]. cbn.
  split_and!; try done; intros x; (destruct (decide (x = id)) as [->|]; [rewrite lookup_insert_eq, Eo|by rewrite lookup_insert_ne]); done.
Qed.

Lemma saturating_add_0 l id : lock_wf l -> u64_saturating_add (Lock.purged l id) 0 = Lock.purged l id.
Proof.
  intros W. unfold Lock.purged. destruct (origins l !! id) as [o|] eqn:Eo; [|done].
  pose proof (wf_purged _ W _ _ Eo). unfold u64_saturating_add, u64 in *. lia.
Qed.

(** What the last close of a session does to the lock of a writer [id]. *)
Lemma settle_lock_spec id backlog a :
  lock_wf (a_lock a) -> origins (a_lock a) !! id <> None ->
  let a' := settle_lock id backlog a in
  let purging := negb (may_write (a_lock a) id) && bool_decide (arbitration (a_lock a) = Exclusive) in
  Lock.purged (a_lock a') id = u64_saturating_add (Lock.purged (a_lock a) id) (if purging then data_bytes backlog else 0)
  /\ (forall x, origins (a_lock a') !! x = None <-> origins (a_lock a) !! x = None)
  /\ (forall x, write_mode_of (a_lock a') x = write_mode_of (a_lock a) x)
  /\ (holder (a_lock a') = Some id -> write_mode_of (a_lock a) id = Some Held)
  /\ (holder (a_lock a) = Some id -> write_mode_of (a_lock a) id <> Some Held ->
      holder (a_lock a') = None /\ a_tasks a' = notify <$> a_tasks a).
Proof.
  intros W Hid. cbn zeta. unfold settle_lock, release.
  destruct (decide (holder (a_lock a) = Some id)) as [Eh|Eh].
  - destruct (wf_holder _ W _ Eh) as [[o [Eo Hm]] Ea].
    assert (may_write (a_lock a) id = true) as ->.
    { unfold may_write. by rewrite Eo, bool_decide_false, Ea, bool_decide_true. }
    rewrite (bool_decide_true (holder _ = _)) by done. cbn [negb andb]. rewrite saturating_add_0 by done.
    case_bool_decide as Ew; cbn; split_and!; try done.
  - rewrite (bool_decide_false (holder _ = _)) by done. cbn [negb andb].
    destruct (decide (arbitration (a_lock a) = Exclusive)) as [Ea|Ea].
    + assert (may_write (a_lock a) id = false) as ->.
      { unfold may_write. destruct (origins _ !! id); [|done]. case_bool_decide; [done|]. by rewrite Ea, bool_decide_false. }
      rewrite !bool_decide_true by done. cbn [negb andb]. rewrite drain_and_discard_total, Z.add_0_l.
      destruct (record_purge_frame (a_lock a) id (data_bytes backlog)) as (F1 & F2 & F3 & F4).
      pose proof (data_bytes_nonneg backlog). destruct (Z.ltb_spec 0 (data_bytes backlog)); cbn.
      * rewrite record_purge_purged, F1 by done. split_and!; try done.
      * replace (data_bytes backlog) with 0 by lia. rewrite saturating_add_0 by done. split_and!; done.
    + rewrite !(bool_decide_false (arbitration _ = _)), !andb_false_r by done. rewrite saturating_add_0 by done. split_and!; done.
Qed.

(** ** A pass, half by half *)

(** A stretch that settled [fs] and charged [extra] bytes more, whatever it did to locks and presence. *)
Record settles (r r' : Reader) (fs : list Fate) (extra : Z) : Prop := {
  st_edge : r_attached r' = r_attached r /\ r_origin r' = r_origin r;
  st_other : forall e, (forall o, r_origin r = Some o -> o.1 <> e) -> r_chan r' e = r_chan r e;
  st_chan : forall e id, r_origin r = Some (e, id) -> contents (r_chan r' e) = contents (r_chan r e) ++ sent_of fs;
  st_none : r_origin r = None -> sent_of fs = [];
  st_lost : wrapped (targetward (r_loss r')) = wrapped (targetward (r_loss r) + total len (lost_of fs) + extra) }.

Lemma moves_settles r r' fs : moves r r' fs -> settles r r' fs 0.
Proof. intros []. split; try done. by rewrite Z.add_0_r. Qed.

Lemma settles_trans r1 r2 r3 fs gs x y : settles r1 r2 fs x -> settles r2 r3 gs y -> settles r1 r3 (fs ++ gs) (x + y).
Proof.
  intros [[A1 A2] A7 A8 A9 A10] [[B1 B2] B7 B8 B9 B10]. rewrite A2 in *. split; try (split; congruence).
  - intros e He. rewrite B7, A7; auto.
  - intros e id Ho. rewrite (B8 _ _ Ho), (A8 _ _ Ho), sent_of_app. by rewrite (assoc_L _).
  - intros Ho. by rewrite sent_of_app, (A9 Ho), (B9 Ho).
  - rewrite lost_of_app, total_app. unfold wrapped in *. rewrite B10, <- Z.add_assoc.
    rewrite Z.add_mod, A10, <- Z.add_mod by lia. f_equal. lia.
Qed.

Lemma settles_same r r' :
  r_attached r' = r_attached r -> r_origin r' = r_origin r -> r_chan r' = r_chan r -> targetward (r_loss r') = targetward (r_loss r) ->
  settles r r' [] 0.
Proof.
  intros E1 E2 E7 E8. split; try done; rewrite ?E7, ?E8; intros; rewrite ?app_nil_r; try done. by rewrite !Z.add_0_r.
Qed.

Lemma settles_then r1 r2 r3 fs x : settles r1 r2 fs x -> settles r2 r3 [] 0 -> settles r1 r3 fs x.
Proof. intros A B. rewrite <- (app_nil_r fs), <- (Z.add_0_r x). by apply (settles_trans _ r2). Qed.

Lemma settles_after r1 r2 r3 fs x : settles r1 r2 [] 0 -> settles r2 r3 fs x -> settles r1 r3 fs x.
Proof. intros A B. by apply (settles_trans _ r2 _ [] _ 0). Qed.

Lemma gate_spec r may r1 :
  gate r = (may, r1) ->
  settles r r1 [] 0 /\ r_present r1 = r_present r /\ r_phase r1 = r_phase r /\ r_saw r1 = r_saw r /\ r_pending r1 = r_pending r
  /\ r_termios r1 = r_termios r /\ r_wait r1 = r_wait r
  /\ match r_origin r with
     | Some (e, id) =>
         r_cell r1 = upd e (may_write_reclaiming id (r_cell r e)).2 (r_cell r) /\ may = may_write (a_lock (r_cell r1 e)) id
     | None => r_cell r1 = r_cell r /\ may = r_attached r
     end.
Proof.
  unfold gate. destruct (r_origin r) as [[e id]|] eqn:Eo.
  - destruct (may_write_reclaiming id (r_cell r e)) as [m a] eqn:Em. intros [= <- <-]. cbn.
    apply may_write_reclaiming_spec in Em as (_ & _ & -> & _). split_and!; try done; [by apply settles_same|].
    unfold upd. by rewrite N.eqb_refl.
  - intros [= <- <-]. split_and!; try done. by apply settles_same.
Qed.

Lemma read_half_spec x r may r' did closed unread :
  read_half x r = (may, r', did, closed, unread) ->
  exists consumed fs,
    x_reads x = consumed ++ unread
    /\ option_list (r_pending r) ++ payloads consumed = (fate_chunk <$> fs) ++ option_list (r_pending r')
    /\ settles r r' fs 0
    /\ may = (gate r).1 /\ r_cell r' = r_cell (gate r).2
    /\ r_present r' = r_present r /\ r_phase r' = r_phase r /\ r_wait r' = r_wait r
    /\ r_saw r' = r_saw r || bool_decide (consumed <> [])
    /\ (may = false -> consumed = [])
    /\ (consumed = [] -> r_termios r' = r_termios r)
    /\ (r_origin r = None -> r_pending r' = None)
    /\ (r_origin r = None -> may = true -> x_pollin x = true -> unread = [] /\ (consumed <> [] -> did = true)).
Proof.
  unfold read_half. destruct (gate r) as [m r1] eqn:Eg. destruct (gate_spec _ _ _ Eg) as (G1 & G2 & G3 & G4 & G5 & G6 & G7 & _).
  destruct (retry_pending r1) as [d r2] eqn:Er. destruct (retry_spec _ _ _ Er) as (fs1 & P1 & M1 & S1 & R1 & N1).
  destruct (st_edge _ _ _ _ G1) as [_ Eo]. rewrite Eo in N1. rewrite G5 in P1.
  destruct (mv_wait _ _ _ M1) as [W1 Ph1]. pose proof (mv_present _ _ _ M1) as Pr1. pose proof (mv_cell _ _ _ M1) as C1.
  assert (settles r r2 fs1 0) as T1 by (eapply settles_after; [done|by apply moves_settles]).
  destruct (bool_decide (r_pending r2 = None)) eqn:Ep; [apply bool_decide_eq_true in Ep; cbn [andb]; destruct (m && x_pollin x) eqn:Em|cbn [andb]].
  - apply andb_true_iff in Em as [-> Epi].
    destruct (drain_loop _ _ _ _ _ _) as [[[r3 d3] c3] u3] eqn:Ed. intros [= <- <- <- <- <-].
    destruct (drain_spec _ _ _ _ _ _ _ _ _ _ Ed Ep) as (consumed & fs2 & E & P2 & M2 & S2 & D2 & N2 & T2).
    destruct (mv_wait _ _ _ M2) as [W2 Ph2]. exists consumed, (fs1 ++ fs2).
    destruct (mv_edge _ _ _ M1) as [_ Eo1]. rewrite Eo1, Eo in N2.
    rewrite P1, Ep, P2, fmap_app, app_nil_r, <- (assoc_L _), S2, S1, G4, D2. split_and!; try done; try congruence.
    + apply (settles_trans _ r2 _ _ _ 0 0); [done|by apply moves_settles].
    + rewrite (mv_cell _ _ _ M2). done.
    + rewrite (mv_present _ _ _ M2). congruence.
    + intros Hc. rewrite T2, R1; congruence.
    + intros Ho. apply N2, Ho.
    + intros Ho _ _. split; [apply N2, Ho|]. intros Hc. by rewrite bool_decide_true, orb_true_r.
  - intros [= <- <- <- <- <-]. exists [], fs1. rewrite app_nil_r, orb_false_r, S1, G4. split_and!; try done; try congruence.
    intros _ -> Epi. by rewrite Epi in Em.
  - intros [= <- <- <- <- <-]. exists [], fs1. rewrite app_nil_r, orb_false_r, S1, G4. split_and!; try done; try congruence.
    intros Ho. by rewrite N1, bool_decide_true in Ep.
Qed.

Lemma settle_held_spec r held r' :
  settle_held r = (held, r') ->
  exists fs kept, option_list (r_pending r) = (fate_chunk <$> fs) ++ kept /\ held = total len kept /\ moves r r' fs
    /\ r_pending r' = None /\ (r_origin r = None -> kept = []).
Proof.
  unfold settle_held. destruct (r_pending r) as [chunk|] eqn:Ep.
  2: { intros [= <- <-]. exists [], []. split_and!; try done. apply moves_refl. }
  set (r0 := put_pending None r). assert (moves r r0 []) as M0 by by apply moves_same.
  change (r_origin r) with (r_origin r0). destruct (r_origin r0) as [[e id]|] eqn:Eo.
  - destruct (offer e chunk r0) as [h r1] eqn:E. destruct (offer_spec _ _ _ _ _ _ Eo E) as [(S1 & S2 & S3 & _) Hh].
    destruct h as [|c|]; intros [= <- <-].
    + exists [FSent chunk], []. rewrite S2. split_and!; try done. by apply (moves_trans _ _ _ [] _ M0).
    + destruct Hh as [-> M]. exists [], [chunk]. rewrite S2, total_cons, total_nil, Z.add_0_r. split_and!; try done.
      by apply (moves_trans _ _ _ [] _ M0).
    + exists [FLost chunk], []. rewrite S2. split_and!; try done. by apply (moves_trans _ _ _ [] _ M0).
  - intros [= <- <-]. exists [FLost chunk], []. split_and!; try done.
    apply (moves_trans _ _ _ [] _ M0). by apply moves_lose.
Qed.

Lemma saturating_add_add a m n : 0 <= m -> 0 <= n -> u64_saturating_add (u64_saturating_add a m) n = u64_saturating_add a (m + n).
Proof. unfold u64_saturating_add. lia. Qed.

(** The client's bytes still in the kernel that a close discards. *)
Definition drained_at_close (may_write : bool) (a : Arb) (x : Pass) : Z :=
  if may_write then data_bytes (x_residual x)
  else if bool_decide (arbitration (a_lock a) = Exclusive) then data_bytes (x_backlog x) else 0.

(** The lock cell of the origin after a close that purges [n] bytes more than the detach's own. *)
Lemma close_cell id may x n a :
  lock_wf (a_lock a) -> origins (a_lock a) !! id <> None -> may = may_write (a_lock a) id -> 0 <= n ->
  let a1 := settle_lock id (x_backlog x) a in
  let n := n + (if may then data_bytes (x_residual x) else 0) in
  let a2 := if n =? 0 then a1 else set_lock (record_purge (a_lock a1) id n) a1 in
  Lock.purged (a_lock a2) id = u64_saturating_add (Lock.purged (a_lock a) id) (n + drained_at_close may a x - (if may then data_bytes (x_residual x) else 0))
  /\ (holder (a_lock a2) = Some id -> write_mode_of (a_lock a2) id = Some Held)
  /\ (holder (a_lock a) = Some id -> write_mode_of (a_lock a) id <> Some Held ->
      holder (a_lock a2) = None /\ a_tasks a2 = notify <$> a_tasks a).
Proof.
  intros W Hid Hm Hn. cbn zeta. set (m := n + _).
  destruct (settle_lock_spec id (x_backlog x) a W Hid) as (P & O & M & Hh & Hr). cbn zeta in P.
  set (a1 := settle_lock id (x_backlog x) a) in *. rewrite <- Hm in P.
  pose proof (data_bytes_nonneg (x_backlog x)). pose proof (data_bytes_nonneg (x_residual x)).
  assert (Lock.purged (a_lock a1) id = u64_saturating_add (Lock.purged (a_lock a) id)
            (drained_at_close may a x - (if may then data_bytes (x_residual x) else 0))) as P'.
  { rewrite P. unfold drained_at_close. f_equal. destruct may; cbn [negb andb]; [lia|]. case_match; lia. }
  assert (0 <= m /\ 0 <= drained_at_close may a x - (if may then data_bytes (x_residual x) else 0)) as [Hm0 Hd0].
  { unfold m, drained_at_close. destruct may, (bool_decide (arbitration (a_lock a) = Exclusive)); lia. }
  destruct (Z.eqb_spec m 0) as [E|E]; cbn.
  - rewrite P', M. split_and!; try done. f_equal. lia.
  - destruct (record_purge_frame (a_lock a1) id m) as (F1 & F2 & F3 & _).
    rewrite record_purge_purged, P', saturating_add_add, F1, F3, M by (done || lia || by rewrite O). split_and!; try done. f_equal. lia.
Qed.

Lemma close_session_spec baud may x r :
  let r' := close_session baud may x r in
  exists fs kept,
    option_list (r_pending r) = (fate_chunk <$> fs) ++ kept
    /\ settles r r' fs (match r_origin r with Some _ => 0 | None => if may then data_bytes (x_residual x) else 0 end)
    /\ r_pending r' = None /\ r_saw r' = false /\ r_termios r' = None
    /\ r_present r' = r_present r /\ r_phase r' = r_phase r /\ r_wait r' = r_wait r
    /\ match r_origin r with
       | Some (e, id) =>
           (forall e', e' <> e -> r_cell r' e' = r_cell r e') /\
           let a := settle_lock id (x_backlog x) (r_cell r e) in
           let n := total len kept + (if may then data_bytes (x_residual x) else 0) in
           r_cell r' e = if n =? 0 then a else set_lock (record_purge (a_lock a) id n) a
       | None => kept = [] /\ r_cell r' = r_cell r
       end.
Proof.
  cbn zeta. unfold close_session. destruct (settle_held r) as [held r1] eqn:Eh.
  destruct (settle_held_spec _ _ _ Eh) as (fs & kept & P & -> & M & Hp & Hk). exists fs, kept.
  rewrite drain_and_discard_total, Z.add_0_l. destruct M as [[A1 A2] A3 A4 [A5 A6] A7 A8 A9 A10].
  assert (settles r r1 fs 0) as S by (split; try done; by rewrite Z.add_0_r).
  unfold handle_last_close. cbn [r_origin put_termios put_loss]. rewrite A2.
  destruct (r_origin r) as [[e id]|] eqn:Eo; unfold record_detach_purge; cbn -[u64_wrapping_add].
  - rewrite A2. destruct (Z.eqb_spec (total len kept + (if may then data_bytes (x_residual x) else 0)) 0); cbn;
      rewrite A3, A4, A5, A6; unfold upd; (split_and!; try done; [apply (settles_then _ r1); [done|by apply settles_same]
        |intros e' He; by destruct (N.eqb_spec e' e)|by rewrite !N.eqb_refl]).
  - rewrite A2. pose proof (Hk eq_refl) as ->. rewrite total_nil, Z.add_0_l.
    destruct (Z.eqb_spec (if may then data_bytes (x_residual x) else 0) 0) as [->|]; cbn;
      rewrite A3, A4, A5, A6; split_and!; try done.
    + by apply (settles_then _ r1); [|apply settles_same].
    + rewrite <- (app_nil_r fs). apply (settles_trans _ r1 _ _ _ 0); [done|]. split; cbn -[u64_wrapping_add]; try done; [intros; by rewrite app_nil_r|].
      rewrite total_nil, Z.add_0_r. by apply wrapped_add.
Qed.

(** ** A whole pass *)

Lemma await_next_spec did r :
  r_phase r = Looping -> (r_origin r = None -> r_pending r = None) ->
  settles r (await_next did r) [] 0 /\ r_cell (await_next did r) = r_cell r /\ r_present (await_next did r) = r_present r
  /\ r_saw (await_next did r) = r_saw r /\ r_termios (await_next did r) = r_termios r
  /\ holding (await_next did r) = option_list (r_pending r) /\ r_pending (await_next did r) = None
  /\ (r_phase (await_next did r) = Looping <-> r_pending r = None /\ did = true)
  /\ (ACTIVE_POLL <= r_wait r <= IDLE_POLL -> ACTIVE_POLL <= r_wait (await_next did r) <= IDLE_POLL).
Proof.
  intros Hph Ho. unfold await_next. destruct (r_pending r) as [chunk|] eqn:Ep.
  - change (r_origin (put_pending None r)) with (r_origin r).
    destruct (r_origin r) as [[e id]|] eqn:Eo; [|by discriminate Ho]. cbn. split_and!; try done; try (by apply settles_same); naive_solver.
  - destruct did; cbn; unfold holding; cbn; rewrite Ep; split_and!; try done; try (by apply settles_same); try naive_solver; unfold ACTIVE_POLL, IDLE_POLL; lia.
Qed.

(** The backstop's reading of the settings. *)
Definition backstop (x : Pass) (r : Reader) : Reader :=
  if r_present r && (RECONCILE_INTERVAL <=? x_now x - r_reconcile r) then put_reconcile (x_now x) (reconcile (x_termios x) r) else r.

Lemma backstop_spec x r :
  settles r (backstop x r) [] 0 /\ r_cell (backstop x r) = r_cell r /\ r_present (backstop x r) = r_present r
  /\ r_saw (backstop x r) = r_saw r /\ r_pending (backstop x r) = r_pending r /\ r_phase (backstop x r) = r_phase r
  /\ r_wait (backstop x r) = r_wait r /\ (r_present r = false -> r_termios (backstop x r) = r_termios r).
Proof.
  unfold backstop. destruct (r_present r) eqn:Ep; [|cbn [andb]; split_and!; try done; by apply settles_same].
  destruct (_ <=? _); cbn [andb]; [|split_and!; try done; by apply settles_same].
  destruct (x_termios x); cbn; rewrite Ep; split_and!; try done; by apply settles_same.
Qed.

(** The state with which the close block is reached, or not. *)
Definition observed (x : Pass) (closed : bool) (r : Reader) : Reader :=
  put_present (negb (x_pollhup x) && negb closed) (if x_edge x then put_saw true r else r).

Lemma observed_spec x closed r :
  settles r (observed x closed r) [] 0 /\ r_cell (observed x closed r) = r_cell r
  /\ r_present (observed x closed r) = negb (x_pollhup x) && negb closed
  /\ r_saw (observed x closed r) = r_saw r || x_edge x /\ r_pending (observed x closed r) = r_pending r
  /\ r_phase (observed x closed r) = r_phase r /\ r_wait (observed x closed r) = r_wait r.
Proof.
  unfold observed. destruct (x_edge x); cbn; rewrite ?orb_true_r, ?orb_false_r; split_and!; try done; by apply settles_same.
Qed.

Definition finish (baud : Z) (x : Pass) (may was did : bool) (r : Reader) : Reader :=
  await_next did (backstop x (if negb (r_present r) && (was || r_saw r) then close_session baud may x r else r)).

Lemma pass_unfold baud x r may r1 did closed unread :
  read_half x r = (may, r1, did, closed, unread) ->
  pass baud x r = (finish baud x may (r_present r1) did (observed x closed r1), unread).
Proof. intros E. unfold pass. rewrite E. unfold finish, backstop, observed. by destruct (x_edge x). Qed.

(** After a pass that did not close a session, and after one that did. *)
Lemma finish_open baud x may was did r :
  negb (r_present r) && (was || r_saw r) = false -> r_phase r = Looping -> (r_origin r = None -> r_pending r = None) ->
  let r' := finish baud x may was did r in
  settles r r' [] 0 /\ holding r' = option_list (r_pending r) /\ r_cell r' = r_cell r /\ r_present r' = r_present r
  /\ r_saw r' = r_saw r /\ r_pending r' = None /\ (r_present r = false -> r_termios r' = r_termios r)
  /\ (r_phase r' = Looping <-> r_pending r = None /\ did = true)
  /\ (ACTIVE_POLL <= r_wait r <= IDLE_POLL -> ACTIVE_POLL <= r_wait r' <= IDLE_POLL).
Proof.
  intros Ec Hph Ho. cbn zeta. unfold finish. rewrite Ec.
  destruct (backstop_spec x r) as (B1 & B2 & B3 & B4 & B5 & B6 & B7 & B8). destruct (st_edge _ _ _ _ B1) as [_ Bo].
  destruct (await_next_spec did (backstop x r)) as (A1 & A2 & A3 & A4 & A5 & A6 & A7 & A8 & A9); [congruence|by rewrite Bo, B5|].
  rewrite A2, A3, A4, A5, A6, B2, B3, B4, B5, B7 in *. split_and!; try done. by apply (settles_then _ (backstop x r)).
Qed.

Lemma finish_close baud x may was did r :
  negb (r_present r) && (was || r_saw r) = true -> r_phase r = Looping ->
  let r' := finish baud x may was did r in
  let rc := close_session baud may x r in
  settles rc r' [] 0 /\ holding r' = [] /\ r_cell r' = r_cell rc /\ r_present r' = false
  /\ r_saw r' = false /\ r_pending r' = None /\ r_termios r' = None
  /\ (r_phase r' = Looping <-> did = true)
  /\ (ACTIVE_POLL <= r_wait r <= IDLE_POLL -> ACTIVE_POLL <= r_wait r' <= IDLE_POLL).
Proof.
  intros Ec Hph. cbn zeta. unfold finish. rewrite Ec. apply andb_true_iff in Ec as [Ep%negb_true_iff _].
  destruct (close_session_spec baud may x r) as (fs & kept & _ & _ & C3 & C4 & C5 & C6 & C7 & C8 & _). cbn zeta in C3, C4, C5, C6, C7, C8.
  set (rc := close_session baud may x r) in *.
  destruct (backstop_spec x rc) as (B1 & B2 & B3 & B4 & B5 & B6 & B7 & B8). rewrite C3, C4, C5, C6, C7, C8 in *.
  destruct (await_next_spec did (backstop x rc)) as (A1 & A2 & A3 & A4 & A5 & A6 & A7 & A8 & A9); [congruence|by rewrite B5|].
  rewrite A2, A3, A4, A5, A6, B2, B3, B4, B5, B7, B8 in * by done. split_and!; try done; [by apply (settles_then _ (backstop x rc))|naive_solver].
Qed.

(** A pass that leaves the session open, and one that closes it. *)
Lemma pass_parts baud x r r' unread :
  r_phase r = Looping ->
  pass baud x r = (r', unread) ->
  let may := (gate r).1 in
  let r0 := (gate r).2 in
  exists consumed fs kept extra,
    x_reads x = consumed ++ unread
    /\ option_list (r_pending r) ++ payloads consumed = (fate_chunk <$> fs) ++ kept
    /\ settles r r' fs extra
    /\ (may = false -> consumed = [])
    /\ (r_origin r = None -> kept = [])
    /\ (holding r' = kept /\ extra = 0 /\ r_cell r' = r_cell r0
        \/ r_present r' = false /\ holding r' = []
           /\ match r_origin r with
              | Some (e, id) =>
                  extra = 0 /\
                  let a := settle_lock id (x_backlog x) (r_cell r0 e) in
                  let n := total len kept + (if may then data_bytes (x_residual x) else 0) in
                  r_cell r' e = if n =? 0 then a else set_lock (record_purge (a_lock a) id n) a
              | None => extra = if may then data_bytes (x_residual x) else 0
              end).
Proof.
  intros Hph. destruct (read_half x r) as [[[[may r1] did] closed] un] eqn:Eh. rewrite (pass_unfold _ _ _ _ _ _ _ _ Eh).
  intros [= <- <-]. destruct (read_half_spec _ _ _ _ _ _ _ Eh)
    as (consumed & fs & E & P & S & Em & C1 & Pr & Ph & _ & _ & Hm & _ & Hn & _). cbn zeta. rewrite <- Em.
  destruct (observed_spec x closed r1) as (O1 & O2 & O3 & O4 & O5 & O6 & _).
  set (r2 := observed x closed r1) in *. assert (settles r r2 fs 0) as S2 by by apply (settles_then _ r1).
  destruct (st_edge _ _ _ _ S2) as [_ Eo]. rewrite <- O5 in Hn, P. rewrite <- C1, <- O2.
  assert (r_phase r2 = Looping) as Hph2 by congruence.
  destruct (negb (r_present r2) && (r_present r1 || r_saw r2)) eqn:Ec.
  - destruct (finish_close baud x may (r_present r1) did r2 Ec Hph2) as (F1 & F2 & F3 & F4 & _).
    destruct (close_session_spec baud may x r2) as (gs & kept & Q & T & _ & _ & _ & _ & _ & _ & K). cbn zeta in *.
    rewrite Eo in T, K. rewrite Q in P.
    eexists consumed, (fs ++ gs), kept, (0 + _). rewrite fmap_app, <- (assoc_L _). split_and!; try done.
    + by apply (settles_then _ (close_session baud may x r2)); [apply (settles_trans _ r2)|].
    + intros Ho. rewrite Ho in K. apply K.
    + right. rewrite F3, Z.add_0_l. split_and!; try done. destruct (r_origin r) as [[e id]|]; [|done].
      split; [done|apply K].
  - destruct (finish_open baud x may (r_present r1) did r2 Ec Hph2) as (F1 & F2 & F3 & _); [by rewrite Eo|]. cbn zeta in *.
    exists consumed, fs, (option_list (r_pending r2)), 0. split_and!; try done.
    + by apply (settles_then _ r2).
    + intros Ho. by rewrite Hn.
    + by left.
Qed.

(** *** What becomes of the client's bytes *)

(** C32: Nothing a client types is lost track of. Whatever a pass of the reader finds, the chunk it held and
    the payloads it read are, in order, sent to the endpoint, charged to the node's loss, or the rest
    [kept]; and the rest is held for the next pass, or the session ended and it was purged, with what
    the kernel still had, on the origin's counter.  Bytes are only read for an origin that may write; a
    read-only edge's are charged; without an edge nothing is read. *)
Theorem pty_pass_exact baud x r r' unread :
  r_phase r = Looping ->
  pass baud x r = (r', unread) ->
  exists consumed fs kept extra,
    x_reads x = consumed ++ unread
    /\ option_list (r_pending r) ++ payloads consumed = (fate_chunk <$> fs) ++ kept
    /\ wrapped (targetward (r_loss r')) = wrapped (targetward (r_loss r) + total len (lost_of fs) + extra)
    /\ match r_origin r with
       | Some (e, id) =>
           let a := (may_write_reclaiming id (r_cell r e)).2 in
           contents (r_chan r' e) = contents (r_chan r e) ++ sent_of fs
           /\ (forall e', e' <> e -> r_chan r' e' = r_chan r e')
           /\ extra = 0 /\ (consumed <> [] -> may_write (a_lock a) id = true)
           /\ (lock_wf (a_lock (r_cell r e)) -> origins (a_lock (r_cell r e)) !! id <> None ->
               let purged_now := Lock.purged (a_lock (r_cell r' e)) id in
               let purged_then := Lock.purged (a_lock (r_cell r e)) id in
               holding r' = kept /\ purged_now = purged_then
               \/ r_present r' = false /\ holding r' = []
                  /\ purged_now = u64_saturating_add purged_then (total len kept + drained_at_close (may_write (a_lock a) id) a x))
       | None =>
           (forall e, r_chan r' e = r_chan r e) /\ sent_of fs = [] /\ kept = [] /\ holding r' = []
           /\ (extra = 0 \/ extra = data_bytes (x_residual x)) /\ (r_attached r = false -> consumed = [] /\ extra = 0)
       end.
Proof.
  intros Hph Hp. destruct (pass_parts _ _ _ _ _ Hph Hp) as (consumed & fs & kept & extra & E & P & S & Hm & Hn & Hc).
  exists consumed, fs, kept, extra. destruct S as [_ S2 S3 S4 S5]. split_and!; try done.
  destruct (gate r) as [may r0] eqn:Eg. destruct (gate_spec _ _ _ Eg) as (_ & _ & _ & _ & _ & _ & _ & G). cbn [fst snd] in *.
  destruct (r_origin r) as [[e id]|] eqn:Eo.
  - destruct G as [G1 G2]. rewrite G1 in G2. unfold upd in G2. rewrite N.eqb_refl in G2.
    pose proof (may_write_reclaiming_spec id (r_cell r e) _ _ (surjective_pairing _)) as (R1 & R2 & R3 & R4 & R5).
    cbn zeta. set (a := (may_write_reclaiming id (r_cell r e)).2) in *.
    assert (r_cell r0 e = a) as Ea by (rewrite G1; unfold upd; by rewrite N.eqb_refl).
    assert (Lock.purged (a_lock a) id = Lock.purged (a_lock (r_cell r e)) id) as Epurged by (unfold Lock.purged; by rewrite R1).
    split_and!; try done; [by eapply S3|intros e' He; apply S2; by intros ? [= <-]|by destruct Hc as [(_ & ? & _)|(_ & _ & ? & _)]
                          |intros Hne; destruct may; [done|by destruct Hne; auto]|].
    intros W Hid. destruct Hc as [(K1 & _ & K2)|(K1 & K2 & _ & K3)]; [left|right].
    + by rewrite K2, Ea.
    + split_and!; try done. rewrite K3, Ea. rewrite <- R1 in Hid.
      destruct (close_cell id may x (total len kept) a (R5 W) Hid G2) as [Q _]; [apply total_nonneg, len_nonneg|]. cbn zeta in Q.
      rewrite Q, Epurged, <- G2. f_equal. lia.
  - destruct G as [_ ->]. split_and!.
    + intros e. by apply S2.
    + by apply S4.
    + by apply Hn.
    + rewrite (Hn eq_refl) in *. destruct Hc as [(-> & _)|(_ & -> & _)]; done.
    + destruct Hc as [(_ & -> & _)|(_ & _ & ->)]; [auto|]. destruct (r_attached r); auto.
    + intros Ha. split; [by apply Hm|]. destruct Hc as [(_ & -> & _)|(_ & _ & ->)]; [done|by rewrite Ha].
Qed.

(** *** Sessions *)

Lemma reclaim_holder id a :
  lock_wf (a_lock a) -> holder (a_lock a) = Some id -> (may_write_reclaiming id a).2 = a.
Proof.
  intros W Eh. destruct (wf_holder _ W _ Eh) as [[o [Eo Hm]] Ea].
  unfold may_write_reclaiming, may_write. by rewrite Eo, bool_decide_false, Ea, bool_decide_true.
Qed.

(** C33: Every session ends in the pass that sees the hang-up, whatever the endpoint does. If a client was
    present, or left anything behind (a payload, a control packet, an edge), the pass after its
    hang-up reports it gone, holds none of its bytes, forgets its settings and is ready for the
    next session; the lock is not left with this origin unless it is a held one, and an on-demand
    holder's lock is free with everybody who waits for it woken.  Nothing is assumed of the channel:
    a full endpoint delays none of this. *)
Theorem pty_last_close baud x r r' unread :
  r_phase r = Looping ->
  pass baud x r = (r', unread) ->
  x_pollhup x = true ->
  r_present r = true \/ r_saw r = true \/ unread <> x_reads x \/ x_edge x = true ->
  r_present r' = false /\ r_saw r' = false /\ r_termios r' = None /\ holding r' = []
  /\ forall e id, r_origin r = Some (e, id) ->
       lock_wf (a_lock (r_cell r e)) -> origins (a_lock (r_cell r e)) !! id <> None ->
       (holder (a_lock (r_cell r' e)) = Some id -> write_mode_of (a_lock (r_cell r' e)) id = Some Held)
       /\ (holder (a_lock (r_cell r e)) = Some id -> write_mode_of (a_lock (r_cell r e)) id <> Some Held ->
           holder (a_lock (r_cell r' e)) = None /\ a_tasks (r_cell r' e) = notify <$> a_tasks (r_cell r e)).
Proof.
  intros Hph. destruct (read_half x r) as [[[[may r1] did] closed] un] eqn:Eh. rewrite (pass_unfold _ _ _ _ _ _ _ _ Eh).
  intros [= <- <-] Hup Hev. destruct (read_half_spec _ _ _ _ _ _ _ Eh)
    as (consumed & fs & E & P & S & Em & C1 & Pr & Ph & _ & Sw & _).
  destruct (observed_spec x closed r1) as (O1 & O2 & O3 & O4 & O5 & O6 & _).
  set (r2 := observed x closed r1) in *. rewrite Hup in O3. cbn [negb andb] in O3.
  assert (r_phase r2 = Looping) as Hph2 by congruence.
  assert (negb (r_present r2) && (r_present r1 || r_saw r2) = true) as Ec.
  { rewrite O3, O4, Sw, Pr. cbn [negb andb]. destruct Hev as [->|[->|[Hu| ->]]]; rewrite ?orb_true_r; try done.
    rewrite (bool_decide_true (consumed <> [])), !orb_true_r; [done|]. intros ->. by rewrite E in Hu. }
  destruct (finish_close baud x may (r_present r1) did r2 Ec Hph2) as (_ & F2 & F3 & F4 & F5 & _ & F7 & _).
  split_and!; try done. intros e id Ho W Hid.
  destruct (close_session_spec baud may x r2) as (gs & kept & _ & _ & _ & _ & _ & _ & _ & _ & K). cbn zeta in *.
  destruct (st_edge _ _ _ _ (settles_then _ _ _ _ _ S O1)) as [_ Eo]. rewrite Eo, Ho in K. destruct K as [_ K].
  destruct (gate r) as [m r0] eqn:Eg. destruct (gate_spec _ _ _ Eg) as (_ & _ & _ & _ & _ & _ & _ & G). cbn [fst snd] in *.
  rewrite Ho in G. destruct G as [G1 G2]. rewrite G1 in G2. unfold upd in G2. rewrite N.eqb_refl in G2.
  pose proof (may_write_reclaiming_spec id (r_cell r e) _ _ (surjective_pairing _)) as (R1 & R2 & R3 & R4 & R5).
  pose proof (reclaim_holder id (r_cell r e) W) as Rh.
  set (a := (may_write_reclaiming id (r_cell r e)).2) in *.
  rewrite O2, C1, G1 in K. unfold upd in K. rewrite N.eqb_refl in K. rewrite <- R1 in Hid.
  destruct (close_cell id may x (total len kept) a (R5 W) Hid (eq_trans Em G2)) as (_ & Q2 & Q3); [apply total_nonneg, len_nonneg|].
  cbn zeta in Q2, Q3. rewrite <- K, <- F3 in Q2, Q3. split; [done|].
  intros Hh Hmode. specialize (Rh Hh). rewrite Rh in Q3. auto.
Qed.

(** A state between steps. *)
Record reader_ok (r : Reader) : Prop := {
  ro_absent : r_present r = false -> r_saw r = false /\ r_termios r = None /\ holding r = [];
  ro_wait : ACTIVE_POLL <= r_wait r <= IDLE_POLL;
  ro_one : r_phase r <> Looping -> r_pending r = None }.

Lemma pass_ok baud x r : reader_ok r -> r_phase r = Looping -> reader_ok (pass baud x r).1.
Proof.
  intros [Ra Rw Ro] Hph. destruct (read_half x r) as [[[[may r1] did] closed] un] eqn:Eh. rewrite (pass_unfold _ _ _ _ _ _ _ _ Eh).
  destruct (read_half_spec _ _ _ _ _ _ _ Eh)
    as (consumed & fs & E & P & S & Em & C1 & Pr & Ph & Wt & Sw & _ & Tm & Hn & _).
  assert (observed x closed r1 = observed x closed r1) as Eobs by done.
  destruct (observed_spec x closed r1) as (O1 & O2 & O3 & O4 & O5 & O6 & O7). cbn [fst].
  assert (r_termios (observed x closed r1) = r_termios r1) as Ot by (unfold observed; by destruct (x_edge x)).
  set (r2 := observed x closed r1) in *. rewrite <- O7, Wt in *.
  destruct (negb (r_present r2) && (r_present r1 || r_saw r2)) eqn:Ec.
  - destruct (finish_close baud x may (r_present r1) did r2 Ec) as (_ & F2 & F3 & F4 & F5 & F6 & F7 & _ & F9); [congruence|].
    split; [done|apply F9; congruence|done].
  - destruct (st_edge _ _ _ _ (settles_then _ _ _ _ _ S O1)) as [_ Eo].
    destruct (finish_open baud x may (r_present r1) did r2 Ec) as (_ & F2 & F3 & F4 & F5 & F6 & F7 & _ & F9); [congruence|by rewrite Eo, O5|].
    split; [|apply F9; congruence|done]. rewrite F4. intros Hp. rewrite F2, F5, F7 by done.
    rewrite Hp, O4, Sw in Ec. cbn [negb andb] in Ec. rewrite !orb_false_iff in Ec. destruct Ec as (Er & (Es & Ecs) & Ee).
    apply bool_decide_eq_false in Ecs. apply dec_stable in Ecs as Hc. rewrite Pr in Er. destruct (Ra Er) as (_ & T & Hh).
    rewrite O4, Sw, Es, Ee, bool_decide_false by tauto. rewrite Ot, (Tm Hc), O5. split_and!; try done.
    rewrite Hc in P. unfold holding in Hh. rewrite Hph, app_nil_r in Hh. rewrite Hh in P.
    destruct fs; [|done]. by destruct (r_pending r1).
Qed.

Lemma back_off_bounds w : ACTIVE_POLL <= w <= IDLE_POLL -> ACTIVE_POLL <= back_off w <= IDLE_POLL.
Proof. unfold back_off, ACTIVE_POLL, IDLE_POLL. lia. Qed.

Lemma task_steps_ok baud op r r' : reader_ok r -> reader_step baud op r = Some r' -> reader_ok r'.
Proof.
  intros O. pose proof O as [Ra Rw Ro].
  destruct op as [x| | | |att o|e tx|e a|]; cbn; try (intros [= <-]; by split).
  - destruct (r_phase r) eqn:Ep; intros [= <-]. by apply pass_ok.
  - destruct (r_phase r) eqn:Ep; intros [= <-]. split; cbn; [|by apply back_off_bounds|done].
    unfold holding in *. cbn. rewrite Ep, app_nil_r in Ra. by rewrite app_nil_r.
  - destruct (r_phase r) as [| |chunk e|] eqn:Ep; try done.
    assert (r_present r = true) as Hp.
    { destruct (r_present r); [done|]. destruct Ra as (_ & _ & Hh); [done|]. unfold holding in Hh. rewrite Ep in Hh.
      by destruct (r_pending r). }
    destruct (try_send (r_chan r e) chunk) as [[] tx]; intros [= <-]; split; cbn; rewrite ?Hp; done.
  - destruct (r_phase r) as [| |chunk e|] eqn:Ep; intros [= <-].
    assert (r_present r = true) as Hp.
    { destruct (r_present r); [done|]. destruct Ra as (_ & _ & Hh); [done|]. unfold holding in Hh. rewrite Ep in Hh.
      by destruct (r_pending r). }
    split; cbn; rewrite ?Hp; try done. by apply back_off_bounds.
  - intros [= <-]. split; cbn; try done. intros Hp. by destruct (Ra Hp) as (-> & -> & _).
Qed.

Lemma reader_run_ok baud ops : forall r r', reader_ok r -> reader_run baud ops r = Some r' -> reader_ok r'.
Proof.
  induction ops as [|op ops IH]; intros r r' O; cbn; [by intros [= <-]|].
  destruct (reader_step baud op r) as [r1|] eqn:E; [|done]. apply IH. by eapply task_steps_ok.
Qed.

(** Between passes the reader never mixes sessions up. Whatever clients, the control plane and the
    endpoints do, while no client is present the reader holds none of a client's bytes, no evidence and
    no settings of one; it suspends with at most the one chunk it is sending, and never for longer
    than the idle interval. *)
Theorem pty_session_coherent baud attached o chans cells now ops r :
  reader_run baud ops (reader_new attached o chans cells now) = Some r ->
  (r_present r = false -> r_saw r = false /\ r_termios r = None /\ holding r = [])
  /\ (length (holding r) <= 1)%nat
  /\ ACTIVE_POLL <= r_wait r <= IDLE_POLL.
Proof.
  intros Hr. assert (reader_ok (reader_new attached o chans cells now)) as O0.
  { split; cbn; try done. }
  destruct (reader_run_ok _ _ _ _ O0 Hr) as [Ra Rw Ro]. split_and!; try done; try apply Rw.
  unfold holding. destruct (r_phase r); try (rewrite Ro by done); cbn; try lia. by destruct (r_pending r); cbn; lia.
Qed.

(** A read-only edge's client that always has something readable keeps the task from its await:
    the pass ends with the next one due at once. *)
Lemma spy_flood_never_suspends baud x r r' unread :
  r_phase r = Looping -> r_origin r = None -> r_attached r = true -> r_pending r = None ->
  x_pollin x = true -> x_reads x <> [] ->
  pass baud x r = (r', unread) -> r_phase r' = Looping.
Proof.
  intros Hph Ho Ha Hp Hin Hne. destruct (read_half x r) as [[[[may r1] did] closed] un] eqn:Eh. rewrite (pass_unfold _ _ _ _ _ _ _ _ Eh).
  intros [= <- <-]. destruct (read_half_spec _ _ _ _ _ _ _ Eh)
    as (consumed & fs & E & P & S & Em & C1 & Pr & Ph & Wt & Sw & _ & Tm & Hn & Hd).
  assert (may = true) as Hm by (rewrite Em; unfold gate; by rewrite Ho).
  destruct (Hd Ho Hm Hin) as [-> Hdid]. rewrite app_nil_r in E. rewrite <- E in Hdid. specialize (Hdid Hne).
  destruct (observed_spec x closed r1) as (O1 & O2 & O3 & O4 & O5 & O6 & O7).
  set (r2 := observed x closed r1) in *. assert (r_phase r2 = Looping) as Hph2 by congruence.
  destruct (negb (r_present r2) && (r_present r1 || r_saw r2)) eqn:Ec.
  - by apply (finish_close baud x may (r_present r1) did r2 Ec Hph2).
  - assert (r_pending r2 = None) as Hp2 by (rewrite O5; auto).
    apply (finish_open baud x may (r_present r1) did r2 Ec Hph2); auto.
Qed.
End reader.

(** ** Witnesses *)

(** An on-demand console, origin 1, holds the lock of an endpoint whose queue has room for one
    chunk; a pump waits for the lock.  The client types three lines and hangs up. *)
Definition demo_lock_cell : Arb :=
  mkArb (acquire (register (Lock.new Exclusive) 1 "con" OnDemand) 1).2 false {[7%N := mkTask KPump 2 Parked]} [] 3 SEND_ORIGIN_BASE.
Definition demo_reader : Reader (C := Bounded) (R := unit) :=
  put_present true (reader_new true (Some (0%N, 1%N)) (fun _ => channel 1) (fun _ => demo_lock_cell) 0).
Definition demo_packet (control : byte) (payload : list byte) : Packet (R := unit) := mkPacket control payload (Some demo_tty).
Definition demo_pass : Pass (R := unit) :=
  mkPass true true [demo_packet x00 [x61; x62]; demo_packet x40 []; demo_packet x00 [x63; x64; x65]; demo_packet x00 [x66]] WouldBlock
         false (Some demo_tty) (Some [([100; 28], true); ([], false)]) [] [demo_packet x00 [x66]; demo_packet x40 []] 10 None.
Abbreviation demo_after := (pass 115200 demo_pass demo_reader).

Lemma demo_lock_wf : lock_wf (a_lock demo_lock_cell).
Proof. apply wf_acquire, wf_register; [apply new_wf|done]. Qed.

Lemma pty_pass_exact_witness :
  (exists consumed fs kept, x_reads demo_pass = consumed ++ demo_after.2 /\ payloads consumed = (fate_chunk <$> fs) ++ kept)
  /\ contents (r_chan demo_after.1 0) = [[x61; x62]] /\ Lock.purged (a_lock (r_cell demo_after.1 0)) 1 = 4
  /\ at_last_close (r_loss demo_after.1) = 128.
Proof.
  destruct (pty_pass_exact 115200 demo_pass demo_reader demo_after.1 demo_after.2 eq_refl (surjective_pairing _))
    as (consumed & fs & kept & extra & E & P & _).
  split; [by exists consumed, fs, kept|]. by vm_compute.
Defined.

Lemma pty_last_close_witness :
  holder (a_lock (r_cell demo_reader 0)) = Some 1%N
  /\ holder (a_lock (r_cell demo_after.1 0)) = None /\ a_tasks (r_cell demo_after.1 0) = {[7%N := mkTask KPump 2 Woken]}.
Proof.
  destruct (pty_last_close 115200 demo_pass demo_reader demo_after.1 demo_after.2 eq_refl (surjective_pairing _) eq_refl (or_introl eq_refl))
    as (_ & _ & _ & _ & L).
  destruct (L 0%N 1%N eq_refl demo_lock_wf) as [_ L2]; [by vm_compute|].
  destruct L2 as [L2 L3]; [by vm_compute|by vm_compute|]. split; [by vm_compute|]. split; [exact L2|]. rewrite L3. by vm_compute.
Defined.

Definition demo_session : list (ReaderOp (C := Bounded) (R := unit)) :=
  [RPass (mkPass true false [demo_packet x00 [x61]; demo_packet x00 [x62]] WouldBlock false None None [] [] 5 None);
   RTimedOut; RPass demo_pass; RSlept; RPass (mkPass false true [] WouldBlock false None None [] [] 20 None)].
Abbreviation demo_session_end := (reader_run 115200 demo_session (reader_new true (Some (0%N, 1%N)) (fun _ => channel 1) (fun _ => demo_lock_cell) 0)).
Abbreviation demo_session_state := (default demo_reader demo_session_end).

Lemma pty_session_coherent_witness : r_present demo_session_state = false /\ holding demo_session_state = [].
Proof.
  assert (r_present demo_session_state = false) as P by (vm_compute; reflexivity).
  assert (demo_session_end = Some demo_session_state) as E.
  { destruct demo_session_end eqn:X; [done|]. assert (is_Some demo_session_end) as [? Y] by by vm_compute. congruence. }
  destruct (pty_session_coherent _ _ _ _ _ _ _ _ E) as [A _]. split; [done|]. apply A, P.
Defined.
