(* ===== verification/Rpc.v ===== *)
(** * The wire types of the control plane (rpc/src/lib.rs)

    Request ids, error objects, responses and the check a client makes on them, the
    error code registry, the door check of a request line, and base64 with its two
    directions.  JSON itself is the library's: a [Json] says what the code asks of a
    parsed value, the derived readers of an id, an error object and a request are part
    of it.  Messages of errors are English text and not modelled. *)

From Stdlib Require Import Strings.String.
From S2P Require Import Prelude GraphTypes Paths.
#[local] Open Scope Z_scope.

(** ** Ids and errors *)

Inductive Id := IdNumber (n : Z) | IdString (s : string) | IdNull.
#[export] Instance id_eq_dec : EqDecision Id.
Proof. solve_decision. Defined.

Definition PARSE_ERROR : Z := -32700.
Definition INVALID_REQUEST : Z := -32600.
Definition METHOD_NOT_FOUND : Z := -32601.
Definition INVALID_PARAMS : Z := -32602.
Definition INTERNAL_ERROR : Z := -32603.
Definition APP_ERROR_BASE : Z := -32000.

Inductive AppError :=
| LoadNonEmpty | Structural | Locked | HasEdges | DeviceAbsent | WaitInFlight | EdgeInboxFull | EndpointGone.

(** [AppError::ALL]. *)
Definition app_errors : list AppError :=
  [LoadNonEmpty; Structural; Locked; HasEdges; DeviceAbsent; WaitInFlight; EdgeInboxFull; EndpointGone].

(** [AppError::code]. *)
Definition app_code (e : AppError) : Z :=
  APP_ERROR_BASE -
  match e with
  | LoadNonEmpty => 1 | Structural => 2 | Locked => 3 | HasEdges => 4
  | DeviceAbsent => 5 | WaitInFlight => 6 | EdgeInboxFull => 7 | EndpointGone => 8
  end.

(** The short names of the documentation table. *)
Definition app_name (e : AppError) : string :=
  match e with
  | LoadNonEmpty => "load on non-empty graph"
  | Structural => "structural error"
  | Locked => "locked"
  | HasEdges => "has edges"
  | DeviceAbsent => "device absent"
  | WaitInFlight => "waiting verb in flight"
  | EdgeInboxFull => "edge inbox full"
  | EndpointGone => "endpoint gone"
  end.

(** [error_code_registry], without the summaries. *)
Definition error_code_registry : list (Z * string) :=
  [(PARSE_ERROR, "parse error"); (INVALID_REQUEST, "invalid request");
   (METHOD_NOT_FOUND, "method not found"); (INVALID_PARAMS, "invalid params");
   (INTERNAL_ERROR, "internal error")]%string
  ++ ((fun e => (app_code e, app_name e)) <$> app_errors).

(** ** JSON *)

(** What the code asks of the JSON library and of the readers derived for [Id],
    [RpcError] and [Request]. *)
Class Json := {
  Value : Type;
  from_str : string -> option Value;
  as_object : Value -> option (string -> option Value);
  as_str : Value -> option string;
  as_u64 : Value -> option Z;
  read_id : Value -> option Id;
  read_error : Value -> option (Z * option Value);
  read_request : Value -> option (Id * string * option Value) }.

Section messages.
Context `{J : Json}.

Definition JSONRPC_VERSION : string := "2.0".

Record RpcError := mkRpcError { code : Z; data : option Value }.

Definition rpc_error (c : Z) : RpcError := mkRpcError c None.

Record Request := mkRequest { req_id : Id; method : string; params : option Value }.

Record Response := mkResponse { resp_id : Id; result : option Value; error : option RpcError }.

Definition success (id : Id) (r : Value) : Response := mkResponse id (Some r) None.
Definition response_error (id : Id) (e : RpcError) : Response := mkResponse id None (Some e).
Definition error_without_id (e : RpcError) : Response := response_error IdNull e.

Definition is_success (r : Response) : bool :=
  bool_decide (is_Some (result r)) && bool_decide (error r = None).

(** [v.get(key)] on an object. *)
Definition get (v : Value) (key : string) : option Value :=
  match as_object v with Some f => f key | None => None end.

(** [<Response as Deserialize>::deserialize]. *)
Definition response_deserialize (v : Value) : exec unit Response :=
  obj ← ok_or tt (as_object v);
  reject negb (bool_decide (obj "jsonrpc" ≫= as_str = Some JSONRPC_VERSION)) with tt;
  id_value ← ok_or tt (obj "id");
  id ← ok_or tt (read_id id_value);
  match obj "result", obj "error" with
  | Some r, None => Ok (success id r)
  | None, Some e => '(c, d) ← ok_or tt (read_error e); Ok (response_error id (mkRpcError c d))
  | None, None | Some _, Some _ => Err tt
  end.

(** [s.trim_start()]. *)
Definition trim_start (s : string) : string :=
  from_bytes (repeat_strip strip_ws (length (as_bytes s)) (as_bytes s)).

(** [parse_incoming_request]. *)
Definition parse_incoming_request (line : string) : exec RpcError Request :=
  let trimmed := trim_start line in
  reject starts_with "[" trimmed with rpc_error INVALID_REQUEST;
  value ← ok_or (rpc_error PARSE_ERROR) (from_str trimmed);
  '(id, m, p) ← ok_or (rpc_error INVALID_REQUEST) (read_request value);
  Ok (mkRequest id m p).

End messages.

(** ** Base64 *)

Definition BASE64_ALPHABET : list byte :=
  as_bytes "ABCDEFGHIJKLMNOPQRSTUVWXYZabcdefghijklmnopqrstuvwxyz0123456789+/".

(** The body of the loop over [input.chunks(3)]. *)
Definition encode_chunk (chunk : list byte) : exec unit (list byte) :=
  c0 ← index chunk 0;
  let b0 := bval c0 in
  let b1 := from_option bval 0 (chunk !! 1%nat) in
  let b2 := from_option bval 0 (chunk !! 2%nat) in
  let n := Z.lor (Z.lor (Z.shiftl b0 16) (Z.shiftl b1 8)) b2 in
  s0 ← index BASE64_ALPHABET (Z.land (Z.shiftr n 18) 0x3f);
  s1 ← index BASE64_ALPHABET (Z.land (Z.shiftr n 12) 0x3f);
  s2 ← (if 1 <? len chunk then index BASE64_ALPHABET (Z.land (Z.shiftr n 6) 0x3f) else Ok x3d);
  s3 ← (if 2 <? len chunk then index BASE64_ALPHABET (Z.land n 0x3f) else Ok x3d);
  Ok [s0; s1; s2; s3].

Fixpoint encode_chunks (input : list byte) : exec unit (list byte) :=
  match input with
  | [] => Ok []
  | b0 :: b1 :: b2 :: rest =>
      c ← encode_chunk [b0; b1; b2]; out ← encode_chunks rest; Ok (c ++ out)
  | short => encode_chunk short
  end.

Definition base64_encode (input : list byte) : exec unit string :=
  out ← encode_chunks input; Ok (from_bytes out).

(** The inner function [val]. *)
Definition b64_val (c : byte) : option Z :=
  let v := bval c in
  if (65 <=? v) && (v <=? 90) then Some (v - 65)
  else if (97 <=? v) && (v <=? 122) then Some (v - 97 + 26)
  else if (48 <=? v) && (v <=? 57) then Some (v - 48 + 52)
  else if v =? 43 then Some 62
  else if v =? 47 then Some 63
  else None.

(** [u8::is_ascii_whitespace]. *)
Definition is_ascii_whitespace (c : byte) : bool :=
  bool_decide (c ∈ [x09; x0a; x0c; x0d; x20]).

(** The first loop of [base64_decode]: the values of the symbols and the padding. *)
Fixpoint b64_symbols (input : list byte) (symbols : list Z) (pad : Z) : option (list Z * Z) :=
  match input with
  | [] => Some (symbols, pad)
  | c :: input =>
      if is_ascii_whitespace c then b64_symbols input symbols pad
      else if bool_decide (c = x3d) then b64_symbols input symbols (pad + 1)
      else if 0 <? pad then None
      else match b64_val c with
           | Some v => b64_symbols input (symbols ++ [v]) pad
           | None => None
           end
  end.

(** The body of the loop over [symbols.chunks(4)]. *)
Definition decode_group (group : list Z) : list byte :=
  let n := Z.shiftl (foldl (fun acc s => Z.lor (Z.shiftl acc 6) s) 0 group) ((4 - len group) * 6) in
  [as_u8 (Z.land (Z.shiftr n 16) 0xff)]
  ++ (if 3 <=? len group then [as_u8 (Z.land (Z.shiftr n 8) 0xff)] else [])
  ++ (if 4 <=? len group then [as_u8 (Z.land n 0xff)] else []).

Fixpoint decode_groups (symbols : list Z) : list byte :=
  match symbols with
  | [] => []
  | s0 :: s1 :: s2 :: s3 :: rest => decode_group [s0; s1; s2; s3] ++ decode_groups rest
  | short => decode_group short
  end.

Definition base64_decode (input : string) : option (list byte) :=
  '(symbols, pad) ← b64_symbols (as_bytes input) [] 0;
  if negb ((len symbols + pad) mod 4 =? 0) || (2 <? pad) then None
  else Some (decode_groups symbols).

Example base64_vectors :
  base64_encode (as_bytes "foobar") = Ok "Zm9vYmFy"%string /\ base64_encode (as_bytes "fooba") = Ok "Zm9vYmE="%string
  /\ base64_encode (as_bytes "f") = Ok "Zg=="%string /\ base64_encode [] = Ok ""%string
  /\ base64_decode "Zm 9v" = Some (as_bytes "foo") /\ base64_decode "Zm9v!" = None /\ base64_decode "Zg=" = None
  /\ base64_decode "Zg==Zg==" = None /\ base64_decode "Zh==" = base64_decode "Zg==".
Proof. vm_compute. done. Qed.

(** ** Lemmas: bits as arithmetic *)

Lemma lor_shiftl_add a b k : 0 <= k -> 0 <= b < 2 ^ k -> Z.lor (Z.shiftl a k) b = a * 2 ^ k + b.
Proof.
  intros Hk Hb. rewrite <- Z.shiftl_mul_pow2 by done.
  assert (E : Z.land (Z.shiftl a k) b = 0).
  { apply Z.bits_inj'. intros i Hi. rewrite Z.land_spec, Z.bits_0, Z.shiftl_spec by done.
    destruct (Z.ltb_spec i k).
    - by rewrite Z.testbit_neg_r by lia.
    - rewrite andb_comm. destruct (decide (b = 0)) as [->|]; [by rewrite Z.bits_0|].
      rewrite Z.bits_above_log2; [done|lia|].
      apply Z.lt_le_trans with k; [apply Z.log2_lt_pow2; lia|done]. }
  rewrite Z.add_nocarry_lxor by done. by rewrite Z.lxor_lor by done.
Qed.

(** The field of [k] bits at [s]. *)
Lemma field_mod a s k m : 0 <= s -> 0 <= k -> m = Z.ones k -> Z.land (Z.shiftr a s) m = a / 2 ^ s mod 2 ^ k.
Proof. intros ? ? ->. by rewrite Z.land_ones, Z.shiftr_div_pow2. Qed.

(** ** Lemmas: base64 *)

Definition b64_symbol_ok (v : Z) (c : byte) : Prop :=
  b64_val c = Some v /\ is_ascii_whitespace c = false /\ c <> x3d.

Definition alphabet_check (v : Z) : bool :=
  match index (E := unit) BASE64_ALPHABET v with
  | Ok c => bool_decide (b64_val c = Some v) && negb (is_ascii_whitespace c) && bool_decide (c <> x3d)
  | _ => false
  end.

Lemma alphabet_at v : 0 <= v < 64 -> exists c, index (E := unit) BASE64_ALPHABET v = Ok c /\ b64_symbol_ok v c.
Proof.
  intros Hv. assert (H : forallb alphabet_check (seqZ 0 64) = true) by (vm_compute; done).
  rewrite forallb_forall in H. specialize (H v). rewrite <- list_elem_of_In, elem_of_seqZ in H.
  specialize (H ltac:(lia)). unfold alphabet_check in H. destruct (index _ v) as [c| |]; [|done..].
  split_bools. by exists c.
Qed.

Lemma b64_symbols_ws input acc pad :
  b64_symbols input acc pad = b64_symbols (filter (fun c => is_ascii_whitespace c = false) input) acc pad.
Proof.
  revert acc pad. induction input as [|c input IH]; intros acc pad; [done|]. rewrite filter_cons. cbn [b64_symbols].
  destruct (is_ascii_whitespace c) eqn:E.
  - rewrite decide_False by done. apply IH.
  - rewrite decide_True by done. cbn [b64_symbols]. rewrite E. by repeat case_match.
Qed.

Lemma b64_symbols_app cs vs rest acc :
  Forall2 b64_symbol_ok vs cs -> b64_symbols (cs ++ rest) acc 0 = b64_symbols rest (acc ++ vs) 0.
Proof.
  intros H. revert acc. induction H as [|v c vs cs (Hv & Hw & Hn) _ IH]; intros acc; cbn.
  - by rewrite app_nil_r.
  - rewrite Hw, bool_decide_eq_false_2, Hv by done. by rewrite IH, <- app_assoc.
Qed.

Lemma b64_symbols_pad n acc pad : b64_symbols (replicate n x3d) acc pad = Some (acc, pad + Z.of_nat n).
Proof.
  revert pad. induction n as [|n IH]; intros pad; [by rewrite Z.add_0_r|].
  change (replicate (S n) x3d) with (x3d :: replicate n x3d). cbn [b64_symbols].
  change (is_ascii_whitespace x3d) with false. rewrite bool_decide_eq_true_2 by done. cbv iota.
  rewrite IH. do 2 f_equal. lia.
Qed.

(** The three bytes of a chunk as a number. *)
Lemma chunk_number a b c :
  0 <= a < 256 -> 0 <= b < 256 -> 0 <= c < 256 ->
  Z.lor (Z.lor (Z.shiftl a 16) (Z.shiftl b 8)) c = a * 65536 + b * 256 + c.
Proof.
  intros. rewrite <- Z.lor_assoc. rewrite (lor_shiftl_add b c 8) by lia. rewrite lor_shiftl_add by lia. lia.
Qed.

(** A field appended to the higher ones. *)
Lemma join_field n k : 0 <= k -> Z.lor (Z.shiftl (n / 2 ^ (k + 6)) 6) (Z.land (Z.shiftr n k) 0x3f) = n / 2 ^ k.
Proof.
  intros Hk. rewrite (field_mod n k 6) by (reflexivity || lia).
  rewrite lor_shiftl_add by (try apply Z.mod_pos_bound; lia).
  rewrite Z.pow_add_r, <- Z.div_div by lia. pose proof (Z.div_mod (n / 2 ^ k) (2 ^ 6)). lia.
Qed.

Lemma sextets_join n :
  0 <= n < 2 ^ 24 ->
  let v k := Z.land (Z.shiftr n k) 0x3f in
  let join := foldl (fun acc s => Z.lor (Z.shiftl acc 6) s) 0 in
  join [v 18; v 12] = n / 2 ^ 12 /\ join [v 18; v 12; v 6] = n / 2 ^ 6 /\ join [v 18; v 12; v 6; v 0] = n.
Proof.
  intros Hn v join. subst v join. cbn [foldl].
  assert (E0 : Z.lor (Z.shiftl 0 6) (Z.land (Z.shiftr n 18) 0x3f) = n / 2 ^ 18).
  { rewrite <- (join_field n 18) by lia. do 2 f_equal. rewrite Z.div_small; [done|]. lia. }
  rewrite E0. change (2 ^ 18) with (2 ^ (12 + 6)). rewrite (join_field n 12) by lia.
  split; [done|]. change (2 ^ 12) with (2 ^ (6 + 6)). rewrite (join_field n 6) by lia.
  split; [done|]. change (2 ^ 6) with (2 ^ (0 + 6)). rewrite (join_field n 0) by lia. apply Z.div_1_r.
Qed.

Lemma sextet_range n k : 0 <= Z.land (Z.shiftr n k) 0x3f < 64.
Proof. change 0x3f with (Z.ones 6). rewrite Z.land_ones by lia. apply Z.mod_pos_bound. lia. Qed.

Lemma byte_of_field m b : m mod 256 = bval b -> as_u8 (Z.land m 0xff) = b.
Proof. change 0xff with (Z.ones 8). rewrite Z.land_ones by lia. change (2 ^ 8) with 256. intros ->. apply as_u8_bval. Qed.

(** One chunk: its symbols, its padding, and the group that reads it back. *)
Definition chunk_reads (chunk out : list byte) (vs : list Z) (k : nat) : Prop :=
  exists syms, out = syms ++ replicate k x3d /\ Forall2 b64_symbol_ok vs syms /\ decode_group vs = chunk
               /\ len vs + Z.of_nat k = 4 /\ (k <= 2)%nat.

Ltac chunk_symbols n :=
  pose proof (sextet_range n 18); pose proof (sextet_range n 12); pose proof (sextet_range n 6);
  pose proof (sextet_range n 0);
  destruct (alphabet_at (Z.land (Z.shiftr n 18) 0x3f)) as (c0 & E0 & O0); [done|];
  destruct (alphabet_at (Z.land (Z.shiftr n 12) 0x3f)) as (c1 & E1 & O1); [done|];
  destruct (alphabet_at (Z.land (Z.shiftr n 6) 0x3f)) as (c2 & E2 & O2); [done|];
  destruct (alphabet_at (Z.land (Z.shiftr n 0) 0x3f)) as (c3 & E3 & O3); [done|].

Lemma or_zero_range (o : option byte) : 0 <= from_option bval 0 o < 256.
Proof. destruct o; [apply bval_range|done]. Qed.

Lemma encode_chunk_cons a rest :
  let n := bval a * 65536 + from_option bval 0 (rest !! 0%nat) * 256 + from_option bval 0 (rest !! 1%nat) in
  encode_chunk (a :: rest) =
    (s0 ← index BASE64_ALPHABET (Z.land (Z.shiftr n 18) 0x3f);
     s1 ← index BASE64_ALPHABET (Z.land (Z.shiftr n 12) 0x3f);
     s2 ← (if 1 <? len (a :: rest) then index BASE64_ALPHABET (Z.land (Z.shiftr n 6) 0x3f) else Ok x3d);
     s3 ← (if 2 <? len (a :: rest) then index BASE64_ALPHABET (Z.land (Z.shiftr n 0) 0x3f) else Ok x3d);
     Ok [s0; s1; s2; s3]).
Proof.
  intros n. unfold encode_chunk. change (index (a :: rest) 0) with (@Ok unit byte a). rewrite bind_ok.
  pose proof (bval_range a).
  rewrite (chunk_number (bval a) (from_option bval 0 ((a :: rest) !! 1%nat)) (from_option bval 0 ((a :: rest) !! 2%nat)))
    by (done || apply or_zero_range).
  done.
Qed.

(** The group of the symbols of a chunk of [k] bytes is those bytes. *)
Lemma decode_group_fields a b c :
  0 <= b < 256 -> 0 <= c < 256 ->
  let n := bval a * 65536 + b * 256 + c in
  let v k := Z.land (Z.shiftr n k) 0x3f in
  decode_group [v 18; v 12; v 6; v 0] = [a; as_u8 b; as_u8 c]
  /\ (c = 0 -> decode_group [v 18; v 12; v 6] = [a; as_u8 b])
  /\ (b = 0 -> c = 0 -> decode_group [v 18; v 12] = [a]).
Proof.
  intros Hb Hc n v. pose proof (bval_range a) as Ha.
  destruct (sextets_join n) as (J2 & J3 & J4); [lia|]. fold (v 18) (v 12) (v 6) (v 0) in J2, J3, J4.
  assert (Fa : as_u8 (Z.land (Z.shiftr n 16) 0xff) = a).
  { apply byte_of_field. rewrite Z.shiftr_div_pow2 by lia. subst n. change (2 ^ 16) with 65536.
    rewrite <- (Z.mod_small (bval a) 256) at 2 by done. f_equal. symmetry.
    apply (Z.div_unique _ _ _ (b * 256 + c)); lia. }
  assert (Fb : as_u8 (Z.land (Z.shiftr n 8) 0xff) = as_u8 b).
  { apply byte_of_field. rewrite bval_as_u8, Z.shiftr_div_pow2 by lia. change (2 ^ 8) with 256.
    rewrite <- (Z.div_unique n 256 (bval a * 256 + b) c) by lia. rewrite Z.add_comm. apply Z_mod_plus_full. }
  assert (Fc : as_u8 (Z.land n 0xff) = as_u8 c).
  { apply byte_of_field. rewrite bval_as_u8. change (2 ^ 8) with 256. subst n.
    replace (bval a * 65536 + b * 256 + c) with (c + (bval a * 256 + b) * 256) by lia. apply Z_mod_plus_full. }
  unfold decode_group. split_and!.
  - rewrite J4. cbn -[Z.land Z.shiftr as_u8]. rewrite Z.shiftl_0_r. by rewrite Fa, Fb, Fc.
  - intros ->. rewrite J3. replace (Z.shiftl _ _) with n; [cbn -[Z.land Z.shiftr as_u8]; by rewrite Fa, Fb|].
    change ((4 - _) * 6) with 6. rewrite Z.shiftl_mul_pow2 by lia. subst n. Z.to_euclidean_division_equations. lia.
  - intros -> ->. rewrite J2. replace (Z.shiftl _ _) with n; [cbn -[Z.land Z.shiftr as_u8]; by rewrite Fa|].
    change ((4 - _) * 6) with 12. rewrite Z.shiftl_mul_pow2 by lia. subst n. Z.to_euclidean_division_equations. lia.
Qed.

Ltac all_symbols := repeat (apply List.Forall2_nil || (apply List.Forall2_cons; [eassumption|])).

Lemma encode_chunk_reads chunk :
  1 <= len chunk <= 3 ->
  exists out vs, encode_chunk chunk = Ok out /\ chunk_reads chunk out vs (3 - length chunk).
Proof.
  intros Hl. destruct chunk as [|a [|b [|c [|d chunk]]]];
    [by destruct Hl| | | |pose proof (len_nonneg chunk); exfalso; len_lia];
    rewrite encode_chunk_cons; cbn [from_option list_lookup lookup];
    match goal with |- context [Z.shiftr ?m 18] => chunk_symbols m end;
    rewrite E0, bind_ok, E1, bind_ok, ?E2, ?E3.
  - destruct (decode_group_fields a 0 0) as (_ & _ & D); [lia|lia|].
    eexists _, [_; _]. split; [done|]. exists [c0; c1]. split_and!; [done| |by apply D|done|done]. all_symbols.
  - pose proof (bval_range b) as Hb. destruct (decode_group_fields a (bval b) 0) as (_ & D & _); [lia|lia|].
    rewrite as_u8_bval in D. eexists _, [_; _; _]. split; [done|]. exists [c0; c1; c2].
    split_and!; [done| |by apply D|done|cbn; lia]. all_symbols.
  - pose proof (bval_range b) as Hb. pose proof (bval_range c) as Hc.
    destruct (decode_group_fields a (bval b) (bval c)) as (D & _); [lia|lia|].
    rewrite !as_u8_bval in D. eexists _, [_; _; _; _]. split; [done|]. exists [c0; c1; c2; c3].
    split_and!; [done| |by apply D|done|cbn; lia]. all_symbols.
Qed.

(** What an encoding looks like: symbols of the alphabet, then the padding, and the groups read back. *)
Definition encoding_of (bs out : list byte) : Prop :=
  exists vs k syms, out = syms ++ replicate k x3d /\ Forall2 b64_symbol_ok vs syms /\ decode_groups vs = bs
    /\ (len vs + Z.of_nat k) mod 4 = 0 /\ (k <= 2)%nat.

Lemma decode_groups_one vs : 1 <= len vs <= 4 -> decode_groups vs = decode_group vs.
Proof.
  intros H. destruct vs as [|v0 [|v1 [|v2 [|v3 [|v4 vs]]]]]; try done; [by destruct H|].
  pose proof (len_nonneg vs). exfalso. len_lia.
Qed.

Lemma short_encoding chunk out vs k : chunk_reads chunk out vs k -> encoding_of chunk out /\ len out = 4.
Proof.
  intros (syms & -> & F & D & L & K). split.
  - exists vs, k, syms. split_and!; try done; [|by rewrite L]. rewrite decode_groups_one; [done|]. lia.
  - rewrite len_app. pose proof (Forall2_length _ _ _ F). unfold len in *. rewrite length_replicate. lia.
Qed.

Lemma long_encoding chunk c vs bs out :
  chunk_reads chunk c vs 0 -> encoding_of bs out -> encoding_of (chunk ++ bs) (c ++ out).
Proof.
  intros (syms & -> & F & D & L & _) (ws & k & syms' & -> & F' & D' & L' & K').
  exists (vs ++ ws), k, (syms ++ syms'). rewrite app_nil_r, app_assoc. split_and!; [done|by apply Forall2_app| | |done].
  - assert (length vs = 4%nat) by (unfold len in L; lia).
    destruct vs as [|v0 [|v1 [|v2 [|v3 [|]]]]]; try done. cbn [app decode_groups]. by rewrite D, D'.
  - rewrite len_app, <- L'. replace (len vs) with 4 by lia.
    replace (4 + len ws + Z.of_nat k) with (len ws + Z.of_nat k + 1 * 4) by lia. apply Z_mod_plus_full.
Qed.

Lemma encode_chunks_reads bs :
  exists out, encode_chunks bs = Ok out /\ encoding_of bs out /\ len out = (len bs + 2) / 3 * 4.
Proof.
  induction bs as [[|a [|b [|c bs]]] IH] using (induction_ltof1 _ (@length byte)).
  - exists []. split_and!; [done| |done]. exists [], 0%nat, []. split_and!; try done. lia.
  - destruct (encode_chunk_reads [a]) as (out & vs & E & R); [done|]. apply short_encoding in R as [R L]. by exists out.
  - destruct (encode_chunk_reads [a; b]) as (out & vs & E & R); [done|]. apply short_encoding in R as [R L]. by exists out.
  - destruct (encode_chunk_reads [a; b; c]) as (out & vs & E & R); [done|].
    destruct (IH bs) as (rest & E' & R' & L'); [unfold ltof; cbn; lia|]. exists (out ++ rest).
    cbn [encode_chunks]. rewrite E, bind_ok, E', bind_ok. split_and!; [done|by apply (long_encoding [a; b; c] out vs)|].
    apply short_encoding in R as [_ R]. rewrite len_app, R, L', !len_cons.
    replace (1 + (1 + (1 + len bs)) + 2) with (len bs + 2 + 1 * 3) by lia. rewrite Z_div_plus_full by done. lia.
Qed.

(** ** Theorems *)

(** C29: Base64 is a round trip for every byte string: encoding never goes out of the alphabet's range,
    the text has four characters for every three bytes begun, and decoding it gives the bytes back, wherever
    white space is put into it on the way. *)
Theorem base64_roundtrip bs :
  exists text, base64_encode bs = Ok text
    /\ slen text = (len bs + 2) / 3 * 4
    /\ base64_decode text = Some bs
    /\ forall folded, filter (fun c => is_ascii_whitespace c = false) (as_bytes folded) = as_bytes text ->
                     base64_decode folded = Some bs.
Proof.
  destruct (encode_chunks_reads bs) as (out & E & (vs & k & syms & -> & F & D & L & K) & Hl).
  exists (from_bytes (syms ++ replicate k x3d)). unfold base64_encode. rewrite E, bind_ok.
  rewrite <- len_as_bytes, as_from_bytes.
  assert (R : forall folded, b64_symbols (as_bytes folded) [] 0 = Some (vs, Z.of_nat k) -> base64_decode folded = Some bs).
  { intros folded H. unfold base64_decode. rewrite H. cbn. rewrite L, D. cbn.
    destruct (Z.ltb_spec 2 (Z.of_nat k)); [lia|done]. }
  assert (S : b64_symbols (syms ++ replicate k x3d) [] 0 = Some (vs, Z.of_nat k)).
  { by rewrite (b64_symbols_app _ vs), b64_symbols_pad by done. }
  split_and!; [done..|apply R; by rewrite as_from_bytes|]. intros folded Hf. apply R. by rewrite b64_symbols_ws, Hf.
Qed.

(** What the symbol loop accepts. *)
Lemma b64_symbols_inv cs acc pad vs p :
  filter (fun c => is_ascii_whitespace c = false) cs = cs -> 0 <= pad ->
  b64_symbols cs acc pad = Some (vs, p) ->
  exists syms ws k, cs = syms ++ replicate k x3d /\ vs = acc ++ ws /\ p = pad + Z.of_nat k
    /\ Forall2 b64_symbol_ok ws syms /\ (0 < pad -> syms = []).
Proof.
  revert acc pad. induction cs as [|c cs IH]; intros acc pad Hw Hp; cbn [b64_symbols].
  - intros [= <- <-]. exists [], [], 0%nat. split_and!; try done; [by rewrite app_nil_r|lia].
  - rewrite filter_cons in Hw. destruct (decide (is_ascii_whitespace c = false)) as [W|W]; cycle 1.
    { exfalso. pose proof (length_filter (fun c => is_ascii_whitespace c = false) cs) as H. rewrite Hw in H. cbn in H. lia. }
    injection Hw as Hw. rewrite W. destruct (bool_decide_reflect (c = x3d)) as [->|Hc].
    + intros (syms & ws & k & -> & -> & -> & F & N)%IH; [|done|lia]. rewrite (N ltac:(lia)) in F |- *.
      exists [], ws, (S k). split_and!; [done|done|lia|done|done].
    + destruct (Z.ltb_spec 0 pad); [done|]. destruct (b64_val c) as [v|] eqn:V; [|done].
      intros (syms & ws & k & -> & -> & -> & F & N)%IH; [|done|lia].
      exists (c :: syms), (v :: ws), k. split_and!; [done|by rewrite <- app_assoc|done|by constructor|lia].
Qed.

(** [base64_decode] accepts exactly what is, white space aside, symbols of the alphabet followed by at most two
    padding characters, a multiple of four in all; what it gives is what the groups of four say. *)
Theorem base64_decode_exact text bs :
  base64_decode text = Some bs <->
  encoding_of bs (filter (fun c => is_ascii_whitespace c = false) (as_bytes text)).
Proof.
  unfold base64_decode. rewrite b64_symbols_ws. set (cs := filter _ _).
  assert (Hcs : filter (fun c => is_ascii_whitespace c = false) cs = cs).
  { subst cs. by apply list_filter_filter_l. }
  split.
  - destruct (b64_symbols cs [] 0) as [[vs p]|] eqn:E; [|done]. cbn.
    destruct (Z.eqb_spec ((len vs + p) mod 4) 0), (Z.ltb_spec 2 p); cbn; try done. intros [= <-].
    apply b64_symbols_inv in E as (syms & ws & k & -> & -> & -> & F & _); [|done|done].
    exists ws, k, syms. split_and!; try done. lia.
  - intros (vs & k & syms & -> & F & D & L & K). rewrite (b64_symbols_app _ vs), b64_symbols_pad by done.
    rewrite app_nil_l, Z.add_0_l. cbn. rewrite L, D. cbn. destruct (Z.ltb_spec 2 (Z.of_nat k)); [lia|done].
Qed.

(** ** The error codes *)

(** No two errors the daemon can report share a code or a name, and the application's codes lie in the range that
    JSON-RPC leaves to implementations. *)
Theorem error_codes_distinct :
  NoDup (error_code_registry.*1) /\ NoDup (error_code_registry.*2)
  /\ (forall e, e ∈ app_errors) /\ (forall e, -32099 <= app_code e <= -32000).
Proof.
  split_and!.
  - apply (bool_decide_unpack _). by vm_compute.
  - apply (bool_decide_unpack _). by vm_compute.
  - intros []; unfold app_errors; set_solver.
  - intros []; by vm_compute.
Qed.

Section responses.
Context `{J : Json}.

(** A client takes a response exactly when it is an object of the right version with a readable id and one of
    [result] and [error], a [null] result included; what it takes is a success exactly with a result. *)
Theorem response_deserialize_exact v r :
  response_deserialize v = Ok r <->
  get v "jsonrpc" ≫= as_str = Some JSONRPC_VERSION /\ get v "id" ≫= read_id = Some (resp_id r)
  /\ ((exists x, get v "result" = Some x /\ get v "error" = None /\ r = success (resp_id r) x)
      \/ (exists e c d, get v "error" = Some e /\ get v "result" = None /\ read_error e = Some (c, d)
                        /\ r = response_error (resp_id r) (mkRpcError c d))).
Proof.
  unfold response_deserialize, get. destruct (as_object v) as [obj|]; [|naive_solver]. cbn [ok_or]. rewrite bind_ok.
  destruct (bool_decide_reflect (obj "jsonrpc" ≫= as_str = Some JSONRPC_VERSION)) as [V|V]; cbn [negb]; [|naive_solver].
  destruct (obj "id") as [iv|]; [|naive_solver]. cbn [ok_or]. rewrite bind_ok. cbn.
  destruct (read_id iv) as [id|]; [|naive_solver]. cbn.
  destruct (obj "result") as [x|], (obj "error") as [e|]; [naive_solver| | |naive_solver].
  - split; [intros [= <-]; naive_solver|]. intros (_ & [= ->] & [(y & [= <-] & _ & R)|]); [by f_equal|naive_solver].
  - cbn. split.
    + destruct (read_error e) as [[c d]|] eqn:Ee; [|done]. cbn. intros [= <-]. naive_solver.
    + intros (_ & [= ->] & [|(y & c & d & [= <-] & _ & Ee & R)]); [naive_solver|]. rewrite Ee. cbn. by f_equal.
Qed.

Lemma is_success_spec r : is_success r = true <-> is_Some (result r) /\ error r = None.
Proof. unfold is_success. by rewrite andb_true_iff, !bool_decide_eq_true. Qed.

(** A batch is refused before the line is parsed; whatever else is refused has the code of its reason. *)
Theorem parse_incoming_request_total line :
  match parse_incoming_request line with
  | Ok r => starts_with "[" (trim_start line) = false
            /\ (from_str (trim_start line) ≫= read_request) = Some (req_id r, method r, params r)
  | Err e => data e = None
             /\ (code e = PARSE_ERROR <-> starts_with "[" (trim_start line) = false /\ from_str (trim_start line) = None)
             /\ (code e = PARSE_ERROR \/ code e = INVALID_REQUEST)
  | Panic => False
  end.
Proof.
  unfold parse_incoming_request. destruct (starts_with "[" (trim_start line)); [cbn; naive_solver|].
  destruct (from_str (trim_start line)) as [v|]; [|cbn; naive_solver]. cbn [ok_or]. rewrite bind_ok. cbn.
  destruct (read_request v) as [[[id m] p]|]; cbn; [done|]. naive_solver.
Qed.

End responses.
