(* ===== verification/Lines.v ===== *)
(** * Request lines of the control socket ([RequestLines] of daemon/src/control.rs)

    The newline-delimited reader with its cap.  [next_line] is the loop over the reads
    the socket answers; when it has no answer it is suspended, and the line begun stays
    in the reader ([buf]), so that dropping the future loses nothing. *)

From Stdlib Require Import Strings.String.
From S2P Require Import Prelude Envelope.
#[local] Open Scope Z_scope.

Definition MAX_REQUEST_LINE : Z := 2 ^ 20.

Inductive LineRead := Line (s : string) | Eof | TooLong.

(** What [next_line] fails with: the socket's error, or bytes that are not UTF-8. *)
Inductive LineError := ReadFailed | InvalidData.

(** One answer of the socket: bytes (none at the end of the stream) or an error. *)
Inductive Fill := Filled (bytes : list byte) | FillFailed.

(** [available] is what the [BufReader] holds unread, [buf] the line in progress. *)
Record RequestLines := mkLines { available : list byte; buf : list byte }.

Definition lines_new : RequestLines := mkLines [] [].

Definition NL : byte := x0a.
Definition CR : byte := x0d.

(** [available.iter().position(|&b| b == b'\n')], with what is before and after it. *)
Fixpoint split_line (bs : list byte) : option (list byte * list byte) :=
  match bs with
  | [] => None
  | b :: bs =>
      if bool_decide (b = NL) then Some ([], bs)
      else match split_line bs with Some (l, r) => Some (b :: l, r) | None => None end
  end.

Definition strip_cr (bytes : list byte) : list byte :=
  if bool_decide (last bytes = Some CR) then take (length bytes - 1) bytes else bytes.

Definition line_of (bytes : list byte) : exec LineError LineRead :=
  s ← from_utf8 InvalidData (strip_cr bytes); Ok (Line s).

(** [take_line]: the buffer is emptied whatever comes of it. *)
Definition take_line (r : RequestLines) : RequestLines * exec LineError LineRead :=
  (mkLines (available r) [], line_of (buf r)).

(** One turn of the loop, when [fill_buf] has given [avail], not empty. *)
Definition line_turn (r : RequestLines) (avail : list byte) : RequestLines * option (exec LineError LineRead) :=
  match split_line avail with
  | Some (l, rest) =>
      if MAX_REQUEST_LINE <? len (buf r) + len l then (mkLines rest [], Some (Ok TooLong))
      else let '(r, line) := take_line (mkLines rest (buf r ++ l)) in (r, Some line)
  | None =>
      if MAX_REQUEST_LINE <? len (buf r) + len avail then (mkLines [] [], Some (Ok TooLong))
      else (mkLines [] (buf r ++ avail), None)
  end.

(** The turn at the end of the stream. *)
Definition eof_turn (r : RequestLines) : RequestLines * exec LineError LineRead :=
  match buf r with
  | [] => (r, Ok Eof)
  | _ => take_line r
  end.

(** The turns over new answers of the socket: the state, the answers not used, and the
    outcome ([None]: suspended). *)
Fixpoint read_fills (r : RequestLines) (fills : list Fill)
  : RequestLines * list Fill * option (exec LineError LineRead) :=
  match fills with
  | [] => (r, [], None)
  | FillFailed :: fills => (r, fills, Some (Err ReadFailed))
  | Filled [] :: fills => let '(r, res) := eof_turn r in (r, fills, Some res)
  | Filled bytes :: fills =>
      match line_turn r bytes with
      | (r, Some res) => (r, fills, Some res)
      | (r, None) => read_fills r fills
      end
  end.

(** [next_line]: what the [BufReader] still holds comes before the socket. *)
Definition next_line (r : RequestLines) (fills : list Fill)
  : RequestLines * list Fill * option (exec LineError LineRead) :=
  match available r with
  | [] => read_fills r fills
  | avail =>
      match line_turn r avail with
      | (r, Some res) => (r, fills, Some res)
      | (r, None) => read_fills r fills
      end
  end.

(** ** The reference: the lines of a stream *)

(** What a reader that sees the whole stream at once reports: its lines, until the first
    that is too long or not UTF-8; the rest after the last newline is a line if there is any. *)
Fixpoint lines_of (fuel : nat) (s : list byte) : list (exec LineError LineRead) :=
  match fuel with
  | O => []
  | S fuel =>
      match split_line s with
      | Some (l, rest) =>
          if MAX_REQUEST_LINE <? len l then [Ok TooLong]
          else match line_of l with
               | Ok line => Ok line :: lines_of fuel rest
               | e => [e]
               end
      | None =>
          if MAX_REQUEST_LINE <? len s then [Ok TooLong]
          else match s with
               | [] => [Ok Eof]
               | _ => match line_of s with Ok line => [Ok line; Ok Eof] | e => [e] end
               end
      end
  end.

Definition stream_lines (s : list byte) : list (exec LineError LineRead) := lines_of (S (length s)) s.

Definition is_line (res : exec LineError LineRead) : bool :=
  match res with Ok (Line _) => true | _ => false end.

(** The results of calling [next_line] until one of them is not a line: how the connection
    reads.  One unit of fuel a call. *)
Fixpoint read_lines (fuel : nat) (r : RequestLines) (fills : list Fill) : list (exec LineError LineRead) :=
  match fuel with
  | O => []
  | S fuel =>
      match next_line r fills with
      | (r, fills, Some res) => if is_line res then res :: read_lines fuel r fills else [res]
      | (_, _, None) => []
      end
  end.

Example read_lines_crlf :
  read_lines 4 lines_new [Filled (as_bytes "{1}" ++ [CR]); Filled ([NL] ++ as_bytes "{2}"); Filled ([NL] ++ as_bytes "x"); Filled []; Filled []]
  = [Ok (Line "{1}"); Ok (Line "{2}"); Ok (Line "x"); Ok Eof].
Proof. vm_compute. done. Qed.

(** ** Lemmas: splitting *)

Lemma split_line_spec s l r : split_line s = Some (l, r) -> s = l ++ NL :: r /\ split_line l = None.
Proof.
  revert l r. induction s as [|b s IH]; intros l r; cbn; [done|]. case_bool_decide as E.
  - intros [= <- <-]. by subst.
  - destruct (split_line s) as [[l' r']|]; [|done]. intros [= <- <-]. destruct (IH l' r' eq_refl) as [-> N].
    cbn. by rewrite bool_decide_eq_false_2, N.
Qed.

Lemma split_line_open b s :
  split_line b = None ->
  split_line (b ++ s) = match split_line s with Some (l, r) => Some (b ++ l, r) | None => None end.
Proof.
  induction b as [|x b IH]; cbn; [by destruct (split_line s) as [[]|]|]. case_bool_decide; [done|].
  destruct (split_line b) as [[]|]; [done|]. intros _. rewrite IH by done. by destruct (split_line s) as [[]|].
Qed.

Lemma split_line_closed a s l r : split_line a = Some (l, r) -> split_line (a ++ s) = Some (l, r ++ s).
Proof.
  revert l r. induction a as [|x a IH]; intros l r; cbn; [done|]. case_bool_decide; [by intros [= <- <-]|].
  destruct (split_line a) as [[l' r']|]; [|done]. intros [= <- <-]. by rewrite (IH l' r').
Qed.

(** ** Lemmas: one call of [next_line] *)

(** A reader between two polls: the line in progress has no newline and is within the cap. *)
Definition lines_ok (r : RequestLines) : Prop := split_line (buf r) = None /\ len (buf r) <= MAX_REQUEST_LINE.

(** The bytes still to be reported, when the socket answers [chunks] and then the end. *)
Definition ahead (r : RequestLines) (chunks : list (list byte)) : list byte := buf r ++ available r ++ mjoin chunks.

Definition closing (chunks : list (list byte)) : list Fill := (Filled <$> chunks) ++ [Filled []; Filled []].

(** What a call reports of the bytes [s] ahead. *)
Definition reports (s : list byte) (out : RequestLines * list Fill * option (exec LineError LineRead)) : Prop :=
  match split_line s with
  | Some (l, rest) =>
      if MAX_REQUEST_LINE <? len l then out.2 = Some (Ok TooLong)
      else out.2 = Some (line_of l)
           /\ exists r chunks, out.1 = (r, closing chunks) /\ Forall (fun c => c <> []) chunks
                               /\ buf r = [] /\ ahead r chunks = rest
  | None =>
      if MAX_REQUEST_LINE <? len s then out.2 = Some (Ok TooLong)
      else out = match s with
                 | [] => (lines_new, [Filled []], Some (Ok Eof))
                 | _ => (lines_new, [Filled []], Some (line_of s))
                 end
  end.

(** A turn either reports what the bytes ahead begin with, or takes its bytes into the line. *)
Lemma line_turn_reports r avail chunks :
  lines_ok r -> Forall (fun c => c <> []) chunks ->
  match line_turn r avail with
  | (r', Some res) => reports (buf r ++ avail ++ mjoin chunks) (r', closing chunks, Some res)
  | (r', None) => lines_ok r' /\ available r' = [] /\ buf r' = buf r ++ avail
  end.
Proof.
  intros [N L] C. unfold line_turn, reports. rewrite split_line_open by done.
  destruct (split_line avail) as [[l rest]|] eqn:S.
  - rewrite (split_line_closed _ _ _ _ S). rewrite len_app. destruct (_ <? _); [done|].
    cbn. split; [done|]. eexists _, chunks. split_and!; [done..|]. unfold ahead. by cbn.
  - destruct (MAX_REQUEST_LINE <? len (buf r) + len avail) eqn:T.
    + rewrite split_line_open by done.
      assert (forall z, 0 <= z -> (MAX_REQUEST_LINE <? len (buf r) + (len avail + z)) = true) by
        (intros; apply Z.ltb_lt in T; apply Z.ltb_lt; lia).
      destruct (split_line (mjoin chunks)) as [[l rest]|]; rewrite !len_app, H by apply len_nonneg; done.
    + split_and!; [|done..]. split; cbn; [by rewrite split_line_open, S|]. rewrite len_app. by apply Z.ltb_ge in T.
Qed.

Lemma read_fills_reports chunks r :
  lines_ok r -> available r = [] -> Forall (fun c => c <> []) chunks ->
  reports (ahead r chunks) (read_fills r (closing chunks)).
Proof.
  intros R A C. revert r R A. induction C as [|c chunks Hc C IH]; intros [a b] R A; cbn in A; subst a; unfold ahead; cbn.
  - destruct R as [N L]. cbn in *. unfold reports. rewrite app_nil_r, N. destruct (Z.ltb_spec MAX_REQUEST_LINE (len b)); [lia|].
    by destruct b.
  - destruct c as [|x c]; [done|]. set (w := x :: c) in *.
    pose proof (line_turn_reports _ w chunks R C) as T. destruct (line_turn _ w) as [r' [res|]]; cbn in T; [done|].
    destruct T as (R' & A' & B'). specialize (IH r' R' A'). unfold ahead in IH. rewrite A', B' in IH. cbn in IH.
    by rewrite <- app_assoc in IH.
Qed.

Lemma next_line_reports chunks r :
  lines_ok r -> Forall (fun c => c <> []) chunks -> reports (ahead r chunks) (next_line r (closing chunks)).
Proof.
  intros R C. unfold next_line. destruct (available r) as [|x a] eqn:A; [by apply read_fills_reports|].
  pose proof (line_turn_reports r (x :: a) chunks R C) as T. unfold ahead. rewrite A.
  destruct (line_turn r (x :: a)) as [r' [res|]]; [done|]. destruct T as (R' & A' & B').
  pose proof (read_fills_reports chunks r' R' A' C) as H. unfold ahead in H. rewrite A', B' in H. cbn in H.
  by rewrite <- app_assoc in H.
Qed.

(** ** Theorems *)

Lemma closing_nil : closing [] = [Filled []; Filled []].
Proof. done. Qed.

Lemma read_lines_stream n m chunks r :
  lines_ok r -> Forall (fun c => c <> []) chunks ->
  (S (length (ahead r chunks)) < n)%nat -> (length (ahead r chunks) < m)%nat ->
  read_lines n r (closing chunks) = lines_of m (ahead r chunks).
Proof.
  revert n chunks r. induction m as [|m IH]; intros n chunks r R C Hn Hm; [lia|]. destruct n as [|n]; [lia|].
  pose proof (next_line_reports chunks r R C) as H. cbn [read_lines lines_of].
  destruct (next_line r (closing chunks)) as [[r' fills] res]. unfold reports in H. cbn in H.
  destruct (split_line (ahead r chunks)) as [[l rest]|] eqn:S.
  - destruct (_ <? _); [by subst|]. destruct H as (-> & r2 & chunks' & [= -> ->] & C' & B & A).
    unfold line_of. destruct (from_utf8 _ _) as [s| |]; cbn; [|done..]. f_equal.
    apply split_line_spec in S as [E _]. rewrite E in Hn, Hm. rewrite length_app in Hn, Hm. cbn in Hn, Hm.
    rewrite <- A. apply IH; [by split; rewrite B|done|rewrite A; lia|rewrite A; lia].
  - destruct (_ <? _); [by subst|]. destruct (ahead r chunks) as [|x s] eqn:E; [by injection H as -> -> ->|].
    injection H as -> -> ->. unfold line_of. destruct (from_utf8 _ _) as [t| |]; cbn; [|done..].
    cbn in Hn. by destruct n; [lia|].
Qed.

(** C14: However the socket cuts the stream into reads, the connection reads the same requests: the lines of the stream,
    each once and in order, until the first that exceeds the cap or is not UTF-8, with the unterminated rest as the last. *)
Theorem request_lines_exact chunks fuel :
  Forall (fun c => c <> []) chunks -> (S (length (mjoin chunks)) < fuel)%nat ->
  read_lines fuel lines_new (closing chunks) = stream_lines (mjoin chunks).
Proof. intros C F. apply (read_lines_stream fuel _ chunks lines_new); [done|done|done|cbn; lia]. Qed.

Lemma line_turn_ok r avail r' res : lines_ok r -> line_turn r avail = (r', res) -> lines_ok r'.
Proof.
  intros [N L]. unfold line_turn. destruct (split_line avail) as [[l rest]|] eqn:S.
  - destruct (_ <? _); cbn; by intros [= <- <-].
  - destruct (Z.ltb_spec MAX_REQUEST_LINE (len (buf r) + len avail)); intros [= <- <-]; [done|].
    split; cbn; [by rewrite split_line_open, S|by rewrite len_app].
Qed.

Lemma read_fills_ok fills r : lines_ok r -> lines_ok (read_fills r fills).1.1.
Proof.
  revert r. induction fills as [|[[|x c]|] fills IH]; intros r R; cbn; [done| |by destruct (line_turn r (x :: c)) as [r' [res|]] eqn:E;
    [apply (line_turn_ok _ _ _ _ R E)|apply IH, (line_turn_ok _ _ _ _ R E)]|done].
  unfold eof_turn. destruct (buf r) eqn:E; [done|]. cbn. done.
Qed.

(** Whatever the socket answers, errors included, the line in progress never exceeds the cap. *)
Theorem line_buffer_bounded r fills : lines_ok r -> lines_ok (next_line r fills).1.1.
Proof.
  intros R. unfold next_line. destruct (available r) as [|x a]; [by apply read_fills_ok|].
  destruct (line_turn r (x :: a)) as [r' [res|]] eqn:E; [apply (line_turn_ok _ _ _ _ R E)|].
  apply read_fills_ok, (line_turn_ok _ _ _ _ R E).
Qed.

(** A call that is dropped while it is suspended has lost nothing: the next call with the rest of the answers is the
    call that was never dropped. *)
Theorem next_line_cancel_safe r fills later r' :
  next_line r fills = (r', [], None) -> next_line r' later = next_line r (fills ++ later).
Proof.
  assert (F : forall r, available r = [] -> read_fills r fills = (r', [], None) ->
              available r' = [] /\ read_fills r' later = read_fills r (fills ++ later)).
  { induction fills as [|[[|x c]|] fills IH]; intros q A; cbn; [by intros [= <-]|by destruct (eof_turn q)| |done].
    destruct (line_turn q (x :: c)) as [q' [res|]] eqn:E; [done|]. apply IH.
    revert E. unfold line_turn. repeat case_match; try done; by intros [= <-]. }
  unfold next_line. destruct (available r) as [|x a] eqn:A.
  - intros (A' & H)%F; [|done]. by rewrite A'.
  - destruct (line_turn r (x :: a)) as [q [res|]] eqn:E; [done|]. intros (A' & H)%F; [by rewrite A'|].
    revert E. unfold line_turn. repeat case_match; try done; by intros [= <-].
Qed.

Lemma request_lines_exact_witness :
  read_lines 20 lines_new (closing [as_bytes "ab" ++ [CR]; [NL]; as_bytes "c" ++ [NL] ++ as_bytes "de"])
  = [Ok (Line "ab"); Ok (Line "c"); Ok (Line "de"); Ok Eof].
Proof.
  rewrite (request_lines_exact [as_bytes "ab" ++ [CR]; [NL]; as_bytes "c" ++ [NL] ++ as_bytes "de"] 20).
  - vm_compute. reflexivity.
  - repeat constructor; discriminate.
  - vm_compute. lia.
Defined.
