(* ===== verification/Conn.v ===== *)
(** * A control connection ([serve_connection] of daemon/src/control.rs)

    One loop with five lanes: the verb in flight, the requests, the daemon's
    notifications, the terminal tap events and the tap data.  A state is one of its
    awaits, the [select!] or a write; [conn_step] is one poll of it, or what the client,
    the daemon and the tap hubs do meanwhile.  A poll of the [select!] takes the first
    lane that is ready, in the order of the source.  What the verb in flight and the
    broadcast channel answer when they are polled, and what the daemon says to a
    [tap.open], are arguments. *)

From Stdlib Require Import Strings.String.
From S2P Require Import Prelude GraphTypes Envelope Pattern Tap Paths Rpc Lines.
#[local] Open Scope Z_scope.

Definition TAP_QUEUE_CAP : Z := 128.

(** ** Notifications of taps *)

Inductive TapNotification :=
| TapData (tap offset gap_before : Z) (data : string)
| TapClosed (tap : Z) (endpoint reason : string).

(** [tap_notification]. *)
Definition tap_notification (msg : TapMsg) : exec unit TapNotification :=
  match msg with
  | Data tap bytes offset gap_before => data ← base64_encode bytes; Ok (TapData tap offset gap_before data)
  | Closed tap endpoint reason => Ok (TapClosed tap endpoint reason)
  end.

Definition msg_tap (m : TapMsg) : Z := match m with Data t _ _ _ => t | Closed t _ _ => t end.

Section conn.
Context `{J : Json} {N : Type} (closed_json : Z -> Value).

(** ** The state *)

Record InFlight := mkInFlight { fl_id : Id; fl_sub : bool }.
Record Settled := mkSettled { st_id : Id; st_sub : bool; st_result : RpcError + Value }.

(** A line for the client.  [VerbReply] answers the verb that was in flight, [NowReply] a request answered
    where it was read, with the tap it opened; [TapNote] says by which lane it came. *)
Inductive Out :=
| VerbReply (s : Settled)
| NowReply (r : Response) (opened : option Z)
| DaemonNote (n : N)
| TapNote (terminal : bool) (m : TapMsg) (n : TapNotification).

(** What follows a write: the top of the loop; the rest of the top, [subscribe] or not; the end. *)
Inductive After := ToTop | ToSelect (subscribe : bool) | ToBreak.

Inductive Pc := Selecting | Writing (out : Out) (k : After) | Ended.

(** What became of a request when it was read; [None]: the line over the cap. *)
Inductive Asked := Dispatched (line : string) (id : Id) | Answered (line : option string) (r : Response).

(** The request half: the reader, what the socket holds, and the histories of what it was given
    and of what the reader made of it. *)
Record Input := mkInput { reader : RequestLines; socket : list Fill; arrived : list Fill; heard : list (exec LineError LineRead) }.

(** [asked] is a history. *)
Record Verbs := mkVerbs { inflight : option InFlight; settled : option Settled; asked : list Asked }.

(** [c_gone]: the open taps whose hub has dropped them.  [c_queued] and [c_overflowed] are histories: what entered
    the data queue and the terminal lane, and [c_ever] the taps opened. *)
Record Taps := mkTaps {
  c_open : list Z; c_gone : list Z; c_rx : list TapMsg; c_closed_rx : list TapMsg;
  c_queued : list TapMsg; c_overflowed : list TapMsg; c_ever : list Z }.

(** [counted] with the daemon's count of subscribers and its next tap id. *)
Record Shared := mkShared { counted : bool; subscribers : Z; next_tap_id : Z }.

Record Conn := mkConn { input : Input; verbs : Verbs; ctaps : Taps; shared : Shared; pc : Pc; wire : list Out }.

Definition set_input (i : Input) (c : Conn) : Conn := mkConn i (verbs c) (ctaps c) (shared c) (pc c) (wire c).
Definition set_verbs (v : Verbs) (c : Conn) : Conn := mkConn (input c) v (ctaps c) (shared c) (pc c) (wire c).
Definition set_taps (t : Taps) (c : Conn) : Conn := mkConn (input c) (verbs c) t (shared c) (pc c) (wire c).
Definition set_shared (s : Shared) (c : Conn) : Conn := mkConn (input c) (verbs c) (ctaps c) s (pc c) (wire c).
Definition set_pc (p : Pc) (c : Conn) : Conn := mkConn (input c) (verbs c) (ctaps c) (shared c) p (wire c).

Definition ask (a : Asked) (c : Conn) : Conn :=
  set_verbs (mkVerbs (inflight (verbs c)) (settled (verbs c)) (asked (verbs c) ++ [a])) c.

(** A connection as it is accepted, by a daemon with [subs] subscribers that has given out tap ids below [next]. *)
Definition conn_new (subs next : Z) : Conn :=
  mkConn (mkInput lines_new [] [] []) (mkVerbs None None []) (mkTaps [] [] [] [] [] [] []) (mkShared false subs next)
         Selecting [].

(** ** Leaving the loop, and its top *)

(** The locals dropped: the verb in flight, the taps, and the [SubscriberTally]. *)
Definition end_conn (c : Conn) : Conn :=
  let s := shared c in
  let t := ctaps c in
  set_pc Ended
    (set_verbs (mkVerbs None None (asked (verbs c)))
    (set_taps (mkTaps [] [] [] [] (c_queued t) (c_overflowed t) (c_ever t))
    (set_shared (mkShared false (if counted s then subscribers s - 1 else subscribers s) (next_tap_id s)) c))).

Definition response_of (s : Settled) : Response :=
  match st_result s with inr v => success (st_id s) v | inl e => response_error (st_id s) e end.

Definition loop_top (c : Conn) : Conn :=
  match settled (verbs c) with
  | Some d => set_pc (Writing (VerbReply d) (ToSelect (st_sub d)))
                     (set_verbs (mkVerbs (inflight (verbs c)) None (asked (verbs c))) c)
  | None => set_pc Selecting c
  end.

(** [SubscriberTally::subscribe]. *)
Definition tally_subscribe (s : Shared) : Shared :=
  if counted s then s else mkShared true (subscribers s + 1) (next_tap_id s).

(** A verb that settles, wherever it is polled. *)
Definition settle (f : InFlight) (r : RpcError + Value) (c : Conn) : Conn :=
  set_verbs (mkVerbs None (Some (mkSettled (fl_id f) (fl_sub f) r)) (asked (verbs c))) c.

(** ** Writing ([write_line]) *)

Definition write_done (out : Out) (k : After) (ok : bool) (c : Conn) : Conn :=
  if ok then
    let c := mkConn (input c) (verbs c) (ctaps c) (shared c) (pc c) (wire c ++ [out]) in
    match k with
    | ToTop => loop_top c
    | ToSelect sub => set_pc Selecting (if sub then set_shared (tally_subscribe (shared c)) c else c)
    | ToBreak => end_conn c
    end
  else end_conn c.

(** One poll of a write: first the write, then the verb in flight. *)
Definition write_turn (done : option bool) (verb : option (RpcError + Value)) (c : Conn) : Conn :=
  match pc c with
  | Writing out k =>
      match done with
      | Some ok => write_done out k ok c
      | None => match inflight (verbs c), verb with Some f, Some r => settle f r c | _, _ => c end
      end
  | _ => c
  end.

(** ** Requests *)

(** The daemon's answer to a [tap.open]: an error, or the result with the pieces of the replay and their offsets. *)
Inductive TapAnswer := TapRefused (e : RpcError) | TapGiven (v : Value) (replay : list (list byte * Z)).

Definition room (t : Taps) : Z := TAP_QUEUE_CAP - len (c_rx t).

(** [tap.open]: the tap registers with its hub, which queues what the replay channel has room for. *)
Definition tap_open (a : TapAnswer) (id : Id) (c : Conn) : Conn * Response * option Z :=
  match a with
  | TapRefused e => (c, response_error id e, None)
  | TapGiven v replay =>
      let t := ctaps c in let s := shared c in
      let tap := next_tap_id s in
      let msgs := take (Z.to_nat (room t)) ((fun p => Data tap p.1 p.2 0) <$> replay) in
      (set_shared (mkShared (counted s) (subscribers s) (tap + 1))
        (set_taps (mkTaps (c_open t ++ [tap]) (c_gone t) (c_rx t ++ msgs) (c_closed_rx t) (c_queued t ++ msgs)
                          (c_overflowed t) (c_ever t ++ [tap])) c),
       success id v, Some tap)
  end.

(** [open_taps.remove(pos)]. *)
Fixpoint remove_first (x : Z) (l : list Z) : list Z :=
  match l with [] => [] | y :: l => if x =? y then l else y :: remove_first x l end.

(** [tap.close]. *)
Definition tap_close (p : option Value) (id : Id) (c : Conn) : Conn * Response :=
  match (p ≫= fun p => get p "tap") ≫= as_u64 with
  | Some tap =>
      let t := ctaps c in
      if bool_decide (tap ∈ c_open t) then
        (set_taps (mkTaps (remove_first tap (c_open t)) (c_gone t) (c_rx t) (c_closed_rx t) (c_queued t) (c_overflowed t) (c_ever t)) c,
         if bool_decide (tap ∈ c_gone t) then response_error id (rpc_error INVALID_PARAMS) else success id (closed_json tap))
      else (c, response_error id (rpc_error INVALID_PARAMS))
  | None => (c, response_error id (rpc_error INVALID_PARAMS))
  end.

(** A request answered where it is read. *)
Definition answer_now (line : option string) (r : Response) (opened : option Z) (k : After) (c : Conn) : Conn :=
  set_pc (Writing (NowReply r opened) k) (ask (Answered line r) c).

Definition on_request (a : TapAnswer) (line : string) (c : Conn) : Conn :=
  if bool_decide (is_Some (inflight (verbs c))) then
    answer_now (Some line)
      match parse_incoming_request line with
      | Ok req => response_error (req_id req) (rpc_error (app_code WaitInFlight))
      | Err e => error_without_id e
      | Panic => error_without_id (rpc_error INTERNAL_ERROR)
      end None ToTop c
  else
    match parse_incoming_request line with
    | Ok req =>
        if bool_decide (method req = "tap.open"%string) then
          let '(c, r, opened) := tap_open a (req_id req) c in answer_now (Some line) r opened ToTop c
        else if bool_decide (method req = "tap.close"%string) then
          let '(c, r) := tap_close (params req) (req_id req) c in answer_now (Some line) r None ToTop c
        else
          loop_top (ask (Dispatched line (req_id req))
            (set_verbs (mkVerbs (Some (mkInFlight (req_id req) (bool_decide (method req = "subscribe"%string))))
                                (settled (verbs c)) (asked (verbs c))) c))
    | Err e => answer_now (Some line) (error_without_id e) None ToTop c
    | Panic => end_conn c
    end.

Definition on_line (a : TapAnswer) (res : exec LineError LineRead) (c : Conn) : Conn :=
  match res with
  | Ok (Line line) => if bool_decide (trim line = ""%string) then loop_top c else on_request a line c
  | Ok TooLong => answer_now None (error_without_id (rpc_error INVALID_REQUEST)) None ToBreak c
  | Ok Eof | Err _ | Panic => end_conn c
  end.

(** ** The [select!] *)

Inductive NoteRecv := NoteGot (n : N) | NoteLagged | NoteClosed.

(** What the lanes that are not the connection's own answer when they are polled. *)
Record Ready := mkReady { r_verb : option (RpcError + Value); r_note : option NoteRecv; r_tap : TapAnswer }.

(** A tap message taken off its lane: framed and written; framing never fails ([tap_notification_total]). *)
Definition write_tap (terminal : bool) (m : TapMsg) (c : Conn) : Conn :=
  match tap_notification m with
  | Ok n => set_pc (Writing (TapNote terminal m n) ToTop) c
  | _ => end_conn c
  end.

Definition tap_lanes (c : Conn) : Conn :=
  let t := ctaps c in
  match c_closed_rx t, c_rx t with
  | m :: q, _ => write_tap true m (set_taps (mkTaps (c_open t) (c_gone t) (c_rx t) q (c_queued t) (c_overflowed t) (c_ever t)) c)
  | [], m :: q => write_tap false m (set_taps (mkTaps (c_open t) (c_gone t) q [] (c_queued t) (c_overflowed t) (c_ever t)) c)
  | [], [] => c
  end.

Definition select_turn (rd : Ready) (c : Conn) : Conn :=
  match inflight (verbs c), r_verb rd with
  | Some f, Some r => loop_top (settle f r c)
  | _, _ =>
      let i := input c in
      match next_line (reader i) (socket i) with
      | (r, rest, Some res) => on_line (r_tap rd) res (set_input (mkInput r rest (arrived i) (heard i ++ [res])) c)
      | (r, rest, None) =>
          let c := set_input (mkInput r rest (arrived i) (heard i)) c in
          match (if counted (shared c) then r_note rd else None) with
          | Some (NoteGot n) => set_pc (Writing (DaemonNote n) ToTop) c
          | Some NoteLagged => loop_top c
          | Some NoteClosed => end_conn c
          | None => tap_lanes c
          end
      end
  end.

(** ** The environment *)

(** [Arrive]: the socket has more for the reader.  [Deliver]: a hub sends to one of its taps ([try_send]); [Detach]: it
    drops its taps ([detach_all]).  [OtherTap]: another connection opens a tap. *)
Inductive ConnOp :=
| PollSelect (rd : Ready)
| PollWrite (done : option bool) (verb : option (RpcError + Value))
| Arrive (fills : list Fill)
| Deliver (tap : Z) (bytes : list byte) (offset gap : Z)
| Detach (tap : Z) (endpoint : string) (reason : TapCloseReason)
| OtherTap.

(** Whether a hub holds the tap. *)
Definition attached (tap : Z) (t : Taps) : bool := bool_decide (tap ∈ c_open t) && negb (bool_decide (tap ∈ c_gone t)).

Definition deliver (m : TapMsg) (t : Taps) : Taps :=
  if 0 <? room t
  then mkTaps (c_open t) (c_gone t) (c_rx t ++ [m]) (c_closed_rx t) (c_queued t ++ [m]) (c_overflowed t) (c_ever t)
  else t.

(** The terminal event takes the unbounded lane when the queue is full. *)
Definition detach (tap : Z) (endpoint : string) (reason : TapCloseReason) (t : Taps) : Taps :=
  let m := Closed tap endpoint (reason_as_str reason) in
  if 0 <? room t
  then mkTaps (c_open t) (tap :: c_gone t) (c_rx t ++ [m]) (c_closed_rx t) (c_queued t ++ [m]) (c_overflowed t) (c_ever t)
  else mkTaps (c_open t) (tap :: c_gone t) (c_rx t) (c_closed_rx t ++ [m]) (c_queued t) (c_overflowed t ++ [m]) (c_ever t).

Definition conn_step (op : ConnOp) (c : Conn) : Conn :=
  match op with
  | PollSelect rd => match pc c with Selecting => select_turn rd c | _ => c end
  | PollWrite done verb => write_turn done verb c
  | Arrive fills =>
      let i := input c in set_input (mkInput (reader i) (socket i ++ fills) (arrived i ++ fills) (heard i)) c
  | Deliver tap bytes offset gap =>
      if attached tap (ctaps c) then set_taps (deliver (Data tap bytes offset gap) (ctaps c)) c else c
  | Detach tap endpoint reason =>
      if attached tap (ctaps c) then set_taps (detach tap endpoint reason (ctaps c)) c else c
  | OtherTap => let s := shared c in set_shared (mkShared (counted s) (subscribers s) (next_tap_id s + 1)) c
  end.

Definition conn_run (ops : list ConnOp) (c : Conn) : Conn := foldl (fun c op => conn_step op c) c ops.

(** ** What a connection owes *)

Definition dispatched (l : list Asked) : list Id :=
  omap (fun a => match a with Dispatched _ id => Some id | _ => None end) l.
Definition answered (l : list Asked) : list Response :=
  omap (fun a => match a with Answered _ r => Some r | _ => None end) l.

Definition verb_replies (w : list Out) : list Id :=
  omap (fun o => match o with VerbReply s => Some (st_id s) | _ => None end) w.
Definition now_replies (w : list Out) : list Response :=
  omap (fun o => match o with NowReply r _ => Some r | _ => None end) w.
Definition opens (w : list Out) : list Z :=
  omap (fun o => match o with NowReply _ opened => opened | _ => None end) w.
Definition tap_messages (terminal : bool) (w : list Out) : list TapMsg :=
  omap (fun o => match o with TapNote b m _ => if eqb b terminal then Some m else None | _ => None end) w.
Definition subscribed (w : list Out) : Prop := exists s, VerbReply s ∈ w /\ st_sub s = true.

(** The verbs read and not yet on their way to the client. *)
Definition flying (v : Verbs) : list Id :=
  from_option (fun s => [st_id s]) [] (settled v) ++ from_option (fun f => [fl_id f]) [] (inflight v).

(** The answer to a request carries the request's id, or none if it has none to give; the line over the cap has none. *)
Definition asked_ok (a : Asked) : Prop :=
  match a with
  | Dispatched line id => exists req, parse_incoming_request line = Ok req /\ req_id req = id
  | Answered (Some line) r =>
      match parse_incoming_request line with
      | Ok req => resp_id r = req_id req
      | Err e => r = error_without_id e
      | Panic => False
      end
  | Answered None r => r = error_without_id (rpc_error INVALID_REQUEST)
  end.

(** What must be on the wire before a line goes out: the reply that opened its tap, or the reply to a [subscribe]. *)
Definition enabled (before : list Out) (o : Out) : Prop :=
  match o with
  | TapNote _ m n => msg_tap m ∈ opens before /\ tap_notification m = Ok n
  | DaemonNote _ => subscribed before
  | VerbReply _ | NowReply _ _ => True
  end.

Definition in_order (w : list Out) : Prop := forall before o after, w = before ++ o :: after -> enabled before o.

(** The terminal events of a list of messages. *)
Definition notices (ms : list TapMsg) : list Z :=
  omap (fun m => match m with Closed t _ _ => Some t | Data _ _ _ _ => None end) ms.

(** The account of a connection with the lines [out] in its hand, of a daemon that had [subs] subscribers. *)
Record acct (subs : Z) (c : Conn) (out : list Out) : Prop := {
  a_verbs : dispatched (asked (verbs c)) = verb_replies (wire c ++ out) ++ flying (verbs c);
  a_answers : answered (asked (verbs c)) = now_replies (wire c ++ out);
  a_one : inflight (verbs c) = None \/ settled (verbs c) = None;
  a_asked : Forall asked_ok (asked (verbs c));
  a_queue : c_queued (ctaps c) = tap_messages false (wire c ++ out) ++ c_rx (ctaps c);
  a_overflow : c_overflowed (ctaps c) = tap_messages true (wire c ++ out) ++ c_closed_rx (ctaps c);
  a_room : 0 <= room (ctaps c);
  a_opens : opens (wire c ++ out) = c_ever (ctaps c);
  a_ids : NoDup (c_ever (ctaps c)) /\ Forall (fun t => t < next_tap_id (shared c)) (c_ever (ctaps c));
  a_known : Forall (fun m => msg_tap m ∈ c_ever (ctaps c)) (c_queued (ctaps c) ++ c_overflowed (ctaps c));
  a_open : forall t, t ∈ c_open (ctaps c) -> t ∈ c_ever (ctaps c);
  a_notices : notices (c_queued (ctaps c) ++ c_overflowed (ctaps c)) ≡ₚ c_gone (ctaps c) /\ NoDup (c_gone (ctaps c));
  a_order : in_order (wire c ++ out);
  a_counted : counted (shared c) = true -> subscribed (wire c);
  a_subs : subscribers (shared c) = subs + (if counted (shared c) then 1 else 0) }.

(** What remains of the account when the connection has ended: one verb, one answer may be owed for ever. *)
Record farewell (subs : Z) (c : Conn) : Prop := {
  e_verbs : exists rest, dispatched (asked (verbs c)) = verb_replies (wire c) ++ rest /\ len rest <= 1;
  e_answers : exists rest, answered (asked (verbs c)) = now_replies (wire c) ++ rest /\ len rest <= 1;
  e_asked : Forall asked_ok (asked (verbs c));
  e_queue : tap_messages false (wire c) `prefix_of` c_queued (ctaps c);
  e_overflow : tap_messages true (wire c) `prefix_of` c_overflowed (ctaps c);
  e_order : in_order (wire c);
  e_gone : inflight (verbs c) = None /\ settled (verbs c) = None /\ c_open (ctaps c) = [];
  e_subs : counted (shared c) = false /\ subscribers (shared c) = subs }.

(** What is written with which continuation. *)
Definition writing_ok (c : Conn) (o : Out) (k : After) : Prop :=
  match k with
  | ToSelect sub => inflight (verbs c) = None /\ settled (verbs c) = None /\ exists s, o = VerbReply s /\ sub = st_sub s
  | ToTop | ToBreak => forall s, o <> VerbReply s
  end.

Definition conn_inv (subs : Z) (c : Conn) : Prop :=
  match pc c with
  | Selecting => acct subs c [] /\ settled (verbs c) = None
  | Writing o k => acct subs c [o] /\ writing_ok c o k
  | Ended => farewell subs c
  end.

End conn.

#[global] Arguments Out {J} N.
#[global] Arguments Conn {J} N.
#[global] Arguments ConnOp {J} N.

(** ** Lemmas: accounts *)

Create Rewrite HintDb conn_app.

Section lemmas.
Context `{J : Json} {N : Type} (closed_json : Z -> Value) (subs : Z).
Implicit Types (c : Conn N) (o : Out N) (w : list (Out N)).

#[local] Arguments verb_replies {J N} w : simpl never.
#[local] Arguments now_replies {J N} w : simpl never.
#[local] Arguments opens {J N} w : simpl never.
#[local] Arguments tap_messages {J N} terminal w : simpl never.
#[local] Arguments dispatched {J} l : simpl never.
#[local] Arguments answered {J} l : simpl never.
#[local] Arguments notices ms : simpl never.

Lemma verb_replies_app w k : verb_replies (w ++ k) = verb_replies w ++ verb_replies k.
Proof. apply omap_app. Qed.
Lemma now_replies_app w k : now_replies (w ++ k) = now_replies w ++ now_replies k.
Proof. apply omap_app. Qed.
Lemma opens_app w k : opens (w ++ k) = opens w ++ opens k.
Proof. apply omap_app. Qed.
Lemma tap_messages_app b w k : tap_messages b (w ++ k) = tap_messages b w ++ tap_messages b k.
Proof. apply omap_app. Qed.
Lemma dispatched_app (l k : list Asked) : dispatched (l ++ k) = dispatched l ++ dispatched k.
Proof. apply omap_app. Qed.
Lemma answered_app (l k : list Asked) : answered (l ++ k) = answered l ++ answered k.
Proof. apply omap_app. Qed.
Lemma notices_app l k : notices (l ++ k) = notices l ++ notices k.
Proof. apply omap_app. Qed.

Lemma verb_replies_snoc w o :
  verb_replies (w ++ [o]) = verb_replies w ++ match o with VerbReply s => [st_id s] | _ => [] end.
Proof. rewrite verb_replies_app. by destruct o. Qed.
Lemma now_replies_snoc w o : now_replies (w ++ [o]) = now_replies w ++ match o with NowReply r _ => [r] | _ => [] end.
Proof. rewrite now_replies_app. by destruct o. Qed.
Lemma opens_snoc w o : opens (w ++ [o]) = opens w ++ match o with NowReply _ (Some t) => [t] | _ => [] end.
Proof. rewrite opens_app. by destruct o as [|? []| |]. Qed.
Lemma tap_messages_snoc b w o :
  tap_messages b (w ++ [o]) = tap_messages b w ++ match o with TapNote d m _ => if eqb d b then [m] else [] | _ => [] end.
Proof. rewrite tap_messages_app. destruct o as [| | |d]; try done. unfold tap_messages. cbn. by destruct (eqb d b). Qed.
Lemma dispatched_snoc (l : list Asked) a : dispatched (l ++ [a]) = dispatched l ++ match a with Dispatched _ id => [id] | _ => [] end.
Proof. rewrite dispatched_app. by destruct a. Qed.
Lemma answered_snoc (l : list Asked) a : answered (l ++ [a]) = answered l ++ match a with Answered _ r => [r] | _ => [] end.
Proof. rewrite answered_app. by destruct a. Qed.

#[local] Hint Rewrite verb_replies_snoc now_replies_snoc opens_snoc tap_messages_snoc dispatched_snoc answered_snoc : conn_app.

(** Compute the accounts of a list with one more element. *)
#[local] Ltac snoc := autorewrite with conn_app; cbn; rewrite ?app_nil_r.

Lemma in_order_snoc w o : in_order w -> enabled w o -> in_order (w ++ [o]).
Proof.
  intros I E before x after H. destruct (decide (after = [])) as [->|Hne].
  - by apply app_inj_tail in H as [<- <-].
  - destruct (exists_last Hne) as (k & y & ->). rewrite app_comm_cons, app_assoc in H.
    apply app_inj_tail in H as [H _]. by apply (I before x k).
Qed.

Lemma in_order_app w k : in_order (w ++ k) -> in_order w.
Proof. intros I before o after ->. apply (I before o (after ++ k)). by rewrite <- app_assoc. Qed.

Lemma subscribed_app w k : subscribed w -> subscribed (w ++ k).
Proof. intros (s & H & E). exists s. split; [apply elem_of_app; by left|done]. Qed.

(** The account does not look at the program counter, the reader or the ids of other connections. *)
Lemma acct_pc p c out : acct subs c out -> acct subs (set_pc p c) out.
Proof. intros []. by split. Qed.

Lemma acct_input i c out : acct subs c out -> acct subs (set_input i c) out.
Proof. intros []. by split. Qed.

Lemma acct_written c o :
  acct subs c [o] -> acct subs (mkConn (input c) (verbs c) (ctaps c) (shared c) (pc c) (wire c ++ [o])) [].
Proof. intros []. split; cbn; rewrite ?app_nil_r; try done. auto using subscribed_app. Qed.

Lemma acct_settle f r c out : acct subs c out -> inflight (verbs c) = Some f -> acct subs (settle f r c) out.
Proof.
  intros [] Hf. assert (Hs : settled (verbs c) = None) by (destruct a_one0; congruence).
  split; cbn; try done; [|by left]. by rewrite a_verbs0; unfold flying; rewrite Hs, Hf.
Qed.

Lemma end_conn_inv c out :
  acct subs c out -> len (verb_replies out ++ flying (verbs c)) <= 1 -> len (now_replies out) <= 1 ->
  conn_inv subs (end_conn c).
Proof.
  intros [] Hv Ha. unfold conn_inv, end_conn; cbn. split; cbn; try done.
  - eexists. split; [|exact Hv]. by rewrite a_verbs0, verb_replies_app, <- app_assoc.
  - eexists. split; [|exact Ha]. by rewrite a_answers0, now_replies_app.
  - rewrite a_queue0, tap_messages_app, <- app_assoc. by eexists.
  - rewrite a_overflow0, tap_messages_app, <- app_assoc. by eexists.
  - by eapply in_order_app.
  - split; [done|]. destruct (counted (shared c)); lia.
Qed.

Lemma flying_one c : inflight (verbs c) = None \/ settled (verbs c) = None -> len (flying (verbs c)) <= 1.
Proof. intros H. unfold flying. destruct (inflight _), (settled _); cbn; try done; by destruct H. Qed.

Lemma end_idle c : acct subs c [] -> conn_inv subs (end_conn c).
Proof. intros A. eapply end_conn_inv; [done|apply flying_one, A|done]. Qed.

(** A line of no account of its own: a notification. *)
Lemma acct_note c o :
  acct subs c [] -> enabled (wire c) o -> (exists n, o = DaemonNote n) -> acct subs c [o].
Proof.
  intros [] E (n & ->). rewrite app_nil_r in *. split; snoc; try done. by apply in_order_snoc.
Qed.

Lemma loop_top_inv c : acct subs c [] -> conn_inv subs (loop_top c).
Proof.
  intros A. unfold loop_top. destruct (settled (verbs c)) as [d|] eqn:Hs; [|by split; [apply acct_pc|]].
  destruct A. assert (Hf : inflight (verbs c) = None) by (destruct a_one0; congruence). rewrite app_nil_r in *.
  split; cbn; [|split_and!; [done..|by exists d]].
  split; cbn; snoc; try done.
  - rewrite a_verbs0. unfold flying. rewrite Hs, Hf. cbn. by rewrite app_nil_r.
  - by left.
  - by apply in_order_snoc.
Qed.

Lemma write_done_inv out k ok c :
  acct subs c [out] -> writing_ok c out k -> conn_inv subs (write_done out k ok c).
Proof.
  intros A K. unfold write_done. destruct ok.
  - apply acct_written in A. set (c' := mkConn _ _ _ _ _ _) in *. destruct k as [|sub|].
    + by apply loop_top_inv.
    + destruct K as (_ & Hs & s & -> & ->). split; [|by destruct (st_sub s)]. apply acct_pc.
      destruct (st_sub s) eqn:E; [|done]. destruct A. split; try done; cbn; unfold tally_subscribe;
        destruct (counted (shared c)) eqn:C; cbn; try done; rewrite ?C; cbn; try done.
      * intros _. exists s. split; [apply elem_of_app; right; by left|done].
      * cbn in a_subs0. rewrite C in a_subs0. lia.
    + by apply end_idle.
  - assert (V : len (verb_replies [out] ++ flying (verbs c)) <= 1).
    { destruct A. pose proof (flying_one c a_one0). destruct out as [s| | |]; try exact H.
      destruct k as [|sub|]; [by destruct (K s)| |by destruct (K s)]. unfold flying. by destruct K as (-> & -> & _). }
    eapply end_conn_inv; [done..|]. by destruct out.
Qed.

Lemma answer_now_inv line r k c :
  acct subs c [] -> asked_ok (Answered line r) -> (k = ToTop \/ k = ToBreak) -> conn_inv subs (answer_now line r None k c).
Proof.
  intros [] H K. rewrite app_nil_r in *. split; cbn; [|by destruct K as [-> | ->]].
  split; cbn; snoc; try done.
  - by rewrite a_answers0.
  - apply Forall_app. by repeat constructor.
  - by apply in_order_snoc.
Qed.

Lemma fresh_tap c out : acct subs c out -> next_tap_id (shared c) ∉ c_ever (ctaps c).
Proof. intros [] H. destruct a_ids0 as [_ I]. rewrite Forall_forall in I. apply I in H. lia. Qed.

Lemma notices_data t off l : notices ((fun p : list byte * Z => Data t p.1 p.2 off) <$> l) = [].
Proof. by induction l. Qed.

(** A [tap.open]: its messages wait behind its reply. *)
Lemma tap_open_inv a line id c :
  acct subs c [] -> (exists req, parse_incoming_request line = Ok req /\ req_id req = id) ->
  conn_inv subs (let '(c, r, opened) := tap_open a id c in answer_now (Some line) r opened ToTop c).
Proof.
  intros A (req & P & I). destruct a as [e|v replay]; [apply answer_now_inv; [done| |by left]; cbn; by rewrite P|].
  pose proof (fresh_tap c [] A) as Fr. destruct A. cbn. set (tap := next_tap_id (shared c)) in *.
  set (l := take _ _). rewrite app_nil_r in *.
  assert (Hl : exists l', l = (fun p : list byte * Z => Data tap p.1 p.2 0) <$> l').
  { exists (take (Z.to_nat (room (ctaps c))) replay). subst l. by rewrite fmap_take. }
  assert (Hn : len l <= room (ctaps c)).
  { subst l. unfold len. rewrite length_take. lia. }
  clearbody l. destruct Hl as [l' ->].
  assert (K : Forall (fun m => msg_tap m = tap) ((fun p : list byte * Z => Data tap p.1 p.2 0) <$> l')).
  { apply Forall_fmap, Forall_true. done. }
  split; cbn; [|done]. split; cbn; snoc; try done.
  - by rewrite a_answers0.
  - apply Forall_app. split; [done|]. constructor; [|done]. cbn. by rewrite P.
  - by rewrite a_queue0, app_assoc.
  - unfold room in *. cbn. rewrite len_app. lia.
  - by rewrite a_opens0.
  - destruct a_ids0 as [ND F]. split; [apply NoDup_app; split_and!; [done|set_solver|apply NoDup_singleton]|]. apply Forall_app. split; [|constructor; [subst tap; lia|done]].
    eapply Forall_impl; [exact F|]. cbn. lia.
  - rewrite !Forall_app in *. destruct a_known0 as [K1 K2]. split_and!; eapply Forall_impl; try eassumption; cbn; set_solver.
  - intros t [H|H%list_elem_of_singleton]%elem_of_app; set_solver.
  - rewrite !notices_app, notices_data, app_nil_r, <- notices_app. done.
  - by apply in_order_snoc.
Qed.

Lemma elem_of_remove_first x y l : x ∈ remove_first y l -> x ∈ l.
Proof. induction l as [|z l IH]; cbn; [done|]. destruct (y =? z); set_solver. Qed.

Lemma tap_close_inv p line id c :
  acct subs c [] -> (exists req, parse_incoming_request line = Ok req /\ req_id req = id) ->
  conn_inv subs (let '(c, r) := tap_close closed_json p id c in answer_now (Some line) r None ToTop c).
Proof.
  intros A (req & P & I). unfold tap_close.
  destruct (_ ≫= as_u64) as [tap|]; [|apply answer_now_inv; [done| |by left]; cbn; by rewrite P].
  case_if; [|apply answer_now_inv; [done| |by left]; cbn; by rewrite P].
  apply answer_now_inv; [|cbn; rewrite P; by case_if|by left]. destruct A. split; try done. cbn.
  intros t H%elem_of_remove_first. by apply a_open0.
Qed.

Lemma attached_true t (ts : Taps) : attached t ts = true -> t ∈ c_open ts /\ t ∉ c_gone ts.
Proof. unfold attached. intros. by split_bools. Qed.

Lemma deliver_acct t bytes off gap c out :
  acct subs c out -> t ∈ c_open (ctaps c) -> acct subs (set_taps (deliver (Data t bytes off gap) (ctaps c)) c) out.
Proof.
  intros [] H. unfold deliver. destruct (Z.ltb_spec 0 (room (ctaps c))); [|by split].
  split; cbn; try done.
  - by rewrite a_queue0, app_assoc.
  - unfold room in *. cbn [c_rx]. rewrite len_app. change (len [_]) with 1. lia.
  - rewrite !Forall_app in *. split_and!; try apply a_known0. constructor; [by apply a_open0|done].
  - rewrite !notices_app in *. cbn. by rewrite app_nil_r.
Qed.

Lemma detach_acct t endpoint reason c out :
  acct subs c out -> t ∈ c_open (ctaps c) -> t ∉ c_gone (ctaps c) ->
  acct subs (set_taps (detach t endpoint reason (ctaps c)) c) out.
Proof.
  intros [] H G. destruct a_notices0 as [Np Nd]. rewrite notices_app in Np. unfold detach.
  destruct (Z.ltb_spec 0 (room (ctaps c))); split; cbn; try done.
  - by rewrite a_queue0, app_assoc.
  - unfold room in *. cbn [c_rx]. rewrite len_app. change (len [_]) with 1. lia.
  - rewrite !Forall_app in *. split_and!; try apply a_known0. constructor; [by apply a_open0|done].
  - rewrite !notices_app. split; [|by constructor]. rewrite <- Np. cbn. solve_Permutation.
  - by rewrite a_overflow0, app_assoc.
  - rewrite !Forall_app in *. split_and!; try apply a_known0. constructor; [by apply a_open0|done].
  - rewrite !notices_app. split; [|by constructor]. rewrite <- Np. cbn. solve_Permutation.
Qed.

(** ** Lemmas: a poll *)

Lemma on_request_inv a line c : acct subs c [] -> settled (verbs c) = None -> conn_inv subs (on_request closed_json a line c).
Proof.
  intros A Hs. pose proof (parse_incoming_request_total line) as T. unfold on_request.
  destruct (bool_decide_reflect (is_Some (inflight (verbs c)))) as [_|Hf].
  - apply answer_now_inv; [done| |by left]. cbn. by destruct (parse_incoming_request line).
  - destruct (parse_incoming_request line) as [req|e|] eqn:P; [|apply answer_now_inv; [done|cbn; by rewrite P|by left]|done].
    case_if; [apply tap_open_inv; eauto|]. case_if; [apply tap_close_inv; eauto|].
    assert (Hi : inflight (verbs c) = None) by (destruct (inflight (verbs c)); [by destruct Hf|done]).
    apply loop_top_inv. destruct A. rewrite app_nil_r in *. split; cbn; snoc; try done.
    + rewrite a_verbs0. unfold flying. rewrite Hi, Hs. cbn. by rewrite app_nil_r.
    + by right.
    + apply Forall_app. split; [done|]. constructor; [by exists req|done].
Qed.

Lemma on_line_inv a res c : acct subs c [] -> settled (verbs c) = None -> conn_inv subs (on_line closed_json a res c).
Proof.
  intros A Hs. destruct res as [[line| |]|e|]; cbn; try by apply end_idle.
  - case_if; [by apply loop_top_inv|by apply on_request_inv].
  - apply answer_now_inv; [done..|by right].
Qed.

Lemma tap_notification_total m : exists n, tap_notification m = Ok n.
Proof.
  destruct m as [t bytes off gap|]; cbn; [|eauto]. unfold base64_encode.
  destruct (encode_chunks_reads bytes) as (out & E & _). rewrite E. cbn. eauto.
Qed.

Lemma tap_lanes_inv c : pc c = Selecting -> acct subs c [] -> settled (verbs c) = None -> conn_inv subs (tap_lanes c).
Proof.
  intros Hp A Hs. unfold tap_lanes, write_tap.
  assert (K : forall m, m ∈ c_queued (ctaps c) \/ m ∈ c_overflowed (ctaps c) -> msg_tap m ∈ opens (wire c)).
  { intros m Hm. destruct A. rewrite app_nil_r in *. rewrite a_opens0. rewrite Forall_forall in a_known0.
    apply a_known0. by apply elem_of_app. }
  destruct (c_closed_rx (ctaps c)) as [|m q] eqn:C; [destruct (c_rx (ctaps c)) as [|m q] eqn:R|].
  - unfold conn_inv. by rewrite Hp.
  - destruct (tap_notification_total m) as (n & E). rewrite E. destruct A. rewrite app_nil_r in *.
    assert (E' : enabled (wire c) (TapNote false m n)).
    { split; [|done]. apply K. left. rewrite a_queue0, R. set_solver. }
    split; [|done]. split; cbn; snoc; try done.
    + by rewrite a_queue0, R, <- app_assoc.
    + by rewrite a_overflow0, C, app_nil_r.
    + unfold room in *. cbn [c_rx]. rewrite R, len_cons in a_room0. lia.
    + by apply in_order_snoc.
  - destruct (tap_notification_total m) as (n & E). rewrite E. destruct A. rewrite app_nil_r in *.
    assert (E' : enabled (wire c) (TapNote true m n)).
    { split; [|done]. apply K. right. rewrite a_overflow0, C. set_solver. }
    split; [|done]. split; cbn; snoc; try done.
    + by rewrite a_overflow0, C, <- app_assoc.
    + by apply in_order_snoc.
Qed.

Lemma select_turn_inv rd c :
  pc c = Selecting -> acct subs c [] -> settled (verbs c) = None -> conn_inv subs (select_turn closed_json rd c).
Proof.
  intros Hp A Hs. unfold select_turn.
  assert (L : conn_inv subs (
      let i := input c in
      match next_line (reader i) (socket i) with
      | (r, rest, Some res) => on_line closed_json (r_tap rd) res (set_input (mkInput r rest (arrived i) (heard i ++ [res])) c)
      | (r, rest, None) =>
          let c := set_input (mkInput r rest (arrived i) (heard i)) c in
          match (if counted (shared c) then r_note rd else None) with
          | Some (NoteGot n) => set_pc (Writing (DaemonNote n) ToTop) c
          | Some NoteLagged => loop_top c
          | Some NoteClosed => end_conn c
          | None => tap_lanes c
          end
      end)).
  { cbv zeta. destruct (next_line _ _) as [[r rest] [res|]]; [by apply on_line_inv; [apply acct_input|]|].
    apply (acct_input (mkInput r rest (arrived (input c)) (heard (input c)))) in A. set (c' := set_input _ c) in *.
    destruct (if counted (shared c') then r_note rd else None) as [[n| |]|] eqn:E.
    - split; [|done]. apply acct_pc, acct_note; [done| |by exists n]. cbn in *. apply A. cbn. by destruct (counted (shared c)).
    - by apply loop_top_inv.
    - by apply end_idle.
    - by apply tap_lanes_inv. }
  destruct (inflight (verbs c)) as [f|] eqn:Hf; [|exact L]. destruct (r_verb rd) as [r|]; [|exact L].
  apply loop_top_inv. by apply acct_settle.
Qed.

Lemma conn_step_inv op c : conn_inv subs c -> conn_inv subs (conn_step closed_json op c).
Proof.
  intros I. destruct op as [rd|done verb|fills|t bytes off gap|t endpoint reason|]; cbn [conn_step].
  - unfold conn_inv in I. destruct (pc c) eqn:P; [|by unfold conn_inv; rewrite P..]. destruct I. by apply select_turn_inv.
  - unfold write_turn. unfold conn_inv in I. destruct (pc c) as [|o k|] eqn:P; try by (unfold conn_inv; rewrite P).
    destruct I as [A K]. destruct done as [ok|]; [by apply write_done_inv|].
    destruct (inflight (verbs c)) as [f|] eqn:Hf, verb as [r|]; try by (unfold conn_inv; rewrite P).
    unfold conn_inv. cbn. rewrite P. split; [by apply acct_settle|]. destruct k as [|sub|]; try done.
    destruct K as (K & _). congruence.
  - unfold conn_inv in *. cbn. destruct (pc c); [by destruct I; split; [apply acct_input|]..|]. by destruct I.
  - destruct (attached t (ctaps c)) eqn:At; [|done]. apply attached_true in At as [Ho Hg].
    unfold conn_inv in *. cbn. destruct (pc c); [by destruct I; split; [apply deliver_acct|]..|].
    destruct I. by rewrite (proj2 (proj2 e_gone0)) in Ho; apply elem_of_nil in Ho.
  - destruct (attached t (ctaps c)) eqn:At; [|done]. apply attached_true in At as [Ho Hg].
    unfold conn_inv in *. cbn. destruct (pc c); [by destruct I; split; [apply detach_acct|]..|].
    destruct I. by rewrite (proj2 (proj2 e_gone0)) in Ho; apply elem_of_nil in Ho.
  - assert (O : forall out, acct subs c out ->
      acct subs (set_shared (mkShared (counted (shared c)) (subscribers (shared c)) (next_tap_id (shared c) + 1)) c) out).
    { intros out []. split; try done. split; [apply a_ids0|]. eapply Forall_impl; [apply a_ids0|]. cbn. lia. }
    unfold conn_inv in *. cbn. destruct (pc c); [by destruct I; split; [apply O|]..|]. by destruct I.
Qed.

Lemma conn_run_inv ops c : conn_inv subs c -> conn_inv subs (conn_run closed_json ops c).
Proof. revert c. induction ops as [|op ops IH]; intros c I; [done|]. by apply IH, conn_step_inv. Qed.

Lemma conn_new_inv next : conn_inv subs (conn_new (N := N) subs next).
Proof.
  split; [|done]. split; cbn; try done; try (by left).
  - split; constructor.
  - split; [done|constructor].
  - intros before o after H. by destruct before.
  - lia.
Qed.

(** ** Lemmas: what is heard *)

(** Neither the reader nor the requests read change. *)
Definition same (c c' : Conn N) : Prop := input c' = input c /\ asked (verbs c') = asked (verbs c).

Lemma same_loop_top c : same c (loop_top c).
Proof. unfold loop_top. by destruct (settled _). Qed.
Lemma same_end c : same c (end_conn c).
Proof. done. Qed.
Lemma same_write_done o k ok c : same c (write_done o k ok c).
Proof. unfold write_done. destruct ok, k as [|[]|]; try done.
  match goal with |- same _ (loop_top ?x) => exact (same_loop_top x) end.
Qed.
Lemma same_tap_lanes c : same c (tap_lanes c).
Proof. unfold tap_lanes, write_tap. by repeat case_match. Qed.
Lemma same_tap_open a id c : same c (tap_open a id c).1.1.
Proof. by destruct a. Qed.
Lemma same_tap_close p id c : same c (tap_close closed_json p id c).1.
Proof. unfold tap_close. by repeat case_match. Qed.

(** The line a request was. *)
Definition asked_line (a : Asked) : option string :=
  match a with Dispatched line _ => Some line | Answered line _ => line end.

(** The requests among what the reader reports: blank lines are none. *)
Definition requests (l : list (exec LineError LineRead)) : list (option string) :=
  omap (fun res => match res with
                   | Ok (Line line) => if bool_decide (trim line = ""%string) then None else Some (Some line)
                   | Ok TooLong => Some None
                   | _ => None
                   end) l.

Lemma on_line_asks a res c :
  input (on_line closed_json a res c) = input c
  /\ asked_line <$> asked (verbs (on_line closed_json a res c)) = (asked_line <$> asked (verbs c)) ++ requests [res].
Proof.
  assert (Now : forall line r opened k c', same c c' ->
    input (answer_now line r opened k c') = input c
    /\ asked_line <$> asked (verbs (answer_now line r opened k c')) = (asked_line <$> asked (verbs c)) ++ [line]).
  { intros line r opened k c' [I A]. cbn. by rewrite I, A, fmap_app. }
  destruct res as [[line| |]|e|]; cbn -[answer_now loop_top asked]; rewrite ?app_nil_r; try done; [|by apply Now].
  case_bool_decide; [destruct (same_loop_top c) as [-> ->]; by rewrite app_nil_r|].
  pose proof (parse_incoming_request_total line) as T. unfold on_request.
  destruct (bool_decide (is_Some _)); [by apply Now|].
  destruct (parse_incoming_request line) as [req|e|]; [|by apply Now|done].
  case_bool_decide.
  - pose proof (same_tap_open a (req_id req) c) as S. destruct (tap_open a _ c) as [[c' r] o]. by apply Now.
  - case_bool_decide.
    + pose proof (same_tap_close (params req) (req_id req) c) as S. destruct (tap_close _ _ _ c) as [c' r]. by apply Now.
    + match goal with |- context [loop_top ?x] => destruct (same_loop_top x) as [-> ->] end. cbn. by rewrite fmap_app.
Qed.

(** What the connection has heard is what a reader of everything that arrived reports first, and its requests are
    the requests of that. *)
Record hearing (c : Conn N) : Prop := {
  h_stream : forall later fuel,
    read_lines (length (heard (input c)) + fuel) lines_new (arrived (input c) ++ later) =
    heard (input c) ++ (if forallb is_line (heard (input c))
                        then read_lines fuel (reader (input c)) (socket (input c) ++ later) else []);
  h_lines : match pc c with
            | Selecting | Writing _ (ToTop | ToSelect _) => forallb is_line (heard (input c)) = true
            | _ => True
            end;
  h_asked : asked_line <$> asked (verbs c) = requests (heard (input c)) }.

Lemma next_line_later r fills later r' rest res :
  next_line r fills = (r', rest, Some res) -> next_line r (fills ++ later) = (r', rest ++ later, Some res).
Proof.
  assert (F : forall r, read_fills r fills = (r', rest, Some res) -> read_fills r (fills ++ later) = (r', rest ++ later, Some res)).
  { induction fills as [|[[|x b]|] fills IH]; intros q; cbn; try done.
    - destruct (eof_turn q). by intros [= -> -> ->].
    - destruct (line_turn q (x :: b)) as [q' [z|]]; [by intros [= -> -> ->]|apply IH].
    - by intros [= -> -> ->]. }
  unfold next_line. destruct (available r) as [|x b]; [apply F|].
  destruct (line_turn r (x :: b)) as [q [z|]]; [by intros [= -> -> ->]|apply F].
Qed.

Lemma next_line_suspended r fills r' rest : next_line r fills = (r', rest, None) -> rest = [].
Proof.
  assert (F : forall r, read_fills r fills = (r', rest, None) -> rest = []).
  { induction fills as [|[[|x b]|] fills IH]; intros q; cbn; try done; [by intros [= _ <-]|by destruct (eof_turn q)|].
    destruct (line_turn q (x :: b)) as [q' [z|]]; [done|apply IH]. }
  unfold next_line. destruct (available r) as [|x b]; [apply F|].
  destruct (line_turn r (x :: b)) as [q [z|]]; [done|apply F].
Qed.

Lemma pc_any (p : Pc (N := N)) (P : Prop) : P -> match p with Selecting | Writing _ (ToTop | ToSelect _) => P | _ => True end.
Proof. by destruct p as [|? []|]. Qed.

(** A step that reads nothing. *)
Lemma hearing_same c c' :
  hearing c -> same c c' ->
  (match pc c' with Selecting | Writing _ (ToTop | ToSelect _) => forallb is_line (heard (input c)) = true | _ => True end) ->
  hearing c'.
Proof. intros [] [I A] L. split; rewrite I; [done|done|by rewrite A]. Qed.

Lemma hearing_ended c c' : hearing c -> same c c' -> pc c' = Ended -> hearing c'.
Proof. intros H S P. apply (hearing_same c); [done..|by rewrite P]. Qed.

(** A call of [next_line] from the [select!]. *)
Lemma hearing_heard a c r rest res :
  hearing c -> forallb is_line (heard (input c)) = true -> next_line (reader (input c)) (socket (input c)) = (r, rest, Some res) ->
  hearing (on_line closed_json a res (set_input (mkInput r rest (arrived (input c)) (heard (input c) ++ [res])) c)).
Proof.
  intros [] L E. set (c' := set_input _ c). destruct (on_line_asks a res c') as [I A].
  assert (F : forallb is_line (heard (input c) ++ [res]) = is_line res) by (rewrite forallb_app, L; cbn; by rewrite andb_true_r).
  split; rewrite ?I; cbn.
  - intros later fuel. rewrite F, length_app. cbn.
    replace (length (heard (input c)) + 1 + fuel)%nat with (length (heard (input c)) + S fuel)%nat by lia.
    rewrite h_stream0, L, <- app_assoc. f_equal. cbn [read_lines]. rewrite (next_line_later _ _ later _ _ _ E).
    by destruct (is_line res).
  - rewrite F. destruct res as [[line| |]|e|]; cbn; by repeat case_match.
  - rewrite A. unfold c'. cbn [verbs set_input]. rewrite h_asked0. symmetry. apply omap_app.
Qed.

Lemma hearing_silent c r rest :
  hearing c -> forallb is_line (heard (input c)) = true -> next_line (reader (input c)) (socket (input c)) = (r, rest, None) ->
  hearing (set_input (mkInput r rest (arrived (input c)) (heard (input c))) c).
Proof.
  intros [] L E. pose proof (next_line_suspended _ _ _ _ E) as ->. split; cbn; [|done|done].
  intros later fuel. rewrite h_stream0, L. f_equal. destruct fuel as [|fuel]; [done|]. cbn [read_lines].
  by rewrite (next_line_cancel_safe _ _ later _ E).
Qed.

Lemma conn_step_hears op c : hearing c -> hearing (conn_step closed_json op c).
Proof.
  intros H. destruct op as [rd|done verb|fills|t bytes off gap|t endpoint reason|]; cbn [conn_step].
  - destruct (pc c) eqn:P; [|done..]. pose proof (h_lines c H) as L. rewrite P in L. unfold select_turn.
    assert (V : forall f r, hearing (loop_top (settle f r c))).
    { intros f r. apply (hearing_same c); [done|exact (same_loop_top (settle f r c))|].
      by apply pc_any. }
    assert (K : hearing (
      let i := input c in
      match next_line (reader i) (socket i) with
      | (r, rest, Some res) => on_line closed_json (r_tap rd) res (set_input (mkInput r rest (arrived i) (heard i ++ [res])) c)
      | (r, rest, None) =>
          let c := set_input (mkInput r rest (arrived i) (heard i)) c in
          match (if counted (shared c) then r_note rd else None) with
          | Some (NoteGot n) => set_pc (Writing (DaemonNote n) ToTop) c
          | Some NoteLagged => loop_top c
          | Some NoteClosed => end_conn c
          | None => tap_lanes c
          end
      end)).
    { cbv zeta. destruct (next_line _ _) as [[r rest] [res|]] eqn:E; [by apply hearing_heard|].
      pose proof (hearing_silent _ _ _ H L E) as H'. set (c' := set_input _ c) in *.
      destruct (if counted (shared c') then r_note rd else None) as [[n| |]|].
      - by apply (hearing_same c').
      - apply (hearing_same c'); [done|apply same_loop_top|by apply pc_any].
      - by apply (hearing_ended c').
      - apply (hearing_same c'); [done|apply same_tap_lanes|by apply pc_any]. }
    destruct (inflight (verbs c)) as [f|]; [|exact K]. destruct (r_verb rd) as [r|]; [apply V|exact K].
  - unfold write_turn. destruct (pc c) as [|o k|] eqn:P; [done| |done]. pose proof (h_lines c H) as L. rewrite P in L.
    destruct done as [ok|].
    + apply (hearing_same c); [done|apply same_write_done|]. unfold write_done. destruct ok; [|done].
      destruct k; [by apply pc_any..|done].
    + destruct (inflight (verbs c)), verb; try done. apply (hearing_same c); [done..|]. cbn. by rewrite P.
  - destruct H. split; cbn; [|done|done]. intros later fuel. by rewrite <- !app_assoc.
  - destruct (attached t (ctaps c)); [|done]. by apply (hearing_same c); [| |apply H].
  - destruct (attached t (ctaps c)); [|done]. by apply (hearing_same c); [| |apply H].
  - by apply (hearing_same c); [| |apply H].
Qed.

Lemma conn_run_hears ops next : hearing (conn_run closed_json ops (conn_new (N := N) subs next)).
Proof.
  unfold conn_run. assert (H : hearing (conn_new (N := N) subs next)) by (by split). revert H. generalize (conn_new (N := N) subs next).
  induction ops as [|op ops IH]; intros c H; [done|]. by apply IH, conn_step_hears.
Qed.

(** ** Theorems *)

(** C13: Every request a connection reads is answered: with its own id, once, and the verbs that ran in the order they were
    read, as are the requests answered where they were read (refused behind a verb in flight, malformed, or on taps).
    At most one verb is outstanding, and what is outstanding is in flight, settled or being written; nothing is lost but
    with the connection itself. *)
Theorem conn_replies_exact ops next :
  let c := conn_run closed_json ops (conn_new (N := N) subs next) in
  Forall asked_ok (asked (verbs c))
  /\ asked_line <$> asked (verbs c) = requests (heard (input c))
  /\ len (flying (verbs c)) <= 1
  /\ match pc c with
     | Selecting => dispatched (asked (verbs c)) = verb_replies (wire c) ++ flying (verbs c)
                    /\ answered (asked (verbs c)) = now_replies (wire c)
     | Writing o _ => dispatched (asked (verbs c)) = verb_replies (wire c ++ [o]) ++ flying (verbs c)
                      /\ answered (asked (verbs c)) = now_replies (wire c ++ [o])
     | Ended => exists v a, dispatched (asked (verbs c)) = verb_replies (wire c) ++ v /\ len v <= 1
                            /\ answered (asked (verbs c)) = now_replies (wire c) ++ a /\ len a <= 1
     end.
Proof.
  intros c. pose proof (h_asked c (conn_run_hears ops next)) as H.
  assert (I : conn_inv subs c) by apply conn_run_inv, conn_new_inv. unfold conn_inv in I. destruct (pc c) as [|o k|].
  - destruct I as [[] _]. rewrite app_nil_r in *. split_and!; try done. by apply flying_one.
  - destruct I as [[] _]. split_and!; try done. by apply flying_one.
  - destruct I as [(v & V & Lv) (a & A & La) ? ? ? ? (Hi & Hs & _) ?]. split_and!; [done..| |by exists v, a].
    apply flying_one. by left.
Qed.

(** C20: What goes to a tap arrives behind the reply that opened it, in the order its lane took it, complete but for what is
    still in the lanes, and every tap the daemon closed has exactly one terminal event on its way however full the data
    queue was; the daemon's notifications follow the reply to a [subscribe], and a connection that has ended is no
    longer counted as a subscriber and holds no tap. *)
Theorem conn_taps_exact ops next :
  let c := conn_run closed_json ops (conn_new (N := N) subs next) in
  in_order (wire c)
  /\ match pc c with
     | Ended => tap_messages false (wire c) `prefix_of` c_queued (ctaps c)
                /\ tap_messages true (wire c) `prefix_of` c_overflowed (ctaps c)
                /\ c_open (ctaps c) = [] /\ subscribers (shared c) = subs
     | p =>
         let hand := match p with Writing o _ => [o] | _ => [] end in
         c_queued (ctaps c) = tap_messages false (wire c ++ hand) ++ c_rx (ctaps c)
         /\ c_overflowed (ctaps c) = tap_messages true (wire c ++ hand) ++ c_closed_rx (ctaps c)
         /\ len (c_rx (ctaps c)) <= TAP_QUEUE_CAP
         /\ notices (c_queued (ctaps c) ++ c_overflowed (ctaps c)) ≡ₚ c_gone (ctaps c) /\ NoDup (c_gone (ctaps c))
         /\ opens (wire c ++ hand) = c_ever (ctaps c) /\ NoDup (c_ever (ctaps c))
         /\ subscribers (shared c) = subs + (if counted (shared c) then 1 else 0)
     end.
Proof.
  intros c. assert (I : conn_inv subs c) by apply conn_run_inv, conn_new_inv. unfold conn_inv in I.
  destruct (pc c) as [|o k|].
  - destruct I as [[] _]. unfold room in *. rewrite app_nil_r in *. split_and!; try done; [lia|apply a_notices0..|apply a_ids0].
  - destruct I as [[] _]. unfold room in *. split_and!; try done; [by eapply in_order_app|lia|apply a_notices0..|apply a_ids0].
  - destruct I. split_and!; try done; [apply e_gone0|apply e_subs0].
Qed.

(** The requests a connection has read are, in order and none twice, the first of those in the stream its client
    sends, however the stream is cut into reads and whatever the connection writes meanwhile. *)
Theorem conn_hears_stream ops next chunks later :
  let c := conn_run closed_json ops (conn_new (N := N) subs next) in
  Forall (fun k => k <> []) chunks -> arrived (input c) ++ later = closing chunks ->
  asked_line <$> asked (verbs c) `prefix_of` requests (stream_lines (mjoin chunks)).
Proof.
  intros c C E. pose proof (conn_run_hears ops next) as H. fold c in H. rewrite (h_asked c H).
  pose proof (h_stream c H later (S (S (length (mjoin chunks))))) as S. rewrite E in S.
  rewrite (read_lines_stream _ (Datatypes.S (length (mjoin chunks))) chunks lines_new) in S; [|done|done|cbn; lia|cbn; lia].
  unfold stream_lines. change (ahead lines_new chunks) with (mjoin chunks) in S. rewrite S. unfold requests.
  rewrite omap_app. by eexists.
Qed.

(** The verb in flight is polled wherever the connection is: from the [select!] before anything is read, and during
    any write, however long the client leaves it blocked; its reply is the next line. *)
Theorem verb_never_starved ops next f r :
  let c := conn_run closed_json ops (conn_new (N := N) subs next) in
  inflight (verbs c) = Some f ->
  match pc c with
  | Selecting => forall note a,
      let c' := conn_step closed_json (PollSelect (mkReady (Some r) note a)) c in
      pc c' = Writing (VerbReply (mkSettled (fl_id f) (fl_sub f) r)) (ToSelect (fl_sub f)) /\ input c' = input c
  | Writing o k =>
      let c' := conn_step closed_json (PollWrite None (Some r)) c in
      pc c' = Writing o k /\ settled (verbs c') = Some (mkSettled (fl_id f) (fl_sub f) r) /\ inflight (verbs c') = None
      /\ (k = ToBreak \/ pc (conn_step closed_json (PollWrite (Some true) None) c')
                         = Writing (VerbReply (mkSettled (fl_id f) (fl_sub f) r)) (ToSelect (fl_sub f)))
  | Ended => False
  end.
Proof.
  intros c Hf. assert (I : conn_inv subs c) by apply conn_run_inv, conn_new_inv. unfold conn_inv in I.
  destruct (pc c) as [|o k|] eqn:P.
  - intros note a. cbn. rewrite P. unfold select_turn. rewrite Hf. done.
  - cbn. unfold write_turn. rewrite P, Hf. cbn. split_and!; [done..|]. destruct k as [|sub|]; [|by destruct I as [_ (K & _)]; congruence|by left].
    right. unfold write_turn. cbn. by rewrite P.
  - destruct I. destruct e_gone0 as (K & _). congruence.
Qed.

(** The turns of a connection whose client reads and says nothing, its verb staying parked. *)
Fixpoint drain (n : nat) : list (ConnOp N) :=
  match n with
  | O => []
  | S n => PollSelect (mkReady None None (TapRefused (rpc_error 0))) :: PollWrite (Some true) None :: drain n
  end.

Lemma drain_round n c :
  pc c = Selecting -> settled (verbs c) = None -> available (reader (input c)) = [] -> socket (input c) = [] ->
  S n = (length (c_closed_rx (ctaps c)) + length (c_rx (ctaps c)))%nat ->
  let c1 := conn_run closed_json (drain 1) c in
  pc c1 = Selecting /\ available (reader (input c1)) = [] /\ socket (input c1) = [] /\ inflight (verbs c1) = inflight (verbs c)
  /\ n = (length (c_closed_rx (ctaps c1)) + length (c_rx (ctaps c1)))%nat.
Proof.
  intros P Hv Hr Hs Hn. unfold conn_run. cbn [drain foldl conn_step]. rewrite P. unfold select_turn. cbn [r_verb r_note].
  replace (match inflight (verbs c) with Some f => _ | None => _ end) with (tap_lanes (set_input (mkInput (reader (input c)) [] (arrived (input c)) (heard (input c))) c)).
  2:{ unfold next_line. rewrite Hr, Hs. cbn [read_fills]. destruct (inflight (verbs c)), (counted (shared c)) eqn:C; cbn; by rewrite C. }
  unfold tap_lanes, write_tap. cbn [ctaps set_input].
  destruct (c_closed_rx (ctaps c)) as [|m q] eqn:C; [destruct (c_rx (ctaps c)) as [|m q] eqn:R; [done|]|];
    destruct (tap_notification_total m) as (k & E); rewrite E; unfold write_turn, write_done, loop_top; cbn; rewrite Hv; cbn; split_and!; try done.
  - cbn in Hn. lia.
  - cbn in Hn. lia.
Qed.

(** A parked verb holds nothing back: while it waits, the client that reads gets all that its taps have. *)
Theorem lanes_drain ops next n :
  let c := conn_run closed_json ops (conn_new (N := N) subs next) in
  pc c = Selecting -> available (reader (input c)) = [] -> socket (input c) = [] ->
  n = (length (c_closed_rx (ctaps c)) + length (c_rx (ctaps c)))%nat ->
  let c' := conn_run closed_json (drain n) c in
  pc c' = Selecting /\ c_rx (ctaps c') = [] /\ c_closed_rx (ctaps c') = [] /\ inflight (verbs c') = inflight (verbs c)
  /\ tap_messages false (wire c') = c_queued (ctaps c') /\ tap_messages true (wire c') = c_overflowed (ctaps c').
Proof.
  intros c. assert (I : conn_inv subs c) by apply conn_run_inv, conn_new_inv. clearbody c. revert c I.
  induction n as [|n IH]; intros c I P Hr Hs Hn c'.
  - subst c'. cbn. destruct (c_closed_rx _) eqn:C, (c_rx _) eqn:R; try done. unfold conn_inv in I. rewrite P in I.
    destruct I as [[] _]. rewrite app_nil_r in *. rewrite R, C, app_nil_r in *. done.
  - assert (Hv : settled (verbs c) = None) by (unfold conn_inv in I; rewrite P in I; apply I).
    destruct (drain_round n c P Hv Hr Hs Hn) as (P1 & R1 & S1 & F1 & N1). rewrite <- F1.
    apply (IH (conn_run closed_json (drain 1) c)); [by apply conn_run_inv|done..].
Qed.
End lemmas.

(** ** A connection at work *)

Inductive DemoValue := DText (s : string) | DNumber (n : Z).

(** Requests of the form [id method argument]: enough of a reader to run a connection. *)
#[local] Instance demo_json : Json := {|
  Value := DemoValue;
  from_str := fun s => Some (DText s);
  as_object := fun v => Some (fun _ => Some v);
  as_str := fun v => match v with DText s => Some s | DNumber _ => None end;
  as_u64 := fun v => match v with DNumber n => Some n | DText _ => None end;
  read_id := fun v => match v with DText s => Some (IdString s) | DNumber n => Some (IdNumber n) end;
  read_error := fun _ => None;
  read_request := fun v =>
    match v with
    | DText s => match split_on (Ascii.ascii_of_nat 32) s with
                 | [id; m] => Some (IdString id, m, None)
                 | [id; m; _] => Some (IdString id, m, Some (DNumber 7))
                 | _ => None
                 end
    | DNumber _ => None
    end |}.

Definition demo_closed (t : Z) : Value := DNumber t.

(** A poll of the [select!] in which nothing but the connection's own lanes is ready. *)
Definition quiet : Ready (N := string) := mkReady None None (TapGiven (DText "tap" : Value) [(as_bytes "old", 0)]).
Definition wrote : ConnOp string := PollWrite (Some true) None.

(** The client opens a tap, asks for a lock it must wait for, and sends a request behind it; the tap goes on, its endpoint
    goes away, and the lock is granted. *)
Definition demo_ops : list (ConnOp string) :=
  [Arrive [Filled (as_bytes "1 tap.open e" ++ [NL]); Filled (as_bytes "2 lock e" ++ [NL] ++ as_bytes "3 state" ++ [NL])];
   PollSelect quiet; wrote; PollSelect quiet; PollSelect quiet; wrote;
   Deliver 7 (as_bytes "new") 3 0; Detach 7 "e" EndpointRemoved]
  ++ drain 2.

Definition demo_conn : Conn string :=
  conn_run demo_closed demo_ops (conn_new 0 7).

Example demo_conn_wire :
  wire demo_conn =
    [NowReply (success (IdString "1") (DText "tap" : Value)) (Some 7);
     NowReply (response_error (IdString "3") (rpc_error (-32006))) None;
     TapNote false (Data 7 (as_bytes "old") 0 0) (TapData 7 0 0 "b2xk");
     TapNote false (Data 7 (as_bytes "new") 3 0) (TapData 7 3 0 "bmV3")]
  /\ c_rx (ctaps demo_conn) = [Closed 7 "e" "endpoint removed"]
  /\ inflight (verbs demo_conn) = Some (mkInFlight (IdString "2") false) /\ pc demo_conn = Selecting.
Proof. vm_compute. done. Qed.

Lemma lanes_drain_witness :
  let c' := conn_run demo_closed (drain 1) demo_conn in
  c_rx (ctaps c') = [] /\ inflight (verbs c') = Some (mkInFlight (IdString "2") false)
  /\ tap_messages false (wire c') = c_queued (ctaps c').
Proof.
  destruct (lanes_drain (N := string) demo_closed 0 demo_ops 7 1) as (_ & R & _ & F & Q & _);
    [vm_compute; reflexivity..|].
  split; [exact R|]. split; [etransitivity; [exact F|vm_compute; reflexivity]|exact Q].
Defined.

Lemma conn_hears_stream_witness :
  asked_line <$> asked (verbs demo_conn)
  `prefix_of` requests (stream_lines (as_bytes "1 tap.open e" ++ [NL] ++ as_bytes "2 lock e" ++ [NL] ++ as_bytes "3 state" ++ [NL])).
Proof.
  apply (conn_hears_stream (N := string) demo_closed 0 demo_ops 7
    [as_bytes "1 tap.open e" ++ [NL]; as_bytes "2 lock e" ++ [NL] ++ as_bytes "3 state" ++ [NL]] [Filled []; Filled []]).
  - repeat constructor; discriminate.
  - vm_compute. reflexivity.
Defined.
