(* ===== verification/Web.v ===== *)
(** * The gates of the web console (web/src/server.rs)

    The request head as it is read and parsed, the three checks on it (Host, Origin,
    credential), the routes behind them, and the population of connections that have
    shown no credential yet.  [gate] is the part of [handle_conn] between the head and the
    response; a [Decision] is the response with what it carries.  Header values, paths and
    cookies are strings; SHA-1, the lossy decoding of a head that is not UTF-8 and the
    asset bodies are parameters. *)

From Stdlib Require Import Strings.String Strings.Ascii.
From S2P Require Import Prelude GraphTypes Envelope IpAddr Log Pattern Paths Rpc.
#[local] Open Scope Z_scope.

Definition MAX_HEAD : Z := 16 * 1024.
Definition MAX_CONNECTIONS : Z := 128.
Definition MAX_PRE_AUTH_CONNECTIONS : Z := 32.

(** ** The pre-authentication pool *)

(** [PreAuthInner]: the senders are their ids; whether a sender's signal fired is in the output of [pool_admit]. *)
Record PreAuthPool := mkPool { next_id : Z; live : list Z }.

Definition pool_new : PreAuthPool := mkPool 0 [].

(** [while inner.live.len() > MAX { pop_front; victim.send(()) }]. *)
Fixpoint evict_oldest (live : list Z) : list Z * list Z :=
  match live with
  | id :: rest =>
      if MAX_PRE_AUTH_CONNECTIONS <? len live
      then let '(keep, victims) := evict_oldest rest in (keep, id :: victims)
      else (live, [])
  | [] => ([], [])
  end.

(** [admit] of the code: the pool, the ticket's id and the ids evicted. *)
Definition pool_admit (p : PreAuthPool) : PreAuthPool * Z * list Z :=
  let id := next_id p in
  let '(keep, victims) := evict_oldest (live p ++ [id]) in
  (mkPool (u64_wrapping_add id 1) keep, id, victims).

(** [leave], run by the drop of a ticket. *)
Definition leave (id : Z) (p : PreAuthPool) : PreAuthPool := mkPool (next_id p) (retain_ne id (live p)).

(** ** The request head *)

Record HttpRequest := mkHttp { verb : string; path : string; query : string; headers : list (string * string) }.

Definition CRLF2 : list byte := [x0d; x0a; x0d; x0a].

(** The read loop: one byte at a time ([buf] reversed), until the blank line.  [None]: the stream ended; [Err]: over the cap.
    With the head comes what is left unread. *)
Fixpoint read_head (buf : list byte) (stream : list byte) : exec unit (option (list byte * list byte)) :=
  match stream with
  | [] => Ok None
  | b :: rest =>
      let buf := b :: buf in
      if bool_decide (take 4 buf = rev CRLF2) then Ok (Some (rev buf, rest))
      else if MAX_HEAD <? len buf then Err tt
      else read_head buf rest
  end.

(** [text.split("\r\n")]. *)
Fixpoint split_crlf (s : string) : list string :=
  match s with
  | String "013" (String "010" rest) => ""%string :: split_crlf rest
  | String a rest =>
      match split_crlf rest with
      | x :: xs => String a x :: xs
      | [] => [String a ""]
      end
  | EmptyString => [""%string]
  end.

(** One token of [split_whitespace] and the rest; [cur] is the token so far, reversed. *)
Fixpoint split_token (fuel : nat) (cur bs : list byte) : list byte * list byte :=
  match fuel with
  | O => (rev cur, bs)
  | S fuel =>
      match strip_ws bs with
      | Some r => (rev cur, r)
      | None => match bs with [] => (rev cur, []) | b :: bs => split_token fuel (b :: cur) bs end
      end
  end.

Definition next_token (bs : list byte) : list byte * list byte :=
  let bs := repeat_strip strip_ws (length bs) bs in split_token (length bs) [] bs.

(** The header lines up to the first empty one. *)
Fixpoint parse_headers (lines : list string) : list (string * string) :=
  match lines with
  | [] => []
  | line :: lines =>
      if bool_decide (line = ""%string) then []
      else match split_once ":" line with
           | Some (k, v) => (trim k, trim v) :: parse_headers lines
           | None => parse_headers lines
           end
  end.

Definition parse_head (text : string) : HttpRequest :=
  let lines := split_crlf text in
  let '(m, r) := next_token (as_bytes (default ""%string (head lines))) in
  let target := from_bytes (next_token r).1 in
  let '(p, q) := match split_once "?" target with Some pq => pq | None => (target, ""%string) end in
  mkHttp (from_bytes m) p q (parse_headers (tail lines)).

Section reading.
Variable from_utf8_lossy : list byte -> string.

(** [read_request] on what the peer sends. *)
Definition read_request (stream : list byte) : exec unit (option (HttpRequest * list byte)) :=
  h ← read_head [] stream;
  match h with
  | Some (hd, rest) => Ok (Some (parse_head (from_utf8_lossy hd), rest))
  | None => Ok None
  end.
End reading.

(** [Request::header]. *)
Definition header (r : HttpRequest) (name : string) : option string :=
  snd <$> find_first (fun kv => eq_ignore_ascii_case kv.1 name) (headers r).

(** [Request::cookies]: every value under the name. *)
Definition cookies (r : HttpRequest) (name : string) : list string :=
  match header r "cookie" with
  | None => []
  | Some c => omap (fun pair => match split_once "=" (trim pair) with
                                | Some (k, v) => if bool_decide (k = name) then Some v else None
                                | None => None
                                end) (split_on ";" c)
  end.

(** [Request::query_param]. *)
Definition query_param (r : HttpRequest) (key : string) : option string :=
  head (omap (fun pair => match split_once "=" pair with
                          | Some (k, v) => if bool_decide (k = key) then Some v else None
                          | None => None
                          end) (split_on "&" (query r))).

(** [Request::host]: the Host header without its port, brackets kept. *)
Definition host (r : HttpRequest) : option string :=
  h ← header r "host";
  Some (if starts_with "[" h
        then match split_once "]" h with Some (inner, _) => (inner ++ "]")%string | None => h end
        else match rsplit_once ":" h with Some (host, _) => host | None => h end).

(** ** Authorities *)

(** [p.parse::<u16>()]. *)
Definition parse_u16 (s : string) : option Z :=
  n ← parse_u64 (as_bytes s); if n <=? u16_max then Some n else None.

(** [authority.matches(c).count()]. *)
Fixpoint count_char (c : ascii) (s : string) : Z :=
  match s with EmptyString => 0 | String a s => (if Ascii.eqb a c then 1 else 0) + count_char c s end.

(** [split_authority]. *)
Definition split_authority (authority : string) : option (string * option Z) :=
  hp ← match strip_prefix "[" authority with
       | Some rest => '(inner, tl) ← split_once "]" rest; Some (inner, strip_prefix ":" tl)
       | None =>
           if 1 <? count_char ":" authority then Some (authority, None)
           else match rsplit_once ":" authority with
                | Some (h, p) => Some (h, Some p)
                | None => Some (authority, None)
                end
       end;
  let '(h, port) := hp in
  match port with
  | None => Some (h, None)
  | Some ""%string => Some (h, None)
  | Some p => n ← parse_u16 p; Some (h, Some n)
  end.

(** [normalize_hosts]; an error is a startup failure. *)
Fixpoint normalize_hosts (hosts : list string) : exec unit (list string) :=
  match hosts with
  | [] => Ok []
  | value :: hosts =>
      hp ← ok_or tt (split_authority value);
      reject bool_decide (hp.1 = ""%string) with tt;
      out ← normalize_hosts hosts; Ok (hp.1 :: out)
  end.

(** [s.split_once(p)] for a string. *)
Fixpoint split_once_str (p s : string) : option (string * string) :=
  match strip_prefix p s with
  | Some r => Some (""%string, r)
  | None => match s with
            | EmptyString => None
            | String a s => match split_once_str p s with Some (l, r) => Some (String a l, r) | None => None end
            end
  end.

(** [origin_matches_host]. *)
Definition origin_matches_host (origin host_header : string) (secure : bool) : bool :=
  match
    '(scheme, authority) ← split_once_str "://" origin;
    if contains_char "/" authority || contains_char "?" authority || contains_char "#" authority then None
    else
      origin_default ← (if eq_ignore_ascii_case scheme "https" then Some 443
                        else if eq_ignore_ascii_case scheme "http" then Some 80 else None);
      '(o_host, o_port) ← split_authority authority;
      '(h_host, h_port) ← split_authority host_header;
      let our_default := if secure then 443 else 80 in
      Some ((default origin_default o_port =? default our_default h_port) && eq_ignore_ascii_case o_host h_host)
  with Some b => b | None => false end.

(** The closure of [bracketed_eq]. *)
Fixpoint trim_end_char (c : ascii) (s : string) : string :=
  match s with
  | EmptyString => ""%string
  | String a s => match trim_end_char c s with
                  | EmptyString => if Ascii.eqb a c then ""%string else String a ""
                  | r => String a r
                  end
  end.
Definition unbracket (s : string) : string := trim_end_char "]" (trim_start_char "[" s).
Definition bracketed_eq (a b : string) : bool := bool_decide (unbracket a = unbracket b).

(** [ct_eq]: every byte is looked at, whatever the first difference. *)
Definition ct_eq (a b : string) : bool :=
  let a := as_bytes a in
  let b := as_bytes b in
  if negb (len a =? len b) then false
  else foldl (fun diff p => Z.lor diff (Z.lxor (bval p.1) (bval p.2))) 0 (zip a b) =? 0.

(** ** Credentials *)

Definition SESSION_COOKIE : string := "nexus_session".
Definition ASSET_COOKIE : string := "nexus_assets".
Definition WS_PATH : string := "/ws".
Definition WS_GUID : string := "258EAFA5-E914-47DA-95CA-C5AB0DC85B11".

Definition show_port (port : Z) : string := from_bytes (dec_digits 20 port).
Definition session_cookie_name (port : Z) : string := (SESSION_COOKIE ++ "_" ++ show_port port)%string.
Definition asset_cookie_name (port : Z) : string := (ASSET_COOKIE ++ "_" ++ show_port port)%string.

Definition session_cookie (token : string) (secure : bool) (port : Z) : string :=
  (session_cookie_name port ++ "=" ++ token ++ "; Path=" ++ WS_PATH ++ "; HttpOnly; SameSite=Strict"
   ++ (if secure then "; Secure" else ""))%string.

Definition asset_cookie (credential : string) (secure : bool) (port : Z) : string :=
  (asset_cookie_name port ++ "=" ++ credential ++ "; Path=/; HttpOnly; SameSite=Strict"
   ++ (if secure then "; Secure" else ""))%string.

(** ** Assets (web/src/assets.rs) *)

(** The paths of [TABLE], a row per asset. *)
Definition asset_paths : list (list string) :=
  [["/"; "/index.html"]; ["/app.js"]; ["/app.css"]; ["/history.mjs"]; ["/saver.mjs"]; ["/opfs.mjs"]; ["/graph.mjs"];
   ["/editor.mjs"]; ["/ansi.mjs"]]%string.

Definition fnv1a (bytes : list byte) : Z :=
  foldl (fun h b => Z.lxor h (bval b) * 0x100000001b3 mod 2 ^ 64) 0xcbf29ce484222325 bytes.

(** [format!("\"{:016x}\"")]. *)
Definition quoted_hex (h : Z) : string :=
  from_bytes ([x22] ++ ((fun k => hex_digit (h / 16 ^ k mod 16)) <$> rev (seqZ 0 16)) ++ [x22]).

(** The row a path names. *)
Fixpoint row_of (path : string) (rows : list (list string)) (i : nat) : option nat :=
  match rows with
  | [] => None
  | row :: rows => if bool_decide (path ∈ row) then Some i else row_of path rows (S i)
  end.

(** ** The gate ([handle_conn], [upgrade_ws]) *)

Record ServerConfig := mkServerConfig { token : string; hosts : list string }.

(** The response: refusals with their status, the redirect of the bootstrap URL with its two cookies, an asset with its
    row and validator, the upgrade with its accept digest. *)
Inductive Decision :=
| Refuse (status : Z)
| Redirect (session asset : string)
| NotModified (etag : string)
| ServeAsset (row : nat) (etag : string)
| SwitchProtocols (accept : string).

Section gate.
(** The bodies of the assets, SHA-1, and whether the daemon's socket answers. *)
Variable body : nat -> list byte.
Variable sha1 : list byte -> list byte.

Definition etag (i : nat) : string := quoted_hex (fnv1a (body i)).

(** [assets::lookup]. *)
Definition asset_lookup (path : string) : option (nat * string) :=
  i ← row_of path asset_paths 0; Some (i, etag i).

Definition upgrade_ws (req : HttpRequest) (daemon : bool) : exec unit Decision :=
  match header req "sec-websocket-key" with
  | None => Ok (Refuse 400)
  | Some key =>
      if daemon then
        accept ← base64_encode (sha1 (as_bytes key ++ as_bytes WS_GUID)); Ok (SwitchProtocols accept)
      else Ok (Refuse 503)
  end.

(** The routes behind the gate. *)
Definition route (req : HttpRequest) (daemon : bool) : exec unit Decision :=
  if bool_decide (verb req = "GET"%string) && bool_decide (path req = WS_PATH) then upgrade_ws req daemon
  else if bool_decide (verb req = "GET"%string) then
    match asset_lookup (path req) with
    | Some (i, etag) =>
        let known := match header req "if-none-match" with
                     | Some v => existsb (fun t => bool_decide (t = "*"%string)
                                                   || bool_decide (default t (strip_prefix "W/" t) = etag))
                                         (trim <$> split_on "," v)
                     | None => false
                     end in
        Ok (if known then NotModified etag else ServeAsset i etag)
    | None => Ok (Refuse 404)
    end
  else Ok (Refuse 404).

Definition host_ok (cfg : ServerConfig) (req : HttpRequest) : bool :=
  match host req with
  | Some h => existsb (fun allowed => eq_ignore_ascii_case allowed h || bracketed_eq allowed h) (hosts cfg)
  | None => false
  end.

Definition origin_ok (req : HttpRequest) (secure : bool) : bool :=
  match header req "origin" with
  | Some origin => origin_matches_host origin (default ""%string (header req "host")) secure
  | None => true
  end.

Definition token_ok (cfg : ServerConfig) (req : HttpRequest) (port : Z) : bool :=
  existsb (fun c => ct_eq c (token cfg)) (cookies req (session_cookie_name port) ++ cookies req SESSION_COOKIE).

Definition asset_ok (assets : string) (req : HttpRequest) (port : Z) : bool :=
  existsb (fun c => ct_eq c assets) (cookies req (asset_cookie_name port)).

(** Whether the connection has left the pre-authentication pool, and the response.  [free]: permits left. *)
Definition gate (cfg : ServerConfig) (assets : string) (secure : bool) (port : Z) (free : Z) (daemon : bool)
    (req : HttpRequest) : bool * exec unit Decision :=
  if negb (host_ok cfg req) then (false, Ok (Refuse 403))
  else if negb (origin_ok req secure) then (false, Ok (Refuse 403))
  else if bool_decide (verb req = "GET"%string) && bool_decide (path req = "/"%string)
          && match query_param req "token" with Some tok => ct_eq tok (token cfg) | None => false end
  then (false, Ok (Redirect (session_cookie (token cfg) secure port) (asset_cookie assets secure port)))
  else
    let ws_route := bool_decide (path req = WS_PATH) in
    if negb (token_ok cfg req port) && negb (asset_ok assets req port && negb ws_route) then (false, Ok (Refuse 401))
    else if free <=? 0 then (true, Ok (Refuse 503))
    else (true, route req daemon).
End gate.

(** ** Lemmas: credentials *)

Lemma foldl_lor_zero {A} (f : A -> Z) l acc :
  foldl (fun d x => Z.lor d (f x)) acc l = 0 <-> acc = 0 /\ Forall (fun x => f x = 0) l.
Proof.
  revert acc. induction l as [|x l IH]; intros acc; cbn; [naive_solver|]. rewrite IH, Z.lor_eq_0_iff, Forall_cons. tauto.
Qed.

(** The constant-time comparison decides equality. *)
Theorem ct_eq_spec a b : ct_eq a b = true <-> a = b.
Proof.
  unfold ct_eq. destruct (Z.eqb_spec (len (as_bytes a)) (len (as_bytes b))) as [L|L]; cbn [negb]; cycle 1.
  { split; [done|]. by intros ->. }
  rewrite Z.eqb_eq, (foldl_lor_zero (fun p : byte * byte => Z.lxor (bval p.1) (bval p.2))). split.
  - intros [_ F]. apply (inj as_bytes). revert L F. generalize (as_bytes a) (as_bytes b). clear a b.
    induction l as [|x l IH]; intros [|y k] L; cbn; try done; try (len_lia || (exfalso; len_lia)).
    intros [E F]%Forall_cons. cbn in E. apply Z.lxor_eq, (inj bval) in E as ->. f_equal. apply IH; [len_lia|done].
  - intros ->. split; [done|]. generalize (as_bytes b). induction l as [|x l IH]; cbn; [done|].
    constructor; [apply Z.lxor_nilpotent|done].
Qed.

Lemma existsb_ct_eq v l : existsb (fun c => ct_eq c v) l = true <-> v ∈ l.
Proof.
  rewrite existsb_exists. setoid_rewrite <- list_elem_of_In. setoid_rewrite ct_eq_spec. naive_solver.
Qed.

(** ** Theorems: the gate *)

(** What opens a route: the token under either session name, or the asset credential anywhere but on the WebSocket. *)
Definition authorized (cfg : ServerConfig) (assets : string) (port : Z) (req : HttpRequest) : Prop :=
  token cfg ∈ cookies req (session_cookie_name port) \/ token cfg ∈ cookies req SESSION_COOKIE
  \/ assets ∈ cookies req (asset_cookie_name port) /\ path req <> WS_PATH.

Section gate_theorems.
Variable body : nat -> list byte.
Variable sha1 : list byte -> list byte.

Lemma token_ok_spec cfg req port :
  token_ok cfg req port = true <-> token cfg ∈ cookies req (session_cookie_name port) \/ token cfg ∈ cookies req SESSION_COOKIE.
Proof. unfold token_ok. by rewrite existsb_ct_eq, elem_of_app. Qed.

Lemma asset_ok_spec assets req port : asset_ok assets req port = true <-> assets ∈ cookies req (asset_cookie_name port).
Proof. apply existsb_ct_eq. Qed.

Lemma authorized_spec cfg assets port req :
  authorized cfg assets port req <->
  token_ok cfg req port || asset_ok assets req port && negb (bool_decide (path req = WS_PATH)) = true.
Proof.
  unfold authorized. rewrite orb_true_iff, andb_true_iff, token_ok_spec, asset_ok_spec, negb_true_iff, bool_decide_eq_false. tauto.
Qed.

Lemma upgrade_total req daemon : exists d, upgrade_ws sha1 req daemon = Ok d.
Proof.
  unfold upgrade_ws. destruct (header req _); [|eauto]. destruct daemon; [|eauto]. unfold base64_encode.
  match goal with |- context [encode_chunks ?l] => destruct (encode_chunks_reads l) as (out & E & _) end. rewrite E. cbn. eauto.
Qed.

Lemma route_total req daemon : exists d, route body sha1 req daemon = Ok d.
Proof. unfold route. case_if; [apply upgrade_total|]. case_if; [|eauto]. destruct (asset_lookup _ _) as [[i e]|]; eauto. Qed.

(** What leaves the gate by which door. *)
Lemma gate_decides cfg assets secure port free daemon req :
  let served := host_ok cfg req = true /\ origin_ok req secure = true in
  let bootstrap := verb req = "GET"%string /\ path req = "/"%string /\ query_param req "token" = Some (token cfg) in
  match gate body sha1 cfg assets secure port free daemon req with
  | (true, d) => served /\ ~ bootstrap /\ authorized cfg assets port req
                 /\ d = if free <=? 0 then Ok (Refuse 503) else route body sha1 req daemon
  | (false, Ok (Redirect session asset)) =>
      served /\ bootstrap /\ session = session_cookie (token cfg) secure port /\ asset = asset_cookie assets secure port
  | (false, Ok (Refuse status)) =>
      status = 403 /\ ~ served \/ status = 401 /\ served /\ ~ bootstrap /\ ~ authorized cfg assets port req
  | _ => False
  end.
Proof.
  cbv zeta. unfold gate. destruct (host_ok cfg req); cbn [negb]; [|naive_solver].
  destruct (origin_ok req secure); cbn [negb]; [|naive_solver].
  assert (B : bool_decide (verb req = "GET"%string) && bool_decide (path req = "/"%string)
              && match query_param req "token" with Some tok => ct_eq tok (token cfg) | None => false end = true
              <-> verb req = "GET"%string /\ path req = "/"%string /\ query_param req "token" = Some (token cfg)).
  { rewrite !andb_true_iff, !bool_decide_eq_true. destruct (query_param req "token"); [rewrite ct_eq_spec|]; naive_solver. }
  destruct (_ && _ && _); [naive_solver|].
  pose proof (authorized_spec cfg assets port req) as A. rewrite <- negb_orb.
  destruct (token_ok cfg req port || _) eqn:E; cbn [negb]; [|naive_solver]. destruct (free <=? 0); naive_solver.
Qed.

Lemma route_upgrade req daemon accept :
  route body sha1 req daemon = Ok (SwitchProtocols accept) -> verb req = "GET"%string /\ path req = WS_PATH /\ daemon = true.
Proof.
  unfold route. case_if; split_bools.
  - unfold upgrade_ws. destruct (header req _); [|done]. by destruct daemon.
  - case_if; [|done]. destruct (asset_lookup _ _) as [[i e]|]; [|done]. intros [= H]. revert H. by case_if.
Qed.

Lemma upgrade_needs_token cfg assets secure port free daemon req left accept :
  gate body sha1 cfg assets secure port free daemon req = (left, Ok (SwitchProtocols accept)) ->
  left = true /\ daemon = true /\ verb req = "GET"%string /\ path req = WS_PATH
  /\ host_ok cfg req = true /\ origin_ok req secure = true
  /\ (token cfg ∈ cookies req (session_cookie_name port) \/ token cfg ∈ cookies req SESSION_COOKIE).
Proof.
  intros E. pose proof (gate_decides cfg assets secure port free daemon req) as G. rewrite E in G.
  destruct left; [|done]. destruct G as ((H & O) & _ & A & D). destruct (free <=? 0); [done|]. symmetry in D.
  apply route_upgrade in D as (V & P & ->). split_and!; try done. destruct A as [A|[A|[_ A]]]; [by left|by right|done].
Qed.

(** C25: The gate, exactly: a request that does not name a served host or comes from another origin gets 403 whatever it
    presents; the bootstrap URL with the token gets the two cookies; any other request gets a permit and its route if and
    only if it is authorized, by one cookie among however many were planted, and the only things said without
    authorization are 401 and that redirect.  The WebSocket is switched to only for the token: the asset credential,
    which a browser replays to every port, does not open it. *)
Theorem gate_exact cfg assets secure port free daemon req :
  let served := host_ok cfg req = true /\ origin_ok req secure = true in
  let bootstrap := verb req = "GET"%string /\ path req = "/"%string /\ query_param req "token" = Some (token cfg) in
  let out := gate body sha1 cfg assets secure port free daemon req in
  match out with
  | (true, d) => served /\ ~ bootstrap /\ authorized cfg assets port req
                 /\ d = if free <=? 0 then Ok (Refuse 503) else route body sha1 req daemon
  | (false, Ok (Redirect session asset)) =>
      served /\ bootstrap /\ session = session_cookie (token cfg) secure port /\ asset = asset_cookie assets secure port
  | (false, Ok (Refuse status)) =>
      status = 403 /\ ~ served \/ status = 401 /\ served /\ ~ bootstrap /\ ~ authorized cfg assets port req
  | _ => False
  end
  /\ match out.2 with
     | Ok (SwitchProtocols _) =>
         verb req = "GET"%string /\ path req = WS_PATH /\ served
         /\ (token cfg ∈ cookies req (session_cookie_name port) \/ token cfg ∈ cookies req SESSION_COOKIE)
     | _ => True
     end.
Proof.
  cbv zeta. split; [apply gate_decides|]. destruct (gate _ _ _ _ _ _ _ _ _) as [left d] eqn:E. cbn.
  destruct d as [[]| |]; try done. by apply upgrade_needs_token in E as (_ & _ & ? & ? & ? & ? & ?).
Qed.
End gate_theorems.

(** ** Theorems: the bootstrap *)

Lemma contains_char_app c a b : contains_char c (a ++ b) = contains_char c a || contains_char c b.
Proof. induction a as [|x a IH]; [done|]. simpl. by rewrite IH, orb_assoc. Qed.

Lemma digit_not_punctuation fuel n c :
  0 <= n -> bval c < 0x30 \/ 0x39 < bval c -> c ∉ dec_digits fuel n.
Proof.
  intros Hn Hc H. pose proof (dec_digits_all fuel n Hn) as F. rewrite Forall_forall in F.
  destruct (F c H) as (v & Hv & ->). unfold digit in Hc. rewrite bval_as_u8, Z.mod_small in Hc; lia.
Qed.

Lemma contains_from_bytes c bs :
  contains_char c (from_bytes bs) = true -> Ascii.byte_of_ascii c ∈ bs.
Proof.
  induction bs as [|b bs IH]; [done|]. cbn. rewrite orb_true_iff, elem_of_cons. intros [E|H]; [left|right; by apply IH].
  apply Ascii.eqb_eq in E as <-. by rewrite Ascii.byte_of_ascii_of_byte.
Qed.

(** A port in decimal has no punctuation and reads back. *)
Lemma show_port_free c port :
  0 <= port -> bval (Ascii.byte_of_ascii c) < 0x30 \/ 0x39 < bval (Ascii.byte_of_ascii c) -> contains_char c (show_port port) = false.
Proof.
  intros Hp Hc. apply not_true_is_false. intros H%contains_from_bytes. by apply (digit_not_punctuation 20 port _ Hp Hc).
Qed.

Lemma parse_show_port port : 0 <= port <= u16_max -> parse_u16 (show_port port) = Some port.
Proof.
  intros Hp. unfold parse_u16, show_port. rewrite as_from_bytes. change (dec_digits 20 port) with (zero_padded 0 port).
  rewrite parse_zero_padded by (unfold u64, u16_max, u64_max in *; lia). cbn. by rewrite (proj2 (Z.leb_le _ _)) by lia.
Qed.

(** The pair a cookie is stored as: what precedes the attributes. *)
Definition cookie_pair (set_cookie : string) : string := default ""%string (head (split_on ";" set_cookie)).

Lemma pair_of name value rest :
  contains_char ";" name = false -> contains_char ";" value = false ->
  cookie_pair (name ++ "=" ++ value ++ String ";" rest) = (name ++ "=" ++ value)%string.
Proof.
  intros Hn Hv. unfold cookie_pair. rewrite (str_app_assoc "=" value), str_app_assoc, split_on_app; [done|].
  by rewrite !contains_char_app, Hn, Hv.
Qed.

Lemma cookie_name_free c port : 
  c = ";"%char \/ c = "="%char -> 0 <= port ->
  contains_char c (session_cookie_name port) = false /\ contains_char c (asset_cookie_name port) = false.
Proof.
  intros Hc Hp. unfold session_cookie_name, asset_cookie_name. rewrite !contains_char_app.
  rewrite show_port_free; [|done|destruct Hc as [-> | ->]; right; vm_compute; done]. destruct Hc as [-> | ->]; done.
Qed.

(** A cookie the browser presents, under its name. *)
Lemma presented req name value c pair :
  header req "cookie" = Some c -> trim pair = (name ++ "=" ++ value)%string -> pair ∈ split_on ";" c ->
  contains_char "=" name = false -> value ∈ cookies req name.
Proof.
  intros Hc Hp Hin Hn. unfold cookies. rewrite Hc. apply list_elem_of_omap. exists pair. split; [done|].
  rewrite Hp. change ("=" ++ value)%string with (String "=" value). rewrite split_once_app by done. by rewrite bool_decide_eq_true_2.
Qed.

(** The two cookies of the bootstrap redirect open what they are for: a request that presents the first as the browser
    stored it, among whatever else, is authorized everywhere, and one that presents the second everywhere but on the
    WebSocket. *)
Theorem bootstrap_opens cfg assets secure port req c :
  0 <= port -> contains_char ";" (token cfg) = false -> contains_char ";" assets = false ->
  header req "cookie" = Some c ->
  (cookie_pair (session_cookie (token cfg) secure port) ∈ trim <$> split_on ";" c -> authorized cfg assets port req)
  /\ (cookie_pair (asset_cookie assets secure port) ∈ trim <$> split_on ";" c -> path req <> WS_PATH ->
      authorized cfg assets port req).
Proof.
  intros Hp Ht Ha Hc. destruct (cookie_name_free ";" port) as [Fs Fa]; [by left|done|].
  destruct (cookie_name_free "=" port) as [Es Ea]; [by right|done|].
  assert (Ps : cookie_pair (session_cookie (token cfg) secure port) = (session_cookie_name port ++ "=" ++ token cfg)%string)
    by exact (pair_of _ (token cfg) (" Path=" ++ _) Fs Ht).
  assert (Pa : cookie_pair (asset_cookie assets secure port) = (asset_cookie_name port ++ "=" ++ assets)%string)
    by exact (pair_of _ assets (" Path=/; HttpOnly; SameSite=Strict" ++ _) Fa Ha).
  rewrite Ps, Pa.
  split; intros (pair & E & Hin)%list_elem_of_fmap; [left|intros Hw; right; right; split; [|done]]; symmetry in E;
    by eapply presented.
Qed.

(** ** Theorems: the origin *)

(** A host as a browser writes it: a name or an address without brackets. *)
Definition plain_host (h : string) : Prop :=
  contains_char ":" h = false /\ contains_char "[" h = false /\ contains_char "/" h = false
  /\ contains_char "?" h = false /\ contains_char "#" h = false.

Definition authority (h : string) (port : option Z) : string :=
  match port with Some p => h ++ ":" ++ show_port p | None => h end.

Definition port_ok (port : option Z) : Prop := match port with Some p => 0 <= p <= u16_max | None => True end.

Lemma no_bracket s : contains_char "[" s = false -> strip_prefix "[" s = None.
Proof.
  destruct s as [|a s]; [done|]. cbn [contains_char strip_prefix]. intros [H _]%orb_false_elim.
  by rewrite Ascii.eqb_sym, H.
Qed.

Lemma count_char_app c a b : count_char c (a ++ b) = count_char c a + count_char c b.
Proof. induction a as [|x a IH]; [done|]. simpl. rewrite IH. lia. Qed.

Lemma count_char_free c s : contains_char c s = false -> count_char c s = 0.
Proof. induction s as [|x s IH]; [done|]. simpl. intros [H H']%orb_false_elim. by rewrite H, IH. Qed.

Lemma rsplit_once_free c s : contains_char c s = false -> rsplit_once c s = None.
Proof. induction s as [|x s IH]; [done|]. simpl. intros [H H']%orb_false_elim. by rewrite IH, H. Qed.

Lemma show_port_not_empty p : 0 <= p <= u16_max -> show_port p <> ""%string.
Proof. intros H E. pose proof (parse_show_port p H) as P. by rewrite E in P. Qed.

Lemma split_authority_plain h port : plain_host h -> port_ok port -> split_authority (authority h port) = Some (h, port).
Proof.
  intros (Hc & Hb & _) Hp. unfold split_authority, authority. destruct port as [p|]; cbn in Hp.
  - assert (D : contains_char ":" (show_port p) = false) by (apply show_port_free; [lia|right; vm_compute; done]).
    assert (B : contains_char "[" (show_port p) = false) by (apply show_port_free; [lia|right; vm_compute; done]).
    rewrite no_bracket by (by rewrite !contains_char_app, Hb, B).
    assert (K : count_char ":" (h ++ ":" ++ show_port p) = 1)
      by (by rewrite !count_char_app, (count_char_free _ h), (count_char_free _ (show_port p)) by done).
    rewrite K. change (":" ++ show_port p)%string with (String ":" (show_port p)).
    cbn [Z.ltb Z.compare Pos.compare Pos.compare_cont]. rewrite rsplit_once_app by done. cbn -[show_port parse_u16].
    pose proof (parse_show_port p Hp) as P. destruct (show_port p) as [|x r] eqn:E; [by destruct (show_port_not_empty p Hp)|].
    by rewrite P.
  - rewrite no_bracket, count_char_free, rsplit_once_free by done. done.
Qed.

(** The same host, seen from the page and from the request: an Origin is accepted exactly when it has the host of the Host
    header, letter case aside, and its port, written out or implied by the schemes, is that of the Host header. *)
Theorem origin_port_exact (https secure : bool) h o h' o' :
  plain_host h -> port_ok o -> plain_host h' -> port_ok o' ->
  origin_matches_host ((if https then "https" else "http") ++ "://" ++ authority h o) (authority h' o') secure
  = (default (if https then 443 else 80) o =? default (if secure then 443 else 80) o') && eq_ignore_ascii_case h h'.
Proof.
  intros Hh Ho Hh' Ho'. unfold origin_matches_host.
  replace (split_once_str "://" ((if https then "https" else "http") ++ "://" ++ authority h o))
    with (Some ((if https then "https" else "http")%string, authority h o)) by (by destruct https).
  cbn -[authority split_authority eq_ignore_ascii_case].
  assert (N : contains_char "/" (authority h o) || contains_char "?" (authority h o) || contains_char "#" (authority h o) = false).
  { destruct Hh as (_ & _ & S & Q & F). unfold authority. destruct o as [p|]; [|by rewrite S, Q, F]. cbn in Ho.
    rewrite !contains_char_app, S, Q, F, !show_port_free by (lia || (by left; vm_compute) || (by right; vm_compute)). done. }
  rewrite N, !split_authority_plain by done.
  replace (if eq_ignore_ascii_case (if https then "https" else "http") "https" then Some 443
           else if eq_ignore_ascii_case (if https then "https" else "http") "http" then Some 80 else None)
    with (Some (if https then 443 else 80)) by (by destruct https).
  done.
Qed.

(** What follows the bracket of an IPv6 authority is not looked at unless it begins with a colon. *)
Example bracket_tail_ignored :
  split_authority "[::1]evil" = Some ("::1", None)%string /\ normalize_hosts ["[::1]evil"%string] = Ok ["::1"%string].
Proof. vm_compute. done. Qed.

(** ** Theorems: the pool *)

Inductive PoolOp := Accept | Leave (id : Z).

Definition pool_step (p : PreAuthPool) (op : PoolOp) : PreAuthPool :=
  match op with Accept => (pool_admit p).1.1 | Leave id => leave id p end.

Definition pool_run (ops : list PoolOp) : PreAuthPool := foldl pool_step pool_new ops.

Lemma evict_oldest_spec l :
  let '(keep, victims) := evict_oldest l in
  l = victims ++ keep /\ len keep = Z.min (len l) MAX_PRE_AUTH_CONNECTIONS.
Proof.
  induction l as [|x l IH]; [done|]. cbn [evict_oldest]. destruct (Z.ltb_spec MAX_PRE_AUTH_CONNECTIONS (len (x :: l))) as [H|H].
  - destruct (evict_oldest l) as [keep victims]. destruct IH as [-> ->]. split; [done|]. rewrite len_cons in *. lia.
  - split; [done|]. lia.
Qed.

(** Arrival order: ids increase, and the next one is above them all. *)
Record pool_ok (n : Z) (p : PreAuthPool) : Prop := {
  p_next : 0 <= next_id p <= n;
  p_sorted : StronglySorted Z.lt (live p);
  p_below : Forall (fun id => 0 <= id < next_id p) (live p);
  p_size : len (live p) <= MAX_PRE_AUTH_CONNECTIONS }.

Lemma StronglySorted_snoc {A} (R : A -> A -> Prop) l x : StronglySorted R l -> Forall (fun y => R y x) l -> StronglySorted R (l ++ [x]).
Proof.
  induction 1 as [|y l S IH F]; intros G; cbn; [repeat constructor|]. apply Forall_cons in G as [G1 G2].
  constructor; [by apply IH|]. apply Forall_app. split; [done|]. by constructor.
Qed.

Lemma sorted_gap l a b :
  StronglySorted Z.lt l -> Forall (fun x => a < x <= b) l -> a <= b -> len l <= b - a.
Proof.
  revert a. induction l as [|x l IH]; intros a S F Hab; [len_lia|]. inversion_clear S as [|? ? S' L]. inversion_clear F as [|? ? Fx Fl].
  rewrite len_cons. assert (len l <= b - x); [|lia]. apply IH; [done| |lia]. rewrite Forall_forall in *. intros y Hy.
  specialize (L y Hy). specialize (Fl y Hy). lia.
Qed.

Lemma StronglySorted_suffix {A} (R : A -> A -> Prop) l k : StronglySorted R (l ++ k) -> StronglySorted R k.
Proof. induction l as [|x l IH]; [done|]. cbn. intros H. inversion_clear H. by apply IH. Qed.

Lemma admit_ok n p : pool_ok n p -> n < u64_max -> pool_ok (n + 1) (pool_admit p).1.1.
Proof.
  intros [] Hn. unfold pool_admit. pose proof (evict_oldest_spec (live p ++ [next_id p])) as E.
  destruct (evict_oldest _) as [keep victims]. destruct E as [E L]. cbn. rewrite u64_wrapping_add_small by lia.
  assert (S : StronglySorted Z.lt (live p ++ [next_id p])).
  { apply StronglySorted_snoc; [done|]. eapply Forall_impl; [exact p_below0|]. cbn. lia. }
  assert (F : Forall (fun id => 0 <= id < next_id p + 1) (live p ++ [next_id p])).
  { apply Forall_app. split; [eapply Forall_impl; [exact p_below0|]; cbn; lia|]. constructor; [lia|done]. }
  rewrite E in S, F. apply Forall_app in F as [_ F]. split; cbn; [lia|by eapply StronglySorted_suffix|done|lia].
Qed.

Lemma StronglySorted_sublist {A} (R : A -> A -> Prop) (l k : list A) : l `sublist_of` k -> StronglySorted R k -> StronglySorted R l.
Proof.
  induction 1 as [|x l k Sub IH|x l k Sub IH]; intros S; [done| |]; inversion_clear S as [|? ? S' F]; [|by apply IH].
  constructor; [by apply IH|]. rewrite Forall_forall in *. intros y Hy. apply F. by eapply elem_of_sublist.
Qed.

Lemma leave_ok n id p : pool_ok n p -> pool_ok n (leave id p).
Proof.
  intros []. pose proof (retain_ne_sublist id (live p)) as Sub. split; cbn; [done|by eapply StronglySorted_sublist| |].
  - rewrite Forall_forall in *. intros x Hx. by apply p_below0, (elem_of_sublist _ _ _ Hx).
  - apply sublist_length in Sub. unfold len in *. lia.
Qed.

Lemma pool_run_ok ops : len ops <= u64_max -> pool_ok (len ops) (pool_run ops).
Proof.
  induction ops as [|op ops IH] using rev_ind; intros H.
  - split; [done|constructor|constructor|done].
  - unfold pool_run. rewrite foldl_app. cbn. fold (pool_run ops). rewrite len_app in *. change (len [op]) with 1 in *.
    pose proof (len_nonneg ops). assert (P : pool_ok (len ops) (pool_run ops)) by (apply IH; lia).
    destruct op as [|id]; [apply admit_ok; [done|lia]|]. apply (leave_ok (len ops)) with (id := id) in P.
    destruct P. split; try done. cbn in *. lia.
Qed.

(** However connections come and go, silent or not: at most thirty-two wait at the token gate, a new one is always
    admitted, at the back; who has to go for it is the one that has waited longest, and only when thirty-two connections
    that came after it are waiting, the new one among them.  A connection that has left is not evicted. *)
Theorem pre_auth_exact ops :
  len ops < u64_max ->
  let p := pool_run ops in
  let '(p', id, victims) := pool_admit p in
  len (live p') <= MAX_PRE_AUTH_CONNECTIONS
  /\ live p ++ [id] = victims ++ live p'
  /\ last (live p') = Some id
  /\ victims = (if len (live p) =? MAX_PRE_AUTH_CONNECTIONS then take 1 (live p) else [])
  /\ Forall (fun v => MAX_PRE_AUTH_CONNECTIONS <= id - v) victims
  /\ forall x, x ∉ live (leave x p).
Proof.
  intros H p. assert (P : pool_ok (len ops) p) by (apply pool_run_ok; lia).
  pose proof (admit_ok _ _ P H) as P'. unfold pool_admit in *. pose proof (evict_oldest_spec (live p ++ [next_id p])) as E.
  destruct (evict_oldest _) as [keep victims]. destruct E as [E L]. cbn in *. destruct P as [Pn Ps Pb Pz], P' as [_ Ps' _ Pz']. cbn in *.
  assert (Lv : len victims = if len (live p) =? MAX_PRE_AUTH_CONNECTIONS then 1 else 0).
  { apply (f_equal len) in E. rewrite (len_app (live p)), (len_app victims) in E. rewrite len_app in L. change (len [_]) with 1 in *. unfold MAX_PRE_AUTH_CONNECTIONS in *.
    destruct (Z.eqb_spec (len (live p)) 32); lia. }
  assert (Lk : last keep = Some (next_id p)).
  { destruct keep as [|k keep _] using rev_ind.
    { exfalso. rewrite len_app in L. pose proof (len_nonneg (live p)). change (len (@nil Z)) with 0 in L.
      change (len [_]) with 1 in L. unfold MAX_PRE_AUTH_CONNECTIONS in L. lia. }
    rewrite app_assoc in E. apply app_inj_tail in E as [_ ->]. apply last_snoc. }
  split_and!; try done.
  - destruct (_ =? _) eqn:F; [|by apply len_zero_inv].
    destruct victims as [|v [|w vs]]; [done| |cbn in Lv; pose proof (len_nonneg vs); len_lia].
    destruct (live p) as [|x l]; [done|]. by injection E as -> _.
  - destruct (_ =? _) eqn:F; [|apply len_zero_inv in Lv as ->; constructor].
    destruct victims as [|v [|w vs]]; [done| |cbn in Lv; pose proof (len_nonneg vs); len_lia]. constructor; [|constructor].
    apply Z.eqb_eq in F. destruct (live p) as [|x l]; [done|]. injection E as -> E. inversion_clear Ps as [|? ? Ps1 Px].
    assert (Lk' : len keep = MAX_PRE_AUTH_CONNECTIONS) by (rewrite <- E, len_app; change (len [_]) with 1; rewrite len_cons in F; lia).
    rewrite <- Lk'. apply sorted_gap; [done| |].
    + rewrite <- E. apply Forall_app. rewrite Forall_forall in *. split; [intros y Hy|apply Forall_forall; intros y ->%list_elem_of_singleton].
      * specialize (Px y Hy). specialize (Pb y ltac:(by right)). lia.
      * specialize (Pb v ltac:(by left)). lia.
    + rewrite Forall_forall in Pb. specialize (Pb v ltac:(by left)). lia.
  - intros x Hx%elem_of_retain_ne. by destruct Hx.
Qed.

(** ** Theorems: the head *)

Lemma blank_line_read buf : take 4 buf = rev CRLF2 <-> CRLF2 `suffix_of` rev buf.
Proof.
  split.
  - intros H. exists (rev (drop 4 buf)). rewrite <- (take_drop 4 buf) at 1. by rewrite rev_app_distr, H, rev_involutive.
  - intros [k E]. apply (f_equal (@rev byte)) in E. rewrite rev_involutive, rev_app_distr in E. by rewrite E.
Qed.

(** No blank line has been read yet. *)
Definition no_blank_line (bs : list byte) : Prop := forall p, p `prefix_of` bs -> ~ CRLF2 `suffix_of` p.

Lemma no_blank_line_snoc bs b : no_blank_line bs -> ~ CRLF2 `suffix_of` (bs ++ [b]) -> no_blank_line (bs ++ [b]).
Proof.
  intros H N p [k E]. destruct k as [|x k _] using rev_ind; [rewrite app_nil_r in E; by subst|].
  rewrite app_assoc in E. apply app_inj_tail in E as [-> _]. apply H. by eexists.
Qed.

(** What [read_head] makes of the bytes [bs] of a connection. *)
Definition head_result (bs : list byte) (res : exec unit (option (list byte * list byte))) : Prop :=
  match res with
  | Ok (Some (hd, rest)) =>
      bs = hd ++ rest /\ CRLF2 `suffix_of` hd /\ len hd <= MAX_HEAD + 1
      /\ forall p, p `prefix_of` hd -> p <> hd -> ~ CRLF2 `suffix_of` p
  | Ok None => no_blank_line bs /\ len bs <= MAX_HEAD
  | Err _ => exists p, p `prefix_of` bs /\ len p = MAX_HEAD + 1 /\ no_blank_line p
  | Panic => False
  end.

Lemma read_head_from s buf : no_blank_line (rev buf) -> len buf <= MAX_HEAD -> head_result (rev buf ++ s) (read_head buf s).
Proof.
  revert buf. induction s as [|b s IH]; intros buf N L; cbn [read_head].
  - cbn. rewrite app_nil_r. split; [done|]. unfold len in *. by rewrite length_rev.
  - assert (E : rev buf ++ b :: s = rev (b :: buf) ++ s) by (cbn; by rewrite <- app_assoc).
    assert (Lr : len (rev (b :: buf)) = len buf + 1) by (unfold len; rewrite length_rev; cbn; lia).
    destruct (bool_decide_reflect (take 4 (b :: buf) = rev CRLF2)) as [B|B]; rewrite blank_line_read in B.
    + rewrite E. split_and!; [done|done|lia|]. intros p Hp Hne. cbn in Hp, Hne.
      destruct Hp as [k Ep]. destruct k as [|x k _] using rev_ind; [rewrite app_nil_r in Ep; by subst|].
      rewrite app_assoc in Ep. apply app_inj_tail in Ep as [Ep _]. apply N. by exists k.
    + assert (N' : no_blank_line (rev (b :: buf))) by (cbn in *; by apply no_blank_line_snoc).
      destruct (Z.ltb_spec MAX_HEAD (len (b :: buf))) as [H|H].
      * exists (rev (b :: buf)). rewrite E. split_and!; [by eexists|rewrite len_cons in H; lia|done].
      * rewrite E. by apply IH.
Qed.

Lemma no_blank_line_nil : no_blank_line [].
Proof. intros p Hp [k E]. apply prefix_nil_inv in Hp as ->. by destruct k. Qed.

(** The head that is read ends with the first blank line of the connection and not a byte behind it is consumed, so that
    what follows reaches the WebSocket; every head is found that has one within the bytes looked at. *)
Theorem read_head_exact bs hd rest :
  read_head [] bs = Ok (Some (hd, rest)) <->
  bs = hd ++ rest /\ CRLF2 `suffix_of` hd /\ len hd <= MAX_HEAD + 1
  /\ forall p, p `prefix_of` hd -> p <> hd -> ~ CRLF2 `suffix_of` p.
Proof.
  pose proof (read_head_from bs [] no_blank_line_nil ltac:(done)) as R. cbn [rev app] in R. split.
  - intros E. by rewrite E in R.
  - intros (-> & S & L & M). assert (P : hd `prefix_of` hd ++ rest) by (by eexists).
    destruct (read_head [] (hd ++ rest)) as [[[hd' rest']|]|e|]; [| | |done].
    + destruct R as (E & S' & _ & M').
      assert (hd' = hd) as ->.
      { assert (P' : hd' `prefix_of` hd ++ rest) by (rewrite E; by eexists).
        destruct (decide (hd' = hd)) as [|Hne]; [done|]. destruct (prefix_weak_total _ _ _ P P') as [W|W].
        - by destruct (M' hd W ltac:(congruence)).
        - by destruct (M hd' W Hne). }
      by apply app_inv_head in E as ->.
    + by destruct (proj1 R hd P).
    + destruct R as (p & Pp & Lp & N). exfalso. apply (N hd); [|done].
      destruct (prefix_weak_total _ _ _ P Pp) as [W|W]; [done|]. pose proof (prefix_length_eq p hd W) as Q.
      rewrite Q; [done|]. unfold len in *. lia.
Qed.

(** The cap is looked at after the blank line: a head one byte over it is served. *)
Theorem head_one_over_cap rest :
  exists hd, len hd = MAX_HEAD + 1 /\ read_head [] (hd ++ rest) = Ok (Some (hd, rest)).
Proof.
  assert (exists filler, len filler = MAX_HEAD - 3 /\ filter (fun b => b = x0a) filler = []) as (filler & Lf & F).
  { exists (replicate (Z.to_nat (MAX_HEAD - 3)) x61). unfold len. rewrite length_replicate.
    rewrite Z2Nat.id by (unfold MAX_HEAD; lia). split; [done|]. generalize (Z.to_nat (MAX_HEAD - 3)). by induction n. }
  exists (filler ++ CRLF2).
  assert (L : len (filler ++ CRLF2) = MAX_HEAD + 1) by (rewrite len_app, Lf; change (len CRLF2) with 4; lia). split; [done|].
  apply read_head_exact. split_and!; [done|by eexists|lia|]. intros p [k E] Hne [q ->].
  destruct k as [|x k _] using rev_ind; [by rewrite app_nil_r in E|].
  rewrite app_assoc in E. change CRLF2 with ([x0d; x0a; x0d] ++ [x0a]) in E at 1. rewrite app_assoc in E.
  apply app_inj_tail in E as [E _]. apply (f_equal (fun l => length (filter (fun b => b = x0a) l))) in E.
  rewrite <- app_assoc, !filter_app, F, !length_app in E.
  assert (C1 : length (filter (fun b => b = x0a) [x0d; x0a; x0d]) = 1%nat) by (vm_compute; done).
  assert (C2 : length (filter (fun b => b = x0a) CRLF2) = 2%nat) by (vm_compute; done).
  rewrite C1, C2 in E. cbn in E. lia.
Qed.

(** ** A console at work *)

Definition lab : ServerConfig := mkServerConfig "s3cret" ["localhost"; "127.0.0.1"; "[::1]"; "::1"]%string.

Definition crlf : string := String "013" (String "010" "").
Definition http (request_line : string) (fields : list string) : list byte :=
  as_bytes (request_line ++ crlf ++ join_with crlf fields ++ crlf ++ crlf)%string.

(** A request from the wire through the gate, with stand-ins for the asset bodies and SHA-1. *)
Definition serve (secure : bool) (stream : list byte) : option (bool * exec unit Decision) :=
  match read_request from_bytes stream with
  | Ok (Some (req, _)) => Some (gate (fun i => [as_u8 (Z.of_nat i)]) (fun l => take 20 l) lab "a55et" secure 8080 128 true req)
  | _ => None
  end.

Example console_session :
  serve false (http "GET /?token=s3cret HTTP/1.1" ["Host: localhost:8080"]%string)
    = Some (false, Ok (Redirect "nexus_session_8080=s3cret; Path=/ws; HttpOnly; SameSite=Strict"
                                "nexus_assets_8080=a55et; Path=/; HttpOnly; SameSite=Strict"))
  /\ serve false (http "GET /ws HTTP/1.1" ["Host: localhost:8080"; "Cookie: nexus_assets_8080=a55et"]%string)
    = Some (false, Ok (Refuse 401))
  /\ serve false (http "GET /ws HTTP/1.1" ["Host: localhost:8080"; "Origin: http://localhost:9090";
                                          "Cookie: nexus_session_8080=s3cret"]%string)
    = Some (false, Ok (Refuse 403))
  /\ serve false (http "GET /ws HTTP/1.1" ["host: LOCALHOST:8080"; "Origin: http://localhost:8080"; "Sec-WebSocket-Key: k";
                                          "Cookie: nexus_session_8080=planted; nexus_session_8080=s3cret"]%string)
    = Some (true, Ok (SwitchProtocols "azI1OEVBRkE1LUU5MTQtNDdEQS0="))
  /\ serve false (http "GET /app.js HTTP/1.1" ["Host: [::1]:8080"; "Cookie: nexus_assets_8080=a55et";
                                              "If-None-Match: W/" ++ etag (fun i => [as_u8 (Z.of_nat i)]) 1]%string)
    = Some (true, Ok (NotModified (etag (fun i => [as_u8 (Z.of_nat i)]) 1))).
Proof. vm_compute. done. Qed.

Lemma pre_auth_exact_witness :
  let p := pool_run (replicate 40 Accept ++ [Leave 39]) in
  len (live p) = 31 /\ let '(p', id, victims) := pool_admit p in
  len (live p') <= MAX_PRE_AUTH_CONNECTIONS /\ last (live p') = Some id.
Proof.
  intros p. split; [vm_compute; reflexivity|].
  pose proof (pre_auth_exact (replicate 40 Accept ++ [Leave 39]) ltac:(vm_compute; reflexivity)) as H.
  cbv zeta in H. change (pool_run (replicate 40 Accept ++ [Leave 39])) with p in H. clearbody p.
  destruct (pool_admit p) as [[p' id] victims]. destruct H as (H1 & _ & H2 & _). split; [exact H1|exact H2].
Defined.

Lemma origin_port_exact_witness :
  origin_matches_host "https://console.lab" "CONSOLE.lab:443" true = true
  /\ origin_matches_host "http://localhost:9090" "localhost:8080" false = false.
Proof.
  split.
  - etransitivity; [exact (origin_port_exact true true "console.lab" None "CONSOLE.lab" (Some 443)
      ltac:(repeat split; reflexivity) I ltac:(repeat split; reflexivity) ltac:(vm_compute; split; discriminate))|].
    vm_compute. reflexivity.
  - etransitivity; [exact (origin_port_exact false false "localhost" (Some 9090) "localhost" (Some 8080)
      ltac:(repeat split; reflexivity) ltac:(vm_compute; split; discriminate) ltac:(repeat split; reflexivity)
      ltac:(vm_compute; split; discriminate))|].
    vm_compute. reflexivity.
Defined.
