(* ===== verification/Leash.v ===== *)
(** * The lifetime leash (rpc/src/leash.rs)

    One thread reads stdin to its end and releases every waiter: threads blocked in [wait]
    on a condition variable, and futures that left a waker in the table.  A state is that of
    the mutex, of the reader thread, of the blocked threads and of the signals;
    [leash_step] is one critical section, or what is done between two of them, in any
    interleaving.  A waker is the identity of the task it wakes. *)

From S2P Require Import Prelude.
#[local] Open Scope Z_scope.

(** What a read of stdin answers. *)
Inductive ReadAnswer := ReadBytes (n : Z) | ReadInterrupted | ReadFailed.

(** The loop of [drain_to_eof]: whether an answer ends it. *)
Definition ends_drain (r : ReadAnswer) : bool :=
  match r with ReadBytes n => n =? 0 | ReadInterrupted => false | ReadFailed => true end.

(** [State]: the table has at most one waker a signal. *)
Record State := mkState { started : bool; seen : bool; wakers : list (Z * nat) }.

(** The reader thread: not spawned; in [drain_to_eof]; before [complete]; past its critical section, about to notify; with
    the wakers still to wake; gone. *)
Inductive Reader := Unspawned | Draining | Completing | Notifying (ws : list (Z * nat)) | Waking (ws : list (Z * nat)) | Gone.

(** A thread in [wait]: about to look at [seen], asleep on the condition variable, returned. *)
Inductive Waiter := Looking | Asleep | Returned.

(** A signal: never polled; pending, with the task of its last poll and whether that task has been woken since; resolved. *)
Inductive Signal := Unpolled | Pending (task : nat) (woken : bool) | Resolved.

Record Leash := mkLeash {
  watch : State; reader : Reader; waiters : gmap nat Waiter; signals : gmap Z Signal; next_signal_id : Z;
  answers : list ReadAnswer }.

Definition leash_new : Leash := mkLeash (mkState false false []) Unspawned ∅ ∅ 0 [].

(** ** Operations *)

(** [stdin_eof_watch]; [spawned]: whether the thread could be created. *)
Definition stdin_eof_watch (spawned : bool) (l : Leash) : Leash :=
  if started (watch l) || negb spawned then l
  else mkLeash (mkState true (seen (watch l)) (wakers (watch l))) Draining (waiters l) (signals l) (next_signal_id l) (answers l).

(** A turn of [drain_to_eof]. *)
Definition drain_turn (r : ReadAnswer) (l : Leash) : Leash :=
  match reader l with
  | Draining =>
      mkLeash (watch l) (if ends_drain r then Completing else Draining) (waiters l) (signals l) (next_signal_id l) (answers l ++ [r])
  | _ => l
  end.

(** The critical section of [complete]. *)
Definition complete (l : Leash) : Leash :=
  match reader l with
  | Completing =>
      mkLeash (mkState (started (watch l)) true []) (Notifying (wakers (watch l))) (waiters l) (signals l) (next_signal_id l) (answers l)
  | _ => l
  end.

Definition notified (w : Waiter) : Waiter := match w with Asleep => Looking | w => w end.

(** [woken.notify_all()]. *)
Definition notify_all (l : Leash) : Leash :=
  match reader l with
  | Notifying ws => mkLeash (watch l) (Waking ws) (notified <$> waiters l) (signals l) (next_signal_id l) (answers l)
  | _ => l
  end.

(** [waker.wake()]: the signals whose last poll was by that task see it run again. *)
Definition wake (task : nat) (s : Signal) : Signal :=
  match s with Pending t w => Pending t (w || bool_decide (t = task)) | s => s end.

(** One turn of the loop over the wakers. *)
Definition wake_next (l : Leash) : Leash :=
  match reader l with
  | Waking ((_, task) :: ws) => mkLeash (watch l) (Waking ws) (waiters l) (wake task <$> signals l) (next_signal_id l) (answers l)
  | Waking [] => mkLeash (watch l) Gone (waiters l) (signals l) (next_signal_id l) (answers l)
  | _ => l
  end.

(** A turn of the loop of [wait]: look at [seen] and return, or sleep, which releases the lock. *)
Definition wait_turn (k : nat) (l : Leash) : Leash :=
  match waiters l !! k with
  | Some Looking =>
      mkLeash (watch l) (reader l) (<[k := if seen (watch l) then Returned else Asleep]> (waiters l)) (signals l) (next_signal_id l) (answers l)
  | _ => l
  end.

(** A thread calls [wait]; a condition variable may also wake it for nothing. *)
Definition wait_call (k : nat) (l : Leash) : Leash :=
  mkLeash (watch l) (reader l) (<[k := Looking]> (waiters l)) (signals l) (next_signal_id l) (answers l).
Definition wake_spuriously (k : nat) (l : Leash) : Leash :=
  match waiters l !! k with
  | Some Asleep => wait_call k l
  | _ => l
  end.

(** [signal]. *)
Definition signal (l : Leash) : Leash :=
  mkLeash (watch l) (reader l) (waiters l) (<[next_signal_id l := Unpolled]> (signals l)) (next_signal_id l + 1) (answers l).

(** The table after a poll by [task]. *)
Fixpoint keep_waker (id : Z) (task : nat) (ws : list (Z * nat)) : list (Z * nat) :=
  match ws with
  | [] => [(id, task)]
  | (slot, held) :: ws => if slot =? id then (slot, if bool_decide (held = task) then held else task) :: ws
                          else (slot, held) :: keep_waker id task ws
  end.

(** [poll_eof], of a signal not yet resolved. *)
Definition poll_eof (id : Z) (task : nat) (l : Leash) : Leash :=
  match signals l !! id with
  | Some (Unpolled | Pending _ _) =>
      let st := watch l in
      if seen st then mkLeash st (reader l) (waiters l) (<[id := Resolved]> (signals l)) (next_signal_id l) (answers l)
      else mkLeash (mkState (started st) (seen st) (keep_waker id task (wakers st))) (reader l) (waiters l)
                   (<[id := Pending task false]> (signals l)) (next_signal_id l) (answers l)
  | _ => l
  end.

(** The drop of a signal ([forget]). *)
Definition drop_signal (id : Z) (l : Leash) : Leash :=
  let st := watch l in
  mkLeash (mkState (started st) (seen st) (filter (fun e => e.1 <> id) (wakers st))) (reader l) (waiters l)
          (delete id (signals l)) (next_signal_id l) (answers l).

Inductive LeashOp :=
| Arm (spawned : bool) | DrainTurn (r : ReadAnswer) | Complete | Notify | WakeNext
| WaitCall (k : nat) | WaitTurn (k : nat) | Spurious (k : nat)
| NewSignal | Poll (id : Z) (task : nat) | DropSignal (id : Z).

Definition leash_step (op : LeashOp) (l : Leash) : Leash :=
  match op with
  | Arm spawned => stdin_eof_watch spawned l
  | DrainTurn r => drain_turn r l
  | Complete => complete l
  | Notify => notify_all l
  | WakeNext => wake_next l
  | WaitCall k => wait_call k l
  | WaitTurn k => wait_turn k l
  | Spurious k => wake_spuriously k l
  | NewSignal => signal l
  | Poll id task => poll_eof id task l
  | DropSignal id => drop_signal id l
  end.

Definition leash_run (ops : list LeashOp) (l : Leash) : Leash := foldl (fun l op => leash_step op l) l ops.

(** ** The invariant *)

(** The wakers the reader thread has still to wake. *)
Definition in_hand (r : Reader) : list (Z * nat) := match r with Notifying ws | Waking ws => ws | _ => [] end.

Definition completed (r : Reader) : bool := match r with Notifying _ | Waking _ | Gone => true | _ => false end.
Definition has_notified (r : Reader) : bool := match r with Waking _ | Gone => true | _ => false end.

Record leash_ok (l : Leash) : Prop := {
  l_seen : seen (watch l) = completed (reader l);
  l_started : started (watch l) = match reader l with Unspawned => false | _ => true end;
  l_answers : existsb ends_drain (answers l) = match reader l with Unspawned | Draining => false | _ => true end;
  l_waiters : has_notified (reader l) = true -> forall k, waiters l !! k <> Some Asleep;
  l_taken : seen (watch l) = true -> wakers (watch l) = [];
  l_slots : NoDup (wakers (watch l)).*1;
  l_signals : forall id task, signals l !! id = Some (Pending task false) ->
                (id, task) ∈ (if seen (watch l) then in_hand (reader l) else wakers (watch l));
  l_table : forall id task, (id, task) ∈ wakers (watch l) -> exists w, signals l !! id = Some (Pending task w);
  l_ids : forall id, is_Some (signals l !! id) -> id < next_signal_id l }.

(** ** Lemmas *)

Lemma leash_new_ok : leash_ok leash_new.
Proof. split; try done; [constructor|by intros id task H%elem_of_nil|by intros id [? H]]. Qed.

Lemma keep_waker_keys id task ws :
  (keep_waker id task ws).*1 = if bool_decide (id ∈ ws.*1) then ws.*1 else ws.*1 ++ [id].
Proof.
  induction ws as [|[slot held] ws IH]; [done|]. cbn. destruct (Z.eqb_spec slot id) as [->|Hne]; cbn.
  - by rewrite bool_decide_eq_true_2 by left.
  - rewrite IH. destruct (bool_decide_reflect (id ∈ ws.*1)).
    + by rewrite bool_decide_eq_true_2 by (by right).
    + by rewrite bool_decide_eq_false_2 by (rewrite elem_of_cons; naive_solver).
Qed.

Lemma keep_waker_slots id task ws : NoDup ws.*1 -> NoDup (keep_waker id task ws).*1.
Proof.
  rewrite keep_waker_keys. destruct (bool_decide_reflect (id ∈ ws.*1)); [done|]. intros H.
  apply NoDup_app. split_and!; [done|set_solver|apply NoDup_singleton].
Qed.

(** The table after a poll: the signal's slot has the new task, the others what they had. *)
Lemma elem_of_keep_waker id task ws id' task' :
  NoDup ws.*1 ->
  (id', task') ∈ keep_waker id task ws <-> (id' = id /\ task' = task) \/ (id' <> id /\ (id', task') ∈ ws).
Proof.
  induction ws as [|[slot held] ws IH]; cbn; [intros _; rewrite list_elem_of_singleton, elem_of_nil; naive_solver|].
  intros [Hn Hd]%NoDup_cons. destruct (Z.eqb_spec slot id) as [->|Hne].
  - assert (F : forall t, (id, t) ∉ ws) by (intros t H; apply Hn; apply list_elem_of_fmap; by exists (id, t)).
    rewrite !elem_of_cons. case_bool_decide; naive_solver.
  - rewrite !elem_of_cons, IH by done. naive_solver.
Qed.

Lemma arm_ok spawned l : leash_ok l -> leash_ok (stdin_eof_watch spawned l).
Proof.
  intros L. unfold stdin_eof_watch. destruct (started (watch l)) eqn:S, spawned; cbn; try done.
  destruct L. rewrite S in l_started0. by destruct (reader l) eqn:R.
Qed.

Lemma drain_ok r l : leash_ok l -> leash_ok (drain_turn r l).
Proof.
  intros L. unfold drain_turn. destruct (reader l) eqn:R; try done. destruct L. rewrite R in *.
  split; cbn; try done; [by destruct (ends_drain r)..| |by destruct (ends_drain r)|].
  - rewrite existsb_app, l_answers0. cbn. by destruct (ends_drain r).
  - intros id task H. specialize (l_signals0 id task H). rewrite l_seen0 in *. done.
Qed.

Lemma complete_ok l : leash_ok l -> leash_ok (complete l).
Proof.
  intros L. unfold complete. destruct (reader l) eqn:R; try done. destruct L. rewrite R in *. cbn in *.
  split; cbn; try done; [constructor| |by intros id task H%elem_of_nil].
  intros id task H. specialize (l_signals0 id task H). by rewrite l_seen0 in l_signals0.
Qed.

Lemma notify_ok l : leash_ok l -> leash_ok (notify_all l).
Proof.
  intros L. unfold notify_all. destruct (reader l) eqn:R; try done. destruct L. rewrite R in *. cbn in *.
  split; cbn; try done. intros _ k. rewrite lookup_fmap. by destruct (waiters l !! k) as [[]|].
Qed.

Lemma wake_next_ok l : leash_ok l -> leash_ok (wake_next l).
Proof.
  intros L. unfold wake_next. destruct (reader l) as [| | | |[|[id0 task0] ws]|] eqn:R; try done; destruct L; rewrite R in *; cbn in *.
  - by split; cbn.
  - split; cbn; try done.
    + intros id task. rewrite lookup_fmap. destruct (signals l !! id) as [[|t w|]|] eqn:E; cbn; try done.
      intros [= <- [-> Ht]%orb_false_iff]. specialize (l_signals0 id t E). rewrite l_seen0 in *.
      apply elem_of_cons in l_signals0 as [[= -> ->]|]; [by rewrite bool_decide_eq_true_2 in Ht|done].
    + intros id task (w & E)%l_table0. exists (w || bool_decide (task = task0)). by rewrite lookup_fmap, E.
    + intros id. rewrite lookup_fmap. intros H%fmap_is_Some. by apply l_ids0.
Qed.

Lemma waiting_ok k w l :
  leash_ok l -> (w = Asleep -> seen (watch l) = false) ->
  leash_ok (mkLeash (watch l) (reader l) (<[k := w]> (waiters l)) (signals l) (next_signal_id l) (answers l)).
Proof.
  intros [] W. split; cbn; try done. intros H j. destruct (decide (j = k)) as [->|Hne].
  - rewrite lookup_insert_eq. intros [= ->]. specialize (W eq_refl). rewrite l_seen0 in W. by destruct (reader l).
  - rewrite lookup_insert_ne by done. by apply l_waiters0.
Qed.

Lemma new_signal_ok l : leash_ok l -> leash_ok (signal l).
Proof.
  intros []. assert (F : signals l !! next_signal_id l = None).
  { destruct (signals l !! next_signal_id l) eqn:E; [|done]. specialize (l_ids0 (next_signal_id l) ltac:(by eexists)). lia. }
  split; cbn; try done.
  - intros id task. destruct (decide (id = next_signal_id l)) as [->|]; [by rewrite lookup_insert_eq|].
    rewrite lookup_insert_ne by done. apply l_signals0.
  - intros id task (w & E)%l_table0. exists w. rewrite lookup_insert_ne; [done|]. intros Eq. congruence.
  - intros id. destruct (decide (id = next_signal_id l)) as [->|]; [lia|]. rewrite lookup_insert_ne by done.
    intros H%l_ids0. lia.
Qed.

Lemma poll_ok id task l : leash_ok l -> leash_ok (poll_eof id task l).
Proof.
  intros L. unfold poll_eof. destruct (signals l !! id) as [sg|] eqn:E; [|done].
  assert (H : is_Some (signals l !! id)) by eauto. apply (l_ids l L) in H.
  assert (K : leash_ok (if seen (watch l) then mkLeash (watch l) (reader l) (waiters l) (<[id := Resolved]> (signals l)) (next_signal_id l) (answers l)
      else mkLeash (mkState (started (watch l)) (seen (watch l)) (keep_waker id task (wakers (watch l)))) (reader l) (waiters l)
                   (<[id := Pending task false]> (signals l)) (next_signal_id l) (answers l))); [|by destruct sg].
  destruct L. destruct (seen (watch l)) eqn:S; split; cbn; try done; rewrite ?S in *; try done.
  - intros id' t. destruct (decide (id' = id)) as [->|]; [by rewrite lookup_insert_eq|]. rewrite lookup_insert_ne by done. apply l_signals0.
  - intros id' t. rewrite (l_taken0 eq_refl). by intros Hn%elem_of_nil.
  - intros id'. destruct (decide (id' = id)) as [->|]; [done|]. rewrite lookup_insert_ne by done. apply l_ids0.
  - by apply keep_waker_slots.
  - intros id' t. rewrite elem_of_keep_waker by done. destruct (decide (id' = id)) as [->|]; [rewrite lookup_insert_eq; naive_solver|].
    rewrite lookup_insert_ne by done. right. by auto.
  - intros id' t. rewrite elem_of_keep_waker by done. intros [[-> ->]|[Hne Hin]]; [exists false; by rewrite lookup_insert_eq|].
    rewrite lookup_insert_ne by done. by apply l_table0.
  - intros id'. destruct (decide (id' = id)) as [->|]; [done|]. rewrite lookup_insert_ne by done. apply l_ids0.
Qed.

Lemma drop_ok id l : leash_ok l -> leash_ok (drop_signal id l).
Proof.
  intros []. split; cbn; try done.
  - intros S. by rewrite (l_taken0 S).
  - by apply (NoDup_fmap_filter fst).
  - intros id' t. destruct (decide (id' = id)) as [->|]; [by rewrite lookup_delete_eq|]. rewrite lookup_delete_ne by done.
    intros H%l_signals0. destruct (seen (watch l)); [done|]. by apply list_elem_of_filter.
  - intros id' t [Hne Hin]%list_elem_of_filter. cbn in Hne. rewrite lookup_delete_ne by done. by apply l_table0.
  - intros id' H. apply l_ids0. destruct H as [x Hx]. apply lookup_delete_Some in Hx as [_ Hx]. by exists x.
Qed.

Lemma leash_step_ok op l : leash_ok l -> leash_ok (leash_step op l).
Proof.
  intros L. destruct op as [spawned|r| | | |k|k|k| |id task|id]; cbn [leash_step];
    [by apply arm_ok|by apply drain_ok|by apply complete_ok|by apply notify_ok|by apply wake_next_ok|by apply waiting_ok| |
     |by apply new_signal_ok|by apply poll_ok|by apply drop_ok].
  - unfold wait_turn. destruct (waiters l !! k) as [[]|]; try done. apply waiting_ok; [done|]. by destruct (seen (watch l)).
  - unfold wake_spuriously. destruct (waiters l !! k) as [[]|]; try done. by apply waiting_ok.
Qed.

(** Nothing is released before the close: no thread has returned, no signal is resolved, no task was woken. *)
Definition none_early (l : Leash) : Prop :=
  seen (watch l) = false ->
  (forall k, waiters l !! k <> Some Returned)
  /\ (forall id, signals l !! id <> Some Resolved)
  /\ (forall id task, signals l !! id <> Some (Pending task true)).

Lemma insert_not {K V} `{Countable K} (m : gmap K V) i x y : x <> y -> (forall j, m !! j <> Some y) -> forall j, <[i := x]> m !! j <> Some y.
Proof. intros N A j. rewrite lookup_insert. case_decide; [congruence|apply A]. Qed.

Lemma leash_step_early op l : leash_ok l -> none_early l -> none_early (leash_step op l).
Proof.
  intros L E. assert (C : completed (reader l) = true -> seen (watch l) = true) by (intros H; by rewrite (l_seen l L)).
  destruct op as [spawned|r| | | |k|k|k| |id task|id]; cbn [leash_step].
  - unfold stdin_eof_watch. by destruct (started (watch l) || _).
  - unfold drain_turn. by destruct (reader l).
  - unfold complete. by destruct (reader l).
  - unfold notify_all. destruct (reader l); try done. intros S. cbn in S, C. by rewrite C in S.
  - unfold wake_next. destruct (reader l) as [| | | |[|[id0 task0] ws]|]; try done; intros S; cbn in S, C; by rewrite C in S.
  - intros S. destruct (E S) as (W & G). split; [|exact G]. by apply insert_not.
  - unfold wait_turn. destruct (waiters l !! k) as [[]|]; try done. intros S. destruct (E S) as (W & G). cbn in S. rewrite S.
    split; [|exact G]. by apply insert_not.
  - unfold wake_spuriously. destruct (waiters l !! k) as [[]|]; try done. intros S. destruct (E S) as (W & G).
    split; [|exact G]. by apply insert_not.
  - intros S. destruct (E S) as (W & R & P). split_and!; [exact W|by apply insert_not|]. intros id task. by apply insert_not.
  - unfold poll_eof. destruct (signals l !! id) as [[]|]; try done; destruct (seen (watch l)) eqn:S; intros S'; cbn in S'; try congruence;
      destruct (E S) as (W & R & P); (split_and!; [exact W|by apply insert_not|]; intros id' t; by apply insert_not).
  - intros S. destruct (E S) as (W & R & P).
    split_and!; [exact W|intros id'; cbn|intros id' t; cbn]; rewrite lookup_delete_Some; [intros [_ H]; by apply (R id')|intros [_ H]; by apply (P id' t)].
Qed.

Lemma leash_run_ok ops : leash_ok (leash_run ops leash_new) /\ none_early (leash_run ops leash_new).
Proof.
  unfold leash_run. assert (E : none_early leash_new) by done. revert E. generalize leash_new_ok. generalize leash_new.
  induction ops as [|op ops IH]; intros l L E; [done|]. apply IH; [by apply leash_step_ok|by apply leash_step_early].
Qed.

(** ** Theorems *)

(** C38: No waiter misses the close of stdin, however threads and tasks interleave with the reader thread: once it is gone, no
    thread is asleep in [wait] and every pending signal's task has been woken since its last poll; from its critical section
    on, whoever looks is released.  Nothing is released before: until an end of the stream, or a read error that is not an
    interruption, has been read, no thread has returned from [wait], no signal is resolved and no signal's task was woken,
    whatever is written on stdin and however often a thread wakes for nothing. *)
Theorem leash_releases_all ops :
  let l := leash_run ops leash_new in
  (seen (watch l) = true -> existsb ends_drain (answers l) = true)
  /\ (existsb ends_drain (answers l) = false ->
      (forall k, waiters l !! k <> Some Returned)
      /\ (forall id, signals l !! id <> Some Resolved)
      /\ (forall id task, signals l !! id <> Some (Pending task true)))
  /\ (reader l = Gone ->
      seen (watch l) = true /\ (forall k, waiters l !! k <> Some Asleep)
      /\ forall id task woken, signals l !! id = Some (Pending task woken) -> woken = true)
  /\ (seen (watch l) = true ->
      (forall k, waiters l !! k = Some Looking -> waiters (wait_turn k l) !! k = Some Returned)
      /\ (forall id task s, signals l !! id = Some s -> signals (poll_eof id task l) !! id = Some Resolved)).
Proof.
  intros l. destruct (leash_run_ok ops) as [[] E]. fold l in l_seen0, l_answers0, l_waiters0, l_signals0, E. split_and!.
  - rewrite l_seen0, l_answers0. by destruct (reader l).
  - rewrite l_answers0. intros A. apply E. rewrite l_seen0. by destruct (reader l).
  - intros R. rewrite R in *. split_and!; [done|by apply l_waiters0|]. intros id task [] H; [done|].
    specialize (l_signals0 id task H). rewrite l_seen0 in l_signals0. by apply elem_of_nil in l_signals0.
  - intros S. split.
    + intros k K. unfold wait_turn. rewrite K, S. cbn. by rewrite lookup_insert_eq.
    + intros id task s H. unfold poll_eof. rewrite H. destruct s; rewrite ?S; cbn; by rewrite ?lookup_insert_eq.
Qed.

(** The turns of the reader thread left once its drain has ended. *)
Definition reader_turns (l : Leash) : list LeashOp :=
  Complete :: Notify :: replicate (S (length (wakers (watch l)))) WakeNext.

(** The reader thread needs nobody's help: when stdin ends, its own turns take it to the end. *)
Theorem close_completes ops l' :
  let l := leash_run ops leash_new in
  reader l = Completing -> l' = leash_run (reader_turns l) l -> reader l' = Gone /\ seen (watch l') = true.
Proof.
  intros l R ->. unfold reader_turns, leash_run. cbn [foldl]. cbn [leash_step]. unfold complete. rewrite R. unfold notify_all. cbn [reader].
  assert (W : forall ws st wt sg n an, let l' := foldl (fun l op => leash_step op l) (mkLeash st (Waking ws) wt sg n an) (replicate (S (length ws)) WakeNext) in
              reader l' = Gone /\ watch l' = st).
  { induction ws as [|[i t] ws IH]; intros; [done|]. apply IH. }
  destruct (W (wakers (watch l)) (mkState (started (watch l)) true []) (notified <$> waiters l) (signals l) (next_signal_id l) (answers l)) as [Wr Ww].
  cbn [watch started seen wakers waiters signals next_signal_id answers] in *. split; [exact Wr|]. by rewrite Ww.
Qed.

(** A blocked thread, a re-polled signal, a dropped one and a supervisor that dies without a word. *)
Definition leash_story : list LeashOp :=
  [Arm false; Arm true; WaitCall 1; WaitTurn 1; NewSignal; NewSignal; Poll 0 10; Poll 1 11; Poll 0 12; DropSignal 1;
   DrainTurn (ReadBytes 1); DrainTurn ReadInterrupted; Spurious 1; WaitTurn 1; DrainTurn (ReadBytes 0)].

Lemma close_completes_witness :
  let l := leash_run leash_story leash_new in
  waiters l !! 1%nat = Some Asleep /\ wakers (watch l) = [(0, 12%nat)]
  /\ reader (leash_run (reader_turns l) l) = Gone
  /\ signals (leash_run (reader_turns l) l) !! 0 = Some (Pending 12 true).
Proof.
  split; [vm_compute; reflexivity|]. split; [vm_compute; reflexivity|].
  destruct (close_completes leash_story (leash_run (reader_turns (leash_run leash_story leash_new)) (leash_run leash_story leash_new))) as [G _];
    [vm_compute; reflexivity|reflexivity|]. split; [exact G|]. vm_compute. reflexivity.
Defined.
