(* ===== verification/Registry.v ===== *)
(** * The codec registry (daemon/src/registry.rs, [precheck_codecs] of daemon/src/daemon.rs)

    The factories compiled in, registration with its two refusals, the names a
    configuration may use, and the check of every codec node before anything is created.
    A factory is a function of the attribute table; tables and codecs are the embedder's. *)

From Stdlib Require Import Strings.String.
From S2P Require Import Prelude GraphTypes Config Resolver Exec.
#[local] Open Scope Z_scope.

#[local] Existing Instance str_le_dec.

#[local] Instance str_le_total : Total str_le.
Proof. intros a b. unfold str_le. destruct (String.leb_total a b); auto. Qed.

Definition RESERVED_NAMES : list string := ["exec"%string].

Inductive RegistryError := Duplicate (name : string) | Reserved (name : string).

Section registry.
Context {Table Cdc : Type}.

Definition CodecFactory : Type := Table -> string + Cdc.

(** The table of factories; codes of names are [HashMap] keys. *)
Definition Registry : Type := gmap string CodecFactory.

Definition registry_new : Registry := ∅.

(** [with_builtins]; [feature]: whether the reference codec is compiled in. *)
Definition with_builtins (feature : bool) (is_empty : Table -> bool) (reference : Cdc) : Registry :=
  if feature then <["reference"%string := fun t => if is_empty t then inr reference else inl "takes no attributes"%string]> registry_new
  else registry_new.

Definition register (name : string) (factory : CodecFactory) (r : Registry) : exec RegistryError Registry :=
  reject bool_decide (name ∈ RESERVED_NAMES) with Reserved name;
  reject bool_decide (is_Some (r !! name)) with Duplicate name;
  Ok (<[name := factory]> r).

Definition sort_names (l : list string) : list string := merge_sort str_le l.

Definition codec_names (r : Registry) : list string := sort_names ((map_to_list r).*1).

Definition usable_codec_names (r : Registry) : list string :=
  let names := codec_names r in
  sort_names (names ++ filter (fun n => n ∉ names) RESERVED_NAMES).

Definition contains (name : string) (r : Registry) : bool := bool_decide (is_Some (r !! name)).

(** [build]: the error carries the registered names. *)
Definition build (name : string) (attributes : Table) (r : Registry) : (string + list string) + Cdc :=
  match r !! name with
  | Some factory => match factory attributes with inr c => inr c | inl e => inl (inl e) end
  | None => inl (inr (codec_names r))
  end.

Inductive PrecheckError :=
| BadExecAttributes (node : string) (e : AttributeError)
| UnknownCodec (node codec : string) (available : list string)
| BadAttributes (node : string) (reason : string + list string).

Variable deserialize : Table -> string + ExecAttributes.

Definition precheck_node (r : Registry) (nc : NodeConfig Table) : option PrecheckError :=
  match nc with
  | Codec name codec _ _ _ _ attributes =>
      if bool_decide (codec = "exec"%string) then
        match parse_attributes deserialize attributes with inl e => Some (BadExecAttributes name e) | inr _ => None end
      else if negb (contains codec r) then Some (UnknownCodec name codec (usable_codec_names r))
      else match build codec attributes r with inl reason => Some (BadAttributes name reason) | inr _ => None end
  | _ => None
  end.

(** [precheck_codecs]: the first node that fails. *)
Fixpoint precheck_codecs (r : Registry) (nodes : list (NodeConfig Table)) : exec PrecheckError unit :=
  match nodes with
  | [] => Ok tt
  | nc :: nodes => match precheck_node r nc with Some e => Err e | None => precheck_codecs r nodes end
  end.

(** ** Lemmas *)

Lemma elem_of_codec_names r n : n ∈ codec_names r <-> is_Some (r !! n).
Proof.
  unfold codec_names, sort_names. rewrite merge_sort_Permutation, list_elem_of_fmap. split.
  - intros ([k f] & -> & H). apply elem_of_map_to_list in H. by exists f.
  - intros [f H]. exists (n, f). split; [done|]. by apply elem_of_map_to_list.
Qed.

Lemma codec_names_nodup r : NoDup (codec_names r).
Proof. unfold codec_names, sort_names. rewrite merge_sort_Permutation. apply NoDup_fst_map_to_list. Qed.

Lemma sort_names_sorted l : Sorted str_le (sort_names l).
Proof. apply Sorted_merge_sort, _. Qed.

(** ** Theorems *)

(** A registration either adds one name, leaving what is there as it was, or is refused, for a reserved name or one taken;
    it never replaces a factory. *)
Theorem register_exact name factory r :
  match register name factory r with
  | Ok r' => name ∉ RESERVED_NAMES /\ r !! name = None /\ r' !! name = Some factory
             /\ (forall n, n <> name -> r' !! n = r !! n)
  | Err (Reserved n) => n = name /\ name ∈ RESERVED_NAMES
  | Err (Duplicate n) => n = name /\ name ∉ RESERVED_NAMES /\ is_Some (r !! name)
  | Panic => False
  end.
Proof.
  unfold register. case_bool_decide as R; [done|]. case_bool_decide as D; [done|].
  split_and!; [done|by apply eq_None_not_Some|apply lookup_insert_eq|]. intros n Hn. by apply lookup_insert_ne.
Qed.

(** The names offered to an operator are, sorted and once each, those a configuration can use: the registered ones and
    the reserved ones. *)
Theorem usable_names_exact r :
  Sorted str_le (usable_codec_names r) /\ NoDup (usable_codec_names r)
  /\ forall n, n ∈ usable_codec_names r <-> contains n r = true \/ n ∈ RESERVED_NAMES.
Proof.
  unfold usable_codec_names. split_and!; [apply sort_names_sorted| |].
  - unfold sort_names. rewrite merge_sort_Permutation. apply NoDup_app. split_and!; [apply codec_names_nodup| |].
    + intros x Hx Hf. apply list_elem_of_filter in Hf as [Hf _]. done.
    + apply NoDup_filter. apply NoDup_singleton.
  - intros n. unfold sort_names, contains. rewrite merge_sort_Permutation, elem_of_app, list_elem_of_filter, bool_decide_eq_true.
    rewrite elem_of_codec_names. destruct (r !! n) eqn:E; naive_solver.
Qed.

(** What a codec node needs to be instantiated. *)
Definition codec_ready (r : Registry) (nc : NodeConfig Table) : Prop :=
  match nc with
  | Codec _ codec _ _ _ _ attributes =>
      if bool_decide (codec = "exec"%string) then parse_attributes deserialize attributes = inr tt
      else exists c, build codec attributes r = inr c
  | _ => True
  end.

(** The check passes exactly when every codec node can be built; else it names the first that cannot, and an unknown
    codec is none of the names it offers instead. *)
Theorem precheck_exact r nodes :
  match precheck_codecs r nodes with
  | Ok _ => Forall (codec_ready r) nodes
  | Err e =>
      exists before nc after, nodes = before ++ nc :: after /\ Forall (codec_ready r) before /\ ~ codec_ready r nc
        /\ match e with
           | UnknownCodec _ codec available => codec ∉ available /\ available = usable_codec_names r
           | _ => True
           end
  | Panic => False
  end.
Proof.
  assert (N : forall nc, match precheck_node r nc with
                         | None => codec_ready r nc
                         | Some e => ~ codec_ready r nc /\ match e with
                             | UnknownCodec _ codec available => codec ∉ available /\ available = usable_codec_names r
                             | _ => True end
                         end).
  { intros nc. destruct nc as [| | |name codec f ch a rr attrs| |]; try done. cbn. case_bool_decide as X.
    - destruct (parse_attributes deserialize attrs) as [|[]]; [|done]. split; [|done]. done.
    - unfold contains, build. case_bool_decide as K; cbn.
      + destruct K as [g K]. cbn. destruct (r !! codec) as [g0|] eqn:K0; [|discriminate K]. destruct (g0 attrs); [|by eexists]. split; [|done]. by intros [c [=]].
      + destruct (r !! codec) as [g0|] eqn:K0; [by destruct K; exists g0|]. split; [by intros [c [=]]|]. split; [|done].
        intros H. apply usable_names_exact in H as [H|H].
        * unfold contains in H. rewrite K0 in H. by apply bool_decide_eq_true, is_Some_None in H.
        * by apply list_elem_of_singleton in H. }
  induction nodes as [|nc nodes IH]; cbn; [constructor|]. specialize (N nc). destruct (precheck_node r nc) as [e|].
  - destruct N as [N K]. exists [], nc, nodes. done.
  - destruct (precheck_codecs r nodes) as [[]|e|]; [by constructor| |done].
    destruct IH as (before & nc' & after & -> & F & R). exists (nc :: before), nc', after. split; [done|]. split; [by constructor|done].
Qed.

End registry.
